(* ===== verification/_CoqProject ===== *)
-Q . S2P
Prelude.v
JsMap.v
JsNum.v
Json.v
ActionStates.v
Admission.v
Handle.v
SlotTable.v
TagIndex.v
TransformStore.v
EntityTable.v
Random.v
Codec.v
Inbox.v
Envelope.v
Channels.v
Replicate.v
Snapshot.v
SimServer.v
JsInt.v
JsRound.v
DetMath.v
ScopeTree.v
Timers.v
Tweens.v
Metadata.v
Hosts.v
Breaker.v
Dispatcher.v
Dispatching.v
World.v
Spatial.v
ProjectFormat.v
TemplateGraph.v
Validate.v
Project.v
Templates.v
Minting.v
Players.v
Wrappers.v
Loop.v
Prediction.v
Predicting.v
Session.v
Movement.v
Bindings.v
Mirror.v
Replica.v
Convergence.v
Handshake.v
Client.v
Scene.v
Stage.v
NodeTree.v
Display.v
