(* ===== verification/Prelude.v ===== *)
(** * Grove: a verification library for the engine

    Grove runs multiplayer 2D games written as scripts. A server process holds the
    authoritative world and steps it at a fixed rate; each client mirrors the world from
    the server's envelopes, predicts its own player's entities ahead of them, and draws
    the result. This library models the TypeScript of both ends and of what lies between
    them, and proves what makes them agree.

    ** How the program is put together, and where each part is

    Foundations ([packages/math], JavaScript itself). [JsMap] has [Map] and [Set] in
    insertion order; [JsNum] binary64 numbers, with [JsInt] and [JsRound] for integers held
    in doubles and for rounding; [Json] strings as 16-bit units and the trees [JSON.parse]
    returns. [Handle] and [SlotTable] are the generation-packed handles and the table that
    issues them; [Random] the seeded generator; [DetMath] the sines, logarithms and powers
    two machines must agree on.

    The world ([packages/core/src/world, loop, dispatch, runtime]). [EntityTable] holds
    entities and their hierarchy, [TagIndex] tags, [TransformStore] positions, [Spatial]
    the overlap, region and as-seen queries over them. [ScopeTree], [Hosts], [Metadata],
    [Breaker] and [Dispatcher] are how engine code calls scripts and survives them;
    [Timers], [Tweens] and [Wrappers] (scoreboards, countdowns) what scripts leave running.
    [World] composes these as the entity manager and the entity facade; [Templates] mints
    template subtrees into it and [Minting] shows what a mint leaves of the world, a whole
    project's load among them; [Players] is the roster and the bodies players control;
    [Movement] moves them; [Loop] is one tick over the whole and the snapshot and restore
    of its stores.

    Projects ([packages/project]). [ProjectFormat], [TemplateGraph] and [Validate] narrow
    an untrusted file; [Project] migrates it and hands it to each consumer.

    The authority ([packages/sim]). [Admission] decides the fate of every input frame;
    [ActionStates] folds the admitted ones into action states; [Channels] journals what
    the world did; [Replicate] and [Snapshot] put it on the wire; [Envelope] narrows what
    clients send; [SimServer] is the session registry and the batch that drives the rest.

    The wire ([packages/transport]). [Codec] encodes and decodes messages, [Inbox] delivers
    them in order.

    The client ([packages/client]). [Handshake] narrows the server's envelopes and gathers
    a chunked snapshot; [Mirror] applies them to a second runtime; [Prediction] rewinds and
    replays, with [Predicting] discharging its interface on the runtime of [Loop]; [Session]
    is the lifecycle and the clock; [Bindings] device events; [Client] the session itself.
    [Replica] and [Convergence] join the two ends. [Display] keeps the renderer's nodes in
    step with the mirror.

    The renderer ([packages/renderer]). [Scene] is the transform graph positions and
    visibility are composed in; [Stage] the core's operations on nodes, over [Scene] and a
    table of [SlotTable], with what it tells the backend; [NodeTree] what these promise a
    client, which [Display] is proved against.

    A definition has the name the code gives the function or field it models. An object
    that is shared or mutated lives in a store and is named by a reference; a value that
    is only copied is a value. Code that may throw returns [outcome]. A class's private
    state is one record, and a method is a function from it to the next.

    ** What the theorems show

    The authority's input: every frame is admitted at most once, in order, and the
    acknowledged frontier never stalls ([Admission]). Replication: a joiner sees each op of
    the world's past exactly once, private state reaches its owner alone, and nothing is
    sent before the welcome ([Replicate], [SimServer]). The wire: decoding inverts encoding,
    and a chunked snapshot is put back together whatever order its frames come in ([Codec],
    [Handshake]). The two ends together: a replica that applies the journal has the world's
    hierarchy ([World]), and the client's mirror follows the server's world through any
    cut into envelopes ([Convergence]), with the one case where it does not.

    Prediction: a rewind lands the stores and the plain fields of the predicted hosts on
    the authoritative baseline ([Predicting], which says of every other host what becomes of
    it), a snapshot's restore gives back what each store captures ([Loop], with what
    outlives it), a tick's effects run once however
    often it is replayed ([Prediction]), and a walk replays to the same place ([Movement]).

    Running scripts: control always comes back from a dispatch, a tripped handler never
    runs again, at most one invocation of an exclusive handler is alive ([Dispatching]);
    timers fire on schedule, countdowns once ([Timers], [Wrappers]); a destroyed entity
    leaves no trace ([World]); the hierarchy is a forest ([EntityTable]); a respawn leaves
    exactly one body and a departure none ([Players]); one pass moves each avatar once
    ([Movement]); a board ranks what was submitted to it ([Wrappers]).

    Files: validation accepts exactly the projects of the format and types what it accepts;
    what it accepts loads whole, or stops with one of the errors named there, of which the
    depth limit is none ([Validate], [TemplateGraph], [Minting]).

    Numbers: the split of a double that [log] computes on loses nothing ([DetMath]).

    Sessions: an ended session is silent and final, an unanswered join fails, input is
    numbered without gaps, the clock's loop ends and stamps each tick once ([Client],
    [Session]).

    Drawing: the scene's links stand for a forest, and a lazy resolve gives what a full
    recomposition would ([Scene]); the backend is told exactly the tree the renderer holds
    ([Stage]), and each call does to it what it means, throws included ([NodeTree]). The
    bridge's tree is the renderer's and leaves nothing behind, and a group template is drawn
    whole or not at all ([Display]); where a batch of moves breaks this is shown there.

    ** Fuel and bounds

    Recursions the code leaves to the stack or to a [while] take fuel here, and each has a
    reason to be enough. A dispatch nests at most [MAX_SEND_DEPTH] deep, so the difference
    to that limit is its fuel; the loop over a host's handlers is not bounded by anything
    when a handler attaches to its own host, so it sets [stuck] and a theorem shows the
    case. The template walks are bounded by [MAX_TEMPLATE_DEPTH] and never run out
    ([template_graph_closed], [template_is_one_journal_entry]). The ancestor walks, the
    sibling walks and the destroy cascade are bounded by the number of slots, the bridge's
    cascade by the number of entities drawn, a group's by its depth limit. A migration has as much fuel as
    versions are left. The client clock's loop has a lemma giving the fuel a frame needs
    ([clock_frame_returns]).

    ** Interfaces and parameters

    Creator code is a parameter everywhere: a tree of what it may do to the engine in
    [Dispatcher], a list of calls in [World], [Timers] and [Tweens], a function of the
    constructor's arguments in [Templates]. [JSON.stringify] and [JSON.parse] are the class
    [JsonText]; the world behind the sim is [SimWorld], what replication reads of it is
    [Replicate.World], the world prediction runs on is [PredictedWorld], the one behind the
    client [ClientWorld], the bridge to the display [RenderBridge]. [Loop] and [Predicting]
    discharge the prediction interface; [Convergence] runs replication over [World].

    ** Not modelled

    The renderer's camera, culling and picking, its assets and its backends, sockets, the scripting toolchain over TypeScript's syntax trees, log lines, the presentation registries (HUD,
    assets, audio), process glue, the platform services and every user interface. What a snapshot restore does to a script's own
    fields is creator code. Text of error messages is modelled only where a client
    sees it. *)

From stdpp Require Export base list gmap strings sorting.
From Stdlib Require Export ZArith Lia.

Declare Scope grove_scope.
Delimit Scope grove_scope with grove.
#[export] Set Default Proof Using "Type".

#[export] Set Warnings "-clear-no-such-hyp".

Create HintDb grove.
Create Rewrite HintDb grove.

(** ** Tactics of the development *)

(** Inversion that leaves no equation behind. *)
Ltac invert H := inversion H; clear H; simplify_eq/=.

(** Destructs every [if] and [match] on a boolean comparison in sight and turns
    the outcome into an arithmetic fact. *)
Ltac bool_facts :=
  repeat match goal with
  | H : (_ && _) = true |- _ => apply andb_prop in H; destruct H
  | H : (_ || _) = false |- _ => apply orb_false_iff in H; destruct H
  | H : negb _ = true |- _ => apply negb_true_iff in H
  | H : negb _ = false |- _ => apply negb_false_iff in H
  | H : (_ <? _)%Z = true |- _ => apply Z.ltb_lt in H
  | H : (_ <? _)%Z = false |- _ => apply Z.ltb_ge in H
  | H : (_ <=? _)%Z = true |- _ => apply Z.leb_le in H
  | H : (_ <=? _)%Z = false |- _ => apply Z.leb_gt in H
  | H : (_ =? _)%Z = true |- _ => apply Z.eqb_eq in H
  | H : (_ =? _)%Z = false |- _ => apply Z.eqb_neq in H
  | H : bool_decide _ = true |- _ => apply bool_decide_eq_true in H
  | H : bool_decide _ = false |- _ => apply bool_decide_eq_false in H
  end.

Ltac case_bool :=
  match goal with
  | |- context [if ?b then _ else _] => let E := fresh "E" in destruct b eqn:E
  | H : context [if ?b then _ else _] |- _ => let E := fresh "E" in destruct b eqn:E
  end; bool_facts.

(** Splits every conjunction of hypotheses and goal. *)
Ltac split_all := repeat match goal with H : _ /\ _ |- _ => destruct H end; repeat split.

(** ** JavaScript arrays addressed by a number

    A read outside [0, length) yields [undefined], which is [None] here. *)

Definition arr_get {A} (l : list A) (i : Z) : option A :=
  if (0 <=? i)%Z then l !! Z.to_nat i else None.

(** A write at an index the array holds; every write the modelled code makes
    outside that range is a [push], modelled as [++ [x]]. *)
Definition arr_set {A} (l : list A) (i : Z) (x : A) : list A :=
  if (0 <=? i)%Z then <[Z.to_nat i := x]> l else l.

Definition arr_len {A} (l : list A) : Z := Z.of_nat (length l).

(** [Array.prototype.pop]: the last element and what is left. *)
Definition arr_pop {A} (l : list A) : option (A * list A) :=
  match last l with
  | Some x => Some (x, take (length l - 1) l)
  | None => None
  end.

Lemma arr_pop_None {A} (l : list A) : arr_pop l = None <-> l = [].
Proof.
  unfold arr_pop. destruct (last l) eqn:E; split; try done.
  - intros ->. done.
  - intros _. by apply last_None.
Qed.

Lemma arr_pop_snoc {A} (l : list A) (x : A) : arr_pop (l ++ [x]) = Some (x, l).
Proof.
  unfold arr_pop. rewrite last_snoc, length_app. simpl.
  replace (length l + 1 - 1) with (length l) by lia. by rewrite take_app_length.
Qed.

Lemma arr_pop_Some {A} (l l' : list A) (x : A) :
  arr_pop l = Some (x, l') <-> l = l' ++ [x].
Proof.
  split.
  - destruct l as [|y l0 _] using rev_ind; [done|].
    rewrite arr_pop_snoc. by intros [= -> ->].
  - intros ->. apply arr_pop_snoc.
Qed.

Lemma arr_get_lookup {A} (l : list A) (i : Z) (x : A) :
  arr_get l i = Some x <-> (0 <= i)%Z /\ l !! Z.to_nat i = Some x.
Proof. unfold arr_get. case_bool; intuition (try lia; try done). Qed.

Lemma arr_get_nat {A} (l : list A) (n : nat) : arr_get l (Z.of_nat n) = l !! n.
Proof. unfold arr_get. case_bool; [by rewrite Nat2Z.id | lia]. Qed.

Lemma arr_get_lt {A} (l : list A) (i : Z) (x : A) :
  arr_get l i = Some x -> (0 <= i < arr_len l)%Z.
Proof.
  rewrite arr_get_lookup. intros [? H%lookup_lt_Some]. unfold arr_len. lia.
Qed.

Lemma arr_get_is_Some {A} (l : list A) (i : Z) :
  (0 <= i < arr_len l)%Z -> exists x, arr_get l i = Some x.
Proof.
  intros H. unfold arr_get, arr_len in *. case_bool; [|lia].
  apply lookup_lt_is_Some_2. lia.
Qed.

Lemma arr_get_out {A} (l : list A) (i : Z) :
  (i < 0 \/ arr_len l <= i)%Z -> arr_get l i = None.
Proof.
  intros H. unfold arr_get, arr_len in *. case_bool; [|done].
  apply lookup_ge_None_2. lia.
Qed.

Lemma arr_set_nat {A} (l : list A) (n : nat) (x : A) : arr_set l (Z.of_nat n) x = <[n:=x]> l.
Proof. unfold arr_set. case_bool; [by rewrite Nat2Z.id | lia]. Qed.

Lemma arr_len_set {A} (l : list A) (i : Z) (x : A) : arr_len (arr_set l i x) = arr_len l.
Proof. unfold arr_len, arr_set. case_bool; [by rewrite length_insert|done]. Qed.

Lemma arr_len_snoc {A} (l : list A) (x : A) : arr_len (l ++ [x]) = (arr_len l + 1)%Z.
Proof. unfold arr_len. rewrite length_app. simpl. lia. Qed.

Lemma arr_get_set_eq {A} (l : list A) (i : Z) (x : A) :
  (0 <= i < arr_len l)%Z -> arr_get (arr_set l i x) i = Some x.
Proof.
  intros H. unfold arr_get, arr_set, arr_len in *. case_bool; [|lia].
  apply list_lookup_insert_eq. lia.
Qed.

Lemma arr_get_set_ne {A} (l : list A) (i j : Z) (x : A) :
  i <> j -> arr_get (arr_set l i x) j = arr_get l j.
Proof.
  intros H. unfold arr_get, arr_set. destruct (0 <=? j)%Z eqn:Ej; [|done].
  case_bool; [|done]. bool_facts. apply list_lookup_insert_ne. lia.
Qed.

Lemma arr_get_snoc_eq {A} (l : list A) (x : A) : arr_get (l ++ [x]) (arr_len l) = Some x.
Proof. unfold arr_len. rewrite arr_get_nat. by apply list_lookup_middle. Qed.

Lemma arr_get_snoc_lt {A} (l : list A) (x : A) (i : Z) :
  (i < arr_len l)%Z -> arr_get (l ++ [x]) i = arr_get l i.
Proof.
  intros H. unfold arr_get, arr_len in *. case_bool; [|done].
  apply lookup_app_l. lia.
Qed.

#[export] Hint Rewrite @arr_len_set @arr_len_snoc @arr_get_snoc_eq @arr_get_nat : grove.
#[export] Hint Resolve arr_get_lt arr_get_set_eq arr_get_set_ne : grove.

(** Every index below the length, ascending: the [for] loop of the sources. *)
Definition indices {A} (l : list A) : list Z := Z.of_nat <$> seq 0 (length l).

Lemma elem_of_indices {A} (l : list A) (i : Z) :
  i ∈ indices l <-> (0 <= i < arr_len l)%Z.
Proof.
  unfold indices, arr_len. rewrite list_elem_of_fmap. split.
  - intros (n & -> & Hn%elem_of_seq). lia.
  - intros H. exists (Z.to_nat i). rewrite elem_of_seq. split; lia.
Qed.

Lemma NoDup_indices {A} (l : list A) : NoDup (indices l).
Proof. unfold indices. apply NoDup_fmap_2; [apply _|]. apply NoDup_seq. Qed.

(** JavaScript's [a ?? b]. *)
Definition nullish {A} (o : option A) (d : A) : A := default d o.

(** ** Calls that may throw

    A function that may throw returns an [outcome]: its value, or the error it
    throws. [x ← c; k] is sequencing: an error skips the rest. *)

Inductive outcome (E A : Type) : Type :=
  | Ok (a : A)
  | Throw (e : E).
Arguments Ok {E A} a.
Arguments Throw {E A} e.

#[export] Instance outcome_ret {E} : MRet (outcome E) := fun _ a => Ok a.
#[export] Instance outcome_bind {E} : MBind (outcome E) := fun _ _ k c =>
  match c with Ok a => k a | Throw e => Throw e end.
#[export] Instance outcome_fmap {E} : FMap (outcome E) := fun _ _ f c =>
  match c with Ok a => Ok (f a) | Throw e => Throw e end.

Lemma outcome_bind_Ok {E A B} (c : outcome E A) (k : A -> outcome E B) (b : B) :
  (c ≫= k) = Ok b <-> exists a, c = Ok a /\ k a = Ok b.
Proof. destruct c; simpl; naive_solver. Qed.

Lemma outcome_bind_Throw {E A B} (c : outcome E A) (k : A -> outcome E B) (e : E) :
  (c ≫= k) = Throw e <-> c = Throw e \/ exists a, c = Ok a /\ k a = Throw e.
Proof. destruct c; simpl; naive_solver. Qed.

(** [Number.MAX_SAFE_INTEGER] and the test on integral values. *)
Definition MAX_SAFE_INTEGER : Z := 2 ^ 53 - 1.

Definition isSafeInteger (z : Z) : bool :=
  ((- MAX_SAFE_INTEGER <=? z) && (z <=? MAX_SAFE_INTEGER))%Z.

(** ** Generic list facts the components share *)

Lemma NoDup_snoc {A} (l : list A) (x : A) : NoDup (l ++ [x]) <-> NoDup l /\ x ∉ l.
Proof.
  rewrite NoDup_app. split.
  - intros (H1 & H2 & _). split; [done|]. intros Hx. apply (H2 x Hx). by left.
  - intros [H1 H2]. split_and!; [done| |apply NoDup_singleton].
    intros y Hy ->%list_elem_of_singleton. done.
Qed.

Lemma filter_true {A} (P : A -> Prop) `{!forall x, Decision (P x)} (l : list A) :
  (forall x, x ∈ l -> P x) -> filter P l = l.
Proof.
  intros HP. induction l as [|x l IH]; [done|].
  rewrite filter_cons_True by (apply HP; left).
  f_equal. apply IH. intros y Hy. apply HP. by right.
Qed.

Lemma filter_false {A} (P : A -> Prop) `{!forall x, Decision (P x)} (l : list A) :
  (forall x, x ∈ l -> ~ P x) -> filter P l = [].
Proof.
  intros HP. induction l as [|x l IH]; [done|].
  rewrite filter_cons_False by (apply HP; left).
  apply IH. intros y Hy. apply HP. by right.
Qed.

Lemma filter_filter {A} (P Q : A -> Prop) `{!forall x, Decision (P x)}
    `{!forall x, Decision (Q x)} (l : list A) :
  filter P (filter Q l) = filter Q (filter P l).
Proof.
  rewrite !list_filter_filter. apply list_filter_iff. naive_solver.
Qed.

Lemma filter_ext_in {A} (P Q : A -> Prop) `{!forall x, Decision (P x)} `{!forall x, Decision (Q x)} (l : list A) :
  (forall x, x ∈ l -> P x <-> Q x) -> filter P l = filter Q l.
Proof.
  induction l as [|x l IH]; intros Hpq; [done|]. rewrite !filter_cons.
  rewrite IH by (intros y Hy; apply Hpq; by right). specialize (Hpq x ltac:(left)).
  destruct (decide (P x)), (decide (Q x)); naive_solver.
Qed.

Lemma find_filter {A} (P : A -> Prop) `{!forall x, Decision (P x)} (f : A -> bool) (l : list A) :
  find f (filter P l) = find (fun x => bool_decide (P x) && f x) l.
Proof.
  induction l as [|x l IH]; [done|]. rewrite filter_cons. simpl.
  destruct (decide (P x)) as [HP|HP]; [rewrite bool_decide_true by done|rewrite bool_decide_false by done];
    simpl; [by destruct (f x)|done].
Qed.

Lemma find_ext_in {A} (f g : A -> bool) (l : list A) : (forall x, x ∈ l -> f x = g x) -> find f l = find g l.
Proof.
  induction l as [|x l IH]; intros Hfg; [done|]. simpl. rewrite <- (Hfg x) by left.
  destruct (f x); [done|]. apply IH. intros y Hy. apply Hfg. by right.
Qed.
