(* ===== verification/JsMap.v ===== *)
(** * JavaScript [Map] and [Set]

    Both iterate in insertion order, and the engine's determinism rests on that
    order, so they are modelled as lists rather than as extensional finite maps:
    an overwrite keeps a key where it is, a fresh key goes to the end, a delete
    closes the gap. [dom]-style facts are stated through [mget] and [∈]. *)

From S2P Require Import Prelude.

Abbreviation jsmap K V := (list (K * V)).
Abbreviation jsset K := (list K).

Section ops.
Context {K : Type} `{eqK : EqDecision K}.

(** [set.has(k)], [set.add(k)], [set.delete(k)]. *)
Definition shas (s : jsset K) (k : K) : bool := bool_decide (k ∈ s).
Definition sadd (s : jsset K) (k : K) : jsset K := if shas s k then s else s ++ [k].
Definition sdel (s : jsset K) (k : K) : jsset K := filter (fun x => x <> k) s.

Context {V : Type}.

(** [map.get(k)]. *)
Fixpoint mget (m : jsmap K V) (k : K) : option V :=
  match m with
  | [] => None
  | (k', v) :: m' => if decide (k' = k) then Some v else mget m' k
  end.

Definition mhas (m : jsmap K V) (k : K) : bool :=
  match mget m k with Some _ => true | None => false end.

(** [map.set(k, v)]: in place for a key the map holds, at the end otherwise. *)
Fixpoint mset (m : jsmap K V) (k : K) (v : V) : jsmap K V :=
  match m with
  | [] => [(k, v)]
  | (k', v') :: m' => if decide (k' = k) then (k', v) :: m' else (k', v') :: mset m' k v
  end.

(** [map.delete(k)]. *)
Definition mdel (m : jsmap K V) (k : K) : jsmap K V := filter (fun p => p.1 <> k) m.

Definition mkeys (m : jsmap K V) : list K := m.*1.
Definition mvals (m : jsmap K V) : list V := m.*2.
Definition msize (m : jsmap K V) : nat := length m.
End ops.

(** ** Sets *)

Section set_facts.
Context {K : Type} `{eqK : EqDecision K}.
Implicit Types (s : jsset K) (k : K).

Lemma shas_spec s k : shas s k = true <-> k ∈ s.
Proof. unfold shas. by rewrite bool_decide_eq_true. Qed.

Lemma shas_false s k : shas s k = false <-> k ∉ s.
Proof. unfold shas. by rewrite bool_decide_eq_false. Qed.

Lemma elem_of_sadd s k x : x ∈ sadd s k <-> x = k \/ x ∈ s.
Proof.
  unfold sadd. destruct (shas s k) eqn:E.
  - apply shas_spec in E. naive_solver.
  - rewrite elem_of_app, list_elem_of_singleton. tauto.
Qed.

Lemma elem_of_sdel s k x : x ∈ sdel s k <-> x ∈ s /\ x <> k.
Proof. unfold sdel. rewrite list_elem_of_filter. tauto. Qed.

Lemma NoDup_sadd s k : NoDup s -> NoDup (sadd s k).
Proof.
  intros Hs. unfold sadd. destruct (shas s k) eqn:E; [done|].
  apply NoDup_snoc. split; [done|]. by apply shas_false.
Qed.

Lemma NoDup_sdel s k : NoDup s -> NoDup (sdel s k).
Proof. apply NoDup_filter. Qed.

Lemma sadd_in s k : k ∈ s -> sadd s k = s.
Proof. intros H%shas_spec. unfold sadd. by rewrite H. Qed.

Lemma sadd_not_in s k : k ∉ s -> sadd s k = s ++ [k].
Proof. intros H%shas_false. unfold sadd. by rewrite H. Qed.

Lemma sdel_not_in s k : k ∉ s -> sdel s k = s.
Proof. intros H. unfold sdel. apply filter_true. intros x Hx ->. done. Qed.
End set_facts.

(** ** Maps *)

Section map_facts.
Context {K V : Type} `{eqK : EqDecision K}.
Implicit Types (m : jsmap K V) (k : K) (v : V).

Lemma mget_elem m k v : mget m k = Some v -> (k, v) ∈ m.
Proof.
  induction m as [|[k' v'] m IH]; simpl; [done|].
  case_decide; [intros [= ->]; subst; left|]. intros Hg. right. auto.
Qed.

Lemma mget_None m k : mget m k = None <-> k ∉ mkeys m.
Proof.
  unfold mkeys. induction m as [|[k' v'] m IH]; simpl; [set_solver|].
  destruct (decide (k' = k)) as [Heq|Hne].
  - split; [done|]. intros Hn. exfalso. apply Hn. subst. left.
  - rewrite IH. rewrite not_elem_of_cons. naive_solver.
Qed.

Lemma mget_is_Some m k : is_Some (mget m k) <-> k ∈ mkeys m.
Proof.
  destruct (mget m k) eqn:E.
  - split; [intros _|by eauto]. apply mget_elem in E.
    unfold mkeys. apply list_elem_of_fmap. by exists (k, v).
  - apply mget_None in E. split; [by intros [? ?]|done].
Qed.

Lemma mhas_spec m k : mhas m k = true <-> k ∈ mkeys m.
Proof.
  rewrite <- mget_is_Some. unfold mhas.
  destruct (mget m k); split; try done; by intros [? ?].
Qed.

Lemma mget_NoDup m k v : NoDup (mkeys m) -> (k, v) ∈ m -> mget m k = Some v.
Proof.
  unfold mkeys. induction m as [|[k' v'] m IH]; simpl; [set_solver|].
  rewrite NoDup_cons. intros [Hk Hm] [[= -> ->]|H]%elem_of_cons.
  - by rewrite decide_True.
  - rewrite decide_False; [by apply IH|]. intros ->. apply Hk.
    apply list_elem_of_fmap. by exists (k, v).
Qed.

Lemma mget_mset_eq m k v : mget (mset m k v) k = Some v.
Proof.
  induction m as [|[k' v'] m IH]; simpl; [by rewrite decide_True|].
  case_decide; simpl; [by rewrite decide_True|by rewrite decide_False].
Qed.

Lemma mget_mset_ne m k k' v : k <> k' -> mget (mset m k v) k' = mget m k'.
Proof.
  intros Hne. induction m as [|[k0 v0] m IH]; simpl; [by rewrite decide_False|].
  case_decide; simpl; [|by rewrite IH].
  subst. by rewrite !decide_False.
Qed.

Lemma mget_mset m k k' v : mget (mset m k v) k' = if decide (k = k') then Some v else mget m k'.
Proof. case_decide; subst; [apply mget_mset_eq|by apply mget_mset_ne]. Qed.

Lemma mget_mdel m k k' : mget (mdel m k) k' = if decide (k = k') then None else mget m k'.
Proof.
  unfold mdel. induction m as [|[k0 v0] m IH]; simpl; [by case_decide|].
  destruct (decide (k0 = k)) as [->|Hne].
  - rewrite filter_cons_False by (simpl; tauto). rewrite IH. by repeat case_decide.
  - rewrite filter_cons_True by done. simpl. rewrite IH.
    repeat case_decide; congruence.
Qed.

Lemma mget_mdel_eq m k : mget (mdel m k) k = None.
Proof. rewrite mget_mdel. by rewrite decide_True. Qed.

Lemma mget_mdel_ne m k k' : k <> k' -> mget (mdel m k) k' = mget m k'.
Proof. intros. rewrite mget_mdel. by rewrite decide_False. Qed.

Lemma mkeys_mset m k v : mkeys (mset m k v) = if mhas m k then mkeys m else mkeys m ++ [k].
Proof.
  unfold mkeys, mhas. induction m as [|[k' v'] m IH]; csimpl; [done|].
  case_decide; csimpl; [done|]. rewrite IH. by destruct (mget m k).
Qed.

Lemma mkeys_mset_sadd m k v : mkeys (mset m k v) = sadd (mkeys m) k.
Proof.
  rewrite mkeys_mset. unfold sadd. destruct (mhas m k) eqn:E.
  - apply mhas_spec, shas_spec in E. by rewrite E.
  - destruct (shas (mkeys m) k) eqn:E'; [|done].
    apply shas_spec, mhas_spec in E'. congruence.
Qed.

Lemma mkeys_mdel m k : mkeys (mdel m k) = sdel (mkeys m) k.
Proof.
  unfold mkeys, mdel, sdel. induction m as [|[k' v'] m IH]; csimpl; [done|].
  destruct (decide (k' = k)).
  - rewrite !filter_cons_False by (simpl; tauto). done.
  - rewrite !filter_cons_True by done. csimpl. by f_equal.
Qed.

Lemma NoDup_mset m k v : NoDup (mkeys m) -> NoDup (mkeys (mset m k v)).
Proof. rewrite mkeys_mset_sadd. apply NoDup_sadd. Qed.

Lemma NoDup_mdel m k : NoDup (mkeys m) -> NoDup (mkeys (mdel m k)).
Proof. rewrite mkeys_mdel. apply NoDup_sdel. Qed.

Lemma mset_fresh m k v : k ∉ mkeys m -> mset m k v = m ++ [(k, v)].
Proof.
  induction m as [|[k' v'] m IH]; [done|]. intros Hk.
  apply not_elem_of_cons in Hk as [Hne Hm]. simpl in *.
  rewrite decide_False by congruence. by rewrite IH.
Qed.

Lemma mdel_fresh m k : k ∉ mkeys m -> mdel m k = m.
Proof.
  intros Hk. unfold mdel. apply filter_true. intros [k' v'] Hin Heq. simpl in Heq.
  subst. apply Hk. unfold mkeys. apply list_elem_of_fmap. by exists (k, v').
Qed.

Lemma elem_of_mset m k v p :
  NoDup (mkeys m) ->
  p ∈ mset m k v <-> p = (k, v) \/ (p ∈ m /\ p.1 <> k).
Proof.
  intros Hnd. destruct p as [k' v']. split.
  - intros Hp. apply mget_NoDup in Hp; [|by apply NoDup_mset].
    rewrite mget_mset in Hp. case_decide; simplify_eq; [by left|].
    right. split; [by apply mget_elem|done].
  - intros [[= -> ->]|[Hp Hne]]; apply mget_elem; [apply mget_mset_eq|].
    simpl in Hne. rewrite mget_mset_ne by done. by apply mget_NoDup.
Qed.

Lemma elem_of_mdel m k p : p ∈ mdel m k <-> p ∈ m /\ p.1 <> k.
Proof. unfold mdel. rewrite list_elem_of_filter. tauto. Qed.

Lemma mget_Some_iff m k v : NoDup (mkeys m) -> mget m k = Some v <-> (k, v) ∈ m.
Proof. intros H. split; [apply mget_elem|by apply mget_NoDup]. Qed.

Lemma length_mset_has m k v : mhas m k = true -> length (mset m k v) = length m.
Proof.
  unfold mhas. induction m as [|[k' v'] m IH]; csimpl; [done|].
  case_decide; simpl; [done|]. intros. by rewrite IH.
Qed.
End map_facts.

#[export] Hint Resolve NoDup_sadd NoDup_sdel NoDup_mset NoDup_mdel mget_elem : grove.
#[export] Hint Rewrite @mget_mset_eq @mget_mdel_eq @mkeys_mset_sadd @mkeys_mdel : grove.
