(* ===== verification/JsNum.v ===== *)
(** * JavaScript numbers

    A number is an IEEE-754 binary64 value. The Standard Library's [spec_float]
    operations at 53 bits of precision are the correctly rounded ones ECMAScript
    prescribes for [+ - * /] and [Math.sqrt], computable and free of axioms. Every
    number a program reaches is canonical (mantissa aligned), so equality of
    representations is equality up to the two zeros. [flt], [fle] and [feq] are the
    operators [<], [<=] and [===]; a comparison with NaN is false. *)

From S2P Require Import Prelude.
From Stdlib Require Export SpecFloat.

Local Open Scope Z_scope.

Abbreviation num := spec_float.

Definition fprec : Z := 53.
Definition femax : Z := 1024.

Definition fadd : num -> num -> num := SFadd fprec femax.
Definition fsub : num -> num -> num := SFsub fprec femax.
Definition fmul : num -> num -> num := SFmul fprec femax.
Definition fdiv : num -> num -> num := SFdiv fprec femax.
Definition fsqrt : num -> num := SFsqrt fprec femax.
Definition fneg : num -> num := SFopp.
Definition fabs : num -> num := SFabs.

Definition flt : num -> num -> bool := SFltb.
Definition fle : num -> num -> bool := SFleb.
Definition feq : num -> num -> bool := SFeqb.

Definition NaN : num := S754_nan.
Definition Infinity : num := S754_infinity false.
Definition NegInfinity : num := S754_infinity true.
Definition f0 : num := S754_zero false.
Definition neg0 : num := S754_zero true.

Declare Scope num_scope.
Delimit Scope num_scope with num.
Infix "+" := fadd : num_scope.
Infix "-" := fsub : num_scope.
Infix "*" := fmul : num_scope.
Infix "/" := fdiv : num_scope.
Notation "- x" := (fneg x) : num_scope.
Infix "<" := flt : num_scope.
Infix "<=" := fle : num_scope.
Notation "x > y" := (flt y x) (only parsing) : num_scope.
Notation "x >= y" := (fle y x) (only parsing) : num_scope.
Infix "===" := feq (at level 70, no associativity) : num_scope.

(** An integer literal or a converted integer, rounded to nearest even. *)
Definition of_Z (z : Z) : num := binary_normalize fprec femax z 0 false.

(** The literal [m * 10^k], correctly rounded. *)
Definition dec (m k : Z) : num :=
  if 0 <=? k then of_Z (m * 10 ^ k)
  else if m =? 0 then f0
  else
    let '(mz, ez, lz) := SFdiv_core_binary fprec femax (Z.abs m) 0 (10 ^ (- k)) 0 in
    binary_round_aux fprec femax (m <? 0) mz ez lz.

Definition is_nan (x : num) : bool := match x with S754_nan => true | _ => false end.

(** [Number.isFinite]. *)
Definition isFinite (x : num) : bool :=
  match x with S754_zero _ | S754_finite _ _ _ => true | _ => false end.

(** [finiteOr] and [positiveOr] ([packages/math/src/numeric.ts]). *)
Definition finiteOr (value fallback : num) : num := if isFinite value then value else fallback.
Definition positiveOr (value fallback : num) : num := if isFinite value && flt f0 value then value else fallback.

Definition sign_bit (x : num) : bool :=
  match x with
  | S754_zero s | S754_infinity s | S754_finite s _ _ => s
  | S754_nan => false
  end.

(** [Math.min] and [Math.max]: NaN if either is, and [-0] below [+0]. *)
Definition fmin (x y : num) : num :=
  if is_nan x || is_nan y then NaN
  else if flt x y then x else if flt y x then y
  else if sign_bit x then x else y.

Definition fmax (x y : num) : num :=
  if is_nan x || is_nan y then NaN
  else if flt x y then y else if flt y x then x
  else if sign_bit x then y else x.

(** The floor of a finite number as an integer. *)
Definition floorZ (x : num) : option Z :=
  match x with
  | S754_zero _ => Some 0
  | S754_finite s m e => Some (Z.shiftl (cond_Zopp s (Zpos m)) e)
  | _ => None
  end.

(** [Math.floor], [Math.ceil], [Math.round]: the sign of a zero result follows the
    argument's. *)
Definition signed_Z (s : bool) (z : Z) : num :=
  if z =? 0 then S754_zero s else of_Z z.

Definition ffloor (x : num) : num :=
  match floorZ x with
  | Some z => signed_Z (sign_bit x) z
  | None => x
  end.

Definition fceil (x : num) : num :=
  match floorZ (fneg x) with
  | Some z => signed_Z (sign_bit x) (- z)
  | None => x
  end.

(** [Math.round(x)] is [floor(x + 1/2)] computed exactly. *)
Definition fround (x : num) : num :=
  match x with
  | S754_finite s m e =>
      let z := cond_Zopp s (Zpos m) in
      let r := if 0 <=? e then Z.shiftl z e else Z.shiftr (Z.shiftl z 1 + Z.shiftl 1 (- e)) (1 - e) in
      signed_Z s r
  | _ => x
  end.

(** The integer a number is, if it is one. *)
Definition to_Z (x : num) : option Z :=
  match x with
  | S754_zero _ => Some 0
  | S754_finite s m e =>
      let z := cond_Zopp s (Zpos m) in
      if 0 <=? e then Some (Z.shiftl z e)
      else if z mod 2 ^ (- e) =? 0 then Some (Z.shiftr z (- e)) else None
  | _ => None
  end.

(** [Number.isInteger]. *)
Definition isInteger (x : num) : bool := match to_Z x with Some _ => true | None => false end.

(** JavaScript's [x % y]: exact, with the sign of the dividend. *)
Definition frem (x y : num) : num :=
  match x, y with
  | S754_nan, _ | _, S754_nan | S754_infinity _, _ | _, S754_zero _ => NaN
  | S754_zero _, _ | _, S754_infinity _ => x
  | S754_finite sx mx ex, S754_finite _ my ey =>
      let e := Z.min ex ey in
      let r := Z.rem (Zpos mx * 2 ^ (ex - e)) (Zpos my * 2 ^ (ey - e)) in
      binary_normalize fprec femax (cond_Zopp sx r) e sx
  end.

(** ** The order on numbers that are not NaN *)

Inductive fkey := KNegInf | KNeg (e m : Z) | KZero | KPos (e m : Z) | KInf.

Definition key (x : num) : option fkey :=
  match x with
  | S754_nan => None
  | S754_zero _ => Some KZero
  | S754_infinity s => Some (if s then KNegInf else KInf)
  | S754_finite true m e => Some (KNeg e (Zpos m))
  | S754_finite false m e => Some (KPos e (Zpos m))
  end.

Definition key_lt (a b : fkey) : Prop :=
  match a, b with
  | KNegInf, KNegInf => False
  | KNegInf, _ => True
  | KNeg _ _, KNegInf => False
  | KNeg e m, KNeg e' m' => e' < e \/ (e = e' /\ m' < m)
  | KNeg _ _, _ => True
  | KZero, (KPos _ _ | KInf) => True
  | KZero, _ => False
  | KPos e m, KPos e' m' => e < e' \/ (e = e' /\ m < m')
  | KPos _ _, KInf => True
  | KPos _ _, _ => False
  | KInf, _ => False
  end.

Lemma flt_key (x y : num) :
  flt x y = true <-> exists a b, key x = Some a /\ key y = Some b /\ key_lt a b.
Proof.
  unfold flt, SFltb. split.
  - intros Hc. destruct x as [[]|[]| |[] m e], y as [[]|[]| |[] m' e']; simpl in *; try done;
      do 2 eexists; (split_and!; [done|done|simpl]); try done;
      destruct (e ?= e') eqn:He; try done;
      rewrite ?Z.compare_lt_iff, ?Z.compare_gt_iff, ?Z.compare_eq_iff in He;
      try (left; lia); right; (split; [done|]);
      destruct (Pos.compare_cont Eq m m') eqn:Hm; try done;
      fold (Pos.compare m m') in Hm;
      rewrite ?Pos.compare_lt_iff, ?Pos.compare_gt_iff in Hm; lia.
  - intros (a & b & Ha & Hb & Hlt).
    destruct x as [[]|[]| |[] m e], y as [[]|[]| |[] m' e']; simpl in *; simplify_eq; simpl in *;
      try done;
      fold (Pos.compare m m');
      destruct Hlt as [Hlt|[-> Hlt]];
      first [rewrite (proj2 (Z.compare_lt_iff _ _)) by lia; done
            |rewrite (proj2 (Z.compare_gt_iff _ _)) by lia; done
            |rewrite Z.compare_refl;
             first [rewrite (proj2 (Pos.compare_lt_iff _ _)) by lia; done
                   |rewrite (proj2 (Pos.compare_gt_iff _ _)) by lia; done]].
Qed.

Lemma key_None (x : num) : key x = None <-> is_nan x = true.
Proof. by destruct x as [| | |[]]. Qed.

Lemma key_lt_trans (a b c : fkey) : key_lt a b -> key_lt b c -> key_lt a c.
Proof. destruct a, b, c; simpl; try done; lia. Qed.

Lemma key_lt_irrefl (a : fkey) : ~ key_lt a a.
Proof. destruct a; simpl; try done; lia. Qed.

Lemma key_lt_total (a b : fkey) : key_lt a b \/ a = b \/ key_lt b a.
Proof.
  destruct a as [|e m| |e m|], b as [|e' m'| |e' m'|]; simpl; auto;
    destruct (Z.lt_trichotomy e e') as [?|[->|?]]; auto;
    destruct (Z.lt_trichotomy m m') as [?|[->|?]]; auto.
Qed.

Lemma flt_irrefl (x : num) : flt x x = false.
Proof.
  apply not_true_iff_false. rewrite flt_key. intros (a & b & Ha & Hb & Hlt). simplify_eq.
  by apply key_lt_irrefl in Hlt.
Qed.

Lemma flt_trans (x y z : num) : flt x y = true -> flt y z = true -> flt x z = true.
Proof.
  rewrite !flt_key. intros (a & b & Ha & Hb & Hab) (b' & c & Hb' & Hc & Hbc). simplify_eq.
  exists a, c. split_and!; try done. by eapply key_lt_trans.
Qed.

Lemma flt_asym (x y : num) : flt x y = true -> flt y x = false.
Proof.
  intros H. apply not_true_iff_false. intros H'. pose proof (flt_trans x y x H H').
  by rewrite flt_irrefl in *.
Qed.

Lemma flt_total (x y : num) :
  is_nan x = false -> is_nan y = false ->
  flt x y = true \/ key x = key y \/ flt y x = true.
Proof.
  intros Hx Hy. destruct (key x) as [a|] eqn:Ha; [|apply key_None in Ha; congruence].
  destruct (key y) as [b|] eqn:Hb; [|apply key_None in Hb; congruence].
  rewrite !flt_key. destruct (key_lt_total a b) as [?|[->|?]]; [left|by right; left|right; right]; eauto 6.
Qed.

Lemma flt_nan (x y : num) : flt x y = true -> is_nan x = false /\ is_nan y = false.
Proof. destruct x, y; done. Qed.

(** [x <= y] is the negation of [y < x] away from NaN. *)
Lemma fle_flt (x y : num) :
  fle x y = negb (flt y x) && negb (is_nan x) && negb (is_nan y).
Proof.
  unfold fle, flt, SFleb, SFltb.
  destruct x as [[]|[]| |[] m e], y as [[]|[]| |[] m' e']; simpl; try done;
    rewrite (Z.compare_antisym e e'); destruct (e ?= e') eqn:He; simpl; try done;
    rewrite Z.compare_eq_iff in He; subst;
    change (Pos.compare_cont Eq m m') with (Pos.compare m m');
    change (Pos.compare_cont Eq m' m) with (Pos.compare m' m);
    rewrite (Pos.compare_antisym m m'); by destruct (Pos.compare m m').
Qed.

Lemma fle_refl (x : num) : is_nan x = false -> fle x x = true.
Proof. intros Hx. by rewrite fle_flt, flt_irrefl, Hx. Qed.

Lemma fle_lt (x y : num) : flt x y = true -> fle x y = true.
Proof. intros H. rewrite fle_flt, (flt_asym _ _ H). by destruct (flt_nan _ _ H) as [-> ->]. Qed.

Lemma fle_false_lt (x y : num) :
  is_nan x = false -> is_nan y = false -> fle x y = false -> flt y x = true.
Proof. intros Hx Hy. rewrite fle_flt, Hx, Hy. by destruct (flt y x). Qed.

Lemma flt_false_le (x y : num) :
  is_nan x = false -> is_nan y = false -> flt x y = false -> fle y x = true.
Proof. intros Hx Hy H. by rewrite fle_flt, Hx, Hy, H. Qed.

Lemma fle_nan (x y : num) : fle x y = true -> is_nan x = false /\ is_nan y = false.
Proof. rewrite fle_flt, !andb_true_iff, !negb_true_iff. tauto. Qed.

Lemma key_flt (x x' y : num) : key x = key x' -> flt x y = flt x' y /\ flt y x = flt y x'.
Proof.
  intros Hk. split; apply eq_iff_eq_true; rewrite !flt_key; rewrite Hk; done.
Qed.

Lemma fle_trans (x y z : num) : fle x y = true -> fle y z = true -> fle x z = true.
Proof.
  intros H1 H2. destruct (fle_nan _ _ H1) as [Hx Hy], (fle_nan _ _ H2) as [_ Hz].
  rewrite fle_flt, Hx, Hy, andb_true_r, andb_true_r, negb_true_iff in H1.
  rewrite fle_flt, Hy, Hz, andb_true_r, andb_true_r, negb_true_iff in H2.
  rewrite fle_flt, Hx, Hz, andb_true_r, andb_true_r, negb_true_iff.
  apply not_true_iff_false. intros H3.
  destruct (flt_total x y Hx Hy) as [?|[Hk|?]]; [|destruct (key_flt x y z Hk)|]; try congruence.
  pose proof (flt_trans z x y H3 H). congruence.
Qed.

Lemma fmin_cases (x y : num) :
  is_nan x = false -> is_nan y = false ->
  (fmin x y = x \/ fmin x y = y) /\ fle (fmin x y) x = true /\ fle (fmin x y) y = true.
Proof.
  intros Hx Hy. unfold fmin. rewrite Hx, Hy. simpl.
  destruct (flt x y) eqn:H1; [auto using fle_refl, fle_lt|].
  destruct (flt y x) eqn:H2; [auto using fle_refl, fle_lt|].
  destruct (sign_bit x); auto 6 using fle_refl, flt_false_le.
Qed.

Lemma fmax_cases (x y : num) :
  is_nan x = false -> is_nan y = false ->
  (fmax x y = x \/ fmax x y = y) /\ fle x (fmax x y) = true /\ fle y (fmax x y) = true.
Proof.
  intros Hx Hy. unfold fmax. rewrite Hx, Hy. simpl.
  destruct (flt x y) eqn:H1; [auto using fle_refl, fle_lt|].
  destruct (flt y x) eqn:H2; [auto using fle_refl, fle_lt|].
  destruct (sign_bit x); auto 6 using fle_refl, flt_false_le.
Qed.

(** Equal keys: the same number, up to the sign of zero. *)
Lemma key_eq (x y : num) :
  is_nan x = false -> key x = key y -> x = y \/ (exists s s', x = S754_zero s /\ y = S754_zero s').
Proof.
  destruct x as [s|[]| |[] m e], y as [s'|[]| |[] m' e']; simpl; intros ? ?; simplify_eq; eauto.
Qed.

Lemma fmin_comm (x y : num) : fmin x y = fmin y x.
Proof.
  unfold fmin. rewrite orb_comm. destruct (is_nan y || is_nan x) eqn:Hn; [done|].
  apply orb_false_iff in Hn as [Hy Hx].
  destruct (flt x y) eqn:H1; [by rewrite (flt_asym _ _ H1)|].
  destruct (flt y x) eqn:H2; [done|].
  destruct (flt_total x y Hx Hy) as [?|[Hk|?]]; try congruence.
  destruct (key_eq x y Hx Hk) as [->|(s & s' & -> & ->)]; [by destruct (sign_bit y)|].
  by destruct s, s'.
Qed.

Lemma fmax_comm (x y : num) : fmax x y = fmax y x.
Proof.
  unfold fmax. rewrite orb_comm. destruct (is_nan y || is_nan x) eqn:Hn; [done|].
  apply orb_false_iff in Hn as [Hy Hx].
  destruct (flt x y) eqn:H1; [by rewrite (flt_asym _ _ H1)|].
  destruct (flt y x) eqn:H2; [done|].
  destruct (flt_total x y Hx Hy) as [?|[Hk|?]]; try congruence.
  destruct (key_eq x y Hx Hk) as [->|(s & s' & -> & ->)]; [by destruct (sign_bit y)|].
  by destruct s, s'.
Qed.

#[export] Hint Resolve flt_trans fle_trans fle_refl fle_lt : grove.
