(* ===== verification/Json.v ===== *)
(** * Strings and decoded messages

    A JavaScript string is a sequence of 16-bit code units, so its [length] counts
    units and its UTF-8 size is another number. [json] is what [JSON.parse] can
    return: an object keeps its own keys in insertion order. *)

From S2P Require Import Prelude JsMap JsNum.

Local Open Scope Z_scope.

Abbreviation jstr := (list Z).

(** A literal of the sources. *)
Fixpoint js (s : string) : jstr :=
  match s with
  | EmptyString => []
  | String c s' => Z.of_N (Ascii.N_of_ascii c) :: js s'
  end.

Unset Elimination Schemes.
Inductive json :=
  | JNull
  | JBool (b : bool)
  | JNum (x : num)
  | JStr (s : jstr)
  | JArr (l : list json)
  | JObj (fields : jsmap jstr json).
Set Elimination Schemes.

(** Induction with the hypothesis at every element and every field. *)
Lemma json_ind (P : json -> Prop)
    (Hnull : P JNull) (Hbool : forall b, P (JBool b)) (Hnum : forall x, P (JNum x))
    (Hstr : forall s, P (JStr s))
    (Harr : forall l, Forall P l -> P (JArr l))
    (Hobj : forall f, Forall (fun p => P p.2) f -> P (JObj f)) :
  forall j, P j.
Proof.
  fix IH 1. intros [ | b | x | s | l | f].
  - apply Hnull.
  - apply Hbool.
  - apply Hnum.
  - apply Hstr.
  - apply Harr. induction l as [|x l IHl]; constructor; [apply IH|exact IHl].
  - apply Hobj. induction f as [|[k v] f IHf]; constructor; [apply IH|exact IHf].
Qed.

Definition children (j : json) : list json :=
  match j with JArr l => l | JObj f => f.*2 | _ => [] end.

(** [typeof x === 'object' && x !== null]. *)
Definition is_container (j : json) : bool :=
  match j with JArr _ | JObj _ => true | _ => false end.

(** A property read [m[k]]: an array or a primitive has none of the names the
    sources read off a message. *)
Definition jget (j : json) (k : string) : option json :=
  match j with JObj f => mget f (js k) | _ => None end.

(** Values in a graph, itself excluded: what a walk of it visits. *)
Fixpoint jnodes (j : json) : nat :=
  match j with
  | JArr l => (fix sum l := match l with [] => 0 | x :: l' => S (jnodes x) + sum l' end)%nat l
  | JObj f => (fix sum f := match f with [] => 0 | (_, x) :: f' => S (jnodes x) + sum f' end)%nat f
  | _ => 0%nat
  end.

Lemma jnodes_children j : jnodes j = foldr (fun x n => (S (jnodes x) + n)%nat) 0%nat (children j).
Proof.
  destruct j as [ | | | |l|f]; try reflexivity. simpl.
  induction f as [|[k x] f IH]; csimpl; [done|]. by rewrite IH.
Qed.

(** ** What may cross the wire *)

(** The code points of a string, a lone surrogate being one. *)
Fixpoint codePoints (s : jstr) : list jstr :=
  match s with
  | [] => []
  | hi :: s' =>
    match s' with
    | lo :: s'' =>
      if (0xd800 <=? hi) && (hi <=? 0xdbff) && (0xdc00 <=? lo) && (lo <=? 0xdfff)
      then [hi; lo] :: codePoints s''
      else [hi] :: codePoints s'
    | [] => [[hi]]
    end
  end.

(** Object keys no message may carry. *)
Definition RESERVED_KEYS : list jstr :=
  [js "__proto__"; js "constructor"; js "prototype"].

Definition reserved (k : jstr) : bool := bool_decide (k ∈ RESERVED_KEYS).

(** Nested at most [d] levels, no reserved key, every number finite. *)
Unset Elimination Schemes.
Inductive wire_ok : nat -> json -> Prop :=
  | wk_null d : wire_ok d JNull
  | wk_bool d b : wire_ok d (JBool b)
  | wk_num d x : isFinite x = true -> wire_ok d (JNum x)
  | wk_str d s : wire_ok d (JStr s)
  | wk_arr d l : Forall (wire_ok d) l -> wire_ok (S d) (JArr l)
  | wk_obj d f : Forall (fun p => reserved p.1 = false /\ wire_ok d p.2) f -> wire_ok (S d) (JObj f).
Set Elimination Schemes.

Lemma wire_ok_mono d d' j : (d <= d')%nat -> wire_ok d j -> wire_ok d' j.
Proof.
  revert d d'. induction j as [ | | | |l IH|f IH] using json_ind; intros d d' Hd Hj; inversion Hj; subst;
    try (by constructor).
  - destruct d' as [|d']; [lia|]. constructor. rewrite Forall_forall in *. intros x Hx.
    eapply (IH x Hx); [|by eauto]. lia.
  - destruct d' as [|d']; [lia|]. constructor. rewrite Forall_forall in *. intros x Hx.
    match goal with Hf : forall _, _ -> _ /\ _ |- _ => destruct (Hf x Hx) end.
    split; [done|]. eapply (IH x Hx); [|done]. lia.
Qed.

(** The entries of a container under their own keys; an array's are not named. *)
Definition own_fields (j : json) : list (jstr * json) :=
  match j with JArr l => (fun x => ([], x)) <$> l | JObj f => f | _ => [] end.

Definition is_arr (j : json) : bool := match j with JArr _ => true | _ => false end.

(** What a walk checks of one entry before it descends. *)
Definition field_ok (arr : bool) (p : jstr * json) : Prop :=
  (arr = false -> reserved p.1 = false) /\ (is_container p.2 = false -> forall d, wire_ok d p.2).

Lemma wire_ok_node d j :
  is_container j = true ->
  wire_ok (S d) j
  <-> Forall (field_ok (is_arr j)) (own_fields j)
      /\ Forall (fun p => is_container p.2 = true -> wire_ok d p.2) (own_fields j).
Proof.
  intros Hc. assert (Hleaf : forall x, wire_ok d x -> is_container x = false -> forall d', wire_ok d' x).
  { intros x Hx Hl d'. destruct x; try done; inversion Hx; by constructor. }
  destruct j as [ | | | |l|f]; try done; simpl; rewrite ?Forall_fmap; split.
  - intros H. inversion H as [ | | | |d' l' Hl|]; subst. rewrite !Forall_forall in *.
    split; intros x Hx; simpl; [split; [done|]; eauto|eauto].
  - intros [H1 H2]. constructor. rewrite !Forall_forall in *. intros x Hx.
    destruct (is_container x) eqn:E; [by apply (H2 x)|]. by apply (H1 x).
  - intros H. inversion H as [ | | | | |d' f' Hf]; subst. rewrite !Forall_forall in *.
    split; intros x Hx; destruct (Hf x Hx); simpl; [split; eauto|eauto].
  - intros [H1 H2]. constructor. rewrite !Forall_forall in *. intros x Hx.
    destruct (H1 x Hx) as [Hr Hx1]. split; [by apply Hr|].
    destruct (is_container x.2) eqn:E; [by apply (H2 x)|by apply Hx1].
Qed.

(** ** UTF-8 size *)

(** The [for] loop over the units, [i++] on a surrogate pair included. *)
Fixpoint utf8ByteLength (text : jstr) : Z :=
  match text with
  | [] => 0
  | code :: text' =>
    if code <? 0x80 then 1 + utf8ByteLength text'
    else if code <? 0x800 then 2 + utf8ByteLength text'
    else
      match text' with
      | next :: text'' =>
        if (0xd800 <=? code) && (code <=? 0xdbff) && (0xdc00 <=? next) && (next <=? 0xdfff)
        then 4 + utf8ByteLength text''
        else 3 + utf8ByteLength text'
      | [] => 3
      end
  end.

Lemma utf8ByteLength_bounds text :
  Z.of_nat (length text) <= utf8ByteLength text <= 3 * Z.of_nat (length text).
Proof.
  remember (length text) as n eqn:Hn. revert text Hn.
  induction n as [n IH] using (well_founded_induction lt_wf). intros [|c text] ->; [simpl; lia|].
  cbn [utf8ByteLength length].
  destruct (c <? 0x80); [specialize (IH (length text) ltac:(simpl; lia) text eq_refl); lia|].
  destruct (c <? 0x800); [specialize (IH (length text) ltac:(simpl; lia) text eq_refl); lia|].
  destruct text as [|next text]; [simpl; lia|].
  destruct (_ && _).
  - specialize (IH (length text) ltac:(simpl; lia) text eq_refl). simpl in *. lia.
  - specialize (IH (length (next :: text)) ltac:(simpl; lia) (next :: text) eq_refl).
    cbn [length] in *. lia.
Qed.
