(* ===== verification/ActionStates.v ===== *)
(** * The input fold ([packages/core/src/runtime/action-states.ts],
    [packages/core/src/input-fold.ts]) and the client's retained ring
    ([packages/client/src/ring.ts])

    One map of action states per player, folded by the same code on the authority
    and on the client. [ActionStates] is the closure's four collections. The client
    keeps the frames the authority has not acknowledged in a ring of 48 and folds
    whatever leaves it, by acknowledgement or overflow, into the state held at the
    horizon. *)

From S2P Require Import Prelude JsMap JsNum Json.

(** ** Data *)

Inductive EventPhase := press | release | hold.

#[export] Instance EventPhase_eq_dec : EqDecision EventPhase.
Proof. solve_decision. Defined.

Record InputEdge := MkEdge { action : jstr; on : EventPhase; value : option num }.

Record ActionStates := MkActionStates {
  held : jsset jstr;
  pressed : jsset jstr;
  released : jsset jstr;
  axis : jsmap jstr num;
}.

Definition createActionStates : ActionStates := MkActionStates [] [] [] [].

Definition axis_of (s : ActionStates) (a : jstr) : num := nullish (mget (axis s) a) f0.
Definition is_held (s : ActionStates) (a : jstr) : bool := shas (held s) a.
Definition is_pressed (s : ActionStates) (a : jstr) : bool := shas (pressed s) a.
Definition is_released (s : ActionStates) (a : jstr) : bool := shas (released s) a.

Definition applyEdge (s : ActionStates) (e : InputEdge) : ActionStates :=
  match on e with
  | press =>
    MkActionStates (sadd (held s) (action e)) (sadd (pressed s) (action e)) (released s)
      (mset (axis s) (action e) (nullish (value e) (of_Z 1)))
  | release =>
    MkActionStates (sdel (held s) (action e)) (pressed s) (sadd (released s) (action e))
      (mset (axis s) (action e) (nullish (value e) f0))
  | hold =>
    match value e with
    | Some v => MkActionStates (held s) (pressed s) (released s) (mset (axis s) (action e) v)
    | None => s
    end
  end.

Definition advanceTick (s : ActionStates) : ActionStates :=
  MkActionStates (held s) [] [] (axis s).

Definition heldActions (s : ActionStates) : list jstr := held s.

(** [value !== 0]: a NaN sample counts as non-neutral, either zero as neutral. *)
Definition axisValues (s : ActionStates) : list (jstr * num) :=
  filter (fun p => feq p.2 f0 = false) (axis s).

Definition applyEdges (s : ActionStates) (es : list InputEdge) : ActionStates :=
  foldl applyEdge s es.

(** ** The ring of unacknowledged frames *)

Record InputFrame := MkFrame { seq : Z; tick : Z; actions : list InputEdge }.

Record RingEntry := MkRingEntry { frame : InputFrame; leadAtSendTicks : num; epoch : Z }.

Record InputRing := MkRing {
  entries : list RingEntry;
  heldAtHorizon : ActionStates;
  horizonTick : Z;
  droppedToOverflow : Z;
}.

Definition RING_TICKS : nat := 48.

Definition new_ring : InputRing := MkRing [] createActionStates (-1) 0.

(** [assertHeld]: held buttons become presses, axes hold samples, then the tick closes. *)
Definition assertHeld (from into : ActionStates) : ActionStates :=
  let into := foldl (fun st a => applyEdge st (MkEdge a press None)) into (heldActions from) in
  let into := foldl (fun st '(a, v) => applyEdge st (MkEdge a hold (Some v))) into
                    (axisValues from) in
  advanceTick into.

(** [#fold]: the tick boundary first, then the frame's edges. *)
Definition fold_frame (s : ActionStates) (f : InputFrame) : ActionStates :=
  applyEdges (advanceTick s) (actions f).

Definition fold_entry (r : InputRing) (e : RingEntry) : InputRing :=
  MkRing (entries r) (fold_frame (heldAtHorizon r) (frame e)) (tick (frame e))
    (droppedToOverflow r).

Definition set_entries (r : InputRing) (es : list RingEntry) : InputRing :=
  MkRing es (heldAtHorizon r) (horizonTick r) (droppedToOverflow r).

Definition push (r : InputRing) (f : InputFrame) (lead : num) (ep : Z) : InputRing :=
  let r :=
    if decide (RING_TICKS <= length (entries r))%nat then
      let r' := match entries r with
                | dropped :: rest => fold_entry (set_entries r rest) dropped
                | [] => r
                end in
      MkRing (entries r') (heldAtHorizon r') (horizonTick r') (droppedToOverflow r' + 1)
    else r in
  set_entries r (entries r ++ [MkRingEntry f lead ep]).

(** The [while] of [ack], structural on the entries left to look at. *)
Fixpoint ack_loop (r : InputRing) (todo : list RingEntry) (s : Z) (earliest : option RingEntry)
    : InputRing * option RingEntry :=
  match todo with
  | [] => (r, earliest)
  | head :: rest =>
    if (s <? seq (frame head))%Z then (r, earliest)
    else ack_loop (fold_entry (set_entries r rest) head) rest s
           (match earliest with Some _ => earliest | None => Some head end)
  end.

Definition ack (r : InputRing) (s : Z) : InputRing * option RingEntry :=
  ack_loop r (entries r) s None.

Definition since (r : InputRing) (t : Z) : list InputFrame :=
  frame <$> filter (fun e => (t <= tick (frame e))%Z) (entries r).

Definition frames (r : InputRing) : list InputFrame := frame <$> entries r.

(** [None] is [Infinity]: nothing is unacknowledged. *)
Definition horizonValidUntil (r : InputRing) : option Z := (fun e => tick (frame e)) <$> head (entries r).

Definition oldestSeq (r : InputRing) : option Z := (fun e => seq (frame e)) <$> head (entries r).

Definition reset (r : InputRing) (live : option ActionStates) : InputRing :=
  MkRing [] (match live with
             | Some from => assertHeld from createActionStates
             | None => createActionStates
             end) (-1) (droppedToOverflow r).

(** ** Dispatching folded edges

    [W] is the world the dispatched handlers run in; [dispatchInput] is one
    dispatch of an edge at a list of hosts, with whatever the handlers do to the
    world; [inputHostKeys] reads the hosts of a player off the world. *)
Section fold.
Context {W Player : Type}.
Context (inputHostKeys : W -> Player -> list jstr).
Context (dispatchEdge : W -> Player -> list jstr -> jstr -> EventPhase -> option num -> W).
Context (fillIntent : W -> Player -> num -> num -> W).

(** [foldInputEdges], with [admits] threaded because the authority's remembers
    the names it has admitted. *)
Definition fold_edge {C} (admits : C -> jstr -> bool * C) (player : Player)
    (hosts : list jstr) (st : W * ActionStates * C) (e : InputEdge) : W * ActionStates * C :=
  let '(w, s, c) := st in
  let '(ok, c) := admits c (action e) in
  if ok then
    let s := applyEdge s e in
    match on e with
    | hold => (w, s, c)
    | ph =>
      (dispatchEdge w player hosts (action e) ph
         (Some (nullish (value e) (axis_of s (action e)))), s, c)
    end
  else (w, s, c).

Definition foldInputEdges {C} (admits : C -> jstr -> bool * C) (w : W) (player : Player)
    (s : ActionStates) (c : C) (edges : list InputEdge) : W * ActionStates * C :=
  foldl (fold_edge admits player (inputHostKeys w player)) (w, s, c) edges.

Definition MOVE_AXES : jstr * jstr := (js "moveX", js "moveY").

Definition active_actions (s : ActionStates) : jsset jstr :=
  foldl sadd (foldl sadd [] (heldActions s)) ((axisValues s).*1).

Definition synthesizeHolds (w : W) (player : Player) (s : ActionStates) : W :=
  let hosts := inputHostKeys w player in
  let w := foldl (fun w a => dispatchEdge w player hosts a hold (Some (axis_of s a))) w
                 (active_actions s) in
  fillIntent w player (axis_of s (fst MOVE_AXES)) (axis_of s (snd MOVE_AXES)).
End fold.

(** ** Well-formedness: the collections hold each name once *)

Record wf_states (s : ActionStates) : Prop := {
  wf_held : NoDup (held s);
  wf_pressed : NoDup (pressed s);
  wf_released : NoDup (released s);
  wf_axis : NoDup (mkeys (axis s));
}.

Lemma createActionStates_wf : wf_states createActionStates.
Proof. split; apply NoDup_nil_2. Qed.

Lemma applyEdge_wf s e : wf_states s -> wf_states (applyEdge s e).
Proof.
  intros [? ? ? ?]. unfold applyEdge. destruct (on e); [| |destruct (value e)];
    split; simpl; auto with grove.
Qed.

Lemma advanceTick_wf s : wf_states s -> wf_states (advanceTick s).
Proof. intros [? ? ? ?]. split; simpl; auto using NoDup_nil_2. Qed.

Lemma foldl_wf {A} (f : ActionStates -> A -> ActionStates) l s :
  (forall s x, wf_states s -> wf_states (f s x)) -> wf_states s -> wf_states (foldl f s l).
Proof. intros Hf. revert s. induction l; simpl; auto. Qed.

Lemma fold_frame_wf s f : wf_states s -> wf_states (fold_frame s f).
Proof. intros H. apply foldl_wf; [by apply applyEdge_wf|by apply advanceTick_wf]. Qed.

#[export] Hint Resolve createActionStates_wf applyEdge_wf advanceTick_wf fold_frame_wf : grove.

(** What one edge does to the held set and to the axes, by name. *)
Lemma applyEdge_held s e a :
  a ∈ held (applyEdge s e)
  <-> match on e with
      | press => a = action e \/ a ∈ held s
      | release => a ∈ held s /\ a <> action e
      | hold => a ∈ held s
      end.
Proof.
  unfold applyEdge. destruct (on e); [| |destruct (value e)]; simpl;
    rewrite ?elem_of_sadd, ?elem_of_sdel; naive_solver.
Qed.

Definition written (e : InputEdge) : option num :=
  match on e, value e with
  | _, Some v => Some v
  | press, None => Some (of_Z 1)
  | release, None => Some f0
  | hold, None => None
  end.

Lemma applyEdge_axis s e a :
  mget (axis (applyEdge s e)) a
  = if decide (action e = a) then (match written e with Some v => Some v | None => mget (axis s) a end)
    else mget (axis s) a.
Proof.
  unfold applyEdge, written. destruct (on e), (value e); simpl; rewrite ?mget_mset;
    by case_decide.
Qed.

(** ** Re-deriving a held state *)

Lemma presses_held l s a :
  a ∈ held (foldl (fun st a => applyEdge st (MkEdge a press None)) s l) <-> a ∈ l \/ a ∈ held s.
Proof.
  revert s. induction l as [|b l IH]; intros s; simpl; [set_solver|].
  rewrite IH, applyEdge_held. simpl. rewrite elem_of_cons. naive_solver.
Qed.

Lemma presses_axis l s a :
  mget (axis (foldl (fun st a => applyEdge st (MkEdge a press None)) s l)) a
  = if decide (a ∈ l) then Some (of_Z 1) else mget (axis s) a.
Proof.
  revert s. induction l as [|b l IH]; intros s; cbn [foldl]; [by case_decide; [set_solver|]|].
  rewrite IH, applyEdge_axis. unfold written. cbn [action on value].
  repeat case_decide; set_solver.
Qed.

Lemma samples_held (l : list (jstr * num)) s :
  held (foldl (fun st '(a, v) => applyEdge st (MkEdge a hold (Some v))) s l) = held s.
Proof. revert s. induction l as [|[a v] l IH]; intros s; simpl; [done|]. by rewrite IH. Qed.

Lemma samples_axis (l : list (jstr * num)) s a :
  NoDup l.*1 ->
  mget (axis (foldl (fun st '(a, v) => applyEdge st (MkEdge a hold (Some v))) s l)) a
  = match mget l a with Some v => Some v | None => mget (axis s) a end.
Proof.
  revert s. induction l as [|[b v] l IH]; intros s; cbn [foldl mget]; [done|].
  csimpl. rewrite NoDup_cons. intros [Hb Hl]. rewrite IH, applyEdge_axis by done.
  unfold written. cbn [action on value]. case_decide; subst; [|done].
  destruct (mget l a) eqn:E; [|done]. exfalso. apply Hb, mget_is_Some. by eexists.
Qed.

Lemma axisValues_nodup s : wf_states s -> NoDup (axisValues s).*1.
Proof.
  intros [_ _ _ H]. unfold axisValues, mkeys in *. revert H. generalize (axis s). intros l.
  induction l as [|[a v] l IH]; csimpl; [done|]. rewrite NoDup_cons. intros [Ha Hl].
  rewrite filter_cons. case_decide; csimpl; [|auto]. apply NoDup_cons. split; [|auto].
  intros ([a' v'] & Heq & [_ Hin]%list_elem_of_filter)%list_elem_of_fmap. simpl in Heq. subst.
  apply Ha, list_elem_of_fmap. by exists (a', v').
Qed.

Lemma axisValues_get s a :
  wf_states s ->
  mget (axisValues s) a
  = match mget (axis s) a with Some v => if feq v f0 then None else Some v | None => None end.
Proof.
  intros [_ _ _ H]. unfold axisValues, mkeys in *. revert H. generalize (axis s). intros l.
  induction l as [|[b v] l IH]; csimpl; [done|]. rewrite NoDup_cons. intros [Hb Hl].
  rewrite filter_cons. cbn [snd]. destruct (feq v f0) eqn:E.
  - rewrite decide_False by done. rewrite IH by done. case_decide; [|done]. subst.
    rewrite E. destruct (mget l a) eqn:E'; [|done].
    exfalso. apply Hb. apply (proj1 (mget_is_Some _ _)). by eexists.
  - rewrite decide_True by done. simpl. case_decide; [by rewrite E|]. auto.
Qed.

(** ** The ring's histories *)

Inductive ring_op := RPush (f : InputFrame) (lead : num) (ep : Z) | RAck (s : Z) | RReset (live : option ActionStates).

Definition ring_step (r : InputRing) (o : ring_op) : InputRing :=
  match o with
  | RPush f lead ep => push r f lead ep
  | RAck s => fst (ack r s)
  | RReset live => reset r live
  end.

Definition ring_run (r : InputRing) (ops : list ring_op) : InputRing := foldl ring_step r ops.

(** What a history pushed since its last reset, and the state that reset seeded. *)
Definition ring_pushed (acc : ActionStates * list InputFrame) (o : ring_op)
    : ActionStates * list InputFrame :=
  match o with
  | RPush f _ _ => (fst acc, snd acc ++ [f])
  | RAck _ => acc
  | RReset live =>
    (match live with Some from => assertHeld from createActionStates | None => createActionStates end, [])
  end.

Definition ring_history (ops : list ring_op) : ActionStates * list InputFrame :=
  foldl ring_pushed (createActionStates, []) ops.

(** The abstract ring: everything dropped is folded, everything else retained. *)
Record ring_inv (base : ActionStates) (all dropped : list InputFrame) (r : InputRing) : Prop := {
  ri_split : all = dropped ++ frames r;
  ri_fold : heldAtHorizon r = foldl fold_frame base dropped;
  ri_tick : horizonTick r = default (-1)%Z (tick <$> last dropped);
  ri_size : (length (entries r) <= RING_TICKS)%nat;
}.

Lemma fold_entry_inv base all dropped r e rest :
  ring_inv base all dropped r -> entries r = e :: rest ->
  ring_inv base all (dropped ++ [frame e]) (fold_entry (set_entries r rest) e).
Proof.
  intros [Hs Hf Ht Hl] He. unfold frames in *. rewrite He in *. split; simpl in *.
  - unfold frames. by rewrite Hs, <- app_assoc.
  - by rewrite foldl_app, Hf.
  - by rewrite last_snoc.
  - lia.
Qed.

Lemma ack_loop_inv base all dropped r s earliest :
  ring_inv base all dropped r ->
  exists d', ring_inv base all (dropped ++ d') (fst (ack_loop r (entries r) s earliest))
    /\ Forall (fun f => seq f <= s)%Z d'
    /\ match entries (fst (ack_loop r (entries r) s earliest)) with
       | [] => True | e :: _ => (s < seq (frame e))%Z end
    /\ snd (ack_loop r (entries r) s earliest)
       = match earliest with Some e => Some e
         | None => match d' with [] => None | _ => head (entries r) end end.
Proof.
  intros Hr. remember (entries r) as todo eqn:Htodo.
  revert dropped r earliest Hr Htodo. induction todo as [|e rest IH]; intros dropped r earliest Hr He.
  - exists []. rewrite app_nil_r. simpl. rewrite <- He. split_and!; [done|constructor|done|by destruct earliest].
  - simpl. destruct (s <? seq (frame e))%Z eqn:E; bool_facts.
    + exists []. rewrite app_nil_r. simpl. rewrite <- He.
      split_and!; [done|constructor|done|by destruct earliest].
    + destruct (IH (dropped ++ [frame e]) (fold_entry (set_entries r rest) e)
        (match earliest with Some _ => earliest | None => Some e end)) as (d' & Hi & Hd & Hh & Hsnd);
        [by apply fold_entry_inv|done|].
      exists (frame e :: d'). rewrite <- app_assoc in Hi. split_and!; [done|by constructor|done|].
      rewrite Hsnd. by destruct earliest.
Qed.

Lemma ack_inv base all dropped r s :
  ring_inv base all dropped r -> exists d', ring_inv base all (dropped ++ d') (fst (ack r s)).
Proof. intros H. destruct (ack_loop_inv _ _ _ _ s None H) as (d' & ? & _). by exists d'. Qed.

Lemma push_inv base all dropped r f lead ep :
  ring_inv base all dropped r ->
  exists d', ring_inv base (all ++ [f]) (dropped ++ d') (push r f lead ep).
Proof.
  intros Hr. unfold push. destruct (decide _) as [Hfull|Hfull].
  - destruct (entries r) as [|e rest] eqn:He; [simpl in Hfull; unfold RING_TICKS in Hfull; lia|].
    destruct (fold_entry_inv _ _ _ _ _ _ Hr He) as [Hs Hf Ht Hl].
    exists [frame e]. destruct Hr as [_ _ _ Hsz]. rewrite He in Hsz.
    split; simpl in *; [|done|done|].
    + rewrite Hs. unfold frames. simpl. by rewrite fmap_app, <- app_assoc.
    + rewrite length_app. simpl. lia.
  - exists []. rewrite app_nil_r. destruct Hr as [Hs Hf Ht Hl]. split; simpl; [|done|done|].
    + rewrite Hs. unfold frames. simpl. by rewrite fmap_app, <- app_assoc.
    + rewrite length_app. simpl. lia.
Qed.

Lemma reset_inv base r live :
  base = heldAtHorizon (reset r live) -> ring_inv base [] [] (reset r live).
Proof. intros ->. split; simpl; [done|done|done|]. unfold RING_TICKS. lia. Qed.

Lemma ring_run_inv ops :
  exists dropped, ring_inv (fst (ring_history ops)) (snd (ring_history ops)) dropped (ring_run new_ring ops).
Proof.
  induction ops as [|o ops IH] using rev_ind.
  - exists []. split; simpl; [done|done|done|]. unfold RING_TICKS. lia.
  - destruct IH as (dropped & IH). unfold ring_history, ring_run in *. rewrite !foldl_app.
    cbn [foldl]. destruct o; simpl.
    + apply (push_inv _ _ _ _ f lead ep) in IH as [d' ?]. by eexists.
    + apply (ack_inv _ _ _ _ s) in IH as [d' ?]. by eexists.
    + eexists. apply reset_inv. by destruct live.
Qed.

(** ** Properties *)

(** The retained ring loses no input. After any history of pushes,
    acknowledgements and resets: at most 48 frames are retained, they are the
    newest pushed since the last reset, in order, and folding them over the horizon
    state gives exactly the state every frame pushed since then folds to, from the
    state the reset seeded. An acknowledgement of [s] then drops frames numbered
    [s] or lower from the front only, stops at the first numbered higher, and
    reports the oldest dropped. *)
Theorem ring_horizon_accounts_for_all (ops : list ring_op) (s : Z) :
  let r := ring_run new_ring ops in
  let '(base, pushed) := ring_history ops in
  (length (entries r) <= 48)%nat
  /\ frames r `suffix_of` pushed
  /\ foldl fold_frame (heldAtHorizon r) (frames r) = foldl fold_frame base pushed
  /\ exists d,
       frames r = d ++ frames (fst (ack r s))
       /\ Forall (fun f => seq f <= s)%Z d
       /\ (forall f, head (frames (fst (ack r s))) = Some f -> (s < seq f)%Z)
       /\ frame <$> snd (ack r s) = head d.
Proof.
  intros r. destruct (ring_history ops) as [base pushed] eqn:Eh.
  destruct (ring_run_inv ops) as (dropped & Hr). rewrite Eh in Hr. simpl in Hr. fold r in Hr.
  destruct (ack_loop_inv _ _ _ _ s None Hr) as (d & Hr' & Hd & Hh & Hsnd). fold (ack r s) in *.
  destruct Hr as [Hs Hf Ht Hl]. split_and!; [done|by exists dropped| |].
  - by rewrite Hs, foldl_app, Hf.
  - destruct Hr' as [Hs' _ _ _]. rewrite Hs, <- app_assoc in Hs'. apply app_inv_head in Hs'.
    exists d. split_and!; [done|done| |].
    + unfold frames. intros f. destruct (entries (fst (ack r s))); simpl; [done|]. by intros [= <-].
    + rewrite Hsnd. destruct d as [|f d]; [done|]. unfold frames in Hs'. simpl.
      destruct (entries r); simpl in *; by simplify_eq.
Qed.

(** Re-deriving a held state. Folding a state into a fresh one holds exactly
    the same actions, leaves no one-tick edge behind, keeps every non-neutral axis
    value, and leaves an axis neutral unless its action is held; a held action
    whose own axis is neutral comes back at full deflection, since its press
    carries no value. *)
Theorem assertHeld_preserves (s : ActionStates) :
  wf_states s ->
  let t := assertHeld s createActionStates in
  wf_states t
  /\ (forall a, a ∈ held t <-> a ∈ held s)
  /\ pressed t = [] /\ released t = []
  /\ (forall a, axis_of t a
        = if feq (axis_of s a) f0 then (if decide (a ∈ held s) then of_Z 1 else f0)
          else axis_of s a).
Proof.
  intros Hs. unfold assertHeld. cbv zeta. split_and!; try done.
  - apply advanceTick_wf, foldl_wf; [intros ? [? ?]; auto with grove|].
    apply foldl_wf; auto with grove.
  - intros a. cbn [held advanceTick]. rewrite samples_held, presses_held. set_solver.
  - intros a. unfold axis_of at 1. cbn [axis advanceTick].
    rewrite samples_axis by (by apply axisValues_nodup).
    rewrite axisValues_get, presses_axis by done. unfold axis_of.
    destruct (mget (axis s) a) as [v|]; unfold nullish, default, from_option, id, heldActions.
    + destruct (feq v f0) eqn:E; [by case_decide|done].
    + by case_decide.
Qed.

Lemma assertHeld_preserves_witness :
  wf_states (applyEdge createActionStates (MkEdge (js "jump") press None))
  /\ axis_of (assertHeld (applyEdge createActionStates (MkEdge (js "jump") press None))
                createActionStates) (js "jump") = of_Z 1.
Proof.
  split; [auto with grove|].
  destruct (assertHeld_preserves (applyEdge createActionStates (MkEdge (js "jump") press None))
    ltac:(auto with grove)) as (_ & _ & _ & _ & H). rewrite H. vm_compute. reflexivity.
Defined.

(** The exceptional case is reachable: a button sampled back to zero while held. *)
Example assertHeld_raises_a_neutral_axis :
  let s := applyEdges createActionStates
             [MkEdge (js "aim") press None; MkEdge (js "aim") hold (Some f0)] in
  axis_of s (js "aim") = f0 /\ axis_of (assertHeld s createActionStates) (js "aim") = of_Z 1.
Proof. vm_compute. done. Qed.
