(* ===== verification/Admission.v ===== *)
(** * Input admission ([packages/sim/src/session.ts], the buffer of
    [packages/sim/src/input.ts], the windows of [packages/sim/src/constants.ts])

    The authority decides for every input frame of a connection whether it is
    filed, clamped or refused, and tells the client through one number how far its
    sequence has been settled. [AdmissionState] is the per-connection bookkeeping,
    [InputBuffer] the frames waiting for their tick. Sequence numbers and ticks are
    safe integers by the time they get here, so they are [Z].

    The abstract reading is [fate]: each sequence number of a connection is
    unknown, missing, waiting, or settled, and the acknowledged frontier never
    passes a number that is not settled. *)

From S2P Require Import Prelude JsMap JsNum Json ActionStates.

Local Open Scope Z_scope.

(** ** Constants *)

Definition MAX_REWIND_MS : Z := 250.
Definition INPUT_WINDOW_MS : Z := MAX_REWIND_MS.
Definition JOIN_DEADLINE_MS : Z := 5000.
Definition HOLD_STALE_MS : Z := 5000.
Definition INPUT_BUCKET_FRAMES : Z := 8.
Definition RATE_BREACH_CLOSE : Z := 64.
Definition CONTROL_BUCKET_FRAMES : Z := 4.
Definition CONTROL_REFILL_MS : Z := 1000.
Definition MAX_ACTION_NAMES : nat := 64.
Definition HORIZON_CLAMP_TICKS : Z := 2.

(** [ticksFor], exact over binary64; [ticks] reads the integer it denotes. A rate
    [assertRate] accepts is positive and finite, and the input window is a quarter
    second, so the product stays finite and the fallback is not reached. *)
Definition ticks (x : num) : Z := default 0 (to_Z x).

Definition ticksFor (ms : Z) (simRate : num) : Z :=
  ticks (fmax (of_Z 1) (fceil (fmul (fdiv (of_Z ms) (of_Z 1000)) simRate))).

Definition pastGraceTicks (simRate : num) : Z := ticksFor INPUT_WINDOW_MS simRate.
Definition futureHorizonTicks (simRate : num) : Z := ticksFor INPUT_WINDOW_MS simRate.
Definition maxSeqGap (simRate : num) : Z :=
  pastGraceTicks simRate + futureHorizonTicks simRate + HORIZON_CLAMP_TICKS.
Definition holdStaleTicks (simRate : num) : Z := ticksFor HOLD_STALE_MS simRate.
Definition controlRefillTicks (simRate : num) : Z := ticksFor CONTROL_REFILL_MS simRate.
Definition joinDeadlineTicks (simRate : num) : Z := ticksFor JOIN_DEADLINE_MS simRate.

Inductive SimError := invalid_config (name : string).

Definition assertRate (name : string) (rate : num) : outcome SimError () :=
  if negb (isFinite rate) || fle rate f0 then Throw (invalid_config name) else Ok ().

Example ticks_at_the_usual_rates :
  (pastGraceTicks (of_Z 60), pastGraceTicks (of_Z 30), pastGraceTicks (of_Z 20), pastGraceTicks (of_Z 1))
  = (15, 8, 5, 1)
  /\ (maxSeqGap (of_Z 60), controlRefillTicks (of_Z 60), holdStaleTicks (of_Z 60)) = (32, 60, 300).
Proof. vm_compute. done. Qed.

(** ** One connection's admission state *)

Inductive RefusalReason := too_old | too_far_future | rate.

Record AckReport := MkAck { ackSeq : Z; earliestHeadroom : option Z }.

Record AdmissionState := MkAdm {
  frontier : Z;
  resolved : jsset Z;
  headroom : jsmap Z Z;
  gapTickBound : jsmap Z Z;
  highestSeen : Z;
  actionNames : jsset jstr;
  tokens : Z;
  controlTokens : Z;
  ticksSinceControlRefill : Z;
  rateRefusals : Z;
  lastInputTick : Z;
}.

Definition new_admission : AdmissionState :=
  MkAdm (-1) [] [] [] (-1) [] INPUT_BUCKET_FRAMES CONTROL_BUCKET_FRAMES 0 0 0.

Definition set_traffic (a : AdmissionState) (t : Z) : AdmissionState :=
  MkAdm (frontier a) (resolved a) (headroom a) (gapTickBound a) (highestSeen a) (actionNames a)
    (tokens a) (controlTokens a) (ticksSinceControlRefill a) (rateRefusals a) t.

(** The four fields the resolution rules touch, replaced together. *)
Definition set_seqs (a : AdmissionState) (f : Z) (r : jsset Z) (h g : jsmap Z Z) (hi : Z)
    : AdmissionState :=
  MkAdm f r h g hi (actionNames a) (tokens a) (controlTokens a) (ticksSinceControlRefill a)
    (rateRefusals a) (lastInputTick a).

Definition set_tokens (a : AdmissionState) (tk ctk since rr : Z) : AdmissionState :=
  MkAdm (frontier a) (resolved a) (headroom a) (gapTickBound a) (highestSeen a) (actionNames a)
    tk ctk since rr (lastInputTick a).

Definition overRateBreachLimit (a : AdmissionState) : bool := RATE_BREACH_CLOSE <=? rateRefusals a.

Definition seen (a : AdmissionState) (s : Z) : bool := mhas (headroom a) s || shas (resolved a) s.

Definition noteTraffic (a : AdmissionState) (serverTick : Z) : AdmissionState :=
  set_traffic a serverTick.

(** [first, first+1, .., last-1]. *)
Definition zrange (first last : Z) : list Z :=
  (fun i => first + Z.of_nat i) <$> List.seq 0 (Z.to_nat (last - first)).

(** The loop that dates the numbers an arrival skipped. *)
Definition date_gap (r : jsset Z) (frameTick : Z) (g : jsmap Z Z) (missing : Z) : jsmap Z Z :=
  if shas r missing then g else mset g missing frameTick.

Definition noteArrival (a : AdmissionState) (s frameTick serverTick : Z) : AdmissionState :=
  let a := noteTraffic a serverTick in
  let h := if frontier a <? s then mset (headroom a) s (frameTick - serverTick) else headroom a in
  let g := foldl (date_gap (resolved a) frameTick) (gapTickBound a) (zrange (highestSeen a + 1) s) in
  set_seqs a (frontier a) (resolved a) h g (if highestSeen a <? s then s else highestSeen a).

Definition resolve (a : AdmissionState) (s : Z) : AdmissionState :=
  if s <=? frontier a then a
  else set_seqs a (frontier a) (sadd (resolved a) s) (headroom a) (mdel (gapTickBound a) s)
         (highestSeen a).

(** The [for] of [abandonStale] deletes only the entry it is at. *)
Definition abandon_one (floor : Z) (a : AdmissionState) (e : Z * Z) : AdmissionState :=
  if e.2 <? floor
  then set_seqs a (frontier a) (sadd (resolved a) e.1) (headroom a) (mdel (gapTickBound a) e.1)
         (highestSeen a)
  else a.

Definition abandonStale (a : AdmissionState) (currentTick pastGrace : Z) : AdmissionState :=
  foldl (abandon_one (currentTick - pastGrace)) a (gapTickBound a).

(** The walk of [takeAck]: every turn deletes an element of [resolved], so its
    length is fuel enough ([takeAck_stops]). *)
Fixpoint ack_walk (fuel : nat) (a : AdmissionState) (earliest : option Z)
    : AdmissionState * option Z :=
  match fuel with
  | O => (a, earliest)
  | S fuel' =>
    let next := frontier a + 1 in
    if shas (resolved a) next then
      let sample := mget (headroom a) next in
      ack_walk fuel'
        (set_seqs a next (sdel (resolved a) next) (mdel (headroom a) next) (gapTickBound a)
           (highestSeen a))
        (match earliest with Some _ => earliest | None => sample end)
    else (a, earliest)
  end.

Definition takeAck (a : AdmissionState) : AckReport * AdmissionState :=
  let '(a', earliest) := ack_walk (length (resolved a)) a None in
  (MkAck (frontier a') earliest, a').

Definition refill (a : AdmissionState) (simRate : num) : AdmissionState :=
  let tk := if tokens a <? INPUT_BUCKET_FRAMES then tokens a + 1 else tokens a in
  let since := ticksSinceControlRefill a + 1 in
  if since <? controlRefillTicks simRate
  then set_tokens a tk (controlTokens a) since (rateRefusals a)
  else set_tokens a tk
         (if controlTokens a <? CONTROL_BUCKET_FRAMES then controlTokens a + 1 else controlTokens a)
         0 (rateRefusals a).

Definition takeToken (a : AdmissionState) : bool * AdmissionState :=
  if tokens a <=? 0
  then (false, set_tokens a (tokens a) (controlTokens a) (ticksSinceControlRefill a) (rateRefusals a + 1))
  else (true, set_tokens a (tokens a - 1) (controlTokens a) (ticksSinceControlRefill a) (rateRefusals a)).

Definition takeControlToken (a : AdmissionState) : bool * AdmissionState :=
  if controlTokens a <=? 0 then (false, a)
  else (true, set_tokens a (tokens a) (controlTokens a - 1) (ticksSinceControlRefill a) (rateRefusals a)).

Definition set_names (a : AdmissionState) (ns : jsset jstr) : AdmissionState :=
  MkAdm (frontier a) (resolved a) (headroom a) (gapTickBound a) (highestSeen a) ns
    (tokens a) (controlTokens a) (ticksSinceControlRefill a) (rateRefusals a) (lastInputTick a).

Definition admitsAction (a : AdmissionState) (name : jstr) : bool * AdmissionState :=
  if shas (actionNames a) name then (true, a)
  else if decide (MAX_ACTION_NAMES <= length (actionNames a))%nat then (false, a)
  else (true, set_names a (sadd (actionNames a) name)).

(** ** The buffer

    A session is an object; what the buffer keeps of it is its identity. *)

Abbreviation SessionRef := nat.

Record BufferedInput := MkBuffered { session : SessionRef; bframe : InputFrame }.

#[export] Instance fn_sessions_insert {A} : Insert SessionRef A (SessionRef -> A) :=
  fun k v f j => if decide (k = j) then v else f j.

Inductive AdmitResult :=
  | buffered (at_ : Z)
  | clamped (at_ : Z)
  | refused (reason : RefusalReason).

Abbreviation InputBuffer := (jsmap Z (list BufferedInput)).

Definition buffer_size (b : InputBuffer) : nat := foldl (fun n slot => n + length slot)%nat O (mvals b).

Definition file (b : InputBuffer) (at_ : Z) (e : BufferedInput) : InputBuffer :=
  match mget b at_ with
  | Some slot => mset b at_ (slot ++ [e])
  | None => mset b at_ [e]
  end.

Definition admitFrame (a : AdmissionState) (b : InputBuffer) (s : SessionRef) (f : InputFrame)
    (currentTick : Z) (simRate : num) : AdmitResult * AdmissionState * InputBuffer :=
  if (seq f <=? frontier a) || seen a (seq f) then (refused too_old, noteTraffic a currentTick, b)
  else if highestSeen a + maxSeqGap simRate <? seq f then
    (refused too_far_future, noteTraffic a currentTick, b)
  else
    let a := noteArrival a (seq f) (tick f) currentTick in
    let floor := currentTick - pastGraceTicks simRate in
    let horizon := currentTick + futureHorizonTicks simRate in
    if tick f <? floor then (refused too_old, resolve a (seq f), b)
    else if horizon + HORIZON_CLAMP_TICKS <? tick f then
      (refused too_far_future, resolve a (seq f), b)
    else
      let '(ok, a) := takeToken a in
      if negb ok then (refused rate, resolve a (seq f), b)
      else
        let is_clamped := horizon <? tick f in
        let at_ := if is_clamped then horizon else tick f in
        (if is_clamped then clamped at_ else buffered at_, a, file b at_ (MkBuffered s f)).

Definition due_ticks (b : InputBuffer) (t : Z) : list Z :=
  merge_sort Z.le (filter (fun k => k <= t) (mkeys b)).

Definition drain_one (acc : list BufferedInput * InputBuffer) (t : Z) : list BufferedInput * InputBuffer :=
  (acc.1 ++ match mget acc.2 t with Some slot => slot | None => [] end, mdel acc.2 t).

Definition drainThrough (b : InputBuffer) (t : Z) : list BufferedInput * InputBuffer :=
  match b with
  | [] => ([], b)
  | _ => foldl drain_one ([], b) (due_ticks b t)
  end.

Definition drop_slot (s : SessionRef) (b : InputBuffer) (e : Z * list BufferedInput) : InputBuffer :=
  let kept := filter (fun x => session x <> s) e.2 in
  match kept with [] => mdel b e.1 | _ => mset b e.1 kept end.

Definition dropSession (b : InputBuffer) (s : SessionRef) : InputBuffer :=
  foldl (drop_slot s) b b.

(** ** Histories

    One authority: an admission state per session and the shared buffer. The
    operations are the calls the simulation makes; their order is arbitrary. *)

Record Host := MkHost { adms : SessionRef -> AdmissionState; buf : InputBuffer }.

Definition new_host : Host := MkHost (fun _ => new_admission) [].

(** What a history settles: a frame filed, refused for good, applied, dropped
    with its closed session, or a number given up. *)
Inductive adm_event :=
  | Filed (s : SessionRef) (n at_ : Z)
  | Refused (s : SessionRef) (n : Z)
  | Applied (s : SessionRef) (n : Z)
  | Dropped (s : SessionRef) (n : Z)
  | Abandoned (s : SessionRef) (n : Z)
  | Refilled (s : SessionRef).

#[export] Instance adm_event_eq_dec : EqDecision adm_event.
Proof. solve_decision. Defined.

Inductive host_op :=
  | OpAdmit (s : SessionRef) (f : InputFrame) (now : Z) (simRate : num)
  | OpPass (now : Z) (live : SessionRef -> bool)
  | OpAbandon (s : SessionRef) (now grace : Z)
  | OpAck (s : SessionRef)
  | OpDrop (s : SessionRef)
  | OpRefill (s : SessionRef) (simRate : num)
  | OpToken (s : SessionRef)
  | OpControl (s : SessionRef)
  | OpTraffic (s : SessionRef) (now : Z)
  | OpName (s : SessionRef) (name : jstr).

Definition settles (r : AdmitResult) (s : SessionRef) (n : Z) (resolves : bool) : list adm_event :=
  match r with
  | buffered t | clamped t => [Filed s n t]
  | refused _ => if resolves then [Refused s n] else []
  end.

(** [applyBuffered] resolves a frame of a live session; the frame of a session
    closed since is passed over. *)
Definition pass_one (live : SessionRef -> bool)
    (acc : (SessionRef -> AdmissionState) * list adm_event) (e : BufferedInput)
    : (SessionRef -> AdmissionState) * list adm_event :=
  let n := seq (bframe e) in
  if live (session e)
  then (<[session e := resolve (acc.1 (session e)) n]> acc.1, acc.2 ++ [Applied (session e) n])
  else (acc.1, acc.2 ++ [Dropped (session e) n]).

Definition upd (h : Host) (s : SessionRef) (a : AdmissionState) : Host :=
  MkHost (<[s := a]> (adms h)) (buf h).

Definition host_step (h : Host) (o : host_op) : Host * list adm_event :=
  match o with
  | OpAdmit s f now r =>
    let a := adms h s in
    let '(res, a', b') := admitFrame a (buf h) s f now r in
    (MkHost (<[s := a']> (adms h)) b',
     settles res s (seq f)
       (negb ((seq f <=? frontier a) || seen a (seq f) || (highestSeen a + maxSeqGap r <? seq f))))
  | OpPass now live =>
    let '(due, b') := drainThrough (buf h) now in
    let '(m, evs) := foldl (pass_one live) (adms h, []) due in
    (MkHost m b', evs)
  | OpAbandon s now grace =>
    (upd h s (abandonStale (adms h s) now grace),
     Abandoned s <$> (filter (fun e => e.2 < now - grace) (gapTickBound (adms h s))).*1)
  | OpAck s => (upd h s (takeAck (adms h s)).2, [])
  | OpDrop s =>
    (MkHost (adms h) (dropSession (buf h) s),
     (fun e => Dropped s (seq (bframe e))) <$> filter (fun e => session e = s) (concat (mvals (buf h))))
  | OpRefill s r => (upd h s (refill (adms h s) r), [Refilled s])
  | OpToken s => (upd h s (takeToken (adms h s)).2, [])
  | OpControl s => (upd h s (takeControlToken (adms h s)).2, [])
  | OpTraffic s now => (upd h s (noteTraffic (adms h s) now), [])
  | OpName s name => (upd h s (admitsAction (adms h s) name).2, [])
  end.

Fixpoint host_run (h : Host) (ops : list host_op) : Host * list adm_event :=
  match ops with
  | [] => (h, [])
  | o :: ops' =>
    let '(h', evs) := host_step h o in
    let '(h'', evs') := host_run h' ops' in (h'', evs ++ evs')
  end.

(** Projections of a history's log onto one session. *)
Definition filed (s : SessionRef) (log : list adm_event) : list Z :=
  omap (fun e => match e with Filed s' n _ => if decide (s' = s) then Some n else None | _ => None end) log.
Definition applied (s : SessionRef) (log : list adm_event) : list Z :=
  omap (fun e => match e with Applied s' n => if decide (s' = s) then Some n else None | _ => None end) log.
Definition dropped (s : SessionRef) (log : list adm_event) : list Z :=
  omap (fun e => match e with Dropped s' n => if decide (s' = s) then Some n else None | _ => None end) log.
Definition given_up (s : SessionRef) (log : list adm_event) : list Z :=
  omap (fun e => match e with
       | Refused s' n | Abandoned s' n => if decide (s' = s) then Some n else None
       | _ => None end) log.
Definition refills (s : SessionRef) (log : list adm_event) : nat :=
  length (filter (fun e => e = Refilled s) log).

Definition pending (s : SessionRef) (b : InputBuffer) : list Z :=
  (fun e => seq (bframe e)) <$> filter (fun e => session e = s) (concat (mvals b)).

(** ** The sequence bookkeeping of one session

    [F] says which numbers have been filed, [S] which are settled. *)

Record seq_inv (f : Z) (r : jsset Z) (h g : jsmap Z Z) (hi : Z) (F S : Z -> Prop) : Prop := {
  si_r_nodup : NoDup r;
  si_h_nodup : NoDup (mkeys h);
  si_g_nodup : NoDup (mkeys g);
  si_range : -1 <= f <= hi;
  si_resolved : forall x, x ∈ r -> f < x <= hi /\ S x;
  si_behind : forall x, 0 <= x <= f -> S x;
  si_gap : forall x, x ∈ mkeys g -> f < x <= hi /\ x ∉ r;
  si_head : forall x, x ∈ mkeys h -> f < x <= hi;
  si_account : forall x, f < x <= hi -> x ∈ r \/ x ∈ mkeys g \/ F x;
  si_filed : forall x, F x -> 0 <= x <= hi /\ (x <= f \/ x ∈ mkeys h \/ x ∈ r);
  si_settled : forall x, S x -> x <= f \/ x ∈ r;
}.

Definition adm_inv (a : AdmissionState) (F S : Z -> Prop) : Prop :=
  seq_inv (frontier a) (resolved a) (headroom a) (gapTickBound a) (highestSeen a) F S.

Lemma new_admission_inv : adm_inv new_admission (fun _ => False) (fun _ => False).
Proof. split; simpl; try (intros; (lia || set_solver)); try constructor; lia. Qed.

Lemma adm_inv_weaken a F S S' :
  adm_inv a F S -> (forall x, S x -> S' x) ->
  (forall x, S' x -> S x \/ x <= frontier a \/ x ∈ resolved a) -> adm_inv a F S'.
Proof. intros [] HS HS'. split; try done; naive_solver. Qed.

Lemma adm_inv_ext a F F' S S' :
  (forall x, F x <-> F' x) -> (forall x, S x <-> S' x) -> adm_inv a F S -> adm_inv a F' S'.
Proof. intros HF HS []. split; try done; naive_solver. Qed.

(** A number that is resolved need not be filed to be accounted for. *)
Lemma adm_inv_unfile a F S s :
  adm_inv a (fun x => F x \/ x = s) S -> (s <= frontier a \/ s ∈ resolved a) -> adm_inv a F S.
Proof.
  intros Hi Hs. destruct Hi as [? ? ? ? ? ? ? ? Hacc Hf ?]. split; try done.
  - intros x Hx. destruct (Hacc x Hx) as [?|[?|[?| ->]]]; auto.
    destruct Hs; [lia|auto].
  - intros x Hx. apply Hf. by left.
Qed.

Lemma resolve_inv a F S s :
  adm_inv a F S -> s <= highestSeen a -> adm_inv (resolve a s) F (fun x => S x \/ x = s).
Proof.
  intros Hi Hs. unfold resolve. destruct (s <=? frontier a) eqn:E; bool_facts.
  { eapply adm_inv_weaken; [done|auto|]. intros x [?| ->]; auto. }
  destruct Hi as [? ? ? ? Hr Hb Hg Hh Hacc Hf Hst]. split; simpl; auto with grove.
  - intros x [->|Hx]%elem_of_sadd; [split; [lia|auto]|]. destruct (Hr x Hx). auto.
  - intros x. rewrite mkeys_mdel, elem_of_sdel, elem_of_sadd. intros [Hx Hne].
    destruct (Hg x Hx). naive_solver.
  - intros x Hx. rewrite mkeys_mdel, elem_of_sdel, elem_of_sadd.
    destruct (decide (x = s)); [auto|]. destruct (Hacc x Hx) as [?|[?|?]]; auto.
  - intros x Hx. rewrite elem_of_sadd. destruct (Hf x Hx) as [? [?|[?|?]]]; auto.
  - intros x Hx. rewrite elem_of_sadd. destruct Hx as [Hx| ->]; [|auto].
    destruct (Hst x Hx); auto.
Qed.

Lemma resolve_settled a s : s <= frontier (resolve a s) \/ s ∈ resolved (resolve a s).
Proof.
  unfold resolve. destruct (s <=? frontier a) eqn:E; bool_facts; [by left|].
  right. simpl. rewrite elem_of_sadd. by left.
Qed.

Lemma elem_of_zrange x lo hi : x ∈ zrange lo hi <-> lo <= x < hi.
Proof.
  unfold zrange. rewrite list_elem_of_fmap. split.
  - intros (n & -> & Hn). rewrite list_elem_of_In, in_seq in Hn. lia.
  - intros Hx. exists (Z.to_nat (x - lo)). split; [lia|]. rewrite list_elem_of_In, in_seq. lia.
Qed.

Lemma date_gap_keys r ft l g x :
  x ∈ mkeys (foldl (date_gap r ft) g l) <-> x ∈ mkeys g \/ (x ∈ l /\ x ∉ r).
Proof.
  revert g. induction l as [|y l IH]; intros g; simpl; [set_solver|].
  rewrite IH. unfold date_gap. destruct (shas r y) eqn:E.
  - apply shas_spec in E. set_solver.
  - apply shas_false in E. rewrite mkeys_mset_sadd, elem_of_sadd. set_solver.
Qed.

Lemma date_gap_nodup r ft l g :
  NoDup (mkeys g) -> NoDup (mkeys (foldl (date_gap r ft) g l)).
Proof.
  revert g. induction l as [|y l IH]; intros g Hg; simpl; [done|].
  apply IH. unfold date_gap. destruct (shas r y); auto with grove.
Qed.

Lemma noteArrival_inv a F S s ft now :
  adm_inv a F S -> frontier a < s -> s ∉ mkeys (headroom a) -> s ∉ resolved a ->
  adm_inv (noteArrival a s ft now) (fun x => F x \/ x = s) S.
Proof.
  intros [? ? ? ? Hr Hb Hg Hh Hacc Hf ?] Hs Hnh Hnr. unfold noteArrival.
  set (hi := if highestSeen a <? s then s else highestSeen a).
  assert (Hhi : hi = Z.max s (highestSeen a)).
  { unfold hi. destruct (highestSeen a <? s) eqn:E; bool_facts; lia. }
  rewrite (proj2 (Z.ltb_lt (frontier (noteTraffic a now)) s)) by done.
  split; simpl; fold hi; rewrite ?Hhi; auto with grove.
  - by apply date_gap_nodup.
  - lia.
  - intros x Hx. destruct (Hr x Hx). split; [lia|done].
  - intros x. rewrite date_gap_keys, elem_of_zrange. intros [Hx|[Hx Hn]].
    + destruct (Hg x Hx). split; [lia|done].
    + split; [lia|done].
  - intros x. rewrite mkeys_mset_sadd, elem_of_sadd. intros [->|Hx]; [lia|].
    specialize (Hh x Hx). lia.
  - intros x Hx. rewrite date_gap_keys, elem_of_zrange.
    destruct (decide (x = s)); [by auto|].
    destruct (decide (x <= highestSeen a)).
    + destruct (Hacc x ltac:(lia)) as [?|[?|?]]; auto.
    + right. left. right. split; [lia|]. intros Hx'. destruct (Hr x Hx'). lia.
  - intros x. rewrite mkeys_mset_sadd, elem_of_sadd. intros [Hx|Hx]; [|subst; split; [lia|auto]].
    destruct (Hf x Hx) as [? [?|[?|?]]]; split; auto; lia.
Qed.

(** [abandonStale] turns each stale dated gap into a settled number. *)
Lemma abandon_one_inv a F S floor n t :
  adm_inv a F S -> n ∈ mkeys (gapTickBound a) ->
  adm_inv (abandon_one floor a (n, t)) F (fun x => S x \/ (t < floor /\ x = n)).
Proof.
  intros Hi Hn. unfold abandon_one. simpl. destruct (t <? floor) eqn:E; bool_facts.
  - pose proof (si_gap _ _ _ _ _ _ _ Hi n Hn) as [Hr _].
    pose proof (resolve_inv a F S n Hi ltac:(lia)) as Hres.
    unfold resolve in Hres. rewrite (proj2 (Z.leb_gt n (frontier a))) in Hres by lia.
    eapply adm_inv_ext; [| |exact Hres]; [done|]. naive_solver.
  - eapply adm_inv_ext; [| |exact Hi]; [done|]. naive_solver lia.
Qed.

Lemma abandon_one_gap floor a e :
  gapTickBound (abandon_one floor a e) = if e.2 <? floor then mdel (gapTickBound a) e.1 else gapTickBound a.
Proof. unfold abandon_one. by destruct (e.2 <? floor). Qed.

Lemma abandonStale_loop a F S floor l :
  adm_inv a F S -> NoDup l.*1 -> (forall n, n ∈ l.*1 -> n ∈ mkeys (gapTickBound a)) ->
  adm_inv (foldl (abandon_one floor) a l) F
    (fun x => S x \/ x ∈ (filter (fun e => e.2 < floor) l).*1).
Proof.
  revert a S. induction l as [|[n t] l IH]; intros a S Hi Hnd Hin.
  - simpl. eapply adm_inv_ext; [| |exact Hi]; [done|]. set_solver.
  - csimpl in *. apply NoDup_cons in Hnd as [Hn Hl].
    eapply adm_inv_ext; cycle 2.
    + apply IH; [apply abandon_one_inv; [done|]|done|].
      * apply Hin. left.
      * intros m Hm. rewrite abandon_one_gap. simpl.
        destruct (t <? floor); [rewrite mkeys_mdel, elem_of_sdel|].
        -- split; [apply Hin; by right|]. by intros ->.
        -- apply Hin. by right.
    + done.
    + intros x. simpl. rewrite filter_cons. simpl. case_decide; csimpl; rewrite ?elem_of_cons; naive_solver.
Qed.

Lemma abandonStale_inv a F S now grace :
  adm_inv a F S ->
  adm_inv (abandonStale a now grace) F
    (fun x => S x \/ x ∈ (filter (fun e => e.2 < now - grace) (gapTickBound a)).*1).
Proof.
  intros Hi. apply abandonStale_loop; [done|apply Hi|done].
Qed.

Lemma abandonStale_gap_gone a now grace :
  (forall n t, (n, t) ∈ gapTickBound a -> t < now - grace) ->
  gapTickBound (abandonStale a now grace) = [].
Proof.
  intros H. unfold abandonStale.
  enough (Hgen : forall l a, (forall e, e ∈ l -> e.2 < now - grace) ->
    gapTickBound (foldl (abandon_one (now - grace)) a l)
    = filter (fun e => e.1 ∉ l.*1) (gapTickBound a)).
  { rewrite Hgen by (intros [n t] ?; simpl; eauto). apply filter_false.
    intros e He Hn. apply Hn, list_elem_of_fmap. by exists e. }
  intros l. induction l as [|[n t] l IH]; intros b Hl; simpl.
  - symmetry. apply filter_true. intros. set_solver.
  - rewrite IH by (intros; apply Hl; by right). rewrite abandon_one_gap. simpl.
    rewrite (proj2 (Z.ltb_lt _ _)) by (apply (Hl (n, t)); left).
    unfold mdel. rewrite list_filter_filter. apply list_filter_iff. intros [m u]. simpl. set_solver.
Qed.

Lemma abandonStale_frame a now grace :
  frontier (abandonStale a now grace) = frontier a
  /\ highestSeen (abandonStale a now grace) = highestSeen a.
Proof.
  unfold abandonStale. generalize (gapTickBound a). intros l. revert a.
  induction l as [|e l IH]; intros a; simpl; [done|].
  destruct (IH (abandon_one (now - grace) a e)) as [-> ->].
  unfold abandon_one. by destruct (_ <? _).
Qed.

(** ** The acknowledgement walk *)

Lemma ack_step_inv a F S :
  adm_inv a F S -> frontier a + 1 ∈ resolved a ->
  adm_inv (set_seqs a (frontier a + 1) (sdel (resolved a) (frontier a + 1))
             (mdel (headroom a) (frontier a + 1)) (gapTickBound a) (highestSeen a)) F S.
Proof.
  intros [? ? ? ? Hr Hb Hg Hh Hacc Hf Hst] Hn. destruct (Hr _ Hn) as [Hlt HS].
  split; simpl; auto with grove.
  - lia.
  - intros x [Hx Hne]%elem_of_sdel. destruct (Hr x Hx). split; [lia|done].
  - intros x Hx. destruct (decide (x = frontier a + 1)) as [->|]; [done|]. apply Hb. lia.
  - intros x Hx. destruct (Hg x Hx) as [Hx1 Hx2].
    assert (x <> frontier a + 1) by (by intros ->).
    split; [lia|]. rewrite elem_of_sdel. tauto.
  - intros x. rewrite mkeys_mdel, elem_of_sdel. intros [Hx Hne]. specialize (Hh x Hx). lia.
  - intros x Hx. rewrite elem_of_sdel. destruct (Hacc x ltac:(lia)) as [?|[?|?]]; auto.
    left. split; [done|lia].
  - intros x Hx. rewrite mkeys_mdel, !elem_of_sdel. destruct (Hf x Hx) as [? [?|[?|?]]]; split; auto.
    + left. lia.
    + destruct (decide (x = frontier a + 1)); [left; lia|auto].
    + destruct (decide (x = frontier a + 1)); [left; lia|auto].
  - intros x Hx. rewrite elem_of_sdel. destruct (decide (x = frontier a + 1)); [left; lia|].
    destruct (Hst x Hx); [left; lia|auto].
Qed.

Lemma ack_walk_inv fuel a F S e : adm_inv a F S -> adm_inv (ack_walk fuel a e).1 F S.
Proof.
  revert a e. induction fuel as [|fuel IH]; intros a e Hi; simpl; [done|].
  destruct (shas _ _) eqn:E; [|done]. apply shas_spec in E. apply IH. by apply ack_step_inv.
Qed.

Lemma ack_walk_mono fuel a e : frontier a <= frontier (ack_walk fuel a e).1.
Proof.
  revert a e. induction fuel as [|fuel IH]; intros a e; simpl; [lia|].
  destruct (shas _ _); [|simpl; lia].
  match goal with |- context [ack_walk fuel ?b ?e'] => specialize (IH b e') end.
  simpl in IH. lia.
Qed.

Lemma ack_walk_hi fuel a e : highestSeen (ack_walk fuel a e).1 = highestSeen a.
Proof.
  revert a e. induction fuel as [|fuel IH]; intros a e; simpl; [done|].
  destruct (shas _ _); [by rewrite IH|done].
Qed.

Lemma ack_walk_gap fuel a e : gapTickBound (ack_walk fuel a e).1 = gapTickBound a.
Proof.
  revert a e. induction fuel as [|fuel IH]; intros a e; simpl; [done|].
  destruct (shas _ _); [by rewrite IH|done].
Qed.

Lemma length_sdel_lt {K} `{EqDecision K} (s : jsset K) k : k ∈ s -> (length (sdel s k) < length s)%nat.
Proof.
  unfold sdel. induction s as [|x s IH]; intros Hk; [by apply elem_of_nil in Hk|].
  rewrite filter_cons. simpl. case_decide as Hx.
  - simpl. assert (k ∈ s) as Hs by (apply elem_of_cons in Hk as [->|?]; [done|done]).
    specialize (IH Hs). lia.
  - pose proof (length_filter (fun y => y <> k) s). lia.
Qed.

(** The fuel is enough: the walk stops because the next number is unsettled. *)
Lemma ack_walk_stops fuel a e :
  (length (resolved a) <= fuel)%nat ->
  frontier (ack_walk fuel a e).1 + 1 ∉ resolved (ack_walk fuel a e).1.
Proof.
  revert a e. induction fuel as [|fuel IH]; intros a e Hl; simpl.
  - destruct (resolved a) eqn:E; [set_solver|simpl in Hl; lia].
  - destruct (shas _ _) eqn:E; [|by apply shas_false in E].
    apply shas_spec in E. apply IH. simpl. pose proof (length_sdel_lt _ _ E). lia.
Qed.

Lemma takeAck_snd a : (takeAck a).2 = (ack_walk (length (resolved a)) a None).1.
Proof. unfold takeAck. by destruct (ack_walk _ _ _). Qed.

Lemma takeAck_seq a : ackSeq (takeAck a).1 = frontier (takeAck a).2.
Proof. unfold takeAck. by destruct (ack_walk _ _ _). Qed.

Lemma takeAck_stops a : frontier (takeAck a).2 + 1 ∉ resolved (takeAck a).2.
Proof. rewrite takeAck_snd. by apply ack_walk_stops. Qed.

(** ** The buffer *)

Lemma file_perm b t e : concat (mvals (file b t e)) ≡ₚ e :: concat (mvals b).
Proof.
  unfold file, mvals. induction b as [|[k slot] b IH]; csimpl; [done|].
  case_decide; csimpl.
  - rewrite <- app_assoc. simpl. symmetry. apply Permutation_middle.
  - destruct (mget b t); csimpl; rewrite IH; symmetry; apply Permutation_middle.
Qed.

Lemma file_keys b t e : mkeys (file b t e) = sadd (mkeys b) t.
Proof. unfold file. destruct (mget b t); apply mkeys_mset_sadd. Qed.

Lemma mdel_perm (b : InputBuffer) t :
  NoDup (mkeys b) ->
  concat (mvals b) ≡ₚ match mget b t with Some slot => slot | None => [] end ++ concat (mvals (mdel b t)).
Proof.
  unfold mvals. induction b as [|[k slot] b IH]; csimpl; [done|].
  rewrite NoDup_cons. intros [Hk Hb]. unfold mdel in *. rewrite filter_cons. csimpl.
  destruct (decide (k = t)) as [->|Hne].
  - rewrite decide_False by auto. fold (mdel b t). by rewrite mdel_fresh.
  - rewrite decide_True by done. csimpl. rewrite IH at 1 by done. by rewrite !app_assoc, (Permutation_app_comm slot).
Qed.

Definition slot_at (b : InputBuffer) (t : Z) : list BufferedInput :=
  match mget b t with Some slot => slot | None => [] end.

Lemma drain_fold l acc b :
  NoDup l ->
  foldl drain_one (acc, b) l = (acc ++ concat (slot_at b <$> l), filter (fun e => e.1 ∉ l) b).
Proof.
  revert acc b. induction l as [|t l IH]; intros acc b; simpl.
  - intros _. rewrite app_nil_r. f_equal. symmetry. apply filter_true. set_solver.
  - rewrite NoDup_cons. intros [Ht Hl]. unfold drain_one at 2. simpl. rewrite IH by done.
    rewrite <- app_assoc. f_equal.
    + f_equal. f_equal. f_equal. apply list_fmap_ext. intros i k Hk. unfold slot_at.
      rewrite mget_mdel_ne; [done|]. intros <-. apply Ht. by eapply list_elem_of_lookup_2.
    + unfold mdel. rewrite list_filter_filter. apply list_filter_iff. intros [k v]. simpl. set_solver.
Qed.

Lemma elem_of_due b t k : k ∈ due_ticks b t <-> k ∈ mkeys b /\ k <= t.
Proof. unfold due_ticks. rewrite merge_sort_Permutation, list_elem_of_filter. tauto. Qed.

Lemma NoDup_due b t : NoDup (mkeys b) -> NoDup (due_ticks b t).
Proof. intros H. unfold due_ticks. rewrite merge_sort_Permutation. by apply NoDup_filter. Qed.

Lemma drainThrough_eq b t :
  NoDup (mkeys b) ->
  drainThrough b t = (concat (slot_at b <$> due_ticks b t), filter (fun e => t < e.1) b).
Proof.
  intros Hnd. transitivity (foldl drain_one ([], b) (due_ticks b t)); [by destruct b|].
  rewrite drain_fold by (by apply NoDup_due). simpl. f_equal.
  assert (Hin : forall e, e ∈ b -> e.1 ∈ mkeys b).
  { intros e He. unfold mkeys. apply list_elem_of_fmap. by exists e. }
  assert (Hiff : forall e, e ∈ b -> e.1 ∉ due_ticks b t <-> t < e.1).
  { intros e He. rewrite elem_of_due. specialize (Hin e He). split; [|lia].
    intros Hn. destruct (decide (t < e.1)); [done|]. exfalso. apply Hn. split; [done|lia]. }
  clear Hin Hnd. revert Hiff. generalize (due_ticks b t). intros l.
  induction b as [|e b IH]; intros Hiff; [done|].
  rewrite !filter_cons. rewrite (IH (fun e' He' => Hiff e' (list_elem_of_further _ _ _ He'))).
  pose proof (Hiff e (list_elem_of_here _ _)). repeat case_decide; tauto || done.
Qed.

Lemma drain_perm l acc b :
  NoDup (mkeys b) ->
  acc ++ concat (mvals b)
  ≡ₚ (foldl drain_one (acc, b) l).1 ++ concat (mvals (foldl drain_one (acc, b) l).2).
Proof.
  revert acc b. induction l as [|t l IH]; intros acc b Hb; simpl; [done|].
  unfold drain_one at 2 4. simpl. rewrite <- IH by auto with grove.
  rewrite <- app_assoc. by rewrite <- mdel_perm.
Qed.

Lemma drainThrough_perm b t :
  NoDup (mkeys b) ->
  concat (mvals b) ≡ₚ (drainThrough b t).1 ++ concat (mvals (drainThrough b t).2).
Proof.
  intros Hb. replace (drainThrough b t) with (foldl drain_one ([], b) (due_ticks b t)) by (by destruct b).
  by rewrite <- drain_perm.
Qed.

Lemma drainThrough_keys b t :
  NoDup (mkeys b) -> NoDup (mkeys (drainThrough b t).2).
Proof.
  intros Hb. rewrite drainThrough_eq by done. simpl.
  unfold mkeys in *. eapply sublist_NoDup; [exact Hb|]. apply fmap_sublist, sublist_filter.
Qed.

(** Dropping a session filters every slot and deletes the emptied ones. *)
Definition cleaned (s : SessionRef) (b : InputBuffer) : InputBuffer :=
  omap (fun e => match filter (fun x => session x <> s) e.2 with
                 | [] => None | kept => Some (e.1, kept) end) b.

Lemma mset_middle (pre b : InputBuffer) t old new :
  t ∉ mkeys pre -> mset (pre ++ (t, old) :: b) t new = pre ++ (t, new) :: b.
Proof.
  unfold mkeys. induction pre as [|[k v] pre IH]; csimpl; intros Ht.
  - by rewrite decide_True.
  - apply not_elem_of_cons in Ht as [Hne Ht]. rewrite decide_False by congruence. by rewrite IH.
Qed.

Lemma mdel_middle (pre b : InputBuffer) t old :
  t ∉ mkeys pre -> t ∉ mkeys b -> mdel (pre ++ (t, old) :: b) t = pre ++ b.
Proof.
  intros Hpre Hb. unfold mdel. rewrite filter_app, filter_cons_False by (simpl; tauto).
  fold (mdel pre t). fold (mdel b t). by rewrite !mdel_fresh.
Qed.

Lemma dropSession_fold s l pre :
  NoDup (mkeys (pre ++ l)) -> foldl (drop_slot s) (pre ++ l) l = pre ++ cleaned s l.
Proof.
  revert pre. induction l as [|[t slot] l IH]; intros pre Hnd; [done|].
  unfold mkeys in Hnd. rewrite fmap_app in Hnd. csimpl in Hnd.
  apply NoDup_app in Hnd as (Hpre & Hdis & Hl). apply NoDup_cons in Hl as [Htl Hl].
  assert (Htp : t ∉ mkeys pre) by (intros H; apply (Hdis t H); left).
  cbn [foldl]. unfold drop_slot at 2, cleaned. csimpl.
  destruct (filter _ slot) as [|x kept] eqn:Ek.
  - rewrite mdel_middle by done. apply IH. unfold mkeys. rewrite fmap_app, NoDup_app.
    split_and!; [done| |done]. intros y Hy Hy'. apply (Hdis y Hy). by right.
  - rewrite mset_middle by done. rewrite (cons_middle _ pre), (app_assoc pre), IH, <- app_assoc; [done|].
    unfold mkeys. rewrite !fmap_app, <- app_assoc. csimpl. apply NoDup_app.
    split_and!; [done| |by apply NoDup_cons]. intros y Hy Hy'. by apply (Hdis y Hy).
Qed.

Lemma dropSession_eq b s : NoDup (mkeys b) -> dropSession b s = cleaned s b.
Proof. intros H. by apply (dropSession_fold s b []). Qed.

Lemma cleaned_entries s b :
  concat (mvals (cleaned s b)) = filter (fun x => session x <> s) (concat (mvals b)).
Proof.
  unfold mvals, cleaned. induction b as [|[t slot] b IH]; csimpl; [done|].
  rewrite filter_app, <- IH. by destruct (filter _ slot).
Qed.

Lemma cleaned_keys s b : mkeys (cleaned s b) `sublist_of` mkeys b.
Proof.
  unfold mkeys, cleaned. induction b as [|[t slot] b IH]; csimpl; [done|].
  destruct (filter _ slot); csimpl; by constructor.
Qed.

(** What waits for one session, across these operations. *)
Lemma pending_file s b t e :
  pending s (file b t e) ≡ₚ (if decide (session e = s) then [seq (bframe e)] else []) ++ pending s b.
Proof.
  unfold pending. rewrite file_perm, filter_cons. by case_decide.
Qed.

Lemma pending_drain s b t :
  NoDup (mkeys b) ->
  pending s b ≡ₚ ((fun e => seq (bframe e)) <$> filter (fun e => session e = s) (drainThrough b t).1)
                 ++ pending s (drainThrough b t).2.
Proof. intros H. unfold pending. by rewrite (drainThrough_perm b t), filter_app, fmap_app by done. Qed.

Lemma pending_drop s s' b :
  NoDup (mkeys b) -> pending s (dropSession b s') = if decide (s' = s) then [] else pending s b.
Proof.
  intros H. unfold pending. rewrite dropSession_eq, cleaned_entries, list_filter_filter by done.
  case_decide as Hs.
  - rewrite filter_false; [done|]. intros x _ [??]. congruence.
  - f_equal. apply list_filter_iff. naive_solver.
Qed.

Lemma dropSession_keys b s : NoDup (mkeys b) -> NoDup (mkeys (dropSession b s)).
Proof. intros H. rewrite dropSession_eq by done. eapply sublist_NoDup; [exact H|]. apply cleaned_keys. Qed.

(** ** The invariant of a history *)

Lemma upd_eq {A} (m : SessionRef -> A) s a : (<[s := a]> m) s = a.
Proof. unfold insert, fn_sessions_insert. by rewrite decide_True. Qed.

Lemma upd_ne {A} (m : SessionRef -> A) s s' a : s <> s' -> (<[s := a]> m) s' = m s'.
Proof. intros. unfold insert, fn_sessions_insert. by rewrite decide_False. Qed.

Definition settled (s : SessionRef) (log : list adm_event) (x : Z) : Prop :=
  x ∈ applied s log \/ x ∈ given_up s log.

Lemma filed_app s l l' : filed s (l ++ l') = filed s l ++ filed s l'.
Proof. apply omap_app. Qed.
Lemma applied_app s l l' : applied s (l ++ l') = applied s l ++ applied s l'.
Proof. apply omap_app. Qed.
Lemma dropped_app s l l' : dropped s (l ++ l') = dropped s l ++ dropped s l'.
Proof. apply omap_app. Qed.
Lemma given_up_app s l l' : given_up s (l ++ l') = given_up s l ++ given_up s l'.
Proof. apply omap_app. Qed.
Create Rewrite HintDb logs.
#[local] Hint Rewrite filed_app applied_app dropped_app given_up_app : logs.

Lemma settled_app s l l' x : settled s (l ++ l') x <-> settled s l x \/ settled s l' x.
Proof. unfold settled. autorewrite with logs. rewrite !elem_of_app. tauto. Qed.

(** Per session: the bookkeeping agrees with the log, no number is filed twice,
    and a filed frame is waiting, applied or dropped. *)
Record sess_inv (a : AdmissionState) (waiting : list Z) (s : SessionRef) (log : list adm_event) : Prop := {
  se_adm : adm_inv a (fun x => x ∈ filed s log) (settled s log);
  se_nodup : NoDup (filed s log);
  se_perm : filed s log ≡ₚ waiting ++ applied s log ++ dropped s log;
}.

Record host_inv (h : Host) (log : list adm_event) : Prop := {
  hi_keys : NoDup (mkeys (buf h));
  hi_sess : forall s, sess_inv (adms h s) (pending s (buf h)) s log;
}.

Lemma new_host_inv : host_inv new_host [].
Proof.
  split; [constructor|]. intros s. split; [|constructor|done].
  eapply adm_inv_ext; [..|apply new_admission_inv]; intros x; unfold settled; set_solver.
Qed.

(** A step that leaves the log, the buffer and the sequence fields alone. *)
Lemma sess_inv_same a a' w w' s log log' :
  sess_inv a w s log -> w ≡ₚ w' ->
  filed s log' = filed s log -> applied s log' = applied s log ->
  dropped s log' = dropped s log -> given_up s log' = given_up s log ->
  (forall F S, adm_inv a F S -> adm_inv a' F S) ->
  sess_inv a' w' s log'.
Proof.
  intros [Ha Hn Hp] Hw Hf Hap Hd Hg Himp. split.
  - apply Himp. unfold settled. by rewrite Hf, Hap, Hg.
  - by rewrite Hf.
  - by rewrite Hf, Hp, Hw, Hap, Hd.
Qed.

(** The sequence numbers of other sessions are untouched by an event. *)
Definition event_of (e : adm_event) : SessionRef :=
  match e with
  | Filed s _ _ | Refused s _ | Applied s _ | Dropped s _ | Abandoned s _ | Refilled s => s
  end.

Lemma logs_other s log evs :
  Forall (fun e => event_of e <> s) evs ->
  filed s (log ++ evs) = filed s log /\ applied s (log ++ evs) = applied s log
  /\ dropped s (log ++ evs) = dropped s log /\ given_up s (log ++ evs) = given_up s log.
Proof.
  intros H. autorewrite with logs.
  enough (filed s evs = [] /\ applied s evs = [] /\ dropped s evs = [] /\ given_up s evs = [])
    as (-> & -> & -> & ->) by (by rewrite !app_nil_r).
  induction H as [|e evs He _ (IH1 & IH2 & IH3 & IH4)]; [done|].
  unfold filed, applied, dropped, given_up in *. csimpl. rewrite IH1, IH2, IH3, IH4.
  destruct e; simpl in He; by rewrite ?decide_False.
Qed.

Lemma sess_inv_other a w s log evs :
  sess_inv a w s log -> Forall (fun e => event_of e <> s) evs -> sess_inv a w s (log ++ evs).
Proof.
  intros Hi Ho. destruct (logs_other s log evs Ho) as (? & ? & ? & ?).
  by eapply sess_inv_same.
Qed.

(** Filing a new number. *)
Lemma sess_inv_file a a' w w' s log n t :
  sess_inv a w s log ->
  n ∉ filed s log ->
  adm_inv a' (fun x => x ∈ filed s log \/ x = n) (settled s log) ->
  w' ≡ₚ n :: w ->
  sess_inv a' w' s (log ++ [Filed s n t]).
Proof.
  intros [Ha Hn Hp] Hfresh Ha' Hw. split.
  - eapply adm_inv_ext; [| |exact Ha']; intros x; unfold settled; autorewrite with logs; csimpl.
    + unfold filed at 2. csimpl. rewrite decide_True by done. set_solver.
    + unfold applied at 2, given_up at 2. csimpl. set_solver.
  - autorewrite with logs. unfold filed at 2. csimpl. rewrite decide_True by done. by apply NoDup_snoc.
  - autorewrite with logs. unfold filed at 2, applied at 2, dropped at 2. csimpl.
    rewrite decide_True, !app_nil_r by done. rewrite Hw, Hp. simpl.
    by rewrite Permutation_app_comm.
Qed.

(** Settling a number without filing it. *)
Lemma sess_inv_settle a a' w s log evs :
  sess_inv a w s log ->
  filed s evs = [] -> applied s evs = [] -> dropped s evs = [] ->
  adm_inv a' (fun x => x ∈ filed s log) (fun x => settled s log x \/ x ∈ given_up s evs) ->
  sess_inv a' w s (log ++ evs).
Proof.
  intros [Ha Hn Hp] Hf Hap Hd Ha'. split; autorewrite with logs; rewrite ?Hf, ?Hap, ?Hd, ?app_nil_r; try done.
  eapply adm_inv_ext; [| |exact Ha']; intros x; [done|].
  rewrite settled_app. unfold settled at 3. rewrite Hap. set_solver.
Qed.

Lemma fresh_not_filed a w s log n :
  sess_inv a w s log -> frontier a < n -> seen a n = false -> n ∉ filed s log.
Proof.
  intros [Ha _ _] Hn Hs Hin. destruct (si_filed _ _ _ _ _ _ _ Ha n Hin) as [_ [?|[H|H]]]; [lia| |].
  - apply mhas_spec in H. unfold seen in Hs. by rewrite H in Hs.
  - apply shas_spec in H. unfold seen in Hs. rewrite H in Hs. by destruct (mhas _ _).
Qed.

Lemma not_seen a n : seen a n = false -> (n ∉ mkeys (headroom a)) /\ (n ∉ resolved a).
Proof.
  unfold seen. intros [Hh Hr]%orb_false_iff. split.
  - intros Hin%mhas_spec. congruence.
  - by apply shas_false.
Qed.

Lemma noteArrival_highest a n ft now : n <= highestSeen (noteArrival a n ft now).
Proof. unfold noteArrival. simpl. destruct (_ <? n) eqn:E; bool_facts; lia. Qed.

Lemma admit_inv a b s f now r w log :
  sess_inv a w s log -> w ≡ₚ pending s b ->
  let '(res, a', b') := admitFrame a b s f now r in
  sess_inv a' (pending s b') s
    (log ++ settles res s (seq f)
       (negb ((seq f <=? frontier a) || seen a (seq f) || (highestSeen a + maxSeqGap r <? seq f)))).
Proof.
  intros Hi Hw. unfold admitFrame.
  destruct (seq f <=? frontier a) eqn:E1; simpl.
  { rewrite app_nil_r. by eapply sess_inv_same. }
  destruct (seen a (seq f)) eqn:E2; simpl.
  { rewrite app_nil_r. by eapply sess_inv_same. }
  destruct (highestSeen a + maxSeqGap r <? seq f) eqn:E3; simpl.
  { rewrite app_nil_r. by eapply sess_inv_same. }
  bool_facts. pose proof (fresh_not_filed _ _ _ _ _ Hi E1 E2) as Hfresh.
  destruct (not_seen _ _ E2) as [Hnh Hnr].
  pose proof (noteArrival_inv a _ _ (seq f) (tick f) now (se_adm _ _ _ _ Hi) E1 Hnh Hnr) as Harr.
  set (a1 := noteArrival a (seq f) (tick f) now) in *.
  assert (Hrefuse : forall a2, (forall F S, adm_inv a1 F S -> adm_inv a2 F S) ->
    seq f <= highestSeen a2 -> sess_inv (resolve a2 (seq f)) (pending s b) s (log ++ [Refused s (seq f)])).
  { intros a2 Himp Hhi. eapply sess_inv_same with (a := resolve a2 (seq f)) (w := w); [|done..].
    eapply sess_inv_settle; [exact Hi|done|done|done|].
    apply adm_inv_unfile with (s := seq f); [|apply resolve_settled].
    eapply adm_inv_ext; [| |apply resolve_inv; [by apply Himp|done]]; [done|].
    intros x. unfold given_up. csimpl. rewrite decide_True by done. set_solver. }
  destruct (tick f <? _); [apply Hrefuse; [done|apply noteArrival_highest]|].
  destruct (_ <? tick f); [apply Hrefuse; [done|apply noteArrival_highest]|].
  unfold takeToken. destruct (tokens a1 <=? 0); simpl.
  { apply Hrefuse; [done|]. apply noteArrival_highest. }
  assert (Hfile : forall at_, sess_inv
    (set_tokens a1 (tokens a1 - 1) (controlTokens a1) (ticksSinceControlRefill a1) (rateRefusals a1))
    (pending s (file b at_ (MkBuffered s f))) s (log ++ [Filed s (seq f) at_])).
  { intros at_. eapply sess_inv_file; [exact Hi|done|exact Harr|].
    rewrite pending_file. simpl. rewrite decide_True by done. simpl. by rewrite Hw. }
  destruct (_ <? tick f); simpl; apply Hfile.
Qed.

(** What [admitFrame] does to the buffer, whoever's frame it is. *)
Lemma admit_buffer a b s f now r :
  let '(_, _, b') := admitFrame a b s f now r in
  (NoDup (mkeys b) -> NoDup (mkeys b')) /\ (forall s', s <> s' -> pending s' b ≡ₚ pending s' b').
Proof.
  unfold admitFrame. destruct (_ || _); [done|]. destruct (_ <? seq f); [done|].
  destruct (tick f <? _); [done|]. destruct (_ <? tick f); [done|].
  destruct (takeToken _) as [ok a']. destruct ok; [|done].
  split; [rewrite file_keys; auto with grove|].
  intros s' Hne. rewrite pending_file. simpl. by rewrite decide_False.
Qed.

(** The pass settles what it applies and records what it passes over. *)
Definition seqs_of (s : SessionRef) (l : list BufferedInput) : list Z :=
  (fun e => seq (bframe e)) <$> filter (fun e => session e = s) l.

Lemma applied_event s n :
  filed s [Applied s n] = [] /\ applied s [Applied s n] = [n]
  /\ dropped s [Applied s n] = [] /\ given_up s [Applied s n] = [].
Proof. unfold filed, applied, dropped, given_up. csimpl. by rewrite decide_True. Qed.

Lemma dropped_event s n :
  filed s [Dropped s n] = [] /\ applied s [Dropped s n] = []
  /\ dropped s [Dropped s n] = [n] /\ given_up s [Dropped s n] = [].
Proof. unfold filed, applied, dropped, given_up. csimpl. by rewrite decide_True. Qed.

Lemma sess_inv_apply a w s log n :
  sess_inv a (n :: w) s log -> sess_inv (resolve a n) w s (log ++ [Applied s n]).
Proof.
  intros [Ha Hn Hp]. destruct (applied_event s n) as (Hf & Hap & Hd & Hg).
  assert (Hin : n ∈ filed s log) by (rewrite Hp; left).
  destruct (si_filed _ _ _ _ _ _ _ Ha _ Hin) as [Hhi _].
  split; autorewrite with logs; rewrite ?Hf, ?Hap, ?Hd, ?app_nil_r; [|done|].
  - eapply adm_inv_ext; [| |apply (resolve_inv _ _ _ n Ha); lia]; intros x; [done|].
    rewrite settled_app. unfold settled at 3. rewrite Hap, Hg. set_solver.
  - rewrite Hp. solve_Permutation.
Qed.

Lemma sess_inv_dropped a w s log n :
  sess_inv a (n :: w) s log -> sess_inv a w s (log ++ [Dropped s n]).
Proof.
  intros [Ha Hn Hp]. destruct (dropped_event s n) as (Hf & Hap & Hd & Hg).
  split; autorewrite with logs; rewrite ?Hf, ?Hap, ?Hd, ?app_nil_r; [|done|].
  - eapply adm_inv_ext; [| |exact Ha]; intros x; [done|].
    rewrite settled_app. unfold settled at 3. rewrite Hap, Hg. set_solver.
  - rewrite Hp. solve_Permutation.
Qed.

Lemma pass_one_inv live m log0 evs e l w s :
  sess_inv (m s) (seqs_of s (e :: l) ++ w) s (log0 ++ evs) ->
  let '(m', evs') := pass_one live (m, evs) e in
  sess_inv (m' s) (seqs_of s l ++ w) s (log0 ++ evs').
Proof.
  intros Hi. unfold pass_one, seqs_of in *. rewrite filter_cons in Hi.
  destruct (decide (session e = s)) as [->|Hne].
  - destruct (live s); simpl; rewrite app_assoc.
    + rewrite upd_eq. by apply sess_inv_apply.
    + by apply sess_inv_dropped.
  - destruct (live (session e)); simpl; rewrite app_assoc; rewrite ?upd_ne by done;
      apply sess_inv_other; try done; by constructor.
Qed.

Lemma pass_inv live l m log0 evs w s :
  sess_inv (m s) (seqs_of s l ++ w) s (log0 ++ evs) ->
  let '(m', evs') := foldl (pass_one live) (m, evs) l in
  sess_inv (m' s) w s (log0 ++ evs').
Proof.
  revert m evs. induction l as [|e l IH]; intros m evs Hi; [done|].
  cbn [foldl]. pose proof (pass_one_inv live m log0 evs e l w s Hi) as H.
  destruct (pass_one live (m, evs) e) as [m1 evs1]. by apply IH.
Qed.

Lemma upd_inv h log s a' evs :
  host_inv h log ->
  Forall (fun e => event_of e = s) evs ->
  sess_inv a' (pending s (buf h)) s (log ++ evs) ->
  host_inv (upd h s a') (log ++ evs).
Proof.
  intros [Hk Hs] Hev Ha'. split; [done|]. intros s'. simpl.
  destruct (decide (s = s')) as [->|Hne]; [by rewrite upd_eq|].
  rewrite upd_ne by done. apply sess_inv_other; [done|].
  eapply Forall_impl; [exact Hev|]. simpl. intros e <-. congruence.
Qed.

(** An operation that leaves the sequence fields alone. *)
Lemma upd_same_inv h log s a' evs :
  host_inv h log ->
  Forall (fun e => e = Refilled s) evs ->
  (forall F S, adm_inv (adms h s) F S -> adm_inv a' F S) ->
  host_inv (upd h s a') (log ++ evs).
Proof.
  intros Hi Hev Himp. apply upd_inv; [done|by eapply Forall_impl; [exact Hev|intros ? ->]|].
  eapply sess_inv_settle; [apply Hi| | | |];
    try (induction Hev as [|e evs He Hev' IH]; [done|rewrite He; by apply IH]).
  apply Himp. eapply adm_inv_ext; [| |apply Hi]; [done|]. intros x.
  enough (given_up s evs = []) as -> by set_solver.
  induction Hev as [|e evs He Hev' IH]; [done|]. rewrite He. by apply IH.
Qed.

Lemma given_up_abandoned s l : given_up s (Abandoned s <$> l) = l.
Proof.
  unfold given_up. induction l as [|n l IH]; csimpl; [done|]. by rewrite decide_True, IH.
Qed.

Lemma proj_abandoned s l :
  filed s (Abandoned s <$> l) = [] /\ applied s (Abandoned s <$> l) = []
  /\ dropped s (Abandoned s <$> l) = [].
Proof. unfold filed, applied, dropped. induction l; csimpl; done. Qed.

Lemma proj_dropped s (l : list BufferedInput) :
  let evs := (fun e => Dropped s (seq (bframe e))) <$> l in
  filed s evs = [] /\ applied s evs = [] /\ given_up s evs = []
  /\ dropped s evs = (fun e => seq (bframe e)) <$> l.
Proof.
  unfold filed, applied, dropped, given_up. simpl. induction l as [|e l IH]; csimpl; [done|].
  rewrite decide_True by done. destruct IH as (-> & -> & -> & ->). done.
Qed.

Lemma adm_inv_no_waiting a w w' s log evs :
  sess_inv a w s log ->
  filed s evs = [] -> applied s evs = [] -> given_up s evs = [] ->
  w ≡ₚ w' ++ dropped s evs ->
  sess_inv a w' s (log ++ evs).
Proof.
  intros [Ha Hn Hp] Hf Hap Hg Hw.
  split; autorewrite with logs; rewrite ?Hf, ?Hap, ?app_nil_r; [|done|].
  - eapply adm_inv_ext; [| |exact Ha]; intros x; [done|].
    rewrite settled_app. unfold settled at 3. rewrite Hap, Hg. set_solver.
  - rewrite Hp, Hw. solve_Permutation.
Qed.

Lemma refill_seqs a r F S : adm_inv a F S -> adm_inv (refill a r) F S.
Proof. unfold refill. cbv zeta. by destruct (_ <? controlRefillTicks r). Qed.
Lemma takeToken_seqs a F S : adm_inv a F S -> adm_inv (takeToken a).2 F S.
Proof. unfold takeToken. by destruct (tokens a <=? 0). Qed.
Lemma takeControlToken_seqs a F S : adm_inv a F S -> adm_inv (takeControlToken a).2 F S.
Proof. unfold takeControlToken. by destruct (controlTokens a <=? 0). Qed.
Lemma admitsAction_seqs a n F S : adm_inv a F S -> adm_inv (admitsAction a n).2 F S.
Proof. unfold admitsAction. destruct (shas _ _); [done|]. by case_decide. Qed.

Lemma drop_inv h log s :
  host_inv h log -> host_inv (host_step h (OpDrop s)).1 (log ++ (host_step h (OpDrop s)).2).
Proof.
  intros [Hk Hs]. split; simpl; [by apply dropSession_keys|]. intros s'.
  rewrite pending_drop by done.
  destruct (proj_dropped s (filter (fun e => session e = s) (concat (mvals (buf h)))))
    as (Hf & Hap & Hg & Hd).
  destruct (decide (s = s')) as [<-|Hne].
  - eapply adm_inv_no_waiting; [apply Hs|done|done|done|]. by rewrite Hd.
  - apply sess_inv_other; [done|]. apply Forall_fmap, Forall_true. intros e. simpl. congruence.
Qed.

Lemma pass_step_inv h log now live :
  host_inv h log ->
  host_inv (host_step h (OpPass now live)).1 (log ++ (host_step h (OpPass now live)).2).
Proof.
  intros [Hk Hs]. simpl. destruct (drainThrough (buf h) now) as [due b'] eqn:Ed.
  destruct (foldl (pass_one live) (adms h, []) due) as [m evs] eqn:Ef.
  split; simpl.
  - pose proof (drainThrough_keys (buf h) now Hk) as Hk'. by rewrite Ed in Hk'.
  - intros s. pose proof (pass_inv live due (adms h) log [] (pending s b') s) as H.
    rewrite Ef, app_nil_r in H. apply H. eapply sess_inv_same; [apply Hs| |done..].
    rewrite (pending_drain s _ now Hk), Ed. done.
Qed.

Lemma host_step_inv h log o :
  host_inv h log -> host_inv (host_step h o).1 (log ++ (host_step h o).2).
Proof.
  intros Hi. destruct o as [s f now r|now live|s now grace|s|s|s r|s|s|s now|s name].
  - simpl. pose proof (admit_inv (adms h s) (buf h) s f now r (pending s (buf h)) log
      (hi_sess _ _ Hi s) ltac:(done)) as H.
    pose proof (admit_buffer (adms h s) (buf h) s f now r) as Hb.
    destruct (admitFrame _ _ _ _ _ _) as [[res a'] b']. destruct Hi as [Hk Hs].
    destruct Hb as [Hkeys Hother]. split; simpl; [by apply Hkeys|].
    intros s'. destruct (decide (s = s')) as [<-|Hne]; [by rewrite upd_eq|].
    rewrite upd_ne by done. apply sess_inv_other.
    + eapply sess_inv_same with (log := log); [apply Hs|by apply Hother|done..].
    + unfold settles. destruct res; try case_bool; repeat constructor; simpl; congruence.
  - by apply pass_step_inv.
  - apply upd_inv; [done| |].
    + by apply Forall_fmap, Forall_true.
    + destruct (proj_abandoned s (filter (fun e => e.2 < now - grace) (gapTickBound (adms h s))).*1) as (?&?&?).
      eapply sess_inv_settle; [apply Hi|done|done|done|].
      eapply adm_inv_ext; [| |apply abandonStale_inv, Hi]; [done|].
      intros x. simpl. by rewrite given_up_abandoned.
  - apply upd_same_inv; [done|constructor|]. intros F S HFS. rewrite takeAck_snd. by apply ack_walk_inv.
  - by apply drop_inv.
  - apply upd_same_inv; [done|by constructor|]. intros. by apply refill_seqs.
  - apply upd_same_inv; [done|constructor|]. intros. by apply takeToken_seqs.
  - apply upd_same_inv; [done|constructor|]. intros. by apply takeControlToken_seqs.
  - by apply upd_same_inv.
  - apply upd_same_inv; [done|constructor|]. intros. by apply admitsAction_seqs.
Qed.

Lemma host_run_inv ops h log :
  host_inv h log -> host_inv (host_run h ops).1 (log ++ (host_run h ops).2).
Proof.
  revert h log. induction ops as [|o ops IH]; intros h log Hi; [by rewrite app_nil_r|].
  simpl. pose proof (host_step_inv h log o Hi) as Hi'.
  destruct (host_step h o) as [h' evs] eqn:E. specialize (IH h' _ Hi').
  destruct (host_run h' ops) as [h'' evs']. simpl in *. by rewrite app_assoc.
Qed.

Lemma host_run_app ops ops' h :
  (host_run h (ops ++ ops')).1 = (host_run (host_run h ops).1 ops').1.
Proof.
  revert h. induction ops as [|o ops IH]; intros h; [done|]. simpl.
  destruct (host_step h o) as [h' evs]. specialize (IH h').
  destruct (host_run h' (ops ++ ops')), (host_run h' ops). simpl in *. done.
Qed.

(** ** The frontier only advances *)

Lemma resolve_frontier a n : frontier (resolve a n) = frontier a.
Proof. unfold resolve. by destruct (n <=? frontier a). Qed.

Lemma admit_frontier a b s f now r :
  let '(_, a', _) := admitFrame a b s f now r in frontier a' = frontier a.
Proof.
  unfold admitFrame. destruct (_ || _); [done|]. destruct (_ <? seq f); [done|].
  destruct (tick f <? _); [by rewrite resolve_frontier|].
  destruct (_ <? tick f); [by rewrite resolve_frontier|].
  unfold takeToken. by destruct (tokens _ <=? 0); simpl; rewrite ?resolve_frontier.
Qed.

Lemma pass_frontier live l m evs s :
  frontier ((foldl (pass_one live) (m, evs) l).1 s) = frontier (m s).
Proof.
  revert m evs. induction l as [|e l IH]; intros m evs; [done|]. cbn [foldl].
  unfold pass_one at 2. simpl. destruct (live (session e)); rewrite IH; [|done].
  destruct (decide (session e = s)) as [<-|]; [by rewrite upd_eq, resolve_frontier|by rewrite upd_ne].
Qed.

Lemma upd_frontier_mono h s s' a' :
  frontier (adms h s) <= frontier a' -> frontier (adms h s') <= frontier (adms (upd h s a') s').
Proof.
  intros H. simpl. destruct (decide (s = s')) as [<-|]; [by rewrite upd_eq|by rewrite upd_ne].
Qed.

Lemma host_step_frontier h o s : frontier (adms h s) <= frontier (adms (host_step h o).1 s).
Proof.
  destruct o as [s' f now r|now live|s' now grace|s'|s'|s' r|s'|s'|s' now|s' name];
    try apply upd_frontier_mono; simpl.
  - pose proof (admit_frontier (adms h s') (buf h) s' f now r) as H.
    destruct (admitFrame _ _ _ _ _ _) as [[res a'] b']. simpl.
    destruct (decide (s' = s)) as [<-|]; [by rewrite upd_eq, H|by rewrite upd_ne].
  - destruct (drainThrough (buf h) now) as [due b'].
    pose proof (pass_frontier live due (adms h) [] s) as H.
    destruct (foldl _ _ due). simpl in *. by rewrite H.
  - by rewrite (proj1 (abandonStale_frame _ _ _)).
  - rewrite takeAck_snd. apply ack_walk_mono.
  - done.
  - unfold refill. by destruct (_ <? controlRefillTicks r).
  - unfold takeToken. by destruct (tokens _ <=? 0).
  - unfold takeControlToken. by destruct (controlTokens _ <=? 0).
  - done.
  - unfold admitsAction. destruct (shas _ _); [done|]. by case_decide.
Qed.

Lemma host_run_frontier ops h s : frontier (adms h s) <= frontier (adms (host_run h ops).1 s).
Proof.
  revert h. induction ops as [|o ops IH]; intros h; [done|]. simpl.
  pose proof (host_step_frontier h o s) as H. destruct (host_step h o) as [h' evs].
  specialize (IH h'). destruct (host_run h' ops). simpl in *. lia.
Qed.

(** ** The token buckets *)

Record bucket_inv (a : AdmissionState) : Prop := {
  bi_tokens : 0 <= tokens a <= INPUT_BUCKET_FRAMES;
  bi_control : 0 <= controlTokens a <= CONTROL_BUCKET_FRAMES;
  bi_names : (length (actionNames a) <= MAX_ACTION_NAMES)%nat;
  bi_names_nodup : NoDup (actionNames a);
}.

(** The fields the buckets and the name cap live in. *)
Definition buckets (a : AdmissionState) := (tokens a, controlTokens a, actionNames a).

Lemma bucket_inv_same a a' : buckets a = buckets a' -> bucket_inv a -> bucket_inv a'.
Proof. intros [= H1 H2 H3] [? ? ? ?]. split; congruence. Qed.

Lemma resolve_buckets a n : buckets (resolve a n) = buckets a.
Proof. unfold resolve. by destruct (_ <=? _). Qed.

Lemma abandonStale_buckets a now grace : buckets (abandonStale a now grace) = buckets a.
Proof.
  unfold abandonStale. generalize (gapTickBound a). intros l. revert a.
  induction l as [|e l IH]; intros a; simpl; [done|]. rewrite IH. unfold abandon_one. by destruct (_ <? _).
Qed.

Lemma takeAck_buckets a : buckets (takeAck a).2 = buckets a.
Proof.
  rewrite takeAck_snd. generalize (length (resolved a)) (@None Z). intros n. revert a.
  induction n as [|n IH]; intros a e; simpl; [done|]. destruct (shas _ _); [by rewrite IH|done].
Qed.

Lemma takeToken_bucket a : bucket_inv a ->
  bucket_inv (takeToken a).2
  /\ tokens (takeToken a).2 = tokens a - (if (takeToken a).1 then 1 else 0).
Proof.
  intros [? ? ? ?]. unfold takeToken. destruct (tokens a <=? 0) eqn:E; bool_facts; simpl;
    (split; [split; simpl; try done; lia|lia]).
Qed.

Lemma refill_bucket a r : bucket_inv a -> bucket_inv (refill a r) /\ tokens (refill a r) <= tokens a + 1.
Proof.
  intros [? ? ? ?]. unfold refill. cbv zeta.
  destruct (tokens a <? INPUT_BUCKET_FRAMES) eqn:E1, (ticksSinceControlRefill a + 1 <? controlRefillTicks r), (controlTokens a <? CONTROL_BUCKET_FRAMES) eqn:E2;
    bool_facts; (split; [split; simpl; try done; lia|simpl; lia]).
Qed.

Lemma takeControlToken_bucket a : bucket_inv a ->
  bucket_inv (takeControlToken a).2 /\ tokens (takeControlToken a).2 = tokens a.
Proof.
  intros [? ? ? ?]. unfold takeControlToken. destruct (controlTokens a <=? 0) eqn:E; bool_facts; simpl;
    (split; [split; simpl; try done; lia|done]).
Qed.

Lemma admitsAction_bucket a n : bucket_inv a ->
  bucket_inv (admitsAction a n).2 /\ tokens (admitsAction a n).2 = tokens a.
Proof.
  intros [? ? ? ?]. unfold admitsAction. destruct (shas _ _) eqn:E; [done|].
  case_decide; [done|]. simpl. split; [split; simpl; try done|done].
  - rewrite sadd_not_in by (by apply shas_false). rewrite length_app. simpl. lia.
  - auto with grove.
Qed.

Lemma admit_bucket a b s f now r :
  bucket_inv a ->
  let '(res, a', _) := admitFrame a b s f now r in
  bucket_inv a'
  /\ tokens a' = tokens a - match res with refused _ => 0 | _ => 1 end.
Proof.
  intros Ha. unfold admitFrame. destruct (_ || _); [by split; [eapply bucket_inv_same; [|exact Ha]|simpl; lia]|].
  destruct (_ <? seq f); [by split; [eapply bucket_inv_same; [|exact Ha]|simpl; lia]|].
  set (a1 := noteArrival a (seq f) (tick f) now).
  assert (Ha1 : bucket_inv a1) by (by eapply bucket_inv_same; [|exact Ha]).
  assert (Hres : forall a2 n, bucket_inv a2 -> tokens a2 = tokens a ->
    bucket_inv (resolve a2 n) /\ tokens (resolve a2 n) = tokens a - 0).
  { intros a2 n H2 Ht. pose proof (resolve_buckets a2 n) as Hb.
    split; [by eapply bucket_inv_same; [symmetry|]|]. injection Hb as -> _ _. lia. }
  destruct (tick f <? _); [by apply Hres|]. destruct (_ <? tick f); [by apply Hres|].
  pose proof (takeToken_bucket a1 Ha1) as [Ht1 Ht2].
  destruct (takeToken a1) as [ok a2]. simpl in *. destruct ok; simpl.
  - split; [done|]. rewrite Ht2. by destruct (_ <? tick f).
  - apply Hres; [done|]. rewrite Ht2. simpl. lia.
Qed.

(** Tokens in hand and frames filed never exceed the depth plus the refills. *)
Definition rate_inv (h : Host) (log : list adm_event) : Prop :=
  forall s, bucket_inv (adms h s)
    /\ Z.of_nat (length (filed s log)) + tokens (adms h s)
       <= INPUT_BUCKET_FRAMES + Z.of_nat (refills s log).

Lemma refills_app s l l' : refills s (l ++ l') = (refills s l + refills s l')%nat.
Proof. unfold refills. by rewrite filter_app, length_app. Qed.

Lemma rate_upd h log s a' b' evs :
  rate_inv h log ->
  bucket_inv a' ->
  Forall (fun e => event_of e = s) evs ->
  tokens a' + Z.of_nat (length (filed s evs)) <= tokens (adms h s) + Z.of_nat (refills s evs) ->
  rate_inv (MkHost (<[s := a']> (adms h)) b') (log ++ evs).
Proof.
  intros Hi Ha Hev Ht s'. simpl. rewrite filed_app, refills_app, length_app. destruct (Hi s') as [Hb Hc].
  destruct (decide (s = s')) as [<-|Hne]; [rewrite upd_eq; split; [done|lia]|].
  rewrite upd_ne by done. split; [done|].
  enough (length (filed s' evs) = 0%nat) by lia.
  destruct (logs_other s' [] evs) as (Hf & _); [|simpl in Hf; by rewrite Hf].
  eapply Forall_impl; [exact Hev|]. simpl. intros e <-. done.
Qed.

Lemma pass_rate live l m evs s :
  let '(m', evs') := foldl (pass_one live) (m, evs) l in
  buckets (m' s) = buckets (m s) /\ filed s evs' = filed s evs.
Proof.
  revert m evs. induction l as [|e l IH]; intros m evs; [done|]. cbn [foldl].
  destruct (pass_one live (m, evs) e) as [m1 evs1] eqn:E. specialize (IH m1 evs1).
  destruct (foldl _ _ l) as [m2 evs2]. destruct IH as [-> ->].
  unfold pass_one in E. simpl in E. destruct (live (session e)); injection E as <- <-.
  - rewrite filed_app. split; [|by rewrite app_nil_r].
    destruct (decide (session e = s)) as [<-|]; [by rewrite upd_eq, resolve_buckets|by rewrite upd_ne].
  - rewrite filed_app. by rewrite app_nil_r.
Qed.

Lemma length_filed_settles res s n ok :
  length (filed s (settles res s n ok)) = (match res with refused _ => 0 | _ => 1 end)%nat.
Proof. destruct res; [| |by destruct ok]; unfold filed; csimpl; by rewrite decide_True. Qed.

Lemma rate_step h log o :
  rate_inv h log -> rate_inv (host_step h o).1 (log ++ (host_step h o).2).
Proof.
  intros Hi. destruct o as [s f now r|now live|s now grace|s|s|s r|s|s|s now|s name]; simpl.
  - pose proof (admit_bucket (adms h s) (buf h) s f now r (proj1 (Hi s))) as H.
    destruct (admitFrame _ _ _ _ _ _) as [[res a'] b']. destruct H as [Hb Ht].
    apply rate_upd; [done|done| |].
    + unfold settles. destruct res; try case_bool; by repeat constructor.
    + cbn [snd]. rewrite length_filed_settles, Ht. destruct res; lia.
  - destruct (drainThrough (buf h) now) as [due b'].
    pose proof (pass_rate live due (adms h) []) as H.
    destruct (foldl _ _ due) as [m evs]. intros s. destruct (H s) as [Hb Hf]. destruct (Hi s) as [Hi1 Hi2].
    simpl. rewrite filed_app, Hf, app_nil_r, refills_app. split; [by eapply bucket_inv_same|].
    injection Hb as Hb _ _. rewrite Hb. lia.
  - pose proof (abandonStale_buckets (adms h s) now grace) as Hb.
    apply rate_upd; [done|by eapply bucket_inv_same; [symmetry|apply Hi]|by apply Forall_fmap, Forall_true|].
    rewrite (proj1 (proj_abandoned _ _)). injection Hb as -> _ _. simpl. lia.
  - pose proof (takeAck_buckets (adms h s)) as Hb.
    apply rate_upd; [done|by eapply bucket_inv_same; [symmetry|apply Hi]|done|].
    injection Hb as -> _ _. simpl. lia.
  - intros s'. destruct (Hi s') as [Hb Hc]. split; [done|]. simpl. rewrite filed_app, refills_app, length_app.
    enough (length (filed s' ((fun e => Dropped s (seq (bframe e))) <$>
      filter (fun e => session e = s) (concat (mvals (buf h))))) = 0%nat) by lia.
    generalize (filter (fun e => session e = s) (concat (mvals (buf h)))). intros l. by induction l.
  - destruct (refill_bucket (adms h s) r (proj1 (Hi s))).
    apply rate_upd; [done|done|by constructor|]. unfold refills, filed. csimpl.
    rewrite filter_cons, decide_True by done. simpl. lia.
  - destruct (takeToken_bucket (adms h s) (proj1 (Hi s))) as [? Ht].
    apply rate_upd; [done|done|done|]. simpl. rewrite Ht. destruct (takeToken _).1; lia.
  - destruct (takeControlToken_bucket (adms h s) (proj1 (Hi s))) as [? ?].
    apply rate_upd; [done|done|done|]. simpl. lia.
  - apply rate_upd; [done| |done|simpl; lia]. eapply bucket_inv_same; [|apply Hi]. done.
  - destruct (admitsAction_bucket (adms h s) name (proj1 (Hi s))) as [? ?].
    apply rate_upd; [done|done|done|]. simpl. lia.
Qed.

Lemma rate_run ops h log :
  rate_inv h log -> rate_inv (host_run h ops).1 (log ++ (host_run h ops).2).
Proof.
  revert h log. induction ops as [|o ops IH]; intros h log Hi; [by rewrite app_nil_r|].
  simpl. pose proof (rate_step h log o Hi) as Hi'.
  destruct (host_step h o) as [h' evs]. specialize (IH h' _ Hi').
  destruct (host_run h' ops). simpl in *. by rewrite app_assoc.
Qed.

(** ** Properties *)

(** C1. Exactly-once admission with a truthful acknowledgement. Over any history
    of the authority's calls, in any order and for any number of sessions: no
    sequence number of a session is filed twice; every filed frame is waiting in
    the buffer, applied, or dropped with its closed session, and in exactly one of
    those; every number at or below the acknowledged frontier was applied, refused
    for good or given up as a stale gap, so an acknowledgement never covers a
    frame still waiting unless its number had been given up; and the frontier
    never moves back. *)
Theorem admission_exactly_once (ops ops' : list host_op) (s : SessionRef) :
  let '(h, log) := host_run new_host ops in
  NoDup (filed s log)
  /\ filed s log ≡ₚ pending s (buf h) ++ applied s log ++ dropped s log
  /\ (forall n, 0 <= n <= ackSeq (takeAck (adms h s)).1 ->
        n ∈ applied s log \/ n ∈ given_up s log)
  /\ frontier (adms h s) <= frontier (adms (host_run new_host (ops ++ ops')).1 s).
Proof.
  pose proof (host_run_inv ops new_host [] new_host_inv) as [_ Hs].
  pose proof (host_run_app ops ops' new_host) as Happ.
  destruct (host_run new_host ops) as [h log]. simpl in *.
  destruct (Hs s) as [Ha Hn Hp]. split_and!; [done|done| |].
  - intros n Hn'. rewrite takeAck_seq, takeAck_snd in Hn'.
    exact (si_behind _ _ _ _ _ _ _ (ack_walk_inv (length (resolved (adms h s))) _ _ _ None Ha) n Hn').
  - rewrite Happ. apply host_run_frontier.
Qed.


(** What a dated gap, the buffer and the log account for, with nothing waiting. *)
Lemma idle_all_resolved a s log :
  sess_inv a [] s log -> dropped s log = [] -> gapTickBound a = [] ->
  forall x, frontier a < x <= highestSeen a -> x ∈ resolved a.
Proof.
  intros [Ha Hn Hp] Hd Hg x Hx.
  destruct (si_account _ _ _ _ _ _ _ Ha x Hx) as [?|[Hin|Hin]]; [done|by rewrite Hg in Hin; apply elem_of_nil in Hin|].
  rewrite Hp, Hd, app_nil_r in Hin. simpl in Hin.
  destruct (si_settled _ _ _ _ _ _ _ Ha x (or_introl Hin)); [lia|done].
Qed.

Lemma takeAck_reaches a s log :
  sess_inv a [] s log -> dropped s log = [] -> gapTickBound a = [] ->
  frontier (takeAck a).2 = highestSeen a.
Proof.
  intros Hi Hd Hg. rewrite takeAck_snd. set (n := length (resolved a)).
  assert (Hi' : sess_inv (ack_walk n a None).1 [] s log).
  { eapply (sess_inv_same a _ [] _ s log log); [done..|]. intros. by apply ack_walk_inv. }
  pose proof (si_range _ _ _ _ _ _ _ (se_adm _ _ _ _ Hi')) as Hr.
  pose proof (ack_walk_hi n a None) as Hhi. rewrite Hhi in Hr.
  destruct (decide (frontier (ack_walk n a None).1 = highestSeen a)) as [|Hne]; [done|].
  exfalso. apply (ack_walk_stops n a None ltac:(done)).
  eapply idle_all_resolved; [done|done|by rewrite ack_walk_gap|]. rewrite Hhi. lia.
Qed.

(** C2. A gap cannot stall the acknowledgement. In any reachable state where nothing
    of a session waits in the buffer, none of its frames was dropped and every
    number its client skipped is dated before the grace, giving the stale gaps up
    and taking the ack reports the highest number seen and leaves no gap. *)
Theorem admission_never_stalls (ops : list host_op) (s : SessionRef) (now grace : Z)
    (Hidle : pending s (buf (host_run new_host ops).1) = [])
    (Hopen : dropped s (host_run new_host ops).2 = [])
    (Hstale : forall n t,
       (n, t) ∈ gapTickBound (adms (host_run new_host ops).1 s) -> t < now - grace) :
  let a := abandonStale (adms (host_run new_host ops).1 s) now grace in
  ackSeq (takeAck a).1 = highestSeen (adms (host_run new_host ops).1 s)
  /\ gapTickBound (takeAck a).2 = [].
Proof.
  pose proof (host_run_inv ops new_host [] new_host_inv) as Hi.
  destruct (host_run new_host ops) as [h log]. simpl in *.
  pose proof (host_step_inv h log (OpAbandon s now grace) Hi) as [_ Hs].
  specialize (Hs s). simpl in Hs. rewrite upd_eq, Hidle in Hs.
  pose proof (abandonStale_gap_gone (adms h s) now grace Hstale) as Hg.
  rewrite takeAck_seq, <- (proj2 (abandonStale_frame (adms h s) now grace)). split.
  - eapply takeAck_reaches; [exact Hs| |done].
    rewrite dropped_app, Hopen. by destruct (proj_abandoned s (filter (fun e => e.2 < now - grace)
      (gapTickBound (adms h s))).*1) as (_ & _ & ->).
  - by rewrite takeAck_snd, ack_walk_gap.
Qed.

Definition gap_history : list host_op :=
  [OpAdmit 0 (MkFrame 0 1 []) 0 (of_Z 60); OpAdmit 0 (MkFrame 3 2 []) 0 (of_Z 60);
   OpPass 2 (fun _ => true)].

Lemma admission_never_stalls_witness :
  ackSeq (takeAck (adms (host_run new_host gap_history).1 0%nat)).1 = 0
  /\ ackSeq (takeAck (abandonStale (adms (host_run new_host gap_history).1 0%nat) 18 15)).1 = 3.
Proof.
  split; [vm_compute; reflexivity|].
  assert (Hh : highestSeen (adms (host_run new_host gap_history).1 0%nat) = 3) by (vm_compute; reflexivity).
  rewrite <- Hh. apply (admission_never_stalls gap_history 0%nat 18 15).
  - vm_compute. reflexivity.
  - vm_compute. reflexivity.
  - assert (Hg : gapTickBound (adms (host_run new_host gap_history).1 0%nat) = [(1, 2); (2, 2)])
      by (vm_compute; reflexivity).
    rewrite Hg. intros n t [[= -> ->]|[[= -> ->]|[]%elem_of_nil]%elem_of_cons]%elem_of_cons; lia.
Defined.

(** The rate limit holds. Over any history, a session has filed at most eight
    frames more than it was refilled ticks; both buckets stay within their depth
    and never go negative; at most sixty-four action names are ever admitted. *)
Theorem admission_rate_bounded (ops : list host_op) (s : SessionRef) :
  let '(h, log) := host_run new_host ops in
  Z.of_nat (length (filed s log)) <= 8 + Z.of_nat (refills s log)
  /\ 0 <= tokens (adms h s) <= 8
  /\ 0 <= controlTokens (adms h s) <= 4
  /\ (length (actionNames (adms h s)) <= 64)%nat.
Proof.
  assert (H0 : rate_inv new_host []).
  { intros s'. split; [split; simpl; unfold INPUT_BUCKET_FRAMES, CONTROL_BUCKET_FRAMES, MAX_ACTION_NAMES;
      [lia..|constructor]|]. simpl. unfold refills. simpl. lia. }
  pose proof (rate_run ops new_host [] H0 s) as [[Ht Hc Hn _] Hle].
  destruct (host_run new_host ops) as [h log]. simpl in *.
  unfold INPUT_BUCKET_FRAMES, CONTROL_BUCKET_FRAMES, MAX_ACTION_NAMES in *. split_and!; lia.
Qed.

Lemma elem_of_slot_at b t e : e ∈ slot_at b t <-> exists slot, mget b t = Some slot /\ e ∈ slot.
Proof. unfold slot_at. destruct (mget b t); set_solver. Qed.

(** Draining is by tick, then by arrival. [drainThrough] at a tick returns the
    slots filed at or before it in ascending tick order, each in arrival order,
    keeps the later slots as they were, and loses and invents nothing; a frame
    filed afterwards comes out behind everything else of its tick. *)
Theorem drainThrough_in_tick_order (b : InputBuffer) (t : Z) (Hkeys : NoDup (mkeys b)) :
  exists due,
    StronglySorted Z.lt due
    /\ (forall k, k ∈ due <-> k ∈ mkeys b /\ k <= t)
    /\ (drainThrough b t).1 = concat (slot_at b <$> due)
    /\ (drainThrough b t).2 = filter (fun e => t < e.1) b
    /\ concat (mvals b) ≡ₚ (drainThrough b t).1 ++ concat (mvals (drainThrough b t).2)
    /\ forall at_ e, slot_at (file b at_ e) at_ = slot_at b at_ ++ [e].
Proof.
  exists (due_ticks b t). rewrite drainThrough_eq at 1 2 by done. split_and!; [|apply elem_of_due|done|done| |].
  - assert (Hs : StronglySorted Z.le (due_ticks b t)) by (apply (StronglySorted_merge_sort Z.le _)).
    pose proof (NoDup_due b t Hkeys) as Hnd. revert Hs Hnd. generalize (due_ticks b t).
    induction 1 as [|k l Hl IH Hk]; [constructor|].
    rewrite NoDup_cons. intros [Hnin Hnd]. constructor; [by apply IH|].
    rewrite Forall_forall in Hk |- *. intros x Hx. specialize (Hk x Hx).
    assert (k <> x) by (by intros ->). lia.
  - by apply drainThrough_perm.
  - intros at_ e. unfold slot_at, file. destruct (mget b at_); by rewrite mget_mset_eq.
Qed.

Definition two_slots : InputBuffer :=
  [(5, [MkBuffered 0 (MkFrame 1 5 [])]); (3, [MkBuffered 0 (MkFrame 0 3 [])])].

Lemma drainThrough_in_tick_order_witness :
  NoDup (mkeys two_slots)
  /\ exists due, StronglySorted Z.lt due /\ (drainThrough two_slots 5).1 = concat (slot_at two_slots <$> due).
Proof.
  assert (Hnd : NoDup (mkeys two_slots)) by (apply (bool_decide_unpack _); vm_compute; exact I).
  split; [exact Hnd|].
  destruct (drainThrough_in_tick_order two_slots 5 Hnd) as (due & Hs & _ & H & _).
  exists due. split; [exact Hs|exact H].
Defined.
