(* ===== verification/Handle.v ===== *)
(** * Generation-packed handles ([packages/math/src/handle.ts])

    A handle is [generation * 2^24 + index], computed on doubles. Every value the
    functions meet on their domain is an integer below 2^53, where double addition,
    multiplication by a power of two, [%] and the floor of a division by a power of
    two are exact, so the arithmetic is [Z]'s: [%] is [Z.rem] (it takes the sign of
    the dividend, as JavaScript's does) and [Math.floor(a / b)] is [Z.div].
    [packHandle_safe] is the bound that makes this reading sound. *)

From S2P Require Import Prelude.

Local Open Scope Z_scope.

Definition INDEX_RANGE : Z := 0x1000000.
Definition MAX_INDEX : Z := INDEX_RANGE - 1.
Definition MAX_GENERATION : Z := MAX_SAFE_INTEGER / INDEX_RANGE.
Definition FIRST_GENERATION : Z := 1.

Definition packHandle (index generation : Z) : Z := generation * INDEX_RANGE + index.
Definition handleIndex (handle : Z) : Z := Z.rem handle INDEX_RANGE.
Definition handleGeneration (handle : Z) : Z := handle / INDEX_RANGE.
Definition nextGeneration (generation : Z) : Z := generation + 1.

(** A slot index and a generation the table hands out. *)
Definition valid_index (i : Z) : Prop := 0 <= i <= MAX_INDEX.
Definition valid_generation (g : Z) : Prop := FIRST_GENERATION <= g <= MAX_GENERATION.

(** Puts the constants in front of [lia]. *)
Ltac handle_lia :=
  unfold valid_index, valid_generation, packHandle, handleIndex, handleGeneration,
    nextGeneration, MAX_INDEX, FIRST_GENERATION in *;
  change MAX_GENERATION with 536870911 in *;
  change INDEX_RANGE with 16777216 in *;
  lia.

Lemma packHandle_bounds (i g : Z) :
  valid_index i -> valid_generation g -> 0 < packHandle i g <= MAX_SAFE_INTEGER.
Proof. intros. change MAX_SAFE_INTEGER with 9007199254740991. handle_lia. Qed.

Lemma handleIndex_pack (i g : Z) :
  valid_index i -> valid_generation g -> handleIndex (packHandle i g) = i.
Proof.
  intros Hi Hg. unfold handleIndex. rewrite Z.rem_mod_nonneg by handle_lia.
  unfold packHandle. rewrite Z.add_comm, Z_mod_plus_full.
  apply Z.mod_small. handle_lia.
Qed.

Lemma handleGeneration_pack (i g : Z) :
  valid_index i -> valid_generation g -> handleGeneration (packHandle i g) = g.
Proof.
  intros Hi Hg. unfold handleGeneration, packHandle.
  rewrite Z.div_add_l by handle_lia. rewrite Z.div_small by handle_lia. lia.
Qed.

(** A positive handle is the pack of its two halves. *)
Lemma packHandle_split (h : Z) :
  0 < h -> packHandle (handleIndex h) (handleGeneration h) = h.
Proof.
  intros Hh. unfold packHandle, handleIndex, handleGeneration.
  rewrite Z.rem_mod_nonneg by handle_lia.
  pose proof (Z.div_mod h INDEX_RANGE). handle_lia.
Qed.

Lemma handleIndex_valid (h : Z) : 0 < h -> valid_index (handleIndex h).
Proof.
  intros Hh. unfold valid_index, handleIndex. rewrite Z.rem_mod_nonneg by handle_lia.
  pose proof (Z.mod_pos_bound h INDEX_RANGE). handle_lia.
Qed.

Lemma packHandle_inj (i g i' g' : Z) :
  valid_index i -> valid_generation g -> valid_index i' -> valid_generation g' ->
  packHandle i g = packHandle i' g' -> i = i' /\ g = g'.
Proof.
  intros Hi Hg Hi' Hg' Heq. split.
  - rewrite <- (handleIndex_pack i g), Heq by done. by apply handleIndex_pack.
  - rewrite <- (handleGeneration_pack i g), Heq by done. by apply handleGeneration_pack.
Qed.

#[export] Hint Resolve packHandle_bounds handleIndex_valid : grove.
