(* ===== verification/SlotTable.v ===== *)
(** * Slot table with generation-checked handles ([packages/math/src/slot-table.ts])

    [SlotTable] is the class's private state; each method is one definition that
    returns the new state. Records are values here, so a [cloneRecord] argument is
    a function on records. The second half refines the table to a finite map from
    handles to records and shows that no handle is ever minted twice. *)

From S2P Require Import Prelude Handle.

Local Open Scope Z_scope.

Definition RETIRED_GENERATION : Z := 0.

(** The [RangeError] of a full table: its label and the slot count it prints. *)
Inductive table_error := TableFull (label : string) (slots : Z).

Record SlotTableSnapshot (R : Type) := MkSnapshot {
  snap_records : list (option R);
  snap_generations : list Z;
  snap_freeList : list Z;
  snap_live : Z;
}.
Arguments MkSnapshot {R}.
Arguments snap_records {R}. Arguments snap_generations {R}.
Arguments snap_freeList {R}. Arguments snap_live {R}.

Record SlotTable (R : Type) := MkTable {
  records : list (option R);
  generations : list Z;
  freeList : list Z;
  live : Z;
  label : string;
}.
Arguments MkTable {R}.
Arguments records {R}. Arguments generations {R}. Arguments freeList {R}.
Arguments live {R}. Arguments label {R}.

Section SlotTable.
Context {R : Type}.
Implicit Types (t : SlotTable R) (r : R) (i g id : Z).

Definition new_table (lbl : string) : SlotTable R := MkTable [] [] [] 0 lbl.

Definition liveCount t : Z := live t.
Definition slotCount t : Z := arr_len (records t).

Definition mint (i g : Z) : Z := packHandle i g.

Definition generationAt t i : Z := nullish (arr_get (generations t) i) FIRST_GENERATION.

Definition recordAt t i : option R := nullish (arr_get (records t) i) None.

Definition create t (r : R) : outcome table_error (Z * SlotTable R) :=
  match arr_pop (freeList t) with
  | None =>
      let index := arr_len (records t) in
      if MAX_INDEX <? index then Throw (TableFull (label t) (MAX_INDEX + 1))
      else Ok (mint index FIRST_GENERATION,
               MkTable (records t ++ [Some r]) (generations t ++ [FIRST_GENERATION])
                       (freeList t) (live t + 1) (label t))
  | Some (reused, rest) =>
      let generation := generationAt t reused in
      Ok (mint reused generation,
          MkTable (arr_set (records t) reused (Some r)) (generations t)
                  rest (live t + 1) (label t))
  end.

Definition indexOf t id : Z :=
  if (id <=? 0) || negb (isSafeInteger id) then -1
  else
    let index := handleIndex id in
    match recordAt t index with
    | None => -1
    | Some _ =>
        match arr_get (generations t) index with
        | Some g => if g =? handleGeneration id then index else -1
        | None => -1
        end
    end.

Definition idAt t i : Z :=
  match recordAt t i with
  | None => 0
  | Some _ => mint i (generationAt t i)
  end.

Definition record t id : option R := recordAt t (indexOf t id).

Definition exists_ t id : bool := 0 <=? indexOf t id.

(** [#recycle]: whether the slot may return to the freelist, and the table. *)
Definition recycle t i : bool * SlotTable R :=
  let generation := generationAt t i in
  if MAX_GENERATION <=? generation then
    (false, MkTable (records t) (arr_set (generations t) i RETIRED_GENERATION)
                    (freeList t) (live t) (label t))
  else
    (true, MkTable (records t) (arr_set (generations t) i (nextGeneration generation))
                   (freeList t) (live t) (label t)).

Definition drop_record t i : SlotTable R :=
  MkTable (arr_set (records t) i None) (generations t) (freeList t) (live t - 1) (label t).

Definition push_free t i : SlotTable R :=
  MkTable (records t) (generations t) (freeList t ++ [i]) (live t) (label t).

Definition releaseAt t i : SlotTable R :=
  match recordAt t i with
  | None => t
  | Some _ =>
      let '(reusable, t1) := recycle (drop_record t i) i in
      if reusable then push_free t1 i else t1
  end.

Definition release t id : SlotTable R := releaseAt t (indexOf t id).

Definition liveIndices t : list Z :=
  filter (fun i => is_Some (recordAt t i)) (indices (records t)).

Definition liveIds t : list Z := idAt t <$> liveIndices t.

(** One turn of [clear]'s first loop. *)
Definition clear_step t i : SlotTable R :=
  match recordAt t i with
  | None => t
  | Some _ => (recycle (drop_record t i) i).2
  end.

Definition clear t : SlotTable R :=
  let t1 := fold_left clear_step (indices (records t)) t in
  MkTable (records t1) (generations t1)
    (filter (fun i => arr_get (generations t1) i <> Some RETIRED_GENERATION)
       (reverse (indices (records t1))))
    (live t1) (label t1).

(** [captureInto] overwrites every field of its target, so the target's old
    contents do not appear. *)
Definition captureInto t (cloneRecord : R -> R) : SlotTableSnapshot R :=
  MkSnapshot (option_map cloneRecord <$> records t) (generations t) (freeList t) (live t).

Definition capture t (cloneRecord : R -> R) : SlotTableSnapshot R := captureInto t cloneRecord.

Definition apply t (from : SlotTableSnapshot R) (cloneRecord : R -> R) : SlotTable R :=
  MkTable (option_map cloneRecord <$> snap_records from) (snap_generations from)
    (snap_freeList from) (snap_live from) (label t).

(** ** Well-formed tables *)

Record core t : Prop := {
  wf_lengths : length (generations t) = length (records t);
  wf_bound : slotCount t <= INDEX_RANGE;
  wf_generation i g : arr_get (generations t) i = Some g ->
    g = RETIRED_GENERATION \/ valid_generation g;
  wf_live_generation i : is_Some (recordAt t i) -> generationAt t i <> RETIRED_GENERATION;
  wf_count : live t = Z.of_nat (length (liveIndices t));
}.

Record wf t : Prop := {
  wf_core :> core t;
  wf_free i : i ∈ freeList t <->
    0 <= i < slotCount t /\ recordAt t i = None /\ generationAt t i <> RETIRED_GENERATION;
  wf_free_nodup : NoDup (freeList t);
}.

(** ** Reading the table *)

Lemma recordAt_Some t i r : recordAt t i = Some r <-> arr_get (records t) i = Some (Some r).
Proof. unfold recordAt, nullish. destruct (arr_get _ _); naive_solver. Qed.

Lemma recordAt_range t i r : recordAt t i = Some r -> 0 <= i < slotCount t.
Proof. rewrite recordAt_Some. apply arr_get_lt. Qed.

Lemma generation_range t i :
  core t -> 0 <= i < slotCount t -> arr_get (generations t) i = Some (generationAt t i).
Proof.
  intros Hwf Hi. unfold generationAt.
  destruct (arr_get_is_Some (generations t) i) as [g ->]; [|done].
  unfold slotCount, arr_len in *. by rewrite (wf_lengths t Hwf).
Qed.

Lemma generation_cases t i :
  core t -> generationAt t i = RETIRED_GENERATION \/ valid_generation (generationAt t i).
Proof.
  intros Hwf. unfold generationAt, nullish.
  destruct (arr_get _ _) as [g|] eqn:E; simpl; [by eapply wf_generation|].
  right. handle_lia.
Qed.

Lemma live_slot_valid t i r :
  core t -> recordAt t i = Some r -> valid_index i /\ valid_generation (generationAt t i).
Proof.
  intros Hwf Hr. split.
  - apply recordAt_range in Hr. pose proof (wf_bound t Hwf). handle_lia.
  - destruct (generation_cases t i Hwf) as [H0|H0]; [|done].
    exfalso. eapply wf_live_generation; eauto.
Qed.

(** The slot a handle addresses is the live slot it was minted from, if any. *)
Lemma indexOf_spec t id i :
  core t -> 0 <= i ->
  indexOf t id = i <-> exists r, recordAt t i = Some r /\ id = packHandle i (generationAt t i).
Proof.
  intros Hwf Hi. unfold indexOf. split.
  - intros H. destruct (_ || _) eqn:Hg in H; [lia|]. bool_facts.
    destruct (recordAt t (handleIndex id)) as [r|] eqn:Hr; [|lia].
    destruct (arr_get _ _) as [g|] eqn:Hgen in H; [|lia].
    case_bool; [|lia]. subst. exists r. split; [done|].
    unfold generationAt. rewrite Hgen. simpl. rewrite packHandle_split; lia.
  - intros (r & Hr & ->).
    destruct (live_slot_valid t i r Hwf Hr) as [Hvi Hvg].
    pose proof (packHandle_bounds i (generationAt t i) Hvi Hvg).
    rewrite (proj2 (orb_false_iff _ _)).
    2:{ split; [apply Z.leb_gt; lia|]. unfold isSafeInteger.
        rewrite negb_false_iff, andb_true_iff, !Z.leb_le. lia. }
    rewrite handleIndex_pack, Hr, (generation_range t i Hwf) by eauto using recordAt_range.
    rewrite handleGeneration_pack by done. by rewrite Z.eqb_refl.
Qed.

Lemma indexOf_cases t id : indexOf t id = -1 \/ 0 <= indexOf t id.
Proof.
  unfold indexOf. destruct (_ || _) eqn:H1; [lia|].
  destruct (recordAt t (handleIndex id)) eqn:E; [|lia].
  destruct (arr_get _ _); [|lia]. case_bool; [|lia].
  apply recordAt_range in E. lia.
Qed.

Lemma record_spec t id r :
  core t ->
  record t id = Some r <->
  exists i, recordAt t i = Some r /\ id = packHandle i (generationAt t i).
Proof.
  intros Hwf. unfold record. split.
  - intros Hr. pose proof (recordAt_range _ _ _ Hr).
    destruct (proj1 (indexOf_spec t id (indexOf t id) Hwf ltac:(lia)) eq_refl)
      as (r' & Hr' & Hid). eauto.
  - intros (i & Hr & Hid). pose proof (recordAt_range _ _ _ Hr).
    rewrite (proj2 (indexOf_spec t id i Hwf ltac:(lia))); eauto.
Qed.

Lemma elem_of_liveIndices t i : i ∈ liveIndices t <-> is_Some (recordAt t i).
Proof.
  unfold liveIndices. rewrite list_elem_of_filter, elem_of_indices. split; [tauto|].
  intros [r Hr]. split; [eauto|]. by eapply recordAt_range.
Qed.

Lemma NoDup_liveIndices t : NoDup (liveIndices t).
Proof. apply NoDup_filter, NoDup_indices. Qed.

(** ** What each operation does to the slots *)

Definition bump g : Z := if MAX_GENERATION <=? g then RETIRED_GENERATION else nextGeneration g.

Lemma bump_cases g :
  valid_generation g -> bump g = RETIRED_GENERATION \/ (valid_generation (bump g) /\ g < bump g).
Proof. intros Hg. unfold bump. case_bool; [by left|]. right. split; handle_lia. Qed.

(** Two tables that differ in the records and generations of one slot. *)
Definition slot_update t t' i (o : option R) g : Prop :=
  (forall j, recordAt t' j = if decide (j = i) then o else recordAt t j) /\
  (forall j, generationAt t' j = if decide (j = i) then g else generationAt t j).

Lemma live_count_fill t t' i r g :
  slot_update t t' i (Some r) g -> recordAt t i = None ->
  length (liveIndices t') = S (length (liveIndices t)).
Proof.
  intros [Hr _] Hi. rewrite <- (Permutation_length (l := i :: liveIndices t)); [done|].
  apply NoDup_Permutation; [|apply NoDup_liveIndices|].
  - constructor; [|apply NoDup_liveIndices]. rewrite elem_of_liveIndices, Hi. by intros [? ?].
  - intros j. rewrite elem_of_cons, !elem_of_liveIndices, Hr.
    case_decide; subst; naive_solver.
Qed.

Lemma live_count_empty t t' i g :
  slot_update t t' i None g -> is_Some (recordAt t i) ->
  length (liveIndices t) = S (length (liveIndices t')).
Proof.
  intros [Hr _] Hi. rewrite (Permutation_length (l' := i :: liveIndices t')); [done|].
  apply NoDup_Permutation; [apply NoDup_liveIndices| |].
  - constructor; [|apply NoDup_liveIndices]. rewrite elem_of_liveIndices, Hr.
    rewrite decide_True by done. by intros [? ?].
  - intros j. rewrite elem_of_cons, !elem_of_liveIndices, Hr.
    case_decide; subst; [naive_solver|]. split; [by right|]. intros [?|?]; [done|done].
Qed.

Lemma drop_recycle_update t i r :
  core t -> recordAt t i = Some r ->
  slot_update t (recycle (drop_record t i) i).2 i None (bump (generationAt t i)).
Proof.
  intros Hwf Hr. pose proof (recordAt_range _ _ _ Hr) as Hi.
  assert (Hgi : 0 <= i < arr_len (generations t)).
  { unfold slotCount, arr_len in *. by rewrite (wf_lengths t Hwf). }
  unfold recycle, bump. split; intros j; destruct (MAX_GENERATION <=? generationAt _ i) eqn:E;
    change (generationAt (drop_record t i) i) with (generationAt t i) in *; rewrite ?E;
    unfold recordAt, generationAt; simpl; case_decide; subst;
    by rewrite ?arr_get_set_eq, ?arr_get_set_ne by done.
Qed.

Lemma drop_recycle_core t i r :
  core t -> recordAt t i = Some r -> core (recycle (drop_record t i) i).2.
Proof.
  intros Hwf Hr. pose proof (drop_recycle_update t i r Hwf Hr) as Hu.
  pose proof (live_count_empty _ _ _ _ Hu (mk_is_Some _ _ Hr)) as Hlen.
  pose proof Hu as [Hrec Hgen]. destruct (live_slot_valid t i r Hwf Hr) as [_ Hvg].
  assert (Hfst : length (generations (recycle (drop_record t i) i).2)
                 = length (records (recycle (drop_record t i) i).2)
              /\ slotCount (recycle (drop_record t i) i).2 = slotCount t
              /\ live (recycle (drop_record t i) i).2 = live t - 1).
  { pose proof (wf_lengths t Hwf). unfold recycle, drop_record, slotCount.
    case_bool; simpl; unfold arr_set, arr_len; case_bool;
      rewrite ?length_insert; auto. }
  destruct Hfst as (Hl & Hs & Hlive). constructor; [done| | | |].
  - rewrite Hs. by apply wf_bound.
  - intros j g Hj. assert (g = generationAt (recycle (drop_record t i) i).2 j) as ->.
    { unfold generationAt. by rewrite Hj. }
    rewrite Hgen. case_decide; [|by apply generation_cases].
    destruct (bump_cases _ Hvg) as [?|[? _]]; [by left|by right].
  - intros j. rewrite Hrec, Hgen. case_decide; [by intros [? ?]|]. by apply wf_live_generation.
  - rewrite Hlive, (wf_count t Hwf), Hlen. lia.
Qed.

(** [releaseAt] on an occupied slot empties it and advances its generation. *)
Lemma releaseAt_update t i r :
  core t -> recordAt t i = Some r ->
  slot_update t (releaseAt t i) i None (bump (generationAt t i)).
Proof.
  intros Hwf Hr. unfold releaseAt. rewrite Hr.
  pose proof (drop_recycle_update t i r Hwf Hr) as Hu.
  destruct (recycle (drop_record t i) i) as [[] t1]; exact Hu.
Qed.

Lemma releaseAt_wf t i : wf t -> wf (releaseAt t i).
Proof.
  intros Hwf. unfold releaseAt. destruct (recordAt t i) as [r|] eqn:Hr; [|done].
  pose proof (drop_recycle_update t i r Hwf Hr) as [Hrec Hgen].
  pose proof (drop_recycle_core t i r Hwf Hr) as Hcore.
  pose proof (recordAt_range _ _ _ Hr) as Hi.
  destruct (live_slot_valid t i r Hwf Hr) as [_ Hvg].
  destruct (recycle (drop_record t i) i) as [reusable t1] eqn:E; simpl in *.
  assert (Hfl : freeList t1 = freeList t /\ slotCount t1 = slotCount t
                /\ reusable = negb (bump (generationAt t i) =? RETIRED_GENERATION)).
  { unfold recycle in E. unfold bump, slotCount.
    change (generationAt (drop_record t i) i) with (generationAt t i) in E.
    destruct (MAX_GENERATION <=? _) eqn:Eg; inversion E; subst; simpl;
      rewrite arr_len_set; split_and!; try done.
    symmetry. apply negb_true_iff, Z.eqb_neq. unfold RETIRED_GENERATION. handle_lia. }
  destruct Hfl as (Hfl & Hs & ->).
  assert (Hni : i ∉ freeList t1).
  { rewrite Hfl, (wf_free t Hwf). naive_solver. }
  destruct (_ =? _) eqn:Eb; bool_facts; simpl; constructor.
  - done.
  - intros j. rewrite Hfl, Hs, Hrec, Hgen, (wf_free t Hwf). case_decide; [subst|done].
    rewrite Eb, Hr. naive_solver.
  - rewrite Hfl. by apply wf_free_nodup.
  - destruct Hcore. by constructor.
  - intros j. change (recordAt (push_free t1 i)) with (recordAt t1).
    change (generationAt (push_free t1 i)) with (generationAt t1).
    change (slotCount (push_free t1 i)) with (slotCount t1). simpl.
    rewrite elem_of_app, list_elem_of_singleton, Hfl, Hs, Hrec, Hgen, (wf_free t Hwf).
    case_decide; [subst|]; naive_solver.
  - simpl. apply NoDup_snoc. split; [|done]. rewrite Hfl. by apply wf_free_nodup.
Qed.

(** Filling an empty slot at its current generation keeps the core invariant. *)
Lemma fill_core t t' i r :
  core t -> slot_update t t' i (Some r) (generationAt t i) ->
  recordAt t i = None -> generationAt t i <> RETIRED_GENERATION ->
  length (generations t') = length (records t') -> slotCount t' <= INDEX_RANGE ->
  live t' = live t + 1 -> core t'.
Proof.
  intros Hwf Hu Hr Hg Hl Hs Hlive. pose proof (live_count_fill _ _ _ _ _ Hu Hr) as Hlen.
  destruct Hu as [Hrec Hgen]. pose proof (wf_count t Hwf).
  assert (Hsame : forall j, generationAt t' j = generationAt t j).
  { intros j. rewrite Hgen. case_decide; by subst. }
  constructor; [done|done| | |lia].
  - intros j g Hj. assert (g = generationAt t' j) as -> by (unfold generationAt; by rewrite Hj).
    rewrite Hsame. by apply generation_cases.
  - intros j. rewrite Hrec, Hsame. case_decide; [by subst|]. apply (wf_live_generation t Hwf).
Qed.

(** What a successful [create] did: it filled the empty, unretired slot [i]. *)
Definition filled t t' i r : Prop :=
  recordAt t i = None /\ valid_index i /\ valid_generation (generationAt t i) /\
  slot_update t t' i (Some r) (generationAt t i) /\ slotCount t <= slotCount t' /\ wf t'.

Lemma create_reused t r i rest :
  wf t -> freeList t = rest ++ [i] ->
  filled t (MkTable (arr_set (records t) i (Some r)) (generations t) rest (live t + 1) (label t))
    i r.
Proof.
  intros Hwf Hp. set (t' := MkTable _ _ _ _ _).
  assert (i ∈ freeList t) as (Hi & Hr & Hg)%(wf_free t Hwf) by (rewrite Hp; set_solver).
  pose proof (wf_bound t Hwf).
  assert (Hu : slot_update t t' i (Some r) (generationAt t i)).
  { split; intros j; unfold t', recordAt, generationAt; simpl; case_decide; subst;
      by rewrite ?arr_get_set_eq, ?arr_get_set_ne by done. }
  assert (Hs : slotCount t' = slotCount t) by apply arr_len_set.
  pose proof (wf_free_nodup t Hwf) as Hnd. rewrite Hp, NoDup_snoc in Hnd.
  split_and!; [done|handle_lia|by destruct (generation_cases t i Hwf)|done|lia|].
  constructor; [apply (fill_core t t' i r (wf_core t Hwf)); try done| |apply Hnd].
  - unfold t', arr_set. simpl. rewrite (wf_lengths t Hwf). case_bool; by rewrite ?length_insert.
  - by rewrite Hs.
  - intros j. destruct Hu as [Hrec Hgen]. rewrite Hs, Hrec, Hgen. change (freeList t') with rest.
    pose proof (wf_free t Hwf j) as Hj. rewrite Hp, elem_of_app, list_elem_of_singleton in Hj.
    case_decide; subst; naive_solver.
Qed.

Lemma slot_past_end t :
  core t -> recordAt t (slotCount t) = None /\ generationAt t (slotCount t) = FIRST_GENERATION /\
    arr_len (generations t) = slotCount t /\ 0 <= slotCount t.
Proof.
  intros Hwf. assert (Hl : arr_len (generations t) = slotCount t).
  { unfold arr_len, slotCount. by rewrite (wf_lengths t Hwf). }
  unfold recordAt, generationAt. rewrite !arr_get_out by (rewrite ?Hl; unfold slotCount; lia).
  unfold slotCount, arr_len. split_and!; try done. lia.
Qed.

Lemma snoc_update t r :
  core t ->
  slot_update t
    (MkTable (records t ++ [Some r]) (generations t ++ [FIRST_GENERATION]) (freeList t)
       (live t + 1) (label t)) (slotCount t) (Some r) FIRST_GENERATION.
Proof.
  intros Hwf. destruct (slot_past_end t Hwf) as (_ & _ & Hl & _).
  assert (Hsnoc : forall A (l : list A) x j, j <> arr_len l -> arr_get (l ++ [x]) j = arr_get l j).
  { intros A l x j Hj. destruct (decide (j < arr_len l)); [by apply arr_get_snoc_lt|].
    rewrite !arr_get_out; rewrite ?arr_len_snoc; try done; lia. }
  split; intros j; unfold recordAt, generationAt; simpl; case_decide; subst.
  - unfold slotCount. by rewrite arr_get_snoc_eq.
  - by rewrite Hsnoc.
  - rewrite <- Hl. by rewrite arr_get_snoc_eq.
  - rewrite Hsnoc; [done|congruence].
Qed.

Lemma create_fresh t r :
  wf t -> freeList t = [] -> slotCount t <= MAX_INDEX ->
  filled t
    (MkTable (records t ++ [Some r]) (generations t ++ [FIRST_GENERATION]) (freeList t)
       (live t + 1) (label t)) (slotCount t) r.
Proof.
  intros Hwf Hp Hb. set (t' := MkTable _ _ _ _ _).
  destruct (slot_past_end t Hwf) as (Hr & Hg & _ & H0).
  pose proof (snoc_update t r Hwf) as Hu. fold t' in Hu. unfold filled. rewrite Hg.
  assert (Hs : slotCount t' = slotCount t + 1) by apply arr_len_snoc.
  split_and!; [done|handle_lia|handle_lia|done|lia|].
  constructor; [apply (fill_core t t' (slotCount t) r (wf_core t Hwf)); rewrite ?Hg; try done| |].
  - simpl. rewrite !length_app, (wf_lengths t Hwf). done.
  - handle_lia.
  - intros j. destruct Hu as [Hrec Hgen]. change (freeList t') with (freeList t).
    rewrite Hrec, Hgen, Hs. pose proof (wf_free t Hwf j) as Hj. rewrite Hp in *.
    case_decide; subst; [split; [set_solver|naive_solver]|].
    rewrite Hj. split; intros (? & ? & ?); (split; [lia|done]).
  - change (freeList t') with (freeList t). apply (wf_free_nodup t Hwf).
Qed.

Lemma create_filled t r id t' :
  wf t -> create t r = Ok (id, t') ->
  exists i, filled t t' i r /\ id = packHandle i (generationAt t i) /\ 0 <= i <= slotCount t.
Proof.
  intros Hwf Hc. unfold create in Hc.
  destruct (arr_pop (freeList t)) as [[i rest]|] eqn:Hp; [|cbv zeta in Hc; case_bool; [done|]].
  - apply arr_pop_Some in Hp. invert Hc. exists i. split; [by apply create_reused|].
    split; [done|]. assert (i ∈ freeList t) as (? & _)%(wf_free t Hwf) by (rewrite Hp; set_solver).
    lia.
  - apply arr_pop_None in Hp. invert Hc. destruct (slot_past_end t Hwf) as (_ & Hg & _ & ?).
    exists (slotCount t). rewrite Hg. split; [by apply create_fresh|]. split; [done|lia].
Qed.

(** [create] fails only on a table whose every addressable slot is live or retired. *)
Lemma create_throws t r e :
  wf t -> create t r = Throw e <->
  e = TableFull (label t) INDEX_RANGE /\ freeList t = [] /\ slotCount t = INDEX_RANGE.
Proof.
  intros Hwf. unfold create. pose proof (wf_bound t Hwf).
  destruct (arr_pop (freeList t)) as [[i rest]|] eqn:Hp.
  - apply arr_pop_Some in Hp. split; [done|]. intros (_ & H0 & _). rewrite H0 in Hp.
    by destruct rest.
  - apply arr_pop_None in Hp. fold (slotCount t).
    replace (MAX_INDEX + 1) with INDEX_RANGE by done. case_bool.
    + split; [intros [= <-]; split_and!; try done; handle_lia|by intros (-> & _ & _)].
    + split; [done|]. intros (_ & _ & ?). handle_lia.
Qed.

Lemma clear_step_spec t i :
  core t -> core (clear_step t i) /\ slotCount (clear_step t i) = slotCount t /\
  (forall j, recordAt (clear_step t i) j = if decide (j = i) then None else recordAt t j) /\
  (forall j, generationAt (clear_step t i) j =
     if decide (j = i /\ is_Some (recordAt t i)) then bump (generationAt t i)
     else generationAt t j).
Proof.
  intros Hwf. unfold clear_step. destruct (recordAt t i) as [r|] eqn:Hr.
  - pose proof (drop_recycle_update t i r Hwf Hr) as [Hrec Hgen].
    split; [by eapply drop_recycle_core|]. split.
    { unfold recycle, slotCount. case_bool; apply arr_len_set. }
    split; [done|]. intros j. rewrite Hgen. repeat case_decide; naive_solver.
  - split_and!; [done|done| |]; intros j; case_decide; try done; [by subst|].
    naive_solver.
Qed.

Lemma clear_loop_spec (l : list Z) t :
  core t -> let t' := fold_left clear_step l t in
  core t' /\ slotCount t' = slotCount t /\
  (forall j, recordAt t' j = if decide (j ∈ l) then None else recordAt t j) /\
  (forall j, generationAt t' j =
     if decide (j ∈ l /\ is_Some (recordAt t j)) then bump (generationAt t j)
     else generationAt t j).
Proof.
  revert t. induction l as [|i l IH]; intros t Hwf; simpl.
  - split_and!; try done; intros j; rewrite decide_False; try done; set_solver.
  - destruct (clear_step_spec t i Hwf) as (Hwf1 & Hs1 & Hr1 & Hg1).
    destruct (IH _ Hwf1) as (Hwf2 & Hs2 & Hr2 & Hg2). split_and!; [done|lia| |].
    + intros j. rewrite Hr2, Hr1. repeat case_decide; set_solver.
    + intros j. rewrite Hg2, Hr1, Hg1.
      destruct (decide (j = i)) as [->|Hne].
      * rewrite (decide_False (P := i ∈ l /\ is_Some None)) by (intros [_ [? ?]]; done).
        repeat case_decide; set_solver.
      * rewrite (decide_False (P := j = i /\ _)) by tauto.
        repeat case_decide; set_solver.
Qed.

Lemma elem_of_indices_dom t i : i ∈ indices (records t) <-> 0 <= i < slotCount t.
Proof. apply elem_of_indices. Qed.

Lemma recordAt_outside t i : i ∉ indices (records t) -> recordAt t i = None.
Proof.
  rewrite elem_of_indices_dom. intros Hi. unfold recordAt.
  rewrite arr_get_out; [done|]. unfold slotCount in Hi. lia.
Qed.

Lemma clear_spec t :
  wf t -> wf (clear t) /\ (forall i, recordAt (clear t) i = None) /\
  (forall i, generationAt (clear t) i =
     if decide (is_Some (recordAt t i)) then bump (generationAt t i) else generationAt t i).
Proof.
  intros Hwf. unfold clear.
  destruct (clear_loop_spec (indices (records t)) t Hwf) as (Hc & Hs & Hr & Hg).
  set (t1 := fold_left _ _ _) in *. set (t2 := MkTable _ _ _ _ _).
  assert (Hnone : forall i, recordAt t2 i = None).
  { intros i. change (recordAt t2 i) with (recordAt t1 i). rewrite Hr. case_decide; [done|].
    by apply recordAt_outside. }
  assert (Hwf2 : core t2) by (destruct Hc; by constructor).
  split_and!; [constructor; [done| |]|done|].
  - intros i. rewrite Hnone. simpl.
    rewrite list_elem_of_filter, elem_of_reverse, elem_of_indices_dom.
    change (slotCount t2) with (slotCount t1). change (generationAt t2 i) with (generationAt t1 i).
    split.
    + intros [Hne Hi]. split; [done|]. split; [done|].
      rewrite (generation_range t1 i Hc Hi) in Hne. congruence.
    + intros (Hi & _ & Hne). split; [|done]. rewrite (generation_range t1 i Hc Hi). congruence.
  - simpl. apply NoDup_filter. rewrite reverse_Permutation. apply NoDup_indices.
  - intros i. change (generationAt t2 i) with (generationAt t1 i). rewrite Hg.
    repeat case_decide; try naive_solver.
    exfalso. destruct (decide (i ∈ indices (records t))); [naive_solver|].
    rewrite (recordAt_outside t i) in * by done. by destruct H0.
Qed.

Lemma new_table_wf lbl : wf (new_table lbl).
Proof.
  constructor; [constructor| |constructor]; simpl; try done.
  - intros i g. unfold arr_get. by case_bool.
  - intros i. unfold recordAt, arr_get. simpl. case_bool; by intros [? ?].
  - intros i. unfold slotCount, arr_len. simpl. split; [set_solver|lia].
Qed.

Lemma release_wf t id : wf t -> wf (release t id).
Proof. apply releaseAt_wf. Qed.
Lemma create_wf t r id t' : wf t -> create t r = Ok (id, t') -> wf t'.
Proof. intros Hwf Hc. apply create_filled in Hc as (i & (_ & _ & _ & _ & _ & ?) & _); done. Qed.

(** ** Refinement: a finite map from live handles to records *)

Definition entry t i : option (Z * R) := (fun r => (idAt t i, r)) <$> recordAt t i.

Definition abs t : gmap Z R := list_to_map (omap (entry t) (liveIndices t)).

Lemma elem_of_entries t id r :
  (id, r) ∈ omap (entry t) (liveIndices t) <->
  exists i, recordAt t i = Some r /\ id = packHandle i (generationAt t i).
Proof.
  rewrite list_elem_of_omap. unfold entry, idAt. split.
  - intros (i & _ & He). destruct (recordAt t i) eqn:E; [|done]. simpl in He.
    invert He. eauto.
  - intros (i & Hr & ->). exists i. rewrite elem_of_liveIndices, Hr. simpl. eauto.
Qed.

Lemma abs_lookup t id : core t -> abs t !! id = record t id.
Proof.
  intros Hwf. destruct (record t id) as [r|] eqn:Hr.
  - apply elem_of_list_to_map_1'.
    + intros r' Hr'. apply elem_of_entries, (record_spec t id r' Hwf) in Hr'. congruence.
    + by apply elem_of_entries, (record_spec t id r Hwf).
  - apply not_elem_of_list_to_map_1. rewrite list_elem_of_fmap.
    intros ([id' r'] & -> & Hin). simpl in *.
    apply elem_of_entries, (record_spec t id' r' Hwf) in Hin. congruence.
Qed.

Lemma abs_Some t id r :
  core t -> abs t !! id = Some r <->
  exists i, recordAt t i = Some r /\ id = packHandle i (generationAt t i).
Proof. intros Hwf. rewrite abs_lookup by done. by apply record_spec. Qed.

Lemma live_pack_inj t i j r r' :
  core t -> recordAt t i = Some r -> recordAt t j = Some r' ->
  packHandle i (generationAt t i) = packHandle j (generationAt t j) -> i = j.
Proof.
  intros Hwf Hi Hj Heq.
  destruct (live_slot_valid t i r Hwf Hi), (live_slot_valid t j r' Hwf Hj).
  eapply packHandle_inj in Heq as [? _]; eauto.
Qed.

Lemma abs_create t r id t' :
  wf t -> create t r = Ok (id, t') ->
  abs t !! id = None /\ abs t' = <[id := r]> (abs t).
Proof.
  intros Hwf Hc. apply create_filled in Hc as (i & (Hi & Hvi & Hvg & Hu & _ & Hwf') & -> & _); [|done].
  destruct Hu as [Hrec Hgen].
  assert (Hsame : forall j, generationAt t' j = generationAt t j).
  { intros j. rewrite Hgen. case_decide; by subst. }
  assert (Hnew : forall j s, recordAt t j = Some s ->
    packHandle j (generationAt t j) <> packHandle i (generationAt t i)).
  { intros j s Hj Heq. destruct (live_slot_valid t j s Hwf Hj).
    apply packHandle_inj in Heq as [-> _]; try done. congruence. }
  split.
  - apply eq_None_not_Some. intros [s (j & Hj & Heq)%abs_Some]; [|by apply wf_core].
    eapply Hnew; eauto.
  - apply map_eq. intros id'. apply option_eq. intros s.
    rewrite abs_Some, lookup_insert_Some, abs_Some by (by apply wf_core).
    setoid_rewrite Hrec. setoid_rewrite Hsame. split.
    + intros (j & Hj & ->). case_decide; [left; naive_solver|right].
      split; [apply not_eq_sym; by eapply Hnew|eauto].
    + intros [[<- <-]|(Hne & j & Hj & ->)].
      * exists i. by rewrite decide_True.
      * exists j. rewrite decide_False; [done|]. congruence.
Qed.

Lemma abs_release t id : wf t -> abs (release t id) = delete id (abs t).
Proof.
  intros Hwf. unfold release. destruct (recordAt t (indexOf t id)) as [r|] eqn:Hr.
  - assert (Hid : record t id = Some r) by done.
    apply record_spec in Hid as (i & Hi & ->); [|by apply wf_core].
    pose proof (recordAt_range _ _ _ Hi).
    assert (Hidx : indexOf t (packHandle i (generationAt t i)) = i).
    { apply (indexOf_spec t _ i Hwf); [lia|eauto]. }
    rewrite Hidx in *.
    destruct (releaseAt_update t i r Hwf Hr) as [Hrec Hgen].
    apply map_eq. intros id'. apply option_eq. intros s.
    rewrite abs_Some, lookup_delete_Some, abs_Some by (apply wf_core; first [done|by apply releaseAt_wf]).
    setoid_rewrite Hrec. setoid_rewrite Hgen. split.
    + intros (j & Hj & ->). repeat case_decide; try done.
      split; [|eauto]. intros Heq. symmetry in Heq.
      by eapply live_pack_inj in Heq; [|apply Hwf|done..].
    + intros (Hne & j & Hj & ->). exists j. rewrite !decide_False; [done| |]; congruence.
  - unfold releaseAt. rewrite Hr. symmetry. apply delete_id.
    rewrite abs_lookup by (by apply wf_core). exact Hr.
Qed.

Lemma abs_clear t : wf t -> abs (clear t) = ∅.
Proof.
  intros Hwf. destruct (clear_spec t Hwf) as (Hwf' & Hnone & _).
  apply map_empty. intros id. apply eq_None_not_Some.
  intros [r (i & Hi & _)%abs_Some]; [|by apply wf_core]. rewrite Hnone in Hi. done.
Qed.

Lemma abs_new lbl : abs (new_table lbl) = ∅.
Proof. done. Qed.

(** ** Histories of a table, and the handles it issued *)

Inductive table_op :=
  | OpCreate (r : R)
  | OpRelease (id : Z)
  | OpReleaseAt (index : Z)
  | OpClear.

(** The table and every handle [create] returned, newest first. *)
Definition step (st : SlotTable R * list Z) (op : table_op) : SlotTable R * list Z :=
  let '(t, issued) := st in
  match op with
  | OpCreate r => match create t r with Ok (id, t') => (t', id :: issued) | Throw _ => st end
  | OpRelease id => (release t id, issued)
  | OpReleaseAt i => (releaseAt t i, issued)
  | OpClear => (clear t, issued)
  end.

Definition history (lbl : string) (ops : list table_op) : SlotTable R * list Z :=
  fold_left step ops (new_table lbl, []).

(** A handle the table can never mint again: its slot is past its generation, out
    of generations, or still occupied at it. *)
Definition spent t id : Prop :=
  exists i g, id = packHandle i g /\ valid_index i /\ valid_generation g /\
    i < slotCount t /\
    (generationAt t i = RETIRED_GENERATION \/ g < generationAt t i \/
     (g = generationAt t i /\ is_Some (recordAt t i))).

Definition history_ok (st : SlotTable R * list Z) : Prop :=
  wf st.1 /\ NoDup st.2 /\ Forall (spent st.1) st.2.

(** Emptying slots, each with its generation bumped, spends no fewer handles. *)
Lemma spent_emptied t t' id :
  core t -> slotCount t <= slotCount t' ->
  (forall i, (recordAt t' i = recordAt t i /\ generationAt t' i = generationAt t i) \/
     (is_Some (recordAt t i) /\ generationAt t' i = bump (generationAt t i))) ->
  spent t id -> spent t' id.
Proof.
  intros Hwf Hs Hslots (i & g & -> & Hi & Hg & Hlt & Hcase).
  exists i, g. split_and!; [done..|lia|].
  destruct (Hslots i) as [[-> ->]|([r Hr] & ->)]; [done|].
  destruct (live_slot_valid t i r Hwf Hr) as [_ Hvg].
  destruct (bump_cases _ Hvg) as [?|[? ?]]; [by left|].
  destruct Hcase as [Hc|[Hc|[Hc _]]].
  - exfalso. eapply wf_live_generation; eauto.
  - right. left. lia.
  - right. left. lia.
Qed.

Lemma releaseAt_slots t i :
  core t -> slotCount t <= slotCount (releaseAt t i) /\
  forall j, (recordAt (releaseAt t i) j = recordAt t j /\
             generationAt (releaseAt t i) j = generationAt t j) \/
     (is_Some (recordAt t j) /\ generationAt (releaseAt t i) j = bump (generationAt t j)).
Proof.
  intros Hwf. destruct (recordAt t i) as [r|] eqn:Hr.
  - destruct (releaseAt_update t i r Hwf Hr) as [Hrec Hgen]. split.
    + unfold releaseAt. rewrite Hr. unfold recycle, drop_record, slotCount.
      case_bool; simpl; by rewrite arr_len_set.
    + intros j. rewrite Hrec, Hgen. case_decide; subst; eauto.
  - unfold releaseAt. rewrite Hr. split; [done|]. eauto.
Qed.

Lemma clear_slots t :
  wf t -> slotCount t <= slotCount (clear t) /\
  forall j, (recordAt (clear t) j = recordAt t j /\
             generationAt (clear t) j = generationAt t j) \/
     (is_Some (recordAt t j) /\ generationAt (clear t) j = bump (generationAt t j)).
Proof.
  intros Hwf. destruct (clear_spec t Hwf) as (_ & Hr & Hg). split.
  - destruct (clear_loop_spec (indices (records t)) t Hwf) as (_ & Hs & _).
    change (slotCount (clear t)) with
      (slotCount (fold_left clear_step (indices (records t)) t)). lia.
  - intros j. rewrite Hr, Hg. case_decide as Hd; [by right|left].
    split; [|done]. symmetry. by apply eq_None_not_Some.
Qed.

Lemma create_spent t r id t' :
  wf t -> create t r = Ok (id, t') ->
  ~ spent t id /\ spent t' id /\ (forall h, spent t h -> spent t' h).
Proof.
  intros Hwf Hc.
  apply create_filled in Hc as (i & (Hi & Hvi & Hvg & [Hrec Hgen] & Hs & Hwf') & -> & _); [|done].
  assert (Hi' : recordAt t' i = Some r) by (by rewrite Hrec, decide_True).
  assert (Hgi : generationAt t' i = generationAt t i) by (by rewrite Hgen, decide_True).
  pose proof (recordAt_range _ _ _ Hi'). split_and!.
  - intros (j & g & Heq & Hj & Hg & _ & Hcase).
    apply packHandle_inj in Heq as [<- <-]; [|done..].
    rewrite Hi in Hcase. destruct Hcase as [Hc|[Hc|[_ [? ?]]]]; [|lia|done].
    rewrite Hc in Hvg. unfold RETIRED_GENERATION in *. handle_lia.
  - exists i, (generationAt t i). rewrite Hgi, Hi'. split_and!; [done..|lia|]. right. right. eauto.
  - intros h (j & g & -> & Hj & Hg & Hlt & Hcase). exists j, g. split_and!; [done..|lia|].
    rewrite Hgen, Hrec. case_decide; subst; naive_solver.
Qed.

Lemma step_ok st op : history_ok st -> history_ok (step st op).
Proof.
  destruct st as [t issued]. intros (Hwf & Hnd & Hsp). simpl in *.
  assert (Hrel : forall i, history_ok (releaseAt t i, issued)).
  { intros i. destruct (releaseAt_slots t i Hwf). split; [by apply releaseAt_wf|].
    split; [done|]. eapply Forall_impl; [done|]. intros h. by apply (spent_emptied _ _ h (wf_core t Hwf)). }
  destruct op as [r|id|i|]; simpl; [|apply Hrel|apply Hrel|].
  - destruct (create t r) as [[id t']|] eqn:Hc; [|done].
    destruct (create_spent t r id t' Hwf Hc) as (Hnew & Hid & Hmono).
    split; [by eapply create_wf|]. simpl. split; constructor; try done.
    + intros Hin. rewrite Forall_forall in Hsp. auto.
    + by eapply Forall_impl.
  - destruct (clear_slots t Hwf). split; [by apply clear_spec|]. split; [done|].
    eapply Forall_impl; [done|]. intros h. by apply (spent_emptied _ _ h (wf_core t Hwf)).
Qed.

Lemma history_inv lbl ops : history_ok (history lbl ops).
Proof.
  unfold history. assert (Hinit : history_ok (new_table lbl, [])).
  { split; [apply new_table_wf|]. split; [constructor|constructor]. }
  revert Hinit. generalize (new_table lbl, @nil Z) as st.
  induction ops as [|op ops IH]; intros st Hst; [done|]. apply IH. by apply step_ok.
Qed.

(** ** Capture and apply *)

Lemma apply_capture_same t (clone : R -> R) :
  (forall r, clone r = r) -> apply t (capture t clone) clone = t.
Proof.
  intros Hclone. unfold apply, capture, captureInto. simpl.
  assert (Hid : forall l : list (option R), option_map clone <$> l = l).
  { induction l as [|o l IH]; [done|]. csimpl. rewrite IH. f_equal.
    destruct o; simpl; by rewrite ?Hclone. }
  rewrite !Hid. by destruct t.
Qed.

Lemma apply_capture_wf t t' (clone : R -> R) :
  wf t -> wf (apply t' (capture t clone) clone).
Proof.
  intros Hwf. set (u := apply _ _ _).
  assert (Hr : forall i, recordAt u i = option_map clone (option_map clone (recordAt t i))).
  { intros i. unfold u, apply, capture, captureInto, recordAt, arr_get. simpl.
    case_bool; [|done]. rewrite !list_lookup_fmap. by destruct (records t !! Z.to_nat i) as [[]|]. }
  assert (Hs : slotCount u = slotCount t).
  { unfold u, slotCount, arr_len. simpl. by rewrite !length_fmap. }
  assert (Hn : forall i, recordAt u i = None <-> recordAt t i = None).
  { intros i. rewrite Hr. by destruct (recordAt t i). }
  assert (Hsome : forall i, is_Some (recordAt u i) <-> is_Some (recordAt t i)).
  { intros i. rewrite <- !not_eq_None_Some. by rewrite Hn. }
  constructor; [constructor| |].
  - simpl. rewrite !length_fmap. apply (wf_lengths t Hwf).
  - rewrite Hs. apply (wf_bound t Hwf).
  - intros i g. apply (wf_generation t Hwf).
  - intros i Hi. apply (wf_live_generation t Hwf), Hsome, Hi.
  - change (live u) with (live t). rewrite (wf_count t Hwf). f_equal. apply Permutation_length.
    apply NoDup_Permutation; [apply NoDup_liveIndices..|].
    intros i. by rewrite !elem_of_liveIndices, Hsome.
  - intros i. rewrite Hs, Hn. apply (wf_free t Hwf).
  - apply (wf_free_nodup t Hwf).
Qed.

Lemma releaseAt_release t i :
  core t -> releaseAt t i = t \/ releaseAt t i = release t (idAt t i).
Proof.
  intros Hwf. destruct (recordAt t i) as [r|] eqn:Hr.
  - right. unfold release, idAt. rewrite Hr. pose proof (recordAt_range _ _ _ Hr).
    assert (indexOf t (mint i (generationAt t i)) = i) as ->; [|done].
    apply (indexOf_spec t _ i Hwf); [lia|eauto].
  - left. unfold releaseAt. by rewrite Hr.
Qed.

Lemma step_stale st op id :
  history_ok st -> id ∈ st.2 -> abs st.1 !! id = None ->
  id ∈ (step st op).2 /\ abs (step st op).1 !! id = None.
Proof.
  destruct st as [t issued]. intros (Hwf & Hnd & Hsp) Hin Hnone. simpl in *.
  assert (Hrel : forall h, abs (release t h) !! id = None).
  { intros h. rewrite abs_release by done. apply lookup_delete_None. by right. }
  destruct op as [r|h|i|]; simpl.
  - destruct (create t r) as [[id' t']|] eqn:Hc; [|done].
    simpl. split; [by right|]. destruct (abs_create t r id' t' Hwf Hc) as [_ ->].
    rewrite lookup_insert_ne; [done|]. intros ->. rewrite Forall_forall in Hsp.
    by eapply create_spent in Hc as [Hc _]; [apply Hc, Hsp|].
  - split; [done|apply Hrel].
  - split; [done|]. destruct (releaseAt_release t i Hwf) as [->| ->]; [done|apply Hrel].
  - split; [done|]. by rewrite abs_clear.
Qed.

Lemma stale_forever st ops id :
  history_ok st -> id ∈ st.2 -> abs st.1 !! id = None ->
  abs (fold_left step ops st).1 !! id = None.
Proof.
  revert st. induction ops as [|op ops IH]; intros st Hok Hin Hnone; [done|].
  destruct (step_stale st op id Hok Hin Hnone). apply IH; try done. by apply step_ok.
Qed.

Lemma NoDup_entries t : core t -> NoDup (omap (entry t) (liveIndices t)).*1.
Proof.
  intros Hwf. assert (Hsub : forall l, (forall i, i ∈ l -> is_Some (recordAt t i)) ->
    (omap (entry t) l).*1 = idAt t <$> l).
  { induction l as [|i l IH]; intros Hl; [done|]. csimpl. unfold entry at 1.
    destruct (Hl i ltac:(left)) as [r Hr]. rewrite Hr. csimpl. f_equal. apply IH.
    intros j Hj. apply Hl. by right. }
  rewrite Hsub by (intros i; apply elem_of_liveIndices).
  apply NoDup_fmap_2_strong; [|apply NoDup_liveIndices].
  intros i j [r Hr]%elem_of_liveIndices [r' Hr']%elem_of_liveIndices.
  unfold idAt. rewrite Hr, Hr'. by eapply live_pack_inj.
Qed.

Lemma size_abs t : core t -> Z.of_nat (size (abs t)) = liveCount t.
Proof.
  intros Hwf. unfold abs, liveCount. rewrite (wf_count t Hwf), map_size_list_to_map.
  - f_equal. assert (Hsub : forall l, (forall i, i ∈ l -> is_Some (recordAt t i)) ->
      length (omap (entry t) l) = length l).
    { induction l as [|i l IH]; intros Hl; [done|]. csimpl. unfold entry at 1.
      destruct (Hl i ltac:(left)) as [r Hr]. rewrite Hr. csimpl. f_equal. apply IH.
      intros j Hj. apply Hl. by right. }
    apply Hsub. intros i. by apply elem_of_liveIndices.
  - by apply NoDup_entries.
Qed.
End SlotTable.

Arguments table_op : clear implicits.
Arguments OpCreate {R}. Arguments OpRelease {R}. Arguments OpReleaseAt {R}. Arguments OpClear {R}.

(** ** Properties *)

(** The table is a finite map from live handles to records: reading a handle is
    a lookup, [create] inserts at a handle the map did not hold, [release] deletes,
    [clear] empties, [liveCount] is the map's size, and every operation keeps the
    table well formed. *)
Theorem slot_table_refines_map {R} (t : SlotTable R) (Hwf : wf t) :
  (forall id, record t id = abs t !! id) /\
  (forall id, exists_ t id = true <-> is_Some (abs t !! id)) /\
  (forall r id t', create t r = Ok (id, t') ->
     wf t' /\ abs t !! id = None /\ abs t' = <[id := r]> (abs t)) /\
  (forall id, wf (release t id) /\ abs (release t id) = delete id (abs t)) /\
  (wf (clear t) /\ abs (clear t) = ∅) /\
  liveCount t = Z.of_nat (size (abs t)).
Proof.
  split_and!.
  - intros id. by rewrite abs_lookup by apply Hwf.
  - intros id. rewrite abs_lookup by apply Hwf. unfold exists_. rewrite Z.leb_le. split.
    + intros Hi. destruct (proj1 (indexOf_spec t id _ Hwf Hi) eq_refl) as (r & Hr & _).
      by exists r.
    + intros [r Hr]. unfold record in Hr. apply recordAt_range in Hr. lia.
  - intros r id t' Hc. split; [by eapply create_wf|by apply abs_create].
  - intros id'. split; [by apply release_wf|by apply abs_release].
  - by apply clear_spec.
  - by apply abs_clear.
  - symmetry. apply (size_abs t (wf_core t Hwf)).
Qed.

Definition table_ab : SlotTable string :=
  (history "t" [OpCreate "a"%string; OpCreate "b"%string; OpRelease 16777216;
                OpCreate "c"%string]).1.

Lemma slot_table_refines_map_witness :
  wf table_ab /\ record table_ab (packHandle 0 2) = abs table_ab !! packHandle 0 2 /\
  record table_ab (packHandle 0 2) = Some "c"%string /\
  record table_ab (packHandle 0 1) = None.
Proof.
  assert (Hwf : wf table_ab) by (apply (history_inv "t")).
  split; [exact Hwf|]. split; [apply (proj1 (slot_table_refines_map table_ab Hwf))|].
  split; vm_compute; reflexivity.
Defined.

(** Over any history of creates, releases and clears, no handle is ever minted
    twice, and a handle that went stale resolves to nothing for the rest of the
    table's life, however its slot is reused. *)
Theorem handles_never_reissued {R} (lbl : string) (ops1 ops2 : list (table_op R)) (id : Z) :
  NoDup (history lbl ops1).2 /\
  (id ∈ (history lbl ops1).2 -> record (history lbl ops1).1 id = None ->
   record (history lbl (ops1 ++ ops2)).1 id = None).
Proof.
  pose proof (history_inv lbl ops1) as Hok1. pose proof (history_inv lbl (ops1 ++ ops2)) as Hok2.
  split; [apply Hok1|]. rewrite <- !abs_lookup by (apply wf_core; by (apply Hok1 || apply Hok2)).
  unfold history. rewrite fold_left_app. intros. by apply stale_forever.
Qed.

Lemma handles_never_reissued_witness :
  record (history "t" ([OpCreate 7; OpRelease 16777216] ++ [OpCreate 8; OpCreate 9])).1 16777216
  = None.
Proof.
  apply (proj2 (handles_never_reissued "t" [OpCreate 7; OpRelease 16777216]
    [OpCreate 8; OpCreate 9] 16777216)); vm_compute; [left|reflexivity].
Defined.
