(* ===== verification/TagIndex.v ===== *)
(** * The tag index ([packages/core/src/world/tag-index.ts])

    A tag's entities and an entity's tags, both in insertion order, kept as two
    JavaScript maps of sets. The pair of maps is refined to one insertion-ordered
    list of (entity, tag) pairs; capture and apply, whole and scoped, are stated
    on that list. Every set a capture holds is a copy, so a buffer is a value. *)

From S2P Require Import Prelude JsMap Json Handle.

Local Open Scope Z_scope.

Definition entityIndex (id : Z) : Z := handleIndex id.

(** ** A map of sets with no empty set *)

Section multi.
Context {K V : Type} `{eqK : EqDecision K} `{eqV : EqDecision V}.
Implicit Types (m : jsmap K (jsset V)) (k : K) (x : V).

Definition multi m k : jsset V := nullish (mget m k) [].

(** Get or create the set under [k], then [add]. *)
Definition multi_add m k x : jsmap K (jsset V) := mset m k (sadd (multi m k) x).

(** Delete [x] under [k], and the set with it when it is left empty. *)
Definition multi_del m k x : jsmap K (jsset V) :=
  match mget m k with
  | None => m
  | Some s => match sdel s x with [] => mdel m k | s' => mset m k s' end
  end.

Definition multi_wf m : Prop :=
  NoDup (mkeys m) /\ forall k s, mget m k = Some s -> s <> [] /\ NoDup s.

Lemma multi_mset m k s k' : multi (mset m k s) k' = if decide (k = k') then s else multi m k'.
Proof. unfold multi. rewrite mget_mset. by destruct (decide _). Qed.

Lemma multi_mdel m k k' : multi (mdel m k) k' = if decide (k = k') then [] else multi m k'.
Proof. unfold multi. rewrite mget_mdel. by destruct (decide _). Qed.

Lemma multi_add_spec m k x k' :
  multi (multi_add m k x) k' = if decide (k = k') then sadd (multi m k) x else multi m k'.
Proof. apply multi_mset. Qed.

Lemma multi_del_spec m k x k' :
  multi (multi_del m k x) k' = if decide (k = k') then sdel (multi m k) x else multi m k'.
Proof.
  unfold multi_del. destruct (mget m k) as [s|] eqn:E.
  - assert (Hs : multi m k = s) by (unfold multi; by rewrite E). rewrite Hs.
    destruct (sdel s x); [apply multi_mdel|apply multi_mset].
  - destruct (decide (k = k')) as [->|]; [|done]. unfold multi. by rewrite E.
Qed.

Lemma multi_Some m k s : mget m k = Some s -> multi m k = s.
Proof. unfold multi. by intros ->. Qed.

Lemma multi_NoDup m k : multi_wf m -> NoDup (multi m k).
Proof.
  intros [_ Hs]. unfold multi. destruct (mget m k) eqn:E; [by apply (Hs k)|constructor].
Qed.

Lemma multi_wf_mset m k s : multi_wf m -> s <> [] -> NoDup s -> multi_wf (mset m k s).
Proof.
  intros [Hk Hs] Hne Hnd. split; [by apply NoDup_mset|]. intros k' s'. rewrite mget_mset.
  destruct (decide _); [by intros [= <-]|apply Hs].
Qed.

Lemma multi_wf_mdel m k : multi_wf m -> multi_wf (mdel m k).
Proof.
  intros [Hk Hs]. split; [by apply NoDup_mdel|]. intros k' s'. rewrite mget_mdel.
  destruct (decide _); [done|apply Hs].
Qed.

Lemma multi_wf_add m k x : multi_wf m -> multi_wf (multi_add m k x).
Proof.
  intros Hw. apply multi_wf_mset; [done| |by apply NoDup_sadd, multi_NoDup].
  intros He. assert (Hin : x ∈ sadd (multi m k) x) by (apply elem_of_sadd; by left).
  rewrite He in Hin. by apply not_elem_of_nil in Hin.
Qed.

Lemma multi_wf_del m k x : multi_wf m -> multi_wf (multi_del m k x).
Proof.
  intros Hw. unfold multi_del. destruct (mget m k) as [s|] eqn:E; [|done].
  destruct (sdel s x) eqn:Ed; [by apply multi_wf_mdel|]. apply multi_wf_mset; [done..|].
  rewrite <- Ed. apply NoDup_sdel. by apply (proj2 Hw k).
Qed.
End multi.

(** ** The index *)

Record TagIndex := MkTags {
  byTag : jsmap jstr (jsset Z);
  byEntity : jsmap Z (jsset jstr);
}.

Record TagBuffer := MkTagBuffer {
  b_byTag : jsmap jstr (jsset Z);
  b_byEntity : jsmap Z (jsset jstr);
  slots : option (list Z);
}.

Definition new_index : TagIndex := MkTags [] [].

Definition add (t : TagIndex) (id : Z) (tag : jstr) : TagIndex :=
  MkTags (multi_add (byTag t) tag id) (multi_add (byEntity t) (entityIndex id) tag).

Definition remove (t : TagIndex) (id : Z) (tag : jstr) : TagIndex :=
  MkTags (multi_del (byTag t) tag id) (multi_del (byEntity t) (entityIndex id) tag).

Definition has (t : TagIndex) (id : Z) (tag : jstr) : bool :=
  match mget (byTag t) tag with Some s => shas s id | None => false end.

Definition tagsOf (t : TagIndex) (id : Z) : list jstr :=
  match mget (byEntity t) (entityIndex id) with Some tags => tags | None => [] end.

Definition removeAll (t : TagIndex) (id : Z) : TagIndex :=
  match mget (byEntity t) (entityIndex id) with
  | None => t
  | Some tags =>
      MkTags (foldl (fun m tag => multi_del m tag id) (byTag t) tags) (mdel (byEntity t) (entityIndex id))
  end.

Definition clear (t : TagIndex) : TagIndex := new_index.

Definition createBuffer : TagBuffer := MkTagBuffer [] [] None.

(** One id of a scoped capture. *)
Definition capture_id (t : TagIndex) (b : TagBuffer) (id : Z) : TagBuffer :=
  let index := entityIndex id in
  let slots' := nullish (slots b) [] ++ [index] in
  match mget (byEntity t) index with
  | None => MkTagBuffer (b_byTag b) (b_byEntity b) (Some slots')
  | Some tags =>
      MkTagBuffer (foldl (fun m tag => multi_add m tag id) (b_byTag b) tags)
        (mset (b_byEntity b) index tags) (Some slots')
  end.

(** A capture overwrites every field of the buffer it is handed; [scope] lists a
    set of ids in its order. *)
Definition capture (t : TagIndex) (scope : option (list Z)) : TagBuffer :=
  match scope with
  | None =>
      MkTagBuffer (foldl (fun m e => mset m e.1 e.2) [] (byTag t))
        (foldl (fun m e => mset m e.1 e.2) [] (byEntity t)) None
  | Some ids => foldl (capture_id t) (MkTagBuffer [] [] (Some [])) ids
  end.

(** [#clearSlot]: what is left of a tag's set without the ids in slot [index]. *)
Definition del_slot (index : Z) (m : jsmap jstr (jsset Z)) (tag : jstr) : jsmap jstr (jsset Z) :=
  match mget m tag with
  | None => m
  | Some s => match filter (fun id => entityIndex id <> index) s with [] => mdel m tag | s' => mset m tag s' end
  end.

Definition clearSlot (t : TagIndex) (index : Z) : TagIndex :=
  match mget (byEntity t) index with
  | None => t
  | Some tags => MkTags (foldl (del_slot index) (byTag t) tags) (mdel (byEntity t) index)
  end.

(** One tag of [apply]: the captured ids join the set already there. *)
Definition join_tag (m : jsmap jstr (jsset Z)) (e : jstr * jsset Z) : jsmap jstr (jsset Z) :=
  match mget m e.1 with
  | Some existing => mset m e.1 (foldl sadd existing e.2)
  | None => mset m e.1 e.2
  end.

Definition apply (t : TagIndex) (from : TagBuffer) : TagIndex :=
  let t := match slots from with None => new_index | Some l => foldl clearSlot t l end in
  MkTags (foldl join_tag (byTag t) (b_byTag from))
    (foldl (fun m e => mset m e.1 e.2) (byEntity t) (b_byEntity from)).

(** ** The specification: one ordered list of pairs *)

Abbreviation pairs := (list (Z * jstr)).

Definition ids_of (p : pairs) (tag : jstr) : list Z := (filter (fun e => e.2 = tag) p).*1.
Definition tags_of (p : pairs) (index : Z) : list jstr := (filter (fun e => entityIndex e.1 = index) p).*2.
Definition without_slot (p : pairs) (index : Z) : pairs := filter (fun e => entityIndex e.1 <> index) p.

(** No other id of [id]'s slot carries a tag: true of a live id whose slot's earlier
    tenants were untagged when they were destroyed. *)
Definition owns (p : pairs) (id : Z) : Prop :=
  forall e, e ∈ p -> entityIndex e.1 = entityIndex id -> e.1 = id.

Record represents (t : TagIndex) (p : pairs) : Prop := {
  rep_tag_wf : multi_wf (byTag t);
  rep_ent_wf : multi_wf (byEntity t);
  rep_nodup : NoDup p;
  rep_one e : e ∈ p -> owns p e.1;
  rep_tag tag : multi (byTag t) tag = ids_of p tag;
  rep_ent i : multi (byEntity t) i = tags_of p i;
}.

Lemma elem_of_ids_of p tag id : id ∈ ids_of p tag <-> (id, tag) ∈ p.
Proof.
  unfold ids_of. rewrite list_elem_of_fmap. split.
  - intros ([i tg] & -> & [He Hp]%list_elem_of_filter). simpl in *. by subst.
  - intros Hp. exists (id, tag). split; [done|]. by apply list_elem_of_filter.
Qed.

Lemma elem_of_tags_of p i tag : tag ∈ tags_of p i <-> exists id, entityIndex id = i /\ (id, tag) ∈ p.
Proof.
  unfold tags_of. rewrite list_elem_of_fmap. split.
  - intros ([id tg] & -> & [He Hp]%list_elem_of_filter). by exists id.
  - intros (id & He & Hp). exists (id, tag). split; [done|]. by apply list_elem_of_filter.
Qed.

Lemma elem_of_without_slot p i e : e ∈ without_slot p i <-> e ∈ p /\ entityIndex e.1 <> i.
Proof. unfold without_slot. rewrite list_elem_of_filter. tauto. Qed.

Lemma rep_mem t p id tag : represents t p -> has t id tag = true <-> (id, tag) ∈ p.
Proof.
  intros Hr. rewrite <- elem_of_ids_of, <- (rep_tag t p Hr). unfold has, multi, nullish.
  destruct (mget _ _); simpl; [apply shas_spec|]. split; [done|]. by intros ?%not_elem_of_nil.
Qed.

Lemma tagsOf_multi t id : tagsOf t id = multi (byEntity t) (entityIndex id).
Proof. unfold tagsOf, multi. by destruct (mget _ _). Qed.

Lemma rep_new : represents new_index [].
Proof.
  assert (Hw : forall K V (HK : EqDecision K), multi_wf (eqK := HK) ([] : jsmap K (jsset V)))
    by (intros; split; [constructor|done]).
  split; [apply Hw|apply Hw|constructor| |done..]. by intros e ?%not_elem_of_nil.
Qed.

(** *** Adding *)

Lemma ids_of_snoc p id tag tag' :
  ids_of (p ++ [(id, tag)]) tag' = if decide (tag = tag') then ids_of p tag' ++ [id] else ids_of p tag'.
Proof.
  unfold ids_of. rewrite filter_app, filter_cons, filter_nil. simpl.
  destruct (decide _); rewrite fmap_app; [done|apply app_nil_r].
Qed.

Lemma tags_of_snoc p id tag i :
  tags_of (p ++ [(id, tag)]) i = if decide (entityIndex id = i) then tags_of p i ++ [tag] else tags_of p i.
Proof.
  unfold tags_of. rewrite filter_app, filter_cons, filter_nil. simpl.
  destruct (decide _); rewrite fmap_app; [done|apply app_nil_r].
Qed.

Lemma rep_add t p id tag : represents t p -> owns p id -> represents (add t id tag) (sadd p (id, tag)).
Proof.
  intros Hr Ho. destruct Hr as [Ht He Hn H1 Hmt Hme]. split; simpl.
  - by apply multi_wf_add.
  - by apply multi_wf_add.
  - by apply NoDup_sadd.
  - intros e Hin e' Hin' Hi. apply elem_of_sadd in Hin as [->|Hin], Hin' as [->|Hin']; simpl in *.
    + done.
    + by apply Ho.
    + symmetry. by apply Ho.
    + by apply (H1 e).
  - intros tag'. rewrite multi_add_spec, !Hmt. destruct (decide ((id, tag) ∈ p)) as [Hin|Hin].
    + rewrite (sadd_in p) by done. destruct (decide _) as [<-|]; [|done].
      apply sadd_in. by apply elem_of_ids_of.
    + rewrite (sadd_not_in p), ids_of_snoc by done. destruct (decide _) as [<-|]; [|done].
      apply sadd_not_in. by rewrite elem_of_ids_of.
  - intros i. rewrite multi_add_spec, !Hme. destruct (decide ((id, tag) ∈ p)) as [Hin|Hin].
    + rewrite (sadd_in p) by done. destruct (decide _) as [<-|]; [|done].
      apply sadd_in. apply elem_of_tags_of. by exists id.
    + rewrite (sadd_not_in p), tags_of_snoc by done. destruct (decide _) as [<-|]; [|done].
      apply sadd_not_in. rewrite elem_of_tags_of. intros (j & Hj & Hp).
      pose proof (Ho _ Hp Hj) as Hji. simpl in Hji. by subst.
Qed.

(** *** Removing *)

Lemma ids_of_filter_pair p id tag tag' :
  ids_of (sdel p (id, tag)) tag' = if decide (tag = tag') then sdel (ids_of p tag') id else ids_of p tag'.
Proof.
  unfold ids_of, sdel. induction p as [|[i tg] p IH]; [by destruct (decide _)|].
  rewrite !filter_cons. simpl.
  destruct (decide ((i, tg) <> (id, tag))) as [Hn|Hn%dec_stable].
  - rewrite filter_cons. simpl. destruct (decide (tg = tag')) as [->|]; [|exact IH]. rewrite !fmap_cons, IH. simpl.
    destruct (decide (tag = tag')) as [->|]; [|done]. rewrite filter_cons.
    destruct (decide (i <> id)) as [|Hi%dec_stable]; [done|]. by subst.
  - injection Hn as -> ->. rewrite IH. destruct (decide (tag = tag')) as [->|]; [|done].
    rewrite fmap_cons, filter_cons. simpl.
    by rewrite (decide_False (P := id <> id)) by tauto.
Qed.

Lemma tags_of_filter_pair p id tag i :
  owns p id -> tags_of (sdel p (id, tag)) i = if decide (entityIndex id = i) then sdel (tags_of p i) tag else tags_of p i.
Proof.
  unfold tags_of, sdel. induction p as [|[j tg] p IH]; intros Ho; [by destruct (decide _)|].
  assert (Ho' : owns p id) by (intros e He; apply Ho; by right). specialize (IH Ho').
  assert (Hj : entityIndex j = entityIndex id -> j = id) by (apply (Ho (j, tg)); left).
  rewrite !filter_cons. simpl.
  destruct (decide ((j, tg) <> (id, tag))) as [Hn|Hn%dec_stable].
  - rewrite filter_cons. simpl. destruct (decide (entityIndex j = i)) as [<-|]; [|exact IH]. rewrite !fmap_cons, IH. simpl.
    destruct (decide (entityIndex id = entityIndex j)) as [Hi|]; [|done]. rewrite filter_cons.
    destruct (decide (tg <> tag)) as [|Ht%dec_stable]; [done|]. subst. by rewrite Hj in Hn.
  - injection Hn as -> ->. rewrite IH. destruct (decide (entityIndex id = i)) as [<-|]; [|done].
    rewrite fmap_cons, filter_cons. simpl.
    by rewrite (decide_False (P := tag <> tag)) by tauto.
Qed.

Lemma one_sub p q : (forall e, e ∈ q -> e ∈ p) -> (forall e, e ∈ p -> owns p e.1) -> forall e, e ∈ q -> owns q e.1.
Proof. intros Hs H1 e He e' He'. apply (H1 e); auto. Qed.

Lemma rep_remove t p id tag : represents t p -> owns p id -> represents (remove t id tag) (sdel p (id, tag)).
Proof.
  intros Hr Ho. destruct Hr as [Ht He Hn H1 Hmt Hme]. split; simpl.
  - by apply multi_wf_del.
  - by apply multi_wf_del.
  - by apply NoDup_sdel.
  - apply (one_sub p); [|done]. by intros e [? _]%elem_of_sdel.
  - intros tag'. rewrite multi_del_spec, ids_of_filter_pair, !Hmt. by destruct (decide _) as [<-|].
  - intros i. rewrite multi_del_spec, tags_of_filter_pair, !Hme by done. by destruct (decide _) as [<-|].
Qed.

(** *** Removing a whole slot *)

(** A fold over tags each of which changes only its own set: by [g], which a second
    visit does not change again. *)
Lemma fold_tags {V} `{EqDecision V} (f : jsmap jstr (jsset V) -> jstr -> jsmap jstr (jsset V))
    (g : jsset V -> jsset V) (l : list jstr) (m : jsmap jstr (jsset V)) (k : jstr) :
  (forall m a k, multi (f m a) k = if decide (a = k) then g (multi m a) else multi m k) ->
  (forall s, g (g s) = g s) ->
  multi (foldl f m l) k = if decide (k ∈ l) then g (multi m k) else multi m k.
Proof.
  intros Hf Hg. revert m. induction l as [|a l IH]; intros m; cbn [foldl].
  { rewrite decide_False; [done|apply not_elem_of_nil]. }
  rewrite IH, Hf. destruct (decide (a = k)) as [->|Hne].
  - rewrite (decide_True (P := k ∈ k :: l)) by left. destruct (decide _); [apply Hg|done].
  - destruct (decide (k ∈ l)); [rewrite decide_True by (by right)|rewrite decide_False]; [done..|].
    intros [?|?]%elem_of_cons; by subst.
Qed.

Lemma multi_wf_fold {V} `{EqDecision V} (f : jsmap jstr (jsset V) -> jstr -> jsmap jstr (jsset V))
    (l : list jstr) (m : jsmap jstr (jsset V)) :
  (forall m a, multi_wf m -> multi_wf (f m a)) -> multi_wf m -> multi_wf (foldl f m l).
Proof. intros Hf. revert m. induction l as [|a l IH]; intros m Hm; cbn [foldl]; auto. Qed.

Lemma ids_of_filter (Q : Z -> Prop) `{!forall id, Decision (Q id)} p tag :
  ids_of (filter (fun e => Q e.1) p) tag = filter Q (ids_of p tag).
Proof.
  unfold ids_of. induction p as [|[j tg] p IH]; [done|]. rewrite !filter_cons. simpl.
  destruct (decide (Q j)) as [Hj|Hj]; rewrite ?filter_cons; simpl;
    (destruct (decide (tg = tag)); [|done]); rewrite !fmap_cons, ?filter_cons; simpl.
  - by rewrite decide_True, IH by done.
  - by rewrite decide_False, IH by done.
Qed.

Lemma ids_without_slot p i tag : ids_of (without_slot p i) tag = filter (fun id => entityIndex id <> i) (ids_of p tag).
Proof. exact (ids_of_filter (fun id => entityIndex id <> i) p tag). Qed.

Lemma tags_without_slot p i j : tags_of (without_slot p i) j = if decide (i = j) then [] else tags_of p j.
Proof.
  unfold tags_of, without_slot. rewrite list_filter_filter. destruct (decide (i = j)) as [<-|Hne].
  - by rewrite filter_false by (intros [k tg] _; simpl; tauto).
  - f_equal. apply list_filter_iff. intros [k tg]. simpl. split; [tauto|]. intros ->. by split.
Qed.

Lemma rep_without_slot t p i m :
  represents t p -> multi_wf m ->
  (forall tag, multi m tag = if decide (tag ∈ tags_of p i) then filter (fun id => entityIndex id <> i) (ids_of p tag)
                             else ids_of p tag) ->
  represents (MkTags m (mdel (byEntity t) i)) (without_slot p i).
Proof.
  intros Hr Hm Hspec. destruct Hr as [Ht He Hn H1 Hmt Hme]. split; simpl.
  - done.
  - by apply multi_wf_mdel.
  - by apply NoDup_filter.
  - apply (one_sub p); [|done]. by intros e [? _]%elem_of_without_slot.
  - intros tag. rewrite Hspec, ids_without_slot. destruct (decide _) as [|Hnt]; [done|].
    symmetry. apply filter_true. intros id Hid Hi. apply Hnt. apply elem_of_tags_of.
    exists id. by rewrite <- elem_of_ids_of.
  - intros j. rewrite multi_mdel, tags_without_slot, Hme. by destruct (decide _).
Qed.

(** An entity without an entry has no pair. *)
Lemma rep_absent t p i : represents t p -> mget (byEntity t) i = None -> without_slot p i = p.
Proof.
  intros Hr Hi. apply filter_true. intros e He Hei.
  assert (Ht : e.2 ∈ tags_of p i) by (apply elem_of_tags_of; exists e.1; by destruct e).
  rewrite <- (rep_ent t p Hr) in Ht. unfold multi in Ht. rewrite Hi in Ht. by apply not_elem_of_nil in Ht.
Qed.

Lemma rep_removeAll t p id : represents t p -> owns p id -> represents (removeAll t id) (without_slot p (entityIndex id)).
Proof.
  intros Hr Ho. unfold removeAll. destruct (mget _ _) as [tags|] eqn:E.
  - assert (Htags : tags_of p (entityIndex id) = tags) by (rewrite <- (rep_ent t p Hr); by apply multi_Some).
    apply rep_without_slot; [done|apply multi_wf_fold; [by intros; apply multi_wf_del|apply Hr]|].
    intros tag. rewrite (fold_tags _ (fun s => sdel s id)).
    + rewrite Htags, (rep_tag t p Hr). destruct (decide _); [|done]. unfold sdel.
      apply filter_ext_in. intros j Hj. apply elem_of_ids_of in Hj. specialize (Ho _ Hj). simpl in Ho.
      split; [intros Hne Hi; apply Hne; auto|congruence].
    + intros m a k. rewrite multi_del_spec. done.
    + intros s. unfold sdel. rewrite list_filter_filter. apply list_filter_iff. tauto.
  - by rewrite (rep_absent t).
Qed.

(** *** Restoring *)

Lemma rep_clearSlot t p i : represents t p -> represents (clearSlot t i) (without_slot p i).
Proof.
  intros Hr. unfold clearSlot. destruct (mget _ _) as [tags|] eqn:E.
  - assert (Htags : tags_of p i = tags) by (rewrite <- (rep_ent t p Hr); by apply multi_Some).
    assert (Hdel : forall m a, multi_wf m -> multi_wf (del_slot i m a)).
    { intros m a Hm. unfold del_slot. destruct (mget m a) as [s|] eqn:Es; [|done].
      destruct (filter _ s) eqn:Ef; [by apply multi_wf_mdel|]. apply multi_wf_mset; [done..|].
      rewrite <- Ef. apply NoDup_filter. by apply (proj2 Hm a). }
    apply rep_without_slot; [done|apply multi_wf_fold; [done|apply Hr]|].
    intros tag. rewrite (fold_tags _ (fun s => filter (fun id => entityIndex id <> i) s)).
    + by rewrite Htags, (rep_tag t p Hr).
    + intros m a k. unfold del_slot. destruct (mget m a) as [s|] eqn:Es.
      * rewrite (multi_Some m a s) by done. destruct (filter _ s); [apply multi_mdel|apply multi_mset].
      * destruct (decide (a = k)) as [<-|]; [|done]. unfold multi. by rewrite Es.
    + intros s. rewrite list_filter_filter. apply list_filter_iff. tauto.
  - by rewrite (rep_absent t).
Qed.

Definition outside (l : list Z) (p : pairs) : pairs := filter (fun e => entityIndex e.1 ∉ l) p.

Lemma rep_clearSlots l t p : represents t p -> represents (foldl clearSlot t l) (outside l p).
Proof.
  revert t p. induction l as [|i l IH]; intros t p Hr; cbn [foldl].
  - unfold outside. rewrite filter_true; [done|]. intros e _. apply not_elem_of_nil.
  - replace (outside (i :: l) p) with (outside l (without_slot p i)); [by apply IH, rep_clearSlot|].
    unfold outside, without_slot. rewrite list_filter_filter. apply list_filter_iff.
    intros e. rewrite not_elem_of_cons. tauto.
Qed.

Lemma foldl_mset_app {K V} `{EqDecision K} (l acc : jsmap K V) :
  NoDup (mkeys (acc ++ l)) -> foldl (fun m e => mset m e.1 e.2) acc l = acc ++ l.
Proof.
  revert acc. induction l as [|[k v] l IH]; intros acc Hn; cbn [foldl]; [by rewrite app_nil_r|]. simpl.
  rewrite mset_fresh; [rewrite IH; rewrite <- app_assoc; [done|exact Hn]|].
  unfold mkeys in *. rewrite fmap_app in Hn. apply NoDup_app in Hn as (_ & Hd & _).
  intros Hk. apply (Hd k Hk). left.
Qed.

Lemma foldl_sadd_app {A} `{EqDecision A} (l acc : list A) :
  NoDup (acc ++ l) -> foldl sadd acc l = acc ++ l.
Proof.
  revert acc. induction l as [|x l IH]; intros acc Hn; cbn [foldl]; [by rewrite app_nil_r|].
  rewrite sadd_not_in; [rewrite IH; rewrite <- app_assoc; [done|exact Hn]|].
  apply NoDup_app in Hn as (_ & Hd & _). intros Hx. apply (Hd x Hx). left.
Qed.

(** A whole capture holds the index, and applying it to any index restores it. *)
Lemma whole_restore_keys t t' : NoDup (mkeys (byTag t)) -> NoDup (mkeys (byEntity t)) -> apply t' (capture t None) = t.
Proof.
  intros Hn Hn'.
  unfold apply, capture. simpl. rewrite (foldl_mset_app (byTag t) []), (foldl_mset_app (byEntity t) []) by done.
  simpl. rewrite (foldl_mset_app (byEntity t) []) by done. destruct t as [bt be]. f_equal. simpl in *. clear Hn'.
  assert (Hg : forall acc, NoDup (mkeys (acc ++ bt)) -> foldl join_tag acc bt = acc ++ bt); [|by apply (Hg [])].
  clear Hn. induction bt as [|[k v] l IH]; intros acc Hn; cbn [foldl]; [by rewrite app_nil_r|].
  assert (Hk : k ∉ mkeys acc).
  { unfold mkeys in *. rewrite fmap_app in Hn. apply NoDup_app in Hn as (_ & Hd & _).
    intros Hk. apply (Hd k Hk). left. }
  unfold join_tag at 2. simpl. rewrite (proj2 (mget_None acc k)), mset_fresh by done.
  rewrite IH; rewrite <- app_assoc; [done|exact Hn].
Qed.

Lemma whole_restore t t' p : represents t p -> apply t' (capture t None) = t.
Proof. intros Hr. apply whole_restore_keys; [apply (rep_tag_wf _ _ Hr)|apply (rep_ent_wf _ _ Hr)]. Qed.

(** What a scoped capture of [p] holds, in the scope's order. *)
Definition tag_pairs (p : pairs) (id : Z) : pairs := (fun tag => (id, tag)) <$> tags_of p (entityIndex id).
Definition captured (p : pairs) (ids : list Z) : pairs := ids ≫= tag_pairs p.

(** A scope of one id per slot, each the id its slot's tags belong to. *)
Definition scope_ok (p : pairs) (ids : list Z) : Prop :=
  NoDup (entityIndex <$> ids) /\ Forall (owns p) ids.

Lemma elem_of_tag_pairs p id e : owns p id -> e ∈ tag_pairs p id <-> e ∈ p /\ e.1 = id.
Proof.
  intros Ho. unfold tag_pairs. rewrite list_elem_of_fmap. split.
  - intros (tag & -> & (j & Hj & Hp)%elem_of_tags_of). split; [|done].
    pose proof (Ho _ Hp Hj) as Hji. simpl in Hji. by subst.
  - destruct e as [i tag]. intros [He <-]. exists tag. split; [done|]. apply elem_of_tags_of. by exists i.
Qed.

Lemma elem_of_captured p ids e : scope_ok p ids -> e ∈ captured p ids <-> e ∈ p /\ e.1 ∈ ids.
Proof.
  intros [_ Ho]. unfold captured. rewrite list_elem_of_bind. split.
  - intros (id & He & Hid). rewrite Forall_forall in Ho. apply elem_of_tag_pairs in He as [He <-]; auto.
  - intros [He Hid]. exists e.1. split; [|done]. apply elem_of_tag_pairs; [|done].
    rewrite Forall_forall in Ho. auto.
Qed.

Lemma multi_cons {K V} `{EqDecision K} (k : K) (s : jsset V) (m : jsmap K (jsset V)) k' :
  multi ((k, s) :: m) k' = if decide (k = k') then s else multi m k'.
Proof. unfold multi. simpl. by destruct (decide _). Qed.

Lemma ids_of_app p q tag : ids_of (p ++ q) tag = ids_of p tag ++ ids_of q tag.
Proof. unfold ids_of. by rewrite filter_app, fmap_app. Qed.

Lemma tags_of_app p q i : tags_of (p ++ q) i = tags_of p i ++ tags_of q i.
Proof. unfold tags_of. by rewrite filter_app, fmap_app. Qed.

Lemma tags_of_none p i : (forall e, e ∈ p -> entityIndex e.1 <> i) -> tags_of p i = [].
Proof. intros Hp. unfold tags_of. rewrite filter_false; [done|]. intros e He. by apply Hp. Qed.

Lemma ids_of_tag_pairs p id tag :
  NoDup (tags_of p (entityIndex id)) ->
  ids_of (tag_pairs p id) tag = if decide (tag ∈ tags_of p (entityIndex id)) then [id] else [].
Proof.
  unfold tag_pairs, ids_of. generalize (tags_of p (entityIndex id)). intros l.
  induction l as [|x l IH]; intros Hn; [by rewrite decide_False by apply not_elem_of_nil|].
  apply NoDup_cons in Hn as [Hx Hn]. rewrite fmap_cons, filter_cons. simpl. destruct (decide (x = tag)) as [->|Hne].
  - rewrite fmap_cons, IH by done. rewrite (decide_True (P := tag ∈ tag :: l)) by left. by rewrite decide_False.
  - rewrite IH by done. destruct (decide (tag ∈ l)).
    + by rewrite decide_True by (by right).
    + rewrite decide_False; [done|]. by intros [?|?]%elem_of_cons.
Qed.

Lemma tags_of_tag_pairs p id i :
  tags_of (tag_pairs p id) i = if decide (entityIndex id = i) then tags_of p i else [].
Proof.
  unfold tag_pairs. destruct (decide _) as [<-|Hne].
  - unfold tags_of at 1. rewrite filter_true.
    + rewrite <- list_fmap_compose. apply list_fmap_id.
    + intros e (tag & -> & _)%list_elem_of_fmap. done.
  - apply tags_of_none. intros e (tag & -> & _)%list_elem_of_fmap. done.
Qed.

Lemma NoDup_tags_of t p i : represents t p -> NoDup (tags_of p i).
Proof. intros Hr. rewrite <- (rep_ent t p Hr). apply multi_NoDup, Hr. Qed.

Lemma NoDup_ids_of t p tag : represents t p -> NoDup (ids_of p tag).
Proof. intros Hr. rewrite <- (rep_tag t p Hr). apply multi_NoDup, Hr. Qed.

(** The buffer of a scoped capture is itself an index, of the pairs in scope. *)
Lemma rep_capture t p ids :
  represents t p -> scope_ok p ids ->
  let b := capture t (Some ids) in
  slots b = Some (entityIndex <$> ids) /\ represents (MkTags (b_byTag b) (b_byEntity b)) (captured p ids).
Proof.
  intros Hr. simpl. induction ids as [|id ids IH] using rev_ind; intros Hok; [split; [done|apply rep_new]|].
  destruct Hok as [Hn Ho]. rewrite fmap_app in Hn. apply NoDup_snoc in Hn as [Hn Hni].
  apply Forall_app in Ho as [Ho Hoid]. apply Forall_cons in Hoid as [Hoid _].
  destruct (IH (conj Hn Ho)) as [Hs Hb]. clear IH. rewrite foldl_app. cbn [foldl].
  set (b := foldl _ _ ids) in *. unfold capture_id. rewrite Hs.
  pose proof (rep_ent t p Hr (entityIndex id)) as Htags.
  assert (Hcap : captured p (ids ++ [id]) = captured p ids ++ tag_pairs p id).
  { unfold captured. rewrite bind_app. simpl. by rewrite app_nil_r. }
  assert (Hfresh : forall e, e ∈ captured p ids -> entityIndex e.1 <> entityIndex id).
  { intros e He Hi. apply Hni. rewrite <- Hi. apply elem_of_captured in He as [_ He]; [|by split].
    by apply list_elem_of_fmap_2. }
  rewrite fmap_app, Hcap. destruct (mget _ _) as [tags|] eqn:E; (split; [done|]).
  2:{ unfold multi in Htags. rewrite E in Htags. simpl in Htags. unfold tag_pairs. rewrite <- Htags. simpl.
      by rewrite app_nil_r. }
  rewrite (multi_Some _ _ _ E) in Htags. destruct (proj2 (rep_ent_wf t p Hr) _ _ E) as [Hne Hnd].
  destruct Hb as [Hbt Hbe Hbn Hb1 Hbmt Hbme]. split; simpl.
  - apply multi_wf_fold; [by intros; apply multi_wf_add|done].
  - by apply multi_wf_mset.
  - apply NoDup_app. split; [done|]. split.
    + intros e He He'. apply (elem_of_tag_pairs p id e Hoid) in He' as [_ He']. apply (Hfresh e He). by rewrite He'.
    + unfold tag_pairs. apply NoDup_fmap; [by intros ?? [= ->]|]. by rewrite <- Htags.
  - assert (Hsub : forall e, e ∈ captured p ids ++ tag_pairs p id -> e ∈ p).
    { intros e [He|He]%elem_of_app; [by apply (elem_of_captured p ids e (conj Hn Ho)) in He as [? _]|].
      by apply (elem_of_tag_pairs p id e Hoid) in He as [? _]. }
    apply (one_sub p); [done|apply Hr].
  - intros tag. rewrite (fold_tags _ (fun s => sadd s id)).
    + rewrite ids_of_app, Hbmt, ids_of_tag_pairs by (by rewrite <- Htags). rewrite <- Htags.
      destruct (decide _); [|by rewrite app_nil_r]. apply sadd_not_in. rewrite elem_of_ids_of.
      intros He. by apply (Hfresh _ He).
    + intros m a k. rewrite multi_add_spec. by destruct (decide (a = k)) as [->|].
    + intros s. apply sadd_in, elem_of_sadd. by left.
  - intros i. rewrite multi_mset, tags_of_app, tags_of_tag_pairs, Hbme. destruct (decide _) as [<-|].
    + by rewrite tags_of_none.
    + by rewrite app_nil_r.
Qed.

Lemma tags_of_captured p ids id :
  scope_ok p ids -> id ∈ ids -> tags_of (captured p ids) (entityIndex id) = tags_of p (entityIndex id).
Proof.
  unfold captured. induction ids as [|x ids IH]; intros [Hn Ho] Hid; [by apply not_elem_of_nil in Hid|].
  rewrite fmap_cons in Hn. apply NoDup_cons in Hn as [Hx Hn]. apply Forall_cons in Ho as [Hox Ho].
  cbn [mbind list_bind]. rewrite tags_of_app, tags_of_tag_pairs. apply elem_of_cons in Hid as [->|Hid].
  - rewrite decide_True by done. rewrite (tags_of_none (ids ≫= _)); [apply app_nil_r|]. intros e He Hi. apply Hx.
    apply (elem_of_captured p ids e (conj Hn Ho)) in He as [_ He]. rewrite <- Hi. by apply list_elem_of_fmap_2.
  - rewrite decide_False; [by apply IH|]. intros Hi. apply Hx. rewrite Hi. by apply list_elem_of_fmap_2.
Qed.

Lemma ids_of_captured t p ids tag :
  represents t p -> Forall (owns p) ids -> ids_of (captured p ids) tag = filter (fun id => (id, tag) ∈ p) ids.
Proof.
  intros Hr. unfold captured. induction ids as [|x ids IH]; intros Ho; [done|].
  apply Forall_cons in Ho as [Hox Ho]. cbn [mbind list_bind].
  rewrite ids_of_app, IH, ids_of_tag_pairs, filter_cons by (done || by apply (NoDup_tags_of t)).
  assert (Hiff : tag ∈ tags_of p (entityIndex x) <-> (x, tag) ∈ p).
  { rewrite elem_of_tags_of. split; [|by exists x]. intros (j & Hj & Hp).
    pose proof (Hox _ Hp Hj) as Hjx. simpl in Hjx. by subst. }
  destruct (decide (tag ∈ _)), (decide ((x, tag) ∈ p)); tauto || done.
Qed.

Lemma multi_absent {K V} `{EqDecision K} (m : jsmap K (jsset V)) k : k ∉ mkeys m -> multi m k = [].
Proof. intros Hk. unfold multi. by rewrite (proj2 (mget_None m k)). Qed.

Lemma join_tag_spec m e k :
  NoDup e.2 -> multi (join_tag m e) k = if decide (e.1 = k) then foldl sadd (multi m k) e.2 else multi m k.
Proof.
  intros Hn. unfold join_tag. destruct (mget m e.1) as [s|] eqn:E; rewrite multi_mset;
    (destruct (decide _) as [<-|]; [|done]).
  - by rewrite (multi_Some _ _ _ E).
  - unfold multi. rewrite E. simpl. by rewrite foldl_sadd_app.
Qed.

Lemma join_all_spec l m k :
  multi_wf l -> multi (foldl join_tag m l) k = foldl sadd (multi m k) (multi l k).
Proof.
  revert m. induction l as [|[k0 s0] l IH]; intros m Hw; [done|]. cbn [foldl].
  assert (Hk0 : NoDup s0 /\ (k0 ∉ mkeys l) /\ multi_wf l).
  { destruct Hw as [Hk Hs]. apply NoDup_cons in Hk as [Hk0 Hk]. split; [|split; [done|split; [done|]]].
    - apply (Hs k0). simpl. by rewrite decide_True.
    - intros k' s' Hs'. apply (Hs k'). simpl. rewrite decide_False; [done|]. intros <-.
      apply Hk0. apply (mget_is_Some l k0). by exists s'. }
  destruct Hk0 as (Hn & Hk0 & Hl). rewrite IH, join_tag_spec, multi_cons by done. simpl.
  destruct (decide (k0 = k)) as [->|]; [|done].
  by rewrite (multi_absent l).
Qed.

Lemma foldl_sadd_mono {A} `{EqDecision A} (l acc : list A) x : x ∈ acc -> x ∈ foldl sadd acc l.
Proof.
  revert acc. induction l as [|y l IH]; intros acc Hx; [done|]. apply IH, elem_of_sadd. by right.
Qed.

Lemma NoDup_foldl_sadd {A} `{EqDecision A} (l acc : list A) : NoDup acc -> NoDup (foldl sadd acc l).
Proof. revert acc. induction l as [|y l IH]; intros acc Hn; [done|]. by apply IH, NoDup_sadd. Qed.

Lemma join_all_wf l m : multi_wf l -> multi_wf m -> multi_wf (foldl join_tag m l).
Proof.
  intros [Hk Hl]. assert (Hall : forall e, e ∈ l -> e.2 <> [] /\ NoDup e.2).
  { intros [k s] He. apply (Hl k). by apply mget_NoDup. }
  clear Hk Hl. revert m. induction l as [|e l IH]; intros m Hm; [done|]. cbn [foldl].
  apply IH; [intros e' He'; apply Hall; by right|]. destruct (Hall e) as [Hne Hn]; [left|].
  unfold join_tag. destruct (mget m e.1) as [s|] eqn:E; apply multi_wf_mset; try done.
  - destruct (proj2 Hm _ _ E) as [Hs _]. destruct s as [|x s]; [done|]. intros He.
    assert (Hx : x ∈ foldl sadd (x :: s) e.2) by (apply foldl_sadd_mono; left).
    rewrite He in Hx. by apply not_elem_of_nil in Hx.
  - apply NoDup_foldl_sadd. by apply (proj2 Hm e.1).
Qed.

Lemma mset_all_spec {K V} `{EqDecision K} (l m : jsmap K (jsset V)) k :
  NoDup (mkeys l) ->
  multi (foldl (fun m e => mset m e.1 e.2) m l) k = if mhas l k then multi l k else multi m k.
Proof.
  revert m. induction l as [|[k0 s0] l IH]; intros m Hn; [done|]. cbn [foldl].
  apply NoDup_cons in Hn as [Hk0 Hn]. rewrite IH, multi_mset, multi_cons by done. simpl.
  unfold mhas. simpl. destruct (decide (k0 = k)) as [<-|]; [|done].
  by rewrite (proj2 (mget_None l k0) Hk0).
Qed.

Lemma mset_all_wf {K V} `{EqDecision K} `{EqDecision V} (l m : jsmap K (jsset V)) :
  multi_wf l -> multi_wf m -> multi_wf (foldl (fun m e => mset m e.1 e.2) m l).
Proof.
  intros [Hk Hl]. assert (Hall : forall e, e ∈ l -> e.2 <> [] /\ NoDup e.2).
  { intros [k s] He. apply (Hl k). by apply mget_NoDup. }
  clear Hk Hl. revert m. induction l as [|e l IH]; intros m Hm; [done|]. cbn [foldl].
  apply IH; [intros e' He'; apply Hall; by right|]. apply multi_wf_mset; [done|apply Hall; left..].
Qed.

(** Two indexes with no slot in common join into one. *)
Lemma rep_join t1 t2 q1 q2 :
  represents t1 q1 -> represents t2 q2 ->
  (forall e1 e2, e1 ∈ q1 -> e2 ∈ q2 -> entityIndex e1.1 <> entityIndex e2.1) ->
  represents (MkTags (foldl join_tag (byTag t1) (byTag t2)) (foldl (fun m e => mset m e.1 e.2) (byEntity t1) (byEntity t2)))
    (q1 ++ q2).
Proof.
  intros H1 H2 Hd.
  assert (Hn : NoDup (q1 ++ q2)).
  { apply NoDup_app. split; [apply H1|]. split; [|apply H2]. intros e He He'. by apply (Hd e e). }
  split; simpl.
  - by apply join_all_wf; [apply H2|apply H1].
  - by apply mset_all_wf; [apply H2|apply H1].
  - done.
  - intros e He e' He' Hi. apply elem_of_app in He as [He|He], He' as [He'|He'].
    + by apply (rep_one t1 q1 H1 e).
    + by destruct (Hd e e').
    + by destruct (Hd e' e).
    + by apply (rep_one t2 q2 H2 e).
  - intros tag. rewrite join_all_spec by apply H2. rewrite (rep_tag t1 q1 H1), (rep_tag t2 q2 H2), ids_of_app.
    apply foldl_sadd_app. rewrite <- ids_of_app. unfold ids_of.
    apply NoDup_fmap_2_strong; [|by apply NoDup_filter].
    intros [i a] [j b] [Ha _]%list_elem_of_filter [Hb _]%list_elem_of_filter. simpl in *. by intros <-; subst.
  - intros i. rewrite mset_all_spec by apply H2. rewrite tags_of_app.
    destruct (mhas (byEntity t2) i) eqn:E.
    + rewrite (rep_ent t2 q2 H2), (tags_of_none q1); [done|]. intros e He Hi. apply mhas_spec, mget_is_Some in E as [s Hs].
      destruct (proj2 (rep_ent_wf t2 q2 H2) _ _ Hs) as [Hne _]. apply multi_Some in Hs.
      rewrite (rep_ent t2 q2 H2) in Hs. destruct s as [|tag s]; [done|].
      assert (Htag : tag ∈ tags_of q2 i) by (rewrite Hs; left). apply elem_of_tags_of in Htag as (j & Hj & Hp).
      apply (Hd _ _ He Hp). simpl. by rewrite Hi, Hj.
    + rewrite (rep_ent t1 q1 H1). replace (tags_of q2 i) with (@nil jstr); [by rewrite app_nil_r|].
      rewrite <- (rep_ent t2 q2 H2). unfold multi. unfold mhas in E. by destruct (mget (byEntity t2) i).
Qed.

Lemma rep_restore t p t' p' ids :
  represents t p -> represents t' p' -> scope_ok p ids ->
  represents (apply t' (capture t (Some ids))) (outside (entityIndex <$> ids) p' ++ captured p ids).
Proof.
  intros Hr Hr' Hok. destruct (rep_capture t p ids Hr Hok) as [Hs Hb]. unfold apply. rewrite Hs.
  apply (rep_join _ (MkTags _ _)); [by apply rep_clearSlots|done|].
  intros e1 e2 [Ho _]%list_elem_of_filter [_ He]%(elem_of_captured p ids e2 Hok) Hi. apply Ho. rewrite Hi.
  by apply list_elem_of_fmap_2.
Qed.

(** ** Histories *)

Inductive tag_op := TAdd (id : Z) (tag : jstr) | TRemove (id : Z) (tag : jstr) | TRemoveAll (id : Z) | TClear.

Definition run_op (t : TagIndex) (o : tag_op) : TagIndex :=
  match o with
  | TAdd id tag => add t id tag
  | TRemove id tag => remove t id tag
  | TRemoveAll id => removeAll t id
  | TClear => clear t
  end.

Definition spec_op (p : pairs) (o : tag_op) : pairs :=
  match o with
  | TAdd id tag => sadd p (id, tag)
  | TRemove id tag => sdel p (id, tag)
  | TRemoveAll id => filter (fun e => e.1 <> id) p
  | TClear => []
  end.

(** The operation names an id that shares its slot with no other tagged id. *)
Definition op_ok (p : pairs) (o : tag_op) : Prop :=
  match o with TAdd id _ | TRemove id _ | TRemoveAll id => owns p id | TClear => True end.

#[global] Instance owns_dec p id : Decision (owns p id).
Proof.
  destruct (decide (Forall (fun e => entityIndex e.1 = entityIndex id -> e.1 = id) p)) as [Ha|Ha]; [left|right].
  - exact (proj1 (Forall_forall _ _) Ha).
  - intros Ho. apply Ha. exact (proj2 (Forall_forall _ _) Ho).
Defined.

Fixpoint ops_ok (p : pairs) (ops : list tag_op) : Prop :=
  match ops with [] => True | o :: ops => op_ok p o /\ ops_ok (spec_op p o) ops end.

Lemma rep_step t p o : represents t p -> op_ok p o -> represents (run_op t o) (spec_op p o).
Proof.
  intros Hr Ho. destruct o as [id tag|id tag|id|]; simpl in *.
  - by apply rep_add.
  - by apply rep_remove.
  - replace (filter _ p) with (without_slot p (entityIndex id)); [by apply rep_removeAll|].
    apply filter_ext_in. intros e He. split; [intros Hi Heq; apply Hi; by rewrite Heq|]. intros Hne Hi. by apply Hne, Ho.
  - apply rep_new.
Qed.

Lemma rep_run t p ops : represents t p -> ops_ok p ops -> represents (foldl run_op t ops) (foldl spec_op p ops).
Proof.
  revert t p. induction ops as [|o ops IH]; intros t p Hr Hok; [done|]. destruct Hok as [Ho Hok].
  cbn [foldl]. apply IH; [by apply rep_step|done].
Qed.

#[global] Instance scope_ok_dec p ids : Decision (scope_ok p ids).
Proof. unfold scope_ok. apply _. Defined.

(** ** Properties *)

(** The two maps are one ordered set of (entity, tag) pairs. Over any history in
    which each call names the one tagged id of its slot, [has] is membership of the
    pair; a tag's ids and an entity's tags come out in the order their pairs were
    added; and neither map keeps an empty set or a duplicate. *)
Theorem tag_index_is_one_relation (ops : list tag_op) (Hok : ops_ok [] ops) :
  let t := foldl run_op new_index ops in
  let p := foldl spec_op [] ops in
  (forall id tag, has t id tag = true <-> (id, tag) ∈ p)
  /\ (forall tag, nullish (mget (byTag t) tag) [] = (filter (fun e => e.2 = tag) p).*1)
  /\ (forall id, tagsOf t id = (filter (fun e => entityIndex e.1 = entityIndex id) p).*2)
  /\ (forall tag s, mget (byTag t) tag = Some s -> s <> [] /\ NoDup s)
  /\ (forall i s, mget (byEntity t) i = Some s -> s <> [] /\ NoDup s).
Proof.
  intros t p. assert (Hr : represents t p) by (apply rep_run; [apply rep_new|done]).
  split; [intros id tag; by apply rep_mem|]. split; [intros tag; apply (rep_tag t p Hr)|].
  split; [intros id; rewrite tagsOf_multi; apply (rep_ent t p Hr)|].
  split; [apply (rep_tag_wf t p Hr)|apply (rep_ent_wf t p Hr)].
Qed.

Definition foe : jstr := js "foe".
Definition red : jstr := js "red".
Definition hero : Z := packHandle 0 1.
Definition imp : Z := packHandle 1 1.

Lemma tag_index_is_one_relation_witness :
  let t := foldl run_op new_index [TAdd hero red; TAdd imp foe; TAdd imp red; TRemove hero red; TAdd hero red] in
  nullish (mget (byTag t) red) [] = [imp; hero] /\ has t imp foe = true.
Proof.
  assert (Hok : ops_ok [] [TAdd hero red; TAdd imp foe; TAdd imp red; TRemove hero red; TAdd hero red]).
  { repeat (split; [apply (bool_decide_unpack _); vm_compute; exact I|]). done. }
  destruct (tag_index_is_one_relation _ Hok) as (Hh & Ht & _). split.
  - rewrite Ht. vm_compute. reflexivity.
  - apply Hh. apply (bool_decide_unpack _). vm_compute. exact I.
Defined.

(** Restoring a capture. A whole capture applied to any index gives back the
    captured one. A scoped one gives the entities in scope exactly the tags they had
    and leaves the others' alone, whatever happened in between; but in a tag's order
    every entity of the scope now comes after every entity outside it. *)
Theorem tag_restore (before since : list tag_op) (ids : list Z) :
  let t := foldl run_op new_index before in
  let t' := foldl run_op new_index since in
  let p := foldl spec_op [] before in
  let p' := foldl spec_op [] since in
  ops_ok [] before -> ops_ok [] since -> scope_ok p ids ->
  apply t' (capture t None) = t
  /\ let r := apply t' (capture t (Some ids)) in
     (forall id tag, has r id tag = true <->
        ((id, tag) ∈ p /\ id ∈ ids) \/ ((id, tag) ∈ p' /\ (entityIndex id ∉ entityIndex <$> ids)))
     /\ (forall id, id ∈ ids -> tagsOf r id = tagsOf t id)
     /\ (forall tag, nullish (mget (byTag r) tag) [] =
           filter (fun id => entityIndex id ∉ entityIndex <$> ids) (nullish (mget (byTag t') tag) [])
           ++ filter (fun id => (id, tag) ∈ p) ids).
Proof.
  intros t t' p p' Hb Hs Hok.
  assert (Hr : represents t p) by (apply rep_run; [apply rep_new|done]).
  assert (Hr' : represents t' p') by (apply rep_run; [apply rep_new|done]).
  split; [by apply (whole_restore t t' p)|]. intros r.
  pose proof (rep_restore t p t' p' ids Hr Hr' Hok) as Hrr. fold r in Hrr.
  split; [|split].
  - intros id tag. rewrite (rep_mem _ _ _ _ Hrr), elem_of_app, (elem_of_captured p ids _ Hok).
    unfold outside. rewrite list_elem_of_filter. simpl. tauto.
  - intros id Hid. rewrite !tagsOf_multi, (rep_ent _ _ Hrr), (rep_ent t p Hr), tags_of_app, tags_of_none.
    + by apply tags_of_captured.
    + intros e [Ho _]%list_elem_of_filter Hi. apply Ho. rewrite Hi. by apply list_elem_of_fmap_2.
  - intros tag. change (multi (byTag r) tag = filter (fun id => entityIndex id ∉ entityIndex <$> ids) (multi (byTag t') tag)
      ++ filter (fun id => (id, tag) ∈ p) ids).
    rewrite (rep_tag _ _ Hrr), ids_of_app, (rep_tag t' p' Hr'). f_equal.
    + exact (ids_of_filter (fun id => entityIndex id ∉ entityIndex <$> ids) p' tag).
    + apply (ids_of_captured t); [done|apply Hok].
Qed.

(** The hero is red before and after; rewinding it alone moves it behind the imp. *)
Lemma tag_restore_witness :
  let t := foldl run_op new_index [TAdd hero red; TAdd imp red] in
  nullish (mget (byTag t) red) [] = [hero; imp]
  /\ nullish (mget (byTag (apply t (capture t (Some [hero])))) red) [] = [imp; hero].
Proof.
  assert (Hok : ops_ok [] [TAdd hero red; TAdd imp red]).
  { repeat (split; [apply (bool_decide_unpack _); vm_compute; exact I|]). done. }
  assert (Hs : scope_ok (foldl spec_op [] [TAdd hero red; TAdd imp red]) [hero])
    by (apply (bool_decide_unpack _); vm_compute; exact I).
  split; [vm_compute; reflexivity|].
  rewrite (proj2 (proj2 (proj2 (tag_restore _ _ _ Hok Hok Hs))) red). vm_compute. reflexivity.
Defined.

(** A stale handle tags its slot's new tenant. Neither [add] nor [remove] checks a
    handle's generation, and the two maps are keyed differently: tagging through a
    stale handle puts the tag in the live entity's [tagsOf] while [has] denies it, and
    untagging through one takes it out of [tagsOf] while [has] still answers it. *)
Theorem stale_handle_splits_tags (t : TagIndex) (stale live : Z) (tag : jstr) :
  stale <> live -> entityIndex stale = entityIndex live ->
  (has t live tag = false ->
     tag ∈ tagsOf (add t stale tag) live /\ has (add t stale tag) live tag = false)
  /\ (has t live tag = true ->
     (tag ∉ tagsOf (remove t stale tag) live) /\ has (remove t stale tag) live tag = true).
Proof.
  intros Hne Hi.
  assert (Hhas : forall t tag, has t live tag = shas (multi (byTag t) tag) live).
  { intros t0 tag0. unfold has, multi. by destruct (mget _ _). }
  rewrite !Hhas. split; intros Hh; rewrite tagsOf_multi; simpl.
  - rewrite !multi_add_spec, Hi, !decide_True by done. split; [apply elem_of_sadd; by left|].
    apply shas_false. apply shas_false in Hh. by intros [->|?]%elem_of_sadd.
  - rewrite !multi_del_spec, Hi, !decide_True by done. split; [by intros [_ Ht]%elem_of_sdel|].
    apply shas_spec. apply shas_spec in Hh. by apply elem_of_sdel.
Qed.

Lemma stale_handle_splits_tags_witness :
  let t := removeAll (add new_index hero red) hero in
  let reborn := packHandle 0 2 in
  red ∈ tagsOf (add t hero red) reborn /\ has (add t hero red) reborn red = false.
Proof.
  intros t reborn. apply (stale_handle_splits_tags t hero reborn red); vm_compute; [discriminate|reflexivity..].
Defined.
