(* ===== verification/TransformStore.v ===== *)
(** * The transform store ([packages/core/src/world/transform-store.ts])

    Seven typed arrays addressed by slot, a high-water count and the set of slots
    written since the last drain. [Lanes] is the seven arrays, which the store and a
    capture's buffer share; a statement the source repeats for each of them is [each]
    or [each2]. A typed array drops a write out of its range and reads [undefined]
    there. Growth is [packages/math/src/typed-array.ts]. *)

From stdpp Require Import functions.
From S2P Require Import Prelude JsMap JsNum Handle TagIndex.

Local Open Scope Z_scope.

(** ** Typed arrays *)

(** [ToInt32], the conversion a write into an [Int32Array] makes. *)
Definition toInt32 (x : num) : Z :=
  match floorZ (fabs x) with
  | None => 0
  | Some z =>
      let z := if sign_bit x then - z else z in
      let m := z mod 2 ^ 32 in
      if 2 ^ 31 <=? m then m - 2 ^ 32 else m
  end.

(** [growF64] and [growI32]; no caller asks for less than the source holds. *)
Definition grow {A} (src : list A) (capacity : Z) (fill : A) : list A :=
  src ++ replicate (Z.to_nat capacity - length src) fill.

(** [dst.set(src.subarray(0, n))]; every caller's [dst] is long enough. *)
Definition blit {A} (n : Z) (dst src : list A) : list A :=
  take (Z.to_nat n) src ++ drop (length (take (Z.to_nat n) src)) dst.

(** [dst[i] = src[i]!]. *)
Definition copy_slot {A} (i : Z) (dst src : list A) : list A :=
  match arr_get src i with Some x => arr_set dst i x | None => dst end.

Fixpoint doubling (fuel : nat) (capacity needed : Z) : Z :=
  match fuel with
  | O => capacity
  | S fuel => if capacity <? needed then doubling fuel (capacity * 2) needed else capacity
  end.

Definition grownCapacity (current needed : Z) : Z :=
  doubling (Z.to_nat needed) (if 0 <? current then current else 1) needed.

(** ** The store *)

Definition INITIAL_CAPACITY : Z := 64.

Record Lanes := MkLanes {
  l_posX : list num; l_posY : list num; l_posZ : list num; l_rot : list num;
  l_scale : list num; l_opacity : list num; l_layer : list Z;
}.

Record TransformBuffer := MkBuffer { b_lanes : Lanes; b_count : Z; b_slots : option (list Z) }.

Record SimTransformStore := MkStore { lanes : Lanes; count : Z; dirty : jsset Z }.

Definition f1 : num := of_Z 1.

(** The same statement for each array, with the array's default. *)
Definition each (f : forall A : Type, A -> list A -> list A) (l : Lanes) : Lanes :=
  MkLanes (f _ f0 (l_posX l)) (f _ f0 (l_posY l)) (f _ f0 (l_posZ l)) (f _ f0 (l_rot l))
    (f _ f1 (l_scale l)) (f _ f1 (l_opacity l)) (f _ 0 (l_layer l)).

Definition each2 (f : forall A : Type, list A -> list A -> list A) (d s : Lanes) : Lanes :=
  MkLanes (f _ (l_posX d) (l_posX s)) (f _ (l_posY d) (l_posY s)) (f _ (l_posZ d) (l_posZ s))
    (f _ (l_rot d) (l_rot s)) (f _ (l_scale d) (l_scale s)) (f _ (l_opacity d) (l_opacity s))
    (f _ (l_layer d) (l_layer s)).

Definition capacity (l : Lanes) : Z := arr_len (l_posX l).

Definition fresh_lanes (n : Z) : Lanes := each (fun A d _ => replicate (Z.to_nat n) d) (MkLanes [] [] [] [] [] [] []).

Definition createTransformBuffer (n : Z) : TransformBuffer := MkBuffer (fresh_lanes n) 0 None.

Definition grow_lanes (l : Lanes) (n : Z) : Lanes := each (fun A d s => grow s n d) l.

Definition growBuffer (into : TransformBuffer) (n : Z) : TransformBuffer :=
  MkBuffer (grow_lanes (b_lanes into) n) (b_count into) (b_slots into).

Definition new_store : SimTransformStore := MkStore (fresh_lanes INITIAL_CAPACITY) 0 [].

Definition ensure (t : SimTransformStore) (needed : Z) : SimTransformStore :=
  if needed <=? capacity (lanes t) then t
  else MkStore (grow_lanes (lanes t) (grownCapacity (capacity (lanes t)) needed)) (count t) (dirty t).

Definition reset (i : Z) (l : Lanes) : Lanes := each (fun A d s => arr_set s i d) l.

Definition initSlot (t : SimTransformStore) (id : Z) : SimTransformStore :=
  let index := entityIndex id in
  let t := ensure t (index + 1) in
  let count := if count t <=? index then index + 1 else count t in
  MkStore (reset index (lanes t)) count (dirty t).

Definition releaseSlot (t : SimTransformStore) (id : Z) : SimTransformStore :=
  let index := entityIndex id in
  if count t <=? index then t else MkStore (reset index (lanes t)) (count t) (sdel (dirty t) index).

Definition setPosition (t : SimTransformStore) (id : Z) (x y z : num) : SimTransformStore :=
  let i := entityIndex id in
  let l := lanes t in
  MkStore (MkLanes (arr_set (l_posX l) i x) (arr_set (l_posY l) i y) (arr_set (l_posZ l) i z)
             (l_rot l) (l_scale l) (l_opacity l) (l_layer l)) (count t) (sadd (dirty t) i).

Definition setRotation (t : SimTransformStore) (id : Z) (degrees : num) : SimTransformStore :=
  let i := entityIndex id in
  let l := lanes t in
  MkStore (MkLanes (l_posX l) (l_posY l) (l_posZ l) (arr_set (l_rot l) i degrees)
             (l_scale l) (l_opacity l) (l_layer l)) (count t) (sadd (dirty t) i).

Definition setScale (t : SimTransformStore) (id : Z) (scale : num) : SimTransformStore :=
  let i := entityIndex id in
  let l := lanes t in
  MkStore (MkLanes (l_posX l) (l_posY l) (l_posZ l) (l_rot l)
             (arr_set (l_scale l) i scale) (l_opacity l) (l_layer l)) (count t) (sadd (dirty t) i).

Definition setOpacity (t : SimTransformStore) (id : Z) (opacity : num) : SimTransformStore :=
  let i := entityIndex id in
  let l := lanes t in
  MkStore (MkLanes (l_posX l) (l_posY l) (l_posZ l) (l_rot l)
             (l_scale l) (arr_set (l_opacity l) i opacity) (l_layer l)) (count t) (sadd (dirty t) i).

Definition setLayer (t : SimTransformStore) (id : Z) (layer : num) : SimTransformStore :=
  let i := entityIndex id in
  let l := lanes t in
  MkStore (MkLanes (l_posX l) (l_posY l) (l_posZ l) (l_rot l)
             (l_scale l) (l_opacity l) (arr_set (l_layer l) i (toInt32 layer))) (count t) (sadd (dirty t) i).

Definition posX (t : SimTransformStore) (id : Z) : num := nullish (arr_get (l_posX (lanes t)) (entityIndex id)) f0.
Definition posY (t : SimTransformStore) (id : Z) : num := nullish (arr_get (l_posY (lanes t)) (entityIndex id)) f0.
Definition posZ (t : SimTransformStore) (id : Z) : num := nullish (arr_get (l_posZ (lanes t)) (entityIndex id)) f0.
Definition rotation (t : SimTransformStore) (id : Z) : num := nullish (arr_get (l_rot (lanes t)) (entityIndex id)) f0.
Definition scale (t : SimTransformStore) (id : Z) : num := nullish (arr_get (l_scale (lanes t)) (entityIndex id)) f1.
Definition opacity (t : SimTransformStore) (id : Z) : num := nullish (arr_get (l_opacity (lanes t)) (entityIndex id)) f1.
Definition layer (t : SimTransformStore) (id : Z) : Z := nullish (arr_get (l_layer (lanes t)) (entityIndex id)) 0.

Definition consumeDirty (t : SimTransformStore) : list Z * SimTransformStore :=
  (dirty t, MkStore (lanes t) (count t) []).

Definition isDirty (t : SimTransformStore) (id : Z) : bool := shas (dirty t) (entityIndex id).

(** [this.#count || INITIAL_CAPACITY]. *)
Definition createBuffer (t : SimTransformStore) : TransformBuffer :=
  createTransformBuffer (if count t =? 0 then INITIAL_CAPACITY else count t).

Definition slotCount (t : SimTransformStore) : Z := count t.

Definition copyPositions (t : SimTransformStore) (intoX intoY : list num) : Z * list num * list num :=
  (count t, blit (count t) intoX (l_posX (lanes t)), blit (count t) intoY (l_posY (lanes t))).

(** One id of a scoped capture. *)
Definition capture_slot (t : SimTransformStore) (cap : Z) (b : Lanes * list Z) (id : Z) : Lanes * list Z :=
  let i := entityIndex id in
  if cap <=? i then b else (each2 (fun A => copy_slot i) b.1 (lanes t), b.2 ++ [i]).

Definition capture (t : SimTransformStore) (into : TransformBuffer) (scope : option (list Z)) : TransformBuffer :=
  let cap := count t in
  let into := if capacity (b_lanes into) <? cap
              then growBuffer into (grownCapacity (capacity (b_lanes into)) cap) else into in
  match scope with
  | None => MkBuffer (each2 (fun A => blit cap) (b_lanes into) (lanes t)) cap None
  | Some ids => let '(l, slots) := foldl (capture_slot t cap) (b_lanes into, []) ids in MkBuffer l cap (Some slots)
  end.

Definition apply (t : SimTransformStore) (from : TransformBuffer) : SimTransformStore :=
  let cap := b_count from in
  let t := ensure t cap in
  let count := Z.max (count t) cap in
  match b_slots from with
  | None => MkStore (each2 (fun A => blit cap) (lanes t) (b_lanes from)) count (dirty t)
  | Some slots => MkStore (foldl (fun l i => each2 (fun A => copy_slot i) l (b_lanes from)) (lanes t) slots) count (dirty t)
  end.

(** ** Arrays, read by index *)

Lemma doubling_spec (fuel : nat) (c n : Z) :
  0 < c -> n <= c + Z.of_nat fuel ->
  exists k, 0 <= k /\ doubling fuel c n = c * 2 ^ k /\ n <= c * 2 ^ k /\ (k = 0 \/ c * 2 ^ (k - 1) < n).
Proof.
  revert c. induction fuel as [|fuel IH]; intros c Hc Hn; cbn [doubling].
  { exists 0. change (2 ^ 0) with 1. lia. }
  destruct (c <? n) eqn:E; bool_facts.
  - destruct (IH (c * 2)) as (k & Hk & He & Hle & Hm); [lia..|]. exists (k + 1).
    replace (c * 2 ^ (k + 1)) with (c * 2 * 2 ^ k) by (rewrite Z.pow_add_r; lia).
    split; [lia|]. split; [done|]. split; [done|]. right. replace (k + 1 - 1) with k by lia.
    destruct (decide (k = 0)) as [->|Hk0]; [change (2 ^ 0) with 1; lia|].
    destruct Hm as [?|Hm]; [done|]. replace k with (1 + (k - 1)) by lia. rewrite Z.pow_add_r by lia. lia.
  - exists 0. change (2 ^ 0) with 1. lia.
Qed.

Lemma grownCapacity_ge c n : 0 <= c -> Z.max c n <= grownCapacity c n /\ 0 < grownCapacity c n.
Proof.
  intros Hc. unfold grownCapacity.
  destruct (doubling_spec (Z.to_nat n) (if 0 <? c then c else 1) n) as (k & Hk & -> & Hle & _).
  - destruct (0 <? c) eqn:E; bool_facts; lia.
  - destruct (0 <? c) eqn:E; bool_facts; lia.
  - assert (1 <= 2 ^ k) by (pose proof (Z.pow_pos_nonneg 2 k ltac:(lia) Hk); lia).
    destruct (0 <? c) eqn:E; bool_facts; nia.
Qed.

Lemma arr_get_app {A} (l k : list A) i :
  arr_get (l ++ k) i = if i <? arr_len l then arr_get l i else arr_get k (i - arr_len l).
Proof.
  unfold arr_get, arr_len. destruct (i <? _) eqn:E; bool_facts.
  - destruct (0 <=? i) eqn:E0; bool_facts; [|done]. apply lookup_app_l. lia.
  - rewrite (proj2 (Z.leb_le 0 i)), (proj2 (Z.leb_le 0 _)) by lia. rewrite lookup_app_r by lia. f_equal. lia.
Qed.

Lemma grow_get {A} (s : list A) n d i : nullish (arr_get (grow s n d) i) d = nullish (arr_get s i) d.
Proof.
  unfold grow. rewrite arr_get_app. destruct (i <? arr_len s) eqn:E; bool_facts; [done|].
  rewrite (arr_get_out s i) by lia. destruct (arr_get (replicate _ d) _) as [x|] eqn:Ex; [|done].
  apply arr_get_lookup in Ex as [_ Ex]. by apply lookup_replicate in Ex as [-> _].
Qed.

Lemma length_grow {A} (s : list A) n d : length (grow s n d) = Nat.max (length s) (Z.to_nat n).
Proof. unfold grow. rewrite length_app, length_replicate. lia. Qed.

Lemma blit_get {A} n (d s : list A) i :
  0 <= n <= arr_len s -> arr_get (blit n d s) i = if (0 <=? i) && (i <? n) then arr_get s i else arr_get d i.
Proof.
  unfold arr_len. intros Hn. unfold blit, arr_get. destruct (0 <=? i) eqn:E0; bool_facts; [|done].
  assert (Hl : length (take (Z.to_nat n) s) = Z.to_nat n) by (rewrite length_take; lia).
  simpl. destruct (i <? n) eqn:E; bool_facts.
  - rewrite lookup_app_l by lia. apply lookup_take_lt. lia.
  - rewrite lookup_app_r, Hl, lookup_drop by lia. f_equal. lia.
Qed.

Lemma length_blit {A} n (d s : list A) :
  0 <= n <= arr_len s -> n <= arr_len d -> length (blit n d s) = length d.
Proof. unfold arr_len, blit. intros. rewrite length_app, length_drop, length_take. lia. Qed.

Lemma copy_slot_get {A} i (d s : list A) j :
  0 <= i < arr_len s -> i < arr_len d -> arr_get (copy_slot i d s) j = if i =? j then arr_get s i else arr_get d j.
Proof.
  intros Hs Hd. unfold copy_slot. destruct (arr_get s i) as [x|] eqn:E.
  - destruct (i =? j) eqn:Ej; bool_facts; [subst; apply arr_get_set_eq; lia|by apply arr_get_set_ne].
  - apply arr_get_is_Some in Hs as [x Hx]. congruence.
Qed.

Lemma length_copy_slot {A} i (d s : list A) : length (copy_slot i d s) = length d.
Proof. unfold copy_slot. destruct (arr_get s i); [|done]. pose proof (arr_len_set d i a). unfold arr_len in *. lia. Qed.

(** ** A slot's transform *)

Record Transform := MkTransform {
  t_x : num; t_y : num; t_z : num; t_rot : num; t_scale : num; t_opacity : num; t_layer : Z
}.

Definition identity : Transform := MkTransform f0 f0 f0 f0 f1 f1 0.

Definition at_ (l : Lanes) (i : Z) : Transform :=
  MkTransform (nullish (arr_get (l_posX l) i) f0) (nullish (arr_get (l_posY l) i) f0)
    (nullish (arr_get (l_posZ l) i) f0) (nullish (arr_get (l_rot l) i) f0)
    (nullish (arr_get (l_scale l) i) f1) (nullish (arr_get (l_opacity l) i) f1)
    (nullish (arr_get (l_layer l) i) 0).

(** Seven arrays of one length. *)
Record aligned (n : nat) (l : Lanes) : Prop := {
  al_posX : length (l_posX l) = n; al_posY : length (l_posY l) = n; al_posZ : length (l_posZ l) = n;
  al_rot : length (l_rot l) = n; al_scale : length (l_scale l) = n; al_opacity : length (l_opacity l) = n;
  al_layer : length (l_layer l) = n;
}.

Lemma aligned_capacity n l : aligned n l -> capacity l = Z.of_nat n.
Proof. intros H. unfold capacity, arr_len. by rewrite (al_posX n l H). Qed.

Lemma each_aligned (f : forall A : Type, A -> list A -> list A) (g : nat -> nat) n l :
  (forall A d (s : list A), length s = n -> length (f A d s) = g n) -> aligned n l -> aligned (g n) (each f l).
Proof. intros Hf [??????]. by split; apply Hf. Qed.

Lemma each2_aligned (f : forall A : Type, list A -> list A -> list A) n m d s :
  (forall A (d s : list A), length d = n -> length s = m -> length (f A d s) = n) ->
  aligned n d -> aligned m s -> aligned n (each2 f d s).
Proof. intros Hf [] []. by split; apply Hf. Qed.

Lemma each_at (f : forall A : Type, A -> list A -> list A) n l i j :
  (forall A d (s : list A), length s = n -> nullish (arr_get (f A d s) i) d = nullish (arr_get s j) d) ->
  aligned n l -> at_ (each f l) i = at_ l j.
Proof. intros Hf [??????]. unfold at_. simpl. f_equal; by apply Hf. Qed.

Lemma each_at_default (f : forall A : Type, A -> list A -> list A) n l i :
  (forall A d (s : list A), length s = n -> nullish (arr_get (f A d s) i) d = d) ->
  aligned n l -> at_ (each f l) i = identity.
Proof. intros Hf [??????]. unfold at_, identity. simpl. f_equal; by apply Hf. Qed.

Lemma each2_at (f : forall A : Type, list A -> list A -> list A) n m d s i (b : bool) :
  (forall A (d s : list A), length d = n -> length s = m ->
     arr_get (f A d s) i = if b then arr_get s i else arr_get d i) ->
  aligned n d -> aligned m s -> at_ (each2 f d s) i = if b then at_ s i else at_ d i.
Proof. intros Hf [] []. unfold at_. simpl. rewrite !Hf by done. by destruct b. Qed.

Lemma at_out n l i : aligned n l -> ~ (0 <= i < Z.of_nat n) -> at_ l i = identity.
Proof.
  intros [??????] Hi. unfold at_, identity. f_equal; rewrite arr_get_out; try done; unfold arr_len; lia.
Qed.

Lemma grow_lanes_aligned n l c : aligned n l -> aligned (Nat.max n (Z.to_nat c)) (grow_lanes l c).
Proof.
  apply (each_aligned (fun A d s => grow s c d) (fun n => Nat.max n (Z.to_nat c))). intros A d s <-. apply length_grow.
Qed.

Lemma grow_lanes_at n l c i : aligned n l -> at_ (grow_lanes l c) i = at_ l i.
Proof. apply (each_at (fun A d s => grow s c d)). intros A d s _. apply grow_get. Qed.

Lemma fresh_lanes_aligned n : aligned (Z.to_nat n) (fresh_lanes n).
Proof. split; simpl; by rewrite length_replicate. Qed.

Lemma fresh_lanes_at n i : at_ (fresh_lanes n) i = identity.
Proof.
  apply (each_at_default _ 0%nat); [|done]. intros A d s _. destruct (arr_get _ i) as [x|] eqn:E; [|done].
  apply arr_get_lookup in E as [_ E]. by apply lookup_replicate in E as [-> _].
Qed.

Lemma reset_aligned n i l : aligned n l -> aligned n (reset i l).
Proof.
  apply (each_aligned _ (fun n => n)). intros A d s <-. pose proof (arr_len_set s i d). unfold arr_len in *. lia.
Qed.

Lemma reset_at n i l j : aligned n l -> at_ (reset i l) j = if i =? j then identity else at_ l j.
Proof.
  intros Hl. destruct (i =? j) eqn:E; bool_facts.
  - subst. apply (each_at_default _ n); [|done]. intros A d s _.
    destruct (arr_get (arr_set s j d) j) as [x|] eqn:Ex; [|done]. simpl.
    assert (Hj : 0 <= j < arr_len s).
    { rewrite <- (arr_len_set s j d). by apply (arr_get_lt _ _ x). }
    rewrite arr_get_set_eq in Ex by done. congruence.
  - apply (each_at _ n); [|done]. intros A d s _. by rewrite arr_get_set_ne.
Qed.

(** ** The specification: a transform per slot *)

Definition wf (t : SimTransformStore) : Prop := exists n, aligned n (lanes t) /\ 0 <= count t <= Z.of_nat n.

Definition buffer_wf (b : TransformBuffer) : Prop := exists n, aligned n (b_lanes b).

Inductive transform_op :=
  | OInit (id : Z) | ORelease (id : Z) | OPosition (id : Z) (x y z : num) | ORotation (id : Z) (degrees : num)
  | OScale (id : Z) (s : num) | OOpacity (id : Z) (o : num) | OLayer (id : Z) (l : num) | ODrain.

Definition run_op (t : SimTransformStore) (o : transform_op) : SimTransformStore :=
  match o with
  | OInit id => initSlot t id
  | ORelease id => releaseSlot t id
  | OPosition id x y z => setPosition t id x y z
  | ORotation id d => setRotation t id d
  | OScale id s => setScale t id s
  | OOpacity id o => setOpacity t id o
  | OLayer id l => setLayer t id l
  | ODrain => (consumeDirty t).2
  end.

Record spec := MkSpec { sp_at : Z -> Transform; sp_count : Z; sp_dirty : jsset Z }.

Definition empty_spec : spec := MkSpec (fun _ => identity) 0 [].

(** A write of slot [i]. *)
Definition spec_write (s : spec) (i : Z) (f : Transform -> Transform) : spec :=
  MkSpec (<[i := f (sp_at s i)]> (sp_at s)) (sp_count s) (sadd (sp_dirty s) i).

Definition spec_op (s : spec) (o : transform_op) : spec :=
  match o with
  | OInit id => MkSpec (<[entityIndex id := identity]> (sp_at s)) (Z.max (sp_count s) (entityIndex id + 1)) (sp_dirty s)
  | ORelease id => MkSpec (<[entityIndex id := identity]> (sp_at s)) (sp_count s) (sdel (sp_dirty s) (entityIndex id))
  | OPosition id x y z => spec_write s (entityIndex id) (fun t => MkTransform x y z (t_rot t) (t_scale t) (t_opacity t) (t_layer t))
  | ORotation id d => spec_write s (entityIndex id) (fun t => MkTransform (t_x t) (t_y t) (t_z t) d (t_scale t) (t_opacity t) (t_layer t))
  | OScale id k => spec_write s (entityIndex id) (fun t => MkTransform (t_x t) (t_y t) (t_z t) (t_rot t) k (t_opacity t) (t_layer t))
  | OOpacity id o => spec_write s (entityIndex id) (fun t => MkTransform (t_x t) (t_y t) (t_z t) (t_rot t) (t_scale t) o (t_layer t))
  | OLayer id l => spec_write s (entityIndex id) (fun t => MkTransform (t_x t) (t_y t) (t_z t) (t_rot t) (t_scale t) (t_opacity t) (toInt32 l))
  | ODrain => MkSpec (sp_at s) (sp_count s) []
  end.

(** A real id, and for a write or a release one whose slot was initialised. *)
Definition op_ok (s : spec) (o : transform_op) : Prop :=
  match o with
  | OInit id => 0 < id
  | ORelease id | OPosition id _ _ _ | ORotation id _ | OScale id _ | OOpacity id _ | OLayer id _ =>
      0 < id /\ entityIndex id < sp_count s
  | ODrain => True
  end.

Fixpoint ops_ok (s : spec) (ops : list transform_op) : Prop :=
  match ops with [] => True | o :: ops => op_ok s o /\ ops_ok (spec_op s o) ops end.

Record implements (t : SimTransformStore) (s : spec) : Prop := {
  im_wf : wf t;
  im_at i : at_ (lanes t) i = sp_at s i;
  im_count : count t = sp_count s;
  im_dirty : dirty t = sp_dirty s;
}.

Lemma entityIndex_nonneg id : 0 < id -> 0 <= entityIndex id.
Proof. intros Hid. pose proof (handleIndex_valid id Hid) as [? _]. done. Qed.

Lemma ensure_spec t needed n :
  aligned n (lanes t) ->
  exists m, aligned m (lanes (ensure t needed)) /\ needed <= Z.of_nat m /\ (n <= m)%nat
    /\ (forall i, at_ (lanes (ensure t needed)) i = at_ (lanes t) i)
    /\ count (ensure t needed) = count t /\ dirty (ensure t needed) = dirty t.
Proof.
  intros Hn. unfold ensure. rewrite (aligned_capacity n) by done. destruct (needed <=? _) eqn:E; bool_facts.
  - exists n. done.
  - pose proof (grownCapacity_ge (Z.of_nat n) needed ltac:(lia)) as [Hg _].
    exists (Nat.max n (Z.to_nat (grownCapacity (Z.of_nat n) needed))). simpl.
    split; [by apply grow_lanes_aligned|]. split; [lia|]. split; [lia|].
    split; [|done]. intros i. by apply (grow_lanes_at n).
Qed.

Lemma set_length {A} (l : list A) i x n : length l = n -> length (arr_set l i x) = n.
Proof. intros <-. pose proof (arr_len_set l i x). unfold arr_len in *. lia. Qed.

Lemma set_get {A} (l : list A) i x j d n :
  length l = n -> 0 <= i < Z.of_nat n ->
  nullish (arr_get (arr_set l i x) j) d = if i =? j then x else nullish (arr_get l j) d.
Proof.
  intros <- Hi. destruct (i =? j) eqn:E; bool_facts; [subst; by rewrite arr_get_set_eq|by rewrite arr_get_set_ne].
Qed.

(** A write of an initialised slot. *)
Lemma write_implements t s i l' f :
  implements t s -> 0 <= i < sp_count s ->
  (forall n, aligned n (lanes t) -> aligned n l') ->
  (forall n j, aligned n (lanes t) -> 0 <= i < Z.of_nat n -> at_ l' j = if i =? j then f (at_ (lanes t) i) else at_ (lanes t) j) ->
  implements (MkStore l' (count t) (sadd (dirty t) i)) (spec_write s i f).
Proof.
  intros [(n & Hn & Hc) Ha Hcount Hd] Hi Hal Hat. rewrite Hcount in Hc. split; simpl.
  - exists n. simpl. rewrite Hcount. auto.
  - intros j. rewrite (Hat n) by (done || lia). destruct (i =? j) eqn:E; bool_facts.
    + subst. by rewrite fn_lookup_insert, Ha.
    + by rewrite fn_lookup_insert_ne, Ha.
  - done.
  - by rewrite Hd.
Qed.

Ltac write_one :=
  eapply write_implements; [done|split; [by apply entityIndex_nonneg|done]|..];
  [intros n [??????]; split; simpl; try done; by apply set_length
  |intros n j [??????] Hi; unfold at_; simpl;
   repeat match goal with H : length _ = n |- _ => rewrite !(fun x d => set_get _ _ x j d n H Hi) || clear H end;
   destruct (entityIndex _ =? j) eqn:E; bool_facts; [by subst|done]].

Lemma run_op_implements t s o : implements t s -> op_ok s o -> implements (run_op t o) (spec_op s o).
Proof.
  intros Him Ho. destruct o as [id|id|id x y z|id d|id k|id k|id k|]; simpl in *;
    try match type of Ho with _ /\ _ => destruct Ho as [Hid Hlt] end; try write_one.
  - destruct Him as [(n & Hn & Hc) Ha Hcount Hd]. unfold initSlot.
    destruct (ensure_spec t (entityIndex id + 1) n Hn) as (m & Hm & Hneed & Hnm & Hat & Hec & Hed).
    pose proof (entityIndex_nonneg id Ho). rewrite Hec, Hed. split; simpl.
    + exists m. simpl. split; [by apply reset_aligned|]. destruct (count t <=? entityIndex id) eqn:E; bool_facts; lia.
    + intros i. rewrite (reset_at m), Hat, Ha by done. destruct (entityIndex id =? i) eqn:E; bool_facts.
      * subst. by rewrite fn_lookup_insert.
      * by rewrite fn_lookup_insert_ne.
    + rewrite Hcount. destruct (sp_count s <=? entityIndex id) eqn:E; bool_facts; lia.
    + done.
  - destruct Him as [(n & Hn & Hc) Ha Hcount Hd]. unfold releaseSlot. rewrite Hcount.
    destruct (sp_count s <=? entityIndex id) eqn:E; bool_facts; [lia|]. split; simpl.
    + exists n. simpl. rewrite Hcount in Hc. split; [by apply reset_aligned|done].
    + intros i. rewrite (reset_at n), Ha by done. destruct (entityIndex id =? i) eqn:E'; bool_facts.
      * subst. by rewrite fn_lookup_insert.
      * by rewrite fn_lookup_insert_ne.
    + done.
    + by rewrite Hd.
  - destruct Him as [Hw Ha Hcount Hd]. by split.
Qed.

Lemma run_implements t s ops : implements t s -> ops_ok s ops -> implements (foldl run_op t ops) (foldl spec_op s ops).
Proof.
  revert t s. induction ops as [|o ops IH]; intros t s Him Hok; [done|]. destruct Hok as [Ho Hok].
  cbn [foldl]. apply IH; [by apply run_op_implements|done].
Qed.

Lemma new_implements : implements new_store empty_spec.
Proof.
  split; [|intros i|done..].
  - exists (Z.to_nat INITIAL_CAPACITY). split; [apply fresh_lanes_aligned|done].
  - apply fresh_lanes_at.
Qed.

(** ** Captures *)

Definition covered (t : SimTransformStore) (scope : option (list Z)) (i : Z) : Prop :=
  0 <= i < count t /\ match scope with None => True | Some ids => i ∈ entityIndex <$> ids end.

#[global] Instance covered_dec t scope i : Decision (covered t scope i).
Proof. unfold covered. destruct scope; apply _. Defined.

Lemma copy_slot_lanes n m d s i j :
  aligned n d -> aligned m s -> 0 <= i < Z.of_nat m -> i < Z.of_nat n ->
  at_ (each2 (fun A => copy_slot i) d s) j = if i =? j then at_ s j else at_ d j.
Proof.
  intros Hd Hs Hi Hin. apply (each2_at _ n m); [|done..]. intros A d0 s0 <- <-.
  rewrite copy_slot_get by done. destruct (i =? j) eqn:E; bool_facts; by subst.
Qed.

Lemma copy_slot_aligned n m d s i : aligned n d -> aligned m s -> aligned n (each2 (fun A => copy_slot i) d s).
Proof. apply each2_aligned. intros A d0 s0 <- _. apply length_copy_slot. Qed.

(** The slots a scoped capture names. *)
Definition named (cap : Z) (ids : list Z) : list Z := filter (fun i => i < cap) (entityIndex <$> ids).

Lemma capture_loop t n m ids l acc :
  aligned n (lanes t) -> 0 <= count t <= Z.of_nat n -> aligned m l -> count t <= Z.of_nat m ->
  Forall (fun id => 0 <= entityIndex id) ids ->
  let r := foldl (capture_slot t (count t)) (l, acc) ids in
  aligned m r.1 /\ r.2 = acc ++ named (count t) ids
  /\ forall j, at_ r.1 j = if decide (j ∈ named (count t) ids) then at_ (lanes t) j else at_ l j.
Proof.
  intros Hn Hc. revert l acc. induction ids as [|id ids IH]; intros l acc Hm Hcm Hids; cbn [foldl].
  { simpl. by rewrite app_nil_r. }
  apply Forall_cons in Hids as [Hid Hids]. 
  assert (Hst : capture_slot t (count t) (l, acc) id = if count t <=? entityIndex id then (l, acc)
    else (each2 (fun A => copy_slot (entityIndex id)) l (lanes t), acc ++ [entityIndex id])) by done.
  rewrite Hst. unfold named. rewrite fmap_cons, filter_cons.
  fold (named (count t) ids). destruct (count t <=? entityIndex id) eqn:E; bool_facts.
  - rewrite decide_False by lia. by apply IH.
  - rewrite decide_True by lia.
    destruct (IH (each2 (fun A => copy_slot (entityIndex id)) l (lanes t)) (acc ++ [entityIndex id])) as (H1 & H2 & H3);
      [by apply (copy_slot_aligned m n)|done..|].
    split; [done|]. split; [by rewrite H2, <- app_assoc|]. intros j. rewrite H3.
    destruct (decide (j ∈ named _ _)) as [|Hj]; [by rewrite decide_True by (by right)|].
    rewrite (copy_slot_lanes m n) by (done || lia). destruct (entityIndex id =? j) eqn:Ej; bool_facts.
    + rewrite decide_True; [done|]. subst. left.
    + rewrite decide_False; [done|]. by intros [?|?]%elem_of_cons.
Qed.

Lemma apply_loop n m src slots l :
  aligned m src -> aligned n l -> Forall (fun i => 0 <= i < Z.of_nat m /\ i < Z.of_nat n) slots ->
  let r := foldl (fun l i => each2 (fun A => copy_slot i) l src) l slots in
  aligned n r /\ forall j, at_ r j = if decide (j ∈ slots) then at_ src j else at_ l j.
Proof.
  intros Hm. revert l. induction slots as [|i slots IH]; intros l Hn Hs; cbn [foldl].
  { split; [done|]. intros j. by rewrite decide_False by apply not_elem_of_nil. }
  apply Forall_cons in Hs as [Hi Hs].
  destruct (IH (each2 (fun A => copy_slot i) l src)) as [H1 H2]; [by apply (copy_slot_aligned n m)|done|].
  split; [done|]. intros j. rewrite H2. destruct (decide (j ∈ slots)) as [|Hj]; [by rewrite decide_True by (by right)|].
  rewrite (copy_slot_lanes n m) by (done || lia). destruct (i =? j) eqn:E; bool_facts.
  - rewrite decide_True; [done|]. subst. left.
  - rewrite decide_False; [done|]. by intros [?|?]%elem_of_cons.
Qed.

Lemma blit_lanes n m c d s j :
  aligned n d -> aligned m s -> 0 <= c <= Z.of_nat m -> c <= Z.of_nat n ->
  aligned n (each2 (fun A => blit c) d s)
  /\ at_ (each2 (fun A => blit c) d s) j = if (0 <=? j) && (j <? c) then at_ s j else at_ d j.
Proof.
  intros Hd Hs Hc Hcn. split.
  - apply (each2_aligned _ n m); [|done..]. intros A d0 s0 <- <-. by apply length_blit.
  - apply (each2_at _ n m); [|done..]. intros A d0 s0 <- <-. by apply blit_get.
Qed.

(** The buffer a capture fills, whatever it held. *)
Lemma capture_spec t into scope :
  wf t -> buffer_wf into -> (forall ids, scope = Some ids -> Forall (fun id => 0 <= entityIndex id) ids) ->
  let b := capture t into scope in
  exists m, aligned m (b_lanes b) /\ count t <= Z.of_nat m /\ b_count b = count t
    /\ b_slots b = (named (count t) <$> scope)
    /\ forall j, covered t scope j -> at_ (b_lanes b) j = at_ (lanes t) j.
Proof.
  intros (n & Hn & Hc) (m0 & Hm0) Hids. unfold capture.
  set (into' := if capacity (b_lanes into) <? count t then _ else into).
  assert (Hi : exists m, aligned m (b_lanes into') /\ count t <= Z.of_nat m).
  { unfold into'. clear into'. pose proof (aligned_capacity m0 _ Hm0) as Hcap.
    destruct (_ <? _) eqn:E; bool_facts; rewrite Hcap in E; [rewrite Hcap|].
    - pose proof (grownCapacity_ge (Z.of_nat m0) (count t) ltac:(lia)) as [Hg _].
      exists (Nat.max m0 (Z.to_nat (grownCapacity (Z.of_nat m0) (count t)))).
      split; [by apply grow_lanes_aligned|lia].
    - by exists m0. }
  destruct Hi as (m & Hm & Hcm). exists m. destruct scope as [ids|]; simpl.
  - destruct (capture_loop t n m ids (b_lanes into') [] Hn Hc Hm Hcm (Hids _ eq_refl)) as (H1 & H2 & H3).
    destruct (foldl _ _ ids) as [l slots]. simpl in *. subst slots.
    split; [done|]. split; [done|]. split; [done|]. split; [done|]. intros j [Hj Hin].
    rewrite H3, decide_True; [done|]. unfold named. rewrite list_elem_of_filter. split; [lia|done].
  - split; [by apply (blit_lanes m n (count t) _ _ 0)|]. split; [done|]. split; [done|]. split; [done|].
    intros j [Hj _]. rewrite (proj2 (blit_lanes m n (count t) _ _ j Hm Hn Hc Hcm)).
    by rewrite (proj2 (Z.leb_le 0 j)), (proj2 (Z.ltb_lt j (count t))) by lia.
Qed.

Lemma apply_spec now t into scope :
  wf now -> wf t -> buffer_wf into -> (forall ids, scope = Some ids -> Forall (fun id => 0 <= entityIndex id) ids) ->
  let r := apply now (capture t into scope) in
  wf r /\ count r = Z.max (count now) (count t) /\ dirty r = dirty now
  /\ forall j, at_ (lanes r) j = if decide (covered t scope j) then at_ (lanes t) j else at_ (lanes now) j.
Proof.
  intros (n & Hn & Hc) Ht Hinto Hids. destruct (capture_spec t into scope Ht Hinto Hids) as (m & Hm & Hcm & Hbc & Hbs & Hbat).
  set (b := capture t into scope) in *. clearbody b. unfold apply. rewrite Hbc, Hbs.
  destruct (ensure_spec now (count t) n Hn) as (k & Hk & Hneed & Hnk & Hat & Hec & Hed).
  rewrite Hec, Hed. destruct Ht as (nt & _ & Hct). destruct scope as [ids|]; simpl.
  - specialize (Hids _ eq_refl). destruct (apply_loop k m (b_lanes b) (named (count t) ids) (lanes (ensure now (count t)))) as [H1 H2];
      [done..| |].
    { apply Forall_forall. intros i Hi. apply list_elem_of_filter in Hi as [Hi (id & -> & Hid)%list_elem_of_fmap].
      rewrite Forall_forall in Hids. specialize (Hids _ Hid). lia. }
    split; [exists k; simpl; split; [done|lia]|]. split; [done|]. split; [done|]. intros j. rewrite H2, Hat.
    assert (Hiff : j ∈ named (count t) ids <-> covered t (Some ids) j).
    { unfold named, covered. rewrite list_elem_of_filter. split.
      - intros [Hj Hin]. split; [|done]. apply list_elem_of_fmap in Hin as (id & -> & Hid).
        rewrite Forall_forall in Hids. specialize (Hids _ Hid). lia.
      - intros [Hj Hin]. split; [lia|done]. }
    destruct (decide (j ∈ _)) as [Hj|Hj], (decide (covered _ _ _)) as [Hcv|Hcv]; try tauto. by rewrite Hbat.
  - split; [exists k; simpl; split; [by apply (blit_lanes k m (count t) _ _ 0 Hk Hm); lia|lia]|].
    split; [done|]. split; [done|]. intros j. cbn [lanes].
    rewrite (proj2 (blit_lanes k m (count t) _ _ j Hk Hm ltac:(lia) ltac:(lia))), Hat.
    destruct ((0 <=? j) && (j <? count t)) eqn:E.
    + bool_facts. rewrite decide_True by (split; [lia|done]). apply Hbat. by split; [lia|].
    + rewrite decide_False; [done|]. intros [Hj _]. apply andb_false_iff in E as [E|E]; bool_facts; lia.
Qed.

(** ** Properties *)

(** The store is a transform per slot. Over any history of spawns, releases,
    writes and drains that names initialised slots, through every growth of the seven
    arrays, each getter reads its component of what was last written to the slot (the
    identity after a spawn or a release), [slotCount] is the high-water mark, and a
    drain yields exactly the slots written since the last one, in first-write order. *)
Theorem transform_store_refines_slots (ops : list transform_op) (Hok : ops_ok empty_spec ops) :
  let t := foldl run_op new_store ops in
  let s := foldl spec_op empty_spec ops in
  (forall id, MkTransform (posX t id) (posY t id) (posZ t id) (rotation t id) (scale t id) (opacity t id) (layer t id)
              = sp_at s (entityIndex id))
  /\ slotCount t = sp_count s
  /\ (consumeDirty t).1 = sp_dirty s
  /\ (forall id, isDirty t id = bool_decide (entityIndex id ∈ sp_dirty s))
  /\ exists n, aligned n (lanes t) /\ 0 <= slotCount t <= Z.of_nat n.
Proof.
  intros t s. assert (Him : implements t s) by (apply run_implements; [apply new_implements|done]).
  split; [intros id; exact (im_at t s Him (entityIndex id))|]. split; [apply Him|]. split; [apply Him|].
  split; [intros id; unfold isDirty, shas; by rewrite (im_dirty t s Him)|]. apply Him.
Qed.

(** Slot 100 is past the first 64: spawning it grows the arrays. *)
Lemma transform_store_refines_slots_witness :
  let a := packHandle 100 1 in
  let t := foldl run_op new_store [OInit a; OPosition a (of_Z 3) (of_Z 4) f0; ODrain; OLayer a (of_Z (2 ^ 31))] in
  posX t a = of_Z 3 /\ layer t a = - 2 ^ 31 /\ (consumeDirty t).1 = [100] /\ slotCount t = 101.
Proof.
  intros a t.
  assert (Hok : ops_ok empty_spec [OInit a; OPosition a (of_Z 3) (of_Z 4) f0; ODrain; OLayer a (of_Z (2 ^ 31))])
    by (vm_compute; tauto).
  destruct (transform_store_refines_slots _ Hok) as (Hat & Hc & Hd & _). fold t in Hat, Hc, Hd.
  pose proof (f_equal t_x (Hat a)) as Hx. pose proof (f_equal t_layer (Hat a)) as Hl.
  cbn [t_x t_layer] in Hx, Hl. rewrite Hx, Hl, Hc, Hd.
  split; [vm_compute; reflexivity|]. split; [vm_compute; reflexivity|].
  split; vm_compute; reflexivity.
Defined.

(** Restoring transforms. Whatever the buffer held before and whatever happened to
    the store since, applying a capture gives every slot the capture covers (all below
    the captured high-water mark, or those of the entities in scope) exactly the
    captured transform, leaves every other slot as it is, never lowers the high-water
    mark, and marks nothing dirty. *)
Theorem transform_restore (before since : list transform_op) (into : TransformBuffer) (scope : option (list Z)) :
  ops_ok empty_spec before -> ops_ok empty_spec since -> buffer_wf into ->
  (forall ids, scope = Some ids -> Forall (fun id => 0 < id) ids) ->
  let t := foldl run_op new_store before in
  let now := foldl run_op new_store since in
  let r := apply now (capture t into scope) in
  (forall i, at_ (lanes r) i = if decide (covered t scope i) then at_ (lanes t) i else at_ (lanes now) i)
  /\ slotCount r = Z.max (slotCount now) (slotCount t) /\ dirty r = dirty now /\ wf r.
Proof.
  intros Hb Hs Hi Hids t now r.
  destruct (apply_spec now t into scope) as (Hw & Hc & Hd & Hat).
  - by apply (im_wf _ _ (run_implements _ _ since new_implements Hs)).
  - by apply (im_wf _ _ (run_implements _ _ before new_implements Hb)).
  - done.
  - intros ids ->. specialize (Hids ids eq_refl). rewrite Forall_forall in *. intros id Hid.
    by apply entityIndex_nonneg, Hids.
  - done.
Qed.

Definition walker : Z := packHandle 0 1.
Definition wall : Z := packHandle 1 1.

Lemma transform_restore_witness :
  let before := [OInit walker; OInit wall; OPosition walker f1 f1 f0] in
  let since := before ++ [OPosition walker (of_Z 9) (of_Z 9) f0; OPosition wall (of_Z 7) f0 f0] in
  let now := foldl run_op new_store since in
  let r := apply now (capture (foldl run_op new_store before) (createBuffer new_store) (Some [walker])) in
  at_ (lanes r) 0 = at_ (lanes (foldl run_op new_store before)) 0 /\ at_ (lanes r) 1 = at_ (lanes now) 1.
Proof.
  intros before since now r.
  destruct (transform_restore before since (createBuffer new_store) (Some [walker])) as [Hat _].
  - vm_compute. tauto.
  - vm_compute. tauto.
  - exists 64%nat. apply (fresh_lanes_aligned INITIAL_CAPACITY).
  - intros ids [= <-]. apply Forall_singleton. vm_compute. reflexivity.
  - split; (etrans; [apply Hat|]); [rewrite decide_True|rewrite decide_False]; try reflexivity.
    + apply (bool_decide_unpack _). vm_compute. exact I.
    + apply (bool_decide_unpack _). vm_compute. exact I.
Defined.

(** [grownCapacity] returns: from any start its loop stops within [needed] turns at
    the first doubling that holds [needed], so no growth is short and none overshoots
    by a factor of two. *)
Theorem grown_capacity_least (current needed : Z) (Hc : 0 <= current) :
  let start := Z.max current 1 in
  exists k, 0 <= k /\ grownCapacity current needed = start * 2 ^ k
    /\ needed <= start * 2 ^ k /\ (k = 0 \/ start * 2 ^ (k - 1) < needed)
    /\ forall fuel, (Z.to_nat needed <= fuel)%nat -> doubling fuel start needed = grownCapacity current needed.
Proof.
  intros start. assert (Hst : start = if 0 <? current then current else 1)
    by (unfold start; destruct (0 <? current) eqn:E; bool_facts; lia).
  unfold grownCapacity. rewrite <- Hst.
  destruct (doubling_spec (Z.to_nat needed) start needed) as (k & Hk & He & Hle & Hm); [lia..|].
  exists k. split; [done|]. split; [done|]. split; [done|]. split; [done|]. intros fuel Hf.
  destruct (doubling_spec fuel start needed) as (j & Hj & -> & Hlej & Hmj); [lia..|]. rewrite He. f_equal. f_equal.
  assert (Hmono : forall a b, 0 <= a -> a < b -> start * 2 ^ a <= start * 2 ^ (b - 1)).
  { intros a b Ha Hab. apply Z.mul_le_mono_nonneg_l; [lia|]. apply Z.pow_le_mono_r; lia. }
  destruct (Z.lt_trichotomy j k) as [Hlt|[?|Hlt]]; [|done|].
  - specialize (Hmono j k Hj Hlt). lia.
  - specialize (Hmono k j Hk Hlt). lia.
Qed.

Lemma grown_capacity_least_witness : exists k, 0 <= k /\ grownCapacity 64 101 = Z.max 64 1 * 2 ^ k.
Proof. destruct (grown_capacity_least 64 101 ltac:(lia)) as (k & Hk & He & _). by exists k. Defined.
