(* ===== verification/EntityTable.v ===== *)
(** * The entity table and its hierarchy ([packages/core/src/world/entity-table.ts],
    the attach and destroy paths of [runtime/entity.ts] and [world/entity-manager.ts])

    Records in a [SlotTable], the parent and children links between them, and the
    destroy queue. A record is an object the table hands out, so a write through it
    is [modify]. The links are kept mutually inverse and acyclic, and what is destroyed
    is closed under children, over every history; that is what makes the destroy
    cascade and the ancestor walk end. *)

From S2P Require Import Prelude Json Handle SlotTable.

Local Open Scope Z_scope.

Abbreviation EntityId := Z.
Definition NONE : EntityId := 0.

Record EntityRecord := MkEntity {
  template : jstr;
  ownerId : jstr;
  parent : EntityId;
  children : list EntityId;
  alive : bool;
  destroyPending : bool;
}.

Record EntityTableBuffer := MkBuffer { buf : SlotTableSnapshot EntityRecord }.

Definition cloneRecord (r : EntityRecord) : EntityRecord :=
  MkEntity (template r) (ownerId r) (parent r) (children r) (alive r) (destroyPending r).

Abbreviation EntityTable := (SlotTable EntityRecord).

Definition new_entities : EntityTable := new_table "EntityTable".

Definition create (t : EntityTable) (template ownerId : jstr) : outcome table_error (EntityId * EntityTable) :=
  SlotTable.create t (MkEntity template ownerId NONE [] true false).

Definition indexOf (t : EntityTable) (id : EntityId) : Z := SlotTable.indexOf t id.
Definition isAlive (t : EntityTable) (id : EntityId) : bool :=
  match SlotTable.record t id with Some r => alive r | None => false end.
Definition exists_ (t : EntityTable) (id : EntityId) : bool := SlotTable.exists_ t id.
Definition record (t : EntityTable) (id : EntityId) : option EntityRecord := SlotTable.record t id.
Definition idAt (t : EntityTable) (index : Z) : EntityId := SlotTable.idAt t index.
Definition release (t : EntityTable) (id : EntityId) : EntityTable := SlotTable.release t id.
Definition liveCount (t : EntityTable) : Z := SlotTable.liveCount t.
Definition liveIds (t : EntityTable) : list EntityId := SlotTable.liveIds t.
Definition clear (t : EntityTable) : EntityTable := SlotTable.clear t.
Definition capture (t : EntityTable) : EntityTableBuffer := MkBuffer (SlotTable.captureInto t cloneRecord).
Definition apply (t : EntityTable) (from : EntityTableBuffer) : EntityTable := SlotTable.apply t (buf from) cloneRecord.

(** A write through the record object the table holds for [id]. *)
Definition modify (t : EntityTable) (id : EntityId) (f : EntityRecord -> EntityRecord) : EntityTable :=
  let i := SlotTable.indexOf t id in
  match recordAt t i with
  | None => t
  | Some r => MkTable (arr_set (records t) i (Some (f r))) (generations t) (freeList t) (live t) (label t)
  end.

Definition set_parent (p : EntityId) (r : EntityRecord) : EntityRecord :=
  MkEntity (template r) (ownerId r) p (children r) (alive r) (destroyPending r).
Definition set_children (c : list EntityId) (r : EntityRecord) : EntityRecord :=
  MkEntity (template r) (ownerId r) (parent r) c (alive r) (destroyPending r).
Definition doom (r : EntityRecord) : EntityRecord :=
  MkEntity (template r) (ownerId r) (parent r) (children r) false true.

(** [at = children.indexOf(id); if (at >= 0) children.splice(at, 1)]. *)
Fixpoint splice_out (id : EntityId) (l : list EntityId) : list EntityId :=
  match l with [] => [] | x :: l => if x =? id then l else x :: splice_out id l end.

(** ** The hierarchy ([Entity.attachTo], [Entity.detach]) *)

(** [#unlink]: the table, and whether there was a parent. *)
Definition unlink (t : EntityTable) (id : EntityId) : EntityTable * bool :=
  match record t id with
  | None => (t, false)
  | Some rec =>
      if parent rec =? NONE then (t, false)
      else
        let t := modify t (parent rec) (fun prec => set_children (splice_out id (children prec)) prec) in
        (modify t id (set_parent NONE), true)
  end.

Inductive attach_result := Attached | Ignored | Refused.

(** The walk from the new parent to the root: whether it meets [id]. *)
Fixpoint ancestor_meets (fuel : nat) (t : EntityTable) (at_ id : EntityId) : bool :=
  match fuel with
  | O => false
  | S fuel =>
      if at_ =? NONE then false
      else if at_ =? id then true
      else ancestor_meets fuel t (match record t at_ with Some r => parent r | None => NONE end) id
  end.

(** Every record is walked at most once, so the slot count is fuel enough. *)
Definition walk_fuel (t : EntityTable) : nat := S (S (length (records t))).

Definition attachTo (t : EntityTable) (id to : EntityId) : EntityTable * attach_result :=
  match record t id, record t to with
  | Some rec, Some prec =>
      if negb (alive prec) then (t, Ignored)
      else if ancestor_meets (walk_fuel t) t to id then (t, Refused)
      else
        let '(t, _) := unlink t id in
        let t := modify t id (set_parent to) in
        (modify t to (fun prec => set_children (children prec ++ [id]) prec), Attached)
  | _, _ => (t, Ignored)
  end.

(** ** Destruction ([EntityManager.destroy]) *)

(** The table and the queue. Each call that does not return at once clears a live
    flag, so the slot count bounds the depth. *)
Fixpoint destroy_in (fuel : nat) (s : EntityTable * list EntityId) (id : EntityId) : EntityTable * list EntityId :=
  match fuel with
  | O => s
  | S fuel =>
      match record s.1 id with
      | None => s
      | Some rec =>
          if negb (alive rec) then s
          else foldl (destroy_in fuel) (modify s.1 id doom, s.2 ++ [id]) (children rec)
      end
  end.

Definition destroy (s : EntityTable * list EntityId) (id : EntityId) : EntityTable * list EntityId :=
  destroy_in (walk_fuel s.1) s id.

(** ** [modify] on the abstract map *)

Lemma recordAt_modify (t : EntityTable) id f j :
  recordAt (modify t id f) j = if decide (j = SlotTable.indexOf t id) then f <$> recordAt t j else recordAt t j.
Proof.
  unfold modify. destruct (recordAt t (SlotTable.indexOf t id)) as [r|] eqn:E.
  - pose proof (recordAt_range _ _ _ E) as Hr. unfold slotCount in Hr. destruct (decide _) as [->|Hne].
    + rewrite E. simpl. apply recordAt_Some. simpl. by apply arr_get_set_eq.
    + unfold recordAt. simpl. rewrite arr_get_set_ne by done. done.
  - destruct (decide _) as [->|]; [by rewrite E|done].
Qed.

Lemma modify_frame (t : EntityTable) id f :
  generations (modify t id f) = generations t /\ freeList (modify t id f) = freeList t
  /\ live (modify t id f) = live t /\ length (records (modify t id f)) = length (records t).
Proof.
  unfold modify. destruct (recordAt t _); [|done]. simpl. split; [done|]. split; [done|]. split; [done|].
  pose proof (arr_len_set (records t) (SlotTable.indexOf t id) (Some (f e))). unfold arr_len in *. lia.
Qed.

Lemma recordAt_modify_is_Some (t : EntityTable) id f j : is_Some (recordAt (modify t id f) j) <-> is_Some (recordAt t j).
Proof. rewrite recordAt_modify. destruct (decide _); [apply fmap_is_Some|done]. Qed.

Lemma liveIndices_modify (t : EntityTable) id f : liveIndices (modify t id f) = liveIndices t.
Proof.
  unfold liveIndices, indices. destruct (modify_frame t id f) as (_ & _ & _ & ->).
  apply list_filter_iff. intros i. apply recordAt_modify_is_Some.
Qed.

Lemma generationAt_modify (t : EntityTable) id f i : generationAt (modify t id f) i = generationAt t i.
Proof. unfold generationAt. by destruct (modify_frame t id f) as (-> & _). Qed.

Lemma core_modify (t : EntityTable) id f : core t -> core (modify t id f).
Proof.
  intros [Hl Hb Hg Hlg Hc]. destruct (modify_frame t id f) as (Eg & Ef & El & En). split.
  - by rewrite Eg, En.
  - unfold slotCount, arr_len in *. by rewrite En.
  - by rewrite Eg.
  - intros i. rewrite recordAt_modify_is_Some, generationAt_modify. apply Hlg.
  - by rewrite El, liveIndices_modify.
Qed.

Lemma wf_modify (t : EntityTable) id f : wf t -> wf (modify t id f).
Proof.
  intros [Hc Hf Hn]. destruct (modify_frame t id f) as (Eg & Ef & El & En). split; [by apply core_modify| |by rewrite Ef].
  intros i. rewrite Ef, Hf, generationAt_modify. unfold slotCount, arr_len. rewrite En.
  rewrite !eq_None_not_Some, recordAt_modify_is_Some. done.
Qed.

Lemma index_of_live (t : EntityTable) i id :
  core t -> is_Some (recordAt t i) -> SlotTable.indexOf t id = i <-> id = packHandle i (generationAt t i).
Proof.
  intros Hc [r Hr]. pose proof (recordAt_range _ _ _ Hr) as [Hi _]. rewrite (indexOf_spec t id i Hc Hi).
  split; [by intros (? & _ & ?)|]. intros Hid. by exists r.
Qed.

Lemma abs_modify (t : EntityTable) id f : core t -> abs (modify t id f) = alter f id (abs t).
Proof.
  intros Hc. assert (Hcm : core (modify t id f)) by by apply core_modify.
  apply map_eq. intros x. apply option_eq. intros s.
  rewrite abs_Some by done. setoid_rewrite generationAt_modify. setoid_rewrite recordAt_modify.
  destruct (decide (id = x)) as [<-|Hne].
  - rewrite lookup_alter_eq, abs_lookup, fmap_Some by done. setoid_rewrite (record_spec t id _ Hc). split.
    + intros (i & Hi & Hid). destruct (decide _) as [E|Hn].
      * apply fmap_Some in Hi as (r & Hr & ->). exists r. split; [|done]. by exists i.
      * exfalso. apply Hn. symmetry. apply index_of_live; [done|by exists s|done].
    + intros (r & (i & Hr & Hid) & ->). exists i. split; [|done]. rewrite Hr.
      rewrite decide_True; [done|]. symmetry. apply index_of_live; [done|by exists r|done].
  - rewrite lookup_alter_ne, abs_Some by done. apply exist_proper. intros i. destruct (decide _) as [E|]; [|done].
    assert (Hno : is_Some (recordAt t i) -> x <> packHandle i (generationAt t i)).
    { intros Hs Hx. apply Hne. symmetry in E. apply (index_of_live t i id Hc Hs) in E. congruence. }
    split; intros [Hr Hx]; exfalso; (apply Hno; [|exact Hx]); [|by exists s].
    apply fmap_Some in Hr as (r & Hr & _). by exists r.
Qed.

Lemma record_abs (t : EntityTable) id : core t -> record t id = abs t !! id.
Proof. intros Hc. by rewrite abs_lookup. Qed.

(** ** The forest *)

Abbreviation emap := (gmap EntityId EntityRecord).

(** The ancestors of an id, itself first, up to a root. *)
Inductive rooted (m : emap) : EntityId -> list EntityId -> Prop :=
  | rooted_root : rooted m NONE []
  | rooted_step id r l : m !! id = Some r -> rooted m (parent r) l -> rooted m id (id :: l).

Definition child_of (m : emap) (p c : EntityId) : Prop := exists r, m !! p = Some r /\ c ∈ children r.

Definition alive_in (m : emap) (id : EntityId) : Prop := exists r, m !! id = Some r /\ alive r = true.

(** [dead] are the ids queued for destruction. *)
Record tree_ok (m : emap) (dead : list EntityId) : Prop := {
  tk_null : m !! NONE = None;
  tk_up id r : m !! id = Some r -> parent r <> NONE -> child_of m (parent r) id;
  tk_down p c : child_of m p c -> exists rc, m !! c = Some rc /\ parent rc = p;
  tk_nodup p r : m !! p = Some r -> NoDup (children r);
  tk_rooted id : is_Some (m !! id) -> exists l, rooted m id l;
  tk_queue : NoDup dead;
  tk_dead id : id ∈ dead <-> exists r, m !! id = Some r /\ alive r = false;
}.

(** A set of ids closed under children. *)
Definition closed (m : emap) (d : list EntityId) : Prop := forall p c, p ∈ d -> child_of m p c -> c ∈ d.

Lemma rooted_inv m id l :
  rooted m id l -> (id = NONE /\ l = []) \/ exists r l', l = id :: l' /\ m !! id = Some r /\ rooted m (parent r) l'.
Proof. intros []; [by left|right]. eauto. Qed.

Lemma rooted_det m id l l' : m !! NONE = None -> rooted m id l -> rooted m id l' -> l = l'.
Proof.
  intros Hn Hl. revert l'. induction Hl as [|id r l Hr Hl IH]; intros l' Hl'; inversion Hl'; subst; try congruence.
  f_equal. apply IH. congruence.
Qed.

Lemma rooted_suffix m id l x :
  rooted m id l -> x ∈ l -> exists l1 l2, l = l1 ++ l2 /\ rooted m x l2.
Proof.
  induction 1 as [|id r l Hr Hl IH]; intros Hx; [by apply not_elem_of_nil in Hx|].
  apply elem_of_cons in Hx as [->|Hx].
  - exists [], (id :: l). split; [done|]. by apply (rooted_step m id r).
  - destruct (IH Hx) as (l1 & l2 & -> & H2). exists (id :: l1), l2. by split.
Qed.

(** No id is its own ancestor. *)
Lemma rooted_NoDup m id l : m !! NONE = None -> rooted m id l -> NoDup l.
Proof.
  intros Hn. induction 1 as [|id r l Hr Hl IH]; [constructor|]. constructor; [|done]. intros Hin.
  destruct (rooted_suffix m _ l id Hl Hin) as (l1 & l2 & -> & H2).
  pose proof (rooted_step m id r _ Hr Hl) as H1. pose proof (rooted_det m id _ _ Hn H1 H2) as E.
  apply (f_equal length) in E. simpl in E. rewrite length_app in E. lia.
Qed.

Lemma rooted_dom m id l : rooted m id l -> forall x, x ∈ l -> is_Some (m !! x).
Proof.
  induction 1 as [|id r l Hr Hl IH]; intros x Hx; [by apply not_elem_of_nil in Hx|].
  apply elem_of_cons in Hx as [->|Hx]; [by exists r|auto].
Qed.

Lemma rooted_length m id l : m !! NONE = None -> rooted m id l -> (length l <= size m)%nat.
Proof.
  intros Hn Hl. rewrite <- (size_dom (D := gset EntityId)), <- (size_list_to_set (C := gset EntityId) l) by by apply (rooted_NoDup m id).
  apply subseteq_size. intros x Hx. apply elem_of_list_to_set in Hx. apply elem_of_dom. by apply (rooted_dom m id l).
Qed.

(** The walk of [attachTo] meets exactly the ancestors. *)
Lemma ancestor_meets_spec fuel t at_ l id :
  core t -> abs t !! NONE = None -> rooted (abs t) at_ l -> (length l < fuel)%nat -> id <> NONE ->
  ancestor_meets fuel t at_ id = true <-> id ∈ l.
Proof.
  intros Hc Hn. revert at_ l. induction fuel as [|fuel IH]; intros at_ l Hl Hlen Hid; [lia|].
  cbn [ancestor_meets]. inversion Hl as [|x r l' Hr Hl']; subst.
  - rewrite Z.eqb_refl. split; [done|]. by intros ?%not_elem_of_nil.
  - destruct (at_ =? NONE) eqn:E0; bool_facts; [subst; congruence|].
    destruct (at_ =? id) eqn:E; bool_facts.
    + subst. split; [left|done].
    + rewrite record_abs, Hr by done. rewrite (IH _ l') by (done || simpl in Hlen; lia).
      rewrite elem_of_cons. split; [by right|]. by intros [?|?].
Qed.

Lemma walk_fuel_enough t : wf t -> (size (abs t) < walk_fuel t)%nat.
Proof.
  intros Hwf. unfold walk_fuel. pose proof (size_abs t (wf_core t Hwf)) as Hs. unfold SlotTable.liveCount in Hs.
  rewrite (wf_count t (wf_core t Hwf)) in Hs. unfold liveIndices in Hs.
  pose proof (length_filter (fun i => is_Some (recordAt t i)) (indices (records t))) as Hf.
  unfold indices in Hf at 2. rewrite length_fmap, length_seq in Hf. lia.
Qed.

(** Changing the parent of [id] only. *)
Lemma rooted_keep (m m' : emap) id x l :
  (forall y r, m !! y = Some r -> y <> id -> exists r', m' !! y = Some r' /\ parent r' = parent r) ->
  rooted m x l -> id ∉ l -> rooted m' x l.
Proof.
  intros Hsame. induction 1 as [|x r l Hr Hl IH]; intros Hid; [constructor|]. apply not_elem_of_cons in Hid as [Hne Hid].
  destruct (Hsame x r Hr) as (r' & Hr' & Hp); [congruence|]. apply (rooted_step m' x r'); [done|]. rewrite Hp. auto.
Qed.

Lemma rooted_relink (m m' : emap) id rid lp x l :
  (forall y r, m !! y = Some r -> y <> id -> exists r', m' !! y = Some r' /\ parent r' = parent r) ->
  m' !! id = Some rid -> rooted m' (parent rid) lp -> rooted m x l -> exists l', rooted m' x l'.
Proof.
  intros Hsame Hid Hlp. induction 1 as [|x r l Hr Hl [l' IH]]; [exists []; constructor|].
  destruct (decide (x = id)) as [->|Hne].
  - exists (id :: lp). by apply (rooted_step m' id rid).
  - destruct (Hsame x r Hr Hne) as (r' & Hr' & Hp). exists (x :: l'). apply (rooted_step m' x r'); [done|]. by rewrite Hp.
Qed.

Lemma splice_out_filter id l : NoDup l -> splice_out id l = filter (fun x => x <> id) l.
Proof.
  induction l as [|x l IH]; intros Hn; [done|]. apply NoDup_cons in Hn as [Hx Hn]. simpl. rewrite filter_cons.
  destruct (x =? id) eqn:E; bool_facts.
  - subst. rewrite decide_False by tauto. symmetry. apply filter_true. intros y Hy ->. done.
  - rewrite decide_True by done. by rewrite IH.
Qed.

Lemma elem_of_splice_out id l x : NoDup l -> x ∈ splice_out id l <-> x ∈ l /\ x <> id.
Proof. intros Hn. rewrite splice_out_filter, list_elem_of_filter by done. tauto. Qed.

Lemma NoDup_splice_out id l : NoDup l -> NoDup (splice_out id l).
Proof. intros Hn. rewrite splice_out_filter by done. by apply NoDup_filter. Qed.

(** *** Unlinking *)

Definition m_unlink (m : emap) (id : EntityId) (p : EntityId) : emap :=
  alter (set_parent NONE) id (alter (fun r => set_children (splice_out id (children r)) r) p m).

Lemma abs_unlink t id : wf t ->
  wf (unlink t id).1 /\
  abs (unlink t id).1 = match abs t !! id with
                        | Some r => if parent r =? NONE then abs t else m_unlink (abs t) id (parent r)
                        | None => abs t
                        end.
Proof.
  intros Hwf. unfold unlink. rewrite record_abs by apply Hwf. destruct (abs t !! id) as [r|]; [|done].
  destruct (parent r =? NONE); [done|]. simpl.
  split; [by apply wf_modify, wf_modify|]. by rewrite !abs_modify by (apply core_modify, Hwf || apply Hwf).
Qed.

Lemma lookup_m_unlink m id p x :
  id <> p -> m_unlink m id p !! x =
    if decide (x = id) then set_parent NONE <$> m !! id
    else if decide (x = p) then (fun r => set_children (splice_out id (children r)) r) <$> m !! p
    else m !! x.
Proof.
  intros Hne. unfold m_unlink. destruct (decide (x = id)) as [->|Hx].
  - by rewrite lookup_alter_eq, lookup_alter_ne.
  - rewrite lookup_alter_ne by done. destruct (decide (x = p)) as [->|Hp].
    + by rewrite lookup_alter_eq.
    + by rewrite lookup_alter_ne.
Qed.

Lemma own_parent m dead id r : tree_ok m dead -> m !! id = Some r -> parent r <> id.
Proof.
  intros Hok Hr Hp. destruct (tk_rooted _ _ Hok id) as [l Hl]; [by exists r|].
  pose proof (rooted_NoDup m id l (tk_null _ _ Hok) Hl) as Hn.
  apply rooted_inv in Hl as [[-> _]|(r' & l' & -> & Hr' & Hl')].
  - pose proof (tk_null _ _ Hok). congruence.
  - rewrite Hr in Hr'. injection Hr' as <-. rewrite Hp in Hl'. apply NoDup_cons in Hn as [Hn _]. apply Hn.
    apply rooted_inv in Hl' as [[-> _]|(? & ? & -> & _)]; [|left]. pose proof (tk_null _ _ Hok). congruence.
Qed.

Lemma tree_unlink m dead id r :
  tree_ok m dead -> m !! id = Some r -> parent r <> NONE -> tree_ok (m_unlink m id (parent r)) dead.
Proof.
  intros Hok Hr Hp. pose proof (own_parent m dead id r Hok Hr) as Hself.
  assert (Hlk := lookup_m_unlink m id (parent r)). specialize (fun x => Hlk x (not_eq_sym Hself)).
  destruct (tk_up _ _ Hok id r Hr Hp) as (rp & Hrp & Hin).
  assert (Hnd : NoDup (children rp)) by by apply (tk_nodup _ _ Hok (parent r)).
  assert (Hch : forall p c, child_of (m_unlink m id (parent r)) p c <-> child_of m p c /\ c <> id).
  { intros p c. unfold child_of. rewrite Hlk. destruct (decide (p = id)) as [->|Hpi].
    - rewrite Hr. simpl. split.
      + intros (q & [= <-] & Hc). split; [by exists r|]. intros ->. simpl in Hc.
        destruct (tk_down _ _ Hok id id) as (rc & Hrc & E); [by exists r|]. rewrite Hr in Hrc. congruence.
      + intros [(q & [= <-] & Hc) _]. exists (set_parent NONE r). by split.
    - destruct (decide (p = parent r)) as [->|Hpp].
      + rewrite Hrp. simpl. split.
        * intros (q & [= <-] & Hc). simpl in Hc. apply elem_of_splice_out in Hc as [Hc Hne]; [|done].
          split; [by exists rp|done].
        * intros [(q & [= <-] & Hc) Hne]. eexists. split; [done|]. simpl. by apply elem_of_splice_out.
      + split; [|tauto]. intros (q & Hq & Hc). split; [by exists q|]. intros ->.
        destruct (tk_down _ _ Hok p id) as (rc & Hrc & E); [by exists q|]. congruence. }
  split.
  - rewrite Hlk. pose proof (tk_null _ _ Hok) as Hnull.
    rewrite !decide_False by congruence. done.
  - intros x rx. rewrite Hlk. destruct (decide (x = id)) as [->|Hx].
    + rewrite Hr. intros [= <-]. done.
    + intros Hrx Hpx. apply Hch. split; [|done]. destruct (decide (x = parent r)) as [->|Hxp].
      * rewrite Hrp in Hrx. injection Hrx as <-. simpl in *. by apply (tk_up _ _ Hok).
      * by apply (tk_up _ _ Hok).
  - intros p c Hpc. apply Hch in Hpc as [Hpc Hne]. destruct (tk_down _ _ Hok p c Hpc) as (rc & Hrc & E).
    rewrite Hlk. rewrite decide_False by done. destruct (decide (c = parent r)) as [->|]; [|by exists rc].
    rewrite Hrp in Hrc. injection Hrc as <-. rewrite Hrp. eexists. by split.
  - intros p rp'. rewrite Hlk. destruct (decide (p = id)) as [->|].
    + rewrite Hr. intros [= <-]. simpl. by apply (tk_nodup _ _ Hok id).
    + destruct (decide (p = parent r)) as [->|]; [|apply (tk_nodup _ _ Hok)].
      rewrite Hrp. intros [= <-]. simpl. by apply NoDup_splice_out.
  - intros x Hx. assert (Hx' : is_Some (m !! x)).
    { rewrite Hlk in Hx. destruct (decide (x = id)) as [->|]; [by exists r|].
      destruct (decide (x = parent r)) as [->|]; [by exists rp|done]. }
    destruct (tk_rooted _ _ Hok x Hx') as [l Hl].
    apply (rooted_relink m _ id (set_parent NONE r) [] x l); [|by rewrite Hlk, decide_True, Hr by done|constructor|done].
    intros y ry Hy Hne. rewrite Hlk, decide_False by done. destruct (decide (y = parent r)) as [->|]; [|by exists ry].
    rewrite Hrp in Hy. injection Hy as <-. rewrite Hrp. eexists. by split.
  - apply Hok.
  - intros x. rewrite (tk_dead _ _ Hok), Hlk. destruct (decide (x = id)) as [->|].
    + rewrite Hr. split; intros (q & [= <-] & Ha); eexists; (split; [done|]); done.
    + destruct (decide (x = parent r)) as [->|]; [|done]. rewrite Hrp.
      split; intros (q & [= <-] & Ha); eexists; (split; [done|]); done.
Qed.

(** *** Attaching *)

Definition m_link (m : emap) (id to : EntityId) : emap :=
  alter (fun r => set_children (children r ++ [id]) r) to (alter (set_parent to) id m).

Lemma tree_link m dead id to r rto l :
  tree_ok m dead -> m !! id = Some r -> parent r = NONE -> m !! to = Some rto -> rooted m to l -> id ∉ l ->
  tree_ok (m_link m id to) dead.
Proof.
  intros Hok Hr Hp Hto Hl Hid.
  assert (Hne : id <> to).
  { intros <-. apply Hid. apply rooted_inv in Hl as [[-> _]|(? & ? & -> & _)]; [|left].
    pose proof (tk_null _ _ Hok). congruence. }
  assert (Hlk : forall x, m_link m id to !! x =
    if decide (x = id) then Some (set_parent to r)
    else if decide (x = to) then Some (set_children (children rto ++ [id]) rto) else m !! x).
  { intros x. unfold m_link. destruct (decide (x = id)) as [->|Hx].
    - rewrite lookup_alter_ne, lookup_alter_eq, Hr by done. done.
    - destruct (decide (x = to)) as [->|Hxt].
      + by rewrite lookup_alter_eq, lookup_alter_ne, Hto by done.
      + by rewrite !lookup_alter_ne by done. }
  assert (Hnew : forall p, ~ child_of m p id).
  { intros p Hpc. destruct (tk_down _ _ Hok p id Hpc) as (rc & Hrc & E). rewrite Hr in Hrc. injection Hrc as <-.
    destruct Hpc as (rp & Hrp & _). pose proof (tk_null _ _ Hok). congruence. }
  assert (Hch : forall p c, child_of (m_link m id to) p c <-> child_of m p c \/ (p = to /\ c = id)).
  { intros p c. unfold child_of. rewrite Hlk. destruct (decide (p = id)) as [->|Hpi].
    - split.
      + intros (q & [= <-] & Hc). left. by exists r.
      + intros [(q & Hq & Hc)|[-> _]]; [|done]. rewrite Hr in Hq. injection Hq as <-. eexists. by split.
    - destruct (decide (p = to)) as [->|Hpp].
      + rewrite Hto. split.
        * intros (q & [= <-] & Hc). simpl in Hc. apply elem_of_app in Hc as [Hc|Hc].
          -- left. by exists rto.
          -- apply list_elem_of_singleton in Hc. by right.
        * intros [(q & [= <-] & Hc)|[_ ->]]; eexists; (split; [done|]); simpl; apply elem_of_app; [by left|right; left].
      + split; [by left|]. intros [?|[-> _]]; done. }
  split.
  - rewrite Hlk. pose proof (tk_null _ _ Hok). rewrite !decide_False by congruence. done.
  - intros x rx. rewrite Hlk. destruct (decide (x = id)) as [->|Hx].
    + intros [= <-] _. simpl. apply Hch. by right.
    + intros Hrx Hpx. apply Hch. left. destruct (decide (x = to)) as [->|Hxp].
      * injection Hrx as <-. simpl in *. by apply (tk_up _ _ Hok).
      * by apply (tk_up _ _ Hok).
  - intros p c [Hpc|[-> ->]]%Hch.
    + destruct (tk_down _ _ Hok p c Hpc) as (rc & Hrc & E). rewrite Hlk.
      destruct (decide (c = id)) as [->|]; [by apply Hnew in Hpc|].
      destruct (decide (c = to)) as [->|]; [|by exists rc].
      rewrite Hto in Hrc. injection Hrc as <-. eexists. by split.
    + rewrite Hlk, decide_True by done. eexists. by split.
  - intros p rp. rewrite Hlk. destruct (decide (p = id)) as [->|].
    + intros [= <-]. simpl. by apply (tk_nodup _ _ Hok id).
    + destruct (decide (p = to)) as [->|]; [|apply (tk_nodup _ _ Hok)].
      intros [= <-]. simpl. apply NoDup_snoc. split; [by apply (tk_nodup _ _ Hok to)|].
      intros Hc. apply (Hnew to). by exists rto.
  - intros x Hx. assert (Hx' : is_Some (m !! x)).
    { rewrite Hlk in Hx. destruct (decide (x = id)) as [->|]; [by exists r|].
      destruct (decide (x = to)) as [->|]; [by exists rto|done]. }
    assert (Hsame : forall y ry, m !! y = Some ry -> y <> id -> exists r', m_link m id to !! y = Some r' /\ parent r' = parent ry).
    { intros y ry Hy Hyne. rewrite Hlk, decide_False by done. destruct (decide (y = to)) as [->|]; [|by exists ry].
      rewrite Hto in Hy. injection Hy as <-. eexists. by split. }
    destruct (tk_rooted _ _ Hok x Hx') as [lx Hlx].
    apply (rooted_relink m _ id (set_parent to r) l x lx Hsame); [by rewrite Hlk, decide_True by done| |done].
    by apply (rooted_keep m _ id).
  - apply Hok.
  - intros x. rewrite (tk_dead _ _ Hok), Hlk. destruct (decide (x = id)) as [->|].
    + rewrite Hr. split; intros (q & [= <-] & Ha); eexists; (split; [done|]); done.
    + destruct (decide (x = to)) as [->|]; [|done]. rewrite Hto.
      split; intros (q & [= <-] & Ha); eexists; (split; [done|]); done.
Qed.

(** *** Spawning *)

Lemma tree_spawn m dead id tmpl owner :
  tree_ok m dead -> m !! id = None -> id <> NONE -> tree_ok (<[id := MkEntity tmpl owner NONE [] true false]> m) dead.
Proof.
  intros Hok Hnone Hne. set (r0 := MkEntity tmpl owner NONE [] true false).
  assert (Hch : forall p c, child_of (<[id := r0]> m) p c <-> child_of m p c).
  { intros p c. unfold child_of. destruct (decide (p = id)) as [->|].
    - rewrite lookup_insert_eq, Hnone. split; [|by intros (? & ? & _)]. intros (? & [= <-] & Hc). by apply not_elem_of_nil in Hc.
    - by rewrite lookup_insert_ne. }
  split.
  - rewrite lookup_insert_ne by done. apply Hok.
  - intros x rx Hx Hp. apply Hch. apply lookup_insert_Some in Hx as [[<- <-]|[_ Hx]]; [done|]. by apply (tk_up _ _ Hok).
  - intros p c Hpc. apply Hch in Hpc. destruct (tk_down _ _ Hok p c Hpc) as (rc & Hrc & E). exists rc.
    split; [|done]. rewrite lookup_insert_ne; [done|]. congruence.
  - intros p rp Hp. apply lookup_insert_Some in Hp as [[<- <-]|[_ Hp]]; [constructor|]. by apply (tk_nodup _ _ Hok p).
  - intros x [rx Hx]. apply lookup_insert_Some in Hx as [[<- <-]|[Hxne Hx]].
    + exists [id]. apply (rooted_step _ id r0); [apply lookup_insert_eq|constructor].
    + destruct (tk_rooted _ _ Hok x) as [l Hl]; [by exists rx|]. exists l.
      apply (rooted_keep m _ id); [|done|].
      * intros y ry Hy Hyne. exists ry. by rewrite lookup_insert_ne.
      * intros Hin. destruct (rooted_dom m x l Hl id Hin) as [? ?]. congruence.
  - apply Hok.
  - intros x. rewrite (tk_dead _ _ Hok). split; intros (rx & Hx & Ha).
    + exists rx. split; [|done]. rewrite lookup_insert_ne; [done|]. congruence.
    + apply lookup_insert_Some in Hx as [[<- <-]|[_ Hx]]; [done|]. by exists rx.
Qed.

(** ** The destroy cascade *)

(** What a cascade that doomed [l] did to the records and the queue. *)
Record cascade (m m' : emap) (q q' l : list EntityId) : Prop := {
  cs_queue : q' = q ++ l;
  cs_nodup : NoDup l;
  cs_alive x : x ∈ l -> alive_in m x;
  cs_map x : m' !! x = if decide (x ∈ l) then doom <$> m !! x else m !! x;
}.

Lemma cascade_nil m q : cascade m m q q [].
Proof.
  split; [by rewrite app_nil_r|constructor|by intros x ?%not_elem_of_nil|].
  intros x. by rewrite decide_False by apply not_elem_of_nil.
Qed.

Lemma cascade_alive m m' q q' l x : cascade m m' q q' l -> alive_in m' x <-> alive_in m x /\ (x ∉ l).
Proof.
  intros Hc. unfold alive_in. rewrite (cs_map _ _ _ _ _ Hc). destruct (decide (x ∈ l)) as [Hx|Hx].
  - split; [|tauto]. intros (r & Hr & Ha). apply fmap_Some in Hr as (r' & _ & ->). done.
  - tauto.
Qed.

Lemma cascade_child m m' q q' l p c : cascade m m' q q' l -> child_of m' p c <-> child_of m p c.
Proof.
  intros Hc. unfold child_of. rewrite (cs_map _ _ _ _ _ Hc). destruct (decide (p ∈ l)); [|done]. split.
  - intros (r & Hr & Hin). apply fmap_Some in Hr as (r' & Hr' & ->). by exists r'.
  - intros (r & Hr & Hin). exists (doom r). by rewrite Hr.
Qed.

Lemma cascade_trans m m1 m2 q q1 q2 l1 l2 :
  cascade m m1 q q1 l1 -> cascade m1 m2 q1 q2 l2 -> cascade m m2 q q2 (l1 ++ l2).
Proof.
  intros H1 H2. assert (Hd : forall x, x ∈ l2 -> x ∉ l1).
  { intros x Hx. by apply (cs_alive _ _ _ _ _ H2), (cascade_alive _ _ _ _ _ x H1) in Hx as [_ ?]. }
  split.
  - rewrite (cs_queue _ _ _ _ _ H2), (cs_queue _ _ _ _ _ H1). by rewrite <- app_assoc.
  - apply NoDup_app. split; [apply H1|]. split; [|apply H2]. intros x Hx Hx2. by apply (Hd x Hx2).
  - intros x Hx. apply elem_of_app in Hx as [Hx|Hx]; [by apply H1|].
    by apply (cs_alive _ _ _ _ _ H2), (cascade_alive _ _ _ _ _ x H1) in Hx as [? _].
  - intros x. rewrite (cs_map _ _ _ _ _ H2), (cs_map _ _ _ _ _ H1).
    destruct (decide (x ∈ l2)) as [Hx2|Hx2], (decide (x ∈ l1)) as [Hx1|Hx1].
    + by destruct (Hd x Hx2).
    + rewrite decide_True; [done|]. apply elem_of_app. by right.
    + rewrite decide_True; [done|]. apply elem_of_app. by left.
    + rewrite decide_False; [done|]. by intros [?|?]%elem_of_app.
Qed.

Lemma cascade_doom m q id : alive_in m id -> cascade m (alter doom id m) q (q ++ [id]) [id].
Proof.
  intros Ha. split; [done|apply NoDup_singleton|by intros x ->%list_elem_of_singleton|].
  intros x. destruct (decide (x ∈ [id])) as [->%list_elem_of_singleton|Hx]; [apply lookup_alter_eq|].
  rewrite list_elem_of_singleton in Hx. by rewrite lookup_alter_ne by congruence.
Qed.

Definition living (m : emap) : gset EntityId := dom (filter (fun e => alive e.2 = true) m).

Lemma elem_of_living m x : x ∈ living m <-> alive_in m x.
Proof.
  unfold living, alive_in. rewrite elem_of_dom. split.
  - intros [r Hr]. apply map_lookup_filter_Some in Hr as [Hr Ha]. by exists r.
  - intros (r & Hr & Ha). exists r. by apply map_lookup_filter_Some.
Qed.

Lemma cascade_living m m' q q' l : cascade m m' q q' l -> (size (living m') <= size (living m) - length l)%nat.
Proof.
  intros Hc. assert (Hsub : living m' ⊆ living m ∖ list_to_set l).
  { intros x. rewrite elem_of_difference, !elem_of_living, elem_of_list_to_set. apply (cascade_alive _ _ _ _ _ x Hc). }
  apply subseteq_size in Hsub. rewrite size_difference in Hsub.
  - rewrite size_list_to_set in Hsub by apply Hc. done.
  - intros x Hx. apply elem_of_list_to_set in Hx. apply elem_of_living. by apply Hc.
Qed.

(** A call of [destroy_in] that dooms [l]: the target is dead, every child of what was
    doomed is dead, and what was doomed is below the target. *)
Definition destroys (t : EntityTable) (q : list EntityId) (id : EntityId) (s : EntityTable * list EntityId) : Prop :=
  wf s.1 /\ exists l, cascade (abs t) (abs s.1) q s.2 l /\ ~ alive_in (abs s.1) id
    /\ (forall x c, x ∈ l -> child_of (abs t) x c -> ~ alive_in (abs s.1) c)
    /\ (forall x, x ∈ l -> rtc (child_of (abs t)) id x).

(** The loop over [cs], children of [id]: [s] is the state [l] was doomed in so far. *)
Lemma destroy_children n t q id :
  (forall ts qs c, wf ts -> (size (living (abs ts)) < n)%nat -> destroys ts qs c (destroy_in n (ts, qs) c)) ->
  (size (living (abs t)) <= n)%nat ->
  forall cs s l,
    (forall c, c ∈ cs -> child_of (abs t) id c) ->
    wf s.1 -> cascade (abs t) (abs s.1) q s.2 l -> id ∈ l ->
    (forall x c, x ∈ l -> x <> id -> child_of (abs t) x c -> ~ alive_in (abs s.1) c) ->
    (forall x, x ∈ l -> rtc (child_of (abs t)) id x) ->
    let s' := foldl (destroy_in n) s cs in
    wf s'.1 /\ exists l', cascade (abs t) (abs s'.1) q s'.2 (l ++ l')
      /\ (forall x c, x ∈ l ++ l' -> x <> id -> child_of (abs t) x c -> ~ alive_in (abs s'.1) c)
      /\ (forall c, c ∈ cs -> ~ alive_in (abs s'.1) c)
      /\ (forall x, x ∈ l ++ l' -> rtc (child_of (abs t)) id x).
Proof.
  intros IHn Hn. induction cs as [|c cs IHcs]; intros s l Hcs Hw Hc Hid Hcl Hr; cbn [foldl].
  { split; [done|]. exists []. rewrite app_nil_r. split; [done|]. split; [done|].
    split; [by intros c ?%not_elem_of_nil|done]. }
  pose proof (cascade_living _ _ _ _ _ Hc) as Hls.
  assert (Hlen : (1 <= length l)%nat) by (destruct l; [by apply not_elem_of_nil in Hid|simpl; lia]).
  assert (Hpos : (0 < size (living (abs t)))%nat).
  { pose proof (cs_alive _ _ _ _ _ Hc id Hid) as Hal. apply elem_of_living in Hal.
    destruct (decide (size (living (abs t)) = 0)%nat) as [E|]; [|lia]. apply size_empty_inv in E. set_solver. }
  destruct s as [ts qs]. cbn [fst snd] in *.
  destruct (IHn ts qs c Hw ltac:(lia)) as (Hw2 & l2 & Hc2 & Hc2dead & Hcl2 & Hr2).
  set (s2 := destroy_in n (ts, qs) c) in *.
  pose proof (cascade_trans _ _ _ _ _ _ _ _ Hc Hc2) as Hc12.
  assert (Hkeep : forall y, ~ alive_in (abs ts) y -> ~ alive_in (abs s2.1) y).
  { intros y Hy Hal. apply Hy. by apply (cascade_alive _ _ _ _ _ y Hc2) in Hal as [? _]. }
  destruct (IHcs s2 (l ++ l2)) as (Hw3 & l3 & Hc3 & Hcl3 & Hd3 & Hr3).
  - intros x Hx. apply Hcs. by right.
  - done.
  - done.
  - apply elem_of_app. by left.
  - intros x y Hx Hne Hxy. apply elem_of_app in Hx as [Hx|Hx].
    + apply Hkeep. by apply (Hcl x).
    + apply (Hcl2 x); [done|]. by apply (cascade_child _ _ _ _ _ x y Hc).
  - intros x Hx. apply elem_of_app in Hx as [Hx|Hx]; [by apply Hr|].
    apply (rtc_l _ _ c); [apply Hcs; left|]. eapply rtc_subrel; [|by apply Hr2].
    intros a b. apply (cascade_child _ _ _ _ _ a b Hc).
  - split; [done|]. exists (l2 ++ l3). rewrite app_assoc. split; [done|]. split; [done|]. split; [|done].
    intros y Hy. apply elem_of_cons in Hy as [->|Hy]; [|by apply Hd3].
    intros Hal. apply (cascade_alive _ _ _ _ _ c Hc3) in Hal as [Hal Hn3].
    apply Hc2dead. apply (cascade_alive _ _ _ _ _ c Hc12). split; [done|].
    intros Hin. apply Hn3. apply elem_of_app. by left.
Qed.

Lemma destroys_nothing t q id : wf t -> ~ alive_in (abs t) id -> destroys t q id (t, q).
Proof.
  intros Hwf Hal. split; [done|]. exists []. split; [apply cascade_nil|]. split; [done|].
  split; [intros x c Hx|intros x Hx]; by apply not_elem_of_nil in Hx.
Qed.

Lemma destroy_in_spec n : forall t q id,
  wf t -> (size (living (abs t)) < n)%nat -> destroys t q id (destroy_in n (t, q) id).
Proof.
  induction n as [|n IHn]; intros t q id Hwf Hn; [lia|]. cbn [destroy_in fst snd]. rewrite record_abs by apply Hwf.
  destruct (abs t !! id) as [rec|] eqn:Hrec.
  2:{ apply destroys_nothing; [done|]. intros (r & Hr & _). congruence. }
  destruct (alive rec) eqn:Ha; simpl negb; cbv iota.
  2:{ apply destroys_nothing; [done|]. intros (r & Hr & Har). congruence. }
  assert (Hc1 : cascade (abs t) (abs (modify t id doom)) q (q ++ [id]) [id]).
  { rewrite abs_modify by apply Hwf. apply cascade_doom. by exists rec. }
  destruct (destroy_children n t q id IHn ltac:(lia) (children rec) (modify t id doom, q ++ [id]) [id])
    as (Hw' & l' & Hc' & Hcl & Hdead & Hr).
  - intros c Hc. by exists rec.
  - by apply wf_modify.
  - done.
  - left.
  - by intros x c ->%list_elem_of_singleton.
  - by intros x ->%list_elem_of_singleton.
  - split; [done|]. exists ([id] ++ l'). split; [done|]. split; [|split; [|done]].
    + intros Hal. apply (cascade_alive _ _ _ _ _ id Hc') in Hal as [_ Hal]. apply Hal. left.
    + intros x c Hx Hxc. destruct (decide (x = id)) as [->|Hne]; [|by apply (Hcl x)].
      apply Hdead. destruct Hxc as (r & Hr' & Hin). congruence.
Qed.

Lemma destroy_fuel t q id : wf t -> destroys t q id (destroy (t, q) id).
Proof.
  intros Hwf. apply destroy_in_spec; [done|]. pose proof (walk_fuel_enough t Hwf) as Hf.
  assert (Hs : living (abs t) ⊆ dom (abs t)).
  { intros x Hx. apply elem_of_living in Hx as (r & Hr & _). apply elem_of_dom. by exists r. }
  apply subseteq_size in Hs. rewrite size_dom in Hs. cbn [fst]. lia.
Qed.

Lemma tree_cascade m m' q q' l : tree_ok m q -> cascade m m' q q' l -> tree_ok m' q'.
Proof.
  intros Hok Hc. pose proof (cs_map _ _ _ _ _ Hc) as Hm.
  assert (Hfw : forall x r, m !! x = Some r -> exists r', m' !! x = Some r' /\ parent r' = parent r /\ children r' = children r).
  { intros x r Hr. rewrite Hm, Hr. destruct (decide _); eexists; (split; [done|]); by split. }
  assert (Hbw : forall x r, m' !! x = Some r -> exists r', m !! x = Some r' /\ parent r' = parent r /\ children r' = children r).
  { intros x r. rewrite Hm. destruct (decide _); [|by exists r]. intros Hr. apply fmap_Some in Hr as (r' & Hr' & ->).
    by exists r'. }
  split.
  - rewrite Hm, (tk_null _ _ Hok). by destruct (decide _).
  - intros x r Hr Hp. destruct (Hbw x r Hr) as (r' & Hr' & Ep & _). rewrite <- Ep in *.
    apply (cascade_child _ _ _ _ _ _ _ Hc). by apply (tk_up _ _ Hok).
  - intros p c Hpc. apply (cascade_child _ _ _ _ _ _ _ Hc) in Hpc. destruct (tk_down _ _ Hok p c Hpc) as (rc & Hrc & E).
    destruct (Hfw c rc Hrc) as (r' & Hr' & Ep & _). exists r'. split; [done|congruence].
  - intros p r Hr. destruct (Hbw p r Hr) as (r' & Hr' & _ & Ec). rewrite <- Ec. by apply (tk_nodup _ _ Hok p).
  - intros x [r Hr]. destruct (Hbw x r Hr) as (r' & Hr' & _). destruct (tk_rooted _ _ Hok x) as [lx Hlx]; [by exists r'|].
    exists lx. apply (rooted_keep m m' NONE); [|done|].
    + intros y ry Hy _. destruct (Hfw y ry Hy) as (ry' & Hry' & Ep & _). by exists ry'.
    + intros Hin. destruct (rooted_dom m x lx Hlx NONE Hin) as [? Hn]. by rewrite (tk_null _ _ Hok) in Hn.
  - rewrite (cs_queue _ _ _ _ _ Hc). apply NoDup_app. split; [apply Hok|]. split; [|apply Hc].
    intros x Hx Hxl. apply (tk_dead _ _ Hok) in Hx as (r & Hr & Ha).
    apply Hc in Hxl as (r' & Hr' & Ha'). congruence.
  - intros x. rewrite (cs_queue _ _ _ _ _ Hc), elem_of_app, (tk_dead _ _ Hok), Hm. destruct (decide (x ∈ l)) as [Hx|Hx].
    + split; [|by right]. intros _. apply Hc in Hx as (r & Hr & _). exists (doom r). by rewrite Hr.
    + split; [by intros [?|?]|by left].
Qed.

(** Below a dead id nothing lives. *)
Lemma dead_spreads m d id x :
  tree_ok m d -> closed m d -> ~ alive_in m id -> rtc (child_of m) id x -> alive_in m x -> is_Some (m !! id) -> False.
Proof.
  intros Hok Hcl Hdead Hr. revert Hdead. induction Hr as [y|y z x Hyz _ IH]; intros Hdead Hal Hy; [done|].
  assert (Hyd : y ∈ d).
  { destruct Hy as [ry Hry]. apply (tk_dead _ _ Hok). exists ry. split; [done|].
    destruct (alive ry) eqn:E; [|done]. exfalso. apply Hdead. by exists ry. }
  pose proof (Hcl y z Hyd Hyz) as Hz. apply (tk_dead _ _ Hok) in Hz as (rz & Hrz & Haz).
  apply IH; [|done|by exists rz]. intros (rz' & Hrz' & Haz'). congruence.
Qed.

(** What the cascade dooms: the live part of the target's subtree. *)
Lemma tree_destroy t q id :
  wf t -> tree_ok (abs t) q -> closed (abs t) q ->
  let s := destroy (t, q) id in
  wf s.1 /\ tree_ok (abs s.1) s.2 /\ closed (abs s.1) s.2
  /\ exists l, cascade (abs t) (abs s.1) q s.2 l
       /\ forall x, x ∈ l <-> alive_in (abs t) x /\ rtc (child_of (abs t)) id x.
Proof.
  intros Hwf Hok Hcl s. destruct (destroy_fuel t q id Hwf) as (Hw & l & Hc & Hdead & Hlc & Hr). fold s in Hw, Hc, Hdead, Hlc.
  assert (Hok' : tree_ok (abs s.1) s.2) by by apply (tree_cascade (abs t) (abs s.1) q s.2 l).
  assert (Hexist : forall p c, child_of (abs t) p c -> is_Some (abs s.1 !! c)).
  { intros p c Hpc. apply (cascade_child _ _ _ _ _ _ _ Hc) in Hpc. by destruct (tk_down _ _ Hok' p c Hpc) as (? & ? & _). }
  assert (Hnot : forall c, is_Some (abs s.1 !! c) -> ~ alive_in (abs s.1) c -> c ∈ s.2).
  { intros c [rc Hrc] Hal. apply (tk_dead _ _ Hok'). exists rc. split; [done|].
    destruct (alive rc) eqn:E; [|done]. exfalso. apply Hal. by exists rc. }
  assert (Hcl' : closed (abs s.1) s.2).
  { intros p c Hp Hpc. apply (cascade_child _ _ _ _ _ _ _ Hc) in Hpc. apply Hnot; [by apply (Hexist p)|].
    rewrite (cs_queue _ _ _ _ _ Hc) in Hp. apply elem_of_app in Hp as [Hp|Hp]; [|by apply (Hlc p)].
    intros Hal. apply (cascade_alive _ _ _ _ _ c Hc) in Hal as [(rc & Hrc & Ha) _].
    pose proof (Hcl p c Hp Hpc) as Hcq. apply (tk_dead _ _ Hok) in Hcq as (rc' & Hrc' & Ha'). congruence. }
  split; [done|]. split; [done|]. split; [done|]. exists l. split; [done|]. intros x. split.
  - intros Hx. split; [by apply Hc|by apply Hr].
  - intros [Hal Hreach]. destruct (decide (x ∈ l)) as [|Hx]; [done|]. exfalso.
    assert (Hal' : alive_in (abs s.1) x) by by apply (cascade_alive _ _ _ _ _ x Hc).
    apply (dead_spreads (abs s.1) s.2 id x Hok' Hcl' Hdead); [|done|].
    + eapply rtc_subrel; [|exact Hreach]. intros a b. apply (cascade_child _ _ _ _ _ _ _ Hc).
    + apply rtc_inv in Hreach as [<-|(y & Hy & _)]; [by destruct Hal' as (r & ? & _); exists r|].
      destruct Hy as (ry & Hry & _). rewrite (cs_map _ _ _ _ _ Hc), Hry. by destruct (decide _).
Qed.

(** ** Attaching and detaching, on tables *)

Lemma unlink_ok t dead id :
  wf t -> tree_ok (abs t) dead ->
  wf (unlink t id).1 /\ tree_ok (abs (unlink t id).1) dead
  /\ (forall p c, child_of (abs (unlink t id).1) p c -> child_of (abs t) p c)
  /\ (forall r, abs t !! id = Some r -> exists r', abs (unlink t id).1 !! id = Some r' /\ parent r' = NONE)
  /\ (forall x r, abs t !! x = Some r -> exists r', abs (unlink t id).1 !! x = Some r' /\ alive r' = alive r
        /\ (x <> id -> parent r' = parent r))
  /\ (is_Some (abs t !! id) -> forall x, child_of (abs (unlink t id).1) x id -> False).
Proof.
  intros Hwf Hok. destruct (abs_unlink t id Hwf) as [Hw Habs].
  destruct (abs t !! id) as [r|] eqn:Hr; [destruct (parent r =? NONE) eqn:Ep; bool_facts|]; rewrite Habs.
  - split; [done|]. split; [done|]. split; [done|]. split; [|split].
    + intros ? [= <-]. by exists r.
    + intros x rx Hx. by exists rx.
    + intros _ x Hx. destruct (tk_down _ _ Hok x id Hx) as (rc & Hrc & E). destruct Hx as (rx & Hx & _).
      pose proof (tk_null _ _ Hok). congruence.
  - pose proof (own_parent _ _ _ _ Hok Hr) as Hself.
    assert (Hlk := fun x => lookup_m_unlink (abs t) id (parent r) x (not_eq_sym Hself)).
    destruct (tk_up _ _ Hok id r Hr Ep) as (rp & Hrp & Hin).
    pose proof (tree_unlink _ _ _ _ Hok Hr Ep) as Hok'.
    assert (Hat : forall x rx, abs t !! x = Some rx -> exists r', m_unlink (abs t) id (parent r) !! x = Some r'
      /\ alive r' = alive rx /\ (x <> id -> parent r' = parent rx)).
    { intros x rx Hx. rewrite Hlk. destruct (decide (x = id)) as [->|].
      - rewrite Hx. eexists. split; [done|]. by split.
      - destruct (decide (x = parent r)) as [->|]; [|by exists rx]. rewrite Hx. eexists. by split. }
    split; [done|]. split; [done|]. split; [|split; [|split; [done|]]].
    + intros p c (q & Hq & Hc). rewrite Hlk in Hq. destruct (decide (p = id)) as [->|].
      * rewrite Hr in Hq. injection Hq as <-. by exists r.
      * destruct (decide (p = parent r)) as [->|]; [|by exists q]. rewrite Hrp in Hq. injection Hq as <-. simpl in Hc.
        exists rp. split; [done|]. apply elem_of_splice_out in Hc as [? _]; [done|]. by apply (tk_nodup _ _ Hok (parent r)).
    + intros ? [= <-]. exists (set_parent NONE r). split; [|done]. by rewrite Hlk, decide_True, Hr by done.
    + intros _ x Hx. destruct (tk_down _ _ Hok' x id Hx) as (rc & Hrc & E). rewrite Hlk, decide_True, Hr in Hrc by done.
      injection Hrc as <-. simpl in E. subst x. destruct Hx as (? & Hx & _). by rewrite (tk_null _ _ Hok') in Hx.
  - split; [done|]. split; [done|]. split; [done|]. split; [done|]. split; [by intros x rx Hx; exists rx|by intros [? ?]].
Qed.

Lemma attach_ok t dead id to :
  wf t -> tree_ok (abs t) dead ->
  wf (attachTo t id to).1 /\ tree_ok (abs (attachTo t id to).1) dead
  /\ (forall d, closed (abs t) d -> (forall x, x ∈ d -> x ∈ dead) -> closed (abs (attachTo t id to).1) d).
Proof.
  intros Hwf Hok. unfold attachTo. rewrite !record_abs by apply Hwf.
  destruct (abs t !! id) as [rec|] eqn:Hr; [|done]. destruct (abs t !! to) as [prec|] eqn:Hto; [|done].
  destruct (alive prec) eqn:Ha; simpl negb; cbv iota; [|done].
  destruct (tk_rooted _ _ Hok to) as [l Hl]; [by exists prec|].
  assert (Hid0 : id <> NONE) by (intros E; pose proof (tk_null _ _ Hok); congruence).
  pose proof (ancestor_meets_spec (walk_fuel t) t to l id (wf_core t Hwf) (tk_null _ _ Hok) Hl) as Hmeet.
  pose proof (rooted_length _ _ _ (tk_null _ _ Hok) Hl) as Hlen. pose proof (walk_fuel_enough t Hwf) as Hfuel.
  specialize (Hmeet ltac:(lia) Hid0).
  destruct (ancestor_meets _ t to id) eqn:Em; [done|].
  assert (Hnid : id ∉ l) by (intros Hin; by apply Hmeet in Hin).
  destruct (unlink_ok t dead id Hwf Hok) as (Hw1 & Hok1 & Hch1 & Hid1 & Hall1 & _).
  destruct (unlink t id) as [t1 b] eqn:Eu. cbn [fst] in *.
  assert (Hw2 : wf (modify t1 id (set_parent to))) by by apply wf_modify.
  destruct (Hid1 rec Hr) as (r1 & Hr1 & Hp1). destruct (Hall1 to prec Hto) as (rto1 & Hrto1 & Hato1 & _).
  assert (Habs : abs (modify (modify t1 id (set_parent to)) to (fun prec => set_children (children prec ++ [id]) prec))
                 = m_link (abs t1) id to).
  { rewrite !abs_modify by (apply Hw2 || apply Hw1). done. }
  split; [by apply wf_modify|]. rewrite Habs.
  assert (Hl1 : rooted (abs t1) to l).
  { apply (rooted_keep (abs t) _ id); [|done|done]. intros y ry Hy Hne.
    destruct (Hall1 y ry Hy) as (ry' & Hry' & _ & Hpy). exists ry'. auto. }
  split; [by apply (tree_link _ _ id to r1 rto1 l)|].
  intros d Hd Hsub p c Hp (q & Hq & Hc). unfold m_link in Hq. destruct (decide (p = to)) as [->|Hpt].
  - exfalso. specialize (Hsub _ Hp). apply (tk_dead _ _ Hok) in Hsub as (r & Hr' & Hda). congruence.
  - rewrite lookup_alter_ne in Hq by done. apply (Hd p); [done|]. apply Hch1.
    destruct (decide (p = id)) as [->|].
    + rewrite lookup_alter_eq, Hr1 in Hq. injection Hq as <-. by exists r1.
    + rewrite lookup_alter_ne in Hq by done. by exists q.
Qed.

(** ** The destroy drain's part of the table ([EntityManager.drainDestroyed]) *)

(** The doomed id leaves its parent's children, if the parent still exists. *)
Definition leave_parent (t : EntityTable) (id : EntityId) : EntityTable :=
  match record t id with
  | None => t
  | Some rec =>
      if parent rec =? NONE then t
      else
        match record t (parent rec) with
        | None => t
        | Some _ => modify t (parent rec) (fun prec => set_children (splice_out id (children prec)) prec)
        end
  end.

Definition drain_one (t : EntityTable) (id : EntityId) : EntityTable := release (leave_parent t id) id.

Lemma leave_parent_wf t id : wf t -> wf (leave_parent t id).
Proof.
  intros Hw. unfold leave_parent. destruct (record t id) as [r|]; [|done]. destruct (_ =? _); [done|].
  destruct (record t _); [|done]. by apply wf_modify.
Qed.

Lemma drain_one_wf t id : wf t -> wf (drain_one t id).
Proof. intros Hw. by apply release_wf, leave_parent_wf. Qed.

(** What is left of [m] once the ids of [d] are gone. *)
Definition pruned (m : emap) (d : list EntityId) (m' : emap) : Prop :=
  forall x, m' !! x = if decide (x ∈ d) then None
                      else (fun r => set_children (filter (fun c => c ∉ d) (children r)) r) <$> m !! x.

Lemma set_children_same r l : l = children r -> set_children l r = r.
Proof. intros ->. by destruct r. Qed.

Lemma pruned_nil m : pruned m [] m.
Proof.
  intros x. rewrite decide_False by apply not_elem_of_nil. destruct (m !! x) as [r|]; [|done]. simpl. f_equal.
  symmetry. apply set_children_same. apply filter_true. intros c _. apply not_elem_of_nil.
Qed.

Lemma filter_snoc_notin (d : list EntityId) id (l : list EntityId) :
  filter (fun c => c ∉ d ++ [id]) l = filter (fun x => x <> id) (filter (fun c => c ∉ d) l).
Proof.
  rewrite list_filter_filter. apply list_filter_iff. intros x. rewrite not_elem_of_app, not_elem_of_cons.
  split; [tauto|]. intros [? ?]. split; [done|]. split; [done|apply not_elem_of_nil].
Qed.

Lemma drain_one_pruned m dead d t id r :
  tree_ok m dead -> wf t -> pruned m d (abs t) -> m !! id = Some r -> id ∉ d ->
  pruned m (d ++ [id]) (abs (drain_one t id)).
Proof.
  intros Hok Hw Hp Hr Hid x. unfold drain_one, release. rewrite abs_release by by apply leave_parent_wf.
  destruct (decide (x = id)) as [->|Hx].
  { rewrite lookup_delete_eq, decide_True; [done|]. apply elem_of_app. right. left. }
  rewrite lookup_delete_ne by done.
  assert (Hnot : parent r <> x -> forall rx, m !! x = Some rx -> id ∉ children rx).
  { intros Hpx rx Hrx Hin. destruct (tk_down _ _ Hok x id) as (rc & Hrc & E); [by exists rx|]. congruence. }
  assert (Hsame : (x ∉ d -> forall rx, m !! x = Some rx -> id ∉ children rx) ->
     abs t !! x = if decide (x ∈ d ++ [id]) then None
       else (fun r => set_children (filter (fun c => c ∉ d ++ [id]) (children r)) r) <$> m !! x).
  { intros Hor. rewrite (Hp x). destruct (decide (x ∈ d)) as [Hxd|Hxd].
    - rewrite decide_True; [done|]. apply elem_of_app. by left.
    - rewrite decide_False by (rewrite elem_of_app, list_elem_of_singleton; tauto).
      destruct (m !! x) as [rx|] eqn:Hrx; [|done]. simpl. f_equal. f_equal. rewrite filter_snoc_notin.
      symmetry. apply filter_true. intros c [_ Hc]%list_elem_of_filter ->. by apply (Hor Hxd rx). }
  unfold leave_parent. rewrite record_abs by apply Hw. pose proof (Hp id) as Hpid. rewrite decide_False in Hpid by done.
  rewrite Hpid, Hr. cbn [fmap option_fmap option_map]. cbn [parent set_children].
  destruct (parent r =? NONE) eqn:E0; bool_facts.
  { apply Hsame. intros _ rx Hrx. apply Hnot; [|done]. pose proof (tk_null _ _ Hok). congruence. }
  destruct (tk_up _ _ Hok id r Hr E0) as (rp0 & Hrp0 & _).
  rewrite record_abs by apply Hw. pose proof (Hp (parent r)) as Hpp. rewrite Hrp0 in Hpp. rewrite Hpp.
  destruct (decide (parent r ∈ d)) as [Hpd|Hpd].
  { apply Hsame. intros Hxd. apply Hnot. congruence. }
  simpl. rewrite abs_modify by apply Hw. destruct (decide (parent r = x)) as [<-|Hpx].
  - rewrite lookup_alter_eq, Hpp, Hrp0, decide_False by (rewrite elem_of_app, list_elem_of_singleton; tauto). simpl.
    f_equal. unfold set_children at 1. simpl. rewrite filter_snoc_notin, splice_out_filter; [done|].
    apply NoDup_filter. by apply (tk_nodup _ _ Hok (parent r)).
  - rewrite lookup_alter_ne by done. apply Hsame. intros _. by apply Hnot.
Qed.

Lemma drain_pruned m dead doomed : forall d t,
  tree_ok m dead -> wf t -> pruned m d (abs t) -> (forall id, id ∈ doomed -> id ∈ dead) -> NoDup (d ++ doomed) ->
  wf (foldl drain_one t doomed) /\ pruned m (d ++ doomed) (abs (foldl drain_one t doomed)).
Proof.
  induction doomed as [|id doomed IH]; intros d t Hok Hw Hp Hin Hn; cbn [foldl]; [by rewrite app_nil_r|].
  replace (d ++ id :: doomed) with ((d ++ [id]) ++ doomed) in * by by rewrite <- app_assoc.
  assert (Hid : id ∈ dead) by (apply Hin; left). apply (tk_dead _ _ Hok) in Hid as (r & Hr & _).
  apply IH; [done|by apply drain_one_wf| |intros x Hx; apply Hin; by right|done].
  apply (drain_one_pruned m dead d t id r); [done..|].
  apply NoDup_app in Hn as (Hn & _). by apply NoDup_snoc in Hn as [_ ?].
Qed.

(** Removing a set of dead ids closed under children leaves a forest. *)
Lemma tree_pruned m doomed next m' :
  tree_ok m (doomed ++ next) -> closed m doomed -> closed m (doomed ++ next) -> pruned m doomed m' ->
  tree_ok m' next /\ closed m' next.
Proof.
  intros Hok Hcd Hcl Hp.
  assert (Hbw : forall x r', m' !! x = Some r' -> (x ∉ doomed) /\ exists r, m !! x = Some r /\
      r' = set_children (filter (fun c => c ∉ doomed) (children r)) r).
  { intros x r'. rewrite (Hp x). destruct (decide _) as [|Hx]; [done|]. intros Hr. apply fmap_Some in Hr as (r & Hr & ->).
    split; [done|]. by exists r. }
  assert (Hfw : forall x r, m !! x = Some r -> x ∉ doomed ->
      m' !! x = Some (set_children (filter (fun c => c ∉ doomed) (children r)) r)).
  { intros x r Hr Hx. by rewrite (Hp x), decide_False, Hr by done. }
  assert (Hch : forall p c, child_of m' p c <-> child_of m p c /\ (p ∉ doomed) /\ (c ∉ doomed)).
  { intros p c. split.
    - intros (r' & Hr' & Hc). apply Hbw in Hr' as (Hpd & r & Hr & ->). simpl in Hc.
      apply list_elem_of_filter in Hc as [Hcd' Hc]. split; [by exists r|]. by split.
    - intros ((r & Hr & Hc) & Hpd & Hcd'). eexists. split; [by apply Hfw|]. simpl. by apply list_elem_of_filter. }
  pose proof (tk_queue _ _ Hok) as Hq. apply NoDup_app in Hq as (_ & Hdisj & Hnn).
  split; [split|].
  - rewrite (Hp NONE), (tk_null _ _ Hok). by destruct (decide _).
  - intros x r' Hr' Hpar. apply Hbw in Hr' as (Hx & r & Hr & ->). simpl in *.
    pose proof (tk_up _ _ Hok x r Hr Hpar) as Hup. apply Hch. split; [done|]. split; [|done].
    intros Hpd. apply Hx. by apply (Hcd (parent r)).
  - intros p c Hpc. apply Hch in Hpc as (Hpc & _ & Hc). destruct (tk_down _ _ Hok p c Hpc) as (rc & Hrc & E).
    eexists. split; [by apply Hfw|done].
  - intros p r' Hr'. apply Hbw in Hr' as (_ & r & Hr & ->). simpl. apply NoDup_filter. by apply (tk_nodup _ _ Hok p).
  - intros x [r' Hr']. apply Hbw in Hr' as (Hx & r & Hr & _). destruct (tk_rooted _ _ Hok x) as [l Hl]; [by exists r|].
    exists l. revert Hx. clear -Hl Hfw Hcd Hok. induction Hl as [|x r l Hr Hl IH]; intros Hx; [constructor|].
    eapply rooted_step; [by apply Hfw|]. simpl. destruct (decide (parent r = NONE)) as [E|Hne].
    + rewrite E in *. apply rooted_inv in Hl as [[_ ->]|(r0 & ? & _ & Hr0 & _)]; [constructor|].
      pose proof (tk_null _ _ Hok). congruence.
    + apply IH. intros Hpd. apply Hx. apply (Hcd (parent r)); [done|]. by apply (tk_up _ _ Hok).
  - done.
  - intros x. split.
    + intros Hx. assert (Hxd : x ∉ doomed) by (intros Hxd; by apply (Hdisj x Hxd)).
      assert (Hx' : x ∈ doomed ++ next) by (apply elem_of_app; by right).
      apply (tk_dead _ _ Hok) in Hx' as (r & Hr & Ha). eexists. split; [by apply Hfw|done].
    + intros (r' & Hr' & Ha). apply Hbw in Hr' as (Hx & r & Hr & ->). simpl in Ha.
      assert (Hx' : x ∈ doomed ++ next) by (apply (tk_dead _ _ Hok); by exists r). apply elem_of_app in Hx' as [?|?]; done.
  - intros p c Hpn Hpc. apply Hch in Hpc as (Hpc & _ & Hc).
    assert (Hc' : c ∈ doomed ++ next) by (apply (Hcl p); [apply elem_of_app; by right|done]).
    by apply elem_of_app in Hc' as [?|?].
Qed.

(** ** Histories *)

Abbreviation world := (EntityTable * list EntityId)%type.

Definition new_world : world := (new_entities, []).

Inductive tree_op :=
  | TSpawn (template ownerId : jstr)
  | TAttach (id to : EntityId)
  | TDetach (id : EntityId)
  | TDestroy (id : EntityId)
  | TDrain.

Definition run_op (s : world) (o : tree_op) : world :=
  match o with
  | TSpawn tmpl owner => match create s.1 tmpl owner with Ok (_, t) => (t, s.2) | Throw _ => s end
  | TAttach id to => ((attachTo s.1 id to).1, s.2)
  | TDetach id => ((unlink s.1 id).1, s.2)
  | TDestroy id => destroy s id
  | TDrain => (foldl drain_one s.1 s.2, [])
  end.

Record forest (s : world) : Prop := {
  fo_wf : wf s.1;
  fo_tree : tree_ok (abs s.1) s.2;
  fo_closed : closed (abs s.1) s.2;
}.

Lemma abs_null (t : EntityTable) : core t -> abs t !! NONE = None.
Proof.
  intros Hc. rewrite abs_lookup by done. unfold SlotTable.record.
  assert (Hi : SlotTable.indexOf t NONE = -1) by done. rewrite Hi.
  destruct (recordAt t (-1)) eqn:E; [|done]. apply recordAt_range in E. lia.
Qed.

Lemma forest_new : forest new_world.
Proof.
  assert (Habs : abs new_entities = ∅) by apply abs_new.
  split; simpl; [apply new_table_wf| |]; rewrite Habs.
  - split; [done|..]; try (intros; set_solver || done).
    + intros p c (r & Hr & _). done.
    + intros x [r Hr]. done.
    + constructor.
  - intros p c Hp. by apply not_elem_of_nil in Hp.
Qed.

Lemma forest_spawn s tmpl owner id t :
  forest s -> create s.1 tmpl owner = Ok (id, t) -> forest (t, s.2).
Proof.
  intros [Hw Hok Hcl] Hc. unfold create in Hc. destruct (abs_create _ _ _ _ Hw Hc) as [Hnone Habs].
  assert (Hw' : wf t) by by apply (create_wf _ _ _ _ Hw Hc). assert (Hid : id <> NONE).
  { intros ->. pose proof (abs_null t (wf_core t Hw')) as Hn. by rewrite Habs, lookup_insert_eq in Hn. }
  split; simpl; [done|rewrite Habs; by apply tree_spawn|]. rewrite Habs.
  intros p c Hp (r & Hr & Hc'). apply (Hcl p); [done|]. exists r. split; [|done].
  rewrite lookup_insert_ne in Hr; [done|]. intros <-. apply (tk_dead _ _ Hok) in Hp as (? & ? & _). congruence.
Qed.

Lemma forest_unlink s id : forest s -> forest ((unlink s.1 id).1, s.2).
Proof.
  intros [Hw Hok Hcl]. destruct (unlink_ok s.1 s.2 id Hw Hok) as (Hw' & Hok' & Hch & _).
  split; simpl; [done|done|]. intros p c Hp Hpc. apply (Hcl p); auto.
Qed.

Lemma forest_attach s id to : forest s -> forest ((attachTo s.1 id to).1, s.2).
Proof.
  intros [Hw Hok Hcl]. destruct (attach_ok s.1 s.2 id to Hw Hok) as (Hw' & Hok' & Hcl'). split; simpl; auto.
Qed.

Lemma forest_destroy s id : forest s -> forest (destroy s id).
Proof.
  intros [Hw Hok Hcl]. destruct s as [t q]. destruct (tree_destroy t q id Hw Hok Hcl) as (Hw' & Hok' & Hcl' & _).
  by split.
Qed.

(** Draining a closed part of the queue. *)
Lemma forest_drain t doomed next :
  forest (t, doomed ++ next) -> closed (abs t) doomed ->
  forest (foldl drain_one t doomed, next) /\ pruned (abs t) doomed (abs (foldl drain_one t doomed)).
Proof.
  intros [Hw Hok Hcl] Hcd. simpl in *. pose proof (tk_queue _ _ Hok) as Hq. apply NoDup_app in Hq as (Hnd & _).
  destruct (drain_pruned (abs t) (doomed ++ next) doomed [] t Hok Hw (pruned_nil _)) as [Hw' Hp].
  - intros x Hx. apply elem_of_app. by left.
  - done.
  - simpl in Hp. destruct (tree_pruned _ doomed next _ Hok Hcd Hcl Hp) as [Hok' Hcl']. split; [|done]. by split.
Qed.

Lemma forest_step s o : forest s -> forest (run_op s o).
Proof.
  intros Hf. destruct o as [tmpl owner|id to|id|id|]; simpl.
  - destruct (create s.1 tmpl owner) as [[id t]|] eqn:E; [by apply (forest_spawn s tmpl owner id)|done].
  - by apply forest_attach.
  - by apply forest_unlink.
  - by apply forest_destroy.
  - apply (forest_drain s.1 s.2 []); [rewrite app_nil_r; by destruct s|apply Hf].
Qed.

Lemma forest_run s ops : forest s -> forest (foldl run_op s ops).
Proof. revert s. induction ops as [|o ops IH]; intros s Hf; [done|]. by apply IH, forest_step. Qed.

(** ** Properties *)

(** C35. The hierarchy is a forest. Over any history of spawns, attaches, detaches,
    destroys and drains, with any ids, live, stale or invented: a parent link and a
    children entry always come in pairs, no entity is its own ancestor, a walk to the
    root ends, and the queue holds exactly the entities no longer alive, each once,
    with all of their children. After a drain nothing of what was queued is left and
    no link names it. *)
Theorem hierarchy_is_a_forest (ops : list tree_op) :
  let '(t, q) := foldl run_op new_world ops in
  let links p c := exists r, record t p = Some r /\ c ∈ children r in
  (forall id r, record t id = Some r -> parent r <> NONE -> links (parent r) id)
  /\ (forall p c, links p c -> exists r, record t c = Some r /\ parent r = p)
  /\ (forall p r, record t p = Some r -> NoDup (children r))
  /\ (forall id, is_Some (record t id) -> exists l, NoDup l /\ rooted (abs t) id l)
  /\ NoDup q
  /\ (forall id, id ∈ q <-> exists r, record t id = Some r /\ alive r = false)
  /\ (forall p c, p ∈ q -> links p c -> c ∈ q)
  /\ (forall id, id ∈ q -> record (run_op (t, q) TDrain).1 id = None).
Proof.
  pose proof (forest_run new_world ops forest_new) as Hf. destruct (foldl run_op new_world ops) as [t q].
  destruct Hf as [Hw Hok Hcl]. simpl in *. assert (Hrec : forall id, record t id = abs t !! id) by (intros; by apply record_abs, Hw).
  assert (Hlinks : forall p c, (exists r, record t p = Some r /\ c ∈ children r) <-> child_of (abs t) p c).
  { intros p c. unfold child_of. by setoid_rewrite Hrec. }
  split; [intros id r; rewrite Hrec, Hlinks; apply (tk_up _ _ Hok)|].
  split; [intros p c; rewrite Hlinks; setoid_rewrite Hrec; apply (tk_down _ _ Hok)|].
  split; [intros p r; rewrite Hrec; apply (tk_nodup _ _ Hok)|].
  split.
  { intros id. rewrite Hrec. intros Hid. destruct (tk_rooted _ _ Hok id Hid) as [l Hl]. exists l.
    split; [|done]. by apply (rooted_NoDup (abs t) id), Hl; apply Hok. }
  split; [apply Hok|]. split; [intros id; setoid_rewrite Hrec; apply (tk_dead _ _ Hok)|].
  split; [intros p c; rewrite Hlinks; apply Hcl|].
  intros id Hid. destruct (forest_drain t q []) as [Hf Hp]; [rewrite app_nil_r; by split|done|].
  rewrite record_abs by apply Hf. rewrite (Hp id). by rewrite decide_True.
Qed.

(** Destroying dooms exactly the subtree. From any reachable world, [destroy]
    clears the live flag of every live entity at or below its target and of nothing
    else, queues each of them once behind what is queued, target before children, and
    changes no link; an id that is stale, invented or already doomed changes nothing. *)
Theorem destroy_dooms_subtree (ops : list tree_op) (id : EntityId) :
  let s := foldl run_op new_world ops in
  let s' := destroy s id in
  let below x := rtc (fun p c => exists r, record s.1 p = Some r /\ c ∈ children r) id x in
  exists l, s'.2 = s.2 ++ l /\ NoDup l
    /\ (forall x, x ∈ l <-> isAlive s.1 x = true /\ below x)
    /\ (forall x, record s'.1 x = if decide (x ∈ l) then doom <$> record s.1 x else record s.1 x)
    /\ (isAlive s.1 id = false -> l = []).
Proof.
  intros s s' below. pose proof (forest_run new_world ops forest_new) as Hf. fold s in Hf. destruct Hf as [Hw Hok Hcl].
  destruct (tree_destroy s.1 s.2 id Hw Hok Hcl) as (Hw' & _ & _ & l & Hc & Hl). rewrite <- surjective_pairing in *.
  fold s' in Hw', Hc. assert (Hrec : forall x, record s.1 x = abs s.1 !! x) by (intros; by apply record_abs, Hw).
  assert (Hal : forall x, isAlive s.1 x = true <-> alive_in (abs s.1) x).
  { intros x. unfold isAlive, alive_in. change (SlotTable.record s.1 x) with (record s.1 x). rewrite Hrec.
    destruct (abs s.1 !! x) as [r|]; [|split; [done|by intros (? & ? & _)]].
    split; [by exists r|]. by intros (? & [= <-] & ?). }
  assert (Hbelow : forall x, below x <-> rtc (child_of (abs s.1)) id x).
  { intros x. unfold below. split; (apply rtc_subrel; intros a b; unfold child_of; by setoid_rewrite Hrec). }
  exists l. split; [apply Hc|]. split; [apply Hc|]. split; [intros x; rewrite Hal, Hbelow; apply Hl|]. split.
  - intros x. rewrite Hrec, record_abs by apply Hw'. apply Hc.
  - intros Hdead. destruct l as [|x l]; [done|]. exfalso.
    assert (Hx : x ∈ x :: l) by left. apply Hl in Hx as [Hax Hrx].
    assert (Hnal : ~ alive_in (abs s.1) id) by (rewrite <- Hal; congruence).
    apply (dead_spreads _ _ id x Hok Hcl Hnal Hrx Hax).
    apply rtc_inv in Hrx as [<-|(y & (r & Hr & _) & _)]; [done|by exists r].
Qed.
