(* ===== verification/Random.v ===== *)
(** * The seeded generator ([packages/math/src/random.ts])

    xoshiro128** over four 32-bit words, seeded by splitmix32. JavaScript's bitwise
    operators work on 32-bit integers: [<<], [|] and [^] yield a signed word, [>>>]
    an unsigned one, [Math.imul] the signed low word of a product. The state keeps
    whatever signed or unsigned representative the operators left there; [word] is
    the 32-bit pattern behind either. *)

From S2P Require Import Prelude JsNum.

Local Open Scope Z_scope.

(** ** 32-bit integers *)

Definition WIDTH : Z := 32.
Definition word (z : Z) : Z := z mod 2 ^ WIDTH.
Definition int32 (z : Z) : Z := (z + 2 ^ (WIDTH - 1)) mod 2 ^ WIDTH - 2 ^ (WIDTH - 1).

Definition js_shl (x k : Z) : Z := int32 (Z.shiftl x k).
Definition js_ushr (x k : Z) : Z := Z.shiftr (word x) k.
Definition js_or (x y : Z) : Z := Z.lor (int32 x) (int32 y).
Definition js_xor (x y : Z) : Z := Z.lxor (int32 x) (int32 y).
Definition imul (x y : Z) : Z := int32 (int32 x * int32 y).

(** ** The generator *)

Definition rotl (x k : Z) : Z := js_ushr (js_or (js_shl x k) (js_ushr x (32 - k))) 0.

Definition splitmix32 (seed : Z) : Z :=
  let z := int32 (seed + 0x9e3779b9) in
  let z := imul (js_xor z (js_ushr z 16)) 0x85ebca6b in
  let z := imul (js_xor z (js_ushr z 13)) 0xc2b2ae35 in
  js_ushr (js_xor z (js_ushr z 16)) 0.

Record SeededRandom := MkRandom { s0 : Z; s1 : Z; s2 : Z; s3 : Z }.

(** [seed(n)]: the [n | 0] of an integral number is its signed low word. *)
Definition seed (n : Z) : SeededRandom :=
  let a := int32 n in
  let b := int32 (a + 0x9e3779b9) in
  let c := int32 (b + 0x9e3779b9) in
  let d := int32 (c + 0x9e3779b9) in
  MkRandom (splitmix32 a) (splitmix32 b) (splitmix32 c) (splitmix32 d).

(** The scrambled output word, before the division that makes it a fraction. *)
Definition output (r : SeededRandom) : Z := js_ushr (imul (rotl (imul (s1 r) 5) 7) 9) 0.

Definition advance (r : SeededRandom) : SeededRandom :=
  let t := js_ushr (js_shl (s1 r) 9) 0 in
  let x2 := js_xor (s2 r) (s0 r) in
  let x3 := js_xor (s3 r) (s1 r) in
  let x1 := js_xor (s1 r) x2 in
  let x0 := js_xor (s0 r) x3 in
  MkRandom x0 x1 (js_xor x2 t) (rotl x3 11).

Definition next (r : SeededRandom) : num * SeededRandom :=
  (fdiv (of_Z (output r)) (of_Z 0x100000000), advance r).

Definition between (r : SeededRandom) (lo hi : num) : num * SeededRandom :=
  let '(x, r') := next r in (fadd lo (fmul x (fsub hi lo)), r').

Definition pick {A} (r : SeededRandom) (l : list A) : option A * SeededRandom :=
  let '(x, r') := next r in
  (match floorZ (fmul x (of_Z (arr_len l))) with Some i => arr_get l i | None => None end, r').

Definition chance (r : SeededRandom) (probability : num) : bool * SeededRandom :=
  let '(x, r') := next r in (flt x probability, r').

Definition capture (r : SeededRandom) : Z * Z * Z * Z := (s0 r, s1 r, s2 r, s3 r).
Definition restore (st : Z * Z * Z * Z) : SeededRandom :=
  let '(a, b, c, d) := st in MkRandom a b c d.

(** ** Bits of a word *)

Lemma word_bounds z : 0 <= word z < 2 ^ 32.
Proof. apply Z.mod_pos_bound. lia. Qed.

Lemma word_int32 z : word (int32 z) = word z.
Proof.
  unfold word, int32. rewrite Zminus_mod_idemp_l. f_equal. unfold WIDTH. lia.
Qed.

Lemma word_word z : word (word z) = word z.
Proof. apply Z.mod_mod. unfold WIDTH. lia. Qed.

Lemma word_small z : 0 <= z < 2 ^ 32 -> word z = z.
Proof. apply Z.mod_small. Qed.

Lemma word_testbit z i : 0 <= i -> Z.testbit (word z) i = (i <? 32) && Z.testbit z i.
Proof.
  intros Hi. unfold word, WIDTH. destruct (i <? 32) eqn:E; bool_facts; simpl.
  - apply Z.mod_pow2_bits_low. lia.
  - apply Z.mod_pow2_bits_high. lia.
Qed.

(** Two words are equal when their low 32 bits are. *)
Lemma word_eq x y :
  (forall i, 0 <= i < 32 -> Z.testbit x i = Z.testbit y i) -> word x = word y.
Proof.
  intros H. apply Z.bits_inj'. intros i Hi. rewrite !word_testbit by done.
  destruct (i <? 32) eqn:E; bool_facts; [|done]. simpl. apply H. lia.
Qed.

Lemma word_bit_inj x y i : word x = word y -> 0 <= i < 32 -> Z.testbit x i = Z.testbit y i.
Proof.
  intros H Hi. assert (Hb : Z.testbit (word x) i = Z.testbit (word y) i) by (by rewrite H).
  rewrite !word_testbit in Hb by lia.
  by rewrite (proj2 (Z.ltb_lt i 32)) in Hb by lia.
Qed.

Lemma int32_testbit z i : 0 <= i < 32 -> Z.testbit (int32 z) i = Z.testbit z i.
Proof. intros Hi. apply word_bit_inj; [apply word_int32|done]. Qed.

Lemma js_xor_testbit x y i :
  0 <= i < 32 -> Z.testbit (js_xor x y) i = xorb (Z.testbit x i) (Z.testbit y i).
Proof. intros Hi. unfold js_xor. by rewrite Z.lxor_spec, !int32_testbit. Qed.

Lemma js_shl_testbit x k i :
  0 <= k -> 0 <= i < 32 -> Z.testbit (js_shl x k) i = (k <=? i) && Z.testbit x (i - k).
Proof.
  intros Hk Hi. unfold js_shl. rewrite int32_testbit by done.
  rewrite Z.shiftl_spec by lia. destruct (k <=? i) eqn:E; bool_facts; [done|].
  apply Z.testbit_neg_r. lia.
Qed.

Lemma js_ushr_testbit x k i :
  0 <= k -> 0 <= i -> Z.testbit (js_ushr x k) i = (i + k <? 32) && Z.testbit x (i + k).
Proof.
  intros Hk Hi. unfold js_ushr. rewrite Z.shiftr_spec by done. apply word_testbit. lia.
Qed.

Lemma js_ushr0 x : js_ushr x 0 = word x.
Proof. unfold js_ushr. apply Z.shiftr_0_r. Qed.

Lemma word_js_ushr0 x : word (js_ushr x 0) = word x.
Proof. rewrite js_ushr0. apply word_word. Qed.

Lemma rotl_testbit x k i :
  0 < k < 32 -> 0 <= i < 32 ->
  Z.testbit (rotl x k) i = Z.testbit x (if k <=? i then i - k else i + (32 - k)).
Proof.
  intros Hk Hi. unfold rotl. rewrite js_ushr_testbit by lia.
  rewrite Z.add_0_r, (proj2 (Z.ltb_lt i 32)) by lia. simpl.
  unfold js_or. rewrite Z.lor_spec, !int32_testbit, js_shl_testbit, js_ushr_testbit by lia.
  destruct (k <=? i) eqn:E; bool_facts; simpl.
  - rewrite (proj2 (Z.ltb_ge _ 32)) by lia. apply orb_false_r.
  - by rewrite (proj2 (Z.ltb_lt _ 32)) by lia.
Qed.

(** ** The building blocks are injective on words *)

Lemma rotl_inj x y k : 0 < k < 32 -> word (rotl x k) = word (rotl y k) -> word x = word y.
Proof.
  intros Hk H. apply word_eq. intros i Hi.
  destruct (decide (i + k < 32)).
  - pose proof (word_bit_inj _ _ (i + k) H ltac:(lia)) as Hb.
    rewrite !rotl_testbit in Hb by lia. rewrite (proj2 (Z.leb_le k _)) in Hb by lia.
    by replace (i + k - k) with i in Hb by lia.
  - pose proof (word_bit_inj _ _ (i + k - 32) H ltac:(lia)) as Hb.
    rewrite !rotl_testbit in Hb by lia. rewrite (proj2 (Z.leb_gt k _)) in Hb by lia.
    by replace (i + k - 32 + (32 - k)) with i in Hb by lia.
Qed.

(** [x ^ (x << k)] determines [x]: bit [i] follows from bit [i - k]. *)
Lemma xor_shl_inj x y k :
  0 < k -> word (js_xor x (js_shl x k)) = word (js_xor y (js_shl y k)) -> word x = word y.
Proof.
  intros Hk H. apply word_eq. intros i Hi.
  assert (Hind : forall n : nat, Z.of_nat n < 32 -> Z.testbit x (Z.of_nat n) = Z.testbit y (Z.of_nat n)).
  { intros n. induction (lt_wf n) as [n _ IH]. intros Hn.
    pose proof (word_bit_inj _ _ (Z.of_nat n) H ltac:(lia)) as Hb.
    rewrite !js_xor_testbit, !js_shl_testbit in Hb by lia.
    destruct (k <=? Z.of_nat n) eqn:E; bool_facts; simpl in Hb; [|by rewrite !xorb_false_r in Hb].
    pose proof (IH (Z.to_nat (Z.of_nat n - k)) ltac:(lia) ltac:(lia)) as Hlow.
    rewrite Z2Nat.id in Hlow by lia. rewrite Hlow in Hb.
    destruct (Z.testbit x _), (Z.testbit y (Z.of_nat n)), (Z.testbit y _); done. }
  rewrite <- (Z2Nat.id i) by lia. apply Hind. lia.
Qed.

(** [x ^ (x >>> k)] determines [x]: bit [i] follows from bit [i + k]. *)
Lemma xor_ushr_inj x y k :
  0 < k -> word (js_xor x (js_ushr x k)) = word (js_xor y (js_ushr y k)) -> word x = word y.
Proof.
  intros Hk H. apply word_eq. intros i Hi.
  assert (Hind : forall n : nat, (n < 32)%nat ->
    Z.testbit x (31 - Z.of_nat n) = Z.testbit y (31 - Z.of_nat n)).
  { intros n. induction (lt_wf n) as [n _ IH]. intros Hn.
    pose proof (word_bit_inj _ _ (31 - Z.of_nat n) H ltac:(lia)) as Hb.
    rewrite !js_xor_testbit, !js_ushr_testbit in Hb by lia.
    destruct (31 - Z.of_nat n + k <? 32) eqn:E; bool_facts; simpl in Hb;
      [|by rewrite !xorb_false_r in Hb].
    pose proof (IH (Z.to_nat (Z.of_nat n - k)) ltac:(lia) ltac:(lia)) as Hhigh.
    rewrite Z2Nat.id in Hhigh by lia.
    replace (31 - (Z.of_nat n - k)) with (31 - Z.of_nat n + k) in Hhigh by lia.
    rewrite Hhigh in Hb.
    destruct (Z.testbit x (31 - _)), (Z.testbit y (31 - Z.of_nat n)), (Z.testbit y _); done. }
  pose proof (Hind (Z.to_nat (31 - i)) ltac:(lia)) as Hb.
  rewrite Z2Nat.id in Hb by lia. by replace (31 - (31 - i)) with i in Hb by lia.
Qed.

Lemma word_imul x c : word (imul x c) = word (word x * c).
Proof.
  unfold imul. rewrite word_int32. unfold word.
  rewrite Z.mul_mod by (unfold WIDTH; lia). fold (word (int32 x)) (word (int32 c)).
  rewrite !word_int32. unfold word. rewrite <- Z.mul_mod by (unfold WIDTH; lia).
  by rewrite Zmult_mod_idemp_l.
Qed.

(** Multiplication by a constant with an inverse modulo 2^32 loses nothing. *)
Lemma imul_inj x y c c' :
  word (c * c') = 1 -> word (imul x c) = word (imul y c) -> word x = word y.
Proof.
  intros Hc H. rewrite !word_imul in H.
  assert (Hback : forall z, word (word (word z * c) * c') = word z).
  { intros z. unfold word in *. rewrite !Zmult_mod_idemp_l, <- Z.mul_assoc.
    by rewrite <- Zmult_mod_idemp_r, Hc, Z.mul_1_r, ?Zmod_mod. }
  by rewrite <- (Hback x), <- (Hback y), H.
Qed.

Lemma word_add_inj x y c : word (x + c) = word (y + c) -> word x = word y.
Proof.
  intros H. assert (Hback : forall z, word (word (z + c) - c) = word z).
  { intros z. unfold word. rewrite Zminus_mod_idemp_l. f_equal. lia. }
  by rewrite <- (Hback x), <- (Hback y), H.
Qed.

(** The seeding hash is a permutation of 32-bit words. *)
Lemma splitmix32_inj x y : splitmix32 x = splitmix32 y -> word x = word y.
Proof.
  unfold splitmix32. cbv zeta. intros H.
  apply (f_equal word) in H. rewrite !word_js_ushr0 in H.
  apply xor_ushr_inj in H; [|lia].
  apply (imul_inj _ _ 0xc2b2ae35 0x7ed1b41d) in H; [|done].
  apply xor_ushr_inj in H; [|lia].
  apply (imul_inj _ _ 0x85ebca6b 0xa5cb9243) in H; [|done].
  apply xor_ushr_inj in H; [|lia].
  rewrite !word_int32 in H. by apply word_add_inj in H.
Qed.

(** ** The state *)

Definition words (r : SeededRandom) : Z * Z * Z * Z :=
  (word (s0 r), word (s1 r), word (s2 r), word (s3 r)).

Lemma word_xor_congr x x' y y' :
  word x = word x' -> word y = word y' -> word (js_xor x y) = word (js_xor x' y').
Proof.
  intros Hx Hy. apply word_eq. intros i Hi. rewrite !js_xor_testbit by done.
  by rewrite (word_bit_inj x x' i), (word_bit_inj y y' i).
Qed.

Lemma word_xor_inj_l x x' y y' :
  word (js_xor x y) = word (js_xor x' y') -> word y = word y' -> word x = word x'.
Proof.
  intros H Hy. apply word_eq. intros i Hi.
  pose proof (word_bit_inj _ _ i H Hi) as Hb. rewrite !js_xor_testbit in Hb by done.
  rewrite (word_bit_inj y y' i) in Hb by done.
  destruct (Z.testbit x i), (Z.testbit x' i), (Z.testbit y' i); done.
Qed.

Lemma word_xor_comm x y : word (js_xor x y) = word (js_xor y x).
Proof. unfold js_xor. by rewrite Z.lxor_comm. Qed.

(** [advance] is injective on states, so no two histories merge. *)
Lemma advance_inj r r' : words (advance r) = words (advance r') -> words r = words r'.
Proof.
  unfold words, advance. simpl. intros H. injection H as H0 H1 H2 H3.
  apply rotl_inj in H3; [|lia].
  pose proof (word_xor_inj_l _ _ _ _ H0 H3) as Hs0.
  assert (Hs1 : word (s1 r) = word (s1 r')).
  { apply (xor_shl_inj _ _ 9); [lia|]. apply word_eq. intros i Hi.
    pose proof (word_bit_inj _ _ i H1 Hi) as Hb1. pose proof (word_bit_inj _ _ i H2 Hi) as Hb2.
    rewrite !js_xor_testbit in Hb1, Hb2 by done. rewrite !js_xor_testbit by done.
    rewrite !js_ushr_testbit, !Z.add_0_r, !(proj2 (Z.ltb_lt i 32)) in Hb2 by lia. simpl in Hb2.
    destruct (Z.testbit (s1 r) i), (Z.testbit (s1 r') i), (Z.testbit (js_shl (s1 r) 9) i),
      (Z.testbit (js_shl (s1 r') 9) i), (Z.testbit (s2 r) i), (Z.testbit (s2 r') i),
      (Z.testbit (s0 r) i), (Z.testbit (s0 r') i); done. }
  pose proof (word_xor_inj_l _ _ _ _ H3 Hs1) as Hs3.
  rewrite (word_xor_comm (s1 r)), (word_xor_comm (s1 r')) in H1.
  pose proof (word_xor_inj_l _ _ _ _ H1 Hs1) as H2'.
  pose proof (word_xor_inj_l _ _ _ _ H2' Hs0) as Hs2.
  by rewrite Hs0, Hs1, Hs2, Hs3.
Qed.

Definition nonzero (r : SeededRandom) : Prop := words r <> (0, 0, 0, 0).

Lemma advance_nonzero r : nonzero r -> nonzero (advance r).
Proof.
  intros Hr H. apply Hr. change (0, 0, 0, 0) with (words (MkRandom 0 0 0 0)).
  apply advance_inj. rewrite H. reflexivity.
Qed.

Lemma seed_nonzero n : nonzero (seed n).
Proof.
  unfold nonzero, words, seed. simpl. intros H. injection H as H0 H1 _ _.
  assert (Heq : splitmix32 (int32 n) = splitmix32 (int32 (int32 n + 0x9e3779b9))).
  { rewrite <- (word_small (splitmix32 (int32 n))), <- (word_small (splitmix32 (int32 (_ + _)))).
    - by rewrite H0, H1.
    - unfold splitmix32. cbv zeta. rewrite js_ushr0. apply word_bounds.
    - unfold splitmix32. cbv zeta. rewrite js_ushr0. apply word_bounds. }
  apply splitmix32_inj in Heq. rewrite word_int32, (word_int32 (_ + _)) in Heq.
  unfold word in Heq. rewrite <- (Zplus_mod_idemp_l (int32 n)) in Heq.
  fold (word (int32 n)) in Heq. rewrite word_int32 in Heq. fold (word n) in Heq.
  pose proof (word_bounds n). unfold WIDTH in Heq.
  pose proof (Z.div_mod (word n + 0x9e3779b9) (2 ^ 32)). lia.
Qed.

Fixpoint advance_n (n : nat) (r : SeededRandom) : SeededRandom :=
  match n with O => r | S k => advance_n k (advance r) end.

Lemma advance_n_nonzero n r : nonzero r -> nonzero (advance_n n r).
Proof. revert r. induction n; intros r Hr; [done|]. simpl. auto using advance_nonzero. Qed.

Lemma advance_n_inj n r r' : words (advance_n n r) = words (advance_n n r') -> words r = words r'.
Proof. revert r r'. induction n; intros r r' H; [done|]. by apply advance_inj, IHn. Qed.

Lemma output_bounds r : 0 <= output r < 2 ^ 32.
Proof. unfold output. rewrite js_ushr0. apply word_bounds. Qed.


(** Distinct 32-bit seeds start in distinct states. *)
Lemma seed_inj n m : words (seed n) = words (seed m) -> word n = word m.
Proof.
  unfold words, seed. simpl. intros H. injection H as Hs0 _ _ _.
  rewrite !word_small in Hs0 by (unfold splitmix32; cbv zeta; rewrite js_ushr0; apply word_bounds).
  apply splitmix32_inj in Hs0. by rewrite !word_int32 in Hs0.
Qed.

(** A stream restored from a capture taken after [k] draws continues where the
    captured one does, draw for draw. *)
#[local] Arguments next : simpl never.

Fixpoint draws (k : nat) (r : SeededRandom) : list num * SeededRandom :=
  match k with
  | O => ([], r)
  | S k' =>
    let rest := draws k' (snd (next r)) in (fst (next r) :: fst rest, snd rest)
  end.

Lemma snd_next r : snd (next r) = advance r.
Proof. reflexivity. Qed.

Lemma draws_state k r : snd (draws k r) = advance_n k r.
Proof.
  revert r. induction k as [|k IH]; intros r; [done|].
  cbn [draws advance_n]. by rewrite <- snd_next, <- IH.
Qed.

Lemma draws_app j k r :
  fst (draws (j + k) r) = fst (draws j r) ++ fst (draws k (snd (draws j r))).
Proof.
  revert r. induction j as [|j IH]; intros r; [done|].
  cbn [draws Nat.add fst snd app]. by rewrite IH.
Qed.

(** The generator never degenerates and never merges histories: whatever the
    seed, after any number of draws the four words are not all zero (the one state
    xoshiro128** cannot leave), every output is an unsigned 32-bit integer, two
    seeds that differ as 32-bit integers are in different states after the same
    number of draws, and a generator restored from a capture taken mid-stream
    yields the rest of the stream. *)
Theorem generator_never_degenerates (n : Z) (j k : nat) :
  words (snd (draws j (seed n))) <> (0, 0, 0, 0)
  /\ 0 <= output (snd (draws j (seed n))) < 2 ^ 32
  /\ (forall m, word m <> word n ->
        words (snd (draws j (seed m))) <> words (snd (draws j (seed n))))
  /\ fst (draws (j + k) (seed n))
     = fst (draws j (seed n)) ++ fst (draws k (restore (capture (snd (draws j (seed n)))))).
Proof.
  split; [|split; [|split]].
  - rewrite draws_state. apply advance_n_nonzero, seed_nonzero.
  - apply output_bounds.
  - intros m Hm. rewrite !draws_state. intros H. apply Hm. by eapply seed_inj, advance_n_inj.
  - generalize (seed n). intros r. rewrite draws_app. by destruct (snd (draws j r)).
Qed.
