(* ===== verification/Codec.v ===== *)
(** * The wire codec ([packages/transport/src/codec.ts], [errors.ts])

    [encode] walks the value a creator handed over, iteratively, and copies it into
    a plain JSON tree or refuses it; [decode] bounds the text, parses it and walks
    the result, iteratively again. The value to encode lives in a heap, because it
    may share objects and contain cycles; the tree [JSON.parse] returns does not.
    [JSON.stringify] and [JSON.parse] themselves are the class [JsonText].

    [admitValue] is the walk with its explicit stack; [copy_at] the recursive copy it
    stands for. The copy under construction is kept in the stack frame and attached
    to its parent when it is complete, where the code attaches it empty and fills it
    in place; nothing reads it before the walk ends. *)

From S2P Require Import Prelude JsMap JsNum Json.

Local Open Scope Z_scope.

(** ** Errors and the interface *)

Inductive TransportErrorCode :=
  | encode_rejected | malformed_frame | pollution_key | unsupported_value
  | frame_too_deep | frame_too_large | retention_overflow | delivery_not_quiescent
  | delivery_reentered | handler_already_registered | invalid_option | connect_failed
  | socket_error | heartbeat_timeout | send_buffer_overflow.

(** The wire codec, injected. What may be encoded is any value a creator can build;
    what a decode returns is plain data. *)
Class Codec (Frame Outgoing Message Err : Type) := {
  encode : Outgoing -> outcome Err Frame;
  decode : Frame -> outcome Err Message;
  byteLength : Frame -> Z;
}.

Definition MAX_DEPTH : nat := 128.
Definition MAX_FRAME_BYTES : Z := 4 * 1024 * 1024.
Definition MAX_NODES : Z := 1000000.

(** What the transport relies on: sizes are not negative, and a frame the codec
    makes it accepts, provided the frame is within the decode cap. *)
Class CodecLaws {Frame Outgoing Message Err} (C : Codec Frame Outgoing Message Err) : Prop := {
  byteLength_nonneg f : 0 <= byteLength f;
  decode_encode m f : encode m = Ok f -> byteLength f <= MAX_FRAME_BYTES ->
    exists m', decode f = Ok m';
}.

(** ** The value to encode *)

Inductive jsval :=
  | VUndefined | VNull | VBool (b : bool) | VNum (x : num) | VStr (s : jstr)
  | VFunction | VSymbol | VBigInt | VRef (l : nat).

(** An array slot may be a hole; an object property may be a getter. *)
Inductive slot := Hole | Getter | Data (v : jsval).

(** [OOther] is any object whose prototype is not [Object.prototype]. *)
Inductive jsobj :=
  | OArray (elems : list (option jsval))
  | OPlain (props : jsmap jstr slot)
  | OOther.

Abbreviation heap := (nat -> jsobj).

Definition normal_zero (x : num) : num :=
  match x with S754_zero _ => f0 | _ => x end.

(** [admitLeaf]: the leaf's copy, or [None] for a container to recurse into. *)
Definition admitLeaf (h : heap) (v : jsval) : outcome TransportErrorCode (option json) :=
  match v with
  | VStr s => Ok (Some (JStr s))
  | VBool b => Ok (Some (JBool b))
  | VNum x =>
    if is_nan x then Throw encode_rejected
    else if isFinite x then Ok (Some (JNum (normal_zero x)))
    else Throw encode_rejected
  | VUndefined | VFunction | VSymbol | VBigInt => Throw encode_rejected
  | VNull => Ok (Some JNull)
  | VRef l => match h l with OOther => Throw encode_rejected | _ => Ok None end
  end.

(** [keysOf] with what each key reads: array slots by position, properties by name. *)
Definition slots_of (o : jsobj) : list (jstr * slot) :=
  match o with
  | OArray es => (fun e => ([], match e with Some v => Data v | None => Hole end)) <$> es
  | OPlain ps => ps
  | OOther => []
  end.

Definition is_array (o : jsobj) : bool := match o with OArray _ => true | _ => false end.

(** A container part-way through the walk; [p_slot] is the key it fills in its parent. *)
Record Pending := MkPending {
  p_source : nat;
  p_array : bool;
  p_slot : jstr;
  p_copy : list (jstr * json);
  p_keys : list (jstr * slot);
}.

Definition set_child (p : Pending) (k : jstr) (j : json) (rest : list (jstr * slot)) : Pending :=
  MkPending (p_source p) (p_array p) (p_slot p) (p_copy p ++ [(k, j)]) rest.

Definition finished (arr : bool) (copy : list (jstr * json)) : json :=
  if arr then JArr copy.*2 else JObj copy.

Definition open_frame (h : heap) (l : nat) (k : jstr) : Pending :=
  MkPending l (is_array (h l)) k [] (slots_of (h l)).

Record walk := MkWalk { w_stack : list Pending; w_open : jsset nat; w_nodes : Z }.

(** One turn of the [while]: the next state, or the finished root copy. *)
Definition walk_step (h : heap) (w : walk) : outcome TransportErrorCode (walk + json) :=
  match w_stack w with
  | [] => Ok (inr JNull)
  | fr :: below =>
    match p_keys fr with
    | [] =>
      let j := finished (p_array fr) (p_copy fr) in
      match below with
      | [] => Ok (inr j)
      | parent :: below' =>
        Ok (inl (MkWalk (set_child parent (p_slot fr) j (p_keys parent) :: below')
                   (sdel (w_open w) (p_source fr)) (w_nodes w)))
      end
    | (k, sl) :: rest =>
      let n := w_nodes w + 1 in
      if MAX_NODES <? n then Throw encode_rejected
      else
        match sl with
        | Hole => Ok (inl (MkWalk (set_child fr k JNull rest :: below) (w_open w) n))
        | _ =>
          if negb (p_array fr) && reserved k then Throw encode_rejected
          else
            match sl with
            | Data v =>
              leaf ← admitLeaf h v;
              match leaf, v with
              | Some j, _ => Ok (inl (MkWalk (set_child fr k j rest :: below) (w_open w) n))
              | None, VRef c =>
                if shas (w_open w) c then Throw encode_rejected
                else if decide (MAX_DEPTH <= length (w_stack w))%nat then Throw encode_rejected
                else
                  Ok (inl (MkWalk
                    (open_frame h c k
                     :: MkPending (p_source fr) (p_array fr) (p_slot fr) (p_copy fr) rest :: below)
                    (sadd (w_open w) c) n))
              | None, _ => Throw encode_rejected
              end
            | _ => Throw encode_rejected
            end
        end
    end
  end.

Fixpoint walk_run (fuel : nat) (h : heap) (w : walk) : option (outcome TransportErrorCode json) :=
  match fuel with
  | O => None
  | S fuel' =>
    match walk_step h w with
    | Throw e => Some (Throw e)
    | Ok (inr j) => Some (Ok j)
    | Ok (inl w') => walk_run fuel' h w'
    end
  end.

(** Every turn but the last counts a value or closes a container that was counted. *)
Definition walk_fuel : nat := Z.to_nat (2 * MAX_NODES + 3).

Definition admitValue (h : heap) (root : jsval) : option (outcome TransportErrorCode json) :=
  match admitLeaf h root with
  | Throw e => Some (Throw e)
  | Ok (Some j) => Some (Ok j)
  | Ok None =>
    match root with
    | VRef l => walk_run walk_fuel h (MkWalk [open_frame h l []] [l] 0)
    | _ => Some (Throw encode_rejected)
    end
  end.

(** ** The decode walk *)

(** [admitDecoded]'s loop over one node's keys: the containers to visit next. *)
Fixpoint scan_fields (arr : bool) (depth : nat) (fs : list (jstr * json)) (stack : list (json * nat))
    : outcome TransportErrorCode (list (json * nat)) :=
  match fs with
  | [] => Ok stack
  | (k, v) :: fs' =>
    if negb arr && reserved k then Throw pollution_key
    else
      match v with
      | JNum x => if isFinite x then scan_fields arr depth fs' stack else Throw unsupported_value
      | _ => scan_fields arr depth fs' (if is_container v then (v, S depth) :: stack else stack)
      end
  end.

Fixpoint decode_walk (fuel : nat) (stack : list (json * nat)) : option (outcome TransportErrorCode ()) :=
  match fuel with
  | O => None
  | S fuel' =>
    match stack with
    | [] => Some (Ok ())
    | (node, depth) :: stack' =>
      if decide (MAX_DEPTH < depth)%nat then Some (Throw frame_too_deep)
      else match scan_fields (is_arr node) depth (own_fields node) stack' with
           | Throw e => Some (Throw e)
           | Ok stack'' => decode_walk fuel' stack''
           end
    end
  end.

Definition admitDecoded (root : json) : option (outcome TransportErrorCode ()) :=
  match root with
  | JNum x => Some (if isFinite x then Ok () else Throw unsupported_value)
  | _ => if is_container root then decode_walk (S (S (jnodes root))) [(root, 1%nat)] else Some (Ok ())
  end.

(** ** The JSON codec *)

(** [JSON.stringify] and [JSON.parse]. *)
Class JsonText := {
  stringify : json -> jstr;
  parse : jstr -> option json;
}.

Inductive frame := FText (s : jstr) | FBytes (len : nat).

Definition frame_length (f : frame) : Z :=
  match f with FText s => utf8ByteLength s | FBytes n => Z.of_nat n end.

(** A heap as a program builds it: the properties of an object have distinct names,
    and only an array has holes. *)
Definition heap_wf (h : heap) : Prop :=
  forall l ps, h l = OPlain ps -> NoDup ps.*1 /\ Forall (fun p => p.2 <> Hole) ps.

(** A message is a root value over such a heap. *)
Record Outgoing := MkOutgoing { m_heap : heap; m_root : jsval; m_wf : heap_wf m_heap }.

Section codec.
Context `{T : JsonText}.

Definition json_encode (m : Outgoing) : outcome TransportErrorCode frame :=
  match admitValue (m_heap m) (m_root m) with
  | Some (Ok j) => Ok (FText (stringify j))
  | Some (Throw e) => Throw e
  | None => Throw encode_rejected
  end.

Definition json_decode (f : frame) : outcome TransportErrorCode json :=
  match f with
  | FBytes _ => Throw malformed_frame
  | FText s =>
    if MAX_FRAME_BYTES <? utf8ByteLength s then Throw frame_too_large
    else
      match parse s with
      | None => Throw malformed_frame
      | Some j =>
        match admitDecoded j with
        | Some (Ok _) => Ok j
        | Some (Throw e) => Throw e
        | None => Throw malformed_frame
        end
      end
  end.
End codec.

#[export] Instance jsonCodec `{T : JsonText} : Codec frame Outgoing json TransportErrorCode := {|
  encode := json_encode;
  decode := json_decode;
  byteLength := frame_length;
|}.

(** ** The recursive copy *)

(** The children of one container, with the copy of a nested one as an argument. *)
Fixpoint copy_slots (sub : nat -> Z -> outcome TransportErrorCode (json * Z)) (h : heap) (arr : bool)
    (opened : jsset nat) (slots : list (jstr * slot)) (n : Z)
    : outcome TransportErrorCode (list (jstr * json) * Z) :=
  match slots with
  | [] => Ok ([], n)
  | (k, sl) :: rest =>
    if MAX_NODES <? n + 1 then Throw encode_rejected
    else
      '(j, n') ← match sl with
        | Hole => Ok (JNull, n + 1)
        | Getter => Throw encode_rejected
        | Data v =>
          if negb arr && reserved k then Throw encode_rejected
          else
            leaf ← admitLeaf h v;
            match leaf, v with
            | Some j, _ => Ok (j, n + 1)
            | None, VRef c => if shas opened c then Throw encode_rejected else sub c (n + 1)
            | None, _ => Throw encode_rejected
            end
        end;
      '(js', n'') ← copy_slots sub h arr opened rest n';
      Ok ((k, j) :: js', n'')
  end.

(** [copy_at d opened l n]: the copy of the container at [l], with [d] more levels
    allowed below it and [n] values counted so far. *)
Fixpoint copy_at (d : nat) (h : heap) (opened : jsset nat) (l : nat) (n : Z)
    : outcome TransportErrorCode (json * Z) :=
  '(cs, n') ← copy_slots
    (fun c m => match d with
                | O => Throw encode_rejected
                | S d' => copy_at d' h (opened ++ [c]) c m
                end)
    h (is_array (h l)) opened (slots_of (h l)) n;
  Ok (finished (is_array (h l)) cs, n').

(** Copies [root] recursively: at most [MAX_DEPTH] containers on a path. *)
Definition copy_root (h : heap) (root : jsval) : outcome TransportErrorCode json :=
  leaf ← admitLeaf h root;
  match leaf, root with
  | Some j, _ => Ok j
  | None, VRef l => fst <$> copy_at (MAX_DEPTH - 1) h [l] l 0
  | None, _ => Throw encode_rejected
  end.

(** ** The walk is the recursive copy *)

(** [walks h n w w']: [n] turns lead from [w] to [w'], none of them the last. *)
Fixpoint walks (h : heap) (n : nat) (w w' : walk) : Prop :=
  match n with
  | O => w = w'
  | S n' => exists w1, walk_step h w = Ok (inl w1) /\ walks h n' w1 w'
  end.

Lemma walks_trans h n m w w' w'' : walks h n w w' -> walks h m w' w'' -> walks h (n + m) w w''.
Proof.
  revert w. induction n as [|n IH]; intros w; simpl; [by intros ->|].
  intros (w1 & Hs & Hn) Hm. eauto.
Qed.

Lemma walks_step h w w' : walk_step h w = Ok (inl w') -> walks h 1 w w'.
Proof. intros H. by exists w'. Qed.

Lemma walk_run_walks h n w w' fuel :
  walks h n w w' -> walk_run (n + fuel) h w = walk_run fuel h w'.
Proof.
  revert w. induction n as [|n IH]; intros w; simpl; [by intros ->|].
  intros (w1 & -> & Hn). by apply IH.
Qed.

(** What processing the slots left of the top frame leads to: the frame with its
    copy filled in, or the error of the recursive copy, within two turns a value. *)
Definition outcome_reached (h : heap) (fr : Pending) (below : list Pending) (opened : jsset nat) (n : Z)
    (r : outcome TransportErrorCode (list (jstr * json) * Z)) : Prop :=
  let w := MkWalk (fr :: below) opened n in
  match r with
  | Ok (cs, n') =>
    n <= n' <= MAX_NODES /\
    exists k, Z.of_nat k <= 2 * (n' - n) /\
      walks h k w (MkWalk (MkPending (p_source fr) (p_array fr) (p_slot fr) (p_copy fr ++ cs) [] :: below)
                     opened n')
  | Throw e =>
    exists k w', Z.of_nat k <= 2 * (MAX_NODES - n) /\ walks h k w w' /\ walk_step h w' = Throw e
  end.

(** Filling one slot in one or more turns, then the rest. *)
Lemma outcome_reached_next h fr below opened n k j m n' rest r :
  n < n' <= MAX_NODES -> Z.of_nat m <= 2 * (n' - n) ->
  walks h m (MkWalk (fr :: below) opened n) (MkWalk (set_child fr k j rest :: below) opened n') ->
  outcome_reached h (set_child fr k j rest) below opened n' r ->
  outcome_reached h fr below opened n
    ('(js', n'') ← r; Ok ((k, j) :: js', n'')).
Proof.
  intros Hn Hm Hw Hr. destruct r as [[cs n''] | e]; simpl in *.
  - destruct Hr as (Hle & k' & Hk' & Hw'). split; [lia|]. exists (m + k')%nat. split; [lia|].
    eapply walks_trans; [exact Hw|]. by rewrite <- app_assoc in Hw'.
  - destruct Hr as (k' & w' & Hk' & Hw' & He). exists (m + k')%nat, w'. split_and!; [lia| |done].
    by eapply walks_trans.
Qed.

Lemma outcome_reached_throw h fr below opened n e :
  n <= MAX_NODES -> walk_step h (MkWalk (fr :: below) opened n) = Throw e ->
  outcome_reached h fr below opened n (Throw e).
Proof. intros Hn H. exists 0%nat, (MkWalk (fr :: below) opened n). split_and!; [lia|done|done]. Qed.

Lemma sdel_snoc (s : jsset nat) c : c ∉ s -> sdel (sadd s c) c = s.
Proof.
  intros Hc. rewrite sadd_not_in by done. unfold sdel. rewrite filter_app, filter_cons_False by tauto.
  rewrite app_nil_r. by apply sdel_not_in.
Qed.

(** The simulation, for a frame with [d] levels left under it. *)
Definition simulates (d : nat) (h : heap) : Prop := forall fr below opened n,
  (length below + S d = MAX_DEPTH)%nat ->
  p_array fr = is_array (h (p_source fr)) ->
  0 <= n <= MAX_NODES ->
  outcome_reached h fr below opened n
    (copy_slots
      (fun c m => match d with
                  | O => Throw encode_rejected
                  | S d' => copy_at d' h (opened ++ [c]) c m
                  end) h (p_array fr) opened (p_keys fr) n).

(** A nested container: push, simulate it, pop. *)
Lemma simulate_nested d h fr below opened n k c rest :
  simulates d h ->
  (length below + S (S d) = MAX_DEPTH)%nat ->
  p_keys fr = (k, Data (VRef c)) :: rest ->
  c ∉ opened -> 0 <= n -> n + 1 <= MAX_NODES ->
  walk_step h (MkWalk (fr :: below) opened n)
  = Ok (inl (MkWalk
      (open_frame h c k
       :: MkPending (p_source fr) (p_array fr) (p_slot fr) (p_copy fr) rest :: below)
      (sadd opened c) (n + 1))) ->
  match copy_at d h (opened ++ [c]) c (n + 1) with
  | Ok (j, n') =>
    n < n' <= MAX_NODES /\
    exists m, Z.of_nat m <= 2 * (n' - n) /\
      walks h m (MkWalk (fr :: below) opened n) (MkWalk (set_child fr k j rest :: below) opened n')
  | Throw e => outcome_reached h fr below opened n (Throw e)
  end.
Proof.
  intros Hsim Hlen Hkeys Hc Hn Hn1 Hstep.
  set (par := MkPending (p_source fr) (p_array fr) (p_slot fr) (p_copy fr) rest) in *.
  pose proof (Hsim (open_frame h c k) (par :: below) (opened ++ [c]) (n + 1)
    ltac:(simpl; lia) eq_refl ltac:(lia)) as Hr.
  rewrite <- (sadd_not_in opened c) in Hr |- * by done.
  destruct d as [|d']; cbn [copy_at p_keys open_frame p_array] in *;
    (destruct (copy_slots _ _ _ _ _ _) as [[cs n'] | e]; simpl in Hr |- *;
    [ destruct Hr as (Hle & m & Hm & Hw); split; [lia|];
      exists (1 + m + 1)%nat; split; [lia|];
      eapply walks_trans; [eapply walks_trans; [by apply walks_step|exact Hw]|];
      apply walks_step; unfold walk_step; simpl; by rewrite sdel_snoc
    | destruct Hr as (m & w' & Hm & Hw & He); exists (1 + m)%nat, w';
      split_and!; [lia| |done]; eapply walks_trans; [by apply walks_step|exact Hw] ]).
Qed.

Lemma simulates_slots d h :
  (forall d', d = S d' -> simulates d' h) -> simulates d h.
Proof.
  intros Hsub fr below opened n Hlen Harr Hn. remember (p_keys fr) as slots eqn:Hkeys.
  revert fr n Hkeys Harr Hn. induction slots as [|[k sl] rest IH]; intros fr n Hkeys Harr Hn.
  { simpl. split; [lia|]. exists 0%nat. split; [lia|]. simpl. rewrite app_nil_r.
    destruct fr; simpl in *; by subst. }
  cbn [copy_slots].
  assert (Hstep : walk_step h (MkWalk (fr :: below) opened n) = walk_step h (MkWalk (fr :: below) opened n)) by done.
  unfold walk_step in Hstep at 2. simpl in Hstep. rewrite <- Hkeys in Hstep.
  destruct (MAX_NODES <? n + 1) eqn:En; [by apply outcome_reached_throw; [lia|]|]. bool_facts.
  assert (Hleaf : forall j, walk_step h (MkWalk (fr :: below) opened n)
      = Ok (inl (MkWalk (set_child fr k j rest :: below) opened (n + 1))) ->
    outcome_reached h fr below opened n
      ('(js', n'') ← copy_slots (fun c m => match d with O => Throw encode_rejected
          | S d' => copy_at d' h (opened ++ [c]) c m end) h (p_array fr) opened rest (n + 1);
       Ok ((k, j) :: js', n''))).
  { intros j Hj. eapply (outcome_reached_next h fr below opened n k j 1 (n + 1) rest); [lia|lia|by apply walks_step|].
    apply (IH (set_child fr k j rest)); [done|done|lia]. }
  destruct sl as [| |v]; simpl.
  - by apply Hleaf.
  - apply outcome_reached_throw; [lia|]. rewrite Hstep. by destruct (_ && _).
  - destruct (negb (p_array fr) && reserved k); [by apply outcome_reached_throw; [lia|]|].
    destruct (admitLeaf h v) as [[j|]|e] eqn:El; simpl in *; [by apply Hleaf| |by apply outcome_reached_throw; [lia|]].
    destruct v as [ | | | | | | | |c]; try (by apply outcome_reached_throw; [lia|]).
    destruct (shas opened c) eqn:Ec; [by apply outcome_reached_throw; [lia|]|].
    destruct d as [|d'].
    + rewrite decide_True in Hstep by lia. by apply outcome_reached_throw; [lia|].
    + rewrite decide_False in Hstep by lia. apply shas_false in Ec.
      pose proof (simulate_nested d' h fr below opened n k c rest (Hsub d' eq_refl)
        ltac:(lia) (eq_sym Hkeys) Ec ltac:(lia) ltac:(lia) Hstep) as Hnest.
      destruct (copy_at d' h (opened ++ [c]) c (n + 1)) as [[j n'] | e]; [|exact Hnest].
      destruct Hnest as (Hle & m & Hm & Hw).
      eapply (outcome_reached_next h fr below opened n k j m n' rest); [lia|lia|exact Hw|].
      apply (IH (set_child fr k j rest)); [done|done|lia].
Qed.

Lemma simulates_all d h : simulates d h.
Proof.
  induction d as [|d IH]; apply simulates_slots; [done|]. intros d' [= <-]. exact IH.
Qed.

Lemma walk_fuel_Z : Z.of_nat walk_fuel = 2 * MAX_NODES + 3.
Proof. unfold walk_fuel. rewrite Z2Nat.id; [done|unfold MAX_NODES; lia]. Qed.

Lemma walk_fuel_split k : Z.of_nat k <= 2 * MAX_NODES -> exists m, walk_fuel = (k + S m)%nat.
Proof.
  pose proof walk_fuel_Z as Hz. revert Hz. generalize walk_fuel as f, MAX_NODES as N. intros f N Hz Hk.
  exists (f - k - 1)%nat. lia.
Qed.

(** Two turns a value, and one to finish, are enough for any root container. *)
Lemma walk_root h l :
  exists k, Z.of_nat k <= 2 * MAX_NODES /\
    forall m, walk_run (k + S m) h (MkWalk [open_frame h l []] [l] 0)
              = Some (fst <$> copy_at (MAX_DEPTH - 1) h [l] l 0).
Proof.
  pose proof (simulates_all (MAX_DEPTH - 1) h (open_frame h l []) [] [l] 0 eq_refl eq_refl
    ltac:(unfold MAX_NODES; lia)) as Hr.
  change (copy_at (MAX_DEPTH - 1) h [l] l 0) with
    ('(cs, n') ← copy_slots (fun c m => copy_at (MAX_DEPTH - 2) h ([l] ++ [c]) c m)
       h (is_array (h l)) [l] (slots_of (h l)) 0;
     Ok (finished (is_array (h l)) cs, n')).
  simpl in Hr. destruct (copy_slots _ _ _ _ _ _) as [[cs n'] | e]; simpl in Hr.
  - destruct Hr as (Hle & k & Hk & Hw). exists k. split; [lia|]. intros m.
    by rewrite (walk_run_walks _ _ _ _ _ Hw).
  - destruct Hr as (k & w' & Hk & Hw & He). exists k. split; [lia|]. intros m.
    rewrite (walk_run_walks _ _ _ _ _ Hw). simpl. by rewrite He.
Qed.

Lemma admit_eq h root : admitValue h root = Some (copy_root h root).
Proof.
  unfold admitValue, copy_root. destruct (admitLeaf h root) as [[j|]|e]; [done| |done].
  destruct root as [ | | | | | | | |l]; try done.
  destruct (walk_root h l) as (k & Hk & Hrun). destruct (walk_fuel_split k Hk) as [m Hm].
  rewrite Hm, Hrun. done.
Qed.

(** ** What a copy satisfies *)

(** The trees text can carry without loss: numbers finite and not negative zero,
    names distinct. *)
Unset Elimination Schemes.
Inductive canonical : json -> Prop :=
  | cn_null : canonical JNull
  | cn_bool b : canonical (JBool b)
  | cn_num x : isFinite x = true -> x <> neg0 -> canonical (JNum x)
  | cn_str s : canonical (JStr s)
  | cn_arr l : Forall canonical l -> canonical (JArr l)
  | cn_obj f : NoDup f.*1 -> Forall (fun p => canonical p.2) f -> canonical (JObj f).
Set Elimination Schemes.

(** [JSON.parse] reads back what [JSON.stringify] wrote. *)
Class JsonTextLaws (T : JsonText) : Prop := {
  parse_stringify j : canonical j -> parse (stringify j) = Some j;
}.

Lemma admitLeaf_ok h v j : admitLeaf h v = Ok (Some j) -> (forall d, wire_ok d j) /\ canonical j.
Proof.
  destruct v as [ | |b|x|s| | | |l]; simpl; try done.
  - intros [= <-]. split; [intros; constructor|constructor].
  - intros [= <-]. split; [intros; constructor|constructor].
  - destruct (is_nan x) eqn:En; [done|]. destruct (isFinite x) eqn:Ef; [|done]. intros [= <-].
    split; [intros d|]; constructor; by destruct x as [[]| | |].
  - intros [= <-]. split; [intros; constructor|constructor].
  - by destruct (h l).
Qed.

Definition copies_ok (d : nat) (f : nat -> Z -> outcome TransportErrorCode (json * Z)) : Prop :=
  forall c m j n', f c m = Ok (j, n') -> wire_ok d j /\ canonical j.

Lemma copy_slots_ok d sub h arr opened slots n cs n' :
  copies_ok d sub ->
  (arr = false -> Forall (fun p => p.2 <> Hole) slots) ->
  copy_slots sub h arr opened slots n = Ok (cs, n') ->
  Forall (fun p => (arr = false -> reserved p.1 = false) /\ wire_ok d p.2 /\ canonical p.2) cs
  /\ cs.*1 = slots.*1.
Proof.
  intros Hsub. revert n cs n'. induction slots as [|[k sl] rest IH]; intros n cs n' Hhole Hc.
  { simpl in Hc. injection Hc as <- <-. done. }
  simpl in Hc. destruct (MAX_NODES <? n + 1); [done|].
  apply outcome_bind_Ok in Hc as ([j n1] & Hj & Hc).
  apply outcome_bind_Ok in Hc as ([cs1 n2] & Hcs & Hc). injection Hc as <- <-.
  destruct (IH _ _ _ ltac:(intros Ha; by apply Hhole in Ha as [_ ?]%Forall_cons) Hcs) as (IH1 & IH2).
  split; [|csimpl; by rewrite IH2]. constructor; [|done]. simpl.
  destruct sl as [| |v]; [|done|].
  - injection Hj as <- <-. split; [|split; constructor].
    intros Ha. by apply Hhole in Ha as [? _]%Forall_cons.
  - destruct arr; simpl in Hj.
    + split; [done|]. apply outcome_bind_Ok in Hj as ([j'|] & Hl & Hj).
      * injection Hj as <- <-. destruct (admitLeaf_ok _ _ _ Hl). auto.
      * destruct v; try done. case_bool; [done|]. by eapply Hsub.
    + destruct (reserved k) eqn:Er; [done|]. split; [done|].
      apply outcome_bind_Ok in Hj as ([j'|] & Hl & Hj).
      * injection Hj as <- <-. destruct (admitLeaf_ok _ _ _ Hl). auto.
      * destruct v; try done. case_bool; [done|]. by eapply Hsub.
Qed.


Lemma finished_ok d arr cs :
  Forall (fun p => (arr = false -> reserved p.1 = false) /\ wire_ok d p.2 /\ canonical p.2) cs ->
  (arr = false -> NoDup cs.*1) ->
  wire_ok (S d) (finished arr cs) /\ canonical (finished arr cs).
Proof.
  intros Hcs Hnd. unfold finished. destruct arr; split; constructor; try by apply Hnd.
  - apply Forall_fmap. eapply Forall_impl; [exact Hcs|]. simpl. tauto.
  - apply Forall_fmap. eapply Forall_impl; [exact Hcs|]. simpl. tauto.
  - eapply Forall_impl; [exact Hcs|]. simpl. tauto.
  - eapply Forall_impl; [exact Hcs|]. simpl. tauto.
Qed.

Lemma slots_of_plain h l :
  heap_wf h -> is_array (h l) = false ->
  NoDup (slots_of (h l)).*1 /\ Forall (fun p => p.2 <> Hole) (slots_of (h l)).
Proof.
  intros Hwf Ha. specialize (Hwf l). destruct (h l) as [es|ps|]; [done|by apply Hwf|].
  simpl. split; [apply NoDup_nil_2|constructor].
Qed.

Lemma copy_at_ok d h opened l n j n' :
  heap_wf h -> copy_at d h opened l n = Ok (j, n') -> wire_ok (S d) j /\ canonical j.
Proof.
  intros Hwf. revert opened l n j n'. induction d as [|d IH]; intros opened l n j n' Hc; cbn [copy_at] in Hc;
    apply outcome_bind_Ok in Hc as ([cs n1] & Hcs & Hc); injection Hc as <- <-;
    (eapply copy_slots_ok in Hcs as [Hall Hkeys];
    [apply finished_ok; [exact Hall|]; rewrite Hkeys; intros; by apply slots_of_plain
    |intros c m j n' Hj; simpl in Hj
    |intros; by apply slots_of_plain]).
  - done.
  - eapply IH, Hj.
Qed.

Lemma copy_root_ok h root j :
  heap_wf h -> copy_root h root = Ok j -> wire_ok MAX_DEPTH j /\ canonical j.
Proof.
  intros Hwf H. unfold copy_root in H. apply outcome_bind_Ok in H as ([j'|] & Hl & H).
  - injection H as <-. destruct (admitLeaf_ok _ _ _ Hl). auto.
  - destruct root as [ | | | | | | | |l]; try done.
    destruct (copy_at (MAX_DEPTH - 1) h [l] l 0) as [[j1 n1]|] eqn:Hc; [|done].
    injection H as <-. by eapply (copy_at_ok (MAX_DEPTH - 1)).
Qed.

(** ** The decode walk accepts exactly the wire's trees *)

Lemma scan_fields_spec arr depth fs stack :
  match scan_fields arr depth fs stack with
  | Ok stack' =>
    Forall (field_ok arr) fs
    /\ stack' = reverse ((fun p => (p.2, S depth)) <$> filter (fun p => is_container p.2 = true) fs) ++ stack
  | Throw _ => ~ Forall (field_ok arr) fs
  end.
Proof.
  revert stack. induction fs as [|[k v] fs IH]; intros stack; simpl; [done|].
  destruct (negb arr && reserved k) eqn:Er.
  { intros [[Hk _] _]%Forall_cons. simpl in Hk. destruct arr; [done|]. simpl in Er. rewrite Hk in Er; done. }
  assert (Hres : arr = false -> reserved k = false) by (intros ->; exact Er).
  assert (Hskip : forall s', is_container v = false -> (forall d, wire_ok d v) ->
    match scan_fields arr depth fs s' with
    | Ok stack' =>
      Forall (field_ok arr) ((k, v) :: fs)
      /\ stack' = reverse ((fun p => (p.2, S depth)) <$> filter (fun p => is_container p.2 = true) ((k, v) :: fs)) ++ s'
    | Throw _ => ~ Forall (field_ok arr) ((k, v) :: fs)
    end).
  { intros s' Hv Hok. specialize (IH s'). rewrite filter_cons_False by (simpl; by rewrite Hv).
    destruct (scan_fields arr depth fs s'); [|by intros [_ ?]%Forall_cons].
    destruct IH as [IH1 IH2]. split; [|done]. constructor; [|done]. by split. }
  assert (Hpush : is_container v = true ->
    match scan_fields arr depth fs ((v, S depth) :: stack) with
    | Ok stack' =>
      Forall (field_ok arr) ((k, v) :: fs)
      /\ stack' = reverse ((fun p => (p.2, S depth)) <$> filter (fun p => is_container p.2 = true) ((k, v) :: fs)) ++ stack
    | Throw _ => ~ Forall (field_ok arr) ((k, v) :: fs)
    end).
  { intros Hv. specialize (IH ((v, S depth) :: stack)). rewrite filter_cons_True by done.
    destruct (scan_fields arr depth fs _); [|by intros [_ ?]%Forall_cons].
    destruct IH as [IH1 ->]. split; [constructor; [|done]; split; simpl; [done|congruence]|].
    csimpl. by rewrite reverse_cons, <- app_assoc. }
  destruct v as [ |b|x|s|l|f]; simpl;
    try (apply Hskip; [done|intros; constructor]); try (by apply Hpush).
  destruct (isFinite x) eqn:Ex.
  - apply Hskip; [done|]. intros. by constructor.
  - intros [[_ Hx] _]%Forall_cons. specialize (Hx eq_refl 0%nat). inversion Hx. simpl in *. congruence.
Qed.

Definition stack_nodes (stack : list (json * nat)) : nat :=
  foldr (fun p n => (S (jnodes p.1) + n)%nat) 0%nat stack.

Lemma stack_nodes_app s s' : stack_nodes (s ++ s') = (stack_nodes s + stack_nodes s')%nat.
Proof. induction s as [|p s IH]; simpl; [done|]. rewrite IH. lia. Qed.

Lemma stack_nodes_children j depth :
  (stack_nodes (reverse ((fun p => (p.2, depth)) <$> filter (fun p => is_container p.2 = true) (own_fields j)))
   <= jnodes j)%nat.
Proof.
  assert (Hrev : forall s, stack_nodes (reverse s) = stack_nodes s).
  { intros s. induction s as [|p s IH]; [done|]. rewrite reverse_cons, stack_nodes_app, IH. simpl. lia. }
  rewrite Hrev, jnodes_children.
  assert (Hgen : forall fs : list (jstr * json),
    (stack_nodes ((fun p => (p.2, depth)) <$> filter (fun p => is_container p.2 = true) fs)
     <= foldr (fun x n => (S (jnodes x) + n)%nat) 0%nat fs.*2)%nat).
  { induction fs as [|[k v] fs IH]; csimpl; [lia|]. rewrite filter_cons. case_decide; csimpl; simpl in *; lia. }
  destruct j as [ | | | |l|f]; simpl; try lia; [|apply Hgen].
  specialize (Hgen ((fun x => ([], x)) <$> l)). by rewrite <- list_fmap_compose, list_fmap_id in Hgen.
Qed.

Lemma decode_walk_spec fuel stack :
  (stack_nodes stack < fuel)%nat ->
  Forall (fun p => is_container p.1 = true) stack ->
  exists r, decode_walk fuel stack = Some r
    /\ (r = Ok tt <-> Forall (fun p => wire_ok (S MAX_DEPTH - p.2) p.1) stack).
Proof.
  revert stack. induction fuel as [|fuel IH]; intros stack Hf Hc; [lia|]. cbn [decode_walk].
  destruct stack as [|[node depth] stack]; [by exists (Ok tt)|].
  apply Forall_cons in Hc as [Hn Hc]. simpl in Hn.
  destruct (decide (MAX_DEPTH < depth)%nat) as [Hdeep|Hdeep].
  { eexists. split; [done|]. split; [done|]. intros [Hw _]%Forall_cons. cbn [fst snd] in Hw.
    replace (S MAX_DEPTH - depth)%nat with 0%nat in Hw by lia.
    inversion Hw; subst; done. }
  pose proof (scan_fields_spec (is_arr node) depth (own_fields node) stack) as Hs.
  replace (S MAX_DEPTH - depth)%nat with (S (MAX_DEPTH - depth)) by lia.
  destruct (scan_fields _ _ _ _) as [stack'|e].
  - destruct Hs as [Hok ->]. simpl in Hf.
    destruct (IH (reverse ((fun p => (p.2, S depth)) <$>
      filter (fun p => is_container p.2 = true) (own_fields node)) ++ stack)) as (r & Hr & Hiff).
    { rewrite stack_nodes_app. pose proof (stack_nodes_children node (S depth)). lia. }
    { apply Forall_app. split; [|done]. rewrite Forall_reverse, Forall_fmap, Forall_forall.
      intros x [Hx _]%list_elem_of_filter. exact Hx. }
    exists r. split; [done|]. rewrite Hiff, Forall_app, Forall_reverse, Forall_fmap, Forall_cons.
    replace (wire_ok (S MAX_DEPTH - (node, depth).2) (node, depth).1)
      with (wire_ok (S (MAX_DEPTH - depth)) node) by (f_equal; simpl; lia).
    rewrite wire_ok_node by done. rewrite !Forall_forall.
    setoid_rewrite list_elem_of_filter. simpl. split; [|naive_solver].
    intros [H1 H2]. split; [|done]. split; [|naive_solver]. by apply Forall_forall.
  - eexists. split; [done|]. split; [done|]. intros [Hw _]%Forall_cons. exfalso. apply Hs.
    cbn [fst snd] in Hw. replace (S MAX_DEPTH - depth)%nat with (S (MAX_DEPTH - depth)) in Hw by lia.
    by apply wire_ok_node in Hw as [? _].
Qed.

Lemma admitDecoded_spec j :
  exists r, admitDecoded j = Some r /\ (r = Ok tt <-> wire_ok MAX_DEPTH j).
Proof.
  assert (Hcont : is_container j = true -> exists r,
    decode_walk (S (S (jnodes j))) [(j, 1%nat)] = Some r /\ (r = Ok tt <-> wire_ok MAX_DEPTH j)).
  { intros Hj. destruct (decode_walk_spec (S (S (jnodes j))) [(j, 1%nat)]) as (r & Hr & Hiff);
      [simpl; lia|by constructor|].
    exists r. split; [done|]. rewrite Hiff, Forall_singleton. done. }
  destruct j as [ |b|x|s|l|f]; simpl; try (by apply Hcont);
    try (exists (Ok tt); split; [done|]; split; [intros; constructor|done]).
  eexists. split; [done|]. destruct (isFinite x) eqn:E.
  - split; [intros; by constructor|done].
  - split; [done|]. intros H. inversion H. congruence.
Qed.

Lemma json_decode_ok `{T : JsonText} s j :
  utf8ByteLength s <= MAX_FRAME_BYTES -> parse s = Some j -> wire_ok MAX_DEPTH j ->
  json_decode (FText s) = Ok j.
Proof.
  intros Hs Hp Hj. unfold json_decode. rewrite (proj2 (Z.ltb_ge _ _)) by done. rewrite Hp.
  destruct (admitDecoded_spec j) as (r & -> & Hr). by rewrite (proj2 Hr Hj).
Qed.

Lemma json_decode_inv `{T : JsonText} f j :
  json_decode f = Ok j ->
  exists s, f = FText s /\ utf8ByteLength s <= MAX_FRAME_BYTES /\ parse s = Some j /\ wire_ok MAX_DEPTH j.
Proof.
  destruct f as [s|n]; simpl; [|done]. destruct (MAX_FRAME_BYTES <? _) eqn:E; [done|]. bool_facts.
  destruct (parse s) as [j'|] eqn:Ep; [|done].
  destruct (admitDecoded_spec j') as (r & -> & Hr). destruct r as [[]|e]; [|done]. intros [= ->].
  exists s. split_and!; try done. by apply Hr.
Qed.

Lemma json_roundtrip `{T : JsonText} `{!JsonTextLaws T} m f :
  json_encode m = Ok f -> frame_length f <= MAX_FRAME_BYTES ->
  exists j, copy_root (m_heap m) (m_root m) = Ok j /\ json_decode f = Ok j.
Proof.
  unfold json_encode. rewrite admit_eq. destruct (copy_root _ _) as [j|e] eqn:Hc; [|done].
  intros [= <-] Hl. destruct (copy_root_ok _ _ _ (m_wf m) Hc) as [Hw Hcan].
  exists j. split; [done|]. apply json_decode_ok; [done|by apply parse_stringify|done].
Qed.


#[export] Instance jsonCodec_laws `{T : JsonText} `{!JsonTextLaws T} : CodecLaws jsonCodec.
Proof.
  split.
  - intros [s|n]; simpl; [|lia]. pose proof (utf8ByteLength_bounds s). lia.
  - intros m f He Hf. destruct (json_roundtrip m f He Hf) as (j & _ & Hj). by exists j.
Qed.

(** ** A text to run the model on

    Prefix notation over code units: a tag, then the parts, lists by length. It
    stands in for JSON text where a concrete [JsonText] is needed. *)
Definition num_text (x : num) : list Z :=
  match x with
  | S754_zero b => [0; if b then 1 else 0]
  | S754_infinity b => [1; if b then 1 else 0]
  | S754_nan => [2]
  | S754_finite b m e => [3; if b then 1 else 0; Zpos m; e]
  end.

Fixpoint prefix_text (j : json) : list Z :=
  match j with
  | JNull => [0]
  | JBool b => [1; if b then 1 else 0]
  | JNum x => 2 :: num_text x
  | JStr s => 3 :: Z.of_nat (length s) :: s
  | JArr l => 4 :: Z.of_nat (length l) :: concat (map prefix_text l)
  | JObj f =>
    5 :: Z.of_nat (length f)
    :: concat (map (fun p => let '(k, v) := p in Z.of_nat (length k) :: k ++ prefix_text v) f)
  end.

Definition parse_num (s : list Z) : option (num * list Z) :=
  match s with
  | 0 :: b :: s' => Some (S754_zero (b =? 1), s')
  | 1 :: b :: s' => Some (S754_infinity (b =? 1), s')
  | 2 :: s' => Some (S754_nan, s')
  | 3 :: b :: Zpos m :: e :: s' => Some (S754_finite (b =? 1) m e, s')
  | _ => None
  end.

Definition parse_string (s : list Z) : option (list Z * list Z) :=
  match s with
  | n :: s' => Some (take (Z.to_nat n) s', drop (Z.to_nat n) s')
  | [] => None
  end.

Fixpoint parse_many {A} (p : list Z -> option (A * list Z)) (n : nat) (s : list Z) : option (list A * list Z) :=
  match n with
  | O => Some ([], s)
  | S n' => '(x, s') ← p s; '(xs, s'') ← parse_many p n' s'; Some (x :: xs, s'')
  end.

Fixpoint parse_prefix (fuel : nat) (s : list Z) : option (json * list Z) :=
  match fuel with
  | O => None
  | S fuel' =>
    match s with
    | 0 :: s' => Some (JNull, s')
    | 1 :: b :: s' => Some (JBool (b =? 1), s')
    | 2 :: s' => '(x, s'') ← parse_num s'; Some (JNum x, s'')
    | 3 :: s' => '(t, s'') ← parse_string s'; Some (JStr t, s'')
    | 4 :: n :: s' => '(l, s'') ← parse_many (parse_prefix fuel') (Z.to_nat n) s'; Some (JArr l, s'')
    | 5 :: n :: s' =>
      '(f, s'') ← parse_many (fun s => '(k, s1) ← parse_string s; '(v, s2) ← parse_prefix fuel' s1;
                                       Some ((k, v), s2)) (Z.to_nat n) s';
      Some (JObj f, s'')
    | _ => None
    end
  end.

Definition prefixText : JsonText := {|
  stringify := prefix_text;
  parse s := fst <$> parse_prefix (S (length s)) s;
|}.

Lemma parse_string_text k s : parse_string (Z.of_nat (length k) :: k ++ s) = Some (k, s).
Proof. unfold parse_string. by rewrite Nat2Z.id, take_app_length, drop_app_length. Qed.

Lemma parse_num_text x s : parse_num (num_text x ++ s) = Some (x, s).
Proof. by destruct x as [[]|[]| |[]]. Qed.

Lemma parse_many_text {A} (p : list Z -> option (A * list Z)) (text : A -> list Z) l s :
  Forall (fun x => forall s, p (text x ++ s) = Some (x, s)) l ->
  parse_many p (length l) (concat (map text l) ++ s) = Some (l, s).
Proof.
  induction 1 as [|x l Hx _ IH]; simpl; [done|]. rewrite <- app_assoc, Hx. simpl. by rewrite IH.
Qed.

Lemma length_concat_elem (l : list (list Z)) x : x ∈ l -> (length x <= length (concat l))%nat.
Proof. induction 1; simpl; rewrite length_app; lia. Qed.

Lemma parse_prefix_text j fuel s :
  (length (prefix_text j) <= fuel)%nat -> parse_prefix fuel (prefix_text j ++ s) = Some (j, s).
Proof.
  revert fuel s. induction j as [ |b|x|t|l IH|f IH] using json_ind; intros [|fuel] s Hf;
    simpl in Hf; try lia; cbn [parse_prefix prefix_text app].
  - done.
  - by destruct b.
  - by rewrite parse_num_text.
  - by rewrite parse_string_text.
  - rewrite Nat2Z.id, (parse_many_text _ prefix_text); [done|].
    rewrite Forall_forall in IH |- *. intros x Hx s'. apply IH; [done|].
    pose proof (length_concat_elem (map prefix_text l) (prefix_text x)
      ltac:(apply list_elem_of_fmap; by exists x)). lia.
  - rewrite Nat2Z.id.
    rewrite (parse_many_text _ (fun p : jstr * json => let '(k, v) := p in
      Z.of_nat (length k) :: k ++ prefix_text v)); [done|].
    rewrite Forall_forall in IH |- *. intros [k v] Hx s'. cbn [app].
    rewrite <- app_assoc, parse_string_text. simpl. rewrite (IH (k, v) Hx); [done|].
    pose proof (length_concat_elem (map (fun p : jstr * json => let '(k, v) := p in
        Z.of_nat (length k) :: k ++ prefix_text v) f) (Z.of_nat (length k) :: k ++ prefix_text v)
      ltac:(apply list_elem_of_fmap; by exists (k, v))) as Hl.
    simpl in Hl. rewrite length_app in Hl. simpl. lia.
Qed.

#[export] Instance prefixText_laws : JsonTextLaws prefixText.
Proof.
  split. intros j _. change (fst <$> parse_prefix (S (length (prefix_text j))) (prefix_text j) = Some j).
  pose proof (parse_prefix_text j (S (length (prefix_text j))) [] ltac:(lia)) as H.
  rewrite app_nil_r in H. by rewrite H.
Qed.

(** ** Properties *)

(** The iterative encode walk is the recursive copy. For every value over every
    heap, shared and cyclic ones included, the explicit-stack walk ends within its
    fuel and returns exactly what copying recursively returns: the same tree, or
    the same refusal, with the same limits on nesting (128 containers on a path) and
    on size (a million values, a shared object counted once per reference). *)
Theorem encode_walk_is_recursive_copy (h : heap) (root : jsval) :
  admitValue h root = Some (copy_root h root).
Proof. apply admit_eq. Qed.

(** C4. The two directions agree. A frame [encode] makes carries a tree with finite
    numbers, no reserved key and at most 128 levels, and [decode] of it, if it is
    within the byte cap, returns exactly the copy [encode] took of the message. *)
Theorem codec_roundtrip `{T : JsonText} `{!JsonTextLaws T} (m : Outgoing) (f : frame)
    (Henc : encode m = Ok f) (Hcap : byteLength f <= MAX_FRAME_BYTES) :
  exists j, copy_root (m_heap m) (m_root m) = Ok j /\ wire_ok MAX_DEPTH j /\ decode f = Ok j.
Proof.
  destruct (json_roundtrip m f Henc Hcap) as (j & Hc & Hd).
  exists j. split_and!; [done|by eapply copy_root_ok; [apply m_wf|]|done].
Qed.

Definition sample_heap : heap := fun l =>
  match l with
  | O => OPlain [(js "kind", Data (VStr (js "input"))); (js "actions", Data (VRef 1)); (js "v", Data (VNum neg0))]
  | 1%nat => OArray [Some (VRef 2); None; Some (VRef 2)]
  | 2%nat => OPlain [(js "n", Data (VNum (of_Z 7)))]
  | _ => OOther
  end.

Lemma sample_heap_wf : heap_wf sample_heap.
Proof.
  intros [|[|[|l]]] ps; simpl; try done; intros [= <-]; split; try (by repeat constructor);
    apply (bool_decide_unpack _); vm_compute; exact I.
Qed.

Definition sample_message : Outgoing := MkOutgoing sample_heap (VRef 0) sample_heap_wf.

Lemma codec_roundtrip_witness :
  exists j, copy_root sample_heap (VRef 0) = Ok j /\ wire_ok MAX_DEPTH j
    /\ decode (Codec := jsonCodec (T := prefixText)) (FText (prefix_text j)) = Ok j.
Proof.
  assert (Henc : encode (Codec := jsonCodec (T := prefixText)) sample_message
    = Ok (FText (match copy_root sample_heap (VRef 0) with Ok j => prefix_text j | _ => [] end))).
  { simpl. unfold json_encode. simpl m_heap. simpl m_root. rewrite admit_eq. vm_compute. reflexivity. }
  destruct (codec_roundtrip (T := prefixText) sample_message _ Henc) as (j & Hc & Hw & Hd).
  { apply Z.leb_le. vm_compute. reflexivity. }
  exists j. split; [exact Hc|]. split; [exact Hw|]. simpl m_heap in Hc. simpl m_root in Hc.
  rewrite Hc in Hd. exact Hd.
Defined.

(** Decode admits exactly the wire's trees. A frame decodes iff it is text within
    four mebibytes that parses to a tree with finite numbers, no reserved object key
    and at most 128 levels, and then the message is that tree; the walk over the
    parsed tree always ends. *)
Theorem decode_admits_exactly `{T : JsonText} (f : frame) (j : json) :
  decode f = Ok j
  <-> exists s, f = FText s /\ utf8ByteLength s <= MAX_FRAME_BYTES
        /\ parse s = Some j /\ wire_ok MAX_DEPTH j.
Proof.
  split; [apply json_decode_inv|]. intros (s & -> & Hs & Hp & Hj). by apply json_decode_ok.
Qed.
