(* ===== verification/Inbox.v ===== *)
(** * The frame inbox ([packages/transport/src/inbox.ts])

    One FIFO per connection end, holding frames and the terminal close marker. The
    class is modelled operation by operation; [drain]'s loop is split at the calls
    to the handlers, because a handler may re-enter the inbox there: [drain_turn] is
    one pass of the loop body and says which handler it calls, and a history is any
    interleaving of turns with the other operations. [drain_quiet] is the whole loop
    under handlers that do not touch the inbox. Handlers are identified by a number,
    which is what [===] on them compares. *)

From S2P Require Import Prelude Codec.

Local Open Scope Z_scope.

Section Inbox.
Context {Frame Outgoing Message Err : Type} `{C : Codec Frame Outgoing Message Err}.

Inductive item := IFrame (f : Frame) | CLOSE_MARKER.

Record Queued := MkQueued { q_item : item; q_bytes : Z; q_due : Z }.

Record FrameInbox := MkInbox {
  entries : list Queued;
  head : nat;
  onMessage : option nat;
  onClose : option nat;
  closeFired : bool;
  queuedBytes : Z;
  maxRetainedBytes : Z;
}.

Definition new_inbox (cap : Z) : FrameInbox := MkInbox [] 0 None None false 0 cap.

Inductive inbox_error := HandlerTaken.

Definition set_entries (b : FrameInbox) es h :=
  MkInbox es h (onMessage b) (onClose b) (closeFired b) (queuedBytes b) (maxRetainedBytes b).

(** [enqueue]: the new inbox and whether the frame was kept; [None] is the call to
    [policy.onOverflow] with the bytes retained and the bytes refused. *)
Definition enqueue (b : FrameInbox) (f : Frame) (due : Z) : FrameInbox + (Z * Z) :=
  let bytes := byteLength f in
  if bool_decide (onMessage b = None) && (maxRetainedBytes b <? queuedBytes b + bytes)
  then inr (queuedBytes b, bytes)
  else inl (MkInbox (entries b ++ [MkQueued (IFrame f) bytes due]) (head b) (onMessage b)
              (onClose b) (closeFired b) (queuedBytes b + bytes) (maxRetainedBytes b)).

Definition queueClose (b : FrameInbox) (due : Z) : FrameInbox :=
  set_entries b (entries b ++ [MkQueued CLOSE_MARKER 0 due]) (head b).

Definition age_entry (q : Queued) : Queued :=
  if 0 <? q_due q then MkQueued (q_item q) (q_bytes q) (q_due q - 1) else q.

Definition age (b : FrameInbox) : FrameInbox :=
  set_entries b (take (head b) (entries b) ++ (age_entry <$> drop (head b) (entries b))) (head b).

Definition deliverable (b : FrameInbox) : bool :=
  match entries b !! head b with
  | None => false
  | Some next =>
      if 0 <? q_due next then false
      else match q_item next with
           | CLOSE_MARKER => bool_decide (onClose b <> None)
           | IFrame _ => bool_decide (onMessage b <> None)
           end
  end.

Definition compact (b : FrameInbox) : FrameInbox :=
  if bool_decide (head b = 0%nat) then b
  else if bool_decide (length (entries b) <= head b)%nat then set_entries b [] 0
  else if bool_decide (1024 <= head b /\ length (entries b) <= head b * 2)%nat
  then set_entries b (drop (head b) (entries b)) 0
  else b.

(** What one pass of [drain]'s loop did. *)
Inductive turn :=
  | Stopped                        (** [break]: compact and return *)
  | Skipped                        (** a second marker, consumed in silence *)
  | CallClose (h : nat)
  | CallMessage (h : nat) (m : Message)
  | DecodeFailed (e : Err).        (** [policy.onDecodeFailure]; no compaction *)

Definition consume (b : FrameInbox) (bytes : Z) : FrameInbox :=
  MkInbox (entries b) (S (head b)) (onMessage b) (onClose b) (closeFired b)
    (queuedBytes b - bytes) (maxRetainedBytes b).

Definition latch_close (b : FrameInbox) : FrameInbox :=
  MkInbox (entries b) (head b) (onMessage b) (onClose b) true
    (queuedBytes b) (maxRetainedBytes b).

Definition drain_turn (b : FrameInbox) : FrameInbox * turn :=
  match entries b !! head b with
  | None => (b, Stopped)
  | Some next =>
      if 0 <? q_due next then (b, Stopped)
      else
        match q_item next with
        | CLOSE_MARKER =>
            match onClose b with
            | None => (b, Stopped)
            | Some h =>
                let b1 := consume b 0 in
                if closeFired b then (b1, Skipped) else (latch_close b1, CallClose h)
            end
        | IFrame f =>
            match onMessage b with
            | None => (b, Stopped)
            | Some h =>
                let b1 := consume b (q_bytes next) in
                match decode f with
                | Throw e => (b1, DecodeFailed e)
                | Ok m => (b1, CallMessage h m)
                end
            end
        end
  end.

(** [registerMessage] and [registerClose] up to the [drain] they end with. *)
Definition registerMessage (b : FrameInbox) (h : nat) : outcome inbox_error FrameInbox :=
  match onMessage b with
  | Some _ => Throw HandlerTaken
  | None => Ok (MkInbox (entries b) (head b) (Some h) (onClose b) (closeFired b)
                  (queuedBytes b) (maxRetainedBytes b))
  end.

Definition registerClose (b : FrameInbox) (h : nat) : outcome inbox_error FrameInbox :=
  match onClose b with
  | Some _ => Throw HandlerTaken
  | None => Ok (MkInbox (entries b) (head b) (onMessage b) (Some h) (closeFired b)
                  (queuedBytes b) (maxRetainedBytes b))
  end.

(** The disposers the two return: only the handler that registered is removed. *)
Definition disposeMessage (b : FrameInbox) (h : nat) : FrameInbox :=
  if bool_decide (onMessage b = Some h)
  then MkInbox (entries b) (head b) None (onClose b) (closeFired b)
         (queuedBytes b) (maxRetainedBytes b)
  else b.

Definition disposeClose (b : FrameInbox) (h : nat) : FrameInbox :=
  if bool_decide (onClose b = Some h)
  then MkInbox (entries b) (head b) (onMessage b) None (closeFired b)
         (queuedBytes b) (maxRetainedBytes b)
  else b.

(** [drain] under handlers that leave the inbox alone; the fuel is the number of
    loop passes. [None] means the fuel ran out. *)
Fixpoint drain_quiet (fuel : nat) (b : FrameInbox) : option (FrameInbox * list turn) :=
  match fuel with
  | O => None
  | S n =>
      match drain_turn b with
      | (b', Stopped) => Some (compact b', [])
      | (b', DecodeFailed e) => Some (b', [DecodeFailed e])
      | (b', t) =>
          match drain_quiet n b' with
          | Some (b'', ts) => Some (b'', t :: ts)
          | None => None
          end
      end
  end.

(** ** Histories *)

Inductive inbox_op :=
  | OpEnqueue (f : Frame) (due : Z)
  | OpQueueClose (due : Z)
  | OpAge
  | OpTurn
  | OpCompact
  | OpRegisterMessage (h : nat)
  | OpRegisterClose (h : nat)
  | OpDisposeMessage (h : nat)
  | OpDisposeClose (h : nat).

(** An accepted entry: what it is, the delay it came with, and how many ages the
    inbox had seen when it came. *)
Record arrival := MkArrival { a_item : item; a_due : Z; a_at : Z }.

(** An inbox with the record of what it accepted, in order; what it consumed, each
    with the age count at that moment; and what each consuming turn did. *)
Record log := MkLog {
  box : FrameInbox;
  ages : Z;
  accepted : list arrival;
  consumed : list (item * Z);
  called : list turn;
}.

Definition new_log (cap : Z) : log := MkLog (new_inbox cap) 0 [] [] [].

Definition log_box (l : log) (b : FrameInbox) : log :=
  MkLog b (ages l) (accepted l) (consumed l) (called l).

Definition log_accept (l : log) (b : FrameInbox) (i : item) (due : Z) : log :=
  MkLog b (ages l) (accepted l ++ [MkArrival i due (ages l)]) (consumed l) (called l).

Definition log_turn (l : log) : log :=
  match entries (box l) !! head (box l), drain_turn (box l) with
  | None, (b, _) | _, (b, Stopped) => log_box l b
  | Some q, (b, t) =>
      MkLog b (ages l) (accepted l) (consumed l ++ [(q_item q, ages l)]) (called l ++ [t])
  end.

Definition inbox_step (l : log) (op : inbox_op) : log :=
  let b := box l in
  match op with
  | OpEnqueue f due =>
      match enqueue b f due with inl b' => log_accept l b' (IFrame f) due | inr _ => l end
  | OpQueueClose due => log_accept l (queueClose b due) CLOSE_MARKER due
  | OpAge => MkLog (age b) (ages l + 1) (accepted l) (consumed l) (called l)
  | OpTurn => log_turn l
  | OpCompact => log_box l (compact b)
  | OpRegisterMessage h =>
      match registerMessage b h with Ok b' => log_box l b' | Throw _ => l end
  | OpRegisterClose h =>
      match registerClose b h with Ok b' => log_box l b' | Throw _ => l end
  | OpDisposeMessage h => log_box l (disposeMessage b h)
  | OpDisposeClose h => log_box l (disposeClose b h)
  end.

Definition inbox_history (cap : Z) (ops : list inbox_op) : log :=
  fold_left inbox_step ops (new_log cap).

(** ** Invariants of a history *)

Definition pending (b : FrameInbox) : list Queued := drop (head b) (entries b).

Definition item_bytes (i : item) : Z :=
  match i with IFrame f => byteLength f | CLOSE_MARKER => 0 end.

Definition sum_bytes (qs : list Queued) : Z := foldr (fun q z => q_bytes q + z) 0 qs.

(** A queued entry stands for an arrival: nothing of its delay has been skipped. *)
Definition stands_for (now : Z) (a : arrival) (q : Queued) : Prop :=
  a_item a = q_item q /\ q_bytes q = item_bytes (q_item q) /\ a_at a + a_due a <= now + q_due q.

(** A consumed entry was an arrival whose delay had run out. *)
Definition served (a : arrival) (c : item * Z) : Prop :=
  a_item a = c.1 /\ a_at a + a_due a <= c.2.

(** What a turn owes the item it consumed. *)
Definition answers (c : item * Z) (t : turn) : Prop :=
  match c.1, t with
  | IFrame f, CallMessage _ m => decode f = Ok m
  | IFrame f, DecodeFailed e => decode f = Throw e
  | CLOSE_MARKER, CallClose _ => True
  | CLOSE_MARKER, Skipped => True
  | _, _ => False
  end.

Definition is_close (t : turn) : bool := match t with CallClose _ => true | _ => false end.

Record log_ok (l : log) : Prop := {
  ok_queue : exists done wait, accepted l = done ++ wait /\
    Forall2 served done (consumed l) /\ Forall2 (stands_for (ages l)) wait (pending (box l));
  ok_bytes : queuedBytes (box l) = sum_bytes (pending (box l));
  ok_head : (head (box l) <= length (entries (box l)))%nat;
  ok_called : Forall2 answers (consumed l) (called l);
  ok_close : length (filter is_close (called l)) = if closeFired (box l) then 1%nat else 0%nat;
}.

Lemma sum_bytes_app qs qs' : sum_bytes (qs ++ qs') = sum_bytes qs + sum_bytes qs'.
Proof. unfold sum_bytes. induction qs; simpl; lia. Qed.

Lemma sum_bytes_age qs : sum_bytes (age_entry <$> qs) = sum_bytes qs.
Proof.
  unfold sum_bytes. induction qs as [|q qs IH]; [done|]. csimpl. rewrite IH.
  unfold age_entry. by case_bool.
Qed.

(** Operations that change neither the queue nor the byte count nor the latch. *)
Definition same_queue (b b' : FrameInbox) : Prop :=
  pending b' = pending b /\ queuedBytes b' = queuedBytes b /\ closeFired b' = closeFired b /\
  (head b' <= length (entries b'))%nat.

Lemma log_box_ok l b : log_ok l -> same_queue (box l) b -> log_ok (log_box l b).
Proof.
  intros [Hq Hb Hh Hc Hf] (Hp & Hqb & Hcf & Hlen). constructor; simpl; rewrite ?Hp, ?Hqb, ?Hcf;
    done.
Qed.

Lemma compact_same b : (head b <= length (entries b))%nat -> same_queue b (compact b).
Proof.
  intros Hh. unfold compact, same_queue, pending.
  repeat case_bool; simpl; split_and!; try done; try lia.
  by rewrite drop_ge.
Qed.

Lemma append_ok l b i due bytes :
  log_ok l ->
  b = MkInbox (entries (box l) ++ [MkQueued i bytes due]) (head (box l)) (onMessage (box l))
        (onClose (box l)) (closeFired (box l)) (queuedBytes (box l) + bytes)
        (maxRetainedBytes (box l)) ->
  bytes = item_bytes i -> log_ok (log_accept l b i due).
Proof.
  intros [(dn & wt & Ha & Hd & Hw) Hb Hh Hc Hf] -> ->.
  assert (Hp : drop (head (box l)) (entries (box l) ++ [MkQueued i (item_bytes i) due])
               = pending (box l) ++ [MkQueued i (item_bytes i) due]).
  { unfold pending. by rewrite drop_app_le. }
  constructor; simpl; unfold pending; simpl; rewrite ?Hp; try done.
  - exists dn, (wt ++ [MkArrival i due (ages l)]). rewrite Ha, app_assoc. split; [done|].
    split; [done|]. apply Forall2_app; [done|]. repeat constructor; simpl. lia.
  - rewrite sum_bytes_app, Hb. unfold pending, sum_bytes. simpl. lia.
  - rewrite length_app. simpl. lia.
Qed.

Lemma age_ok l :
  log_ok l -> log_ok (MkLog (age (box l)) (ages l + 1) (accepted l) (consumed l) (called l)).
Proof.
  intros [(dn & wt & Ha & Hd & Hw) Hb Hh Hc Hf].
  assert (Hp : pending (age (box l)) = age_entry <$> pending (box l)).
  { unfold pending, age. simpl. rewrite drop_app_ge by (rewrite length_take; lia).
    rewrite length_take. by replace (_ - _)%nat with 0%nat by lia. }
  constructor; simpl; rewrite ?Hp, ?sum_bytes_age; try done.
  - exists dn, wt. split; [done|]. split; [done|]. apply Forall2_fmap_r.
    eapply Forall2_impl; [done|]. intros a q (? & ? & ?). unfold stands_for, age_entry.
    simpl. destruct (0 <? q_due q) eqn:E; bool_facts; simpl; split_and!; try done; lia.
  - unfold age, pending. simpl. rewrite length_app, length_fmap, length_take, length_drop. lia.
Qed.

(** One consumed entry moves from the queue to the record. *)
Lemma consume_ok l b t q :
  log_ok l -> entries (box l) !! head (box l) = Some q -> q_due q <= 0 ->
  answers (q_item q, ages l) t ->
  entries b = entries (box l) -> head b = S (head (box l)) ->
  queuedBytes b = queuedBytes (box l) - item_bytes (q_item q) ->
  closeFired b = closeFired (box l) || is_close t ->
  closeFired (box l) && is_close t = false ->
  log_ok (MkLog b (ages l) (accepted l) (consumed l ++ [(q_item q, ages l)]) (called l ++ [t])).
Proof.
  intros [(dn & wt & Ha & Hd & Hw) Hb Hh Hc Hf] Hq Hdue Hans He Hhd Hqb Hcf Honce.
  assert (Hp : pending (box l) = q :: pending b).
  { unfold pending. rewrite He, Hhd. by apply drop_S. }
  rewrite Hp in Hw, Hb. apply Forall2_cons_inv_r in Hw as (a & wt' & (? & ? & ?) & Hw' & ->).
  constructor; simpl.
  - exists (dn ++ [a]), wt'. rewrite Ha, <- app_assoc. split; [done|]. split; [|done].
    apply Forall2_app; [done|]. repeat constructor; simpl; [done|lia].
  - unfold sum_bytes in Hb. simpl in Hb. unfold sum_bytes. lia.
  - rewrite He, Hhd. apply lookup_lt_Some in Hq. lia.
  - apply Forall2_app; [done|]. by repeat constructor.
  - rewrite filter_app, length_app, Hf, Hcf. destruct t; simpl in *; destruct (closeFired _); done.
Qed.

Lemma turn_ok l : log_ok l -> log_ok (log_turn l).
Proof.
  intros Hok. unfold log_turn, drain_turn.
  assert (Hstay : log_ok (log_box l (box l))) by (by destruct l).
  destruct (entries (box l) !! head (box l)) as [q|] eqn:Hq; [|done].
  destruct (0 <? q_due q) eqn:Hd; [done|]. bool_facts.
  destruct (q_item q) as [f|] eqn:Hi.
  - destruct (onMessage (box l)) as [h|]; [|done].
    assert (Hb : q_bytes q = byteLength f).
    { destruct Hok as [(dn & wt & _ & _ & Hw) _ _ _ _].
      assert (Hin : pending (box l) !! 0%nat = Some q).
      { unfold pending. rewrite lookup_drop. by rewrite Nat.add_0_r. }
      destruct (Forall2_lookup_r _ _ _ _ _ Hw Hin) as (a & _ & _ & -> & _). by rewrite Hi. }
    destruct (decode f) as [m|e] eqn:Hdec; rewrite <- Hi;
      apply consume_ok; simpl; rewrite ?Hi, ?orb_false_r, ?andb_false_r; simpl; try done; by rewrite Hb.
  - destruct (onClose (box l)) as [h|]; [|done].
    destruct (closeFired (box l)) eqn:Hcf; rewrite <- Hi;
      apply consume_ok; simpl; rewrite ?Hi, ?Hcf; simpl; try done; lia.
Qed.

Lemma inbox_step_ok l op : log_ok l -> log_ok (inbox_step l op).
Proof.
  intros Hok. assert (Hh := ok_head l Hok).
  destruct op; simpl.
  - unfold enqueue. case_bool; [done|]. by eapply append_ok.
  - eapply append_ok; [done| |done]. unfold queueClose, set_entries. simpl.
    by rewrite Z.add_0_r.
  - by apply age_ok.
  - by apply turn_ok.
  - apply log_box_ok; [done|]. by apply compact_same.
  - unfold registerMessage. destruct (onMessage _); [done|]. by apply log_box_ok.
  - unfold registerClose. destruct (onClose _); [done|]. by apply log_box_ok.
  - apply log_box_ok; [done|]. unfold disposeMessage. by case_bool.
  - apply log_box_ok; [done|]. unfold disposeClose. by case_bool.
Qed.

Lemma inbox_history_ok cap ops : log_ok (inbox_history cap ops).
Proof.
  unfold inbox_history. assert (Hinit : log_ok (new_log cap)).
  { constructor; simpl; try done. by exists [], []. }
  revert Hinit. generalize (new_log cap) as l. induction ops as [|op ops IH]; intros l Hl; [done|].
  apply IH. by apply inbox_step_ok.
Qed.

(** ** Draining to the end *)

Lemma drain_turn_head b b' t :
  drain_turn b = (b', t) ->
  (t = Stopped /\ b' = b) \/
  (t <> Stopped /\ entries b' = entries b /\ head b' = S (head b) /\
   (head b < length (entries b))%nat).
Proof.
  unfold drain_turn. destruct (entries b !! head b) as [q|] eqn:Hq; [|intros [= <- <-]; by left].
  apply lookup_lt_Some in Hq. intros Ht.
  destruct (0 <? q_due q); [simplify_eq; by left|].
  destruct (q_item q) as [f|].
  - destruct (onMessage b); [|simplify_eq; by left].
    destruct (decode f); simplify_eq; right; by split_and!.
  - destruct (onClose b); [|simplify_eq; by left].
    destruct (closeFired b); simplify_eq; right; by split_and!.
Qed.

(** The loop stops: each pass consumes an entry, so the backlog plus one is fuel
    enough, whatever the entries are. *)
Lemma drain_quiet_total fuel b :
  (length (pending b) < fuel)%nat -> is_Some (drain_quiet fuel b).
Proof.
  revert b. induction fuel as [|n IH]; intros b Hlen; [lia|]. simpl.
  destruct (drain_turn b) as [b' t] eqn:Ht.
  destruct (drain_turn_head b b' t Ht) as [[-> ->]|(Hne & He & Hh & Hlt)]; [by eexists|].
  destruct (IH b') as [[b'' ts] ->].
  { unfold pending in *. rewrite He, Hh. rewrite length_drop in *. lia. }
  destruct t; try done; by eexists.
Qed.

(** What handlers that are present hear of a backlog that is due and decodes: every
    message in order, up to the close marker's single call. *)
Fixpoint deliveries (hm hc : nat) (fired : bool) (qs : list Queued) : list turn :=
  match qs with
  | [] => []
  | q :: qs' =>
      match q_item q with
      | CLOSE_MARKER =>
          (if fired then Skipped else CallClose hc) :: deliveries hm hc true qs'
      | IFrame f =>
          match decode f with
          | Ok m => CallMessage hm m :: deliveries hm hc fired qs'
          | Throw e => [DecodeFailed e]
          end
      end
  end.

(** A frame the codec accepts, or the marker. *)
Definition decodable (q : Queued) : Prop :=
  match q_item q with IFrame f => exists m, decode f = Ok m | CLOSE_MARKER => True end.

Lemma pending_cons b q qs :
  pending b = q :: qs ->
  entries b !! head b = Some q /\ drop (S (head b)) (entries b) = qs.
Proof.
  unfold pending. intros Hp.
  assert (Hq : entries b !! head b = Some q).
  { rewrite <- (Nat.add_0_r (head b)), <- lookup_drop. by rewrite Hp. }
  split; [done|]. rewrite (drop_S _ q) in Hp by done. by simplify_eq.
Qed.

Lemma pending_nil b : pending b = [] -> entries b !! head b = None.
Proof.
  unfold pending. intros Hp. rewrite <- (Nat.add_0_r (head b)), <- lookup_drop. by rewrite Hp.
Qed.

Lemma drain_quiet_delivers fuel b hm hc :
  (length (pending b) < fuel)%nat -> (head b <= length (entries b))%nat ->
  onMessage b = Some hm -> onClose b = Some hc ->
  Forall (fun q => q_due q <= 0) (pending b) ->
  exists b', drain_quiet fuel b = Some (b', deliveries hm hc (closeFired b) (pending b)) /\
    (Forall decodable (pending b) -> pending b' = []).
Proof.
  revert b. induction fuel as [|n IH]; intros b Hlen Hh Hm Hc Hdue; [lia|]. simpl.
  destruct (pending b) as [|q qs] eqn:Hp.
  - unfold drain_turn. rewrite (pending_nil b Hp). exists (compact b). split; [done|]. intros _.
    destruct (compact_same b Hh) as [-> _]. done.
  - destruct (pending_cons b q qs Hp) as [Hq Hqs].
    pose proof (lookup_lt_Some _ _ _ Hq) as Hlt.
    apply Forall_cons in Hdue as [Hd Hdue].
    assert (Hnd : (0 <? q_due q) = false) by (apply Z.ltb_ge; lia).
    unfold drain_turn. rewrite Hq, Hnd.
    assert (IH' : forall b', entries b' = entries b -> head b' = S (head b) ->
      onMessage b' = Some hm -> onClose b' = Some hc ->
      exists b'', drain_quiet n b' = Some (b'', deliveries hm hc (closeFired b') qs) /\
        (Forall decodable qs -> pending b'' = [])).
    { intros b' He Hhd Hm' Hc'. assert (Hp' : pending b' = qs).
      { unfold pending. by rewrite He, Hhd. }
      rewrite <- Hp'. apply IH; rewrite ?Hp', ?He, ?Hhd; try done. simpl in Hlen. lia. }
    destruct (q_item q) as [f|] eqn:Hi; simpl; rewrite ?Hi.
    + rewrite Hm. destruct (decode f) as [m|e] eqn:Hdec.
      * destruct (IH' (consume b (q_bytes q))) as (b'' & -> & Hend); try done.
        eexists. split; [done|]. intros [_ Hok]%Forall_cons. auto.
      * eexists. split; [done|]. intros [Hf _]%Forall_cons. unfold decodable in Hf.
        rewrite Hi in Hf. destruct Hf. congruence.
    + rewrite Hc. destruct (closeFired b) eqn:Hcf.
      * destruct (IH' (consume b 0)) as (b'' & -> & Hend); try done.
        eexists. split; [simpl; by rewrite Hcf|]. intros [_ Hok]%Forall_cons. auto.
      * destruct (IH' (latch_close (consume b 0))) as (b'' & -> & Hend); try done.
        eexists. split; [done|]. intros [_ Hok]%Forall_cons. auto.
Qed.

(** ** The retention cap *)

Definition unhandled (b : FrameInbox) cap : Prop :=
  onMessage b = None /\ queuedBytes b <= cap /\ maxRetainedBytes b = cap.

Lemma unhandled_step l op cap :
  unhandled (box l) cap -> (forall h, op <> OpRegisterMessage h) ->
  0 <= cap -> log_ok l -> unhandled (box (inbox_step l op)) cap.
Proof.
  intros (Hm & Hb & Hc) Hne Hcap Hok. destruct op; simpl.
  - unfold enqueue. rewrite Hm, Hc, bool_decide_true by done. simpl.
    destruct (cap <? _) eqn:E; simpl; bool_facts; split_and!; done || lia.
  - done.
  - done.
  - unfold log_turn, drain_turn. rewrite Hm. destruct (entries _ !! _) as [q|]; [|done].
    destruct (0 <? _); [done|]. destruct (q_item q); [done|].
    destruct (onClose _); [|done]. destruct (closeFired _); simpl; split_and!; simpl; done || lia.
  - unfold compact. repeat case_bool; done.
  - by destruct (Hne h).
  - unfold registerClose. by destruct (onClose _).
  - unfold disposeMessage. by case_bool.
  - unfold disposeClose. by case_bool.
Qed.

Lemma unhandled_history cap ops :
  0 <= cap -> (forall h, OpRegisterMessage h ∉ ops) ->
  unhandled (box (inbox_history cap ops)) cap.
Proof.
  intros Hcap. induction ops as [|op ops IH] using rev_ind; intros Hne; [done|].
  unfold inbox_history in *. rewrite fold_left_app. apply unhandled_step; [| |done|].
  - apply IH. intros h Hin. apply (Hne h). set_solver.
  - intros h ->. apply (Hne h). set_solver.
  - apply (inbox_history_ok cap ops).
Qed.

Lemma sum_bytes_nonneg `{!CodecLaws C} (as_ : list arrival) (qs : list Queued) now :
  Forall2 (stands_for now) as_ qs -> 0 <= sum_bytes qs.
Proof.
  unfold sum_bytes. induction 1 as [|a q as_ qs (_ & Hb & _) _ IH]; simpl; [done|].
  rewrite Hb. destruct (q_item q) as [f|]; simpl; [|lia]. pose proof (byteLength_nonneg f). lia.
Qed.
End Inbox.

(** ** A codec to run the model on: a number is its own frame and its own size, and
    a negative frame does not decode. *)
Definition number_codec : Codec Z Z Z unit := {|
  encode m := if m <? 0 then Throw tt else Ok m;
  decode f := if f <? 0 then Throw tt else Ok f;
  byteLength f := Z.abs f;
|}.

#[export] Instance number_codec_laws : CodecLaws number_codec.
Proof.
  constructor; simpl; [lia|]. intros m f. destruct (m <? 0) eqn:E; [done|].
  intros [= ->]. rewrite E. intros _. eauto.
Qed.

(** ** Properties *)

(** Exactly-once FIFO delivery: whatever handlers do between the turns of a drain,
    the items consumed followed by the items still queued are the items accepted, in
    arrival order; each consumed frame produced exactly the decoded message (or its
    decode failure), nothing is consumed before its delay has aged away, and
    [onClose] is called at most once. *)
Theorem inbox_fifo_exactly_once {Frame Outgoing Message Err} `{C : Codec Frame Outgoing Message Err}
    (cap : Z) (ops : list inbox_op) :
  let l := inbox_history cap ops in
  (a_item <$> accepted l) = (fst <$> consumed l) ++ (q_item <$> pending (box l)) /\
  Forall2 answers (consumed l) (called l) /\
  Forall2 served (take (length (consumed l)) (accepted l)) (consumed l) /\
  (length (filter is_close (called l)) <= 1)%nat.
Proof.
  intros l. destruct (inbox_history_ok cap ops) as [(dn & wt & Ha & Hd & Hw) _ _ Hc Hf].
  fold l in Ha, Hd, Hw, Hc, Hf. split_and!; [|done| |rewrite Hf; destruct (closeFired _); lia].
  - rewrite Ha, fmap_app. f_equal.
    + clear -Hd. induction Hd as [|a c dn cs [Hac _] _ IH]; csimpl; congruence.
    + clear -Hw. induction Hw as [|a q wt qs [Haq _] _ IH]; csimpl; congruence.
  - rewrite Ha, <- (Forall2_length _ _ _ Hd), take_app_length. done.
Qed.

(** The byte count is the size of what is queued, and while no message handler has
    ever registered it stays within the retention cap. *)
Theorem inbox_retention_bounded {Frame Outgoing Message Err} `{C : Codec Frame Outgoing Message Err}
    `{!CodecLaws C} (cap : Z) (ops : list inbox_op) (Hcap : 0 <= cap)
    (Hnone : forall h, OpRegisterMessage h ∉ ops) :
  let b := box (inbox_history cap ops) in
  queuedBytes b = sum_bytes (pending b) /\ 0 <= queuedBytes b <= cap.
Proof.
  intros b. destruct (inbox_history_ok cap ops) as [(dn & wt & _ & _ & Hw) Hb _ _ _].
  fold b in Hb, Hw. destruct (unhandled_history cap ops Hcap Hnone) as (_ & Hle & _).
  split; [done|]. split; [|done]. rewrite Hb. by eapply sum_bytes_nonneg.
Qed.

Lemma inbox_retention_bounded_witness :
  let b := box (inbox_history (C := number_codec) 10
    [OpEnqueue 4 0; OpQueueClose 0; OpEnqueue 9 0; OpEnqueue 6 0; OpTurn]) in
  queuedBytes b = sum_bytes (pending b) /\ 0 <= queuedBytes b <= 10.
Proof.
  apply (inbox_retention_bounded (C := number_codec)); [lia|].
  intros h. rewrite !not_elem_of_cons. split_and!; try discriminate. apply not_elem_of_nil.
Defined.

(** A drain terminates on any backlog, and when both handlers are registered and
    every queued entry is due it delivers every message in order and calls [onClose]
    once, leaving the queue empty if every frame decodes. *)
Theorem drain_terminates_and_delivers {Frame Outgoing Message Err} `{C : Codec Frame Outgoing Message Err}
    (b : FrameInbox) (hm hc : nat) :
  is_Some (drain_quiet (S (length (pending b))) b) /\
  ((head b <= length (entries b))%nat -> onMessage b = Some hm -> onClose b = Some hc ->
   Forall (fun q => q_due q <= 0) (pending b) ->
   exists b', drain_quiet (S (length (pending b))) b =
       Some (b', deliveries hm hc (closeFired b) (pending b)) /\
     (Forall decodable (pending b) -> pending b' = [])).
Proof.
  split; [apply drain_quiet_total; lia|]. intros. apply drain_quiet_delivers; auto; lia.
Qed.

Definition inbox_two : FrameInbox (Frame := Z) :=
  box (inbox_history (C := number_codec) 100
    [OpEnqueue 4 0; OpEnqueue 5 0; OpQueueClose 0; OpRegisterMessage 1; OpRegisterClose 2]).

Lemma drain_terminates_and_delivers_witness :
  exists b', drain_quiet (C := number_codec) 4 inbox_two =
      Some (b', [CallMessage 1 4; CallMessage 1 5; CallClose 2]) /\
    (Forall (decodable (C := number_codec)) (pending inbox_two) -> pending b' = []).
Proof.
  apply (proj2 (drain_terminates_and_delivers (C := number_codec) inbox_two 1 2)).
  - vm_compute. lia.
  - reflexivity.
  - reflexivity.
  - repeat constructor; vm_compute; discriminate.
Defined.

(** The marker does not stop the loop: an entry queued behind it is delivered by the
    same drain when a message handler is registered. *)
Example drain_passes_the_marker :
  snd <$> drain_quiet (C := number_codec) 9
    (box (inbox_history (C := number_codec) 100
      [OpQueueClose 0; OpEnqueue 7 0; OpRegisterMessage 1; OpRegisterClose 2]))
  = Some [CallClose 2; CallMessage 1 7].
Proof. reflexivity. Qed.
