(* ===== verification/Envelope.v ===== *)
(** * Narrowing inbound frames (the foot of [packages/sim/src/sim.ts])

    A decoded message is untrusted until it is narrowed. The [is...] predicates are
    the type guards of the source, field by field; [asClientEnvelope] then reads the
    typed frame a guard vouches for. [isAdmissiblePayload] walks a request payload
    with an explicit stack. *)

From S2P Require Import Prelude JsMap JsNum Json ActionStates.

Local Open Scope Z_scope.

(** ** Bounds *)

Definition MAX_ACTIONS_PER_FRAME : nat := 32.
Definition MAX_ACTION_NAME_LENGTH : nat := 64.
Definition MAX_INTERACTIONS_PER_FRAME : nat := 16.
Definition MAX_WIDGET_NAME_LENGTH : nat := 64.
Definition MAX_REQUEST_NAME_LENGTH : nat := 64.
Definition MAX_REQUEST_PAYLOAD_NODES : nat := 256.
Definition MAX_REQUESTS_PER_FRAME : nat := 16.
Definition MAX_NAME_LENGTH : nat := 24.
Definition MAX_IDENTITY_LENGTH : nat := 128.
Definition PROTOCOL_VERSION : Z := 3.

(** ** Typed frames *)

Record JoinRequest := MkJoin {
  protocolVersion : num;
  jr_name : jstr;
  clientSentMs : num;
  jr_projectId : jstr;
  jr_projectHash : jstr;
  jr_bundleHash : jstr;
}.

Inductive PointerKind := click | hover_enter | hover_exit.

Inductive Interaction :=
  | IPress (widget : jstr) (screen : option jstr)
  | IPointer (kind : PointerKind) (netId : Z).

Record InteractionFrame := MkInteractions { if_tick : Z; events : list Interaction }.

Record GameRequest := MkRequest { rq_name : jstr; rq_data : option json }.

Record RequestFrame := MkRequests { rf_tick : Z; requests : list GameRequest }.

Record TimeSync := MkTimeSync { ts_clientSentMs : num }.

Inductive ClientToServer :=
  | CJoin (r : JoinRequest)
  | CInput (f : InputFrame)
  | CInteraction (f : InteractionFrame)
  | CRequest (f : RequestFrame)
  | CTimeSync (t : TimeSync).

(** ** Reading a field *)

Definition eq_str (o : option json) (s : string) : bool :=
  match o with Some (JStr t) => bool_decide (t = js s) | _ => false end.

Definition is_number (o : option json) : bool := match o with Some (JNum _) => true | _ => false end.

(** [Number.isFinite] and [Number.isSafeInteger] of an unknown value. *)
Definition is_finite (o : option json) : bool :=
  match o with Some (JNum x) => isFinite x | _ => false end.

Definition safe_integer (o : option json) : option Z :=
  match o with
  | Some (JNum x) =>
    match to_Z x with Some z => if isSafeInteger z then Some z else None | None => None end
  | _ => None
  end.

Definition is_safe_integer (o : option json) : bool :=
  match safe_integer o with Some _ => true | None => false end.

Definition as_num (o : option json) : num := match o with Some (JNum x) => x | _ => NaN end.
Definition as_str (o : option json) : jstr := match o with Some (JStr s) => s | _ => [] end.
Definition as_Z (o : option json) : Z := default 0 (safe_integer o).

(** A string no longer than a bound, and one that is not empty either. *)
Definition isIdentityString (o : option json) : bool :=
  match o with Some (JStr s) => bool_decide (length s <= MAX_IDENTITY_LENGTH)%nat | _ => false end.

Definition name_within (o : option json) (cap : nat) : bool :=
  match o with
  | Some (JStr s) => negb (bool_decide (s = [])) && bool_decide (length s <= cap)%nat
  | _ => false
  end.

(** [Array.isArray], bounded, with every element satisfying a guard. *)
Definition array_of (o : option json) (cap : nat) (guard : json -> bool) : bool :=
  match o with
  | Some (JArr l) => bool_decide (length l <= cap)%nat && forallb guard l
  | _ => false
  end.

Definition elements (o : option json) : list json :=
  match o with Some (JArr l) => l | _ => [] end.

(** ** The guards *)

Definition isJoinRequest (m : json) : bool :=
  is_number (jget m "protocolVersion")
  && match jget m "name" with Some (JStr _) => true | _ => false end
  && is_finite (jget m "clientSentMs")
  && isIdentityString (jget m "projectId")
  && isIdentityString (jget m "projectHash")
  && isIdentityString (jget m "bundleHash").

Definition isWidgetName (o : option json) : bool := name_within o MAX_WIDGET_NAME_LENGTH.

(** ['screen' in e] for an own property of decoded data. *)
Definition isInteraction (e : json) : bool :=
  if negb (is_container e) then false
  else
    let k := jget e "kind" in
    if eq_str k "press" then
      if negb (isWidgetName (jget e "widget")) then false
      else match jget e "screen" with None => true | o => isWidgetName o end
    else if eq_str k "click" || eq_str k "hover-enter" || eq_str k "hover-exit" then
      match safe_integer (jget e "netId") with Some z => 0 <=? z | None => false end
    else false.

Definition isInteractionFrame (m : json) : bool :=
  is_safe_integer (jget m "tick") && array_of (jget m "events") MAX_INTERACTIONS_PER_FRAME isInteraction.

(** One node's keys: the children pushed and the count, or [None] for a refusal. *)
Fixpoint payload_keys (arr : bool) (fs : list (jstr * json)) (nodes : nat) (stack : list json)
    : option (nat * list json) :=
  match fs with
  | [] => Some (nodes, stack)
  | (k, child) :: fs' =>
    if negb arr && reserved k then None
    else if decide (MAX_REQUEST_PAYLOAD_NODES < S nodes)%nat then None
    else
      match child with
      | JNum x => if isFinite x then payload_keys arr fs' (S nodes) (child :: stack) else None
      | _ => payload_keys arr fs' (S nodes) (child :: stack)
      end
  end.

Fixpoint payload_walk (fuel : nat) (nodes : nat) (stack : list json) : option bool :=
  match fuel with
  | O => None
  | S fuel' =>
    match stack with
    | [] => Some true
    | node :: stack' =>
      if negb (is_container node) then payload_walk fuel' nodes stack'
      else
        match payload_keys (is_arr node) (own_fields node) nodes stack' with
        | None => Some false
        | Some (nodes', stack'') => payload_walk fuel' nodes' stack''
        end
    end
  end.

(** Every turn pops one value, and at most one more than the cap is ever pushed. *)
Definition isAdmissiblePayload (payload : json) : bool :=
  match payload_walk (2 + MAX_REQUEST_PAYLOAD_NODES) 0 [payload] with
  | Some b => b
  | None => false
  end.

Definition isPlainObject (j : json) : bool := match j with JObj _ => true | _ => false end.

Definition isGameRequest (r : json) : bool :=
  if negb (is_container r) then false
  else if negb (name_within (jget r "name") MAX_REQUEST_NAME_LENGTH) then false
  else match jget r "data" with
       | None => true
       | Some d => isPlainObject d && isAdmissiblePayload d
       end.

Definition isRequestFrame (m : json) : bool :=
  is_safe_integer (jget m "tick") && array_of (jget m "requests") MAX_REQUESTS_PER_FRAME isGameRequest.

Definition isTimeSync (m : json) : bool := is_finite (jget m "clientSentMs").

Definition isInputAction (a : json) : bool :=
  if negb (is_container a) then false
  else if negb (name_within (jget a "action") MAX_ACTION_NAME_LENGTH) then false
  else
    let on := jget a "on" in
    if negb (eq_str on "press") && negb (eq_str on "release") && negb (eq_str on "hold") then false
    else match jget a "value" with None => true | o => is_finite o end.

Definition isInputFrame (m : json) : bool :=
  is_safe_integer (jget m "tick") && is_safe_integer (jget m "seq")
  && array_of (jget m "actions") MAX_ACTIONS_PER_FRAME isInputAction.

(** ** The typed reading of a narrowed frame *)

Definition join_of (m : json) : JoinRequest :=
  MkJoin (as_num (jget m "protocolVersion")) (as_str (jget m "name")) (as_num (jget m "clientSentMs"))
    (as_str (jget m "projectId")) (as_str (jget m "projectHash")) (as_str (jget m "bundleHash")).

Definition phase_of (o : option json) : EventPhase :=
  if eq_str o "press" then press else if eq_str o "release" then release else hold.

Definition edge_of (a : json) : InputEdge :=
  MkEdge (as_str (jget a "action")) (phase_of (jget a "on"))
    (match jget a "value" with Some (JNum x) => Some x | _ => None end).

Definition input_of (m : json) : InputFrame :=
  MkFrame (as_Z (jget m "seq")) (as_Z (jget m "tick")) (edge_of <$> elements (jget m "actions")).

Definition interaction_of (e : json) : Interaction :=
  let k := jget e "kind" in
  if eq_str k "press" then IPress (as_str (jget e "widget")) (as_str ∘ Some <$> jget e "screen")
  else
    IPointer (if eq_str k "click" then click
              else if eq_str k "hover-enter" then hover_enter else hover_exit)
      (as_Z (jget e "netId")).

Definition interactions_of (m : json) : InteractionFrame :=
  MkInteractions (as_Z (jget m "tick")) (interaction_of <$> elements (jget m "events")).

Definition request_of (r : json) : GameRequest := MkRequest (as_str (jget r "name")) (jget r "data").

Definition requests_of (m : json) : RequestFrame :=
  MkRequests (as_Z (jget m "tick")) (request_of <$> elements (jget m "requests")).

Definition asClientEnvelope (m : json) : option ClientToServer :=
  if negb (is_container m) then None
  else
    let k := jget m "kind" in
    if eq_str k "join-request" then (if isJoinRequest m then Some (CJoin (join_of m)) else None)
    else if eq_str k "input" then (if isInputFrame m then Some (CInput (input_of m)) else None)
    else if eq_str k "interaction" then
      (if isInteractionFrame m then Some (CInteraction (interactions_of m)) else None)
    else if eq_str k "request" then (if isRequestFrame m then Some (CRequest (requests_of m)) else None)
    else if eq_str k "time-sync" then
      (if isTimeSync m then Some (CTimeSync (MkTimeSync (as_num (jget m "clientSentMs")))) else None)
    else None.

(** ** The payload walk *)

(** A value the walk has no objection to, at whatever depth. *)
Definition good (j : json) : Prop := exists d, wire_ok d j.

Lemma good_leaf j d : is_container j = false -> wire_ok d j -> forall d', wire_ok d' j.
Proof. intros Hl H d'. destruct j; try done; inversion H; by constructor. Qed.

Lemma good_forall {A} (f : A -> json) (l : list A) :
  Forall (fun x => good (f x)) l -> exists d, Forall (fun x => wire_ok d (f x)) l.
Proof.
  induction 1 as [|x l [d Hx] _ [d' IH]]; [by exists 0%nat|].
  exists (d `max` d')%nat. constructor; [eapply wire_ok_mono; [|done]; lia|].
  eapply Forall_impl; [exact IH|]. intros y Hy. eapply wire_ok_mono; [|exact Hy]. lia.
Qed.

Lemma good_node j :
  is_container j = true ->
  good j <-> Forall (field_ok (is_arr j)) (own_fields j) /\ Forall (fun p => good p.2) (own_fields j).
Proof.
  intros Hc. split.
  - intros [[|d] Hd]; [inversion Hd; subst; done|]. apply wire_ok_node in Hd as [H1 H2]; [|done].
    split; [done|]. rewrite Forall_forall in *. intros p Hp. exists d.
    destruct (is_container p.2) eqn:E; [by apply H2|by apply (H1 p Hp)].
  - intros [H1 H2]. destruct (good_forall snd (own_fields j) H2) as [d Hd]. exists (S d).
    apply wire_ok_node; [done|]. split; [done|]. eapply Forall_impl; [exact Hd|]. auto.
Qed.

Lemma payload_keys_spec arr fs n stack :
  (n <= MAX_REQUEST_PAYLOAD_NODES)%nat ->
  match payload_keys arr fs n stack with
  | Some (n', stack') =>
    Forall (field_ok arr) fs /\ n' = (n + length fs)%nat /\ (n' <= MAX_REQUEST_PAYLOAD_NODES)%nat
    /\ stack' = reverse fs.*2 ++ stack
  | None => ~ Forall (field_ok arr) fs \/ (MAX_REQUEST_PAYLOAD_NODES < n + length fs)%nat
  end.
Proof.
  revert n stack. induction fs as [|[k v] fs IH]; intros n stack Hn; simpl; [split_and!; try done; lia|].
  destruct (negb arr && reserved k) eqn:Er.
  { left. intros [[Hk _] _]%Forall_cons. simpl in Hk. destruct arr; [done|]. simpl in Er.
    rewrite Hk in Er; done. }
  destruct (decide _) as [Hcap|Hcap]; [right; lia|].
  assert (Hnext : (is_container v = false -> forall d, wire_ok d v) ->
    match payload_keys arr fs (S n) (v :: stack) with
    | Some (n', stack') =>
      Forall (field_ok arr) ((k, v) :: fs) /\ n' = (n + S (length fs))%nat
      /\ (n' <= MAX_REQUEST_PAYLOAD_NODES)%nat /\ stack' = reverse (v :: fs.*2) ++ stack
    | None => ~ Forall (field_ok arr) ((k, v) :: fs) \/ (MAX_REQUEST_PAYLOAD_NODES < n + S (length fs))%nat
    end).
  { intros Hv. specialize (IH (S n) (v :: stack) ltac:(lia)).
    destruct (payload_keys arr fs (S n) (v :: stack)) as [[n' stack']|].
    - destruct IH as (IH1 & -> & Hle & ->). split_and!; [|lia|lia|].
      + constructor; [|done]. split; [|exact Hv]. intros ->. exact Er.
      + by rewrite reverse_cons, <- app_assoc.
    - destruct IH as [IH|IH]; [left; by intros [_ ?]%Forall_cons|right; lia]. }
  destruct v as [ |b|x|s|l|f]; try (apply Hnext; simpl; intros; (done || constructor)).
  destruct (isFinite x) eqn:Ex.
  - apply Hnext. intros. by constructor.
  - left. intros [[_ Hx] _]%Forall_cons. specialize (Hx eq_refl 0%nat). inversion Hx. simpl in *. congruence.
Qed.

Definition pushed (stack : list json) : nat := foldr (fun j n => (jnodes j + n)%nat) 0%nat stack.

Lemma pushed_app s s' : pushed (s ++ s') = (pushed s + pushed s')%nat.
Proof. induction s as [|j s IH]; simpl; [done|]. rewrite IH. lia. Qed.

Lemma pushed_reverse s : pushed (reverse s) = pushed s.
Proof.
  induction s as [|j s IH]; [done|]. rewrite reverse_cons, pushed_app, IH. simpl. lia.
Qed.

Lemma own_fields_children j : is_container j = true -> (own_fields j).*2 = children j.
Proof.
  destruct j as [ | | | |l|f]; try done. intros _. simpl. by rewrite <- list_fmap_compose, list_fmap_id.
Qed.

Lemma jnodes_fields j :
  is_container j = true -> jnodes j = (length (own_fields j) + pushed (own_fields j).*2)%nat.
Proof.
  intros Hc. rewrite jnodes_children, <- (own_fields_children j) by done.
  induction (own_fields j) as [|[k v] fs IH]; csimpl; [done|]. csimpl in IH. lia.
Qed.

Lemma payload_walk_spec fuel n stack :
  (n <= MAX_REQUEST_PAYLOAD_NODES)%nat ->
  (length stack + (MAX_REQUEST_PAYLOAD_NODES - n) < fuel)%nat ->
  Forall (fun j => is_container j = false -> good j) stack ->
  exists b, payload_walk fuel n stack = Some b
    /\ (b = true <-> Forall good stack /\ (n + pushed stack <= MAX_REQUEST_PAYLOAD_NODES)%nat).
Proof.
  revert n stack. induction fuel as [|fuel IH]; intros n stack Hn Hf Hl; [lia|]. cbn [payload_walk].
  destruct stack as [|node stack].
  { exists true. split; [done|]. simpl. split; [split; [done|lia]|done]. }
  apply Forall_cons in Hl as [Hnode Hl]. simpl in Hf.
  destruct (is_container node) eqn:Ec; simpl.
  2: { destruct (IH n stack Hn ltac:(lia) Hl) as (b & Hb & Hiff). exists b. split; [done|].
       rewrite Hiff, Forall_cons.
       assert (jnodes node = 0)%nat as -> by (by destruct node). specialize (Hnode eq_refl). tauto. }
  pose proof (payload_keys_spec (is_arr node) (own_fields node) n stack Hn) as Hk.
  assert (Hsplit : (Forall good (node :: stack) /\ (n + pushed (node :: stack) <= MAX_REQUEST_PAYLOAD_NODES)%nat)
    <-> ((Forall (field_ok (is_arr node)) (own_fields node) /\ Forall (fun p => good p.2) (own_fields node))
         /\ Forall good stack)
        /\ (n + (length (own_fields node) + pushed (own_fields node).*2 + pushed stack)
            <= MAX_REQUEST_PAYLOAD_NODES)%nat).
  { rewrite Forall_cons, good_node by done. simpl. by rewrite jnodes_fields. }
  setoid_rewrite Hsplit. clear Hsplit.
  destruct (payload_keys _ _ _ _) as [[n' stack']|].
  - destruct Hk as (Hok & -> & Hle & ->).
    destruct (IH (n + length (own_fields node))%nat (reverse (own_fields node).*2 ++ stack)) as (b & Hb & Hiff).
    + lia.
    + rewrite length_app, length_reverse, length_fmap. lia.
    + apply Forall_app. split; [|done]. rewrite Forall_reverse, Forall_fmap.
      eapply Forall_impl; [exact Hok|]. intros p [_ Hp] Hpc. exists 0%nat. by apply Hp.
    + exists b. split; [done|]. rewrite Hiff, Forall_app, Forall_reverse, Forall_fmap, pushed_app, pushed_reverse.
      rewrite <- !Nat.add_assoc. tauto.
  - exists false. split; [done|]. split; [done|]. intros [[[? ?] ?] ?]. destruct Hk as [?|?]; [done|lia].
Qed.

Lemma isAdmissiblePayload_spec j :
  is_container j = true ->
  isAdmissiblePayload j = true <-> good j /\ (jnodes j <= MAX_REQUEST_PAYLOAD_NODES)%nat.
Proof.
  intros Hc. unfold isAdmissiblePayload.
  destruct (payload_walk_spec (2 + MAX_REQUEST_PAYLOAD_NODES) 0 [j]) as (b & -> & Hiff);
    [unfold MAX_REQUEST_PAYLOAD_NODES; simpl; lia..|constructor; [congruence|constructor]|].
  rewrite Hiff, Forall_singleton. simpl. rewrite Nat.add_0_r. done.
Qed.

(** ** What narrowing guarantees *)

Definition short_name (cap : nat) (s : jstr) : Prop := (0 < length s <= cap)%nat.

Definition interaction_ok (i : Interaction) : Prop :=
  match i with
  | IPress w sc => short_name 64 w /\ (forall s, sc = Some s -> short_name 64 s)
  | IPointer _ id => 0 <= id <= MAX_SAFE_INTEGER
  end.

Definition edge_ok (e : InputEdge) : Prop :=
  short_name 64 (action e) /\ (forall v, value e = Some v -> isFinite v = true).

Definition request_ok (r : GameRequest) : Prop :=
  short_name 64 (rq_name r)
  /\ (forall d, rq_data r = Some d -> isPlainObject d = true /\ good d /\ (jnodes d <= 256)%nat).

Definition narrowed (e : ClientToServer) : Prop :=
  match e with
  | CJoin r =>
    isFinite (clientSentMs r) = true /\ (length (jr_projectId r) <= 128)%nat
    /\ (length (jr_projectHash r) <= 128)%nat /\ (length (jr_bundleHash r) <= 128)%nat
  | CInput f =>
    isSafeInteger (seq f) = true /\ isSafeInteger (tick f) = true
    /\ (length (actions f) <= 32)%nat /\ Forall edge_ok (actions f)
  | CInteraction f =>
    isSafeInteger (if_tick f) = true /\ (length (events f) <= 16)%nat /\ Forall interaction_ok (events f)
  | CRequest f =>
    isSafeInteger (rf_tick f) = true /\ (length (requests f) <= 16)%nat /\ Forall request_ok (requests f)
  | CTimeSync t => isFinite (ts_clientSentMs t) = true
  end.

Lemma name_within_ok o cap : name_within o cap = true -> short_name cap (as_str o).
Proof.
  destruct o as [[]|]; simpl; try done. intros H. bool_facts. unfold short_name.
  destruct s; [done|]. simpl in *. lia.
Qed.

Lemma is_finite_ok o : is_finite o = true -> isFinite (as_num o) = true.
Proof. by destruct o as [[]|]. Qed.

Lemma identity_ok o : isIdentityString o = true -> (length (as_str o) <= 128)%nat.
Proof. destruct o as [[]|]; simpl; try done. intros H. by bool_facts. Qed.

Lemma safe_integer_ok o : is_safe_integer o = true -> isSafeInteger (as_Z o) = true.
Proof.
  unfold is_safe_integer, as_Z. destruct (safe_integer o) as [z|] eqn:E; [|done]. intros _. simpl.
  unfold safe_integer in E. destruct o as [[]|]; try done. destruct (to_Z x); [|done].
  by destruct (isSafeInteger z0) eqn:E2; simplify_eq.
Qed.

Lemma array_of_ok {A} (f : json -> A) (P : A -> Prop) o cap guard :
  (forall j, guard j = true -> P (f j)) ->
  array_of o cap guard = true ->
  (length (f <$> elements o) <= cap)%nat /\ Forall P (f <$> elements o).
Proof.
  intros Hg. destruct o as [[]|]; simpl; try done. intros H. bool_facts. rewrite length_fmap.
  split; [done|]. apply Forall_fmap. match goal with Hb : forallb _ _ = true |- _ => rename Hb into Hall end.
  rewrite forallb_forall in Hall. apply Forall_forall. intros x Hx. apply Hg, Hall.
  by apply list_elem_of_In.
Qed.

Lemma isInteraction_ok e : isInteraction e = true -> interaction_ok (interaction_of e).
Proof.
  unfold isInteraction, interaction_of. destruct (is_container e); [|done]. simpl.
  destruct (eq_str (jget e "kind") "press").
  - destruct (isWidgetName (jget e "widget")) eqn:Ew; [|done]. simpl. intros Hs.
    split; [by apply name_within_ok|]. intros s. destruct (jget e "screen") as [sc|]; [|done].
    intros [= <-]. by apply (name_within_ok (Some sc)).
  - destruct (_ || _); [|done]. unfold as_Z. destruct (safe_integer (jget e "netId")) as [z|] eqn:E; [|done].
    simpl. intros Hz. bool_facts. split; [done|].
    pose proof (safe_integer_ok (jget e "netId")) as Hsafe. unfold is_safe_integer, as_Z in Hsafe.
    rewrite E in Hsafe. specialize (Hsafe eq_refl). simpl in Hsafe. unfold isSafeInteger in Hsafe.
    bool_facts. done.
Qed.

Lemma isInputAction_ok a : isInputAction a = true -> edge_ok (edge_of a).
Proof.
  unfold isInputAction, edge_of. destruct (is_container a); [|done]. simpl.
  destruct (name_within _ _) eqn:En; [|done]. simpl. destruct (_ && _); [done|]. intros Hv.
  split; [by apply name_within_ok|]. simpl. intros v. destruct (jget a "value") as [[]|]; try done.
  by intros [= <-].
Qed.

Lemma isGameRequest_ok r : isGameRequest r = true -> request_ok (request_of r).
Proof.
  unfold isGameRequest, request_of. destruct (is_container r); [|done]. simpl.
  destruct (name_within _ _) eqn:En; [|done]. simpl. intros Hd. split; [by apply name_within_ok|].
  simpl. intros d Hjd. rewrite Hjd in Hd. apply andb_prop in Hd as [Hp Ha].
  split; [done|]. apply isAdmissiblePayload_spec in Ha; [done|]. by destruct d.
Qed.

(** ** Properties *)

(** Narrowing bounds everything a peer may send. Any message a client can get
    through narrowing has finite stamps, safe-integer ticks and sequence numbers,
    at most 32 actions, 16 interactions or 16 requests, names of one to 64 units,
    identities of at most 128, non-negative entity ids, finite axis values, and
    request payloads that are plain objects of at most 256 values with no reserved
    key and no non-finite number. *)
Theorem narrowing_bounds (m : json) (e : ClientToServer)
    (Hnarrow : asClientEnvelope m = Some e) : narrowed e.
Proof.
  unfold asClientEnvelope in Hnarrow. destruct (is_container m); [|done]. simpl in Hnarrow.
  destruct (eq_str _ "join-request").
  { destruct (isJoinRequest m) eqn:E; [|done]. injection Hnarrow as <-. unfold isJoinRequest in E.
    bool_facts. simpl. auto using is_finite_ok, identity_ok. }
  destruct (eq_str _ "input").
  { destruct (isInputFrame m) eqn:E; [|done]. injection Hnarrow as <-. unfold isInputFrame in E.
    bool_facts. simpl. split; [by apply safe_integer_ok|]. split; [by apply safe_integer_ok|].
    by eapply array_of_ok; [apply isInputAction_ok|]. }
  destruct (eq_str _ "interaction").
  { destruct (isInteractionFrame m) eqn:E; [|done]. injection Hnarrow as <-. unfold isInteractionFrame in E.
    bool_facts. simpl. split; [by apply safe_integer_ok|]. by eapply array_of_ok; [apply isInteraction_ok|]. }
  destruct (eq_str _ "request").
  { destruct (isRequestFrame m) eqn:E; [|done]. injection Hnarrow as <-. unfold isRequestFrame in E.
    bool_facts. simpl. split; [by apply safe_integer_ok|]. by eapply array_of_ok; [apply isGameRequest_ok|]. }
  destruct (eq_str _ "time-sync"); [|done].
  destruct (isTimeSync m) eqn:E; [|done]. injection Hnarrow as <-. by apply is_finite_ok.
Qed.

Definition sample_input : json :=
  JObj [(js "kind", JStr (js "input")); (js "tick", JNum (of_Z 4)); (js "seq", JNum (of_Z 3));
        (js "actions", JArr [JObj [(js "action", JStr (js "jump")); (js "on", JStr (js "press"))]])].

Lemma narrowing_bounds_witness :
  asClientEnvelope sample_input = Some (CInput (MkFrame 3 4 [MkEdge (js "jump") press None]))
  /\ narrowed (CInput (MkFrame 3 4 [MkEdge (js "jump") press None])).
Proof.
  assert (Hs : asClientEnvelope sample_input = Some (CInput (MkFrame 3 4 [MkEdge (js "jump") press None])))
    by (vm_compute; reflexivity).
  split; [exact Hs|]. exact (narrowing_bounds sample_input _ Hs).
Defined.

(** Payload admission is exact: for any object, the explicit-stack walk ends and
    accepts iff the whole graph has no reserved object key, no non-finite number and
    at most 256 values. *)
Theorem payload_admission_exact (fields : jsmap jstr json) :
  isAdmissiblePayload (JObj fields) = true
  <-> (exists d, wire_ok d (JObj fields)) /\ (jnodes (JObj fields) <= 256)%nat.
Proof. by apply isAdmissiblePayload_spec. Qed.
