(* ===== verification/Channels.v ===== *)
(** * The replication channels ([packages/core/src/state/channels.ts])

    The ordered journal of structural changes, with the group boundaries a template
    instantiation opens, and the map of state marks. A host record is an object, so a
    mark names it by reference. The types of a change are shared with [Replicate],
    which puts a drained journal on the wire. *)

From S2P Require Import Prelude JsMap JsNum Json.

Local Open Scope Z_scope.

Abbreviation EntityId := Z.

(** An attach op: the id the bundle stamped and the attachment's props. *)
Record ScriptAttachment := MkAttachment { script : jstr; props : option json }.

Inductive SingleOp :=
  | Spawn (id : EntityId) (tmpl : jstr)
  | Destroy (id : EntityId)
  | Reparent (id : EntityId) (to : EntityId)
  | Tag (id : EntityId) (tag : jstr) (added : bool)
  | Attach (id : EntityId) (a : ScriptAttachment).

Inductive StructuralOp := Single (op : SingleOp) | Group (ops : list SingleOp).

Definition op_id (op : SingleOp) : EntityId :=
  match op with
  | Spawn id _ | Destroy id | Reparent id _ | Tag id _ _ | Attach id _ => id
  end.

(** A host record, by reference. *)
Abbreviation RecordRef := nat.

Record ReplicationChannels := MkChannels {
  structural : list StructuralOp;
  state : jsmap RecordRef (jsset jstr);
  markCount : Z;
  group : option (list SingleOp);
  groupDepth : Z;
}.

Definition new_channels : ReplicationChannels := MkChannels [] [] 0 None 0.

Definition markStructural (c : ReplicationChannels) (op : SingleOp) : ReplicationChannels :=
  match group c with
  | Some ops => MkChannels (structural c) (state c) (markCount c) (Some (ops ++ [op])) (groupDepth c)
  | None => MkChannels (structural c ++ [Single op]) (state c) (markCount c) None (groupDepth c)
  end.

Definition beginGroup (c : ReplicationChannels) : ReplicationChannels :=
  let depth := groupDepth c + 1 in
  MkChannels (structural c) (state c) (markCount c) (if depth =? 1 then Some [] else group c) depth.

Definition endGroup (c : ReplicationChannels) : ReplicationChannels :=
  if groupDepth c =? 0 then c
  else
    let depth := groupDepth c - 1 in
    if 0 <? depth then MkChannels (structural c) (state c) (markCount c) (group c) depth
    else
      let journal := match nullish (group c) [] with
                     | [] => structural c
                     | [op] => structural c ++ [Single op]
                     | ops => structural c ++ [Group ops]
                     end in
      MkChannels journal (state c) (markCount c) None depth.

Definition markState (c : ReplicationChannels) (record : RecordRef) (field : jstr) : ReplicationChannels :=
  let before := nullish (mget (state c) record) [] in
  let fields := sadd before field in
  let count := if Nat.eqb (length fields) (length before) then markCount c else markCount c + 1 in
  MkChannels (structural c) (mset (state c) record fields) count (group c) (groupDepth c).

Definition drainStructural (c : ReplicationChannels) : list StructuralOp * ReplicationChannels :=
  (structural c, MkChannels [] (state c) (markCount c) (group c) (groupDepth c)).

(** Every mark, a record's fields together. *)
Definition marks (m : jsmap RecordRef (jsset jstr)) : list (RecordRef * jstr) :=
  m ≫= fun e => (fun field => (e.1, field)) <$> e.2.

Definition drainState (c : ReplicationChannels) : list (RecordRef * jstr) * ReplicationChannels :=
  (marks (state c), MkChannels (structural c) [] 0 (group c) (groupDepth c)).

Definition structuralCount (c : ReplicationChannels) : Z := arr_len (structural c).
Definition stateCount (c : ReplicationChannels) : Z := markCount c.

Definition clear (c : ReplicationChannels) : ReplicationChannels := new_channels.

(** ** What the journal and the marks hold *)

Definition members (op : StructuralOp) : list SingleOp := match op with Single op => [op] | Group ops => ops end.
Definition flatten (l : list StructuralOp) : list SingleOp := l ≫= members.

(** A group bounds at least two ops. *)
Definition bounded (op : StructuralOp) : Prop := match op with Single _ => True | Group ops => (2 <= length ops)%nat end.

Record wf (c : ReplicationChannels) : Prop := {
  wf_depth : 0 <= groupDepth c;
  wf_group : is_Some (group c) <-> 0 < groupDepth c;
  wf_bounded : Forall bounded (structural c);
  wf_keys : NoDup (mkeys (state c));
  wf_fields : forall r fs, mget (state c) r = Some fs -> NoDup fs;
  wf_count : markCount c = Z.of_nat (length (marks (state c)));
}.

Inductive channel_op :=
  | CMark (op : SingleOp) | CBegin | CEnd | CState (record : RecordRef) (field : jstr) | CDrain | CDrainState.

(** The channels, and everything the drains of one history took out. *)
Record run_state := MkRun { chan : ReplicationChannels; sent : list StructuralOp; sent_marks : list (list (RecordRef * jstr)) }.

Definition run_op (s : run_state) (o : channel_op) : run_state :=
  match o with
  | CMark op => MkRun (markStructural (chan s) op) (sent s) (sent_marks s)
  | CBegin => MkRun (beginGroup (chan s)) (sent s) (sent_marks s)
  | CEnd => MkRun (endGroup (chan s)) (sent s) (sent_marks s)
  | CState r f => MkRun (markState (chan s) r f) (sent s) (sent_marks s)
  | CDrain => let '(l, c) := drainStructural (chan s) in MkRun c (sent s ++ l) (sent_marks s)
  | CDrainState => let '(l, c) := drainState (chan s) in MkRun c (sent s) (sent_marks s ++ [l])
  end.

Definition marked (o : channel_op) : list SingleOp := match o with CMark op => [op] | _ => [] end.

Lemma marks_mset m r f fs :
  NoDup (mkeys m) -> mget m r = Some fs -> f ∉ fs ->
  exists l1 l2, marks m = l1 ++ l2 /\ marks (mset m r (fs ++ [f])) = l1 ++ [(r, f)] ++ l2.
Proof.
  induction m as [|[r0 fs0] m IH]; intros Hn Hg Hf; [done|]. apply NoDup_cons in Hn as [Hr0 Hn].
  simpl in *. destruct (decide (r0 = r)) as [->|Hne].
  - injection Hg as ->. exists ((fun field => (r, field)) <$> fs), (marks m). split; [done|].
    unfold marks. simpl. by rewrite fmap_app, <- app_assoc.
  - destruct (IH Hn Hg Hf) as (l1 & l2 & E1 & E2).
    exists (((fun field => (r0, field)) <$> fs0) ++ l1), l2. split; simpl; [rewrite <- app_assoc; by f_equal|].
    rewrite <- app_assoc. f_equal. exact E2.
Qed.

Lemma marks_fresh m r f : mget m r = None -> marks (mset m r [f]) = marks m ++ [(r, f)].
Proof. intros Hg. rewrite mset_fresh by by apply mget_None. unfold marks. by rewrite bind_app. Qed.

Lemma elem_of_marks m r f : NoDup (mkeys m) -> (r, f) ∈ marks m <-> exists fs, mget m r = Some fs /\ f ∈ fs.
Proof.
  intros Hn. unfold marks. rewrite list_elem_of_bind. split.
  - intros ([r' fs] & (f' & [= -> ->] & Hf)%list_elem_of_fmap & Hin). exists fs. simpl in *. split; [|done].
    by apply mget_NoDup.
  - intros (fs & Hg & Hf). exists (r, fs). split; [|by apply mget_elem]. simpl. by apply list_elem_of_fmap_2.
Qed.

Lemma markState_wf c r f : wf c ->
  wf (markState c r f) /\ (forall p, p ∈ marks (state (markState c r f)) <-> p = (r, f) \/ p ∈ marks (state c)).
Proof.
  intros [Hd Hg Hb Hk Hf Hc]. unfold markState. cbn [state].
  destruct (mget (state c) r) as [fs|] eqn:E; simpl.
  - destruct (decide (f ∈ fs)) as [Hin|Hin].
    + rewrite (sadd_in fs) by done. rewrite Nat.eqb_refl.
      assert (Hsame : mset (state c) r fs = state c).
      { clear - E. induction (state c) as [|[r0 fs0] m IH]; [done|]. simpl in *. destruct (decide (r0 = r)) as [->|].
        - by injection E as ->. - by rewrite IH. }
      rewrite Hsame. split; [by split|]. intros p. split; [by right|]. intros [->|]; [|done].
      apply elem_of_marks; [done|]. by exists fs.
    + rewrite (sadd_not_in fs) by done.
      destruct (marks_mset (state c) r f fs Hk E Hin) as (l1 & l2 & E1 & E2).
      rewrite (proj2 (Nat.eqb_neq _ _)) by (rewrite length_app; simpl; lia). split.
      * split; simpl; [done|done|done|by apply NoDup_mset| |].
        -- intros r' fs'. rewrite mget_mset. destruct (decide _) as [<-|]; [|apply Hf].
           intros [= <-]. apply NoDup_snoc. split; [by apply (Hf r)|done].
        -- rewrite E2, Hc, E1, !length_app. simpl. lia.
      * intros p. rewrite E2, E1, !elem_of_app, list_elem_of_singleton. tauto.
  - rewrite (sadd_not_in [] f) by apply not_elem_of_nil. simpl. rewrite marks_fresh by done. split.
    + split; simpl; [done|done|done|by apply NoDup_mset| |].
      * intros r' fs'. rewrite mget_mset. destruct (decide _) as [<-|]; [|apply Hf]. intros [= <-]. apply NoDup_singleton.
      * rewrite marks_fresh, Hc, length_app by done. simpl. lia.
    + intros p. rewrite elem_of_app, list_elem_of_singleton. tauto.
Qed.

Lemma wf_new : wf new_channels.
Proof. split; simpl; [done| |constructor|constructor|done|done]. split; [by intros [? ?]|lia]. Qed.

Lemma run_op_wf s o : wf (chan s) -> wf (chan (run_op s o)).
Proof.
  intros Hw. destruct o as [op| | |r f| |]; simpl; try (destruct Hw as [Hd Hg Hb Hk Hf Hc]).
  - unfold markStructural. destruct (group (chan s)) as [ops|] eqn:E; split; simpl; try done.
    + rewrite <- Hg. split; intros _; by eexists.
    + apply Forall_app. by split; [|apply Forall_singleton].
  - unfold beginGroup. split; simpl; try done; [lia|]. destruct (groupDepth (chan s) + 1 =? 1) eqn:E; bool_facts.
    + split; [lia|by eexists].
    + rewrite Hg. lia.
  - unfold endGroup. destruct (groupDepth (chan s) =? 0) eqn:E; bool_facts; [by split|].
    destruct (0 <? _) eqn:E2; bool_facts; split; simpl; try done; try lia.
    + rewrite Hg. lia.
    + split; [by intros [? ?]|lia].
    + destruct (nullish _ _) as [|op1 [|op2 ops]]; [done|..]; (apply Forall_app; split; [done|apply Forall_singleton]);
        simpl; [done|lia].
  - by apply markState_wf.
  - by split.
  - split; simpl; [done|done|done|constructor|done|done].
Qed.

Lemma run_wf s ops : wf (chan s) -> wf (chan (foldl run_op s ops)).
Proof. revert s. induction ops as [|o ops IH]; intros s Hw; [done|]. by apply IH, run_op_wf. Qed.

(** The whole journal of a history, drained or not, and every op it was given. *)
Definition journal (s : run_state) : list StructuralOp := sent s ++ structural (chan s).
Definition held (s : run_state) : list SingleOp := flatten (journal s) ++ nullish (group (chan s)) [].

Lemma flatten_app l k : flatten (l ++ k) = flatten l ++ flatten k.
Proof. unfold flatten. apply bind_app. Qed.

Lemma held_step s o : wf (chan s) -> held (run_op s o) = held s ++ marked o.
Proof.
  intros [Hd Hg _ _ _ _]. unfold held, journal. destruct o as [op| | |r f| |]; simpl.
  - unfold markStructural. destruct (group (chan s)) as [ops|]; simpl; rewrite !flatten_app; simpl.
    + by rewrite <- !app_assoc.
    + by rewrite !app_nil_r, app_assoc.
  - unfold beginGroup. simpl. rewrite !app_nil_r. destruct (groupDepth (chan s) + 1 =? 1) eqn:E; bool_facts; [|done].
    destruct (group (chan s)) as [ops|]; [|done]. assert (0 < groupDepth (chan s)) by (apply Hg; by eexists). lia.
  - unfold endGroup. rewrite app_nil_r. destruct (groupDepth (chan s) =? 0) eqn:E; bool_facts; [done|].
    destruct (0 <? _) eqn:E2; bool_facts; [done|]. simpl.
    destruct (nullish (group (chan s)) []) as [|op1 [|op2 ops]]; rewrite ?app_nil_r; [done|..];
      rewrite app_assoc, flatten_app; simpl; by rewrite ?app_nil_r.
  - by rewrite app_nil_r.
  - by rewrite !app_nil_r.
  - by rewrite !app_nil_r.
Qed.

Lemma held_run s ops : wf (chan s) -> held (foldl run_op s ops) = held s ++ (ops ≫= marked).
Proof.
  revert s. induction ops as [|o ops IH]; intros s Hw; cbn [foldl mbind list_bind]; [by rewrite app_nil_r|].
  rewrite IH by by apply run_op_wf. by rewrite held_step, <- app_assoc.
Qed.

Lemma run_sent_bounded ops : forall s,
  Forall bounded (sent s) -> wf (chan s) -> Forall bounded (sent (foldl run_op s ops)).
Proof.
  induction ops as [|o ops IH]; intros s Hs Hw; [done|]. apply IH; [|by apply run_op_wf].
  destruct o; simpl; try done. apply Forall_app. split; [done|apply Hw].
Qed.

(** A body whose boundaries are balanced inside [d] open ones. *)
Fixpoint balanced (d : nat) (ops : list channel_op) : Prop :=
  match ops with
  | [] => d = 1%nat
  | CBegin :: ops => balanced (S d) ops
  | CEnd :: ops => (2 <= d)%nat /\ balanced (d - 1) ops
  | _ :: ops => balanced d ops
  end.

Lemma group_body ops : forall s d g,
  groupDepth (chan s) = Z.of_nat d -> (1 <= d)%nat -> group (chan s) = Some g -> balanced d ops ->
  let s' := foldl run_op s ops in
  groupDepth (chan s') = 1 /\ group (chan s') = Some (g ++ (ops ≫= marked)) /\ journal s' = journal s.
Proof.
  induction ops as [|o ops IH]; intros s d g Hd Hd1 Hg Hb; cbn [foldl mbind list_bind].
  { rewrite app_nil_r. simpl in Hb. subst d. by rewrite Hd. }
  assert (Hstep : exists d', groupDepth (chan (run_op s o)) = Z.of_nat d' /\ (1 <= d')%nat
    /\ group (chan (run_op s o)) = Some (g ++ marked o) /\ balanced d' ops /\ journal (run_op s o) = journal s).
  { destruct o as [op| | |r f| |]; simpl in *; unfold journal.
    - unfold markStructural. rewrite Hg. by exists d.
    - unfold beginGroup. exists (S d). simpl. rewrite app_nil_r, Hd.
      destruct (Z.of_nat d + 1 =? 1) eqn:E; bool_facts; [lia|]. split; [lia|]. split; [lia|]. done.
    - destruct Hb as [Hd2 Hb]. unfold endGroup. exists (d - 1)%nat. rewrite app_nil_r, Hd.
      destruct (Z.of_nat d =? 0) eqn:E; bool_facts; [lia|].
      destruct (0 <? Z.of_nat d - 1) eqn:E2; bool_facts; [|lia]. simpl. split; [lia|]. split; [lia|]. done.
    - exists d. by rewrite app_nil_r.
    - exists d. rewrite !app_nil_r. split; [done|]. split; [done|]. by split.
    - exists d. by rewrite app_nil_r. }
  destruct Hstep as (d' & Hd' & H1 & Hg' & Hb' & Hj). destruct (IH _ _ _ Hd' H1 Hg' Hb') as (HA & HB & HC).
  split; [done|]. split; [by rewrite HB, <- app_assoc|]. by rewrite HC.
Qed.

(** The entry a boundary around [ops] journals. *)
Definition entry (ops : list SingleOp) : list StructuralOp :=
  match ops with [] => [] | [op] => [Single op] | _ => [Group ops] end.

Definition touches (o : channel_op) (p : RecordRef * jstr) : Prop :=
  match o with CState r f => p = (r, f) | _ => False end.

Definition drains_state (o : channel_op) : bool := match o with CDrainState => true | _ => false end.

Lemma marks_run ops : forall s,
  wf (chan s) -> forallb (fun o => negb (drains_state o)) ops = true ->
  forall p, p ∈ marks (state (chan (foldl run_op s ops))) <-> p ∈ marks (state (chan s)) \/ exists o, o ∈ ops /\ touches o p.
Proof.
  induction ops as [|o ops IH]; intros s Hw Hn p; cbn [foldl].
  { split; [by left|]. intros [?|(o & ?%not_elem_of_nil & _)]; done. }
  simpl in Hn. apply andb_prop in Hn as [Ho Hn]. rewrite IH by (done || by apply run_op_wf).
  assert (Hstep : p ∈ marks (state (chan (run_op s o))) <-> touches o p \/ p ∈ marks (state (chan s))).
  { destruct o as [op| | |r f| |]; simpl; try tauto.
    - unfold markStructural. destruct (group (chan s)); simpl; tauto.
    - unfold endGroup. destruct (_ =? 0); [tauto|]. destruct (0 <? _); simpl; tauto.
    - by apply markState_wf.
    - done. }
  rewrite Hstep. split.
  - intros [[Ht|Hp]|(o' & Ho' & Ht)]; [right; exists o|by left|right; exists o']; (split; [|done]); [left|by right].
  - intros [Hp|(o' & Ho' & Ht)]; [by left; right|]. apply elem_of_cons in Ho' as [->|Ho']; [by left; left|].
    right. by exists o'.
Qed.

(** ** Properties *)

(** The journal is the marks, in order. Over any history of marks, boundaries and
    drains: what was drained, what waits and the open group flatten to every op marked,
    once, in the order of the calls; every group entry bounds at least two ops; and all
    that is marked between a boundary and the end that closes it, however the calls in
    between nest, lands in one entry. *)
Theorem journal_keeps_order (ops body : list channel_op) :
  let s := foldl run_op (MkRun new_channels [] []) ops in
  held s = ops ≫= marked
  /\ Forall bounded (journal s)
  /\ (group (chan s) = None -> balanced 1 body ->
      journal (foldl run_op s (CBegin :: body ++ [CEnd])) = journal s ++ entry (body ≫= marked)).
Proof.
  intros s. assert (Hw : wf (chan s)) by (apply run_wf, wf_new).
  split; [apply (held_run (MkRun new_channels [] [])), wf_new|]. split.
  - apply Forall_app. split; [|apply Hw]. apply run_sent_bounded; [constructor|apply wf_new].
  - intros Hg Hb. cbn [foldl]. rewrite foldl_app.
    assert (Hd : groupDepth (chan s) = 0).
    { destruct (decide (0 < groupDepth (chan s))) as [Hp|Hp]; [|pose proof (wf_depth _ Hw); lia].
      apply (wf_group _ Hw) in Hp as [g Hg']. congruence. }
    destruct (group_body body (run_op s CBegin) 1 []) as (HA & HB & HC).
    + simpl. by rewrite Hd.
    + done.
    + simpl. by rewrite Hd.
    + done.
    + set (s' := foldl run_op (run_op s CBegin) body) in *. simpl. unfold journal, endGroup. simpl.
      rewrite HA, HB. simpl. unfold journal in HC. simpl in HC.
      destruct (body ≫= marked) as [|op1 [|op2 rest]]; simpl; rewrite ?app_nil_r; [exact HC|..];
        by rewrite app_assoc, HC.
Qed.

Lemma journal_keeps_order_witness :
  let s := MkRun new_channels [] [] in
  journal (foldl run_op s (CBegin :: [CBegin; CMark (Spawn 1 []); CEnd; CMark (Spawn 2 [])] ++ [CEnd]))
  = [Group [Spawn 1 []; Spawn 2 []]].
Proof.
  intros s. rewrite (proj2 (proj2 (journal_keeps_order [] _))); [reflexivity|reflexivity|vm_compute; lia].
Defined.

Lemma NoDup_marks c : wf c -> NoDup (marks (state c)).
Proof.
  intros [_ _ _ Hk Hf _]. induction (state c) as [|[r fs] m IH]; [constructor|].
  apply NoDup_cons in Hk as [Hr Hk]. unfold marks. cbn [mbind list_bind fst snd]. apply NoDup_app. split; [|split].
  - apply NoDup_fmap; [by intros ?? [= ->]|]. apply (Hf r). simpl. by rewrite decide_True.
  - intros p (f & -> & _)%list_elem_of_fmap Hp. apply elem_of_marks in Hp as (fs' & Hg & _); [|done].
    apply Hr. apply (mget_is_Some m r). by exists fs'.
  - apply IH; [done|]. intros r' fs' Hg. apply (Hf r'). simpl. rewrite decide_False; [done|]. intros <-.
    apply Hr. apply (mget_is_Some m r). by exists fs'.
Qed.

(** A state drain yields every (record, field) marked since the last drain exactly
    once, however often it was written, and [stateCount] is how many there are. *)
Theorem state_marks_once (before since : list channel_op) :
  forallb (fun o => negb (drains_state o)) since = true ->
  let s := foldl run_op (MkRun new_channels [] []) (before ++ CDrainState :: since) in
  let l := (drainState (chan s)).1 in
  NoDup l /\ (forall r f, (r, f) ∈ l <-> CState r f ∈ since) /\ stateCount (chan s) = Z.of_nat (length l)
  /\ (drainState (drainState (chan s)).2).1 = [].
Proof.
  intros Hn s l. assert (Hw : wf (chan s)) by (apply run_wf, wf_new). subst l. cbn [fst drainState].
  split; [by apply NoDup_marks|]. split; [|split; [apply Hw|done]]. intros r f. unfold s. rewrite foldl_app. cbn [foldl].
  rewrite marks_run; [|by apply run_op_wf, run_wf, wf_new|done]. simpl. split.
  - intros [?%not_elem_of_nil|([op| | |r' f'| |] & Ho & Ht)]; simpl in *; try done. by injection Ht as -> ->.
  - intros Ho. right. by exists (CState r f).
Qed.

Lemma state_marks_once_witness :
  let s := foldl run_op (MkRun new_channels [] []) ([] ++ CDrainState :: [CState 0 []; CState 1 []; CState 0 []]) in
  stateCount (chan s) = 2 /\ NoDup (drainState (chan s)).1.
Proof.
  intros s. destruct (state_marks_once [] [CState 0%nat []; CState 1%nat []; CState 0%nat []] eq_refl) as (Hn & _ & Hc & _).
  split; [etrans; [exact Hc|vm_compute; reflexivity]|exact Hn].
Defined.
