(* ===== verification/Replicate.v ===== *)
(** * Replication ([packages/sim/src/replicate.ts])

    What one send-tick puts on the wire. The structural journal is converted, cut to
    a budget and the rest held over; state marks are gathered per host; transforms
    are read whole. [World] is what the code reads of the runtime: a record of
    read operations, so the definitions run on any world. *)

From S2P Require Import Prelude JsMap JsNum Json Admission Channels.

Local Open Scope Z_scope.

(** ** Data *)

Abbreviation NetId := Z.
Definition NO_ENTITY : EntityId := 0.

Definition toNetId (id : EntityId) : NetId := id.

Record Player := MkPlayer { p_id : jstr; p_index : Z; p_name : jstr }.

Record EntityRecord := MkEntity { template : jstr; parent : EntityId; ownerId : jstr }.

Record WireTransform := MkTransform {
  posX : num; posY : num; posZ : num; rot : num; scale : num; opacity : num; layer : num;
}.

Record EntitySnapshot := MkSnapshot {
  netId : NetId;
  es_template : jstr;
  es_parent : option NetId;
  es_owner : option jstr;
  tags : list jstr;
  transform : WireTransform;
  overrides : option (list ScriptAttachment);
}.

(** The wire's. *)
Inductive WireSingle :=
  | WSpawn (s : EntitySnapshot)
  | WDestroy (id : NetId)
  | WReparent (id : NetId) (to : option NetId)
  | WTag (id : NetId) (tag : jstr) (added : bool)
  | WAttach (id : NetId) (a : ScriptAttachment)
  | WPlayerJoin (p : Player)
  | WPlayerLeave (id : jstr).

Inductive WireOp := WSingle (op : WireSingle) | WGroup (ops : list WireSingle).

Inductive StateHostAddr := HGame | HPlayer (id : jstr) | HEntity (id : NetId).

Record StateDiff := MkDiff { host : StateHostAddr; fields : jsmap jstr json }.

(** A mark names the record object that was written, by reference, and its host. *)
Record StateMark := MkMark { mark_record : RecordRef; mark_host : jstr; mark_field : jstr }.

(** ** Values a state field may hold *)

(** [SHole] reads as [undefined]; [SEntity] and [SPlayer] are the two classes that
    travel as what identifies them; [SOther] any other prototype. *)
Inductive sval :=
  | SUndefined | SNull | SBool (b : bool) | SNum (x : num) | SStr (s : jstr)
  | SOpaque (** function, symbol or bigint *)
  | SRef (l : nat).

Inductive sobj :=
  | SArray (items : list sval)
  | SPlain (entries : jsmap jstr sval)
  | SEntity (id : EntityId)
  | SPlayer (id : jstr)
  | SOther.

Definition MAX_STATE_DEPTH : nat := 64.
Definition MAX_STRUCTURAL_OPS_PER_SEND : Z := 2048.

(** [encode_items] and [encode_entries] are the two loops; an element that does not
    encode makes the whole value not encode. *)
Fixpoint encode_items (enc : sval -> option json) (items : list sval) : option (list json) :=
  match items with
  | [] => Some []
  | x :: rest => j ← enc x; js' ← encode_items enc rest; Some (j :: js')
  end.

Fixpoint encode_entries (enc : sval -> option json) (es : jsmap jstr sval) : option (jsmap jstr json) :=
  match es with
  | [] => Some []
  | (k, x) :: rest =>
    if reserved k then None
    else j ← enc x; f ← encode_entries enc rest; Some ((k, j) :: f)
  end.

(** [encodeStateValue value open depth] with [d = MAX_STATE_DEPTH - depth] levels
    left. [open] is added to on the way in and deleted from on the way out, so what
    a call sees is its ancestors. *)
Fixpoint encodeStateValue (d : nat) (h : nat -> sobj) (opened : jsset nat) (v : sval) : option json :=
  match v with
  | SNull => Some JNull
  | SNum x => if isFinite x then Some (JNum x) else None
  | SStr s => Some (JStr s)
  | SBool b => Some (JBool b)
  | SUndefined | SOpaque => None
  | SRef l =>
    match h l with
    | SEntity id => Some (JNum (of_Z (toNetId id)))
    | SPlayer id => Some (JStr id)
    | o =>
      if shas opened l then None
      else match d with
        | O => None
        | S d' =>
          let enc := encodeStateValue d' h (sadd opened l) in
          match o with
          | SArray items => JArr <$> encode_items enc items
          | SPlain es => JObj <$> encode_entries enc es
          | _ => None
          end
        end
    end
  end.

(** ** Reading the world *)

Class World (W : Type) := {
  record : W -> EntityId -> option EntityRecord;
  liveIds : W -> list EntityId;
  idAt : W -> Z -> EntityId;
  tagsOf : W -> EntityId -> list jstr;
  cells : W -> EntityId -> WireTransform;
  (** [instances.forHost(entityKey(id))] through [scriptIdOf]: the class's id, if
      the build names it, and the instance's props. *)
  scriptsOn : W -> EntityId -> list (option jstr * option json);
  players : W -> list Player;
  (** [hosts.get(key)?.record], a record's keys, and a field's serialized value
      over a heap ([serializeHostField]). *)
  hostRecord : W -> jstr -> option RecordRef;
  recordKeys : W -> RecordRef -> list jstr;
  hostField : W -> RecordRef -> jstr -> (nat -> sobj) * sval;
  gameKey : jstr;
  playerKey : jstr -> jstr;
  entityKey : EntityId -> jstr;
  drainStructural : W -> list StructuralOp * W;
  consumeDirty : W -> list Z * W;
  drainState : W -> list StateMark * W;
}.

Section replicate.
Context {W : Type} `{WW : World W}.

Definition readTransform (w : W) (id : EntityId) : WireTransform :=
  let c := cells w id in
  MkTransform (finiteOr (posX c) f0) (finiteOr (posY c) f0) (finiteOr (posZ c) f0)
    (finiteOr (rot c) f0) (finiteOr (scale c) (of_Z 1)) (finiteOr (opacity c) (of_Z 1))
    (finiteOr (layer c) f0).

Definition overridesOf (w : W) (id : EntityId) : option (list ScriptAttachment) :=
  match omap (fun p => match p.1 with Some s => Some (MkAttachment s p.2) | None => None end)
          (scriptsOn w id) with
  | [] => None
  | scripts => Some scripts
  end.

Definition readEntitySnapshot (w : W) (id : EntityId) (hierarchy : bool) : option EntitySnapshot :=
  r ← record w id;
  Some (MkSnapshot (toNetId id) (template r)
    (if hierarchy && negb (parent r =? NO_ENTITY) then Some (toNetId (parent r)) else None)
    (if bool_decide (ownerId r = []) then None else Some (ownerId r))
    (if hierarchy then tagsOf w id else [])
    (readTransform w id)
    (if hierarchy then overridesOf w id else None)).

Definition readPlayerSnapshot (p : Player) : Player := MkPlayer (p_id p) (p_index p) (p_name p).

(** ** The structural journal *)

Definition SAY_PREFIX : jstr := js "say:".

Definition startsWith (s prefix : jstr) : bool := bool_decide (take (length prefix) s = prefix).

(** What a journal entry becomes: an op, elided by design ([null]), or not
    convertible ([undefined]). *)
Inductive converted (A : Type) := Wire (a : A) | Elided | Unconvertible.
Arguments Wire {A} a.
Arguments Elided {A}.
Arguments Unconvertible {A}.

Definition toWireSingle (w : W) (op : SingleOp) (ephemeral : jsset EntityId) : converted WireSingle :=
  if shas ephemeral (op_id op) then Elided
  else
    match op with
    | Spawn id _ =>
      match readEntitySnapshot w id false with Some s => Wire (WSpawn s) | None => Unconvertible end
    | Destroy id => Wire (WDestroy (toNetId id))
    | Reparent id to => Wire (WReparent (toNetId id) (if to =? NO_ENTITY then None else Some (toNetId to)))
    | Tag id tag added => if startsWith tag SAY_PREFIX then Elided else Wire (WTag (toNetId id) tag added)
    | Attach id a => Wire (WAttach (toNetId id) a)
    end.

(** The loop of a group: the ops collected, or [None] at the first that cannot convert. *)
Fixpoint group_ops (w : W) (ops : list SingleOp) (ephemeral : jsset EntityId) (acc : list WireSingle)
    : option (list WireSingle) :=
  match ops with
  | [] => Some acc
  | op :: rest =>
    match toWireSingle w op ephemeral with
    | Unconvertible => None
    | Elided => group_ops w rest ephemeral acc
    | Wire a => group_ops w rest ephemeral (acc ++ [a])
    end
  end.

Definition toWireStructural (w : W) (op : StructuralOp) (ephemeral : jsset EntityId) : converted WireOp :=
  match op with
  | Single s =>
    match toWireSingle w s ephemeral with
    | Wire a => Wire (WSingle a)
    | Elided => Elided
    | Unconvertible => Unconvertible
    end
  | Group ops =>
    match group_ops w ops ephemeral [] with
    | None => Unconvertible
    | Some [] => Elided
    | Some [only] => Wire (WSingle only)
    | Some many => Wire (WGroup many)
    end
  end.

Definition singles (op : StructuralOp) : list SingleOp :=
  match op with Single s => [s] | Group ops => ops end.

Definition mark_gone (w : W) (gone : jsset EntityId) (op : SingleOp) : jsset EntityId :=
  match op with
  | Spawn id _ => match record w id with None => sadd gone id | Some _ => gone end
  | _ => gone
  end.

Definition ephemeralIds (w : W) (journal : list StructuralOp) : jsset EntityId :=
  foldl (fun gone op => foldl (mark_gone w) gone (singles op)) [] journal.

Definition op_weight (op : WireOp) : Z :=
  match op with WGroup ops => arr_len ops | WSingle _ => 1 end.

(** [budgetCut]'s loop from an index with the weight so far. *)
Fixpoint cut_from (index : nat) (weight budget : Z) (ordered : list WireOp) : nat :=
  match ordered with
  | [] => index
  | op :: rest =>
    let weight := weight + op_weight op in
    if budget <? weight then (if bool_decide (index = 0%nat) then 1%nat else index)
    else cut_from (S index) weight budget rest
  end.

Definition budgetCut (ordered : list WireOp) (budget : Z) : nat := cut_from 0 0 budget ordered.

(** Converted ops in order, and how many were dropped. *)
Definition convert_one (w : W) (ephemeral : jsset EntityId) (acc : list WireOp * Z) (op : StructuralOp)
    : list WireOp * Z :=
  match toWireStructural w op ephemeral with
  | Wire a => (acc.1 ++ [a], acc.2)
  | _ => (acc.1, acc.2 + 1)
  end.

(** ** State marks *)

Definition hostAddresses (w : W) : jsmap jstr StateHostAddr :=
  let table := mset [] gameKey HGame in
  let table := foldl (fun t p => mset t (playerKey (p_id p)) (HPlayer (p_id p))) table (players w) in
  foldl (fun t id => mset t (entityKey id) (HEntity (toNetId id))) table (liveIds w).

Definition encodeHostField (w : W) (r : RecordRef) (field : jstr) : option json :=
  if reserved field then None
  else let '(h, v) := hostField w r field in encodeStateValue MAX_STATE_DEPTH h [] v.

Record mark_acc := MkMarks {
  m_shared : jsmap jstr StateDiff;
  m_player : jsmap jstr StateDiff;
  m_dropped : Z;
  m_stale : Z;
}.

(** [bucket.fields[field] = value] on the entry [get ?? put] finds or makes. *)
Definition put_field (m : jsmap jstr StateDiff) (key : jstr) (addr : StateHostAddr) (f : jstr) (v : json)
    : jsmap jstr StateDiff :=
  let bucket := nullish (mget m key) (MkDiff addr []) in
  mset m key (MkDiff (host bucket) (mset (fields bucket) f v)).

Definition mark_step (w : W) (hosts : jsmap jstr StateHostAddr) (a : mark_acc) (m : StateMark) : mark_acc :=
  match mget hosts (mark_host m) with
  | None => MkMarks (m_shared a) (m_player a) (m_dropped a) (m_stale a + 1)
  | Some addr =>
    match encodeHostField w (mark_record m) (mark_field m) with
    | None => MkMarks (m_shared a) (m_player a) (m_dropped a + 1) (m_stale a)
    | Some v =>
      match addr with
      | HPlayer id =>
        MkMarks (m_shared a) (put_field (m_player a) id addr (mark_field m) v) (m_dropped a) (m_stale a)
      | _ =>
        MkMarks (put_field (m_shared a) (mark_host m) addr (mark_field m) v) (m_player a) (m_dropped a) (m_stale a)
      end
    end
  end.

(** ** One drain *)

Record SendSet := MkSendSet {
  ss_tick : Z;
  structural : list WireOp;
  sharedState : list StateDiff;
  playerState : jsmap jstr (list StateDiff);
  ss_transform : list (NetId * WireTransform);
  ss_dropped : Z;
  staleMarks : Z;
}.

Record RosterOps := MkRoster { joins : list Player; leaves : list jstr }.

(** The ops of this send in order: held over, joins, journal, leaves. *)
Definition order_ops (w : W) (roster : RosterOps) (spill : list WireOp) (journal : list StructuralOp)
    : list WireOp * Z :=
  let start := spill ++ ((fun p => WSingle (WPlayerJoin p)) <$> joins roster) in
  let '(ordered, dropped) := foldl (convert_one w (ephemeralIds w journal)) (start, 0) journal in
  (ordered ++ ((fun id => WSingle (WPlayerLeave id)) <$> leaves roster), dropped).

Definition cut_ops (ordered : list WireOp) (budget : Z) : list WireOp * list WireOp :=
  let cut := budgetCut ordered budget in
  if decide (cut < length ordered)%nat then (take cut ordered, drop cut ordered) else (ordered, []).

Definition drainOnce (w : W) (tick : Z) (roster : RosterOps) (spill : list WireOp) (budget : Z)
    : SendSet * list WireOp * W :=
  let '(journal, w) := drainStructural w in
  let '(ordered, dropped) := order_ops w roster spill journal in
  let '(now, held) := cut_ops ordered budget in
  let '(dirty, w) := consumeDirty w in
  let moved := omap (fun index =>
      let id := idAt w index in
      if id =? NO_ENTITY then None else Some (toNetId id, readTransform w id)) dirty in
  let '(marks, w) := drainState w in
  let acc := foldl (mark_step w (hostAddresses w)) (MkMarks [] [] 0 0) marks in
  (MkSendSet tick now (mvals (m_shared acc)) ((fun p => (p.1, [p.2])) <$> m_player acc) moved
     (dropped + m_dropped acc) (m_stale acc),
   held, w).

(** ** One session's envelope *)

Record StateEnvelope := MkState {
  se_tick : Z;
  se_ack : AckReport;
  se_structural : list WireOp;
  se_state : list StateDiff;
}.

(** The envelope, with the admission state and the skip it leaves the session. *)
Definition stateEnvelopeFor (adm : AdmissionState) (structuralSkip : nat) (playerId : jstr) (set : SendSet)
    : StateEnvelope * AdmissionState * nat :=
  let '(ack, adm') := takeAck adm in
  let scoped := mget (playerState set) playerId in
  let skip := (structuralSkip `min` length (structural set))%nat in
  (MkState (ss_tick set) ack (drop skip (structural set))
     (match scoped with Some s => sharedState set ++ s | None => sharedState set end),
   adm', (structuralSkip - skip)%nat).

Definition transformEnvelope (set : SendSet) : Z * list (NetId * WireTransform) :=
  (ss_tick set, ss_transform set).
End replicate.
Arguments Wire {A} a.
Arguments Elided {A}.
Arguments Unconvertible {A}.

(** ** The budget *)

Definition weights (ops : list WireOp) : Z := foldr (fun op n => op_weight op + n) 0 ops.

Lemma weights_app l l' : weights (l ++ l') = weights l + weights l'.
Proof. unfold weights. induction l as [|op l IH]; simpl; [done|]. lia. Qed.

Lemma op_weight_nonneg op : 0 <= op_weight op.
Proof. destruct op; simpl; unfold arr_len; lia. Qed.

Lemma cut_from_spec i w budget l :
  let c := cut_from i w budget l in
  (i <= c <= i + length l)%nat
  /\ ((0 < i + length l)%nat -> (0 < c)%nat)
  /\ (w + weights (take (c - i) l) <= budget \/ c = i \/ (i = 0%nat /\ c = 1%nat))
  /\ ((c < i + length l)%nat -> budget < w + weights (take (S (c - i)) l)).
Proof.
  revert i w. induction l as [|op l IH]; intros i w; cbn [cut_from length]; cbv zeta.
  { split_and!; lia. }
  destruct (budget <? w + op_weight op) eqn:E; bool_facts.
  - destruct (bool_decide (i = 0%nat)) eqn:E0; bool_facts.
    + subst. split_and!; try lia. intros _. simpl. pose proof (op_weight_nonneg op).
      assert (0 <= weights (take 1 l)); [|unfold weights in *; lia].
      unfold weights. destruct l as [|op' l]; simpl; [lia|]. pose proof (op_weight_nonneg op'). lia.
    + split_and!; try lia. intros _. rewrite Nat.sub_diag. simpl. lia.
  - destruct (IH (S i) (w + op_weight op)) as (H1 & H2 & H3 & H4).
    set (c := cut_from (S i) (w + op_weight op) budget l) in *.
    replace (c - i)%nat with (S (c - S i)) by lia. split_and!; try lia.
    + left. simpl. unfold weights in *. destruct H3 as [H3|[->|[? ?]]]; [lia| |lia].
      rewrite Nat.sub_diag. simpl. lia.
    + intros Hc. specialize (H4 ltac:(lia)). simpl. unfold weights in *. simpl in *. lia.
Qed.

Lemma budgetCut_spec ordered budget :
  let c := budgetCut ordered budget in
  (c <= length ordered)%nat
  /\ (ordered <> [] -> (0 < c)%nat)
  /\ (weights (take c ordered) <= budget \/ (c <= 1)%nat)
  /\ ((c < length ordered)%nat -> budget < weights (take (S c) ordered)).
Proof.
  cbv zeta. unfold budgetCut. destruct (cut_from_spec 0 0 budget ordered) as (H1 & H2 & H3 & H4).
  rewrite Nat.sub_0_r in H3, H4. split_and!.
  - lia.
  - intros Hne. apply H2. destruct ordered; [done|simpl; lia].
  - destruct H3 as [?|[?|[? ?]]]; [left; lia|right; lia|right; lia].
  - intros Hc. specialize (H4 ltac:(lia)). lia.
Qed.

Lemma cut_ops_app ordered budget :
  (cut_ops ordered budget).1 ++ (cut_ops ordered budget).2 = ordered.
Proof. unfold cut_ops. case_decide; simpl; [apply take_drop|apply app_nil_r]. Qed.

Lemma cut_ops_take ordered budget :
  (cut_ops ordered budget).1 = take (budgetCut ordered budget) ordered.
Proof.
  unfold cut_ops. case_decide as H; simpl; [done|].
  destruct (budgetCut_spec ordered budget) as (H1 & _). symmetry. apply take_ge. lia.
Qed.

(** ** Values on the wire *)

Lemma encode_items_ok d enc items l :
  (forall v j, enc v = Some j -> wire_ok d j) -> encode_items enc items = Some l -> Forall (wire_ok d) l.
Proof.
  intros Henc. revert l. induction items as [|x items IH]; intros l; simpl; [by intros [= <-]|].
  intros H. apply bind_Some in H as (j & Hj & H). apply bind_Some in H as (js' & Hjs & H). simplify_eq/=.
  constructor; eauto.
Qed.

Lemma encode_entries_ok d enc es f :
  (forall v j, enc v = Some j -> wire_ok d j) -> encode_entries enc es = Some f ->
  Forall (fun p => reserved p.1 = false /\ wire_ok d p.2) f.
Proof.
  intros Henc. revert f. induction es as [|[k x] es IH]; intros f; simpl; [by intros [= <-]|].
  destruct (reserved k) eqn:Er; [done|].
  intros H. apply bind_Some in H as (j & Hj & H). apply bind_Some in H as (f' & Hf & H). simplify_eq/=.
  constructor; eauto.
Qed.

Lemma encodeStateValue_ok d h opened v j :
  (forall l id, h l = SEntity id -> isFinite (of_Z id) = true) ->
  encodeStateValue d h opened v = Some j -> wire_ok d j.
Proof.
  intros Hid. revert opened v j. induction d as [|d IH]; intros opened v j; simpl;
    (destruct v as [ | |b|x|s| |l]; try done;
     [by intros [= <-]; constructor|by intros [= <-]; constructor
     |destruct (isFinite x) eqn:E; [|done]; intros [= <-]; by constructor
     |by intros [= <-]; constructor|]).
  - specialize (Hid l). destruct (h l); try (by case_bool); intros [= <-]; constructor. by apply Hid.
  - specialize (Hid l). destruct (h l) as [items|es|id|id|]; try (case_bool; [done|]).
    + destruct (encode_items _ items) as [l'|] eqn:El; [|done]. intros [= <-]. constructor.
      eapply encode_items_ok; [|exact El]. intros ??. apply IH.
    + destruct (encode_entries _ es) as [f|] eqn:El; [|done]. intros [= <-]. constructor.
      eapply encode_entries_ok; [|exact El]. intros ??. apply IH.
    + intros [= <-]. constructor. by apply Hid.
    + intros [= <-]. constructor.
    + done.
Qed.

(** ** The structural stream *)

Section stream.
Context {W : Type} `{WW : World W}.

(** What a drain adds behind the ops held over. *)
Definition new_ops (w : W) (roster : RosterOps) (journal : list StructuralOp) : list WireOp :=
  (order_ops w roster [] journal).1.


Lemma convert_fold (w : W) eph start n journal :
  (foldl (convert_one w eph) (start, n) journal).1
  = start ++ omap (fun op => match toWireStructural w op eph with Wire a => Some a | _ => None end) journal.
Proof.
  revert start n. induction journal as [|op journal IH]; intros start n; csimpl; [by rewrite app_nil_r|].
  unfold convert_one at 2. simpl.
  destruct (toWireStructural w op eph) as [a| |]; rewrite IH; [by rewrite <- app_assoc|done|done].
Qed.

Lemma order_ops_spill (w : W) roster spill journal :
  (order_ops w roster spill journal).1 = spill ++ new_ops w roster journal.
Proof.
  unfold new_ops, order_ops.
  pose proof (convert_fold w (ephemeralIds w journal)
    (spill ++ ((fun p => WSingle (WPlayerJoin p)) <$> joins roster)) 0 journal) as H1.
  pose proof (convert_fold w (ephemeralIds w journal)
    ([] ++ ((fun p => WSingle (WPlayerJoin p)) <$> joins roster)) 0 journal) as H2.
  destruct (foldl _ _ journal) as [o1 d1], (foldl _ _ journal) as [o2 d2]. simpl in *. subst.
  by rewrite <- !app_assoc.
Qed.

(** The op stream of one drain: sent now, then held. *)
Lemma drainOnce_stream (w : W) t roster spill budget :
  let '(set, held, _) := drainOnce w t roster spill budget in
  structural set ++ held = spill ++ new_ops (drainStructural w).2 roster (drainStructural w).1
  /\ structural set = take (budgetCut (structural set ++ held) budget) (structural set ++ held).
Proof.
  unfold drainOnce. destruct (drainStructural w) as [journal w1]. simpl.
  pose proof (order_ops_spill w1 roster spill journal) as Ho.
  destruct (order_ops w1 roster spill journal) as [ordered dropped]. simpl in Ho. subst.
  pose proof (cut_ops_app (spill ++ new_ops w1 roster journal) budget) as Happ.
  pose proof (cut_ops_take (spill ++ new_ops w1 roster journal) budget) as Htake.
  destruct (cut_ops _ _) as [now held]. simpl in Happ, Htake.
  destruct (consumeDirty w1) as [dirty w2]. destruct (drainState w2) as [marks w3]. simpl.
  rewrite Happ. done.
Qed.

(** A run of send-ticks, each draining the world as it then is, for a session that
    is owed every one of them. *)
Record send := MkSend { sd_world : W; sd_tick : Z; sd_roster : RosterOps }.

Definition produced (sd : send) : list WireOp :=
  new_ops (drainStructural (sd_world sd)).2 (sd_roster sd) (drainStructural (sd_world sd)).1.

Fixpoint sends (budget : Z) (spill : list WireOp) (adm : AdmissionState) (skip : nat) (pid : jstr)
    (l : list send) : list (list WireOp) * list (list WireOp) * list WireOp * nat :=
  match l with
  | [] => ([], [], spill, skip)
  | sd :: l' =>
    let '(set, held, _) := drainOnce (sd_world sd) (sd_tick sd) (sd_roster sd) spill budget in
    let '(env, adm', skip') := stateEnvelopeFor adm skip pid set in
    let '(sets, envs, spill', skip'') := sends budget held adm' skip' pid l' in
    (structural set :: sets, se_structural env :: envs, spill', skip'')
  end.

Lemma sends_stream budget spill adm skip pid l :
  let '(sets, envs, spill', skip') := sends budget spill adm skip pid l in
  concat sets ++ spill' = spill ++ concat (produced <$> l)
  /\ concat envs = drop skip (concat sets)
  /\ skip' = (skip - length (concat sets))%nat.
Proof.
  revert spill adm skip. induction l as [|sd l IH]; intros spill adm skip; cbn [sends].
  { simpl. rewrite app_nil_r. split_and!; [done|by rewrite drop_nil|lia]. }
  pose proof (drainOnce_stream (sd_world sd) (sd_tick sd) (sd_roster sd) spill budget) as Hd.
  destruct (drainOnce _ _ _ _ _) as [[set held] w']. destruct Hd as [Hd _].
  unfold stateEnvelopeFor. destruct (takeAck adm) as [ack adm']. cbn [se_structural].
  set (k := (skip `min` length (structural set))%nat).
  specialize (IH held adm' (skip - k)%nat).
  destruct (sends budget held adm' (skip - k) pid l) as [[[sets envs] spill'] skip'].
  destruct IH as (IH1 & IH2 & IH3). csimpl. split_and!.
  - rewrite <- app_assoc, IH1, app_assoc, Hd, <- app_assoc. done.
  - rewrite IH2, drop_app. destruct (decide (skip <= length (structural set))%nat).
    + assert (Hk : k = skip) by (unfold k; lia). rewrite Hk.
      by replace (skip - skip)%nat with (skip - length (structural set))%nat by lia.
    + assert (Hk : k = length (structural set)) by (unfold k; lia). by rewrite Hk, (drop_ge (structural set) (length _)), (drop_ge (structural set) skip) by lia.
  - rewrite IH3, length_app. unfold k. lia.
Qed.
End stream.

(** ** State scoping *)

Section scoping.
Context {W : Type} `{WW : World W}.

Definition shared_addr (a : StateHostAddr) : Prop := match a with HPlayer _ => False | _ => True end.

Record marks_scoped (a : mark_acc) : Prop := {
  ms_shared : Forall (fun p => shared_addr (host p.2)) (m_shared a);
  ms_player : Forall (fun p => host p.2 = HPlayer p.1) (m_player a);
}.

Lemma mset_forall {K V} `{EqDecision K} (P : K * V -> Prop) (m : jsmap K V) k v :
  Forall P m -> P (k, v) -> Forall P (mset m k v).
Proof.
  induction m as [|[k' v'] m IH]; simpl; intros Hm Hp; [by constructor|].
  apply Forall_cons in Hm as [Hh Ht]. case_decide; constructor; subst; auto.
Qed.

Lemma put_field_forall (P : jstr * StateDiff -> Prop) m k addr f v :
  Forall P m ->
  (forall d, (d = MkDiff addr [] \/ (exists d', mget m k = Some d' /\ d = d')) ->
     P (k, MkDiff (host d) (mset (fields d) f v))) ->
  Forall P (put_field m k addr f v).
Proof.
  intros Hm Hp. unfold put_field. apply mset_forall; [done|]. unfold nullish.
  destruct (mget m k) as [d|] eqn:E; simpl.
  - apply (Hp d). right. by exists d.
  - apply (Hp (MkDiff addr [])). by left.
Qed.

Lemma mark_step_scoped w hosts a m : marks_scoped a -> marks_scoped (mark_step w hosts a m).
Proof.
  intros [Hs Hp]. unfold mark_step. destruct (mget hosts (mark_host m)) as [addr|]; [|by split].
  destruct (encodeHostField w _ _) as [v|]; [|by split].
  assert (Hget : forall (P : jstr * StateDiff -> Prop) mm k d, Forall P mm -> mget mm k = Some d -> P (k, d)).
  { intros P mm k d HP Hk. rewrite Forall_forall in HP. apply HP. by apply mget_elem. }
  destruct addr as [|id|id]; split; simpl; try done; apply put_field_forall; try done; simpl.
  - intros d [->|(d' & Hd & ->)]; [done|]. by apply (Hget _ _ _ _ Hs Hd).
  - intros d [->|(d' & Hd & ->)]; [done|]. by apply (Hget _ _ _ _ Hp Hd).
  - intros d [->|(d' & Hd & ->)]; [done|]. by apply (Hget _ _ _ _ Hs Hd).
Qed.

Lemma marks_fold_scoped w hosts marks a :
  marks_scoped a -> marks_scoped (foldl (mark_step w hosts) a marks).
Proof. revert a. induction marks; simpl; intros; [done|]. auto using mark_step_scoped. Qed.

Lemma drainOnce_scoped (w : W) t roster spill budget :
  let '(set, _, _) := drainOnce w t roster spill budget in
  Forall (fun d => shared_addr (host d)) (sharedState set)
  /\ forall pid ds, mget (playerState set) pid = Some ds -> Forall (fun d => host d = HPlayer pid) ds.
Proof.
  unfold drainOnce. destruct (drainStructural w) as [journal w1].
  destruct (order_ops w1 roster spill journal) as [ordered dropped]. destruct (cut_ops _ _) as [now held].
  destruct (consumeDirty w1) as [dirty w2]. destruct (drainState w2) as [marks w3]. simpl.
  destruct (marks_fold_scoped w3 (hostAddresses w3) marks (MkMarks [] [] 0 0)) as [Hs Hp]; [by split|].
  split; [by apply Forall_fmap|].
  intros pid ds Hd. apply mget_elem, list_elem_of_fmap in Hd as ([k d] & [= -> ->] & Hin).
  rewrite Forall_forall in Hp. by constructor; [apply (Hp _ Hin)|].
Qed.

(** ** What the conversion keeps *)

Definition wire_id (op : WireSingle) : option NetId :=
  match op with
  | WSpawn s => Some (netId s)
  | WDestroy id | WReparent id _ | WTag id _ _ | WAttach id _ => Some id
  | WPlayerJoin _ | WPlayerLeave _ => None
  end.

Lemma toWireSingle_id w op eph a :
  toWireSingle w op eph = Wire a -> wire_id a = Some (op_id op) /\ op_id op ∉ eph.
Proof.
  unfold toWireSingle. destruct (shas eph (op_id op)) eqn:E; [done|]. apply shas_false in E.
  destruct op as [id|id|id to|id tag added|id att]; simpl in *; try (by intros [= <-]).
  - unfold readEntitySnapshot. destruct (record w id); simpl; [|done]. by intros [= <-].
  - destruct (startsWith tag SAY_PREFIX); [done|]. by intros [= <-].
Qed.

(** The members a group's op stands for: converted one by one, the elided skipped. *)
Fixpoint convert_all (w : W) (ops : list SingleOp) (eph : jsset EntityId) : option (list WireSingle) :=
  match ops with
  | [] => Some []
  | op :: rest =>
    match toWireSingle w op eph, convert_all w rest eph with
    | Unconvertible, _ | _, None => None
    | Elided, Some r => Some r
    | Wire a, Some r => Some (a :: r)
    end
  end.

Lemma group_ops_eq w ops eph acc :
  group_ops w ops eph acc = (fun r => acc ++ r) <$> convert_all w ops eph.
Proof.
  revert acc. induction ops as [|op ops IH]; intros acc; simpl; [by rewrite app_nil_r|].
  destruct (toWireSingle w op eph) as [a| |]; rewrite ?IH; destruct (convert_all w ops eph); simpl; try done.
  by rewrite <- app_assoc.
Qed.

Definition members (op : WireOp) : list WireSingle :=
  match op with WSingle a => [a] | WGroup ops => ops end.

Lemma toWireStructural_members w op eph :
  toWireStructural w op eph
  = match convert_all w (singles op) eph with
    | None => Unconvertible
    | Some [] => Elided
    | Some [a] => Wire (WSingle a)
    | Some many => Wire (WGroup many)
    end.
Proof.
  destruct op as [s|ops]; simpl.
  - by destruct (toWireSingle w s eph).
  - rewrite group_ops_eq. destruct (convert_all w ops eph) as [[|a [|b r]]|]; done.
Qed.

Lemma convert_all_ids w ops eph r :
  convert_all w ops eph = Some r ->
  Forall (fun a => exists op, op ∈ ops /\ toWireSingle w op eph = Wire a) r.
Proof.
  revert r. induction ops as [|op ops IH]; intros r; simpl; [intros [= <-]; constructor|].
  assert (Hw : forall r', Forall (fun a => exists o, o ∈ ops /\ toWireSingle w o eph = Wire a) r' ->
    Forall (fun a => exists o, o ∈ op :: ops /\ toWireSingle w o eph = Wire a) r').
  { intros r' H. eapply Forall_impl; [exact H|]. simpl. intros a (o & ? & ?). exists o. split; [by right|done]. }
  destruct (toWireSingle w op eph) as [a| |] eqn:E; destruct (convert_all w ops eph) as [r'|]; try done;
    intros [= <-].
  - constructor; [|by apply Hw, IH]. exists op. split; [left|done].
  - by apply Hw, IH.
Qed.
End scoping.

(** ** A small world to run the model on *)

Record mini := MkMini {
  mi_ents : list (EntityId * EntityRecord);
  mi_journal : list StructuralOp;
  mi_marks : list StateMark;
  mi_players : list Player;
}.

Definition zero_cells : WireTransform := MkTransform f0 f0 f0 f0 NaN NaN f0.

#[export] Instance mini_world : World mini := {|
  record w id := mget (mi_ents w) id;
  liveIds w := (mi_ents w).*1;
  idAt _ i := i;
  tagsOf _ _ := [];
  cells _ _ := zero_cells;
  scriptsOn _ _ := [];
  players := mi_players;
  hostRecord _ _ := Some 0%nat;
  recordKeys _ _ := [js "score"];
  hostField _ _ _ := (fun _ => SOther, SNum (of_Z 5));
  gameKey := js "game";
  playerKey p := js "player:" ++ p;
  entityKey id := [id];
  drainStructural w := (mi_journal w, MkMini (mi_ents w) [] (mi_marks w) (mi_players w));
  consumeDirty w := ([], w);
  drainState w := (mi_marks w, MkMini (mi_ents w) (mi_journal w) [] (mi_players w));
|}.

(** ** Properties *)

(** C12. A joiner sees each structural op exactly once, in order. From the send that
    welcomed it, with [spill] held over and so already part of its snapshot, over
    any later sends of any worlds: what it is sent, followed by what is held over
    less what it must still skip, is exactly what those sends produced. Nothing held
    over before its snapshot is repeated to it, and nothing produced after is lost
    or reordered by the budget. *)
Theorem joiner_sees_each_op_once {W} `{WW : World W} (budget : Z) (spill : list WireOp)
    (adm : AdmissionState) (pid : jstr) (l : list send) :
  let '(_, received, held, skip) := sends budget spill adm (length spill) pid l in
  concat received ++ drop skip held = concat (produced <$> l).
Proof.
  pose proof (sends_stream budget spill adm (length spill) pid l) as H.
  destruct (sends budget spill adm (length spill) pid l) as [[[sets envs] held] skip].
  destruct H as (H1 & H2 & ->). rewrite H2, <- drop_app, H1. apply drop_app_length.
Qed.

(** The budget cuts between ops and always makes progress. One drain sends a
    prefix of what is held over followed by what the world produced, and holds the
    rest; the prefix weighs at most the budget, a group counting its members, unless
    its first op alone exceeds it; it is not empty when there is anything to send,
    and one op more would not have fitted. *)
Theorem drain_respects_budget {W} `{WW : World W} (w : W) (tick : Z) (roster : RosterOps)
    (spill : list WireOp) (budget : Z) :
  let '(set, held, _) := drainOnce w tick roster spill budget in
  structural set ++ held = spill ++ new_ops (drainStructural w).2 roster (drainStructural w).1
  /\ (weights (structural set) <= budget \/ (length (structural set) <= 1)%nat)
  /\ (structural set = [] -> held = [])
  /\ (forall op rest, held = op :: rest -> budget < weights (structural set ++ [op])).
Proof.
  pose proof (drainOnce_stream w tick roster spill budget) as H.
  destruct (drainOnce w tick roster spill budget) as [[set held] w']. destruct H as [H1 H2].
  destruct (budgetCut_spec (structural set ++ held) budget) as (Hle & Hpos & Hw & Hmax).
  set (c := budgetCut (structural set ++ held) budget) in *. clearbody c.
  assert (Hc : c = length (structural set) \/ (length (structural set) <= c)%nat /\ held = []).
  { rewrite length_app in Hle. apply (f_equal length) in H2. rewrite length_take, length_app in H2.
    destruct held; [right; simpl in *; split; [lia|done]|left]. simpl in *. lia. }
  split; [done|]. split_and!.
  - rewrite <- H2 in Hw. destruct Hw as [Hw|Hw]; [by left|right]. destruct Hc; lia.
  - intros Hnil. destruct held as [|op rest]; [done|]. exfalso.
    assert (0 < c)%nat by (apply Hpos; by rewrite Hnil). rewrite Hnil in Hc. simpl in Hc. destruct Hc as [?|[? ?]]; [lia|done].
  - intros op rest ->. destruct Hc as [->|[? ?]]; [|done].
    rewrite length_app in Hmax. simpl in Hmax. specialize (Hmax ltac:(lia)).
    replace (S (length (structural set))) with (length (structural set ++ [op])) in Hmax
      by (rewrite length_app; simpl; lia).
    by rewrite (app_assoc _ [op] rest), take_app_length in Hmax.
Qed.

(** C22. A player's private state goes to that player only. Whatever a world wrote,
    an envelope for one player holds no state addressed to another: the shared part
    of a drain addresses only the game and entities, and what is added for a player
    addresses that player. *)
Theorem state_is_scoped {W} `{WW : World W} (w : W) (tick : Z) (roster : RosterOps)
    (spill : list WireOp) (budget : Z) (adm : AdmissionState) (skip : nat) (pid other : jstr) :
  pid <> other ->
  let '(set, _, _) := drainOnce w tick roster spill budget in
  let '(env, _, _) := stateEnvelopeFor adm skip pid set in
  Forall (fun d => host d <> HPlayer other) (se_state env).
Proof.
  intros Hne. pose proof (drainOnce_scoped w tick roster spill budget) as H.
  destruct (drainOnce w tick roster spill budget) as [[set held] w']. destruct H as [Hs Hp].
  unfold stateEnvelopeFor. destruct (takeAck adm). simpl.
  assert (Hshared : Forall (fun d => host d <> HPlayer other) (sharedState set)).
  { eapply Forall_impl; [exact Hs|]. simpl. intros d Hd Heq. by rewrite Heq in Hd. }
  destruct (mget (playerState set) pid) as [ds|] eqn:E; [|done].
  apply Forall_app. split; [done|]. eapply Forall_impl; [exact (Hp _ _ E)|]. simpl. congruence.
Qed.

Definition two_players : mini :=
  MkMini [] [] [MkMark 0 (js "player:a") (js "score"); MkMark 0 (js "player:b") (js "score")]
    [MkPlayer (js "a") 0 []; MkPlayer (js "b") 1 []].

Lemma state_is_scoped_witness :
  Forall (fun d => host d <> HPlayer (js "b"))
    (se_state (stateEnvelopeFor new_admission 0 (js "a")
       (drainOnce two_players 3 (MkRoster [] []) [] 10).1.1).1.1)
  /\ length (se_state (stateEnvelopeFor new_admission 0 (js "a")
       (drainOnce two_players 3 (MkRoster [] []) [] 10).1.1).1.1) = 1%nat.
Proof.
  split; [|vm_compute; reflexivity].
  exact (state_is_scoped two_players 3 (MkRoster [] []) [] 10 new_admission 0 (js "a") (js "b")
    ltac:(discriminate)).
Defined.

(** A group crosses whole or not at all. Converting a journal entry gives the
    ops its members convert to, in order, the elided ones left out; it is dropped
    entirely when one member cannot convert and elided when none is left; a group
    of one travels as that op; and no op on the wire names an entity spawned and
    released inside the same journal. *)
Theorem groups_cross_whole {W} `{WW : World W} (w : W) (op : StructuralOp) (journal : list StructuralOp) :
  let eph := ephemeralIds w journal in
  match toWireStructural w op eph with
  | Wire wop =>
    convert_all w (singles op) eph = Some (members wop)
    /\ Forall (fun a => exists id, wire_id a = Some id /\ id ∉ eph) (members wop)
    /\ (forall ops, wop = WGroup ops -> (2 <= length ops)%nat)
  | Elided => convert_all w (singles op) eph = Some []
  | Unconvertible => convert_all w (singles op) eph = None
  end.
Proof.
  intros eph. rewrite toWireStructural_members.
  destruct (convert_all w (singles op) eph) as [r|] eqn:E; [|done].
  assert (Hids : Forall (fun a => exists id, wire_id a = Some id /\ id ∉ eph) r).
  { eapply Forall_impl; [exact (convert_all_ids _ _ _ _ E)|]. simpl. intros a (o & _ & Ho).
    exists (op_id o). by eapply toWireSingle_id. }
  destruct r as [|a [|b r]]; [done| |]; (split_and!; [done|done|]); intros ops [= <-]; simpl; lia.
Qed.
