(* ===== verification/Snapshot.v ===== *)
(** * The join snapshot ([packages/sim/src/snapshot.ts], [packages/sim/src/chunk.ts])

    A joiner receives the whole world once: live entities ordered parents first, the
    roster, and the state it may see; divided into frames when one cannot carry it. *)

From S2P Require Import Prelude JsMap JsNum Json Channels Codec Replicate.

Local Open Scope Z_scope.

(** ** Parents before children *)

Section order.
Context {W : Type} `{WW : World W}.

(** [record(id)?.parent ?? NO_ENTITY]. *)
Definition parent_of (w : W) (id : EntityId) : EntityId :=
  match record w id with Some r => parent r | None => NO_ENTITY end.

Definition is_root (w : W) (ids : list EntityId) (id : EntityId) : bool :=
  (parent_of w id =? NO_ENTITY) || negb (shas ids (parent_of w id)).

(** The first loop: roots in order, and children per parent in order. *)
Definition sort_one (w : W) (ids : list EntityId)
    (acc : list EntityId * jsmap EntityId (list EntityId)) (id : EntityId)
    : list EntityId * jsmap EntityId (list EntityId) :=
  if is_root w ids id then (acc.1 ++ [id], acc.2)
  else
    let p := parent_of w id in
    match mget acc.2 p with
    | Some siblings => (acc.1, mset acc.2 p (siblings ++ [id]))
    | None => (acc.1, mset acc.2 p [id])
    end.

(** The walk: [stack] with its top first, [out] and [seen] together. *)
Fixpoint visit (fuel : nat) (children : jsmap EntityId (list EntityId))
    (stack out : list EntityId) : list EntityId :=
  match fuel with
  | O => out
  | S fuel' =>
    match stack with
    | [] => out
    | id :: stack' =>
      if shas out id then visit fuel' children stack' out
      else
        let out := out ++ [id] in
        match mget children id with
        | Some kids => visit fuel' children (kids ++ stack') out
        | None => visit fuel' children stack' out
        end
    end
  end.

(** Every id is pushed at most once, so the live count is fuel enough. *)
Definition ancestorsFirst (w : W) : list EntityId :=
  let ids := liveIds w in
  let '(roots, children) := foldl (sort_one w ids) ([], []) ids in
  let out := visit (S (length ids)) children roots [] in
  out ++ filter (fun id => shas out id = false) ids.

(** ** The snapshot *)

Definition collect (w : W) (into : list StateDiff) (hostKey : jstr) (addr : StateHostAddr) : list StateDiff :=
  match hostRecord w hostKey with
  | None => into
  | Some r =>
    let fields := foldl (fun acc field =>
        match encodeHostField w r field with Some v => mset acc field v | None => acc end)
      [] (recordKeys w r) in
    match fields with [] => into | _ => into ++ [MkDiff addr fields] end
  end.

Definition snapshotState (w : W) (forPlayer : Player) (ids : list EntityId) : list StateDiff :=
  let out := collect w [] gameKey HGame in
  let out := collect w out (playerKey (p_id forPlayer)) (HPlayer (p_id forPlayer)) in
  foldl (fun out id => collect w out (entityKey id) (HEntity (toNetId id))) out ids.

Record WorldSnapshot := MkWorld {
  ws_tick : Z;
  entities : list EntitySnapshot;
  ws_players : list Player;
  ws_state : list StateDiff;
}.

Definition buildSnapshot (w : W) (tick : Z) (forPlayer : Player) : WorldSnapshot :=
  let ids := ancestorsFirst w in
  MkWorld tick (omap (fun id => readEntitySnapshot w id true) ids)
    (readPlayerSnapshot <$> players w) (snapshotState w forPlayer ids).
End order.

(** ** Dividing it *)

Section chunk.
Context {Frame Outgoing Message Err : Type} `{C : Codec Frame Outgoing Message Err}.

(** [None] is [Infinity]: the codec refused the value. *)
Definition encodedSize {T} (as_message : T -> Outgoing) (item : T) : option Z :=
  match encode (as_message item) with Ok f => Some (byteLength f) | Throw _ => None end.

Record packing (T : Type) := MkPacking {
  groups : list (list T);
  current : list T;
  used : Z;
  pk_dropped : Z;
}.
Arguments MkPacking {T}.
Arguments groups {T}.
Arguments current {T}.
Arguments used {T}.
Arguments pk_dropped {T}.

Definition pack_one {T} (as_message : T -> Outgoing) (budget : Z) (p : packing T) (item : T) : packing T :=
  match encodedSize as_message item with
  | None => MkPacking (groups p) (current p) (used p) (pk_dropped p + 1)
  | Some bytes =>
    let size := bytes + 1 in
    if budget <? size then MkPacking (groups p) (current p) (used p) (pk_dropped p + 1)
    else
      let p :=
        if (budget <? used p + size) && negb (bool_decide (length (current p) = 0%nat))
        then MkPacking (groups p ++ [current p]) [] 0 (pk_dropped p)
        else p in
      MkPacking (groups p) (current p ++ [item]) (used p + size) (pk_dropped p)
  end.

Definition pack {T} (as_message : T -> Outgoing) (items : list T) (budget : Z) : list (list T) * Z :=
  let p := foldl (pack_one as_message budget) (MkPacking [] [] 0 0) items in
  (match current p with [] => groups p | c => groups p ++ [c] end, pk_dropped p).

Record SnapshotChunk := MkChunk {
  ck_index : nat;
  ck_entities : list EntitySnapshot;
  ck_state : list StateDiff;
}.

Definition splitSnapshot (entity_message : EntitySnapshot -> Outgoing) (state_message : StateDiff -> Outgoing)
    (s : WorldSnapshot) (budget : Z) : WorldSnapshot * list SnapshotChunk * Z :=
  let '(eg, ed) := pack entity_message (entities s) budget in
  let '(sg, sd) := pack state_message (ws_state s) budget in
  let chunks := foldl (fun cs g => cs ++ [MkChunk (length cs) g []]) [] eg in
  let chunks := foldl (fun cs g => cs ++ [MkChunk (length cs) [] g]) chunks sg in
  (MkWorld (ws_tick s) [] (ws_players s) [], chunks, ed + sd).
End chunk.
Arguments MkPacking {T}.
Arguments groups {T}.
Arguments current {T}.
Arguments used {T}.
Arguments pk_dropped {T}.

(** ** The order *)

Section order_facts.
Context {W : Type} `{WW : World W} (w : W) (ids : list EntityId).

Definition kids_in (l : list EntityId) (p : EntityId) : list EntityId :=
  filter (fun id => is_root w ids id = false /\ parent_of w id = p) l.

Definition kids_at (children : jsmap EntityId (list EntityId)) (p : EntityId) : list EntityId :=
  match mget children p with Some kids => kids | None => [] end.

Lemma sort_fold l roots children before :
  (forall p, kids_at children p = kids_in before p) ->
  let '(roots', children') := foldl (sort_one w ids) (roots, children) l in
  roots' = roots ++ filter (fun id => is_root w ids id = true) l
  /\ forall p, kids_at children' p = kids_in (before ++ l) p.
Proof.
  revert roots children before. induction l as [|id l IH]; intros roots children before Hk; cbn [foldl].
  { by rewrite !app_nil_r. }
  rewrite (cons_middle id before l), (app_assoc before [id] l). unfold sort_one at 2.
  destruct (is_root w ids id) eqn:Er; cbn [fst snd].
  - specialize (IH (roots ++ [id]) children (before ++ [id])).
    destruct (foldl _ _ l) as [roots' children']. rewrite filter_cons_True, (cons_middle id), app_assoc by done.
    apply IH. intros p. rewrite Hk. unfold kids_in. rewrite filter_app, filter_cons_False, app_nil_r; [done|].
    rewrite Er. by intros [? _].
  - assert (Hset : forall kids, kids = kids_at children (parent_of w id) ++ [id] ->
      forall p, kids_at (mset children (parent_of w id) kids) p = kids_in (before ++ [id]) p).
    { intros kids -> p. unfold kids_at at 1. rewrite mget_mset. unfold kids_in. rewrite filter_app.
      case_decide as Hp; subst.
      - rewrite filter_cons_True by done. by rewrite Hk.
      - rewrite filter_cons_False, app_nil_r by tauto. apply Hk. }
    rewrite filter_cons_False by (by rewrite Er).
    unfold kids_at in Hset at 1. destruct (mget children (parent_of w id)) as [sib|] eqn:Eg.
    + specialize (IH roots (mset children (parent_of w id) (sib ++ [id])) (before ++ [id])).
      destruct (foldl _ _ l) as [roots' children']. apply IH, Hset. done.
    + specialize (IH roots (mset children (parent_of w id) [id]) (before ++ [id])).
      destruct (foldl _ _ l) as [roots' children']. apply IH, Hset. done.
Qed.

(** Every member of a list is a root or has its parent earlier in it. *)
Definition parents_earlier (l : list EntityId) : Prop :=
  forall l1 x l2, l = l1 ++ x :: l2 -> is_root w ids x = true \/ parent_of w x ∈ l1.

Record visit_inv (stack out : list EntityId) : Prop := {
  vi_nodup : NoDup (out ++ stack);
  vi_live : forall x, x ∈ out ++ stack -> x ∈ ids;
  vi_stack : forall x, x ∈ stack -> is_root w ids x = true \/ parent_of w x ∈ out;
  vi_closed : forall y x, y ∈ out -> x ∈ kids_in ids y -> x ∈ out ++ stack;
  vi_order : parents_earlier out;
  vi_roots : forall x, x ∈ ids -> is_root w ids x = true -> x ∈ out ++ stack;
}.

Lemma parents_earlier_snoc l x :
  parents_earlier l -> is_root w ids x = true \/ parent_of w x ∈ l -> parents_earlier (l ++ [x]).
Proof.
  intros Hl Hx l1 y l2 Heq. destruct l2 as [|z l2 _] using rev_ind.
  - apply app_inj_tail in Heq as [-> ->]. done.
  - rewrite app_comm_cons, app_assoc in Heq. apply app_inj_tail in Heq as [-> ->]. by eapply Hl.
Qed.

Lemma parents_earlier_in l x : parents_earlier l -> x ∈ l -> is_root w ids x = true \/ parent_of w x ∈ l.
Proof.
  intros Hl (l1 & l2 & ->)%list_elem_of_split. destruct (Hl l1 x l2 eq_refl) as [?|?]; [by left|].
  right. set_solver.
Qed.

Lemma visit_step_inv id stack out :
  NoDup ids -> visit_inv (id :: stack) out -> visit_inv (kids_in ids id ++ stack) (out ++ [id]).
Proof.
  intros Hids [Hnd Hlive Hst Hcl Hord Hr].
  assert (Hid : (id ∉ out) /\ (id ∉ stack) /\ NoDup out /\ NoDup stack /\ (forall x, x ∈ out -> x ∉ stack)).
  { apply NoDup_app in Hnd as (H1 & H2 & H3). apply NoDup_cons in H3 as [H3 H4].
    split_and!; try done; [intros Hin; by apply (H2 id Hin); left|].
    intros x Hx Hs. apply (H2 x Hx). by right. }
  destruct Hid as (Hout & Hstk & Hnd1 & Hnd2 & Hdis).
  assert (Hkid : forall x, x ∈ kids_in ids id -> (x ∉ out) /\ x <> id /\ (x ∉ stack)).
  { intros x [[Hx1 Hx2] Hx3]%list_elem_of_filter.
    assert (Hparent : forall l : list EntityId, is_root w ids x = true \/ parent_of w x ∈ l -> id ∈ l).
    { intros l [?|?]; [congruence|by subst]. }
    split_and!.
    - intros Hin. apply Hout. by apply Hparent, parents_earlier_in.
    - intros ->. apply Hout, Hparent, Hst. left.
    - intros Hin. apply Hout, Hparent, Hst. by right. }
  assert (Hsh : forall x, x ∈ out ++ id :: stack -> x ∈ (out ++ [id]) ++ kids_in ids id ++ stack) by set_solver.
  split.
  - rewrite <- app_assoc. apply NoDup_app. split; [done|]. split.
    + intros x Hx [->%list_elem_of_singleton|[Hk|Hs]%elem_of_app]%elem_of_app; [done| |by apply (Hdis x)].
      by destruct (Hkid x Hk).
    + apply NoDup_app. split_and!; [apply NoDup_singleton| |].
      * intros x ->%list_elem_of_singleton [Hk|Hs]%elem_of_app; [|done]. by destruct (Hkid id Hk) as (_ & ? & _).
      * apply NoDup_app. split_and!; [by apply NoDup_filter| |done].
        intros x Hk Hs. by destruct (Hkid x Hk) as (_ & _ & ?).
  - intros x Hx. rewrite <- app_assoc in Hx. apply elem_of_app in Hx as [Hx|[Hx|[Hx|Hx]%elem_of_app]%elem_of_app].
    + apply Hlive. set_solver.
    + apply Hlive. set_solver.
    + by apply list_elem_of_filter in Hx as [_ ?].
    + apply Hlive. set_solver.
  - intros x [Hx|Hx]%elem_of_app.
    { apply list_elem_of_filter in Hx as [[_ Hp] _]. rewrite Hp. right. set_solver. }
    destruct (Hst x ltac:(by right)) as [?|?]; [by left|right; set_solver].
  - intros y x [Hy|Hy%list_elem_of_singleton]%elem_of_app Hx; [|subst; set_solver]. apply Hsh. by eapply Hcl.
  - apply parents_earlier_snoc; [done|]. apply Hst. left.
  - intros x Hx Hrx. by apply Hsh, Hr.
Qed.

Lemma visit_inv_run children fuel stack out :
  NoDup ids -> (forall p, kids_at children p = kids_in ids p) ->
  visit_inv stack out -> (length ids - length out < fuel)%nat ->
  visit_inv [] (visit fuel children stack out).
Proof.
  intros Hids Hk. revert stack out. induction fuel as [|fuel IH]; intros stack out Hi Hf; [lia|].
  cbn [visit]. destruct stack as [|id stack]; [done|].
  assert (Hout : id ∉ out).
  { destruct Hi as [Hnd _ _ _ _ _]. apply NoDup_app in Hnd as (_ & H2 & _). intros Hin.
    by apply (H2 id Hin); left. }
  rewrite (proj2 (shas_false out id)) by done.
  pose proof (visit_step_inv id stack out Hids Hi) as Hi'.
  assert (Hle : (length out < length ids)%nat).
  { assert (H : (length (out ++ id :: stack) <= length ids)%nat).
    { apply submseteq_length. apply NoDup_submseteq; [apply Hi|]. intros x Hx. by apply (vi_live _ _ Hi). }
    rewrite length_app in H. simpl in H. lia. }
  specialize (Hk id). unfold kids_at in Hk. rewrite <- Hk in Hi'.
  destruct (mget children id) as [kids|]; apply IH; try done; rewrite length_app; simpl; lia.
Qed.
End order_facts.

Lemma ancestorsFirst_visit {W} `{WW : World W} (w : W) :
  NoDup (liveIds w) ->
  exists out, visit_inv w (liveIds w) [] out
    /\ ancestorsFirst w = out ++ filter (fun id => shas out id = false) (liveIds w).
Proof.
  intros Hnd. unfold ancestorsFirst.
  pose proof (sort_fold w (liveIds w) (liveIds w) [] [] [] ltac:(done)) as Hs.
  destruct (foldl _ _ _) as [roots children]. destruct Hs as [-> Hk]. simpl in Hk.
  eexists. split; [|reflexivity]. apply visit_inv_run; [done|done| |simpl; lia].
  split; simpl.
  - by apply NoDup_filter.
  - intros x [_ ?]%list_elem_of_filter. done.
  - intros x [? _]%list_elem_of_filter. by left.
  - intros y x Hy. by apply elem_of_nil in Hy.
  - intros l1 x l2 Heq. by destruct l1.
  - intros x Hx Hr. by apply list_elem_of_filter.
Qed.

(** ** Packing *)

Section pack_facts.
Context {Frame Outgoing Message Err : Type} `{C : Codec Frame Outgoing Message Err}.
Context {T : Type} (as_message : T -> Outgoing) (budget : Z).

Definition item_size (x : T) : option Z := (fun n => n + 1) <$> encodedSize as_message x.

Definition fits (x : T) : bool :=
  match item_size x with Some n => n <=? budget | None => false end.

Definition total (l : list T) : Z := foldr (fun x n => default 0 (item_size x) + n) 0 l.

Lemma total_snoc l x : total (l ++ [x]) = total l + default 0 (item_size x).
Proof. unfold total. induction l as [|y l IH]; simpl; lia. Qed.

Record pack_inv (items : list T) (p : packing T) : Prop := {
  pi_kept : concat (groups p) ++ current p = filter (fun x => fits x = true) items;
  pi_groups : Forall (fun g => g <> [] /\ total g <= budget) (groups p);
  pi_used : used p = total (current p);
  pi_current : current p <> [] -> total (current p) <= budget;
  pi_dropped : pk_dropped p = Z.of_nat (length (filter (fun x => fits x = false) items));
}.

Lemma pack_one_inv items p x : pack_inv items p -> pack_inv (items ++ [x]) (pack_one as_message budget p x).
Proof.
  intros [Hk Hg Hu Hc Hd]. unfold pack_one.
  assert (Hskip : fits x = false ->
    pack_inv (items ++ [x]) (MkPacking (groups p) (current p) (used p) (pk_dropped p + 1))).
  { intros Hx. split; simpl; try done.
    - by rewrite filter_app, filter_cons_False, app_nil_r by (by rewrite Hx).
    - rewrite filter_app, filter_cons_True by done. rewrite length_app, Hd. simpl. lia. }
  destruct (encodedSize as_message x) as [bytes|] eqn:Es; [|apply Hskip; unfold fits, item_size; by rewrite Es].
  assert (Hsz : item_size x = Some (bytes + 1)) by (unfold item_size; by rewrite Es).
  destruct (budget <? bytes + 1) eqn:Eb; bool_facts.
  { apply Hskip. unfold fits. rewrite Hsz. apply Z.leb_gt. lia. }
  assert (Hfit : fits x = true) by (unfold fits; rewrite Hsz; apply Z.leb_le; lia).
  assert (Hdrop : pk_dropped p = Z.of_nat (length (filter (fun y => fits y = false) (items ++ [x])))).
  { by rewrite filter_app, filter_cons_False, app_nil_r by (by rewrite Hfit). }
  assert (Hkeep : filter (fun y => fits y = true) (items ++ [x])
    = filter (fun y => fits y = true) items ++ [x]) by (by rewrite filter_app, filter_cons_True).
  destruct ((budget <? used p + (bytes + 1)) && negb (bool_decide (length (current p) = 0%nat))) eqn:Ec.
  - bool_facts. split; simpl; try done.
    + by rewrite Hkeep, concat_app, <- Hk, <- app_assoc; simpl; rewrite app_nil_r, <- app_assoc.
    + apply Forall_app. split; [done|]. constructor; [|done].
      assert (current p <> []) by (intros Hnil; by rewrite Hnil in *). auto.
    + unfold total. simpl. rewrite Hsz. simpl. lia.
    + intros _. unfold total. simpl. rewrite Hsz. simpl. lia.
  - split; simpl; try done.
    + by rewrite Hkeep, app_assoc, Hk.
    + rewrite total_snoc, Hsz, Hu. done.
    + intros _. rewrite total_snoc, Hsz. simpl. apply andb_false_iff in Ec as [Ec|Ec]; bool_facts.
      * lia.
      * destruct (current p) eqn:Ecur; [|done]. simpl. lia.
Qed.

Lemma pack_spec items :
  let '(gs, d) := pack as_message items budget in
  concat gs = filter (fun x => fits x = true) items
  /\ Forall (fun g => g <> [] /\ total g <= budget) gs
  /\ d = Z.of_nat (length (filter (fun x => fits x = false) items)).
Proof.
  unfold pack. assert (Hi : pack_inv items (foldl (pack_one as_message budget) (MkPacking [] [] 0 0) items)).
  { induction items as [|x items IH] using rev_ind; [by split|].
    rewrite foldl_app. cbn [foldl]. by apply pack_one_inv. }
  destruct Hi as [Hk Hg Hu Hc Hd]. destruct (current _) as [|x c] eqn:E.
  - rewrite app_nil_r in Hk. done.
  - split_and!; [|apply Forall_app; split; [done|]; constructor; [|done]; split; [done|by apply Hc]|done].
    by rewrite concat_app; simpl; rewrite app_nil_r.
Qed.
End pack_facts.

Lemma ancestorsFirst_perm {W} `{WW : World W} (w : W) :
  NoDup (liveIds w) -> ancestorsFirst w ≡ₚ liveIds w.
Proof.
  intros Hnd. destruct (ancestorsFirst_visit w Hnd) as (out & Hi & ->).
  assert (Hout : NoDup out) by (pose proof (vi_nodup _ _ _ _ Hi) as H; by rewrite app_nil_r in H).
  apply NoDup_Permutation; [|done|].
  - apply NoDup_app. split_and!; [done| |by apply NoDup_filter].
    intros x Hx [Hn _]%list_elem_of_filter. by apply shas_false in Hn.
  - intros x. rewrite elem_of_app, list_elem_of_filter, shas_false. split.
    + intros [Hx|[_ ?]]; [|done]. apply (vi_live _ _ _ _ Hi). set_solver.
    + intros Hx. destruct (decide (x ∈ out)); auto.
Qed.

(** Under an acyclic parent relation the walk reaches every live id. *)
Lemma visit_all {W} `{WW : World W} (w : W) out (rank : EntityId -> nat) :
  visit_inv w (liveIds w) [] out ->
  (forall x, x ∈ liveIds w -> is_root w (liveIds w) x = false -> (rank (parent_of w x) < rank x)%nat) ->
  forall x, x ∈ liveIds w -> x ∈ out.
Proof.
  intros Hi Hrank. enough (forall n x, (rank x < n)%nat -> x ∈ liveIds w -> x ∈ out) by (intros; eauto).
  induction n as [|n IH]; intros x Hn Hx; [lia|].
  destruct (is_root w (liveIds w) x) eqn:Er.
  - pose proof (vi_roots _ _ _ _ Hi x Hx Er) as H. by rewrite app_nil_r in H.
  - assert (Hp : parent_of w x ∈ liveIds w).
    { unfold is_root in Er. apply orb_false_iff in Er as [_ Er]. apply negb_false_iff in Er.
      by apply shas_spec. }
    pose proof (Hrank x Hx Er) as Hlt. specialize (IH (parent_of w x) ltac:(lia) Hp).
    pose proof (vi_closed _ _ _ _ Hi (parent_of w x) x IH) as H. rewrite app_nil_r in H.
    apply H. by apply list_elem_of_filter.
Qed.

(** The two loops that number the chunks. *)
Lemma number_chunks {T} (mk : nat -> list T -> SnapshotChunk) (gs : list (list T)) cs :
  (forall i g, ck_index (mk i g) = i) ->
  ck_index <$> cs = seq 0 (length cs) ->
  let cs' := foldl (fun cs g => cs ++ [mk (length cs) g]) cs gs in
  cs' = cs ++ imap (fun i g => mk (length cs + i)%nat g) gs
  /\ ck_index <$> cs' = seq 0 (length cs').
Proof.
  intros Hmk. revert cs. induction gs as [|g gs IH]; intros cs Hcs; cbn [foldl]; [by rewrite app_nil_r|].
  specialize (IH (cs ++ [mk (length cs) g])). destruct IH as [IH1 IH2].
  { rewrite fmap_app, Hcs, length_app, seq_app. simpl. by rewrite Hmk. }
  split; [|done]. rewrite IH1, <- app_assoc. simpl. do 2 f_equal; [f_equal; lia|].
  apply imap_ext. intros i x _. simpl. rewrite length_app. simpl. f_equal. lia.
Qed.

Lemma fmap_imap_const {A B} (f : nat -> A -> SnapshotChunk) (h : SnapshotChunk -> B) (k : A -> B) l :
  (forall i x, h (f i x) = k x) -> h <$> imap f l = k <$> l.
Proof.
  intros H. revert f H. induction l as [|x l IH]; intros f H; simpl; [done|].
  rewrite H. f_equal. apply IH. intros. apply H.
Qed.

Lemma Forall_imap_lookup {A} (P : SnapshotChunk -> Prop) (f : nat -> A -> SnapshotChunk) l :
  (forall i x, l !! i = Some x -> P (f i x)) -> Forall P (imap f l).
Proof.
  intros H. apply Forall_lookup. intros i c Hc. rewrite list_lookup_imap in Hc.
  destruct (l !! i) as [x|] eqn:E; [|done]. injection Hc as <-. by apply H.
Qed.

Lemma filter_split {A} (f : A -> bool) (l : list A) :
  (length (filter (fun x => f x = true) l) + length (filter (fun x => f x = false) l))%nat = length l.
Proof.
  induction l as [|x l IH]; [done|]. rewrite !filter_cons.
  destruct (f x); repeat case_decide; try done; simpl; lia.
Qed.

Lemma concat_nils {A B} (l : list A) : concat ((fun _ => @nil B) <$> l) = [].
Proof. by induction l. Qed.

(** A world of three: 7 under 5 under 3, listed children first. *)
Definition chain_world : mini :=
  MkMini [(7, MkEntity [] 5 []); (5, MkEntity [] 3 []); (3, MkEntity [] NO_ENTITY [])] [] [] [].

(** ** Properties *)

(** Parents before children. The snapshot order holds every live entity exactly
    once, whatever the hierarchy; and when no entity is its own ancestor, every
    entity whose parent is live comes after that parent. *)
Theorem ancestorsFirst_parents_first {W} `{WW : World W} (w : W) (rank : EntityId -> nat)
    (Hlive : NoDup (liveIds w))
    (Hacyclic : forall x, x ∈ liveIds w -> parent_of w x ∈ liveIds w ->
       parent_of w x <> NO_ENTITY -> (rank (parent_of w x) < rank x)%nat) :
  ancestorsFirst w ≡ₚ liveIds w
  /\ forall l1 x l2, ancestorsFirst w = l1 ++ x :: l2 ->
       parent_of w x ∈ liveIds w -> parent_of w x <> NO_ENTITY -> parent_of w x ∈ l1.
Proof.
  split; [by apply ancestorsFirst_perm|]. intros l1 x l2 Heq Hp Hne.
  destruct (ancestorsFirst_visit w Hlive) as (out & Hi & Hout).
  assert (Hall : forall y, y ∈ liveIds w -> y ∈ out).
  { apply (visit_all w out rank Hi). intros y Hy Hr. unfold is_root in Hr.
    apply orb_false_iff in Hr as [H1 H2]. apply negb_false_iff, shas_spec in H2. apply Z.eqb_neq in H1.
    by apply Hacyclic. }
  rewrite Hout, filter_false, app_nil_r in Heq.
  - destruct (vi_order _ _ _ _ Hi _ _ _ Heq) as [Hr|?]; [|done]. exfalso. unfold is_root in Hr.
    apply orb_true_iff in Hr as [Hr|Hr]; [by apply Z.eqb_eq in Hr|].
    by apply negb_true_iff, shas_false in Hr.
  - intros y Hy. rewrite shas_false. intros Hn. by apply Hn, Hall.
Qed.

Lemma ancestorsFirst_parents_first_witness :
  ancestorsFirst chain_world = [3; 5; 7] /\ ancestorsFirst chain_world ≡ₚ liveIds chain_world.
Proof.
  split; [vm_compute; reflexivity|].
  apply (ancestorsFirst_parents_first chain_world (fun id => Z.to_nat id)).
  - apply (bool_decide_unpack _). vm_compute. exact I.
  - intros x Hx _ _. vm_compute in Hx.
    apply elem_of_cons in Hx as [->|[->|[->|[]%elem_of_nil]%elem_of_cons]%elem_of_cons]; vm_compute; lia.
Defined.

Lemma split_spec {Frame Outgoing Message Err} `{C : Codec Frame Outgoing Message Err}
    (em : EntitySnapshot -> Outgoing) (sm : StateDiff -> Outgoing) (s : WorldSnapshot) (budget : Z) :
  let '(head, chunks, lost) := splitSnapshot em sm s budget in
  concat (ck_entities <$> chunks) = filter (fun x => fits em budget x = true) (entities s)
  /\ concat (ck_state <$> chunks) = filter (fun x => fits sm budget x = true) (ws_state s)
  /\ lost = Z.of_nat (length (entities s) - length (concat (ck_entities <$> chunks))
                      + (length (ws_state s) - length (concat (ck_state <$> chunks))))
  /\ Forall (fun c => (ck_state c = [] /\ ck_entities c <> [] /\ total em (ck_entities c) <= budget)
                   \/ (ck_entities c = [] /\ ck_state c <> [] /\ total sm (ck_state c) <= budget)) chunks
  /\ ck_index <$> chunks = seq 0 (length chunks)
  /\ (exists n, Forall (fun c => ck_state c = []) (take n chunks)
             /\ Forall (fun c => ck_entities c = []) (drop n chunks))
  /\ head = MkWorld (ws_tick s) [] (ws_players s) [].
Proof.
  unfold splitSnapshot.
  pose proof (pack_spec em budget (entities s)) as He. destruct (pack em (entities s) budget) as [eg ed].
  destruct He as (He1 & He2 & He3).
  pose proof (pack_spec sm budget (ws_state s)) as Hs. destruct (pack sm (ws_state s) budget) as [sg sd].
  destruct Hs as (Hs1 & Hs2 & Hs3).
  destruct (number_chunks (fun i g => MkChunk i g []) eg [] ltac:(done) eq_refl) as [Hc1 Hn1].
  destruct (number_chunks (fun i g => MkChunk i [] g) sg _ ltac:(done) Hn1) as [Hc2 Hn2].
  cbv zeta in *. set (c1 := foldl _ [] eg) in *. set (c2 := foldl _ c1 sg) in *. simpl in Hc1.
  assert (Hce : ck_entities <$> c2 = eg ++ ((fun _ => []) <$> sg)).
  { rewrite Hc2, fmap_app, Hc1, (fmap_imap_const _ _ id), (fmap_imap_const _ _ (fun _ => [])), list_fmap_id by done.
    done. }
  assert (Hcs : ck_state <$> c2 = ((fun _ => []) <$> eg) ++ sg).
  { rewrite Hc2, fmap_app, Hc1, (fmap_imap_const _ _ (fun _ => [])), (fmap_imap_const _ _ id), list_fmap_id by done.
    done. }
  rewrite Hce, Hcs, !concat_app, !concat_nils, app_nil_r. simpl.
  split_and!; [done|done| | |done| |done].
  - rewrite He1, Hs1. pose proof (filter_split (fun x => fits em budget x) (entities s)).
    pose proof (filter_split (fun x => fits sm budget x) (ws_state s)). lia.
  - rewrite Hc2, Hc1. apply Forall_app. split; apply Forall_imap_lookup; intros i g Hg; simpl.
    + left. split; [done|]. rewrite Forall_forall in He2. apply He2. by eapply list_elem_of_lookup_2.
    + right. split; [done|]. rewrite Forall_forall in Hs2. apply Hs2. by eapply list_elem_of_lookup_2.
  - exists (length c1). rewrite Hc2, take_app_length, drop_app_length. rewrite Hc1.
    split; apply Forall_imap_lookup; done.
Qed.

(** Packing a snapshot loses only what no frame could carry. Each group is
    non-empty and measures within the budget, an element and its separator counted;
    the groups in order hold exactly the elements that fit a frame alone, in their
    order; the rest are counted as dropped. The chunks number from zero, entities
    all before state, and the head keeps the tick and the roster. *)
Theorem split_keeps_all_that_fits {Frame Outgoing Message Err} `{C : Codec Frame Outgoing Message Err}
    (em : EntitySnapshot -> Outgoing) (sm : StateDiff -> Outgoing) (s : WorldSnapshot) (budget : Z) :
  let '(head, chunks, lost) := splitSnapshot em sm s budget in
  concat (ck_entities <$> chunks) = filter (fun x => fits em budget x = true) (entities s)
  /\ concat (ck_state <$> chunks) = filter (fun x => fits sm budget x = true) (ws_state s)
  /\ lost = Z.of_nat (length (entities s) - length (concat (ck_entities <$> chunks))
                      + (length (ws_state s) - length (concat (ck_state <$> chunks))))
  /\ Forall (fun c => (ck_state c = [] /\ ck_entities c <> [] /\ total em (ck_entities c) <= budget)
                   \/ (ck_entities c = [] /\ ck_state c <> [] /\ total sm (ck_state c) <= budget)) chunks
  /\ ck_index <$> chunks = seq 0 (length chunks)
  /\ (exists n, Forall (fun c => ck_state c = []) (take n chunks)
             /\ Forall (fun c => ck_entities c = []) (drop n chunks))
  /\ head = MkWorld (ws_tick s) [] (ws_players s) [].
Proof. apply split_spec. Qed.
