(* ===== verification/SimServer.v ===== *)
(** * The authority ([packages/sim/src/sim.ts], the input pass of
    [packages/sim/src/input.ts], [session.ts], [manifest.ts], [persisted.ts])

    One input batch in, one output batch out. A session is an object the registry,
    the input buffer and the handlers share, so it lives in a store and is named by
    a reference; the registry maps connection ids to references in open order. What
    the world does is the class [SimWorld]; the sim's own state is [Sim]. Log lines
    are not modelled. *)

From S2P Require Import Prelude JsMap JsNum Json Channels Codec ActionStates Admission Envelope Replicate Snapshot.

Local Open Scope Z_scope.

(** ** The visuals a world declares ([ManifestStore]) *)

Module Manifest.
Section manifest.
Context {Asset Visual : Type}.

Record RenderManifest := MkRender { m_assets : list (jstr * Asset); m_templates : list (jstr * Visual) }.

Record ManifestStore := MkStore {
  assets : jsmap jstr Asset;
  templates : jsmap jstr Visual;
  pending : option RenderManifest;
}.

Definition add_all {V} (m : jsmap jstr V) (l : list (jstr * V)) : jsmap jstr V :=
  foldl (fun m p => mset m p.1 p.2) m l.

Definition new_store (initial : RenderManifest) : ManifestStore :=
  MkStore (add_all [] (m_assets initial)) (add_all [] (m_templates initial)) None.

Definition snapshot (s : ManifestStore) : RenderManifest := MkRender (assets s) (templates s).

Definition hasTemplate (s : ManifestStore) (name : jstr) : bool := mhas (templates s) name.

Definition declare (s : ManifestStore) (m : RenderManifest) : ManifestStore :=
  let na := filter (fun p => mhas (assets s) p.1 = false) (m_assets m) in
  let nt := filter (fun p => mhas (templates s) p.1 = false) (m_templates m) in
  match na, nt with
  | [], [] => s
  | _, _ =>
    let p := nullish (pending s) (MkRender [] []) in
    MkStore (add_all (assets s) na) (add_all (templates s) nt)
      (Some (MkRender (m_assets p ++ na) (m_templates p ++ nt)))
  end.

Definition drain (s : ManifestStore) : option RenderManifest * ManifestStore :=
  (pending s, MkStore (assets s) (templates s) None).
End manifest.
Arguments RenderManifest : clear implicits.
Arguments ManifestStore : clear implicits.
End Manifest.

(** ** Display names *)

(** The Unicode tables a name is sanitized with. *)
Class Unicode := {
  normalizeNFC : jstr -> jstr;
  is_control_or_format : jstr -> bool; (** a code point of category Cc or Cf *)
  is_white : Z -> bool;
}.

Fixpoint trim_start (white : Z -> bool) (s : jstr) : jstr :=
  match s with [] => [] | c :: s' => if white c then trim_start white s' else s end.

Definition trim `{Unicode} (s : jstr) : jstr :=
  reverse (trim_start is_white (reverse (trim_start is_white s))).

Definition sanitizeName `{Unicode} (name : jstr) : jstr :=
  let stripped :=
    trim (concat (filter (fun p => is_control_or_format p = false) (codePoints (normalizeNFC name)))) in
  let capped := trim (concat (take MAX_NAME_LENGTH (codePoints stripped))) in
  match capped with [] => js "player" | _ => capped end.

(** ** Sessions *)

Record Session := MkSession {
  connectionId : jstr;
  identity : option jstr;
  admission : AdmissionState;
  s_actions : ActionStates;
  interactions : list Interaction;
  s_requests : list GameRequest;
  player : option Player;
  pendingJoin : option JoinRequest;
  awaitingRecord : option JoinRequest;
  admitting : bool;
  pendingTimeSync : option TimeSync;
  openedAtTick : Z;
  closed : bool;
  structuralSkip : nat;
}.

Definition new_session (cid : jstr) (identity : option jstr) (openedAtTick : Z) : Session :=
  MkSession cid identity new_admission createActionStates [] [] None None None false None openedAtTick false 0.

Definition joined (s : Session) : bool := match player s with Some _ => true | None => false end.
Definition livePlayer (s : Session) : option Player := if closed s then None else player s.
Definition playerId (s : Session) : jstr := nullish (identity s) (connectionId s).
Definition wantsBroadcast (s : Session) : bool :=
  match livePlayer s, pendingJoin s with Some _, None => true | _, _ => false end.

(** Field updates. *)
Definition with_admission (s : Session) a :=
  MkSession (connectionId s) (identity s) a (s_actions s) (interactions s) (s_requests s) (player s)
    (pendingJoin s) (awaitingRecord s) (admitting s) (pendingTimeSync s) (openedAtTick s) (closed s) (structuralSkip s).
Definition with_actions (s : Session) a :=
  MkSession (connectionId s) (identity s) (admission s) a (interactions s) (s_requests s) (player s)
    (pendingJoin s) (awaitingRecord s) (admitting s) (pendingTimeSync s) (openedAtTick s) (closed s) (structuralSkip s).
Definition with_queues (s : Session) i r :=
  MkSession (connectionId s) (identity s) (admission s) (s_actions s) i r (player s)
    (pendingJoin s) (awaitingRecord s) (admitting s) (pendingTimeSync s) (openedAtTick s) (closed s) (structuralSkip s).
Definition with_player (s : Session) p :=
  MkSession (connectionId s) (identity s) (admission s) (s_actions s) (interactions s) (s_requests s) p
    (pendingJoin s) (awaitingRecord s) (admitting s) (pendingTimeSync s) (openedAtTick s) (closed s) (structuralSkip s).
Definition with_join (s : Session) pj aw ad :=
  MkSession (connectionId s) (identity s) (admission s) (s_actions s) (interactions s) (s_requests s) (player s)
    pj aw ad (pendingTimeSync s) (openedAtTick s) (closed s) (structuralSkip s).
Definition with_sync (s : Session) t :=
  MkSession (connectionId s) (identity s) (admission s) (s_actions s) (interactions s) (s_requests s) (player s)
    (pendingJoin s) (awaitingRecord s) (admitting s) t (openedAtTick s) (closed s) (structuralSkip s).
Definition with_closed (s : Session) :=
  MkSession (connectionId s) (identity s) (admission s) (s_actions s) (interactions s) (s_requests s) (player s)
    (pendingJoin s) (awaitingRecord s) (admitting s) (pendingTimeSync s) (openedAtTick s) true (structuralSkip s).
Definition with_skip (s : Session) n :=
  MkSession (connectionId s) (identity s) (admission s) (s_actions s) (interactions s) (s_requests s) (player s)
    (pendingJoin s) (awaitingRecord s) (admitting s) (pendingTimeSync s) (openedAtTick s) (closed s) n.

(** ** The world the sim drives *)

Class SimWorld (W : Type) `{World W} := {
  rt_tick : W -> Z;
  rt_simRate : W -> num;
  rt_setSimRate : W -> num -> W;
  (** [Loop.step] up to its input pass, and after it. *)
  step_before : W -> Z -> W;
  step_after : W -> W;
  joinPlayer : W -> jstr -> jstr -> W * Player;
  leavePlayer : W -> jstr -> W;
  destroy : W -> EntityId -> W;
  inputHostKeys : W -> Player -> list jstr;
  dispatchEdge : W -> Player -> list jstr -> jstr -> EventPhase -> option num -> W;
  fillIntent : W -> Player -> num -> num -> W;
  deliverRequest : W -> GameRequest -> Player -> W;
  pressWidget : W -> jstr -> option jstr -> Player -> W;
  pointerHit : W -> PointerKind -> Z -> Player -> W;
  (** Whether the snapshot walk or the encode of a join throws. *)
  welcomeThrows : W -> Player -> bool;
}.

(** ** Batches *)

Inductive RejectReason := RVersion | RFull | RIdentity.

Inductive CloseReason :=
  | not_booted | sim_closed | unjoined_cap | identity_pending | rate_breach | join_deadline
  | send_failed | rejected (r : RejectReason).

Record ProjectIdentity := MkProject {
  projectId : jstr; projectHash : jstr; bundleHash : jstr; bundleUrl : jstr;
}.

Record WireBounds := MkBounds { left : num; right : num; top : num; bottom : num }.
Record WireRegion := MkRegion { rg_name : jstr; rg_bounds : WireBounds }.

Record InputBatch := MkBatch {
  nowMs : num;
  drain : bool;
  opened : list (jstr * option jstr);
  frames : list (jstr * json);
  b_closed : list jstr;
  b_records : list (jstr * option (jsmap jstr json));
  saved : list jstr;
}.

Definition idleBatch (now : num) (drain : bool) : InputBatch := MkBatch now drain [] [] [] [] [].

Section sim.
Context {Asset Visual : Type}.
Abbreviation RenderManifest := (Manifest.RenderManifest Asset Visual).

Record Welcome := MkWelcome {
  w_protocolVersion : Z;
  yourPlayerId : jstr;
  yourPlayerIndex : Z;
  project : ProjectIdentity;
  w_simRate : num;
  w_sendRate : num;
  w_bounds : WireBounds;
  w_regions : list WireRegion;
  w_clientSentMs : num;
  serverSentMs : num;
  snapshot : WorldSnapshot;
  snapshotChunks : option nat;
  visuals : RenderManifest;
}.

Inductive ServerToClient :=
  | EWelcome (w : Welcome)
  | EChunk (c : SnapshotChunk)
  | EState (s : StateEnvelope)
  | ETransform (t : Z) (moved : list (NetId * WireTransform))
  | EManifest (m : RenderManifest)
  | ERateChange (simRate : num)
  | ETimeSyncReply (clientSentMs serverSentMs : num)
  | EReject (r : RejectReason) (serverProtocolVersion : Z).

Inductive delivery := reliable | droppable.

Record Send := MkSendOrder { to : list jstr; envelope : ServerToClient; class : delivery }.

Record SimConfig := MkConfig {
  sendRate : num;
  maxPlayers : Z;
  c_project : ProjectIdentity;
  c_bounds : WireBounds;
  c_regions : list WireRegion;
}.

(** The registry: connections in open order, and the session objects behind them. *)
Record Registry := MkRegistry {
  sessions : jsmap jstr SessionRef;
  store : SessionRef -> Session;
  next_ref : SessionRef;
}.

(** This tick's output, emptied by every tick. *)
Record Output := MkOutput {
  sends : list Send;
  closes : list (jstr * CloseReason);
  loads : list (jstr * jstr);
  saves : list (jstr * jsmap jstr json);
}.

Definition no_output : Output := MkOutput [] [] [] [].

Context {W : Type}.

Record Sim := MkSim {
  world : W;
  config : SimConfig;
  registry : Registry;
  buffer : InputBuffer;
  roster : RosterOps;
  spill : list WireOp;
  records : jsmap jstr (jsmap jstr json);
  visual_store : Manifest.ManifestStore Asset Visual;
  out : Output;
  dropped_marks : Z;
  stale_marks : Z;
  s_closed : bool;
  booted : bool;
}.

Definition set_world (m : Sim) w :=
  MkSim w (config m) (registry m) (buffer m) (roster m) (spill m) (records m) (visual_store m) (out m)
    (dropped_marks m) (stale_marks m) (s_closed m) (booted m).
Definition set_registry (m : Sim) r :=
  MkSim (world m) (config m) r (buffer m) (roster m) (spill m) (records m) (visual_store m) (out m)
    (dropped_marks m) (stale_marks m) (s_closed m) (booted m).
Definition set_buffer (m : Sim) b :=
  MkSim (world m) (config m) (registry m) b (roster m) (spill m) (records m) (visual_store m) (out m)
    (dropped_marks m) (stale_marks m) (s_closed m) (booted m).
Definition set_roster (m : Sim) r :=
  MkSim (world m) (config m) (registry m) (buffer m) r (spill m) (records m) (visual_store m) (out m)
    (dropped_marks m) (stale_marks m) (s_closed m) (booted m).
Definition set_spill (m : Sim) x :=
  MkSim (world m) (config m) (registry m) (buffer m) (roster m) x (records m) (visual_store m) (out m)
    (dropped_marks m) (stale_marks m) (s_closed m) (booted m).
Definition set_records (m : Sim) x :=
  MkSim (world m) (config m) (registry m) (buffer m) (roster m) (spill m) x (visual_store m) (out m)
    (dropped_marks m) (stale_marks m) (s_closed m) (booted m).
Definition set_visuals (m : Sim) x :=
  MkSim (world m) (config m) (registry m) (buffer m) (roster m) (spill m) (records m) x (out m)
    (dropped_marks m) (stale_marks m) (s_closed m) (booted m).
Definition set_out (m : Sim) o :=
  MkSim (world m) (config m) (registry m) (buffer m) (roster m) (spill m) (records m) (visual_store m) o
    (dropped_marks m) (stale_marks m) (s_closed m) (booted m).
Definition set_counts (m : Sim) d st :=
  MkSim (world m) (config m) (registry m) (buffer m) (roster m) (spill m) (records m) (visual_store m) (out m)
    d st (s_closed m) (booted m).
Definition set_closed (m : Sim) :=
  MkSim (world m) (config m) (registry m) (buffer m) (roster m) (spill m) (records m) (visual_store m) (out m)
    (dropped_marks m) (stale_marks m) true (booted m).

(** [session.field = ...] through a reference. *)
Definition write (m : Sim) (r : SessionRef) (s : Session) : Sim :=
  let g := registry m in
  set_registry m (MkRegistry (sessions g) (<[r := s]> (store g)) (next_ref g)).
Definition read (m : Sim) (r : SessionRef) : Session := store (registry m) r.
Definition lookup (m : Sim) (cid : jstr) : option SessionRef := mget (sessions (registry m)) cid.
(** The sessions in open order, as an iteration of the registry meets them. *)
Definition live_refs (m : Sim) : list SessionRef := mvals (sessions (registry m)).

(** [#send]: nothing is queued for nobody. *)
Definition send (m : Sim) (to : list jstr) (e : ServerToClient) (cls : delivery) : Sim :=
  match to with
  | [] => m
  | _ => let o := out m in set_out m (MkOutput (sends o ++ [MkSendOrder to e cls]) (closes o) (loads o) (saves o))
  end.
Definition push_close (m : Sim) (cid : jstr) (reason : CloseReason) : Sim :=
  let o := out m in set_out m (MkOutput (sends o) (closes o ++ [(cid, reason)]) (loads o) (saves o)).
Definition push_load (m : Sim) (cid key : jstr) : Sim :=
  let o := out m in set_out m (MkOutput (sends o) (closes o) (loads o ++ [(cid, key)]) (saves o)).
Definition push_save (m : Sim) (key : jstr) (f : jsmap jstr json) : Sim :=
  let o := out m in set_out m (MkOutput (sends o) (closes o) (loads o) (saves o ++ [(key, f)])).

Context `{WW : World W} `{SW : !SimWorld W} `{UU : Unicode}.

(** ** Opening and closing *)

(** [#openRefusal]'s walk: unjoined sessions, and whether one claims the identity. *)
Definition count_unjoined (m : Sim) (identity_ : option jstr) : Z * bool :=
  foldl (fun acc r =>
      let s := read m r in
      if joined s then acc
      else (acc.1 + 1, acc.2 || bool_decide (identity s = identity_)))
    (0, false) (live_refs m).

Definition MAX_UNJOINED_CONNECTIONS : Z := 32.

Definition openRefusal (m : Sim) (identity_ : option jstr) : option CloseReason :=
  if negb (booted m) then Some not_booted
  else if s_closed m then Some sim_closed
  else
    let '(unjoined, claimed) := count_unjoined m identity_ in
    if MAX_UNJOINED_CONNECTIONS <=? unjoined then Some unjoined_cap
    else match identity_ with Some _ => if claimed then Some identity_pending else None | None => None end.

Definition open (m : Sim) (cid : jstr) (identity_ : option jstr) : Sim :=
  match openRefusal m identity_ with
  | Some reason => push_close m cid reason
  | None =>
    let g := registry m in
    set_registry m (MkRegistry (mset (sessions g) cid (next_ref g))
      (<[next_ref g := new_session cid identity_ (rt_tick (world m))]> (store g)) (S (next_ref g)))
  end.

(** [SessionRecords.capture]: the fields of a record that encode. *)
Definition captured (w : W) (r : RecordRef) : jsmap jstr json :=
  foldl (fun acc f => match encodeHostField w r f with Some v => mset acc f v | None => acc end)
    [] (recordKeys w r).

(** The owner scan of [#release]. *)
Definition destroy_owned (w : W) (pid : jstr) : W :=
  foldl (fun w id =>
      match record w id with
      | Some r => if bool_decide (ownerId r = pid) then destroy w id else w
      | None => w
      end) w (liveIds w).

Definition release (m : Sim) (r : SessionRef) : Sim :=
  let s := read m r in
  if closed s then m
  else
    let m := write m r (with_closed s) in
    let g := registry m in
    let m := set_registry m (MkRegistry (mdel (sessions g) (connectionId s)) (store g) (next_ref g)) in
    let m := set_buffer m (dropSession (buffer m) r) in
    match player s with
    | None => m
    | Some p =>
      let m := write m r (with_player (read m r) None) in
      let m := set_world m (destroy_owned (world m) (p_id p)) in
      let rec := hostRecord (world m) (playerKey (p_id p)) in
      let m := set_world m (leavePlayer (world m) (p_id p)) in
      let m :=
        match rec, identity s with
        | Some rr, Some _ =>
          let key := playerKey (p_id p) in
          if mhas (records m) key then
            let fields := captured (world m) rr in
            push_save (set_records m (mset (records m) key fields)) key fields
          else m
        | _, _ => m
        end in
      set_roster m (MkRoster (joins (roster m)) (leaves (roster m) ++ [p_id p]))
    end.

Definition drop (m : Sim) (cid : jstr) : Sim :=
  match lookup m cid with Some r => release m r | None => m end.

Definition closeFor (m : Sim) (r : SessionRef) (reason : CloseReason) : Sim :=
  release (push_close m (connectionId (read m r)) reason) r.

Definition reject (m : Sim) (r : SessionRef) (reason : RejectReason) : Sim :=
  let cid := connectionId (read m r) in
  let m := send m [cid] (EReject reason PROTOCOL_VERSION) reliable in
  release (push_close m cid (rejected reason)) r.

(** ** Joining *)

Definition identityMatches (m : Sim) (q : JoinRequest) : bool :=
  let p := c_project (config m) in
  bool_decide (jr_projectId q = projectId p)
  && bool_decide (jr_projectHash q = projectHash p)
  && (bool_decide (jr_bundleHash q = []) || bool_decide (jr_bundleHash q = bundleHash p)).

Definition has_player (w : W) (id : jstr) : bool := existsb (fun p => bool_decide (p_id p = id)) (players w).

(** [#admitFrame]. *)
Definition admit_player (m : Sim) (r : SessionRef) (q : JoinRequest) : Sim :=
  let s := read m r in
  if closed s || s_closed m || joined s then m
  else if maxPlayers (config m) <=? arr_len (players (world m)) then reject m r RFull
  else if has_player (world m) (playerId s) then reject m r RFull
  else
    let '(w, p) := joinPlayer (world m) (playerId s) (sanitizeName (jr_name q)) in
    let m := set_world m w in
    let s := with_player s (Some p) in
    let s := with_admission s (noteTraffic (admission s) (rt_tick w)) in
    let s := with_join s (Some q) (awaitingRecord s) (admitting s) in
    let m := write m r s in
    set_roster m (MkRoster (joins (roster m) ++ [readPlayerSnapshot p]) (leaves (roster m))).

Definition join (m : Sim) (r : SessionRef) (q : JoinRequest) : Sim :=
  let s := read m r in
  if negb (feq (protocolVersion q) (of_Z PROTOCOL_VERSION)) then reject m r RVersion
  else if negb (identityMatches m q) then reject m r RIdentity
  else if joined s then write m r (with_join s (Some q) (awaitingRecord s) (admitting s))
  else if admitting s then m
  else
    match identity s with
    | Some _ =>
      if mhas (records m) (playerKey (playerId s)) then admit_player m r q
      else
        push_load (write m r (with_join s (pendingJoin s) (Some q) true))
          (connectionId s) (playerKey (playerId s))
    | None => admit_player m r q
    end.

(** [#seed]: the host's answer to a load. *)
Definition seed (m : Sim) (cid : jstr) (fields : option (jsmap jstr json)) : Sim :=
  match lookup m cid with
  | None => m
  | Some r =>
    let s := read m r in
    let m := match fields with
             | Some f => set_records m (mset (records m) (playerKey (playerId s)) f)
             | None => m
             end in
    let m := write m r (with_join s (pendingJoin s) None false) in
    match awaitingRecord s with Some q => admit_player m r q | None => m end
  end.

(** ** Receiving *)

Definition input (m : Sim) (r : SessionRef) (f : InputFrame) : Sim :=
  let s := read m r in
  if negb (joined s) then m
  else
    let '(res, a, b) := admitFrame (admission s) (buffer m) r f (rt_tick (world m)) (rt_simRate (world m)) in
    let m := set_buffer (write m r (with_admission s a)) b in
    match res with
    | refused rate => if overRateBreachLimit a then closeFor m r rate_breach else m
    | _ => m
    end.

Definition takeInputToken (m : Sim) (r : SessionRef) : bool * Sim :=
  let s := read m r in
  let '(ok, a) := takeToken (admission s) in
  let m := write m r (with_admission s a) in
  if ok then (true, m)
  else (false, if overRateBreachLimit a then closeFor m r rate_breach else m).

Definition interaction (m : Sim) (r : SessionRef) (f : InteractionFrame) : Sim :=
  if negb (joined (read m r)) then m
  else
    let '(ok, m) := takeInputToken m r in
    if ok then write m r (with_queues (read m r) (interactions (read m r) ++ events f) (s_requests (read m r)))
    else m.

Definition request (m : Sim) (r : SessionRef) (f : RequestFrame) : Sim :=
  if negb (joined (read m r)) then m
  else
    let '(ok, m) := takeInputToken m r in
    if ok then write m r (with_queues (read m r) (interactions (read m r)) (s_requests (read m r) ++ requests f))
    else m.

Definition on_input_bucket (e : ClientToServer) : bool :=
  match e with CInput _ | CInteraction _ | CRequest _ => true | _ => false end.

Definition receive (m : Sim) (cid : jstr) (message : json) : Sim :=
  match lookup m cid with
  | None => m
  | Some r =>
    if closed (read m r) then m
    else
      match asClientEnvelope message with
      | None => m
      | Some e =>
        let s := read m r in
        let '(ok, a) := if on_input_bucket e then (true, admission s) else takeControlToken (admission s) in
        if negb ok then m
        else
          let a := if joined s then noteTraffic a (rt_tick (world m)) else a in
          let m := write m r (with_admission s a) in
          match e with
          | CJoin q => join m r q
          | CInput f => input m r f
          | CInteraction f => interaction m r f
          | CRequest f => request m r f
          | CTimeSync t => write m r (with_sync (read m r) (Some t))
          end
      end
  end.

(** ** The input pass *)

Definition advance_session (m : Sim) (r : SessionRef) : Sim :=
  let s := read m r in
  if joined s then write m r (with_actions s (advanceTick (s_actions s))) else m.

(** [applyBuffered] for one drained frame of a live session. *)
Definition applyBuffered (m : Sim) (e : BufferedInput) : Sim :=
  let r := session e in
  let s := read m r in
  match livePlayer s with
  | None => m
  | Some p =>
    let '(w, acts, adm) :=
      foldInputEdges inputHostKeys dispatchEdge (fun a name => admitsAction a name)
        (world m) p (s_actions s) (admission s) (actions (bframe e)) in
    let s := with_admission (with_actions s acts) (resolve adm (seq (bframe e))) in
    set_world (write m r s) w
  end.

(** Held buttons released and axes neutralized after a stale silence. *)
Definition release_stale (w : W) (p : Player) (acts : ActionStates) : W * ActionStates :=
  let hosts := inputHostKeys w p in
  let '(w, acts) := foldl (fun '(w, acts) a =>
      (dispatchEdge w p hosts a ActionStates.release None,
       applyEdge acts (MkEdge a ActionStates.release None)))
    (w, acts) (heldActions acts) in
  (w, foldl (fun acts '(a, _) => applyEdge acts (MkEdge a hold (Some f0))) acts (axisValues acts)).

Definition run_interaction (p : Player) (w : W) (i : Interaction) : W :=
  match i with
  | IPress widget screen => pressWidget w widget screen p
  | IPointer k id => pointerHit w k id p
  end.

Definition session_pass (t stale : Z) (m : Sim) (r : SessionRef) : Sim :=
  let s := read m r in
  match livePlayer s with
  | None => m
  | Some p =>
    let '(w, acts) :=
      if stale <=? t - lastInputTick (admission s) then release_stale (world m) p (s_actions s)
      else (world m, s_actions s) in
    let w := synthesizeHolds inputHostKeys dispatchEdge fillIntent w p acts in
    let w := foldl (run_interaction p) w (interactions s) in
    let w := foldl (fun w q => deliverRequest w q p) w (s_requests s) in
    set_world (write m r (with_queues (with_actions s acts) [] [])) w
  end.

Definition runInputPass (m : Sim) : Sim :=
  let t := rt_tick (world m) in
  let stale := holdStaleTicks (rt_simRate (world m)) in
  let m := foldl advance_session m (live_refs m) in
  let '(due, b) := drainThrough (buffer m) t in
  let m := foldl applyBuffered (set_buffer m b) due in
  foldl (session_pass t stale) m (live_refs m).

(** ** One tick *)

Definition on_admission (f : AdmissionState -> AdmissionState) (m : Sim) (r : SessionRef) : Sim :=
  let s := read m r in write m r (with_admission s (f (admission s))).

Definition stepOnce (m : Sim) : Sim :=
  let simRate := rt_simRate (world m) in
  let m := foldl (on_admission (fun a => refill a simRate)) m (live_refs m) in
  let m := set_world m (step_before (world m) (rt_tick (world m) + 1)) in
  let m := runInputPass m in
  let m := set_world m (step_after (world m)) in
  let grace := pastGraceTicks simRate in
  foldl (on_admission (fun a => abandonStale a (rt_tick (world m)) grace)) m (live_refs m).

Definition expired (m : Sim) (deadline : Z) (r : SessionRef) : bool :=
  let s := read m r in
  negb (joined s || closed s) && (deadline <=? rt_tick (world m) - openedAtTick s).

Definition sweepJoinDeadline (m : Sim) : Sim :=
  let deadline := joinDeadlineTicks (rt_simRate (world m)) in
  foldl (fun m r => closeFor m r join_deadline) m
    (filter (fun r => expired m deadline r = true) (live_refs m)).

(** ** A send-tick *)

Context {Frame Outgoing Message Err : Type} `{C : Codec Frame Outgoing Message Err}.
Context (welcome_message : Welcome -> Outgoing) (entity_message : EntitySnapshot -> Outgoing)
        (state_message : StateDiff -> Outgoing).

Definition MAX_FRAME_PAYLOAD_BYTES : Z := MAX_FRAME_BYTES * 3 / 4.

Definition within (size : option Z) (cap : Z) : bool :=
  match size with Some n => n <=? cap | None => false end.

Definition welcome (m : Sim) (r : SessionRef) (p : Player) (q : JoinRequest) (now : num) : Sim :=
  let cid := connectionId (read m r) in
  let w := MkWelcome PROTOCOL_VERSION (p_id p) (p_index p) (c_project (config m)) (rt_simRate (world m))
    (sendRate (config m)) (c_bounds (config m)) (c_regions (config m))
    (clientSentMs q) now (buildSnapshot (world m) (rt_tick (world m)) p) None
    (Manifest.snapshot (visual_store m)) in
  if within (encodedSize welcome_message w) MAX_FRAME_PAYLOAD_BYTES
  then send m [cid] (EWelcome w) reliable
  else
    let '(head, chunks, lost) :=
      splitSnapshot entity_message state_message (snapshot w) MAX_FRAME_PAYLOAD_BYTES in
    let m := set_counts m (dropped_marks m + lost) (stale_marks m) in
    let m := foldl (fun m c => send m [cid] (EChunk c) reliable) m chunks in
    send m [cid]
      (EWelcome (MkWelcome (w_protocolVersion w) (yourPlayerId w) (yourPlayerIndex w) (project w) (w_simRate w) (w_sendRate w)
         (w_bounds w) (w_regions w)
         (w_clientSentMs w) (serverSentMs w) head (Some (length chunks)) (visuals w))) reliable.

(** One session's turn of the fan-out. *)
Definition fan_out (set : SendSet) (now : num) (m : Sim) (r : SessionRef) : Sim :=
  let s := read m r in
  match livePlayer s with
  | None => m
  | Some p =>
    if wantsBroadcast s then
      let '(env, adm, skip) := stateEnvelopeFor (admission s) (structuralSkip s) (p_id p) set in
      let m := write m r (with_skip (with_admission s adm) skip) in
      send m [connectionId s] (EState env) reliable
    else
      match pendingJoin s with
      | None => m
      | Some q =>
        let m := write m r (with_skip s (length (spill m))) in
        if welcomeThrows (world m) p then closeFor m r send_failed
        else
          let m := welcome m r p q now in
          let s := read m r in
          write m r (with_join s None (awaitingRecord s) (admitting s))
      end
  end.

Definition answer_sync (now : num) (m : Sim) (r : SessionRef) : Sim :=
  let s := read m r in
  match pendingTimeSync s with
  | None => m
  | Some t =>
    send (write m r (with_sync s None)) [connectionId s] (ETimeSyncReply (ts_clientSentMs t) now) reliable
  end.

Definition drain_tick (m : Sim) (now : num) : Sim :=
  let '(set, held, w) := drainOnce (world m) (rt_tick (world m)) (roster m) (spill m) MAX_STRUCTURAL_OPS_PER_SEND in
  let m := set_roster (set_spill (set_world m w) held) (MkRoster [] []) in
  let m := set_counts m (dropped_marks m + ss_dropped set) (stale_marks m + staleMarks set) in
  let broadcasting := connectionId ∘ read m <$> filter (fun r => wantsBroadcast (read m r) = true) (live_refs m) in
  let '(additions, vs) := Manifest.drain (visual_store m) in
  let m := set_visuals m vs in
  let m := match additions with
           | Some v => send m broadcasting (EManifest v) reliable
           | None => m
           end in
  let m := foldl (fan_out set now) m (live_refs m) in
  let '(t, moved) := transformEnvelope set in
  let m := send m broadcasting (ETransform t moved) droppable in
  foldl (answer_sync now) m (live_refs m).

Record OutputBatch := MkOutBatch {
  ob_tick : Z;
  ob_simRate : num;
  ob_sendRate : num;
  ob_out : Output;
  ob_dropped : Z;
  ob_stale : Z;
}.

Definition takeOutput (m : Sim) : OutputBatch * Sim :=
  (MkOutBatch (rt_tick (world m)) (rt_simRate (world m)) (sendRate (config m)) (out m)
     (dropped_marks m) (stale_marks m),
   set_out m no_output).

(** Everything a tick does before its output is taken. *)
Definition advance (m : Sim) (b : InputBatch) : Sim :=
  let m := foldl (fun m o => open m o.1 o.2) m (opened b) in
  let m := set_records m (foldl mdel (records m) (saved b)) in
  let m := foldl (fun m o => seed m o.1 o.2) m (b_records b) in
  let m := foldl (fun m f => receive m f.1 f.2) m (frames b) in
  let m := foldl drop m (b_closed b) in
  let m := stepOnce m in
  let m := sweepJoinDeadline m in
  if drain b then drain_tick m (nowMs b) else m.

Definition tick (m : Sim) (b : InputBatch) : OutputBatch * Sim :=
  if s_closed m then takeOutput m else takeOutput (advance m b).

Definition close (m : Sim) : OutputBatch * Sim :=
  if s_closed m then takeOutput m
  else takeOutput (foldl release (set_closed m) (live_refs m)).

Definition setSimRate (m : Sim) (simRate : num) : outcome SimError Sim :=
  _ ← assertRate "simRate" simRate;
  let m := set_world m (rt_setSimRate (world m) simRate) in
  let to := connectionId ∘ read m <$> filter (fun r => joined (read m r) = true) (live_refs m) in
  Ok (send m to (ERateChange simRate) reliable).

Definition declareVisuals (m : Sim) (v : RenderManifest) : Sim :=
  set_visuals m (Manifest.declare (visual_store m) v).

(** ** Histories of the sim *)

Inductive sim_op :=
  | Tick (b : InputBatch)
  | SetRate (r : num)
  | Visuals (v : RenderManifest)
  | Close.

(** Everything sent so far, this tick's queue included, against what was flushed. *)
Definition step_op (st : Sim * list Send) (o : sim_op) : Sim * list Send :=
  let '(m, flushed) := st in
  match o with
  | Tick b => let '(ob, m') := tick m b in (m', flushed ++ sends (ob_out ob))
  | SetRate r => match setSimRate m r with Ok m' => (m', flushed) | Throw _ => (m, flushed) end
  | Visuals v => (declareVisuals m v, flushed)
  | Close => let '(ob, m') := close m in (m', flushed ++ sends (ob_out ob))
  end.

Definition run (m : Sim) (ops : list sim_op) : Sim * list Send := foldl step_op (m, []) ops.

(** A booted sim: no session, nothing held, nothing queued. *)
Definition boot (w : W) (cfg : SimConfig) (v : RenderManifest) : Sim :=
  MkSim w cfg (MkRegistry [] (fun _ => new_session [] None 0) 0) [] (MkRoster [] []) [] []
    (Manifest.new_store v) no_output 0 0 false true.

(** ** No update before the Welcome *)

Definition welcomed (log : list Send) (cid : jstr) : Prop :=
  exists x w, x ∈ log /\ to x = [cid] /\ envelope x = EWelcome w.

(** The envelopes that describe the world to someone who already has it. *)
Definition is_update (e : ServerToClient) : bool :=
  match e with EState _ | ETransform _ _ | EManifest _ => true | _ => false end.

Inductive well_ordered : list Send -> Prop :=
  | wo_nil : well_ordered []
  | wo_snoc log x :
      well_ordered log ->
      (is_update (envelope x) = true -> forall c, c ∈ to x -> welcomed log c) ->
      well_ordered (log ++ [x]).

Lemma welcomed_app log log' c : welcomed log c -> welcomed (log ++ log') c.
Proof. intros (x & w & Hx & ? & ?). exists x, w. split; [apply elem_of_app; by left|done]. Qed.

Section ordered.
(** What was flushed before, and connections already known to be welcomed. *)
Context (flushed : list Send) (known : list jstr).

Definition log (m : Sim) : list Send := flushed ++ sends (out m).

Record told (m : Sim) : Prop := {
  td_order : well_ordered (log m);
  td_known : forall r, wantsBroadcast (read m r) = true -> welcomed (log m) (connectionId (read m r));
  td_kept : forall c, c ∈ known -> welcomed (log m) c;
}.

(** An operation that leaves the sessions and the queue of sends alone. *)
Lemma told_same m m' :
  store (registry m') = store (registry m) -> sends (out m') = sends (out m) -> told m -> told m'.
Proof.
  intros Hs Ho [H1 H2 H3]. unfold read, log in *. split; unfold read, log; by rewrite ?Hs, ?Ho.
Qed.

Lemma told_write m r s :
  told m -> connectionId s = connectionId (read m r) ->
  (wantsBroadcast s = true -> wantsBroadcast (read m r) = true) -> told (write m r s).
Proof.
  intros [H1 H2 H3] Hc Hw. split; [exact H1| |exact H3]. intros r'. change (log (write m r s)) with (log m).
  unfold read, write. simpl. destruct (decide (r = r')) as [<-|Hne].
  - rewrite upd_eq, Hc. intros Hs. by apply H2, Hw.
  - rewrite upd_ne by done. apply H2.
Qed.

(** Once its Welcome is queued, a session may be read as broadcast-ready. *)
Lemma told_greet m r aw ad :
  told m -> welcomed (log m) (connectionId (read m r)) -> told (write m r (with_join (read m r) None aw ad)).
Proof.
  intros [H1 H2 H3] Hw. split; [exact H1| |exact H3]. intros r'. unfold read, write. simpl.
  destruct (decide (r = r')) as [<-|Hne]; [by rewrite upd_eq|]. rewrite upd_ne by done. apply H2.
Qed.

Lemma told_send m cs e cls :
  told m -> (is_update e = true -> forall c, c ∈ cs -> welcomed (log m) c) -> told (send m cs e cls).
Proof.
  intros [H1 H2 H3] He. unfold send. destruct cs as [|c cs]; [done|].
  set (x := MkSendOrder (c :: cs) e cls).
  assert (Hl : log (set_out m (MkOutput (sends (out m) ++ [x]) (closes (out m)) (loads (out m)) (saves (out m))))
    = log m ++ [x]) by (unfold log; simpl; by rewrite app_assoc).
  split.
  - rewrite Hl. by constructor.
  - intros r. rewrite Hl. intros Hr. apply welcomed_app. by apply H2.
  - intros r Hr. rewrite Hl. apply welcomed_app. by apply H3.
Qed.

Lemma welcomed_send m cid w cls : welcomed (log (send m [cid] (EWelcome w) cls)) cid.
Proof.
  exists (MkSendOrder [cid] (EWelcome w) cls), w. split; [|done].
  unfold log, send. simpl. apply elem_of_app. right. apply elem_of_app. right. by apply list_elem_of_singleton.
Qed.

Lemma told_fold {A} (f : Sim -> A -> Sim) (l : list A) m :
  (forall m x, told m -> told (f m x)) -> told m -> told (foldl f m l).
Proof. intros Hf. revert m. induction l as [|x l IH]; intros m Hm; simpl; auto. Qed.

(** Reduces to the sim without its outermost setter, when neither part moved. *)
Lemma told_world m w : told m -> told (set_world m w).
Proof. by apply told_same. Qed.
Lemma told_buffer m b : told m -> told (set_buffer m b).
Proof. by apply told_same. Qed.
Lemma told_roster m r : told m -> told (set_roster m r).
Proof. by apply told_same. Qed.
Lemma told_spill m x : told m -> told (set_spill m x).
Proof. by apply told_same. Qed.
Lemma told_records m x : told m -> told (set_records m x).
Proof. by apply told_same. Qed.
Lemma told_visuals m x : told m -> told (set_visuals m x).
Proof. by apply told_same. Qed.
Lemma told_counts m x y : told m -> told (set_counts m x y).
Proof. by apply told_same. Qed.
Lemma told_push_close m c x : told m -> told (push_close m c x).
Proof. by apply told_same. Qed.
Lemma told_push_load m c x : told m -> told (push_load m c x).
Proof. by apply told_same. Qed.
Lemma told_push_save m c x : told m -> told (push_save m c x).
Proof. by apply told_same. Qed.
Lemma told_sessions m x : told m -> told (set_registry m (MkRegistry x (store (registry m)) (next_ref (registry m)))).
Proof. by apply told_same. Qed.

Ltac same := first [apply told_world|apply told_buffer|apply told_roster|apply told_spill
  |apply told_records|apply told_visuals|apply told_counts|apply told_push_close
  |apply told_push_load|apply told_push_save|apply told_sessions].

Lemma told_open m cid i : told m -> told (open m cid i).
Proof.
  intros Hm. unfold open. destruct (openRefusal m i); [by same|].
  destruct Hm as [H1 H2 H3]. split; [exact H1| |exact H3]. intros r. unfold read. simpl.
  destruct (decide (next_ref (registry m) = r)) as [<-|Hne]; [by rewrite upd_eq|].
  rewrite upd_ne by done. apply H2.
Qed.

Lemma closed_no_broadcast s : closed s = true -> wantsBroadcast s = false.
Proof. intros H. unfold wantsBroadcast, livePlayer. by rewrite H. Qed.

Lemma no_player_no_broadcast s : player s = None -> wantsBroadcast s = false.
Proof. intros Hp. unfold wantsBroadcast, livePlayer. rewrite Hp. by destruct (closed s). Qed.

Lemma awaiting_no_broadcast s q : pendingJoin s = Some q -> wantsBroadcast s = false.
Proof. intros Hp. unfold wantsBroadcast. rewrite Hp. by destruct (livePlayer s). Qed.

Lemma told_release m r : told m -> told (release m r).
Proof.
  intros Hm. unfold release. destruct (closed (read m r)) eqn:Ec; [done|].
  assert (H1 : told (write m r (with_closed (read m r)))).
  { apply told_write; [done|done|]. by rewrite closed_no_broadcast. }
  set (m1 := set_buffer _ _). assert (Hm1 : told m1) by (unfold m1; by repeat same). clearbody m1.
  destruct (player (read m r)) as [p|]; [|done].
  assert (H2 : told (write m1 r (with_player (read m1 r) None))).
  { apply told_write; [done|done|]. by rewrite no_player_no_broadcast. }
  same. destruct (hostRecord _ _) as [rr|], (identity (read m r)); try by repeat same.
  destruct (mhas _ _); by repeat same.
Qed.

Lemma told_drop m cid : told m -> told (drop m cid).
Proof. intros Hm. unfold drop. destruct (lookup m cid); [by apply told_release|done]. Qed.

Lemma told_closeFor m r reason : told m -> told (closeFor m r reason).
Proof. intros Hm. unfold closeFor. apply told_release. by same. Qed.

Lemma told_reject m r reason : told m -> told (reject m r reason).
Proof.
  intros Hm. unfold reject. apply told_release.
  eapply told_same with (m := send m [connectionId (read m r)] (EReject reason PROTOCOL_VERSION) reliable);
    [reflexivity|reflexivity|]. by apply told_send.
Qed.

Lemma told_admit m r q : told m -> told (admit_player m r q).
Proof.
  intros Hm. unfold admit_player. destruct (_ || _); [done|].
  destruct (_ <=? _); [by apply told_reject|]. destruct (has_player _ _); [by apply told_reject|].
  destruct (joinPlayer _ _ _) as [w p]. same. apply told_write; [by same|done|].
  by erewrite awaiting_no_broadcast.
Qed.

Lemma told_join_field m r q aw ad :
  told m -> told (write m r (with_join (read m r) (Some q) aw ad)).
Proof.
  intros Hm. apply told_write; [done|done|]. by erewrite awaiting_no_broadcast.
Qed.

Lemma told_join m r q : told m -> told (join m r q).
Proof.
  intros Hm. unfold join. destruct (negb (feq _ _)); [by apply told_reject|].
  destruct (negb (identityMatches _ _)); [by apply told_reject|].
  destruct (joined _); [by apply told_join_field|]. destruct (admitting _); [done|].
  destruct (identity _); [|by apply told_admit].
  destruct (mhas _ _); [by apply told_admit|]. same.
  by apply told_write.
Qed.

Lemma told_seed m cid f : told m -> told (seed m cid f).
Proof.
  intros Hm. unfold seed. destruct (lookup m cid) as [r|]; [|done].
  set (m1 := match f with Some _ => _ | None => m end).
  assert (Hm1 : told m1) by (unfold m1; destruct f; [by same|done]).
  assert (Hr : read m1 r = read m r) by (unfold m1; by destruct f).
  assert (Hw : told (write m1 r (with_join (read m r) (pendingJoin (read m r)) None false))).
  { apply told_write; [done|by rewrite Hr|by rewrite Hr]. }
  destruct (awaitingRecord (read m r)); [by apply told_admit|done].
Qed.

Lemma told_input m r f : told m -> told (input m r f).
Proof.
  intros Hm. unfold input. destruct (negb _); [done|].
  destruct (admitFrame _ _ _ _ _ _) as [[res a] b].
  assert (Hw : told (set_buffer (write m r (with_admission (read m r) a)) b)) by (same; by apply told_write).
  destruct res as [| |[]]; try done. destruct (overRateBreachLimit a); [by apply told_closeFor|done].
Qed.

Lemma told_token m r : told m -> told (takeInputToken m r).2.
Proof.
  intros Hm. unfold takeInputToken. destruct (takeToken _) as [ok a].
  assert (Hw : told (write m r (with_admission (read m r) a))) by (by apply told_write).
  destruct ok; [done|]. simpl. destruct (overRateBreachLimit a); [by apply told_closeFor|done].
Qed.

Lemma told_queue m r i q : told m -> told (write m r (with_queues (read m r) i q)).
Proof. intros. by apply told_write. Qed.

Lemma told_receive m cid msg : told m -> told (receive m cid msg).
Proof.
  intros Hm. unfold receive. destruct (lookup m cid) as [r|]; [|done].
  destruct (closed _); [done|]. destruct (asClientEnvelope msg) as [e|]; [|done].
  destruct (if on_input_bucket e then _ else _) as [ok a]. destruct (negb ok); [done|].
  match goal with |- context [write m r (with_admission (read m r) ?a')] =>
    assert (Hw : told (write m r (with_admission (read m r) a'))) by (by apply told_write);
    generalize dependent (write m r (with_admission (read m r) a')) end.
  intros m1 Hm1. destruct e.
  - by apply told_join.
  - by apply told_input.
  - unfold interaction. destruct (negb _); [done|]. pose proof (told_token m1 r Hm1) as Ht.
    destruct (takeInputToken m1 r) as [ok' m2]. destruct ok'; [by apply told_queue|done].
  - unfold request. destruct (negb _); [done|]. pose proof (told_token m1 r Hm1) as Ht.
    destruct (takeInputToken m1 r) as [ok' m2]. destruct ok'; [by apply told_queue|done].
  - by apply told_write.
Qed.

Lemma told_on_admission f m r : told m -> told (on_admission f m r).
Proof. intros. by apply told_write. Qed.

Lemma told_input_pass m : told m -> told (runInputPass m).
Proof.
  intros Hm. unfold runInputPass. destruct (drainThrough _ _) as [due b].
  apply told_fold; [|apply told_fold; [|same; apply told_fold; [|done]]].
  - intros m1 r H1. unfold session_pass. destruct (livePlayer _) as [p|]; [|done].
    match goal with |- context [if ?b then release_stale ?w ?p ?a else ?z] =>
      destruct (if b then release_stale w p a else z) as [w' acts] end. same. by apply told_write.
  - intros m1 e H1. unfold applyBuffered. destruct (livePlayer _) as [p|]; [|done].
    match goal with |- context [foldInputEdges ?i ?d ?f ?w ?p ?a ?c ?e] =>
      destruct (foldInputEdges i d f w p a c e) as [[w' acts] adm] end. same. by apply told_write.
  - intros m1 r H1. unfold advance_session. destruct (joined _); [by apply told_write|done].
Qed.

Lemma told_stepOnce m : told m -> told (stepOnce m).
Proof.
  intros Hm. unfold stepOnce. apply told_fold; [intros; by apply told_on_admission|]. same.
  apply told_input_pass. same. apply told_fold; [intros; by apply told_on_admission|done].
Qed.

Lemma told_sweep m : told m -> told (sweepJoinDeadline m).
Proof. intros Hm. unfold sweepJoinDeadline. apply told_fold; [|done]. intros. by apply told_closeFor. Qed.

Lemma sends_send m cs e cls x :
  x ∈ sends (out (send m cs e cls)) <->
  x ∈ sends (out m) \/ (cs <> [] /\ x = MkSendOrder cs e cls).
Proof.
  unfold send. destruct cs as [|c cs]; simpl; [naive_solver|].
  rewrite elem_of_app, list_elem_of_singleton. naive_solver.
Qed.

Lemma told_welcome m r p q now :
  told m ->
  told (welcome m r p q now) /\ store (registry (welcome m r p q now)) = store (registry m)
  /\ welcomed (log (welcome m r p q now)) (connectionId (read m r)).
Proof.
  intros Hm. unfold welcome. destruct (within _ _).
  { split; [by apply told_send|]. split; [done|]. by eapply welcomed_send. }
  destruct (splitSnapshot _ _ _ _) as [[head chunks] lost].
  set (m1 := set_counts m _ _). assert (H1 : told m1) by (by apply told_counts).
  assert (Hs : store (registry m1) = store (registry m)) by done. clearbody m1.
  assert (Hf : forall cid cs m1, told m1 ->
    told (foldl (fun m c => send m [cid] (EChunk c) reliable) m1 cs)
    /\ store (registry (foldl (fun m c => send m [cid] (EChunk c) reliable) m1 cs)) = store (registry m1)).
  { intros cid cs. induction cs as [|c cs IH]; intros m2 H2; simpl; [done|].
    destruct (IH (send m2 [cid] (EChunk c) reliable)) as [HA HB]; [by apply told_send|]. by split; [|etransitivity; [exact HB|]]. }
  destruct (Hf (connectionId (read m r)) chunks m1 H1) as [HA HB].
  split; [by apply told_send|]. split; [by etransitivity; [exact HB|]|]. by eapply welcomed_send.
Qed.

Lemma told_broadcast_skip m r a n :
  told m -> told (write m r (with_skip (with_admission (read m r) a) n)).
Proof. intros Hm. by apply told_write. Qed.

Lemma told_fan_out set now m r : told m -> told (fan_out set now m r).
Proof.
  intros Hm. unfold fan_out. destruct (livePlayer (read m r)) as [p|] eqn:El; [|done].
  destruct (wantsBroadcast (read m r)) eqn:Ew.
  - destruct (stateEnvelopeFor _ _ _ _) as [[env a] n].
    apply told_send; [by apply told_broadcast_skip|]. intros _ c Hc.
    apply list_elem_of_singleton in Hc as ->. change (welcomed (log m) (connectionId (read m r))).
    by apply (td_known _ Hm).
  - destruct (pendingJoin (read m r)) as [q|]; [|done].
    set (m1 := write m r (with_skip (read m r) _)). assert (H1 : told m1) by (by apply told_write).
    clearbody m1. destruct (welcomeThrows _ _); [by apply told_closeFor|].
    destruct (told_welcome m1 r p q now H1) as (H2 & Hs & Hw). set (m2 := welcome m1 r p q now) in *.
    assert (Hc : read m2 r = read m1 r) by (unfold read; by rewrite Hs). clearbody m2.
    apply told_greet; [done|]. by rewrite Hc.
Qed.

Lemma told_answer_sync now m r : told m -> told (answer_sync now m r).
Proof.
  intros Hm. unfold answer_sync. destruct (pendingTimeSync _); [|done].
  apply told_send; [by apply told_write|done].
Qed.
End ordered.

Lemma told_keep flushed cs m :
  told flushed [] m -> (forall c, c ∈ cs -> welcomed (log flushed m) c) -> told flushed cs m.
Proof. intros [H1 H2 _] H3. by split. Qed.

Lemma told_forget flushed cs m : told flushed cs m -> told flushed [] m.
Proof. intros [H1 H2 _]. split; [done|done|]. intros c Hc. by apply not_elem_of_nil in Hc. Qed.

Lemma told_drain flushed m now : told flushed [] m -> told flushed [] (drain_tick m now).
Proof.
  intros Hm. unfold drain_tick. destruct (drainOnce _ _ _ _ _) as [[set held] w].
  set (m1 := set_counts _ _ _). assert (H1 : told flushed [] m1) by (by apply told_counts, told_roster, told_spill, told_world).
  clearbody m1. destruct (Manifest.drain (visual_store m1)) as [additions vs].
  set (cs := connectionId ∘ read m1 <$> _).
  assert (Hk : told flushed cs (set_visuals m1 vs)).
  { apply told_visuals, told_keep; [done|]. intros c Hc. unfold cs in Hc.
    apply list_elem_of_fmap in Hc as (r & -> & Hr). apply list_elem_of_filter in Hr as [Hr _].
    by apply (td_known _ _ _ H1). }
  clearbody cs. generalize dependent (set_visuals m1 vs). intros m2 Hk.
  set (m3 := match additions with Some _ => _ | None => _ end).
  assert (H3 : told flushed cs m3).
  { unfold m3. destruct additions; [|done]. apply told_send; [done|]. intros _. apply (td_kept _ _ _ Hk). }
  clearbody m3. destruct (transformEnvelope set) as [t moved].
  apply (told_forget _ cs). apply told_fold; [intros; by apply told_answer_sync|].
  set (m4 := foldl (fan_out set now) _ _).
  assert (H4 : told flushed cs m4) by (apply told_fold; [intros; by apply told_fan_out|done]).
  apply told_send; [done|]. intros _. apply (td_kept _ _ _ H4).
Qed.

Lemma told_advance flushed m b : told flushed [] m -> told flushed [] (advance m b).
Proof.
  intros Hm. unfold advance.
  match goal with |- context [if _ then drain_tick ?x _ else _] => assert (Hx : told flushed [] x) end.
  { apply told_sweep, told_stepOnce.
    repeat first [apply told_fold; [intros; first [apply told_drop|apply told_receive|apply told_seed|apply told_open]; done|]
      |apply told_records|done]. }
  destruct (drain b); [by apply told_drain|done].
Qed.

(** The invariant of a history: what was flushed, then what is queued. *)
Lemma told_flush flushed m :
  told flushed [] m -> told (flushed ++ sends (out m)) [] (set_out m no_output).
Proof.
  intros [H1 H2 _]. unfold log in *. split; unfold log; simpl; rewrite ?app_nil_r; [done|done|].
  intros c Hc. by apply not_elem_of_nil in Hc.
Qed.

Lemma told_step m flushed o : told flushed [] m -> told (step_op (m, flushed) o).2 [] (step_op (m, flushed) o).1.
Proof.
  intros Hm. destruct o as [b|r|v|]; simpl.
  - unfold tick. destruct (s_closed m); simpl; apply told_flush; [done|by apply told_advance].
  - unfold setSimRate. destruct (assertRate _ r); simpl; [|done].
    apply told_send; [by apply told_world|done].
  - by apply told_visuals.
  - unfold close. destruct (s_closed m); simpl; apply told_flush; [done|].
    apply told_fold; [intros; by apply told_release|]. by apply (told_same _ _ m).
Qed.

Lemma told_boot w cfg v : told [] [] (boot w cfg v).
Proof.
  split; simpl; [constructor|intros r; by unfold read|]. intros c Hc. by apply not_elem_of_nil in Hc.
Qed.

Lemma told_run m flushed ops :
  told flushed [] m -> told (foldl step_op (m, flushed) ops).2 [] (foldl step_op (m, flushed) ops).1.
Proof.
  revert m flushed. induction ops as [|o ops IH]; intros m flushed Hm; [done|]. cbn [foldl].
  pose proof (told_step m flushed o Hm) as Hs. destruct (step_op (m, flushed) o) as [m' fl']. by apply IH.
Qed.

Lemma well_ordered_prefix log log' : well_ordered (log ++ log') -> well_ordered log.
Proof.
  induction log' as [|x log' IH] using rev_ind; [by rewrite app_nil_r|]. rewrite app_assoc.
  intros Hw. inversion Hw as [Heq|l y Hl Hy Heq]; [by destruct (log ++ log')|].
  apply app_inj_tail in Heq as [-> ->]. auto.
Qed.

Lemma well_ordered_last log x c :
  well_ordered (log ++ [x]) -> is_update (envelope x) = true -> c ∈ to x -> welcomed log c.
Proof.
  intros Hw. inversion Hw as [Heq|l y Hl Hy Heq]; [by destruct log|].
  apply app_inj_tail in Heq as [-> ->]. auto.
Qed.

Lemma run_well_ordered w cfg v ops :
  let '(m, flushed) := run (boot w cfg v) ops in well_ordered (flushed ++ sends (out m)).
Proof.
  unfold run. pose proof (told_run (boot w cfg v) [] ops (told_boot w cfg v)) as Ht.
  destruct (foldl _ _ _) as [m flushed]. apply (td_order _ _ _ Ht).
Qed.
End sim.

(** ** A small arena to run the sim on *)

Record arena := MkArena { ar_tick : Z; ar_players : list Player }.

Definition arena_hold (w : arena) {A} (_ : A) : arena := w.

#[export] Instance arena_world : World arena := {|
  record _ _ := None;
  liveIds _ := [];
  idAt _ i := i;
  tagsOf _ _ := [];
  cells _ _ := zero_cells;
  scriptsOn _ _ := [];
  players := ar_players;
  hostRecord _ _ := None;
  recordKeys _ _ := [];
  hostField _ _ _ := (fun _ => SOther, SNum (of_Z 5));
  gameKey := js "game";
  playerKey p := js "player:" ++ p;
  entityKey id := [id];
  drainStructural w := ([], w);
  consumeDirty w := ([], w);
  drainState w := ([], w);
|}.

#[export] Instance arena_sim : SimWorld arena := {|
  rt_tick := ar_tick;
  rt_simRate _ := of_Z 60;
  rt_setSimRate w _ := w;
  step_before w t := MkArena t (ar_players w);
  step_after w := w;
  joinPlayer w id name :=
    let p := MkPlayer id (arr_len (ar_players w)) name in (MkArena (ar_tick w) (ar_players w ++ [p]), p);
  leavePlayer w id := MkArena (ar_tick w) (filter (fun p => p_id p <> id) (ar_players w));
  destroy w _ := w;
  inputHostKeys _ _ := [];
  dispatchEdge w _ _ _ _ _ := w;
  fillIntent w _ _ _ := w;
  deliverRequest w _ _ := w;
  pressWidget w _ _ _ := w;
  pointerHit w _ _ _ := w;
  welcomeThrows _ _ := false;
|}.

#[export] Instance ascii_unicode : Unicode := {|
  normalizeNFC s := s;
  is_control_or_format p := match p with [c] => (c <? 32) || (c =? 127) | _ => false end;
  is_white c := c =? 32;
|}.

#[export] Instance unit_codec : Codec unit unit unit unit := {|
  encode _ := Ok tt; decode _ := Ok tt; byteLength _ := 8;
|}.

Definition arena_config : SimConfig :=
  MkConfig (of_Z 20) 8 (MkProject (js "p") (js "h") (js "b") (js "u"))
    (MkBounds f0 (of_Z 800) f0 (of_Z 600)) [].

Definition join_message : json :=
  JObj [(js "kind", JStr (js "join-request")); (js "protocolVersion", JNum (of_Z 3));
        (js "name", JStr (js "ann")); (js "projectId", JStr (js "p")); (js "projectHash", JStr (js "h"));
        (js "bundleHash", JStr (js "b")); (js "clientSentMs", JNum (of_Z 1))].

(** A client opens and joins, is welcomed at the next send, then gets updates. *)
Definition arena_ops : list (sim_op (Asset := unit) (Visual := unit)) :=
  [Tick (MkBatch (of_Z 0) true [(js "c1", None)] [(js "c1", join_message)] [] [] []);
   Tick (MkBatch (of_Z 50) true [] [] [] [] [])].

Definition unit_message {A} (_ : A) : unit := tt.

Definition arena_log : list (Send (Asset := unit) (Visual := unit)) :=
  let '(m, flushed) := run unit_message unit_message unit_message
    (boot (MkArena 0 []) arena_config (Manifest.MkRender [] [])) arena_ops in
  flushed ++ sends (out m).

(** ** Properties *)

(** C31. Nobody is told about a world before being welcomed into it. However connections
    open, join, send, load, reconnect, breach their rates and close, and however the
    rate and the visuals change in between: in the order the sim queues its sends,
    every state, transform or manifest update addressed to a connection comes after
    a Welcome addressed to that connection alone. *)
Theorem no_update_before_welcome {Asset Visual W Frame Outgoing Message Err}
    `{WW : World W} `{SW : !SimWorld W} `{UU : Unicode} `{C : Codec Frame Outgoing Message Err}
    (wm : Welcome (Asset := Asset) (Visual := Visual) -> Outgoing) (em : EntitySnapshot -> Outgoing)
    (sm : StateDiff -> Outgoing) (w : W) (cfg : SimConfig) (v : Manifest.RenderManifest Asset Visual)
    (ops : list sim_op) :
  let '(m, flushed) := run wm em sm (boot w cfg v) ops in
  forall sent x later c,
    flushed ++ sends (out m) = sent ++ x :: later ->
    is_update (envelope x) = true -> c ∈ to x -> welcomed sent c.
Proof.
  pose proof (run_well_ordered wm em sm w cfg v ops) as Hw.
  destruct (run wm em sm (boot w cfg v) ops) as [m flushed]. intros sent x later c Heq.
  rewrite Heq in Hw. replace (sent ++ x :: later) with ((sent ++ [x]) ++ later) in Hw
    by (by rewrite <- app_assoc).
  apply well_ordered_prefix in Hw. by apply well_ordered_last.
Qed.

Lemma no_update_before_welcome_witness :
  exists sent x later, arena_log = sent ++ x :: later /\ is_update (envelope x) = true
    /\ js "c1" ∈ to x /\ welcomed sent (js "c1").
Proof.
  exists (take 1 arena_log), (match arena_log with _ :: x :: _ => x | _ => MkSendOrder [] (EReject RVersion 3) reliable end),
    (skipn 2 arena_log).
  assert (H1 : arena_log = take 1 arena_log
    ++ (match arena_log with _ :: x :: _ => x | _ => MkSendOrder [] (EReject RVersion 3) reliable end)
    :: skipn 2 arena_log) by (vm_compute; reflexivity).
  split; [exact H1|]. split; [vm_compute; reflexivity|].
  assert (H2 : is_update (envelope (match arena_log with _ :: x :: _ => x
    | _ => MkSendOrder [] (EReject RVersion 3) reliable end)) = true) by (vm_compute; reflexivity).
  assert (H3 : js "c1" ∈ to (match arena_log with _ :: x :: _ => x
    | _ => MkSendOrder [] (EReject RVersion 3) reliable end)).
  { apply (bool_decide_unpack _). vm_compute. exact I. }
  split; [exact H3|]. revert H1 H2 H3.
  generalize (take 1 arena_log) (skipn 2 arena_log) (match arena_log with _ :: x :: _ => x
    | _ => MkSendOrder [] (EReject RVersion 3) reliable end). unfold arena_log.
  pose proof (no_update_before_welcome (Asset := unit) (Visual := unit) unit_message unit_message unit_message
    (MkArena 0 []) arena_config (Manifest.MkRender [] []) arena_ops) as H.
  destruct (run _ _ _ _ _) as [m flushed]. intros sent later x H1 H2 H3. by apply (H sent x later).
Defined.
