(* ===== verification/JsInt.v ===== *)
(** * Integers as JavaScript numbers

    Counters, ticks and sequence numbers are doubles that hold integers. Below
    [2^53] in magnitude a double is exact: addition, subtraction and comparison of
    converted integers are those of the integers. The lemmas here let a component
    keep the source's arithmetic and still be reasoned about over [Z]. *)

From S2P Require Import Prelude JsNum.

Local Open Scope Z_scope.

(** The safe integers. *)
Definition exact_int (z : Z) : Prop := - 2 ^ 53 < z < 2 ^ 53.

(** The canonical double of magnitude [q * 2^e]. *)
Definition canon (s : bool) (q : positive) (e : Z) : num :=
  S754_finite s (Z.to_pos (Zpos q * 2 ^ (53 - Zpos (digits2_pos q)))) (e + Zpos (digits2_pos q) - 53).

Lemma digits_log2 q : Zpos (digits2_pos q) = Z.log2 (Zpos q) + 1.
Proof.
  induction q as [q IH|q IH|]; simpl digits2_pos; [| |done]; rewrite Pos2Z.inj_succ, IH.
  - rewrite (Pos2Z.inj_xI q), Z.log2_succ_double by lia. lia.
  - rewrite (Pos2Z.inj_xO q), Z.log2_double by lia. lia.
Qed.

Lemma digits_bounds q : 2 ^ (Zpos (digits2_pos q) - 1) <= Zpos q < 2 ^ Zpos (digits2_pos q).
Proof.
  rewrite digits_log2. pose proof (Z.log2_spec (Zpos q) ltac:(lia)) as H.
  replace (Z.log2 (Zpos q) + 1 - 1) with (Z.log2 (Zpos q)) by lia. by rewrite Z.add_1_r.
Qed.

Lemma digits_shift q n m :
  0 <= n -> Zpos m = Zpos q * 2 ^ n -> Zpos (digits2_pos m) = Zpos (digits2_pos q) + n.
Proof. intros Hn Hm. rewrite !digits_log2, Hm, <- Z.shiftl_mul_pow2, Z.log2_shiftl; lia. Qed.

Lemma digits_le q n : Zpos q < 2 ^ n -> 0 <= n -> Zpos (digits2_pos q) <= n.
Proof. intros Hq Hn. rewrite digits_log2. pose proof (proj1 (Z.log2_lt_pow2 (Zpos q) n ltac:(lia)) Hq). lia. Qed.

Lemma iter_xO m d : Zpos (Pos.iter xO m d) = Zpos m * 2 ^ Zpos d.
Proof.
  induction d as [|d IH] using Pos.peano_ind; [simpl; lia|].
  rewrite Pos.iter_succ, Pos2Z.inj_xO, IH, Pos2Z.inj_succ, Z.pow_succ_r by lia. lia.
Qed.

Lemma shl_align_down m e e' :
  e' <= e -> Zpos (fst (shl_align m e e')) = Zpos m * 2 ^ (e - e') /\ snd (shl_align m e e') = e'.
Proof.
  intros He. unfold shl_align. destruct (e' - e) as [|p|p] eqn:E; [|lia|].
  - replace (e - e') with 0 by lia. simpl. lia.
  - simpl. split; [|done]. rewrite iter_xO. by replace (Zpos p) with (e - e') by lia.
Qed.

Lemma shl_align_up m e e' : e <= e' -> shl_align m e e' = (m, e).
Proof. intros He. unfold shl_align. destruct (e' - e) eqn:E; [done|done|lia]. Qed.

Lemma iter_pos_nat {A} (f : A -> A) n x : iter_pos f n x = Nat.iter (Pos.to_nat n) f x.
Proof.
  revert x. induction n as [n IH|n IH|]; intros x; cbn [iter_pos]; [| |done]; rewrite !IH.
  - rewrite Pos2Nat.inj_xI, Nat.iter_succ_r, <- Nat.iter_add. f_equal. lia.
  - rewrite Pos2Nat.inj_xO, <- Nat.iter_add. f_equal. lia.
Qed.

Lemma shr_1_double z : 0 <= z -> shr_1 (Build_shr_record (2 * z) false false) = Build_shr_record z false false.
Proof. by destruct z. Qed.

Lemma shr_exact z n : 0 <= z ->
  Nat.iter n shr_1 (Build_shr_record (z * 2 ^ Z.of_nat n) false false) = Build_shr_record z false false.
Proof.
  intros Hz. revert z Hz. induction n as [|n IH]; intros z Hz; [simpl; f_equal; lia|].
  rewrite Nat.iter_succ. replace (z * 2 ^ Z.of_nat (S n)) with (2 * z * 2 ^ Z.of_nat n).
  - rewrite IH by lia. by apply shr_1_double.
  - rewrite Nat2Z.inj_succ, Z.pow_succ_r by lia. lia.
Qed.

(** A mantissa whose low bits are zero is brought to 53 bits without rounding. *)
Lemma shr_fexp_exact m z e n :
  0 < z -> 0 <= n -> Zpos m = z * 2 ^ n ->
  fexp fprec femax (Zpos (digits2_pos m) + e) - e = n ->
  shr_fexp fprec femax (Zpos m) e loc_Exact = (Build_shr_record z false false, e + n).
Proof.
  intros Hz Hn Hm Hf. unfold shr_fexp. simpl Zdigits2. rewrite Hf. simpl shr_record_of_loc. unfold shr.
  destruct n as [|p|p]; [| |lia].
  - f_equal; [|lia]. f_equal. lia.
  - f_equal. rewrite iter_pos_nat, Hm. rewrite <- (positive_nat_Z p). apply shr_exact. lia.
Qed.

Lemma round_exact s m z e n :
  0 < z -> 0 <= n -> Zpos m = z * 2 ^ n ->
  fexp fprec femax (Zpos (digits2_pos m) + e) - e = n ->
  fexp fprec femax (Zpos (digits2_pos (Z.to_pos z)) + (e + n)) = e + n ->
  e + n <= 971 ->
  binary_round_aux fprec femax s (Zpos m) e loc_Exact = S754_finite s (Z.to_pos z) (e + n).
Proof.
  intros Hz Hn Hm Hf Hf2 He. unfold binary_round_aux. rewrite (shr_fexp_exact m z e n) by done.
  simpl loc_of_shr_record. simpl shr_m. unfold round_nearest_even.
  rewrite <- (Z2Pos.id z) at 1 by done.
  rewrite (shr_fexp_exact (Z.to_pos z) z (e + n) 0); [|done|lia|rewrite Z2Pos.id by done; lia|lia].
  simpl shr_m. rewrite <- (Z2Pos.id z) at 1 by done. rewrite Z.add_0_r.
  destruct (e + n <=? femax - fprec) eqn:E; [done|]. unfold femax, fprec in E. lia.
Qed.

Lemma fexp_normal e : -1021 <= e -> fexp fprec femax e = e - 53.
Proof. intros. unfold fexp, emin, fprec, femax. lia. Qed.

(** Normalizing [± q * 2^n * 2^e] when [q] fits 53 bits is exact. *)
Lemma normalize_canon (s : bool) q n m e b :
  0 <= n -> Zpos m = Zpos q * 2 ^ n -> Zpos (digits2_pos q) <= 53 ->
  -1021 <= e + n + Zpos (digits2_pos q) <= 1024 ->
  binary_normalize fprec femax (cond_Zopp s (Zpos m)) e b = canon s q (e + n).
Proof.
  intros Hn Hm Hd He. set (d := Zpos (digits2_pos q)) in *.
  assert (Hdm : Zpos (digits2_pos m) = d + n) by (by apply digits_shift).
  assert (H : binary_normalize fprec femax (cond_Zopp s (Zpos m)) e b = binary_round fprec femax s m e)
    by (by destruct s). rewrite H. clear H.
  unfold binary_round. rewrite Hdm. rewrite fexp_normal by lia.
  set (z := Zpos q * 2 ^ (53 - d)). assert (Hz : 0 < z) by (unfold z; pose proof (Z.pow_pos_nonneg 2 (53 - d)); nia).
  assert (Hdz : Zpos (digits2_pos (Z.to_pos z)) = 53).
  { rewrite (digits_shift q (53 - d)); [unfold d; lia|lia|]. by rewrite Z2Pos.id. }
  destruct (Z.le_gt_cases (d + n + e - 53) e) as [Hle|Hgt].
  - destruct (shl_align m e (d + n + e - 53)) as [mz ez] eqn:Ea.
    destruct (shl_align_down m e (d + n + e - 53) Hle) as [Hmz Hez]. rewrite Ea in Hmz, Hez. simpl in Hmz, Hez.
    assert (Hv : Zpos mz = z * 2 ^ 0).
    { rewrite Hmz, Hm. unfold z. rewrite <- Z.mul_assoc, <- Z.pow_add_r by lia. rewrite Z.mul_1_r. f_equal. f_equal. lia. }
    rewrite (round_exact s mz z ez 0); [|done|lia|done| | |lia].
    + unfold canon. fold d. f_equal. lia.
    + assert (Zpos (digits2_pos mz) = 53) as ->. { rewrite <- Hdz. do 2 f_equal. rewrite Z.mul_1_r in Hv. by rewrite <- Hv. }
      rewrite fexp_normal by lia. lia.
    + rewrite Hdz, fexp_normal by lia. lia.
  - rewrite shl_align_up by lia.
    assert (Hv : Zpos m = z * 2 ^ (d + n - 53)).
    { rewrite Hm. unfold z. rewrite <- Z.mul_assoc, <- Z.pow_add_r by lia. f_equal. f_equal. lia. }
    rewrite (round_exact s m z e (d + n - 53)); [|done|lia|done| | |lia].
    + unfold canon. fold d. f_equal. lia.
    + rewrite Hdm, fexp_normal by lia. lia.
    + rewrite Hdz, fexp_normal by lia. lia.
Qed.

(** ** Conversions of integers *)

Definition int_form (z : Z) (s : bool) (q : positive) : Prop :=
  Zpos (digits2_pos q) <= 53 /\ z = cond_Zopp s (Zpos q) /\ s = (z <? 0).

Lemma int_form_ex z : exact_int z -> z <> 0 -> exists s q, int_form z s q.
Proof.
  intros [Hl Hu] Hz. destruct z as [|m|m]; [done| |].
  - exists false, m. split; [apply digits_le; lia|done].
  - exists true, m. split; [apply digits_le; lia|done].
Qed.

Lemma int_form_nz z s q : int_form z s q -> z <> 0.
Proof. intros (_ & -> & _). by destruct s. Qed.

Lemma normalize_int z s q k b :
  int_form z s q -> 0 <= k <= 60 ->
  binary_normalize fprec femax (z * 2 ^ k) (- k) b = canon s q 0.
Proof.
  intros (Hd & Hz & Hs) Hk.
  assert (Hp : 0 < Zpos q * 2 ^ k) by (pose proof (Z.pow_pos_nonneg 2 k); nia).
  replace (z * 2 ^ k) with (cond_Zopp s (Zpos (Z.to_pos (Zpos q * 2 ^ k)))).
  - rewrite (normalize_canon s q k); [|lia|by rewrite Z2Pos.id|lia|lia]. f_equal. lia.
  - rewrite Z2Pos.id by done. rewrite Hz. destruct s; simpl; lia.
Qed.

Lemma of_Z_canon z s q : int_form z s q -> of_Z z = canon s q 0.
Proof. intros Hf. rewrite <- (normalize_int z s q 0 false) by (done || lia). unfold of_Z. f_equal. lia. Qed.

(** The aligned mantissa of a converted integer. *)
Lemma aligned_int z s q ez :
  int_form z s q -> ez <= Zpos (digits2_pos q) - 53 ->
  cond_Zopp s (Zpos (fst (shl_align (Z.to_pos (Zpos q * 2 ^ (53 - Zpos (digits2_pos q))))
    (0 + Zpos (digits2_pos q) - 53) ez))) = z * 2 ^ (- ez).
Proof.
  intros (Hd & Hz & Hs) He. rewrite Z.add_0_l.
  destruct (shl_align_down (Z.to_pos (Zpos q * 2 ^ (53 - Zpos (digits2_pos q)))) _ _ He) as [-> _].
  set (d := Zpos (digits2_pos q)) in *.
  assert (Hp : 0 < Zpos q * 2 ^ (53 - d)) by (pose proof (Z.pow_pos_nonneg 2 (53 - d)); nia).
  rewrite Z2Pos.id by done. rewrite <- Z.mul_assoc, <- Z.pow_add_r by lia.
  replace (53 - d + (d - 53 - ez)) with (- ez) by lia. rewrite Hz. destruct s; simpl; lia.
Qed.

Lemma fadd_int a b : exact_int a -> exact_int b -> exact_int (a + b) -> fadd (of_Z a) (of_Z b) = of_Z (a + b).
Proof.
  intros Ha Hb Hab. destruct (Z.eq_dec a 0) as [->|Ha0]; [rewrite Z.add_0_l|].
  { destruct (Z.eq_dec b 0) as [->|Hb0]; [done|]. destruct (int_form_ex b Hb Hb0) as (s & q & Hf).
    by rewrite (of_Z_canon _ _ _ Hf). }
  destruct (int_form_ex a Ha Ha0) as (sa & qa & Hfa).
  destruct (Z.eq_dec b 0) as [->|Hb0]; [rewrite Z.add_0_r, (of_Z_canon _ _ _ Hfa); done|].
  destruct (int_form_ex b Hb Hb0) as (sb & qb & Hfb).
  rewrite (of_Z_canon _ _ _ Hfa), (of_Z_canon _ _ _ Hfb). unfold fadd, canon, SFadd.
  remember (Z.min (0 + Zpos (digits2_pos qa) - 53) (0 + Zpos (digits2_pos qb) - 53)) as ez eqn:Hez.
  assert (Hl : ez <= Zpos (digits2_pos qa) - 53 /\ ez <= Zpos (digits2_pos qb) - 53 /\ 0 <= - ez <= 60)
    by (destruct Hfa as [? _], Hfb as [? _]; lia). destruct Hl as (Hla & Hlb & Hl). cbv zeta.
  rewrite (aligned_int a sa qa ez Hfa Hla), (aligned_int b sb qb ez Hfb Hlb).
  rewrite <- Z.mul_add_distr_r. destruct (Z.eq_dec (a + b) 0) as [->|Hz]; [done|].
  destruct (int_form_ex _ Hab Hz) as (s & q & Hf). rewrite (of_Z_canon _ _ _ Hf).
  pose proof (normalize_int _ s q (- ez) false Hf Hl) as Hn. by rewrite Z.opp_involutive in Hn.
Qed.

Lemma exact_int_opp z : exact_int z -> exact_int (- z).
Proof. unfold exact_int. lia. Qed.

Lemma of_Z_opp z : exact_int z -> z <> 0 -> of_Z (- z) = fneg (of_Z z).
Proof.
  intros Hz Hnz. destruct (int_form_ex z Hz Hnz) as (s & q & Hf).
  assert (Hf' : int_form (- z) (negb s) q).
  { destruct Hf as (Hd & -> & Hs). split; [done|]. by destruct s. }
  by rewrite (of_Z_canon _ _ _ Hf), (of_Z_canon _ _ _ Hf').
Qed.

Lemma fsub_fadd x y : y <> f0 -> fsub x y = fadd x (fneg y).
Proof.
  intros Hy. destruct x as [[]|[]| |s m e], y as [[]|[]| |s' m' e']; try done.
  unfold fsub, fadd, fneg, SFsub, SFadd, SFopp. destruct s'; simpl cond_Zopp; f_equal; lia.
Qed.

Lemma of_Z_nonzero z : exact_int z -> z <> 0 -> of_Z z <> f0.
Proof. intros Hz Hnz. destruct (int_form_ex z Hz Hnz) as (s & q & Hf). by rewrite (of_Z_canon _ _ _ Hf). Qed.

Lemma fsub_int a b : exact_int a -> exact_int b -> exact_int (a - b) -> fsub (of_Z a) (of_Z b) = of_Z (a - b).
Proof.
  intros Ha Hb Hab. destruct (Z.eq_dec b 0) as [->|Hb0].
  { rewrite Z.sub_0_r. change (of_Z 0) with f0. destruct (Z.eq_dec a 0) as [->|Ha0]; [done|].
    destruct (int_form_ex a Ha Ha0) as (s & q & Hf). by rewrite (of_Z_canon _ _ _ Hf). }
  rewrite fsub_fadd by (by apply of_Z_nonzero). rewrite <- of_Z_opp by done.
  apply fadd_int; [done|by apply exact_int_opp|by rewrite Z.add_opp_r].
Qed.

(** ** Comparing and reading back *)

Lemma to_Z_of_Z z : exact_int z -> to_Z (of_Z z) = Some z.
Proof.
  intros Hz. destruct (Z.eq_dec z 0) as [->|Hnz]; [done|].
  destruct (int_form_ex z Hz Hnz) as (s & q & Hf). rewrite (of_Z_canon _ _ _ Hf).
  destruct Hf as (Hd & -> & _). unfold canon, to_Z. set (d := Zpos (digits2_pos q)) in *.
  assert (Hp : 0 < Zpos q * 2 ^ (53 - d)) by (pose proof (Z.pow_pos_nonneg 2 (53 - d)); nia).
  rewrite Z2Pos.id by done. replace (0 + d - 53) with (- (53 - d)) by lia.
  replace (cond_Zopp s (Zpos q * 2 ^ (53 - d))) with (cond_Zopp s (Zpos q) * 2 ^ (53 - d))
    by (destruct s; simpl cond_Zopp; lia).
  destruct (0 <=? - (53 - d)) eqn:E.
  - apply Z.leb_le in E. replace (53 - d) with 0 by lia. simpl Z.opp. by rewrite Z.shiftl_0_r, Z.mul_1_r.
  - rewrite Z.opp_involutive. rewrite Z.mod_mul by (apply Z.pow_nonzero; lia). simpl.
    rewrite <- Z.shiftl_mul_pow2, Z.shiftr_shiftl_l, Z.sub_diag, Z.shiftl_0_r by lia. done.
Qed.

Lemma isInteger_of_Z z : exact_int z -> isInteger (of_Z z) = true.
Proof. intros Hz. unfold isInteger. by rewrite to_Z_of_Z. Qed.

Lemma of_Z_inj a b : exact_int a -> exact_int b -> of_Z a = of_Z b -> a = b.
Proof. intros Ha Hb He. apply (f_equal to_Z) in He. rewrite !to_Z_of_Z in He by done. congruence. Qed.

(** Larger integers have larger exponents, or the same one and a larger mantissa. *)
Lemma canon_compare p q :
  Zpos (digits2_pos p) <= 53 -> Zpos (digits2_pos q) <= 53 ->
  SFcompare (canon false p 0) (canon false q 0) = Some (Zpos p ?= Zpos q).
Proof.
  intros Hp Hq. unfold canon, SFcompare. f_equal.
  pose proof (digits_bounds p) as Bp. pose proof (digits_bounds q) as Bq.
  set (dp := Zpos (digits2_pos p)) in *. set (dq := Zpos (digits2_pos q)) in *.
  destruct (Z.compare_spec (0 + dp - 53) (0 + dq - 53)) as [Heq|Hlt|Hgt].
  - assert (dp = dq) as Hd by lia. rewrite Hd.
    assert (Hw : 0 < 2 ^ (53 - dq)) by (apply Z.pow_pos_nonneg; lia).
    change (Pos.compare_cont Eq ?a ?b) with (Zpos a ?= Zpos b). rewrite !Z2Pos.id by nia.
    symmetry. apply Zmult_compare_compat_r. lia.
  - symmetry. apply Z.compare_lt_iff. assert (2 ^ dp <= 2 ^ (dq - 1)) by (apply Z.pow_le_mono_r; lia). lia.
  - symmetry. apply Z.compare_gt_iff. assert (2 ^ dq <= 2 ^ (dp - 1)) by (apply Z.pow_le_mono_r; lia). lia.
Qed.

Lemma canon_compare_neg p q :
  SFcompare (canon true p 0) (canon true q 0) = CompOpp <$> SFcompare (canon false p 0) (canon false q 0).
Proof. unfold canon, SFcompare. simpl. f_equal. by destruct (_ ?= _). Qed.

Lemma SFcompare_int a b : exact_int a -> exact_int b -> SFcompare (of_Z a) (of_Z b) = Some (a ?= b).
Proof.
  intros Ha Hb. destruct (Z.eq_dec a 0) as [->|Ha0], (Z.eq_dec b 0) as [->|Hb0]; [done| | |].
  - destruct (int_form_ex b Hb Hb0) as (s & q & Hf). rewrite (of_Z_canon _ _ _ Hf).
    destruct Hf as (_ & -> & _). by destruct s.
  - destruct (int_form_ex a Ha Ha0) as (s & q & Hf). rewrite (of_Z_canon _ _ _ Hf).
    destruct Hf as (_ & -> & _). by destruct s.
  - destruct (int_form_ex a Ha Ha0) as (s & p & Hf), (int_form_ex b Hb Hb0) as (s' & q & Hf').
    rewrite (of_Z_canon _ _ _ Hf), (of_Z_canon _ _ _ Hf'). destruct Hf as (Hp & -> & _), Hf' as (Hq & -> & _).
    destruct s, s'; simpl cond_Zopp; [|done|done|by apply canon_compare].
    rewrite canon_compare_neg, canon_compare by done. done.
Qed.

Lemma flt_int a b : exact_int a -> exact_int b -> flt (of_Z a) (of_Z b) = (a <? b).
Proof. intros Ha Hb. unfold flt, SFltb. by rewrite SFcompare_int. Qed.

Lemma fle_int a b : exact_int a -> exact_int b -> fle (of_Z a) (of_Z b) = (a <=? b).
Proof. intros Ha Hb. unfold fle, SFleb. by rewrite SFcompare_int. Qed.

Lemma feq_int a b : exact_int a -> exact_int b -> feq (of_Z a) (of_Z b) = (a =? b).
Proof.
  intros Ha Hb. unfold feq, SFeqb. rewrite SFcompare_int by done.
  destruct (Z.compare_spec a b); symmetry; [by apply Z.eqb_eq|apply Z.eqb_neq; lia..].
Qed.

Lemma isFinite_int z : exact_int z -> isFinite (of_Z z) = true.
Proof.
  intros Hz. destruct (Z.eq_dec z 0) as [->|Hnz]; [done|].
  destruct (int_form_ex z Hz Hnz) as (s & q & Hf). by rewrite (of_Z_canon _ _ _ Hf).
Qed.
