(* ===== verification/JsRound.v ===== *)
(** * Rounding keeps bounds

    A rounded sum or difference never passes a representable number its exact value does
    not pass. Positive doubles are measured in units of [2^-1074], the least of them. *)

From S2P Require Import Prelude JsNum JsInt.

Local Open Scope Z_scope.

Definition canon_pos (m : positive) (e : Z) : Prop :=
  Zpos m < 2 ^ 53 /\ -1074 <= e <= 971 /\ (2 ^ 52 <= Zpos m \/ e = -1074).

Definition units (x : num) : Z := match x with S754_finite false m e => Zpos m * 2 ^ (e + 1074) | _ => 0 end.

(** Zero or a canonical positive double. *)
Definition nonneg_ok (x : num) : Prop :=
  match x with S754_zero _ => True | S754_finite false m e => canon_pos m e | _ => False end.

Lemma pow_lt a b : 0 <= a -> a < b -> 2 ^ a < 2 ^ b.
Proof. intros. apply Z.pow_lt_mono_r; lia. Qed.
Lemma pow_le a b : a <= b -> 2 ^ a <= 2 ^ b.
Proof. intros. apply Z.pow_le_mono_r; lia. Qed.
Lemma pow_pos a : 0 <= a -> 0 < 2 ^ a.
Proof. intros. apply Z.pow_pos_nonneg; lia. Qed.
Lemma pow_split a b : 0 <= a <= b -> 2 ^ b = 2 ^ a * 2 ^ (b - a).
Proof. intros. rewrite <- Z.pow_add_r by lia. f_equal. lia. Qed.

Lemma shr_1_half r : 0 <= shr_m r -> shr_m (shr_1 r) = shr_m r / 2.
Proof.
  destruct r as [m r s]. cbn [shr_m]. intros Hm. destruct m as [|[p|p|]|p]; cbn [shr_1 shr_m]; try done.
  - rewrite (Pos2Z.inj_xI p). replace (2 * Zpos p + 1) with (1 + Zpos p * 2) by lia. by rewrite Z.div_add by lia.
  - rewrite (Pos2Z.inj_xO p), Z.mul_comm. by rewrite Z.div_mul.
Qed.

Lemma shr_iter n : forall r, 0 <= shr_m r -> shr_m (Nat.iter n shr_1 r) = shr_m r / 2 ^ Z.of_nat n.
Proof.
  induction n as [|n IH]; intros r Hr; [by rewrite Z.div_1_r|].
  rewrite Nat.iter_succ_r, IH; rewrite shr_1_half by done; [|by apply Z.div_pos].
  rewrite Z.div_div by (lia || apply pow_pos; lia). f_equal. by rewrite Nat2Z.inj_succ, Z.pow_succ_r by lia.
Qed.

(** One shift to the exponent [fexp] asks for: the quotient, exact when the bits lost are zero. *)
Lemma shr_fexp_div m e n :
  0 <= n -> fexp fprec femax (Zpos (digits2_pos m) + e) - e = n ->
  exists mrs, shr_fexp fprec femax (Zpos m) e loc_Exact = (mrs, e + n) /\ shr_m mrs = Zpos m / 2 ^ n
    /\ (Zpos m = (Zpos m / 2 ^ n) * 2 ^ n -> loc_of_shr_record mrs = loc_Exact).
Proof.
  intros Hn Hf. unfold shr_fexp. simpl Zdigits2. rewrite Hf. simpl shr_record_of_loc. unfold shr.
  destruct n as [|p|p]; [| |lia].
  - eexists. split; [by rewrite Z.add_0_r|]. split; [by rewrite Z.div_1_r|done].
  - eexists. split; [done|]. rewrite iter_pos_nat. split.
    + rewrite shr_iter by done. by rewrite positive_nat_Z.
    + intros Hm. rewrite Hm at 1. rewrite <- (positive_nat_Z p) at 2. rewrite shr_exact; [done|]. apply Z.div_pos; [lia|apply pow_pos; lia].
Qed.

Lemma nearest_cases q l : round_nearest_even q l = q \/ (round_nearest_even q l = q + 1 /\ l <> loc_Exact).
Proof. destruct l as [|[]]; simpl; try (destruct (Z.even q)); auto; by right. Qed.

Lemma fexp_ge d : -1074 <= fexp fprec femax d /\ d - 53 <= fexp fprec femax d.
Proof. unfold fexp, emin, fprec, femax. lia. Qed.

Lemma fexp_eq d : fexp fprec femax d = d - 53 \/ (fexp fprec femax d = -1074 /\ d - 53 <= -1074).
Proof. unfold fexp, emin, fprec, femax. lia. Qed.

(** The second shift: a mantissa of at most 53 bits stays, [2^53] becomes [2^52]. *)
Lemma second_shift r e :
  0 < r <= 2 ^ 53 -> -1074 <= e -> (2 ^ 52 <= r \/ e = -1074) ->
  exists mrs m2 e2, shr_fexp fprec femax r e loc_Exact = (mrs, e2) /\ shr_m mrs = Zpos m2 /\ Zpos m2 * 2 ^ (e2 + 1074) = r * 2 ^ (e + 1074)
    /\ Zpos m2 < 2 ^ 53 /\ -1074 <= e2 /\ (2 ^ 52 <= Zpos m2 \/ e2 = -1074).
Proof.
  intros Hr He Hc. destruct r as [|m|m]; [lia| |lia]. pose proof (digits_bounds m) as [Hd1 Hd2].
  set (d := Zpos (digits2_pos m)) in *. destruct (decide (Zpos m = 2 ^ 53)) as [Heq|Hne].
  - assert (d = 54).
    { destruct (Z.lt_trichotomy d 54) as [Hlt|[?|Hgt]]; [|done|].
      - pose proof (pow_le d 53). lia.
      - pose proof (pow_le 54 (d - 1)). pose proof (pow_lt 53 54). lia. }
    assert (Hf : fexp fprec femax (d + e) - e = 1) by (unfold fexp, emin, fprec, femax; lia).
    destruct (shr_fexp_div m e 1 ltac:(lia) Hf) as (mrs & H1 & H2 & _). exists mrs, (2 ^ 52)%positive, (e + 1).
    split; [done|]. rewrite H2, Heq. split; [done|]. split; [|split_and!; [done|lia|by left]].
    replace (e + 1 + 1074) with (1 + (e + 1074)) by lia. rewrite Z.pow_add_r by lia. change (Zpos (2 ^ 52)) with (2 ^ 52).
    rewrite Z.mul_assoc. done.
  - assert (d <= 53).
    { destruct (Z.le_gt_cases d 53) as [|Hgt]; [done|]. pose proof (pow_le 53 (d - 1)). lia. }
    assert (Hf : fexp fprec femax (d + e) - e <= 0) by (unfold fexp, emin, fprec, femax; lia).
    exists (Build_shr_record (Zpos m) false false), m, e. unfold shr_fexp. simpl Zdigits2. fold d.
    split; [destruct (fexp fprec femax (d + e) - e); [done|lia|done]|]. split_and!; [done|done|lia|done|done].
Qed.

(** Rounding [m * 2^e], [e] no more than the exponent it will have. *)
Lemma round_aux_spec m e :
  -1074 <= e -> e <= fexp fprec femax (Zpos (digits2_pos m) + e) ->
  let r := binary_round_aux fprec femax false (Zpos m) e loc_Exact in
  ((r = S754_infinity false \/ nonneg_ok r) /\ flt f0 r = true)
  /\ forall w ew, 0 <= w < 2 ^ 53 -> -1074 <= ew <= 971 -> Zpos m * 2 ^ (e + 1074) <= w * 2 ^ (ew + 1074) ->
       nonneg_ok r /\ units r <= w * 2 ^ (ew + 1074).
Proof.
  intros He Hf. pose proof (digits_bounds m) as [Hd1 Hd2]. set (d := Zpos (digits2_pos m)) in *.
  set (n := fexp fprec femax (d + e) - e). assert (Hn : 0 <= n) by (unfold n; lia).
  destruct (shr_fexp_div m e n Hn eq_refl) as (mrs & Hs & Hq & Hexact). set (q := Zpos m / 2 ^ n) in *.
  pose proof (pow_pos n Hn) as Hpn.
  assert (Hqm : q * 2 ^ n <= Zpos m < (q + 1) * 2 ^ n).
  { pose proof (Z.div_mod (Zpos m) (2 ^ n) ltac:(lia)). pose proof (Z.mod_pos_bound (Zpos m) (2 ^ n) Hpn). fold q in H. nia. }
  assert (Hq0 : 0 <= q) by (unfold q; apply Z.div_pos; lia).
  assert (He1 : -1074 <= e + n) by lia.
  assert (Hq53 : q < 2 ^ 53).
  { assert (d - n <= 53) by (unfold n; pose proof (fexp_ge (d + e)); lia).
    destruct (Z.le_gt_cases n d) as [Hnd|Hnd].
    - assert (q < 2 ^ (d - n)); [|pose proof (pow_le (d - n) 53); lia].
      rewrite (pow_split n d) in Hd2 by lia. nia.
    - assert (q < 1); [|lia]. pose proof (pow_lt d n). nia. }
  assert (Hqn : 2 ^ 52 <= q \/ e + n = -1074).
  { destruct (fexp_eq (d + e)) as [Hx|[Hx _]]; [|right; unfold n; lia]. left.
    assert (Hdn : d - 1 = n + 52) by (unfold n; lia). rewrite Hdn, Z.pow_add_r in Hd1 by lia.
    destruct (Z.le_gt_cases (2 ^ 52) q) as [|Hlt]; [done|]. nia. }
  cbv zeta. unfold binary_round_aux. rewrite Hs.
  set (r1 := round_nearest_even (shr_m mrs) (loc_of_shr_record mrs)).
  assert (Hr1 : r1 = q \/ (r1 = q + 1 /\ q * 2 ^ n < Zpos m)).
  { unfold r1. rewrite Hq. destruct (nearest_cases q (loc_of_shr_record mrs)) as [->|[-> Hl]]; [by left|]. right. split; [done|].
    destruct (Z.lt_trichotomy (q * 2 ^ n) (Zpos m)) as [|[Heq|]]; [done| |lia]. by rewrite Hexact in Hl. }
  assert (Hle : forall w ew, 0 <= w < 2 ^ 53 -> -1074 <= ew <= 971 -> Zpos m * 2 ^ (e + 1074) <= w * 2 ^ (ew + 1074) ->
    r1 * 2 ^ (e + n + 1074) <= w * 2 ^ (ew + 1074)).
  { intros w ew Hw Hew Hle. destruct (Z.le_gt_cases (e + n) ew) as [Hge|Hlt].
    - pose proof (pow_split (e + n + 1074) (ew + 1074) ltac:(lia)) as H1. pose proof (pow_split n (e + n + 1074) ltac:(lia)) as H2.
      replace (e + n + 1074 - n) with (e + 1074) in H2 by lia.
      pose proof (pow_pos (e + 1074) ltac:(lia)) as HE. pose proof (pow_pos (ew + 1074 - (e + n + 1074)) ltac:(lia)) as HV.
      set (E := 2 ^ (e + 1074)) in *. set (V := 2 ^ (ew + 1074 - (e + n + 1074))) in *. set (N := 2 ^ n) in *.
      rewrite H1, H2 in *. assert (HmW : Zpos m <= w * V * N) by nia. assert (r1 <= w * V); [|nia].
      destruct Hr1 as [-> |[-> Hlt]]; nia.
    - destruct Hqn as [Hqn|Hqn]; [|lia]. exfalso.
      pose proof (pow_split n (e + n + 1074) ltac:(lia)) as H2. replace (e + n + 1074 - n) with (e + 1074) in H2 by lia.
      pose proof (pow_split (ew + 1074) (e + n + 1074) ltac:(lia)) as H3. pose proof (pow_le 1 (e + n + 1074 - (ew + 1074)) ltac:(lia)) as H4.
      pose proof (pow_pos (ew + 1074) ltac:(lia)) as HB. pose proof (pow_pos (e + 1074) ltac:(lia)) as HE.
      set (B := 2 ^ (ew + 1074)) in *. set (E := 2 ^ (e + 1074)) in *. set (N := 2 ^ n) in *. set (V := 2 ^ (e + n + 1074 - (ew + 1074))) in *.
      assert (Hm1 : 2 ^ 52 * N <= Zpos m) by nia. assert (Hm2 : 2 ^ 52 * (N * E) <= w * B) by nia.
      rewrite <- H2, H3 in Hm2. change (2 ^ 53) with (2 * 2 ^ 52) in Hw. nia. }
  assert (Hnz : r1 <> 0).
  { destruct Hqn as [Hqn|Hqn]; [lia|]. assert (Hn0 : n = 0) by lia. unfold q in Hr1. rewrite Hn0, Z.div_1_r in Hr1. lia. }
  assert (Hr1b : 0 < r1 <= 2 ^ 53) by (destruct Hr1 as [-> |[-> _]]; lia).
  assert (Hr1c : 2 ^ 52 <= r1 \/ e + n = -1074) by (destruct Hr1 as [-> |[-> _]]; lia).
  destruct (second_shift r1 (e + n) Hr1b He1 Hr1c) as (mrs2 & m2 & e2 & -> & -> & Hval & Hm2 & He2 & Hc2).
  unfold femax, fprec. destruct (e2 <=? 1024 - 53) eqn:Eo; bool_facts.
  - split; [split; [right; simpl; unfold canon_pos; split_and!; try lia; done|done]|]. intros w ew Hw Hew Hb. specialize (Hle w ew Hw Hew Hb).
    split; [simpl; unfold canon_pos; split_and!; try lia; done|]. simpl. by rewrite Hval.
  - split; [split; [by left|done]|]. intros w ew Hw Hew Hb. specialize (Hle w ew Hw Hew Hb). exfalso. rewrite <- Hval in Hle.
    destruct Hc2 as [Hc2|Hc2]; [|lia].
    pose proof (pow_split (ew + 1074) (e2 + 1074) ltac:(lia)) as H3. pose proof (pow_pos (ew + 1074) ltac:(lia)).
    pose proof (pow_le 1 (e2 + 1074 - (ew + 1074)) ltac:(lia)) as H5.
    rewrite H3 in Hle. set (B := 2 ^ (ew + 1074)) in *. set (V := 2 ^ (e2 + 1074 - (ew + 1074))) in *.
    change (2 ^ 53) with (2 * 2 ^ 52) in Hw. nia.
Qed.

(** Normalizing a positive mantissa is rounding an equal one whose exponent is at most the
    one it will have. *)
Lemma normalize_aux m e : -1074 <= e ->
  exists m' e', binary_normalize fprec femax (Zpos m) e false = binary_round_aux fprec femax false (Zpos m') e' loc_Exact
    /\ -1074 <= e' /\ e' <= fexp fprec femax (Zpos (digits2_pos m') + e') /\ Zpos m' * 2 ^ (e' + 1074) = Zpos m * 2 ^ (e + 1074).
Proof.
  intros He. cbn [binary_normalize]. unfold binary_round.
  set (d := Zpos (digits2_pos m)). destruct (Z.le_gt_cases (fexp fprec femax (d + e)) e) as [Hle|Hgt].
  - destruct (shl_align_down m e (fexp fprec femax (d + e)) Hle) as [H1 H2]. destruct (shl_align m e _) as [mz ez]. cbn [fst snd] in *. subst ez.
    pose proof (fexp_ge (d + e)) as [Hge _]. set (e' := fexp fprec femax (d + e)) in *.
    assert (Hd : Zpos (digits2_pos mz) = d + (e - e')) by (apply digits_shift; [lia|done]).
    exists mz, e'. split_and!; [done|lia| |].
    + rewrite Hd. replace (d + (e - e') + e') with (d + e) by lia. fold e'. lia.
    + rewrite H1, <- Z.mul_assoc, <- Z.pow_add_r by lia. do 2 f_equal. lia.
  - rewrite shl_align_up by lia. exists m, e. split_and!; [done|lia| |done]. fold d. lia.
Qed.

Lemma normalize_spec z e :
  0 <= z -> -1074 <= e ->
  let r := binary_normalize fprec femax z e false in
  (r = S754_infinity false \/ nonneg_ok r)
  /\ forall w ew, 0 <= w < 2 ^ 53 -> -1074 <= ew <= 971 -> z * 2 ^ (e + 1074) <= w * 2 ^ (ew + 1074) ->
       nonneg_ok r /\ units r <= w * 2 ^ (ew + 1074).
Proof.
  intros Hz He. cbv zeta. destruct z as [|m|m]; [|destruct (normalize_aux m e He) as (m' & e' & -> & H1 & H2 & <-)|lia].
  - cbn. split; [by right|]. intros w ew Hw Hew _. split; [done|]. pose proof (pow_pos (ew + 1074)). nia.
  - destruct (round_aux_spec m' e' H1 H2) as [[H3 _] H4]. by split.
Qed.

(** Nothing positive rounds to zero, and nothing negative: underflow is gradual. *)
Lemma normalize_sign z e : -1074 <= e -> flt f0 (binary_normalize fprec femax z e false) = (0 <? z).
Proof.
  intros He. destruct z as [|m|m]; [done| |].
  - destruct (normalize_aux m e He) as (m' & e' & -> & H1 & H2 & _). apply round_aux_spec; done.
  - cbn [binary_normalize]. unfold binary_round, binary_round_aux. destruct (shl_align _ _ _). destruct (shr_fexp _ _ _ _ _) as [r1 e3].
    destruct (shr_fexp _ _ _ _ _) as [r2 e4]. destruct (shr_m r2); [done| |done]. by destruct (_ <=? _).
Qed.

Lemma align_units m e e' : -1074 <= e' <= e -> Zpos (fst (shl_align m e e')) * 2 ^ (e' + 1074) = Zpos m * 2 ^ (e + 1074).
Proof.
  intros He. destruct (shl_align_down m e e') as [-> _]; [lia|]. rewrite <- Z.mul_assoc, <- Z.pow_add_r by lia. do 2 f_equal. lia.
Qed.

Lemma units_nonneg x : nonneg_ok x -> 0 <= units x.
Proof. destruct x as [| | |[] m e]; try done. simpl. intros (_ & He & _). pose proof (pow_pos (e + 1074)). lia. Qed.

Lemma units_pos m e : canon_pos m e -> 0 < Zpos m * 2 ^ (e + 1074).
Proof. intros (_ & He & _). pose proof (pow_pos (e + 1074)). lia. Qed.

(** The difference of two nonnegative numbers stays below a representable bound. *)
Lemma fsub_bound x y w ew :
  nonneg_ok x -> nonneg_ok y -> units y <= units x -> 0 <= w < 2 ^ 53 -> -1074 <= ew <= 971 ->
  units x - units y <= w * 2 ^ (ew + 1074) -> nonneg_ok (fsub x y) /\ units (fsub x y) <= w * 2 ^ (ew + 1074).
Proof.
  intros Hx Hy Hle Hw Hew Hb. destruct x as [sx| | |[] mx ex], y as [sy| | |[] my ey]; try done.
  - unfold fsub, SFsub. simpl in *. destruct sx, sy; simpl; split; try done; lia.
  - exfalso. pose proof (units_pos _ _ Hy). simpl in *. lia.
  - simpl in *. split; [done|lia].
  - unfold fsub, SFsub. cbn [cond_Zopp]. simpl in Hx, Hy, Hle, Hb. destruct Hx as (Hx1 & Hx2 & _), Hy as (Hy1 & Hy2 & _).
    set (ez := Z.min ex ey). pose proof (align_units mx ex ez ltac:(lia)) as H1. pose proof (align_units my ey ez ltac:(lia)) as H2.
    pose proof (pow_pos (ez + 1074) ltac:(lia)) as HE.
    apply normalize_spec; [nia|lia|done|done|nia].
Qed.

Lemma fadd_bound x y w ew :
  nonneg_ok x -> nonneg_ok y -> 0 <= w < 2 ^ 53 -> -1074 <= ew <= 971 ->
  units x + units y <= w * 2 ^ (ew + 1074) -> nonneg_ok (fadd x y) /\ units (fadd x y) <= w * 2 ^ (ew + 1074).
Proof.
  intros Hx Hy Hw Hew Hb. destruct x as [sx| | |[] mx ex], y as [sy| | |[] my ey]; try done.
  - unfold fadd, SFadd. simpl in *. destruct sx, sy; simpl; split; try done; lia.
  - simpl in *. split; [done|lia].
  - unfold fadd, SFadd. cbn [cond_Zopp]. simpl in Hx, Hy, Hb. destruct Hx as (Hx1 & Hx2 & _), Hy as (Hy1 & Hy2 & _).
    set (ez := Z.min ex ey). pose proof (align_units mx ex ez ltac:(lia)) as H1. pose proof (align_units my ey ez ltac:(lia)) as H2.
    pose proof (pow_pos (ez + 1074) ltac:(lia)) as HE.
    apply normalize_spec; [nia|lia|done|done|nia].
Qed.

(** On canonical numbers [<=] is the order of their units. *)
Lemma canon_exp_lt m e m' e' : canon_pos m e -> canon_pos m' e' -> e < e' -> Zpos m * 2 ^ (e + 1074) < Zpos m' * 2 ^ (e' + 1074).
Proof.
  intros (H1 & H2 & _) (_ & H4 & H5) Hlt. destruct H5 as [H5|H5]; [|lia].
  pose proof (pow_split (e + 1074) (e' + 1074) ltac:(lia)) as H6. pose proof (pow_le 1 (e' + 1074 - (e + 1074)) ltac:(lia)) as H7.
  pose proof (pow_pos (e + 1074) ltac:(lia)) as HB. rewrite H6. change (2 ^ 53) with (2 * 2 ^ 52) in H1.
  set (B := 2 ^ (e + 1074)) in *. set (V := 2 ^ (e' + 1074 - (e + 1074))) in *. nia.
Qed.

Lemma fle_units x y : nonneg_ok x -> nonneg_ok y -> fle x y = true <-> units x <= units y.
Proof.
  intros Hx Hy. rewrite fle_flt. destruct x as [sx| | |[] mx ex], y as [sy| | |[] my ey]; try done.
  - pose proof (units_pos _ _ Hy). cbn [units]. split; [intros _; lia|done].
  - pose proof (units_pos _ _ Hx). cbn [units]. split; [done|lia].
  - cbn [is_nan]. rewrite !andb_true_r, negb_true_iff, <- not_true_iff_false, flt_key. simpl in Hx, Hy. cbn [units key].
    destruct (Z.lt_trichotomy ex ey) as [Hlt|[->|Hlt]].
    + pose proof (canon_exp_lt _ _ _ _ Hx Hy Hlt). split; [lia|]. intros _ (a & b & [= <-] & [= <-] & Hk). simpl in Hk. lia.
    + destruct Hx as (_ & He & _). pose proof (pow_pos (ey + 1074) ltac:(lia)). split.
      * intros Hn. destruct (Z.le_gt_cases (Zpos mx) (Zpos my)) as [|Hg]; [nia|]. destruct Hn. do 2 eexists. split_and!; [done|done|]. simpl. lia.
      * intros Hu (a & b & [= <-] & [= <-] & Hk). simpl in Hk. nia.
    + pose proof (canon_exp_lt _ _ _ _ Hy Hx Hlt). split; [|lia]. intros Hn. destruct Hn. do 2 eexists. split_and!; [done|done|]. simpl. by left.
Qed.

(** Subtracting a number that the minuend's last place does not absorb takes at least that
    place away. *)
Lemma fsub_falls x y b :
  nonneg_ok x -> nonneg_ok y -> units y <= units x -> units x <= 2 ^ b -> 52 <= b -> 2 ^ (b - 52) <= units y ->
  nonneg_ok (fsub x y) /\ units (fsub x y) < units x.
Proof.
  intros Hx Hy Hle Hb Hb52 Hyb. pose proof (pow_pos (b - 52) ltac:(lia)) as Hp.
  destruct x as [sx| | |[] mx ex]; try done; [simpl in *; lia|]. simpl in Hx, Hle, Hb. pose proof (units_pos _ _ Hx) as Hxp.
  destruct Hx as (H1 & H2 & H3) eqn:EHx. clear EHx.
  assert (Hulp : 2 ^ (ex + 1074) <= units y).
  { destruct H3 as [H3|H3].
    - pose proof (pow_le (ex + 1074) (b - 52)) as Hq. destruct (Z.le_gt_cases (ex + 1074) (b - 52)) as [Hc|Hc]; [lia|]. exfalso.
      pose proof (pow_lt (b - 52) (ex + 1074) ltac:(lia) ltac:(lia)). pose proof (pow_split 52 b ltac:(lia)) as H6. nia.
    - subst ex. simpl. lia. }
  destruct (fsub_bound (S754_finite false mx ex) y (Zpos mx - 1) ex) as [Hok Hu]; [done|done|done|lia|lia| |].
  - cbn [units]. nia.
  - split; [done|]. cbn [units]. pose proof (pow_pos (ex + 1074) ltac:(lia)). nia.
Qed.

(** ** The sign of a difference *)

(** Every number a program holds is one of these. *)
Definition is_double (x : num) : Prop := valid_binary fprec femax x = true.

Lemma double_canon m e : is_double (S754_finite false m e) -> canon_pos m e.
Proof.
  unfold is_double. simpl. unfold bounded, canonical_mantissa, femax, fprec. intros [H1 H2]%andb_prop. bool_facts.
  pose proof (digits_bounds m) as [Hd1 Hd2]. set (d := Zpos (digits2_pos m)) in *.
  unfold fexp, emin in H1. unfold canon_pos. split_and!; [|lia|lia|].
  - pose proof (pow_le d 53 ltac:(lia)). lia.
  - destruct (decide (e = -1074)) as [|Hne]; [by right|]. left. replace (d - 1) with 52 in Hd1 by lia. done.
Qed.

(** A double in units of [2^-1074], an infinity as [2^2098] of them. *)
Definition infinite_worth : Z := 2 ^ 2098.

Definition worth (x : num) : Z :=
  match x with
  | S754_zero _ | S754_nan => 0
  | S754_infinity s => if s then - infinite_worth else infinite_worth
  | S754_finite s m e => cond_Zopp s (Zpos m * 2 ^ (e + 1074))
  end.

Lemma finite_worth s m e : is_double (S754_finite s m e) -> 0 < Zpos m * 2 ^ (e + 1074) < infinite_worth.
Proof.
  intros Hd. assert (Hc : canon_pos m e) by (destruct s; exact (double_canon m e Hd)). pose proof (units_pos m e Hc) as Hp. split; [done|].
  destruct Hc as (H1 & H2 & _). pose proof (pow_le (e + 1074) 2045 ltac:(lia)) as Hl. pose proof (pow_pos (e + 1074) ltac:(lia)).
  assert (E : infinite_worth = 2 ^ 53 * 2 ^ 2045) by (unfold infinite_worth; by rewrite <- Z.pow_add_r). rewrite E.
  set (V := 2 ^ 2045) in *. set (W := 2 ^ (e + 1074)) in *. nia.
Qed.

Lemma finite_order m e m' e' : is_double (S754_finite false m e) -> is_double (S754_finite false m' e') ->
  e < e' \/ (e = e' /\ Zpos m < Zpos m') <-> Zpos m * 2 ^ (e + 1074) < Zpos m' * 2 ^ (e' + 1074).
Proof.
  intros H1%double_canon H2%double_canon. destruct (Z.lt_trichotomy e e') as [Hlt|[->|Hlt]].
  - pose proof (canon_exp_lt _ _ _ _ H1 H2 Hlt). tauto.
  - destruct H1 as (_ & He & _). pose proof (pow_pos (e' + 1074) ltac:(lia)). split; [intros [?|[_ ?]]; nia|]. intros ?. right. nia.
  - pose proof (canon_exp_lt _ _ _ _ H2 H1 Hlt). lia.
Qed.

Lemma worth_lt x y : is_double x -> is_double y -> flt x y = true -> worth x < worth y.
Proof.
  assert (Hf : forall s m e, is_double (S754_finite s m e) -> is_double (S754_finite false m e)) by (by intros []).
  intros Hx Hy (a & b & Ha & Hb & Hk)%flt_key. assert (Hi : 0 < infinite_worth) by by vm_compute.
  destruct x as [sx|[]| |[] mx ex]; try discriminate Ha; injection Ha as <-;
    try (pose proof (finite_worth _ _ _ Hx) as Hwx; apply Hf in Hx);
    destruct y as [sy|[]| |[] my ey]; try discriminate Hb; injection Hb as <-;
    try (pose proof (finite_worth _ _ _ Hy) as Hwy; apply Hf in Hy);
    cbn [key_lt] in Hk; try contradiction; cbn [worth cond_Zopp].
  all: try (generalize dependent infinite_worth; intros; lia).
  - assert (Hk' : ey < ex \/ (ey = ex /\ Zpos my < Zpos mx)) by lia. apply finite_order in Hk'; [|done|done].
    revert Hk'. generalize (Zpos my * 2 ^ (ey + 1074)) (Zpos mx * 2 ^ (ex + 1074)). lia.
  - by apply finite_order.
Qed.

(** What is worth more is greater, and the sign of a difference is that of the order:
    a difference of doubles is never rounded to zero. *)
Lemma flt_worth x y : is_double x -> is_double y -> is_nan x = false -> is_nan y = false -> flt x y = (worth x <? worth y).
Proof.
  intros Hx Hy Nx Ny. destruct (flt x y) eqn:E; symmetry; [by apply Z.ltb_lt, worth_lt|]. apply Z.ltb_ge.
  destruct (flt_total x y Nx Ny) as [?|[Hk|Hlt]]; [congruence| |by apply Z.lt_le_incl, worth_lt].
  destruct (key_eq x y Nx Hk) as [->|(? & ? & -> & ->)]; [done|cbn [worth]; lia].
Qed.

Lemma fsub_sign x y : is_double x -> is_double y -> is_nan x = false -> is_nan y = false -> flt f0 (fsub x y) = flt y x.
Proof.
  intros Hx Hy Nx Ny. rewrite (flt_worth y x) by done.
  destruct x as [sx|sx| |sx mx ex], y as [sy|sy| |sy my ey]; try done;
    repeat match goal with H : is_double (S754_finite ?s ?m ?e) |- _ => pose proof (finite_worth _ _ _ H); assert (canon_pos m e) as (_ & ? & _) by (destruct s; exact (double_canon m e H)); clear H end.
  all: try (by destruct sx, sy).
  all: try (destruct sx, sy; cbn [worth cond_Zopp]; unfold fsub; cbn; symmetry; (apply Z.ltb_lt || apply Z.ltb_ge); lia).
  unfold fsub, SFsub. rewrite normalize_sign by lia. set (ez := Z.min ex ey).
  pose proof (align_units mx ex ez ltac:(lia)) as Ea. pose proof (align_units my ey ez ltac:(lia)) as Eb.
  pose proof (pow_pos (ez + 1074) ltac:(lia)) as Hp. set (a := Zpos (shl_align mx ex ez).1) in *. set (b := Zpos (shl_align my ey ez).1) in *.
  cbn [worth]. rewrite <- Ea, <- Eb. set (E := 2 ^ (ez + 1074)) in *. apply eq_true_iff_eq. rewrite !Z.ltb_lt. clearbody a b E. clear -Hp. destruct sx, sy; cbn [cond_Zopp]; nia.
Qed.
