(* ===== verification/DetMath.v ===== *)
(** * Deterministic functions ([packages/math/src/deterministic-math.ts])

    The transcendental functions two machines must agree on, built from the operations
    IEEE 754 prescribes: a range reduction, a polynomial for each kernel, and identities.
    Where the code reads and writes the bits of a double through a shared buffer, a double
    is taken apart here into its two 32-bit words. *)

From S2P Require Import Prelude JsMap JsNum JsInt.

Local Open Scope Z_scope.

Definition PI : num := dec 3141592653589793 (-15).
Definition HALF_PI : num := dec 15707963267948966 (-16).
Definition INV_HALF_PI : num := dec 6366197723675814 (-16).
Definition PIO2_1 : num := dec 15707963267341256 (-16).
Definition PIO2_2 : num := dec 6077100506303966 (-26).
Definition PIO2_2T : num := dec 20222662487959506 (-37).

Definition f1 : num := of_Z 1.
Definition f2 : num := of_Z 2.
Definition f4 : num := of_Z 4.
Definition half : num := dec 5 (-1).
Definition fm1 : num := of_Z (-1).

(** ** Sine and cosine *)

Definition reduceQuadrant (x : num) : num * num :=
  (let n := fround (x * INV_HALF_PI) in
   if n === f0 then (f0, x)
   else
     let head := x - n * PIO2_1 in
     let mid := head - n * PIO2_2 in
     let tail := n * PIO2_2T - (head - mid - n * PIO2_2) in
     (frem (frem n f4 + f4) f4, mid - tail))%num.

Definition sinKernel (x : num) : num :=
  (let z := x * x in
   let p := dec (-16666666666666632) (-17) +
            z * (dec 83333333333224895 (-19) +
            z * (dec (-19841269829857949) (-20) +
            z * (dec 27557313707070068 (-22) +
            z * (dec (-25050760253406863) (-24) + z * dec 15896909952115501 (-26))))) in
   x + x * z * p)%num.

Definition cosKernel (x : num) : num :=
  (let z := x * x in
   let p := dec 41666666666666602 (-18) +
            z * (dec (-13888888888874109) (-19) +
            z * (dec 24801587289476729 (-21) +
            z * (dec (-27557314351390663) (-23) +
            z * (dec 20875723212981748 (-25) - z * dec 11359647557788195 (-27))))) in
   let hz := half * z in
   let w := f1 - hz in
   w + (f1 - w - hz + z * z * p))%num.

Definition sin (x : num) : num :=
  if is_nan x then NaN
  else if negb (isFinite x) then NaN
  else if feq x f0 then x
  else
    let '(q, r) := reduceQuadrant x in
    if feq q f0 then sinKernel r
    else if feq q f1 then cosKernel r
    else if feq q f2 then fneg (sinKernel r)
    else fneg (cosKernel r).

Definition cos (x : num) : num :=
  if is_nan x then NaN
  else if negb (isFinite x) then NaN
  else
    let '(q, r) := reduceQuadrant x in
    if feq q f0 then cosKernel r
    else if feq q f1 then fneg (sinKernel r)
    else if feq q f2 then fneg (cosKernel r)
    else sinKernel r.

Definition tan (x : num) : num :=
  let c := cos x in
  if feq c f0 then if flt f0 x then Infinity else NegInfinity else fdiv (sin x) c.

(** ** Arc tangent *)

Definition ATAN_COEFFICIENTS : list num :=
  (fun '(s, k) => fdiv (of_Z s) (of_Z k)) <$>
  [(1, 33); (-1, 31); (1, 29); (-1, 27); (1, 25); (-1, 23); (1, 21); (-1, 19); (1, 17); (-1, 15); (1, 13); (-1, 11); (1, 9); (-1, 7); (1, 5); (-1, 3)].

Definition atanKernel (x : num) : num :=
  (let z := x * x in
   let poly := foldl (fun poly c => c + z * poly) f0 ATAN_COEFFICIENTS in
   x + x * z * poly)%num.

Definition QUARTER_PI : num := dec 7853981633974483 (-16).

Definition atan (x : num) : num :=
  if is_nan x then NaN
  else if feq x f0 then x
  else if feq x Infinity then HALF_PI
  else if feq x NegInfinity then fneg HALF_PI
  else
    let negate := flt x f0 in
    let a := if negate then fneg x else x in
    let recip := flt f1 a in
    let a := if recip then fdiv f1 a else a in
    let result :=
      if flt (dec 4142135623730950488 (-19)) a then fadd QUARTER_PI (atanKernel (fdiv (fsub a f1) (fadd a f1)))
      else atanKernel a in
    let result := if recip then fsub HALF_PI result else result in
    if negate then fneg result else result.

Definition is_neg0 (x : num) : bool := match x with S754_zero true => true | _ => false end.

Definition atan2 (y x : num) : num :=
  if is_nan y || is_nan x then NaN
  else if feq y f0 then
    if flt f0 x || (feq x f0 && flt f0 (fdiv f1 x)) then if is_neg0 y then neg0 else f0
    else if is_neg0 y then fneg PI else PI
  else if feq x f0 then if flt f0 y then HALF_PI else fneg HALF_PI
  else if negb (isFinite y) then
    if negb (isFinite x) then
      let q := if flt f0 x then QUARTER_PI else dec 2356194490192345 (-15) in
      if flt f0 y then q else fneg q
    else if flt f0 y then HALF_PI else fneg HALF_PI
  else if negb (isFinite x) then
    if flt f0 x then if flt y f0 then neg0 else f0
    else if flt f0 y then PI else fneg PI
  else
    let a := atan (fdiv y x) in
    if flt x f0 then fadd a (if fle f0 y then PI else fneg PI) else a.

Definition out_of_unit (x : num) : bool := is_nan x || flt x fm1 || flt f1 x.

Definition asin (x : num) : num :=
  if out_of_unit x then NaN
  else if feq x f1 then HALF_PI
  else if feq x fm1 then fneg HALF_PI
  else atan2 x (fsqrt (fsub f1 (fmul x x))).

Definition acos (x : num) : num :=
  if out_of_unit x then NaN
  else if feq x f1 then f0
  else if feq x fm1 then PI
  else atan2 (fsqrt (fsub f1 (fmul x x))) x.

(** ** The bits of a double *)

Definition bits_of (x : num) : Z :=
  let sign (s : bool) := if s then 2 ^ 63 else 0 in
  match x with
  | S754_zero s => sign s
  | S754_infinity s => sign s + 2047 * 2 ^ 52
  | S754_nan => 2047 * 2 ^ 52 + 2 ^ 51
  | S754_finite s m e => sign s + (if Zpos m <? 2 ^ 52 then Zpos m else (e + 1075) * 2 ^ 52 + (Zpos m - 2 ^ 52))
  end.

Definition of_bits (z : Z) : num :=
  let s := 2 ^ 63 <=? z in
  let e := Z.shiftr z 52 mod 2048 in
  let m := z mod 2 ^ 52 in
  if e =? 2047 then if m =? 0 then S754_infinity s else NaN
  else if e =? 0 then match m with Zpos m => S754_finite s m (-1074) | _ => S754_zero s end
  else match m + 2 ^ 52 with Zpos m => S754_finite s m (e - 1075) | _ => NaN end.

(** [scratch32[HI]] and [scratch32[LO]]. *)
Definition hi_word (x : num) : Z := Z.shiftr (bits_of x) 32.
Definition lo_word (x : num) : Z := bits_of x mod 2 ^ 32.
Definition of_words (hi lo : Z) : num := of_bits (Z.shiftl (hi mod 2 ^ 32) 32 + lo).

Definition pow2 (k : Z) : num := of_words (Z.shiftl (k + 1023) 20) 0.

Definition TWO1023 : num := pow2 1023.
Definition TWO_M969 : num := pow2 (-969).
Definition TWO54 : num := pow2 54.

Definition scalbn (m : num) (k : Z) : num :=
  let '(m, k) :=
    if 1023 <? k then
      let m := fmul m TWO1023 in let k := k - 1023 in
      if 1023 <? k then
        let m := fmul m TWO1023 in let k := k - 1023 in
        (m, if 1023 <? k then 1023 else k)
      else (m, k)
    else if k <? -1022 then
      let m := fmul m TWO_M969 in let k := k + 969 in
      if k <? -1022 then
        let m := fmul m TWO_M969 in let k := k + 969 in
        (m, if k <? -1022 then -1022 else k)
      else (m, k)
    else (m, k) in
  fmul m (pow2 k).

(** ** Exponential and logarithm *)

Definition LN2_HI : num := dec 6931471803691238 (-16).
Definition LN2_LO : num := dec 19082149292705877 (-26).
Definition INV_LN2 : num := dec 14426950408889634 (-16).

(** [exp] of what is neither special nor out of range: the count of halvings and the rest. *)
Definition exp_kernel (x k : num) : num :=
  (let r := x - k * LN2_HI - k * LN2_LO in
   let r2 := r * r in
   let c := r - r2 * (dec 16666666666666602 (-17) - r2 * (dec 27777777777015593 (-19) -
            r2 * (dec 6613756321437934 (-20) - r2 * (dec 16533902205465252 (-22) - r2 * dec 41381367970572385 (-24))))) in
   f1 + r + (r * c) / (f2 - c))%num.

Definition exp (x : num) : num :=
  if is_nan x then NaN
  else if feq x f0 then f1
  else if feq x Infinity then Infinity
  else if feq x NegInfinity then f0
  else if flt (dec 709782712893384 (-12)) x then Infinity
  else if flt x (dec (-74513321910194) (-11)) then f0
  else
    let k := fround (fmul x INV_LN2) in
    let expR := exp_kernel x k in
    if feq k f0 then expR else match to_Z k with Some k => scalbn expR k | None => NaN end.

(** [x] as a power of two and a factor between the square roots of a half and of two. *)
Definition split_log (x : num) : Z * num :=
  let hi := hi_word x in
  let '(x, hi, e) := if Z.land (Z.shiftr hi 20) 2047 =? 0 then let y := fmul x TWO54 in (y, hi_word y, -54) else (x, hi, 0) in
  let e := e + (Z.land (Z.shiftr hi 20) 2047 - 1023) in
  let hi := Z.land hi 1048575 in
  let around := Z.land (hi + 614244) 1048576 in
  (e + Z.shiftr around 20, of_words (Z.lor hi (Z.lxor around 1072693248)) (lo_word x)).

Definition log (x : num) : num :=
  if is_nan x then NaN
  else if flt x f0 then NaN
  else if feq x f0 then NegInfinity
  else if feq x Infinity then Infinity
  else if feq x f1 then f0
  else
    let '(ez, m) := split_log x in
    (let e := of_Z ez in
     let f := m - f1 in
     let s := f / (f2 + f) in
     let s2 := s * s in
     let s4 := s2 * s2 in
     let t1 := s2 * (dec 6666666666666735 (-16) + s4 * (dec 2857142874366239 (-16) + s4 * (dec 1818357216161805 (-16) + s4 * dec 14798198605116586 (-17)))) in
     let t2 := s4 * (dec 3999999999940942 (-16) + s4 * (dec 22222198432149784 (-17) + s4 * dec 15313837699209373 (-17))) in
     let R := t1 + t2 in
     e * LN2_HI - (s * (f - R) - e * LN2_LO - f))%num.

(** ** Powers *)

(** The loop over the bits of an exponent below 53. *)
Fixpoint pow_loop (fuel : nat) (n : Z) (b result : num) : num :=
  match fuel with
  | O => result
  | S fuel =>
      if 0 <? n then
        let result := if Z.odd n then fmul result b else result in
        pow_loop fuel (Z.shiftr n 1) (fmul b b) result
      else result
  end.

Definition odd_integer (x : num) : bool := isInteger x && negb (feq (frem x f2) f0).

Definition pow (base exponent : num) : num :=
  if feq exponent f0 then f1
  else if feq exponent f1 then base
  else if is_nan base || is_nan exponent then NaN
  else if feq base f1 then f1
  else if feq base f0 then if flt f0 exponent then f0 else if flt exponent f0 then Infinity else f1
  else if feq base Infinity then if flt f0 exponent then Infinity else f0
  else if feq base NegInfinity then
    if flt f0 exponent then if odd_integer exponent then NegInfinity else Infinity
    else if flt exponent f0 then if odd_integer exponent then neg0 else f0
    else f1
  else
    match to_Z exponent with
    | Some n =>
        if Z.abs n <? 53 then
          let result := pow_loop 6 (Z.abs n) base f1 in
          if flt exponent f0 then fdiv f1 result else result
        else
          let sign := if flt base f0 && odd_integer exponent then fm1 else f1 in
          fmul sign (exp (fmul exponent (log (fabs base))))
    | None =>
        if flt base f0 then NaN
        else fmul f1 (exp (fmul exponent (log (fabs base))))
    end.

(** ** What derives *)

Definition expm1 (x : num) : num :=
  if flt (fabs x) (dec 1 (-5)) then (x + half * x * x)%num else fsub (exp x) f1.

Definition log1p (x : num) : num :=
  if feq x fm1 then NegInfinity
  else if flt (fabs x) (dec 1 (-4)) then (x * (f1 - x * (half - x / of_Z 3)))%num
  else log (fadd f1 x).

Definition log2 (x : num) : num := fmul (log x) INV_LN2.
Definition log10 (x : num) : num := fmul (log x) (dec 4342944819032518 (-16)).

Definition sinh (x : num) : num :=
  if flt (fabs x) (dec 1 (-5)) then x else let e := exp x in ((e - f1 / e) * half)%num.
Definition cosh (x : num) : num := let e := exp x in ((e + f1 / e) * half)%num.
Definition tanh (x : num) : num :=
  if flt (of_Z 20) x then f1 else if flt x (of_Z (-20)) then fm1
  else let u := expm1 (fmul f2 x) in fdiv u (fadd u f2).

Definition asinh (x : num) : num :=
  if feq x Infinity || feq x NegInfinity then x else log (fadd x (fsqrt (fadd (fmul x x) f1))).
Definition acosh (x : num) : num := if flt x f1 then NaN else log (fadd x (fsqrt (fsub (fmul x x) f1))).
Definition atanh (x : num) : num :=
  if fle x fm1 || fle f1 x then if feq x fm1 then NegInfinity else if feq x f1 then Infinity else NaN
  else fmul half (log (fdiv (fadd f1 x) (fsub f1 x))).

Definition cbrt (x : num) : num :=
  if feq x f0 || is_nan x then x
  else fmul (if flt x f0 then fm1 else f1) (pow (fabs x) (fdiv f1 (of_Z 3))).

Definition hypot (x y : num) : num :=
  let x := fabs x in let y := fabs y in
  if feq x Infinity || feq y Infinity then Infinity
  else if is_nan x || is_nan y then NaN
  else if feq x f0 then y
  else if feq y f0 then x
  else
    let m := fmax x y in
    let r := fdiv (fmin x y) m in
    fmul m (fsqrt (fadd f1 (fmul r r))).

(** ** Doubles as words *)

(** The finite doubles: 53 bits above the subnormal exponent, fewer at it. *)
Definition normal (m : positive) (e : Z) : Prop := 2 ^ 52 <= Zpos m < 2 ^ 53 /\ -1074 <= e <= 971.
Definition subnormal (m : positive) (e : Z) : Prop := Zpos m < 2 ^ 52 /\ e = -1074.

Lemma digits_53 m : 2 ^ 52 <= Zpos m < 2 ^ 53 <-> Zpos (digits2_pos m) = 53.
Proof.
  rewrite digits_log2. split; intros H.
  - rewrite (Z.log2_unique (Zpos m) 52) by lia. done.
  - replace 53 with (Z.succ 52) by done. assert (Hl : Z.log2 (Zpos m) = 52) by lia.
    rewrite <- Hl at 1 2. by apply Z.log2_spec.
Qed.

Lemma bounded_cases m e : bounded fprec femax m e = true <-> normal m e \/ subnormal m e.
Proof.
  unfold bounded, canonical_mantissa, normal, subnormal, fexp, emin, fprec, femax. rewrite digits_53.
  pose proof (digits_bounds m) as Hb. set (d := Zpos (digits2_pos m)) in *. assert (1 <= d) by (unfold d; lia).
  split.
  - intros [H1 H2]%andb_true_iff. destruct (decide (d = 53)); [left; lia|right].
    split; [|lia]. apply Z.lt_le_trans with (2 ^ d); [lia|]. apply Z.pow_le_mono_r; lia.
  - intros [[? ?]|[Hm He]]; apply andb_true_iff; split; try lia.
    assert (d <= 52) by (by apply digits_le). lia.
Qed.

(** A product whose exact value is a finite double is that double. *)
Lemma fmul_exact s s' m e my ey q e' n :
  bounded fprec femax q e' = true -> 0 <= n -> Zpos m * Zpos my = Zpos q * 2 ^ n -> e' = e + ey + n ->
  fmul (S754_finite s m e) (S754_finite s' my ey) = S754_finite (xorb s s') q e'.
Proof.
  intros [Hc He]%andb_true_iff Hn Hm ->. unfold canonical_mantissa in Hc.
  pose proof (digits_shift q n (m * my) Hn ltac:(lia)) as Hd.
  unfold fmul, SFmul. rewrite (round_exact _ (m * my) (Zpos q) (e + ey) n).
  - done.
  - done.
  - done.
  - lia.
  - rewrite Hd. replace (Zpos (digits2_pos q) + n + (e + ey)) with (Zpos (digits2_pos q) + (e + ey + n)) by lia. lia.
  - simpl Z.to_pos. lia.
  - unfold femax, fprec in He. lia.
Qed.

Lemma bits_normal m e : normal m e -> bits_of (S754_finite false m e) = (e + 1075) * 2 ^ 52 + (Zpos m - 2 ^ 52).
Proof. intros [Hm He]. unfold bits_of. destruct (Z.ltb_spec (Zpos m) (2 ^ 52)); lia. Qed.

Lemma of_bits_normal m e : normal m e -> of_bits ((e + 1075) * 2 ^ 52 + (Zpos m - 2 ^ 52)) = S754_finite false m e.
Proof.
  intros [Hm He]. unfold of_bits. rewrite Z.shiftr_div_pow2 by done.
  set (z := (e + 1075) * 2 ^ 52 + (Zpos m - 2 ^ 52)).
  assert (Hd : z / 2 ^ 52 = e + 1075) by (unfold z; Z.div_mod_to_equations; lia).
  assert (Hr : z mod 2 ^ 52 = Zpos m - 2 ^ 52) by (unfold z; Z.div_mod_to_equations; lia).
  rewrite Hd, Hr, (Z.mod_small (e + 1075)) by lia.
  destruct (Z.leb_spec (2 ^ 63) z); [unfold z in *; lia|].
  destruct (Z.eqb_spec (e + 1075) 2047); [lia|]. destruct (Z.eqb_spec (e + 1075) 0); [lia|].
  replace (Zpos m - 2 ^ 52 + 2 ^ 52) with (Zpos m) by lia. f_equal. lia.
Qed.

Lemma pow2_exact k : -1022 <= k <= 1023 -> pow2 k = S754_finite false (2 ^ 52) (k - 52).
Proof.
  intros Hk. unfold pow2, of_words. rewrite <- (of_bits_normal (2 ^ 52) (k - 52)) by (split; lia).
  f_equal. rewrite !Z.shiftl_mul_pow2 by done. rewrite Z.mod_small by lia. lia.
Qed.

Lemma land_bit20 a : 0 <= a < 2 ^ 21 -> Z.land a 1048576 = if a <? 2 ^ 20 then 0 else 2 ^ 20.
Proof.
  intros Ha. change 1048576 with (2 ^ 20).
  apply Z.bits_inj'. intros n Hn. rewrite Z.land_spec, Z.pow2_bits_eqb by done.
  destruct (Z.eqb_spec 20 n) as [<-|Hne].
  - rewrite andb_true_r. destruct (Z.ltb_spec a (2 ^ 20)).
    + rewrite Z.bits_0, Z.testbit_eqb, Z.div_small by lia. done.
    + rewrite Z.testbit_eqb, Z.pow2_bits_eqb by lia. assert (a / 2 ^ 20 = 1) as -> by (Z.div_mod_to_equations; lia). done.
  - rewrite andb_false_r. destruct (a <? 2 ^ 20); [by rewrite Z.bits_0|]. rewrite Z.pow2_bits_eqb by lia. by destruct (Z.eqb_spec 20 n).
Qed.

Lemma lor_high h c : 0 <= h < 2 ^ 20 -> 0 <= c -> Z.lor h (c * 2 ^ 20) = h + c * 2 ^ 20.
Proof.
  intros Hh Hc. rewrite <- (Z.add_lor_land h). assert (Z.land h (c * 2 ^ 20) = 0) as ->; [|lia].
  apply Z.bits_inj'. intros n Hn. rewrite Z.land_spec, Z.bits_0. destruct (Z.lt_ge_cases n 20) as [Hl|Hg].
  - by rewrite Z.mul_pow2_bits_low, andb_false_r by done.
  - rewrite (Z.testbit_eqb h n), Z.div_small by done || (split; [lia|]; apply Z.lt_le_trans with (2 ^ 20); [lia|]; apply Z.pow_le_mono_r; lia).
    done.
Qed.

(** The mantissa whose high word is the one the split turns at. *)
Definition SPLIT : Z := 2 ^ 52 + 434332 * 2 ^ 32.

(** The words of a normal double: its exponent and the two ends of its mantissa. *)
Lemma words_normal m e : normal m e ->
  Z.land (Z.shiftr (hi_word (S754_finite false m e)) 20) 2047 = e + 1075 /\
  Z.land (hi_word (S754_finite false m e)) 1048575 = (Zpos m - 2 ^ 52) / 2 ^ 32 /\
  lo_word (S754_finite false m e) = Zpos m mod 2 ^ 32.
Proof.
  intros H. pose proof H as [Hm He]. unfold hi_word, lo_word. rewrite (bits_normal _ _ H).
  change 2047 with (Z.ones 11). change 1048575 with (Z.ones 20). rewrite !Z.land_ones, Z.shiftr_shiftr, !Z.shiftr_div_pow2 by done.
  change (2 ^ (32 + 20)) with (2 ^ 52). repeat split; Z.div_mod_to_equations; lia.
Qed.

Lemma split_tail m e (lo : bool) : normal m e -> lo = (Zpos m <? SPLIT) ->
  let hi := Z.land (hi_word (S754_finite false m e)) 1048575 in
  let around := Z.land (hi + 614244) 1048576 in
  Z.shiftr around 20 = (if lo then 0 else 1) /\
  of_words (Z.lor hi (Z.lxor around 1072693248)) (lo_word (S754_finite false m e))
    = S754_finite false m (if lo then -52 else -53).
Proof.
  intros H Hlo. pose proof H as [Hm He]. destruct (words_normal m e H) as (_ & -> & ->).
  set (h := (Zpos m - 2 ^ 52) / 2 ^ 32). assert (Hh : 0 <= h < 2 ^ 20) by (unfold h; Z.div_mod_to_equations; lia).
  cbv zeta. rewrite land_bit20 by lia.
  assert (Hl : (h + 614244 <? 2 ^ 20) = lo).
  { subst lo. unfold SPLIT. apply eq_true_iff_eq. rewrite !Z.ltb_lt. unfold h. Z.div_mod_to_equations. lia. }
  rewrite Hl. split; [by destruct lo|].
  assert (Hw : Z.lor h (Z.lxor (if lo then 0 else 2 ^ 20) 1072693248) = h + (if lo then 1023 else 1022) * 2 ^ 20).
  { destruct lo; [change (Z.lxor 0 1072693248) with (1023 * 2 ^ 20)|change (Z.lxor (2 ^ 20) 1072693248) with (1022 * 2 ^ 20)]; by apply lor_high. }
  rewrite Hw. unfold of_words. rewrite Z.shiftl_mul_pow2, Z.mod_small by (destruct lo; lia).
  rewrite <- (of_bits_normal m (if lo then -52 else -53)) by (split; [done|destruct lo; lia]).
  f_equal. unfold h. destruct lo; Z.div_mod_to_equations; lia.
Qed.

(** Scaling by a power of two that leaves a finite double. *)
Lemma fmul_pow2 m e q e' k n :
  -1022 <= k <= 1023 -> bounded fprec femax q e' = true -> 0 <= n -> Zpos m * 2 ^ 52 = Zpos q * 2 ^ n -> e' = e + (k - 52) + n ->
  fmul (S754_finite false m e) (pow2 k) = S754_finite false q e'.
Proof. intros Hk Hb Hn Hq He. rewrite pow2_exact by done. by apply (fmul_exact false false) with n. Qed.

Lemma normal_bounded m e : normal m e -> bounded fprec femax m e = true.
Proof. intros H. apply bounded_cases. by left. Qed.

(** What [split_log] gives for a normal double. *)
Lemma split_normal m e : normal m e -> let hi := negb (Zpos m <? SPLIT) in
  split_log (S754_finite false m e) = (e + 52 + Z.b2z hi, S754_finite false m (-52 - Z.b2z hi)).
Proof.
  intros H. pose proof H as [_ He]. destruct (words_normal m e H) as (Hw & _). destruct (split_tail m e _ H eq_refl) as [T1 T2]. cbv zeta in *.
  unfold split_log. rewrite Hw. destruct (Z.eqb_spec (e + 1075) 0); [lia|]. rewrite Hw, T1, T2.
  destruct (Zpos m <? SPLIT); cbn [negb Z.b2z]; f_equal; lia.
Qed.

(** A subnormal scaled up by [TWO54]: its digits shifted to the top. *)
Lemma subnormal_up m e : subnormal m e ->
  let d := Zpos (digits2_pos m) in
  exists q, Zpos q = Zpos m * 2 ^ (53 - d) /\ 1 <= d <= 52 /\ normal q (d - 1073) /\ fmul (S754_finite false m e) TWO54 = S754_finite false q (d - 1073).
Proof.
  intros [Hm ->] d. pose proof (digits_bounds m) as Hb. fold d in Hb.
  assert (Hd : 1 <= d <= 52) by (split; [unfold d; lia|by apply digits_le]).
  pose proof (Z.pow_pos_nonneg 2 (53 - d) ltac:(lia) ltac:(lia)) as Hp.
  destruct (Zpos m * 2 ^ (53 - d)) as [|q|q] eqn:Eq; [lia| |lia]. exists q.
  assert (Hq : normal q (d - 1073)).
  { split; [|lia]. rewrite <- Eq.
    assert (E1 : 2 ^ 52 = 2 ^ (d - 1) * 2 ^ (53 - d)) by (rewrite <- Z.pow_add_r by lia; f_equal; lia).
    assert (E2 : 2 ^ 53 = 2 ^ d * 2 ^ (53 - d)) by (rewrite <- Z.pow_add_r by lia; f_equal; lia). rewrite E1, E2. nia. }
  split_and!; [done|lia|lia|done|]. apply fmul_pow2 with (d - 1); [lia|by apply normal_bounded|lia| |lia].
  rewrite <- Eq, <- Z.mul_assoc, <- Z.pow_add_r by lia. do 2 f_equal. lia.
Qed.

(** Scaling a factor back, where the result is a normal double or a subnormal one. *)
Lemma scalbn_normal m e (b : bool) : normal m e ->
  scalbn (S754_finite false m (-52 - Z.b2z b)) (e + 52 + Z.b2z b) = S754_finite false m e.
Proof.
  intros H. pose proof H as [Hm He]. pose proof (normal_bounded m e H) as Hb. unfold scalbn.
  destruct (Z.ltb_spec 1023 (e + 52 + Z.b2z b)) as [Hlt|Hge].
  - assert (b = true /\ e = 971) as [-> ->] by (destruct b; cbn [Z.b2z] in *; split; (done || lia)). cbn [Z.b2z].
    assert (E : fmul (S754_finite false m (-52 - 1)) TWO1023 = S754_finite false m 970)
      by (apply fmul_pow2 with 52; [lia|by apply normal_bounded; split|lia|done|lia]).
    rewrite E. cbn. apply fmul_pow2 with 52; [lia|done|lia|done|lia].
  - destruct (Z.ltb_spec (e + 52 + Z.b2z b) (-1022)) as [Hlt|Hge']; [destruct b; cbn [Z.b2z] in *; lia|].
    apply fmul_pow2 with 52; [lia|done|lia|done|destruct b; cbn [Z.b2z]; lia].
Qed.

Lemma scalbn_subnormal m q (b : bool) : let d := Zpos (digits2_pos m) in
  subnormal m (-1074) -> 1 <= d <= 52 -> Zpos q = Zpos m * 2 ^ (53 - d) -> 2 ^ 52 <= Zpos q < 2 ^ 53 ->
  scalbn (S754_finite false q (-52 - Z.b2z b)) (-54 + (d - 1073 + 52 + Z.b2z b)) = S754_finite false m (-1074).
Proof.
  intros d Hs Hd Hq Hqb. assert (Hb : bounded fprec femax m (-1074) = true) by (apply bounded_cases; by right). unfold scalbn.
  assert (Hv : Zpos q * 2 ^ 52 = Zpos m * 2 ^ (105 - d)) by (rewrite Hq, <- Z.mul_assoc, <- Z.pow_add_r by lia; do 2 f_equal; lia).
  set (k := -54 + (d - 1073 + 52 + Z.b2z b)). assert (Hk : k = d - 1075 + Z.b2z b) by (unfold k; lia). clearbody k.
  destruct (Z.ltb_spec 1023 k) as [|_]; [destruct b; cbn [Z.b2z] in *; lia|]. destruct (Z.ltb_spec k (-1022)) as [Hlt|Hge].
  - assert (E : fmul (S754_finite false q (-52 - Z.b2z b)) TWO_M969 = S754_finite false q (-1021 - Z.b2z b)).
    { apply fmul_pow2 with 52; [lia| |lia|done|lia]. apply normal_bounded. split; [done|]. destruct b; cbn [Z.b2z]; lia. }
    rewrite E. destruct (Z.ltb_spec (k + 969) (-1022)) as [|_]; [destruct b; cbn [Z.b2z] in *; lia|].
    apply fmul_pow2 with (105 - d); [destruct b; cbn [Z.b2z] in *; lia|done|lia|done|lia].
  - apply fmul_pow2 with (105 - d); [destruct b; cbn [Z.b2z] in *; lia|done|lia|done|destruct b; cbn [Z.b2z] in *; lia].
Qed.

Lemma subnormal_words m e : subnormal m e -> Z.land (Z.shiftr (hi_word (S754_finite false m e)) 20) 2047 = 0.
Proof.
  intros [Hm _]. unfold hi_word, bits_of. destruct (Z.ltb_spec (Zpos m) (2 ^ 52)); [|lia]. rewrite Z.shiftr_shiftr, Z.shiftr_div_pow2 by done.
  by rewrite Z.div_small by lia.
Qed.

(** ** Properties *)

(** C38. Taking a number apart for [log] loses nothing, and [scalbn] puts it back. For every
    positive finite double, subnormal ones too: the factor [split_log] returns lies from the
    double whose mantissa is [SPLIT], the one just below the square root of a half, up to
    twice that, and scaling it by the power of two it returns gives the number, exactly. *)
Theorem scalbn_undoes_split (x : num) :
  valid_binary fprec femax x = true -> flt f0 x = true -> isFinite x = true ->
  let '(k, f) := split_log x in
  scalbn f k = x
  /\ exists m d, f = S754_finite false m d /\ 2 ^ 52 <= Zpos m < 2 ^ 53 /\ (if Zpos m <? SPLIT then d = -52 else d = -53).
Proof.
  intros Hv Hp Hf. destruct x as [[]|[]| |[] m e]; try discriminate Hp; try discriminate Hf; try discriminate Hv. change (bounded fprec femax m e = true) in Hv. apply bounded_cases in Hv as [H|H].
  - rewrite split_normal by done. split; [by apply scalbn_normal|]. exists m, (-52 - Z.b2z (negb (Zpos m <? SPLIT))).
    split_and!; [done|apply H..|]. by destruct (Zpos m <? SPLIT).
  - destruct (subnormal_up m e H) as (q & Eq & Hd & Hn & Ey). set (d := Zpos (digits2_pos m)) in *.
    assert (Hs : split_log (S754_finite false m e) = (-54 + (d - 1073 + 52 + Z.b2z (negb (Zpos q <? SPLIT))), S754_finite false q (-52 - Z.b2z (negb (Zpos q <? SPLIT))))).
    { destruct (words_normal q _ Hn) as (Hw & _). destruct (split_tail q _ _ Hn eq_refl) as [T1 T2]. cbv zeta in *.
      unfold split_log. rewrite (subnormal_words m e H), Ey, Z.eqb_refl, Hw, T1, T2.
      destruct (Zpos q <? SPLIT); cbn [negb Z.b2z]; f_equal; lia. }
    rewrite Hs. destruct H as [Hm ->]. destruct Hn as [Hn _]. split; [by apply scalbn_subnormal|].
    exists q, (-52 - Z.b2z (negb (Zpos q <? SPLIT))). split_and!; [done|lia|lia|]. by destruct (Zpos q <? SPLIT).
Qed.

(** The least double, which [log] scales up before it takes it apart. *)
Lemma scalbn_undoes_split_witness :
  split_log (S754_finite false 1 (-1074)) = (-1074, f1) /\ scalbn f1 (-1074) = S754_finite false 1 (-1074).
Proof.
  pose proof (scalbn_undoes_split (S754_finite false 1 (-1074)) eq_refl eq_refl eq_refl) as H.
  assert (E : split_log (S754_finite false 1 (-1074)) = (-1074, f1)) by (vm_compute; reflexivity).
  split; [exact E|]. rewrite E in H. exact (proj1 H).
Defined.
