(* ===== verification/ScopeTree.v ===== *)
(** * The scope tree ([packages/core/src/dispatch/scope-tree.ts])

    Runtime, host, invocation: destroying a host ends every invocation under it. An
    invocation is an object shared by the tree and by whoever started it, so it lives
    in a store and its id names it; a tree is the ids in each host's [Set] and in the
    [Map] of invocations. The id counter is module-level and shared with the hosts.
    No code sets an invocation's [cancel] hook, which stays [null]. *)

From stdpp Require Import functions.
From S2P Require Import Prelude JsMap Json.

Local Open Scope Z_scope.

Abbreviation ScopeId := Z.
Definition NO_SCOPE : ScopeId := 0.

Record GuardOwner := MkOwner { ow_id : Z; className : jstr; ow_hostScopeId : ScopeId }.

Record InvocationScope := MkInvocation {
  hostId : ScopeId;
  startTick : Z;
  owner : option GuardOwner;
  dead : bool;
  concurrencyKey : jstr;
}.

Record ScopeTree := MkTree {
  nextId : ScopeId;
  scope : ScopeId -> InvocationScope;
  hostScopes : jsmap ScopeId (jsset ScopeId);
  invocations : jsset ScopeId;
}.

Definition no_invocation : InvocationScope := MkInvocation NO_SCOPE 0 None true [].
Definition new_tree : ScopeTree := MkTree 1 (fun _ => no_invocation) [] [].

Definition createHostScope (t : ScopeTree) : ScopeId * ScopeTree :=
  (nextId t, MkTree (nextId t + 1) (scope t) (mset (hostScopes t) (nextId t) []) (invocations t)).

(** [scope.dead = true]. *)
Definition kill (t : ScopeTree) (id : ScopeId) : ScopeTree :=
  let s := scope t id in
  MkTree (nextId t) (<[id := MkInvocation (hostId s) (startTick s) (owner s) true (concurrencyKey s)]> (scope t))
    (hostScopes t) (invocations t).

Definition forget (t : ScopeTree) (id : ScopeId) : ScopeTree :=
  MkTree (nextId t) (scope t) (hostScopes t) (sdel (invocations t) id).

Definition destroyHostScope (t : ScopeTree) (host : ScopeId) : ScopeTree :=
  match mget (hostScopes t) host with
  | None => t
  | Some invs =>
    let t := foldl (fun t id => forget (kill t id) id) t invs in
    MkTree (nextId t) (scope t) (mdel (hostScopes t) host) (invocations t)
  end.

Definition createInvocation (t : ScopeTree) (host : ScopeId) (tick : Z) (key : jstr) (owner : option GuardOwner) :
    ScopeId * ScopeTree :=
  let id := nextId t in
  let hosts := match mget (hostScopes t) host with
               | Some s => mset (hostScopes t) host (sadd s id)
               | None => hostScopes t
               end in
  (id, MkTree (id + 1) (<[id := MkInvocation host tick owner false key]> (scope t)) hosts (sadd (invocations t) id)).

(** The part [cancelInvocation] and [completeInvocation] share: without a [cancel]
    hook they are the same. *)
Definition endInvocation (t : ScopeTree) (id : ScopeId) : ScopeTree :=
  if dead (scope t id) then t
  else
    let host := hostId (scope t id) in
    let t := kill t id in
    let hosts := match mget (hostScopes t) host with
                 | Some s => mset (hostScopes t) host (sdel s id)
                 | None => hostScopes t
                 end in
    MkTree (nextId t) (scope t) hosts (sdel (invocations t) id).
Definition cancelInvocation := endInvocation.
Definition completeInvocation := endInvocation.

(** Deleting the entry an iteration stands on is well defined, so the ids are taken
    once. *)
Definition sweepAfterTick (t : ScopeTree) (tick : Z) : ScopeTree :=
  foldl (fun t id => if tick <? startTick (scope t id) then cancelInvocation t id else t) t (invocations t).

Definition findRunning (t : ScopeTree) (host : ScopeId) (key : jstr) : option ScopeId :=
  match mget (hostScopes t) host with
  | None => None
  | Some invs =>
    find (fun id => negb (dead (scope t id)) && bool_decide (concurrencyKey (scope t id) = key)) invs
  end.

Definition clear (t : ScopeTree) : ScopeTree :=
  let t := foldl (fun t h => foldl kill t h.2) t (hostScopes t) in
  MkTree (nextId t) (scope t) [] [].

(** ** Invariant *)

Record wf (t : ScopeTree) : Prop := {
  wf_hosts : NoDup (mkeys (hostScopes t));
  wf_host_lt : forall h, h ∈ mkeys (hostScopes t) -> 0 < h < nextId t;
  wf_live : NoDup (invocations t);
  wf_lt : forall id, id ∈ invocations t -> 0 < id < nextId t;
  wf_alive : forall id, id ∈ invocations t -> dead (scope t id) = false;
  (** A host's set holds exactly its live invocations that were started under it,
      in start order. *)
  wf_set : forall h s, mget (hostScopes t) h = Some s ->
    s = filter (fun id => hostId (scope t id) = h /\ h < id) (invocations t);
  wf_done : forall id, id ∉ invocations t -> dead (scope t id) = true;
  wf_next : 0 < nextId t;
}.

Lemma filter_sdel {A} `{EqDecision A} (P : A -> Prop) `{!forall x, Decision (P x)} (l : list A) x :
  filter P (sdel l x) = sdel (filter P l) x.
Proof. unfold sdel. rewrite !list_filter_filter. apply list_filter_iff. tauto. Qed.

Lemma kill_spec t id j :
  hostId (scope (kill t id) j) = hostId (scope t j) /\ startTick (scope (kill t id) j) = startTick (scope t j)
  /\ owner (scope (kill t id) j) = owner (scope t j)
  /\ concurrencyKey (scope (kill t id) j) = concurrencyKey (scope t j)
  /\ dead (scope (kill t id) j) = if decide (j = id) then true else dead (scope t j).
Proof.
  unfold kill. simpl. destruct (decide (j = id)) as [->|Hne].
  - by rewrite !fn_lookup_insert.
  - by rewrite !fn_lookup_insert_ne by done.
Qed.

Lemma kill_host t id j : hostId (scope (kill t id) j) = hostId (scope t j).
Proof. apply (kill_spec t id j). Qed.
Lemma kill_other t id j : j <> id -> scope (kill t id) j = scope t j.
Proof. intros Hne. unfold kill. simpl. by rewrite fn_lookup_insert_ne. Qed.
Lemma kill_dead t id : dead (scope (kill t id) id) = true.
Proof. unfold kill. simpl. by rewrite fn_lookup_insert. Qed.

Lemma tree_wf_new : wf new_tree.
Proof.
  split; simpl; [constructor| |constructor| | |done|done|lia]; intros x Hx; by apply not_elem_of_nil in Hx.
Qed.

Lemma wf_createHostScope t : wf t -> wf (createHostScope t).2.
Proof.
  intros [H1 H2 H3 H4 H5 H6 H7 H8]. split; simpl; try done; try lia.
  - by apply NoDup_mset.
  - intros h. rewrite mkeys_mset_sadd, elem_of_sadd. intros [->|Hh]; [lia|]. specialize (H2 _ Hh). lia.
  - intros id Hid. specialize (H4 _ Hid). lia.
  - intros h s. rewrite mget_mset. destruct (decide (nextId t = h)) as [<-|Hne]; [|by apply H6].
    intros [= <-]. symmetry. apply filter_false. intros id Hid. specialize (H4 _ Hid). lia.
Qed.

Lemma wf_createInvocation t host tick key owner : wf t -> wf (createInvocation t host tick key owner).2.
Proof.
  intros [H1 H2 H3 H4 H5 H6 H7 H8]. unfold createInvocation. simpl.
  assert (Hfresh : nextId t ∉ invocations t) by (intros Hid; specialize (H4 _ Hid); lia).
  split; simpl.
  - destruct (mget (hostScopes t) host); [by apply NoDup_mset|done].
  - intros h. destruct (mget (hostScopes t) host) as [s|] eqn:E.
    + rewrite mkeys_mset_sadd, elem_of_sadd. intros [->|Hh]; [|specialize (H2 _ Hh); lia].
      assert (Hk : host ∈ mkeys (hostScopes t)) by (apply mget_is_Some; by rewrite E). specialize (H2 _ Hk). lia.
    + intros Hh. specialize (H2 _ Hh). lia.
  - by apply NoDup_sadd.
  - intros id. rewrite elem_of_sadd. intros [->|Hid]; [lia|]. specialize (H4 _ Hid). lia.
  - intros id. rewrite elem_of_sadd. intros [->|Hid]; [by rewrite fn_lookup_insert|].
    rewrite fn_lookup_insert_ne by congruence. auto.
  - assert (Hold : forall h, filter (fun id => hostId (<[nextId t := MkInvocation host tick owner false key]> (scope t) id) = h
        /\ h < id) (invocations t) = filter (fun id => hostId (scope t id) = h /\ h < id) (invocations t)).
    { intros h. apply filter_ext_in. intros id Hid. rewrite fn_lookup_insert_ne; [done|]. congruence. }
    intros h s Hs. rewrite sadd_not_in by done. rewrite filter_app, Hold.
    rewrite filter_cons, filter_nil, fn_lookup_insert. simpl.
    destruct (mget (hostScopes t) host) as [s0|] eqn:E.
    + assert (Hk : host ∈ mkeys (hostScopes t)) by (apply mget_is_Some; by rewrite E). specialize (H2 _ Hk).
      rewrite mget_mset in Hs. destruct (decide (host = h)) as [<-|Hne].
      * injection Hs as <-. rewrite decide_True by (split; [done|lia]). rewrite sadd_not_in.
        -- f_equal. by apply H6.
        -- rewrite (H6 _ _ E). intros Hin. apply list_elem_of_filter in Hin as [_ Hin]. done.
      * rewrite decide_False by naive_solver. rewrite app_nil_r. by apply H6.
    + rewrite decide_False; [rewrite app_nil_r; by apply H6|]. intros [-> _]. congruence.
  - intros id Hid. rewrite elem_of_sadd in Hid. rewrite fn_lookup_insert_ne by naive_solver. apply H7. naive_solver.
  - lia.
Qed.

Lemma wf_endInvocation t id : wf t -> wf (endInvocation t id).
Proof.
  intros [H1 H2 H3 H4 H5 H6 H7 H8]. unfold endInvocation. destruct (dead (scope t id)) eqn:Ed; [done|].
  assert (Hin : id ∈ invocations t).
  { destruct (decide (id ∈ invocations t)) as [|Hn]; [done|]. rewrite H7 in Ed; done. }
  split; cbn [nextId hostScopes invocations scope].
  - destruct (mget _ _); [by apply NoDup_mset|done].
  - intros h. destruct (mget (hostScopes (kill t id)) _) as [s|] eqn:E; [|by apply H2].
    rewrite mkeys_mset_sadd, elem_of_sadd. intros [->|Hh]; [|by apply H2].
    apply H2. apply mget_is_Some. by exists s.
  - by apply NoDup_sdel.
  - intros j Hj. apply elem_of_sdel in Hj as [Hj _]. auto.
  - intros j Hj. apply elem_of_sdel in Hj as [Hj Hne]. rewrite kill_other by done. auto.
  - intros h s. change (hostScopes (kill t id)) with (hostScopes t).
    change (invocations (kill t id)) with (invocations t). rewrite filter_sdel.
    rewrite (filter_ext_in _ (fun j => hostId (scope t j) = h /\ h < j)) by (intros j _; by rewrite kill_host).
    destruct (mget (hostScopes t) (hostId (scope t id))) as [s0|] eqn:E.
    + rewrite mget_mset. destruct (decide (hostId (scope t id) = h)) as [<-|Hne].
      * intros [= <-]. f_equal. by apply H6.
      * intros Hs. rewrite sdel_not_in; [by apply H6|]. rewrite list_elem_of_filter. naive_solver.
    + intros Hs. rewrite sdel_not_in; [by apply H6|]. rewrite list_elem_of_filter. intros [[Hh _] _]. congruence.
  - intros j Hj. rewrite elem_of_sdel in Hj. destruct (decide (j = id)) as [->|Hne]; [by rewrite kill_dead|].
    rewrite kill_other by done. apply H7. intros Hj'. apply Hj. split; [exact Hj'|exact Hne].
  - done.
Qed.

(** ** Destroying a host and sweeping *)

Definition end_all (t : ScopeTree) (l : list ScopeId) : ScopeTree := foldl (fun t id => forget (kill t id) id) t l.

Lemma end_all_spec l t :
  nextId (end_all t l) = nextId t /\ hostScopes (end_all t l) = hostScopes t
  /\ invocations (end_all t l) = filter (fun id => id ∉ l) (invocations t)
  /\ (forall j, j ∉ l -> scope (end_all t l) j = scope t j)
  /\ (forall j, hostId (scope (end_all t l) j) = hostId (scope t j))
  /\ (forall j, j ∈ l -> dead (scope (end_all t l) j) = true).
Proof.
  unfold end_all. revert t. induction l as [|x l IH]; intros t.
  { simpl. repeat split; try done.
    - symmetry. apply filter_true. intros y _. by apply not_elem_of_nil.
    - intros j Hj. by apply not_elem_of_nil in Hj. }
  destruct (IH (forget (kill t x) x)) as (I1 & I2 & I3 & I4 & I5 & I6). cbn [foldl].
  split; [exact I1|]. split; [exact I2|]. split; [|split; [|split]].
  - rewrite I3. simpl. unfold sdel. rewrite list_filter_filter. apply list_filter_iff. intros y.
    rewrite not_elem_of_cons. tauto.
  - intros j Hj. apply not_elem_of_cons in Hj as [Hne Hj]. rewrite I4 by done. by apply kill_other.
  - intros j. rewrite I5. apply kill_host.
  - intros j. rewrite elem_of_cons. destruct (decide (j ∈ l)) as [Hj|Hj]; [auto|].
    intros [->|]; [|done]. rewrite I4 by done. apply kill_dead.
Qed.

Lemma wf_destroyHostScope t host : wf t -> wf (destroyHostScope t host).
Proof.
  intros [H1 H2 H3 H4 H5 H6 H7 H8]. unfold destroyHostScope.
  destruct (mget (hostScopes t) host) as [invs|] eqn:E; [|done].
  fold (end_all t invs). destruct (end_all_spec invs t) as (I1 & I2 & I3 & I4 & I5 & I6).
  split; cbn [nextId hostScopes invocations scope]; rewrite ?I1, ?I2, ?I3.
  - by apply NoDup_mdel.
  - intros h. rewrite mkeys_mdel, elem_of_sdel. intros [Hh _]. auto.
  - by apply NoDup_filter.
  - intros id Hid. apply list_elem_of_filter in Hid as [_ Hid]. auto.
  - intros id Hid. apply list_elem_of_filter in Hid as [Hn Hid]. rewrite I4 by done. auto.
  - intros h s. rewrite mget_mdel. destruct (decide (host = h)) as [|Hne]; [done|]. intros Hs.
    rewrite (H6 _ _ Hs), list_filter_filter. apply filter_ext_in. intros id Hid. rewrite I5.
    rewrite (H6 _ _ E). rewrite list_elem_of_filter. naive_solver.
  - intros id Hid. destruct (decide (id ∈ invs)) as [Hi|Hi]; [auto|]. rewrite I4 by done. apply H7.
    intros Hin. apply Hid, list_elem_of_filter. by split.
  - done.
Qed.

(** ** What the tree tracks *)

Record spec := MkSpec {
  sp_next : ScopeId;
  sp_hosts : list ScopeId;
  sp_live : list (ScopeId * InvocationScope);
}.

(** An invocation belongs to a host that existed when it started. *)
Definition under (h : ScopeId) (e : ScopeId * InvocationScope) : Prop := hostId e.2 = h /\ h < e.1.
#[export] Instance under_dec h e : Decision (under h e).
Proof. unfold under. apply _. Defined.

Inductive scope_op :=
  | OHost
  | ODestroy (h : ScopeId)
  | OInvoke (h : ScopeId) (tick : Z) (key : jstr) (owner : option GuardOwner)
  | OEnd (id : ScopeId)
  | OSweep (tick : Z).

Definition step (t : ScopeTree) (o : scope_op) : ScopeTree :=
  match o with
  | OHost => (createHostScope t).2
  | ODestroy h => destroyHostScope t h
  | OInvoke h tick key owner => (createInvocation t h tick key owner).2
  | OEnd id => endInvocation t id
  | OSweep tick => sweepAfterTick t tick
  end.

Definition spec_step (s : spec) (o : scope_op) : spec :=
  match o with
  | OHost => MkSpec (sp_next s + 1) (sp_hosts s ++ [sp_next s]) (sp_live s)
  | ODestroy h =>
    if decide (h ∈ sp_hosts s)
    then MkSpec (sp_next s) (sdel (sp_hosts s) h) (filter (fun e => ~ under h e) (sp_live s))
    else s
  | OInvoke h tick key owner =>
    MkSpec (sp_next s + 1) (sp_hosts s) (sp_live s ++ [(sp_next s, MkInvocation h tick owner false key)])
  | OEnd id => MkSpec (sp_next s) (sp_hosts s) (filter (fun e => e.1 <> id) (sp_live s))
  | OSweep tick => MkSpec (sp_next s) (sp_hosts s) (filter (fun e => startTick e.2 <= tick) (sp_live s))
  end.

Definition spec_find (s : spec) (h : ScopeId) (key : jstr) : option ScopeId :=
  if decide (h ∈ sp_hosts s)
  then fst <$> find (fun e => bool_decide (under h e /\ concurrencyKey e.2 = key)) (sp_live s)
  else None.

Definition abs (t : ScopeTree) : spec :=
  MkSpec (nextId t) (mkeys (hostScopes t)) ((fun id => (id, scope t id)) <$> invocations t).

Lemma filter_fmap_pair (P : ScopeId * InvocationScope -> Prop) `{!forall e, Decision (P e)}
    (f : ScopeId -> InvocationScope) (l : list ScopeId) :
  filter P ((fun id => (id, f id)) <$> l) = (fun id => (id, f id)) <$> filter (fun id => P (id, f id)) l.
Proof. induction l as [|x l IH]; [done|]. csimpl. rewrite !filter_cons, IH. by destruct (decide _). Qed.

Lemma fmap_scope_ext (f g : ScopeId -> InvocationScope) (l : list ScopeId) :
  (forall id, id ∈ l -> f id = g id) -> (fun id => (id, f id)) <$> l = (fun id => (id, g id)) <$> l.
Proof. intros Hfg. apply list_fmap_ext. intros i id Hi. f_equal. apply Hfg. by eapply list_elem_of_lookup_2. Qed.

Lemma abs_end t id : wf t -> abs (endInvocation t id) = spec_step (abs t) (OEnd id).
Proof.
  intros Hwf. unfold endInvocation. destruct (dead (scope t id)) eqn:Ed.
  - unfold abs. simpl. f_equal. symmetry. apply filter_true. intros e He.
    apply list_elem_of_fmap in He as (j & -> & Hj). simpl. intros ->. by rewrite (wf_alive _ Hwf) in Ed.
  - unfold abs. simpl. f_equal.
    + destruct (mget (hostScopes t) (hostId (scope t id))) as [s|] eqn:E; [|done].
      rewrite mkeys_mset_sadd, sadd_in; [done|]. apply mget_is_Some. by exists s.
    + rewrite filter_fmap_pair. simpl. unfold sdel. apply fmap_scope_ext. intros j Hj.
      apply list_elem_of_filter in Hj as [Hne _]. apply (kill_other t id j Hne).
Qed.

Lemma abs_destroy t h : wf t -> abs (destroyHostScope t h) = spec_step (abs t) (ODestroy h).
Proof.
  intros Hwf. unfold destroyHostScope. simpl. destruct (mget (hostScopes t) h) as [invs|] eqn:E.
  - rewrite decide_True by (apply mget_is_Some; by rewrite E). fold (end_all t invs).
    destruct (end_all_spec invs t) as (I1 & I2 & I3 & I4 & I5 & I6).
    unfold abs. cbn [nextId hostScopes scope invocations]. rewrite I1, I2, I3, mkeys_mdel. f_equal.
    rewrite filter_fmap_pair.
    rewrite (filter_ext_in (fun id => ~ under h (id, scope t id)) (fun id => id ∉ invs)).
    + apply fmap_scope_ext. intros j Hj. apply list_elem_of_filter in Hj as [Hj _]. by apply I4.
    + intros id Hid. rewrite (wf_set _ Hwf _ _ E), list_elem_of_filter. unfold under. simpl. tauto.
  - rewrite decide_False; [done|]. rewrite <- mget_is_Some, E. by intros [].
Qed.

Lemma abs_invoke t h tick key o :
  wf t -> abs (createInvocation t h tick key o).2 = spec_step (abs t) (OInvoke h tick key o).
Proof.
  intros Hwf. unfold createInvocation, abs. simpl.
  assert (Hf : nextId t ∉ invocations t) by (intros Hin; pose proof (wf_lt _ Hwf _ Hin); lia). f_equal.
  - destruct (mget (hostScopes t) h) as [s|] eqn:E; [|done].
    rewrite mkeys_mset_sadd, sadd_in; [done|]. apply mget_is_Some. by exists s.
  - rewrite sadd_not_in by done. rewrite fmap_app. simpl. rewrite fn_lookup_insert. f_equal.
    apply fmap_scope_ext. intros j Hj. rewrite fn_lookup_insert_ne; [done|]. congruence.
Qed.

(** One invocation of the sweep. *)
Definition sweep_one (tick : Z) (t : ScopeTree) (id : ScopeId) : ScopeTree :=
  if tick <? startTick (scope t id) then cancelInvocation t id else t.

Lemma endInvocation_startTick t id j : startTick (scope (endInvocation t id) j) = startTick (scope t j).
Proof. unfold endInvocation. destruct (dead _); [done|]. apply (kill_spec t id j). Qed.

Lemma sweep_list tick l t :
  wf t ->
  wf (foldl (sweep_one tick) t l)
  /\ abs (foldl (sweep_one tick) t l)
     = MkSpec (nextId t) (mkeys (hostScopes t))
         (filter (fun e => ~ (e.1 ∈ l /\ tick < startTick (scope t e.1))) (sp_live (abs t))).
Proof.
  revert t. induction l as [|x l IH]; intros t Hwf; cbn [foldl].
  - split; [done|]. unfold abs. f_equal. symmetry. apply filter_true. intros e _ [He _].
    by apply not_elem_of_nil in He.
  - assert (Ht : forall j, startTick (scope (sweep_one tick t x) j) = startTick (scope t j)).
    { intros j. unfold sweep_one. destruct (_ <? _); [apply endInvocation_startTick|done]. }
    assert (Hw : wf (sweep_one tick t x)).
    { unfold sweep_one. destruct (_ <? _); [by apply wf_endInvocation|done]. }
    destruct (IH _ Hw) as [HA HB]. split; [exact HA|]. rewrite HB.
    assert (Ha : abs (sweep_one tick t x) = MkSpec (nextId t) (mkeys (hostScopes t))
        (filter (fun e => ~ (e.1 = x /\ tick < startTick (scope t x))) (sp_live (abs t)))).
    { unfold sweep_one. destruct (tick <? startTick (scope t x)) eqn:Hlt.
      - unfold cancelInvocation. rewrite abs_end by done. simpl. f_equal. apply list_filter_iff.
        intros e. apply Z.ltb_lt in Hlt. tauto.
      - unfold abs. simpl. f_equal. symmetry. apply filter_true. intros e _. apply Z.ltb_ge in Hlt. lia. }
    assert (Hn : nextId (sweep_one tick t x) = nextId t) by (exact (f_equal sp_next Ha)).
    assert (Hh : mkeys (hostScopes (sweep_one tick t x)) = mkeys (hostScopes t)) by (exact (f_equal sp_hosts Ha)).
    rewrite Hn, Hh, Ha. simpl. f_equal. rewrite list_filter_filter. apply list_filter_iff. intros e.
    rewrite Ht, elem_of_cons. naive_solver.
Qed.

Lemma sweep_spec t tick : wf t -> wf (sweepAfterTick t tick) /\ abs (sweepAfterTick t tick) = spec_step (abs t) (OSweep tick).
Proof.
  intros Hwf. destruct (sweep_list tick (invocations t) t Hwf) as [HA HB]. split; [exact HA|].
  unfold sweepAfterTick. fold (sweep_one tick). rewrite HB. simpl. f_equal.
  apply filter_ext_in. intros e He. apply list_elem_of_fmap in He as (j & -> & Hj). simpl. split; [|lia].
  intros Hn. apply Z.nlt_ge. intros Hlt. apply Hn. by split.
Qed.

Lemma step_spec t o : wf t -> wf (step t o) /\ abs (step t o) = spec_step (abs t) o.
Proof.
  intros Hwf. destruct o as [|h|h tick key ow|id|tick].
  - split; [by apply wf_createHostScope|]. unfold abs. simpl. f_equal.
    rewrite mkeys_mset_sadd, sadd_not_in; [done|]. intros Hin. pose proof (wf_host_lt _ Hwf _ Hin). lia.
  - split; [by apply wf_destroyHostScope|by apply abs_destroy].
  - split; [by apply wf_createInvocation|by apply abs_invoke].
  - split; [by apply wf_endInvocation|by apply abs_end].
  - by apply sweep_spec.
Qed.

Lemma run_spec ops t :
  wf t -> wf (foldl step t ops) /\ abs (foldl step t ops) = foldl spec_step (abs t) ops.
Proof.
  revert t. induction ops as [|o ops IH]; intros t Hwf; [done|]. cbn [foldl].
  destruct (step_spec t o Hwf) as [Hw Ha]. rewrite <- Ha. by apply IH.
Qed.

Lemma find_fmap_pair (f : ScopeId -> InvocationScope) (p : ScopeId * InvocationScope -> bool) (l : list ScopeId) :
  fst <$> find p ((fun id => (id, f id)) <$> l) = find (fun id => p (id, f id)) l.
Proof. induction l as [|x l IH]; [done|]. csimpl. by destruct (p (x, f x)). Qed.

Lemma findRunning_spec t h key : wf t -> findRunning t h key = spec_find (abs t) h key.
Proof.
  intros Hwf. unfold findRunning, spec_find. simpl. destruct (mget (hostScopes t) h) as [s|] eqn:E.
  - rewrite decide_True by (apply mget_is_Some; by rewrite E).
    rewrite find_fmap_pair, (wf_set _ Hwf _ _ E), find_filter. apply find_ext_in.
    intros id Hid. rewrite (wf_alive _ Hwf _ Hid). simpl. unfold under. simpl.
    repeat case_bool_decide; tauto.
  - rewrite decide_False; [done|]. rewrite <- mget_is_Some, E. by intros [].
Qed.

(** ** Properties *)

(** The scope tree keeps exactly what was started and not ended. Over any calls,
    the live invocations are, in start order, those started, not completed or
    cancelled, not under a host destroyed since, and not newer than a tick swept back
    to; an invocation's shared object reads dead exactly when it is not among them;
    and a search under a host finds the oldest live invocation with that key started
    there. *)
Theorem scope_tree_tracks_live (ops : list scope_op) :
  let t := foldl step new_tree ops in
  let s := foldl spec_step (MkSpec 1 [] []) ops in
  abs t = s
  /\ (forall id, dead (scope t id) = false <-> id ∈ (sp_live s).*1)
  /\ (forall h key, findRunning t h key = spec_find s h key).
Proof.
  intros t s. destruct (run_spec ops new_tree tree_wf_new) as [Hw Ha]. fold t in Hw, Ha.
  change (abs new_tree) with (MkSpec 1 [] []) in Ha. fold s in Ha. rewrite <- Ha. split; [done|]. split.
  - intros id. simpl. rewrite <- list_fmap_compose. simpl. rewrite list_fmap_id. split.
    + intros Hd. destruct (decide (id ∈ invocations t)) as [|Hn]; [done|]. by rewrite (wf_done _ Hw) in Hd.
    + apply (wf_alive _ Hw).
  - intros h key. by apply findRunning_spec.
Qed.
