(* ===== verification/Timers.v ===== *)
(** * The timer heap ([packages/core/src/loop/timers.ts])

    Timers are objects in a [Map] keyed by id. A tick decrements every one, then fires
    those due in ascending id order; firing runs creator code, which may register and
    cancel timers while the walk over the due ones is still going, so a due timer is an
    object read when its turn comes. [run_callback] is that code, under whatever guard
    the runtime installed: the calls it makes on the heap. A sleep is fired by
    resolving its promise; what is chained on it runs after the tick. *)

From stdpp Require Import functions.
From S2P Require Import Prelude JsMap JsNum JsInt Json ScopeTree.

Local Open Scope Z_scope.

Inductive TimerKind := sleep_ | every_ | after_.
#[export] Instance TimerKind_eq_dec : EqDecision TimerKind.
Proof. solve_decision. Defined.

Section timers.
Context {F : Type}.

Record Timer := MkTimer {
  kind : TimerKind;
  hostScopeId : ScopeId;
  remaining : num;
  interval : num;
  fn : option F;
  resolve : bool; (** whether a promise waits on it *)
  t_owner : option GuardOwner;
  cancelled : bool;
}.

(** The object a timer id names is [timer h id]; [timers] is the map's keys in
    insertion order. *)
Record TimerHeap := MkHeap {
  timers : jsset Z;
  timer : Z -> Timer;
  next_id : Z;
  simRate : num;
}.

Definition no_timer : Timer := MkTimer after_ NO_SCOPE f0 f0 None false None true.
Definition new_heap : TimerHeap := MkHeap [] (fun _ => no_timer) 1 (of_Z 60).

Definition set_timer (h : TimerHeap) (id : Z) (t : Timer) : TimerHeap :=
  MkHeap (timers h) (<[id := t]> (timer h)) (next_id h) (simRate h).
Definition set_timers (h : TimerHeap) (s : jsset Z) : TimerHeap :=
  MkHeap s (timer h) (next_id h) (simRate h).
Definition setSimRate (h : TimerHeap) (rate : num) : TimerHeap :=
  MkHeap (timers h) (timer h) (next_id h) rate.

Inductive RangeError := duration_not_finite.

Definition toTicks (h : TimerHeap) (seconds : num) : outcome RangeError num :=
  if negb (isFinite seconds) then Throw duration_not_finite
  else Ok (fmax (of_Z 1) (fround (fmul seconds (simRate h)))).

(** [this.#nextId++] and [this.#timers.set(id, t)]. *)
Definition mint (h : TimerHeap) : Z * TimerHeap := (next_id h, MkHeap (timers h) (timer h) (next_id h + 1) (simRate h)).
Definition put (h : TimerHeap) (id : Z) (t : Timer) : TimerHeap :=
  MkHeap (sadd (timers h) id) (<[id := t]> (timer h)) (next_id h) (simRate h).

(** [after] and [every] mint the id before they convert the duration, so one they refuse
    has spent an id; [sleep] converts first. *)
Definition after (h : TimerHeap) (seconds : num) (host : ScopeId) (f : F) (owner : option GuardOwner) :
    outcome RangeError Z * TimerHeap :=
  let '(id, h) := mint h in
  match toTicks h seconds with
  | Throw e => (Throw e, h)
  | Ok ticks => (Ok id, put h id (MkTimer after_ host ticks f0 (Some f) false owner false))
  end.

Definition every (h : TimerHeap) (seconds : num) (host : ScopeId) (f : F) (owner : option GuardOwner) :
    outcome RangeError Z * TimerHeap :=
  let '(id, h) := mint h in
  match toTicks h seconds with
  | Throw e => (Throw e, h)
  | Ok ticks => (Ok id, put h id (MkTimer every_ host ticks ticks (Some f) false owner false))
  end.

Definition sleep (h : TimerHeap) (seconds : num) (host : ScopeId) : outcome RangeError (Z * TimerHeap) :=
  ticks ← toTicks h seconds;
  let '(id, h) := mint h in
  Ok (id, put h id (MkTimer sleep_ host ticks f0 None true None false)).

Definition mark_cancelled (t : Timer) : Timer :=
  MkTimer (kind t) (hostScopeId t) (remaining t) (interval t) (fn t) (resolve t) (t_owner t) true.
Definition with_remaining (t : Timer) (r : num) : Timer :=
  MkTimer (kind t) (hostScopeId t) r (interval t) (fn t) (resolve t) (t_owner t) (cancelled t).

Definition cancel (h : TimerHeap) (id : Z) : TimerHeap :=
  if shas (timers h) id
  then set_timers (set_timer h id (mark_cancelled (timer h id))) (sdel (timers h) id)
  else h.

Definition cancelScope (h : TimerHeap) (host : ScopeId) : TimerHeap :=
  if host =? NO_SCOPE then h
  else
    foldl (fun h id =>
        if hostScopeId (timer h id) =? host
        then set_timers (set_timer h id (mark_cancelled (timer h id))) (sdel (timers h) id)
        else h)
      h (timers h).

(** ** A tick *)

(** What creator code does to the heap. *)
Inductive timer_call :=
  | CAfter (seconds : num) (host : ScopeId) (f : F)
  | CEvery (seconds : num) (host : ScopeId) (f : F)
  | CSleep (seconds : num) (host : ScopeId)
  | CCancel (id : Z)
  | CCancelScope (host : ScopeId).

(** What happened to timers, in order. *)
Inductive timer_event := ETick | EFire (id : Z) | ECancel (id : Z).
#[export] Instance timer_event_eq_dec : EqDecision timer_event.
Proof. solve_decision. Defined.

(** The timers a call cancels, for the record of events. *)
Definition cancels (h : TimerHeap) (c : timer_call) : list timer_event :=
  match c with
  | CCancel id => if shas (timers h) id then [ECancel id] else []
  | CCancelScope host =>
    if host =? NO_SCOPE then []
    else ECancel <$> filter (fun id => hostScopeId (timer h id) = host) (timers h)
  | _ => []
  end.

(** Whether a call returns, and the heap it leaves. *)
Definition returns {A} (o : outcome RangeError A) : bool := match o with Ok _ => true | Throw _ => false end.

Definition do_call (h : TimerHeap) (owner : option GuardOwner) (c : timer_call) : bool * TimerHeap :=
  match c with
  | CAfter s host f => let '(o, h') := after h s host f owner in (returns o, h')
  | CEvery s host f => let '(o, h') := every h s host f owner in (returns o, h')
  | CSleep s host => match sleep h s host with Ok (_, h') => (true, h') | Throw _ => (false, h) end
  | CCancel id => (true, cancel h id)
  | CCancelScope host => (true, cancelScope h host)
  end.

(** A call that throws ends the callback; the guard contains it. *)
Fixpoint do_calls (h : TimerHeap) (owner : option GuardOwner) (cs : list timer_call) : list timer_event * TimerHeap :=
  match cs with
  | [] => ([], h)
  | c :: cs' =>
    match do_call h owner c with
    | (false, h') => ([], h')
    | (true, h') => let '(ev, h'') := do_calls h' owner cs' in (cancels h c ++ ev, h'')
    end
  end.

Context {World : Type}.
(** A guarded call of a timer's callback: the calls it makes, and the world after. *)
Context (run_callback : World -> TimerHeap -> option GuardOwner -> Z -> F -> list timer_call * World).

Definition fire (w : World) (h : TimerHeap) (id : Z) : list timer_event * TimerHeap * World :=
  match fn (timer h id) with
  | None => ([], h, w)
  | Some f =>
    let owner := t_owner (timer h id) in
    let '(cs, w') := run_callback w h owner id f in
    let '(ev, h') := do_calls h owner cs in
    (EFire id :: ev, h', w')
  end.

(** The turn of one due timer. *)
Definition fire_due (st : list timer_event * TimerHeap * World) (id : Z) : list timer_event * TimerHeap * World :=
  let '(log, h, w) := st in
  let t := timer h id in
  if cancelled t then st
  else
    match kind t with
    | every_ =>
      let h := set_timer h id (with_remaining t (fadd (remaining t) (interval t))) in
      let '(ev, h, w) := fire w h id in (log ++ ev, h, w)
    | after_ =>
      let '(ev, h, w) := fire w (set_timers h (sdel (timers h) id)) id in (log ++ ev, h, w)
    | sleep_ =>
      (log ++ (if resolve t then [EFire id] else []), set_timers h (sdel (timers h) id), w)
    end.

Definition countdown (h : TimerHeap) : TimerHeap :=
  foldl (fun h id => set_timer h id (with_remaining (timer h id) (fsub (remaining (timer h id)) (of_Z 1))))
    h (timers h).

Definition due (h : TimerHeap) : list Z :=
  merge_sort Z.le (filter (fun id => fle (remaining (timer h id)) f0 = true) (timers h)).

Definition advance (w : World) (h : TimerHeap) : list timer_event * TimerHeap * World :=
  let h := countdown h in
  foldl fire_due ([ETick], h, w) (due h).

Definition pendingCount (h : TimerHeap) : nat := length (timers h).
Definition clear (h : TimerHeap) : TimerHeap := set_timers h [].

(** ** Histories *)

Inductive timer_op := OTick | OCall (owner : option GuardOwner) (c : timer_call) | ORate (rate : num).

Definition step (st : list timer_event * TimerHeap * World) (o : timer_op) : list timer_event * TimerHeap * World :=
  let '(log, h, w) := st in
  match o with
  | OTick => let '(ev, h, w) := advance w h in (log ++ ev, h, w)
  | OCall owner c => let '(ev, h) := do_calls h owner [c] in (log ++ ev, h, w)
  | ORate rate => (log, setSimRate h rate, w)
  end.

Definition history (h : TimerHeap) (w : World) (ops : list timer_op) : list timer_event * TimerHeap * World :=
  foldl step ([], h, w) ops.

(** ** Snapshots *)

(** A timer without its live objects. *)
Record TimerMeta := MkMeta {
  m_kind : TimerKind;
  m_hostScopeId : ScopeId;
  m_remaining : num;
  m_interval : num;
  m_cancelled : bool;
}.

Record TimerBuffer := MkBuffer {
  b_timers : list (Z * TimerMeta);
  b_nextId : Z;
  scopes : option (jsset ScopeId);
}.

Definition createBuffer : TimerBuffer := MkBuffer [] 1 None.

Definition meta (t : Timer) : TimerMeta :=
  MkMeta (kind t) (hostScopeId t) (remaining t) (interval t) (cancelled t).

(** The host scopes owned by the entities of a scoped capture. [scopeOwner] and
    [entityIndex] are the runtime's. *)
Definition scopes_of (scopeOwner : ScopeId -> Z) (entityIndex : Z -> Z) (h : TimerHeap) (sc : list Z) : jsset ScopeId :=
  let owners := foldl sadd [] (entityIndex <$> sc) in
  foldl (fun acc id =>
      let owner := scopeOwner (hostScopeId (timer h id)) in
      if (0 <=? owner) && shas owners owner then sadd acc (hostScopeId (timer h id)) else acc)
    [] (timers h).

Definition in_scopes (s : option (jsset ScopeId)) (host : ScopeId) : bool :=
  match s with None => true | Some l => shas l host end.

Definition capture (scopeOwner : ScopeId -> Z) (entityIndex : Z -> Z) (h : TimerHeap) (sc : option (list Z)) : TimerBuffer :=
  let s := scopes_of scopeOwner entityIndex h <$> sc in
  MkBuffer ((fun id => (id, meta (timer h id))) <$> filter (fun id => in_scopes s (hostScopeId (timer h id)) = true) (timers h))
    (next_id h) s.

(** A restored timer borrows the live objects of the timer now under its id. *)
Definition restored (h : TimerHeap) (p : Z * TimerMeta) : Z * Timer :=
  let '(id, m) := p in
  let live := if shas (timers h) id then timer h id else no_timer in
  (id, MkTimer (m_kind m) (m_hostScopeId m) (m_remaining m) (m_interval m) (fn live) (resolve live) (t_owner live) (m_cancelled m)).

Definition apply_ (h : TimerHeap) (from : TimerBuffer) : TimerHeap :=
  let back := restored h <$> b_timers from in
  let h := match scopes from with
           | None => MkHeap [] (timer h) (b_nextId from) (simRate h)
           | Some s =>
             MkHeap (filter (fun id => shas s (hostScopeId (timer h id)) = false) (timers h)) (timer h)
               (Z.max (next_id h) (b_nextId from)) (simRate h)
           end in
  foldl (fun h p => set_timers (set_timer h p.1 p.2) (sadd (timers h) p.1)) h back.

(** ** Invariant *)

Record wf (h : TimerHeap) : Prop := {
  wf_nodup : NoDup (timers h);
  wf_lt : forall id, id ∈ timers h -> id < next_id h;
}.

Lemma timers_wf_new : wf new_heap.
Proof. split; simpl; [constructor|]. intros id Hid. by apply not_elem_of_nil in Hid. Qed.

Lemma set_timer_eq h id t : timer (set_timer h id t) id = t.
Proof. simpl. apply fn_lookup_insert. Qed.
Lemma set_timer_ne h id j t : id <> j -> timer (set_timer h id t) j = timer h j.
Proof. intros Hne. simpl. by apply fn_lookup_insert_ne. Qed.

(** *** Calls, seen from one timer *)

(** How an operation that is not this timer's turn may touch it: not at all, or by
    cancelling it. *)
Definition untouched (id : Z) (h h' : TimerHeap) : Prop :=
  timer h' id = timer h id /\ (id ∈ timers h' <-> id ∈ timers h).
Definition cancelled_by (id : Z) (h h' : TimerHeap) : Prop :=
  id ∈ timers h /\ (id ∉ timers h') /\ timer h' id = mark_cancelled (timer h id).

Definition effect_on (id : Z) (h h' : TimerHeap) (ev : list timer_event) : Prop :=
  next_id h <= next_id h' /\ (EFire id ∉ ev) /\ (ETick ∉ ev)
  /\ ((untouched id h h' /\ (ECancel id ∉ ev)) \/ (cancelled_by id h h' /\ ECancel id ∈ ev)).

Lemma untouched_refl id h : untouched id h h.
Proof. by split. Qed.

Lemma effect_untouched id h h' : next_id h <= next_id h' -> untouched id h h' -> effect_on id h h' [].
Proof.
  intros Hn Hu. split; [done|]. split; [apply not_elem_of_nil|]. split; [apply not_elem_of_nil|].
  left. split; [done|apply not_elem_of_nil].
Qed.

Lemma effect_trans id h h1 h2 ev1 ev2 :
  effect_on id h h1 ev1 -> effect_on id h1 h2 ev2 -> effect_on id h h2 (ev1 ++ ev2).
Proof.
  intros (Hn1 & Hf1 & Ht1 & H1) (Hn2 & Hf2 & Ht2 & H2). split; [lia|]. split; [|split].
  - rewrite elem_of_app. tauto.
  - rewrite elem_of_app. tauto.
  - destruct H1 as [[[E1 L1] C1]|[(I1 & O1 & E1) C1]], H2 as [[[E2 L2] C2]|[(I2 & O2 & E2) C2]].
    + left. split; [|rewrite elem_of_app; tauto]. split; [congruence|tauto].
    + right. split; [|rewrite elem_of_app; tauto]. split; [tauto|]. split; [done|congruence].
    + right. split; [|rewrite elem_of_app; tauto]. split; [done|]. split; [tauto|congruence].
    + done.
Qed.

(** A timer put under a minted id. *)
Definition register (h : TimerHeap) (t : Timer) : Z * TimerHeap := let '(id, h) := mint h in (id, put h id t).

Lemma register_untouched id h t : id < next_id h -> untouched id h (register h t).2.
Proof.
  intros Hid. split; simpl; [rewrite fn_lookup_insert_ne; [done|lia]|].
  rewrite elem_of_sadd. intuition lia.
Qed.

Lemma wf_register h t : wf h -> wf (register h t).2.
Proof.
  intros [H1 H2]. split; simpl; [by apply NoDup_sadd|]. intros id. rewrite elem_of_sadd.
  intros [->|Hid]; [lia|]. specialize (H2 _ Hid). lia.
Qed.

Lemma wf_mint h : wf h -> wf (mint h).2.
Proof. intros [H1 H2]. split; simpl; [done|]. intros id Hid. specialize (H2 _ Hid). lia. Qed.

Lemma wf_cancel h id : wf h -> wf (cancel h id).
Proof.
  intros [H1 H2]. unfold cancel. destruct (shas _ _); [|done]. split; simpl; [by apply NoDup_sdel|].
  intros j Hj. apply elem_of_sdel in Hj as [Hj _]. auto.
Qed.

(** One host of [cancelScope]. *)
Definition cancel_under (host : ScopeId) (h : TimerHeap) (id : Z) : TimerHeap :=
  if hostScopeId (timer h id) =? host
  then set_timers (set_timer h id (mark_cancelled (timer h id))) (sdel (timers h) id)
  else h.

Lemma cancel_under_host host h id j : hostScopeId (timer (cancel_under host h id) j) = hostScopeId (timer h j).
Proof.
  unfold cancel_under. destruct (_ =? _); [|done]. simpl. destruct (decide (id = j)) as [->|Hne].
  - by rewrite fn_lookup_insert.
  - by rewrite fn_lookup_insert_ne.
Qed.

Lemma cancelScope_fold host l h :
  NoDup l ->
  next_id (foldl (cancel_under host) h l) = next_id h
  /\ timers (foldl (cancel_under host) h l)
     = filter (fun id => ~ (id ∈ l /\ hostScopeId (timer h id) = host)) (timers h)
  /\ forall j, timer (foldl (cancel_under host) h l) j
     = if decide (j ∈ l /\ hostScopeId (timer h j) = host) then mark_cancelled (timer h j) else timer h j.
Proof.
  revert h. induction l as [|x l IH]; intros h Hnd; cbn [foldl].
  - split; [done|]. split.
    + symmetry. apply filter_true. intros y _ [Hy _]. by apply not_elem_of_nil in Hy.
    + intros j. rewrite decide_False; [done|]. intros [Hy _]. by apply not_elem_of_nil in Hy.
  - apply NoDup_cons in Hnd as [Hx Hnd]. destruct (IH (cancel_under host h x) Hnd) as (I1 & I2 & I3).
    assert (Hn : next_id (cancel_under host h x) = next_id h)
      by (unfold cancel_under; by destruct (_ =? _)).
    split; [by rewrite I1|]. split.
    + rewrite I2.
      rewrite (list_filter_iff (fun id => ~ (id ∈ l /\ hostScopeId (timer (cancel_under host h x) id) = host))
        (fun id => ~ (id ∈ l /\ hostScopeId (timer h id) = host))) by (intros y; by rewrite cancel_under_host).
      unfold cancel_under.
      destruct (hostScopeId (timer h x) =? host) eqn:E; simpl.
      * unfold sdel. rewrite list_filter_filter. apply list_filter_iff. intros y. rewrite elem_of_cons.
        apply Z.eqb_eq in E. split; [intros [Ha Hb]; intros [[->|Hy] Hh]; tauto|].
        intros Ha. split; [tauto|]. intros ->. apply Ha. tauto.
      * apply list_filter_iff. intros y. rewrite elem_of_cons. apply Z.eqb_neq in E. naive_solver.
    + intros j. rewrite I3, cancel_under_host.
      destruct (decide (j = x)) as [->|Hne].
      * rewrite decide_False by tauto. unfold cancel_under.
        destruct (hostScopeId (timer h x) =? host) eqn:E.
        -- apply Z.eqb_eq in E. rewrite decide_True by (split; [left|done]). simpl. apply fn_lookup_insert.
        -- apply Z.eqb_neq in E. rewrite decide_False by tauto. done.
      * assert (Ht : timer (cancel_under host h x) j = timer h j).
        { unfold cancel_under. destruct (_ =? _); [|done]. simpl. by rewrite fn_lookup_insert_ne. }
        rewrite Ht. destruct (decide (j ∈ l /\ _)) as [Hd|Hd].
        -- rewrite decide_True; [done|]. rewrite elem_of_cons. tauto.
        -- rewrite decide_False; [done|]. rewrite elem_of_cons. tauto.
Qed.

Lemma cancelScope_spec host h :
  wf h -> host <> NO_SCOPE ->
  next_id (cancelScope h host) = next_id h
  /\ timers (cancelScope h host) = filter (fun id => hostScopeId (timer h id) <> host) (timers h)
  /\ forall j, timer (cancelScope h host) j
     = if decide (j ∈ timers h /\ hostScopeId (timer h j) = host) then mark_cancelled (timer h j) else timer h j.
Proof.
  intros Hwf Hh. unfold cancelScope. rewrite (proj2 (Z.eqb_neq _ _) Hh). fold (cancel_under host).
  destruct (cancelScope_fold host (timers h) h (wf_nodup _ Hwf)) as (I1 & I2 & I3).
  split; [exact I1|]. split; [|exact I3]. rewrite I2. apply filter_ext_in. intros x Hx. tauto.
Qed.

Lemma effect_mint id h : effect_on id h (mint h).2 [].
Proof. apply effect_untouched; [simpl; lia|done]. Qed.

Lemma effect_register id h t : wf h -> id < next_id h -> wf (register h t).2 /\ effect_on id h (register h t).2 [].
Proof.
  intros Hwf Hid. split; [by apply wf_register|]. apply effect_untouched; [simpl; lia|by apply register_untouched].
Qed.

(** A call that throws cancels nothing. *)
Lemma effect_do_call id h owner c ok h' :
  wf h -> id < next_id h -> do_call h owner c = (ok, h') ->
  wf h' /\ effect_on id h h' (if ok then cancels h c else []).
Proof.
  intros Hwf Hid. destruct c as [s host f|s host f|s host|j|host]; simpl.
  - unfold after. simpl. unfold toTicks. destruct (negb _); intros [= <- <-]; [|by apply effect_register].
    split; [by apply wf_mint|apply effect_mint].
  - unfold every. simpl. unfold toTicks. destruct (negb _); intros [= <- <-]; [|by apply effect_register].
    split; [by apply wf_mint|apply effect_mint].
  - unfold sleep. destruct (toTicks h s) as [t|]; intros [= <- <-]; [by apply effect_register|].
    split; [done|by apply effect_untouched].
  - intros [= <- <-]. split; [by apply wf_cancel|]. unfold cancel. destruct (shas (timers h) j) eqn:E.
    + apply shas_spec in E. split; [simpl; lia|].
      split; [rewrite list_elem_of_singleton; done|]. split; [rewrite list_elem_of_singleton; done|].
      destruct (decide (j = id)) as [->|Hne].
      * right. split; [|by apply list_elem_of_singleton]. split; [done|]. simpl. split; [rewrite elem_of_sdel; tauto|].
        by rewrite fn_lookup_insert.
      * left. split; [|rewrite list_elem_of_singleton; congruence]. split; simpl; [by rewrite fn_lookup_insert_ne|].
        rewrite elem_of_sdel. naive_solver.
    + by apply effect_untouched.
  - intros [= <- <-]. destruct (Z.eq_dec host NO_SCOPE) as [->|Hh].
    { simpl. split; [done|]. by apply effect_untouched. }
    destruct (cancelScope_spec host h Hwf Hh) as (I1 & I2 & I3). rewrite (proj2 (Z.eqb_neq _ _) Hh).
    split; [split|].
    + rewrite I2. apply NoDup_filter, Hwf.
    + intros j. rewrite I1, I2. intros Hj. apply list_elem_of_filter in Hj as [_ Hj]. by apply (wf_lt _ Hwf).
    + split; [lia|]. split; [intros Hin; apply list_elem_of_fmap in Hin as (? & ? & _); done|].
      split; [intros Hin; apply list_elem_of_fmap in Hin as (? & ? & _); done|].
      destruct (decide (id ∈ timers h /\ hostScopeId (timer h id) = host)) as [Hd|Hd].
      * right. split; [|apply list_elem_of_fmap; exists id; split; [done|]; apply list_elem_of_filter; tauto].
        split; [tauto|]. rewrite I2, I3, list_elem_of_filter. rewrite decide_True by done. tauto.
      * left. split.
        -- split; [rewrite I3; by rewrite decide_False|]. rewrite I2, list_elem_of_filter. tauto.
        -- intros Hin. apply list_elem_of_fmap in Hin as (j & [= <-] & Hj).
           apply list_elem_of_filter in Hj. tauto.
Qed.

Lemma effect_do_calls id owner cs h :
  wf h -> id < next_id h ->
  wf (do_calls h owner cs).2 /\ effect_on id h (do_calls h owner cs).2 (do_calls h owner cs).1.
Proof.
  revert h. induction cs as [|c cs IH]; intros h Hwf Hid; simpl.
  { split; [done|]. by apply effect_untouched. }
  destruct (do_call h owner c) as [[] h1] eqn:E; destruct (effect_do_call id h owner c _ h1 Hwf Hid E) as [Hw1 He1]; [|done].
  assert (Hid1 : id < next_id h1) by (destruct He1; lia). destruct (IH h1 Hw1 Hid1) as [Hw2 He2].
    destruct (do_calls h1 owner cs) as [ev h2]. simpl in *. split; [done|]. by eapply effect_trans.
Qed.

(** ** The schedule of one timer *)

Definition is_tick (e : timer_event) : bool := match e with ETick => true | _ => false end.
Definition ticks_of (l : list timer_event) : Z := Z.of_nat (length (filter (fun e => is_tick e = true) l)).

(** The tick counts at which [id] fired, counting from [t]. *)
Fixpoint fires_at (id t : Z) (l : list timer_event) : list Z :=
  match l with
  | [] => []
  | ETick :: l' => fires_at id (t + 1) l'
  | EFire j :: l' => if j =? id then t :: fires_at id t l' else fires_at id t l'
  | ECancel _ :: l' => fires_at id t l'
  end.

Definition multiples (k : Z) (m : nat) : list Z := (fun j => k * Z.of_nat j) <$> seq 1 m.

Definition quiet (id : Z) (l : list timer_event) : Prop :=
  forall a b, l = a ++ ECancel id :: b -> EFire id ∉ b.

Lemma ticks_app a b : ticks_of (a ++ b) = ticks_of a + ticks_of b.
Proof. unfold ticks_of. rewrite filter_app, length_app. lia. Qed.

Lemma ticks_none l : ETick ∉ l -> ticks_of l = 0.
Proof.
  intros Hl. unfold ticks_of. rewrite filter_false; [done|]. intros e He. destruct e; [done| |]; done.
Qed.

Lemma fires_app id t a b : fires_at id t (a ++ b) = fires_at id t a ++ fires_at id (t + ticks_of a) b.
Proof.
  revert t. induction a as [|e a IH]; intros t; simpl; [by rewrite Z.add_0_r|].
  destruct e as [|j|j]; simpl; rewrite ?IH.
  - do 2 f_equal. change (ETick :: a) with ([ETick] ++ a). rewrite ticks_app. change (ticks_of [ETick]) with 1. lia.
  - change (EFire j :: a) with ([EFire j] ++ a). rewrite ticks_app. change (ticks_of [EFire j]) with 0.
    destruct (j =? id); by rewrite Z.add_0_l.
  - change (ECancel j :: a) with ([ECancel j] ++ a). rewrite ticks_app. change (ticks_of [ECancel j]) with 0.
    by rewrite Z.add_0_l.
Qed.

Lemma fires_none id t l : EFire id ∉ l -> fires_at id t l = [].
Proof.
  revert t. induction l as [|e l IH]; intros t Hl; [done|]. apply not_elem_of_cons in Hl as [He Hl].
  destruct e as [|j|j]; simpl; auto. destruct (j =? id) eqn:E; [|auto]. apply Z.eqb_eq in E. congruence.
Qed.

Lemma multiples_S k m : multiples k (S m) = multiples k m ++ [k * Z.of_nat (S m)].
Proof. unfold multiples. by rewrite seq_S, fmap_app. Qed.

Lemma quiet_app id a b : quiet id a -> EFire id ∉ b -> quiet id (a ++ b).
Proof.
  intros Ha Hb x y Heq. apply app_eq_app in Heq as [l Heq]. destruct Heq as [[-> Hl]|[-> Hl]].
  - destruct l as [|e l]; [simpl in Hl; rewrite <- Hl, not_elem_of_cons in Hb; tauto|].
    injection Hl as <- Hl. rewrite Hl, elem_of_app. intros [Hy|Hy]; [|done]. by apply (Ha x l).
  - rewrite Hl, elem_of_app, elem_of_cons in Hb. tauto.
Qed.

Lemma quiet_uncancelled id l : ECancel id ∉ l -> quiet id l.
Proof. intros Hl a b ->. exfalso. apply Hl, elem_of_app. right. left. Qed.

Lemma countdown_fold l h :
  NoDup l ->
  let h' := foldl (fun h id => set_timer h id (with_remaining (timer h id) (fsub (remaining (timer h id)) (of_Z 1)))) h l in
  timers h' = timers h /\ next_id h' = next_id h
  /\ forall j, timer h' j = if decide (j ∈ l)
     then with_remaining (timer h j) (fsub (remaining (timer h j)) (of_Z 1)) else timer h j.
Proof.
  revert h. induction l as [|x l IH]; intros h Hnd; cbn [foldl].
  { split; [done|]. split; [done|]. intros j. rewrite decide_False; [done|apply not_elem_of_nil]. }
  apply NoDup_cons in Hnd as [Hx Hnd].
  destruct (IH (set_timer h x (with_remaining (timer h x) (fsub (remaining (timer h x)) (of_Z 1)))) Hnd) as (I1 & I2 & I3).
  split; [exact I1|]. split; [exact I2|]. intros j. rewrite I3. destruct (decide (j = x)) as [->|Hne].
  - rewrite decide_False by done. rewrite decide_True by left. apply set_timer_eq.
  - rewrite set_timer_ne by congruence. destruct (decide (j ∈ l)) as [Hj|Hj].
    + by rewrite decide_True by (by right).
    + rewrite decide_False; [done|]. rewrite elem_of_cons. tauto.
Qed.

Lemma fire_effect id j w h :
  wf h -> id < next_id h ->
  exists ev, (fire w h j).1.1 = (if decide (is_Some (fn (timer h j))) then EFire j :: ev else [])
    /\ wf (fire w h j).1.2 /\ effect_on id h (fire w h j).1.2 ev.
Proof.
  intros Hw Hid. unfold fire. destruct (fn (timer h j)) as [f|] eqn:E.
  - destruct (run_callback w h (t_owner (timer h j)) j f) as [cs w'].
    pose proof (effect_do_calls id (t_owner (timer h j)) cs h Hw Hid) as [Hw' He].
    destruct (do_calls h (t_owner (timer h j)) cs) as [ev h']. simpl in *. exists ev. by split.
  - exists []. simpl. split; [done|]. split; [done|]. by apply effect_untouched.
Qed.

Lemma effect_other_fire id j h h' ev : j <> id -> effect_on id h h' ev -> effect_on id h h' (EFire j :: ev).
Proof.
  intros Hne (Hn & Hf & Ht & He). split; [done|]. split; [rewrite elem_of_cons; naive_solver|].
  split; [rewrite elem_of_cons; naive_solver|]. rewrite elem_of_cons. naive_solver.
Qed.

Lemma elem_of_due_timers h x : x ∈ due h <-> x ∈ timers h /\ fle (remaining (timer h x)) f0 = true.
Proof. unfold due. rewrite merge_sort_Permutation, list_elem_of_filter. tauto. Qed.

Lemma NoDup_due_timers h : NoDup (timers h) -> NoDup (due h).
Proof. intros Hnd. unfold due. rewrite merge_sort_Permutation. by apply NoDup_filter. Qed.

Lemma log_prefix l log h w :
  foldl fire_due (log, h, w) l
  = let '(ev, h', w') := foldl fire_due ([], h, w) l in (log ++ ev, h', w').
Proof.
  revert log h w. induction l as [|x l IH]; intros log h w; cbn [foldl]; [by rewrite app_nil_r|].
  assert (Hx : fire_due (log, h, w) x = let '(ev, h', w') := fire_due ([], h, w) x in (log ++ ev, h', w')).
  { unfold fire_due. destruct (cancelled _); [by rewrite app_nil_r|].
    destruct (kind _); [done| |]; by destruct (fire _ _ _) as [[ev h'] w']. }
  rewrite Hx. destruct (fire_due ([], h, w) x) as [[ev h'] w']. rewrite IH, (IH ev).
  destruct (foldl fire_due ([], h', w') l) as [[ev' h''] w'']. by rewrite app_assoc.
Qed.

Section schedule.
Context (id k : Z) (kd : TimerKind).
Hypothesis Hk : 1 <= k < 2 ^ 53.

(** The timer as registered, [left] ticks from firing. *)
Definition as_registered (t : Timer) (left : Z) : Prop :=
  kind t = kd /\ cancelled t = false /\ remaining t = of_Z left
  /\ (kd = every_ -> interval t = of_Z k)
  /\ (kd <> sleep_ -> is_Some (fn t)) /\ (kd = sleep_ -> resolve t = true).

Definition live_at (pend : list Z) (log : list timer_event) (h : TimerHeap) (m : nat) : Prop :=
  id ∈ timers h /\ (ECancel id ∉ log) /\ as_registered (timer h id) (k * (Z.of_nat m + 1) - ticks_of log)
  /\ (id ∈ pend -> k * (Z.of_nat m + 1) = ticks_of log)
  /\ (id ∉ pend -> k * Z.of_nat m <= ticks_of log < k * (Z.of_nat m + 1))
  /\ (kd <> every_ -> m = 0%nat).

Definition gone_at (pend : list Z) (log : list timer_event) (h : TimerHeap) (m : nat) : Prop :=
  (id ∉ timers h) /\ (id ∈ pend -> cancelled (timer h id) = true)
  /\ k * Z.of_nat m <= ticks_of log /\ (kd <> every_ -> (m <= 1)%nat)
  /\ (ECancel id ∈ log \/ (kd <> every_ /\ m = 1%nat)).

Definition on_schedule (pend : list Z) (log : list timer_event) (h : TimerHeap) : Prop :=
  wf h /\ id < next_id h /\ quiet id log
  /\ exists m, fires_at id 0 log = multiples k m /\ (live_at pend log h m \/ gone_at pend log h m).

Lemma schedule_effect pend log h h' ev :
  on_schedule pend log h -> wf h' -> effect_on id h h' ev -> on_schedule pend (log ++ ev) h'.
Proof using Type*.
  intros (Hw & Hid & Hq & m & Hf & Hs) Hw' (Hn & Hnf & Hnt & He).
  assert (Ht : ticks_of (log ++ ev) = ticks_of log) by (rewrite ticks_app, (ticks_none ev Hnt); lia).
  split; [done|]. split; [lia|]. split; [by apply quiet_app|]. exists m.
  split; [rewrite fires_app, (fires_none id _ ev Hnf); by rewrite app_nil_r|].
  destruct He as [[[E1 L1] C1]|[(I1 & O1 & E1) C1]].
  - destruct Hs as [(H1 & H2 & H3 & H4 & H5 & H6)|(H1 & H2 & H3 & H4 & H5)].
    + left. unfold live_at. rewrite L1, E1, Ht, elem_of_app. tauto.
    + right. unfold gone_at. rewrite L1, E1, Ht, elem_of_app. tauto.
  - destruct Hs as [(H1 & H2 & H3 & H4 & H5 & H6)|(H1 & _)]; [|done].
    right. unfold gone_at. rewrite E1, Ht, elem_of_app. split; [done|]. split; [done|].
    split; [|split; [intros Hd; rewrite H6 by done; lia|by left; right]].
    destruct (decide (id ∈ pend)) as [Hp|Hp]; [specialize (H4 Hp); lia|specialize (H5 Hp); lia].
Qed.

(** Taking another timer off the pending ones changes nothing for this one. *)
Lemma schedule_skip x pend log h : x <> id -> on_schedule (x :: pend) log h -> on_schedule pend log h.
Proof using Type*.
  intros Hne (Hw & Hid & Hq & m & Hf & Hs). split; [done|]. split; [done|]. split; [done|]. exists m. split; [done|].
  assert (Hp : id ∈ x :: pend <-> id ∈ pend) by (rewrite elem_of_cons; naive_solver).
  unfold live_at, gone_at in *. by rewrite Hp in Hs.
Qed.

(** Another due timer's turn. *)
Lemma schedule_other x pend log h w :
  x <> id -> on_schedule (x :: pend) log h ->
  on_schedule pend (fire_due (log, h, w) x).1.1 (fire_due (log, h, w) x).1.2.
Proof using Type*.
  intros Hne Hs. apply schedule_skip in Hs; [|done]. unfold fire_due.
  destruct (cancelled (timer h x)); [done|].
  assert (Hsd : forall h1, wf h1 -> id < next_id h1 -> effect_on id h h1 [] ->
    on_schedule pend (log ++ (fire w h1 x).1.1) (fire w h1 x).1.2).
  { intros h1 Hw1 Hid1 He1. destruct (fire_effect id x w h1 Hw1 Hid1) as (ev & -> & Hw2 & He2).
    apply (schedule_effect pend log h); [done|done|]. match goal with |- effect_on _ _ _ ?e => change e with ([] ++ e) end.
    eapply effect_trans; [exact He1|]. destruct (decide _) as [Hy|Hno]; [by apply effect_other_fire|].
    (* no callback: the calls made none *)
    unfold fire. destruct (fn (timer h1 x)); [by destruct Hno|]. by apply effect_untouched. }
  destruct Hs as (Hw & Hid & Hrest).
  assert (Hdel : wf (set_timers h (sdel (timers h) x))).
  { destruct Hw as [H1 H2]. split; simpl; [by apply NoDup_sdel|]. intros j Hj. apply elem_of_sdel in Hj as [Hj _]. auto. }
  assert (Hedel : effect_on id h (set_timers h (sdel (timers h) x)) []).
  { apply effect_untouched; [simpl; lia|]. split; simpl; [done|]. rewrite elem_of_sdel. naive_solver. }
  destruct (kind (timer h x)).
  - simpl. destruct (resolve (timer h x)).
    + apply (schedule_effect pend log h); [by split|done|]. by apply effect_other_fire.
    + apply (schedule_effect pend log h); [by split|done|done].
  - match goal with |- context [fire w ?h1 x] => specialize (Hsd h1); destruct (fire w h1 x) as [[ev h2] w2] end.
    apply Hsd; [by destruct Hw|simpl; lia|]. apply effect_untouched; [simpl; lia|].
    split; [by apply set_timer_ne|done].
  - match goal with |- context [fire w ?h1 x] => specialize (Hsd h1); destruct (fire w h1 x) as [[ev h2] w2] end.
    by apply Hsd.
Qed.

(** An event that is the timer firing, on time. *)
Lemma fires_snoc log m :
  fires_at id 0 log = multiples k m -> k * (Z.of_nat m + 1) = ticks_of log ->
  fires_at id 0 (log ++ [EFire id]) = multiples k (S m).
Proof using Type*.
  intros Hf Ht. rewrite fires_app, Hf, multiples_S. simpl. rewrite Z.eqb_refl. do 2 f_equal. lia.
Qed.

Lemma uncancelled_snoc log : ECancel id ∉ log -> ECancel id ∉ log ++ [EFire id].
Proof using Type*. intros Hc. rewrite elem_of_app, list_elem_of_singleton. intros [?|?]; done. Qed.

Lemma ticks_snoc_fire log : ticks_of (log ++ [EFire id]) = ticks_of log.
Proof using Type*. rewrite ticks_app. change (ticks_of [EFire id]) with 0. lia. Qed.

(** The timer's own turn. *)
Lemma schedule_own pend log h w :
  id ∉ pend -> on_schedule (id :: pend) log h ->
  on_schedule pend (fire_due (log, h, w) id).1.1 (fire_due (log, h, w) id).1.2.
Proof using Type*.
  intros Hp (Hw & Hid & Hq & m & Hf & [(H1 & H2 & H3 & H4 & H5 & H6)|(H1 & H2 & H3 & H4 & H5)]).
  2:{ unfold fire_due. rewrite H2 by left. simpl. split; [done|]. split; [done|]. split; [done|]. exists m.
      split; [done|]. right. by split. }
  specialize (H4 ltac:(left)). destruct H3 as (R1 & R2 & R3 & R4 & R5 & R6).
  pose proof (fires_snoc log m Hf H4) as Hf'. pose proof (uncancelled_snoc log H2) as Hc'.
  pose proof (ticks_snoc_fire log) as Ht'.
  assert (Hdel : wf (set_timers h (sdel (timers h) id))).
  { destruct Hw as [W1 W2]. split; simpl; [by apply NoDup_sdel|]. intros j Hj. apply elem_of_sdel in Hj as [Hj _]. auto. }
  assert (Hgone : kd <> every_ -> on_schedule pend (log ++ [EFire id]) (set_timers h (sdel (timers h) id))).
  { intros Hne. split; [done|]. split; [done|]. split; [by apply quiet_uncancelled|]. exists (S m). split; [done|].
    right. unfold gone_at. rewrite Ht'. simpl. rewrite H6 in * by done. split; [rewrite elem_of_sdel; tauto|].
    split; [done|]. split; [lia|]. split; [lia|]. right. by split. }
  assert (Hfire : forall h1, kd <> sleep_ -> fn (timer h1 id) = fn (timer h id) -> on_schedule pend (log ++ [EFire id]) h1 ->
    on_schedule pend (log ++ (fire w h1 id).1.1) (fire w h1 id).1.2).
  { intros h1 Hns Hfn Hs. destruct Hs as (Hw1 & Hid1 & Hrest). destruct (fire_effect id id w h1 Hw1 Hid1) as (ev & -> & Hw2 & He2).
    rewrite decide_True by (rewrite Hfn; auto). change (EFire id :: ev) with ([EFire id] ++ ev). rewrite app_assoc.
    by apply (schedule_effect pend _ h1). }
  unfold fire_due. rewrite R2. destruct (kind (timer h id)) eqn:Ek; simpl.
  - rewrite R6 by done. apply Hgone. congruence.
  - match goal with |- context [fire w ?h1 id] => specialize (Hfire h1); destruct (fire w h1 id) as [[ev h2] w2] eqn:Ef end.
    apply Hfire; [congruence|by rewrite set_timer_eq|]. clear Hfire Hgone.
    split; [by destruct Hw|]. split; [done|]. split; [by apply quiet_uncancelled|]. exists (S m). split; [done|]. left.
    unfold live_at. rewrite Ht', set_timer_eq. split; [done|]. split; [done|]. split.
    + split; [simpl; congruence|]. split; [done|]. simpl. split; [|done]. rewrite R3, R4 by done.
      rewrite fadd_int by (unfold exact_int; lia). f_equal. lia.
    + split; [done|]. split; [lia|congruence].
  - match goal with |- context [fire w ?h1 id] => specialize (Hfire h1); destruct (fire w h1 id) as [[ev h2] w2] eqn:Ef end.
    apply Hfire; [congruence|done|]. apply Hgone. congruence.
Qed.

Lemma schedule_fire_due x pend log h w :
  x ∉ pend -> on_schedule (x :: pend) log h ->
  on_schedule pend (fire_due (log, h, w) x).1.1 (fire_due (log, h, w) x).1.2.
Proof using Type*.
  intros Hp Hs. destruct (decide (x = id)) as [->|Hne]; [by apply schedule_own|by apply schedule_other].
Qed.

Lemma schedule_fire_all l st :
  NoDup l -> on_schedule l st.1.1 st.1.2 ->
  on_schedule [] (foldl fire_due st l).1.1 (foldl fire_due st l).1.2.
Proof using Type*.
  revert st. induction l as [|x l IH]; intros [[log h] w] Hnd Hs; cbn [foldl]; [done|].
  apply NoDup_cons in Hnd as [Hx Hnd]. apply IH; [done|]. by apply schedule_fire_due.
Qed.

Lemma schedule_countdown log h :
  on_schedule [] log h -> on_schedule (due (countdown h)) (log ++ [ETick]) (countdown h).
Proof using Type*.
  intros (Hw & Hid & Hq & m & Hf & Hs). unfold countdown.
  destruct (countdown_fold (timers h) h (wf_nodup _ Hw)) as (I1 & I2 & I3).
  set (h1 := foldl _ h (timers h)) in *. clearbody h1.
  assert (Ht : ticks_of (log ++ [ETick]) = ticks_of log + 1) by (by rewrite ticks_app).
  split; [split; rewrite ?I1, ?I2; [apply Hw|apply (wf_lt _ Hw)]|]. split; [by rewrite I2|].
  split. { apply quiet_app; [done|]. by rewrite list_elem_of_singleton. }
  exists m. split; [rewrite fires_app, Hf; simpl; by rewrite app_nil_r|].
  destruct Hs as [(H1 & H2 & H3 & H4 & H5 & H6)|(H1 & H2 & H3 & H4 & H5)].
  - left. specialize (H5 (not_elem_of_nil _)). destruct H3 as (R1 & R2 & R3 & R4 & R5 & R6).
    assert (Hr : remaining (timer h1 id) = of_Z (k * (Z.of_nat m + 1) - (ticks_of log + 1))).
    { rewrite I3, decide_True by done. unfold with_remaining. cbn [remaining]. rewrite R3, fsub_int by (unfold exact_int; lia). f_equal. lia. }
    unfold live_at. rewrite I1, Ht, elem_of_due_timers, I1, Hr. split; [done|].
    split; [rewrite elem_of_app, list_elem_of_singleton; intros [?|?]; done|].
    change f0 with (of_Z 0). rewrite fle_int, Z.leb_le by (unfold exact_int; lia).
    split; [|split; [intros [_ ?]; lia|split; [|done]]].
    2:{ intros Hn. assert (Hpos : ~ (k * (Z.of_nat m + 1) - (ticks_of log + 1) <= 0)) by tauto. lia. }
    split; [by rewrite I3, decide_True|]. split; [by rewrite I3, decide_True|]. split; [done|].
    rewrite I3, decide_True by done. done.
  - right. unfold gone_at. rewrite I1, Ht, elem_of_due_timers, I1. split; [done|]. split; [tauto|]. split; [lia|].
    split; [done|]. rewrite elem_of_app. tauto.
Qed.

Lemma schedule_step st o :
  on_schedule [] st.1.1 st.1.2 -> on_schedule [] (step st o).1.1 (step st o).1.2.
Proof using Type*.
  destruct st as [[log h] w]. intros Hs. destruct o as [|ow c|rate]; simpl in Hs.
  - unfold step, advance. pose proof (schedule_countdown log h Hs) as Hc.
    pose proof (schedule_fire_all (due (countdown h)) (log ++ [ETick], countdown h, w)
      (NoDup_due_timers _ (wf_nodup _ (proj1 Hc))) Hc) as Hd.
    rewrite log_prefix in Hd. rewrite (log_prefix _ [ETick]).
    destruct (foldl fire_due ([], countdown h, w) (due (countdown h))) as [[ev h'] w'].
    simpl in *. by rewrite <- app_assoc in Hd.
  - unfold step. destruct Hs as (Hw & Hid & Hrest).
    destruct (effect_do_calls id ow [c] h Hw Hid) as [Hw' He].
    destruct (do_calls h ow [c]) as [ev h']. simpl in *. by apply (schedule_effect [] log h).
  - destruct Hs as (Hw & Hid & Hq & m & Hf & Hs). simpl. split; [by destruct Hw|]. split; [done|]. split; [done|].
    by exists m.
Qed.

Lemma schedule_history ops st :
  on_schedule [] st.1.1 st.1.2 -> on_schedule [] (foldl step st ops).1.1 (foldl step st ops).1.2.
Proof using Type*.
  revert st. induction ops as [|o ops IH]; intros st Hs; cbn [foldl]; [done|]. by apply IH, schedule_step.
Qed.
End schedule.

(** ** Reachable heaps *)

Lemma wf_same h h' : timers h' = timers h -> next_id h' = next_id h -> wf h -> wf h'.
Proof. intros H1 H2 [H3 H4]. split; rewrite ?H1, ?H2; done. Qed.

Lemma wf_sdel h x : wf h -> wf (set_timers h (sdel (timers h) x)).
Proof.
  intros [H1 H2]. split; simpl; [by apply NoDup_sdel|]. intros j Hj. apply elem_of_sdel in Hj as [Hj _]. auto.
Qed.

Lemma wf_do_calls owner cs h : wf h -> wf (do_calls h owner cs).2.
Proof.
  revert h. induction cs as [|c cs IH]; intros h Hwf; simpl; [done|].
  destruct (do_call h owner c) as [[] h1] eqn:E;
    destruct (effect_do_call (next_id h - 1) h owner c _ h1 Hwf ltac:(lia) E) as [Hw1 _]; [|done].
  specialize (IH h1 Hw1). by destruct (do_calls h1 owner cs).
Qed.

Lemma wf_fire w h id : wf h -> wf (fire w h id).1.2.
Proof.
  intros Hwf. unfold fire. destruct (fn (timer h id)) as [f|]; [|done].
  destruct (run_callback _ _ _ _ _) as [cs w']. pose proof (wf_do_calls (t_owner (timer h id)) cs h Hwf).
  by destruct (do_calls _ _ _).
Qed.

Lemma wf_fire_due st id : wf st.1.2 -> wf (fire_due st id).1.2.
Proof.
  destruct st as [[log h] w]. intros Hwf. simpl in Hwf. unfold fire_due. destruct (cancelled _); [done|].
  destruct (kind _); [by apply wf_sdel| |].
  - match goal with |- context [fire w ?h1 id] => pose proof (wf_fire w h1 id) as Hf;
      destruct (fire w h1 id) as [[ev h2] w2] end. apply Hf. by apply (wf_same h).
  - match goal with |- context [fire w ?h1 id] => pose proof (wf_fire w h1 id) as Hf;
      destruct (fire w h1 id) as [[ev h2] w2] end. apply Hf. by apply wf_sdel.
Qed.

Lemma wf_advance w h : wf h -> wf (advance w h).1.2.
Proof.
  intros Hwf. unfold advance. destruct (countdown_fold (timers h) h (wf_nodup _ Hwf)) as (I1 & I2 & _).
  assert (Hc : wf (countdown h)) by (by apply (wf_same h)).
  assert (Hl : forall l st, wf st.1.2 -> wf (foldl fire_due st l).1.2).
  { intros l. induction l as [|x l IH]; intros st Hst; cbn [foldl]; [done|]. by apply IH, wf_fire_due. }
  by apply (Hl _ ([ETick], countdown h, w)).
Qed.

Lemma wf_history ops st : wf st.1.2 -> wf (foldl step st ops).1.2.
Proof.
  revert st. induction ops as [|o ops IH]; intros [[log h] w] Hwf; cbn [foldl]; [done|]. apply IH.
  destruct o as [|ow c|rate]; unfold step; simpl in Hwf.
  - pose proof (wf_advance w h Hwf) as Ha. by destruct (advance w h) as [[ev h'] w'].
  - pose proof (wf_do_calls ow [c] h Hwf) as Ha. by destruct (do_calls h ow [c]).
  - by apply (wf_same h).
Qed.

Definition start (kd : TimerKind) (h : TimerHeap) (seconds : num) (host : ScopeId) (f : F) (owner : option GuardOwner) :
    outcome RangeError Z * TimerHeap :=
  match kd with
  | after_ => after h seconds host f owner
  | every_ => every h seconds host f owner
  | sleep_ => match sleep h seconds host with Ok (id, h) => (Ok id, h) | Throw e => (Throw e, h) end
  end.

Lemma started_on_schedule kd h seconds host f owner id h1 k :
  wf h -> toTicks h seconds = Ok (of_Z k) -> 1 <= k < 2 ^ 53 ->
  start kd h seconds host f owner = (Ok id, h1) -> on_schedule id k kd [] [] h1.
Proof.
  intros Hwf Ht Hk Hs.
  assert (Hr : exists t, (id, h1) = register h t /\ as_registered k kd t k).
  { destruct kd; simpl in Hs; unfold after, every, sleep, toTicks in *; simpl in *;
      destruct (negb (isFinite seconds)); try done; injection Ht as Ht; rewrite Ht in Hs; injection Hs as <- <-;
      (eexists; split; [reflexivity|]); unfold as_registered; simpl; repeat split; done || eauto. }
  destruct Hr as (t & Hr & Hreg). pose proof (wf_register h t Hwf) as Hw1.
  assert (Hid : id = next_id h) by (by injection Hr). assert (Hh1 : h1 = (register h t).2) by (by rewrite <- Hr).
  subst id h1. split; [done|]. split; [simpl; lia|].
  split; [apply quiet_uncancelled, not_elem_of_nil|]. exists 0%nat. split; [done|]. left.
  split; [simpl; apply elem_of_sadd; by left|]. split; [apply not_elem_of_nil|].
  change (ticks_of []) with 0.
  split; [simpl timer; rewrite fn_lookup_insert; by replace (k * (Z.of_nat 0 + 1) - 0) with k by lia|].
  split; [intros Hn; by apply not_elem_of_nil in Hn|]. split; [lia|done].
Qed.

(** ** The order of one tick *)

Definition fired (l : list timer_event) : list Z :=
  omap (fun e => match e with EFire id => Some id | _ => None end) l.

Lemma fired_cancels h c : fired (cancels h c) = [].
Proof.
  destruct c as [| | |j|host]; simpl; try done; [by destruct (shas _ _)|].
  destruct (host =? NO_SCOPE); [done|]. induction (filter _ (timers h)); done.
Qed.

Lemma fired_app a b : fired (a ++ b) = fired a ++ fired b.
Proof. unfold fired. by rewrite omap_app. Qed.

Lemma fired_calls owner cs h : fired (do_calls h owner cs).1 = [].
Proof.
  revert h. induction cs as [|c cs IH]; intros h; simpl; [done|].
  destruct (do_call h owner c) as [[] h1]; [|done]. specialize (IH h1).
  destruct (do_calls h1 owner cs) as [ev h2]. simpl in *. by rewrite fired_app, fired_cancels, IH.
Qed.

Lemma fired_due h w x : fired (fire_due ([], h, w) x).1.1 `sublist_of` [x].
Proof.
  assert (Hf : forall h1, fired (fire w h1 x).1.1 `sublist_of` [x]).
  { intros h1. unfold fire. destruct (fn (timer h1 x)); [|simpl; apply sublist_nil_l].
    destruct (run_callback _ _ _ _ _) as [cs w']. pose proof (fired_calls (t_owner (timer h1 x)) cs h1) as Hc.
    destruct (do_calls h1 (t_owner (timer h1 x)) cs) as [ev h2]. simpl in *. by rewrite Hc. }
  unfold fire_due. destruct (cancelled _); [simpl; apply sublist_nil_l|]. destruct (kind _).
  - simpl. destruct (resolve _); simpl; [done|apply sublist_nil_l].
  - match goal with |- context [fire w ?h1 x] => specialize (Hf h1); by destruct (fire w h1 x) as [[ev h2] w2] end.
  - match goal with |- context [fire w ?h1 x] => specialize (Hf h1); by destruct (fire w h1 x) as [[ev h2] w2] end.
Qed.

Lemma fired_all l h w : fired (foldl fire_due ([], h, w) l).1.1 `sublist_of` l.
Proof.
  revert h w. induction l as [|x l IH]; intros h w; cbn [foldl]; [done|].
  pose proof (fired_due h w x) as Hx. destruct (fire_due ([], h, w) x) as [[ev h'] w'].
  rewrite log_prefix. specialize (IH h' w'). destruct (foldl fire_due ([], h', w') l) as [[ev' h''] w''].
  simpl in *. rewrite fired_app. by apply (sublist_app _ [x] _ l).
Qed.

Lemma sublist_sorted (l k : list Z) : l `sublist_of` k -> StronglySorted Z.lt k -> StronglySorted Z.lt l.
Proof.
  induction 1 as [|x l k Hs IH|x l k Hs IH]; intros Hk; [done| |]; inversion Hk as [|? ? Hk' Hx]; subst.
  - constructor; [auto|]. rewrite Forall_forall in Hx |- *. intros y Hy. apply Hx.
    eapply elem_of_submseteq; [exact Hy|by apply sublist_submseteq].
  - auto.
Qed.

Lemma due_sorted h : NoDup (timers h) -> StronglySorted Z.lt (due h).
Proof.
  intros Hnd. assert (Hs : StronglySorted Z.le (due h)) by (apply (StronglySorted_merge_sort Z.le _)).
  pose proof (NoDup_due_timers h Hnd) as Hd. induction Hs as [|x l Hs IH Hx]; [constructor|].
  apply NoDup_cons in Hd as [Hn Hd]. constructor; [auto|]. rewrite Forall_forall in Hx |- *.
  intros y Hy. specialize (Hx y Hy). assert (x <> y); [|lia]. by intros ->.
Qed.
End timers.

(** ** Restoring *)

(** What a snapshot promises to bring back about a timer. *)
Definition same_timing {F} (h h' : TimerHeap (F := F)) (id : Z) : Prop :=
  (id ∈ timers h' <-> id ∈ timers h) /\ (id ∈ timers h -> meta (timer h' id) = meta (timer h id)).

Lemma restore_fold {F} (back : list (Z * Timer (F := F))) h :
  NoDup back.*1 ->
  let h' := foldl (fun h p => set_timers (set_timer h p.1 p.2) (sadd (timers h) p.1)) h back in
  next_id h' = next_id h
  /\ (forall id, id ∈ timers h' <-> id ∈ timers h \/ id ∈ back.*1)
  /\ (forall id t, (id, t) ∈ back -> timer h' id = t)
  /\ (forall id, id ∉ back.*1 -> timer h' id = timer h id).
Proof.
  revert h. induction back as [|[x t] back IH]; intros h Hnd; cbn [foldl].
  - split; [done|]. split; [intros id; simpl; rewrite elem_of_nil; tauto|]. split; [|done].
    intros id t Ht. by apply not_elem_of_nil in Ht.
  - simpl in Hnd. apply NoDup_cons in Hnd as [Hx Hnd].
    destruct (IH (set_timers (set_timer h x t) (sadd (timers h) x)) Hnd) as (I1 & I2 & I3 & I4).
    split; [exact I1|]. split; [|split].
    + intros id. rewrite I2. simpl. rewrite elem_of_sadd, elem_of_cons. tauto.
    + intros id t' Ht. apply elem_of_cons in Ht as [[= -> ->]|Ht]; [|by apply I3].
      rewrite I4 by done. simpl. apply fn_lookup_insert.
    + intros id Hid. simpl in Hid. apply not_elem_of_cons in Hid as [Hne Hid]. rewrite I4 by done. simpl.
      by rewrite fn_lookup_insert_ne.
Qed.

Lemma restored_keys {F} (h : TimerHeap (F := F)) l : (restored h <$> l).*1 = l.*1.
Proof. induction l as [|[x m] l IH]; [done|]. csimpl. by rewrite IH. Qed.

Lemma restored_meta {F} (h : TimerHeap (F := F)) p : meta (restored h p).2 = p.2.
Proof. by destruct p as [x []]. Qed.

Lemma captured_keys {F} owner index (h : TimerHeap (F := F)) sc :
  (b_timers (capture owner index h sc)).*1
  = filter (fun id => in_scopes (scopes (capture owner index h sc)) (hostScopeId (timer h id)) = true) (timers h).
Proof. simpl. rewrite <- list_fmap_compose. apply list_fmap_id. Qed.

(** Restoring into any later heap of the same session. *)
Lemma timer_apply_spec {F} owner index (h now : TimerHeap (F := F)) sc :
  wf h -> wf now ->
  let from := capture owner index h sc in
  let h' := apply_ now from in
  (forall id, id ∈ timers h' <->
     (id ∈ timers h /\ in_scopes (scopes from) (hostScopeId (timer h id)) = true)
     \/ (id ∈ timers now /\ in_scopes (scopes from) (hostScopeId (timer now id)) = false))
  /\ (forall id, id ∈ timers h -> in_scopes (scopes from) (hostScopeId (timer h id)) = true ->
        meta (timer h' id) = meta (timer h id))
  /\ (forall id, ~ (id ∈ timers h /\ in_scopes (scopes from) (hostScopeId (timer h id)) = true) ->
        timer h' id = timer now id)
  /\ next_id h' = match sc with None => next_id h | Some _ => Z.max (next_id now) (next_id h) end.
Proof.
  intros Hwf Hnow from h'. unfold h', apply_.
  assert (Hnd : NoDup (restored now <$> b_timers from).*1).
  { rewrite restored_keys. unfold from. rewrite captured_keys. apply NoDup_filter, Hwf. }
  set (h0 := match scopes from with None => _ | Some s => _ end).
  destruct (restore_fold (restored now <$> b_timers from) h0 Hnd) as (I1 & I2 & I3 & I4).
  assert (Hin : forall id, id ∈ (restored now <$> b_timers from).*1
    <-> id ∈ timers h /\ in_scopes (scopes from) (hostScopeId (timer h id)) = true).
  { intros id. rewrite restored_keys. unfold from. rewrite captured_keys, list_elem_of_filter. tauto. }
  assert (Ht0 : timer h0 = timer now) by (unfold h0; by destruct (scopes from)).
  split; [|split; [|split]].
  - intros id. rewrite I2, Hin. unfold h0. destruct (scopes from) as [s|] eqn:Es; simpl.
    + rewrite list_elem_of_filter. tauto.
    + rewrite elem_of_nil. split; [tauto|]. intros [?|[_ ?]]; [tauto|done].
  - intros id Hid Hsc. assert (Hm : (id, meta (timer h id)) ∈ b_timers from).
    { unfold from. simpl. apply list_elem_of_fmap. exists id. split; [done|]. apply list_elem_of_filter. by split. }
    rewrite (I3 id (restored now (id, meta (timer h id))).2); [by rewrite restored_meta|].
    apply list_elem_of_fmap. by exists (id, meta (timer h id)).
  - intros id Hid. rewrite I4, Ht0; [done|]. by rewrite Hin.
  - rewrite I1. unfold h0, from. by destruct sc.
Qed.

(** A restored timer has the callback, promise and owner of the timer now under its id,
    none if that one is gone. *)
Lemma timer_apply_live {F} owner index (h now : TimerHeap (F := F)) sc id :
  wf h ->
  let from := capture owner index h sc in
  id ∈ timers h -> in_scopes (scopes from) (hostScopeId (timer h id)) = true ->
  let live := if shas (timers now) id then timer now id else no_timer in
  fn (timer (apply_ now from) id) = fn live /\ resolve (timer (apply_ now from) id) = resolve live
  /\ t_owner (timer (apply_ now from) id) = t_owner live.
Proof.
  intros Hwf from Hid Hsc live. unfold apply_.
  assert (Hnd : NoDup (restored now <$> b_timers from).*1).
  { rewrite restored_keys. unfold from. rewrite captured_keys. apply NoDup_filter, Hwf. }
  set (h0 := match scopes from with None => _ | Some s => _ end).
  destruct (restore_fold (restored now <$> b_timers from) h0 Hnd) as (_ & _ & I3 & _).
  rewrite (I3 id (restored now (id, meta (timer h id))).2); [done|].
  apply list_elem_of_fmap. exists (id, meta (timer h id)). split; [done|]. unfold from. simpl. apply list_elem_of_fmap.
  exists id. split; [done|]. apply list_elem_of_filter. by split.
Qed.

(** ** Properties *)

(** C34. Every timer keeps its schedule. In a heap reached by any calls, ticks and
    callbacks, a timer registered for a duration of [k] whole ticks, [1 <= k < 2^53]
    (past that the count no longer goes down by one), fires at tick [k] of what follows, once if it is an [after] or a [sleep] and at every multiple of [k]
    if it is an [every], until it is cancelled: it never fires early, late or twice on
    a tick, firing never drifts, a tick it is due on is never missed, and after its
    cancellation, even by another callback of the same tick, it never fires again.
    Callbacks may register and cancel any timers, throw, and change the rate. *)
Theorem timers_fire_on_schedule {F World} (run_callback : World -> TimerHeap (F := F) -> option GuardOwner -> Z -> F -> list timer_call * World)
    (w0 w : World) (before ops : list timer_op) (kd : TimerKind) (seconds : num) (host : ScopeId) (f : F)
    (owner : option GuardOwner) (id k : Z) (h1 : TimerHeap) :
  let h := (history run_callback new_heap w0 before).1.2 in
  toTicks h seconds = Ok (of_Z k) -> 1 <= k < 2 ^ 53 ->
  start kd h seconds host f owner = (Ok id, h1) ->
  let log := (history run_callback h1 w ops).1.1 in
  let n := ticks_of log in
  exists m : nat,
    fires_at id 0 log = multiples k m
    /\ k * Z.of_nat m <= n
    /\ (kd <> every_ -> (m <= 1)%nat)
    /\ (ECancel id ∉ log -> if bool_decide (kd = every_) then n < k * (Z.of_nat m + 1) else k <= n -> m = 1%nat)
    /\ (forall a b, log = a ++ ECancel id :: b -> EFire id ∉ b).
Proof.
  intros h Ht Hk Hs log n.
  assert (Hwf : wf h) by (apply wf_history; apply timers_wf_new).
  pose proof (started_on_schedule kd h seconds host f owner id h1 k Hwf Ht Hk Hs) as Hsch.
  destruct (schedule_history run_callback id k kd Hk ops ([], h1, w) Hsch) as (_ & _ & Hq & m & Hf & Hm).
  fold (history run_callback h1 w ops) in Hq, Hf, Hm. fold log in Hq, Hf, Hm. unfold quiet in Hq.
  exists m. split; [done|].
  destruct Hm as [(H1 & H2 & H3 & _ & H5 & H6)|(H1 & H2 & H3 & H4 & H5)].
  - specialize (H5 (not_elem_of_nil _)). fold n in H5. split; [lia|]. split; [intros Hd; rewrite H6 by done; lia|].
    split; [|done]. intros _. case_bool_decide as Hkd; [lia|]. rewrite H6 in * by done. lia.
  - fold n in H3. split; [lia|]. split; [done|]. split; [|done]. intros Hc.
    destruct H5 as [?|[Hkd Hm]]; [done|]. rewrite bool_decide_false by done. done.
Qed.

(** A world of one callback, which cancels the timer after its own. *)
Definition cancel_next (_ : unit) (_ : TimerHeap (F := unit)) (_ : option GuardOwner) (id : Z) (_ : unit) : list (timer_call (F := unit)) * unit :=
  ([CCancel (id + 1)], tt).

Lemma timers_fire_on_schedule_witness :
  exists h1, start every_ new_heap (dec 5 (-2)) 7 tt None = (Ok 1, h1)
    /\ fires_at 1 0 (history cancel_next h1 tt (replicate 10 OTick)).1.1 = [3; 6; 9].
Proof.
  eexists. split; [vm_compute; reflexivity|].
  destruct (timers_fire_on_schedule cancel_next tt tt [] (replicate 10 OTick) every_ (dec 5 (-2)) 7 tt None 1 3
    (register new_heap (MkTimer every_ 7 (of_Z 3) (of_Z 3) (Some tt) false None false)).2)
    as (m & Hf & Hle & _ & Hgt & _); [vm_compute; reflexivity|lia|vm_compute; reflexivity|].
  etransitivity; [exact Hf|].
  assert (Hc : ECancel 1 ∉ (history cancel_next
    (register new_heap (MkTimer every_ 7 (of_Z 3) (of_Z 3) (Some tt) false None false)).2 tt (replicate 10 OTick)).1.1).
  { apply (bool_decide_unpack _). vm_compute. exact I. }
  specialize (Hgt Hc). change (bool_decide (every_ = every_)) with true in Hgt. cbn iota in Hgt.
  assert (Hn : ticks_of (history cancel_next
    (register new_heap (MkTimer every_ 7 (of_Z 3) (of_Z 3) (Some tt) false None false)).2 tt (replicate 10 OTick)).1.1 = 10)
    by (vm_compute; reflexivity).
  rewrite Hn in Hle, Hgt. assert (m = 3%nat) as -> by lia. reflexivity.
Defined.

(** A duration of no finite number of ticks, or of [2^54] of them, is accepted and never
    counts down. *)
Lemma overlong_never_counts_down :
  toTicks (new_heap (F := unit)) (dec 1 308) = Ok Infinity /\ fsub Infinity (of_Z 1) = Infinity
  /\ toTicks (new_heap (F := unit)) (of_Z (2 ^ 54)) = Ok (of_Z (2 ^ 54 * 60))
  /\ fsub (of_Z (2 ^ 54 * 60)) (of_Z 1) = of_Z (2 ^ 54 * 60).
Proof. by vm_compute. Qed.

(** A duration [after] or [every] refuses has spent an id and registered nothing. *)
Lemma refused_spends_an_id {F} (h : TimerHeap (F := F)) seconds host f owner :
  isFinite seconds = false ->
  after h seconds host f owner = (Throw duration_not_finite, (mint h).2)
  /\ every h seconds host f owner = (Throw duration_not_finite, (mint h).2)
  /\ sleep h seconds host = Throw duration_not_finite.
Proof. intros Hs. unfold after, every, sleep, toTicks. simpl. by rewrite Hs. Qed.

(** Timers due on one tick fire in ascending id order, each at most once, whatever
    order they were registered, rescheduled or restored in. *)
Theorem timers_fire_in_id_order {F World} (run_callback : World -> TimerHeap (F := F) -> option GuardOwner -> Z -> F -> list timer_call * World)
    (w0 w : World) (ops : list timer_op) :
  let h := (history run_callback new_heap w0 ops).1.2 in
  StronglySorted Z.lt (fired (advance run_callback w h).1.1).
Proof.
  intros h. assert (Hwf : wf h) by (apply wf_history; apply timers_wf_new).
  unfold advance. rewrite log_prefix. pose proof (fired_all run_callback (due (countdown h)) (countdown h) w) as Hf.
  destruct (foldl _ _ _) as [[ev h'] w']. simpl in *. eapply sublist_sorted; [exact Hf|]. apply due_sorted.
  destruct (countdown_fold (timers h) h (wf_nodup _ Hwf)) as (I1 & _).
  change (timers (countdown h) = timers h) in I1. rewrite I1. apply Hwf.
Qed.

(** A rewind restores timing exactly. Whatever ran since the capture, applying a
    whole capture brings back the timers that were live then, with their kind, host,
    ticks left, interval and flag, and the id counter, so a replay mints the same ids;
    a capture scoped to some hosts restores their timers so, leaves every timer of the
    other hosts as it is now, and never moves the counter back. *)
Theorem timer_restore_exact {F World} (run_callback : World -> TimerHeap (F := F) -> option GuardOwner -> Z -> F -> list timer_call * World)
    (w0 w : World) (scopeOwner : ScopeId -> Z) (entityIndex : Z -> Z) (before since : list timer_op)
    (sc : option (list Z)) :
  let h := (history run_callback new_heap w0 before).1.2 in
  let now := (history run_callback h w since).1.2 in
  let from := capture scopeOwner entityIndex h sc in
  let h' := apply_ now from in
  (forall id, id ∈ timers h' <->
     (id ∈ timers h /\ in_scopes (scopes from) (hostScopeId (timer h id)) = true)
     \/ (id ∈ timers now /\ in_scopes (scopes from) (hostScopeId (timer now id)) = false))
  /\ (forall id, id ∈ timers h -> in_scopes (scopes from) (hostScopeId (timer h id)) = true ->
        meta (timer h' id) = meta (timer h id))
  /\ (forall id, ~ (id ∈ timers h /\ in_scopes (scopes from) (hostScopeId (timer h id)) = true) ->
        timer h' id = timer now id)
  /\ next_id h' = match sc with None => next_id h | Some _ => Z.max (next_id now) (next_id h) end.
Proof.
  intros h now from h'. apply timer_apply_spec.
  - apply wf_history; apply timers_wf_new.
  - apply wf_history; simpl; apply wf_history; apply timers_wf_new.
Qed.

Lemma scopes_of_hosted {F} owner index (h : TimerHeap (F := F)) sc host :
  host ∈ scopes_of owner index h sc -> exists id, id ∈ timers h /\ hostScopeId (timer h id) = host.
Proof.
  unfold scopes_of. set (owners := foldl sadd [] _).
  assert (Hg : forall l acc, host ∈ foldl (fun acc id =>
      if (0 <=? owner (hostScopeId (timer h id))) && shas owners (owner (hostScopeId (timer h id)))
      then sadd acc (hostScopeId (timer h id)) else acc) acc l ->
    host ∈ acc \/ exists id, id ∈ l /\ hostScopeId (timer h id) = host).
  { induction l as [|x l IH]; intros acc; cbn [foldl]; [by left|]. intros Hin.
    destruct (IH _ Hin) as [Ha|(id & Hid & Hh)]; [|right; exists id; split; [by right|done]].
    destruct (_ && _); [|by left]. apply elem_of_sadd in Ha as [->|Ha]; [|by left].
    right. exists x. split; [left|done]. }
  intros Hin. destruct (Hg _ _ Hin) as [Hn|?]; [by apply not_elem_of_nil in Hn|done].
Qed.

(** A scoped rewind does not take back the first timer of a host. A capture covers
    the host scopes that own a timer when it is taken, not those of the entities it is
    scoped to: a timer registered afterwards on a host that had none survives the
    rewind, whichever entities the scope named. *)
Theorem first_timer_survives_rewind {F World} (run_callback : World -> TimerHeap (F := F) -> option GuardOwner -> Z -> F -> list timer_call * World)
    (w0 w : World) (scopeOwner : ScopeId -> Z) (entityIndex : Z -> Z) (before since : list timer_op)
    (sc : list Z) (id : Z) :
  let h := (history run_callback new_heap w0 before).1.2 in
  let now := (history run_callback h w since).1.2 in
  (forall j, j ∈ timers h -> hostScopeId (timer h j) <> hostScopeId (timer now id)) ->
  id ∈ timers now ->
  id ∈ timers (apply_ now (capture scopeOwner entityIndex h (Some sc))).
Proof.
  intros h now Hnone Hid.
  assert (Hwf : wf h) by (apply wf_history; apply timers_wf_new).
  assert (Hwn : wf now) by (apply wf_history; apply Hwf).
  destruct (timer_apply_spec scopeOwner entityIndex h now (Some sc) Hwf Hwn) as (Hin & _). apply Hin. right.
  split; [done|]. simpl. apply shas_false. intros Hs. apply scopes_of_hosted in Hs as (j & Hj & Hh).
  by apply (Hnone j Hj).
Qed.

(** Entity 4 owns host scope 7; a predicted tick starts its first timer. *)
Lemma first_timer_survives_rewind_witness :
  let idle := fun (_ : unit) (_ : TimerHeap (F := unit)) (_ : option GuardOwner) (_ : Z) (_ : unit) => ([], tt) in
  let now := (history idle new_heap tt [OCall None (CEvery (of_Z 1) 7 tt)]).1.2 in
  1 ∈ timers (apply_ now (capture (fun s => if s =? 7 then 4 else -1) (fun e => e) (new_heap (F := unit)) (Some [4]))).
Proof.
  intros idle now.
  apply (first_timer_survives_rewind idle tt tt (fun s => if s =? 7 then 4 else -1) (fun e => e) []
    [OCall None (CEvery (of_Z 1) 7 tt)] [4] 1).
  - intros j Hj. by apply not_elem_of_nil in Hj.
  - apply (bool_decide_unpack _). vm_compute. exact I.
Defined.
