(* ===== verification/Tweens.v ===== *)
(** * The tween engine ([packages/core/src/loop/tweens.ts], [packages/math/src/easing.ts])

    Tweens are objects in a [Map] keyed by id, with a second map from (target, prop) to
    the tween that animates it. A tick visits every tween in id order and writes its
    value through the target, which may be a creator's setter: [write] is that code,
    the calls it makes on the engine while the walk goes on. [get] of a target is read
    when a tween starts, so a start carries what it answered. *)

From stdpp Require Import functions.
From S2P Require Import Prelude JsMap JsNum Json ScopeTree.

Local Open Scope Z_scope.

(** ** Easing *)

Inductive Easing := linear | ease_ | easeIn | easeOut | bounce | off_union.

Definition f1 : num := of_Z 1.

Definition easeOutBounce (t : num) : num :=
  let n := dec 75625 (-4) in
  let d := dec 275 (-2) in
  if flt t (fdiv f1 d) then fmul (fmul n t) t
  else if flt t (fdiv (of_Z 2) d) then
    let t2 := fsub t (fdiv (dec 15 (-1)) d) in fadd (fmul (fmul n t2) t2) (dec 75 (-2))
  else if flt t (fdiv (dec 25 (-1)) d) then
    let t2 := fsub t (fdiv (dec 225 (-2)) d) in fadd (fmul (fmul n t2) t2) (dec 9375 (-4))
  else
    let t2 := fsub t (fdiv (dec 2625 (-3)) d) in fadd (fmul (fmul n t2) t2) (dec 984375 (-6)).

Definition ease (t : num) (curve : Easing) : num :=
  match curve with
  | linear | off_union => t
  | ease_ => fmul (fmul t t) (fsub (of_Z 3) (fmul (of_Z 2) t))
  | easeIn => fmul (fmul t t) t
  | easeOut => fsub f1 (fmul (fmul (fsub f1 t) (fsub f1 t)) (fsub f1 t))
  | bounce => easeOutBounce t
  end.

Definition lerp (a b t : num) : num := fadd a (fmul (fsub b a) t).

(** ** The engine *)

Section tweens.
Context {T : Type} (target_key : T -> jstr).

Record Tween := MkTween {
  hostScopeId : ScopeId;
  target : T;
  prop : jstr;
  from : num;
  to : num;
  elapsed : num;
  durationTicks : num;
  easing : Easing;
  tw_owner : option GuardOwner;
  cancelled : bool;
}.

(** The object a tween id names is [tween e id] once started; [tweens] is the map's
    keys in insertion order. *)
Record TweenEngine := MkEngine {
  tweens : jsset Z;
  tween : Z -> option Tween;
  byProp : jsmap jstr Z;
  next_id : Z;
  simRate : num;
}.

Definition new_engine : TweenEngine := MkEngine [] (fun _ => None) [] 1 (of_Z 60).

Definition setSimRate (e : TweenEngine) (rate : num) : TweenEngine :=
  MkEngine (tweens e) (tween e) (byProp e) (next_id e) rate.

Definition propKey (t : T) (p : jstr) : jstr := target_key t ++ js ":" ++ p.

Definition key_of (tw : Tween) : jstr := propKey (target tw) (prop tw).

(** What happened to tweens, in order. *)
Inductive tween_event := EvTick | EvStart (id : Z) | EvSet (id : Z) (value : num) | EvCancel (id : Z) | EvResolve (id : Z) | EvClear.

Definition mark_cancelled (tw : Tween) : Tween :=
  MkTween (hostScopeId tw) (target tw) (prop tw) (from tw) (to tw) (elapsed tw) (durationTicks tw) (easing tw) (tw_owner tw) true.

Definition with_elapsed (tw : Tween) (x : num) : Tween :=
  MkTween (hostScopeId tw) (target tw) (prop tw) (from tw) (to tw) x (durationTicks tw) (easing tw) (tw_owner tw) (cancelled tw).

(** [if (byProp.get(key) === id) byProp.delete(key)]. *)
Definition drop_prop (m : jsmap jstr Z) (key : jstr) (id : Z) : jsmap jstr Z :=
  match mget m key with Some j => if j =? id then mdel m key else m | None => m end.

(** The tween the map holds under [id]. *)
Definition held (e : TweenEngine) (id : Z) : option Tween := if shas (tweens e) id then tween e id else None.

Definition cancel (e : TweenEngine) (id : Z) : list tween_event * TweenEngine :=
  match held e id with
  | None => ([], e)
  | Some tw =>
      ([EvCancel id; EvResolve id],
       MkEngine (sdel (tweens e) id) (<[id := Some (mark_cancelled tw)]> (tween e))
         (drop_prop (byProp e) (key_of tw) id) (next_id e) (simRate e))
  end.

Inductive RangeError := duration_not_finite.

(** A start cancels the tween on the same (target, prop) before it looks at the
    duration, so one that throws has cancelled. *)
Definition start (e : TweenEngine) (t : T) (p : jstr) (from_ to_ seconds : num) (host : ScopeId) (curve : Easing)
    (owner : option GuardOwner) : list tween_event * TweenEngine * option RangeError :=
  let '(ev, e) := match mget (byProp e) (propKey t p) with Some existing => cancel e existing | None => ([], e) end in
  if negb (isFinite seconds) then (ev, e, Some duration_not_finite)
  else
    let id := next_id e in
    let ticks := fmax f1 (fround (fmul seconds (simRate e))) in
    (ev ++ [EvStart id],
     MkEngine (sadd (tweens e) id) (<[id := Some (MkTween host t p from_ to_ f0 ticks curve owner false)]> (tween e))
       (mset (byProp e) (propKey t p) id) (id + 1) (simRate e), None).

Definition hosted (e : TweenEngine) (host : ScopeId) (id : Z) : bool :=
  match tween e id with Some tw => hostScopeId tw =? host | None => false end.

Definition cancelScope (e : TweenEngine) (host : ScopeId) : list tween_event * TweenEngine :=
  if host =? NO_SCOPE then ([], e)
  else
    let doomed := filter (fun id => hosted e host id = true) (tweens e) in
    foldl (fun st id => let '(ev, e) := cancel st.2 id in (st.1 ++ ev, e)) ([], e) doomed.

(** What creator code does to the engine. *)
Inductive tween_call :=
  | CStart (t : T) (p : jstr) (from to seconds : num) (host : ScopeId) (curve : Easing)
  | CCancel (id : Z)
  | CCancelScope (host : ScopeId).

Definition do_call (e : TweenEngine) (owner : option GuardOwner) (c : tween_call) :
    list tween_event * TweenEngine * option RangeError :=
  match c with
  | CStart t p from to s host curve => start e t p from to s host curve owner
  | CCancel id => let '(ev, e) := cancel e id in (ev, e, None)
  | CCancelScope host => let '(ev, e) := cancelScope e host in (ev, e, None)
  end.

(** A call that throws ends the code that made it; the guard contains it. *)
Fixpoint do_calls (e : TweenEngine) (owner : option GuardOwner) (cs : list tween_call) : list tween_event * TweenEngine :=
  match cs with
  | [] => ([], e)
  | c :: cs =>
      let '(ev, e, err) := do_call e owner c in
      match err with
      | Some _ => (ev, e)
      | None => let '(ev', e) := do_calls e owner cs in (ev ++ ev', e)
      end
  end.

Context {World : Type}.
(** A guarded write of a target's property: the calls it makes, and the world after. *)
Context (write : World -> TweenEngine -> option GuardOwner -> T -> jstr -> num -> list tween_call * World).

(** How far a tween is after one more tick. *)
Definition progress (elapsed duration : num) : num := fmin f1 (fdiv elapsed duration).

Definition value (tw : Tween) (t : num) : num := lerp (from tw) (to tw) (ease t (easing tw)).

Definition finish (e : TweenEngine) (tw : Tween) (id : Z) : TweenEngine :=
  MkEngine (sdel (tweens e) id) (tween e) (drop_prop (byProp e) (key_of tw) id) (next_id e) (simRate e).

(** The visit of one tween; the walk skips an id deleted before its turn. *)
Definition visit (horizon : Z) (st : list tween_event * TweenEngine * World) (id : Z) : list tween_event * TweenEngine * World :=
  let '(log, e, w) := st in
  match held e id with
  | None => st
  | Some tw =>
      if cancelled tw || (horizon <=? id) then st
      else
        let tw := with_elapsed tw (fadd (elapsed tw) f1) in
        let e := MkEngine (tweens e) (<[id := Some tw]> (tween e)) (byProp e) (next_id e) (simRate e) in
        let t := progress (elapsed tw) (durationTicks tw) in
        let '(cs, w) := write w e (tw_owner tw) (target tw) (prop tw) (value tw t) in
        let '(ev, e) := do_calls e (tw_owner tw) cs in
        let log := log ++ EvSet id (value tw t) :: ev in
        if fle f1 t then (log ++ [EvResolve id], finish e tw id, w) else (log, e, w)
  end.

(** The walk over the map's values: what is added during it is at or past the horizon. *)
Definition advance (w : World) (e : TweenEngine) : list tween_event * TweenEngine * World :=
  foldl (visit (next_id e)) ([EvTick], e, w) (tweens e).

Definition clear (e : TweenEngine) : TweenEngine := MkEngine [] (tween e) [] (next_id e) (simRate e).

(** ** Histories *)

Inductive tween_op := OTick | OCall (owner : option GuardOwner) (c : tween_call) | ORate (rate : num) | OClear.

Definition step (st : list tween_event * TweenEngine * World) (o : tween_op) : list tween_event * TweenEngine * World :=
  let '(log, e, w) := st in
  match o with
  | OTick => let '(ev, e, w) := advance w e in (log ++ ev, e, w)
  | OCall owner c => let '(ev, e) := do_calls e owner [c] in (log ++ ev, e, w)
  | ORate rate => (log, setSimRate e rate, w)
  | OClear => (log ++ [EvClear], clear e, w)
  end.

Definition history (w : World) (ops : list tween_op) : list tween_event * TweenEngine * World :=
  foldl step ([], new_engine, w) ops.

(** ** One tween's course *)

(** The values a log shows written for a tween, and the ticks since its start. *)
Fixpoint values (id : Z) (log : list tween_event) : list num :=
  match log with
  | [] => []
  | EvSet j v :: log => if j =? id then v :: values id log else values id log
  | _ :: log => values id log
  end.

Fixpoint tick_count (log : list tween_event) : nat :=
  match log with [] => O | EvTick :: log => S (tick_count log) | _ :: log => tick_count log end.

Fixpoint ticks_since (id : Z) (log : list tween_event) : nat :=
  match log with
  | [] => O
  | EvStart j :: log => if j =? id then tick_count log else ticks_since id log
  | _ :: log => ticks_since id log
  end.

Definition elapsed_at (k : nat) : num := Nat.iter k (fun x => fadd x f1) f0.

Definition progress_at (tw : Tween) (k : nat) : num := progress (elapsed_at k) (durationTicks tw).

(** Whether the [k]-th visit is the last. *)
Definition last_at (tw : Tween) (k : nat) : bool := fle f1 (progress_at tw k).

Definition course (tw : Tween) (k : nat) : list num := (fun j => value tw (progress_at tw j)) <$> seq 1 k.

Lemma values_app id l k : values id (l ++ k) = values id l ++ values id k.
Proof. induction l as [|[] l IH]; simpl; try done. destruct (_ =? _); [by rewrite IH|done]. Qed.

Lemma tick_count_app l k : tick_count (l ++ k) = (tick_count l + tick_count k)%nat.
Proof. induction l as [|[] l IH]; simpl; lia. Qed.

Fixpoint started (id : Z) (log : list tween_event) : bool :=
  match log with [] => false | EvStart j :: log => (j =? id) || started id log | _ :: log => started id log end.

Lemma started_app id l k : started id (l ++ k) = started id l || started id k.
Proof. induction l as [|[] l IH]; simpl; try done. by rewrite IH, orb_assoc. Qed.

Lemma ticks_since_app id l k :
  ticks_since id (l ++ k) = if started id l then (ticks_since id l + tick_count k)%nat else ticks_since id k.
Proof. induction l as [|[] l IH]; simpl; try done. destruct (id0 =? id); simpl; [apply tick_count_app|done]. Qed.

(** ** The invariant *)

(** [P] are the tweens a walk in progress has yet to visit, [fin] the one whose last
    write is being made. *)
Record course_ok (P : list Z) (fin : option Z) (log : list tween_event) (e : TweenEngine) (id : Z) (tw : Tween) : Prop := {
  co_started : started id log = true;
  co_next : id < next_id e;
  co_values : values id log = course tw (length (values id log));
  co_elapsed : elapsed tw = elapsed_at (length (values id log));
  co_early j : (1 <= j < length (values id log))%nat -> last_at tw j = false;
  co_live : id ∈ tweens e ->
    cancelled tw = false
    /\ (fin = Some id \/ ((1 <= length (values id log))%nat -> last_at tw (length (values id log)) = false))
    /\ (length (values id log) + (if decide (id ∈ P) then 1 else 0) = ticks_since id log)%nat;
  co_over : id ∉ tweens e ->
    EvClear ∈ log \/ (EvResolve id ∈ log /\
      (EvCancel id ∈ log \/ ((1 <= length (values id log))%nat /\ last_at tw (length (values id log)) = true)));
}.

Record inv (P : list Z) (fin : option Z) (log : list tween_event) (e : TweenEngine) : Prop := {
  i_nodup : NoDup (tweens e);
  i_pending id : id ∈ P -> id < next_id e;
  i_fresh id : next_id e <= id -> started id log = false /\ values id log = [];
  i_object id : id ∈ tweens e -> is_Some (tween e id);
  i_course id tw : tween e id = Some tw -> course_ok P fin log e id tw;
  i_prop pk id : mget (byProp e) pk = Some id <-> id ∈ tweens e /\ exists tw, tween e id = Some tw /\ key_of tw = pk;
}.

Lemma inv_new : inv [] None [] new_engine.
Proof.
  split; simpl; try done.
  - apply NoDup_nil_2.
  - intros id Hid. by apply not_elem_of_nil in Hid.
  - intros id Hid. by apply not_elem_of_nil in Hid.
  - intros pk id. split; [done|]. intros [Hid _]. by apply not_elem_of_nil in Hid.
Qed.

(** Events that say nothing of a tween. *)
Definition silent (id : Z) (ev : list tween_event) : Prop := values id ev = [] /\ tick_count ev = 0%nat.

Lemma course_frame P fin log e id tw ev e' :
  course_ok P fin log e id tw -> silent id ev -> next_id e <= next_id e' ->
  (id ∈ tweens e' <-> id ∈ tweens e) -> course_ok P fin (log ++ ev) e' id tw.
Proof.
  intros [Hs Hn Hv He Hj Hl Ho] [Hv0 Ht0] Hnext Hin.
  assert (Hval : values id (log ++ ev) = values id log) by (rewrite values_app, Hv0; apply app_nil_r).
  split; try rewrite Hval; try done.
  - by rewrite started_app, Hs.
  - lia.
  - rewrite Hin. intros Hid. destruct (Hl Hid) as (H1 & H2 & H3). split; [done|]. split; [done|].
    rewrite ticks_since_app, Hs, Ht0. lia.
  - rewrite Hin. intros Hid. destruct (Ho Hid) as [Hc|[Hr H]]; [left; apply elem_of_app; by left|right].
    split; [apply elem_of_app; by left|]. destruct H as [Hc|H]; [left; apply elem_of_app; by left|by right].
Qed.

Lemma course_cancel P fin log e id tw ev e' :
  course_ok P fin log e id tw -> silent id ev -> next_id e <= next_id e' ->
  EvCancel id ∈ ev -> EvResolve id ∈ ev -> id ∉ tweens e' -> course_ok P fin (log ++ ev) e' id (mark_cancelled tw).
Proof.
  intros [Hs Hn Hv He Hj Hl Ho] [Hv0 Ht0] Hnext Hc Hr Hin.
  assert (Hval : values id (log ++ ev) = values id log) by (rewrite values_app, Hv0; apply app_nil_r).
  split; try rewrite Hval; try done.
  - by rewrite started_app, Hs.
  - lia.
  - intros _. right. split; [apply elem_of_app; by right|]. left. apply elem_of_app. by right.
Qed.

Lemma held_Some P fin log e id : inv P fin log e -> held e id = None <-> id ∉ tweens e.
Proof.
  intros Hi. unfold held. destruct (shas (tweens e) id) eqn:E; [apply shas_spec in E|apply shas_false in E]; [|done].
  destruct (i_object _ _ _ _ Hi id E) as [tw ->]. done.
Qed.

Lemma mget_drop_prop m key id pk :
  mget (drop_prop m key id) pk = if decide (pk = key /\ mget m key = Some id) then None else mget m pk.
Proof.
  unfold drop_prop. destruct (mget m key) as [j|] eqn:E.
  - destruct (j =? id) eqn:Ej; bool_facts.
    + subst. rewrite mget_mdel. destruct (decide (key = pk)) as [->|]; [by rewrite decide_True|].
      rewrite decide_False; [done|]. intros [-> _]. done.
    + rewrite decide_False; [done|]. intros [_ [= ?]]. done.
  - rewrite decide_False; [done|]. by intros [_ ?].
Qed.

(** A tween leaves the map: [byProp] follows. *)
Lemma prop_leave P fin log e id tw tween' next' rate' :
  inv P fin log e -> id ∈ tweens e -> tween e id = Some tw ->
  (forall j, j <> id -> tween' j = tween e j) ->
  forall pk j, mget (byProp (MkEngine (sdel (tweens e) id) tween' (drop_prop (byProp e) (key_of tw) id) next' rate')) pk = Some j
    <-> j ∈ sdel (tweens e) id /\ exists tw', tween' j = Some tw' /\ key_of tw' = pk.
Proof.
  intros Hi Hid Htw Hsame pk j. simpl. rewrite mget_drop_prop, elem_of_sdel.
  assert (Hkey : mget (byProp e) (key_of tw) = Some id) by (apply (i_prop _ _ _ _ Hi); eauto).
  destruct (decide _) as [[-> _]|Hn].
  - split; [done|]. intros ((Hj & Hne) & tw' & Htw' & Hk). rewrite Hsame in Htw' by done.
    assert (Hkj : mget (byProp e) (key_of tw) = Some j) by (apply (i_prop _ _ _ _ Hi); eauto). congruence.
  - rewrite (i_prop _ _ _ _ Hi). split.
    + intros (Hj & tw' & Htw' & Hk). assert (Hne : j <> id).
      { intros ->. rewrite Htw in Htw'. injection Htw' as <-. apply Hn. by split. }
      split; [done|]. exists tw'. by rewrite Hsame.
    + intros ((Hj & Hne) & tw' & Htw' & Hk). rewrite Hsame in Htw' by done. eauto.
Qed.

Lemma inv_cancel P fin log e id :
  inv P fin log e -> let '(ev, e') := cancel e id in inv P fin (log ++ ev) e' /\ next_id e' = next_id e /\ (id ∉ tweens e')
    /\ (forall j, j ∈ tweens e' -> j ∈ tweens e /\ tween e' j = tween e j).
Proof.
  intros Hi. unfold cancel. destruct (held e id) as [tw|] eqn:Hh.
  2:{ rewrite app_nil_r. split; [done|]. split; [done|]. split; [by apply (held_Some _ _ _ _ _ Hi)|done]. }
  unfold held in Hh. destruct (shas (tweens e) id) eqn:Hs; [|done]. apply shas_spec in Hs.
  split; [|split; [done|split; [simpl; rewrite elem_of_sdel; tauto|]]].
  2:{ intros j Hj. simpl in *. apply elem_of_sdel in Hj as [Hj Hne]. by rewrite fn_lookup_insert_ne by congruence. }
  assert (Hsil : forall j, silent j [EvCancel id; EvResolve id]) by (intros j; by split).
  destruct Hi as [Hnd Hp Hf Ho Hc Hpr]. split; simpl.
  - by apply NoDup_sdel.
  - done.
  - intros j Hj. rewrite started_app, values_app. destruct (Hf j Hj) as [-> ->]. done.
  - intros j [Hj Hne]%elem_of_sdel. rewrite fn_lookup_insert_ne by congruence. by apply Ho.
  - intros j twj Hj. destruct (decide (j = id)) as [->|Hne].
    + rewrite fn_lookup_insert in Hj. injection Hj as <-.
      apply (course_cancel P fin log e id tw); [by apply Hc|apply Hsil|done|left|right; left|simpl; rewrite elem_of_sdel; tauto].
    + rewrite fn_lookup_insert_ne in Hj by congruence.
      apply (course_frame P fin log e j twj); [by apply Hc|apply Hsil|done|simpl; rewrite elem_of_sdel; tauto].
  - apply (prop_leave P fin log e id tw _ (next_id e) (simRate e)); [by split|done|done|]. intros j Hne. by rewrite fn_lookup_insert_ne by congruence.
Qed.

Lemma fresh_not_in P fin log e : inv P fin log e -> next_id e ∉ tweens e.
Proof.
  intros Hi Hin. destruct (i_object _ _ _ _ Hi _ Hin) as [tw Htw].
  pose proof (co_next _ _ _ _ _ _ (i_course _ _ _ _ Hi _ _ Htw)). lia.
Qed.

(** A tween enters the map under a key nothing holds. *)
Lemma inv_add P fin log e t p from_ to_ host ticks curve owner :
  inv P fin log e -> mget (byProp e) (propKey t p) = None -> fin <> Some (next_id e) ->
  inv P fin (log ++ [EvStart (next_id e)])
    (MkEngine (sadd (tweens e) (next_id e))
       (<[next_id e := Some (MkTween host t p from_ to_ f0 ticks curve owner false)]> (tween e))
       (mset (byProp e) (propKey t p) (next_id e)) (next_id e + 1) (simRate e)).
Proof.
  intros Hi Hkey Hfin. pose proof (fresh_not_in _ _ _ _ Hi) as Hnew. pose proof Hi as [Hnd Hp Hf Ho Hc Hpr]. split; simpl.
  - by apply NoDup_sadd.
  - intros id Hid. specialize (Hp id Hid). lia.
  - intros id Hid. rewrite started_app, values_app. destruct (Hf id) as [-> ->]; [lia|]. simpl.
    destruct (next_id e =? id) eqn:E; bool_facts; [lia|done].
  - intros id [->|Hid]%elem_of_sadd; [rewrite fn_lookup_insert; by eexists|].
    rewrite fn_lookup_insert_ne by congruence. by apply Ho.
  - intros id tw Htw. destruct (decide (id = next_id e)) as [->|Hne].
    + rewrite fn_lookup_insert in Htw. injection Htw as <-. destruct (Hf (next_id e)) as [Hs Hv]; [lia|].
      assert (Hval : values (next_id e) (log ++ [EvStart (next_id e)]) = []) by by rewrite values_app, Hv.
      split; try rewrite Hval; simpl.
      * rewrite started_app, Hs. simpl. by rewrite Z.eqb_refl.
      * lia.
      * done.
      * done.
      * lia.
      * intros _. split; [done|]. split; [right; lia|]. rewrite ticks_since_app, Hs. simpl. rewrite Z.eqb_refl.
        rewrite decide_False; [done|]. intros Hin. specialize (Hp _ Hin). lia.
      * intros Hn. exfalso. apply Hn, elem_of_sadd. by left.
    + rewrite fn_lookup_insert_ne in Htw by congruence.
      apply (course_frame P fin log e id tw); [by apply Hc|by split|simpl; lia|].
      simpl. rewrite elem_of_sadd. naive_solver.
  - intros pk id. rewrite mget_mset, elem_of_sadd. destruct (decide (propKey t p = pk)) as [<-|Hk].
    + split.
      * intros [= <-]. split; [by left|]. eexists. by rewrite fn_lookup_insert.
      * intros ([->|Hid] & tw & Htw & Hk); [done|]. rewrite fn_lookup_insert_ne in Htw by congruence.
        assert (Hg : mget (byProp e) (propKey t p) = Some id) by (apply Hpr; eauto). congruence.
    + rewrite Hpr. split.
      * intros (Hid & tw & Htw & Hk'). split; [by right|]. exists tw. rewrite fn_lookup_insert_ne by congruence. done.
      * intros ([->|Hid] & tw & Htw & Hk').
        -- rewrite fn_lookup_insert in Htw. injection Htw as <-. done.
        -- rewrite fn_lookup_insert_ne in Htw by congruence. eauto.
Qed.

Lemma inv_start P fin log e t p from_ to_ seconds host curve owner :
  inv P fin log e -> (forall id, fin = Some id -> id < next_id e) ->
  let '(ev, e', _) := start e t p from_ to_ seconds host curve owner in
  inv P fin (log ++ ev) e' /\ next_id e <= next_id e'.
Proof.
  intros Hi Hfin. unfold start.
  assert (H1 : exists ev1 e1, (match mget (byProp e) (propKey t p) with Some existing => cancel e existing | None => ([], e) end) = (ev1, e1)
    /\ inv P fin (log ++ ev1) e1 /\ next_id e1 = next_id e /\ mget (byProp e1) (propKey t p) = None).
  { destruct (mget (byProp e) (propKey t p)) as [existing|] eqn:E.
    - pose proof (inv_cancel P fin log e existing Hi) as Hcancel. destruct (cancel e existing) as [ev1 e1].
      destruct Hcancel as (Hi1 & Hn1 & Hout & Hkeep). exists ev1, e1. split; [done|]. split; [done|]. split; [done|].
      destruct (mget (byProp e1) (propKey t p)) as [j|] eqn:Ej; [|done].
      apply (i_prop _ _ _ _ Hi1) in Ej as (Hj & tw & Htw & Hk). destruct (Hkeep j Hj) as [Hj' Heq].
      assert (Hg : mget (byProp e) (propKey t p) = Some j) by (apply (i_prop _ _ _ _ Hi); rewrite Heq in Htw; eauto).
      rewrite E in Hg. injection Hg as <-. done.
    - exists [], e. by rewrite app_nil_r. }
  destruct H1 as (ev1 & e1 & -> & Hi1 & Hn1 & Hkey). destruct (negb (isFinite seconds)); [split; [done|lia]|].
  rewrite app_assoc. split; [|simpl; lia]. apply inv_add; [done|done|]. intros Hf. specialize (Hfin _ Hf). lia.
Qed.

Lemma inv_cancels P fin ids : forall log0 ev e,
  inv P fin (log0 ++ ev) e ->
  let '(ev', e') := foldl (fun st id => let '(ev, e) := cancel st.2 id in (st.1 ++ ev, e)) (ev, e) ids in
  inv P fin (log0 ++ ev') e' /\ next_id e' = next_id e.
Proof.
  induction ids as [|id ids IH]; intros log0 ev e Hi; cbn [foldl]; [done|]. simpl.
  pose proof (inv_cancel P fin _ e id Hi) as Hc. destruct (cancel e id) as [ev1 e1] eqn:E.
  destruct Hc as (Hi1 & Hn1 & _). rewrite <- app_assoc in Hi1. specialize (IH log0 (ev ++ ev1) e1 Hi1).
  destruct (foldl _ (ev ++ ev1, e1) ids) as [ev' e']. destruct IH as [? ?]. split; [done|congruence].
Qed.

Lemma inv_call P fin log e owner c :
  inv P fin log e -> (forall id, fin = Some id -> id < next_id e) ->
  let '(ev, e', _) := do_call e owner c in inv P fin (log ++ ev) e' /\ next_id e <= next_id e'.
Proof.
  intros Hi Hfin. destruct c as [t p from_ to_ s host curve|id|host]; simpl.
  - by apply inv_start.
  - pose proof (inv_cancel P fin log e id Hi) as Hc. destruct (cancel e id) as [ev e']. destruct Hc as (? & ? & _).
    split; [done|lia].
  - unfold cancelScope. destruct (host =? NO_SCOPE); [by rewrite app_nil_r|].
    pose proof (inv_cancels P fin (filter (fun id => hosted e host id = true) (tweens e)) log [] e) as Hc.
    rewrite app_nil_r in Hc. specialize (Hc Hi). destruct (foldl _ _ _) as [ev e']. destruct Hc as [? ?]. split; [done|lia].
Qed.

Lemma inv_calls P fin owner cs : forall log e,
  inv P fin log e -> (forall id, fin = Some id -> id < next_id e) ->
  let '(ev, e') := do_calls e owner cs in inv P fin (log ++ ev) e' /\ next_id e <= next_id e'.
Proof.
  induction cs as [|c cs IH]; intros log e Hi Hfin; cbn [do_calls]; [by rewrite app_nil_r|].
  pose proof (inv_call P fin log e owner c Hi Hfin) as Hc. destruct (do_call e owner c) as [[ev e1] err].
  destruct Hc as [Hi1 Hn1]. destruct err; [done|].
  specialize (IH (log ++ ev) e1 Hi1). destruct (do_calls e1 owner cs) as [ev' e2].
  destruct IH as [Hi2 Hn2]; [intros id Hid; specialize (Hfin id Hid); lia|].
  rewrite app_assoc. split; [done|lia].
Qed.

(** ** What calls leave alone *)

Lemma silent_app id l k : silent id l -> silent id k -> silent id (l ++ k).
Proof. intros [H1 H2] [H3 H4]. split; [by rewrite values_app, H1, H3|rewrite tick_count_app; lia]. Qed.

Lemma silent_cancel id e j : silent id (cancel e j).1.
Proof. unfold cancel. destruct (held e j); by split. Qed.

Lemma silent_cancels id ids : forall ev e,
  silent id ev -> silent id (foldl (fun st id => let '(ev, e) := cancel st.2 id in (st.1 ++ ev, e)) (ev, e) ids).1.
Proof.
  induction ids as [|j ids IH]; intros ev e Hs; [done|]. cbn [foldl fst snd]. pose proof (silent_cancel id e j) as Hc.
  destruct (cancel e j) as [ev1 e1]. apply IH. by apply silent_app.
Qed.

Lemma silent_call id e owner c : silent id (do_call e owner c).1.1.
Proof.
  destruct c as [t p from_ to_ s host curve|j|host]; simpl.
  - unfold start. assert (H1 : silent id (match mget (byProp e) (propKey t p) with Some x => cancel e x | None => ([], e) end).1)
      by (destruct (mget _ _); [apply silent_cancel|by split]).
    destruct (match mget (byProp e) (propKey t p) with Some x => cancel e x | None => ([], e) end) as [ev1 e1].
    destruct (negb _); [done|]. simpl in *. apply silent_app; [done|by split].
  - pose proof (silent_cancel id e j) as Hc. by destruct (cancel e j).
  - unfold cancelScope. destruct (host =? NO_SCOPE); [by split|].
    pose proof (silent_cancels id (filter (fun id => hosted e host id = true) (tweens e)) [] e (conj eq_refl eq_refl)) as Hc.
    by destruct (foldl _ _ _).
Qed.

Lemma silent_calls id owner cs : forall e, silent id (do_calls e owner cs).1.
Proof.
  induction cs as [|c cs IH]; intros e; [by split|]. cbn [do_calls]. pose proof (silent_call id e owner c) as Hc.
  destruct (do_call e owner c) as [[ev e1] err]. destruct err; [done|]. specialize (IH e1).
  destruct (do_calls e1 owner cs) as [ev' e2]. by apply silent_app.
Qed.

Definition objects_below (e : TweenEngine) : Prop := forall id, is_Some (tween e id) -> id < next_id e.

(** A started tween changes under calls by being cancelled only. *)
Definition keeps (e e' : TweenEngine) : Prop :=
  objects_below e' /\ next_id e <= next_id e'
  /\ forall id tw, tween e id = Some tw -> tween e' id = Some tw \/ tween e' id = Some (mark_cancelled tw).

Lemma keeps_refl e : objects_below e -> keeps e e.
Proof. intros Hb. split; [done|]. split; [lia|]. by left. Qed.

Lemma keeps_trans e1 e2 e3 : keeps e1 e2 -> keeps e2 e3 -> keeps e1 e3.
Proof.
  intros (_ & Hn1 & H1) (Hb & Hn2 & H2). split; [done|]. split; [lia|]. intros id tw Htw.
  destruct (H1 id tw Htw) as [H|H]; destruct (H2 id _ H) as [H'|H']; auto.
Qed.

Lemma keeps_cancel e id : objects_below e -> keeps e (cancel e id).2.
Proof.
  intros Hb. unfold cancel. destruct (held e id) as [tw|] eqn:Hh; [|by apply keeps_refl].
  assert (Htw : tween e id = Some tw) by (unfold held in Hh; by destruct (shas _ _)).
  split; [|split; [simpl; lia|]]; intros j; simpl; destruct (decide (j = id)) as [->|Hne].
  - intros _. apply Hb. by rewrite Htw.
  - rewrite fn_lookup_insert_ne by congruence. apply Hb.
  - intros twj Hj. rewrite fn_lookup_insert. right. congruence.
  - intros twj Hj. rewrite fn_lookup_insert_ne by congruence. by left.
Qed.

Lemma keeps_cancels ids : forall ev e, objects_below e ->
  keeps e (foldl (fun st id => let '(ev, e) := cancel st.2 id in (st.1 ++ ev, e)) (ev, e) ids).2.
Proof.
  induction ids as [|id ids IH]; intros ev e Hb; [by apply keeps_refl|]. cbn [foldl fst snd].
  pose proof (keeps_cancel e id Hb) as Hk. destruct (cancel e id) as [ev1 e1]. simpl in Hk.
  apply (keeps_trans e e1); [done|]. apply IH. apply Hk.
Qed.

Lemma keeps_call e owner c : objects_below e -> keeps e (do_call e owner c).1.2.
Proof.
  intros Hb. destruct c as [t p from_ to_ s host curve|id|host]; simpl.
  - unfold start. assert (H1 : keeps e (match mget (byProp e) (propKey t p) with Some x => cancel e x | None => ([], e) end).2)
      by (destruct (mget _ _); [by apply keeps_cancel|by apply keeps_refl]).
    destruct (match mget (byProp e) (propKey t p) with Some x => cancel e x | None => ([], e) end) as [ev1 e1].
    destruct (negb _); [done|]. simpl in *. apply (keeps_trans e e1); [done|]. destruct H1 as (Hb1 & _ & _).
    split; [|split; [simpl; lia|]]; intros j; simpl; destruct (decide (j = next_id e1)) as [->|Hne].
    + lia.
    + rewrite fn_lookup_insert_ne by congruence. intros Hj. specialize (Hb1 j Hj). lia.
    + intros tw Htw. assert (next_id e1 < next_id e1) by (apply Hb1; by rewrite Htw). lia.
    + intros tw Htw. rewrite fn_lookup_insert_ne by congruence. by left.
  - pose proof (keeps_cancel e id Hb) as Hk. by destruct (cancel e id).
  - unfold cancelScope. destruct (host =? NO_SCOPE); [by apply keeps_refl|].
    pose proof (keeps_cancels (filter (fun id => hosted e host id = true) (tweens e)) [] e Hb) as Hk.
    by destruct (foldl _ _ _).
Qed.

Lemma keeps_calls owner cs : forall e, objects_below e -> keeps e (do_calls e owner cs).2.
Proof.
  induction cs as [|c cs IH]; intros e Hb; [by apply keeps_refl|]. cbn [do_calls]. pose proof (keeps_call e owner c Hb) as Hk.
  destruct (do_call e owner c) as [[ev e1] err]. destruct err; [done|]. simpl in Hk.
  assert (Hk' : keeps e1 (do_calls e1 owner cs).2) by (apply IH, Hk).
  destruct (do_calls e1 owner cs) as [ev' e2]. by apply (keeps_trans e e1).
Qed.

Lemma inv_objects P fin log e : inv P fin log e -> objects_below e.
Proof. intros Hi id [tw Htw]. by apply (i_course _ _ _ _ Hi id tw). Qed.

(** ** A visit *)

Lemma inv_skip P log e id : inv (id :: P) None log e -> id ∉ tweens e -> inv P None log e.
Proof.
  intros [Hnd Hp Hf Ho Hc Hpr] Hid. split; try done.
  - intros j Hj. apply Hp. by right.
  - intros j tw Hj. destruct (Hc j tw Hj) as [Hs Hn Hv He Hea Hl Hov]. split; try done.
    intros Hin. destruct (Hl Hin) as (H1 & H2 & H3). split; [done|]. split; [done|].
    destruct (decide (j ∈ P)) as [HP|HP], (decide (j ∈ id :: P)) as [HP'|HP']; try lia.
    + exfalso. apply HP'. by right.
    + apply elem_of_cons in HP' as [->|]; done.
Qed.

Lemma elapsed_S k : elapsed_at (S k) = fadd (elapsed_at k) f1.
Proof. done. Qed.

Lemma course_S tw k : course tw (S k) = course tw k ++ [value tw (progress_at tw (S k))].
Proof. unfold course. rewrite seq_S, fmap_app. done. Qed.

(** The write: one more value, one more tick accounted for. *)
Lemma inv_write P log e id tw :
  inv (id :: P) None log e -> NoDup (id :: P) -> id ∈ tweens e -> tween e id = Some tw ->
  let tw' := with_elapsed tw (fadd (elapsed tw) f1) in
  let k := length (values id log) in
  let fin := if last_at tw (S k) then Some id else None in
  progress (elapsed tw') (durationTicks tw') = progress_at tw (S k)
  /\ inv P fin (log ++ [EvSet id (value tw' (progress_at tw (S k)))])
       (MkEngine (tweens e) (<[id := Some tw']> (tween e)) (byProp e) (next_id e) (simRate e)).
Proof.
  intros Hi HnP Hid Htw tw' k fin. pose proof Hi as [Hnd Hp Hf Ho Hc Hpr].
  destruct (Hc id tw Htw) as [Hs Hn Hv He Hea Hl Hov]. destruct (Hl Hid) as (Hcan & Hlast & Hticks). fold k in Hv, He, Hea, Hlast, Hticks.
  destruct Hlast as [?|Hlast]; [done|]. rewrite decide_True in Hticks by left.
  apply NoDup_cons in HnP as [HidP _].
  assert (Hel : elapsed tw' = elapsed_at (S k)) by (simpl; by rewrite He).
  split; [unfold progress_at; by rewrite Hel|]. split; simpl; try done.
  - intros j Hj. apply Hp. by right.
  - intros j Hj. rewrite started_app, values_app. destruct (Hf j Hj) as [-> ->]. simpl.
    destruct (id =? j) eqn:E; bool_facts; [lia|done].
  - intros j Hj. destruct (decide (j = id)) as [->|Hne]; [rewrite fn_lookup_insert; by eexists|].
    rewrite fn_lookup_insert_ne by congruence. by apply Ho.
  - intros j twj Hj. destruct (decide (j = id)) as [->|Hne].
    + rewrite fn_lookup_insert in Hj. injection Hj as <-.
      set (ev := [EvSet id (value tw' (progress_at tw (S k)))]).
      assert (Hval : values id (log ++ ev) = course tw (S k)).
      { rewrite values_app, course_S, <- Hv. unfold ev. simpl. by rewrite Z.eqb_refl. }
      assert (Hlen : length (values id (log ++ ev)) = S k).
      { rewrite Hval. unfold course. by rewrite length_fmap, length_seq. }
      split; try rewrite Hlen; try done.
      * by rewrite started_app, Hs.
      * intros j Hj. destruct (decide (j = k)) as [->|]; [apply Hlast; lia|apply Hea; lia].
      * intros _. split; [done|]. split.
        -- unfold fin. change (last_at tw' (S k)) with (last_at tw (S k)). destruct (last_at tw (S k)); [by left|by right].
        -- rewrite decide_False by done. rewrite ticks_since_app, Hs. simpl. lia.
    + rewrite fn_lookup_insert_ne in Hj by congruence.
      destruct (course_frame (id :: P) None log e j twj [EvSet id (value tw' (progress_at tw (S k)))] e) as [Hs' Hn' Hv' He' Hea' Hl' Hov'].
      * by apply Hc.
      * split; [|done]. simpl. destruct (id =? j) eqn:E; bool_facts; [congruence|done].
      * lia.
      * done.
      * split; simpl; try done. intros Hin. destruct (Hl' Hin) as (H1 & H2 & H3). split; [done|]. split; [by destruct H2; [|right]|].
        destruct (decide (j ∈ P)) as [HP|HP], (decide (j ∈ id :: P)) as [HP'|HP']; try lia.
        -- exfalso. apply HP'. by right.
        -- apply elem_of_cons in HP' as [?|?]; done.
  - intros pk j. rewrite Hpr. destruct (decide (j = id)) as [->|Hne].
    + rewrite fn_lookup_insert. split; intros (Hin & twj & Hj & Hk); split; try done.
      * rewrite Htw in Hj. injection Hj as <-. by exists tw'.
      * injection Hj as <-. by exists tw.
    + by rewrite fn_lookup_insert_ne by congruence.
Qed.

(** The removal of the tween whose last write was made. *)
Lemma inv_finish P log e id tw tw0 :
  inv P (Some id) log e -> tween e id = Some tw -> key_of tw0 = key_of tw ->
  (1 <= length (values id log))%nat -> last_at tw (length (values id log)) = true ->
  inv P None (log ++ [EvResolve id]) (finish e tw0 id).
Proof.
  intros Hi Htw Hkey Hk Hlast. pose proof Hi as [Hnd Hp Hf Ho Hc Hpr].
  assert (Hsil : forall j, silent j [EvResolve id]) by (intros; by split).
  unfold finish. rewrite Hkey. split; simpl.
  - by apply NoDup_sdel.
  - done.
  - intros j Hj. rewrite started_app, values_app. destruct (Hf j Hj) as [-> ->]. done.
  - intros j [Hj _]%elem_of_sdel. by apply Ho.
  - intros j twj Hj. destruct (decide (j = id)) as [->|Hne].
    + destruct (Hc id twj Hj) as [Hs Hn Hv He Hea Hl Hov].
      assert (Hval : values id (log ++ [EvResolve id]) = values id log) by by rewrite values_app, app_nil_r.
      split; try rewrite Hval; try done.
      * by rewrite started_app, Hs.
      * simpl. intros Hin. apply elem_of_sdel in Hin as [_ ?]. done.
      * simpl. intros _. right. split; [apply elem_of_app; right; left|]. right. split; [done|].
        rewrite Htw in Hj. by injection Hj as <-.
    + destruct (course_frame P (Some id) log e j twj [EvResolve id] (finish e tw0 id)) as [Hs' Hn' Hv' He' Hea' Hl' Hov'].
      * by apply Hc.
      * apply Hsil.
      * simpl. lia.
      * simpl. rewrite elem_of_sdel. tauto.
      * split; simpl; try done. intros Hin. destruct (Hl' Hin) as (H1 & H2 & H3). split; [done|]. split; [|done].
        destruct H2 as [[= ?]|H2]; [congruence|by right].
  - intros pk j. destruct (decide (id ∈ tweens e)) as [Hin|Hin].
    + apply (prop_leave P (Some id) log e id tw (tween e) (next_id e) (simRate e)); done.
    + rewrite mget_drop_prop, elem_of_sdel. destruct (decide _) as [[-> Hg]|Hn].
      * apply Hpr in Hg as [? _]. done.
      * rewrite Hpr. split; [|tauto]. intros (Hj & H). split; [|done]. split; [done|]. by intros ->.
Qed.

Lemma inv_visit horizon P log e w id :
  inv (id :: P) None log e -> NoDup (id :: P) -> id < horizon ->
  let '(log', e', _) := visit horizon (log, e, w) id in inv P None log' e' /\ next_id e <= next_id e'.
Proof.
  intros Hi HnP Hlt. unfold visit. destruct (held e id) as [tw|] eqn:Hh.
  2:{ split; [|lia]. apply (inv_skip P log e id); [done|]. by apply (held_Some _ _ _ _ _ Hi). }
  unfold held in Hh. destruct (shas (tweens e) id) eqn:Hin; [|done]. apply shas_spec in Hin.
  destruct (co_live _ _ _ _ _ _ (i_course _ _ _ _ Hi id tw Hh) Hin) as (Hcan & _). rewrite Hcan.
  rewrite (proj2 (Z.leb_gt horizon id)) by lia. simpl orb. cbv iota zeta.
  destruct (inv_write P log e id tw Hi HnP Hin Hh) as [Hprog Hw]. set (k := length (values id log)) in *.
  set (tw' := with_elapsed tw (fadd (elapsed tw) f1)) in *. rewrite Hprog.
  set (e1 := MkEngine (tweens e) (<[id := Some tw']> (tween e)) (byProp e) (next_id e) (simRate e)) in *.
  destruct (write w e1 (tw_owner tw') (target tw') (prop tw') (value tw' (progress_at tw (S k)))) as [cs w'].
  pose proof (silent_calls id (tw_owner tw') cs e1) as Hsil. pose proof (keeps_calls (tw_owner tw') cs e1 (inv_objects _ _ _ _ Hw)) as Hkeep.
  assert (Hfin : forall j, (if last_at tw (S k) then Some id else None) = Some j -> j < next_id e1).
  { intros j Hj. destruct (last_at tw (S k)); [|done]. injection Hj as <-. apply (i_pending _ _ _ _ Hi). left. }
  pose proof (inv_calls P _ (tw_owner tw') cs _ e1 Hw Hfin) as Hc.
  destruct (do_calls e1 (tw_owner tw') cs) as [ev e2]. destruct Hc as [Hi2 Hn2]. simpl in Hn2, Hsil, Hkeep.
  rewrite <- app_assoc in Hi2. simpl in Hi2. change (fle f1 (progress_at tw (S k))) with (last_at tw (S k)).
  destruct (last_at tw (S k)) eqn:Elast; [|done].
  destruct Hkeep as (_ & _ & Hkeep). specialize (Hkeep id tw'). unfold e1 in Hkeep at 1. simpl in Hkeep. rewrite fn_lookup_insert in Hkeep.
  assert (Hval : length (values id (log ++ EvSet id (value tw' (progress_at tw (S k))) :: ev)) = S k).
  { rewrite values_app, length_app. simpl. rewrite Z.eqb_refl. destruct Hsil as [-> _]. simpl. fold k. lia. }
  split; [|simpl; lia]. destruct (Hkeep eq_refl) as [Htw2|Htw2].
  - apply (inv_finish P _ e2 id tw'); [done|done|done|rewrite Hval; lia|by rewrite Hval].
  - apply (inv_finish P _ e2 id (mark_cancelled tw')); [done|done|done|rewrite Hval; lia|by rewrite Hval].
Qed.

Lemma inv_walk horizon P : forall log e w,
  inv P None log e -> NoDup P -> (forall id, id ∈ P -> id < horizon) ->
  let '(log', e', _) := foldl (visit horizon) (log, e, w) P in inv [] None log' e'.
Proof.
  induction P as [|id P IH]; intros log e w Hi Hn Hlt; cbn [foldl]; [done|].
  pose proof (inv_visit horizon P log e w id Hi Hn (Hlt id ltac:(left))) as Hv.
  destruct (visit horizon (log, e, w) id) as [[log1 e1] w1]. destruct Hv as [Hi1 _].
  apply IH; [done|by apply NoDup_cons in Hn as [_ ?]|]. intros j Hj. apply Hlt. by right.
Qed.

(** A tick is owed to every tween in the map. *)
Lemma inv_tick log e : inv [] None log e -> inv (tweens e) None (log ++ [EvTick]) e.
Proof.
  intros [Hnd Hp Hf Ho Hc Hpr]. split; try done.
  - intros id Hid. destruct (Ho id Hid) as [tw Htw]. by apply (Hc id tw).
  - intros id Hid. rewrite started_app, values_app. by destruct (Hf id Hid) as [-> ->].
  - intros id tw Htw. destruct (Hc id tw Htw) as [Hs Hn Hv He Hea Hl Hov].
    assert (Hval : values id (log ++ [EvTick]) = values id log) by by rewrite values_app, app_nil_r.
    split; try rewrite Hval; try done.
    + by rewrite started_app, Hs.
    + intros Hin. destruct (Hl Hin) as (H1 & H2 & H3). split; [done|]. split; [done|].
      rewrite decide_True by done. rewrite decide_False in H3 by apply not_elem_of_nil.
      rewrite ticks_since_app, Hs. simpl. lia.
    + intros Hin. destruct (Hov Hin) as [H|[H1 H2]]; [left; apply elem_of_app; by left|right].
      split; [apply elem_of_app; by left|]. destruct H2 as [H2|H2]; [left; apply elem_of_app; by left|by right].
Qed.

Lemma inv_clear log e : inv [] None log e -> inv [] None (log ++ [EvClear]) (clear e).
Proof.
  intros [Hnd Hp Hf Ho Hc Hpr]. split; simpl; try done.
  - apply NoDup_nil_2.
  - intros id Hid. rewrite started_app, values_app. by destruct (Hf id Hid) as [-> ->].
  - intros id Hid. by apply not_elem_of_nil in Hid.
  - intros id tw Htw. destruct (Hc id tw Htw) as [Hs Hn Hv He Hea Hl Hov].
    assert (Hval : values id (log ++ [EvClear]) = values id log) by by rewrite values_app, app_nil_r.
    split; try rewrite Hval; try done.
    + by rewrite started_app, Hs.
    + simpl. intros Hin. by apply not_elem_of_nil in Hin.
    + intros _. left. apply elem_of_app. right. left.
  - intros pk id. split; [done|]. intros [Hin _]. by apply not_elem_of_nil in Hin.
Qed.

(** The log of a fold of visits only grows. *)
Lemma walk_log horizon P : forall log e w, exists ev, (foldl (visit horizon) (log, e, w) P).1.1 = log ++ ev
  /\ forall log0, foldl (visit horizon) (log0 ++ log, e, w) P
       = (log0 ++ (foldl (visit horizon) (log, e, w) P).1.1, (foldl (visit horizon) (log, e, w) P).1.2, (foldl (visit horizon) (log, e, w) P).2).
Proof.
  induction P as [|id P IH]; intros log e w; cbn [foldl]; [exists []; by rewrite app_nil_r|].
  assert (Hv : exists ev e1 w1, forall log0, visit horizon (log0 ++ log, e, w) id = (log0 ++ log ++ ev, e1, w1)).
  { unfold visit. destruct (held e id) as [tw|]; [|exists [], e, w; intros; by rewrite app_nil_r].
    destruct (_ || _); [exists [], e, w; intros; by rewrite app_nil_r|]. cbv zeta. destruct (write _ _ _ _ _ _) as [cs w1].
    destruct (do_calls _ _ cs) as [ev e1]. destruct (fle f1 _).
    - eexists _, _, _. intros log0. rewrite <- !app_assoc. done.
    - eexists _, _, _. intros log0. rewrite <- app_assoc. done. }
  destruct Hv as (ev & e1 & w1 & Hv). pose proof (Hv []) as H0. cbn [app] in H0. rewrite H0.
  destruct (IH (log ++ ev) e1 w1) as (ev' & He & Hl). exists (ev ++ ev'). rewrite app_assoc. split; [done|].
  intros log0. rewrite Hv. apply Hl.
Qed.

Lemma inv_step log e w o :
  inv [] None log e -> let '(log', e', _) := step (log, e, w) o in inv [] None log' e'.
Proof.
  intros Hi. destruct o as [|owner c|rate|]; unfold step.
  - unfold advance. pose proof (inv_walk (next_id e) (tweens e) (log ++ [EvTick]) e w (inv_tick log e Hi)
      (i_nodup _ _ _ _ Hi)) as Hw.
    destruct (walk_log (next_id e) (tweens e) [EvTick] e w) as (_ & _ & Hl). rewrite Hl in Hw.
    destruct (foldl _ _ _) as [[ev e1] w1]. apply Hw. intros id Hid.
    destruct (i_object _ _ _ _ Hi id Hid) as [tw Htw]. by apply (i_course _ _ _ _ Hi id tw).
  - pose proof (inv_calls [] None owner [c] log e Hi) as Hc. destruct (do_calls e owner [c]) as [ev e1].
    by apply Hc.
  - destruct Hi as [Hnd Hp Hf Ho Hc Hpr]. split; try done. intros id tw Htw. rewrite <- (app_nil_r log).
    by apply (course_frame [] None log e id tw); [apply Hc| | |].
  - by apply inv_clear.
Qed.

Lemma inv_history w ops : let '(log, e, _) := history w ops in inv [] None log e.
Proof.
  unfold history. assert (Hg : forall log e w, inv [] None log e ->
    let '(log', e', _) := foldl step (log, e, w) ops in inv [] None log' e'); [|apply Hg, inv_new].
  induction ops as [|o ops IH]; intros log e w0 Hi; [done|]. cbn [foldl].
  pose proof (inv_step log e w0 o Hi) as Hs. destruct (step (log, e, w0) o) as [[log1 e1] w1]. by apply IH.
Qed.
End tweens.

(** ** Properties *)

(** A tween runs its course. Over any history of starts, cancels, ticks and rate
    changes, whatever a target's setter does to the engine while it is being written:
    the values a tween wrote are, in order, those of its curve at one tick, two ticks
    and so on, none after the one that reaches its end; a tween still running was
    written on every tick since its start and has not reached its end; one that is
    not, unless the engine was cleared, has resolved, having reached its end or been
    cancelled; and no two running tweens animate one property of one target. *)
Theorem tween_runs_its_course {T World} (target_key : T -> jstr)
    (write : World -> TweenEngine (T := T) -> option GuardOwner -> T -> jstr -> num -> list (tween_call (T := T)) * World)
    (w : World) (ops : list tween_op) :
  let '(log, e, _) := history target_key write w ops in
  (forall id tw, tween e id = Some tw ->
     let k := length (values id log) in
     values id log = course tw k
     /\ (forall j, (1 <= j < k)%nat -> last_at tw j = false)
     /\ (id ∈ tweens e -> k = ticks_since id log /\ ((1 <= k)%nat -> last_at tw k = false))
     /\ (id ∉ tweens e -> EvClear ∈ log \/
          (EvResolve id ∈ log /\ (EvCancel id ∈ log \/ ((1 <= k)%nat /\ last_at tw k = true)))))
  /\ (forall id id' tw tw', id ∈ tweens e -> id' ∈ tweens e -> tween e id = Some tw -> tween e id' = Some tw' ->
        key_of target_key tw = key_of target_key tw' -> id = id').
Proof.
  pose proof (inv_history target_key write w ops) as Hi. destruct (history target_key write w ops) as [[log e] w'].
  split.
  - intros id tw Htw k. destruct (i_course _ _ _ _ _ Hi id tw Htw) as [Hs Hn Hv He Hea Hl Hov]. fold k in Hv, Hea, Hl, Hov.
    split; [done|]. split; [done|]. split; [|done]. intros Hin. destruct (Hl Hin) as (_ & [?|H2] & H3); [done|].
    rewrite decide_False in H3 by apply not_elem_of_nil. split; [lia|done].
  - intros id id' tw tw' Hin Hin' Htw Htw' Hk.
    assert (H1 : mget (byProp e) (key_of target_key tw) = Some id) by (apply (i_prop _ _ _ _ _ Hi); eauto).
    assert (H2 : mget (byProp e) (key_of target_key tw) = Some id') by (apply (i_prop _ _ _ _ _ Hi); eauto).
    congruence.
Qed.

(** A linear tween of two ticks from 0 to 10, retargeted by its own setter on its first
    write: the second tween takes over and the first resolves. *)
Example retargeted_by_its_setter :
  let write := fun (w : bool) (_ : TweenEngine (T := jstr)) (_ : option GuardOwner) (t p : jstr) (_ : num) =>
    if w then ([], w) else ([CStart t p (of_Z 5) (of_Z 7) (dec 2 (-2)) NO_SCOPE linear], true) in
  let '(log, e, _) := history (fun k => k) write false
    [OCall None (CStart (js "a") (js "x") f0 (of_Z 10) (dec 3 (-2)) NO_SCOPE linear); OTick; OTick] in
  log = [EvStart 1; EvTick; EvSet 1 (of_Z 5); EvCancel 1; EvResolve 1; EvStart 2; EvTick; EvSet 2 (of_Z 7); EvResolve 2]
  /\ tweens e = [].
Proof. vm_compute. by split. Qed.

(** The last write of a tween is [from + (to - from)], which rounding can leave beside
    the target: a glide from 0.03 to 0.29 ends at 0.29000000000000004. *)
Example last_write_misses_target :
  let tw := MkTween NO_SCOPE (js "a") (js "x") (dec 3 (-2)) (dec 29 (-2)) f0 f1 linear None false in
  last_at tw 1 = true /\ feq (value tw (progress_at tw 1)) (to tw) = false.
Proof. vm_compute. by split. Qed.
