(* ===== verification/Metadata.v ===== *)
(** * Script declarations ([packages/core/src/script/metadata.ts, decorators.ts, types.ts])

    What a script class declares: its handlers and its [@serverState] names. A class's
    metadata object inherits from its parent's, so a class without declarations of its
    own reads its nearest ancestor's record, and the first declaration forks a copy. *)

From S2P Require Import Prelude JsMap Json.

Inductive ScriptLocation := LServer | LClient | LSynced.
Inductive Concurrency := concurrent | ignore | restart.
Inductive EventPhase := press | release | hold.

#[export] Instance ScriptLocation_eq_dec : EqDecision ScriptLocation.
Proof. solve_decision. Defined.
#[export] Instance Concurrency_eq_dec : EqDecision Concurrency.
Proof. solve_decision. Defined.
#[export] Instance EventPhase_eq_dec : EqDecision EventPhase.
Proof. solve_decision. Defined.

Inductive HandlerKind :=
  | onStart | onEnd | onUpdate | onEvent | onCollide | onEnter | onExit | onClick
  | onHoverEnter | onHoverExit | onPlayerJoin | onPlayerLeave | onPress | onRequest.

#[export] Instance HandlerKind_eq_dec : EqDecision HandlerKind.
Proof. solve_decision. Defined.

Record HandlerOptions := MkOptions { opt_concurrency : option Concurrency; opt_on : option EventPhase }.
Definition no_options : HandlerOptions := MkOptions None None.

Record HandlerDecl := MkDecl { decl_event : jstr; decl_kind : HandlerKind; methodName : jstr; decl_opts : HandlerOptions }.

Record ScriptMetadata := MkMetadata { meta_handlers : list HandlerDecl; meta_state : jsset jstr }.

Definition empty_metadata : ScriptMetadata := MkMetadata [] [].

(** Metadata objects are named by number. [lineage] of one is itself and then its
    prototypes, nearest first; [own] holds the records the objects have themselves. *)
Definition Records := jsmap nat ScriptMetadata.

Fixpoint getMetadata (own : Records) (lineage : list nat) : option ScriptMetadata :=
  match lineage with
  | [] => None
  | c :: up => match mget own c with Some m => Some m | None => getMetadata own up end
  end.

(** The record of the object itself, which exists afterwards. *)
Definition getOrCreateMetadata (own : Records) (lineage : list nat) : ScriptMetadata * Records :=
  match lineage with
  | [] => (empty_metadata, own)
  | self :: up =>
      match mget own self with
      | Some m => (m, own)
      | None =>
          let m := nullish (getMetadata own up) empty_metadata in
          (m, mset own self m)
      end
  end.

Definition write_record (own : Records) (lineage : list nat) (m : ScriptMetadata) : Records :=
  match lineage with [] => own | self :: _ => mset own self m end.

Definition handlerDecorator (own : Records) (lineage : list nat) (kind : HandlerKind) (event : jstr)
    (opts : option HandlerOptions) (name : jstr) : Records :=
  let '(m, own) := getOrCreateMetadata own lineage in
  match find (fun h => bool_decide (methodName h = name)) (meta_handlers m) with
  | Some _ => own
  | None =>
      write_record own lineage
        (MkMetadata (meta_handlers m ++ [MkDecl event kind name (nullish opts no_options)]) (meta_state m))
  end.

Definition onEventRelease (own : Records) (lineage : list nat) (event : jstr) (opts : option HandlerOptions) (name : jstr) :=
  handlerDecorator own lineage onEvent event
    (Some (MkOptions (opts ≫= opt_concurrency) (Some release))) name.
Definition onEventHold (own : Records) (lineage : list nat) (event : jstr) (opts : option HandlerOptions) (name : jstr) :=
  handlerDecorator own lineage onEvent event
    (Some (MkOptions (opts ≫= opt_concurrency) (Some hold))) name.

(** The declaration half of [@serverState]; installing the accessor is per instance. *)
Definition serverState (own : Records) (lineage : list nat) (field : jstr) : Records :=
  let '(m, own) := getOrCreateMetadata own lineage in
  write_record own lineage (MkMetadata (meta_handlers m) (sadd (meta_state m) field)).

Definition defaultConcurrency (kind : HandlerKind) : Concurrency :=
  match kind with
  | onCollide | onEnter | onExit => concurrent
  | _ => ignore
  end.

(** ** What a class ends up declaring *)

(** One decorator applied to a class. *)
Inductive declaration :=
  | DHandler (kind : HandlerKind) (event : jstr) (opts : option HandlerOptions) (name : jstr)
  | DState (field : jstr).

Definition declare (own : Records) (lineage : list nat) (d : declaration) : Records :=
  match d with
  | DHandler kind event opts name => handlerDecorator own lineage kind event opts name
  | DState field => serverState own lineage field
  end.

(** A class evaluates with the prototypes its parent had. *)
Inductive declared : Records -> Prop :=
  | declared_nil : declared []
  | declared_step own lineage d : declared own -> declared (declare own lineage d).

Definition one_decl (m : ScriptMetadata) : Prop := NoDup (methodName <$> meta_handlers m).

Lemma getMetadata_in own lineage m : getMetadata own lineage = Some m -> exists c, mget own c = Some m.
Proof.
  induction lineage as [|c up IH]; [done|]. simpl. destruct (mget own c) as [m'|] eqn:E; [|done].
  intros [= <-]. by exists c.
Qed.

Lemma getOrCreate_all (P : ScriptMetadata -> Prop) own lineage :
  P empty_metadata -> (forall c m, mget own c = Some m -> P m) ->
  P (getOrCreateMetadata own lineage).1
  /\ (forall c m, mget (getOrCreateMetadata own lineage).2 c = Some m -> P m).
Proof.
  intros H0 Hown. unfold getOrCreateMetadata. destruct lineage as [|self up]; [done|].
  destruct (mget own self) as [m|] eqn:E; [by eauto|]. simpl.
  assert (Hm : P (nullish (getMetadata own up) empty_metadata)).
  { destruct (getMetadata own up) as [m|] eqn:Eu; [|done]. destruct (getMetadata_in _ _ _ Eu) as [c Hc]. by eapply Hown. }
  split; [done|]. intros c m. rewrite mget_mset. destruct (decide _); [by intros [= <-]|]. apply Hown.
Qed.

Lemma write_record_all (P : ScriptMetadata -> Prop) own lineage m :
  P m -> (forall c m, mget own c = Some m -> P m) ->
  forall c m', mget (write_record own lineage m) c = Some m' -> P m'.
Proof.
  intros Hm Hown c m'. unfold write_record. destruct lineage as [|self up]; [apply Hown|].
  rewrite mget_mset. destruct (decide _); [by intros [= <-]|]. apply Hown.
Qed.

(** A method is declared once per class, whatever overrides it below. *)
Lemma declared_once own : declared own -> forall c m, mget own c = Some m -> one_decl m.
Proof.
  induction 1 as [|own lineage d _ IH]; [done|].
  destruct (getOrCreate_all one_decl own lineage ltac:(constructor) IH) as [Hm Hall].
  destruct d as [kind event opts name|field]; simpl;
    [unfold handlerDecorator|unfold serverState];
    destruct (getOrCreateMetadata own lineage) as [m own'] eqn:E; simpl in Hm, Hall.
  - destruct (find _ _) eqn:Ef; [done|]. apply write_record_all; [|done].
    unfold one_decl. simpl. rewrite fmap_app. apply NoDup_snoc. split; [done|].
    rewrite list_elem_of_fmap. intros (h & Hn & Hin).
    pose proof (find_none _ _ Ef h) as Hf. rewrite <- list_elem_of_In in Hf. specialize (Hf Hin).
    by case_bool_decide.
  - by apply write_record_all.
Qed.

(** A declaration reaches only the class it is written on. *)
Lemma declare_other own self up d c :
  c <> self -> mget (declare own (self :: up) d) c = mget own c.
Proof.
  intros Hne.
  assert (Hg : forall m own', getOrCreateMetadata own (self :: up) = (m, own') -> mget own' c = mget own c).
  { intros m own'. simpl. destruct (mget own self); intros [= <- <-]; [done|]. by rewrite mget_mset_ne by congruence. }
  destruct d; simpl; [unfold handlerDecorator|unfold serverState];
    destruct (getOrCreateMetadata own (self :: up)) as [m own'] eqn:E; specialize (Hg m own' eq_refl).
  - destruct (find _ _); [done|]. simpl. by rewrite mget_mset_ne by congruence.
  - simpl. by rewrite mget_mset_ne by congruence.
Qed.
