(* ===== verification/Hosts.v ===== *)
(** * Hosts and script instances ([packages/core/src/runtime/hosts.ts],
    [packages/core/src/dispatch/instances.ts])

    A host key ties a cancellation scope to a state record; the instance registry keeps
    each host's scripts in attachment order and queues their starts. A host record is
    an object, named by reference. *)

From Stdlib Require Import DecimalString DecimalZ.
From S2P Require Import Prelude JsMap JsNum Json Channels ScopeTree Metadata.

Local Open Scope Z_scope.

(** ** Hosts *)

(** [`${id}`] of a safe integer: its decimal digits. *)
Definition num_str (z : Z) : jstr := js (NilZero.string_of_int (Z.to_int z)).

Definition ENTITY_KEY_PREFIX : jstr := js "entity:".
Definition SCREEN_KEY_PREFIX : jstr := js "screen:".
Definition GAME_KEY : jstr := js "game".

Definition entityKey (id : Z) : jstr := ENTITY_KEY_PREFIX ++ num_str id.
Definition playerKey (id : jstr) : jstr := js "player:" ++ id.
Definition cameraKey (playerId : jstr) : jstr := js "camera:" ++ playerId.
Definition screenKey (name : jstr) : jstr := SCREEN_KEY_PREFIX ++ name.

Record HostEntry := MkEntry { key : jstr; scopeId : ScopeId; record : RecordRef }.

(** [next_record] stands for the allocator of host records. *)
Record HostTable := MkHosts { byKey : jsmap jstr HostEntry; byScope : jsmap ScopeId jstr; next_record : RecordRef }.

Definition new_hosts : HostTable := MkHosts [] [] 0%nat.

(** The scope tree is shared with the rest of the runtime. *)
Definition ensure (h : HostTable) (scopes : ScopeTree) (k : jstr) : HostEntry * HostTable * ScopeTree :=
  match mget (byKey h) k with
  | Some entry => (entry, h, scopes)
  | None =>
      let '(id, scopes) := createHostScope scopes in
      let entry := MkEntry k id (next_record h) in
      (entry, MkHosts (mset (byKey h) k entry) (mset (byScope h) id k) (S (next_record h)), scopes)
  end.

Definition get (h : HostTable) (k : jstr) : option HostEntry := mget (byKey h) k.

Definition scopeIdOf (h : HostTable) (k : jstr) : ScopeId :=
  match mget (byKey h) k with Some e => scopeId e | None => NO_SCOPE end.

Definition keyForScope (h : HostTable) (id : ScopeId) : option jstr := mget (byScope h) id.

Definition remove (h : HostTable) (scopes : ScopeTree) (k : jstr) : HostTable * ScopeTree :=
  match mget (byKey h) k with
  | None => (h, scopes)
  | Some entry =>
      (MkHosts (mdel (byKey h) k) (mdel (byScope h) (scopeId entry)) (next_record h),
       destroyHostScope scopes (scopeId entry))
  end.

Definition scopeForEntity (h : HostTable) (id : Z) : ScopeId := scopeIdOf h (entityKey id).

Definition clear_hosts (h : HostTable) : HostTable := MkHosts [] [] (next_record h).

(** ** Script instances *)

(** A script class: its name, the location its base declares, and the metadata its
    class object reads. *)
Record ScriptClass := MkClass { class_name : jstr; location_of : ScriptLocation; class_meta : option ScriptMetadata }.

(** An instance: the script object by reference and what it was attached with. *)
Record ScriptInstance := MkInstance {
  inst_id : Z;
  instance : nat;
  klass : ScriptClass;
  inst_class : jstr;
  location : ScriptLocation;
  handlers : list HandlerDecl;
  inst_scope : ScopeId;
  inst_props : option json;
}.

Definition kindsOf (hs : list HandlerDecl) : jsset HandlerKind := foldl (fun s d => sadd s (decl_kind d)) [] hs.

(** The next instance id is module-level; it travels with the registry here. *)
Record InstanceRegistry := MkRegistry {
  byHost : jsmap jstr (list ScriptInstance);
  byInstance : jsmap nat ScriptInstance;
  pendingStart : list (jstr * ScriptInstance);
  nextInstanceId : Z;
}.

Definition new_registry : InstanceRegistry := MkRegistry [] [] [] 1.

Definition makeInstance (r : InstanceRegistry) (obj : nat) (klass : ScriptClass) (host : ScopeId)
    (props : option json) : ScriptInstance * InstanceRegistry :=
  let hs := match class_meta klass with Some m => meta_handlers m | None => [] end in
  (MkInstance (nextInstanceId r) obj klass (class_name klass) (location_of klass) hs host props,
   MkRegistry (byHost r) (byInstance r) (pendingStart r) (nextInstanceId r + 1)).

Definition attach (r : InstanceRegistry) (hostKey : jstr) (inst : ScriptInstance) : InstanceRegistry :=
  MkRegistry (mset (byHost r) hostKey (nullish (mget (byHost r) hostKey) [] ++ [inst]))
    (mset (byInstance r) (instance inst) inst) (pendingStart r ++ [(hostKey, inst)]) (nextInstanceId r).

Definition takePendingStarts (r : InstanceRegistry) : list (jstr * ScriptInstance) * InstanceRegistry :=
  (pendingStart r, MkRegistry (byHost r) (byInstance r) [] (nextInstanceId r)).

Definition pendingStartCount (r : InstanceRegistry) : nat := length (pendingStart r).

Definition forHost (r : InstanceRegistry) (hostKey : jstr) : list ScriptInstance := nullish (mget (byHost r) hostKey) [].

Definition forInstance (r : InstanceRegistry) (obj : nat) : option ScriptInstance := mget (byInstance r) obj.

(** The loop runs from the end, splicing out every start of the host. *)
Fixpoint drop_from (hostKey : jstr) (i : nat) (l : list (jstr * ScriptInstance)) : list (jstr * ScriptInstance) :=
  match i with
  | O => l
  | S i =>
      drop_from hostKey i
        (match l !! i with
         | Some (k, _) => if decide (k = hostKey) then delete i l else l
         | None => l
         end)
  end.

Definition dropPendingStarts (r : InstanceRegistry) (hostKey : jstr) : InstanceRegistry :=
  MkRegistry (byHost r) (byInstance r) (drop_from hostKey (length (pendingStart r)) (pendingStart r)) (nextInstanceId r).

(** The ids told to the removal hook, in order, and the registry. *)
Definition removeHost (r : InstanceRegistry) (hostKey : jstr) : list Z * InstanceRegistry :=
  let removed := inst_id <$> forHost r hostKey in
  (removed,
   dropPendingStarts (MkRegistry (mdel (byHost r) hostKey) (byInstance r) (pendingStart r) (nextInstanceId r)) hostKey).

Definition all_ (r : InstanceRegistry) : list ScriptInstance := mvals (byHost r) ≫= id.

Definition entries (r : InstanceRegistry) : list (jstr * ScriptInstance) :=
  byHost r ≫= fun e => (fun inst => (e.1, inst)) <$> e.2.

Definition declares (inst : ScriptInstance) (kind : HandlerKind) : bool := shas (kindsOf (handlers inst)) kind.

Definition snapshotByKind (r : InstanceRegistry) (kind : HandlerKind) : list jstr * list ScriptInstance :=
  let found := filter (fun e => declares e.2 kind = true) (entries r) in (found.*1, found.*2).

Definition clear_registry (r : InstanceRegistry) : InstanceRegistry := MkRegistry [] (byInstance r) [] (nextInstanceId r).

(** ** Keys *)

Lemma js_app s s' : js (s ++ s') = js s ++ js s'.
Proof. induction s as [|c s IH]; [done|]. simpl. by rewrite IH. Qed.

Lemma js_inj s s' : js s = js s' -> s = s'.
Proof.
  revert s'. induction s as [|c s IH]; intros [|c' s'] H; simpl in *; try done. injection H as Hc Hs.
  f_equal; [|by apply IH]. apply N2Z.inj in Hc.
  by rewrite <- (Ascii.ascii_N_embedding c), <- (Ascii.ascii_N_embedding c'), Hc.
Qed.

Lemma to_int_not_nil z : Z.to_int z <> Decimal.Pos Decimal.Nil /\ Z.to_int z <> Decimal.Neg Decimal.Nil.
Proof.
  split; intros H; pose proof (f_equal Z.of_int H) as H'; rewrite DecimalZ.of_to in H'; subst z; simpl in H; discriminate.
Qed.

Lemma num_str_inj z z' : num_str z = num_str z' -> z = z'.
Proof.
  intros H. apply js_inj in H. apply (f_equal NilZero.int_of_string) in H.
  rewrite !NilZero.isi in H by apply to_int_not_nil. injection H as H. by apply DecimalZ.to_int_inj.
Qed.

Lemma entityKey_inj id id' : entityKey id = entityKey id' -> id = id'.
Proof. unfold entityKey. intros H. apply app_inv_head in H. by apply num_str_inj. Qed.

(** ** The host table *)

(** Keys and scopes are in one-to-one correspondence, and every scope is a host's. *)
Record hosts_wf (h : HostTable) (s : ScopeTree) : Prop := {
  hw_fwd k e : mget (byKey h) k = Some e -> key e = k /\ mget (byScope h) (scopeId e) = Some k;
  hw_bwd id k : mget (byScope h) id = Some k -> exists e, mget (byKey h) k = Some e /\ scopeId e = id;
  hw_old id k : mget (byScope h) id = Some k -> NO_SCOPE < id < nextId s;
  hw_record k e : mget (byKey h) k = Some e -> (record e < next_record h)%nat;
  hw_distinct k k' e e' : mget (byKey h) k = Some e -> mget (byKey h) k' = Some e' -> record e = record e' -> k = k';
}.

Lemma hosts_wf_new s : hosts_wf new_hosts s.
Proof. by split. Qed.

Lemma hosts_wf_mono h s s' : hosts_wf h s -> nextId s <= nextId s' -> hosts_wf h s'.
Proof. intros [H1 H2 H3 H4 H5] Hn. split; try done. intros id k Hk. specialize (H3 id k Hk). lia. Qed.

Lemma ensure_wf h s k :
  hosts_wf h s -> 0 < nextId s ->
  let '(e, h', s') := ensure h s k in
  hosts_wf h' s' /\ nextId s <= nextId s' /\ mget (byKey h') k = Some e
  /\ (forall k', k' <> k -> mget (byKey h') k' = mget (byKey h) k').
Proof.
  intros Hw Hn. unfold ensure. destruct (mget (byKey h) k) as [e|] eqn:E; [split; [done|split; [lia|done]]|].
  destruct Hw as [H1 H2 H3 H4 H5]. simpl. split; [|split; [lia|split; [apply mget_mset_eq|]]].
  2:{ intros k' Hk'. by rewrite mget_mset_ne by congruence. }
  assert (Hfresh : forall id k', mget (byScope h) id = Some k' -> id <> nextId s) by (intros id k' H; specialize (H3 id k' H); lia).
  split; simpl.
  - intros k' e'. rewrite !mget_mset. destruct (decide (k = k')) as [<-|Hne].
    + intros [= <-]. split; [done|]. simpl. by rewrite decide_True.
    + intros He'. destruct (H1 k' e' He') as [Hk' Hs']. split; [done|]. rewrite decide_False; [done|].
      intros Heq. by apply (Hfresh _ _ Hs').
  - intros id k'. rewrite mget_mset. destruct (decide (nextId s = id)) as [<-|Hne].
    + intros [= <-]. eexists. rewrite mget_mset_eq. by split.
    + intros Hid. destruct (H2 id k' Hid) as (e & He & Hs). exists e. split; [|done]. rewrite mget_mset_ne; [done|].
      intros ->. congruence.
  - intros id k'. rewrite mget_mset. destruct (decide (nextId s = id)) as [<-|Hne]; [intros _; unfold NO_SCOPE; lia|].
    intros Hid. specialize (H3 id k' Hid). lia.
  - intros k' e'. rewrite mget_mset. destruct (decide _); [intros [= <-]; simpl; lia|]. intros He'. specialize (H4 k' e' He'). lia.
  - intros k1 k2 e1 e2. rewrite !mget_mset. destruct (decide (k = k1)) as [<-|H1'], (decide (k = k2)) as [<-|H2']; try done.
    + intros [= <-] He2. simpl. intros Hr. specialize (H4 k2 e2 He2). lia.
    + intros He1 [= <-]. simpl. intros Hr. specialize (H4 k1 e1 He1). lia.
    + apply H5.
Qed.

Lemma remove_wf h s k :
  hosts_wf h s ->
  let '(h', s') := remove h s k in
  hosts_wf h' s' /\ nextId s' = nextId s /\ mget (byKey h') k = None
  /\ (forall k', k' <> k -> mget (byKey h') k' = mget (byKey h) k').
Proof.
  intros Hw. unfold remove. destruct (mget (byKey h) k) as [e|] eqn:E; [|done].
  destruct Hw as [H1 H2 H3 H4 H5]. destruct (H1 k e E) as [Hke Hse].
  assert (Hnext : nextId (destroyHostScope s (scopeId e)) = nextId s).
  { unfold destroyHostScope. destruct (mget (hostScopes s) (scopeId e)) as [invs|]; [|done]. simpl.
    clear. revert s. induction invs as [|i invs IH]; intros s; [done|]. cbn [foldl]. rewrite IH. done. }
  assert (Hother : forall k', k' <> k -> mget (byKey (MkHosts (mdel (byKey h) k) (mdel (byScope h) (scopeId e)) (next_record h))) k' = mget (byKey h) k').
  { intros k' Hk'. simpl. by rewrite mget_mdel_ne by congruence. }
  split; [|split; [done|split; [apply mget_mdel_eq|done]]]. split; simpl.
  - intros k' e'. rewrite mget_mdel. destruct (decide _) as [|Hne]; [done|]. intros He'. destruct (H1 k' e' He') as [? Hs'].
    split; [done|]. rewrite mget_mdel_ne; [done|]. intros Heq. rewrite Heq in Hse. congruence.
  - intros id k'. rewrite mget_mdel. destruct (decide _) as [|Hne]; [done|]. intros Hid.
    destruct (H2 id k' Hid) as (e' & He' & Hs'). exists e'. split; [|done]. rewrite mget_mdel_ne; [done|].
    intros ->. rewrite E in He'. injection He' as <-. done.
  - rewrite Hnext. intros id k'. rewrite mget_mdel. destruct (decide _); [done|]. apply H3.
  - intros k' e'. rewrite mget_mdel. destruct (decide _); [done|]. apply H4.
  - intros k1 k2 e1 e2. rewrite !mget_mdel. destruct (decide _); [done|]. destruct (decide _); [done|]. apply H5.
Qed.

(** ** The instance registry *)

Lemma drop_from_filter hostKey l k :
  drop_from hostKey (length l) (l ++ k) = filter (fun e => e.1 <> hostKey) l ++ k.
Proof.
  revert k. induction l as [|[hk inst] l IH] using rev_ind; intros k; [done|].
  rewrite length_app, Nat.add_1_r. cbn [drop_from]. rewrite <- app_assoc. cbn [app].
  rewrite list_lookup_middle by done.
  rewrite filter_app, filter_cons, filter_nil. simpl. destruct (decide (hk = hostKey)) as [->|Hne].
  - rewrite delete_middle, IH. rewrite decide_False by tauto. by rewrite app_nil_r.
  - rewrite IH, decide_True by done. by rewrite <- app_assoc.
Qed.

Lemma dropPendingStarts_spec r hostKey :
  pendingStart (dropPendingStarts r hostKey) = filter (fun e => e.1 <> hostKey) (pendingStart r).
Proof.
  unfold dropPendingStarts. simpl. pose proof (drop_from_filter hostKey (pendingStart r) []) as H.
  by rewrite !app_nil_r in H.
Qed.

Lemma removeHost_spec r hostKey :
  forHost (removeHost r hostKey).2 hostKey = []
  /\ (forall k, k <> hostKey -> forHost (removeHost r hostKey).2 k = forHost r k)
  /\ pendingStart (removeHost r hostKey).2 = filter (fun e => e.1 <> hostKey) (pendingStart r).
Proof.
  unfold removeHost, forHost. cbn [snd]. split; [|split].
  - simpl. by rewrite mget_mdel_eq.
  - intros k Hk. simpl. by rewrite mget_mdel_ne by congruence.
  - by rewrite dropPendingStarts_spec.
Qed.
