(* ===== verification/Breaker.v ===== *)
(** * The throw breaker ([packages/core/src/dispatch/breaker.ts])

    Consecutive throws per (instance, method), keyed by a string, with the snapshot the
    store registry takes of them. *)

From Stdlib Require Import DecimalString.
From S2P Require Import Prelude JsMap Json Hosts.

Local Open Scope Z_scope.

Definition BREAKER_THRESHOLD : Z := 100.

Abbreviation BreakerCounters := (jsmap jstr Z).
Abbreviation BreakerBuffer := (list (jstr * Z)).

Definition no_counts : BreakerCounters := [].

(** [#key]. The character [#] is unit 35. *)
Definition breakerKey (instanceId : Z) (method : jstr) : jstr := num_str instanceId ++ [35] ++ method.

Definition recordThrow (c : BreakerCounters) (instanceId : Z) (method : jstr) : Z * BreakerCounters :=
  let key := breakerKey instanceId method in
  let next := nullish (mget c key) 0 + 1 in
  (next, mset c key next).

Definition recordSuccess (c : BreakerCounters) (instanceId : Z) (method : jstr) : BreakerCounters :=
  if (msize c =? 0)%nat then c else mdel c (breakerKey instanceId method).

Definition count (c : BreakerCounters) (instanceId : Z) (method : jstr) : Z :=
  if (msize c =? 0)%nat then 0 else nullish (mget c (breakerKey instanceId method)) 0.

(** [key.startsWith(prefix)]. *)
Definition startsWith (s prefix : jstr) : bool := bool_decide (prefix `prefix_of` s).

(** Deleting the key an iteration stands on is well defined. *)
Definition forgetInstance (c : BreakerCounters) (instanceId : Z) : BreakerCounters :=
  let prefix := num_str instanceId ++ [35] in
  foldl (fun c key => if startsWith key prefix then mdel c key else c) c (mkeys c).

Definition clear_counts (c : BreakerCounters) : BreakerCounters := [].
Definition createBuffer : BreakerBuffer := [].
Definition capture (c : BreakerCounters) : BreakerBuffer := c.
Definition apply (from : BreakerBuffer) : BreakerCounters := foldl (fun c kv => mset c kv.1 kv.2) [] from.

(** ** The key *)

Lemma digits_units d u : u ∈ js (NilEmpty.string_of_uint d) -> 48 <= u <= 57.
Proof.
  induction d; cbn; rewrite ?elem_of_cons; [intros H; by apply not_elem_of_nil in H|..];
    (intros [->|H]; [lia|auto]).
Qed.

(** A decimal is digits and at most a minus sign. *)
Lemma num_str_units z u : u ∈ num_str z -> u = 45 \/ 48 <= u <= 57.
Proof.
  assert (Hz : u ∈ js (NilZero.string_of_uint Decimal.Nil) -> 48 <= u <= 57).
  { cbn. rewrite list_elem_of_singleton. lia. }
  unfold num_str. destruct (Z.to_int z) as [d|d]; simpl.
  - intros H. right. destruct d; [by apply Hz|apply (digits_units _ _ H)..].
  - rewrite elem_of_cons. intros [->|H]; [by left|]. right. destruct d; [by apply Hz|apply (digits_units _ _ H)..].
Qed.

Lemma num_str_no_hash z : 35 ∉ num_str z.
Proof. intros H. apply num_str_units in H. lia. Qed.

Lemma num_str_cons z : exists u rest, num_str z = u :: rest /\ u <> 103.
Proof.
  destruct (num_str z) as [|u rest] eqn:E.
  - exfalso. unfold num_str in E. destruct (Z.to_int z) as [[]|[]]; done.
  - exists u, rest. split; [done|]. intros ->. assert (H : 103 ∈ num_str z) by (rewrite E; left).
    apply num_str_units in H. lia.
Qed.

(** Two strings split at the first of a unit their heads do not have. *)
Lemma sep_split (u : Z) (a b x y : jstr) : u ∉ a -> u ∉ b -> a ++ [u] ++ x = b ++ [u] ++ y -> a = b /\ x = y.
Proof.
  revert b. induction a as [|v a IH]; intros [|w b] Ha Hb H;
    [injection H as ->; done|injection H as <- _|injection H as -> _|injection H as -> Hrest].
  - by apply not_elem_of_cons in Hb as [].
  - by apply not_elem_of_cons in Ha as [].
  - apply not_elem_of_cons in Ha as [_ Ha], Hb as [_ Hb]. by destruct (IH b Ha Hb Hrest) as [-> ->].
Qed.

Lemma breakerKey_inj i j m n : breakerKey i m = breakerKey j n -> i = j /\ m = n.
Proof.
  unfold breakerKey. intros H. apply sep_split in H as [H ->]; try apply num_str_no_hash.
  by apply num_str_inj in H.
Qed.

Lemma breakerKey_prefix i j m : startsWith (breakerKey j m) (num_str i ++ [35]) = bool_decide (j = i).
Proof.
  unfold startsWith. apply bool_decide_ext. split; [|intros ->; exists m; by rewrite <- app_assoc].
  intros [k Hk]. rewrite <- app_assoc in Hk. unfold breakerKey in Hk.
  apply sep_split in Hk as [Hk _]; try apply num_str_no_hash. by apply num_str_inj in Hk.
Qed.

(** ** What the counts say *)

Lemma count_mget c i m : count c i m = nullish (mget c (breakerKey i m)) 0.
Proof. unfold count. by destruct c. Qed.

Lemma count_recordThrow c i m j n :
  count (recordThrow c i m).2 j n = count c j n + (if decide (i = j /\ m = n) then 1 else 0).
Proof.
  rewrite !count_mget. simpl. rewrite mget_mset. case_decide as H.
  - apply breakerKey_inj in H as [-> ->]. rewrite decide_True by done. done.
  - rewrite decide_False by (intros [-> ->]; done). lia.
Qed.

Lemma recordThrow_count c i m : (recordThrow c i m).1 = count c i m + 1.
Proof. by rewrite count_mget. Qed.

Lemma count_recordSuccess c i m j n :
  count (recordSuccess c i m) j n = if decide (i = j /\ m = n) then 0 else count c j n.
Proof.
  rewrite !count_mget. unfold recordSuccess. destruct (msize c =? 0)%nat eqn:E.
  { apply Nat.eqb_eq in E. destruct c; [|done]. by case_decide. }
  rewrite mget_mdel. case_decide as H.
  - apply breakerKey_inj in H as [-> ->]. by rewrite decide_True.
  - by rewrite decide_False by (intros [-> ->]; done).
Qed.

Lemma mget_foldl_mdel (f : jstr -> bool) (l : list jstr) (c : BreakerCounters) k :
  mget (foldl (fun c key => if f key then mdel c key else c) c l) k
  = if decide (k ∈ l /\ f k = true) then None else mget c k.
Proof.
  revert c. induction l as [|x l IH]; intros c; cbn [foldl].
  { rewrite decide_False; [done|]. intros [H _]. by apply not_elem_of_nil in H. }
  rewrite IH. destruct (decide (k ∈ l /\ f k = true)) as [[Hk Hf]|Hn].
  - by rewrite decide_True by (split; [by right|done]).
  - destruct (f x) eqn:Ex.
    + rewrite mget_mdel. destruct (decide (x = k)) as [->|Hne].
      * by rewrite decide_True by (split; [by left|done]).
      * rewrite decide_False; [done|]. rewrite elem_of_cons. intros [[->|] ?]; [done|]. by apply Hn.
    + rewrite decide_False; [done|]. rewrite elem_of_cons. intros [[->|] ?]; [congruence|]. by apply Hn.
Qed.

(** A destroyed instance's counts all go, and no other's: an id that is a prefix of
    another's digits keeps them apart. *)
Lemma count_forgetInstance c i j n :
  count (forgetInstance c i) j n = if decide (i = j) then 0 else count c j n.
Proof.
  rewrite !count_mget. unfold forgetInstance. rewrite mget_foldl_mdel, breakerKey_prefix.
  destruct (decide (i = j)) as [->|Hne].
  - destruct (decide (breakerKey j n ∈ mkeys c)) as [Hin|Hn].
    + by rewrite decide_True by (by rewrite bool_decide_true).
    + rewrite decide_False by tauto. by rewrite (proj2 (mget_None _ _) Hn).
  - rewrite decide_False; [done|]. intros [_ H]. apply bool_decide_eq_true in H. congruence.
Qed.

Lemma apply_capture c : NoDup (mkeys c) -> apply (capture c) = c.
Proof.
  unfold apply, capture. intros Hnd. change c with ([] ++ c) in Hnd at 1. change c with ([] ++ c) at 2.
  generalize (@nil (jstr * Z)) as acc, Hnd. clear Hnd. induction c as [|[k v] c IH]; intros acc Hnd.
  { by rewrite app_nil_r. }
  cbn [foldl fst snd]. rewrite mset_fresh.
  - change (acc ++ (k, v) :: c) with (acc ++ [(k, v)] ++ c). rewrite app_assoc. apply IH. by rewrite <- app_assoc.
  - unfold mkeys in *. rewrite fmap_app in Hnd. apply NoDup_app in Hnd as (_ & Hd & _).
    intros Hin. apply (Hd k Hin). left.
Qed.
