(* ===== verification/Dispatcher.v ===== *)
(** * The dispatcher ([packages/core/src/dispatch/dispatcher.ts], with
    [ambient.ts] and [acting-player.ts])

    Where engine code hands control to creator code and takes it back. Creator code is
    a tree of the things it can do to the engine before it returns, throws or parks:
    write its own state, read the ambient slots, let time pass, send (which dispatches
    again), be guarded, make and destroy hosts. A dispatch runs such trees for every
    matching handler. Nesting is bounded by the send depth; the loop over a host's
    instances is not bounded by anything when handlers attach to that host, so it has
    fuel.

    Script objects are references: the engine holds the same read-only registration
    of one everywhere. A promise is a number; what a parked handler owes when its
    promise settles is kept with it, and [settle] is the microtasks of one promise. *)

From stdpp Require Import functions.
From S2P Require Import Prelude JsMap JsNum Json ScopeTree Metadata Hosts Breaker.

Local Open Scope Z_scope.

Definition MAX_SEND_DEPTH : Z := 64.
Definition MAX_DEDUP_KEYS : Z := 1024.
Definition MAX_HANDLER_MS : Z := 50.

(** [err instanceof Error], with its message and its stack when it has one; anything
    else by its string form. *)
Inductive thrown := AnError (message : jstr) (stack : option jstr) | AnyThrown (text : jstr).

Definition message_of (e : thrown) : jstr := match e with AnError m _ => m | AnyThrown t => t end.
Definition stack_of (e : thrown) : jstr := match e with AnError m st => nullish st m | AnyThrown t => t end.

Record DispatchCtx := MkCtx {
  ctx_player : option nat;
  ctx_other : option nat;
  ctx_value : option num;
  ctx_dt : num;
  ctx_alive : bool;
  ctx_data : json;
  ctx_from : option nat;
  ctx_viewTick : option Z;
}.

Record GuardSite := MkSite { site_method : jstr; site_host : jstr; site_tick : Z; site_event : jstr }.

Record LogRecord := MkLog {
  log_class : jstr;
  log_method : jstr;
  log_host : jstr;
  log_tick : Z;
  log_event : jstr;
  log_stack : jstr;
  log_disabled : bool;
}.

Record BreakerTrip := MkTrip {
  trip_class : jstr;
  trip_instance : Z;
  trip_method : jstr;
  trip_host : jstr;
  trip_tick : Z;
  trip_event : jstr;
  trip_stack : jstr;
}.

Record DispatchOptions := MkDispatch {
  activeLocations : list ScriptLocation;
  replay : bool;
  d_tick : Z;
  phase : option EventPhase;
}.

(** The array a dispatch iterates: the caller's own, or a host's, which the registry
    pushes onto as scripts are attached. *)
Inductive listed := Own (l : list nat) | Shared (array : nat).

(** The arguments of one [dispatch]. *)
Record call := MkCall {
  instances : listed;
  call_kind : HandlerKind;
  call_event : jstr;
  call_host : jstr;
  call_ctx : DispatchCtx;
  call_opts : DispatchOptions;
}.

(** What a handler's call gives back: the member was not a function, a value that is
    not a promise, or a promise. *)
Inductive returned := NotCallable | Value | Awaits (promise : nat).

Inductive creator (W : Type) :=
  | Return (r : returned)
  | Raise (e : thrown)
  | Act (f : W -> W) (k : creator W)
  | Ask (k : W -> option ScopeId -> option nat -> creator W)
  | Wait (now : num) (k : creator W)
  | Send (c : call) (k : creator W)
  | Guard (owner : option GuardOwner) (site : GuardSite) (fn : creator W) (k : bool -> creator W)
  | MakeHost (k : ScopeId -> creator W)
  | DropHost (host : ScopeId) (k : creator W)
  | Forget (instanceId : Z) (k : creator W)
  | Attach (array : nat) (script : nat) (k : creator W).
Arguments Return {W} r.
Arguments Raise {W} e.
Arguments Act {W} f k.
Arguments Ask {W} k.
Arguments Wait {W} now k.
Arguments Send {W} c k.
Arguments Guard {W} owner site fn k.
Arguments MakeHost {W} k.
Arguments DropHost {W} host k.
Arguments Forget {W} instanceId k.
Arguments Attach {W} array script k.

(** What a handler that returned a promise is owed: [pk_promise] is the one it gave,
    [pk_made] the ambient invocation when it was wrapped. *)
Record Parked := MkParked {
  pk_id : nat;
  pk_promise : nat;
  pk_made : option ScopeId;
  pk_owner : GuardOwner;
  pk_site : GuardSite;
  pk_scope : ScopeId;
  pk_overran : bool;
}.

(** The dispatcher with what it shares: the scope tree, the breaker, the two ambient
    slots, the clock it reads, the host's log and trip listener, and creator state.
    [told] is what the listener was given, [arrays] the hosts' instance lists, and
    [stuck] is set when a loop over one outran its fuel. *)
Record Engine (W : Type) := MkEngine {
  world : W;
  scopes : ScopeTree;
  breaker : BreakerCounters;
  depth : Z;
  dedup : jsmap jstr Z;
  log : list LogRecord;
  onTrip : option (BreakerTrip -> option thrown);
  told : list BreakerTrip;
  current : option ScopeId;
  acting : option nat;
  clock : num;
  parked : list Parked;
  next_parked : nat;
  arrays : nat -> list nat;
  stuck : bool;
}.
Arguments MkEngine {W}.
Arguments world {W}.
Arguments scopes {W}.
Arguments breaker {W}.
Arguments depth {W}.
Arguments dedup {W}.
Arguments log {W}.
Arguments onTrip {W}.
Arguments told {W}.
Arguments current {W}.
Arguments acting {W}.
Arguments clock {W}.
Arguments parked {W}.
Arguments next_parked {W}.
Arguments arrays {W}.
Arguments stuck {W}.

Section Setters.
Context {W : Type}.

Definition with_world (s : Engine W) w : Engine W := MkEngine w (scopes s) (breaker s) (depth s) (dedup s) (log s) (onTrip s) (told s) (current s) (acting s) (clock s) (parked s) (next_parked s) (arrays s) (stuck s).
Definition with_scopes (s : Engine W) t : Engine W := MkEngine (world s) t (breaker s) (depth s) (dedup s) (log s) (onTrip s) (told s) (current s) (acting s) (clock s) (parked s) (next_parked s) (arrays s) (stuck s).
Definition with_breaker (s : Engine W) b : Engine W := MkEngine (world s) (scopes s) b (depth s) (dedup s) (log s) (onTrip s) (told s) (current s) (acting s) (clock s) (parked s) (next_parked s) (arrays s) (stuck s).
Definition with_depth (s : Engine W) d : Engine W := MkEngine (world s) (scopes s) (breaker s) d (dedup s) (log s) (onTrip s) (told s) (current s) (acting s) (clock s) (parked s) (next_parked s) (arrays s) (stuck s).
Definition with_dedup (s : Engine W) m : Engine W := MkEngine (world s) (scopes s) (breaker s) (depth s) m (log s) (onTrip s) (told s) (current s) (acting s) (clock s) (parked s) (next_parked s) (arrays s) (stuck s).
Definition with_listener (s : Engine W) l : Engine W := MkEngine (world s) (scopes s) (breaker s) (depth s) (dedup s) (log s) l (told s) (current s) (acting s) (clock s) (parked s) (next_parked s) (arrays s) (stuck s).
Definition tell (s : Engine W) t : Engine W := MkEngine (world s) (scopes s) (breaker s) (depth s) (dedup s) (log s) (onTrip s) (told s ++ [t]) (current s) (acting s) (clock s) (parked s) (next_parked s) (arrays s) (stuck s).
Definition setCurrentInvocation (s : Engine W) c : Engine W := MkEngine (world s) (scopes s) (breaker s) (depth s) (dedup s) (log s) (onTrip s) (told s) c (acting s) (clock s) (parked s) (next_parked s) (arrays s) (stuck s).
Definition setActingPlayer (s : Engine W) p : Engine W := MkEngine (world s) (scopes s) (breaker s) (depth s) (dedup s) (log s) (onTrip s) (told s) (current s) p (clock s) (parked s) (next_parked s) (arrays s) (stuck s).
Definition with_clock (s : Engine W) t : Engine W := MkEngine (world s) (scopes s) (breaker s) (depth s) (dedup s) (log s) (onTrip s) (told s) (current s) (acting s) t (parked s) (next_parked s) (arrays s) (stuck s).
Definition with_parked (s : Engine W) l n : Engine W := MkEngine (world s) (scopes s) (breaker s) (depth s) (dedup s) (log s) (onTrip s) (told s) (current s) (acting s) (clock s) l n (arrays s) (stuck s).
Definition with_arrays (s : Engine W) a : Engine W := MkEngine (world s) (scopes s) (breaker s) (depth s) (dedup s) (log s) (onTrip s) (told s) (current s) (acting s) (clock s) (parked s) (next_parked s) a (stuck s).
Definition get_stuck (s : Engine W) : Engine W := MkEngine (world s) (scopes s) (breaker s) (depth s) (dedup s) (log s) (onTrip s) (told s) (current s) (acting s) (clock s) (parked s) (next_parked s) (arrays s) true.

(** [this.#log.error(...)]. *)
Definition log_error (s : Engine W) r : Engine W := MkEngine (world s) (scopes s) (breaker s) (depth s) (dedup s) (log s ++ [r]) (onTrip s) (told s) (current s) (acting s) (clock s) (parked s) (next_parked s) (arrays s) (stuck s).

End Setters.

(** ** What one throw costs *)

Definition owner_of (si : ScriptInstance) : GuardOwner := MkOwner (inst_id si) (inst_class si) (inst_scope si).

Definition dedupKey (class method message : jstr) : jstr := class ++ js "#" ++ method ++ js "#" ++ message.

Section Dispatcher.
Context {W : Type}.
(** The registrations script references name, the code of a class's method, and the
    stack text the runtime gives an error the engine makes. *)
Context (script : nat -> ScriptInstance).
Context (code : ScriptInstance -> jstr -> DispatchCtx -> creator W).
Context (engineStack : option jstr).
(** How many instances one dispatch may visit before it is called stuck. *)
Context (fuel : nat).

Definition reportTrip (s : Engine W) (t : BreakerTrip) : Engine W :=
  match onTrip s with
  | None => s
  | Some listener =>
      let s := tell s t in
      match listener t with
      | None => s
      | Some err =>
          log_error s (MkLog (js "(host)") (js "onBreakerTrip") (trip_host t) (trip_tick t) (trip_event t) (stack_of err) false)
      end
  end.

(** The count and the log line of one throw, kept distinct by class, method and
    message. *)
Definition note_throw (s : Engine W) (class : jstr) (site : GuardSite) (err : thrown) : Engine W :=
  let key := dedupKey class (site_method site) (message_of err) in
  let seen := nullish (mget (dedup s) key) 0 + 1 in
  let m := if (MAX_DEDUP_KEYS <=? Z.of_nat (msize (dedup s))) && (seen =? 1) then [] else dedup s in
  let s := with_dedup s (mset m key seen) in
  if seen =? 1
  then log_error s (MkLog class (site_method site) (site_host site) (site_tick site) (site_event site) (stack_of err) false)
  else s.

Definition disabled_text : jstr := js "handler disabled after 100 consecutive throws".

Definition recordThrow (owner : option GuardOwner) (site : GuardSite) (err : thrown) (s : Engine W) : Engine W :=
  let class := match owner with Some o => className o | None => js "(engine)" end in
  let s := note_throw s class site err in
  match owner with
  | None => s
  | Some o =>
      let '(consecutive, b) := Breaker.recordThrow (breaker s) (ow_id o) (site_method site) in
      let s := with_breaker s b in
      if consecutive =? BREAKER_THRESHOLD then
        let s := log_error s (MkLog class (site_method site) (site_host site) (site_tick site) (site_event site) disabled_text true) in
        reportTrip s (MkTrip class (ow_id o) (site_method site) (site_host site) (site_tick site) (site_event site) (stack_of err))
      else s
  end.

Definition overrun_text : jstr := js "held the tick past the 50ms budget".

Definition chargeOverrun (owner : option GuardOwner) (site : GuardSite) (startedAt : num) (s : Engine W) : bool * Engine W :=
  if fle (fsub (clock s) startedAt) (of_Z MAX_HANDLER_MS) then (false, s)
  else (true, recordThrow owner site (AnError overrun_text engineStack) s).

Definition succeed (o : GuardOwner) (method : jstr) (s : Engine W) : Engine W :=
  with_breaker s (recordSuccess (breaker s) (ow_id o) method).

Definition complete (id : ScopeId) (s : Engine W) : Engine W := with_scopes s (completeInvocation (scopes s) id).

Definition begin (host : ScopeId) (tick : Z) (key : jstr) (o : GuardOwner) (s : Engine W) : ScopeId * Engine W :=
  let '(id, t) := createInvocation (scopes s) host tick key (Some o) in (id, with_scopes s t).

Definition throwCount (s : Engine W) (class method message : jstr) : Z :=
  nullish (mget (dedup s) (dedupKey class method message)) 0.

(** ** Guarded and dispatched code *)

(** [guard] around code that [run] executes. *)
Definition guard_with (run : Engine W -> outcome thrown returned * Engine W) (owner : option GuardOwner) (site : GuardSite)
    (s : Engine W) : bool * Engine W :=
  if match owner with Some o => BREAKER_THRESHOLD <=? count (breaker s) (ow_id o) (site_method site) | None => false end
  then (false, s)
  else
    let '(scope, s) :=
      match owner with
      | None => (None, s)
      | Some o => let '(id, s) := begin (ow_hostScopeId o) (site_tick site) (js "guard:" ++ site_method site) o s in (Some id, s)
      end in
    let outer := current s in
    let s := setCurrentInvocation s scope in
    let startedAt := clock s in
    let leave s := let s := setCurrentInvocation s outer in
                   match scope with Some id => complete id s | None => s end in
    let '(r, s) := run s in
    match r with
    | Throw err => (false, leave (recordThrow owner site err s))
    | Ok _ =>
        let '(over, s) := chargeOverrun owner site startedAt (leave s) in
        if over then (false, s)
        else (true, match owner with Some o => succeed o (site_method site) s | None => s end)
    end.

Fixpoint exec (send : call -> Engine W -> Engine W) (c : creator W) (s : Engine W) : outcome thrown returned * Engine W :=
  match c with
  | Return r => (Ok r, s)
  | Raise e => (Throw e, s)
  | Act f k => exec send k (with_world s (f (world s)))
  | Ask k => exec send (k (world s) (current s) (acting s)) s
  | Wait now k => exec send k (with_clock s now)
  | Send c k => exec send k (send c s)
  | Guard owner site fn k =>
      let '(ok, s) := guard_with (exec send fn) owner site s in exec send (k ok) s
  | MakeHost k => let '(id, t) := createHostScope (scopes s) in exec send (k id) (with_scopes s t)
  | DropHost host k => exec send k (with_scopes s (destroyHostScope (scopes s) host))
  | Forget id k => exec send k (with_breaker s (forgetInstance (breaker s) id))
  | Attach a r k => exec send k (with_arrays s (<[a := arrays s a ++ [r]]> (arrays s)))
  end.

Definition concurrencyOf (decl : HandlerDecl) : Concurrency :=
  nullish (opt_concurrency (decl_opts decl)) (defaultConcurrency (decl_kind decl)).

(** [`${si.id}#${method}`]. *)
Definition invocationKey (si : ScriptInstance) (method : jstr) : jstr := num_str (inst_id si) ++ js "#" ++ method.

Definition park (promise : nat) (o : GuardOwner) (site : GuardSite) (scope : ScopeId) (overran : bool) (s : Engine W) :
    nat * Engine W :=
  (next_parked s,
   with_parked s (parked s ++ [MkParked (next_parked s) promise (current s) o site scope overran]) (S (next_parked s))).

(** [#invoke]; the promise it gives back is named by the parked entry. *)
Definition invoke (run : creator W -> Engine W -> outcome thrown returned * Engine W) (si : ScriptInstance) (decl : HandlerDecl)
    (ctx : DispatchCtx) (hostId : jstr) (tick : Z) (s : Engine W) : option nat * Engine W :=
  let method := methodName decl in
  let key := invocationKey si method in
  if BREAKER_THRESHOLD <=? count (breaker s) (inst_id si) method then (None, s)
  else
    let running := findRunning (scopes s) (inst_scope si) key in
    if bool_decide (is_Some running /\ concurrencyOf decl = ignore) then (None, s)
    else
      let s := match running with
               | Some id => if decide (concurrencyOf decl = restart) then with_scopes s (cancelInvocation (scopes s) id) else s
               | None => s
               end in
      let '(scope, s) := begin (inst_scope si) tick key (owner_of si) s in
      let site := MkSite method hostId tick (decl_event decl) in
      let outer := current s in
      let outerPlayer := acting s in
      let s := setActingPlayer (setCurrentInvocation s (Some scope)) (ctx_player ctx) in
      let startedAt := clock s in
      let leave s := setActingPlayer (setCurrentInvocation s outer) outerPlayer in
      let '(r, s) := run (code si method ctx) s in
      match r with
      | Throw err => (None, leave (complete scope (recordThrow (Some (owner_of si)) site err s)))
      | Ok NotCallable => (None, complete scope (leave s))
      | Ok Value =>
          let '(over, s) := chargeOverrun (Some (owner_of si)) site startedAt (leave s) in
          let s := if over then s else succeed (owner_of si) method s in
          (None, complete scope s)
      | Ok (Awaits p) =>
          let '(over, s) := chargeOverrun (Some (owner_of si)) site startedAt (leave s) in
          let '(id, s) := park p (owner_of si) site scope over s in
          (Some id, s)
      end.

Definition matches (decl : HandlerDecl) (kind : HandlerKind) (event : jstr) (ph : option EventPhase) : bool :=
  bool_decide (decl_kind decl = kind) &&
  match kind with
  | onEvent =>
      bool_decide (decl_event decl = event) &&
      match ph with None => true | Some p => bool_decide (nullish (opt_on (decl_opts decl)) press = p) end
  | onCollide | onEnter | onExit | onPress | onRequest => bool_decide (decl_event decl = event)
  | _ => true
  end.

(** Whether the loop reaches the instance's handlers. *)
Definition runs_here (o : DispatchOptions) (si : ScriptInstance) : bool :=
  bool_decide (location si ∈ activeLocations o) && negb (replay o && bool_decide (location si = LClient)).

(** The handlers of one instance a dispatch reaches. *)
Definition targets (c : call) (si : ScriptInstance) : list HandlerDecl :=
  if runs_here (call_opts c) si
  then filter (fun d => matches d (call_kind c) (call_event c) (phase (call_opts c)) = true) (handlers si)
  else [].

Definition depth_text : jstr := js "send recursion exceeded depth 64".

Definition listed_now (l : listed) (s : Engine W) : list nat :=
  match l with Own l => l | Shared a => arrays s a end.

(** The inner loop: one instance's handlers. *)
Definition visit_one (run : creator W -> Engine W -> outcome thrown returned * Engine W) (c : call) (si : ScriptInstance)
    (acc : list nat * Engine W) : list nat * Engine W :=
  foldl (fun '(ps, s) decl =>
           let '(p, s) := invoke run si decl (call_ctx c) (call_host c) (d_tick (call_opts c)) s in
           (ps ++ option_list p, s))
    acc (targets c si).

(** The outer loop reads the array as it stands at each turn, so it sees a script
    attached under it. *)
Fixpoint visit (run : creator W -> Engine W -> outcome thrown returned * Engine W) (c : call) (gas i : nat)
    (acc : list nat * Engine W) : list nat * Engine W :=
  match listed_now (instances c) acc.2 !! i with
  | None => acc
  | Some r =>
      match gas with
      | O => (acc.1, get_stuck acc.2)
      | S gas => visit run c gas (S i) (visit_one run c (script r) acc)
      end
  end.

(** The parked entries whose promises the returned one joins. *)
Definition dispatch_with (run : creator W -> Engine W -> outcome thrown returned * Engine W) (c : call) (s : Engine W) :
    list nat * Engine W :=
  if MAX_SEND_DEPTH <=? depth s
  then ([], log_error s (MkLog (js "(engine)") (js "dispatch") (call_host c) (d_tick (call_opts c)) (call_event c) depth_text false))
  else
    let '(ps, s) := visit run c fuel 0 ([], with_depth s (depth s + 1)) in
    (ps, with_depth s (depth s - 1)).

Fixpoint dispatch_n (n : nat) (c : call) (s : Engine W) : list nat * Engine W :=
  dispatch_with (exec (match n with O => fun _ s => s | S n => fun c s => (dispatch_n n c s).2 end)) c s.

(** The deepest dispatch a send can reach from here refuses to go further, so the
    difference to the limit is fuel enough for the nesting. *)
Definition dispatch (c : call) (s : Engine W) : list nat * Engine W :=
  dispatch_n (Z.to_nat (MAX_SEND_DEPTH - depth s)) c s.

Definition send (c : call) (s : Engine W) : Engine W := (dispatch c s).2.

Definition guard (owner : option GuardOwner) (site : GuardSite) (fn : creator W) : Engine W -> bool * Engine W :=
  guard_with (exec send fn) owner site.

(** ** Settling *)

(** [resumeWith]'s reaction: the ambient becomes the one of the wrapping. *)
Definition resume (s : Engine W) (p : Parked) : Engine W := setCurrentInvocation s (pk_made p).

Definition finish (res : option thrown) (s : Engine W) (p : Parked) : Engine W :=
  match res with
  | None =>
      let s := if pk_overran p then s else succeed (pk_owner p) (site_method (pk_site p)) s in
      if dead (scope (scopes s) (pk_scope p)) then s else complete (pk_scope p) s
  | Some err =>
      if dead (scope (scopes s) (pk_scope p)) then s
      else complete (pk_scope p) (recordThrow (Some (pk_owner p)) (pk_site p) err s)
  end.

(** A promise settles: each handler that returned it resumes, in order, then each
    finishes. *)
Definition settle (promise : nat) (res : option thrown) (s : Engine W) : Engine W :=
  let mine := filter (fun p => pk_promise p = promise) (parked s) in
  let s := foldl resume s mine in
  let s := foldl (finish res) s mine in
  with_parked s (filter (fun p => pk_promise p <> promise) (parked s)) (next_parked s).

End Dispatcher.

(** ** Reasoning about creator code *)

Section Laws.
Context {W : Type} (script : nat -> ScriptInstance) (code : ScriptInstance -> jstr -> DispatchCtx -> creator W)
  (engineStack : option jstr) (fuel : nat).

(** The code forgets only instances in [F] and attaches only where [A] allows. *)
Fixpoint confined (F : Z -> Prop) (A : nat -> nat -> Prop) (c : creator W) : Prop :=
  match c with
  | Return _ | Raise _ => True
  | Act _ k | Wait _ k | Send _ k | DropHost _ k => confined F A k
  | Ask k => forall w a p, confined F A (k w a p)
  | Guard _ _ fn k => confined F A fn /\ forall b, confined F A (k b)
  | MakeHost k => forall h, confined F A (k h)
  | Forget i k => F i /\ confined F A k
  | Attach a r k => A a r /\ confined F A k
  end.

Lemma confined_any c : confined (fun _ => True) (fun _ _ => True) c.
Proof. induction c; simpl; auto. Qed.

(** A relation every step of the engine stays in: it holds across creator code
    whatever that code does. *)
Record respected (F : Z -> Prop) (A : nat -> nat -> Prop) (R : Engine W -> Engine W -> Prop) : Prop := {
  rs_pre : PreOrder R;
  rs_world s w : R s (with_world s w);
  rs_clock s t : R s (with_clock s t);
  rs_host s : R s (with_scopes s (createHostScope (scopes s)).2);
  rs_drop s h : R s (with_scopes s (destroyHostScope (scopes s) h));
  rs_forget s i : F i -> R s (with_breaker s (forgetInstance (breaker s) i));
  rs_attach s a r : A a r -> R s (with_arrays s (<[a := arrays s a ++ [r]]> (arrays s)));
  rs_stuck s : R s (get_stuck s);
  rs_log s r : R s (log_error s r);
  rs_depth s s' : R (with_depth s (depth s + 1)) s' -> R s (with_depth s' (depth s' - 1));
  rs_guard run owner site : (forall s, R s (run s).2) -> forall s, R s (guard_with engineStack run owner site s).2;
  rs_invoke run r decl ctx h t : decl ∈ handlers (script r) -> (forall s, R s (run (code (script r) (methodName decl) ctx) s).2) ->
    forall s, R s (invoke code engineStack run (script r) decl ctx h t s).2;
}.

Section Respected.
Context (F : Z -> Prop) (A : nat -> nat -> Prop) (R : Engine W -> Engine W -> Prop) (HR : respected F A R).
Context (Hcode : forall si m ctx, confined F A (code si m ctx)).

Lemma exec_respects send :
  (forall c s, R s (send c s)) ->
  forall c, confined F A c -> forall s, R s (exec engineStack send c s).2.
Proof using HR.
  destruct HR as [Hpre]. intros Hsend c.
  induction c as [r|e|f k IH|k IH|now k IH|cl k IH|owner site fn IHf k IHk|k IH|h k IH|i k IH|a r k IH]; simpl.
  - reflexivity.
  - reflexivity.
  - intros Hc s. etransitivity; [|by apply IH]. auto.
  - intros Hc s. by apply IH.
  - intros Hc s. etransitivity; [|by apply IH]. auto.
  - intros Hc s. etransitivity; [|by apply IH]. auto.
  - intros [Hf Hk] s. destruct (guard_with _ _ _ _ _) as [ok s1] eqn:E.
    etransitivity; [|by apply IHk]. change s1 with (ok, s1).2. rewrite <- E. apply rs_guard0. auto.
  - intros Hc s. etransitivity; [apply (rs_host0 s)|]. by apply IH.
  - intros Hc s. etransitivity; [|by apply IH]. auto.
  - intros [Hi Hc] s. etransitivity; [|by apply IH]. auto.
  - intros [Hi Hc] s. etransitivity; [|by apply IH]. auto.
Qed.

Lemma visit_one_respects run c r ps s :
  (forall m ctx s, R s (run (code (script r) m ctx) s).2) ->
  R s (visit_one code engineStack run c (script r) (ps, s)).2.
Proof using HR.
  pose proof (rs_pre _ _ _ HR) as Hpre. intros Hrun. unfold visit_one.
  assert (Hin : forall d, d ∈ targets c (script r) -> d ∈ handlers (script r)).
  { intros d. unfold targets. destruct (runs_here _ _); [|intros H; by apply not_elem_of_nil in H].
    intros H. by apply list_elem_of_filter in H as [_ H]. }
  revert ps s. induction (targets c (script r)) as [|d l IH]; intros ps s; cbn [foldl]; [reflexivity|].
  pose proof (rs_invoke _ _ _ HR run r d (call_ctx c) (call_host c) (d_tick (call_opts c))
    (Hin d ltac:(left)) (Hrun (methodName d) (call_ctx c)) s) as Hi.
  destruct (invoke _ _ _ _ _ _ _ _ _) as [p s1]. etransitivity; [exact Hi|]. apply IH. intros x Hx. apply Hin. by right.
Qed.

Lemma visit_respects run c gas i ps s :
  (forall r m ctx s, R s (run (code (script r) m ctx) s).2) ->
  R s (visit script code engineStack run c gas i (ps, s)).2.
Proof using HR.
  pose proof (rs_pre _ _ _ HR) as Hpre. intros Hrun. revert i ps s.
  induction gas as [|gas IH]; intros i ps s; simpl; destruct (_ !! i) as [r|]; try reflexivity.
  - apply (rs_stuck _ _ _ HR).
  - pose proof (visit_one_respects run c r ps s (Hrun r)) as H1.
    destruct (visit_one _ _ _ _ _ _) as [ps1 s1]. etransitivity; [exact H1|]. apply IH.
Qed.

Lemma dispatch_with_respects run c s :
  (forall r m ctx s, R s (run (code (script r) m ctx) s).2) ->
  R s (dispatch_with script code engineStack fuel run c s).2.
Proof using HR.
  intros Hrun. unfold dispatch_with. destruct (_ <=? _); [apply (rs_log _ _ _ HR)|].
  pose proof (visit_respects run c fuel 0 [] (with_depth s (depth s + 1)) Hrun) as H.
  destruct (visit _ _ _ _ _ _ _ _) as [ps s1]. by apply (rs_depth _ _ _ HR).
Qed.

Lemma dispatch_n_respects n c s : R s (dispatch_n script code engineStack fuel n c s).2.
Proof using HR Hcode.
  pose proof (rs_pre _ _ _ HR) as Hpre. revert c s.
  induction n as [|n IH]; intros c s; simpl; apply dispatch_with_respects; intros r m ctx s'; apply exec_respects; auto.
  reflexivity.
Qed.

Lemma dispatch_respects c s : R s (dispatch script code engineStack fuel c s).2.
Proof using HR Hcode. apply dispatch_n_respects. Qed.

Lemma guard_respects owner site fn s :
  confined F A fn -> R s (guard script code engineStack fuel owner site fn s).2.
Proof using HR Hcode.
  intros Hfn. apply (rs_guard _ _ _ HR). intros s'. apply exec_respects; [|done].
  intros c s''. apply dispatch_respects.
Qed.

End Respected.

(** ** What charging a throw leaves alone *)

Record frame (s s' : Engine W) : Prop := {
  fr_world : world s' = world s;
  fr_scopes : scopes s' = scopes s;
  fr_depth : depth s' = depth s;
  fr_trip : onTrip s' = onTrip s;
  fr_current : current s' = current s;
  fr_acting : acting s' = acting s;
  fr_clock : clock s' = clock s;
  fr_parked : parked s' = parked s;
  fr_next : next_parked s' = next_parked s;
  fr_arrays : arrays s' = arrays s;
  fr_stuck : stuck s' = stuck s;
  fr_log : log s `prefix_of` log s';
}.

Lemma frame_refl s : frame s s.
Proof. by split. Qed.

Lemma frame_trans s s' s'' : frame s s' -> frame s' s'' -> frame s s''.
Proof. intros [] []. split; try congruence. by etransitivity. Qed.

Lemma frame_log s r : frame s (log_error s r).
Proof. split; try done. by apply prefix_app_r. Qed.

Lemma reportTrip_frame s t : frame s (reportTrip s t) /\ breaker (reportTrip s t) = breaker s.
Proof.
  unfold reportTrip. destruct (onTrip s) as [f|] eqn:E; [|done]. simpl. destruct (f t); split; split; try done.
  simpl. by apply prefix_app_r.
Qed.

Lemma note_throw_frame s class site err : frame s (note_throw s class site err) /\ breaker (note_throw s class site err) = breaker s.
Proof. unfold note_throw. destruct (_ =? 1); split; split; try done. by apply prefix_app_r. Qed.

Definition charged (owner : option GuardOwner) (site : GuardSite) (i : Z) (m : jstr) : Z :=
  match owner with
  | Some o => if decide (ow_id o = i /\ site_method site = m) then 1 else 0
  | None => 0
  end.

Lemma recordThrow_spec owner site err s :
  frame s (recordThrow owner site err s)
  /\ (forall i m, count (breaker (recordThrow owner site err s)) i m = count (breaker s) i m + charged owner site i m).
Proof.
  unfold recordThrow. destruct (note_throw_frame s (match owner with Some o => className o | None => js "(engine)" end) site err)
    as [Hf Hb]. destruct owner as [o|]; simpl charged; [|split; [done|]; intros i m; rewrite Hb; lia].
  set (s1 := note_throw _ _ _ _) in *.
  destruct (Breaker.recordThrow (breaker s1) (ow_id o) (site_method site)) as [n b] eqn:E.
  assert (Hc : forall i m, count b i m = count (breaker s) i m + (if decide (ow_id o = i /\ site_method site = m) then 1 else 0)).
  { intros i m. rewrite <- Hb. change b with (n, b).2. rewrite <- E. apply count_recordThrow. }
  assert (Hf1 : frame s (with_breaker s1 b)) by (destruct Hf; by split).
  destruct (n =? BREAKER_THRESHOLD); [|by split].
  destruct (reportTrip_frame (log_error (with_breaker s1 b) (MkLog (className o) (site_method site) (site_host site) (site_tick site)
    (site_event site) disabled_text true)) (MkTrip (className o) (ow_id o) (site_method site) (site_host site) (site_tick site)
    (site_event site) (stack_of err))) as [Hr Hrb].
  split; [|intros i m; rewrite Hrb; apply Hc]. eapply frame_trans; [exact Hf1|]. eapply frame_trans; [apply frame_log|exact Hr].
Qed.

(** The listener hears of a trip exactly when the count reaches the threshold. *)
Lemma recordThrow_told owner site err (s : Engine W) :
  length (told (recordThrow owner site err s))
  = (length (told s) + match owner with
       | Some o => if (count (breaker s) (ow_id o) (site_method site) + 1 =? BREAKER_THRESHOLD)%Z && bool_decide (is_Some (onTrip s)) then 1 else 0
       | None => 0
       end)%nat.
Proof.
  unfold recordThrow. destruct (note_throw_frame s (match owner with Some o => className o | None => js "(engine)" end) site err)
    as [ [] Hb].
  assert (Ht : told (note_throw s (match owner with Some o => className o | None => js "(engine)" end) site err) = told s).
  { unfold note_throw. by destruct (_ =? 1). }
  destruct owner as [o|]; [|rewrite Ht; lia]. set (s1 := note_throw _ _ _ _) in *.
  pose proof (recordThrow_count (breaker s1) (ow_id o) (site_method site)) as Hn. rewrite Hb in Hn.
  destruct (Breaker.recordThrow (breaker s1) (ow_id o) (site_method site)) as [n b] eqn:E. rewrite Hb in E. rewrite E in Hn.
  simpl in Hn. subst n. destruct (_ =? BREAKER_THRESHOLD); simpl; [|rewrite Ht; lia].
  unfold reportTrip. simpl. rewrite fr_trip0. destruct (onTrip s) as [g|]; simpl; [|rewrite Ht; lia].
  destruct (g _); simpl; rewrite length_app, Ht; simpl; lia.
Qed.

Lemma chargeOverrun_spec owner site t s :
  frame s (chargeOverrun engineStack owner site t s).2
  /\ (forall i m, count (breaker (chargeOverrun engineStack owner site t s).2) i m
       = count (breaker s) i m + if (chargeOverrun engineStack owner site t s).1 then charged owner site i m else 0).
Proof.
  unfold chargeOverrun. destruct (fle _ _); simpl; [split; [apply frame_refl|intros; lia]|apply recordThrow_spec].
Qed.

(** ** How control comes back *)

(** [s'] is [s1] with the slot given back, the tree [t'], and no breaker count moved
    but the one of [i] and [m]. *)
Record left_as (s1 s' : Engine W) (outer : option ScopeId) (t' : ScopeTree) (im : option (Z * jstr)) : Prop := {
  lf_scopes : scopes s' = t';
  lf_current : current s' = outer;
  lf_depth : depth s' = depth s1;
  lf_trip : onTrip s' = onTrip s1;
  lf_log : log s1 `prefix_of` log s';
  lf_count : forall i m, im <> Some (i, m) -> count (breaker s') i m = count (breaker s1) i m;
}.

Definition entered_guard (owner : option GuardOwner) (site : GuardSite) (s : Engine W) : option ScopeId * ScopeTree :=
  match owner with
  | None => (None, scopes s)
  | Some o => let '(id, t) := createInvocation (scopes s) (ow_hostScopeId o) (site_tick site) (js "guard:" ++ site_method site) (Some o) in
              (Some id, t)
  end.

Definition closed (scope : option ScopeId) (t : ScopeTree) : ScopeTree :=
  match scope with Some id => completeInvocation t id | None => t end.

Definition breaks (owner : option GuardOwner) (site : GuardSite) : option (Z * jstr) :=
  (fun o => (ow_id o, site_method site)) <$> owner.

Lemma charged_other owner site i m : breaks owner site <> Some (i, m) -> charged owner site i m = 0.
Proof. destruct owner as [o|]; [|done]. simpl. intros H. rewrite decide_False; [done|]. intros [<- <-]. by apply H. Qed.

Lemma count_succeed o m (s : Engine W) i m' : Some (ow_id o, m) <> Some (i, m') -> count (breaker (succeed o m s)) i m' = count (breaker s) i m'.
Proof. intros H. simpl. rewrite count_recordSuccess, decide_False; [done|]. by intros [<- <-]. Qed.

Lemma guard_leaves run owner site s :
  let s' := (guard_with engineStack run owner site s).2 in
  s' = s
  \/ let '(scope, t) := entered_guard owner site s in
     let s0 := setCurrentInvocation (with_scopes s t) scope in
     let s1 := (run s0).2 in
     match owner with Some o => count (breaker s) (ow_id o) (site_method site) < BREAKER_THRESHOLD | None => True end
     /\ left_as s1 s' (current s) (closed scope (scopes s1)) (breaks owner site)
     /\ acting s' = acting s1 /\ parked s' = parked s1.
Proof.
  unfold guard_with. cbv zeta.
  destruct (match owner with Some o => _ | None => false end) eqn:Ed; [by left|right].
  assert (He : forall (s : Engine W), with_scopes s (scopes s) = s) by (by intros []).
  destruct (entered_guard owner site s) as [scope t] eqn:Een.
  assert (Heq : match owner with
     | Some o => let '(id, s0) := begin (ow_hostScopeId o) (site_tick site) (js "guard:" ++ site_method site) o s in (Some id, s0)
     | None => (None, s) end = (scope, with_scopes s t)).
  { unfold entered_guard in Een. destruct owner as [o|]; [|injection Een as <- <-; by rewrite He].
    unfold begin. destruct (createInvocation _ _ _ _ _) as [id t']. by injection Een as <- <-. }
  rewrite Heq. clear Heq. cbv beta iota zeta.
  change (current (with_scopes s t)) with (current s). change (clock (with_scopes s t)) with (clock s).
  split; [destruct owner as [o|]; [by apply Z.leb_gt|done]|].
  destruct (run (setCurrentInvocation (with_scopes s t) scope)) as [r s1]. cbn [snd].
  destruct r as [r|err].
  - set (s2 := match scope with Some id => complete id (setCurrentInvocation s1 (current s)) | None => setCurrentInvocation s1 (current s) end).
    assert (Hs2 : scopes s2 = closed scope (scopes s1) /\ current s2 = current s /\ depth s2 = depth s1 /\ onTrip s2 = onTrip s1
      /\ log s2 = log s1 /\ breaker s2 = breaker s1 /\ acting s2 = acting s1 /\ parked s2 = parked s1).
    { unfold s2. by destruct scope. }
    destruct Hs2 as (H1 & H2 & H3 & H4 & H5 & H6 & H7 & H8).
    match goal with |- context [chargeOverrun engineStack owner site ?t0 s2] =>
      pose proof (chargeOverrun_spec owner site t0 s2) as [Hf Hc];
      destruct (chargeOverrun engineStack owner site t0 s2) as [over s3] eqn:Eo end.
    cbn [fst snd] in Hf, Hc. destruct Hf.
    assert (Hcount : forall i m, breaks owner site <> Some (i, m) -> count (breaker s3) i m = count (breaker s1) i m).
    { intros i m Hne. rewrite Hc, H6, charged_other by done. by destruct over; rewrite Z.add_0_r. }
    destruct over; [|destruct owner as [o|]]; (split; [split; cbn [snd]|]); try (cbn [snd]; simpl; split; congruence);
      simpl; try congruence; try (rewrite <- H5; done); try done.
    intros i m Hne. rewrite count_recordSuccess, decide_False; [by apply Hcount|]. intros [<- <-]. by apply Hne.
  - destruct (recordThrow_spec owner site err s1) as [Hf Hc]. destruct Hf. set (s2 := recordThrow owner site err s1) in *.
    assert (Hcount : forall i m, breaks owner site <> Some (i, m) -> count (breaker s2) i m = count (breaker s1) i m).
    { intros i m Hne. by rewrite Hc, charged_other, Z.add_0_r. }
    destruct scope as [id|]; (split; [split|]); simpl; try done; try congruence; by f_equal.
Qed.

(** The tree an invocation starts in, and its id. *)
Definition entered_invoke (si : ScriptInstance) (decl : HandlerDecl) (tick : Z) (t : ScopeTree) : ScopeId * ScopeTree :=
  let key := invocationKey si (methodName decl) in
  let t := match findRunning t (inst_scope si) key with
           | Some id => if decide (concurrencyOf decl = restart) then cancelInvocation t id else t
           | None => t
           end in
  createInvocation t (inst_scope si) tick key (Some (owner_of si)).

Definition parks (s1 s' : Engine W) (si : ScriptInstance) (m : jstr) (scope : ScopeId) : Prop :=
  exists p, parked s' = parked s1 ++ [p] /\ pk_scope p = scope /\ pk_owner p = owner_of si /\ site_method (pk_site p) = m.

Lemma invoke_leaves run si decl ctx h tick s :
  let s' := (invoke code engineStack run si decl ctx h tick s).2 in
  s' = s
  \/ let '(scope, t) := entered_invoke si decl tick (scopes s) in
     let s0 := setActingPlayer (setCurrentInvocation (with_scopes s t) (Some scope)) (ctx_player ctx) in
     let s1 := (run (code si (methodName decl) ctx) s0).2 in
     count (breaker s) (inst_id si) (methodName decl) < BREAKER_THRESHOLD
     /\ (findRunning (scopes s) (inst_scope si) (invocationKey si (methodName decl)) = None \/ concurrencyOf decl <> ignore)
     /\ acting s' = acting s
     /\ exists t', left_as s1 s' (current s) t' (Some (inst_id si, methodName decl))
       /\ ((t' = completeInvocation (scopes s1) scope /\ parked s' = parked s1)
           \/ (t' = scopes s1 /\ parks s1 s' si (methodName decl) scope)).
Proof.
  unfold invoke. cbv zeta.
  destruct (BREAKER_THRESHOLD <=? _) eqn:Ed; [by left|]. apply Z.leb_gt in Ed.
  destruct (bool_decide (is_Some _ /\ _)) eqn:Ei; [by left|right]. apply bool_decide_eq_false in Ei.
  assert (Hrun : findRunning (scopes s) (inst_scope si) (invocationKey si (methodName decl)) = None \/ concurrencyOf decl <> ignore).
  { destruct (findRunning _ _ _); [right|by left]. intros Hc. by apply Ei. }
  destruct (entered_invoke si decl tick (scopes s)) as [scope t] eqn:Een.
  assert (Heq : begin (inst_scope si) tick (invocationKey si (methodName decl)) (owner_of si)
      match findRunning (scopes s) (inst_scope si) (invocationKey si (methodName decl)) with
      | Some id => if decide (concurrencyOf decl = restart) then with_scopes s (cancelInvocation (scopes s) id) else s
      | None => s end = (scope, with_scopes s t)).
  { unfold entered_invoke in Een. unfold begin.
    destruct (findRunning _ _ _) as [id|]; [case_decide|]; cbn [scopes with_scopes]; by rewrite Een. }
  rewrite Heq. clear Heq. cbv beta iota zeta.
  change (current (with_scopes s t)) with (current s). change (acting (with_scopes s t)) with (acting s).
  split; [done|]. split; [done|]. cbn [clock setActingPlayer setCurrentInvocation with_scopes].
  destruct (run _ _) as [r s1]. cbn [snd].
  set (site := MkSite (methodName decl) h tick (decl_event decl)). set (o := owner_of si).
  set (lv := setActingPlayer (setCurrentInvocation s1 (current s)) (acting s)).
  destruct r as [r|err].
  - destruct (chargeOverrun_spec (Some o) site (clock s) lv) as [Hf Hc].
    destruct (chargeOverrun engineStack (Some o) site (clock s) lv) as [over s3]. cbn [fst snd] in Hf, Hc. destruct Hf.
    assert (Hcount : forall i m, Some (inst_id si, methodName decl) <> Some (i, m) -> count (breaker s3) i m = count (breaker s1) i m).
    { intros i m Hne. rewrite Hc, charged_other by done. by destruct over; rewrite Z.add_0_r. }
    destruct r as [| |p].
    + split; [done|]. exists (completeInvocation (scopes s1) scope). split; [by split|by left].
    + destruct over; (split; [done|]); exists (completeInvocation (scopes s1) scope);
        (split; [|left; split; [done|]]); try done; split; cbn; try done; try (by f_equal).
      intros i m Hne. rewrite count_recordSuccess, decide_False; [by apply Hcount|]. intros [<- <-]. by apply Hne.
    + split; [done|]. exists (scopes s1). split; [by split|]. right. split; [done|].
      eexists. split; [by cbn; rewrite fr_parked0|done].
  - destruct (recordThrow_spec (Some o) site err s1) as [Hf Hc]. destruct Hf.
    split; [done|]. exists (completeInvocation (scopes s1) scope).
    split; [|left; split; [done|]]; try done; split; cbn; try done; try (by f_equal).
    intros i m Hne. by rewrite Hc, charged_other, Z.add_0_r.
Qed.

(** ** The slots come back as they were *)

Record same_slots (s s' : Engine W) : Prop := {
  ss_depth : depth s' = depth s;
  ss_current : current s' = current s;
  ss_acting : acting s' = acting s;
  ss_trip : onTrip s' = onTrip s;
  ss_log : log s `prefix_of` log s';
}.

#[local] Instance same_slots_pre : PreOrder same_slots.
Proof.
  split; [by split|]. intros s1 s2 s3 [] []. split; try congruence. by etransitivity.
Qed.

Lemma slots_respected : respected (fun _ => True) (fun _ _ => True) same_slots.
Proof.
  split; try (intros; by split).
  - apply same_slots_pre.
  - intros s r. split; try done. by apply prefix_app_r.
  - intros s s' []. split; simpl in *; try done. lia.
  - intros run owner site Hrun s. destruct (guard_leaves run owner site s) as [->|H]; [reflexivity|].
    destruct (entered_guard owner site s) as [sc t]. cbv zeta in H. destruct H as (_ & [] & Ha & _).
    destruct (Hrun (setCurrentInvocation (with_scopes s t) sc)). simpl in *.
    split; try congruence. by etransitivity.
  - intros run r decl ctx h t _ Hrun s. destruct (invoke_leaves run (script r) decl ctx h t s) as [->|H]; [reflexivity|].
    destruct (entered_invoke _ _ _ _) as [sc t1]. cbv zeta in H. destruct H as (_ & _ & Ha & t' & [] & _).
    destruct (Hrun (setActingPlayer (setCurrentInvocation (with_scopes s t1) (Some sc)) (ctx_player ctx))). simpl in *.
    split; try congruence. by etransitivity.
Qed.

(** ** Fuel for the nesting *)

Lemma exec_slots send c s : (forall c s, same_slots s (send c s)) -> same_slots s (exec engineStack send c s).2.
Proof using script code engineStack fuel. intros Hs. eapply (exec_respects _ _ _ slots_respected); [done|apply confined_any]. Qed.

Lemma dispatch_n_slots n c s : same_slots s (dispatch_n script code engineStack fuel n c s).2.
Proof using script code engineStack fuel. eapply (dispatch_n_respects _ _ _ slots_respected). intros. apply confined_any. Qed.

(** Two ways to run sends and handlers that agree where [P] holds, when the steps of
    the second stay in [R] and [R] keeps [P]. *)
Section Agree.
Context (F : Z -> Prop) (A : nat -> nat -> Prop) (R : Engine W -> Engine W -> Prop).
Context (code1 : ScriptInstance -> jstr -> DispatchCtx -> creator W) (P : Engine W -> Prop).
Context (HR : respected F A R) (HP : forall s s', P s -> R s s' -> P s').
Context (Hg : forall s t c, P s -> P (setCurrentInvocation (with_scopes s t) c)).
Context (Ha : forall s p, P s -> P (setActingPlayer s p)).

Lemma exec_agree (send1 send2 : call -> Engine W -> Engine W) :
  (forall c s, P s -> send1 c s = send2 c s) -> (forall c s, R s (send2 c s)) ->
  forall c, confined F A c -> forall s, P s -> exec engineStack send1 c s = exec engineStack send2 c s.
Proof using HR HP Hg.
  intros Heq H2 c.
  induction c as [r|e|f k IH|k IH|now k IH|cl k IH|owner site fn IHf k IHk|k IH|h k IH|i k IH|a r k IH]; intros Hc s Hd; simpl;
    try done; try (apply IH; [apply Hc|]; apply (HP s); [done|]).
  - apply (rs_world _ _ _ HR).
  - by apply (rs_pre _ _ _ HR).
  - apply (rs_clock _ _ _ HR).
  - rewrite Heq by done. apply IH; [done|]. by apply (HP s).
  - destruct Hc as [Hf Hk].
    assert (Hgu : guard_with engineStack (exec engineStack send1 fn) owner site s
        = guard_with engineStack (exec engineStack send2 fn) owner site s).
    { unfold guard_with. destruct (match owner with Some o => _ | None => false end); [done|].
      destruct owner as [o|]; [unfold begin; destruct (createInvocation _ _ _ _ _)|]; (rewrite IHf; [done|done|]); [by apply Hg|].
      assert (He : s = with_scopes s (scopes s)) by (by destruct s). rewrite He. by apply Hg. }
    rewrite Hgu. pose proof (rs_guard _ _ _ HR (exec engineStack send2 fn) owner site
      (fun s => exec_respects _ _ _ HR send2 H2 fn Hf s) s) as Hs.
    destruct (guard_with _ (exec engineStack send2 fn) owner site s) as [ok s1]. apply IHk; [done|]. by apply (HP s).
  - apply (rs_host _ _ _ HR s).
  - apply (rs_drop _ _ _ HR).
  - apply (rs_forget _ _ _ HR), Hc.
  - apply (rs_attach _ _ _ HR), Hc.
Qed.

Lemma visit_agree run1 run2 c gas i ps s :
  (forall r decl ctx s, decl ∈ handlers (script r) -> P s -> count (breaker s) (inst_id (script r)) (methodName decl) < BREAKER_THRESHOLD ->
    forall t sc p, let s0 := setActingPlayer (setCurrentInvocation (with_scopes s t) sc) p in
    run1 (code1 (script r) (methodName decl) ctx) s0 = run2 (code (script r) (methodName decl) ctx) s0) ->
  (forall r m ctx s, R s (run2 (code (script r) m ctx) s).2) -> P s ->
  visit script code1 engineStack run1 c gas i (ps, s) = visit script code engineStack run2 c gas i (ps, s).
Proof using HR HP.
  intros Heq H2. revert i ps s.
  assert (Hi : forall r decl s, decl ∈ handlers (script r) -> P s ->
      invoke code1 engineStack run1 (script r) decl (call_ctx c) (call_host c) (d_tick (call_opts c)) s
      = invoke code engineStack run2 (script r) decl (call_ctx c) (call_host c) (d_tick (call_opts c)) s).
  { intros r decl s Hin Hd. unfold invoke. cbv zeta. destruct (_ <=? _) eqn:El; [done|]. apply Z.leb_gt in El.
    destruct (bool_decide _); [done|].
    match goal with |- context [begin ?a ?b ?cc ?e ?s0] =>
      assert (Hb : exists sc t, begin a b cc e s0 = (sc, with_scopes s t)); [|destruct Hb as (sc & t & ->)] end.
    { unfold begin. destruct (findRunning _ _ _); [case_decide|]; cbn [scopes with_scopes];
        destruct (createInvocation _ _ _ _ _); by do 2 eexists. }
    by rewrite (Heq r decl (call_ctx c) s Hin Hd El t (Some sc) (ctx_player (call_ctx c))). }
  assert (Hv : forall r ps s, P s -> visit_one code1 engineStack run1 c (script r) (ps, s) = visit_one code engineStack run2 c (script r) (ps, s)).
  { intros r ps s Hd. unfold visit_one.
    assert (Hin : forall x, x ∈ targets c (script r) -> x ∈ handlers (script r)).
    { intros x. unfold targets. destruct (runs_here _ _); [|intros H; by apply not_elem_of_nil in H].
      intros H. by apply list_elem_of_filter in H as [_ H]. }
    revert ps s Hd. induction (targets c (script r)) as [|decl l IH]; intros ps s Hd; [done|]. cbn [foldl].
    rewrite Hi by (auto; apply Hin; left).
    pose proof (rs_invoke _ _ _ HR run2 r decl (call_ctx c) (call_host c) (d_tick (call_opts c))
      (Hin decl ltac:(left)) (H2 r _ _) s) as Hs.
    destruct (invoke _ _ run2 _ _ _ _ _ _) as [p s1]. apply IH; [intros x Hx; apply Hin; by right|]. by apply (HP s). }
  induction gas as [|gas IH]; intros i ps s Hd; simpl; destruct (_ !! i) as [r|]; try done.
  rewrite (Hv r ps s Hd). pose proof (visit_one_respects _ _ _ HR run2 c r ps s (fun m ctx => H2 r m ctx)) as Hs.
  destruct (visit_one _ _ run2 _ _ _) as [ps1 s1]. apply IH. by apply (HP s).
Qed.

End Agree.

Lemma dispatch_n_fuel n m c s :
  MAX_SEND_DEPTH - depth s <= Z.of_nat n -> MAX_SEND_DEPTH - depth s <= Z.of_nat m ->
  dispatch_n script code engineStack fuel n c s = dispatch_n script code engineStack fuel m c s.
Proof using script code engineStack fuel.
  revert m c s. induction n as [|n IH]; intros m c s Hn Hm.
  - destruct m; simpl; unfold dispatch_with; by rewrite (proj2 (Z.leb_le _ _)) by lia.
  - destruct m as [|m]; [simpl; unfold dispatch_with; by rewrite (proj2 (Z.leb_le _ _)) by lia|].
    simpl. unfold dispatch_with. destruct (MAX_SEND_DEPTH <=? depth s) eqn:E; [done|]. apply Z.leb_gt in E.
    assert (HP : forall s1 s2, depth s1 = depth s + 1 -> same_slots s1 s2 -> depth s2 = depth s + 1).
    { intros s1 s2 Hd [Hs]. congruence. }
    rewrite (visit_agree _ _ _ code (fun s' => depth s' = depth s + 1) slots_respected HP _
      (exec engineStack (fun c s => (dispatch_n script code engineStack fuel m c s).2))); [done| | |done].
    + intros r decl ctx s' _ Hd _ t sc p.
      apply (exec_agree _ _ _ (fun s' => depth s' = depth s + 1) slots_respected HP); try done; try apply confined_any.
      * intros c2 s2 Hd2. rewrite (IH m); [done|lia..].
      * intros. apply dispatch_n_slots.
    + intros. apply exec_slots. intros. apply dispatch_n_slots.
Qed.

(** ** Invocations outlive their dispatch only parked *)

Definition tracks (s s' : Engine W) : Prop :=
  wf (scopes s) ->
  wf (scopes s') /\ exists l, parked s' = parked s ++ l
    /\ forall id, id ∈ invocations (scopes s') -> id ∈ invocations (scopes s) \/ id ∈ pk_scope <$> l.

Lemma live_endInvocation t id j :
  wf t -> j ∈ invocations (endInvocation t id) -> j ∈ invocations t /\ j <> id.
Proof.
  intros Hwf. unfold endInvocation. destruct (dead (scope t id)) eqn:Ed; simpl.
  - intros Hj. split; [done|]. intros ->. by rewrite (wf_alive _ Hwf _ Hj) in Ed.
  - apply elem_of_sdel.
Qed.

Lemma live_step t o : wf t -> match o with OInvoke _ _ _ _ => False | _ => True end ->
  forall j, j ∈ invocations (step t o) -> j ∈ invocations t.
Proof.
  intros Hwf Ho j Hj. destruct (step_spec t o Hwf) as [_ Ha].
  assert (Hk : forall t', invocations t' = (sp_live (abs t')).*1).
  { intros t'. simpl. rewrite <- list_fmap_compose. symmetry. apply list_fmap_id. }
  rewrite Hk, Ha in Hj. rewrite Hk. destruct o; simpl in *; try done;
    try (destruct (decide _); [|done]);
    apply list_elem_of_fmap in Hj as (x & -> & Hx); apply list_elem_of_fmap; exists x; (split; [done|]);
    by apply list_elem_of_filter in Hx as [_ Hx].
Qed.

#[local] Instance tracks_pre : PreOrder tracks.
Proof.
  split.
  - intros s Hwf. split; [done|]. exists []. split; [by rewrite app_nil_r|auto].
  - intros s1 s2 s3 H12 H23 Hwf. destruct (H12 Hwf) as (Hwf2 & l & Hl & Hlive).
    destruct (H23 Hwf2) as (Hwf3 & l' & Hl' & Hlive'). split; [done|]. exists (l ++ l').
    split; [by rewrite Hl', Hl, app_assoc|]. intros id Hid. rewrite fmap_app, elem_of_app.
    destruct (Hlive' id Hid) as [H|H]; [destruct (Hlive id H)|]; auto.
Qed.

Lemma tracks_scopes s o : match o with OInvoke _ _ _ _ => False | _ => True end -> tracks s (with_scopes s (step (scopes s) o)).
Proof.
  intros Ho Hwf. split; [apply (step_spec _ _ Hwf)|]. exists []. split; [by rewrite app_nil_r|].
  intros id Hid. left. by eapply live_step.
Qed.

Lemma tracks_if_same s s' : scopes s' = scopes s -> parked s' = parked s -> tracks s s'.
Proof.
  intros Hs Hp Hwf. rewrite Hs, Hp. split; [done|]. exists []. split; [by rewrite app_nil_r|auto].
Qed.

Lemma created_live t h tick key o sc t' :
  wf t -> createInvocation t h tick key o = (sc, t') -> wf t' /\ forall id, id ∈ invocations t' -> id ∈ invocations t \/ id = sc.
Proof.
  intros Hwf Hc. pose proof (wf_createInvocation t h tick key o Hwf) as Hw. rewrite Hc in Hw. split; [done|].
  injection Hc as <- <-. simpl. intros id Hid. apply elem_of_sadd in Hid as [->|Hid]; auto.
Qed.

Lemma tracks_guard run owner site :
  (forall s, tracks s (run s).2) -> forall s, tracks s (guard_with engineStack run owner site s).2.
Proof.
  intros Hrun s Hwf. destruct (guard_leaves run owner site s) as [->|H]; [by apply (reflexivity (R := tracks))|].
  destruct (entered_guard owner site s) as [sc t] eqn:Een. cbv zeta in H. destruct H as (_ & [Hsc _ _ _ _ _] & _ & Hp).
  unfold entered_guard in Een. destruct owner as [o|].
  - destruct (createInvocation _ _ _ _ _) as [id t'] eqn:Ec. injection Een as <- <-.
    destruct (created_live _ _ _ _ _ _ _ Hwf Ec) as [Hwt Hnew].
    destruct (Hrun (setCurrentInvocation (with_scopes s t') (Some id)) Hwt) as (Hw1 & l & Hl & Hlive).
    rewrite Hsc, Hp. simpl in *. split; [by apply wf_endInvocation|]. exists l. split; [done|].
    intros j Hj. apply live_endInvocation in Hj as [Hj Hne]; [|done].
    destruct (Hlive j Hj) as [H|]; [|by right]. destruct (Hnew j H); [by left|done].
  - injection Een as <- <-. destruct (Hrun (setCurrentInvocation (with_scopes s (scopes s)) None) Hwf) as (Hw1 & l & Hl & Hlive).
    rewrite Hsc, Hp. split; [done|]. by exists l.
Qed.

Lemma entered_invoke_live si decl tick t sc t' :
  wf t -> entered_invoke si decl tick t = (sc, t') ->
  wf t' /\ forall id, id ∈ invocations t' -> id ∈ invocations t \/ id = sc.
Proof.
  intros Hwf. unfold entered_invoke. destruct (findRunning _ _ _) as [old|]; [case_decide|]; try apply (created_live _ _ _ _ _ _ _ Hwf).
  intros Hc. destruct (created_live _ _ _ _ _ _ _ (wf_endInvocation _ _ Hwf) Hc) as [Hw Hl]. split; [done|].
  intros id Hid. destruct (Hl id Hid) as [H'|]; [left|by right]. by apply live_endInvocation in H' as [H' _].
Qed.

Lemma tracks_invoke run si decl ctx h tick :
  (forall s, tracks s (run (code si (methodName decl) ctx) s).2) ->
  forall s, tracks s (invoke code engineStack run si decl ctx h tick s).2.
Proof.
  intros Hrun s Hwf. destruct (invoke_leaves run si decl ctx h tick s) as [->|H]; [by apply (reflexivity (R := tracks))|].
  destruct (entered_invoke si decl tick (scopes s)) as [sc t] eqn:Een. cbv zeta in H.
  destruct (entered_invoke_live _ _ _ _ _ _ Hwf Een) as [Hwt Hnew].
  destruct (Hrun (setActingPlayer (setCurrentInvocation (with_scopes s t) (Some sc)) (ctx_player ctx)) Hwt) as (Hw1 & l & Hl & Hlive).
  destruct H as (_ & _ & _ & t' & [Hsc _ _ _ _ _] & [(Ht' & Hp)|(Ht' & p & Hp & Hps & _)]);
    rewrite Hsc, Ht', Hp; simpl in *.
  - split; [by apply wf_endInvocation|]. exists l. split; [done|]. intros j Hj.
    apply live_endInvocation in Hj as [Hj Hne]; [|done].
    destruct (Hlive j Hj) as [H|]; [|by right]. destruct (Hnew j H); [by left|done].
  - split; [done|]. exists (l ++ [p]). split; [by rewrite Hl, app_assoc|]. intros j Hj. rewrite fmap_app, elem_of_app.
    destruct (Hlive j Hj) as [H|]; [|auto]. destruct (Hnew j H) as [?| ->]; [by left|]. right. right. simpl.
    rewrite Hps. left.
Qed.

Lemma tracks_respected : respected (fun _ => True) (fun _ _ => True) tracks.
Proof.
  split; try (intros; by apply tracks_if_same).
  - apply tracks_pre.
  - intros s. by apply (tracks_scopes s OHost).
  - intros s h. by apply (tracks_scopes s (ODestroy h)).
  - intros s s' H Hwf. exact (H Hwf).
  - intros run owner site Hrun. by apply tracks_guard.
  - intros run r decl ctx h t _ Hrun. by apply tracks_invoke.
Qed.

(** ** One at a time *)

(** Registrations name distinct instances, and a class declares a method once. *)
Definition registered : Prop :=
  (forall r r', inst_id (script r) = inst_id (script r') -> script r = script r')
  /\ (forall r, NoDup (methodName <$> handlers (script r))).

(** The keys of handlers that do not run concurrently with themselves. *)
Definition serial (h : ScopeId) (key : jstr) : Prop :=
  exists r d, d ∈ handlers (script r) /\ concurrencyOf d <> concurrent /\ h = inst_scope (script r)
    /\ key = invocationKey (script r) (methodName d).

Definition running (sp : spec) (h : ScopeId) (key : jstr) : list (ScopeId * InvocationScope) :=
  filter (fun e => under h e /\ concurrencyKey e.2 = key) (sp_live sp).

Definition lonely (t : ScopeTree) : Prop :=
  wf t /\ forall h key, serial h key -> h ∈ mkeys (hostScopes t) -> (length (running (abs t) h key) <= 1)%nat.

Lemma running_filter_eq (Q : ScopeId * InvocationScope -> Prop) `{!forall e, Decision (Q e)} n hs l h key :
  running (MkSpec n hs (filter Q l)) h key = filter Q (running (MkSpec n hs l) h key).
Proof. unfold running. cbn [sp_live]. rewrite !list_filter_filter. apply list_filter_iff. clear. tauto. Qed.

Lemma running_filter (Q : ScopeId * InvocationScope -> Prop) `{!forall e, Decision (Q e)} n hs l h key :
  (length (running (MkSpec n hs (filter Q l)) h key) <= length (running (MkSpec n hs l) h key))%nat.
Proof. rewrite running_filter_eq. apply length_filter. Qed.

Lemma lonely_step t o :
  lonely t ->
  match o with
  | OInvoke h tick key _ => serial h key -> h ∈ mkeys (hostScopes t) -> running (abs t) h key = []
  | _ => True
  end -> lonely (step t o).
Proof.
  intros [Hwf Hl] Ho. destruct (step_spec t o Hwf) as [Hw Ha]. split; [done|]. intros h key Hs.
  assert (Hh : forall t', mkeys (hostScopes t') = sp_hosts (abs t')) by done.
  assert (Hsub : forall t', sp_live (abs t') = sp_live (abs t) \/ (exists Q (HQ : forall e, Decision (Q e)),
       sp_live (abs t') = filter Q (sp_live (abs t))) ->
     h ∈ mkeys (hostScopes t) -> (length (running (abs t') h key) <= 1)%nat).
  { intros t' [He|(Q & HQ & He)] Hin; unfold running; rewrite He; [by apply Hl|].
    etransitivity; [apply (running_filter Q 0 []) | by apply Hl]. }
  rewrite Hh, Ha. destruct o as [|h'|h' tick k ow|id|tick].
  - simpl. rewrite elem_of_app, list_elem_of_singleton. intros [Hin| ->]; [by apply (Hl h key)|].
    unfold running. rewrite filter_false; [simpl; lia|]. intros e He [ [_ Hlt] _].
    apply list_elem_of_fmap in He as (j & -> & Hj). pose proof (wf_lt _ Hwf _ Hj). simpl in Hlt. lia.
  - intros Hin. rewrite <- Ha. apply Hsub; rewrite ?Ha; simpl in *; destruct (decide (h' ∈ _)); try (by left).
    + right. by eexists _, _.
    + simpl in Hin. by apply elem_of_sdel in Hin as [Hin _].
    + done.
  - intros Hin. simpl in Hin. unfold running. simpl. rewrite filter_app, length_app.
    specialize (Hl h key Hs Hin). rewrite filter_cons, filter_nil.
    case_decide as Hd.
    + destruct Hd as [ [Hu _] Hk]. simpl in Hu, Hk. subst h' k. specialize (Ho Hs Hin). unfold running in Ho. simpl in Ho. by rewrite Ho.
    + unfold running in Hl. simpl in Hl. simpl. lia.
  - intros Hin. rewrite <- Ha. apply Hsub; rewrite ?Ha; [|done]. right. by eexists _, _.
  - intros Hin. rewrite <- Ha. apply Hsub; rewrite ?Ha; [|done]. right. by eexists _, _.
Qed.

Lemma lonely_endInvocation t id : lonely t -> lonely (endInvocation t id).
Proof. intros H. by apply (lonely_step t (OEnd id)). Qed.

Lemma guard_key_not_serial h m : ~ serial h (js "guard:" ++ m).
Proof.
  intros (r & d & _ & _ & _ & Hk). unfold invocationKey in Hk.
  destruct (num_str_cons (inst_id (script r))) as (u & rest & Hu & Hne). rewrite Hu in Hk. simpl in Hk.
  apply (f_equal head) in Hk. apply Hne. symmetry. by injection Hk.
Qed.

Lemma invocationKey_inj si si' m m' : invocationKey si m = invocationKey si' m' -> inst_id si = inst_id si' /\ m = m'.
Proof. apply breakerKey_inj. Qed.

(** A handler that may run beside itself shares no key with one that may not. *)
Lemma concurrent_not_serial r d h :
  registered -> d ∈ handlers (script r) -> concurrencyOf d = concurrent ->
  ~ serial h (invocationKey (script r) (methodName d)).
Proof.
  intros [Hid Hnd] Hd Hc (r' & d' & Hd' & Hc' & _ & Hk). apply invocationKey_inj in Hk as [Hi Hm].
  apply Hid in Hi. rewrite <- Hi in Hd'. apply Hc'. specialize (Hnd r).
  apply list_elem_of_lookup in Hd as [i Hi1], Hd' as [j Hj1].
  assert (i = j) as ->; [|congruence].
  eapply NoDup_lookup; [exact Hnd| |]; rewrite list_lookup_fmap.
  - by rewrite Hi1.
  - rewrite Hj1. simpl. by rewrite Hm.
Qed.

Lemma findRunning_cases t h key :
  wf t -> h ∈ mkeys (hostScopes t) ->
  match findRunning t h key with
  | None => running (abs t) h key = []
  | Some id => exists e rest, running (abs t) h key = e :: rest /\ e.1 = id
  end.
Proof.
  intros Hwf Hh. rewrite findRunning_spec by done. unfold spec_find.
  rewrite decide_True by done. unfold running. generalize (sp_live (abs t)). intros l.
  induction l as [|e l IH]; simpl; [done|]. rewrite filter_cons.
  case_bool_decide as Hb; [rewrite decide_True by done|rewrite decide_False by done; exact IH]. simpl. by eauto.
Qed.

Lemma entered_invoke_lonely r d tick t :
  registered -> d ∈ handlers (script r) -> lonely t ->
  (findRunning t (inst_scope (script r)) (invocationKey (script r) (methodName d)) = None \/ concurrencyOf d <> ignore) ->
  lonely (entered_invoke (script r) d tick t).2.
Proof.
  intros Hreg Hd Hl Hrun. unfold entered_invoke. set (h := inst_scope (script r)) in *. set (key := invocationKey _ _) in *.
  change (lonely (step match findRunning t h key with
    | Some id => if decide (concurrencyOf d = restart) then cancelInvocation t id else t | None => t end
    (OInvoke h tick key (Some (owner_of (script r)))))).
  destruct (findRunning t h key) as [id|] eqn:Ef.
  - destruct Hrun as [Hrun|Hni]; [done|]. case_decide as Hre.
    + apply lonely_step; [by apply lonely_endInvocation|]. intros Hs Hh.
      assert (Ha : abs (cancelInvocation t id) = spec_step (abs t) (OEnd id)) by (apply abs_end, Hl).
      assert (Hh' : h ∈ mkeys (hostScopes t)) by (change (h ∈ sp_hosts (abs (cancelInvocation t id))) in Hh; by rewrite Ha in Hh).
      pose proof (findRunning_cases t h key (proj1 Hl) Hh') as Hf. rewrite Ef in Hf. destruct Hf as (e & rest & Hr & He).
      pose proof (proj2 Hl h key Hs Hh') as Hlen. rewrite Hr in Hlen. destruct rest; [|simpl in Hlen; lia].
      rewrite Ha. simpl spec_step. rewrite running_filter_eq.
      change (MkSpec (nextId t) (mkeys (hostScopes t)) ((fun i => (i, scope t i)) <$> invocations t)) with (abs t).
      rewrite Hr, filter_cons, decide_False by (by rewrite He; intros []). done.
    + apply lonely_step; [done|]. intros Hs _. exfalso. eapply concurrent_not_serial; [exact Hreg|exact Hd| |exact Hs].
      by destruct (concurrencyOf d).
  - apply lonely_step; [done|]. intros Hs Hh. pose proof (findRunning_cases t h key (proj1 Hl) Hh) as Hf. by rewrite Ef in Hf.
Qed.

Definition lone (s s' : Engine W) : Prop := lonely (scopes s) -> lonely (scopes s').

Lemma lone_respected : registered -> respected (fun _ => True) (fun _ _ => True) lone.
Proof using script code engineStack fuel.
  intros Hreg. split; try (intros; intros Hl; exact Hl).
  - split; [by intros s Hl|]. intros s1 s2 s3 H12 H23 Hl. by apply H23, H12.
  - intros s Hl. by apply (lonely_step _ OHost).
  - intros s h Hl. by apply (lonely_step _ (ODestroy h)).
  - intros s s' H. exact H.
  - intros run owner site Hrun s Hl. destruct (guard_leaves run owner site s) as [->|H]; [done|].
    destruct (entered_guard owner site s) as [sc t] eqn:Een. cbv zeta in H. destruct H as (_ & [Hsc _ _ _ _ _] & _).
    rewrite Hsc. assert (Ht : lonely t).
    { unfold entered_guard in Een. destruct owner as [o|]; [|by injection Een as _ <-].
      destruct (createInvocation _ _ _ _ _) as [id t'] eqn:Ec. injection Een as _ <-.
      change t' with (id, t').2. rewrite <- Ec. apply (lonely_step _ (OInvoke _ _ _ _)); [done|].
      intros Hs. by apply guard_key_not_serial in Hs. }
    specialize (Hrun (setCurrentInvocation (with_scopes s t) sc) Ht). destruct sc; [by apply lonely_endInvocation|done].
  - intros run r decl ctx h tick Hd Hrun s Hl.
    destruct (invoke_leaves run (script r) decl ctx h tick s) as [->|H]; [done|].
    destruct (entered_invoke _ _ _ _) as [sc t] eqn:Een. cbv zeta in H. destruct H as (_ & Hfr & _ & t' & [Hsc _ _ _ _ _] & Ht').
    pose proof (entered_invoke_lonely r decl tick (scopes s) Hreg Hd Hl Hfr) as Ht. rewrite Een in Ht.
    specialize (Hrun (setActingPlayer (setCurrentInvocation (with_scopes s t) (Some sc)) (ctx_player ctx)) Ht).
    rewrite Hsc. destruct Ht' as [(Ht' & _)|(Ht' & _)]; rewrite Ht'; [by apply lonely_endInvocation|done].
Qed.

(** ** Disabled is final *)

(** The breaker has tripped for [m] on instance [i], and nothing of it is parked. *)
Definition disabled (i : Z) (m : jstr) (s : Engine W) : Prop :=
  BREAKER_THRESHOLD <= count (breaker s) i m
  /\ forall p, p ∈ parked s -> (ow_id (pk_owner p), site_method (pk_site p)) <> (i, m).

Definition stays (i : Z) (m : jstr) (s s' : Engine W) : Prop := disabled i m s -> disabled i m s'.

Lemma stays_same i m s s' :
  count (breaker s') i m = count (breaker s) i m -> parked s' = parked s -> stays i m s s'.
Proof. intros Hb Hp [H1 H2]. unfold disabled. by rewrite Hb, Hp. Qed.

Lemma stays_respected i m : respected (fun j => j <> i) (fun _ _ => True) (stays i m).
Proof using script code engineStack fuel.
  split; try (intros; by apply stays_same).
  - split; [by intros s H|]. intros s1 s2 s3 H12 H23 H. by apply H23, H12.
  - intros s j Hj. apply stays_same; [|done]. simpl. by rewrite count_forgetInstance, decide_False.
  - intros s s' H. exact H.
  - intros run owner site Hrun s Hd. destruct (guard_leaves run owner site s) as [->|H]; [done|].
    destruct (entered_guard owner site s) as [sc t]. cbv zeta in H. destruct H as (Hlt & [_ _ _ _ _ Hc] & _ & Hp).
    assert (Hne : breaks owner site <> Some (i, m)).
    { destruct owner as [o|]; [|done]. simpl. intros [= <- <-]. destruct Hd. lia. }
    eapply stays_same; [by apply Hc|exact Hp|]. by apply Hrun.
  - intros run r decl ctx h tick _ Hrun s Hd.
    destruct (invoke_leaves run (script r) decl ctx h tick s) as [->|H]; [done|].
    destruct (entered_invoke _ _ _ _) as [sc t]. cbv zeta in H.
    destruct H as (Hlt & _ & _ & t' & [_ _ _ _ _ Hc] & Hp).
    assert (Hne : (inst_id (script r), methodName decl) <> (i, m)) by (intros [= <- <-]; destruct Hd; lia).
    specialize (Hc i m ltac:(congruence)).
    specialize (Hrun (setActingPlayer (setCurrentInvocation (with_scopes s t) (Some sc)) (ctx_player ctx)) Hd).
    destruct Hp as [(_ & Hp)|(_ & p & Hp & _ & Ho & Hm)]; [by eapply stays_same|].
    destruct Hrun as [H1 H2]. split; [by rewrite Hc|]. intros q Hq. rewrite Hp, elem_of_app, list_elem_of_singleton in Hq.
    destruct Hq as [Hq| ->]; [by apply H2|]. by rewrite Ho, Hm.
Qed.

(** Code that differs only at a disabled handler runs the same. *)
Section Irrelevant.
Context (i : Z) (m : jstr) (code1 : ScriptInstance -> jstr -> DispatchCtx -> creator W).
Context (Hsame : forall si m' ctx, (inst_id si, m') <> (i, m) -> code1 si m' ctx = code si m' ctx).
Context (Hcode : forall si m' ctx, confined (fun j => j <> i) (fun _ _ => True) (code si m' ctx)).

Lemma dispatch_n_irrelevant n c s :
  disabled i m s ->
  dispatch_n script code1 engineStack fuel n c s = dispatch_n script code engineStack fuel n c s.
Proof using Hsame Hcode.
  assert (HP : forall s s', disabled i m s -> stays i m s s' -> disabled i m s') by auto.
  assert (Hw : forall (s1 s2 : call -> Engine W -> Engine W) c s,
    (forall c s, disabled i m s -> s1 c s = s2 c s) -> (forall c s, stays i m s (s2 c s)) -> disabled i m s ->
    dispatch_with script code1 engineStack fuel (exec engineStack s1) c s
    = dispatch_with script code engineStack fuel (exec engineStack s2) c s).
  { intros s1 s2 c' s' Heq Hst Hd. unfold dispatch_with. destruct (_ <=? _); [done|].
    rewrite (visit_agree _ _ _ code1 (disabled i m) (stays_respected i m) HP _ (exec engineStack s2)); [done| | |done].
    - intros r decl ctx s2' _ Hd' Hlt t sc p s0. rewrite Hsame; [|intros [= <- <-]; destruct Hd'; lia].
      apply (exec_agree _ _ _ (disabled i m) (stays_respected i m) HP); done.
    - intros r m' ctx s3. apply (exec_respects _ _ _ (stays_respected i m) s2 Hst). apply Hcode. }
  revert c s. induction n as [|n IH]; intros c s Hd; simpl; apply Hw; try done; try (intros ? ?; apply stays_same; done).
  - intros c' s' Hd'. by rewrite IH.
  - intros c' s'. apply (dispatch_n_respects _ _ _ (stays_respected i m)). apply Hcode.
Qed.

Lemma guard_irrelevant owner site fn s :
  confined (fun j => j <> i) (fun _ _ => True) fn -> disabled i m s ->
  guard script code1 engineStack fuel owner site fn s = guard script code engineStack fuel owner site fn s.
Proof using Hsame Hcode.
  intros Hfn Hd. unfold guard, guard_with.
  destruct (match owner with Some o => _ | None => false end); [done|].
  assert (He : s = with_scopes s (scopes s)) by (by destruct s).
  assert (Hx : forall t sc, exec engineStack (send script code1 engineStack fuel) fn (setCurrentInvocation (with_scopes s t) sc)
     = exec engineStack (send script code engineStack fuel) fn (setCurrentInvocation (with_scopes s t) sc)).
  { intros t sc. apply (exec_agree _ _ _ (disabled i m) (stays_respected i m)); try done.
    - auto.
    - intros c' s' Hd'. unfold send, dispatch. by rewrite dispatch_n_irrelevant.
    - intros c' s'. apply (dispatch_respects _ _ _ (stays_respected i m)). apply Hcode. }
  destruct owner as [o|]; [unfold begin; destruct (createInvocation _ _ _ _ _)|]; [by rewrite Hx|].
  rewrite He. by rewrite Hx.
Qed.

End Irrelevant.

(** ** What happens to an engine over time *)

Inductive event :=
  | EDispatch (c : call)
  | EGuard (owner : option GuardOwner) (site : GuardSite) (fn : creator W)
  | ESettle (promise : nat) (res : option thrown)
  | EHost
  | EDestroy (h : ScopeId)
  | ESweep (tick : Z)
  | EForget (i : Z)
  | EAct (f : W -> W)
  | ETime (t : num).

Definition happen (e : event) (s : Engine W) : Engine W :=
  match e with
  | EDispatch c => (dispatch script code engineStack fuel c s).2
  | EGuard owner site fn => (guard script code engineStack fuel owner site fn s).2
  | ESettle p res => settle p res s
  | EHost => with_scopes s (createHostScope (scopes s)).2
  | EDestroy h => with_scopes s (destroyHostScope (scopes s) h)
  | ESweep tick => with_scopes s (sweepAfterTick (scopes s) tick)
  | EForget i => with_breaker s (forgetInstance (breaker s) i)
  | EAct f => with_world s (f (world s))
  | ETime t => with_clock s t
  end.

Lemma finish_frame res (s : Engine W) p :
  parked (finish res s p) = parked s
  /\ scopes (finish res s p) = completeInvocation (scopes s) (pk_scope p)
  /\ forall i m, (ow_id (pk_owner p), site_method (pk_site p)) <> (i, m) -> count (breaker (finish res s p)) i m = count (breaker s) i m.
Proof.
  unfold finish. destruct res as [err|].
  - destruct (dead (scope (scopes s) (pk_scope p))) eqn:Ed.
    + split_and!; try done. unfold completeInvocation, endInvocation. by rewrite Ed.
    + destruct (recordThrow_spec (Some (pk_owner p)) (pk_site p) err s) as [ [] Hc]. simpl. split_and!; [done|by f_equal|].
      intros i m Hne. rewrite Hc. simpl. rewrite decide_False; [lia|]. intros [<- <-]. by apply Hne.
  - assert (Hs : forall s1 : Engine W, scopes s1 = scopes s -> parked s1 = parked s ->
      (forall i m, (ow_id (pk_owner p), site_method (pk_site p)) <> (i, m) -> count (breaker s1) i m = count (breaker s) i m) ->
      let s2 := if dead (scope (scopes s1) (pk_scope p)) then s1 else complete (pk_scope p) s1 in
      parked s2 = parked s /\ scopes s2 = completeInvocation (scopes s) (pk_scope p)
      /\ forall i m, (ow_id (pk_owner p), site_method (pk_site p)) <> (i, m) -> count (breaker s2) i m = count (breaker s) i m).
    { intros s1 H1 H2 H3. cbv zeta. rewrite H1. destruct (dead _) eqn:Ed; simpl; rewrite ?H1, ?H2; split_and!; try done.
      unfold completeInvocation, endInvocation. by rewrite Ed. }
    destruct (pk_overran p); apply Hs; try done. intros i m Hne. rewrite count_succeed; [done|congruence].
Qed.

Lemma settle_spec promise res (s : Engine W) :
  let s' := settle promise res s in
  parked s' = filter (fun p => pk_promise p <> promise) (parked s)
  /\ scopes s' = foldl completeInvocation (scopes s) (pk_scope <$> filter (fun p => pk_promise p = promise) (parked s))
  /\ forall i m, disabled i m s -> disabled i m s'.
Proof.
  unfold settle. cbv zeta. set (mine := filter (fun p => pk_promise p = promise) (parked s)).
  assert (Hr : forall l (s : Engine W), scopes (foldl resume s l) = scopes s /\ parked (foldl resume s l) = parked s
     /\ breaker (foldl resume s l) = breaker s).
  { clear. induction l as [|p l IH]; intros s; [done|]. cbn [foldl]. destruct (IH (resume s p)) as (-> & -> & ->). done. }
  assert (Hf : forall l (s : Engine W), parked (foldl (finish res) s l) = parked s
     /\ scopes (foldl (finish res) s l) = foldl completeInvocation (scopes s) (pk_scope <$> l)
     /\ (forall i m, (forall p, p ∈ l -> (ow_id (pk_owner p), site_method (pk_site p)) <> (i, m)) ->
          count (breaker (foldl (finish res) s l)) i m = count (breaker s) i m)).
  { clear. induction l as [|p l IH]; intros s; [done|]. cbn [foldl fmap list_fmap].
    destruct (finish_frame res s p) as (H1 & H2 & H3). destruct (IH (finish res s p)) as (-> & -> & Hc).
    rewrite H1, H2. split_and!; try done. intros i m Hne. rewrite Hc; [apply H3, Hne; left|]. intros q Hq. apply Hne. by right. }
  destruct (Hr mine s) as (R1 & R2 & R3). destruct (Hf mine (foldl resume s mine)) as (F1 & F2 & F3).
  split_and!; [by simpl; rewrite F1, R2|by simpl; rewrite F2, R1|]. intros i m [H1 H2]. unfold disabled. simpl.
  rewrite F1, R2. split.
  - rewrite F3, R3; [done|]. intros p Hp. apply H2. unfold mine in Hp. by apply list_elem_of_filter in Hp as [_ Hp].
  - intros p Hp. apply H2. by apply list_elem_of_filter in Hp as [_ Hp].
Qed.

End Laws.
