(* ===== verification/Dispatching.v ===== *)
(** * Histories of dispatches

    What [Dispatcher] promises over any sequence of dispatches, guarded calls, settled
    promises, sweeps and destroyed hosts: control comes back, at most one invocation
    of a handler that does not run beside itself, nothing alive that is not parked, a
    tripped breaker stays tripped. Then two scripts that show its edges. *)

From stdpp Require Import functions.
From S2P Require Import Prelude JsMap JsNum Json ScopeTree Metadata Hosts Breaker Dispatcher.

Local Open Scope Z_scope.

(** ** Histories *)

Lemma create_complete t h tick key o :
  wf t -> let '(id, t1) := createInvocation t h tick key o in
  let t2 := completeInvocation t1 id in
  wf t2 /\ sp_live (abs t2) = sp_live (abs t) /\ sp_hosts (abs t2) = sp_hosts (abs t).
Proof.
  intros Hwf. pose proof (step_spec t (OInvoke h tick key o) Hwf) as [Hw1 Ha1].
  change (step t (OInvoke h tick key o)) with (createInvocation t h tick key o).2 in *.
  destruct (createInvocation t h tick key o) as [id t1] eqn:E. cbn [snd] in *.
  pose proof (step_spec t1 (OEnd id) Hw1) as [Hw2 Ha2]. cbn [step] in *. split; [done|].
  unfold completeInvocation. rewrite Ha2, Ha1. simpl. split; [|done].
  assert (id = nextId t) as -> by (by injection E). rewrite filter_app, filter_cons, filter_nil, decide_False by (intros H; by apply H).
  rewrite app_nil_r. apply filter_true. intros x Hx. apply list_elem_of_fmap in Hx as (j & -> & Hj). simpl.
  pose proof (wf_lt _ Hwf _ Hj). lia.
Qed.

Section Histories.
Context {W : Type} (script : nat -> ScriptInstance) (code : ScriptInstance -> jstr -> DispatchCtx -> creator W)
  (engineStack : option jstr) (fuel : nat).

Definition fresh (w : W) (listener : option (BreakerTrip -> option thrown)) (t : num) : Engine W :=
  MkEngine w new_tree no_counts 0 [] [] listener [] None None t [] 0 (fun _ => []) false.

Abbreviation happens := (happen script code engineStack fuel).

Lemma code_any si m ctx : confined (fun _ => True) (fun _ _ => True) (code si m ctx).
Proof. apply confined_any. Qed.

Lemma happen_lonely e s : registered script -> lonely script (scopes s) -> lonely script (scopes (happens e s)).
Proof.
  intros Hreg Hl. pose proof (lone_respected script code engineStack fuel Hreg) as HR. destruct e; cbn [happen].
  - by apply (dispatch_respects _ _ _ _ _ _ _ HR code_any).
  - apply (guard_respects _ _ _ _ _ _ _ HR code_any); [apply confined_any|done].
  - destruct (settle_spec promise res s) as (_ & -> & _).
    generalize (pk_scope <$> filter (fun p => pk_promise p = promise) (parked s)) as l.
    intros l. revert Hl. generalize (scopes s) as t. induction l as [|x l IH]; intros t Hl; [done|]. cbn [foldl].
    apply IH. by apply lonely_endInvocation.
  - by apply (lonely_step script _ OHost).
  - by apply (lonely_step script _ (ODestroy h)).
  - by apply (lonely_step script _ (OSweep tick)).
  - done.
  - done.
  - done.
Qed.

(** Nothing runs that is not parked. *)
Definition all_parked (s : Engine W) : Prop :=
  wf (scopes s) /\ forall id, id ∈ invocations (scopes s) -> id ∈ pk_scope <$> parked s.

Lemma tracks_all_parked s s' : tracks s s' -> all_parked s -> all_parked s'.
Proof.
  intros Ht [Hwf Hp]. destruct (Ht Hwf) as (Hwf' & l & Hl & Hlive). split; [done|].
  intros id Hid. rewrite Hl, fmap_app, elem_of_app. destruct (Hlive id Hid); auto.
Qed.

Lemma complete_all_live l t : wf t ->
  wf (foldl completeInvocation t l)
  /\ forall id, id ∈ invocations (foldl completeInvocation t l) -> id ∈ invocations t /\ id ∉ l.
Proof.
  revert t. induction l as [|x l IH]; intros t Hwf; cbn [foldl].
  { split; [done|]. intros id Hid. split; [done|]. apply not_elem_of_nil. }
  destruct (IH (completeInvocation t x) (wf_endInvocation _ _ Hwf)) as [Hw Hl]. split; [done|].
  intros id Hid. destruct (Hl id Hid) as [H1 H2]. apply live_endInvocation in H1 as [H1 Hne]; [|done].
  split; [done|]. by apply not_elem_of_cons.
Qed.

Lemma happen_all_parked e s : all_parked s -> all_parked (happens e s).
Proof.
  pose proof (tracks_respected script code engineStack) as HR. intros Hp. destruct e; cbn [happen].
  - eapply tracks_all_parked; [|exact Hp]. apply (dispatch_respects _ _ _ _ _ _ _ HR code_any).
  - eapply tracks_all_parked; [|exact Hp]. apply (guard_respects _ _ _ _ _ _ _ HR code_any). apply confined_any.
  - destruct Hp as [Hwf Hp]. destruct (settle_spec promise res s) as (Hpk & Hsc & _). unfold all_parked. rewrite Hsc, Hpk.
    destruct (complete_all_live (pk_scope <$> filter (fun p => pk_promise p = promise) (parked s)) _ Hwf) as [Hw Hl].
    split; [done|]. intros id Hid. destruct (Hl id Hid) as [H1 H2]. apply Hp in H1.
    apply list_elem_of_fmap in H1 as (p & -> & Hin). apply list_elem_of_fmap. exists p. split; [done|].
    apply list_elem_of_filter. split; [|done]. intros Heq. apply H2. apply list_elem_of_fmap. exists p. split; [done|].
    by apply list_elem_of_filter.
  - eapply tracks_all_parked; [|exact Hp]. apply (tracks_scopes s OHost). done.
  - eapply tracks_all_parked; [|exact Hp]. by apply (tracks_scopes s (ODestroy h)).
  - eapply tracks_all_parked; [|exact Hp]. by apply (tracks_scopes s (OSweep tick)).
  - done.
  - done.
  - done.
Qed.

Definition event_confined (F : Z -> Prop) (e : @event W) : Prop :=
  match e with
  | EGuard _ _ fn => confined F (fun _ _ => True) fn
  | EForget i => F i
  | _ => True
  end.

Lemma happen_disabled i m e s :
  (forall si m' ctx, confined (fun j => j <> i) (fun _ _ => True) (code si m' ctx)) ->
  event_confined (fun j => j <> i) e -> disabled i m s -> disabled i m (happens e s).
Proof.
  pose proof (stays_respected script code engineStack fuel i m) as HR. intros Hcode He Hd. destruct e; cbn [happen event_confined] in *; try done.
  - by apply (dispatch_respects _ _ _ _ _ _ _ HR Hcode).
  - by apply (guard_respects _ _ _ _ _ _ _ HR Hcode).
  - by apply settle_spec.
  - by apply (rs_forget _ _ _ _ _ _ HR).
Qed.

(** ** A handler that always throws *)

Section AlwaysThrows.
Context (r : nat) (d : HandlerDecl) (f : W -> W) (e : thrown) (c : call).
Context (Hc : instances c = Own [r]) (Ht : targets c (script r) = [d]).
Context (Hcode : forall ctx, code (script r) (methodName d) ctx = Act f (Raise e)).
Context (Hfuel : (0 < fuel)%nat).

(** Where the handler has not run and may. *)
Record quiet (s : Engine W) : Prop := {
  qt_wf : wf (scopes s);
  qt_depth : depth s < MAX_SEND_DEPTH;
  qt_running : findRunning (scopes s) (inst_scope (script r)) (invocationKey (script r) (methodName d)) = None;
}.

Definition site_of (tick : Z) : GuardSite := MkSite (methodName d) (call_host c) tick (decl_event d).

Lemma throws_once s :
  quiet s ->
  let s' := (dispatch script code engineStack fuel c s).2 in
  let n := count (breaker s) (inst_id (script r)) (methodName d) in
  quiet s' /\ onTrip s' = onTrip s
  /\ (if BREAKER_THRESHOLD <=? n
      then world s' = world s /\ told s' = told s /\ count (breaker s') (inst_id (script r)) (methodName d) = n
      else world s' = f (world s) /\ count (breaker s') (inst_id (script r)) (methodName d) = n + 1
           /\ length (told s') = (length (told s) + if (n + 1 =? BREAKER_THRESHOLD)%Z && bool_decide (is_Some (onTrip s)) then 1 else 0)%nat).
Proof using Hc Ht Hcode Hfuel.
  intros [Hwf Hd Hrun]. cbv zeta. unfold dispatch. destruct (Z.to_nat (MAX_SEND_DEPTH - depth s)) as [|k] eqn:Ek; [lia|].
  simpl. unfold dispatch_with. rewrite (proj2 (Z.leb_gt _ _) Hd). destruct fuel as [|g]; [lia|]. simpl. rewrite Hc. simpl.
  unfold visit_one. rewrite Ht. cbn [foldl]. unfold invoke. cbv zeta. cbn [breaker with_depth scopes].
  destruct (BREAKER_THRESHOLD <=? count (breaker s) _ _) eqn:El.
  { destruct g; simpl; rewrite Hc; simpl; (split; [split; simpl|]); try done; try lia. }
  rewrite Hrun. rewrite bool_decide_false by (intros [ [] _]; done).
  unfold begin. cbn [scopes with_depth].
  pose proof (create_complete (scopes s) (inst_scope (script r)) (d_tick (call_opts c)) (invocationKey (script r) (methodName d))
    (Some (owner_of (script r))) Hwf) as Hcc.
  destruct (createInvocation _ _ _ _ _) as [id t1]. destruct Hcc as (Hw2 & Hlive & Hhosts).
  rewrite Hcode. cbn [exec].
  match goal with |- context [recordThrow ?o ?st ?er ?s0] =>
    set (sx := s0); destruct (recordThrow_spec o st er sx) as [Hf Hcnt]; pose proof (recordThrow_told o st er sx) as Htold;
    set (sy := recordThrow o st er sx) in * end.
  destruct Hf as [Fw Fs Fd Ft _ _ _ _ _ _ _ _]. specialize (Hcnt (inst_id (script r)) (methodName d)). simpl in Hcnt, Htold.
  rewrite decide_True in Hcnt by done.
  assert (Hq : findRunning (completeInvocation t1 id) (inst_scope (script r)) (invocationKey (script r) (methodName d)) = None).
  { rewrite findRunning_spec by done. rewrite findRunning_spec in Hrun by done. unfold spec_find in *. by rewrite Hlive, Hhosts. }
  destruct g; simpl; rewrite Hc; simpl; (split; [split; simpl|]); rewrite ?Fs, ?Fd; simpl; try done; try lia.
  all: rewrite ?Ft, ?Fw; simpl; split; [done|]; split; [done|]; split; [done|]; rewrite Htold; done.
Qed.

End AlwaysThrows.
End Histories.

(** ** A script that attaches its own kind *)

Module Cloner.

Definition cloned : HandlerDecl := MkDecl (js "clone") onEvent (js "clone") no_options.
Definition class : ScriptClass := MkClass (js "Cloner") LServer (Some (MkMetadata [cloned] [])).

(** Every registration is of the one class, on one host. *)
Definition script (r : nat) : ScriptInstance :=
  MkInstance (Z.of_nat r + 1) r class (js "Cloner") LServer [cloned] 1 None.

(** [@onEvent('clone') clone() { this.host.attach(Cloner) }]: creator state counts the
    scripts made, and the host's list is array 0. *)
Definition code (si : ScriptInstance) (m : jstr) (ctx : DispatchCtx) : creator nat :=
  Ask (fun made _ _ => Act S (Attach 0 (S made) (Return Value))).

Definition ctx : DispatchCtx := MkCtx None None None f0 true (JObj []) None None.
Definition sent : call :=
  MkCall (Shared 0) onEvent (js "clone") (js "entity:0") ctx (MkDispatch [LServer; LSynced] false 0 None).

(** One script on the host, nothing running. *)
Definition start : Engine nat :=
  with_arrays (with_scopes (fresh 0%nat None f0) (createHostScope new_tree).2) (fun a => if decide (a = 0%nat) then [0%nat] else []).

Record turn (i : nat) (s : Engine nat) : Prop := {
  tn_wf : wf (scopes s);
  tn_idle : invocations (scopes s) = [];
  tn_breaker : breaker s = [];
  tn_clock : clock s = f0;
  tn_array : length (arrays s 0%nat) = S i;
}.

Lemma turn_step run i r ps s :
  (exists snd, run = exec None snd) -> turn i s -> turn (S i) (visit_one code None run sent (script r) (ps, s)).2.
Proof.
  intros [snd ->] [Hwf Hidle Hb Hc Ha]. unfold visit_one.
  assert (targets sent (script r) = [cloned]) as -> by done. cbn [foldl]. unfold invoke. cbv zeta. rewrite Hb. cbn [count].
  assert (Hr : findRunning (scopes s) (inst_scope (script r)) (invocationKey (script r) (methodName cloned)) = None).
  { rewrite findRunning_spec by done. unfold spec_find, abs. simpl. rewrite Hidle. by destruct (decide _). }
  rewrite Hr. rewrite bool_decide_false by (intros [ [] _]; done).
  change (BREAKER_THRESHOLD <=? count [] (inst_id (script r)) (methodName cloned)) with false. cbv iota.
  unfold begin. pose proof (create_complete (scopes s) (inst_scope (script r)) (d_tick (call_opts sent))
    (invocationKey (script r) (methodName cloned)) (Some (owner_of (script r))) Hwf) as Hcc.
  destruct (createInvocation _ _ _ _ _) as [id t1]. destruct Hcc as (Hw2 & Hlive & _).
  cbn [exec code]. unfold chargeOverrun. cbn [clock setActingPlayer setCurrentInvocation with_scopes with_world with_arrays].
  rewrite Hc. change (fle (fsub f0 f0) (of_Z MAX_HANDLER_MS)) with true. cbv iota beta zeta.
  split; simpl.
  - done.
  - apply (fmap_nil_inv (fun i => (i, scope (completeInvocation t1 id) i))). simpl in Hlive. rewrite Hlive. by rewrite Hidle.
  - by rewrite Hb.
  - done.
  - rewrite fn_lookup_insert, length_app, Ha. simpl. lia.
Qed.

Lemma visit_stuck run gas i ps s :
  (exists snd, run = exec None snd) -> turn i s -> stuck (visit script code None run sent gas i (ps, s)).2 = true.
Proof.
  intros Hrun. revert i ps s. induction gas as [|gas IH]; intros i ps s Ht; cbn [visit].
  - change (listed_now (instances sent) (ps, s).2) with (arrays s 0%nat).
    destruct (lookup_lt_is_Some_2 (arrays s 0%nat) i) as [r ->]; [rewrite (tn_array _ _ Ht); lia|done].
  - change (listed_now (instances sent) (ps, s).2) with (arrays s 0%nat).
    destruct (lookup_lt_is_Some_2 (arrays s 0%nat) i) as [r ->]; [rewrite (tn_array _ _ Ht); lia|].
    pose proof (turn_step run i r ps s Hrun Ht) as Hn.
    destruct (visit_one _ _ _ _ _ _) as [ps1 s1]. by apply IH.
Qed.

Lemma start_turn : turn 0 start.
Proof. split; try done. apply wf_createHostScope, tree_wf_new. Qed.

End Cloner.

(** ** A handler parked under a send *)

Module NestedPark.

Definition outer : HandlerDecl := MkDecl (js "outer") onEvent (js "outer") no_options.
Definition inner : HandlerDecl := MkDecl (js "inner") onEvent (js "inner") no_options.
Definition class : ScriptClass := MkClass (js "Pair") LServer (Some (MkMetadata [outer; inner] [])).

Definition script (r : nat) : ScriptInstance :=
  MkInstance (Z.of_nat r + 1) r class (js "Pair") LServer [outer; inner] 1 None.

Definition sent (event : jstr) (r : nat) : call :=
  MkCall (Own [r]) onEvent event (js "entity:0") Cloner.ctx (MkDispatch [LServer; LSynced] false 0 None).

(** [outer] sends [inner] to the other script and returns; [inner] awaits. *)
Definition code (si : ScriptInstance) (m : jstr) (ctx : DispatchCtx) : creator unit :=
  if decide (m = js "outer") then Send (sent (js "inner") 1) (Return Value) else Return (Awaits 0).

Definition start : Engine unit :=
  with_scopes (fresh tt None f0) (createHostScope new_tree).2.

Definition after : Engine unit :=
  foldl (fun s e => happen script code None 2 e s) start [EDispatch (sent (js "outer") 0); ESettle 0 None].

End NestedPark.

(** ** A handler disabled while one call of it is parked *)

Module LateSuccess.

Definition hit : HandlerDecl := MkDecl (js "hazard") onCollide (js "hit") no_options.
Definition class : ScriptClass := MkClass (js "Trap") LServer (Some (MkMetadata [hit] [])).
Definition script (r : nat) : ScriptInstance := MkInstance 1 r class (js "Trap") LServer [hit] 1 None.
Definition sent : call :=
  MkCall (Own [0%nat]) onCollide (js "hazard") (js "entity:0") Cloner.ctx (MkDispatch [LServer; LSynced] false 0 None).

(** The first call waits on a promise; the others throw. *)
Definition code (si : ScriptInstance) (m : jstr) (ctx : DispatchCtx) : creator nat :=
  Ask (fun calls _ _ => Act S (match calls with O => Return (Awaits 0) | S _ => Raise (AnError (js "bad") None) end)).

Definition start : Engine nat :=
  with_scopes (fresh 0%nat (Some (fun _ => None)) f0) (createHostScope new_tree).2.

Definition run (es : list (@event nat)) (s : Engine nat) : Engine nat :=
  foldl (fun s e => happen script code None 1 e s) s es.

End LateSuccess.

(** ** Properties *)

(** C23. Control comes back. Whatever creator code a dispatch or a guarded call runs,
    to whatever depth it sends, and whether it throws, parks or returns, afterwards
    the send depth, the ambient invocation, the acting player and the trip listener
    are what they were, and the log has only grown. *)
Theorem dispatch_gives_control_back {W} (script : nat -> ScriptInstance) (code : ScriptInstance -> jstr -> DispatchCtx -> creator W)
    (stack : option jstr) (fuel : nat) (s : Engine W) :
  (forall c, same_slots s (dispatch script code stack fuel c s).2)
  /\ (forall owner site fn, same_slots s (guard script code stack fuel owner site fn s).2).
Proof.
  pose proof (slots_respected script code stack) as HR. split.
  - intros c. apply (dispatch_respects _ _ _ _ _ _ _ HR). intros. apply confined_any.
  - intros owner site fn. apply (guard_respects _ _ _ _ _ _ _ HR); [intros|]; apply confined_any.
Qed.

(** Sending ends. However the handlers send to each other, a dispatch never nests
    deeper than the levels left under the limit: more levels of recursion to run it
    with give the same result. *)
Theorem sends_never_nest_past_limit {W} (script : nat -> ScriptInstance) (code : ScriptInstance -> jstr -> DispatchCtx -> creator W)
    (stack : option jstr) (fuel more : nat) (c : call) (s : Engine W) :
  dispatch_n script code stack fuel (Z.to_nat (MAX_SEND_DEPTH - depth s) + more) c s = dispatch script code stack fuel c s.
Proof. apply dispatch_n_fuel; lia. Qed.

(** C30. One at a time. Over any history, under a host that exists, at most one
    invocation of a handler declared ([ignore] or [restart], which is the default for
    most kinds) not to run beside itself is alive: later calls are dropped or replace
    it. *)
Theorem one_invocation_at_a_time {W} (script : nat -> ScriptInstance) (code : ScriptInstance -> jstr -> DispatchCtx -> creator W)
    (stack : option jstr) (fuel : nat) (w : W) (listener : option (BreakerTrip -> option thrown)) (t : num)
    (es : list (@event W)) (r : nat) (d : HandlerDecl) :
  registered script -> d ∈ handlers (script r) -> concurrencyOf d <> concurrent ->
  let s := foldl (fun s e => happen script code stack fuel e s) (fresh w listener t) es in
  inst_scope (script r) ∈ mkeys (hostScopes (scopes s)) ->
  (length (filter (fun id => hostId (scope (scopes s) id) = inst_scope (script r) /\ (inst_scope (script r) < id)%Z
                     /\ concurrencyKey (scope (scopes s) id) = invocationKey (script r) (methodName d))
             (invocations (scopes s))) <= 1)%nat.
Proof.
  intros Hreg Hd Hc s Hh.
  assert (Hl : lonely script (scopes s)).
  { unfold s. clear Hh s. assert (H0 : lonely script (scopes (fresh w listener t))).
    { split; [apply tree_wf_new|]. intros h key _ Hin. by apply not_elem_of_nil in Hin. }
    revert H0. generalize (fresh w listener t) as s. induction es as [|e es IH]; intros s Hs; [done|]. apply IH.
    by apply happen_lonely. }
  destruct Hl as [_ Hl]. specialize (Hl (inst_scope (script r)) (invocationKey (script r) (methodName d))).
  etransitivity; [|apply Hl; [by exists r, d|done]]. unfold running. cbn [sp_live abs].
  rewrite filter_fmap_pair, length_fmap. apply Nat.eq_le_incl. f_equal. apply list_filter_iff. intros id. unfold under. simpl. tauto.
Qed.

Lemma one_invocation_at_a_time_witness :
  let s := foldl (fun s e => happen NestedPark.script NestedPark.code None 2 e s) (fresh tt None f0)
             [EHost; EDispatch (NestedPark.sent (js "inner") 1); EDispatch (NestedPark.sent (js "inner") 1)] in
  registered NestedPark.script /\ length (invocations (scopes s)) = 1%nat
  /\ (length (filter (fun id => hostId (scope (scopes s) id) = 1%Z /\ (1 < id)%Z
                     /\ concurrencyKey (scope (scopes s) id) = invocationKey (NestedPark.script 1) (js "inner"))
             (invocations (scopes s))) <= 1)%nat.
Proof.
  assert (Hreg : registered NestedPark.script).
  { split.
    - intros r r' H. simpl in H. assert (r = r') as -> by lia. done.
    - intros r. simpl. repeat constructor; rewrite ?list_elem_of_singleton; try done. apply not_elem_of_nil. }
  intros s. split; [done|]. split; [reflexivity|].
  apply (one_invocation_at_a_time NestedPark.script NestedPark.code None 2 tt None f0
    [EHost; EDispatch (NestedPark.sent (js "inner") 1); EDispatch (NestedPark.sent (js "inner") 1)] 1 NestedPark.inner Hreg).
  - right. left.
  - done.
  - left.
Defined.

(** Nothing is left running. Over any history, every invocation alive between
    events is one whose handler returned a promise that has not settled: throws,
    returns and guarded calls leave none behind. *)
Theorem live_invocations_are_parked {W} (script : nat -> ScriptInstance) (code : ScriptInstance -> jstr -> DispatchCtx -> creator W)
    (stack : option jstr) (fuel : nat) (w : W) (listener : option (BreakerTrip -> option thrown)) (t : num) (es : list (@event W)) :
  let s := foldl (fun s e => happen script code stack fuel e s) (fresh w listener t) es in
  Forall (fun id => exists p, p ∈ parked s /\ pk_scope p = id) (invocations (scopes s)).
Proof.
  intros s. apply Forall_forall. intros id Hid.
  assert (Hp : all_parked s).
  { unfold s. clear id Hid s. assert (H0 : all_parked (fresh w listener t)).
    { split; [apply tree_wf_new|]. intros id Hid. by apply not_elem_of_nil in Hid. }
    revert H0. generalize (fresh w listener t) as s. induction es as [|e es IH]; intros s Hs; [done|]. apply IH.
    by apply happen_all_parked. }
  destruct Hp as [_ Hp]. apply Hp, list_elem_of_fmap in Hid as (p & -> & Hin). eauto.
Qed.

(** C27. A tripped handler never runs again. Once its breaker has tripped and no call of
    it is parked, then over any history that does not forget its instance the breaker
    stays tripped, and every other handler, and the whole engine, runs exactly as it
    would with any other code in the handler's place. *)
Theorem tripped_handler_never_runs {W} (script : nat -> ScriptInstance) (code code' : ScriptInstance -> jstr -> DispatchCtx -> creator W)
    (stack : option jstr) (fuel : nat) (i : Z) (m : jstr) (s : Engine W) (es : list (@event W)) :
  disabled i m s ->
  (forall si m' ctx, confined (fun j => j <> i) (fun _ _ => True) (code si m' ctx)) ->
  (forall si m' ctx, (inst_id si, m') <> (i, m) -> code' si m' ctx = code si m' ctx) ->
  Forall (event_confined (fun j => j <> i)) es ->
  let run c := foldl (fun s e => happen script c stack fuel e s) s es in
  run code' = run code /\ BREAKER_THRESHOLD <= count (breaker (run code)) i m.
Proof.
  intros Hd Hcode Hsame Hes run. unfold run. clear run. revert s Hd.
  induction Hes as [|e es He _ IH]; intros s Hd; [by split; [|destruct Hd]|]. cbn [foldl].
  assert (happen script code' stack fuel e s = happen script code stack fuel e s) as ->.
  { destruct e; try done; cbn [happen].
    - unfold dispatch. by rewrite (dispatch_n_irrelevant script code stack fuel i m code').
    - by rewrite (guard_irrelevant script code stack fuel i m code'). }
  apply IH. by apply happen_disabled.
Qed.

Lemma tripped_handler_never_runs_witness :
  let s := LateSuccess.run (ESettle 0 None :: replicate 100 (EDispatch LateSuccess.sent))
             (LateSuccess.run [EDispatch LateSuccess.sent] LateSuccess.start) in
  disabled 1 (js "hit") s
  /\ BREAKER_THRESHOLD <= count (breaker (LateSuccess.run [EDispatch LateSuccess.sent; EDispatch LateSuccess.sent] s)) 1 (js "hit").
Proof.
  intros s. assert (Hd : disabled 1 (js "hit") s).
  { split; [vm_compute; discriminate|]. intros p Hp. assert (Hn : parked s = []) by (vm_compute; reflexivity).
    rewrite Hn in Hp. exfalso. exact (not_elem_of_nil _ Hp). }
  split; [exact Hd|].
  apply (tripped_handler_never_runs LateSuccess.script LateSuccess.code LateSuccess.code None 1 1 (js "hit") s
    [EDispatch LateSuccess.sent; EDispatch LateSuccess.sent] Hd).
  - intros si m' ctx w a p. by destruct w.
  - done.
  - repeat constructor.
Defined.

(** A handler that throws every time runs a hundred times. Called [n] times, it
    runs [min n 100] of them, its count stops at 100, and the host hears of it once. *)
Theorem throwing_handler_runs_a_hundred_times {W} (script : nat -> ScriptInstance)
    (code : ScriptInstance -> jstr -> DispatchCtx -> creator W) (stack : option jstr) (fuel : nat)
    (r : nat) (d : HandlerDecl) (f : W -> W) (e : thrown) (c : call) (s : Engine W) (n : nat) :
  instances c = Own [r] -> targets c (script r) = [d] ->
  (forall ctx, code (script r) (methodName d) ctx = Act f (Raise e)) -> (0 < fuel)%nat ->
  quiet script r d s -> count (breaker s) (inst_id (script r)) (methodName d) = 0 ->
  let s' := Nat.iter n (fun s => (dispatch script code stack fuel c s).2) s in
  world s' = Nat.iter (min n 100) f (world s)
  /\ count (breaker s') (inst_id (script r)) (methodName d) = Z.of_nat (min n 100)
  /\ length (told s') = (length (told s) + if (100 <=? n) && bool_decide (is_Some (onTrip s)) then 1 else 0)%nat.
Proof.
  intros Hc Ht Hcode Hfuel Hq H0. cbv zeta.
  assert (H : quiet script r d (Nat.iter n (fun s => (dispatch script code stack fuel c s).2) s)
    /\ onTrip (Nat.iter n (fun s => (dispatch script code stack fuel c s).2) s) = onTrip s
    /\ world (Nat.iter n (fun s => (dispatch script code stack fuel c s).2) s) = Nat.iter (min n 100) f (world s)
    /\ count (breaker (Nat.iter n (fun s => (dispatch script code stack fuel c s).2) s)) (inst_id (script r)) (methodName d) = Z.of_nat (min n 100)
    /\ length (told (Nat.iter n (fun s => (dispatch script code stack fuel c s).2) s))
       = (length (told s) + if (100 <=? n) && bool_decide (is_Some (onTrip s)) then 1 else 0)%nat).
  { induction n as [|n (IHq & IHt & IHw & IHc & IHl)]; [simpl; split_and!; try done; lia|]. rewrite !Nat.iter_succ.
    destruct (throws_once script code stack fuel r d f e c Hc Ht Hcode Hfuel _ IHq) as (Hq' & Ht' & Hif).
    rewrite IHt in Ht'. split; [done|]. split; [done|]. rewrite IHc in Hif.
    change BREAKER_THRESHOLD with 100 in Hif. destruct (100 <=? Z.of_nat (min n 100)) eqn:El.
    - apply Z.leb_le in El. destruct Hif as (-> & -> & ->). rewrite IHw, IHl.
      rewrite (proj2 (Nat.leb_le _ _)) by lia. rewrite (proj2 (Nat.leb_le _ _)) by lia. split_and!; try done; [f_equal|]; lia.
    - apply Z.leb_gt in El. destruct Hif as (-> & -> & ->). rewrite IHw, IHl, IHt.
      replace (min (S n) 100) with (S (min n 100)) by lia. split; [done|]. split; [lia|].
      rewrite (proj2 (Nat.leb_gt 100 n)) by lia. simpl andb at 1. cbv iota. rewrite Nat.add_0_r. f_equal.
      destruct (Z.eqb_spec (Z.of_nat (min n 100) + 1) 100), (Nat.leb_spec 100 (S n)); try done; lia. }
  tauto.
Qed.

Lemma throwing_handler_runs_a_hundred_times_witness :
  let code (_ : ScriptInstance) (_ : jstr) (_ : DispatchCtx) := Act S (Raise (AnyThrown (js "no"))) in
  let s := Nat.iter 150 (fun s => (dispatch LateSuccess.script code None 1 LateSuccess.sent s).2) LateSuccess.start in
  world s = 100%nat /\ count (breaker s) 1 (js "hit") = 100 /\ length (told s) = 1%nat.
Proof.
  intros code. apply (throwing_handler_runs_a_hundred_times LateSuccess.script code None 1 0 LateSuccess.hit S
    (AnyThrown (js "no")) LateSuccess.sent LateSuccess.start 150); try done; [lia|].
  split; [apply wf_createHostScope, tree_wf_new|done|done].
Defined.

(** A script that answers an event by attaching another of its kind never lets the
    dispatch end: the loop reads the host's list as it grows, so no number of turns is
    enough. *)
Theorem attaching_handler_never_ends (fuel : nat) :
  stuck (dispatch Cloner.script Cloner.code None fuel Cloner.sent Cloner.start).2 = true.
Proof.
  unfold dispatch. change (Z.to_nat (MAX_SEND_DEPTH - depth Cloner.start)) with 64%nat. simpl. unfold dispatch_with.
  change (MAX_SEND_DEPTH <=? depth Cloner.start) with false. cbv iota.
  match goal with |- context [visit _ _ _ ?run _ _ _ ?acc] =>
    pose proof (Cloner.visit_stuck run fuel 0 [] (with_depth Cloner.start (depth Cloner.start + 1)) ltac:(by eexists)) as H;
    destruct (visit _ _ _ run _ _ _ _) as [ps s] end.
  apply H. destruct Cloner.start_turn. by split.
Qed.

(** A handler parked under a send leaves the ambient invocation at its sender's:
    when its promise settles between ticks the slot names the sender's invocation,
    which is over, where before the send it named none. *)
Theorem nested_settle_leaves_ambient :
  current NestedPark.start = None
  /\ current NestedPark.after = Some 2 /\ dead (scope (scopes NestedPark.after) 2) = true.
Proof. by vm_compute. Qed.

(** A hundred throws disable the handler and tell the host; the parked first call then
    succeeds, the handler runs again, and the host is told of it a second time. *)
Lemma late_success_reenables :
  let tripped := LateSuccess.run (replicate 101 (EDispatch LateSuccess.sent)) LateSuccess.start in
  let again := LateSuccess.run (ESettle 0 None :: replicate 100 (EDispatch LateSuccess.sent)) tripped in
  world tripped = 101%nat /\ length (told tripped) = 1%nat
  /\ world (LateSuccess.run [EDispatch LateSuccess.sent] tripped) = 101%nat
  /\ world again = 201%nat /\ length (told again) = 2%nat.
Proof. by vm_compute. Qed.
