(* ===== verification/World.v ===== *)
(** * The world ([packages/core/src/world/entity-manager.ts],
    [packages/core/src/runtime/entity.ts])

    [Runtime] is the part of the runtime entities live in: the entity table with its
    destroy queue, the tag index, the transform store, the hosts and their scopes, the
    script instances, the tweens and timers, and the replication channels. The manager
    composes them; [Entity] is what a script calls. The destroy drain first runs every
    doomed entity's [@onEnd], which is a script and may call anything, then tears the
    doomed down one by one. *)

From S2P Require Import Prelude JsMap JsNum Json Handle SlotTable TagIndex TransformStore EntityTable.
From S2P Require Import Channels ScopeTree Timers Tweens Hosts.

Local Open Scope Z_scope.

Definition MAX_ENTITIES : Z := 10000.

(** Timer callbacks are objects, by reference; a tween's target is an entity. *)
Abbreviation TimerHeap := (Timers.TimerHeap (F := nat)).
Abbreviation TweenEngine := (Tweens.TweenEngine (T := EntityId)).

Record Runtime := MkRuntime {
  entities : EntityTable;
  pendingDestroy : list EntityId;
  tags : TagIndex;
  transforms : SimTransformStore;
  hosts : HostTable;
  scopes : ScopeTree;
  instances : InstanceRegistry;
  tweens : TweenEngine;
  timers : TimerHeap;
  channels : ReplicationChannels;
  facades : jsmap EntityId nat;
  next_facade : nat; (** the next facade object *)
}.

Definition new_runtime : Runtime :=
  MkRuntime new_entities [] new_index new_store new_hosts new_tree new_registry new_engine new_heap new_channels [] 0%nat.

Definition set_entities (rt : Runtime) (t : EntityTable) (q : list EntityId) : Runtime :=
  MkRuntime t q (tags rt) (transforms rt) (hosts rt) (scopes rt) (instances rt) (tweens rt) (timers rt) (channels rt)
    (facades rt) (next_facade rt).
Definition set_tags (rt : Runtime) (t : TagIndex) : Runtime :=
  MkRuntime (entities rt) (pendingDestroy rt) t (transforms rt) (hosts rt) (scopes rt) (instances rt) (tweens rt) (timers rt)
    (channels rt) (facades rt) (next_facade rt).
Definition set_transforms (rt : Runtime) (t : SimTransformStore) : Runtime :=
  MkRuntime (entities rt) (pendingDestroy rt) (tags rt) t (hosts rt) (scopes rt) (instances rt) (tweens rt) (timers rt)
    (channels rt) (facades rt) (next_facade rt).
Definition set_hosts (rt : Runtime) (h : HostTable) (s : ScopeTree) : Runtime :=
  MkRuntime (entities rt) (pendingDestroy rt) (tags rt) (transforms rt) h s (instances rt) (tweens rt) (timers rt)
    (channels rt) (facades rt) (next_facade rt).
Definition set_instances (rt : Runtime) (r : InstanceRegistry) : Runtime :=
  MkRuntime (entities rt) (pendingDestroy rt) (tags rt) (transforms rt) (hosts rt) (scopes rt) r (tweens rt) (timers rt)
    (channels rt) (facades rt) (next_facade rt).
Definition set_clocks (rt : Runtime) (e : TweenEngine) (h : TimerHeap) : Runtime :=
  MkRuntime (entities rt) (pendingDestroy rt) (tags rt) (transforms rt) (hosts rt) (scopes rt) (instances rt) e h
    (channels rt) (facades rt) (next_facade rt).
Definition set_channels (rt : Runtime) (c : ReplicationChannels) : Runtime :=
  MkRuntime (entities rt) (pendingDestroy rt) (tags rt) (transforms rt) (hosts rt) (scopes rt) (instances rt) (tweens rt)
    (timers rt) c (facades rt) (next_facade rt).
Definition set_facades (rt : Runtime) (f : jsmap EntityId nat) (n : nat) : Runtime :=
  MkRuntime (entities rt) (pendingDestroy rt) (tags rt) (transforms rt) (hosts rt) (scopes rt) (instances rt) (tweens rt)
    (timers rt) (channels rt) f n.

Definition mark (rt : Runtime) (op : SingleOp) : Runtime := set_channels rt (markStructural (channels rt) op).

(** ** The manager *)

Inductive spawn_error := LoadError | Full (e : table_error).

(** The cached facade, or a new object, kept only for an id that exists. *)
Definition facade (rt : Runtime) (id : EntityId) : nat * Runtime :=
  match mget (facades rt) id with
  | Some f => (f, rt)
  | None =>
      let made := next_facade rt in
      (made, set_facades rt (if EntityTable.exists_ (entities rt) id then mset (facades rt) id made else facades rt)
               (S made))
  end.

(** The new entity, by its id. *)
Definition spawn (rt : Runtime) (template : jstr) (x y : num) (ownerId : jstr) : outcome spawn_error (EntityId * Runtime) :=
  if MAX_ENTITIES <=? EntityTable.liveCount (entities rt) then Throw LoadError
  else
    match EntityTable.create (entities rt) template ownerId with
    | Throw e => Throw (Full e)
    | Ok (id, t) =>
        let rt := set_entities rt t (pendingDestroy rt) in
        let rt := set_transforms rt (setPosition (initSlot (transforms rt) id) id x y f0) in
        Ok (id, (facade (mark rt (Spawn id template)) id).2)
    end.

Definition destroy (rt : Runtime) (id : EntityId) : Runtime :=
  let '(t, q) := EntityTable.destroy (entities rt, pendingDestroy rt) id in set_entities rt t q.

(** The body of the drain's second loop. *)
Definition teardown (rt : Runtime) (id : EntityId) : Runtime :=
  let rt := set_entities rt (leave_parent (entities rt) id) (pendingDestroy rt) in
  let rt := set_tags rt (removeAll (tags rt) id) in
  let rt := set_transforms rt (releaseSlot (transforms rt) id) in
  let scope := scopeForEntity (hosts rt) id in
  let rt := if scope =? NO_SCOPE then rt
            else set_clocks rt (Tweens.cancelScope entityKey (tweens rt) scope).2 (Timers.cancelScope (timers rt) scope) in
  let rt := set_instances rt (removeHost (instances rt) (entityKey id)).2 in
  let '(h, s) := Hosts.remove (hosts rt) (scopes rt) (entityKey id) in
  let rt := mark (set_hosts rt h s) (Destroy id) in
  let rt := set_entities rt (EntityTable.release (entities rt) id) (pendingDestroy rt) in
  set_facades rt (mdel (facades rt) id) (next_facade rt).

(** ** What a script does to an entity *)

(** [#hostScope]: the entity's scope, its host registered on first use. *)
Definition hostScope (rt : Runtime) (id : EntityId) : ScopeId * Runtime :=
  let '(entry, h, s) := Hosts.ensure (hosts rt) (scopes rt) (entityKey id) in (scopeId entry, set_hosts rt h s).

(** [#tweenTarget]. *)
Definition tweenGet (rt : Runtime) (id : EntityId) (prop : jstr) : num :=
  if bool_decide (prop = js "x") then posX (transforms rt) id
  else if bool_decide (prop = js "y") then posY (transforms rt) id
  else if bool_decide (prop = js "rotation") then rotation (transforms rt) id
  else if bool_decide (prop = js "scale") then scale (transforms rt) id
  else if bool_decide (prop = js "opacity") then opacity (transforms rt) id
  else f0.

Definition tweenSet (rt : Runtime) (id : EntityId) (prop : jstr) (value : num) : Runtime :=
  let t := transforms rt in
  set_transforms rt
    (if bool_decide (prop = js "x") then setPosition t id value (posY t id) (posZ t id)
     else if bool_decide (prop = js "y") then setPosition t id (posX t id) value (posZ t id)
     else if bool_decide (prop = js "rotation") then setRotation t id value
     else if bool_decide (prop = js "scale") then setScale t id value
     else if bool_decide (prop = js "opacity") then setOpacity t id value
     else t).

(** One [tweens.start] on the entity: the runtime, and whether it threw. *)
Definition startTween (rt : Runtime) (id : EntityId) (prop : jstr) (to seconds : num) (curve : Easing)
    (owner : option GuardOwner) : Runtime * bool :=
  let '(scope, rt) := hostScope rt id in
  let '(_, e, err) := Tweens.start entityKey (tweens rt) id prop (tweenGet rt id prop) to seconds scope curve owner in
  (set_clocks rt e (timers rt), match err with Some _ => true | None => false end).

Definition glideTo (rt : Runtime) (id : EntityId) (x y seconds : num) (curve : Easing) (owner : option GuardOwner) : Runtime :=
  let '(rt, threw) := startTween rt id (js "x") x seconds curve owner in
  if threw then rt else (startTween rt id (js "y") y seconds curve owner).1.

Definition glideBy (rt : Runtime) (id : EntityId) (dx dy seconds : num) (curve : Easing) (owner : option GuardOwner) : Runtime :=
  glideTo rt id (fadd (posX (transforms rt) id) dx) (fadd (posY (transforms rt) id) dy) seconds curve owner.

Definition fadeTo (rt : Runtime) (id : EntityId) (o seconds : num) (owner : option GuardOwner) : Runtime :=
  (startTween rt id (js "opacity") o seconds linear owner).1.

Definition growTo (rt : Runtime) (id : EntityId) (k seconds : num) (owner : option GuardOwner) : Runtime :=
  (startTween rt id (js "scale") k seconds linear owner).1.

Definition spin (rt : Runtime) (id : EntityId) (degrees seconds : num) (owner : option GuardOwner) : Runtime :=
  (startTween rt id (js "rotation") (fadd (rotation (transforms rt) id) degrees) seconds linear owner).1.

Definition spinTo (rt : Runtime) (id : EntityId) (degrees seconds : num) (owner : option GuardOwner) : Runtime :=
  (startTween rt id (js "rotation") degrees seconds linear owner).1.

Definition think (rt : Runtime) (id : EntityId) (seconds : num) : Runtime :=
  let '(scope, rt) := hostScope rt id in
  match Timers.sleep (timers rt) seconds scope with
  | Ok (_, h) => set_clocks rt (tweens rt) h
  | Throw _ => rt
  end.

Definition attachTo (rt : Runtime) (id to : EntityId) : Runtime :=
  match EntityTable.attachTo (entities rt) id to with
  | (t, Attached) => mark (set_entities rt t (pendingDestroy rt)) (Reparent id to)
  | (_, _) => rt
  end.

Definition detach (rt : Runtime) (id : EntityId) : Runtime :=
  match unlink (entities rt) id with
  | (t, true) => mark (set_entities rt t (pendingDestroy rt)) (Reparent id NONE)
  | (_, false) => rt
  end.

Definition tag (rt : Runtime) (id : EntityId) (name : jstr) : Runtime :=
  mark (set_tags rt (TagIndex.add (tags rt) id name)) (Tag id name true).

Definition untag (rt : Runtime) (id : EntityId) (name : jstr) : Runtime :=
  mark (set_tags rt (TagIndex.remove (tags rt) id name)) (Tag id name false).

Definition moveToward (rt : Runtime) (id : EntityId) (tx ty speed : num) : Runtime :=
  let t := transforms rt in
  let x := posX t id in
  let y := posY t id in
  let dx := fsub tx x in
  let dy := fsub ty y in
  let dist := fsqrt (fadd (fmul dx dx) (fmul dy dy)) in
  if flt f0 dist then
    let step := fmin speed dist in
    set_transforms rt
      (setPosition t id (fadd x (fmul (fdiv dx dist) step)) (fadd y (fmul (fdiv dy dist) step)) (posZ t id))
  else rt.

Inductive entity_op :=
  | ESpawn (template : jstr) (x y : num) (ownerId : jstr)
  | EFacade (id : EntityId)
  | EAttach (id to : EntityId)
  | EDetach (id : EntityId)
  | EDestroy (id : EntityId)
  | ETag (id : EntityId) (name : jstr)
  | EUntag (id : EntityId) (name : jstr)
  | ESetPosition (id : EntityId) (x y : num)
  | EMoveBy (id : EntityId) (dx dy : num)
  | EMoveToward (id : EntityId) (x y speed : num)
  | ESetRotation (id : EntityId) (degrees : num)
  | ERotateBy (id : EntityId) (degrees : num)
  | ESetScale (id : EntityId) (s : num)
  | ESetOpacity (id : EntityId) (o : num)
  | ESetLayer (id : EntityId) (l : num)
  | EGlideTo (id : EntityId) (x y seconds : num) (curve : Easing)
  | EGlideBy (id : EntityId) (dx dy seconds : num) (curve : Easing)
  | EFadeTo (id : EntityId) (o seconds : num)
  | EGrowTo (id : EntityId) (s seconds : num)
  | ESpin (id : EntityId) (degrees seconds : num)
  | ESpinTo (id : EntityId) (degrees seconds : num)
  | EThink (id : EntityId) (seconds : num).

(** One call; one that throws leaves what it did before throwing. [owner] is the
    script instance making it. *)
Definition do_op (owner : option GuardOwner) (rt : Runtime) (o : entity_op) : Runtime :=
  let t := transforms rt in
  match o with
  | ESpawn tmpl x y own => match spawn rt tmpl x y own with Ok (_, rt) => rt | Throw _ => rt end
  | EFacade id => (facade rt id).2
  | EAttach id to => attachTo rt id to
  | EDetach id => detach rt id
  | EDestroy id => destroy rt id
  | ETag id name => tag rt id name
  | EUntag id name => untag rt id name
  | ESetPosition id x y => set_transforms rt (setPosition t id x y (posZ t id))
  | EMoveBy id dx dy => set_transforms rt (setPosition t id (fadd (posX t id) dx) (fadd (posY t id) dy) (posZ t id))
  | EMoveToward id x y speed => moveToward rt id x y speed
  | ESetRotation id d => set_transforms rt (setRotation t id d)
  | ERotateBy id d => set_transforms rt (setRotation t id (fadd (rotation t id) d))
  | ESetScale id s => set_transforms rt (setScale t id s)
  | ESetOpacity id o => set_transforms rt (setOpacity t id o)
  | ESetLayer id l => set_transforms rt (setLayer t id l)
  | EGlideTo id x y s curve => glideTo rt id x y s curve owner
  | EGlideBy id dx dy s curve => glideBy rt id dx dy s curve owner
  | EFadeTo id o s => fadeTo rt id o s owner
  | EGrowTo id k s => growTo rt id k s owner
  | ESpin id d s => spin rt id d s owner
  | ESpinTo id d s => spinTo rt id d s owner
  | EThink id s => think rt id s
  end.

Section drain.
(** The [@onEnd] handlers of a doomed entity: the calls they make. *)
Context (dispatchEnd : Runtime -> EntityId -> list (option GuardOwner * entity_op)).

Definition on_end (rt : Runtime) (id : EntityId) : Runtime :=
  foldl (fun rt c => do_op c.1 rt c.2) rt (dispatchEnd rt id).

Definition drainDestroyed (rt : Runtime) : Runtime :=
  match pendingDestroy rt with
  | [] => rt
  | doomed =>
      let rt := set_entities rt (entities rt) [] in
      foldl teardown (foldl on_end rt doomed) doomed
  end.
End drain.

Definition clear_manager (rt : Runtime) : Runtime := set_entities (set_facades rt [] (next_facade rt)) (entities rt) [].

(** ** The journal replays the world *)

(** A replica that follows the journal: each entity it knows and its parent. *)
Definition replay_op (m : gmap EntityId EntityId) (op : SingleOp) : gmap EntityId EntityId :=
  match op with
  | Spawn id _ => <[id := NONE]> m
  | Destroy id => delete id m
  | Reparent id to => alter (fun _ => to) id m
  | Tag _ _ _ | Attach _ _ => m
  end.

Definition parents (t : EntityTable) : gmap EntityId EntityId := parent <$> SlotTable.abs t.

Lemma parents_modify t id f :
  SlotTable.wf t -> (forall r, parent (f r) = parent r) -> parents (modify t id f) = parents t.
Proof.
  intros Hw Hf. unfold parents. rewrite abs_modify by apply Hw. apply map_eq. intros x. rewrite !lookup_fmap.
  destruct (decide (x = id)) as [->|Hne]; [rewrite lookup_alter_eq|by rewrite lookup_alter_ne].
  destruct (SlotTable.abs t !! id); [|done]. simpl. by rewrite Hf.
Qed.

Lemma parents_set_parent t id p :
  SlotTable.wf t -> parents (modify t id (set_parent p)) = alter (fun _ => p) id (parents t).
Proof.
  intros Hw. unfold parents. rewrite abs_modify by apply Hw. apply map_eq. intros x. rewrite lookup_fmap.
  destruct (decide (x = id)) as [->|Hne].
  - rewrite !lookup_alter_eq, lookup_fmap. by destruct (SlotTable.abs t !! id).
  - by rewrite !lookup_alter_ne, lookup_fmap by done.
Qed.

Lemma unlink_parents t id : SlotTable.wf t ->
  SlotTable.wf (unlink t id).1
  /\ parents (unlink t id).1 = if (unlink t id).2 then alter (fun _ => NONE) id (parents t) else parents t.
Proof.
  intros Hw. unfold unlink. destruct (EntityTable.record t id) as [r|]; [|done]. destruct (parent r =? NONE); [done|].
  simpl. split; [by apply wf_modify, wf_modify|]. by rewrite parents_set_parent, parents_modify by (done || by apply wf_modify).
Qed.

Lemma alter_twice (m : gmap EntityId EntityId) id a b : alter (fun _ => a) id (alter (fun _ => b) id m) = alter (fun _ => a) id m.
Proof.
  apply map_eq. intros x. destruct (decide (x = id)) as [->|Hne].
  - rewrite !lookup_alter_eq. by destruct (m !! id).
  - by rewrite !lookup_alter_ne.
Qed.

Lemma attach_parents t id to : SlotTable.wf t ->
  SlotTable.wf (EntityTable.attachTo t id to).1
  /\ parents (EntityTable.attachTo t id to).1 =
     match (EntityTable.attachTo t id to).2 with Attached => alter (fun _ => to) id (parents t) | _ => parents t end.
Proof.
  intros Hw. unfold EntityTable.attachTo. destruct (EntityTable.record t id) as [r|]; [|done].
  destruct (EntityTable.record t to) as [rto|]; [|done]. destruct (negb (alive rto)); [done|].
  destruct (ancestor_meets _ t to id); [done|]. destruct (unlink_parents t id Hw) as [Hw1 Hp1].
  destruct (unlink t id) as [t1 b]. simpl in *. split; [by apply wf_modify, wf_modify|].
  rewrite parents_modify, parents_set_parent, Hp1 by (done || by apply wf_modify).
  destruct b; [apply alter_twice|done].
Qed.

Lemma destroy_parents t q id : SlotTable.wf t ->
  SlotTable.wf (EntityTable.destroy (t, q) id).1 /\ parents (EntityTable.destroy (t, q) id).1 = parents t.
Proof.
  intros Hw. destruct (destroy_fuel t q id Hw) as (Hw' & l & Hc & _). split; [done|].
  apply map_eq. intros x. unfold parents. rewrite !lookup_fmap, (cs_map _ _ _ _ _ Hc).
  destruct (decide _); [|done]. by destruct (SlotTable.abs t !! x).
Qed.

Lemma drain_one_parents t id : SlotTable.wf t ->
  SlotTable.wf (drain_one t id) /\ parents (drain_one t id) = delete id (parents t).
Proof.
  intros Hw. split; [by apply drain_one_wf|]. unfold drain_one, EntityTable.release, parents.
  rewrite abs_release, fmap_delete by by apply leave_parent_wf. f_equal. change (parents (leave_parent t id) = parents t).
  unfold leave_parent. destruct (EntityTable.record t id) as [r|]; [|done]. destruct (parent r =? NONE); [done|].
  destruct (EntityTable.record t (parent r)); [|done]. by apply parents_modify.
Qed.

(** What the channels still hold for the next drain, in order. *)
Definition waiting (c : ReplicationChannels) : list SingleOp := flatten (structural c) ++ nullish (group c) [].

Lemma waiting_mark c op : waiting (markStructural c op) = waiting c ++ [op].
Proof.
  unfold waiting, markStructural. destruct (group c) as [ops|]; simpl; [by rewrite <- app_assoc|].
  rewrite flatten_app. simpl. by rewrite !app_nil_r.
Qed.

Lemma waiting_begin c : Channels.wf c -> waiting (beginGroup c) = waiting c.
Proof. intros Hc. exact (eq_trans (held_step (MkRun c [] []) CBegin Hc) (app_nil_r _)). Qed.

Lemma waiting_end c : Channels.wf c -> waiting (endGroup c) = waiting c.
Proof. intros Hc. exact (eq_trans (held_step (MkRun c [] []) CEnd Hc) (app_nil_r _)). Qed.

(** A replica fed [past] and then what waits agrees with the table. *)
Record tracks (past : list SingleOp) (rt : Runtime) : Prop := {
  tr_wf : SlotTable.wf (entities rt);
  tr_chan : Channels.wf (channels rt);
  tr_replay : foldl replay_op ∅ (past ++ waiting (channels rt)) = parents (entities rt);
}.

Lemma channels_mark_wf c op : Channels.wf c -> Channels.wf (markStructural c op).
Proof. intros Hw. apply (run_op_wf (MkRun c [] []) (CMark op) Hw). Qed.

Lemma tracks_mark past rt t op q :
  tracks past rt -> SlotTable.wf t -> parents t = replay_op (parents (entities rt)) op ->
  tracks past (mark (set_entities rt t q) op).
Proof.
  intros [Hw Hc Hr] Ht Hp. split; simpl; [done|by apply channels_mark_wf|].
  rewrite waiting_mark, app_assoc, foldl_app. simpl. by rewrite Hr.
Qed.

(** A change that leaves the table's parents and the channels alone. *)
Lemma tracks_same past rt rt' :
  tracks past rt -> SlotTable.wf (entities rt') -> parents (entities rt') = parents (entities rt) ->
  channels rt' = channels rt -> tracks past rt'.
Proof. intros [Hw Hc Hr] Hw' Hp Hch. split; [done|by rewrite Hch|by rewrite Hch, Hp]. Qed.

Lemma tracks_hostScope past rt id : tracks past rt -> tracks past (hostScope rt id).2.
Proof.
  intros Ht. unfold hostScope. destruct (ensure _ _ _) as [[e h] s]. by apply (tracks_same past rt); [|apply Ht| |].
Qed.

Lemma tracks_tween past rt id prop to s curve owner : tracks past rt -> tracks past (startTween rt id prop to s curve owner).1.
Proof.
  intros Ht. unfold startTween. pose proof (tracks_hostScope past rt id Ht) as Hh. destruct (hostScope rt id) as [sc rt1].
  destruct (start _ _ _ _ _ _ _ _ _ _) as [[ev e] err]. simpl in *. by apply (tracks_same past rt1); [|apply Hh| |].
Qed.

Lemma tracks_facade past rt id : tracks past rt -> tracks past (facade rt id).2.
Proof.
  intros Ht. unfold facade. destruct (mget (facades rt) id); [done|]. by apply (tracks_same past rt); [|apply Ht| |].
Qed.

Lemma tracks_op past rt owner o : tracks past rt -> tracks past (do_op owner rt o).
Proof.
  intros Ht. assert (Hmove : forall t, tracks past (set_transforms rt t)) by (intros; by apply (tracks_same past rt); [|apply Ht| |]).
  destruct o; simpl; unfold glideBy, fadeTo, growTo, spin, spinTo; auto using tracks_tween, tracks_facade.
  - unfold spawn. destruct (MAX_ENTITIES <=? _); [done|].
    destruct (create (entities rt) template ownerId) as [[id t]|e] eqn:E; [|done].
    apply tracks_facade. destruct (abs_create _ _ _ _ (tr_wf _ _ Ht) E) as [_ Habs].
    assert (Htt : tracks past (mark (set_entities rt t (pendingDestroy rt)) (Spawn id template))).
    { apply tracks_mark; [done|by apply (create_wf _ _ _ _ (tr_wf _ _ Ht) E)|].
      unfold parents. rewrite Habs, fmap_insert. done. }
    eapply (tracks_same past _ _ Htt); [apply Htt|done|done].
  - unfold attachTo. destruct (attach_parents (entities rt) id to (tr_wf _ _ Ht)) as [Hw Hp].
    destruct (EntityTable.attachTo (entities rt) id to) as [t []]; simpl in *; try done.
    by apply tracks_mark.
  - unfold detach. destruct (unlink_parents (entities rt) id (tr_wf _ _ Ht)) as [Hw Hp].
    destruct (unlink (entities rt) id) as [t []]; simpl in *; try done. by apply tracks_mark.
  - unfold destroy. destruct (destroy_parents (entities rt) (pendingDestroy rt) id (tr_wf _ _ Ht)) as [Hw Hp].
    destruct (EntityTable.destroy _ _) as [t q]. by apply (tracks_same past rt).
  - unfold tag. eapply (tracks_same past (mark (set_entities rt (entities rt) (pendingDestroy rt)) (Tag id name true)));
      [by apply tracks_mark; [|apply Ht|]|apply Ht|done|done].
  - unfold untag. eapply (tracks_same past (mark (set_entities rt (entities rt) (pendingDestroy rt)) (Tag id name false)));
      [by apply tracks_mark; [|apply Ht|]|apply Ht|done|done].
  - unfold moveToward. destruct (flt _ _); [apply Hmove|done].
  - unfold glideTo. pose proof (tracks_tween past rt id (js "x") x seconds curve owner Ht) as H1.
    destruct (startTween rt id (js "x") x seconds curve owner) as [rt1 []]; [done|]. by apply tracks_tween.
  - unfold glideTo. pose proof (tracks_tween past rt id (js "x") (fadd (posX (transforms rt) id) dx) seconds curve owner Ht) as H1.
    destruct (startTween rt id (js "x") _ seconds curve owner) as [rt1 []]; [done|]. by apply tracks_tween.
  - unfold think. pose proof (tracks_hostScope past rt id Ht) as Hh. destruct (hostScope rt id) as [sc rt1].
    destruct (sleep _ _ _) as [[? h]|]; [|done]. simpl in *. by apply (tracks_same past rt1); [|apply Hh| |].
Qed.

Lemma tracks_teardown past rt id : tracks past rt -> tracks past (teardown rt id).
Proof.
  intros Ht. unfold teardown. cbv zeta.
  destruct (Hosts.remove _ _ _) as [h s]. destruct (drain_one_parents (entities rt) id (tr_wf _ _ Ht)) as [Hw Hp].
  assert (Htt : tracks past (mark (set_entities rt (drain_one (entities rt) id) (pendingDestroy rt)) (Destroy id))).
  { apply tracks_mark; [done|done|]. by rewrite Hp. }
  eapply (tracks_same past _ _ Htt).
  - simpl. destruct (_ =? NO_SCOPE); apply Hw.
  - simpl. by destruct (_ =? NO_SCOPE).
  - simpl. by destruct (_ =? NO_SCOPE).
Qed.

Inductive world_step :=
  | WCall (owner : option GuardOwner) (o : entity_op)
  | WDrain (** the tick's destroy drain *)
  | WSend (** the channels are drained and sent *)
  | WBeginGroup
  | WEndGroup.

Section histories.
Context (dispatchEnd : Runtime -> EntityId -> list (option GuardOwner * entity_op)).

(** Everything sent so far, and the runtime. *)
Definition run_step (s : list StructuralOp * Runtime) (o : world_step) : list StructuralOp * Runtime :=
  match o with
  | WCall owner o => (s.1, do_op owner s.2 o)
  | WDrain => (s.1, drainDestroyed dispatchEnd s.2)
  | WSend => let '(l, c) := drainStructural (channels s.2) in (s.1 ++ l, set_channels s.2 c)
  | WBeginGroup => (s.1, set_channels s.2 (beginGroup (channels s.2)))
  | WEndGroup => (s.1, set_channels s.2 (endGroup (channels s.2)))
  end.

Lemma tracks_ops past rt (l : list (option GuardOwner * entity_op)) :
  tracks past rt -> tracks past (foldl (fun rt c => do_op c.1 rt c.2) rt l).
Proof. revert rt. induction l as [|c l IH]; intros rt Ht; [done|]. by apply IH, tracks_op. Qed.

Lemma tracks_ends past rt l : tracks past rt -> tracks past (foldl (on_end dispatchEnd) rt l).
Proof. revert rt. induction l as [|c l IH]; intros rt Ht; [done|]. by apply IH, tracks_ops. Qed.

Lemma tracks_teardowns past rt l : tracks past rt -> tracks past (foldl teardown rt l).
Proof. revert rt. induction l as [|c l IH]; intros rt Ht; [done|]. by apply IH, tracks_teardown. Qed.

Lemma tracks_step sent rt o :
  tracks (flatten sent) rt -> let '(sent', rt') := run_step (sent, rt) o in tracks (flatten sent') rt'.
Proof.
  intros Ht. destruct o as [owner o| | | |]; simpl.
  - by apply tracks_op.
  - unfold drainDestroyed. destruct (pendingDestroy rt) as [|id doomed]; [done|].
    apply tracks_teardowns, tracks_ends. by apply (tracks_same _ rt); [|apply Ht| |].
  - destruct Ht as [Hw Hc Hr]. split; simpl; [done|by apply (run_op_wf (MkRun (channels rt) [] []) CDrain)|].
    unfold waiting in *. simpl. rewrite flatten_app, <- app_assoc. exact Hr.
  - destruct Ht as [Hw Hc Hr]. split; simpl; [done|by apply (run_op_wf (MkRun (channels rt) [] []) CBegin)|].
    by rewrite waiting_begin.
  - destruct Ht as [Hw Hc Hr]. split; simpl; [done|by apply (run_op_wf (MkRun (channels rt) [] []) CEnd)|].
    by rewrite waiting_end.
Qed.

Lemma tracks_run ops : let '(sent, rt) := foldl run_step ([], new_runtime) ops in tracks (flatten sent) rt.
Proof.
  assert (Hg : forall s, tracks (flatten s.1) s.2 -> let '(sent, rt) := foldl run_step s ops in tracks (flatten sent) rt).
  { induction ops as [|o ops IH]; intros [sent rt] Ht; [done|]. cbn [foldl]. apply IH.
    pose proof (tracks_step sent rt o Ht) as H. by destruct (run_step (sent, rt) o). }
  apply Hg. simpl. split; simpl; [apply new_table_wf|apply wf_new|].
  unfold parents. change (SlotTable.abs new_entities) with (SlotTable.abs (new_table (R := EntityRecord) "EntityTable")).
  rewrite abs_new. symmetry. apply fmap_empty.
Qed.
End histories.

(** ** What the drain leaves *)

(** The state between two calls while [doomed] is being drained; between drains
    [doomed] is empty. *)
Record rt_ok (doomed : list EntityId) (rt : Runtime) : Prop := {
  ro_forest : forest (entities rt, doomed ++ pendingDestroy rt);
  ro_closed : closed (SlotTable.abs (entities rt)) doomed;
  ro_store : TransformStore.wf (transforms rt);
  ro_slot id : is_Some (SlotTable.abs (entities rt) !! id) -> entityIndex id < count (transforms rt);
  ro_timers : Timers.wf (timers rt);
  ro_tweens id : id ∈ Tweens.tweens (tweens rt) -> is_Some (tween (tweens rt) id);
}.

(** A write through any handle, live or stale. *)
Lemma store_write t l' d :
  TransformStore.wf t -> (forall n, aligned n (lanes t) -> aligned n l') -> TransformStore.wf (MkStore l' (count t) d).
Proof. intros (n & Hn & Hc) Hl. exists n. split; [by apply Hl|done]. Qed.

Ltac store_wf := apply store_write; [done|]; intros n [??????]; split; simpl; try done; by apply set_length.

Lemma setPosition_wf t id x y z : TransformStore.wf t -> TransformStore.wf (setPosition t id x y z).
Proof. intros Hw. store_wf. Qed.
Lemma setRotation_wf t id d : TransformStore.wf t -> TransformStore.wf (setRotation t id d).
Proof. intros Hw. store_wf. Qed.
Lemma setScale_wf t id d : TransformStore.wf t -> TransformStore.wf (setScale t id d).
Proof. intros Hw. store_wf. Qed.
Lemma setOpacity_wf t id d : TransformStore.wf t -> TransformStore.wf (setOpacity t id d).
Proof. intros Hw. store_wf. Qed.
Lemma setLayer_wf t id d : TransformStore.wf t -> TransformStore.wf (setLayer t id d).
Proof. intros Hw. store_wf. Qed.

Lemma initSlot_wf t id :
  0 <= entityIndex id -> TransformStore.wf t ->
  TransformStore.wf (initSlot t id) /\ count t <= count (initSlot t id) /\ entityIndex id < count (initSlot t id).
Proof.
  intros Hid (n & Hn & Hc). unfold initSlot. destruct (ensure_spec t (entityIndex id + 1) n Hn) as (m & Hm & Hneed & Hnm & _ & Hec & _).
  rewrite Hec. simpl. destruct (count t <=? entityIndex id) eqn:E; bool_facts;
    (split; [exists m; simpl; split; [by apply reset_aligned|lia]|lia]).
Qed.

Lemma release_slot_spec t id :
  TransformStore.wf t -> entityIndex id < count t ->
  TransformStore.wf (releaseSlot t id) /\ count (releaseSlot t id) = count t
  /\ at_ (lanes (releaseSlot t id)) (entityIndex id) = identity
  /\ (entityIndex id ∉ dirty (releaseSlot t id))
  /\ forall j, (at_ (lanes t) j = identity -> at_ (lanes (releaseSlot t id)) j = identity)
       /\ (j ∉ dirty t -> j ∉ dirty (releaseSlot t id))
       /\ (j <> entityIndex id -> at_ (lanes (releaseSlot t id)) j = at_ (lanes t) j).
Proof.
  intros (n & Hn & Hc) Hlt. unfold releaseSlot. rewrite (proj2 (Z.leb_gt _ _)) by lia. simpl.
  assert (Hat : forall j, at_ (reset (entityIndex id) (lanes t)) j = if entityIndex id =? j then identity else at_ (lanes t) j)
    by (intros; by apply (reset_at n)).
  split; [exists n; by split; [apply reset_aligned|]|]. split; [done|]. rewrite Hat, Z.eqb_refl. split; [done|].
  split; [rewrite elem_of_sdel; tauto|]. intros j. rewrite Hat. split; [|split].
  - intros Hj. by destruct (_ =? _).
  - rewrite elem_of_sdel. tauto.
  - intros Hj. by rewrite (proj2 (Z.eqb_neq _ _)) by congruence.
Qed.

(** The queue in front of a cascade does not matter to it. *)
Lemma destroy_in_prefix n : forall q0 t q id,
  destroy_in n (t, q0 ++ q) id = ((destroy_in n (t, q) id).1, q0 ++ (destroy_in n (t, q) id).2).
Proof.
  induction n as [|n IH]; intros q0 t q id; [done|]. cbn [destroy_in fst snd].
  destruct (EntityTable.record t id) as [r|]; [|done]. destruct (negb (alive r)); [done|].
  rewrite <- app_assoc. generalize (q ++ [id]) (modify t id doom). induction (children r) as [|c cs IHc]; intros q1 t1; [done|].
  cbn [foldl]. rewrite IH. destruct (destroy_in n (t1, q1) c) as [t2 q2]. apply IHc.
Qed.

Lemma Forall_tweens_cancel (e : TweenEngine) id :
  (forall j, j ∈ Tweens.tweens e -> is_Some (tween e j)) ->
  let e' := (Tweens.cancel entityKey e id).2 in
  (forall j, j ∈ Tweens.tweens e' -> is_Some (tween e' j)) /\ (forall j, j ∈ Tweens.tweens e' <-> j ∈ Tweens.tweens e /\ j <> id)
  /\ (forall j, j <> id -> tween e' j = tween e j).
Proof.
  intros Hall. unfold Tweens.cancel, Tweens.held. destruct (shas (Tweens.tweens e) id) eqn:Hs.
  - apply shas_spec in Hs. destruct (Hall id Hs) as [tw Htw]. rewrite Htw. simpl. split; [|split].
    + intros j [Hj Hne]%elem_of_sdel. rewrite functions.fn_lookup_insert_ne by congruence. by apply Hall.
    + intros j. apply elem_of_sdel.
    + intros j Hne. by rewrite functions.fn_lookup_insert_ne by congruence.
  - apply shas_false in Hs. split; [done|]. split; [|done]. intros j. split; [|tauto]. intros Hj. split; [done|]. by intros ->.
Qed.

(** A host's tweens go, the others stay as they are. *)
Lemma tweens_cancelScope (e : TweenEngine) sc :
  (forall j, j ∈ Tweens.tweens e -> is_Some (tween e j)) -> sc <> NO_SCOPE ->
  let e' := (Tweens.cancelScope entityKey e sc).2 in
  (forall j, j ∈ Tweens.tweens e' -> is_Some (tween e' j))
  /\ (forall j, j ∈ Tweens.tweens e' <-> j ∈ Tweens.tweens e /\ hosted e sc j = false)
  /\ (forall j, hosted e sc j = false -> tween e' j = tween e j).
Proof.
  intros Hall Hsc. unfold Tweens.cancelScope. rewrite (proj2 (Z.eqb_neq _ _)) by done.
  set (doomed := filter (fun id => hosted e sc id = true) (Tweens.tweens e)).
  assert (Hg : forall l ev e0, (forall j, j ∈ Tweens.tweens e0 -> is_Some (tween e0 j)) ->
    let e' := (foldl (fun st id => let '(ev, e) := Tweens.cancel entityKey st.2 id in (st.1 ++ ev, e)) (ev, e0) l).2 in
    (forall j, j ∈ Tweens.tweens e' -> is_Some (tween e' j))
    /\ (forall j, j ∈ Tweens.tweens e' <-> j ∈ Tweens.tweens e0 /\ (j ∉ l)) /\ (forall j, j ∉ l -> tween e' j = tween e0 j)).
  { induction l as [|id l IH]; intros ev e0 H0; cbn [foldl].
    - split; [done|]. split; [|done]. intros j. split; [intros; split; [done|apply not_elem_of_nil]|tauto].
    - destruct (Forall_tweens_cancel e0 id H0) as (Ha & Hm & Ht). cbn [fst snd]. destruct (Tweens.cancel entityKey e0 id) as [ev1 e1].
      simpl in Ha, Hm, Ht. destruct (IH (ev ++ ev1) e1 Ha) as (Ha' & Hm' & Ht'). split; [done|]. split.
      + intros j. rewrite Hm', Hm, not_elem_of_cons. tauto.
      + intros j [Hne Hj]%not_elem_of_cons. rewrite Ht', Ht by done. done. }
  destruct (Hg doomed [] e Hall) as (Ha & Hm & Ht). split; [done|]. split.
  - intros j. rewrite Hm. unfold doomed. rewrite list_elem_of_filter. destruct (hosted e sc j); naive_solver.
  - intros j Hj. apply Ht. unfold doomed. rewrite list_elem_of_filter. intros [? _]. congruence.
Qed.

Lemma tweens_start (e : TweenEngine) t p from_ to_ s host curve owner :
  (forall j, j ∈ Tweens.tweens e -> is_Some (tween e j)) ->
  let e' := (Tweens.start entityKey e t p from_ to_ s host curve owner).1.2 in
  forall j, j ∈ Tweens.tweens e' -> is_Some (tween e' j).
Proof.
  intros Hall. unfold Tweens.start.
  assert (H1 : forall j, j ∈ Tweens.tweens (match mget (byProp e) (propKey entityKey t p) with Some x => Tweens.cancel entityKey e x | None => ([], e) end).2 ->
    is_Some (tween (match mget (byProp e) (propKey entityKey t p) with Some x => Tweens.cancel entityKey e x | None => ([], e) end).2 j)).
  { destruct (mget _ _) as [x|]; [by apply Forall_tweens_cancel|done]. }
  destruct (match mget (byProp e) (propKey entityKey t p) with Some x => Tweens.cancel entityKey e x | None => ([], e) end) as [ev e1].
  simpl in H1. destruct (negb (isFinite s)); simpl; [done|]. intros j. destruct (decide (j = Tweens.next_id e1)) as [->|Hne].
  - rewrite functions.fn_lookup_insert. by eexists.
  - rewrite functions.fn_lookup_insert_ne by congruence. intros [?|Hj]%elem_of_sadd; [done|]. by apply H1.
Qed.

Lemma rt_ok_transforms d rt t :
  rt_ok d rt -> TransformStore.wf t -> count t = count (transforms rt) -> rt_ok d (set_transforms rt t).
Proof. intros [Hf Hc Hs Hl Ht He] Hw Hcount. split; simpl; try done. by rewrite Hcount. Qed.

Lemma rt_ok_clocks d rt e h :
  rt_ok d rt -> Timers.wf h -> (forall id, id ∈ Tweens.tweens e -> is_Some (tween e id)) -> rt_ok d (set_clocks rt e h).
Proof. by intros [Hf Hc Hs Hl Ht He] Hw Hall. Qed.

Lemma rt_ok_hostScope d rt id : rt_ok d rt -> rt_ok d (hostScope rt id).2.
Proof. intros [Hf Hc Hs Hl Ht He]. unfold hostScope. by destruct (ensure _ _ _) as [[? ?] ?]. Qed.

Lemma rt_ok_facade d rt id : rt_ok d rt -> rt_ok d (facade rt id).2.
Proof. intros [Hf Hc Hs Hl Ht He]. unfold facade. by destruct (mget _ _). Qed.

Lemma rt_ok_mark d rt op : rt_ok d rt -> rt_ok d (mark rt op).
Proof. by intros [Hf Hc Hs Hl Ht He]. Qed.

Lemma rt_ok_tags d rt t : rt_ok d rt -> rt_ok d (set_tags rt t).
Proof. by intros [Hf Hc Hs Hl Ht He]. Qed.

Lemma rt_ok_tween d rt id prop to s curve owner : rt_ok d rt -> rt_ok d (startTween rt id prop to s curve owner).1.
Proof.
  intros Hok. unfold startTween. pose proof (rt_ok_hostScope d rt id Hok) as Hh. destruct (hostScope rt id) as [sc rt1]. simpl in Hh.
  pose proof (tweens_start (tweens rt1) id prop (tweenGet rt1 id prop) to s sc curve owner (ro_tweens _ _ Hh)) as Hst.
  destruct (start _ _ _ _ _ _ _ _ _ _) as [[ev e] err]. simpl in *. apply rt_ok_clocks; [done|apply Hh|done].
Qed.

Lemma rt_ok_glide d rt id x y s curve owner : rt_ok d rt -> rt_ok d (glideTo rt id x y s curve owner).
Proof.
  intros Hok. unfold glideTo. pose proof (rt_ok_tween d rt id (js "x") x s curve owner Hok) as H1.
  destruct (startTween rt id (js "x") x s curve owner) as [rt1 []]; [done|]. by apply rt_ok_tween.
Qed.

Lemma rt_ok_think d rt id s : rt_ok d rt -> rt_ok d (think rt id s).
Proof.
  intros Hok. unfold think. pose proof (rt_ok_hostScope d rt id Hok) as Hh. destruct (hostScope rt id) as [sc rt1]. simpl in Hh.
  unfold sleep. destruct (toTicks (timers rt1) s) as [ticks|e]; simpl; [|done].
  apply rt_ok_clocks; [done|apply (wf_register (F := nat)), Hh|apply Hh].
Qed.

(** A change of the table that keeps the forest, the existing ids and what is doomed. *)
Lemma rt_ok_entities d rt t q :
  rt_ok d rt -> forest (t, d ++ q) -> closed (SlotTable.abs t) d ->
  (forall x, is_Some (SlotTable.abs t !! x) -> is_Some (SlotTable.abs (entities rt) !! x)) -> rt_ok d (set_entities rt t q).
Proof. intros [Hf Hc Hs Hl Ht He] Hf' Hc' Hx. split; simpl; try done. intros id Hid. by apply Hl, Hx. Qed.

Lemma parents_exist t t' x :
  parents t' = parents t -> is_Some (SlotTable.abs t' !! x) -> is_Some (SlotTable.abs t !! x).
Proof.
  intros Hp Hx. apply (f_equal (fun m : gmap EntityId EntityId => m !! x)) in Hp. unfold parents in Hp. rewrite !lookup_fmap in Hp.
  destruct (SlotTable.abs t !! x); [by eexists|]. destruct Hx as [r Hr]. by rewrite Hr in Hp.
Qed.

Lemma alter_exist (t t' : EntityTable) id p x :
  parents t' = alter (fun _ => p) id (parents t) -> is_Some (SlotTable.abs t' !! x) -> is_Some (SlotTable.abs t !! x).
Proof.
  intros Hp Hx. apply (f_equal (fun m : gmap EntityId EntityId => m !! x)) in Hp. unfold parents in Hp.
  destruct Hx as [r Hr]. rewrite lookup_fmap, Hr in Hp. destruct (decide (x = id)) as [->|Hne].
  - rewrite lookup_alter_eq, lookup_fmap in Hp. by destruct (SlotTable.abs t !! id).
  - rewrite lookup_alter_ne, lookup_fmap in Hp by done. by destruct (SlotTable.abs t !! x).
Qed.

Lemma rt_ok_attach d rt id to : rt_ok d rt -> rt_ok d (attachTo rt id to).
Proof.
  intros Hok. pose proof Hok as [Hf Hc Hs Hl Ht He]. unfold attachTo.
  pose proof (forest_attach _ id to Hf) as Hf'. destruct (attach_parents (entities rt) id to (fo_wf _ Hf)) as [_ Hp].
  destruct (attach_ok (entities rt) (d ++ pendingDestroy rt) id to (fo_wf _ Hf) (fo_tree _ Hf)) as (_ & _ & Hcl).
  simpl in *. destruct (EntityTable.attachTo (entities rt) id to) as [t []]; simpl in *; try done.
  apply rt_ok_mark, rt_ok_entities; [done|done| |].
  - apply Hcl; [done|]. intros x Hx. apply elem_of_app. by left.
  - intros x. by apply (alter_exist _ _ id to).
Qed.

Lemma rt_ok_detach d rt id : rt_ok d rt -> rt_ok d (detach rt id).
Proof.
  intros Hok. pose proof Hok as [Hf Hc Hs Hl Ht He]. unfold detach.
  pose proof (forest_unlink _ id Hf) as Hf'. destruct (unlink_parents (entities rt) id (fo_wf _ Hf)) as [_ Hp].
  destruct (unlink_ok (entities rt) _ id (fo_wf _ Hf) (fo_tree _ Hf)) as (_ & _ & Hch & _).
  simpl in *. destruct (unlink (entities rt) id) as [t []]; simpl in *; [|done].
  apply rt_ok_mark, rt_ok_entities; [done|done| |].
  - intros p c Hpd Hpc. by apply (Hc p), Hch.
  - intros x. by apply (alter_exist _ _ id NONE).
Qed.

Lemma rt_ok_destroy d rt id : rt_ok d rt -> rt_ok d (destroy rt id).
Proof.
  intros Hok. pose proof Hok as [Hf Hc Hs Hl Ht He]. unfold destroy.
  pose proof (forest_destroy _ id Hf) as Hf'. destruct (destroy_fuel (entities rt) (pendingDestroy rt) id (fo_wf _ Hf)) as (_ & l & Hcs & _).
  destruct (destroy_parents (entities rt) (pendingDestroy rt) id (fo_wf _ Hf)) as [_ Hp].
  unfold EntityTable.destroy in *. cbn [fst] in *. rewrite destroy_in_prefix in Hf'.
  destruct (destroy_in _ (entities rt, pendingDestroy rt) id) as [t q]. simpl in *.
  apply rt_ok_entities; [done|done| |].
  - intros p c Hpd Hpc. apply (Hc p); [done|]. by apply (cascade_child _ _ _ _ _ _ _ Hcs).
  - intros x. by apply parents_exist.
Qed.

Lemma rt_ok_spawn d rt tmpl x y own : rt_ok d rt ->
  rt_ok d (match spawn rt tmpl x y own with Ok (_, rt') => rt' | Throw _ => rt end).
Proof.
  intros Hok. pose proof Hok as [Hf Hc Hs Hl Ht He]. unfold spawn. destruct (MAX_ENTITIES <=? _); [done|].
  destruct (create (entities rt) tmpl own) as [[id t]|e] eqn:E; [|done].
  pose proof (forest_spawn _ tmpl own id t Hf E) as Hf'. simpl in Hf'.
  destruct (abs_create _ _ _ _ (fo_wf _ Hf) E) as [Hnone Habs].
  assert (Hex : SlotTable.abs t !! id = Some (MkEntity tmpl own NONE [] true false)) by (rewrite Habs; apply lookup_insert_eq).
  assert (Hid : 0 < id).
  { rewrite abs_lookup in Hex by apply Hf'. apply (record_spec t id _ (wf_core _ (fo_wf _ Hf'))) in Hex as (i & Hi & ->).
    destruct (live_slot_valid t i _ (wf_core _ (fo_wf _ Hf')) Hi) as [Hv Hg].
    pose proof (packHandle_bounds i _ Hv Hg). lia. }
  destruct (initSlot_wf (transforms rt) id (entityIndex_nonneg id Hid) Hs) as (Hws & Hmono & Hlt).
  pose proof (rt_ok_facade d) as Hfac. specialize (Hfac (mark (set_transforms (set_entities rt t (pendingDestroy rt))
    (setPosition (initSlot (transforms rt) id) id x y f0)) (Spawn id tmpl)) id). simpl in Hfac.
  match type of Hfac with _ -> rt_ok d (facade ?r id).2 => assert (Hr : rt_ok d r) end.
  { apply rt_ok_mark. split; simpl; try done.
    - intros p c Hpd (r & Hr & Hin). rewrite Habs in Hr. apply lookup_insert_Some in Hr as [[<- <-]|[Hne Hr]].
      + by apply not_elem_of_nil in Hin.
      + apply (Hc p); [done|]. by exists r.
    - by apply setPosition_wf.
    - intros z [rz Hz]. rewrite Habs in Hz. apply lookup_insert_Some in Hz as [[<- <-]|[Hne Hz]]; [done|].
      apply (Z.lt_le_trans _ (count (transforms rt))); [apply Hl; by exists rz|exact Hmono]. }
  specialize (Hfac Hr). by destruct (facade _ id).
Qed.

Lemma rt_ok_op d rt owner o : rt_ok d rt -> rt_ok d (do_op owner rt o).
Proof.
  intros Hok. pose proof (ro_store _ _ Hok) as Hs. destruct o; simpl; unfold glideBy, fadeTo, growTo, spin, spinTo;
    auto using rt_ok_spawn, rt_ok_facade, rt_ok_attach, rt_ok_detach, rt_ok_destroy, rt_ok_tween, rt_ok_glide, rt_ok_think.
  - by apply rt_ok_mark, rt_ok_tags.
  - by apply rt_ok_mark, rt_ok_tags.
  - apply rt_ok_transforms; [done|by apply setPosition_wf|done].
  - apply rt_ok_transforms; [done|by apply setPosition_wf|done].
  - unfold moveToward. destruct (flt _ _); [|done]. apply rt_ok_transforms; [done|by apply setPosition_wf|done].
  - apply rt_ok_transforms; [done|by apply setRotation_wf|done].
  - apply rt_ok_transforms; [done|by apply setRotation_wf|done].
  - apply rt_ok_transforms; [done|by apply setScale_wf|done].
  - apply rt_ok_transforms; [done|by apply setOpacity_wf|done].
  - apply rt_ok_transforms; [done|by apply setLayer_wf|done].
Qed.

(** What [teardown] does to each part. *)
Lemma teardown_parts rt id :
  let rt' := teardown rt id in
  let sc := scopeForEntity (hosts rt) id in
  entities rt' = drain_one (entities rt) id /\ pendingDestroy rt' = pendingDestroy rt
  /\ tags rt' = removeAll (tags rt) id /\ transforms rt' = releaseSlot (transforms rt) id
  /\ hosts rt' = (Hosts.remove (hosts rt) (scopes rt) (entityKey id)).1
  /\ instances rt' = (removeHost (instances rt) (entityKey id)).2
  /\ facades rt' = mdel (facades rt) id /\ channels rt' = markStructural (channels rt) (Destroy id)
  /\ tweens rt' = (Tweens.cancelScope entityKey (tweens rt) sc).2 /\ timers rt' = Timers.cancelScope (timers rt) sc.
Proof.
  unfold teardown. cbv zeta. simpl. destruct (Hosts.remove _ _ _) as [h s] eqn:E.
  destruct (scopeForEntity (hosts rt) id =? NO_SCOPE) eqn:Es; simpl in *; rewrite E; simpl; [|done].
  unfold Tweens.cancelScope, Timers.cancelScope. by rewrite Es.
Qed.

(** No trace of an id: not in any table, its slot at rest. *)
Definition gone (rt : Runtime) (id : EntityId) : Prop :=
  SlotTable.abs (entities rt) !! id = None /\ mget (facades rt) id = None
  /\ mget (byKey (hosts rt)) (entityKey id) = None
  /\ forHost (instances rt) (entityKey id) = []
  /\ (forall s, s ∈ pendingStart (instances rt) -> s.1 <> entityKey id)
  /\ tagsOf (tags rt) id = [] /\ at_ (lanes (transforms rt)) (entityIndex id) = identity
  /\ (entityIndex id ∉ dirty (transforms rt)).

(** No timer and no tween under a host's scope. *)
Definition silent (rt : Runtime) (sc : ScopeId) : Prop :=
  sc <> NO_SCOPE ->
  (forall i, i ∈ Timers.timers (timers rt) -> Timers.hostScopeId (Timers.timer (timers rt) i) <> sc)
  /\ (forall i, i ∈ Tweens.tweens (tweens rt) -> hosted (tweens rt) sc i = false).

(** An entity in another slot is as it was. *)
Definition same_entity (rt rt' : Runtime) (x : EntityId) : Prop :=
  mget (facades rt') x = mget (facades rt) x
  /\ mget (byKey (hosts rt')) (entityKey x) = mget (byKey (hosts rt)) (entityKey x)
  /\ forHost (instances rt') (entityKey x) = forHost (instances rt) (entityKey x)
  /\ tagsOf (tags rt') x = tagsOf (tags rt) x
  /\ at_ (lanes (transforms rt')) (entityIndex x) = at_ (lanes (transforms rt)) (entityIndex x).

(** What every teardown of a drain needs. *)
Record drainable (rt : Runtime) : Prop := {
  dr_table : SlotTable.wf (entities rt);
  dr_store : TransformStore.wf (transforms rt);
  dr_slot id : is_Some (SlotTable.abs (entities rt) !! id) -> entityIndex id < count (transforms rt);
  dr_timers : Timers.wf (timers rt);
  dr_tweens id : id ∈ Tweens.tweens (tweens rt) -> is_Some (tween (tweens rt) id);
}.

Lemma rt_ok_drainable d rt : rt_ok d rt -> drainable rt.
Proof. intros [Hf Hc Hs Hl Ht He]. split; [apply Hf|done..]. Qed.

Lemma abs_drain_one t id x :
  SlotTable.wf t -> is_Some (SlotTable.abs (drain_one t id) !! x) <-> x <> id /\ is_Some (SlotTable.abs t !! x).
Proof.
  intros Hw. destruct (drain_one_parents t id Hw) as [_ Hp].
  assert (H : forall t, is_Some (SlotTable.abs t !! x) <-> is_Some (parents t !! x)) by (intros t'; unfold parents; rewrite lookup_fmap, fmap_is_Some; done).
  rewrite !H, Hp. destruct (decide (x = id)) as [->|Hne].
  - rewrite lookup_delete_eq. split; [by intros []|tauto].
  - rewrite lookup_delete_ne by done. tauto.
Qed.

Lemma tagsOf_removeAll t id x :
  tagsOf (removeAll t id) id = [] /\ (entityIndex x <> entityIndex id -> tagsOf (removeAll t id) x = tagsOf t x)
  /\ (tagsOf t x = [] -> tagsOf (removeAll t id) x = []).
Proof.
  unfold removeAll, tagsOf. destruct (mget (byEntity t) (entityIndex id)) as [l|] eqn:E; [|by rewrite E]. simpl.
  rewrite !mget_mdel, decide_True by done. split; [done|]. split.
  - intros Hx. by rewrite decide_False by congruence.
  - intros Hx. by destruct (decide _).
Qed.

Lemma hosts_remove_keys h s k k' :
  mget (byKey (Hosts.remove h s k).1) k' = if decide (k = k') then None else mget (byKey h) k'.
Proof.
  unfold Hosts.remove. destruct (mget (byKey h) k) as [e|] eqn:E; simpl; [by rewrite mget_mdel|].
  destruct (decide (k = k')) as [<-|]; done.
Qed.

Section one_teardown.
Context (rt : Runtime) (id : EntityId) (Hd : drainable rt) (Hid : is_Some (SlotTable.abs (entities rt) !! id)).

Lemma teardown_drainable : drainable (teardown rt id).
Proof using Hd Hid.
  destruct (teardown_parts rt id) as (He & Hq & Ht & Hx & Hh & Hi & Hf & Hc & Hw & Hm). destruct Hd as [D1 D2 D3 D4 D5].
  destruct (release_slot_spec (transforms rt) id D2 (D3 id Hid)) as (R1 & R2 & _).
  split; [rewrite He|rewrite Hx|rewrite He, Hx|rewrite Hm|rewrite Hw].
  - by apply drain_one_wf.
  - done.
  - intros x [_ Hsome]%abs_drain_one; [|done]. rewrite R2. by apply D3.
  - destruct (Z.eq_dec (scopeForEntity (hosts rt) id) NO_SCOPE) as [->|Hsc]; [done|].
    destruct (Timers.cancelScope_spec _ (timers rt) D4 Hsc) as (S1 & S2 & _). split.
    + rewrite S2. apply NoDup_filter, D4.
    + intros i. rewrite S1, S2, list_elem_of_filter. intros [_ Hi']. by apply (wf_lt _ D4).
  - destruct (Z.eq_dec (scopeForEntity (hosts rt) id) NO_SCOPE) as [->|Hsc]; [done|].
    by apply (tweens_cancelScope (tweens rt) _ D5 Hsc).
Qed.

Lemma teardown_gone : gone (teardown rt id) id /\ silent (teardown rt id) (scopeForEntity (hosts rt) id).
Proof using Hd Hid.
  destruct (teardown_parts rt id) as (He & Hq & Ht & Hx & Hh & Hi & Hf & Hc & Hw & Hm). destruct Hd as [D1 D2 D3 D4 D5].
  destruct (release_slot_spec (transforms rt) id D2 (D3 id Hid)) as (_ & _ & R3 & R4 & _).
  destruct (removeHost_spec (instances rt) (entityKey id)) as (I1 & _ & I3).
  split; [|intros Hsc; split].
  - unfold gone. rewrite He, Hf, Hh, Hi, Ht, Hx. split; [|split; [|split; [|split; [|split; [|split; [|split]]]]]]; try done.
    + apply eq_None_not_Some. intros [Hne _]%abs_drain_one; done.
    + apply mget_mdel_eq.
    + by rewrite hosts_remove_keys, decide_True.
    + intros s. rewrite I3, list_elem_of_filter. tauto.
    + exact (proj1 (tagsOf_removeAll (tags rt) id id)).
  - rewrite Hm. destruct (Timers.cancelScope_spec _ (timers rt) D4 Hsc) as (_ & S2 & S3). intros i. rewrite S2, S3, list_elem_of_filter.
    intros [Hs Hin]. rewrite decide_False; [done|]. tauto.
  - rewrite Hw. destruct (tweens_cancelScope (tweens rt) _ D5 Hsc) as (_ & M & K). intros i [Hin Hh']%M. unfold hosted. by rewrite K.
Qed.

(** Later teardowns do not bring anything back. *)
Lemma teardown_keeps_gone x : gone rt x -> gone (teardown rt id) x.
Proof using Hd Hid.
  destruct (teardown_parts rt id) as (He & Hq & Ht & Hx & Hh & Hi & Hf & Hc & Hw & Hm). destruct Hd as [D1 D2 D3 D4 D5].
  destruct (release_slot_spec (transforms rt) id D2 (D3 id Hid)) as (_ & _ & _ & _ & Rj). destruct (Rj (entityIndex x)) as (R1 & R2 & _).
  destruct (removeHost_spec (instances rt) (entityKey id)) as (I1 & I2 & I3).
  intros (G1 & G2 & G3 & G4 & G5 & G6 & G7 & G8).
  unfold gone. rewrite He, Hf, Hh, Hi, Ht, Hx. split; [|split; [|split; [|split; [|split; [|split; [|split]]]]]]; auto.
  - apply eq_None_not_Some. intros [_ H]%abs_drain_one; [|done]. rewrite G1 in H. by destruct H.
  - rewrite mget_mdel. by destruct (decide _).
  - rewrite hosts_remove_keys. by destruct (decide _).
  - destruct (decide (entityKey x = entityKey id)) as [->|Hne]; [done|]. by rewrite I2.
  - intros s. rewrite I3, list_elem_of_filter. intros [_ Hs]. by apply G5.
  - by apply tagsOf_removeAll.
Qed.

Lemma teardown_keeps_silent sc : silent rt sc -> silent (teardown rt id) sc.
Proof using Hd Hid.
  destruct (teardown_parts rt id) as (He & Hq & Ht & Hx & Hh & Hi & Hf & Hc & Hw & Hm). destruct Hd as [D1 D2 D3 D4 D5].
  intros Hs Hne. destruct (Hs Hne) as [H1 H2]. rewrite Hm, Hw.
  destruct (Z.eq_dec (scopeForEntity (hosts rt) id) NO_SCOPE) as [->|Hsc]; [done|].
  destruct (Timers.cancelScope_spec _ (timers rt) D4 Hsc) as (_ & S2 & S3).
  destruct (tweens_cancelScope (tweens rt) _ D5 Hsc) as (_ & M & K). split.
  - intros i. rewrite S2, S3, list_elem_of_filter. intros [Hd' Hi']. rewrite decide_False by tauto. by apply H1.
  - intros i [Hi' Hh']%M. unfold hosted in *. rewrite K by done. by apply H2.
Qed.

Lemma teardown_others x : entityIndex x <> entityIndex id -> same_entity rt (teardown rt id) x.
Proof using Hd Hid.
  destruct (teardown_parts rt id) as (He & Hq & Ht & Hx & Hh & Hi & Hf & Hc & Hw & Hm). destruct Hd as [D1 D2 D3 D4 D5].
  destruct (release_slot_spec (transforms rt) id D2 (D3 id Hid)) as (_ & _ & _ & _ & Rj). destruct (Rj (entityIndex x)) as (_ & _ & R3).
  destruct (removeHost_spec (instances rt) (entityKey id)) as (I1 & I2 & I3). intros Hne.
  assert (Hk : entityKey id <> entityKey x) by (intros H; apply Hne; by rewrite (entityKey_inj _ _ H)).
  unfold same_entity. rewrite Hf, Hh, Hi, Ht, Hx. split; [|split; [|split; [|split]]]; auto.
  - rewrite mget_mdel, decide_False; [done|]. congruence.
  - by rewrite hosts_remove_keys, decide_False.
  - by apply tagsOf_removeAll.
Qed.
End one_teardown.

(** Two entities that exist are in different slots. *)
Lemma live_index_inj (t : EntityTable) x y :
  SlotTable.wf t -> is_Some (SlotTable.abs t !! x) -> is_Some (SlotTable.abs t !! y) -> entityIndex x = entityIndex y -> x = y.
Proof.
  intros Hw [rx Hx] [ry Hy]. pose proof (wf_core _ Hw) as Hc. rewrite abs_lookup in Hx, Hy by done.
  apply (record_spec t x rx Hc) in Hx as (i & Hi & ->). apply (record_spec t y ry Hc) in Hy as (j & Hj & ->).
  destruct (live_slot_valid t i _ Hc Hi) as [Hv1 Hg1]. destruct (live_slot_valid t j _ Hc Hj) as [Hv2 Hg2].
  unfold entityIndex. rewrite !handleIndex_pack by done. by intros ->.
Qed.

Lemma same_entity_trans rt1 rt2 rt3 x : same_entity rt1 rt2 x -> same_entity rt2 rt3 x -> same_entity rt1 rt3 x.
Proof. intros (A1 & A2 & A3 & A4 & A5) (B1 & B2 & B3 & B4 & B5). unfold same_entity. by rewrite B1, B2, B3, B4, B5. Qed.

Lemma scope_same rt rt' x : same_entity rt rt' x -> scopeForEntity (hosts rt') x = scopeForEntity (hosts rt) x.
Proof. intros (_ & H & _). unfold scopeForEntity, scopeIdOf, Hosts.get. by rewrite H. Qed.

Lemma teardowns_keep doomed : forall rt,
  drainable rt -> NoDup doomed -> (forall x, x ∈ doomed -> is_Some (SlotTable.abs (entities rt) !! x)) ->
  (forall x, gone rt x -> gone (foldl teardown rt doomed) x) /\ (forall sc, silent rt sc -> silent (foldl teardown rt doomed) sc).
Proof.
  induction doomed as [|id doomed IH]; intros rt Hd Hn Hex; [done|]. apply NoDup_cons in Hn as [Hni Hn].
  assert (Hid : is_Some (SlotTable.abs (entities rt) !! id)) by (apply Hex; left).
  destruct (IH (teardown rt id)) as [H1 H2].
  - by apply teardown_drainable.
  - done.
  - intros x Hx. destruct (teardown_parts rt id) as (-> & _). apply abs_drain_one; [apply Hd|].
    split; [by intros ->|]. apply Hex. by right.
  - cbn [foldl]. split; intros; [apply H1, teardown_keeps_gone|apply H2, teardown_keeps_silent]; done.
Qed.

Lemma teardowns_spec doomed : forall rt,
  drainable rt -> NoDup doomed -> (forall x, x ∈ doomed -> is_Some (SlotTable.abs (entities rt) !! x)) ->
  let rt' := foldl teardown rt doomed in
  (forall id, id ∈ doomed -> gone rt' id /\ silent rt' (scopeForEntity (hosts rt) id))
  /\ (forall x, (x ∉ doomed) -> is_Some (SlotTable.abs (entities rt) !! x) ->
        is_Some (SlotTable.abs (entities rt') !! x) /\ same_entity rt rt' x)
  /\ waiting (channels rt') = waiting (channels rt) ++ (Destroy <$> doomed)
  /\ pendingDestroy rt' = pendingDestroy rt.
Proof.
  induction doomed as [|id doomed IH]; intros rt Hd Hn Hex; cbn [foldl].
  { split; [intros id Hid; by apply not_elem_of_nil in Hid|]. split; [intros x _ Hx; by split|]. by rewrite app_nil_r. }
  apply NoDup_cons in Hn as [Hni Hn]. assert (Hid : is_Some (SlotTable.abs (entities rt) !! id)) by (apply Hex; left).
  destruct (teardown_parts rt id) as (He & Hq & _ & _ & _ & _ & _ & Hc & _).
  assert (Hstay : forall x, x <> id -> is_Some (SlotTable.abs (entities rt) !! x) ->
    is_Some (SlotTable.abs (entities (teardown rt id)) !! x) /\ same_entity rt (teardown rt id) x).
  { intros x Hne Hx. split; [rewrite He; by apply abs_drain_one; [apply Hd|]|]. apply teardown_others; [done..|].
    intros Heq. apply Hne. by apply (live_index_inj _ _ _ (dr_table _ Hd) Hx Hid). }
  pose proof (teardown_drainable rt id Hd Hid) as Hd'.
  assert (Hex' : forall x, x ∈ doomed -> is_Some (SlotTable.abs (entities (teardown rt id)) !! x)).
  { intros x Hx. apply Hstay; [by intros ->|]. apply Hex. by right. }
  destruct (IH (teardown rt id) Hd' Hn Hex') as (I1 & I2 & I3 & I4).
  destruct (teardowns_keep doomed (teardown rt id) Hd' Hn Hex') as [K1 K2]. split; [|split; [|split]].
  - intros x [->|Hx]%elem_of_cons.
    + destruct (teardown_gone rt id Hd Hid) as [G S]. by split; [apply K1|apply K2].
    + destruct (I1 x Hx) as [G S]. split; [done|]. rewrite (scope_same rt) in S; [done|].
      apply Hstay; [by intros ->|]. apply Hex. by right.
  - intros x [Hne Hx]%not_elem_of_cons Hs. destruct (Hstay x Hne Hs) as [Hs1 Hsame]. destruct (I2 x Hx Hs1) as [? ?].
    split; [done|]. by eapply same_entity_trans.
  - rewrite I3, Hc, waiting_mark, <- app_assoc. done.
  - by rewrite I4.
Qed.

Section drains.
Context (dispatchEnd : Runtime -> EntityId -> list (option GuardOwner * entity_op)).

Lemma rt_ok_ends d rt l : rt_ok d rt -> rt_ok d (foldl (on_end dispatchEnd) rt l).
Proof.
  revert rt. induction l as [|id l IH]; intros rt Hok; [done|]. apply IH. unfold on_end.
  generalize (dispatchEnd rt id). intros cs. revert rt Hok. induction cs as [|c cs IHc]; intros rt Hok; [done|].
  by apply IHc, rt_ok_op.
Qed.

Lemma rt_ok_taken rt : rt_ok [] rt -> rt_ok (pendingDestroy rt) (set_entities rt (entities rt) []).
Proof.
  intros [Hf Hc Hs Hl Ht He]. split; simpl; try done; [by rewrite app_nil_r|]. apply (fo_closed _ Hf).
Qed.

Lemma drained_spec rt : rt_ok [] rt ->
  let doomed := pendingDestroy rt in
  let ended := foldl (on_end dispatchEnd) (set_entities rt (entities rt) []) doomed in
  rt_ok doomed ended /\ drainDestroyed dispatchEnd rt = foldl teardown ended doomed.
Proof.
  intros Hok doomed ended. split; [by apply rt_ok_ends, rt_ok_taken|].
  unfold ended, drainDestroyed, doomed. destruct (pendingDestroy rt) as [|id l] eqn:E; [|done].
  destruct rt. simpl in *. by subst.
Qed.

Lemma rt_ok_doomed d rt x : rt_ok d rt -> NoDup d /\ (x ∈ d -> is_Some (SlotTable.abs (entities rt) !! x)).
Proof.
  intros [Hf _ _ _ _ _]. pose proof (tk_queue _ _ (fo_tree _ Hf)) as Hq. apply NoDup_app in Hq as (Hn & _). split; [done|].
  intros Hx. destruct (proj1 (tk_dead _ _ (fo_tree _ Hf) x)) as (r & Hr & _); [apply elem_of_app; by left|]. by exists r.
Qed.

Lemma teardowns_entities l : forall rt, entities (foldl teardown rt l) = foldl drain_one (entities rt) l.
Proof. induction l as [|id l IH]; intros rt; [done|]. cbn [foldl]. rewrite IH. by destruct (teardown_parts rt id) as (-> & _). Qed.

Lemma teardowns_drainable l : forall rt,
  drainable rt -> NoDup l -> (forall x, x ∈ l -> is_Some (SlotTable.abs (entities rt) !! x)) -> drainable (foldl teardown rt l).
Proof.
  induction l as [|id l IH]; intros rt Hd Hn Hex; [done|]. apply NoDup_cons in Hn as [Hni Hn].
  apply IH; [by apply teardown_drainable; [|apply Hex; left]|done|].
  intros x Hx. destruct (teardown_parts rt id) as (-> & _). apply abs_drain_one; [apply Hd|].
  split; [by intros ->|]. apply Hex. by right.
Qed.

Lemma rt_ok_drain rt : rt_ok [] rt -> rt_ok [] (drainDestroyed dispatchEnd rt).
Proof.
  intros Hok. destruct (drained_spec rt Hok) as [Hend ->]. set (ended := foldl _ _ _) in *. set (doomed := pendingDestroy rt) in *.
  assert (Hex : forall x, x ∈ doomed -> is_Some (SlotTable.abs (entities ended) !! x)) by (intros; by eapply rt_ok_doomed).
  assert (Hn : NoDup doomed) by (by apply (rt_ok_doomed doomed ended NONE)).
  destruct (teardowns_spec doomed ended (rt_ok_drainable _ _ Hend) Hn Hex) as (_ & _ & _ & Hq).
  destruct (teardowns_drainable doomed ended (rt_ok_drainable _ _ Hend) Hn Hex) as [D1 D2 D3 D4 D5].
  destruct (forest_drain (entities ended) doomed (pendingDestroy ended) (ro_forest _ _ Hend) (ro_closed _ _ Hend)) as [Hf _].
  split; try done; [|intros p c Hp; by apply not_elem_of_nil in Hp]. rewrite Hq, teardowns_entities. exact Hf.
Qed.

Lemma rt_ok_new : rt_ok [] new_runtime.
Proof.
  split; simpl.
  - apply forest_new.
  - intros p c Hp. by apply not_elem_of_nil in Hp.
  - apply new_implements.
  - intros id [r Hr]. change (SlotTable.abs new_entities) with (SlotTable.abs (new_table (R := EntityRecord) "EntityTable")) in Hr.
    rewrite abs_new in Hr. by apply lookup_empty_Some in Hr.
  - apply timers_wf_new.
  - intros id Hid. by apply not_elem_of_nil in Hid.
Qed.

Lemma rt_ok_run ops : rt_ok [] (foldl (run_step dispatchEnd) ([], new_runtime) ops).2.
Proof.
  assert (Hg : forall s, rt_ok [] s.2 -> rt_ok [] (foldl (run_step dispatchEnd) s ops).2); [|apply Hg, rt_ok_new].
  induction ops as [|o ops IH]; intros [sent rt] Hok; [done|]. cbn [foldl]. apply IH.
  destruct o as [owner o| | | |]; simpl in *; [by apply rt_ok_op|by apply rt_ok_drain| | |].
  all: destruct Hok as [Hf Hc Hs Hl Ht He]; by split.
Qed.
End drains.

(** ** Properties *)

(** C14. A replica that applies the journal has the world's hierarchy. Over any history
    of script calls, destroy drains, template groups and sends, whatever the [@onEnd]
    handlers call: applying, in order, the structural ops sent and those still waiting
    to an empty replica gives exactly the entities that exist, each with its parent.
    Once no group is open the next send completes it. *)
Theorem journal_replays_world (dispatchEnd : Runtime -> EntityId -> list (option GuardOwner * entity_op)) (ops : list world_step) :
  let '(sent, rt) := foldl (run_step dispatchEnd) ([], new_runtime) ops in
  foldl replay_op ∅ (flatten sent ++ waiting (channels rt)) = parent <$> SlotTable.abs (entities rt)
  /\ (group (channels rt) = None ->
      foldl replay_op ∅ (flatten (run_step dispatchEnd (sent, rt) WSend).1) = parent <$> SlotTable.abs (entities rt)).
Proof.
  pose proof (tracks_run dispatchEnd ops) as Ht. destruct (foldl _ _ ops) as [sent rt]. destruct Ht as [Hw Hc Hr].
  split; [exact Hr|]. intros Hg. simpl. rewrite flatten_app. unfold waiting in Hr. rewrite Hg in Hr. simpl in Hr.
  by rewrite app_nil_r in Hr.
Qed.

(** A parent and child, the child moved to the root, the parent destroyed with its own
    child spawned by its [@onEnd]: one entity of the three is left to replay, and the
    late spawn. *)
Lemma journal_replays_world_witness :
  let a := packHandle 0 1 in let b := packHandle 1 1 in
  let ends := fun (_ : Runtime) (_ : EntityId) => [(None, ESpawn [] f0 f0 [])] in
  let '(sent, rt) := foldl (run_step ends) ([], new_runtime)
    [WCall None (ESpawn [] f0 f0 []); WCall None (ESpawn [] f0 f0 []); WCall None (EAttach b a); WSend;
     WCall None (EDetach b); WCall None (EDestroy a); WDrain] in
  group (channels rt) = None
  /\ foldl replay_op ∅ (flatten (run_step ends (sent, rt) WSend).1) = {[ b := NONE; packHandle 2 1 := NONE ]}.
Proof.
  intros a b ends.
  pose proof (journal_replays_world ends
    [WCall None (ESpawn [] f0 f0 []); WCall None (ESpawn [] f0 f0 []); WCall None (EAttach b a); WSend;
     WCall None (EDetach b); WCall None (EDestroy a); WDrain]) as H.
  destruct (foldl (run_step ends) _ _) as [sent rt] eqn:E. destruct H as [_ H].
  apply (f_equal snd) in E. cbn [snd] in E.
  assert (Hg : group (channels rt) = None) by (rewrite <- E; vm_compute; reflexivity).
  split; [exact Hg|]. rewrite (H Hg), <- E. apply (bool_decide_unpack _). vm_compute. exact I.
Defined.

(** The drain leaves no trace of what was destroyed, and touches nothing else. Over
    any history of the world, when the queue is drained: every queued id then has no
    record, no facade, no host, no script instance or pending start and no tag; its
    slot's transform is at rest and not dirty; and no timer or tween is left under the
    scope it had after the [@onEnd] handlers. Every other entity the handlers left
    exists as they left it. The journal gains one [Destroy] per queued id, in queue
    order, and what the handlers queued waits for the next drain. *)
Theorem drain_leaves_no_trace (dispatchEnd : Runtime -> EntityId -> list (option GuardOwner * entity_op)) (ops : list world_step) :
  let rt := (foldl (run_step dispatchEnd) ([], new_runtime) ops).2 in
  let doomed := pendingDestroy rt in
  let ended := foldl (on_end dispatchEnd) (set_entities rt (entities rt) []) doomed in
  let rt' := drainDestroyed dispatchEnd rt in
  (forall id, id ∈ doomed -> gone rt' id /\ silent rt' (scopeForEntity (hosts ended) id))
  /\ (forall x, (x ∉ doomed) -> is_Some (SlotTable.abs (entities ended) !! x) ->
        is_Some (SlotTable.abs (entities rt') !! x) /\ same_entity ended rt' x)
  /\ waiting (channels rt') = waiting (channels ended) ++ (Destroy <$> doomed)
  /\ pendingDestroy rt' = pendingDestroy ended.
Proof.
  intros rt doomed ended rt'. pose proof (rt_ok_run dispatchEnd ops) as Hok.
  destruct (drained_spec dispatchEnd rt Hok) as [Hend Heq]. unfold rt'. rewrite Heq.
  apply teardowns_spec.
  - by eapply rt_ok_drainable.
  - by apply (rt_ok_doomed doomed ended NONE).
  - intros x. by apply (rt_ok_doomed doomed ended x).
Qed.

(** A parent with a tagged child that is moving and waiting: both are queued by one
    destroy, the child with a scope, and both are gone after the drain. *)
Lemma drain_leaves_no_trace_witness :
  let a := packHandle 0 1 in let b := packHandle 1 1 in
  let ends := fun (_ : Runtime) (_ : EntityId) => [(None, ESpawn [] f0 f0 [])] in
  let rt := (foldl (run_step ends) ([], new_runtime)
    [WCall None (ESpawn [] f0 f0 []); WCall None (ESpawn [] f0 f0 []); WCall None (EAttach b a); WCall None (ETag b (js "foe"));
     WCall None (EThink b f1); WCall None (EFadeTo b f0 f1); WCall None (EDestroy a)]).2 in
  pendingDestroy rt = [a; b] /\ scopeForEntity (hosts rt) b <> NO_SCOPE /\ tagsOf (tags rt) b = [js "foe"]
  /\ gone (drainDestroyed ends rt) b.
Proof.
  intros a b ends rt.
  assert (Hq : pendingDestroy rt = [a; b]) by (vm_compute; reflexivity).
  split; [exact Hq|]. split; [vm_compute; discriminate|]. split; [vm_compute; reflexivity|].
  destruct (drain_leaves_no_trace ends
    [WCall None (ESpawn [] f0 f0 []); WCall None (ESpawn [] f0 f0 []); WCall None (EAttach b a); WCall None (ETag b (js "foe"));
     WCall None (EThink b f1); WCall None (EFadeTo b f0 f1); WCall None (EDestroy a)]) as [H _].
  apply H. fold rt. rewrite Hq. right. left.
Defined.

(** A handle kept past the drain: a wait through it registers a host again, under the id
    that no longer exists, and destroying it again queues nothing, so nothing removes it. *)
Lemma stale_handle_leaks_host :
  let a := packHandle 0 1 in
  let rt := (foldl (run_step (fun _ _ => [])) ([], new_runtime)
    [WCall None (ESpawn [] f0 f0 []); WCall None (EDestroy a); WDrain; WCall None (EThink a f1); WCall None (EDestroy a); WDrain]).2 in
  EntityTable.exists_ (entities rt) a = false /\ is_Some (mget (byKey (hosts rt)) (entityKey a))
  /\ length (Timers.timers (timers rt)) = 1%nat.
Proof. vm_compute. repeat split; by eexists. Qed.
