(* ===== verification/Spatial.v ===== *)
(** * Spatial queries ([packages/core/src/world/broadphase.ts],
    [packages/core/src/runtime/contacts.ts, regions.ts, lag-ring.ts],
    [packages/math/src/bounds.ts])

    Overlap tests on the live transforms, the edges at which two bodies start touching
    and an entity crosses a region, and the ring of past positions an as-seen query
    reads. Positions are doubles, so a comparison with a NaN is false. *)

From Stdlib Require Import SpecFloat.
From S2P Require Import Prelude JsMap JsNum Json Handle SlotTable TagIndex TransformStore EntityTable Hosts Breaker World.

Local Open Scope Z_scope.

(** ** Rectangles *)

Record Bounds := MkBounds { left_ : num; right_ : num; top : num; bottom : num }.

Definition boundsSet (l r t b : num) : Bounds := MkBounds l r t b.
Definition boundsCopy (b : Bounds) : Bounds := MkBounds (left_ b) (right_ b) (top b) (bottom b).
Definition boundsWidth (b : Bounds) : num := fabs (fsub (right_ b) (left_ b)).
Definition boundsHeight (b : Bounds) : num := fabs (fsub (bottom b) (top b)).
Definition boundsEqual (a b : Bounds) : bool :=
  feq (left_ a) (left_ b) && feq (right_ a) (right_ b) && feq (top a) (top b) && feq (bottom a) (bottom b).

Definition boundsOverlap (a b : Bounds) : bool :=
  let aMinX := fmin (left_ a) (right_ a) in
  let aMaxX := fmax (left_ a) (right_ a) in
  let bMinX := fmin (left_ b) (right_ b) in
  let bMaxX := fmax (left_ b) (right_ b) in
  if flt aMaxX bMinX || flt bMaxX aMinX then false
  else
    let aMinY := fmin (top a) (bottom a) in
    let aMaxY := fmax (top a) (bottom a) in
    let bMinY := fmin (top b) (bottom b) in
    let bMaxY := fmax (top b) (bottom b) in
    fle bMinY aMaxY && fle aMinY bMaxY.

Definition boundsContains (b : Bounds) (x y : num) : bool :=
  let inX := fle (fmin (left_ b) (right_ b)) x && fle x (fmax (left_ b) (right_ b)) in
  let inY := fle (fmin (top b) (bottom b)) y && fle y (fmax (top b) (bottom b)) in
  inX && inY.

Definition boundsExpand (b : Bounds) (margin : num) : Bounds :=
  let xUp := if fle (left_ b) (right_ b) then margin else fneg margin in
  let yUp := if fle (bottom b) (top b) then margin else fneg margin in
  MkBounds (fsub (left_ b) xUp) (fadd (right_ b) xUp) (fadd (top b) yUp) (fsub (bottom b) yUp).

(** ** Broadphase *)

(** The transform read surface of a query: the live stores or a past capture. *)
Record TransformView := MkView {
  v_liveIds : list EntityId;
  v_posX : EntityId -> num;
  v_posY : EntityId -> num;
  halfWidth : EntityId -> num;
  halfHeight : EntityId -> num;
}.

Definition near (v : TransformView) (x y radius : num) : list EntityId :=
  filter (fun id =>
    let dx := fsub (v_posX v id) x in
    let dy := fsub (v_posY v id) y in
    let reach := fadd radius (fmax (halfWidth v id) (halfHeight v id)) in
    fle (fadd (fmul dx dx) (fmul dy dy)) (fmul reach reach) = true) (v_liveIds v).

Definition overlapping (v : TransformView) (id : EntityId) : list EntityId :=
  let ax := v_posX v id in
  let ay := v_posY v id in
  let ahw := halfWidth v id in
  let ahh := halfHeight v id in
  filter (fun other =>
    other <> id
    /\ fle (fabs (fsub ax (v_posX v other))) (fadd ahw (halfWidth v other))
       && fle (fabs (fsub ay (v_posY v other))) (fadd ahh (halfHeight v other)) = true) (v_liveIds v).

(** The bounds of the collider a script gave an entity, if it did. *)
Definition Colliders := EntityId -> option Bounds.

Definition halfExtentW (colliders : Colliders) (id : EntityId) : num :=
  match colliders id with
  | None => f0
  | Some b => fdiv (fabs (fsub (right_ b) (left_ b))) (of_Z 2)
  end.
Definition halfExtentH (colliders : Colliders) (id : EntityId) : num :=
  match colliders id with
  | None => f0
  | Some b => fdiv (fabs (fsub (top b) (bottom b))) (of_Z 2)
  end.

Definition liveTransformView (rt : Runtime) (colliders : Colliders) : TransformView :=
  MkView (EntityTable.liveIds (entities rt)) (posX (transforms rt)) (posY (transforms rt))
    (halfExtentW colliders) (halfExtentH colliders).

(** ** Contacts *)

(** One row of the scratch lanes. *)
Record Body := MkBody { b_id : EntityId; b_x : num; b_y : num; b_w : num; b_h : num; b_parent : EntityId }.

Definition parentOf (rt : Runtime) (id : EntityId) : option EntityId :=
  EntityTable.parent <$> EntityTable.record (entities rt) id.

Definition loadScratch (rt : Runtime) (v : TransformView) (ids : list EntityId) : list Body :=
  (fun id => MkBody id (v_posX v id) (v_posY v id) (halfWidth v id) (halfHeight v id) (nullish (parentOf rt id) NONE)) <$> ids.

(** The body of the inner loop. *)
Definition touch (a b : Body) : bool :=
  if bool_decide (b_parent a = b_id b \/ b_parent b = b_id a) then false
  else if negb (fle (fabs (fsub (b_x a) (b_x b))) (fadd (b_w a) (b_w b))) then false
  else if negb (fle (fabs (fsub (b_y a) (b_y b))) (fadd (b_h a) (b_h b))) then false
  else true.

(** The outer loop at its first body, then at the rest. *)
Fixpoint walk (bodies : list Body) : list (EntityId * EntityId) :=
  match bodies with
  | [] => []
  | a :: rest => ((fun b => (b_id a, b_id b)) <$> filter (fun b => touch a b = true) rest) ++ walk rest
  end.

Definition pairs (rt : Runtime) (colliders : Colliders) : list (EntityId * EntityId) :=
  let v := liveTransformView rt colliders in
  let ids := v_liveIds v in
  if (length ids <? 2)%nat then [] else walk (loadScratch rt v ids).

(** The key of a pair; [:] is unit 58. *)
Definition pairKey (p : EntityId * EntityId) : jstr := num_str p.1 ++ [58] ++ num_str p.2.

(** The state is the keys of the last tick's pairs. *)
Definition ContactSource := jsset jstr.

Definition enter_one (previous : ContactSource) (acc : ContactSource * list (EntityId * EntityId)) (p : EntityId * EntityId) :
    ContactSource * list (EntityId * EntityId) :=
  let key := pairKey p in
  (sadd acc.1 key, if shas previous key then acc.2 else acc.2 ++ [p]).

Definition entered (previous : ContactSource) (rt : Runtime) (colliders : Colliders) :
    ContactSource * list (EntityId * EntityId) :=
  foldl (enter_one previous) ([], []) (pairs rt colliders).

Definition isSelfOrKin (rt : Runtime) (id other : EntityId) (parent : option EntityId) : bool :=
  if bool_decide (id = other) then true
  else if match parent with Some p => bool_decide (p = other) | None => false end then true
  else bool_decide (parentOf rt other = Some id).

Definition touching (rt : Runtime) (colliders : Colliders) (past : option TransformView) (id : EntityId) (tag : option jstr)
    (asSeen : bool) : list EntityId :=
  match colliders id with
  | None => []
  | Some _ =>
      let live := liveTransformView rt colliders in
      let v := if asSeen then nullish past live else live in
      let parent := parentOf rt id in
      filter (fun other =>
        isSelfOrKin rt id other parent = false
        /\ match tag with Some tg => TagIndex.has (tags rt) other tg | None => true end = true) (overlapping v id)
  end.

(** ** Regions *)

Record RegionCrossing := MkCrossing { region : jstr; cross_id : EntityId; is_entry : bool }.

Record RegionIndex := MkRegions { regions : jsmap jstr Bounds; occupants : jsmap jstr (jsset EntityId) }.

Definition no_regions : RegionIndex := MkRegions [] [].

Definition define (r : RegionIndex) (name : jstr) (b : Bounds) : RegionIndex :=
  MkRegions (mset (regions r) name b) (mset (occupants r) name []).

Definition region_contains (r : RegionIndex) (name : jstr) (x y : num) : bool :=
  match mget (regions r) name with Some b => boundsContains b x y | None => false end.

Definition region_bounds (r : RegionIndex) (name : jstr) : option Bounds := mget (regions r) name.

(** The first inner loop: who is inside, and the entries. *)
Definition arrive (name : jstr) (b : Bounds) (was : jsset EntityId) (x y : EntityId -> num)
    (acc : jsset EntityId * list RegionCrossing) (id : EntityId) : jsset EntityId * list RegionCrossing :=
  if negb (boundsContains b (x id) (y id)) then acc
  else (sadd acc.1 id, if shas was id then acc.2 else acc.2 ++ [MkCrossing name id true]).

Definition cross_region (ids : list EntityId) (x y : EntityId -> num)
    (acc : jsmap jstr (jsset EntityId) * list RegionCrossing) (e : jstr * Bounds) :
    jsmap jstr (jsset EntityId) * list RegionCrossing :=
  let was := nullish (mget acc.1 e.1) [] in
  let '(present, out) := foldl (arrive e.1 e.2 was x y) ([], acc.2) ids in
  let out := foldl (fun out id => if shas present id then out else out ++ [MkCrossing e.1 id false]) out was in
  (mset acc.1 e.1 present, out).

Definition crossings (r : RegionIndex) (ids : list EntityId) (x y : EntityId -> num) : RegionIndex * list RegionCrossing :=
  let '(occ, out) := foldl (cross_region ids x y) (occupants r, []) (regions r) in
  (MkRegions (regions r) occ, out).

(** ** The lag ring *)

Definition MAX_REWIND_MS : Z := 250.

Record RingSlot := MkSlot { s_tick : Z; s_posX : list num; s_posY : list num; s_ids : list EntityId; filled : bool }.

Record LagRing := MkRing { slots : list RingSlot; head_ : Z }.

(** [Math.max(1, Math.ceil((simRate * MAX_REWIND_MS) / 1000))], for a whole rate. *)
Definition ring_depth (simRate : Z) : nat := Z.to_nat (Z.max 1 (- ((- (simRate * MAX_REWIND_MS)) / 1000))).

Definition new_ring (simRate : Z) : LagRing :=
  MkRing (replicate (ring_depth simRate) (MkSlot (-1) [] [] [] false)) 0.

Definition capture (ring : LagRing) (rt : Runtime) (tick : Z) : LagRing :=
  match arr_get (slots ring) (head_ ring) with
  | None => ring
  | Some slot =>
      let cap := TransformStore.slotCount (transforms rt) in
      let '(px, py) :=
        if arr_len (s_posX slot) <? cap
        then let grown := Z.to_nat (grownCapacity (arr_len (s_posX slot)) cap) in (replicate grown f0, replicate grown f0)
        else (s_posX slot, s_posY slot) in
      let '(_, px, py) := copyPositions (transforms rt) px py in
      MkRing (arr_set (slots ring) (head_ ring) (MkSlot tick px py (EntityTable.liveIds (entities rt)) true))
        ((head_ ring + 1) mod arr_len (slots ring))
  end.

(** The loop with its early return: the filled slot of the tick, else the best so far. *)
Fixpoint nearest (tick : Z) (l : list RingSlot) (best : option RingSlot) : option RingSlot :=
  match l with
  | [] => best
  | slot :: rest =>
      if negb (filled slot) then nearest tick rest best
      else if s_tick slot =? tick then Some slot
      else nearest tick rest
             (match best with
              | None => Some slot
              | Some b => if Z.abs (s_tick slot - tick) <? Z.abs (s_tick b - tick) then Some slot else best
              end)
  end.

Definition slotFor (ring : LagRing) (tick : Z) : option RingSlot := nearest tick (slots ring) None.

Definition latest (ring : LagRing) : option RingSlot :=
  foldl (fun best slot =>
           if filled slot && match best with None => true | Some b => s_tick b <? s_tick slot end then Some slot else best)
    None (slots ring).

Definition bufferView (slot : RingSlot) (w h : EntityId -> num) : TransformView :=
  MkView (s_ids slot) (fun id => nullish (arr_get (s_posX slot) (entityIndex id)) f0)
    (fun id => nullish (arr_get (s_posY slot) (entityIndex id)) f0) w h.

Definition broadphaseAt (ring : LagRing) (viewTick : Z) (w h : EntityId -> num) : option TransformView :=
  (fun slot => bufferView slot w h) <$> slotFor ring viewTick.

Definition broadphaseAtLatest (ring : LagRing) (w h : EntityId -> num) : option TransformView :=
  (fun slot => bufferView slot w h) <$> latest ring.

(** ** Overlap is symmetric *)

Lemma binary_round_abs s s' m e :
  SFabs (binary_round fprec femax s m e) = SFabs (binary_round fprec femax s' m e).
Proof.
  unfold binary_round, binary_round_aux. destruct (shl_align _ _ _) as [mz ez].
  destruct (shr_fexp _ _ _ _ _) as [mrs' e']. destruct (shr_fexp _ _ _ _ _) as [mrs'' e''].
  by destruct (shr_m mrs''); try destruct (_ <=? _).
Qed.

Lemma normalize_opp_abs m e b b' :
  SFabs (binary_normalize fprec femax (- m) e b) = SFabs (binary_normalize fprec femax m e b').
Proof. destruct m; simpl; [done| |]; apply binary_round_abs. Qed.

Lemma fadd_comm x y : fadd x y = fadd y x.
Proof.
  unfold fadd, SFadd. destruct x as [sx|sx| |sx mx ex], y as [sy|sy| |sy my ey]; try done.
  - by destruct sx, sy.
  - by destruct sx, sy.
  - rewrite (Z.min_comm ey ex), Z.add_comm. done.
Qed.

Lemma fsub_abs_comm x y : fabs (fsub x y) = fabs (fsub y x).
Proof.
  unfold fabs, fsub, SFsub. destruct x as [sx|sx| |sx mx ex], y as [sy|sy| |sy my ey]; try done.
  - by destruct sx, sy.
  - by destruct sx, sy.
  - rewrite (Z.min_comm ey ex).
    set (a := fst (shl_align mx ex (Z.min ex ey))). set (b := fst (shl_align my ey (Z.min ex ey))).
    rewrite <- normalize_opp_abs with (b := false). f_equal. f_equal.
    destruct sx, sy; simpl; lia.
Qed.

Lemma touch_comm a b : touch a b = touch b a.
Proof.
  unfold touch. rewrite (bool_decide_ext (b_parent a = b_id b \/ b_parent b = b_id a) (b_parent b = b_id a \/ b_parent a = b_id b)) by tauto.
  by rewrite (fsub_abs_comm (b_x a)), (fsub_abs_comm (b_y a)), (fadd_comm (b_w a)), (fadd_comm (b_h a)).
Qed.

(** ** What a live id is *)

Definition reached (rt : Runtime) : Prop := exists ends ops, rt = (foldl (run_step ends) ([], new_runtime) ops).2.

Lemma reached_ok rt : reached rt -> rt_ok [] rt.
Proof. intros (ends & ops & ->). apply rt_ok_run. Qed.

Lemma reached_core rt : reached rt -> core (entities rt).
Proof. intros H. apply reached_ok, ro_forest, fo_wf in H. apply H. Qed.

Lemma liveIds_abs rt id : reached rt -> id ∈ EntityTable.liveIds (entities rt) <-> is_Some (SlotTable.abs (entities rt) !! id).
Proof.
  intros H. pose proof (reached_core rt H) as Hc. unfold EntityTable.liveIds, SlotTable.liveIds. rewrite list_elem_of_fmap. split.
  - intros (i & -> & Hi). apply elem_of_liveIndices in Hi as [r Hr]. exists r. apply abs_Some; [done|]. exists i.
    unfold SlotTable.idAt. by rewrite Hr.
  - intros [r Hr]. apply abs_Some in Hr as (i & Hr & ->); [|done]. exists i. unfold SlotTable.idAt. rewrite Hr. split; [done|].
    apply elem_of_liveIndices. eauto.
Qed.

Lemma NoDup_liveIds rt : reached rt -> NoDup (EntityTable.liveIds (entities rt)).
Proof.
  intros H. pose proof (reached_core rt H) as Hc. unfold EntityTable.liveIds, SlotTable.liveIds.
  apply NoDup_fmap_2_strong; [|apply NoDup_liveIndices].
  intros i j [r Hr]%elem_of_liveIndices [r' Hr']%elem_of_liveIndices. unfold SlotTable.idAt.
  rewrite Hr, Hr'. by eapply live_pack_inj.
Qed.

Lemma live_not_none rt id : reached rt -> id ∈ EntityTable.liveIds (entities rt) -> id <> NONE.
Proof.
  intros H Hid ->. apply (liveIds_abs rt NONE H) in Hid. rewrite abs_null in Hid by (by apply reached_core). by destruct Hid.
Qed.

(** ** Which pairs touch *)

(** The row of a live entity. *)
Definition bodyOf (rt : Runtime) (colliders : Colliders) (id : EntityId) : Body :=
  MkBody id (posX (transforms rt) id) (posY (transforms rt) id) (halfExtentW colliders id) (halfExtentH colliders id)
    (nullish (parentOf rt id) NONE).

(** Overlapping and not kin. *)
Definition meet (rt : Runtime) (colliders : Colliders) (a b : EntityId) : Prop :=
  touch (bodyOf rt colliders a) (bodyOf rt colliders b) = true.

Lemma walk_spec f l a b :
  (forall x, b_id (f x) = x) -> NoDup l ->
  (a, b) ∈ walk (f <$> l) <-> (exists i j, (i < j)%nat /\ l !! i = Some a /\ l !! j = Some b) /\ touch (f a) (f b) = true.
Proof.
  intros Hf. induction l as [|x l IH]; intros Hnd; csimpl.
  - rewrite elem_of_nil. split; [done|]. intros [(i & j & _ & Hi & _) _]. by rewrite lookup_nil in Hi.
  - apply NoDup_cons in Hnd as [Hx Hnd]. rewrite elem_of_app, IH by done. rewrite list_elem_of_fmap. split.
    + intros [(y & Hy & Hin)|((i & j & Hij & Hi & Hj) & Ht)].
      * apply list_elem_of_filter in Hin as [Ht Hin]. apply list_elem_of_fmap in Hin as (z & -> & Hz).
        rewrite !Hf in Hy. injection Hy as -> ->. split; [|done]. apply list_elem_of_lookup in Hz as [j Hj].
        exists 0%nat, (S j). split_and!; [lia|done|done].
      * split; [|done]. exists (S i), (S j). split_and!; [lia|done|done].
    + intros [(i & j & Hij & Hi & Hj) Ht]. destruct j as [|j]; [lia|]. simpl in Hj. destruct i as [|i]; simpl in Hi.
      * injection Hi as ->. left. exists (f b). rewrite !Hf. split; [done|]. apply list_elem_of_filter. split; [done|].
        apply list_elem_of_fmap. exists b. split; [done|]. by eapply list_elem_of_lookup_2.
      * right. split; [|done]. exists i, j. split_and!; [lia|done|done].
Qed.

Lemma pairs_spec rt colliders a b :
  reached rt ->
  (a, b) ∈ pairs rt colliders
  <-> (exists i j, (i < j)%nat /\ EntityTable.liveIds (entities rt) !! i = Some a /\ EntityTable.liveIds (entities rt) !! j = Some b)
      /\ meet rt colliders a b.
Proof.
  intros H. unfold pairs. cbn [v_liveIds liveTransformView].
  change (loadScratch rt _ ?l) with (bodyOf rt colliders <$> l).
  destruct (length _ <? 2)%nat eqn:El.
  - apply Nat.ltb_lt in El. rewrite elem_of_nil. split; [done|]. intros [(i & j & Hij & Hi & Hj) _].
    apply lookup_lt_Some in Hj. lia.
  - apply walk_spec; [done|by apply NoDup_liveIds].
Qed.

Lemma meet_comm rt c a b : meet rt c a b <-> meet rt c b a.
Proof. unfold meet. by rewrite touch_comm. Qed.

(** ** What a tick's edges are *)

Lemma pairKey_inj p q : pairKey p = pairKey q -> p = q.
Proof.
  unfold pairKey. intros H. assert (Hs : forall z, 58 ∉ num_str z) by (intros z Hz; apply num_str_units in Hz; lia).
  apply sep_split in H as [H1 H2]; try apply Hs. apply num_str_inj in H1, H2. destruct p, q; simpl in *; by subst.
Qed.

Lemma enter_all prev l acc out :
  foldl (enter_one prev) (acc, out) l
  = (foldl sadd acc (pairKey <$> l), out ++ filter (fun p => pairKey p ∉ prev) l).
Proof.
  revert acc out. induction l as [|p l IH]; intros acc out; csimpl; [by rewrite app_nil_r|].
  unfold enter_one at 2. cbn [fst snd]. rewrite IH, filter_cons. destruct (shas prev (pairKey p)) eqn:E.
  - apply shas_spec in E. by rewrite decide_False by tauto.
  - apply shas_false in E. rewrite decide_True by done. by rewrite <- app_assoc.
Qed.

Lemma elem_of_foldl_sadd {A} `{EqDecision A} (l acc : list A) x : x ∈ foldl sadd acc l <-> x ∈ acc \/ x ∈ l.
Proof.
  revert acc. induction l as [|y l IH]; intros acc; cbn [foldl]; [rewrite elem_of_nil; tauto|].
  rewrite IH, elem_of_sadd, elem_of_cons. tauto.
Qed.

Lemma entered_spec prev rt c :
  entered prev rt c = (foldl sadd [] (pairKey <$> pairs rt c), filter (fun p => pairKey p ∉ prev) (pairs rt c)).
Proof. unfold entered. by rewrite enter_all. Qed.

(** ** Region edges *)

(** Who is alive on a tick, and where. *)
Record Sight := MkSight { st_ids : list EntityId; st_x : EntityId -> num; st_y : EntityId -> num }.

Definition unseen : Sight := MkSight [] (fun _ => f0) (fun _ => f0).

Definition within (b : Bounds) (t : Sight) (id : EntityId) : Prop := boundsContains b (st_x t id) (st_y t id) = true.
#[export] Instance within_dec b t id : Decision (within b t id).
Proof. unfold within. apply _. Defined.

Definition inside (b : Bounds) (t : Sight) (id : EntityId) : Prop := id ∈ st_ids t /\ within b t id.
#[export] Instance inside_dec b t id : Decision (inside b t id).
Proof. unfold inside. apply _. Defined.

(** The crossings of one region between two ticks. *)
Definition edges (prev now : Sight) (e : jstr * Bounds) : list RegionCrossing :=
  ((fun id => MkCrossing e.1 id true) <$> filter (fun id => within e.2 now id /\ ~ inside e.2 prev id) (st_ids now))
  ++ ((fun id => MkCrossing e.1 id false) <$> filter (fun id => ~ inside e.2 now id) (filter (within e.2 prev) (st_ids prev))).

Definition sees (r : RegionIndex) (t : Sight) : Prop :=
  NoDup (mkeys (regions r))
  /\ forall name b, (name, b) ∈ regions r -> mget (occupants r) name = Some (filter (within b t) (st_ids t)).

Lemma foldl_sadd_NoDup {A} `{EqDecision A} (l acc : list A) : NoDup (acc ++ l) -> foldl sadd acc l = acc ++ l.
Proof.
  revert acc. induction l as [|x l IH]; intros acc Hnd; cbn [foldl]; [by rewrite app_nil_r|].
  rewrite sadd_not_in.
  - rewrite IH by (by rewrite <- app_assoc). by rewrite <- app_assoc.
  - apply NoDup_app in Hnd as (_ & Hd & _). intros Hx. apply (Hd x Hx). left.
Qed.

Lemma arrive_all name b was t ids acc out :
  foldl (arrive name b was (st_x t) (st_y t)) (acc, out) ids
  = (foldl sadd acc (filter (within b t) ids),
     out ++ ((fun id => MkCrossing name id true) <$> filter (fun id => within b t id /\ id ∉ was) ids)).
Proof.
  revert acc out. induction ids as [|id ids IH]; intros acc out; cbn [foldl]; [by rewrite app_nil_r|].
  unfold arrive at 2. cbn [fst snd]. rewrite !filter_cons. destruct (decide (within b t id)) as [Hw|Hw].
  - pose proof Hw as E. unfold within in E. rewrite E. simpl negb. cbv iota. rewrite IH. cbn [foldl].
    destruct (shas was id) eqn:Ew.
    + apply shas_spec in Ew. by rewrite decide_False by tauto.
    + apply shas_false in Ew. rewrite decide_True by done. csimpl. by rewrite <- app_assoc.
  - pose proof Hw as E. unfold within in E. apply not_true_is_false in E. rewrite E. simpl negb. cbv iota.
    rewrite IH. by rewrite decide_False by tauto.
Qed.

Lemma leave_all name present was out :
  foldl (fun out id => if shas present id then out else out ++ [MkCrossing name id false]) out was
  = out ++ ((fun id => MkCrossing name id false) <$> filter (fun id => id ∉ present) was).
Proof.
  revert out. induction was as [|id was IH]; intros out; cbn [foldl]; [by rewrite app_nil_r|].
  rewrite IH, filter_cons. destruct (shas present id) eqn:E.
  - apply shas_spec in E. by rewrite decide_False by tauto.
  - apply shas_false in E. rewrite decide_True by done. csimpl. by rewrite <- app_assoc.
Qed.

Lemma cross_region_spec prev now occ out e :
  NoDup (st_ids now) -> mget occ e.1 = Some (filter (within e.2 prev) (st_ids prev)) ->
  cross_region (st_ids now) (st_x now) (st_y now) (occ, out) e
  = (mset occ e.1 (filter (within e.2 now) (st_ids now)), out ++ edges prev now e).
Proof.
  intros Hnd Ho. unfold cross_region. cbn [fst snd]. rewrite Ho. simpl nullish. rewrite arrive_all, leave_all.
  rewrite foldl_sadd_NoDup by (by apply NoDup_filter). rewrite app_nil_l. f_equal. unfold edges. rewrite <- app_assoc. f_equal. f_equal.
  - f_equal. apply list_filter_iff. intros id. rewrite list_elem_of_filter. unfold inside. tauto.
  - f_equal. apply list_filter_iff. intros id. rewrite list_elem_of_filter. unfold inside. tauto.
Qed.

Lemma cross_all prev now (rs : jsmap jstr Bounds) occ out :
  NoDup (st_ids now) -> NoDup (mkeys rs) ->
  (forall name b, (name, b) ∈ rs -> mget occ name = Some (filter (within b prev) (st_ids prev))) ->
  let '(occ', out') := foldl (cross_region (st_ids now) (st_x now) (st_y now)) (occ, out) rs in
  out' = out ++ (rs ≫= edges prev now)
  /\ (forall name b, (name, b) ∈ rs -> mget occ' name = Some (filter (within b now) (st_ids now)))
  /\ (forall name, name ∉ mkeys rs -> mget occ' name = mget occ name).
Proof.
  intros Hnd. revert occ out. induction rs as [|[n b] rs IH]; intros occ out Hk Ho; cbn [foldl].
  { split_and!; [by rewrite app_nil_r|intros name b H; by apply not_elem_of_nil in H|done]. }
  apply NoDup_cons in Hk as [Hn Hk]. rewrite (cross_region_spec prev) by (try done; apply Ho; left). cbn [fst snd].
  specialize (IH (mset occ n (filter (within b now) (st_ids now))) (out ++ edges prev now (n, b)) Hk).
  destruct (foldl _ _ rs) as [occ' out']. destruct IH as (IH1 & IH2 & IH3).
  { intros name b' Hin. rewrite mget_mset_ne; [apply Ho; by right|]. intros ->. apply Hn. apply list_elem_of_fmap. by exists (name, b'). }
  split_and!.
  - rewrite IH1, <- app_assoc. done.
  - intros name b' [Heq|Hin]%elem_of_cons; [|by apply IH2]. injection Heq as -> ->. rewrite IH3 by done. apply mget_mset_eq.
  - intros name Hne. apply not_elem_of_cons in Hne as [Hne Hin]. simpl in Hne. rewrite IH3 by done. by rewrite mget_mset_ne by congruence.
Qed.

Lemma crossings_spec r prev now :
  sees r prev -> NoDup (st_ids now) ->
  let '(r', out) := crossings r (st_ids now) (st_x now) (st_y now) in
  out = (regions r ≫= edges prev now) /\ regions r' = regions r /\ sees r' now.
Proof.
  intros [Hk Ho] Hnd. unfold crossings.
  pose proof (cross_all prev now (regions r) (occupants r) [] Hnd Hk Ho) as H.
  destruct (foldl _ _ (regions r)) as [occ out]. destruct H as (-> & H2 & _). split_and!; [done|done|]. by split.
Qed.

Lemma define_sees r name b : sees r unseen -> sees (define r name b) unseen.
Proof.
  intros [Hk Ho]. split; simpl; [by apply NoDup_mset|]. intros n b' Hin.
  apply elem_of_mset in Hin; [|done]. rewrite mget_mset. destruct Hin as [Heq|[Hin Hne]].
  - injection Heq as -> ->. by rewrite decide_True.
  - simpl in Hne. rewrite decide_False by congruence. by apply Ho.
Qed.

(** ** What the ring holds *)

(** [slot] is the capture of [rt] at [tick]. *)
Record held (slot : RingSlot) (tick : Z) (rt : Runtime) : Prop := {
  hd_tick : s_tick slot = tick;
  hd_filled : filled slot = true;
  hd_ids : s_ids slot = EntityTable.liveIds (entities rt);
  hd_pos id : id ∈ EntityTable.liveIds (entities rt) ->
    nullish (arr_get (s_posX slot) (entityIndex id)) f0 = posX (transforms rt) id
    /\ nullish (arr_get (s_posY slot) (entityIndex id)) f0 = posY (transforms rt) id;
}.

(** After [n] captures at ticks from [t0], slot [j] is the last one due there. *)
Record ring_ok (d : nat) (t0 : Z) (rts : list Runtime) (ring : LagRing) : Prop := {
  rk_depth : length (slots ring) = d;
  rk_head : head_ ring = Z.of_nat (length rts mod d);
  rk_lanes j slot : slots ring !! j = Some slot -> length (s_posX slot) = length (s_posY slot);
  rk_held k rt : rts !! k = Some rt -> (length rts < k + d + 1)%nat ->
    exists slot, slots ring !! (k mod d)%nat = Some slot /\ held slot (t0 + Z.of_nat k) rt;
  rk_empty j slot : slots ring !! j = Some slot -> (length rts <= j)%nat -> filled slot = false;
}.

Lemma ring_blit_get {A} (n : Z) (dst src : list A) i :
  0 <= i < n -> n <= Z.of_nat (length src) -> arr_get (blit n dst src) i = arr_get src i.
Proof.
  intros Hi Hn. unfold blit, arr_get. rewrite (proj2 (Z.leb_le 0 i)) by lia.
  rewrite lookup_app_l by (rewrite length_take; lia). apply lookup_take_lt. lia.
Qed.

Lemma length_ring_blit {A} (n : Z) (dst src src' dst' : list A) :
  0 <= n -> n <= Z.of_nat (length src) -> n <= Z.of_nat (length src') -> length dst = length dst' ->
  length (blit n dst src) = length (blit n dst' src').
Proof. intros H0 H1 H2 H3. unfold blit. rewrite !length_app, !length_drop, !length_take. lia. Qed.

Lemma capture_held ring rt tick slot :
  reached rt -> length (s_posX slot) = length (s_posY slot) -> arr_get (slots ring) (head_ ring) = Some slot ->
  exists slot', capture ring rt tick = MkRing (arr_set (slots ring) (head_ ring) slot') ((head_ ring + 1) mod arr_len (slots ring))
    /\ held slot' tick rt /\ length (s_posX slot') = length (s_posY slot').
Proof.
  intros Hr Hlen Hget. pose proof (reached_ok rt Hr) as Hok. unfold capture. rewrite Hget.
  destruct (ro_store _ _ Hok) as (n & Hn & Hc). unfold TransformStore.slotCount.
  match goal with |- context [if ?c then ?a else ?b] => destruct (if c then a else b) as [px py] eqn:E end.
  assert (Hpl : length px = length py).
  { destruct (arr_len (s_posX slot) <? _); injection E as <- <-; [by rewrite !length_replicate|done]. }
  unfold copyPositions. eexists. split; [done|].
  assert (Hx : length (l_posX (lanes (transforms rt))) = n) by apply Hn.
  assert (Hy : length (l_posY (lanes (transforms rt))) = n) by apply Hn.
  split; [|simpl; apply length_ring_blit; lia]. split; simpl; try done.
  intros id Hid. assert (Hlt : 0 <= entityIndex id < TransformStore.count (transforms rt)).
  { split.
    - apply (liveIds_abs rt id Hr) in Hid as [r Hid]. apply abs_Some in Hid as (i & Hi & ->); [|by apply reached_core].
      destruct (live_slot_valid _ _ _ (reached_core rt Hr) Hi) as [Hvi Hvg]. apply entityIndex_nonneg.
      apply (packHandle_bounds i _ Hvi Hvg).
    - apply (ro_slot _ _ Hok). by apply liveIds_abs. }
  unfold posX, posY. by rewrite !ring_blit_get by lia.
Qed.

Lemma mod_distinct (k n d : nat) : (0 < d)%nat -> (k < n)%nat -> (n < k + d)%nat -> (k mod d)%nat <> (n mod d)%nat.
Proof.
  intros Hd Hk Hn Heq. pose proof (Nat.div_mod k d ltac:(lia)). pose proof (Nat.div_mod n d ltac:(lia)).
  pose proof (Nat.mod_upper_bound n d ltac:(lia)). assert (k / d = n / d \/ k / d < n / d \/ n / d < k / d)%nat as [Hq|[Hq|Hq]] by lia.
  - rewrite Hq, Heq in *. lia.
  - assert (d * (k / d) + d <= d * (n / d))%nat by nia. lia.
  - assert (d * (n / d) + d <= d * (k / d))%nat by nia. lia.
Qed.

Lemma capture_ok d t0 rts ring rt :
  (0 < d)%nat -> ring_ok d t0 rts ring -> reached rt ->
  ring_ok d t0 (rts ++ [rt]) (capture ring rt (t0 + Z.of_nat (length rts))).
Proof.
  intros Hd [H1 H2 H3 H4 H5] Hr. set (n := length rts) in *.
  assert (Hh : (n mod d < length (slots ring))%nat) by (rewrite H1; apply Nat.mod_upper_bound; lia).
  destruct (lookup_lt_is_Some_2 _ _ Hh) as [slot Hs].
  destruct (capture_held ring rt (t0 + Z.of_nat n) slot Hr (H3 _ _ Hs)) as (slot' & Hc & Hheld & Hlen).
  { by rewrite H2, arr_get_nat. }
  rewrite Hc, H2, arr_set_nat. unfold arr_len. rewrite H1.
  split; cbn [slots head_]; rewrite ?length_app, ?length_insert; fold n; cbn [length].
  - done.
  - by rewrite !Nat2Z.inj_mod, Nat2Z.inj_add, Zplus_mod_idemp_l.
  - intros j s Hj. destruct (decide (j = n mod d)%nat) as [->|Hne].
    + rewrite list_lookup_insert_eq in Hj by done. by injection Hj as <-.
    + rewrite list_lookup_insert_ne in Hj by congruence. by eapply H3.
  - intros k rt' Hk Hlt. destruct (decide (k = n)) as [->|Hne].
    + rewrite list_lookup_middle in Hk by done. injection Hk as <-. exists slot'. split; [|done].
      by apply list_lookup_insert_eq.
    + assert (Hkn : (k < n)%nat) by (apply lookup_lt_Some in Hk; rewrite length_app in Hk; simpl in Hk; fold n in Hk; lia).
      rewrite lookup_app_l in Hk by done. destruct (H4 k rt' Hk) as (s & Hsk & Hheld'); [lia|]. exists s. split; [|done].
      rewrite list_lookup_insert_ne; [done|]. intros Heq. by apply (mod_distinct k n d Hd Hkn); [lia|].
  - intros j s Hj Hge. assert (Hjd : (j < d)%nat) by (apply lookup_lt_Some in Hj; rewrite length_insert in Hj; lia).
    rewrite list_lookup_insert_ne in Hj; [apply (H5 j); [done|lia]|]. rewrite Nat.mod_small by lia. lia.
Qed.

(** Capture one world after another, a tick apart. *)
Fixpoint captures (ring : LagRing) (t : Z) (rts : list Runtime) : LagRing :=
  match rts with [] => ring | rt :: rts => captures (capture ring rt t) (t + 1) rts end.

Lemma captures_ok d t0 before rts ring :
  (0 < d)%nat -> ring_ok d t0 before ring -> Forall reached rts ->
  ring_ok d t0 (before ++ rts) (captures ring (t0 + Z.of_nat (length before)) rts).
Proof.
  intros Hd. revert before ring. induction rts as [|rt rts IH]; intros before ring Hok Hall; cbn [captures].
  { by rewrite app_nil_r. }
  apply Forall_cons in Hall as [Hr Hall]. change (rt :: rts) with ([rt] ++ rts). rewrite app_assoc.
  replace (t0 + Z.of_nat (length before) + 1) with (t0 + Z.of_nat (length (before ++ [rt]))) by (rewrite length_app; simpl; lia).
  apply IH; [|done]. by apply capture_ok.
Qed.

Lemma new_ring_ok simRate t0 : ring_ok (ring_depth simRate) t0 [] (new_ring simRate).
Proof.
  assert (Hd : (0 < ring_depth simRate)%nat) by (unfold ring_depth; lia).
  split; cbn [slots head_ new_ring length].
  - by rewrite length_replicate.
  - by rewrite Nat.Div0.mod_0_l.
  - intros j s Hs. apply lookup_replicate in Hs as [-> _]. done.
  - done.
  - intros j s Hs _. apply lookup_replicate in Hs as [-> _]. done.
Qed.

(** ** The nearest capture *)

Lemma nearest_spec T l best :
  match nearest T l best with
  | None => best = None /\ forall s, s ∈ l -> filled s = false
  | Some s => (s ∈ l /\ filled s = true \/ best = Some s)
      /\ (forall s', s' ∈ l -> filled s' = true -> Z.abs (s_tick s - T) <= Z.abs (s_tick s' - T))
      /\ (forall b, best = Some b -> Z.abs (s_tick s - T) <= Z.abs (s_tick b - T))
  end.
Proof.
  revert best. induction l as [|x l IH]; intros best; cbn [nearest].
  { destruct best as [b|].
    - split; [by right|]. split; [intros s' H; by apply not_elem_of_nil in H|]. intros b' [= <-]. lia.
    - split; [done|]. intros s H. by apply not_elem_of_nil in H. }
  destruct (filled x) eqn:Ef; simpl negb; cbv iota.
  2:{ specialize (IH best). destruct (nearest T l best) as [s|].
      - destruct IH as (I1 & I2 & I3). split; [destruct I1 as [[? ?]|?]; [left; split; [by right|done]|by right]|].
        split; [|done]. intros s' [->|Hin]%elem_of_cons Hf; [congruence|auto].
      - destruct IH as [-> IH]. split; [done|]. intros s [->|Hin]%elem_of_cons; auto. }
  destruct (s_tick x =? T) eqn:Et.
  { apply Z.eqb_eq in Et. split; [left; split; [left|done]|]. rewrite Et, Z.sub_diag. split; intros; lia. }
  set (best' := match best with None => Some x | Some b => if Z.abs (s_tick x - T) <? Z.abs (s_tick b - T) then Some x else best end).
  assert (Hb : exists b', best' = Some b' /\ Z.abs (s_tick b' - T) <= Z.abs (s_tick x - T)
     /\ (forall b, best = Some b -> Z.abs (s_tick b' - T) <= Z.abs (s_tick b - T)) /\ (b' = x \/ best = Some b')).
  { unfold best'. destruct best as [b|]; [destruct (_ <? _) eqn:E; [apply Z.ltb_lt in E|apply Z.ltb_ge in E]|];
      eexists; split_and!; try done; try (intros b0 [= <-]); try lia; auto. }
  destruct Hb as (b' & Hb' & Hx & Hbest & Hor). rewrite Hb'. specialize (IH (Some b')).
  destruct (nearest T l (Some b')) as [s|]; [|by destruct IH].
  destruct IH as (I1 & I2 & I3). specialize (I3 b' eq_refl). split_and!.
  - destruct I1 as [[? ?]|[= ->]]; [left; split; [by right|done]|]. destruct Hor as [->|?]; [left; split; [left|done]|by right].
  - intros s' [->|Hin]%elem_of_cons Hf; [lia|auto].
  - intros b Hb0. specialize (Hbest b Hb0). lia.
Qed.

(** The capture of the tick asked for, or the nearest still held. *)
Lemma slotFor_held d t0 rts ring T :
  (0 < d)%nat -> ring_ok d t0 rts ring -> (0 < length rts)%nat ->
  let n := Z.of_nat (length rts) in
  let k := Z.to_nat (Z.min (Z.max (T - t0) (Z.max 0 (n - Z.of_nat d))) (n - 1)) in
  exists rt slot, rts !! k = Some rt /\ slotFor ring T = Some slot /\ held slot (t0 + Z.of_nat k) rt.
Proof.
  intros Hd [H1 H2 H3 H4 H5] Hn n k.
  assert (Hk : (k < length rts)%nat) by lia. destruct (lookup_lt_is_Some_2 rts k Hk) as [rt Hrt].
  destruct (H4 k rt Hrt) as (slot & Hs & Hheld); [lia|].
  assert (Hin : forall s, s ∈ slots ring -> filled s = true ->
    exists k' rt', rts !! k' = Some rt' /\ (length rts < k' + d + 1)%nat /\ held s (t0 + Z.of_nat k') rt').
  { intros s Hin Hf. apply list_elem_of_lookup in Hin as [j Hj]. assert (Hjd : (j < d)%nat) by (apply lookup_lt_Some in Hj; lia).
    destruct (decide (length rts <= j)%nat) as [Hge|Hlt]; [by rewrite (H5 j s Hj Hge) in Hf|].
    set (k' := (j + d * ((length rts - 1 - j) / d))%nat).
    pose proof (Nat.div_mod (length rts - 1 - j) d ltac:(lia)) as Hdm. pose proof (Nat.mod_upper_bound (length rts - 1 - j) d ltac:(lia)) as Hmb.
    assert (Hk' : (k' < length rts)%nat) by lia. destruct (lookup_lt_is_Some_2 rts k' Hk') as [rt' Hrt'].
    destruct (H4 k' rt' Hrt') as (s' & Hs' & Hh'); [lia|].
    assert (Hmod : (k' mod d = j)%nat).
    { unfold k'. rewrite (Nat.mul_comm d), Nat.Div0.mod_add. by apply Nat.mod_small. }
    rewrite Hmod, Hj in Hs'. injection Hs' as ->. exists k', rt'. split_and!; [done|lia|done]. }
  exists rt. pose proof (nearest_spec T (slots ring) None) as Hnear. unfold slotFor. destruct (nearest T (slots ring) None) as [s|].
  - exists s. split; [done|]. split; [done|]. destruct Hnear as ([[Hsin Hsf]|?] & Hmin & _); [|done].
    destruct (Hin s Hsin Hsf) as (k' & rt' & Hrt' & Hlt' & Hheld').
    specialize (Hmin slot ltac:(by eapply list_elem_of_lookup_2) (hd_filled _ _ _ Hheld)).
    rewrite (hd_tick _ _ _ Hheld), (hd_tick _ _ _ Hheld') in Hmin.
    assert (Hkn : (k' < length rts)%nat) by (by apply lookup_lt_Some in Hrt').
    assert (k' = k) as ->; [unfold k in *; lia|]. rewrite Hrt in Hrt'. by injection Hrt' as ->.
  - destruct Hnear as [_ Hnone]. specialize (Hnone slot ltac:(by eapply list_elem_of_lookup_2)).
    by rewrite (hd_filled _ _ _ Hheld) in Hnone.
Qed.

(** ** Properties *)

(** The contact pass and [touching] agree. In any world a history leads to, the
    tag-free [touching] of an entity with a collider is exactly those the pair walk
    pairs it with, on either side. *)
Theorem touching_agrees_with_pairs (rt : Runtime) (colliders : Colliders) (b : Bounds) (id other : EntityId) :
  reached rt -> id ∈ EntityTable.liveIds (entities rt) -> colliders id = Some b ->
  other ∈ touching rt colliders None id None false
  <-> (id, other) ∈ pairs rt colliders \/ (other, id) ∈ pairs rt colliders.
Proof.
  intros Hr Hid Hc. unfold touching. rewrite Hc. rewrite list_elem_of_filter. unfold overlapping. rewrite list_elem_of_filter.
  cbn [v_liveIds liveTransformView]. rewrite !pairs_spec by done. rewrite (meet_comm rt colliders other id).
  assert (Hpar : forall x, x ∈ EntityTable.liveIds (entities rt) -> is_Some (parentOf rt x)).
  { intros x Hx. apply (liveIds_abs rt x Hr) in Hx. rewrite abs_lookup in Hx by (by apply reached_core). destruct Hx as [r Hx].
    unfold parentOf. change (SlotTable.record (entities rt) x) with (EntityTable.record (entities rt) x) in Hx. rewrite Hx. by eexists. }
  destruct (Hpar id Hid) as [p Hp]. split.
  - intros ([Hkin _] & (Hne & Hov) & Hin). destruct (Hpar other Hin) as [q Hq].
    assert (Hm : meet rt colliders id other).
    { unfold meet, touch, bodyOf. cbn [b_id b_x b_y b_w b_h b_parent]. rewrite Hp, Hq. simpl nullish.
      unfold isSelfOrKin in Hkin. rewrite Hp, Hq in Hkin. cbn [v_posX v_posY halfWidth halfHeight liveTransformView] in Hov.
      apply andb_true_iff in Hov as [H1 H2]. rewrite H1, H2.
      repeat case_bool_decide; simplify_eq; try done. naive_solver. }
    apply list_elem_of_lookup in Hid as [i Hi], Hin as [j Hj].
    destruct (decide (i < j)%nat); [left; split; [by exists i, j|done]|right; split; [|done]].
    exists j, i. split; [|done]. assert (i <> j) by (intros ->; congruence). lia.
  - intros [[(i & j & Hij & Hi & Hj) Hm]|[(j & i & Hij & Hj & Hi) Hm]].
    all: assert (Hne : other <> id) by (intros ->; pose proof (NoDup_lookup _ _ _ _ (NoDup_liveIds rt Hr) Hi Hj); lia).
    all: apply list_elem_of_lookup_2 in Hj; destruct (Hpar other Hj) as [q Hq].
    all: unfold meet, touch, bodyOf in Hm; cbn [b_id b_x b_y b_w b_h b_parent] in Hm; rewrite Hp, Hq in Hm; simpl nullish in Hm.
    all: case_bool_decide as Hkin; [done|]; destruct (fle _ _) eqn:E1 in Hm; [simpl negb in Hm; cbv iota in Hm|done].
    all: destruct (fle _ _) eqn:E2 in Hm; [|done]; (split; [split; [|done]|]).
    1, 3: unfold isSelfOrKin; rewrite Hp, Hq; repeat case_bool_decide; simplify_eq; try done; naive_solver.
    all: split; [|done]; split; [done|]; cbn [v_posX v_posY halfWidth halfHeight liveTransformView]; by rewrite E1, E2.
Qed.

(** Two entities, the first with a box a unit wide and the second a point on its edge. *)
Lemma touching_agrees_with_pairs_witness :
  let a := packHandle 0 1 in let b := packHandle 1 1 in
  let box := MkBounds f0 (of_Z 1) (of_Z 1) f0 in
  let colliders id := if decide (id = a) then Some box else None in
  let rt := (foldl (run_step (fun _ _ => [])) ([], new_runtime)
    [WCall None (ESpawn [] f0 f0 []); WCall None (ESpawn [] f0 f0 [])]).2 in
  pairs rt colliders = [(a, b)] /\ b ∈ touching rt colliders None a None false.
Proof.
  intros a b box colliders rt. assert (Hp : pairs rt colliders = [(a, b)]) by (vm_compute; reflexivity).
  split; [exact Hp|]. apply (touching_agrees_with_pairs rt colliders box a b).
  - by eexists _, _.
  - apply (bool_decide_unpack _). vm_compute. exact I.
  - unfold colliders. by rewrite decide_True.
  - rewrite Hp. left. left.
Defined.

(** A contact is entered once. Over any ticks, the pairs a tick reports are, in
    order, those overlapping on it that did not overlap on the tick before. *)
Theorem contacts_enter_once (before : list (Runtime * Colliders)) (rt : Runtime) (colliders : Colliders) :
  (entered (foldl (fun s t => (entered s t.1 t.2).1) [] before) rt colliders).2
  = filter (fun p => p ∉ match last before with Some t => pairs t.1 t.2 | None => [] end) (pairs rt colliders).
Proof.
  rewrite entered_spec. cbn [snd]. apply list_filter_iff. intros p. apply not_iff_compat.
  destruct before as [|t before _] using rev_ind; [by rewrite !elem_of_nil|].
  rewrite foldl_app, last_snoc. cbn [foldl]. rewrite entered_spec. cbn [fst]. rewrite elem_of_foldl_sadd, elem_of_nil, list_elem_of_fmap.
  split; [intros [[]|(q & Hq & Hin)]; by apply pairKey_inj in Hq as ->|]. intros H. right. by exists p.
Qed.

(** A region is entered and left at its edges. Over any ticks, a tick's crossings
    are, region by region in the order defined, an entry for each live entity inside
    now and not on the tick before, then an exit for each inside then and not now. *)
Theorem region_crossings_are_edges (defs : list (jstr * Bounds)) (before : list Sight) (now : Sight) :
  Forall (fun t => NoDup (st_ids t)) (before ++ [now]) ->
  let r := foldl (fun r d => define r d.1 d.2) no_regions defs in
  let r := foldl (fun r t => (crossings r (st_ids t) (st_x t) (st_y t)).1) r before in
  (crossings r (st_ids now) (st_x now) (st_y now)).2 = regions r ≫= edges (default unseen (last before)) now.
Proof.
  intros Hall. cbv zeta. apply Forall_app in Hall as [Hb Hn]. apply Forall_cons in Hn as [Hn _].
  assert (H0 : sees (foldl (fun r d => define r d.1 d.2) no_regions defs) unseen).
  { assert (Hg : forall r, sees r unseen -> sees (foldl (fun r d => define r d.1 d.2) r defs) unseen).
    { induction defs as [|[n b] defs IH]; intros r Hr; [done|]. apply IH. by apply define_sees. }
    apply Hg. split; [constructor|]. intros n b Hin. by apply not_elem_of_nil in Hin. }
  assert (H1 : sees (foldl (fun r t => (crossings r (st_ids t) (st_x t) (st_y t)).1)
      (foldl (fun r d => define r d.1 d.2) no_regions defs) before) (default unseen (last before))).
  { revert H0. generalize (foldl (fun r d => define r d.1 d.2) no_regions defs) as r. intros r H0.
    induction before as [|t before IH] using rev_ind; [done|]. rewrite foldl_app, last_snoc. cbn [foldl].
    apply Forall_app in Hb as [Hb Ht]. apply Forall_cons in Ht as [Ht _].
    pose proof (crossings_spec _ _ t (IH Hb) Ht) as H. destruct (crossings _ _ _ _) as [r' out]. apply H. }
  pose proof (crossings_spec _ _ now H1 Hn) as H. destruct (crossings _ _ _ _) as [r' out]. by destruct H as [-> _].
Qed.

(** One entity walks into a room and out again; the room is drawn with its edges
    swapped. *)
Lemma region_crossings_are_edges_witness :
  let room := (js "room", MkBounds (of_Z 2) f0 f0 (of_Z 2)) in
  let at_ x := MkSight [1] (fun _ => of_Z x) (fun _ => of_Z 1) in
  let r := foldl (fun r t => (crossings r (st_ids t) (st_x t) (st_y t)).1) (define no_regions room.1 room.2) [at_ 5; at_ 1] in
  (crossings r (st_ids (at_ 3)) (st_x (at_ 3)) (st_y (at_ 3))).2 = [MkCrossing (js "room") 1 false].
Proof.
  intros room at_ r. pose proof (region_crossings_are_edges [room] [at_ 5; at_ 1] (at_ 3)) as H. cbv zeta in H. cbn [foldl] in H.
  unfold r. cbn [foldl]. rewrite H; [vm_compute; reflexivity|]. repeat constructor; by rewrite not_elem_of_nil || apply not_elem_of_nil.
Defined.

(** A rewound query sees that tick. After capturing the worlds of consecutive ticks,
    a query at any tick reads the world captured for it, or for the nearest tick still
    held: the same live entities at the positions they had, whatever became of them
    since. *)
Theorem rewind_reads_that_tick (simRate t0 T : Z) (rts : list Runtime) (w h : EntityId -> num) :
  rts <> [] -> Forall reached rts ->
  let n := Z.of_nat (length rts) in
  let d := Z.of_nat (ring_depth simRate) in
  let k := Z.to_nat (Z.min (Z.max (T - t0) (Z.max 0 (n - d))) (n - 1)) in
  exists rt v, rts !! k = Some rt
    /\ broadphaseAt (captures (new_ring simRate) t0 rts) T w h = Some v
    /\ v_liveIds v = EntityTable.liveIds (entities rt)
    /\ forall id, id ∈ EntityTable.liveIds (entities rt) ->
         v_posX v id = posX (transforms rt) id /\ v_posY v id = posY (transforms rt) id.
Proof.
  intros Hne Hall n d k. assert (Hd : (0 < ring_depth simRate)%nat) by (unfold ring_depth; lia).
  pose proof (captures_ok _ t0 [] rts _ Hd (new_ring_ok simRate t0) Hall) as Hok. rewrite Z.add_0_r in Hok. simpl app in Hok.
  assert (Hn : (0 < length rts)%nat) by (destruct rts; [done|simpl; lia]).
  destruct (slotFor_held _ t0 rts _ T Hd Hok Hn) as (rt & slot & Hrt & Hs & Hh).
  exists rt, (bufferView slot w h). split; [done|]. unfold broadphaseAt. rewrite Hs. split; [done|].
  split; [apply Hh|]. intros id Hid. apply (hd_pos _ _ _ Hh id Hid).
Qed.

(** An entity at 0 on tick 7, moved to 5 on tick 8 and destroyed on tick 9: a query at
    tick 7 still finds it at 0. *)
Lemma rewind_reads_that_tick_witness :
  let a := packHandle 0 1 in
  let world ops := (foldl (run_step (fun _ _ => [])) ([], new_runtime) ops).2 in
  let rts := [world [WCall None (ESpawn [] f0 f0 [])];
              world [WCall None (ESpawn [] f0 f0 []); WCall None (ESetPosition a (of_Z 5) f0)];
              world [WCall None (ESpawn [] f0 f0 []); WCall None (EDestroy a); WDrain]] in
  exists v, broadphaseAt (captures (new_ring 60) 7 rts) 7 (fun _ => f0) (fun _ => f0) = Some v
    /\ v_liveIds v = [a] /\ v_posX v a = f0.
Proof.
  intros a world rts.
  destruct (rewind_reads_that_tick 60 7 7 rts (fun _ => f0) (fun _ => f0)) as (rt & v & Hrt & Hv & Hids & Hpos).
  - done.
  - repeat constructor; by eexists _, _.
  - exists v. split; [exact Hv|]. injection Hrt as <-.
    assert (Hl : EntityTable.liveIds (entities (world [WCall None (ESpawn [] f0 f0 [])])) = [a]) by (vm_compute; reflexivity).
    split; [by rewrite Hids|]. destruct (Hpos a) as [-> _]; [rewrite Hl; left|]. vm_compute. reflexivity.
Defined.
