(* ===== verification/ProjectFormat.v ===== *)
(** * Reading a project file ([packages/project/src/validate.ts, limits.ts, manifest.ts])

    The readers a project file goes through member by member, each refusing with the
    path of the member at fault, the walk over a script's configured props, and the
    types of [manifest.ts] as data, with what it is for a value to have one. *)

From S2P Require Import Prelude JsMap JsNum Json Hosts.

Local Open Scope Z_scope.

(** ** Refusals *)

(** A message is its text with the numbers it prints left as numbers. *)
Inductive piece := Text (s : jstr) | Printed (x : num).
Abbreviation message := (list piece).
Abbreviation text s := [Text (js s)].

Record ProjectFormatError := MkError { err_path : jstr; err_message : message }.

Definition new_error (path : jstr) (m : message) : ProjectFormatError :=
  MkError path (if bool_decide (path = []) then m else Text (path ++ js ": ") :: m).

Abbreviation reading A := (outcome ProjectFormatError A).

Definition fail {A} (path : jstr) (m : message) : reading A := Throw (new_error path m).

(** [`${path}.${name}`] and [`${path}[${index}]`]. *)
Definition dot (path : jstr) (name : string) : jstr := path ++ js "." ++ js name.
Definition at_index (path : jstr) (i : nat) : jstr := path ++ js "[" ++ num_str (Z.of_nat i) ++ js "]".
Abbreviation quoted s := (Text ([34] ++ s ++ [34])).

Definition PROJECT_FORMAT_VERSION : Z := 1.
Definition MAX_TEMPLATE_DEPTH : nat := 8.
Definition MAX_PROP_DEPTH : nat := 32.

(** Object keys a [props] map may not carry. *)
Definition PROP_RESERVED_KEYS : list jstr := [js "__proto__"; js "constructor"; js "prototype"].

(** ** One member *)

(** A member that is missing is [undefined]. *)
Definition describe (value : option json) : string :=
  match value with
  | None => "undefined"
  | Some JNull => "null"
  | Some (JArr _) => "an array"
  | Some (JObj _) => "object"
  | Some (JBool _) => "boolean"
  | Some (JNum _) => "number"
  | Some (JStr _) => "string"
  end.

Definition expected (what : string) (value : option json) : message :=
  [Text (js "expected " ++ js what ++ js ", received " ++ js (describe value))].

Definition readObject (value : option json) (path : jstr) : reading (jsmap jstr json) :=
  match value with Some (JObj f) => Ok f | _ => fail path (expected "an object" value) end.

Definition readArray (value : option json) (path : jstr) : reading (list json) :=
  match value with Some (JArr l) => Ok l | _ => fail path (expected "an array" value) end.

Definition readString (value : option json) (path : jstr) : reading jstr :=
  match value with Some (JStr s) => Ok s | _ => fail path (expected "a string" value) end.

Definition readKey (value : option json) (path : jstr) : reading jstr :=
  key ← readString value path;
  if bool_decide (key = []) then fail path (text "may not be empty") else Ok key.

Definition readNumber (value : option json) (path : jstr) : reading num :=
  match value with
  | Some (JNum x) => if isFinite x then Ok x else fail path (expected "a finite number" value)
  | _ => fail path (expected "a finite number" value)
  end.

Definition readRate (value : option json) (path : jstr) : reading num :=
  rate ← readNumber value path;
  if negb (isInteger rate) || flt rate (of_Z 1)
  then fail path [Text (js "expected a positive integer, received "); Printed rate]
  else Ok rate.

Definition readBoolean (value : option json) (path : jstr) : reading bool :=
  match value with Some (JBool b) => Ok b | _ => fail path (expected "a boolean" value) end.

(** [record[name]] and the loop [for (const [index, entry] of array.entries())]. *)
Definition member (f : jsmap jstr json) (name : string) : option json := mget f (js name).

Fixpoint each_from {S} (body : S -> nat -> json -> reading S) (i : nat) (s : S) (l : list json) : reading S :=
  match l with
  | [] => Ok s
  | e :: l' => s' ← body s i e; each_from body (Datatypes.S i) s' l'
  end.
Definition each {S} (body : S -> nat -> json -> reading S) (s : S) (l : list json) : reading S := each_from body 0 s l.

(** The loops over the keys of a table: each member in it is read if it is there. *)
Fixpoint readNumbers (f : jsmap jstr json) (fields : list string) (path : jstr) : reading unit :=
  match fields with
  | [] => Ok tt
  | k :: ks =>
      _ ← match member f k with None => Ok tt | Some _ => (fun _ => tt) <$> readNumber (member f k) (dot path k) end;
      readNumbers f ks path
  end.

(** ** Configured props *)

Fixpoint checkJsonValue (value : json) (path : jstr) (depth : nat) : reading unit :=
  if (MAX_PROP_DEPTH <? depth)%nat then fail path [Text (js "nested deeper than 32")]
  else match value with
  | JBool _ | JStr _ | JNull => Ok tt
  | JNum x => if isFinite x then Ok tt else fail path (text "a non-finite number has no JSON spelling")
  | JArr l =>
      (fix items (i : nat) (l : list json) : reading unit :=
         match l with
         | [] => Ok tt
         | x :: l' => _ ← checkJsonValue x (at_index path i) (S depth); items (S i) l'
         end) 0%nat l
  | JObj f =>
      (fix members (f : jsmap jstr json) : reading unit :=
         match f with
         | [] => Ok tt
         | (k, x) :: f' =>
             let at_ := path ++ js "." ++ k in
             if bool_decide (k ∈ PROP_RESERVED_KEYS) then fail at_ (text "reserved key")
             else _ ← checkJsonValue x at_ (S depth); members f'
         end) f
  end.

Definition readProps (value : option json) (path : jstr) : reading unit :=
  f ← readObject value path; checkJsonValue (JObj f) path 0.

(** ** Types as data

    [TKey] is a name, [TFinite] a number and [TRate] a rate as the file may hold them;
    a field is its name, whether it must be there, and its type. *)

Unset Elimination Schemes.
Inductive ty :=
  | TKey | TFinite | TRate | TBool | TNull | TProps
  | TEnum (names : list jstr)
  | TOr (a b : ty)
  | TArray (a : ty)
  | TObject (fields : list (string * (bool * ty))).
Set Elimination Schemes.

(** How deep a value nests, itself counted. *)
Fixpoint jheight (j : json) : nat :=
  match j with
  | JArr l => S ((fix top (l : list json) := match l with [] => 0%nat | x :: l' => Nat.max (jheight x) (top l') end) l)
  | JObj f => S ((fix top (f : jsmap jstr json) := match f with [] => 0%nat | (_, x) :: f' => Nat.max (jheight x) (top f') end) f)
  | _ => 1%nat
  end.

(** Nothing in it that a saved file could not hold. *)
Fixpoint storable (j : json) : Prop :=
  match j with
  | JNum x => isFinite x = true
  | JArr l => (fix all (l : list json) := match l with [] => True | x :: l' => storable x /\ all l' end) l
  | JObj f =>
      (fix all (f : jsmap jstr json) := match f with [] => True | (k, x) :: f' => ((k ∉ PROP_RESERVED_KEYS) /\ storable x) /\ all f' end) f
  | _ => True
  end.

Fixpoint has_type (t : ty) (j : json) {struct t} : Prop :=
  match t with
  | TKey => exists s, j = JStr s /\ s <> []
  | TFinite => exists x, j = JNum x /\ isFinite x = true
  | TRate => exists x, j = JNum x /\ isFinite x = true /\ isInteger x = true /\ flt x (of_Z 1) = false
  | TBool => exists b, j = JBool b
  | TNull => j = JNull
  | TProps => exists f, j = JObj f /\ (jheight j <= S MAX_PROP_DEPTH)%nat /\ storable j
  | TEnum names => exists s, j = JStr s /\ s ∈ names
  | TOr a b => has_type a j \/ has_type b j
  | TArray a => exists l, j = JArr l /\ Forall (has_type a) l
  | TObject fields =>
      exists f, j = JObj f
        /\ (fix all (fields : list (string * (bool * ty))) :=
              match fields with
              | [] => True
              | (k, (required, a)) :: rest =>
                  match member f k with Some x => has_type a x | None => required = false end /\ all rest
              end) fields
  end.

(** A member that must have a type, and one that must if it is there. *)
Definition has (t : ty) (o : option json) : Prop := match o with Some j => has_type t j | None => False end.
Definition may (t : ty) (o : option json) : Prop := match o with Some j => has_type t j | None => True end.

Definition req (k : string) (t : ty) : string * (bool * ty) := (k, (true, t)).
Definition opt (k : string) (t : ty) : string * (bool * ty) := (k, (false, t)).

(** ** What a reader accepts *)

Lemma readObject_Ok o p f : readObject o p = Ok f <-> o = Some (JObj f).
Proof. destruct o as [[]|]; simpl; naive_solver. Qed.

Lemma readArray_Ok o p l : readArray o p = Ok l <-> o = Some (JArr l).
Proof. destruct o as [[]|]; simpl; naive_solver. Qed.

Lemma readString_Ok o p s : readString o p = Ok s <-> o = Some (JStr s).
Proof. destruct o as [[]|]; simpl; naive_solver. Qed.

Lemma readKey_Ok o p s : readKey o p = Ok s <-> o = Some (JStr s) /\ s <> [].
Proof.
  unfold readKey. rewrite outcome_bind_Ok. setoid_rewrite readString_Ok. split.
  - intros (k & -> & H). case_bool_decide; [done|]. by injection H as <-.
  - intros [-> H]. exists s. by rewrite bool_decide_false.
Qed.

Lemma readNumber_Ok o p x : readNumber o p = Ok x <-> o = Some (JNum x) /\ isFinite x = true.
Proof. destruct o as [[ | |y| | | ]|]; simpl; try (split; [done|by intros [? _]]).
  destruct (isFinite y) eqn:E; split; [intros [= <-]; done|intros [[= ->] _]; done|done|intros [[= ->] H]; congruence].
Qed.

Lemma readRate_Ok o p x :
  readRate o p = Ok x <-> o = Some (JNum x) /\ isFinite x = true /\ isInteger x = true /\ flt x (of_Z 1) = false.
Proof.
  unfold readRate. rewrite outcome_bind_Ok. setoid_rewrite readNumber_Ok. split.
  - intros (y & [-> Hf] & H). destruct (negb _ || _) eqn:E; [done|]. injection H as <-. by bool_facts.
  - intros (-> & Hf & Hi & Hl). exists x. by rewrite Hi, Hl.
Qed.

Lemma readBoolean_Ok o p b : readBoolean o p = Ok b <-> o = Some (JBool b).
Proof. destruct o as [[]|]; simpl; naive_solver. Qed.

(** The same, as types. *)
Lemma accepts_key o p : (exists s, readKey o p = Ok s) <-> has TKey o.
Proof. setoid_rewrite readKey_Ok. destruct o; simpl; naive_solver. Qed.
Lemma accepts_number o p : (exists x, readNumber o p = Ok x) <-> has TFinite o.
Proof. setoid_rewrite readNumber_Ok. destruct o; simpl; naive_solver. Qed.
Lemma accepts_rate o p : (exists x, readRate o p = Ok x) <-> has TRate o.
Proof. setoid_rewrite readRate_Ok. destruct o; simpl; naive_solver. Qed.
Lemma accepts_boolean o p : (exists b, readBoolean o p = Ok b) <-> has TBool o.
Proof. setoid_rewrite readBoolean_Ok. destruct o; simpl; naive_solver. Qed.

Lemma outcome_fmap_Ok {E A B} (f : A -> B) (c : outcome E A) b : f <$> c = Ok b <-> exists a, c = Ok a /\ f a = b.
Proof. destruct c; simpl; naive_solver. Qed.

(** Reading a member only to check it. *)
Lemma then_Ok {A B} (c : reading A) (k : reading B) b : (_ ← c; k) = Ok b <-> (exists a, c = Ok a) /\ k = Ok b.
Proof. rewrite outcome_bind_Ok. naive_solver. Qed.

Lemma readNumbers_Ok f ks p : readNumbers f ks p = Ok tt <-> Forall (fun k => may TFinite (member f k)) ks.
Proof.
  induction ks as [|k ks IH]; cbn [readNumbers]; [split; [constructor|done]|]. rewrite then_Ok, IH, Forall_cons.
  destruct (member f k) eqn:E; cbn [may]; [|naive_solver].
  setoid_rewrite outcome_fmap_Ok. setoid_rewrite readNumber_Ok. split.
  - intros [([] & x & [Hj Hf] & _) H]. split; [|done]. exists x. by injection Hj as ->.
  - intros [(x & -> & Hf) H]. split; [|done]. by exists tt, x.
Qed.

(** A loop that appends what it reads: every entry must be good for what came before. *)
Lemma each_append {A} (body : list A -> nat -> json -> reading (list A)) (row : json -> A) (good : list A -> json -> Prop) l acc acc' :
  (forall acc i e acc', body acc i e = Ok acc' <-> good acc e /\ acc' = acc ++ [row e]) ->
  each body acc l = Ok acc' <-> (forall i e, l !! i = Some e -> good (acc ++ (row <$> take i l)) e) /\ acc' = acc ++ (row <$> l).
Proof.
  intros Hb. unfold each. generalize 0%nat as n. revert acc acc'.
  induction l as [|e l IH]; intros acc acc' n; cbn [each_from].
  - csimpl. rewrite app_nil_r. split; [|naive_solver]. intros [= <-]. split; [|done]. intros i e Hi. by rewrite lookup_nil in Hi.
  - rewrite outcome_bind_Ok. setoid_rewrite Hb. split.
    + intros (a & [Hg ->] & H). apply IH in H as [Hall ->]. csimpl. rewrite <- app_assoc. split; [|done].
      intros [|i] e' He; csimpl in *; [injection He as <-; by rewrite app_nil_r|].
      specialize (Hall i e' He). by rewrite <- app_assoc in Hall.
    + intros [Hall ->]. exists (acc ++ [row e]). split; [split; [|done]|].
      * specialize (Hall 0%nat e eq_refl). csimpl in Hall. by rewrite app_nil_r in Hall.
      * apply IH. csimpl. rewrite <- app_assoc. split; [|done]. intros i e' He. specialize (Hall (S i) e' He). csimpl in Hall.
        by rewrite <- app_assoc.
Qed.

(** A loop that changes nothing. *)
Lemma each_check (body : unit -> nat -> json -> reading unit) (good : json -> Prop) l :
  (forall i e, body tt i e = Ok tt <-> good e) -> each body tt l = Ok tt <-> Forall good l.
Proof.
  intros Hb. unfold each. generalize 0%nat as n. induction l as [|e l IH]; intros n; cbn [each_from]; [split; [constructor|done]|].
  rewrite outcome_bind_Ok, Forall_cons. split.
  - intros ([] & He & H). split; [by eapply Hb|by eapply IH].
  - intros [He H]. exists tt. split; [by apply Hb|by apply IH].
Qed.

Lemma fresh_NoDup {A} (f : json -> A) l :
  (forall i e, l !! i = Some e -> f e ∉ (f <$> take i l)) <-> NoDup (f <$> l).
Proof.
  induction l as [|x l IH] using rev_ind; csimpl; [split; [constructor|]; intros _ i e Hi; by rewrite lookup_nil in Hi|].
  rewrite fmap_app. csimpl. rewrite NoDup_snoc, <- IH. split.
  - intros H. split.
    + intros i e He. specialize (H i e). rewrite lookup_app_l in H by (by eapply lookup_lt_Some). specialize (H He).
      rewrite take_app_le in H by (apply lookup_lt_Some in He; lia). done.
    + specialize (H (length l) x). rewrite lookup_app_r, Nat.sub_diag in H by done. specialize (H eq_refl).
      by rewrite take_app_length in H.
  - intros [H Hx] i e He. apply lookup_app_Some in He as [He|[Hi He]].
    + rewrite take_app_le by (apply lookup_lt_Some in He; lia). by apply H.
    + apply list_lookup_singleton_Some in He as [Hi0 <-]. assert (i = length l) as -> by lia. by rewrite take_app_length.
Qed.

(** ** What the props walk accepts *)

Lemma jheight_pos j : (0 < jheight j)%nat.
Proof. destruct j; simpl; lia. Qed.

Lemma checkJsonValue_Ok j p d :
  checkJsonValue j p d = Ok tt <-> (d + jheight j <= S MAX_PROP_DEPTH)%nat /\ storable j.
Proof.
  revert p d. induction j as [ |b|x|s|l IH|f IH] using json_ind; intros p d; pose proof (jheight_pos) as Hp.
  1-4: cbn [checkJsonValue jheight storable]; destruct (MAX_PROP_DEPTH <? d)%nat eqn:E; [apply Nat.ltb_lt in E|apply Nat.ltb_ge in E];
    try (split; [done|intros [? _]; lia]); try (split; [split; [lia|done]|done]).
  - destruct (isFinite x); split; [split; [lia|done]|done|done|by intros [_ ?]].
  - cbn [checkJsonValue jheight storable]. destruct (MAX_PROP_DEPTH <? d)%nat eqn:E; [apply Nat.ltb_lt in E|apply Nat.ltb_ge in E].
    { split; [done|]. intros [H _]. lia. }
    match goal with |- ?F 0%nat ?l = ?r <-> ?P => cut (forall i, F i l = r <-> P); [intros H; apply H|] end.
    induction IH as [|x l Hx _ IHl]; intros i; cbn [Nat.max]; [split; [split; [lia|done]|done]|].
    rewrite outcome_bind_Ok. split.
    + intros ([] & H & Hr). apply Hx in H as [Hh ?]. apply IHl in Hr as [Hh' ?]. split; [lia|by split].
    + intros [Hh [Hs Hr]]. exists tt. split; [apply Hx; split; [lia|done]|]. apply IHl. split; [lia|done].
  - cbn [checkJsonValue jheight storable]. destruct (MAX_PROP_DEPTH <? d)%nat eqn:E; [apply Nat.ltb_lt in E|apply Nat.ltb_ge in E].
    { split; [done|]. intros [H _]. lia. }
    induction IH as [|[k x] f Hx _ IHf]; cbn [Nat.max]; [split; [split; [lia|done]|done]|]. cbn [snd] in Hx.
    case_bool_decide as Hk; [split; [done|tauto]|]. rewrite outcome_bind_Ok. split.
    + intros ([] & H & Hr). apply Hx in H as [Hh ?]. apply IHf in Hr as [Hh' ?]. split; [lia|by repeat split].
    + intros [Hh [[_ Hs] Hr]]. exists tt. split; [apply Hx; split; [lia|done]|]. apply IHf. split; [lia|done].
Qed.

Lemma readProps_Ok o p : readProps o p = Ok tt <-> has TProps o.
Proof.
  unfold readProps. rewrite outcome_bind_Ok. setoid_rewrite readObject_Ok. setoid_rewrite checkJsonValue_Ok.
  destruct o; simpl; naive_solver.
Qed.
