(* ===== verification/TemplateGraph.v ===== *)
(** * The graph of templates ([closeTemplates] of [packages/project/src/validate.ts])

    A template's children name templates, so a subtree is a walk of a reference graph. A
    file is refused when a walk from some template has more than [MAX_TEMPLATE_DEPTH]
    nodes, which a cycle always has. Each height is measured once and kept. *)

From S2P Require Import Prelude JsMap JsNum Json ProjectFormat.

Local Open Scope nat_scope.

(** ** The walk *)

(** The two collections the walk mutates: the templates being measured, and the heights
    already known. *)
Record Closing := MkClosing { open : jsset jstr; heights : jsmap jstr nat }.

Definition no_heights : Closing := MkClosing [] [].

Definition contains_itself (id : jstr) : message := [Text (js "template "); quoted id; Text (js " contains itself")].
Definition nests_deeper (root : jstr) : message := [Text (js "template "); quoted root; Text (js " nests deeper than 8")].

(** The loop over one template's children, with its running maximum. *)
Fixpoint tallest_of (measure : jstr -> Closing -> reading (nat * Closing)) (tallest : nat) (ids : list jstr) (st : Closing) :
    reading (nat * Closing) :=
  match ids with
  | [] => Ok (tallest, st)
  | child :: rest =>
      '(height, st) ← measure child st;
      tallest_of measure (if tallest <? height then height else tallest) rest st
  end.

(** [fuel] bounds the nesting of the calls. Running out of it is an error of its own,
    which [closeTemplates] never reports. *)
Fixpoint measure (fuel : nat) (children : jsmap jstr (list jstr)) (path : jstr) (root id : jstr) (st : Closing) :
    reading (nat * Closing) :=
  if shas (open st) id then fail path (contains_itself id)
  else
    let known := mget (heights st) id in
    if MAX_TEMPLATE_DEPTH <? length (open st) + nullish known 1 then fail path (nests_deeper root)
    else match known with
    | Some h => Ok (h, st)
    | None =>
        match fuel with
        | O => Throw (MkError path (text "out of fuel"))
        | S fuel =>
            let st := MkClosing (sadd (open st) id) (heights st) in
            '(tallest, st) ← tallest_of (measure fuel children path root) 0 (nullish (mget children id) []) st;
            Ok (tallest + 1, MkClosing (sdel (open st) id) (mset (heights st) id (tallest + 1)))
        end
    end.

Fixpoint close_each (children : jsmap jstr (list jstr)) (path : jstr) (ids : list jstr) (st : Closing) : reading unit :=
  match ids with
  | [] => Ok tt
  | id :: rest => '(_, st) ← measure MAX_TEMPLATE_DEPTH children path id id st; close_each children path rest st
  end.

Definition closeTemplates (children : jsmap jstr (list jstr)) (path : jstr) : reading unit :=
  close_each children path (mkeys children) no_heights.

(** ** Walks of the graph *)

Definition kids (children : jsmap jstr (list jstr)) (id : jstr) : list jstr := nullish (mget children id) [].

Section Graph.
Context (children : jsmap jstr (list jstr)).

(** [steps a n b]: [b] hangs [n] levels beneath [a]. *)
Inductive steps : jstr -> nat -> jstr -> Prop :=
  | steps_here a : steps a 0 a
  | steps_down a b c n : b ∈ kids children a -> steps b n c -> steps a (S n) c.

(** A walk from [a] goes down [n] levels. *)
Definition nests (a : jstr) (n : nat) : Prop := exists b, steps a n b.

Lemma steps_app a n b m c : steps a n b -> steps b m c -> steps a (n + m) c.
Proof. induction 1; intros H'; [done|]. simpl. econstructor; eauto. Qed.

Lemma steps_snoc a n b c : steps a n b -> c ∈ kids children b -> steps a (S n) c.
Proof. intros H Hc. replace (S n) with (n + 1) by lia. eapply steps_app; [done|]. econstructor; [done|constructor]. Qed.

Lemma nests_le a n m : m <= n -> nests a n -> nests a m.
Proof.
  revert a m. induction n as [|n IH]; intros a m Hm [b Hb]; [by replace m with 0 by lia; exists b|].
  destruct m as [|m]; [exists a; constructor|]. inversion Hb as [|? c ? ? Hc Hr]; subst.
  destruct (IH c m ltac:(lia)) as [d Hd]; [by exists b|]. exists d. by econstructor.
Qed.

Lemma steps_nests a n b m : steps a n b -> nests b m -> nests a (n + m).
Proof. intros H [c Hc]. exists c. by eapply steps_app. Qed.

Lemma cycle_nests a k n : 0 < k -> steps a k a -> nests a n.
Proof.
  intros Hk Hs. induction n as [n IH] using lt_wf_ind. destruct (decide (n <= k)) as [Hn|Hn].
  - eapply nests_le; [done|]. by exists a.
  - replace n with (k + (n - k)) by lia. eapply steps_nests; [done|]. apply IH. lia.
Qed.

Lemma nests_child a n : nests a (S n) <-> exists b, b ∈ kids children a /\ nests b n.
Proof.
  split.
  - intros [c Hc]. inversion Hc as [|? b ? ? Hb Hr]; subst. exists b. split; [done|]. by exists c.
  - intros (b & Hb & c & Hc). exists c. by econstructor.
Qed.

(** [h] is the number of levels from [a] down. *)
Definition height_is (a : jstr) (h : nat) : Prop := 0 < h /\ nests a (h - 1) /\ ~ nests a h.

(** What is known of the heights, and that the open templates lead from the root to the
    one about to be measured. *)
Definition known_ok (hs : jsmap jstr nat) : Prop := forall id h, mget hs id = Some h -> height_is id h.

Definition on_path (root id : jstr) (op : jsset jstr) : Prop :=
  steps root (length op) id /\ NoDup op /\ forall o, o ∈ op -> exists k, 0 < k /\ steps o k id.

Lemma on_path_child root id op c : on_path root id op -> id ∉ op -> c ∈ kids children id -> on_path root c (op ++ [id]).
Proof.
  intros (Hs & Hnd & Ho) Hid Hc. split_and!.
  - rewrite length_app. simpl. replace (length op + 1) with (S (length op)) by lia. by eapply steps_snoc.
  - apply NoDup_snoc. done.
  - intros o [Hin| ->%list_elem_of_singleton]%elem_of_app.
    + destruct (Ho o Hin) as (k & Hk & Hk'). exists (S k). split; [lia|by eapply steps_snoc].
    + exists 1. split; [lia|]. econstructor; [done|constructor].
Qed.

(** Every fault is a walk of nine templates from the root, and a template reported to
    contain itself does. *)
Definition fault_ok (path root : jstr) (e : ProjectFormatError) : Prop :=
  nests root MAX_TEMPLATE_DEPTH
  /\ (e = new_error path (nests_deeper root)
      \/ exists x k, e = new_error path (contains_itself x) /\ 0 < k /\ steps x k x /\ exists n, steps root n x).

Definition measured (path root id : jstr) (st : Closing) (r : reading (nat * Closing)) : Prop :=
  match r with
  | Ok (h, st') => open st' = open st /\ known_ok (heights st') /\ height_is id h /\ length (open st) + h <= MAX_TEMPLATE_DEPTH
  | Throw e => fault_ok path root e
  end.

(** The loop over the children: the running maximum is the tallest of them. *)
Lemma tallest_of_ok path root (m : jstr -> Closing -> reading (nat * Closing)) op ids t0 st :
  (forall c st, c ∈ ids -> open st = op -> known_ok (heights st) -> measured path root c st (m c st)) ->
  open st = op -> known_ok (heights st) ->
  match tallest_of m t0 ids st with
  | Ok (t, st') =>
      open st' = op /\ known_ok (heights st') /\ t0 <= t
      /\ Forall (fun c => exists h, height_is c h /\ h <= t) ids
      /\ (t = t0 \/ exists c, c ∈ ids /\ height_is c t /\ length op + t <= MAX_TEMPLATE_DEPTH)
  | Throw e => fault_ok path root e
  end.
Proof.
  intros Hm. revert t0 st. induction ids as [|c ids IH]; intros t0 st Hop Hk; cbn [tallest_of].
  - split_and!; [done|done|done|constructor|by left].
  - pose proof (Hm c st ltac:(left) Hop Hk) as Hc. destruct (m c st) as [[h st1]|e]; cbn [measured mbind outcome_bind] in *; [|done].
    destruct Hc as (Hop1 & Hk1 & Hh & Hlen). rewrite Hop in *.
    set (t1 := if t0 <? h then h else t0).
    assert (Ht1 : t0 <= t1 /\ h <= t1 /\ (t1 = h \/ t1 = t0)).
    { unfold t1. destruct (t0 <? h) eqn:E; [apply Nat.ltb_lt in E|apply Nat.ltb_ge in E]; lia. }
    specialize (IH ltac:(intros; apply Hm; [by right|done..]) t1 st1 Hop1 Hk1).
    destruct (tallest_of m t1 ids st1) as [[t st']|e]; [|done]. destruct IH as (Ho & Hk' & Hle & Hall & Hwhich). split_and!.
    + done.
    + done.
    + lia.
    + constructor; [exists h; split; [done|lia]|done].
    + destruct Hwhich as [->|(c' & Hc' & Hh' & Hl')]; [|right; exists c'; split_and!; [by right|done..]].
      destruct Ht1 as (_ & _ & [-> | ->]); [|by left]. right. exists c. split_and!; [left|done|done].
Qed.

Lemma cycle_fault path root id st : on_path root id (open st) -> id ∈ open st -> fault_ok path root (new_error path (contains_itself id)).
Proof.
  intros (Hs & _ & Ho) Hid. destruct (Ho id Hid) as (k & Hk0 & Hc). split.
  - eapply nests_le; [|eapply steps_nests; [done|by eapply (cycle_nests _ _ MAX_TEMPLATE_DEPTH)]]. lia.
  - right. exists id, k. split_and!; [done|done|done|by eexists].
Qed.

Lemma deep_fault path root id st :
  on_path root id (open st) -> known_ok (heights st) ->
  MAX_TEMPLATE_DEPTH < length (open st) + nullish (mget (heights st) id) 1 ->
  fault_ok path root (new_error path (nests_deeper root)).
Proof.
  intros (Hs & _ & _) Hk Hd. split; [|by left]. destruct (mget (heights st) id) as [h|] eqn:Eh; simpl in Hd.
  - destruct (Hk id h Eh) as (Hpos & Hn & _). eapply (nests_le _ (length (open st) + (h - 1))); [lia|by eapply steps_nests].
  - eapply (nests_le _ (length (open st))); [lia|by exists id].
Qed.

Lemma measure_ok fuel path root id st :
  MAX_TEMPLATE_DEPTH <= fuel + length (open st) -> on_path root id (open st) -> known_ok (heights st) ->
  measured path root id st (measure fuel children path root id st).
Proof.
  revert id st. induction fuel as [|fuel IH]; intros id st Hfuel Hon Hk; cbn [measure].
  all: destruct (shas (open st) id) eqn:Eo; [apply shas_spec in Eo; by apply (cycle_fault path) in Hon|apply shas_false in Eo].
  all: destruct (MAX_TEMPLATE_DEPTH <? _) eqn:Ed; [apply Nat.ltb_lt in Ed; by eapply deep_fault|apply Nat.ltb_ge in Ed].
  all: destruct (mget (heights st) id) as [h|] eqn:Eh; simpl in Ed.
  1, 3: cbn [measured]; split_and!; [done|done|by apply Hk|done].
  - exfalso. simpl in Hfuel. unfold MAX_TEMPLATE_DEPTH in *. lia.
  - set (st0 := MkClosing (sadd (open st) id) (heights st)).
    assert (Hop0 : open st0 = open st ++ [id]) by (simpl; by apply sadd_not_in).
    assert (Hloop := tallest_of_ok path root (measure fuel children path root) (open st ++ [id]) (kids children id) 0 st0).
    assert (Hlen : length (open st ++ [id]) = length (open st) + 1) by (rewrite length_app; done).
    unfold kids in Hloop at 2. specialize (Hloop ltac:(intros c st1 Hc Hop1 Hk1; apply IH;
      [rewrite Hop1, Hlen; lia|rewrite Hop1; by apply on_path_child|done]) Hop0 Hk).
    destruct (tallest_of _ 0 _ st0) as [[t st']|e]; cbn [mbind outcome_bind measured]; [|done].
    destruct Hloop as (Hop' & Hk' & _ & Hall & Hwhich).
    assert (Hh : height_is id (t + 1)).
    { split_and!; [lia| |].
      - replace (t + 1 - 1) with t by lia. destruct Hwhich as [-> |(c & Hc & (Hp & Hn & _) & _)]; [by exists id; constructor|].
        destruct t as [|t]; [lia|]. apply nests_child. exists c. split; [done|]. by replace (S t - 1) with t in Hn by lia.
      - rewrite Nat.add_1_r, nests_child. intros (b & Hb & Hn). rewrite Forall_forall in Hall.
        destruct (Hall b Hb) as (h & (_ & _ & Hno) & Hle). apply Hno. by eapply nests_le. }
    cbn [open heights]. split_and!.
    + rewrite Hop'. unfold sdel. rewrite filter_app, filter_cons_False by (intros H; by apply H). rewrite app_nil_r. by apply sdel_not_in.
    + intros x h. rewrite mget_mset. case_decide as Hx; [intros [= <-]; by rewrite <- Hx|apply Hk'].
    + done.
    + destruct Hwhich as [-> |(c & _ & _ & Hl)]; [lia|]. rewrite Hlen in Hl. lia.
Qed.

Lemma close_each_ok path ids st :
  open st = [] -> known_ok (heights st) ->
  match close_each children path ids st with
  | Ok _ => Forall (fun id => ~ nests id MAX_TEMPLATE_DEPTH) ids
  | Throw e => exists root, root ∈ ids /\ fault_ok path root e
  end.
Proof.
  revert st. induction ids as [|id ids IH]; intros st Ho Hk; cbn [close_each]; [constructor|].
  pose proof (measure_ok MAX_TEMPLATE_DEPTH path id id st) as Hm. rewrite Ho in Hm.
  assert (Hon : on_path id id []) by (split_and!; [constructor|constructor|intros o Hin; by apply not_elem_of_nil in Hin]).
  specialize (Hm (Nat.le_add_r _ _) Hon Hk).
  destruct (measure _ _ _ _ _ _) as [[h st1]|e]; cbn [mbind outcome_bind measured] in *; [|exists id; split; [left|done]].
  destruct Hm as (Ho1 & Hk1 & (Hp & _ & Hno) & Hle). rewrite Ho in *. simpl in Hle.
  specialize (IH st1 Ho1 Hk1). destruct (close_each _ _ _ _) as [[]|e].
  - constructor; [|done]. intros Hn. apply Hno. by eapply nests_le.
  - destruct IH as (root & Hr & Hf). exists root. split; [by right|done].
Qed.
End Graph.

Lemma closeTemplates_ok children path :
  match closeTemplates children path with
  | Ok _ => forall id, id ∈ mkeys children -> ~ nests children id MAX_TEMPLATE_DEPTH
  | Throw e => exists root, root ∈ mkeys children /\ fault_ok children path root e
  end.
Proof.
  unfold closeTemplates. pose proof (close_each_ok children path (mkeys children) no_heights eq_refl) as H.
  specialize (H ltac:(done)). destruct (close_each _ _ _ _) as [[]|e]; [|done]. rewrite Forall_forall in H. exact H.
Qed.

Lemma closeTemplates_Ok children path :
  closeTemplates children path = Ok tt <-> forall id, id ∈ mkeys children -> ~ nests children id MAX_TEMPLATE_DEPTH.
Proof.
  pose proof (closeTemplates_ok children path) as H. destruct (closeTemplates children path) as [[]|e]; [done|].
  split; [done|]. intros Hn. destruct H as (root & Hr & Hf & _). by destruct (Hn root Hr).
Qed.

(** A template graph is refused exactly when some template nests more than
    [MAX_TEMPLATE_DEPTH] levels, and a template reported to contain itself does. *)
Theorem template_graph_closed (children : jsmap jstr (list jstr)) (path : jstr) :
  match closeTemplates children path with
  | Ok _ => forall id b n, id ∈ mkeys children -> steps children id n b -> n < MAX_TEMPLATE_DEPTH
  | Throw e =>
      exists root, root ∈ mkeys children
        /\ (exists b, steps children root MAX_TEMPLATE_DEPTH b)
        /\ (e = new_error path (nests_deeper root)
            \/ exists x k, e = new_error path (contains_itself x) /\ 0 < k /\ steps children x k x)
  end.
Proof.
  pose proof (closeTemplates_ok children path) as H. destruct (closeTemplates children path) as [[]|e].
  - intros id b n Hid Hs. apply Nat.nle_gt. intros Hn. apply (H id Hid). eapply nests_le; [done|]. by exists b.
  - destruct H as (root & Hr & Hn & He). exists root. split_and!; [done|done|]. naive_solver.
Qed.

(** A diamond is accepted, a template that holds itself two levels down is not, and nine
    levels are one too many. *)
Lemma template_graph_examples :
  let t n : jstr := [n] in
  let d := fun l => closeTemplates ((fun e => (t e.1, t <$> e.2)) <$> l) (js "templates") in
  d [(1, [2; 3]); (2, [4]); (3, [4]); (4, [])]%Z = Ok tt
  /\ d [(1, [2]); (2, [1])]%Z = Throw (new_error (js "templates") (contains_itself (t 1%Z)))
  /\ d ((fun i => (i, [i + 1])) <$> seqZ 1 8)%Z = Throw (new_error (js "templates") (nests_deeper (t 1%Z)))
  /\ d ((fun i => (i, [i + 1])) <$> seqZ 1 7)%Z = Ok tt.
Proof. vm_compute. repeat split. Qed.
