(* ===== verification/Validate.v ===== *)
(** * Project validation ([packages/project/src/validate.ts, manifest.ts])

    [validate] narrows an untrusted parse to a project manifest or refuses it, and hands
    back the value it was given. The types of [manifest.ts] are data here, and what the
    narrowing promises is stated once, as [valid_project]. *)

From S2P Require Import Prelude JsMap JsNum Json Hosts ProjectFormat TemplateGraph.

Local Open Scope Z_scope.

(** ** The types of [manifest.ts] *)

Definition ASSET_KINDS : list jstr := js <$> ["texture"; "atlas"; "audio"; "font"; "clip"; "effect"]%string.
Definition SCRIPT_LOCATIONS : list jstr := js <$> ["server"; "client"; "synced"]%string.
Definition SCRIPT_HOSTS : list jstr := js <$> ["entity"; "player"; "game"; "camera"; "screen"]%string.

Definition BOUNDS_EDGES : list string := ["left"; "right"; "top"; "bottom"]%string.
Definition ASSET_META_FIELDS : list string := ["width"; "height"; "duration"]%string.
Definition SPRITE_NUMBERS : list string := ["anchorX"; "anchorY"; "tint"]%string.
Definition TRANSFORM_FIELDS : list string := ["x"; "y"; "z"; "rotation"; "scale"; "opacity"; "layer"]%string.

Definition ProjectBounds : ty := TObject ((fun k => req k TFinite) <$> BOUNDS_EDGES).
Definition RegionRecord : ty := TObject [req "name" TKey; req "bounds" ProjectBounds].
Definition AssetMeta : ty := TObject ((fun k => opt k TFinite) <$> ASSET_META_FIELDS).
Definition AssetRecord : ty :=
  TObject [req "id" TKey; req "kind" (TEnum ASSET_KINDS); req "url" TKey; opt "meta" AssetMeta].
Definition ScriptDecl : ty :=
  TObject [req "id" TKey; req "export" TKey; req "location" (TEnum SCRIPT_LOCATIONS); req "host" (TEnum SCRIPT_HOSTS)].
Definition ScriptModule : ty := TObject [req "path" TKey; req "scripts" (TArray ScriptDecl)].
Definition ScriptAttachment : ty := TObject [req "script" TKey; opt "props" TProps].
Definition SpriteVisual : ty :=
  TObject [req "kind" (TEnum [js "sprite"]); req "texture" TKey; opt "anchorX" TFinite; opt "anchorY" TFinite;
           opt "tint" TFinite; opt "neverCull" TBool].
Definition GroupVisual : ty := TObject [req "kind" (TEnum [js "group"])].
Definition TemplateVisual : ty := TOr SpriteVisual GroupVisual.
Definition EntityTransform : ty := TObject ((fun k => opt k TFinite) <$> TRANSFORM_FIELDS).
Definition TemplateChildRecord : ty := TObject [req "template" TKey; opt "transform" EntityTransform].
Definition TemplateRecord : ty :=
  TObject [req "id" TKey; req "visual" TemplateVisual; req "scripts" (TArray ScriptAttachment);
           opt "children" (TArray TemplateChildRecord)].
Definition EntityRecord : ty :=
  TObject [req "id" TKey; req "template" (TOr TKey TNull); req "parent" (TOr TKey TNull);
           opt "transform" EntityTransform; req "tags" (TArray TKey); req "scripts" (TArray ScriptAttachment)].
Definition ProjectSettings : ty :=
  TObject [req "simRate" TRate; req "sendRate" TRate; req "maxPlayers" TRate; req "bounds" ProjectBounds;
           req "regions" (TArray RegionRecord)].
Definition ProjectManifest : ty :=
  TObject [req "formatVersion" TFinite; req "projectId" TKey; req "contentHash" TKey; req "settings" ProjectSettings;
           req "entities" (TArray EntityRecord); req "templates" (TArray TemplateRecord); req "assets" (TArray AssetRecord);
           req "scriptModules" (TArray ScriptModule); req "gameScripts" (TArray ScriptAttachment)].

(** ** The readers *)

Definition isMember (table : list jstr) (value : jstr) : bool := bool_decide (value ∈ table).

Fixpoint readEdges (f : jsmap jstr json) (edges : list string) (path : jstr) : reading unit :=
  match edges with
  | [] => Ok tt
  | k :: ks => _ ← readNumber (member f k) (dot path k); readEdges f ks path
  end.

Definition readBounds (value : option json) (path : jstr) : reading unit :=
  bounds ← readObject value path; readEdges bounds BOUNDS_EDGES path.

Definition duplicate (what : string) (name : jstr) : message := [Text (js "duplicate " ++ js what); quoted name].
Definition unknown (what : string) (name : jstr) : message := [Text (js "unknown " ++ js what); quoted name].
Definition no_such (what : string) (name : jstr) : message := [Text (js "no " ++ js what ++ js " named "); quoted name].

Definition readRegion (path : jstr) (seen : jsset jstr) (index : nat) (entry : json) : reading (jsset jstr) :=
  let at_ := at_index (dot path "regions") index in
  region ← readObject (Some entry) at_;
  name ← readKey (member region "name") (dot at_ "name");
  if shas seen name then fail (dot at_ "name") (duplicate "region name " name)
  else
    _ ← readBounds (member region "bounds") (dot at_ "bounds");
    Ok (sadd seen name).

Definition readSettings (value : option json) (path : jstr) : reading unit :=
  settings ← readObject value path;
  _ ← readRate (member settings "simRate") (dot path "simRate");
  _ ← readRate (member settings "sendRate") (dot path "sendRate");
  _ ← readRate (member settings "maxPlayers") (dot path "maxPlayers");
  _ ← readBounds (member settings "bounds") (dot path "bounds");
  regions ← readArray (member settings "regions") (dot path "regions");
  _ ← each (readRegion path) [] regions;
  Ok tt.

Definition readAssetMeta (value : option json) (path : jstr) : reading unit :=
  match value with
  | None => Ok tt
  | Some _ => meta ← readObject value path; readNumbers meta ASSET_META_FIELDS path
  end.

Definition readAsset (path : jstr) (ids : jsset jstr) (index : nat) (entry : json) : reading (jsset jstr) :=
  let at_ := at_index path index in
  asset ← readObject (Some entry) at_;
  id ← readKey (member asset "id") (dot at_ "id");
  if shas ids id then fail (dot at_ "id") (duplicate "asset id " id)
  else
    kind ← readString (member asset "kind") (dot at_ "kind");
    if negb (isMember ASSET_KINDS kind) then fail (dot at_ "kind") (unknown "asset kind " kind)
    else
      _ ← readKey (member asset "url") (dot at_ "url");
      _ ← readAssetMeta (member asset "meta") (dot at_ "meta");
      Ok (sadd ids id).

Definition readAssets (value : option json) (path : jstr) : reading (jsset jstr) :=
  entries ← readArray value path;
  each (readAsset path) [] entries.

Definition readDecl (path : jstr) (hosts : jsmap jstr jstr) (i : nat) (declEntry : json) : reading (jsmap jstr jstr) :=
  let declAt := at_index (dot path "scripts") i in
  decl ← readObject (Some declEntry) declAt;
  id ← readKey (member decl "id") (dot declAt "id");
  if mhas hosts id then fail (dot declAt "id") (duplicate "script id " id)
  else
    _ ← readKey (member decl "export") (dot declAt "export");
    location ← readString (member decl "location") (dot declAt "location");
    if negb (isMember SCRIPT_LOCATIONS location) then fail (dot declAt "location") (unknown "script location " location)
    else
      host ← readString (member decl "host") (dot declAt "host");
      if negb (isMember SCRIPT_HOSTS host) then fail (dot declAt "host") (unknown "script host " host)
      else Ok (mset hosts id host).

Definition readModule (path : jstr) (hosts : jsmap jstr jstr) (index : nat) (entry : json) : reading (jsmap jstr jstr) :=
  let at_ := at_index path index in
  module ← readObject (Some entry) at_;
  _ ← readKey (member module "path") (dot at_ "path");
  scripts ← readArray (member module "scripts") (dot at_ "scripts");
  each (readDecl at_) hosts scripts.

Definition readScriptModules (value : option json) (path : jstr) : reading (jsmap jstr jstr) :=
  entries ← readArray value path;
  each (readModule path) [] entries.

Definition readTransform (value : option json) (path : jstr) : reading unit :=
  match value with
  | None => Ok tt
  | Some _ => transform ← readObject value path; readNumbers transform TRANSFORM_FIELDS path
  end.

Definition readTag (path : jstr) (seen : jsset jstr) (index : nat) (tag : json) : reading (jsset jstr) :=
  name ← readKey (Some tag) (at_index path index);
  if shas seen name then fail (at_index path index) (duplicate "tag " name) else Ok (sadd seen name).

Definition readTags (value : option json) (path : jstr) : reading unit :=
  tags ← readArray value path;
  _ ← each (readTag path) [] tags;
  Ok tt.

Definition readAttachment (path : jstr) (hosts : jsmap jstr jstr) (host : jstr) (seen : jsset jstr) (index : nat) (entry : json) :
    reading (jsset jstr) :=
  let at_ := at_index path index in
  attachment ← readObject (Some entry) at_;
  id ← readKey (member attachment "script") (dot at_ "script");
  match mget hosts id with
  | None => fail (dot at_ "script") [Text (js "no script declared as "); quoted id]
  | Some declared =>
      if negb (bool_decide (declared = host))
      then fail (dot at_ "script")
             [quoted id; Text (js " is " ++ declared ++ js "-hosted and cannot attach to a " ++ host)]
      else if shas seen id then fail (dot at_ "script") [quoted id; Text (js " is attached twice")]
      else
        _ ← match member attachment "props" with None => Ok tt | Some _ => readProps (member attachment "props") (dot at_ "props") end;
        Ok (sadd seen id)
  end.

Definition readAttachments (value : option json) (path : jstr) (hosts : jsmap jstr jstr) (host : jstr) : reading unit :=
  entries ← readArray value path;
  _ ← each (readAttachment path hosts host) [] entries;
  Ok tt.

Definition readVisual (value : option json) (path : jstr) (assets : jsset jstr) : reading unit :=
  visual ← readObject value path;
  kind ← readString (member visual "kind") (dot path "kind");
  if bool_decide (kind = js "group") then Ok tt
  else if negb (bool_decide (kind = js "sprite")) then fail (dot path "kind") (unknown "template visual " kind)
  else
    texture ← readKey (member visual "texture") (dot path "texture");
    if negb (shas assets texture) then fail (dot path "texture") (no_such "asset" texture)
    else
      _ ← readNumbers visual SPRITE_NUMBERS path;
      match member visual "neverCull" with
      | None => Ok tt
      | Some _ => _ ← readBoolean (member visual "neverCull") (dot path "neverCull"); Ok tt
      end.

Definition readChild (path : jstr) (ids : jsset jstr) (out : list jstr) (index : nat) (entry : json) : reading (list jstr) :=
  let at_ := at_index path index in
  child ← readObject (Some entry) at_;
  key ← readKey (member child "template") (dot at_ "template");
  if negb (shas ids key) then fail (dot at_ "template") (no_such "template" key)
  else
    _ ← readTransform (member child "transform") (dot at_ "transform");
    Ok (out ++ [key]).

Definition readTemplateChildren (value : option json) (path : jstr) (ids : jsset jstr) : reading (list jstr) :=
  match value with
  | None => Ok []
  | Some _ => entries ← readArray value path; each (readChild path ids) [] entries
  end.

(** A row of the first pass: where it is, its id, its record. *)
Definition row : Type := jstr * jstr * jsmap jstr json.

Definition readTemplateId (path : jstr) (acc : jsset jstr * list row) (index : nat) (entry : json) : reading (jsset jstr * list row) :=
  let at_ := at_index path index in
  record ← readObject (Some entry) at_;
  id ← readKey (member record "id") (dot at_ "id");
  if shas acc.1 id then fail (dot at_ "id") (duplicate "template id " id)
  else Ok (sadd acc.1 id, acc.2 ++ [(at_, id, record)]).

Fixpoint readRows (assets : jsset jstr) (hosts : jsmap jstr jstr) (ids : jsset jstr) (rows : list row)
    (children : jsmap jstr (list jstr)) : reading (jsmap jstr (list jstr)) :=
  match rows with
  | [] => Ok children
  | (at_, id, record) :: rest =>
      _ ← readVisual (member record "visual") (dot at_ "visual") assets;
      _ ← readAttachments (member record "scripts") (dot at_ "scripts") hosts (js "entity");
      kids ← readTemplateChildren (member record "children") (dot at_ "children") ids;
      readRows assets hosts ids rest (mset children id kids)
  end.

Definition readTemplates (value : option json) (path : jstr) (assets : jsset jstr) (hosts : jsmap jstr jstr) : reading (jsset jstr) :=
  entries ← readArray value path;
  '(ids, rows) ← each (readTemplateId path) ([], []) entries;
  children ← readRows assets hosts ids rows [];
  _ ← closeTemplates children path;
  Ok ids.

(** [if (entity[name] !== null)]: a missing member is not [null]. *)
Definition unless_null (o : option json) (k : reading unit) : reading unit :=
  match o with Some JNull => Ok tt | _ => k end.

Definition readEntity (path : jstr) (templates : jsset jstr) (hosts : jsmap jstr jstr) (seen : jsset jstr) (index : nat) (entry : json) :
    reading (jsset jstr) :=
  let at_ := at_index path index in
  entity ← readObject (Some entry) at_;
  id ← readKey (member entity "id") (dot at_ "id");
  if shas seen id then fail (dot at_ "id") (duplicate "entity id " id)
  else
    _ ← unless_null (member entity "template") (
      key ← readKey (member entity "template") (dot at_ "template");
      if negb (shas templates key) then fail (dot at_ "template") (no_such "template" key) else Ok tt);
    _ ← unless_null (member entity "parent") (
      key ← readKey (member entity "parent") (dot at_ "parent");
      if negb (shas seen key) then fail (dot at_ "parent") [Text (js "no entity "); quoted key; Text (js " before this one")] else Ok tt);
    let seen := sadd seen id in
    _ ← readTransform (member entity "transform") (dot at_ "transform");
    _ ← readTags (member entity "tags") (dot at_ "tags");
    _ ← readAttachments (member entity "scripts") (dot at_ "scripts") hosts (js "entity");
    Ok seen.

Definition readEntities (value : option json) (path : jstr) (templates : jsset jstr) (hosts : jsmap jstr jstr) : reading unit :=
  entries ← readArray value path;
  _ ← each (readEntity path templates hosts) [] entries;
  Ok tt.

Definition validate (value : json) : reading json :=
  manifest ← readObject (Some value) [];
  formatVersion ← readNumber (member manifest "formatVersion") (js "formatVersion");
  if negb (feq formatVersion (of_Z PROJECT_FORMAT_VERSION))
  then fail (js "formatVersion") [Text (js "expected 1, received "); Printed formatVersion; Text (js ": migrate the file first")]
  else
    _ ← readKey (member manifest "projectId") (js "projectId");
    _ ← readKey (member manifest "contentHash") (js "contentHash");
    _ ← readSettings (member manifest "settings") (js "settings");
    assets ← readAssets (member manifest "assets") (js "assets");
    hosts ← readScriptModules (member manifest "scriptModules") (js "scriptModules");
    templates ← readTemplates (member manifest "templates") (js "templates") assets hosts;
    _ ← readEntities (member manifest "entities") (js "entities") templates hosts;
    _ ← readAttachments (member manifest "gameScripts") (js "gameScripts") hosts (js "game");
    Ok value.

(** ** Reading as typing *)

Fixpoint fields (f : jsmap jstr json) (fs : list (string * (bool * ty))) : Prop :=
  match fs with
  | [] => True
  | (k, (true, a)) :: rest => has a (member f k) /\ fields f rest
  | (k, (false, a)) :: rest => may a (member f k) /\ fields f rest
  end.

Lemma typed_object fs j : has_type (TObject fs) j <-> exists f, j = JObj f /\ fields f fs.
Proof.
  cbn [has_type]. split; intros (f & -> & H); exists f; (split; [done|]); revert H; clear;
    (induction fs as [|[k [b a]] fs IH]; [done|]); destruct b; cbn [fields]; intros [Hk Hr];
    (split; [|by apply IH]); destruct (member f k); cbn [has may] in *; done.
Qed.

Definition as_str (o : option json) : jstr := match o with Some (JStr s) => s | _ => [] end.
Definition elems (o : option json) : list json := match o with Some (JArr l) => l | _ => [] end.
Definition str (e : json) (k : string) : jstr := as_str (jget e k).
Definition arr (e : json) (k : string) : list json := elems (jget e k).

Lemma readKey_has o p s : readKey o p = Ok s <-> has TKey o /\ s = as_str o.
Proof. rewrite readKey_Ok. destruct o as [[]|]; simpl; naive_solver. Qed.
Lemma readNumber_has o p x : readNumber o p = Ok x -> has TFinite o.
Proof. intros H. apply (accepts_number o p). by exists x. Qed.
Lemma readEnum_has o p names s : readString o p = Ok s /\ isMember names s = true <-> has (TEnum names) o /\ s = as_str o.
Proof.
  rewrite readString_Ok. unfold isMember. rewrite bool_decide_eq_true. destruct o as [[]|]; simpl; naive_solver.
Qed.

Lemma readEdges_Ok f ks p : readEdges f ks p = Ok tt <-> fields f ((fun k => req k TFinite) <$> ks).
Proof.
  induction ks as [|k ks IH]; csimpl; cbn [readEdges fields req]; [done|]. by rewrite then_Ok, accepts_number, IH.
Qed.

Lemma readNumbers_fields f ks p : readNumbers f ks p = Ok tt <-> fields f ((fun k => opt k TFinite) <$> ks).
Proof. rewrite readNumbers_Ok. induction ks as [|k ks IH]; csimpl; cbn [fields opt]; [done|]. by rewrite Forall_cons, IH. Qed.

Lemma object_has fs o : has (TObject fs) o <-> exists f, o = Some (JObj f) /\ fields f fs.
Proof. destruct o as [j|]; cbn [has]; [rewrite typed_object|]; naive_solver. Qed.

Lemma readBounds_Ok o p : readBounds o p = Ok tt <-> has ProjectBounds o.
Proof.
  unfold readBounds, ProjectBounds. rewrite outcome_bind_Ok, object_has. setoid_rewrite readObject_Ok. by setoid_rewrite readEdges_Ok.
Qed.

Lemma readAssetMeta_Ok o p : readAssetMeta o p = Ok tt <-> may AssetMeta o.
Proof.
  unfold readAssetMeta. destruct o as [j|]; [|done]. change (may AssetMeta (Some j)) with (has AssetMeta (Some j)).
  unfold AssetMeta. rewrite outcome_bind_Ok, object_has. setoid_rewrite readObject_Ok. by setoid_rewrite readNumbers_fields.
Qed.

Lemma readTransform_Ok o p : readTransform o p = Ok tt <-> may EntityTransform o.
Proof.
  unfold readTransform. destruct o as [j|]; [|done]. change (may EntityTransform (Some j)) with (has EntityTransform (Some j)).
  unfold EntityTransform. rewrite outcome_bind_Ok, object_has. setoid_rewrite readObject_Ok. by setoid_rewrite readNumbers_fields.
Qed.

Lemma optional_props_Ok o p : match o with None => Ok tt | Some _ => readProps o p end = Ok tt <-> may TProps o.
Proof. destruct o; [apply readProps_Ok|done]. Qed.

Lemma has_enum o p names :
  has (TEnum names) o -> readString o p = Ok (as_str o) /\ isMember names (as_str o) = true.
Proof. intros H. by apply readEnum_has. Qed.

Lemma has_array a o : has (TArray a) o <-> exists l, o = Some (JArr l) /\ Forall (has_type a) l.
Proof. destruct o; simpl; naive_solver. Qed.

(** A loop over entries with names of their own. *)
Lemma each_unique (body : jsset jstr -> nat -> json -> reading (jsset jstr)) (key : json -> jstr) (P : json -> Prop) l acc :
  (forall acc i e acc', body acc i e = Ok acc' <-> (P e /\ key e ∉ acc) /\ acc' = acc ++ [key e]) ->
  each body [] l = Ok acc <-> (Forall P l /\ NoDup (key <$> l)) /\ acc = key <$> l.
Proof.
  intros Hb. rewrite (each_append body key (fun acc e => P e /\ key e ∉ acc)) by done. csimpl.
  rewrite Forall_lookup, <- fresh_NoDup. naive_solver.
Qed.

(** Inversion of a reading that succeeded, and a successful reading rebuilt. *)
Ltac inv_reads :=
  repeat match goal with
  | H : (_ ≫= _) = Ok _ |- _ => apply outcome_bind_Ok in H as (? & ? & H)
  | H : readObject _ _ = Ok _ |- _ => apply readObject_Ok in H
  | H : readArray _ _ = Ok _ |- _ => apply readArray_Ok in H
  | H : readKey _ _ = Ok _ |- _ => apply readKey_has in H as [? ->]
  | H : readRate ?o ?p = Ok ?x |- _ => pose proof (proj1 (accepts_rate o p) (ex_intro _ x H)); clear H
  | H : readBoolean ?o ?p = Ok ?x |- _ => pose proof (proj1 (accepts_boolean o p) (ex_intro _ x H)); clear H
  | H : readBounds _ _ = Ok ?u |- _ => destruct u; apply readBounds_Ok in H
  | H : readAssetMeta _ _ = Ok ?u |- _ => destruct u; apply readAssetMeta_Ok in H
  | H : readTransform _ _ = Ok ?u |- _ => destruct u; apply readTransform_Ok in H
  | H : match _ with None => Ok tt | Some _ => readProps _ _ end = Ok ?u |- _ => destruct u; apply optional_props_Ok in H
  | H : readString ?o ?p = Ok ?s, H' : isMember ?t ?s = true |- _ => destruct (proj1 (readEnum_has o p t s) (conj H H')) as [? ->]; clear H H'
  | H : (if ?b then fail _ _ else _) = Ok _ |- _ => destruct b eqn:?; [discriminate H|]
  | H : negb _ = false |- _ => apply negb_false_iff in H
  | H : shas _ _ = true |- _ => apply shas_spec in H
  | H : shas _ _ = false |- _ => apply shas_false in H
  end; simplify_eq.

Ltac read_step :=
  first [ apply readObject_Ok; reflexivity | apply readArray_Ok; reflexivity | apply readKey_has; split; [eassumption|reflexivity]
        | apply readBounds_Ok; eassumption | apply readAssetMeta_Ok; eassumption | apply readTransform_Ok; eassumption
        | apply optional_props_Ok; eassumption ].

Ltac do_reads :=
  repeat match goal with
  | H : has (TEnum ?t) ?o |- (readString ?o ?p ≫= _) = Ok _ =>
      let E := fresh in let E' := fresh in
      destruct (has_enum o p t H) as [E E']; rewrite E; cbn [mbind outcome_bind]; rewrite E'; cbn [negb]; clear E E'
  | H : has TRate ?o |- (readRate ?o ?p ≫= _) = Ok _ => destruct (proj2 (accepts_rate o p) H) as [? ->]; cbn [mbind outcome_bind]
  | H : has TBool ?o |- (readBoolean ?o ?p ≫= _) = Ok _ => destruct (proj2 (accepts_boolean o p) H) as [? ->]; cbn [mbind outcome_bind]
  | |- (_ ≫= _) = Ok _ => apply outcome_bind_Ok; eexists; split; [read_step|]; cbn beta
  | H : ?k ∉ ?s |- (if shas ?s ?k then _ else _) = Ok _ => rewrite (proj2 (shas_false s k) H)
  | H : ?k ∈ ?s |- (if negb (shas ?s ?k) then _ else _) = Ok _ => rewrite (proj2 (shas_spec s k) H); cbn [negb]
  end.

Lemma readRegion_Ok p seen i e seen' :
  readRegion p seen i e = Ok seen' <-> (has_type RegionRecord e /\ str e "name" ∉ seen) /\ seen' = seen ++ [str e "name"].
Proof.
  unfold readRegion, RegionRecord. rewrite typed_object. cbn [fields req]. split.
  - intros H. inv_reads. rewrite sadd_not_in by done. split; [|done]. split; [|done]. eexists. by split_and!.
  - intros [[(f & -> & Hn & Hb & _) Hs] ->]. unfold str in *. cbn [jget] in *. do_reads. by rewrite sadd_not_in.
Qed.

Lemma readSettings_Ok o p :
  readSettings o p = Ok tt <-> has ProjectSettings o /\ NoDup ((fun r => str r "name") <$> elems (o ≫= fun j => jget j "regions")).
Proof.
  unfold readSettings, ProjectSettings. rewrite object_has. cbn [fields req]. split.
  - intros H. inv_reads. match goal with H : each _ _ _ = Ok _ |- _ => apply (each_unique _ _ _ _ _ (readRegion_Ok p)) in H as [[Hall Hnd] _] end.
    cbn [mbind option_bind jget]. match goal with H : member _ "regions" = _ |- _ => rename H into Hr end.
    split; [|unfold member in Hr; by rewrite Hr].
    eexists. split_and!; try done. apply has_array. eauto.
  - intros [(f & -> & H1 & H2 & H3 & H4 & H5 & _) Hnd]. apply has_array in H5 as (l & H5 & Hall). cbn [mbind option_bind jget] in Hnd.
    unfold member in H5. rewrite H5 in Hnd. do_reads. unfold member. rewrite H5. apply then_Ok. split; [|done].
    eexists. by apply (each_unique _ _ _ _ _ (readRegion_Ok p)).
Qed.

Lemma readAsset_Ok p ids i e ids' :
  readAsset p ids i e = Ok ids' <-> (has_type AssetRecord e /\ str e "id" ∉ ids) /\ ids' = ids ++ [str e "id"].
Proof.
  unfold readAsset, AssetRecord. rewrite typed_object. cbn [fields req opt]. split.
  - intros H. inv_reads. rewrite sadd_not_in by done. split; [|done]. split; [|done]. eexists. by split_and!.
  - intros [[(f & -> & Hid & Hk & Hu & Hm & _) Hs] ->]. unfold str in *. cbn [jget] in *. do_reads. by rewrite sadd_not_in.
Qed.

Lemma readAssets_Ok o p ids :
  readAssets o p = Ok ids
  <-> has (TArray AssetRecord) o /\ NoDup ((fun a => str a "id") <$> elems o) /\ ids = (fun a => str a "id") <$> elems o.
Proof.
  unfold readAssets. rewrite outcome_bind_Ok, has_array. setoid_rewrite readArray_Ok.
  setoid_rewrite (each_unique _ _ _ _ _ (readAsset_Ok p)). split.
  - intros (l & -> & [Ha Hn] & ->). eauto.
  - intros ((l & -> & Ha) & Hn & ->). eauto.
Qed.

(** The scripts a module declares, with their hosts. *)
Definition decl (d : json) : jstr * jstr := (str d "id", str d "host").
Definition decls (m : json) : jsmap jstr jstr := decl <$> arr m "scripts".

Lemma readDecl_Ok p hosts i e hosts' :
  readDecl p hosts i e = Ok hosts' <-> (has_type ScriptDecl e /\ str e "id" ∉ mkeys hosts) /\ hosts' = hosts ++ [decl e].
Proof.
  unfold readDecl, ScriptDecl. rewrite typed_object. cbn [fields req]. split.
  - intros H. inv_reads. match goal with H : mhas _ _ = false |- _ => rename H into Hm end.
    rewrite <- not_true_iff_false, mhas_spec in Hm.
    rewrite mset_fresh by done. split; [|done]. split; [|done]. eexists. by split_and!.
  - intros [[(f & -> & Hid & He & Hl & Hh & _) Hs] ->]. unfold decl, str in *. cbn [jget] in *. do_reads.
    destruct (mhas hosts _) eqn:E; [by apply mhas_spec in E|]. do_reads. by rewrite mset_fresh.
Qed.

Lemma readModule_Ok p hosts i e hosts' :
  NoDup (mkeys hosts) ->
  readModule p hosts i e = Ok hosts' <-> has_type ScriptModule e /\ NoDup (mkeys (hosts ++ decls e)) /\ hosts' = hosts ++ decls e.
Proof.
  intros Hnd. unfold readModule, ScriptModule. rewrite typed_object. cbn [fields req].
  assert (Hloop : forall q l, each (readDecl q) hosts l = Ok hosts'
      <-> Forall (has_type ScriptDecl) l /\ NoDup (mkeys (hosts ++ (decl <$> l))) /\ hosts' = hosts ++ (decl <$> l)).
  { intros q l. rewrite (each_append _ decl (fun acc d => has_type ScriptDecl d /\ str d "id" ∉ mkeys acc)) by (intros; apply readDecl_Ok).
    rewrite Forall_lookup. unfold mkeys. rewrite !fmap_app, NoDup_app, <- list_fmap_compose. setoid_rewrite <- fresh_NoDup.
    setoid_rewrite fmap_app. setoid_rewrite <- list_fmap_compose. setoid_rewrite not_elem_of_app. split.
    - intros [H ->]. split_and!; [naive_solver|done| |intros j d Hd; by destruct (H j d Hd) as (_ & _ & ?)|done].
      intros x Hx Hin. apply list_elem_of_fmap in Hin as (d & -> & Hd). apply list_elem_of_lookup in Hd as [j Hj]. by destruct (H j d Hj) as (_ & Hn & _).
    - intros (Ht & (_ & Hdis & Hf) & ->). split; [|done]. intros j d Hd. split; [by eapply Ht|]. split; [|by apply (Hf j d Hd)].
      intros Hin. apply (Hdis _ Hin). apply list_elem_of_fmap. exists d. split; [done|]. by eapply list_elem_of_lookup_2. }
  split.
  - intros H. inv_reads. match goal with H : each _ _ _ = Ok _ |- _ => apply Hloop in H as (Ht & Hn & ->) end.
    match goal with H : member _ "scripts" = _ |- _ => rename H into Hs end.
    unfold decls, arr. cbn [jget]. unfold member in Hs. rewrite Hs. split_and!; [|done|done].
    eexists. split_and!; [done|done| |done]. apply has_array. eexists. split; [exact Hs|done].
  - intros ((f & -> & Hp & Hs & _) & Hn & ->). apply has_array in Hs as (l & Hs & Ht).
    unfold decls, arr in *. cbn [jget] in *. unfold member in Hs. rewrite Hs in *. do_reads. unfold member. rewrite Hs. do_reads. by apply Hloop.
Qed.

Lemma readScriptModules_Ok o p hosts :
  readScriptModules o p = Ok hosts
  <-> has (TArray ScriptModule) o /\ NoDup (mkeys (elems o ≫= decls)) /\ hosts = elems o ≫= decls.
Proof.
  assert (Hloop : forall l n acc, NoDup (mkeys acc) ->
    each_from (readModule p) n acc l = Ok hosts
    <-> Forall (has_type ScriptModule) l /\ NoDup (mkeys (acc ++ (l ≫= decls))) /\ hosts = acc ++ (l ≫= decls)).
  { induction l as [|m l IH]; intros n acc Hnd; cbn [each_from].
    - csimpl. rewrite !app_nil_r. split; [intros [= ->]; by split_and!|by intros (_ & _ & ->)].
    - rewrite outcome_bind_Ok. setoid_rewrite readModule_Ok; [|done]. csimpl. rewrite Forall_cons, !app_assoc. split.
      + intros (a & (Ht & Hn & ->) & H). by apply IH in H as (H1 & H2 & ->).
      + intros ([Ht Ht'] & Hn & ->). exists (acc ++ decls m). assert (Hn' : NoDup (mkeys (acc ++ decls m))).
        { unfold mkeys in *. rewrite fmap_app in Hn. by apply NoDup_app in Hn as (? & _). }
        split; [done|]. by apply IH. }
  unfold readScriptModules, each. rewrite outcome_bind_Ok, has_array. setoid_rewrite readArray_Ok.
  setoid_rewrite Hloop; [|constructor]. split.
  - intros (l & -> & Ht & Hn & ->). eauto.
  - intros ((l & -> & Ht) & Hn & ->). eauto.
Qed.

(** Attachments: each a script declared for this kind of host, none twice. *)
Definition attached (hosts : jsmap jstr jstr) (host : jstr) (l : list json) : Prop :=
  Forall (fun a => mget hosts (str a "script") = Some host) l /\ NoDup ((fun a => str a "script") <$> l).

Lemma readAttachment_Ok p hosts host seen i e seen' :
  readAttachment p hosts host seen i e = Ok seen'
  <-> ((has_type ScriptAttachment e /\ mget hosts (str e "script") = Some host) /\ str e "script" ∉ seen) /\ seen' = seen ++ [str e "script"].
Proof.
  unfold readAttachment, ScriptAttachment. rewrite typed_object. cbn [fields req opt]. split.
  - intros H. inv_reads. match goal with H : match mget ?h ?k with _ => _ end = _ |- _ => destruct (mget h k) as [d|] eqn:Ed; [|done] end.
    inv_reads. match goal with H : bool_decide _ = true |- _ => apply bool_decide_eq_true in H as -> end.
    rewrite sadd_not_in by done. split; [|done]. split; [|done]. split; [|done]. eexists. by split_and!.
  - intros [[[(f & -> & Hs & Hp & _) Hm] Hn] ->]. unfold str in *. cbn [jget] in *. do_reads. unfold member. rewrite Hm.
    rewrite bool_decide_true by done. cbn [negb]. do_reads. by rewrite sadd_not_in.
Qed.

Lemma readAttachments_Ok o p hosts host :
  readAttachments o p hosts host = Ok tt <-> has (TArray ScriptAttachment) o /\ attached hosts host (elems o).
Proof.
  unfold readAttachments, attached. rewrite outcome_bind_Ok, has_array. setoid_rewrite readArray_Ok. setoid_rewrite then_Ok.
  setoid_rewrite (each_unique _ _ _ _ _ (readAttachment_Ok p hosts host)). setoid_rewrite Forall_and. split.
  - intros (l & -> & (a & [[Ht Hm] Hn] & ->) & _). eauto.
  - intros ((l & -> & Ht) & Hm & Hn). eexists. split; [done|]. split; [|done]. eexists. by split_and!.
Qed.

Lemma readTags_Ok o p : readTags o p = Ok tt <-> has (TArray TKey) o /\ NoDup ((fun t => as_str (Some t)) <$> elems o).
Proof.
  assert (Htag : forall acc i e acc', readTag p acc i e = Ok acc'
      <-> (has_type TKey e /\ as_str (Some e) ∉ acc) /\ acc' = acc ++ [as_str (Some e)]).
  { intros acc i e acc'. unfold readTag. split.
    - intros H. inv_reads. by rewrite sadd_not_in.
    - intros [[Hk Hn] ->]. change (has_type TKey e) with (has TKey (Some e)) in Hk. do_reads. by rewrite sadd_not_in. }
  unfold readTags. rewrite outcome_bind_Ok, has_array. setoid_rewrite readArray_Ok. setoid_rewrite then_Ok.
  setoid_rewrite (each_unique _ _ _ _ _ Htag). split.
  - intros (l & -> & (a & [Ht Hn] & ->) & _). eauto.
  - intros ((l & -> & Ht) & Hn). eexists. split; [done|]. split; [|done]. eexists. by split_and!.
Qed.

(** ** Templates *)

Lemma has_literal k o : has (TEnum [k]) o <-> o = Some (JStr k).
Proof. destruct o as [j|]; cbn [has has_type]; [|naive_solver]. setoid_rewrite list_elem_of_singleton. naive_solver. Qed.

Definition fields_of (e : json) : jsmap jstr json := match e with JObj f => f | _ => [] end.

(** A sprite draws a declared asset. *)
Definition sprite_known (assets : jsset jstr) (o : option json) : Prop :=
  forall v, o = Some v -> str v "kind" = js "sprite" -> str v "texture" ∈ assets.

Lemma readVisual_Ok o p assets : readVisual o p assets = Ok tt <-> has TemplateVisual o /\ sprite_known assets o.
Proof.
  assert (Hcull : forall f, match member f "neverCull" with None => Ok tt
      | Some _ => _ ← readBoolean (member f "neverCull") (dot p "neverCull"); Ok tt end = Ok tt <-> may TBool (member f "neverCull")).
  { intros f. destruct (member f "neverCull") as [j|]; [|done]. rewrite then_Ok, accepts_boolean. cbn [has may]. naive_solver. }
  assert (Hkind : js "group" <> js "sprite") by done. unfold readVisual, sprite_known. split.
  - intros H. apply outcome_bind_Ok in H as (f & Hf & H). apply readObject_Ok in Hf as ->.
    apply outcome_bind_Ok in H as (k & Hk & H). apply readString_Ok in Hk. unfold member in Hk. case_bool_decide as Hg.
    + subst k. split.
      * right. apply typed_object. exists f. split; [done|]. cbn [fields req]. unfold member. rewrite Hk. split; [|done].
        eexists. split; [done|]. by rewrite list_elem_of_singleton.
      * intros v [= <-]. unfold str. cbn [jget]. rewrite Hk. simpl. congruence.
    + case_bool_decide as Hs; cbn [negb] in H; [|done]. subst k.
      apply outcome_bind_Ok in H as (t & Ht & H). apply readKey_has in Ht as [Ht ->].
      destruct (shas assets _) eqn:Ea; cbn [negb] in H; [|done]. apply shas_spec in Ea.
      apply outcome_bind_Ok in H as ([] & Hn & H). apply readNumbers_fields in Hn. apply Hcull in H. split.
      * left. apply typed_object. exists f. split; [done|]. cbn [fields req opt]. unfold member at 1. rewrite Hk.
        csimpl in Hn. cbn [fields opt] in Hn. destruct Hn as (H1 & H2 & H3 & _). split_and!; try done.
        eexists. split; [done|]. by rewrite list_elem_of_singleton.
      * intros v [= <-] _. done.
  - intros [Ht Hs]. destruct o as [v|]; [|done]. specialize (Hs v eq_refl).
    destruct Ht as [Ht|Ht]; apply typed_object in Ht as (f & -> & Ht); cbn [fields req opt] in Ht; destruct Ht as [Hk Ht];
      apply has_literal in Hk; apply outcome_bind_Ok; exists f; (split; [done|]);
      apply outcome_bind_Ok; eexists; (split; [by apply readString_Ok|]).
    + rewrite bool_decide_false by done. rewrite bool_decide_true by done. cbn [negb]. destruct Ht as (Ht & H1 & H2 & H3 & Hc & _).
      unfold str in Hs. cbn [jget] in Hs. unfold member in Hk. rewrite Hk in Hs. specialize (Hs eq_refl).
      change (as_str (mget f (js "texture"))) with (as_str (member f "texture")) in Hs. do_reads.
      apply outcome_bind_Ok. exists tt. split; [|by apply Hcull]. apply readNumbers_fields. csimpl. cbn [fields opt]. by split_and!.
    + by rewrite bool_decide_true.
Qed.

Lemma then_unit {B} (c : reading unit) (k : reading B) b : (_ ← c; k) = Ok b <-> c = Ok tt /\ k = Ok b.
Proof. rewrite then_Ok. split; [intros [[[] H] ?]; by split|naive_solver]. Qed.

Lemma readTemplateChildren_Ok o p ids ks :
  readTemplateChildren o p ids = Ok ks
  <-> (may (TArray TemplateChildRecord) o /\ Forall (fun c => str c "template" ∈ ids) (elems o)) /\ ks = (fun c => str c "template") <$> elems o.
Proof.
  assert (Hchild : forall q acc i e acc', readChild q ids acc i e = Ok acc'
      <-> (has_type TemplateChildRecord e /\ str e "template" ∈ ids) /\ acc' = acc ++ [str e "template"]).
  { intros q acc i e acc'. unfold readChild, TemplateChildRecord. rewrite typed_object. cbn [fields req opt]. split.
    - intros H. inv_reads. split; [|done]. split; [|done]. eexists. by split_and!.
    - intros [[(f & -> & Hk & Ht & _) Hi] ->]. unfold str in *. cbn [jget] in *. do_reads. done. }
  unfold readTemplateChildren. destruct o as [j|]; [|cbn [may elems]; split; [intros [= <-]; by split_and!|by intros [_ ->]]].
  change (may (TArray TemplateChildRecord) (Some j)) with (has (TArray TemplateChildRecord) (Some j)).
  rewrite outcome_bind_Ok, has_array. setoid_rewrite readArray_Ok.
  assert (Hl : forall l, each (readChild p ids) [] l = Ok ks <-> Forall (fun e => has_type TemplateChildRecord e /\ str e "template" ∈ ids) l
      /\ ks = (fun c => str c "template") <$> l).
  { intros l. rewrite (each_append _ (fun c => str c "template") (fun _ e => has_type TemplateChildRecord e /\ str e "template" ∈ ids)) by done.
    csimpl. by rewrite Forall_lookup. }
  setoid_rewrite Hl. setoid_rewrite Forall_and. split.
  - intros (l & [= ->] & [Ht Hi] & ->). cbn [elems]. eauto 7.
  - intros [[(l & [= ->] & Ht) Hi] ->]. eauto 7.
Qed.

(** The rows of the first pass. *)
Fixpoint rows_of (path : jstr) (n : nat) (l : list json) : list row :=
  match l with [] => [] | e :: l' => (at_index path n, str e "id", fields_of e) :: rows_of path (S n) l' end.

(** What the first pass asks of a record. *)
Definition identified (e : json) : Prop := exists f, e = JObj f /\ has TKey (member f "id").

Lemma readTemplateIds_Ok p l ids rows :
  each (readTemplateId p) ([], []) l = Ok (ids, rows)
  <-> (Forall identified l /\ NoDup ((fun e => str e "id") <$> l)) /\ ids = (fun e => str e "id") <$> l /\ rows = rows_of p 0 l.
Proof.
  assert (Hloop : forall l n acc out, NoDup acc -> each_from (readTemplateId p) n (acc, out) l = Ok (ids, rows)
    <-> (Forall identified l /\ NoDup (acc ++ ((fun e => str e "id") <$> l)))
        /\ ids = acc ++ ((fun e => str e "id") <$> l) /\ rows = out ++ rows_of p n l).
  { clear l. induction l as [|e l IH]; intros n acc out Hnd; cbn [each_from rows_of].
    - csimpl. rewrite !app_nil_r. split; [intros [= -> ->]; by split_and!|by intros (_ & -> & ->)].
    - rewrite outcome_bind_Ok. csimpl. unfold readTemplateId at 1. cbn [fst snd]. rewrite Forall_cons. split.
      + intros (a & H & Hr). inv_reads. rewrite sadd_not_in in Hr by done. apply IH in Hr as ((Hi & Hn) & -> & ->); [|by apply NoDup_snoc].
        unfold str at 1 3. cbn [jget fields_of]. rewrite <- !app_assoc in *. split_and!; try done. eexists. by split.
      + intros ((((f & -> & Hk) & Hi) & Hn) & -> & ->). rewrite cons_middle, app_assoc in Hn.
        pose proof (proj1 (proj1 (NoDup_app _ _) Hn)) as Ha. pose proof Ha as [_ Hf]%NoDup_snoc.
        exists (acc ++ [str (JObj f) "id"], out ++ [(at_index p n, str (JObj f) "id", f)]). split.
        * unfold str in *. cbn [jget] in *. do_reads. by rewrite sadd_not_in.
        * apply IH; [done|]. rewrite <- !app_assoc in *. by split_and!. }
  unfold each. by apply Hloop; constructor.
Qed.

Definition may_children (e : json) : option json := member (fields_of e) "children".

(** What the second pass asks of one, and the children it lists. *)
Definition row_ok (assets : jsset jstr) (hosts : jsmap jstr jstr) (ids : jsset jstr) (f : jsmap jstr json) : Prop :=
  (has TemplateVisual (member f "visual") /\ sprite_known assets (member f "visual"))
  /\ (has (TArray ScriptAttachment) (member f "scripts") /\ attached hosts (js "entity") (elems (member f "scripts")))
  /\ (may (TArray TemplateChildRecord) (member f "children")
      /\ Forall (fun c => str c "template" ∈ ids) (elems (member f "children"))).

Definition node (e : json) : jstr * list jstr :=
  (str e "id", (fun c => str c "template") <$> elems (member (fields_of e) "children")).

Lemma readRows_Ok assets hosts ids p n l acc graph :
  NoDup (mkeys acc ++ ((fun e => str e "id") <$> l)) ->
  readRows assets hosts ids (rows_of p n l) acc = Ok graph
  <-> Forall (fun e => row_ok assets hosts ids (fields_of e)) l /\ graph = acc ++ (node <$> l).
Proof.
  revert n acc. induction l as [|e l IH]; intros n acc Hnd; csimpl; cbn [readRows rows_of].
  - rewrite app_nil_r. split; [intros [= ->]; by split|by intros [_ ->]].
  - csimpl in Hnd. rewrite cons_middle, app_assoc in Hnd. pose proof (proj1 (proj1 (NoDup_app _ _) Hnd)) as Ha.
    pose proof Ha as [_ Hf]%NoDup_snoc. rewrite Forall_cons, then_unit, then_unit, outcome_bind_Ok.
    setoid_rewrite readTemplateChildren_Ok. rewrite readVisual_Ok, readAttachments_Ok.
    assert (Hnext : forall ks, mkeys (mset acc (str e "id") ks) = mkeys acc ++ [str e "id"]).
    { intros ks. rewrite mkeys_mset_sadd. by apply sadd_not_in. }
    split.
    + intros (Hv & Hs & ks & [Hc ->] & Hr). apply IH in Hr as [Hall ->]; [|by rewrite Hnext].
      split; [split; [split; [exact Hv|by split]|done]|]. rewrite mset_fresh by done. by rewrite <- app_assoc.
    + intros [[(Hv & Hs & Hc) Hall] ->]. split; [done|]. split; [done|]. eexists. split; [by split|].
      apply IH; [by rewrite Hnext|]. split; [done|]. rewrite mset_fresh by done. by rewrite <- app_assoc.
Qed.

(** The reference graph of a file's templates. *)
Definition graph (l : list json) : jsmap jstr (list jstr) := node <$> l.

Definition template_ok (assets : jsset jstr) (hosts : jsmap jstr jstr) (ids : jsset jstr) (e : json) : Prop :=
  sprite_known assets (jget e "visual") /\ attached hosts (js "entity") (arr e "scripts")
  /\ Forall (fun c => str c "template" ∈ ids) (arr e "children").

Lemma template_typed assets hosts ids e :
  identified e /\ row_ok assets hosts ids (fields_of e) <-> has_type TemplateRecord e /\ template_ok assets hosts ids e.
Proof.
  unfold TemplateRecord. rewrite typed_object. unfold identified, row_ok, template_ok, arr. cbn [fields req opt]. split.
  - intros [(f & -> & Hid) ((Hv & Hs) & (Ht & Ha) & (Hc & Hk))]. cbn [fields_of jget] in *. split; [|by split_and!].
    eexists. by split_and!.
  - intros [(f & -> & Hid & Hv & Ht & Hc & _) (Hs & Ha & Hk)]. cbn [fields_of jget] in *. split; [by eexists|]. by split_and!.
Qed.

Lemma template_all assets hosts ids l :
  Forall identified l /\ Forall (fun e => row_ok assets hosts ids (fields_of e)) l
  <-> Forall (has_type TemplateRecord) l /\ Forall (template_ok assets hosts ids) l.
Proof. rewrite <- !Forall_and. apply Forall_iff. intros e. apply template_typed. Qed.

Lemma readTemplates_Ok o p assets hosts ids :
  readTemplates o p assets hosts = Ok ids
  <-> (has (TArray TemplateRecord) o /\ NoDup ((fun e => str e "id") <$> elems o)
       /\ Forall (template_ok assets hosts ((fun e => str e "id") <$> elems o)) (elems o)
       /\ forall id, id ∈ mkeys (graph (elems o)) -> ~ nests (graph (elems o)) id MAX_TEMPLATE_DEPTH)
      /\ ids = (fun e => str e "id") <$> elems o.
Proof.
  unfold readTemplates. rewrite outcome_bind_Ok, has_array. setoid_rewrite readArray_Ok. split.
  - intros (l & -> & H). cbn [elems]. apply outcome_bind_Ok in H as ([ids' rows] & H1 & H). apply readTemplateIds_Ok in H1 as ((Hi & Hn) & -> & ->).
    apply outcome_bind_Ok in H as (g & H2 & H). apply readRows_Ok in H2 as [Hr ->]; [|done].
    apply outcome_bind_Ok in H as ([] & H3 & [= <-]). rewrite closeTemplates_Ok in H3.
    destruct (proj1 (template_all _ _ _ _) (conj Hi Hr)) as [Ht Hok]. split; [|done]. split_and!; [by eexists|done|done|exact H3].
  - intros [((l & -> & Ht) & Hn & Hok & Hg) ->]. cbn [elems] in *. exists l. split; [done|].
    destruct (proj2 (template_all _ _ _ _) (conj Ht Hok)) as [Hi Hr].
    apply outcome_bind_Ok. eexists (_, _). split; [apply readTemplateIds_Ok; by split_and!|]. cbn beta iota.
    apply outcome_bind_Ok. eexists. split; [apply readRows_Ok; [done|]; by split|].
    apply then_unit. split; [|done]. by apply closeTemplates_Ok.
Qed.

(** ** Entities *)

(** [null], or the name of something in [s]. *)
Definition refers (o : option json) (s : jsset jstr) : Prop := match o with Some JNull => True | _ => as_str o ∈ s end.

Definition entity_ok (templates : jsset jstr) (hosts : jsmap jstr jstr) (earlier : jsset jstr) (e : json) : Prop :=
  refers (jget e "template") templates /\ refers (jget e "parent") earlier
  /\ NoDup ((fun t => as_str (Some t)) <$> arr e "tags") /\ attached hosts (js "entity") (arr e "scripts").

Lemma reference_Ok o p s m :
  unless_null o (key ← readKey o p; if negb (shas s key) then fail p (m key) else Ok tt) = Ok tt
  <-> has (TOr TKey TNull) o /\ refers o s.
Proof.
  assert (Hkey : (key ← readKey o p; if negb (shas s key) then fail p (m key) else Ok tt) = Ok tt <-> has TKey o /\ as_str o ∈ s).
  { split.
    - intros H. by inv_reads.
    - intros [Hk Hs]. by do_reads. }
  unfold unless_null, refers. destruct o as [[]|]; cbn [has has_type]; first [rewrite Hkey; cbn [has]; naive_solver|naive_solver].
Qed.

Lemma readEntity_Ok p templates hosts seen i e seen' :
  readEntity p templates hosts seen i e = Ok seen'
  <-> ((has_type EntityRecord e /\ entity_ok templates hosts seen e) /\ str e "id" ∉ seen) /\ seen' = seen ++ [str e "id"].
Proof.
  unfold readEntity, EntityRecord. rewrite typed_object. cbn [fields req opt]. unfold entity_ok, arr. split.
  - intros H. inv_reads. repeat match goal with u : unit |- _ => destruct u end.
    repeat match goal with
    | H : unless_null _ _ = Ok tt |- _ => apply reference_Ok in H as []
    | H : readTags _ _ = Ok tt |- _ => apply readTags_Ok in H as []
    | H : readAttachments _ _ _ _ = Ok tt |- _ => apply readAttachments_Ok in H as []
    end. rewrite sadd_not_in by done. split; [|done]. split; [|done]. split; [eexists; by split_and!|]. by split_and!.
  - intros [[[(f & -> & Hid & Ht & Hp & Htr & Htg & Hs & _) (Hr1 & Hr2 & Hnd & Ha)] Hn] ->].
    unfold str in *. cbn [jget] in *. do_reads.
    apply then_unit. split; [apply (reference_Ok _ _ _ (no_such "template")); by split|].
    apply then_unit. split; [apply (reference_Ok _ _ _ (fun key => [Text (js "no entity "); quoted key; Text (js " before this one")])); by split|].
    apply then_unit. split; [by apply readTransform_Ok|]. apply then_unit. split; [by apply readTags_Ok|].
    apply then_unit. split; [by apply readAttachments_Ok|]. by rewrite sadd_not_in.
Qed.

Lemma readEntities_Ok o p templates hosts :
  readEntities o p templates hosts = Ok tt
  <-> has (TArray EntityRecord) o /\ NoDup ((fun e => str e "id") <$> elems o)
      /\ forall i e, elems o !! i = Some e -> entity_ok templates hosts ((fun e => str e "id") <$> take i (elems o)) e.
Proof.
  unfold readEntities. rewrite outcome_bind_Ok, has_array. setoid_rewrite readArray_Ok. setoid_rewrite then_Ok.
  setoid_rewrite (each_append _ (fun e => str e "id")
    (fun acc e => (has_type EntityRecord e /\ entity_ok templates hosts acc e) /\ str e "id" ∉ acc)); [|intros; apply readEntity_Ok].
  csimpl. setoid_rewrite <- fresh_NoDup. setoid_rewrite Forall_lookup. split.
  - intros (l & -> & (a & H & _) & _). cbn [elems].
    split_and!; [eexists; split; [done|]| |]; intros i e He; by destruct (H i e He) as [[? ?] ?].
  - intros ((l & -> & Ht) & Hn & Hok). cbn [elems] in *. eexists. split; [done|]. split; [|done]. eexists. split; [|done].
    intros j e He. split; [split; [by eapply Ht|by apply Hok]|by apply Hn].
Qed.

(** ** A valid project *)

Definition named (v : json) (k : string) : list jstr := (fun e => str e "id") <$> arr v k.
Definition script_hosts (v : json) : jsmap jstr jstr := arr v "scriptModules" ≫= decls.
Definition regions_of (v : json) : list json := elems (jget v "settings" ≫= fun s => jget s "regions").

(** What every later reader of a project relies on: the types of the manifest, names that
    are unique, references that resolve, parents before children, scripts on the hosts
    they were declared for, and a template graph within bounds. *)
Record valid_project (v : json) : Prop := {
  vp_typed : has_type ProjectManifest v;
  vp_version : exists x, jget v "formatVersion" = Some (JNum x) /\ feq x (of_Z PROJECT_FORMAT_VERSION) = true;
  vp_regions : NoDup ((fun r => str r "name") <$> regions_of v);
  vp_assets : NoDup (named v "assets");
  vp_scripts : NoDup (mkeys (script_hosts v));
  vp_templates : NoDup (named v "templates");
  vp_template : Forall (template_ok (named v "assets") (script_hosts v) (named v "templates")) (arr v "templates");
  vp_graph : forall id b n, steps (graph (arr v "templates")) id n b -> id ∈ named v "templates" -> (n < MAX_TEMPLATE_DEPTH)%nat;
  vp_entities : NoDup (named v "entities");
  vp_entity : forall i e, arr v "entities" !! i = Some e ->
    entity_ok (named v "templates") (script_hosts v) ((fun e => str e "id") <$> take i (arr v "entities")) e;
  vp_game : attached (script_hosts v) (js "game") (arr v "gameScripts");
}.

Lemma mkeys_graph l : mkeys (graph l) = (fun e => str e "id") <$> l.
Proof. unfold mkeys, graph. by rewrite <- list_fmap_compose. Qed.

Lemma graph_bound l :
  (forall id, id ∈ mkeys (graph l) -> ~ nests (graph l) id MAX_TEMPLATE_DEPTH)
  <-> (forall id b n, steps (graph l) id n b -> id ∈ ((fun e => str e "id") <$> l) -> (n < MAX_TEMPLATE_DEPTH)%nat).
Proof.
  rewrite mkeys_graph. split.
  - intros H id b n Hs Hid. apply Nat.nle_gt. intros Hn. apply (H id Hid). eapply nests_le; [done|]. by exists b.
  - intros H id Hid [b Hs]. specialize (H id b _ Hs Hid). lia.
Qed.

Lemma validate_valid v v' : validate v = Ok v' -> v' = v /\ valid_project v.
Proof.
  unfold validate. intros H. apply outcome_bind_Ok in H as (f & Hf & H). apply readObject_Ok in Hf as [= ->].
  apply outcome_bind_Ok in H as (x & Hx & H). apply readNumber_Ok in Hx as [Hx Hfin].
  destruct (feq x _) eqn:Ev; [|done]. cbn [negb] in H. inv_reads. repeat match goal with u : unit |- _ => destruct u end.
  repeat match goal with
  | H : readSettings _ _ = _ |- _ => apply readSettings_Ok in H as [? ?]
  | H : readAssets _ _ = _ |- _ => apply readAssets_Ok in H as (? & ? & ->)
  | H : readScriptModules _ _ = _ |- _ => apply readScriptModules_Ok in H as (? & ? & ->)
  | H : readTemplates _ _ _ _ = _ |- _ => apply readTemplates_Ok in H as ((? & ? & ? & Hg) & ->); pose proof (proj1 (graph_bound _) Hg)
  | H : readEntities _ _ _ _ = _ |- _ => apply readEntities_Ok in H as (? & ? & ?)
  | H : readAttachments _ _ _ _ = _ |- _ => apply readAttachments_Ok in H as [? ?]
  end.
  split; [done|]. split; try done.
  - unfold ProjectManifest. apply typed_object. exists f. split; [done|]. cbn [fields req]. split_and!; try done.
    rewrite Hx. by exists x.
  - by exists x.
Qed.

Lemma valid_validate v : valid_project v -> validate v = Ok v.
Proof.
  intros [Ht (x & Hx & Hv) Hreg Has Hsc Htn Hto Hg Hen Heo Hga]. unfold ProjectManifest in Ht. apply typed_object in Ht as (f & -> & Ht).
  cbn [fields req] in Ht. destruct Ht as (H1 & H2 & H3 & H4 & H5 & H6 & H7 & H8 & H9 & _). unfold validate.
  apply outcome_bind_Ok. exists f. split; [done|]. cbn [jget] in Hx.
  assert (Hfin : isFinite x = true) by (unfold member in H1; rewrite Hx in H1; by destruct H1 as (y & [= ->] & ?)).
  apply outcome_bind_Ok. exists x. split; [by apply readNumber_Ok|]. rewrite Hv. cbn [negb]. do_reads.
  apply then_unit. split; [by apply readSettings_Ok|].
  apply outcome_bind_Ok. eexists. split; [apply readAssets_Ok; by split_and!|].
  apply outcome_bind_Ok. eexists. split; [apply readScriptModules_Ok; by split_and!|].
  apply outcome_bind_Ok. eexists. split; [apply readTemplates_Ok; split; [split_and!; [done..|by apply graph_bound]|done]|].
  apply then_unit. split; [by apply readEntities_Ok|].
  apply then_unit. split; [by apply readAttachments_Ok|]. done.
Qed.

(** C19. A project file is accepted exactly when it is a valid project, and then handed
    back as it was. *)
Theorem validate_exact (v v' : json) : validate v = Ok v' <-> v' = v /\ valid_project v.
Proof. split; [apply validate_valid|]. intros [-> H]. by apply valid_validate. Qed.

(** What validation returns has the type it is cast to: every member of the manifest
    is there with its type, at every depth, whatever else the file holds. *)
Theorem validated_is_typed (v : json) :
  match validate v with
  | Ok m => m = v /\ has_type ProjectManifest m
  | Throw e => ~ valid_project v
  end.
Proof.
  destruct (validate v) as [m|e] eqn:E.
  - apply validate_valid in E as [-> H]. split; [done|]. apply H.
  - intros H. apply valid_validate in H. congruence.
Qed.

(** ** A small project *)

Definition obj (fs : list (string * json)) : json := JObj ((fun p => (js p.1, p.2)) <$> fs).
Definition n_ (z : Z) : json := JNum (of_Z z).
Definition s_ (s : string) : json := JStr (js s).
Definition box : json := obj [("left", n_ 0); ("right", n_ 100); ("top", n_ 100); ("bottom", n_ 0)]%string.

(** A tank whose turret hangs beneath it, one of them placed. *)
Definition sample_project (formatVersion : Z) (turret_template : string) : json :=
  obj [("formatVersion", n_ formatVersion); ("projectId", s_ "p1"); ("contentHash", s_ "h1");
       ("settings", obj [("simRate", n_ 60); ("sendRate", n_ 20); ("maxPlayers", n_ 4); ("bounds", box);
                         ("regions", JArr [obj [("name", s_ "goal"); ("bounds", box)]])]);
       ("entities", JArr [obj [("id", s_ "e1"); ("template", s_ "tank"); ("parent", JNull); ("tags", JArr [s_ "hero"]); ("scripts", JArr [])];
                          obj [("id", s_ "e2"); ("template", JNull); ("parent", s_ "e1"); ("tags", JArr []); ("scripts", JArr [])]]);
       ("templates", JArr [obj [("id", s_ "tank"); ("visual", obj [("kind", s_ "sprite"); ("texture", s_ "art")]);
                                ("scripts", JArr [obj [("script", s_ "drive"); ("props", obj [("speed", n_ 3)])]]);
                                ("children", JArr [obj [("template", s_ turret_template)]])];
                           obj [("id", s_ "turret"); ("visual", obj [("kind", s_ "group")]); ("scripts", JArr [])]]);
       ("assets", JArr [obj [("id", s_ "art"); ("kind", s_ "texture"); ("url", s_ "art.png")]]);
       ("scriptModules", JArr [obj [("path", s_ "drive.ts");
                                    ("scripts", JArr [obj [("id", s_ "drive"); ("export", s_ "Drive"); ("location", s_ "server"); ("host", s_ "entity")]])]]);
       ("gameScripts", JArr [])]%string.

Lemma sample_projects :
  validate (sample_project 1 "turret") = Ok (sample_project 1 "turret")
  /\ validate (sample_project 1 "tank") = Throw (new_error (js "templates") (contains_itself (js "tank")))
  /\ validate (sample_project 1 "wheel") = Throw (new_error (js "templates[0].children[0].template") (no_such "template" (js "wheel"))).
Proof. vm_compute. by repeat split. Qed.
