(* ===== verification/Project.v ===== *)
(** * Projects ([packages/project/src/migrate.ts, adapters.ts])

    A file below the current format is moved forward one version at a time and a file
    above it is refused; a valid project is then narrowed to what builds a world, what a
    host serves it with and what draws it. *)

From S2P Require Import Prelude JsMap JsNum Json Hosts ProjectFormat TemplateGraph Validate.

Local Open Scope Z_scope.

(** ** Migration *)

(** A step is data of the chain: the function from the fields it reads to the fields it
    writes. *)
Definition Migration : Type := jsmap jstr json -> jsmap jstr json.

Record MigrationChain := MkChain { to : Z; migrations : jsmap Z Migration }.

Definition MIGRATIONS : MigrationChain := MkChain PROJECT_FORMAT_VERSION [].

Definition asObject (value : json) : reading (jsmap jstr json) :=
  match value with JObj f => Ok f | _ => Throw (new_error [] (text "expected a project object")) end.

Definition readVersion (value : option json) : reading Z :=
  match value with
  | Some (JNum x) =>
      match to_Z x with
      | Some z => if z <? 1 then Throw (new_error (js "formatVersion") (text "expected a positive integer")) else Ok z
      | None => Throw (new_error (js "formatVersion") (text "expected a positive integer"))
      end
  | _ => Throw (new_error (js "formatVersion") (text "expected a positive integer"))
  end.

Definition newer_editor (version target : Z) : ProjectFormatError :=
  new_error (js "formatVersion")
    [Printed (of_Z version); Text (js " was written by a newer editor than this build reads (");
     Printed (of_Z target); Text (js ")")].

Definition no_migration (version : Z) : ProjectFormatError :=
  new_error (js "formatVersion") [Text (js "no migration from "); Printed (of_Z version); Text (js " to "); Printed (of_Z (version + 1))].

(** [{ ...step(project), formatVersion: version }]. *)
Definition stamp (version : Z) (f : jsmap jstr json) : jsmap jstr json := mset f (js "formatVersion") (JNum (of_Z version)).

(** The loop, with the versions left as its fuel. *)
Fixpoint migrate_walk (fuel : nat) (chain : MigrationChain) (version : Z) (project : jsmap jstr json) : reading (jsmap jstr json) :=
  match fuel with
  | O => Ok project
  | S fuel =>
      if version <? to chain then
        match mget (migrations chain) version with
        | None => Throw (no_migration version)
        | Some step => let version := version + 1 in migrate_walk fuel chain version (stamp version (step project))
        end
      else Ok project
  end.

Definition migrate (value : json) (chain : MigrationChain) : reading json :=
  project ← asObject value;
  version ← readVersion (member project "formatVersion");
  if to chain <? version then Throw (newer_editor version (to chain))
  else JObj <$> migrate_walk (Z.to_nat (to chain - version)) chain version project.

(** The steps from one version up to another, one after the other. *)
Fixpoint stepped (chain : MigrationChain) (version : Z) (n : nat) (f : jsmap jstr json) : option (jsmap jstr json) :=
  match n with
  | O => Some f
  | S n => step ← mget (migrations chain) version; stepped chain (version + 1) n (stamp (version + 1) (step f))
  end.

Lemma migrate_walk_spec fuel chain version f :
  to chain = version + Z.of_nat fuel ->
  match stepped chain version fuel f with
  | Some f' => migrate_walk fuel chain version f = Ok f'
  | None => exists v, version <= v < to chain /\ mget (migrations chain) v = None
      /\ (forall u, version <= u < v -> is_Some (mget (migrations chain) u))
      /\ migrate_walk fuel chain version f = Throw (no_migration v)
  end.
Proof.
  revert version f. induction fuel as [|fuel IH]; intros version f Hto; [done|]. cbn [migrate_walk stepped].
  rewrite (proj2 (Z.ltb_lt _ _)) by lia. destruct (mget (migrations chain) version) as [step|] eqn:Es; cbn [mbind option_bind].
  - specialize (IH (version + 1) (stamp (version + 1) (step f)) ltac:(lia)). destruct (stepped _ _ _ _); [done|].
    destruct IH as (v & Hv & Hn & Hall & He). exists v. split_and!; [lia|lia|done| |done]. intros u Hu.
    destruct (decide (u = version)) as [->|]; [by eexists|]. apply Hall. lia.
  - exists version. split_and!; [lia|lia|done| |done]. intros u Hu. lia.
Qed.

Lemma stepped_version chain version n f f' :
  stepped chain version (S n) f = Some f' -> mget f' (js "formatVersion") = Some (JNum (of_Z (version + Z.of_nat (S n)))).
Proof.
  revert version f. induction n as [|n IH]; intros version f H; cbn [stepped] in H;
    (destruct (mget (migrations chain) version) as [step|]; [|done]); cbn [mbind option_bind] in H.
  - injection H as <-. unfold stamp. rewrite mget_mset_eq. repeat f_equal.
  - apply IH in H. by replace (version + Z.of_nat (S (S n))) with (version + 1 + Z.of_nat (S n)) by lia.
Qed.

(** Migration walks a file forward one version at a time to the chain's target and
    stamps it there, runs every step in between and no other, refuses a file above the
    target and one whose next step is missing, and leaves a current file as it is. *)
Theorem migration_reaches_target (chain : MigrationChain) (f : jsmap jstr json) :
  match readVersion (mget f (js "formatVersion")) with
  | Throw e => migrate (JObj f) chain = Throw e
  | Ok n =>
      if decide (to chain < n) then migrate (JObj f) chain = Throw (newer_editor n (to chain))
      else match stepped chain n (Z.to_nat (to chain - n)) f with
      | Some f' =>
          migrate (JObj f) chain = Ok (JObj f')
          /\ if decide (n = to chain) then f' = f else mget f' (js "formatVersion") = Some (JNum (of_Z (to chain)))
      | None =>
          exists v, n <= v < to chain /\ mget (migrations chain) v = None
            /\ (forall u, n <= u < v -> is_Some (mget (migrations chain) u)) /\ migrate (JObj f) chain = Throw (no_migration v)
      end
  end.
Proof.
  unfold migrate. cbn [asObject mbind outcome_bind]. unfold member. destruct (readVersion _) as [n|e]; cbn [mbind outcome_bind]; [|done].
  case_decide as Hn; [by rewrite (proj2 (Z.ltb_lt _ _))|]. rewrite (proj2 (Z.ltb_ge _ _)) by lia.
  pose proof (migrate_walk_spec (Z.to_nat (to chain - n)) chain n f ltac:(lia)) as H.
  destruct (stepped _ _ _ _) as [f'|] eqn:Es.
  - rewrite H. split; [done|]. case_decide as Ht.
    + rewrite Ht, Z.sub_diag in Es. by injection Es as <-.
    + destruct (Z.to_nat (to chain - n)) as [|k] eqn:Ek; [lia|]. apply stepped_version in Es. by replace (to chain) with (n + Z.of_nat (S k)) by lia.
  - destruct H as (v & Hv & Hm & Hall & He). exists v. rewrite He. by repeat (split; [done|]).
Qed.

Lemma feq_finite x m e : feq x (SpecFloat.S754_finite false m e) = true -> x = SpecFloat.S754_finite false m e.
Proof.
  unfold feq, SpecFloat.SFeqb, SpecFloat.SFcompare. destruct x as [[]|[]| |[] m' e']; try done.
  destruct (e' ?= e) eqn:Ee; try done. apply Z.compare_eq in Ee as ->.
  destruct (Pos.compare_cont Eq m' m) eqn:Em; try done. by apply Pos.compare_eq in Em as ->.
Qed.

Lemma feq_of_Z_one x : feq x (of_Z 1) = true -> x = of_Z 1.
Proof.
  assert (H : exists m e, of_Z 1 = SpecFloat.S754_finite false m e) by (eexists _, _; vm_compute; reflexivity).
  destruct H as (m & e & ->). apply feq_finite.
Qed.

(** Opening a file with this build's chain accepts the valid projects and no other
    file, unchanged: the two version checks agree. *)
Theorem open_is_validation (v v' : json) :
  (m ← migrate v MIGRATIONS; validate m) = Ok v' <-> v' = v /\ valid_project v.
Proof.
  rewrite outcome_bind_Ok. split.
  - intros (m & Hm & Hv). apply validate_valid in Hv as [-> Hv]. assert (m = v) as ->; [|done].
    destruct v as [ | | | | |f]; try done. unfold migrate in Hm. cbn [asObject mbind outcome_bind] in Hm.
    destruct (readVersion _) as [n|] eqn:Er; [|done]. cbn [mbind outcome_bind] in Hm. destruct (to MIGRATIONS <? n) eqn:E; [done|].
    apply Z.ltb_ge in E. assert (1 <= n).
    { unfold readVersion in Er. destruct (member f _) as [[ | |x| | | ]|]; try done. destruct (to_Z x) as [z|]; [|done].
      destruct (z <? 1) eqn:Ez; [done|]. injection Er as <-. lia. }
    cbn [to MIGRATIONS] in *. unfold PROJECT_FORMAT_VERSION in *. replace (Z.to_nat _) with 0%nat in Hm by lia. by injection Hm as <-.
  - intros [-> Hv]. exists v. split; [|by apply valid_validate]. destruct (vp_version v Hv) as (x & Hx & Hf). apply feq_of_Z_one in Hf as ->.
    destruct v as [ | | | | |f]; try done. unfold migrate. cbn [asObject mbind outcome_bind jget] in *. unfold member. rewrite Hx. reflexivity.
Qed.

(** ** Narrowings *)

(** The class a script resolves to is whatever the host loaded; resolving may miss, which
    drops the attachment. *)
Section Narrow.
Context {K : Type}.

Record ResolvedAttachment := MkResolved { ra_script : jstr; ra_klass : K; ra_props : option json }.
Record ResolvedTemplate := MkTemplate { tp_id : jstr; tp_scripts : list ResolvedAttachment; tp_children : list json }.
Record PlacedEntity := MkPlaced {
  pl_id : jstr; pl_template : option jstr; pl_parent : option jstr; pl_transform : option json;
  pl_tags : list jstr; pl_scripts : list ResolvedAttachment
}.
Record RuntimeAsset := MkAsset { as_key : jstr; as_kind : jstr; as_meta : option json }.
Record GameManifest := MkManifest {
  gm_server : bool; gm_simRate : option json; gm_bounds : option json; gm_regions : list (jstr * option json);
  gm_assets : list RuntimeAsset; gm_templates : list ResolvedTemplate; gm_entities : list PlacedEntity;
  gm_gameScripts : list ResolvedAttachment
}.

Context (resolve : jstr -> option K).

Definition resolveAll (attachments : list json) : list ResolvedAttachment :=
  attachments ≫= (fun a =>
    match resolve (str a "script") with
    | None => []
    | Some klass => [MkResolved (str a "script") klass (jget a "props")]
    end).

Definition toResolvedTemplate (template : json) : ResolvedTemplate :=
  MkTemplate (str template "id") (resolveAll (arr template "scripts")) (arr template "children").

(** [null] or a name. *)
Definition name_or_null (o : option json) : option jstr := match o with Some JNull => None | _ => Some (as_str o) end.

Definition toPlacedEntity (entity : json) : PlacedEntity :=
  MkPlaced (str entity "id") (name_or_null (jget entity "template")) (name_or_null (jget entity "parent")) (jget entity "transform")
    ((fun t => as_str (Some t)) <$> arr entity "tags") (resolveAll (arr entity "scripts")).

Definition toRuntimeAsset (asset : json) : RuntimeAsset := MkAsset (str asset "id") (str asset "kind") (jget asset "meta").

Definition toGameManifest (server : bool) (project : json) : GameManifest :=
  let settings := nullish (jget project "settings") JNull in
  MkManifest server (jget settings "simRate") (jget settings "bounds")
    ((fun r => (str r "name", jget r "bounds")) <$> arr settings "regions")
    (toRuntimeAsset <$> arr project "assets") (toResolvedTemplate <$> arr project "templates")
    (toPlacedEntity <$> arr project "entities") (resolveAll (arr project "gameScripts")).
End Narrow.
Arguments ResolvedAttachment : clear implicits.
Arguments ResolvedTemplate : clear implicits.
Arguments PlacedEntity : clear implicits.
Arguments GameManifest : clear implicits.

(** What a host serves the project with. *)
Definition toServerSettings (project : json) : option json * option json :=
  let settings := nullish (jget project "settings") JNull in (jget settings "sendRate", jget settings "maxPlayers").

Record RenderAssetRef := MkRenderAsset { rn_key : jstr; rn_kind : jstr; rn_url : jstr; rn_meta : option json }.

Definition toRenderAsset (asset : json) : RenderAssetRef :=
  MkRenderAsset (str asset "id") (str asset "kind") (str asset "url") (jget asset "meta").

(** [{ ...template.visual, template: template.id }]. *)
Definition toRenderTemplate (template : json) : jsmap jstr json :=
  mset (fields_of (nullish (jget template "visual") JNull)) (js "template") (JStr (str template "id")).

Definition toRenderManifest (project : json) : list RenderAssetRef * list (jsmap jstr json) :=
  (toRenderAsset <$> arr project "assets", toRenderTemplate <$> arr project "templates").
