(* ===== verification/Templates.v ===== *)
(** * Templates ([packages/core/src/world/templates.ts],
    the attachment of [packages/core/src/runtime/wiring.ts])

    Minting a template's subtree into the world: spawn the root, attach its scripts, tag
    it, then mint its children depth first, all inside one group of the journal. A call
    here acts on the runtime and may throw, leaving what it did before. *)

From S2P Require Import Prelude JsMap JsNum Json Handle SlotTable TagIndex TransformStore EntityTable.
From S2P Require Import Channels ScopeTree Timers Tweens Metadata Hosts World ProjectFormat TemplateGraph Validate Project.

Local Open Scope nat_scope.

(** ** Calls that act on the runtime *)

Inductive failure :=
  | SpawnFailed (e : spawn_error)
  | NotLoadable (m : message).

Definition act (A : Type) : Type := Runtime -> Runtime * outcome failure A.

Definition done_ {A} (a : A) : act A := fun rt => (rt, Ok a).
Definition throw {A} (e : failure) : act A := fun rt => (rt, Throw e).
Definition then_ {A B} (c : act A) (k : A -> act B) : act B :=
  fun rt => match c rt with (rt, Ok a) => k a rt | (rt, Throw e) => (rt, Throw e) end.
Definition doing (f : Runtime -> Runtime) : act unit := fun rt => (f rt, Ok tt).

Declare Scope act_scope.
Notation "'let!' x ':=' c 'in' k" := (then_ c (fun x => k)) (at level 10, x name, c at level 100, k at level 200) : act_scope.
Notation "'do!' c 'in' k" := (then_ c (fun _ => k)) (at level 10, c at level 100, k at level 200) : act_scope.
Local Open Scope act_scope.

(** ** Attaching a script *)

Inductive HostKind := KEntity | KPlayer | KGame | KCamera | KScreen.

#[export] Instance HostKind_eq_dec : EqDecision HostKind.
Proof. solve_decision. Defined.

Definition kind_name (k : HostKind) : string :=
  match k with KEntity => "entity" | KPlayer => "player" | KGame => "game" | KCamera => "camera" | KScreen => "screen" end.

(** Why a class may not sit on a kind of host, if it may not. *)
Definition reject (klass : ScriptClass) (kind : HostKind) (location : ScriptLocation) : option message :=
  let hs := match class_meta klass with Some m => meta_handlers m | None => [] end in
  let hasRequest := existsb (fun h => bool_decide (decl_kind h = onRequest)) hs in
  let hasRoster := existsb (fun h => bool_decide (decl_kind h = onPlayerJoin) || bool_decide (decl_kind h = onPlayerLeave)) hs in
  if bool_decide (location = LSynced) && (bool_decide (kind = KCamera) || bool_decide (kind = KScreen))
  then Some [Text (js "SyncedScript on a " ++ js (kind_name kind) ++ js " host has no authoritative copy to reconcile")]
  else if bool_decide (location = LServer) && bool_decide (kind = KScreen)
  then Some (text "ServerScript<HUDScreen>: a screen exists on one machine")
  else if hasRequest && negb (bool_decide (location = LServer))
  then Some (text "@onRequest is declarable on a ServerScript and nowhere else")
  else if hasRoster && negb (bool_decide (kind = KGame) && bool_decide (location = LServer))
  then Some (text "@onPlayerJoin / @onPlayerLeave are Game-hosted ServerScript only")
  else None.

Definition activeLocationsFor (server : bool) : list ScriptLocation := if server then [LServer; LSynced] else [LClient; LSynced].

Section Templates.
(** What an authored class does when it is constructed and its state hoisted onto the
    host record: the message it throws, if it does; and the id the running bundle
    stamped on it. *)
Context (construct : ScriptClass -> option json -> option message) (scriptIdOf : ScriptClass -> option jstr).

Abbreviation Attachment := (ResolvedAttachment ScriptClass).
Abbreviation Template := (ResolvedTemplate ScriptClass).

Definition attach_ (kind : HostKind) (hostKey : jstr) (klass : ScriptClass) (props : option json) : act unit := fun rt =>
  let location := location_of klass in
  match reject klass kind location with
  | Some m => (rt, Throw (NotLoadable m))
  | None =>
      let '(entry, h, s) := ensure (hosts rt) (scopes rt) hostKey in
      let rt := set_hosts rt h s in
      match construct klass props with
      | Some m =>
          (rt, Throw (NotLoadable ([Text (js "wiring " ++ class_name klass ++ js " onto " ++ hostKey ++ js " threw: ")] ++ m)))
      | None =>
          let obj := next_facade rt in
          let rt := set_facades rt (facades rt) (S obj) in
          let '(si, reg) := makeInstance (instances rt) obj klass (scopeId entry) props in
          (set_instances rt (attach reg hostKey si), Ok tt)
      end
  end.

Definition attachToEntity (id : EntityId) (klass : ScriptClass) (props : option json) : act unit :=
  do! doing (fun rt => (facade rt id).2) in
  do! attach_ KEntity (entityKey id) klass props in
  match scriptIdOf klass with
  | Some script => doing (fun rt => mark rt (Attach id (MkAttachment script props)))
  | None => done_ tt
  end.

Fixpoint attachAll (id : EntityId) (attachments : list Attachment) : act unit :=
  match attachments with
  | [] => done_ tt
  | a :: rest => do! attachToEntity id (ra_klass a) (ra_props a) in attachAll id rest
  end.

(** ** The registry *)

Definition TemplateRegistry : Type := jsmap jstr Template.

Definition twice_claimed (id : jstr) : message := [Text (js "two templates claim the id "); quoted id].

Fixpoint registry_from (byId : TemplateRegistry) (defs : list Template) : outcome message TemplateRegistry :=
  match defs with
  | [] => Ok byId
  | def :: rest => if mhas byId (tp_id def) then Throw (twice_claimed (tp_id def)) else registry_from (mset byId (tp_id def) def) rest
  end.

(** ** Minting *)

Definition MAX_TEMPLATE_NODES : nat := 256.

Definition too_deep (id : jstr) : message := [Text (js "template "); quoted id; Text (js " nests deeper than 8")].
Definition too_many (id : jstr) : message := [Text (js "template "); quoted id; Text (js " mints more than 256 entities")].

(** [transform?.[k]], a number when it is there. *)
Definition field_of (transform : option json) (k : string) : option num :=
  match transform ≫= fun t => jget t k with Some (JNum x) => Some x | _ => None end.

Definition applyTransform (id : EntityId) (transform : option json) (rt : Runtime) : Runtime :=
  let set k f t := match field_of transform k with Some v => f t v | None => t end in
  let t := transforms rt in
  let t := set "z"%string (fun t z => setPosition t id (posX t id) (posY t id) z) t in
  let t := set "rotation"%string (fun t v => setRotation t id v) t in
  let t := set "scale"%string (fun t v => setScale t id v) t in
  let t := set "opacity"%string (fun t v => setOpacity t id v) t in
  let t := set "layer"%string (fun t v => setLayer t id v) t in
  set_transforms rt t.

Definition spawnNode (template : jstr) (x y : num) (ownerId : jstr) (transform : option json) : act EntityId :=
  let! id := (fun rt => match spawn rt template x y ownerId with
                        | Ok (id, rt) => (rt, Ok id)
                        | Throw e => (rt, Throw (SpawnFailed e))
                        end) in
  do! doing (applyTransform id transform) in
  done_ id.

Definition owner_of (rt : Runtime) (id : EntityId) : jstr :=
  nullish (EntityTable.ownerId <$> EntityTable.record (entities rt) id) [].

(** The loop over the children of one definition; [deeper] mints a child's own. *)
Fixpoint mint_each (reg : TemplateRegistry) (deeper : EntityId -> Template -> nat -> act nat) (parent : EntityId) (id : jstr)
    (ownerId : jstr) (children : list json) (minted : nat) : act nat :=
  match children with
  | [] => done_ minted
  | child :: rest =>
      let minted := minted + 1 in
      if MAX_TEMPLATE_NODES <? minted then throw (NotLoadable (too_many id))
      else
        let key := str child "template" in
        let childDef := mget reg key in
        let transform := jget child "transform" in
        let! entity := spawnNode key (nullish (field_of transform "x") f0) (nullish (field_of transform "y") f0) ownerId transform in
        do! attachAll entity (match childDef with Some d => tp_scripts d | None => [] end) in
        do! doing (fun rt => World.attachTo rt entity parent) in
        let! minted := (match childDef with Some d => deeper entity d minted | None => done_ minted end) in
        mint_each reg deeper parent id ownerId rest minted
  end.

(** [fuel] bounds the nesting; running out of it is an error of its own. *)
Fixpoint mintChildren (fuel : nat) (reg : TemplateRegistry) (parent : EntityId) (def : Template) (depth minted : nat) : act nat :=
  match tp_children def with
  | [] => done_ minted
  | children =>
      if MAX_TEMPLATE_DEPTH <=? depth then throw (NotLoadable (too_deep (tp_id def)))
      else match fuel with
      | O => throw (NotLoadable (text "out of fuel"))
      | S fuel => fun rt =>
          mint_each reg (fun entity d minted => mintChildren fuel reg entity d (depth + 1) minted) parent (tp_id def)
            (owner_of rt parent) children minted rt
      end
  end.

Record InstantiateOptions := MkOpts {
  o_x : num; o_y : num; o_ownerId : jstr; o_tags : list jstr; o_scripts : list Attachment; o_transform : option json
}.

(** The body of the [try]. *)
Definition mint_root (reg : TemplateRegistry) (template : jstr) (def : option Template) (opts : InstantiateOptions) : act EntityId :=
  let! root := spawnNode template (o_x opts) (o_y opts) (o_ownerId opts) (o_transform opts) in
  do! attachAll root (match def with Some d => tp_scripts d | None => [] end) in
  do! attachAll root (o_scripts opts) in
  do! doing (fun rt => foldl (fun rt name => World.tag rt root name) rt (o_tags opts)) in
  do! (match def with Some d => mintChildren MAX_TEMPLATE_DEPTH reg root d 1 1 | None => done_ 1 end) in
  done_ root.

Definition instantiate (reg : TemplateRegistry) (template : jstr) (opts : InstantiateOptions) : act EntityId := fun rt =>
  let def := mget reg template in
  match def, o_scripts opts, o_tags opts with
  | None, [], [] => spawnNode template (o_x opts) (o_y opts) (o_ownerId opts) (o_transform opts) rt
  | _, _, _ =>
      let rt := set_channels rt (beginGroup (channels rt)) in
      let '(rt, r) := mint_root reg template def opts rt in
      (set_channels rt (endGroup (channels rt)), r)
  end.

Fixpoint place_each (reg : TemplateRegistry) (minted : jsmap jstr EntityId) (records : list (PlacedEntity ScriptClass)) : act unit :=
  match records with
  | [] => done_ tt
  | r :: rest =>
      let! entity := instantiate reg (nullish (pl_template r) [])
        (MkOpts (nullish (field_of (pl_transform r) "x") f0) (nullish (field_of (pl_transform r) "y") f0) []
           (pl_tags r) (pl_scripts r) (pl_transform r)) in
      let minted := mset minted (pl_id r) entity in
      do! (match pl_parent r ≫= mget minted with Some parent => doing (fun rt => World.attachTo rt entity parent) | None => done_ tt end) in
      place_each reg minted rest
  end.

Definition instantiatePlaced (reg : TemplateRegistry) (records : list (PlacedEntity ScriptClass)) : act unit := place_each reg [] records.

(** ** What a call journals *)

Definition spawned (l : list SingleOp) : list EntityId := omap (fun o => match o with Spawn id _ => Some id | _ => None end) l.

(** Every op is about entities spawned before it, [known] being spawned already. *)
Fixpoint ordered (known : list EntityId) (l : list SingleOp) : Prop :=
  match l with
  | [] => True
  | Spawn id _ :: l => ordered (known ++ [id]) l
  | Reparent id to :: l => (id ∈ known /\ to ∈ known) /\ ordered known l
  | Attach id _ :: l | Tag id _ _ :: l => id ∈ known /\ ordered known l
  | Destroy _ :: l => False
  end.

Lemma spawned_app l l' : spawned (l ++ l') = spawned l ++ spawned l'.
Proof. apply omap_app. Qed.

Lemma ordered_app known l l' : ordered known (l ++ l') <-> ordered known l /\ ordered (known ++ spawned l) l'.
Proof.
  revert known. induction l as [|o l IH]; intros known; csimpl; [rewrite app_nil_r; tauto|].
  destruct o; csimpl; rewrite ?IH; try tauto. change (omap _ l) with (spawned l). rewrite <- app_assoc. tauto.
Qed.

(** The ops a call journals, and what it promises of them when it returns and when it
    throws. *)
Definition emits {A} (known : list EntityId) (Q : A -> list SingleOp -> Prop) (E : failure -> list SingleOp -> Prop) (c : act A) : Prop :=
  forall rt, exists l, channels (c rt).1 = foldl markStructural (channels rt) l /\ ordered known l
    /\ match (c rt).2 with Ok a => Q a l | Throw e => E e l end.

Lemma emits_done {A} known (Q : A -> list SingleOp -> Prop) E a : Q a [] -> emits known Q E (done_ a).
Proof. intros H rt. by exists []. Qed.

Lemma emits_throw {A} known (Q : A -> list SingleOp -> Prop) (E : failure -> list SingleOp -> Prop) e : E e [] -> emits known Q E (throw e).
Proof. intros H rt. by exists []. Qed.

Lemma emits_then {A B} known (Q : A -> list SingleOp -> Prop) E (Q' : B -> list SingleOp -> Prop) E' c k :
  emits known Q E c ->
  (forall a l, Q a l -> emits (known ++ spawned l) (fun b l' => Q' b (l ++ l')) (fun e l' => E' e (l ++ l')) (k a)) ->
  (forall e l, E e l -> E' e l) ->
  emits known Q' E' (then_ c k).
Proof.
  intros Hc Hk He rt. unfold then_. destruct (Hc rt) as (l & Hl & Ho & Hr). destruct (c rt) as [rt1 [a|e]]; cbn [fst snd] in *.
  - destruct (Hk a l Hr rt1) as (l' & Hl' & Ho' & Hr'). exists (l ++ l'). rewrite foldl_app, <- Hl. split; [done|].
    split; [by apply ordered_app|done].
  - exists l. split; [done|]. split; [done|by apply He].
Qed.

Lemma emits_weaken {A} known (Q Q' : A -> list SingleOp -> Prop) (E E' : failure -> list SingleOp -> Prop) c :
  (forall a l, Q a l -> Q' a l) -> (forall e l, E e l -> E' e l) -> emits known Q E c -> emits known Q' E' c.
Proof.
  intros HQ HE Hc rt. destruct (Hc rt) as (l & Hl & Ho & Hr). exists l. split; [done|]. split; [done|].
  destruct (c rt).2; auto.
Qed.

(** A change to the runtime that journals a fixed list. *)
Lemma emits_doing known (f : Runtime -> Runtime) (ops : list SingleOp) (Q : unit -> list SingleOp -> Prop) E :
  (forall rt, channels (f rt) = foldl markStructural (channels rt) ops) -> ordered known ops -> Q tt ops -> emits known Q E (doing f).
Proof. intros Hf Ho HQ rt. exists ops. split; [apply Hf|by split]. Qed.

(** An error of the walk itself, which a bounded template graph never meets. *)
Definition walk_error (e : failure) : Prop := e = NotLoadable (text "out of fuel") \/ exists id, e = NotLoadable (too_deep id).

(** [e] is no running out of fuel, nor, where [G] holds, of depth. *)
Definition expected_error (G : Prop) (e : failure) : Prop :=
  e <> NotLoadable (text "out of fuel") /\ (G -> forall id, e <> NotLoadable (too_deep id)).

Lemma foreign_error G e : ~ walk_error e -> expected_error G e.
Proof. intros H. split; [intros ->; apply H; by left|]. intros _ id ->. apply H. right. by eexists. Qed.

(** The walk's own messages begin with an [o] or a [t], no other message does. *)
Definition initial (m : message) : option Z := match m with Text (u :: _) :: _ => Some u | _ => None end.

Lemma walk_initial m : walk_error (NotLoadable m) -> initial m = Some 111%Z \/ initial m = Some 116%Z.
Proof. intros [[= ->]|[id [= ->]]]; [by left|by right]. Qed.

Lemma emits_attach_ known kind key klass props :
  emits known (fun _ l => l = []) (fun e l => l = [] /\ ~ walk_error e) (attach_ kind key klass props).
Proof.
  intros rt. exists []. unfold attach_. destruct (reject klass kind (location_of klass)) as [m|] eqn:Er.
  - cbn [fst snd]; split_and!; try done; intros Hw%walk_initial. unfold reject in Er.
    repeat match type of Er with (if ?b then _ else _) = _ => destruct b; [injection Er as <-; by destruct Hw|] end. discriminate Er.
  - destruct (ensure _ _ _) as [[entry h] s]. destruct (construct klass props) as [m|].
    + cbn [fst snd]; split_and!; try done; intros Hw%walk_initial. by destruct Hw.
    + destruct (makeInstance _ _ _ _ _) as [si reg]. done.
Qed.

Lemma facade_channels rt id : channels (facade rt id).2 = channels rt.
Proof. unfold facade. by destruct (mget (facades rt) id). Qed.

(** Calls about one entity that spawn nothing. *)
Definition quiet {A} (_ : A) (l : list SingleOp) : Prop := spawned l = [].
Definition quiet_error (e : failure) (l : list SingleOp) : Prop := spawned l = [] /\ ~ walk_error e.

Lemma emits_attachToEntity known id klass props : id ∈ known -> emits known quiet quiet_error (attachToEntity id klass props).
Proof.
  intros Hid. eapply (emits_then _ (fun _ l => l = []) quiet_error).
  - apply (emits_doing _ _ []); [intros rt; apply facade_channels|done|done].
  - intros [] l ->. csimpl. rewrite app_nil_r. eapply (emits_then _ (fun _ l => l = []) (fun e l => l = [] /\ ~ walk_error e)).
    + apply emits_attach_.
    + intros [] l ->. csimpl. rewrite app_nil_r. destruct (scriptIdOf klass) as [script|]; [|by apply emits_done].
      by apply (emits_doing _ _ [Attach id (MkAttachment script props)]).
    + intros e l [-> He]. by split.
  - done.
Qed.

Lemma quiet_app_Q {A} l (a : A) l' : quiet tt l -> quiet a l' -> quiet a (l ++ l').
Proof. unfold quiet. intros H H'. by rewrite spawned_app, H, H'. Qed.

Lemma quiet_app_E l e l' : quiet tt l -> quiet_error e l' -> quiet_error e (l ++ l').
Proof. unfold quiet, quiet_error. intros H [H' He]. by rewrite spawned_app, H, H'. Qed.

Lemma emits_attachAll known id attachments : id ∈ known -> emits known quiet quiet_error (attachAll id attachments).
Proof.
  intros Hid. induction attachments as [|a rest IH]; cbn [attachAll]; [by apply emits_done|].
  eapply emits_then; [by apply emits_attachToEntity| |done]. intros [] l Hl. unfold quiet in Hl. rewrite Hl, app_nil_r.
  eapply emits_weaken; [..|exact IH]; intros; [by apply quiet_app_Q|by apply quiet_app_E].
Qed.

Lemma emits_tags known id names (E : failure -> list SingleOp -> Prop) :
  id ∈ known -> emits known quiet E (doing (fun rt => foldl (fun rt name => World.tag rt id name) rt names)).
Proof.
  intros Hid. apply (emits_doing _ _ ((fun name => Tag id name true) <$> names)).
  - induction names as [|n names IH]; intros rt; [done|]. csimpl. rewrite IH. done.
  - induction names as [|n names IH]; csimpl; [done|]. by split.
  - unfold quiet. by induction names.
Qed.

Lemma emits_attachTo known id parent (E : failure -> list SingleOp -> Prop) :
  id ∈ known -> parent ∈ known -> emits known quiet E (doing (fun rt => World.attachTo rt id parent)).
Proof.
  intros Hid Hp rt. unfold doing, World.attachTo. destruct (EntityTable.attachTo (entities rt) id parent) as [t []];
    try (by exists []). by exists [Reparent id parent].
Qed.

Lemma emits_spawnNode known template x y owner transform :
  emits known (fun id l => l = [Spawn id template]) (fun e l => l = [] /\ ~ walk_error e) (spawnNode template x y owner transform).
Proof.
  eapply (emits_then _ (fun id l => l = [Spawn id template]) (fun e l => l = [] /\ ~ walk_error e)).
  - intros rt. unfold spawn. destruct (MAX_ENTITIES <=? _)%Z; [exists []; cbn; split_and!; try done; intros [Hw|[? Hw]]; done|].
    destruct (create (entities rt) template owner) as [[id t]|e]; [|exists []; cbn; split_and!; try done; intros [Hw|[? Hw]]; done].
    exists [Spawn id template]. cbn [fst snd]. rewrite facade_channels. done.
  - intros id l ->. eapply (emits_then _ (fun _ l => l = []) (fun _ _ => False)); [|intros [] l ->; by apply emits_done|done].
    by apply (emits_doing _ _ []).
  - done.
Qed.

(** ** The budget and the depth *)

Section Mint.
Context (reg : TemplateRegistry).

(** The reference graph of the registry, and the hypothesis under which it is bounded. *)
Definition reg_graph : jsmap jstr (list jstr) := (fun e => (e.1, (fun c => str c "template") <$> tp_children e.2)) <$> reg.

Context (G : Prop).

Definition minted_ok (m : nat) (m' : nat) (l : list SingleOp) : Prop := m' = m + length (spawned l) /\ m' <= MAX_TEMPLATE_NODES.
Definition failed_ok (m : nat) (e : failure) (l : list SingleOp) : Prop :=
  m + length (spawned l) <= MAX_TEMPLATE_NODES /\ expected_error G e.

Lemma mint_each_ok deeper parent id owner cs known minted :
  parent ∈ known -> minted <= MAX_TEMPLATE_NODES ->
  (forall c d known entity m, c ∈ cs -> mget reg (str c "template") = Some d -> entity ∈ known -> m <= MAX_TEMPLATE_NODES ->
     emits known (minted_ok m) (failed_ok m) (deeper entity d m)) ->
  emits known (minted_ok minted) (failed_ok minted) (mint_each reg deeper parent id owner cs minted).
Proof.
  intros Hp Hm Hdeep. revert known minted Hp Hm. induction cs as [|c cs IH]; intros known minted Hp Hm; cbn [mint_each].
  { apply emits_done. unfold minted_ok. simpl. lia. }
  destruct (MAX_TEMPLATE_NODES <? minted + 1) eqn:Eb.
  { apply emits_throw. split; [simpl; lia|]. split; [done|]. intros _ i [=]. }
  apply Nat.ltb_ge in Eb.
  eapply emits_then; [apply emits_spawnNode| |intros e l [-> He]; split; [simpl; lia|by apply foreign_error]].
  intros entity l ->. change (spawned [Spawn entity _]) with [entity].
  assert (Hin : entity ∈ known ++ [entity]) by (apply elem_of_app; right; by apply list_elem_of_singleton).
  assert (Hpin : parent ∈ known ++ [entity]) by (apply elem_of_app; by left).
  eapply emits_then; [by apply emits_attachAll| |].
  2: { intros e l [Hl He]. split; [rewrite spawned_app, Hl; simpl; lia|by apply foreign_error]. }
  intros [] l1 Hl1. unfold quiet in Hl1. rewrite Hl1, app_nil_r.
  eapply (emits_then _ _ (fun _ _ => False)); [by apply emits_attachTo| |done].
  intros [] l2 Hl2. unfold quiet in Hl2. rewrite Hl2, app_nil_r.
  eapply (emits_then _ (minted_ok (minted + 1)) (failed_ok (minted + 1))).
  - destruct (mget reg (str c "template")) as [d|] eqn:Ed; [eapply Hdeep; [left|done|done|lia]|].
    apply emits_done. unfold minted_ok. simpl. lia.
  - intros m l3 [-> Hb]. eapply emits_weaken; [| |apply IH].
    + intros m' l4 [-> Hb']. unfold minted_ok. rewrite !spawned_app, Hl1, Hl2. simpl in *. rewrite length_app. lia.
    + intros e l4 [Hb' He]. split; [|done]. rewrite !spawned_app, Hl1, Hl2. simpl in *. rewrite length_app. lia.
    + intros c' d known' entity' m' Hc. apply Hdeep. by right.
    + apply elem_of_app. by left.
    + done.
  - intros e l3 [Hb He]. split; [|done]. rewrite !spawned_app, Hl1, Hl2. simpl in *. lia.
Qed.

Lemma mintChildren_ok fuel key parent def depth minted known :
  MAX_TEMPLATE_DEPTH <= depth + fuel -> parent ∈ known -> minted <= MAX_TEMPLATE_NODES -> mget reg key = Some def ->
  (G -> forall n b, steps reg_graph key n b -> depth + n <= MAX_TEMPLATE_DEPTH) ->
  emits known (minted_ok minted) (failed_ok minted) (mintChildren fuel reg parent def depth minted).
Proof.
  revert key parent def depth minted known. induction fuel as [|fuel IH]; intros key parent def depth minted known Hf Hp Hm Hk HG.
  all: assert (Hgraph : kids reg_graph key = (fun c => str c "template") <$> tp_children def) by
    (unfold kids, reg_graph; clear - Hk; induction reg as [|[k d] r IHr]; [done|]; csimpl in *; case_decide; [by injection Hk as ->|by apply IHr]).
  all: cbn [mintChildren]; destruct (tp_children def) as [|c cs] eqn:Ec; [apply emits_done; unfold minted_ok; simpl; lia|].
  all: destruct (MAX_TEMPLATE_DEPTH <=? depth) eqn:Ed; [apply Nat.leb_le in Ed|apply Nat.leb_gt in Ed].
  all: try (apply emits_throw; split; [simpl; lia|]; split; [done|]; intros Hg _ _;
    specialize (HG Hg 1 (str c "template")); assert (Hs : steps reg_graph key 1 (str c "template"));
      [eapply steps_down; [rewrite Hgraph; left|constructor]|specialize (HG Hs); lia]).
  - lia.
  - intros rt. apply (mint_each_ok (fun entity d m => mintChildren fuel reg entity d (depth + 1) m)); [done|done|].
    intros c' d known' entity m Hc Hd He Hm'. apply (IH (str c' "template")); [lia|done|done|done|].
    intros Hg n b Hs. assert (Hs' : steps reg_graph key (S n) b).
    { eapply steps_down; [|done]. rewrite Hgraph, <- Ec. apply list_elem_of_fmap. eexists; split; [done|]. by rewrite Ec. }
    specialize (HG Hg _ _ Hs'). lia.
Qed.

#[local] Arguments mintChildren : simpl never.
#[local] Arguments MAX_TEMPLATE_DEPTH : simpl never.

Lemma mint_root_ok template opts :
  (G -> forall def n b, mget reg template = Some def -> steps reg_graph template n b -> n < MAX_TEMPLATE_DEPTH) ->
  emits [] (fun root l => head l = Some (Spawn root template) /\ length (spawned l) <= MAX_TEMPLATE_NODES)
    (fun e l => length (spawned l) <= MAX_TEMPLATE_NODES /\ expected_error G e)
    (mint_root reg template (mget reg template) opts).
Proof.
  intros HG. unfold mint_root.
  eapply emits_then; [apply emits_spawnNode| |intros e l [-> He]; split; [simpl; unfold MAX_TEMPLATE_NODES; lia|by apply foreign_error]].
  intros root l ->. change ([] ++ spawned [Spawn root _]) with [root].
  assert (Hin : root ∈ [root]) by by apply list_elem_of_singleton.
  assert (Hquiet : forall e l, quiet_error e l -> length (spawned l) + 1 <= MAX_TEMPLATE_NODES /\ expected_error G e).
  { intros e l [Hl He]. rewrite Hl. split; [unfold MAX_TEMPLATE_NODES; simpl; lia|by apply foreign_error]. }
  eapply emits_then; [by apply emits_attachAll| |intros e l H; apply Hquiet in H as [H ?]; csimpl; split; [lia|done]].
  intros [] l1 Hl1. unfold quiet in Hl1. rewrite Hl1. csimpl.
  eapply emits_then; [by apply emits_attachAll| |].
  2: { intros e l H. apply Hquiet in H as [H ?]. csimpl. change (omap _ (l1 ++ l)) with (spawned (l1 ++ l)). rewrite spawned_app, Hl1. simpl. split; [lia|done]. }
  intros [] l2 Hl2. unfold quiet in Hl2. rewrite Hl2. csimpl.
  eapply (emits_then _ _ (fun _ _ => False)); [by apply emits_tags| |done].
  intros [] l3 Hl3. unfold quiet in Hl3. rewrite Hl3. csimpl.
  eapply (emits_then _ (minted_ok 1) (failed_ok 1)).
  - destruct (mget reg template) as [d|] eqn:Ed; [|apply emits_done; unfold minted_ok, MAX_TEMPLATE_NODES; simpl; lia].
    apply (mintChildren_ok _ template); [unfold MAX_TEMPLATE_DEPTH; lia|done|unfold MAX_TEMPLATE_NODES; lia|done|].
    intros Hg n b Hs. specialize (HG Hg d n b eq_refl Hs). lia.
  - intros m l4 [-> Hb]. apply emits_done. split; [done|]. csimpl. change (omap _ ?l) with (spawned l).
    rewrite !app_nil_r, !spawned_app, Hl1, Hl2, Hl3. simpl. lia.
  - intros e l4 [Hb He]. split; [|done]. csimpl. change (omap _ ?l) with (spawned l). rewrite !spawned_app, Hl1, Hl2, Hl3. simpl. lia.
Qed.
End Mint.

(** ** The group *)

Lemma marks_in_group c g l :
  group c = Some g ->
  foldl markStructural c l = MkChannels (structural c) (Channels.state c) (markCount c) (Some (g ++ l)) (groupDepth c).
Proof.
  revert c g. induction l as [|o l IH]; intros c g Hg; cbn [foldl]; [rewrite app_nil_r; destruct c; simpl in *; by rewrite Hg|].
  rewrite (IH _ (g ++ [o])); unfold markStructural; rewrite Hg; simpl; [by rewrite <- app_assoc|done].
Qed.

Lemma group_of_marks c l :
  group c = None -> groupDepth c = 0%Z ->
  endGroup (foldl markStructural (beginGroup c) l)
  = MkChannels (structural c ++ entry l) (Channels.state c) (markCount c) None 0.
Proof.
  intros Hg Hd. rewrite (marks_in_group _ []) by (unfold beginGroup; by rewrite Hd). unfold beginGroup, endGroup. simpl. rewrite Hd. simpl.
  destruct l as [|o [|o' l]]; simpl; by rewrite ?app_nil_r.
Qed.

(** What an instantiation does, whatever becomes of it. *)
Lemma instantiate_ok reg G template opts rt :
  (G -> forall def n b, mget reg template = Some def -> steps (reg_graph reg) template n b -> n < MAX_TEMPLATE_DEPTH) ->
  group (channels rt) = None -> groupDepth (channels rt) = 0%Z ->
  let '(rt', r) := instantiate reg template opts rt in
  exists l,
    channels rt' = MkChannels (structural (channels rt) ++ entry l) (Channels.state (channels rt)) (markCount (channels rt)) None 0
    /\ ordered [] l /\ length (spawned l) <= MAX_TEMPLATE_NODES
    /\ match r with Ok root => head l = Some (Spawn root template) | Throw e => expected_error G e end.
Proof.
  intros HG Hg Hd. unfold instantiate.
  assert (Hroot : let rt0 := set_channels rt (beginGroup (channels rt)) in
    let '(rt', r) := (let '(rt1, r) := mint_root reg template (mget reg template) opts rt0 in (set_channels rt1 (endGroup (channels rt1)), r)) in
    exists l, channels rt' = MkChannels (structural (channels rt) ++ entry l) (Channels.state (channels rt)) (markCount (channels rt)) None 0
      /\ ordered [] l /\ length (spawned l) <= MAX_TEMPLATE_NODES
      /\ match r with Ok root => head l = Some (Spawn root template) | Throw e => expected_error G e end).
  { cbv zeta. destruct (mint_root_ok reg G template opts HG (set_channels rt (beginGroup (channels rt)))) as (l & Hl & Ho & Hr).
    destruct (mint_root _ _ _ _ _) as [rt1 r]. cbn [fst snd] in *. exists l. cbn [channels set_channels] in *. rewrite Hl, group_of_marks by done.
    split; [done|]. split; [done|]. destruct r; destruct Hr; by split. }
  cbv zeta in Hroot. destruct (mget reg template) as [d|] eqn:Ed; [exact Hroot|].
  destruct (o_scripts opts) as [|a s] eqn:Es; [|exact Hroot]. destruct (o_tags opts) as [|t ts] eqn:Et; [|exact Hroot].
  destruct (emits_spawnNode [] template (o_x opts) (o_y opts) (o_ownerId opts) (o_transform opts) rt) as (l & Hl & Ho & Hr).
  destruct (spawnNode _ _ _ _ _ _) as [rt' [root|e]]; cbn [fst snd] in *.
  - subst l. exists [Spawn root template]. rewrite Hl. simpl. unfold markStructural. rewrite Hg, Hd. split_and!; [done|done|unfold MAX_TEMPLATE_NODES; lia|done].
  - destruct Hr as [-> He]. exists []. rewrite Hl. simpl. rewrite app_nil_r. split_and!; [|done|unfold MAX_TEMPLATE_NODES; lia|by apply foreign_error].
    destruct (channels rt); simpl in *; by subst.
Qed.

(** Spawning from a template mints at most [MAX_TEMPLATE_NODES] entities and journals
    them as one entry, whether it returns or throws: the root first, and every later op
    about entities the entry has already spawned. *)
Theorem template_is_one_journal_entry (reg : TemplateRegistry) (template : jstr) (opts : InstantiateOptions) (rt : Runtime) :
  group (channels rt) = None -> groupDepth (channels rt) = 0%Z ->
  let '(rt', r) := instantiate reg template opts rt in
  exists l,
    structural (channels rt') = structural (channels rt) ++ entry l /\ group (channels rt') = None
    /\ ordered [] l /\ length (spawned l) <= MAX_TEMPLATE_NODES
    /\ match r with Ok root => head l = Some (Spawn root template) | Throw e => e <> NotLoadable (text "out of fuel") end.
Proof.
  intros Hg Hd. pose proof (instantiate_ok reg False template opts rt ltac:(done) Hg Hd) as H.
  destruct (instantiate reg template opts rt) as [rt' r]. destruct H as (l & Hc & Ho & Hn & Hr). exists l. rewrite Hc.
  split; [done|]. split; [done|]. split; [done|]. split; [done|]. destruct r; [done|apply Hr].
Qed.

(** ** A validated project loads *)

Definition quiescent (rt : Runtime) : Prop := group (channels rt) = None /\ groupDepth (channels rt) = 0%Z.

Lemma quiescent_attachTo rt id parent : quiescent rt -> quiescent (World.attachTo rt id parent).
Proof.
  intros [Hg Hd]. unfold World.attachTo. destruct (EntityTable.attachTo _ _ _) as [t []]; [|by split..].
  unfold quiescent, mark, markStructural. simpl. by rewrite Hg.
Qed.

Lemma place_each_ok reg records minted rt :
  (forall template def n b, mget reg template = Some def -> steps (reg_graph reg) template n b -> n < MAX_TEMPLATE_DEPTH) ->
  quiescent rt ->
  match (place_each reg minted records rt).2 with Ok _ => True | Throw e => ~ walk_error e end.
Proof.
  intros HG. revert minted rt. induction records as [|r rest IH]; intros minted rt [Hg Hd]; cbn [place_each]; [done|]. unfold then_ at 1.
  set (opts := MkOpts _ _ _ _ _ _). pose proof (instantiate_ok reg True (nullish (pl_template r) []) opts rt (fun _ => HG _) Hg Hd) as H.
  destruct (instantiate _ _ opts rt) as [rt1 [entity|e]]; cbn [snd].
  - destruct H as (l & Hc & _). assert (Hq : quiescent rt1) by (unfold quiescent; by rewrite Hc). unfold then_.
    destruct (pl_parent r ≫= _); cbn; apply IH; [by apply quiescent_attachTo|done].
  - destruct H as (l & _ & _ & _ & [Hf Hde]). intros [->|[id ->]]; [done|]. by apply (Hde I id).
Qed.

Lemma registry_from_ok (defs : list Template) acc :
  NoDup (mkeys acc ++ (tp_id <$> defs)) -> registry_from acc defs = Ok (acc ++ ((fun d => (tp_id d, d)) <$> defs)).
Proof.
  revert acc. induction defs as [|d defs IH]; intros acc Hnd; csimpl in *; cbn [registry_from]; [by rewrite app_nil_r|].
  rewrite cons_middle, app_assoc in Hnd. pose proof (proj1 (proj1 (NoDup_app _ _) Hnd)) as [_ Hf]%NoDup_snoc.
  destruct (mhas acc (tp_id d)) eqn:E; [by apply mhas_spec in E|]. rewrite mset_fresh by done.
  rewrite IH; [by rewrite <- app_assoc|]. unfold mkeys in *. by rewrite fmap_app.
Qed.

Section Load.
Context (resolve : jstr -> option ScriptClass) (server : bool) (v : json) (Hv : valid_project v).

Definition loaded_registry : TemplateRegistry := (fun e => (str e "id", toResolvedTemplate resolve e)) <$> arr v "templates".

Lemma loaded_graph : reg_graph loaded_registry = graph (arr v "templates").
Proof.
  unfold reg_graph, loaded_registry, graph. rewrite <- list_fmap_compose. apply list_fmap_ext. intros i e _. simpl. unfold node. f_equal. f_equal.
  by destruct e.
Qed.

Lemma loaded_bound template def n b :
  mget loaded_registry template = Some def -> steps (reg_graph loaded_registry) template n b -> n < MAX_TEMPLATE_DEPTH.
Proof using Hv.
  intros Hm Hs. rewrite loaded_graph in Hs. apply (vp_graph v Hv template b n Hs).
  assert (Hin : template ∈ mkeys loaded_registry) by (apply mget_is_Some; by eexists).
  unfold mkeys, loaded_registry in Hin. by rewrite <- list_fmap_compose in Hin.
Qed.

Lemma loaded_from : registry_from [] (gm_templates (toGameManifest resolve server v)) = Ok loaded_registry.
Proof using Hv.
  cbn [gm_templates toGameManifest]. rewrite registry_from_ok; csimpl; rewrite <- list_fmap_compose; [done|]. apply (vp_templates v Hv).
Qed.

Lemma name_or_null_refers o s x : refers o s -> name_or_null o = Some x -> x ∈ s.
Proof. by destruct o as [[]|]; simpl; intros H [= <-]. Qed.

Lemma loaded_entity i e :
  gm_entities (toGameManifest resolve server v) !! i = Some e ->
  (forall t, pl_template e = Some t -> mhas loaded_registry t = true)
  /\ (forall p, pl_parent e = Some p -> p ∈ pl_id <$> take i (gm_entities (toGameManifest resolve server v))).
Proof using Hv.
  cbn [gm_entities toGameManifest]. rewrite list_lookup_fmap. intros (r & Hr & ->)%fmap_Some.
  destruct (vp_entity v Hv i r Hr) as (Ht & Hp & _ & _). split.
  - intros t H. apply mhas_spec. unfold mkeys, loaded_registry. rewrite <- list_fmap_compose. exact (name_or_null_refers _ _ _ Ht H).
  - intros p H. rewrite <- fmap_take, <- list_fmap_compose. exact (name_or_null_refers _ _ _ Hp H).
Qed.
End Load.
End Templates.

(** ** One project, from its file to its world *)

Definition drive_class : ScriptClass := MkClass (js "Drive") LServer None.
Definition sample_resolve (id : jstr) : option ScriptClass := if decide (id = js "drive") then Some drive_class else None.
Definition sample_registry : TemplateRegistry := loaded_registry sample_resolve (sample_project 1 "turret").

Lemma template_is_one_journal_entry_witness :
  let r := instantiate (fun _ _ => None) (fun _ => Some (js "drive")) sample_registry (js "tank") (MkOpts f0 f0 [] [js "hero"] [] None) new_runtime in
  r.2 = Ok (packHandle 0 1)
  /\ exists l, structural (channels r.1) = entry l /\ ordered [] l /\ length (spawned l) <= 256 /\ head l = Some (Spawn (packHandle 0 1) (js "tank")).
Proof.
  cbv zeta.
  pose proof (template_is_one_journal_entry (fun _ _ => None) (fun _ => Some (js "drive")) sample_registry (js "tank")
    (MkOpts f0 f0 [] [js "hero"] [] None) new_runtime eq_refl eq_refl) as H.
  assert (Hr : (instantiate (fun _ _ => None) (fun _ => Some (js "drive")) sample_registry (js "tank")
    (MkOpts f0 f0 [] [js "hero"] [] None) new_runtime).2 = Ok (packHandle 0 1)) by (vm_compute; reflexivity).
  destruct (instantiate _ _ _ _ _ _) as [rt' r]. cbn [fst snd] in *. subst r. split; [done|].
  destruct H as (l & Hs & _ & Ho & Hn & Hh). exists l. by split_and!.
Defined.

(** What a validated file may still not do: load a template too wide to mint. *)
Definition wide_project : json :=
  match sample_project 1 "turret" with
  | JObj f => JObj (mset f (js "templates")
      (JArr [obj [("id", s_ "tank"); ("visual", obj [("kind", s_ "group")]); ("scripts", JArr []);
                  ("children", JArr (repeat (obj [("template", s_ "turret")]) 256))];
             obj [("id", s_ "turret"); ("visual", obj [("kind", s_ "group")]); ("scripts", JArr [])]])%string)
  | j => j
  end.

Lemma valid_project_may_be_too_wide :
  validate wide_project = Ok wide_project
  /\ (instantiatePlaced (fun _ _ => None) (fun _ => None) (loaded_registry sample_resolve wide_project)
        (gm_entities (toGameManifest sample_resolve true wide_project)) new_runtime).2 = Throw (NotLoadable (too_many (js "tank"))).
Proof. vm_compute. by split. Qed.
