(* ===== verification/Minting.v ===== *)
(** * What a template mints ([packages/core/src/world/templates.ts])

    The world an instantiation leaves: what was there is as it was, and what is new is one
    tree under the entity the call returns, alive and of the right template, owner and
    place. Loading a project's placed entities is many of them, each hung under its
    parent. *)

From S2P Require Import Prelude JsMap JsNum Json Handle SlotTable TagIndex TransformStore EntityTable.
From S2P Require Import Channels ScopeTree Timers Tweens Metadata Hosts World ProjectFormat TemplateGraph Validate Project Templates.

Local Open Scope Z_scope.

(** ** Growth *)

Definition emap_of (r : Runtime) : emap := SlotTable.abs (entities r).

(** What hangs under [a], itself included. *)
Definition under (r : Runtime) (a x : EntityId) : Prop := rtc (child_of (emap_of r)) a x.

(** An entity as it was: its record, its transform and its tags. *)
Record kept (r r' : Runtime) (x : EntityId) : Prop := {
  kp_record : emap_of r' !! x = emap_of r !! x;
  kp_place : at_ (lanes (transforms r')) (entityIndex x) = at_ (lanes (transforms r)) (entityIndex x);
  kp_tags tag : TagIndex.has (tags r') x tag = TagIndex.has (tags r) x tag;
}.

Lemma kept_entity_refl r x : kept r r x.
Proof. by split. Qed.

Lemma kept_entity_trans r1 r2 r3 x : kept r1 r2 x -> kept r2 r3 x -> kept r1 r3 x.
Proof. intros [A1 A2 A3] [B1 B2 B3]. split; [congruence..|]. intros tag. by rewrite B3. Qed.

(** [r] is [r0] with trees grown on it: what was there is kept, and what is new lives under
    one of the roots [open], each new and without a parent. *)
Record grown (r0 : Runtime) (open : list EntityId) (r : Runtime) : Prop := {
  gr_ok : rt_ok [] r;
  gr_old x : is_Some (emap_of r0 !! x) -> kept r0 r x;
  gr_new x : emap_of r0 !! x = None -> is_Some (emap_of r !! x) -> alive_in (emap_of r) x /\ exists a, a ∈ open /\ under r a x;
  gr_open a : a ∈ open -> emap_of r0 !! a = None /\ exists rec, emap_of r !! a = Some rec /\ parent rec = NONE;
  gr_queue : pendingDestroy r = pendingDestroy r0;
}.

Lemma grown_refl r : rt_ok [] r -> grown r [] r.
Proof.
  intros Hr. split; [done|intros; apply kept_entity_refl| | |done].
  - intros x Hn [rec Hx]. congruence.
  - intros a Ha. by apply not_elem_of_nil in Ha.
Qed.

Lemma child_kept r r' p c : emap_of r' !! p = emap_of r !! p -> child_of (emap_of r') p c <-> child_of (emap_of r) p c.
Proof. intros H. unfold child_of. by rewrite H. Qed.

Lemma under_dom r a x : rt_ok [] r -> under r a x -> is_Some (emap_of r !! a) -> is_Some (emap_of r !! x).
Proof.
  intros Hr. induction 1 as [|x y z Hxy _ IH]; [done|]. intros _. apply IH.
  destruct (tk_down _ _ (fo_tree _ (ro_forest _ _ Hr)) _ _ Hxy) as (rc & Hrc & _). by eexists.
Qed.

Lemma under_grown r0 open r a x : rt_ok [] r0 -> grown r0 open r -> is_Some (emap_of r0 !! a) -> under r0 a x -> under r a x.
Proof.
  intros H0 Hg Ha Hu. unfold under in *. induction Hu as [|x y z Hxy Hu IH]; [done|]. eapply rtc_l.
  - apply (child_kept r0); [|exact Hxy]. apply (kp_record _ _ _ (gr_old _ _ _ Hg _ Ha)).
  - apply IH. apply (under_dom r0 x y H0); [|done]. by apply rtc_once.
Qed.

Lemma grown_trans r0 o1 r1 o2 r2 : rt_ok [] r0 -> grown r0 o1 r1 -> grown r1 o2 r2 -> grown r0 (o1 ++ o2) r2.
Proof.
  intros H0 H1 H2. assert (Hin : forall x, is_Some (emap_of r0 !! x) -> is_Some (emap_of r1 !! x)).
  { intros x Hx. by rewrite (kp_record _ _ _ (gr_old _ _ _ H1 x Hx)). }
  split.
  - apply H2.
  - intros x Hx. apply (kept_entity_trans _ r1); [by apply H1|]. apply H2. auto.
  - intros x Hn Hx. destruct (emap_of r1 !! x) as [rec|] eqn:E.
    + destruct (gr_new _ _ _ H1 x Hn ltac:(by eexists)) as [(rx & Hrx & Hal) (a & Ha & Hu)]. split.
      * exists rx. split; [|done]. rewrite (kp_record _ _ _ (gr_old _ _ _ H2 x ltac:(by eexists))). done.
      * exists a. split; [apply elem_of_app; by left|]. apply (under_grown r1 o2); [apply H1|done| |done].
        destruct (gr_open _ _ _ H1 a Ha) as (_ & ra & Hra & _). by eexists.
    + destruct (gr_new _ _ _ H2 x E Hx) as [Hal (a & Ha & Hu)]. split; [done|]. exists a. split; [apply elem_of_app; by right|done].
  - intros a [Ha|Ha]%elem_of_app.
    + destruct (gr_open _ _ _ H1 a Ha) as (Hn & ra & Hra & Hp). split; [done|]. exists ra. split; [|done].
      rewrite (kp_record _ _ _ (gr_old _ _ _ H2 a ltac:(by eexists))). done.
    + destruct (gr_open _ _ _ H2 a Ha) as (Hn & ra & Hra & Hp). split; [|by exists ra].
      destruct (emap_of r0 !! a) eqn:E; [|done]. destruct (Hin a) as [? ?]; [by eexists|]. congruence.
  - rewrite (gr_queue _ _ _ H2). apply H1.
Qed.

(** A change that leaves the table, the transforms and the tags. *)
Lemma grown_same r0 o r r' : grown r0 o r -> rt_ok [] r' -> entities r' = entities r -> transforms r' = transforms r ->
  tags r' = tags r -> pendingDestroy r' = pendingDestroy r -> grown r0 o r'.
Proof.
  intros [G1 G2 G3 G4 G5] Hok He Ht Hg Hq. assert (E : emap_of r' = emap_of r) by (unfold emap_of; by rewrite He).
  split; [done| | | |congruence].
  - intros x Hx. destruct (G2 x Hx) as [K1 K2 K3]. split; [by rewrite E|by rewrite Ht|intros tag; by rewrite Hg].
  - unfold under. rewrite E. exact G3.
  - rewrite E. exact G4.
Qed.

(** What is old is not under what is new. *)
Lemma old_not_under_new r0 o r a x : rt_ok [] r0 -> grown r0 o r -> emap_of r0 !! a = None -> is_Some (emap_of r0 !! x) -> ~ under r a x.
Proof.
  intros H0 Hg Ha Hx Hu. revert x Hu Hx. refine (rtc_ind_r (fun x => is_Some (emap_of r0 !! x) -> False) a _ _).
  { intros Hx. rewrite Ha in Hx. by destruct Hx. }
  intros y z Hy Hyz IH Hx.
  apply IH. pose proof (fo_tree _ (ro_forest _ _ (gr_ok _ _ _ Hg))) as Hok. destruct (tk_down _ _ Hok _ _ Hyz) as (rc & Hrc & Hp).
  change (SlotTable.abs (entities r, [] ++ pendingDestroy r).1) with (emap_of r) in Hrc.
  rewrite (kp_record _ _ _ (gr_old _ _ _ Hg z Hx)) in Hrc.
  destruct (tk_up _ _ (fo_tree _ (ro_forest _ _ H0)) z rc Hrc) as (ry & Hry & _); [|rewrite Hp in Hry; by eexists].
  rewrite Hp. intros ->. destruct Hyz as (ry & Hry & _). pose proof (tk_null _ _ Hok) as Hnull. unfold emap_of in Hry. cbn in Hnull. congruence.
Qed.

(** ** One entity *)

Ltac other_slot := intros Hne; unfold at_; simpl; f_equal; by rewrite ?arr_get_set_ne by congruence.

Lemma at_setPosition t id x y z j : entityIndex id <> j -> at_ (lanes (setPosition t id x y z)) j = at_ (lanes t) j.
Proof. other_slot. Qed.
Lemma at_setRotation t id d j : entityIndex id <> j -> at_ (lanes (setRotation t id d)) j = at_ (lanes t) j.
Proof. other_slot. Qed.
Lemma at_setScale t id d j : entityIndex id <> j -> at_ (lanes (setScale t id d)) j = at_ (lanes t) j.
Proof. other_slot. Qed.
Lemma at_setOpacity t id d j : entityIndex id <> j -> at_ (lanes (setOpacity t id d)) j = at_ (lanes t) j.
Proof. other_slot. Qed.
Lemma at_setLayer t id d j : entityIndex id <> j -> at_ (lanes (setLayer t id d)) j = at_ (lanes t) j.
Proof. other_slot. Qed.

Lemma applyTransform_other id transform r j : entityIndex id <> j ->
  at_ (lanes (transforms (applyTransform id transform r))) j = at_ (lanes (transforms r)) j.
Proof.
  intros Hne. unfold applyTransform. cbn [transforms set_transforms].
  destruct (field_of transform "z"), (field_of transform "rotation"), (field_of transform "scale"), (field_of transform "opacity"), (field_of transform "layer");
    by rewrite ?at_setLayer, ?at_setOpacity, ?at_setScale, ?at_setRotation, ?at_setPosition.
Qed.

Lemma rt_ok_applyTransform d id transform r : rt_ok d r -> rt_ok d (applyTransform id transform r).
Proof.
  intros Hr. unfold applyTransform. pose proof (ro_store _ _ Hr) as Hs. apply rt_ok_transforms; [done| |].
  - destruct (field_of transform "z"), (field_of transform "rotation"), (field_of transform "scale"), (field_of transform "opacity"), (field_of transform "layer");
      eauto 10 using setPosition_wf, setRotation_wf, setScale_wf, setOpacity_wf, setLayer_wf.
  - by destruct (field_of transform "z"), (field_of transform "rotation"), (field_of transform "scale"), (field_of transform "opacity"), (field_of transform "layer").
Qed.

Lemma initSlot_other t id x :
  0 <= entityIndex id -> TransformStore.wf t -> entityIndex x <> entityIndex id ->
  at_ (lanes (initSlot t id)) (entityIndex x) = at_ (lanes t) (entityIndex x).
Proof.
  intros Hid (n & Hn & Hc) Hne. unfold initSlot. destruct (ensure_spec t (entityIndex id + 1) n Hn) as (m & Hm & Hneed & Hnm & Hat & _).
  simpl. rewrite (reset_at m), Hat by done. by rewrite (proj2 (Z.eqb_neq _ _)) by congruence.
Qed.

Lemma pos_set_own t id px py z : TransformStore.wf t -> 0 <= entityIndex id < count t ->
  posX (setPosition t id px py z) id = px /\ posY (setPosition t id px py z) id = py.
Proof.
  intros (n & [??????] & Hc) Hid. unfold posX, posY, setPosition. simpl. by rewrite !arr_get_set_eq by (unfold arr_len; lia).
Qed.

(** Two entities of one table never share a slot. *)
Lemma apart r x y : rt_ok [] r -> is_Some (emap_of r !! x) -> is_Some (emap_of r !! y) -> x <> y -> entityIndex x <> entityIndex y.
Proof. intros Hr Hx Hy Hne Heq. apply Hne. by apply (live_index_inj (entities r)); [apply (ro_forest _ _ Hr)| | |]. Qed.

Definition fresh (tmpl own : jstr) : EntityTable.EntityRecord := MkEntity tmpl own NONE [] true false.

Lemma spawn_grows r tmpl px py own id r' : rt_ok [] r -> spawn r tmpl px py own = Ok (id, r') ->
  grown r [id] r' /\ emap_of r' = <[id := fresh tmpl own]> (emap_of r) /\ posX (transforms r') id = px /\ posY (transforms r') id = py.
Proof.
  intros Hok Hs. pose proof (rt_ok_spawn [] r tmpl px py own Hok) as Hok'. rewrite Hs in Hok'. unfold spawn in Hs.
  destruct (MAX_ENTITIES <=? _); [done|]. destruct (EntityTable.create (entities r) tmpl own) as [[id' t]|e] eqn:E; [|done].
  pose proof Hok as [Hf Hc Hst Hl Ht He]. pose proof (forest_spawn _ tmpl own id' t Hf E) as Hf'.
  destruct (abs_create _ _ _ _ (fo_wf _ Hf) E) as [Hnone Habs]. cbn [fst snd] in *.
  set (r1 := mark _ _) in Hs. assert (Hfac : entities (facade r1 id').2 = t /\ transforms (facade r1 id').2 = setPosition (initSlot (transforms r) id') id' px py f0
    /\ tags (facade r1 id').2 = tags r /\ pendingDestroy (facade r1 id').2 = pendingDestroy r).
  { unfold facade. by destruct (mget (facades r1) id'). }
  injection Hs as <- <-. destruct Hfac as (He' & Ht' & Hg' & Hq').
  assert (Em : emap_of (facade r1 id').2 = <[id' := fresh tmpl own]> (emap_of r)) by (unfold emap_of; by rewrite He').
  assert (Hid : 0 <= entityIndex id').
  { assert (Hex : SlotTable.abs t !! id' = Some (fresh tmpl own)) by (rewrite Habs; apply lookup_insert_eq).
    rewrite abs_lookup in Hex by apply Hf'. apply (SlotTable.record_spec t id' _ (wf_core _ (fo_wf _ Hf'))) in Hex as (i & Hi & ->).
    destruct (live_slot_valid t i _ (wf_core _ (fo_wf _ Hf')) Hi) as [Hv Hg]. apply entityIndex_nonneg. pose proof (packHandle_bounds i _ Hv Hg). lia. }
  destruct (initSlot_wf (transforms r) id' Hid Hst) as (Hws & Hmono & Hlt). split; [|split; [done|rewrite Ht'; apply pos_set_own; [done|lia]]].
  assert (Hne : forall x, is_Some (emap_of r !! x) -> x <> id') by (intros x [rx Hx] ->; unfold emap_of in Hx; congruence).
  split; [done| | | |done].
  - intros x Hx. specialize (Hne x Hx). assert (Hi : entityIndex id' <> entityIndex x).
    { apply (apart (facade r1 id').2); [done| | |congruence]; rewrite Em; [rewrite lookup_insert_eq; by eexists|by rewrite lookup_insert_ne]. }
    split; [by rewrite Em, lookup_insert_ne| |intros tag; by rewrite Hg'].
    rewrite Ht', at_setPosition by done. by apply initSlot_other.
  - intros x Hn Hx. rewrite Em in *. destruct (decide (x = id')) as [->|Hd]; [|rewrite lookup_insert_ne, Hn in Hx by done; by destruct Hx].
    split; [eexists; split; [apply lookup_insert_eq|done]|]. exists id'. split; [by left|apply rtc_refl].
  - intros a ->%list_elem_of_singleton. split; [done|]. exists (fresh tmpl own). split; [rewrite Em; apply lookup_insert_eq|done].
Qed.

Lemma grown_transform r0 o r id transform : grown r0 o r -> emap_of r0 !! id = None -> is_Some (emap_of r !! id) ->
  grown r0 o (applyTransform id transform r).
Proof.
  intros [G1 G2 G3 G4 G5] Hn Hx. split; [by apply rt_ok_applyTransform| |exact G3|exact G4|done].
  intros x Hs. destruct (G2 x Hs) as [K1 K2 K3]. split; [done| |done]. rewrite applyTransform_other; [done|].
  apply (apart r); [done|done|by rewrite K1|]. intros ->. destruct Hs. congruence.
Qed.

Lemma has_add t id tag x name : x <> id -> TagIndex.has (TagIndex.add t id name) x tag = TagIndex.has t x tag.
Proof.
  intros Hne. assert (Hh : forall t, TagIndex.has t x tag = shas (multi (byTag t) tag) x) by (intros t0; unfold TagIndex.has, TagIndex.multi; by destruct (mget (byTag t0) tag)).
  rewrite !Hh. simpl. rewrite multi_add_spec. destruct (decide (name = tag)) as [->|]; [|done].
  apply eq_true_iff_eq. rewrite !shas_spec, elem_of_sadd. naive_solver.
Qed.

Lemma grown_tag r0 o r id name : grown r0 o r -> emap_of r0 !! id = None -> grown r0 o (World.tag r id name).
Proof.
  intros [G1 G2 G3 G4 G5] Hn. split; [by apply (rt_ok_op [] r None (ETag id name))| |exact G3|exact G4|done].
  intros x Hs. destruct (G2 x Hs) as [K1 K2 K3]. split; [done|done|]. intros tag. rewrite <- K3. apply has_add. intros ->. destruct Hs. congruence.
Qed.

(** ** Attaching *)

Lemma rooted_under m dead x l y : tree_ok m dead -> rooted m x l -> y ∈ l -> rtc (child_of m) y x.
Proof.
  intros Hok. induction 1 as [|id r l Hr Hl IH]; intros Hy; [by apply not_elem_of_nil in Hy|].
  apply elem_of_cons in Hy as [->|Hy]; [apply rtc_refl|]. eapply rtc_r; [by apply IH|]. apply (tk_up _ _ Hok id r Hr).
  intros E. rewrite E in Hl. apply rooted_inv in Hl as [[_ ->]|(r' & l' & _ & Hn & _)]; [by apply not_elem_of_nil in Hy|].
  by rewrite (tk_null _ _ Hok) in Hn.
Qed.

Lemma lookup_m_link m id to r rto x : m !! id = Some r -> m !! to = Some rto -> id <> to ->
  m_link m id to !! x = if decide (x = id) then Some (set_parent to r)
                        else if decide (x = to) then Some (set_children (children rto ++ [id]) rto) else m !! x.
Proof.
  intros Hr Hto Hne. unfold m_link. destruct (decide (x = id)) as [->|Hx].
  - by rewrite lookup_alter_ne, lookup_alter_eq, Hr by done.
  - destruct (decide (x = to)) as [->|Hxt]; [by rewrite lookup_alter_eq, lookup_alter_ne, Hto by done|by rewrite !lookup_alter_ne].
Qed.

(** A root goes under a living entity that is not under it. *)
Lemma attach_lands r id to ri rto : rt_ok [] r -> emap_of r !! id = Some ri -> parent ri = NONE ->
  emap_of r !! to = Some rto -> alive rto = true -> ~ under r id to ->
  let r' := World.attachTo r id to in
  emap_of r' = m_link (emap_of r) id to /\ transforms r' = transforms r /\ tags r' = tags r /\ pendingDestroy r' = pendingDestroy r.
Proof.
  intros Hok Hr Hp Hto Ha Hu. pose proof (fo_wf _ (ro_forest _ _ Hok)) as Hwf. pose proof (fo_tree _ (ro_forest _ _ Hok)) as Htr. cbn [fst snd] in *.
  unfold World.attachTo, EntityTable.attachTo. unfold emap_of in Hr, Hto. rewrite !record_abs, Hr, Hto by apply Hwf. rewrite Ha. simpl negb. cbv iota.
  destruct (tk_rooted _ _ Htr to) as [l Hl]; [by exists rto|].
  assert (Hid0 : id <> NONE) by (intros E; pose proof (tk_null _ _ Htr); congruence).
  pose proof (rooted_length _ _ _ (tk_null _ _ Htr) Hl) as Hlen. pose proof (walk_fuel_enough _ Hwf) as Hfuel.
  pose proof (ancestor_meets_spec (walk_fuel (entities r)) (entities r) to l id (wf_core _ Hwf) (tk_null _ _ Htr) Hl ltac:(lia) Hid0) as Hmeet.
  destruct (ancestor_meets _ (entities r) to id); [exfalso; by apply Hu, (rooted_under _ _ to l id Htr Hl), Hmeet|].
  assert (Hun : unlink (entities r) id = (entities r, false)) by (unfold unlink; by rewrite record_abs, Hr, Hp by apply Hwf).
  rewrite Hun. split; [|done]. unfold emap_of. cbn [entities set_entities mark set_channels].
  by rewrite !abs_modify by (apply core_modify, Hwf || apply Hwf).
Qed.

Lemma grown_attach r0 o r e p : grown r0 o r -> e ∈ o -> emap_of r0 !! p = None -> is_Some (emap_of r !! p) -> ~ under r e p ->
  grown r0 (filter (fun a => a <> e) o) (World.attachTo r e p)
  /\ forall x, emap_of (World.attachTo r e p) !! x =
       if decide (x = e) then set_parent p <$> emap_of r !! e
       else if decide (x = p) then (fun rp => set_children (children rp ++ [e]) rp) <$> emap_of r !! p else emap_of r !! x.
Proof.
  intros Hg He Hp0 [rp Hp] Hu. pose proof Hg as [G1 G2 G3 G4 G5]. destruct (G4 e He) as (He0 & re & Hre & Hpe).
  assert (Hne : e <> p) by (intros ->; apply Hu, rtc_refl).
  destruct (G3 p Hp0 ltac:(by eexists)) as [(rp' & Hrp' & Halp) (a' & Ha' & Hua')]. assert (rp' = rp) as -> by congruence.
  destruct (attach_lands r e p re rp G1 Hre Hpe Hp Halp Hu) as (E & Ht & Hgt & Hq). set (r' := World.attachTo r e p) in *.
  assert (Hlk := fun x => lookup_m_link (emap_of r) e p re rp x Hre Hp Hne).
  assert (Hch : forall q c, child_of (emap_of r) q c -> child_of (emap_of r') q c).
  { intros q c (rq & Hrq & Hc). unfold child_of. rewrite E, Hlk. destruct (decide (q = e)) as [->|]; [exists (set_parent p re); split; [done|]; simpl; congruence|].
    destruct (decide (q = p)) as [->|]; [|by exists rq]. eexists. split; [done|]. simpl. apply elem_of_app. left. congruence. }
  assert (Hund : forall a x, under r a x -> under r' a x).
  { intros a x. unfold under. induction 1; [apply rtc_refl|]. eapply rtc_l; [by apply Hch|done]. }
  split; [|by intros x; rewrite E, Hlk, Hre, Hp]. split.
  - by apply rt_ok_attach.
  - intros x Hx. destruct (G2 x Hx) as [K1 K2 K3]. split; [|by rewrite Ht|intros tag; by rewrite Hgt].
    rewrite E, Hlk. rewrite !decide_False; [done|..]; intros ->; destruct Hx; congruence.
  - intros x Hn Hx. assert (Hx0 : is_Some (emap_of r !! x)).
    { rewrite E, Hlk in Hx. destruct (decide (x = e)) as [->|]; [by eexists|]. destruct (decide (x = p)) as [->|]; [by eexists|done]. }
    destruct (G3 x Hn Hx0) as [(rx & Hrx & Hal) (a & Ha & Hux)]. split.
    + unfold alive_in. rewrite E, Hlk. destruct (decide (x = e)) as [->|]; [eexists; split; [done|]; simpl; congruence|].
      destruct (decide (x = p)) as [->|]; [eexists; split; [done|]; simpl; congruence|by exists rx].
    + destruct (decide (a = e)) as [->|Hae]; [|exists a; split; [by apply list_elem_of_filter|by apply Hund]].
      exists a'. split; [apply list_elem_of_filter; split; [by intros ->|done]|].
      unfold under. etransitivity; [apply (Hund a' p Hua')|]. eapply rtc_l; [|by apply Hund].
      unfold child_of. rewrite E, Hlk, decide_False, decide_True by done. eexists. split; [done|]. simpl. apply elem_of_app. right. by left.
  - intros a [Hae Ha]%list_elem_of_filter. destruct (G4 a Ha) as (Hn & ra & Hra & Hpa). split; [done|]. rewrite E, Hlk, decide_False by done.
    destruct (decide (a = p)) as [->|]; [|by exists ra]. eexists. split; [done|]. simpl. congruence.
  - by rewrite Hq.
Qed.

(** ** What an entity that is there keeps through any of this *)

Definition body (r : Runtime) (x : EntityId) : option (jstr * jstr * EntityId * bool) :=
  (fun rec => (template rec, EntityTable.ownerId rec, parent rec, alive rec)) <$> emap_of r !! x.

Record steady_at (r r' : Runtime) (x : EntityId) : Prop := {
  st_body : body r' x = body r x;
  st_place : at_ (lanes (transforms r')) (entityIndex x) = at_ (lanes (transforms r)) (entityIndex x);
  st_tags tag : TagIndex.has (tags r) x tag = true -> TagIndex.has (tags r') x tag = true;
}.

Definition steady (r r' : Runtime) : Prop := forall x, is_Some (emap_of r !! x) -> steady_at r r' x.

Lemma body_is_Some r x : is_Some (body r x) <-> is_Some (emap_of r !! x).
Proof. unfold body. by rewrite fmap_is_Some. Qed.

Lemma steady_refl r : steady r r.
Proof. by split. Qed.

Lemma steady_trans r1 r2 r3 : steady r1 r2 -> steady r2 r3 -> steady r1 r3.
Proof.
  intros H1 H2 x Hx. destruct (H1 x Hx) as [A1 A2 A3]. assert (Hx2 : is_Some (emap_of r2 !! x)) by (apply body_is_Some; rewrite A1; by apply body_is_Some).
  destruct (H2 x Hx2) as [B1 B2 B3]. split; [congruence..|auto].
Qed.

Lemma steady_grown r o r' : grown r o r' -> steady r r'.
Proof.
  intros Hg x Hx. destruct (gr_old _ _ _ Hg x Hx) as [K1 K2 K3]. split; [unfold body; by rewrite K1|done|]. intros tag. by rewrite K3.
Qed.

Lemma steady_dom r r' x : steady r r' -> is_Some (emap_of r !! x) -> is_Some (emap_of r' !! x).
Proof. intros H Hx. apply body_is_Some. rewrite (st_body _ _ _ (H x Hx)). by apply body_is_Some. Qed.

(** A root [e] that was not in [r] is hung under an entity. *)
Lemma steady_attach r r1 e p : steady r r1 -> emap_of r !! e = None ->
  (forall x, emap_of (World.attachTo r1 e p) !! x = if decide (x = e) then set_parent p <$> emap_of r1 !! e
     else if decide (x = p) then (fun rp => set_children (children rp ++ [e]) rp) <$> emap_of r1 !! p else emap_of r1 !! x) ->
  steady r (World.attachTo r1 e p).
Proof.
  intros Hs He Hlk x Hx. destruct (Hs x Hx) as [A1 A2 A3].
  assert (Hrest : transforms (World.attachTo r1 e p) = transforms r1 /\ tags (World.attachTo r1 e p) = tags r1).
  { unfold World.attachTo. by destruct (EntityTable.attachTo _ _ _) as [t []]. }
  destruct Hrest as [Ht Hg]. split; [|by rewrite Ht|intros tag Hh; rewrite Hg; auto].
  rewrite <- A1. unfold body. rewrite Hlk, decide_False by (intros ->; destruct Hx; congruence).
  destruct (decide (x = p)) as [->|]; [|done]. by destruct (emap_of r1 !! p).
Qed.

(** ** The calls *)

(** A call that leaves the table, the transforms and the tags, thrown or not. *)
Definition aside {A} (c : act A) : Prop := forall r, rt_ok [] r ->
  let r' := (c r).1 in rt_ok [] r' /\ entities r' = entities r /\ transforms r' = transforms r /\ tags r' = tags r /\ pendingDestroy r' = pendingDestroy r.

Lemma aside_done {A} (a : A) : aside (done_ a).
Proof. intros r Hr. by split. Qed.

Lemma aside_then {A B} (c : act A) (k : A -> act B) : aside c -> (forall a, aside (k a)) -> aside (then_ c k).
Proof.
  intros Hc Hk r Hr. unfold then_. destruct (Hc r Hr) as (H1 & H2 & H3 & H4 & H5). destruct (c r) as [r1 [a|e]]; [|done]. cbn in *.
  destruct (Hk a r1 H1) as (J1 & J2 & J3 & J4 & J5). split_and!; [done|congruence..].
Qed.

Lemma grown_aside {A} (c : act A) r0 o r : aside c -> grown r0 o r -> grown r0 o (c r).1.
Proof. intros Hc Hg. destruct (Hc r (gr_ok _ _ _ Hg)) as (H1 & H2 & H3 & H4 & H5). by apply (grown_same r0 o r). Qed.

Lemma steady_aside {A} (c : act A) r : aside c -> rt_ok [] r -> steady r (c r).1.
Proof. intros Hc Hr. apply (steady_grown _ []). apply grown_aside; [done|by apply grown_refl]. Qed.

Lemma rt_ok_hosts d r h s : rt_ok d r -> rt_ok d (set_hosts r h s).
Proof. intros []. by split. Qed.

Lemma rt_ok_instances d r i : rt_ok d r -> rt_ok d (set_instances r i).
Proof. intros []. by split. Qed.

Lemma rt_ok_facades d r f n : rt_ok d r -> rt_ok d (set_facades r f n).
Proof. intros []. by split. Qed.

Lemma rt_ok_channels d r c : rt_ok d r -> rt_ok d (set_channels r c).
Proof. intros []. by split. Qed.

(** Whichever of a runtime's handles two posings share. *)
Lemma posed r r' x : at_ (lanes (transforms r')) (entityIndex x) = at_ (lanes (transforms r)) (entityIndex x) ->
  posX (transforms r') x = posX (transforms r) x /\ posY (transforms r') x = posY (transforms r) x.
Proof. unfold at_, posX, posY. intros H. injection H. by intros. Qed.

Lemma applyTransform_pos id transform r x :
  posX (transforms (applyTransform id transform r)) x = posX (transforms r) x
  /\ posY (transforms (applyTransform id transform r)) x = posY (transforms r) x.
Proof.
  assert (Hset : forall (l : list num) i j, nullish (arr_get (arr_set l i (nullish (arr_get l i) f0)) j) f0 = nullish (arr_get l j) f0).
  { intros l i j. destruct (decide (i = j)) as [->|Hne]; [|by rewrite arr_get_set_ne]. destruct (arr_get l j) as [y|] eqn:E.
    - rewrite arr_get_set_eq; [done|]. by apply arr_get_lt in E.
    - unfold arr_set, arr_get in *. destruct (0 <=? j); [|done]. rewrite list_insert_ge; [by rewrite E|]. by apply lookup_ge_None_1. }
  unfold applyTransform. cbn [transforms set_transforms]. set (t := transforms r).
  unfold posX, posY, setPosition.
  destruct (field_of transform "z"), (field_of transform "rotation"), (field_of transform "scale"), (field_of transform "opacity"), (field_of transform "layer");
    cbn; unfold posX, posY; by rewrite ?Hset.
Qed.

Lemma spawnNode_grows tmpl px py own transform r : rt_ok [] r ->
  match spawnNode tmpl px py own transform r with
  | (r', Ok id) => grown r [id] r' /\ emap_of r !! id = None /\ body r' id = Some (tmpl, own, NONE, true)
                   /\ posX (transforms r') id = px /\ posY (transforms r') id = py
  | (r', Throw _) => r' = r
  end.
Proof.
  intros Hok. unfold spawnNode, then_, doing, done_. destruct (spawn r tmpl px py own) as [[id r1]|e] eqn:E; [|done].
  destruct (spawn_grows _ _ _ _ _ _ _ Hok E) as (Hg & Hm & Hx & Hy). destruct (gr_open _ _ _ Hg id ltac:(by left)) as (Hn & rec & Hrec & _).
  split; [apply grown_transform; [done|done|by eexists]|]. split; [done|]. destruct (applyTransform_pos id transform r1 id) as [-> ->]. split; [|done].
  unfold body. change (emap_of (applyTransform id transform r1)) with (emap_of r1). by rewrite Hm, lookup_insert_eq.
Qed.

Lemma grown_tags r0 o r id names : grown r0 o r -> emap_of r0 !! id = None -> grown r0 o (foldl (fun r name => World.tag r id name) r names).
Proof. intros Hg Hn. revert r Hg. induction names as [|n names IH]; intros r Hg; [done|]. apply IH. by apply grown_tag. Qed.

Lemma tagged_all r id names :
  let r' := foldl (fun r name => World.tag r id name) r names in
  steady r r' /\ transforms r' = transforms r /\ emap_of r' = emap_of r /\ forall name, name ∈ names -> TagIndex.has (tags r') id name = true.
Proof.
  cbv zeta.
  assert (Hh : forall t x tag, TagIndex.has t x tag = shas (multi (byTag t) tag) x) by (intros t x tag; unfold TagIndex.has, TagIndex.multi; by destruct (mget (byTag t) tag)).
  assert (Hstep : forall r x tag name, TagIndex.has (tags r) x tag = true -> TagIndex.has (tags (World.tag r id name)) x tag = true).
  { intros r0 x tag name. rewrite !Hh. simpl. rewrite multi_add_spec. destruct (decide _) as [->|]; [|done]. rewrite !shas_spec, elem_of_sadd. auto. }
  revert r. induction names as [|n names IH]; intros r; [split_and!; [apply steady_refl|done|done|intros name Hn; by apply not_elem_of_nil in Hn]|].
  cbn [foldl]. destruct (IH (World.tag r id n)) as (J1 & J2 & J3 & J4). split_and!; [|done|done|].
  - apply (steady_trans _ (World.tag r id n)); [|done]. intros x _. split; [done|done|auto].
  - intros name [->|Hn]%elem_of_cons; [|auto].
    assert (H1 : TagIndex.has (tags (World.tag r id n)) id n = true) by (rewrite Hh; simpl; rewrite multi_add_spec, decide_True by done; apply shas_spec, elem_of_sadd; by left).
    clear - H1 Hstep. revert H1. generalize (World.tag r id n) as r1. induction names as [|m names IH]; intros r1 H1; [done|]. apply IH. by apply Hstep.
Qed.

Section Minted.
Context (construct : ScriptClass -> option json -> option message) (scriptIdOf : ScriptClass -> option jstr).
Context (reg : TemplateRegistry).

Lemma aside_attach_ kind key klass props : aside (attach_ construct kind key klass props).
Proof.
  intros r Hr. unfold attach_. destruct (reject klass kind (location_of klass)); [by split|].
  destruct (ensure (hosts r) (scopes r) key) as [[entry h] s]. destruct (construct klass props).
  - cbn. split; [by apply rt_ok_hosts|done].
  - destruct (makeInstance _ _ _ _ _) as [si i]. cbn. split; [by apply rt_ok_instances, rt_ok_facades, rt_ok_hosts|done].
Qed.

Lemma aside_attachToEntity id klass props : aside (attachToEntity construct scriptIdOf id klass props).
Proof.
  apply aside_then; [|intros _; apply aside_then; [apply aside_attach_|intros _]].
  - intros r Hr. unfold doing. cbn [fst]. split; [by apply rt_ok_facade|]. unfold facade. by destruct (mget (facades r) id).
  - destruct (scriptIdOf klass); [|apply aside_done]. intros r Hr. cbn. by split; [apply rt_ok_mark|].
Qed.

Lemma aside_attachAll id l : aside (attachAll construct scriptIdOf id l).
Proof. induction l as [|a l IH]; [apply aside_done|]. apply aside_then; [apply aside_attachToEntity|by intros _]. Qed.

(** A call that mints under [p], an entity grown on [r0]: if it returns, no root is left
    over. *)
Definition mints {A} (p : EntityId) (c : act A) : Prop := forall r0 o r,
  rt_ok [] r0 -> grown r0 o r -> emap_of r0 !! p = None -> is_Some (emap_of r !! p) ->
  steady r (c r).1 /\ match (c r).2 with Ok _ => grown r0 o (c r).1 | Throw _ => exists o', grown r0 o' (c r).1 end.

Lemma mints_done {A} p (a : A) : mints p (done_ a).
Proof. intros r0 o r _ Hg _ _. by split; [apply steady_refl|]. Qed.

Lemma mints_throw {A} p e : mints p (throw e : act A).
Proof. intros r0 o r _ Hg _ _. split; [apply steady_refl|by exists o]. Qed.

Lemma mints_then {A B} p (c : act A) (k : A -> act B) : mints p c -> (forall a, mints p (k a)) -> mints p (then_ c k).
Proof.
  intros Hc Hk r0 o r H0 Hg Hn Hp. unfold then_. destruct (Hc r0 o r H0 Hg Hn Hp) as [H1 H2]. destruct (c r) as [r1 [a|e]]; cbn in *; [|done].
  destruct (Hk a r0 o r1 H0 H2 Hn (steady_dom _ _ _ H1 Hp)) as [J1 J2]. split; [by apply (steady_trans _ r1)|done].
Qed.

(** One child: spawned, given its scripts, hung under its parent, and its own minted. *)
Lemma mints_child {A} p key x y own transform scripts (k : EntityId -> act A) :
  (forall e, mints e (k e)) ->
  mints p (then_ (spawnNode key x y own transform) (fun e => then_ (attachAll construct scriptIdOf e scripts) (fun _ =>
    then_ (doing (fun rt => World.attachTo rt e p)) (fun _ => k e)))).
Proof.
  intros Hk r0 o r H0 Hg Hn Hp. unfold then_, doing. pose proof (spawnNode_grows key x y own transform r (gr_ok _ _ _ Hg)) as Hs.
  destruct (spawnNode key x y own transform r) as [r1 [e|f]]; [|cbn; subst r1; split; [apply steady_refl|by exists o]].
  destruct Hs as (Hg1 & He & _). pose proof (aside_attachAll e scripts) as Ha.
  pose proof (grown_aside _ _ _ _ Ha Hg1) as Hg2. destruct (attachAll construct scriptIdOf e scripts r1) as [r2 [[]|f]]; cbn [fst] in *.
  2: { cbn. split; [by apply (steady_grown _ [e])|]. exists (o ++ [e]). by apply (grown_trans _ _ r). }
  pose proof (grown_trans _ _ _ _ _ H0 Hg Hg2) as Hg3. pose proof (steady_grown _ _ _ Hg2) as Hs2.
  assert (Hu : ~ under r2 e p) by (by apply (old_not_under_new r [e] r2 e p (gr_ok _ _ _ Hg) Hg2 He)).
  destruct (grown_attach r0 _ r2 e p Hg3 ltac:(apply elem_of_app; right; by left) Hn (steady_dom _ _ _ Hs2 Hp) Hu) as [Hg4 Hlk].
  assert (Ho : filter (fun a => a <> e) (o ++ [e]) = o).
  { rewrite filter_app, (filter_true _ o), (filter_false _ [e]), app_nil_r; [done| |].
    - intros a ->%list_elem_of_singleton. tauto.
    - intros a Hao ->. destruct (gr_open _ _ _ Hg e Hao) as (_ & ? & ? & _). congruence. }
  rewrite Ho in Hg4. set (r3 := World.attachTo r2 e p) in *.
  pose proof (steady_attach r r2 e p Hs2 He Hlk) as Hs3. fold r3 in Hs3.
  assert (He3 : emap_of r0 !! e = None /\ is_Some (emap_of r3 !! e)).
  { split.
    - destruct (emap_of r0 !! e) as [re|] eqn:E; [|done]. destruct (gr_old _ _ _ Hg e ltac:(by eexists)) as [K _ _]. congruence.
    - rewrite Hlk, decide_True by done. destruct (gr_open _ _ _ Hg2 e ltac:(by left)) as (_ & re & -> & _). by eexists. }
  destruct (Hk e r0 o r3 H0 Hg4 (proj1 He3) (proj2 He3)) as [J1 J2]. split; [by apply (steady_trans _ r3)|done].
Qed.

Lemma mints_each deeper parent id own cs : (forall e d m, mints e (deeper e d m)) ->
  forall m, mints parent (mint_each construct scriptIdOf reg deeper parent id own cs m).
Proof.
  intros Hd. induction cs as [|c cs IH]; intros m; cbn [mint_each]; [apply mints_done|].
  destruct (MAX_TEMPLATE_NODES <? m + 1)%nat; [apply mints_throw|].
  set (key := str c "template"). set (transform := jget c "transform"). set (scripts := match mget reg key with Some d => tp_scripts d | None => [] end).
  pose proof (mints_child parent key (nullish (field_of transform "x") f0) (nullish (field_of transform "y") f0) own transform scripts
    (fun e => match mget reg key with Some d => deeper e d (m + 1)%nat | None => done_ (m + 1)%nat end)) as Hc.
  specialize (Hc ltac:(intros e; destruct (mget reg key); [apply Hd|apply mints_done])).
  pose proof (mints_then parent _ (fun m' => mint_each construct scriptIdOf reg deeper parent id own cs m') Hc IH) as Hall.
  intros r0 o r H0 Hg Hn Hp. specialize (Hall r0 o r H0 Hg Hn Hp). revert Hall. unfold then_, doing.
  destruct (spawnNode _ _ _ _ _ r) as [r1 [e|f]]; [|done]. destruct (attachAll _ _ e _ r1) as [r2 [[]|f]]; [|done].
  fold key. by destruct (match mget reg key with Some d => deeper e d (m + 1)%nat | None => done_ (m + 1)%nat end (World.attachTo r2 e parent)) as [r3 [m'|f]].
Qed.

Lemma mints_children fuel : forall parent def depth m, mints parent (mintChildren construct scriptIdOf fuel reg parent def depth m).
Proof.
  induction fuel as [|fuel IH]; intros parent def depth m; cbn [mintChildren]; destruct (tp_children def) as [|c cs]; try apply mints_done;
    destruct (MAX_TEMPLATE_DEPTH <=? depth)%nat; try apply mints_throw.
  intros r0 o r. by apply (mints_each (fun entity d m => mintChildren construct scriptIdOf fuel reg entity d (depth + 1)%nat m)).
Qed.

(** ** Instantiating *)

(** The entity an instantiation made, where nothing has happened to it since. *)
Definition made (r : Runtime) (id : EntityId) (tmpl : jstr) (opts : InstantiateOptions) : Prop :=
  body r id = Some (tmpl, o_ownerId opts, NONE, true)
  /\ posX (transforms r) id = o_x opts /\ posY (transforms r) id = o_y opts
  /\ forall name, name ∈ o_tags opts -> TagIndex.has (tags r) id name = true.

Definition made_one (r r' : Runtime) (tmpl : jstr) (opts : InstantiateOptions) (res : outcome failure EntityId) : Prop :=
  match res with
  | Ok root => grown r [root] r' /\ emap_of r !! root = None /\ made r' root tmpl opts
  | Throw _ => exists o, grown r o r'
  end.

Lemma steady_pos r r' x : steady r r' -> is_Some (emap_of r !! x) ->
  posX (transforms r') x = posX (transforms r) x /\ posY (transforms r') x = posY (transforms r) x.
Proof. intros H Hx. apply posed, (st_place _ _ _ (H x Hx)). Qed.

Lemma mint_root_grows tmpl def opts r : rt_ok [] r ->
  let s := mint_root construct scriptIdOf reg tmpl def opts r in made_one r s.1 tmpl opts s.2.
Proof.
  intros Hok. unfold mint_root, then_. pose proof (spawnNode_grows tmpl (o_x opts) (o_y opts) (o_ownerId opts) (o_transform opts) r Hok) as Hs.
  destruct (spawnNode _ _ _ _ _ r) as [r1 [root|f]]; [|cbn; subst r1; exists []; by apply grown_refl].
  destruct Hs as (Hg1 & Hn & Hb & Hx & Hy). assert (H1 : is_Some (emap_of r1 !! root)) by (apply body_is_Some; rewrite Hb; by eexists).
  set (own := match def with Some d => tp_scripts d | None => [] end).
  pose proof (grown_aside _ _ _ _ (aside_attachAll root own) Hg1) as Hg2. pose proof (steady_aside _ _ (aside_attachAll root own) (gr_ok _ _ _ Hg1)) as S2.
  destruct (attachAll construct scriptIdOf root own r1) as [r2 [[]|f]]; cbn [fst snd] in *; [|by eexists].
  pose proof (grown_aside _ _ _ _ (aside_attachAll root (o_scripts opts)) Hg2) as Hg3.
  pose proof (steady_aside _ _ (aside_attachAll root (o_scripts opts)) (gr_ok _ _ _ Hg2)) as S3.
  destruct (attachAll construct scriptIdOf root (o_scripts opts) r2) as [r3 [[]|f]]; cbn [fst snd] in *; [|by eexists].
  unfold doing. destruct (tagged_all r3 root (o_tags opts)) as (S4 & _ & _ & Hnames). pose proof (grown_tags r [root] r3 root (o_tags opts) Hg3 Hn) as Hg4.
  set (r4 := foldl _ r3 (o_tags opts)) in *.
  pose proof (steady_trans _ _ _ (steady_trans _ _ _ S2 S3) S4) as S14. pose proof (steady_dom _ _ _ S14 H1) as H4.
  assert (Hk : mints root (match def with Some d => mintChildren construct scriptIdOf MAX_TEMPLATE_DEPTH reg root d 1 1 | None => done_ 1%nat end))
    by (destruct def; [apply mints_children|apply mints_done]).
  destruct (Hk r [root] r4 Hok Hg4 Hn H4) as [S5 Hg5].
  destruct ((match def with Some d => mintChildren construct scriptIdOf MAX_TEMPLATE_DEPTH reg root d 1 1 | None => done_ 1%nat end) r4) as [r5 [m|f]];
    cbn [fst snd] in *; [|done].
  pose proof (steady_trans _ _ _ S14 S5) as S15. cbn. split; [done|]. split; [done|]. split; [by rewrite (st_body _ _ _ (S15 root H1))|].
  destruct (steady_pos _ _ _ S15 H1) as [-> ->]. split; [done|]. split; [done|]. intros name Hname. apply (S5 root H4). by apply Hnames.
Qed.

Lemma instantiate_grows tmpl opts r : rt_ok [] r ->
  let s := Templates.instantiate construct scriptIdOf reg tmpl opts r in made_one r s.1 tmpl opts s.2.
Proof.
  intros Hok s.
  assert (Hg : let s := (let '(r', o) := mint_root construct scriptIdOf reg tmpl (mget reg tmpl) opts (set_channels r (beginGroup (channels r))) in
     (set_channels r' (endGroup (channels r')), o)) in made_one r s.1 tmpl opts s.2).
  { cbv zeta. pose proof (mint_root_grows tmpl (mget reg tmpl) opts (set_channels r (beginGroup (channels r))) (rt_ok_channels _ _ _ Hok)) as H.
    assert (Hch : forall o r1, grown (set_channels r (beginGroup (channels r))) o r1 -> grown r o (set_channels r1 (endGroup (channels r1)))).
    { intros o r1 [G1 G2 G3 G4 G5]. split; [by apply rt_ok_channels| |exact G3|exact G4|exact G5]. intros x Hx. destruct (G2 x Hx). by split. }
    destruct (mint_root _ _ _ _ _ _ _) as [r1 [root|f]]; cbn in *; [|destruct H as [o Ho]; exists o; by apply Hch].
    destruct H as (H1 & H2 & H3). split; [by apply Hch|done]. }
  unfold s, Templates.instantiate. destruct (mget reg tmpl); [exact Hg|]. destruct (o_scripts opts) as [|? ?]; [|exact Hg]. destruct (o_tags opts) as [|? ?] eqn:Et; [|exact Hg].
  pose proof (spawnNode_grows tmpl (o_x opts) (o_y opts) (o_ownerId opts) (o_transform opts) r Hok) as Hs.
  destruct (spawnNode _ _ _ _ _ r) as [r1 [root|f]]; cbn; [|subst r1; exists []; by apply grown_refl].
  destruct Hs as (Hg1 & Hn & Hb & Hx & Hy). split; [done|]. split; [done|]. split_and!; [done..|]. rewrite Et. intros name Hname. by apply not_elem_of_nil in Hname.
Qed.

(** ** Loading the placed entities *)

Lemma mget_app_l {K V} `{EqDecision K} (m m' : jsmap K V) k v : mget m k = Some v -> mget (m ++ m') k = Some v.
Proof. induction m as [|[k' v'] m IH]; [done|]. simpl. by case_decide. Qed.

Abbreviation Placed := (PlacedEntity ScriptClass).

Definition placed_opts (rec : Placed) : InstantiateOptions :=
  MkOpts (nullish (field_of (pl_transform rec) "x") f0) (nullish (field_of (pl_transform rec) "y") f0) [] (pl_tags rec) (pl_scripts rec) (pl_transform rec).

(** The entity a record's parent names, [named] being the entities of the records. *)
Definition parent_in (named : jsmap jstr EntityId) (rec : Placed) : EntityId :=
  match pl_parent rec with Some p => nullish (mget named p) NONE | None => NONE end.

(** The entity of a placed record. *)
Record stands (r : Runtime) (named : jsmap jstr EntityId) (rec : Placed) (e : EntityId) : Prop := {
  sd_body : body r e = Some (nullish (pl_template rec) [], [], parent_in named rec, true);
  sd_x : posX (transforms r) e = nullish (field_of (pl_transform rec) "x") f0;
  sd_y : posY (transforms r) e = nullish (field_of (pl_transform rec) "y") f0;
  sd_tags name : name ∈ pl_tags rec -> TagIndex.has (tags r) e name = true;
}.

Lemma stands_steady r r' named rec e : stands r named rec e -> steady r r' -> stands r' named rec e.
Proof.
  intros [B X Y T] H. assert (He : is_Some (emap_of r !! e)) by (apply body_is_Some; rewrite B; by eexists).
  destruct (steady_pos _ _ _ H He) as [P1 P2]. destruct (H e He) as [H1 H2 H3]. split; [congruence..|auto].
Qed.

(** One record: instantiated, then hung under its parent, which is there already. *)
Lemma place_one r0 o r (minted : jsmap jstr EntityId) (rec : Placed) :
  rt_ok [] r0 -> grown r0 o r -> (forall k e, mget minted k = Some e -> emap_of r0 !! e = None /\ is_Some (emap_of r !! e)) ->
  pl_id rec ∉ mkeys minted -> (forall p, pl_parent rec = Some p -> p ∈ mkeys minted) ->
  forall r1 e, Templates.instantiate construct scriptIdOf reg (nullish (pl_template rec) []) (placed_opts rec) r = (r1, Ok e) ->
  let minted' := mset minted (pl_id rec) e in
  let r2 := match pl_parent rec ≫= mget minted' with Some parent => World.attachTo r1 e parent | None => r1 end in
  steady r r2 /\ emap_of r !! e = None /\ emap_of r0 !! e = None /\ stands r2 minted' rec e
  /\ exists o', grown r0 o' r2 /\ forall a, a ∈ o' -> a ∈ o \/ a = e.
Proof.
  intros H0 Hg Hm Hid Hpar r1 e Hi minted' r2. pose proof (instantiate_grows (nullish (pl_template rec) []) (placed_opts rec) r (gr_ok _ _ _ Hg)) as Hs.
  rewrite Hi in Hs. destruct Hs as (Hg1 & Hn & (Hb & Hx & Hy & Htag)). cbn [fst] in *.
  pose proof (grown_trans _ _ _ _ _ H0 Hg Hg1) as Hg01. pose proof (steady_grown _ _ _ Hg1) as S1.
  assert (He0 : emap_of r0 !! e = None).
  { destruct (emap_of r0 !! e) as [re|] eqn:E; [|done]. destruct (gr_old _ _ _ Hg e ltac:(by eexists)) as [K _ _]. congruence. }
  assert (Hmsub : forall p, pl_parent rec = Some p -> exists pe, mget minted p = Some pe /\ mget minted' p = Some pe).
  { intros p Hp. specialize (Hpar p Hp). destruct (proj2 (mget_is_Some minted p) Hpar) as [pe Hpe]. exists pe. split; [done|].
    unfold minted'. rewrite mget_mset_ne; [done|]. intros <-. by apply Hid. }
  unfold r2, parent_in in *. destruct (pl_parent rec) as [p|] eqn:Ep; cbn [mbind option_bind].
  2: { split; [done|]. split; [done|]. split; [done|]. split; [split; [unfold parent_in; by rewrite Ep|done..]|].
       exists (o ++ [e]). split; [done|]. intros a [Ha| ->%list_elem_of_singleton]%elem_of_app; auto. }
  destruct (Hmsub p eq_refl) as (pe & Hpe & Hpe'). rewrite Hpe'. destruct (Hm p pe Hpe) as [Hpn Hps].
  assert (Hu : ~ under r1 e pe) by (by apply (old_not_under_new r [e] r1 e pe (gr_ok _ _ _ Hg) Hg1 Hn)).
  destruct (grown_attach r0 _ r1 e pe Hg01 ltac:(apply elem_of_app; right; by left) Hpn (steady_dom _ _ _ S1 Hps) Hu) as [Hg2 Hlk].
  assert (Hrest : transforms (World.attachTo r1 e pe) = transforms r1 /\ tags (World.attachTo r1 e pe) = tags r1).
  { unfold World.attachTo. by destruct (EntityTable.attachTo _ _ _) as [t []]. }
  destruct Hrest as [Et Eg]. split; [by apply (steady_attach r r1)|]. split; [done|]. split; [done|]. split.
  - split; rewrite ?Et, ?Eg; try done. unfold body in *. rewrite Hlk, decide_True by done. unfold parent_in. rewrite Ep, Hpe'. cbn.
    destruct (emap_of r1 !! e) as [re|]; [|done]. cbn in *. by injection Hb as -> -> _ ->.
  - eexists. split; [exact Hg2|]. intros a [Hae [Ha| ->%list_elem_of_singleton]%elem_of_app]%list_elem_of_filter; auto.
Qed.

Lemma place_all records : forall r0 o r (minted : jsmap jstr EntityId),
  rt_ok [] r0 -> grown r0 o r -> (forall k e, mget minted k = Some e -> emap_of r0 !! e = None /\ is_Some (emap_of r !! e)) ->
  NoDup (mkeys minted ++ (pl_id <$> records)) ->
  (forall i rec p, records !! i = Some rec -> pl_parent rec = Some p -> p ∈ mkeys minted ++ (pl_id <$> take i records)) ->
  match place_each construct scriptIdOf reg minted records r with
  | (r', Throw _) => exists o', grown r0 o' r'
  | (r', Ok _) => exists es, length es = length records /\ steady r r' /\ NoDup es /\ (forall e, e ∈ es -> emap_of r !! e = None)
      /\ (forall i rec e, records !! i = Some rec -> es !! i = Some e -> stands r' (minted ++ zip (pl_id <$> records) es) rec e)
      /\ exists o', grown r0 o' r' /\ forall a, a ∈ o' -> a ∈ o \/ a ∈ es
  end.
Proof.
  induction records as [|rec rest IH]; intros r0 o r minted H0 Hg Hm Hnd Hpar; cbn [place_each].
  { exists []. split_and!; [done|apply steady_refl|constructor|intros e He; by apply not_elem_of_nil in He|done|]. exists o. split; [done|auto]. }
  unfold then_ at 1. change (MkOpts _ _ _ _ _ _) with (placed_opts rec).
  pose proof (instantiate_grows (nullish (pl_template rec) []) (placed_opts rec) r (gr_ok _ _ _ Hg)) as Hthrow.
  destruct (Templates.instantiate construct scriptIdOf reg (nullish (pl_template rec) []) (placed_opts rec) r) as [r1 [e|f]] eqn:Ei.
  2: { destruct Hthrow as [o' Ho]. exists (o ++ o'). by apply (grown_trans _ _ r). }
  clear Hthrow. csimpl in Hnd. assert (Hid : pl_id rec ∉ mkeys minted) by (apply NoDup_app in Hnd as (_ & Hd & _); intros Hin; apply (Hd _ Hin); left).
  destruct (place_one r0 o r minted rec H0 Hg Hm Hid ltac:(intros p Hp; specialize (Hpar 0%nat rec p eq_refl Hp); csimpl in Hpar; by rewrite app_nil_r in Hpar) r1 e Ei)
    as (S2 & Hen & Hen0 & Hst & o2 & Hg2 & Hsub). set (minted' := mset minted (pl_id rec) e) in *.
  assert (Hact : forall (A : Type) (k : act A), then_ (match pl_parent rec ≫= mget minted' with Some parent => doing (fun rt => World.attachTo rt e parent) | None => done_ tt end)
      (fun _ => k) r1 = k (match pl_parent rec ≫= mget minted' with Some parent => World.attachTo r1 e parent | None => r1 end)).
  { intros A k. unfold then_. by destruct (pl_parent rec ≫= mget minted'). }
  rewrite Hact. clear Hact. set (r2 := match pl_parent rec ≫= mget minted' with Some parent => World.attachTo r1 e parent | None => r1 end) in *.
  assert (Emint : minted' = minted ++ [(pl_id rec, e)]) by (by apply mset_fresh).
  assert (He2 : is_Some (emap_of r2 !! e)) by (apply body_is_Some; rewrite (sd_body _ _ _ _ Hst); by eexists).
  assert (Hkeys : mkeys minted' = mkeys minted ++ [pl_id rec]) by (rewrite Emint; unfold mkeys; by rewrite fmap_app).
  specialize (IH r0 o2 r2 minted' H0 Hg2).
  assert (IHm : forall k a, mget minted' k = Some a -> emap_of r0 !! a = None /\ is_Some (emap_of r2 !! a)).
  { intros k a. unfold minted'. destruct (decide (pl_id rec = k)) as [->|Hne]; [rewrite mget_mset_eq; by intros [= <-]|rewrite mget_mset_ne by done].
    intros Hk. destruct (Hm k a Hk) as [A1 A2]. split; [done|]. by apply (steady_dom r). }
  specialize (IH IHm ltac:(by rewrite Hkeys, <- app_assoc)
    ltac:(intros i rc p Hi Hp; rewrite Hkeys, <- app_assoc; exact (Hpar (S i) rc p Hi Hp))).
  destruct (place_each construct scriptIdOf reg minted' rest r2) as [r3 [[]|f]]; [|done].
  destruct IH as (es & Hlen & S3 & Hnde & Hnew & Hstand & o3 & Hg3 & Hsub3). exists (e :: es). csimpl.
  assert (Eall : minted' ++ zip (pl_id <$> rest) es = minted ++ (pl_id rec, e) :: zip (pl_id <$> rest) es) by (by rewrite Emint, <- app_assoc).
  split_and!; [by rewrite Hlen|by apply (steady_trans _ r2)| | | |].
  - constructor; [|done]. intros Hin. rewrite (Hnew e Hin) in He2. by destruct He2.
  - intros a [->|Ha]%elem_of_cons; [done|]. specialize (Hnew a Ha). destruct (emap_of r !! a) eqn:E; [|done].
    destruct (steady_dom _ _ a S2 ltac:(by eexists)) as [? ?]. congruence.
  - intros [|i] rc a Hi Ha; csimpl in *; [|rewrite <- Eall; by apply (Hstand i)]. injection Hi as <-. injection Ha as <-.
    destruct (stands_steady _ _ _ _ _ Hst S3) as [B X Y T]. split; [|done..]. rewrite B. do 3 f_equal.
    unfold parent_in. destruct (pl_parent rec) as [p|] eqn:Ep; [|done]. pose proof (Hpar 0%nat rec p eq_refl Ep) as Hin. csimpl in Hin. rewrite app_nil_r in Hin.
    apply mget_is_Some in Hin as [pe Hpe]. rewrite Emint. by rewrite !(mget_app_l _ _ _ _ Hpe).
  - exists o3. split; [done|]. intros a Ha. rewrite elem_of_cons. destruct (Hsub3 a Ha) as [Ha2|]; [|auto]. destruct (Hsub a Ha2); auto.
Qed.

(** ** Why a load throws *)

(** What the world or the creator's classes may make of a load: a full table, a template
    of more than [MAX_TEMPLATE_NODES], a class that may not sit on an entity, a
    constructor that throws. *)
Inductive load_error : failure -> Prop :=
  | le_full s : load_error (SpawnFailed s)
  | le_wide id : load_error (NotLoadable (too_many id))
  | le_refused klass m : reject klass KEntity (location_of klass) = Some m -> load_error (NotLoadable m)
  | le_threw klass props key m : construct klass props = Some m ->
      load_error (NotLoadable ([Text (js "wiring " ++ class_name klass ++ js " onto " ++ key ++ js " threw: ")] ++ m)).

Definition throws_only {A} (P : failure -> Prop) (c : act A) : Prop := forall r e, (c r).2 = Throw e -> P e.

Lemma throws_then {A B} P (c : act A) (k : A -> act B) : throws_only P c -> (forall a, throws_only P (k a)) -> throws_only P (then_ c k).
Proof. intros Hc Hk r e. unfold then_. specialize (Hc r). destruct (c r) as [r1 [a|e']]; [apply Hk|]. intros [= <-]. by apply Hc. Qed.

Lemma throws_done {A} P (a : A) : throws_only P (done_ a).
Proof. by intros r e. Qed.

Lemma throws_doing P f : throws_only P (doing f).
Proof. by intros r e. Qed.

Definition any_error (e : failure) : Prop := load_error e \/ walk_error e.

Lemma throws_attachAll id l : throws_only any_error (attachAll construct scriptIdOf id l).
Proof.
  induction l as [|a l IH]; [apply throws_done|]. apply throws_then; [|by intros _].
  apply throws_then; [apply throws_doing|intros _]. apply throws_then; [|intros _; destruct (scriptIdOf _); [apply throws_doing|apply throws_done]].
  intros r e. unfold attach_. destruct (reject _ _ _) as [m|] eqn:Er; [intros [= <-]; left; by apply (le_refused (ra_klass a))|].
  destruct (ensure _ _ _) as [[entry h] s]. destruct (construct _ _) as [m|] eqn:Em; [intros H; injection H as <-; left; exact (le_threw (ra_klass a) (ra_props a) (entityKey id) m Em)|].
  by destruct (makeInstance _ _ _ _ _).
Qed.

Lemma throws_spawnNode tmpl x y own transform : throws_only any_error (spawnNode tmpl x y own transform).
Proof.
  apply throws_then; [|intros id; apply throws_then; [apply throws_doing|intros _; apply throws_done]].
  intros r e. destruct (spawn _ _ _ _ _) as [[? ?]|f]; [done|]. intros [= <-]. left. apply le_full.
Qed.

Lemma throws_children fuel : forall parent def depth m, throws_only any_error (mintChildren construct scriptIdOf fuel reg parent def depth m).
Proof.
  assert (Hthrow : forall A e, any_error e -> throws_only any_error (throw e : act A)) by (intros A e He r e'; by intros [= <-]).
  induction fuel as [|fuel IH]; intros parent def depth m; cbn [mintChildren]; destruct (tp_children def) as [|c cs]; try apply throws_done;
    destruct (MAX_TEMPLATE_DEPTH <=? depth)%nat; try (apply Hthrow; right; (by left) || (right; by eexists)).
  intros r. generalize (owner_of r parent) as own. intros own. revert m r. induction (c :: cs) as [|x xs IHx]; intros m; cbn [mint_each]; [apply throws_done|].
  destruct (MAX_TEMPLATE_NODES <? m + 1)%nat; [apply Hthrow; left; apply le_wide|]. apply throws_then; [apply throws_spawnNode|intros e].
  apply throws_then; [apply throws_attachAll|intros _]. apply throws_then; [apply throws_doing|intros _].
  apply throws_then; [destruct (mget reg _); [apply IH|apply throws_done]|]. intros m'. exact (IHx m').
Qed.

Lemma throws_instantiate tmpl opts : throws_only any_error (Templates.instantiate construct scriptIdOf reg tmpl opts).
Proof.
  assert (Hroot : throws_only any_error (mint_root construct scriptIdOf reg tmpl (mget reg tmpl) opts)).
  { apply throws_then; [apply throws_spawnNode|intros root]. apply throws_then; [apply throws_attachAll|intros _].
    apply throws_then; [apply throws_attachAll|intros _]. apply throws_then; [apply throws_doing|intros _].
    apply throws_then; [destruct (mget reg tmpl); [apply throws_children|apply throws_done]|intros _; apply throws_done]. }
  intros r e. unfold Templates.instantiate. specialize (Hroot (set_channels r (beginGroup (channels r))) e).
  destruct (mget reg tmpl), (o_scripts opts), (o_tags opts); try (destruct (mint_root _ _ _ _ _ _ _); exact Hroot). apply throws_spawnNode.
Qed.

Lemma throws_placed records : forall minted, throws_only any_error (place_each construct scriptIdOf reg minted records).
Proof.
  induction records as [|rec rest IH]; intros minted; cbn [place_each]; [apply throws_done|]. apply throws_then; [apply throws_instantiate|intros e].
  apply throws_then; [destruct (_ ≫= _); [apply throws_doing|apply throws_done]|intros _; apply IH].
Qed.
End Minted.

(** ** Properties *)

Lemma zip_keys {A B} (l : list A) (k : list B) : length l = length k -> (zip l k).*1 = l.
Proof. intros H. apply fst_zip. lia. Qed.

(** C33. What loading a validated project does, in any well-formed world. Its templates
    register under their ids and every placed entity names a registered template or none.
    If the load returns, each placed record has an entity of its own that was not there
    before: alive, unowned, of the record's template, at the record's place, carrying its
    tags, and hung under the entity of the record its parent names, an earlier one, or
    under nothing; everything else that is new hangs under one of those, and every entity
    that was there keeps its record, its transform and its tags. If it throws, the table is
    full, a template mints more than 256 entities, a class may not sit on an entity or a
    creator's constructor threw, never that a template nests too deep, and what was there
    is kept all the same. The same of any later spawn of a template. *)
Theorem valid_project_loads (construct : ScriptClass -> option json -> option message) (scriptIdOf : ScriptClass -> option jstr)
    (resolve : jstr -> option ScriptClass) (server : bool) (v m : json) (rt : Runtime) :
  validate v = Ok m -> rt_ok [] rt -> group (channels rt) = None -> groupDepth (channels rt) = 0 ->
  let man := toGameManifest resolve server m in
  let records := gm_entities man in
  exists reg, registry_from [] (gm_templates man) = Ok reg
    /\ (forall i rec t, records !! i = Some rec -> pl_template rec = Some t -> mhas reg t = true)
    /\ match instantiatePlaced construct scriptIdOf reg records rt with
       | (rt', Ok _) => exists es roots, length es = length records /\ NoDup es
           /\ grown rt roots rt' /\ (forall a, a ∈ roots -> a ∈ es)
           /\ forall i rec e, records !! i = Some rec -> es !! i = Some e ->
                emap_of rt !! e = None
                /\ exists up, body rt' e = Some (nullish (pl_template rec) [], [], up, true)
                /\ match pl_parent rec with
                   | None => up = NONE
                   | Some p => exists j, (j < i)%nat /\ (pl_id <$> records) !! j = Some p /\ es !! j = Some up
                   end
                /\ posX (transforms rt') e = nullish (field_of (pl_transform rec) "x") f0
                /\ posY (transforms rt') e = nullish (field_of (pl_transform rec) "y") f0
                /\ forall name, name ∈ pl_tags rec -> TagIndex.has (tags rt') e name = true
       | (rt', Throw e) => load_error construct e /\ exists roots, grown rt roots rt'
       end
    /\ forall tmpl opts,
         match Templates.instantiate construct scriptIdOf reg tmpl opts rt with
         | (rt', Ok root) => grown rt [root] rt' /\ emap_of rt !! root = None /\ made rt' root tmpl opts
         | (rt', Throw e) => load_error construct e /\ exists roots, grown rt roots rt'
         end.
Proof.
  intros Hval Hok Hg Hd man records. apply validate_valid in Hval as [-> Hv]. exists (loaded_registry resolve v).
  pose proof (loaded_entity resolve server v Hv) as Hent. fold man records in Hent.
  split; [by apply loaded_from|]. split; [intros i rec t Hi; by apply (Hent i rec Hi)|]. split.
  - pose proof (place_each_ok construct scriptIdOf (loaded_registry resolve v) records [] rt (loaded_bound resolve v Hv) (conj Hg Hd)) as Hwalk.
    pose proof (throws_placed construct scriptIdOf (loaded_registry resolve v) records [] rt) as Hthrow.
    pose proof (place_all construct scriptIdOf (loaded_registry resolve v) records rt [] rt [] Hok (grown_refl rt Hok) ltac:(done)) as Hall.
    assert (Hids : NoDup (pl_id <$> records)).
    { unfold records, man. cbn [gm_entities toGameManifest]. rewrite <- list_fmap_compose. exact (vp_entities v Hv). }
    specialize (Hall Hids ltac:(intros i rec p Hi Hp; by apply (Hent i rec Hi))). unfold instantiatePlaced.
    destruct (place_each construct scriptIdOf (loaded_registry resolve v) [] records rt) as [rt' [[]|e]]; cbn [snd] in *.
    2: { split; [|done]. by destruct (Hthrow e eq_refl). }
    destruct Hall as (es & Hlen & _ & Hnd & Hnew & Hst & roots & Hgr & Hsub). exists es, roots. split_and!; [done..| |].
    { intros a Ha. destruct (Hsub a Ha) as [Ha'|]; [by apply not_elem_of_nil in Ha'|done]. }
    intros i rec e Hi He. split; [apply Hnew; by eapply list_elem_of_lookup_2|]. destruct (Hst i rec e Hi He) as [B X Y T]. rewrite app_nil_l in B.
    eexists. split; [exact B|]. split_and!; [|done..]. unfold parent_in. destruct (pl_parent rec) as [p|] eqn:Ep; [|done].
    pose proof (proj2 (Hent i rec Hi) p Ep) as (j & Hj)%list_elem_of_lookup. rewrite fmap_take in Hj.
    apply lookup_take_Some in Hj as [Hj Hji]. exists j. split; [done|]. split; [done|].
    assert (Hlt : (j < length es)%nat) by (apply lookup_lt_Some in Hj; rewrite length_fmap in Hj; lia).
    destruct (lookup_lt_is_Some_2 es j Hlt) as [pe Hpe]. rewrite Hpe. f_equal.
    assert (Hz : zip (pl_id <$> records) es !! j = Some (p, pe)) by (apply lookup_zip_Some; by split).
    apply list_elem_of_lookup_2 in Hz. rewrite (mget_NoDup _ p pe); [done| |done]. unfold mkeys. by rewrite zip_keys by (rewrite length_fmap; lia).
  - intros tmpl opts. pose proof (instantiate_ok construct scriptIdOf _ True tmpl opts rt (fun _ => loaded_bound resolve v Hv tmpl) Hg Hd) as Hwalk.
    pose proof (throws_instantiate construct scriptIdOf (loaded_registry resolve v) tmpl opts rt) as Hthrow.
    pose proof (instantiate_grows construct scriptIdOf (loaded_registry resolve v) tmpl opts rt Hok) as Hmade.
    destruct (Templates.instantiate _ _ _ tmpl opts rt) as [rt' [root|e]]; cbn [fst snd] in *; [done|]. split; [|done].
    destruct Hwalk as (l & _ & _ & _ & [Hf Hde]). destruct (Hthrow e eq_refl) as [|[->|[id ->]]]; [done|done|]. by destruct (Hde I id).
Qed.

Lemma valid_project_loads_witness :
  exists reg, registry_from [] (gm_templates (toGameManifest sample_resolve true (sample_project 1 "turret"))) = Ok reg
    /\ msize reg = 2%nat.
Proof.
  destruct (valid_project_loads (fun _ _ => None) (fun _ => None) sample_resolve true (sample_project 1 "turret") (sample_project 1 "turret")
    new_runtime) as (reg & Hreg & _); [vm_compute; reflexivity|apply rt_ok_new|reflexivity|reflexivity|].
  exists reg. split; [exact Hreg|]. vm_compute in Hreg. injection Hreg as <-. reflexivity.
Defined.
