(* ===== verification/Players.v ===== *)
(** * Players ([packages/core/src/runtime/player.ts, roster.ts, camera.ts],
    the movement attachment of [wiring.ts])

    Who is in the session, in join order, and the body each controls. A [Player] is an
    object the manager, the scripts and the roster share, so players live in a store and
    are named by a reference. Spawning an avatar instantiates a template into the world. *)

From S2P Require Import Prelude JsMap JsNum Json Handle SlotTable TagIndex TransformStore EntityTable.
From S2P Require Import Channels ScopeTree Timers Tweens Metadata Hosts World ProjectFormat TemplateGraph Validate Project Templates Minting.

Local Open Scope Z_scope.

(** ** One player *)

(** [MemoryBindings]. *)
Definition rebind (b : jsmap jstr (list jstr)) (action : jstr) (bindings : list jstr) := mset b action bindings.
Definition addBinding (b : jsmap jstr (list jstr)) (action binding : jstr) := mset b action (nullish (mget b action) [] ++ [binding]).
Definition getBindings (b : jsmap jstr (list jstr)) (action : jstr) : list jstr := nullish (mget b action) [].
Definition resetBindings (b : jsmap jstr (list jstr)) (action : option jstr) : jsmap jstr (list jstr) :=
  match action with None => [] | Some a => mdel b a end.

(** A player's view: presentation state no snapshot holds. [follow] names a player or an
    entity. *)
Record Camera := MkCamera { cam_zoom : num; cam_x : num; cam_y : num; cam_follow : option (nat + EntityId) }.

Definition new_camera : Camera := MkCamera f1 f0 f0 None.
Definition moveTo (x y : num) (c : Camera) : Camera := MkCamera (cam_zoom c) x y (cam_follow c).
Definition follow (t : option (nat + EntityId)) (c : Camera) : Camera := MkCamera (cam_zoom c) (cam_x c) (cam_y c) t.
Definition zoomTo (z : num) (c : Camera) : Camera := MkCamera z (cam_x c) (cam_y c) (cam_follow c).
(** Left, right, top and bottom. *)
Definition viewport (c : Camera) : num * num * num * num :=
  (fsub (cam_x c) (of_Z 400), fadd (cam_x c) (of_Z 400), fadd (cam_y c) (of_Z 300), fsub (cam_y c) (of_Z 300)).

(** [p_movement] is the script object of its movement. *)
Record Player := MkPlayer {
  p_id : jstr;
  p_index : Z;
  p_name : jstr;
  p_bindings : jsmap jstr (list jstr);
  p_avatar : option EntityId;
  p_camera : option Camera;
  p_movement : option nat;
}.

Definition setAvatar (a : option EntityId) (p : Player) : Player :=
  MkPlayer (p_id p) (p_index p) (p_name p) (p_bindings p) a (p_camera p) (p_movement p).
Definition setMovementInstance (m : option nat) (p : Player) : Player :=
  MkPlayer (p_id p) (p_index p) (p_name p) (p_bindings p) (p_avatar p) (p_camera p) m.
(** The camera is made when it is first asked for. *)
Definition camera (p : Player) : Player :=
  MkPlayer (p_id p) (p_index p) (p_name p) (p_bindings p) (p_avatar p) (Some (nullish (p_camera p) new_camera)) (p_movement p).

Definition hasAvatar (p : Player) : bool := match p_avatar p with Some _ => true | None => false end.

(** ** The session's players *)

Record Crew := MkCrew {
  rt : Runtime;
  people : list Player;
  byId : jsmap jstr nat;
  order : list nat;
  nextIndex : Z;
  checkpoints : jsmap jstr (num * num);
  movementClass : option ScriptClass;
  defaultSpawn : num * num;
  avatarTemplate : jstr;
}.

Definition new_crew (r : Runtime) : Crew := MkCrew r [] [] [] 0 [] None (f0, f0) (js "player").

Definition with_rt (r : Runtime) (w : Crew) : Crew :=
  MkCrew r (people w) (byId w) (order w) (nextIndex w) (checkpoints w) (movementClass w) (defaultSpawn w) (avatarTemplate w).
Definition with_people (l : list Player) (w : Crew) : Crew :=
  MkCrew (rt w) l (byId w) (order w) (nextIndex w) (checkpoints w) (movementClass w) (defaultSpawn w) (avatarTemplate w).
Definition with_manager (m : jsmap jstr nat) (o : list nat) (n : Z) (w : Crew) : Crew :=
  MkCrew (rt w) (people w) m o n (checkpoints w) (movementClass w) (defaultSpawn w) (avatarTemplate w).
Definition with_checkpoints (c : jsmap jstr (num * num)) (w : Crew) : Crew :=
  MkCrew (rt w) (people w) (byId w) (order w) (nextIndex w) c (movementClass w) (defaultSpawn w) (avatarTemplate w).

Definition on_player (ref : nat) (f : Player -> Player) (w : Crew) : Crew := with_people (alter f ref (people w)) w.

(** A player object made by [new Player]. *)
Definition allocate (p : Player) (w : Crew) : nat * Crew := (length (people w), with_people (people w ++ [p]) w).

Definition new_player (id : jstr) (index : Z) (name : jstr) : Player := MkPlayer id index name [] None None None.

Definition ensure_host (key : jstr) (w : Crew) : Crew :=
  let '(_, h, s) := ensure (hosts (rt w)) (scopes (rt w)) key in with_rt (set_hosts (rt w) h s) w.

Definition create (id name : jstr) (w : Crew) : nat * Crew :=
  let '(ref, w) := allocate (new_player id (nextIndex w) name) w in
  let w := with_manager (mset (byId w) id ref) (order w ++ [ref]) (nextIndex w + 1) w in
  (ref, ensure_host (playerKey id) w).

Definition adopt (ref : nat) (w : Crew) : Crew :=
  match people w !! ref with
  | None => w
  | Some p =>
      if mhas (byId w) (p_id p) then w
      else ensure_host (playerKey (p_id p))
             (with_manager (mset (byId w) (p_id p) ref) (order w ++ [ref]) (Z.max (nextIndex w) (p_index p + 1)) w)
  end.

(** [order.indexOf(player)] and the splice there. *)
Fixpoint splice_ref (ref : nat) (l : list nat) : list nat :=
  match l with
  | [] => []
  | x :: l => if decide (x = ref) then l else x :: splice_ref ref l
  end.

Definition drop_host (key : jstr) (r : Runtime) : Runtime :=
  let r := set_instances r (removeHost (instances r) key).2 in
  let '(h, s) := Hosts.remove (hosts r) (scopes r) key in
  set_hosts r h s.

Definition forgetCheckpoint (id : jstr) (w : Crew) : Crew := with_checkpoints (mdel (checkpoints w) id) w.

Definition remove (id : jstr) (w : Crew) : Crew :=
  match mget (byId w) id with
  | None => w
  | Some ref =>
      let w := with_manager (mdel (byId w) id) (splice_ref ref (order w)) (nextIndex w) w in
      let w := with_rt (drop_host (cameraKey id) (drop_host (playerKey id) (rt w))) w in
      forgetCheckpoint id w
  end.

(** ** Bodies *)

Section Bodies.
Context (construct : ScriptClass -> option json -> option message) (scriptIdOf : ScriptClass -> option jstr).
(** How many classes of a movement's chain define [tick]: its own base's is one. *)
Context (tickDeclarations : ScriptClass -> nat).
Context (reg : TemplateRegistry).

Abbreviation instantiate := (Templates.instantiate construct scriptIdOf reg).

(** A call on the crew, which may throw and leaves what it did before. *)
Definition crew_act (A : Type) : Type := Crew -> Crew * outcome failure A.

Definition in_world {A} (c : act A) : crew_act A := fun w => let '(r, o) := c (rt w) in (with_rt r w, o).

Definition overrides_tick (klass : ScriptClass) : message := [Text (class_name klass ++ js " overrides tick(); override accelerate, applyForces or clampSpeed instead")].

(** The script object [attachMovement] returns is the one it appended. *)
Definition attachMovement (avatar : EntityId) (klass : ScriptClass) : act (option nat) :=
  if (1 <? tickDeclarations klass)%nat then throw (NotLoadable (overrides_tick klass))
  else then_ (attachToEntity construct scriptIdOf avatar klass None)
         (fun _ r => (r, Ok (instance <$> last (forHost (instances r) (entityKey avatar))))).

Definition avatar_of (w : Crew) (ref : nat) : option EntityId := people w !! ref ≫= p_avatar.

Definition setMovement (ref : nat) (klass : ScriptClass) : crew_act unit := fun w =>
  match avatar_of w ref with
  | None => (w, Ok tt)
  | Some avatar =>
      match in_world (attachMovement avatar klass) w with
      | (w, Ok m) => (on_player ref (setMovementInstance m) w, Ok tt)
      | (w, Throw e) => (w, Throw e)
      end
  end.

Definition id_of (w : Crew) (ref : nat) : jstr := nullish (p_id <$> people w !! ref) [].

Definition spawn_point (w : Crew) (ref : nat) : num * num := nullish (mget (checkpoints w) (id_of w ref)) (defaultSpawn w).

Definition avatar_options (w : Crew) (ref : nat) : InstantiateOptions :=
  MkOpts (spawn_point w ref).1 (spawn_point w ref).2 (id_of w ref) [] [] None.

Definition spawnAvatar (ref : nat) : crew_act unit := fun w =>
  match in_world (instantiate (avatarTemplate w) (avatar_options w ref)) w with
  | (w, Throw e) => (w, Throw e)
  | (w, Ok avatar) =>
      let w := on_player ref (setAvatar (Some avatar)) w in
      match movementClass w with Some klass => setMovement ref klass w | None => (w, Ok tt) end
  end.

(** [#tryAvatar] and the destroy both exits share. *)
Definition destroy_avatar (ref : nat) (w : Crew) : Crew :=
  match avatar_of w ref with Some a => with_rt (World.destroy (rt w) a) w | None => w end.

Definition spectate (ref : nat) (w : Crew) : Crew :=
  let w := on_player ref (setAvatar None) (destroy_avatar ref w) in
  on_player ref (setMovementInstance None) w.

Definition respawn (ref : nat) : crew_act unit := fun w =>
  spawnAvatar ref (on_player ref (setAvatar None) (destroy_avatar ref w)).

Definition setCheckpoint (ref : nat) (x y : num) (w : Crew) : Crew := with_checkpoints (mset (checkpoints w) (id_of w ref) (x, y)) w.

Definition teleportTo (ref : nat) (x y : num) (w : Crew) : Crew :=
  match avatar_of w ref with
  | Some a => with_rt (set_transforms (rt w) (setPosition (transforms (rt w)) a x y (posZ (transforms (rt w)) a))) w
  | None => w
  end.

End Bodies.

(** ** Destroying a body *)


Section Roster.
Context (construct : ScriptClass -> option json -> option message) (scriptIdOf : ScriptClass -> option jstr).
Context (tickDeclarations : ScriptClass -> nat).
Context (reg : TemplateRegistry).
Abbreviation spawnAvatar := (spawnAvatar construct scriptIdOf tickDeclarations reg).
Abbreviation respawn := (respawn construct scriptIdOf tickDeclarations reg).
Abbreviation setMovement := (setMovement construct scriptIdOf tickDeclarations).

Lemma people_on w ref f x : people (on_player ref f w) !! x = if decide (ref = x) then f <$> people w !! x else people w !! x.
Proof. unfold on_player. cbn. rewrite list_lookup_alter. destruct (decide _) as [->|]; done. Qed.








(** ** Who is in the session *)

Inductive crew_op :=
  | Join (id name : jstr)
  | Make (id : jstr) (index : Z) (name : jstr)
  | Adopt (ref : nat)
  | Leave (id : jstr)
  | Spawn (ref : nat)
  | Spectate (ref : nat)
  | Respawn (ref : nat)
  | Movement (ref : nat) (klass : ScriptClass)
  | Checkpoint (ref : nat) (x y : num)
  | Teleport (ref : nat) (x y : num)
  | InWorld (f : Runtime -> Runtime).

(** The sim joins an id the roster does not hold: a second session for one is refused
    or takes the first one's place before. *)
Definition do_crew (w : Crew) (o : crew_op) : Crew :=
  match o with
  | Join id name => if mhas (byId w) id then w else (create id name w).2
  | Make id index name => (allocate (new_player id index name) w).2
  | Adopt ref => adopt ref w
  | Leave id => remove id w
  | Spawn ref => (spawnAvatar ref w).1
  | Spectate ref => spectate ref w
  | Respawn ref => (respawn ref w).1
  | Movement ref klass => (setMovement ref klass w).1
  | Checkpoint ref x y => setCheckpoint ref x y w
  | Teleport ref x y => teleportTo ref x y w
  | InWorld f => with_rt (f (rt w)) w
  end.

(** What a session's roster is: the map and the order list the same players, each under
    its own id, and indices given out are not given out again. *)
Record roster_ok (w : Crew) : Prop := {
  rs_vals : mvals (byId w) = order w;
  rs_keys : NoDup (mkeys (byId w));
  rs_players id ref : (id, ref) ∈ byId w -> exists p, people w !! ref = Some p /\ p_id p = id /\ p_index p < nextIndex w;
}.

(** What a player's own methods leave of the roster. *)
Definition same_roster (w w' : Crew) : Prop :=
  byId w' = byId w /\ order w' = order w /\ nextIndex w' = nextIndex w
  /\ forall ref, (fun p => (p_id p, p_index p)) <$> people w' !! ref = (fun p => (p_id p, p_index p)) <$> people w !! ref.

Lemma same_roster_refl w : same_roster w w.
Proof. done. Qed.

Lemma same_roster_trans w1 w2 w3 : same_roster w1 w2 -> same_roster w2 w3 -> same_roster w1 w3.
Proof.
  intros (A1 & A2 & A3 & A4) (B1 & B2 & B3 & B4). unfold same_roster. rewrite B1, B2, B3. split_and!; try done.
  intros ref. by rewrite B4.
Qed.

Lemma same_roster_on ref f w : (forall p, p_id (f p) = p_id p /\ p_index (f p) = p_index p) -> same_roster w (on_player ref f w).
Proof.
  intros Hf. split_and!; try done. intros x. rewrite people_on. destruct (decide (ref = x)); [|done].
  destruct (people w !! x) as [p|]; [|done]. cbn. by destruct (Hf p) as [-> ->].
Qed.

Lemma same_roster_destroy ref w : same_roster w (destroy_avatar ref w).
Proof. unfold destroy_avatar. by destruct (avatar_of w ref). Qed.

Lemma same_roster_setMovement ref klass w : same_roster w (setMovement ref klass w).1.
Proof.
  unfold Players.setMovement. destruct (avatar_of w ref) as [a|]; [|done]. unfold in_world.
  destruct (attachMovement _ _ _ a klass (rt w)) as [r [m|e]]; cbn; [|done].
  apply (same_roster_trans _ (with_rt r w)); [done|]. by apply same_roster_on.
Qed.

Lemma same_roster_spawn ref w : same_roster w (spawnAvatar ref w).1.
Proof.
  unfold Players.spawnAvatar, in_world. destruct (Templates.instantiate _ _ _ _ _ _) as [r [b|e]]; cbn; [|done].
  assert (H : same_roster w (on_player ref (setAvatar (Some b)) (with_rt r w))) by by apply (same_roster_trans _ (with_rt r w)); [|apply same_roster_on].
  destruct (movementClass w); [|done]. apply (same_roster_trans _ _ _ H). apply same_roster_setMovement.
Qed.

Lemma same_roster_bare ref w : same_roster w (on_player ref (setAvatar None) (destroy_avatar ref w)).
Proof. apply (same_roster_trans _ (destroy_avatar ref w)); [apply same_roster_destroy|by apply same_roster_on]. Qed.

Lemma roster_same w w' : same_roster w w' -> roster_ok w -> roster_ok w'.
Proof.
  intros (H1 & H2 & H3 & H4) [R1 R2 R3]. split; rewrite ?H1, ?H2, ?H3; try done.
  intros id ref Hin. destruct (R3 id ref Hin) as (p & Hp & Hi & Hx). specialize (H4 ref). rewrite Hp in H4.
  destruct (people w' !! ref) as [p'|]; [|done]. injection H4 as E1 E2. exists p'. by rewrite E1, E2.
Qed.

Lemma ensure_host_roster key w : byId (ensure_host key w) = byId w /\ order (ensure_host key w) = order w
  /\ nextIndex (ensure_host key w) = nextIndex w /\ people (ensure_host key w) = people w.
Proof. unfold ensure_host. by destruct (ensure _ _ key) as [[? ?] ?]. Qed.

Lemma roster_ext w w' : byId w' = byId w -> order w' = order w -> nextIndex w' = nextIndex w -> people w' = people w -> roster_ok w -> roster_ok w'.
Proof. intros H1 H2 H3 H4. apply roster_same. unfold same_roster. by rewrite H1, H2, H3, H4. Qed.

Lemma roster_enter w id ref p n :
  roster_ok w -> id ∉ mkeys (byId w) -> people w !! ref = Some p -> p_id p = id -> p_index p < n -> nextIndex w <= n ->
  roster_ok (ensure_host (playerKey id) (with_manager (mset (byId w) id ref) (order w ++ [ref]) n w)).
Proof.
  intros [R1 R2 R3] Hk Hp Hid Hlt Hle. destruct (ensure_host_roster (playerKey id) (with_manager (mset (byId w) id ref) (order w ++ [ref]) n w)) as (E1 & E2 & E3 & E4).
  eapply roster_ext; [exact E1|exact E2|exact E3|exact E4|]. split; cbn.
  - unfold mvals in *. rewrite mset_fresh by done. rewrite fmap_app. by rewrite R1.
  - by apply NoDup_mset.
  - intros id' ref' Hin. rewrite mset_fresh in Hin by done. apply elem_of_app in Hin as [Hin|Hin%list_elem_of_singleton].
    + destruct (R3 id' ref' Hin) as (p' & Hp' & Hi' & Hx). exists p'. split_and!; [done|done|lia].
    + injection Hin as -> ->. by exists p.
Qed.

Lemma splice_ref_mdel (m : jsmap jstr nat) id ref :
  NoDup (mkeys m) -> mget m id = Some ref -> (forall id', (id', ref) ∈ m -> id' = id) -> splice_ref ref (mvals m) = mvals (mdel m id).
Proof.
  induction m as [|[k v] m IH]; intros Hnd Hg Hu; [done|]. unfold mdel. rewrite filter_cons. cbn [fst]. csimpl in *.
  apply NoDup_cons in Hnd as [Hk Hnd]. cbn [mvals splice_ref]. change (mvals ((k, v) :: m)) with (v :: mvals m). cbn [splice_ref].
  destruct (decide (v = ref)) as [->|Hne].
  - assert (k = id) as -> by (apply Hu; left). rewrite (decide_False (P := id <> id)) by tauto. fold (mdel m id). by rewrite mdel_fresh.
  - destruct (decide (k = id)) as [->|Hki]; [injection Hg as ->; done|]. rewrite (decide_True (P := k <> id)) by done.
    csimpl. fold (mdel m id). f_equal. apply IH; [done|done|]. intros id' Hin. apply Hu. by right.
Qed.

Lemma mvals_mdel (m : jsmap jstr nat) id ref :
  NoDup (mkeys m) -> (id, ref) ∈ m -> (forall id', (id', ref) ∈ m -> id' = id) -> mvals (mdel m id) = filter (fun x => x <> ref) (mvals m).
Proof.
  intros Hnd Hg Hu. assert (Hiff : forall e, e ∈ m -> e.1 <> id <-> e.2 <> ref).
  { intros [k v] Hin. cbn. split; [intros Hk ->; apply Hk; by apply Hu|]. intros Hv ->. apply Hv.
    assert (H1 : mget m id = Some v) by by apply mget_Some_iff. assert (H2 : mget m id = Some ref) by by apply mget_Some_iff. congruence. }
  clear - Hiff. unfold mdel, mvals. induction m as [|[k v] m IH]; [done|]. rewrite filter_cons. csimpl. rewrite filter_cons.
  pose proof (Hiff (k, v) ltac:(left)) as H. cbn in H. specialize (IH (fun e He => Hiff e (list_elem_of_further _ _ _ He))).
  destruct (decide (k <> id)) as [Hk|Hk].
  - rewrite (decide_True (P := v <> ref)) by tauto. csimpl. by f_equal.
  - rewrite (decide_False (P := v <> ref)) by tauto. exact IH.
Qed.

Lemma drop_host_spec key r :
  Hosts.get (hosts (drop_host key r)) key = None /\ forHost (instances (drop_host key r)) key = []
  /\ (forall e, e ∈ pendingStart (instances (drop_host key r)) <-> e ∈ pendingStart (instances r) /\ e.1 <> key)
  /\ forall k, k <> key -> Hosts.get (hosts (drop_host key r)) k = Hosts.get (hosts r) k
                       /\ forHost (instances (drop_host key r)) k = forHost (instances r) k.
Proof.
  unfold drop_host. destruct (removeHost_spec (instances r) key) as (I1 & I2 & I3).
  pose proof (hosts_remove_keys (hosts (set_instances r (removeHost (instances r) key).2)) (scopes (set_instances r (removeHost (instances r) key).2)) key) as Hh.
  destruct (Hosts.remove _ _ key) as [h s]. unfold Hosts.get in *. cbn [hosts set_hosts instances set_instances fst] in *.
  split; [by rewrite Hh, decide_True|]. split; [done|]. split.
  - intros e. rewrite I3, list_elem_of_filter. tauto.
  - intros k Hk. rewrite Hh, decide_False by congruence. split; [done|by apply I2].
Qed.

Lemma roster_remove id w : roster_ok w -> roster_ok (remove id w)
  /\ (mget (byId w) id <> None -> byId (remove id w) = mdel (byId w) id).
Proof.
  intros [R1 R2 R3]. unfold remove. destruct (mget (byId w) id) as [ref|] eqn:E; [|by split].
  cbn [forgetCheckpoint with_checkpoints with_rt byId with_manager]. split; [|done]. split; cbn.
  - rewrite <- R1. symmetry. apply splice_ref_mdel; [done|done|]. intros id' Hin. apply mget_elem in E.
    destruct (R3 _ _ Hin) as (p & Hp & <- & _), (R3 _ _ E) as (p' & Hp' & <- & _). congruence.
  - by apply NoDup_mdel.
  - intros id' ref' [Hin _]%elem_of_mdel. by apply R3.
Qed.

Lemma roster_step o w : roster_ok w -> roster_ok (do_crew w o).
Proof.
  intros Hok. destruct o as [id name|id index name|ref|id|ref|ref|ref|ref klass|ref x y|ref x y|f]; cbn [do_crew].
  - destruct (mhas (byId w) id) eqn:E; [done|]. assert (Hk : id ∉ mkeys (byId w)) by (rewrite <- mhas_spec, E; done). unfold create, allocate.
    apply (roster_enter (with_people (people w ++ [_]) w) id _ (new_player id (nextIndex w) name)); cbn; [|done|by apply list_lookup_middle|done|lia|lia].
    destruct Hok as [R1 R2 R3]. split; try done. intros id' ref' Hin. destruct (R3 _ _ Hin) as (p & Hp & Hi). exists p. split; [|done]. cbn. by apply lookup_app_l_Some.
  - destruct Hok as [R1 R2 R3]. split; try done. intros id' ref' Hin. destruct (R3 _ _ Hin) as (p & Hp & Hi). exists p. split; [|done]. cbn. by apply lookup_app_l_Some.
  - unfold adopt. destruct (people w !! ref) as [p|] eqn:Ep; [|done]. destruct (mhas (byId w) (p_id p)) eqn:E; [done|].
    apply (roster_enter w _ _ p); [done| |done|done|lia|lia]. by rewrite <- mhas_spec, E.
  - by apply roster_remove.
  - by apply (roster_same w), Hok; apply same_roster_spawn.
  - apply (roster_same w), Hok. unfold spectate. apply (same_roster_trans _ _ _ (same_roster_bare ref w)). by apply same_roster_on.
  - apply (roster_same w), Hok. unfold Players.respawn. apply (same_roster_trans _ _ _ (same_roster_bare ref w)). apply same_roster_spawn.
  - apply (roster_same w), Hok. apply same_roster_setMovement.
  - by apply (roster_same w).
  - apply (roster_same w), Hok. unfold teleportTo. by destruct (avatar_of w ref).
  - by apply (roster_same w).
Qed.

Lemma roster_run r ops : roster_ok (foldl do_crew (new_crew r) ops).
Proof.
  assert (Hg : forall w, roster_ok w -> roster_ok (foldl do_crew w ops)).
  { induction ops as [|o ops IH]; intros w Hw; [done|]. by apply IH, roster_step. }
  apply Hg. split; [done|constructor|]. intros id ref Hin. by apply not_elem_of_nil in Hin.
Qed.

(** ** The world stays well formed *)







(** ** Properties *)


(** C25. A player who leaves is forgotten, and nobody else is touched. Over any history of a
    session's roster, when the player of an id leaves: the id names no one, the others keep
    their order and their references, the player's host and its camera's are gone with every
    script on them and every start still owed to one, its checkpoint is dropped, and every
    other host and its scripts are as they were. Whoever joins under that id next takes an
    index no one in the session has and spawns at the default place. *)
Theorem departed_player_leaves_nothing (r : Runtime) (ops : list crew_op) (id name : jstr) (ref : nat) :
  let w := foldl do_crew (new_crew r) ops in
  mget (byId w) id = Some ref ->
  let w' := do_crew w (Leave id) in
  mget (byId w') id = None /\ (forall id', id' <> id -> mget (byId w') id' = mget (byId w) id')
  /\ order w' = filter (fun x => x <> ref) (order w)
  /\ (forall k, k = playerKey id \/ k = cameraKey id ->
       Hosts.get (hosts (rt w')) k = None /\ forHost (instances (rt w')) k = [] /\ forall e, e ∈ pendingStart (instances (rt w')) -> e.1 <> k)
  /\ (forall k, k <> playerKey id -> k <> cameraKey id ->
       Hosts.get (hosts (rt w')) k = Hosts.get (hosts (rt w)) k /\ forHost (instances (rt w')) k = forHost (instances (rt w)) k)
  /\ let '(again, w2) := create id name w' in
     spawn_point w2 again = defaultSpawn w /\ (forall other p, other ∈ order w' -> people w2 !! other = Some p -> p_index p < nextIndex w')
     /\ exists p, people w2 !! again = Some p /\ p_index p = nextIndex w'.
Proof.
  intros w Hg w'. pose proof (roster_run r ops) as Hok. fold w in Hok. destruct (roster_remove id w Hok) as [Hok' Hby].
  change (remove id w) with w' in *. specialize (Hby ltac:(by rewrite Hg)).
  assert (Hw' : rt w' = drop_host (cameraKey id) (drop_host (playerKey id) (rt w)) /\ checkpoints w' = mdel (checkpoints w) id /\ defaultSpawn w' = defaultSpawn w).
  { unfold w'. cbn [do_crew]. unfold remove. by rewrite Hg. }
  destruct Hw' as (Hrt & Hcp & Hds). destruct (drop_host_spec (playerKey id) (rt w)) as (P1 & P2 & P3 & P4).
  destruct (drop_host_spec (cameraKey id) (drop_host (playerKey id) (rt w))) as (C1 & C2 & C3 & C4). rewrite <- Hrt in C1, C2, C3, C4.
  assert (Hpc : playerKey id <> cameraKey id) by (unfold playerKey, cameraKey; intros [=]).
  split; [by rewrite Hby, mget_mdel_eq|]. split; [intros id' Hne; rewrite Hby; by apply mget_mdel_ne|]. split; [|split; [|split]].
  - pose proof (rs_vals _ Hok') as Hv. rewrite Hby in Hv. rewrite <- Hv, <- (rs_vals _ Hok). pose proof (rs_players _ Hok) as Hp. apply mget_elem in Hg.
    assert (Hu : forall id', (id', ref) ∈ byId w -> id' = id).
    { intros id' Hin. destruct (Hp _ _ Hin) as (q & Hq & <- & _), (Hp _ _ Hg) as (q' & Hq' & <- & _). congruence. }
    by apply mvals_mdel; [apply Hok|..].
  - intros k [->| ->].
    + destruct (C4 (playerKey id) Hpc) as [-> ->]. split_and!; [done|done|]. intros e [He _]%C3. by apply P3.
    + split_and!; [done|done|]. by intros e [_ He]%C3.
  - intros k Hk1 Hk2. destruct (C4 k Hk2) as [-> ->]. by apply P4.
  - unfold create, allocate. set (w1 := with_manager _ _ _ _). destruct (ensure_host_roster (playerKey id) w1) as (_ & _ & _ & E4).
    assert (Hl : people (ensure_host (playerKey id) w1) !! length (people w') = Some (new_player id (nextIndex w') name))
      by (rewrite E4; cbn; by apply list_lookup_middle). split; [|split].
    + unfold spawn_point, id_of. rewrite Hl. change (nullish (p_id <$> Some (new_player id (nextIndex w') name)) []) with id. assert (Hc : checkpoints (ensure_host (playerKey id) w1) = checkpoints w' /\ defaultSpawn (ensure_host (playerKey id) w1) = defaultSpawn w').
      { unfold ensure_host. by destruct (ensure _ _ _) as [[? ?] ?]. } destruct Hc as [-> ->]. by rewrite Hcp, mget_mdel_eq, Hds.
    + intros other p Hin Hp. rewrite <- (rs_vals _ Hok') in Hin. apply list_elem_of_fmap in Hin as ([id' o'] & -> & Hin). cbn in *.
      destruct (rs_players _ Hok' _ _ Hin) as (q & Hq & _ & Hx). rewrite E4 in Hp. cbn in Hp. rewrite lookup_app_l in Hp by (by eapply lookup_lt_Some). congruence.
    + by eexists.
Qed.
End Roster.

(** ** Witnesses, and two ways a body is left behind *)

Definition no_throw (c : ScriptClass) (props : option json) : option message := None.
Definition unstamped (c : ScriptClass) : option jstr := None.
Definition one_tick (c : ScriptClass) : nat := 1%nat.

Abbreviation play := (foldl (do_crew no_throw unstamped one_tick [])).
Abbreviation alone := (play (new_crew new_runtime) [Join (js "ada") (js "Ada"); Spawn 0; Checkpoint 0 (of_Z 7) (of_Z 9)]).
Abbreviation first_body := 16777216.
Abbreviation second_body := 16777217.


Abbreviation ada := (MkPlayer (js "ada") 0 (js "Ada") [] (Some first_body) None None).


Lemma departed_player_leaves_nothing_witness :
  let ops := [Join (js "ada") (js "Ada"); Join (js "bob") (js "Bob"); Spawn 0; Checkpoint 0 (of_Z 7) (of_Z 9)] in
  mget (byId (play (new_crew new_runtime) ops)) (js "ada") = Some 0%nat
  /\ order (do_crew no_throw unstamped one_tick [] (play (new_crew new_runtime) ops) (Leave (js "ada"))) = [1%nat].
Proof.
  cbv zeta. split; [vm_compute; reflexivity|].
  destruct (departed_player_leaves_nothing no_throw unstamped one_tick [] new_runtime
    [Join (js "ada") (js "Ada"); Join (js "bob") (js "Bob"); Spawn 0; Checkpoint 0 (of_Z 7) (of_Z 9)] (js "ada") (js "Ada") 0) as (_ & _ & H & _);
    [vm_compute; reflexivity|]. rewrite H. vm_compute. reflexivity.
Defined.

(** [spawn()] on a player who has an avatar does not retire it: both bodies live, both
    owned by the player. *)
Lemma second_spawn_leaves_first :
  let w := play (new_crew new_runtime) [Join (js "ada") (js "Ada"); Spawn 0; Spawn 0] in
  avatar_of w 0 = Some second_body
  /\ (fun b => (EntityTable.isAlive (entities (rt w)) b, EntityTable.ownerId <$> EntityTable.record (entities (rt w)) b)) <$> [first_body; second_body]
     = [(true, Some (js "ada")); (true, Some (js "ada"))].
Proof. vm_compute. split; reflexivity. Qed.

Definition walker : ScriptClass := MkClass (js "Walker") LSynced None.

(** A movement chosen with [setMovement] does not follow the player to its next body: the
    player still holds the dead one's, and the new one carries none. *)
Lemma respawn_strands_movement :
  let w := play (new_crew new_runtime) [Join (js "ada") (js "Ada"); Spawn 0; Movement 0 walker; Respawn 0] in
  avatar_of w 0 = Some second_body /\ forHost (instances (rt w)) (entityKey second_body) = []
  /\ (people w !! 0%nat ≫= p_movement) = instance <$> last (forHost (instances (rt w)) (entityKey first_body))
  /\ is_Some (people w !! 0%nat ≫= p_movement) /\ EntityTable.isAlive (entities (rt w)) first_body = false.
Proof. vm_compute. split_and!; try reflexivity. by eexists. Qed.
