(* ===== verification/Wrappers.v ===== *)
(** * Stateful wrappers ([packages/core/src/runtime/wrappers.ts])

    The values a host's field may hold that keep state of their own: scoreboards,
    leaderboards, inventories and teams, which replicate and persist by a serialized form,
    and countdowns, which the loop advances a tick at a time. *)

From S2P Require Import Prelude JsMap JsNum JsInt JsRound Json.

Local Open Scope Z_scope.

(** ** Wrappers *)

Inductive Order := high | low.

#[export] Instance Order_eq_dec : EqDecision Order.
Proof. solve_decision. Defined.

(** A player is named by its id. *)
Inductive Wrapper :=
  | Scoreboard (scores : jsmap jstr num)
  | Leaderboard (order : Order) (scores : jsmap jstr num)
  | Inventory (player : jstr) (items : jsmap jstr num)
  | Team (name : jstr) (members : jsset jstr).

(** A wrapper with what it is bound to: its host's record and its field. *)
Record Bound := MkBound { wrapper : Wrapper; record : option (jstr * jstr); marks : list (jstr * jstr) }.

Inductive wrapper_error :=
  | AlreadyBound (field : jstr)
  | NotBound
  | NoActingPlayer (method : jstr)
  | NoScorer.

Definition new_scoreboard : Wrapper := Scoreboard [].
Definition new_leaderboard (order : option Order) : Wrapper := Leaderboard (nullish order high) [].
Definition new_inventory (player : jstr) : Wrapper := Inventory player [].
Definition new_team (name : jstr) : Wrapper := Team name [].

Definition unbound (w : Wrapper) : Bound := MkBound w None [].

Definition bind (r : jstr * jstr) (b : Bound) : outcome wrapper_error Bound :=
  match record b with
  | Some (_, field) => Throw (AlreadyBound field)
  | None => Ok (MkBound (wrapper b) (Some r) (marks b))
  end.

(** [requireBound], the change, [mark]. *)
Definition mutate (w : Wrapper) (b : Bound) : outcome wrapper_error Bound :=
  match record b with
  | None => Throw NotBound
  | Some r => Ok (MkBound w (record b) (marks b ++ [r]))
  end.

(** What a script asks of a wrapper; an optional player is the argument given, if any. *)
Inductive wrapper_op :=
  | ScoreAdd (amount : num) (player : option jstr)
  | ScoreSet (amount : num) (player : option jstr)
  | ScoreReset
  | Submit (score : num) (player : option jstr)
  | ItemAdd (item : jstr) (count : num)
  | ItemRemove (item : jstr) (count : num)
  | ItemsClear
  | MemberAdd (player : jstr)
  | MemberRemove (player : jstr).

Definition count_in (m : jsmap jstr num) (k : jstr) : num := nullish (mget m k) f0.

(** [Leaderboard.submit]'s test. *)
Definition better (order : Order) (prev : option num) (score : num) : bool :=
  match prev with
  | None => true
  | Some prev => match order with high => flt prev score | low => flt score prev end
  end.

(** [Inventory.remove]. *)
Definition take_items (items : jsmap jstr num) (item : jstr) (n : num) : jsmap jstr num :=
  let next := fsub (count_in items item) n in
  if fle next f0 then mdel items item else mset items item next.

Section Ops.
(** The acting player of the invocation, if there is one. *)
Context (acting : option jstr).

Definition with_player (p : option jstr) (b : Bound) (method : jstr) (f : jstr -> outcome wrapper_error Bound) : outcome wrapper_error Bound :=
  match record b, match p with Some _ => p | None => acting end with
  | None, _ => Throw NotBound
  | Some _, None => Throw (NoActingPlayer method)
  | Some _, Some p => f p
  end.

(** A method the class does not have is not modelled: it leaves the wrapper as it is. *)
Definition wrapper_do (b : Bound) (o : wrapper_op) : outcome wrapper_error Bound :=
  match wrapper b, o with
  | Scoreboard s, ScoreAdd n p => with_player p b (js "add") (fun p => mutate (Scoreboard (mset s p (fadd (count_in s p) n))) b)
  | Scoreboard s, ScoreSet n p => with_player p b (js "set") (fun p => mutate (Scoreboard (mset s p n)) b)
  | Scoreboard s, ScoreReset => mutate (Scoreboard []) b
  | Leaderboard order s, Submit n p =>
      match record b, p with
      | None, _ => Throw NotBound
      | Some _, None => Throw NoScorer
      | Some _, Some p => if better order (mget s p) n then mutate (Leaderboard order (mset s p n)) b else Ok b
      end
  | Inventory pl m, ItemAdd i n => mutate (Inventory pl (mset m i (fadd (count_in m i) n))) b
  | Inventory pl m, ItemRemove i n => mutate (Inventory pl (take_items m i n)) b
  | Inventory pl m, ItemsClear => mutate (Inventory pl []) b
  | Team name l, MemberAdd p => mutate (Team name (sadd l p)) b
  | Team name l, MemberRemove p => mutate (Team name (sdel l p)) b
  | _, _ => Ok b
  end.

(** A history of calls; one that throws leaves the wrapper as it was. *)
Definition wrapper_step (b : Bound) (o : wrapper_op) : Bound := match wrapper_do b o with Ok b' => b' | Throw _ => b end.
Definition wrapper_run (b : Bound) (ops : list wrapper_op) : Bound := foldl wrapper_step b ops.
End Ops.

(** ** Reading *)

Definition of_ (w : Wrapper) (k : jstr) : num :=
  match w with Scoreboard m | Leaderboard _ m | Inventory _ m => count_in m k | Team _ _ => f0 end.

Definition has (w : Wrapper) (k : jstr) : bool :=
  match w with Inventory _ m => flt f0 (count_in m k) | Team _ l => shas l k | _ => false end.

(** [entries.toSorted(cmp)]: a stable sort; [after x y] is [cmp(x, y) > 0]. *)
Fixpoint insert_after {A} (after : A -> A -> bool) (x : A) (l : list A) : list A :=
  match l with
  | [] => [x]
  | y :: l' => if after x y then y :: insert_after after x l' else x :: l
  end.

Definition toSorted {A} (after : A -> A -> bool) (l : list A) : list A := foldr (insert_after after) [] l.

Definition after (order : Order) (x y : jstr * num) : bool :=
  match order with high => flt f0 (fsub y.2 x.2) | low => flt f0 (fsub x.2 y.2) end.

Definition ranked (order : Order) (scores : jsmap jstr num) : list (jstr * num) := toSorted (after order) scores.

Fixpoint findIndex {A} (f : A -> bool) (l : list A) (i : Z) : Z :=
  match l with [] => -1 | x :: l => if f x then i else findIndex f l (i + 1) end.

Definition rankOf (order : Order) (scores : jsmap jstr num) (player : jstr) : Z :=
  let at_ := findIndex (fun e => bool_decide (e.1 = player)) (ranked order scores) 0 in
  if at_ <? 0 then 0 else at_ + 1.

Section Lookup.
(** Whether the roster knows a player. *)
Context (known : jstr -> bool).

(** [Scoreboard.top], [Leaderboard.top] and [Team.players]. *)
Definition top (order : Order) (scores : jsmap jstr num) (n : nat) : list (jstr * num) :=
  filter (fun e => known e.1 = true) (take n (ranked order scores)).

Definition team_players (members : jsset jstr) : list jstr := filter (fun id => known id = true) members.

(** ** The serialized form *)

Definition pairs (m : jsmap jstr num) : json := JArr ((fun e => JArr [JStr e.1; JNum e.2]) <$> m).

Definition kind_name (w : Wrapper) : jstr :=
  js match w with Scoreboard _ => "Scoreboard" | Leaderboard _ _ => "Leaderboard" | Inventory _ _ => "Inventory" | Team _ _ => "Team" end.

Definition serialize (w : Wrapper) : json :=
  JObj ((js "kind", JStr (kind_name w)) ::
    match w with
    | Scoreboard m => [(js "scores", pairs m)]
    | Leaderboard o m => [(js "order", JStr (js match o with high => "high" | low => "low" end)); (js "scores", pairs m)]
    | Inventory p m => [(js "player", JStr p); (js "items", pairs m)]
    | Team n l => [(js "name", JStr n); (js "members", JArr (JStr <$> l))]
    end).

Definition text_is (o : option json) (s : jstr) : bool := match o with Some (JStr t) => bool_decide (t = s) | _ => false end.

Definition kind_is (data : json) (kind : jstr) : bool := text_is (jget data "kind") kind.

(** A payload's lists, where they have the shape the casts claim. *)
Definition read_pair (j : json) : option (jstr * num) :=
  match j with JArr (JStr k :: JNum n :: _) => Some (k, n) | _ => None end.
Definition read_name (j : json) : option jstr := match j with JStr s => Some s | _ => None end.

Definition read_list {A} (f : json -> option A) (o : option json) : option (list A) :=
  match o with None | Some JNull => Some [] | Some (JArr l) => mapM f l | _ => None end.

(** [restoreCounts]: [None] for a list that is not of the shape claimed. *)
Definition restoreCounts (m : jsmap jstr num) (data : json) (kind : jstr) (field : string) : option (jsmap jstr num) :=
  if kind_is data kind
  then (fun entries => foldl (fun m e => mset m e.1 e.2) [] entries) <$> read_list read_pair (jget data field)
  else Some m.

Definition restore (w : Wrapper) (data : json) : option Wrapper :=
  match w with
  | Scoreboard m => Scoreboard <$> restoreCounts m data (js "Scoreboard") "scores"
  | Leaderboard o m => Leaderboard o <$> restoreCounts m data (js "Leaderboard") "scores"
  | Inventory p m => Inventory p <$> restoreCounts m data (js "Inventory") "items"
  | Team n l =>
      if kind_is data (js "Team")
      then (fun ids => Team n (foldl sadd [] ids)) <$> read_list read_name (jget data "members")
      else Some w
  end.

(** Keyed off the payload's [kind]. *)
Definition reviveWrapper (data : json) : option Wrapper :=
  if kind_is data (js "Scoreboard") then Some new_scoreboard
  else if kind_is data (js "Leaderboard") then Some (new_leaderboard (Some (if text_is (jget data "order") (js "low") then low else high)))
  else if kind_is data (js "Team") then match jget data "name" with Some (JStr n) => Some (new_team n) | _ => None end
  else if kind_is data (js "Inventory") then
    match jget data "player" with Some (JStr p) => if known p then Some (new_inventory p) else None | _ => None end
  else None.

(** What a host's field holds. *)
Inductive field_value := Raw (j : json) | Holds (b : Bound).

Definition serializeHostField (v : option field_value) : option json :=
  match v with Some (Holds b) => Some (serialize (wrapper b)) | Some (Raw j) => Some j | None => None end.

(** A wrapper already there is restored, not replaced. *)
Definition restoreHostField (r : jstr * jstr) (held : option field_value) (value : json) : option field_value :=
  match held with
  | Some (Holds b) => (fun w => Holds (MkBound w (record b) (marks b))) <$> restore (wrapper b) value
  | _ =>
      match reviveWrapper value with
      | None => Some (Raw value)
      | Some w => (fun w => Holds (MkBound w (Some r) [])) <$> restore w value
      end
  end.
End Lookup.

(** ** Countdowns *)

Record Countdown := MkCountdown { remainingTicks : num; cd_running : bool; cd_fired : bool; cd_simRate : num }.

(** The countdowns made, by number, those the pass walks, and each [onZero] called. *)
Record Countdowns := MkCountdowns { cds : list Countdown; enrolled : jsset nat; zeros : list nat }.

Definition ticks_of (seconds rate : num) : num := fmax f0 (fround (fmul seconds rate)).

Inductive countdown_op :=
  | CdMake (seconds rate : num)
  | CdStart (i : nat)
  | CdPause (i : nat)
  | CdReset (i : nat) (seconds : option num).

Definition set_running (v : bool) (c : Countdown) : Countdown := MkCountdown (remainingTicks c) v (cd_fired c) (cd_simRate c).

Definition cd_remaining (c : Countdown) : num := fdiv (remainingTicks c) (cd_simRate c).

Definition countdown_do (s : Countdowns) (o : countdown_op) : Countdowns :=
  match o with
  | CdMake seconds rate => MkCountdowns (cds s ++ [MkCountdown (ticks_of seconds rate) false false rate]) (enrolled s) (zeros s)
  | CdStart i => MkCountdowns (alter (set_running true) i (cds s)) (sadd (enrolled s) i) (zeros s)
  | CdPause i => MkCountdowns (alter (set_running false) i (cds s)) (sdel (enrolled s) i) (zeros s)
  | CdReset i seconds =>
      MkCountdowns (alter (fun c => MkCountdown (match seconds with Some x => ticks_of x (cd_simRate c) | None => remainingTicks c end)
                                      (cd_running c) false (cd_simRate c)) i (cds s)) (enrolled s) (zeros s)
  end.

Section Countdowns.
(** Each countdown's [onZero], creator code: what it asks of countdowns, and whether the
    guard around the advance lets it run at all. *)
Context (onZero : nat -> list countdown_op) (disabled : nat -> bool).

Definition countdown_advance (s : Countdowns) (i : nat) : Countdowns :=
  match cds s !! i with
  | None => s
  | Some c =>
      if negb (cd_running c) || fle (remainingTicks c) f0 then s
      else
        let left := fsub (remainingTicks c) (of_Z 1) in
        if fle left f0 && negb (cd_fired c) then
          foldl countdown_do
            (MkCountdowns (<[i := MkCountdown left false true (cd_simRate c)]> (cds s)) (sdel (enrolled s) i) (zeros s ++ [i])) (onZero i)
        else MkCountdowns (<[i := MkCountdown left (cd_running c) (cd_fired c) (cd_simRate c)]> (cds s)) (enrolled s) (zeros s)
  end.

(** The countdowns pass: over a copy, and nothing on a replayed tick. *)
Definition countdowns_pass (replay : bool) (s : Countdowns) : Countdowns :=
  if replay then s else foldl (fun s i => if disabled i then s else countdown_advance s i) s (enrolled s).
End Countdowns.

(** ** Crossing the wire *)

Definition no_repeat (w : Wrapper) : Prop :=
  match w with Scoreboard m | Leaderboard _ m | Inventory _ m => NoDup (mkeys m) | Team _ l => NoDup l end.

Definition same_make (w w' : Wrapper) : Prop :=
  match w, w' with
  | Scoreboard _, Scoreboard _ => True
  | Leaderboard o _, Leaderboard o' _ => o = o'
  | Inventory p _, Inventory p' _ => p = p'
  | Team n _, Team n' _ => n = n'
  | _, _ => False
  end.

Lemma mutate_Ok w b b' : mutate w b = Ok b' -> wrapper b' = w /\ record b' = record b.
Proof. unfold mutate. destruct (record b) as [r|] eqn:E; [|done]. intros [= <-]. by cbn. Qed.

Lemma NoDup_take_items m i n : NoDup (mkeys m) -> NoDup (mkeys (take_items m i n)).
Proof. intros Hm. unfold take_items. destruct (fle _ _); [by apply NoDup_mdel|by apply NoDup_mset]. Qed.

Lemma wrapper_do_ok acting b o b' : wrapper_do acting b o = Ok b' ->
  same_make (wrapper b') (wrapper b) /\ record b' = record b /\ (no_repeat (wrapper b) -> no_repeat (wrapper b')).
Proof.
  assert (Hp : forall p m f, with_player acting p b m f = Ok b' -> exists x, f x = Ok b').
  { intros p m f. unfold with_player. destruct (record b); [|done]. destruct (match p with Some _ => p | None => acting end); [|done]. eauto. }
  assert (Hm : forall w, mutate w b = Ok b' -> same_make w (wrapper b) -> (no_repeat (wrapper b) -> no_repeat w) ->
    same_make (wrapper b') (wrapper b) /\ record b' = record b /\ (no_repeat (wrapper b) -> no_repeat (wrapper b'))).
  { intros w Hw Hs Hn. apply mutate_Ok in Hw as [-> ->]. done. }
  unfold wrapper_do. destruct (wrapper b) as [s|o0 s|p0 s|n0 l] eqn:E, o; intros H;
    try (injection H as <-; rewrite E; by split_and!);
    try (apply Hp in H as [x H]);
    try (eapply Hm; [exact H|done|intros ?; simpl in *; try constructor; by (apply NoDup_mset || apply NoDup_take_items || apply NoDup_sadd || apply NoDup_sdel)]).
  destruct (record b) eqn:Er; [|done]. destruct player; [|done]. destruct (better _ _ _).
  - eapply Hm; [exact H|done|intros ?; by apply NoDup_mset].
  - injection H as <-. rewrite E, Er. by split_and!.
Qed.

Lemma same_make_trans w1 w2 w3 : same_make w1 w2 -> same_make w2 w3 -> same_make w1 w3.
Proof. destruct w1, w2, w3; simpl; try done; congruence. Qed.

Lemma same_make_refl w : same_make w w.
Proof. by destruct w. Qed.

Lemma wrapper_run_ok acting ops : forall b,
  let b' := wrapper_run acting b ops in
  same_make (wrapper b') (wrapper b) /\ (no_repeat (wrapper b) -> no_repeat (wrapper b')).
Proof.
  induction ops as [|o ops IH]; intros b; [split; [apply same_make_refl|done]|]. cbn [wrapper_run foldl].
  destruct (IH (wrapper_step acting b o)) as [H1 H2]. unfold wrapper_run in *. unfold wrapper_step in *.
  destruct (wrapper_do acting b o) as [b1|e] eqn:E; [|done]. apply wrapper_do_ok in E as (J1 & _ & J3).
  split; [by eapply same_make_trans|auto].
Qed.

Lemma read_pairs (m : jsmap jstr num) : mapM read_pair ((fun e => JArr [JStr e.1; JNum e.2]) <$> m) = Some m.
Proof. apply mapM_Some, Forall2_fmap_l, Forall_Forall2_diag, Forall_true. by intros [k n]. Qed.

Lemma read_names (l : list jstr) : mapM read_name (JStr <$> l) = Some l.
Proof. by apply mapM_Some, Forall2_fmap_l, Forall_Forall2_diag, Forall_true. Qed.

Lemma mset_all (m acc : jsmap jstr num) : NoDup (mkeys acc ++ mkeys m) -> foldl (fun m e => mset m e.1 e.2) acc m = acc ++ m.
Proof.
  revert acc. induction m as [|[k n] m IH]; intros acc Hn; [by rewrite app_nil_r|]. cbn [foldl fst snd].
  assert (Hk : k ∉ mkeys acc).
  { apply NoDup_app in Hn as (_ & Hd & _). intros Hk. apply (Hd k Hk). by left. }
  rewrite mset_fresh by done. rewrite IH, <- app_assoc; [done|]. unfold mkeys in *. rewrite fmap_app, <- app_assoc. exact Hn.
Qed.

Lemma sadd_all (l acc : jsset jstr) : NoDup (acc ++ l) -> foldl sadd acc l = acc ++ l.
Proof.
  revert acc. induction l as [|k l IH]; intros acc Hn; [by rewrite app_nil_r|]. cbn [foldl].
  assert (Hk : k ∉ acc) by (apply NoDup_app in Hn as (_ & Hd & _); intros Hk; apply (Hd k Hk); by left).
  rewrite sadd_not_in by done. rewrite IH, <- app_assoc; [done|]. by rewrite <- app_assoc.
Qed.

(** Restoring from a wrapper's own form, and from another kind's. *)
Lemma restore_serialize w w' : same_make w' w -> no_repeat w -> restore w' (serialize w) = Some w.
Proof.
  assert (Hc : forall m m' kind field, NoDup (mkeys m) -> kind_is (serialize w) kind = true -> jget (serialize w) field = Some (pairs m) ->
    restoreCounts m' (serialize w) kind field = Some m).
  { intros m m' kind field Hn Hk Hf. unfold restoreCounts. rewrite Hk, Hf. unfold pairs, read_list. rewrite read_pairs. csimpl. by rewrite mset_all. }
  destruct w as [m|o m|p m|n l], w' as [m'|o' m'|p' m'|n' l']; try done; intros Hs Hn; cbn in Hs, Hn; subst; cbn [restore];
    try (rewrite (Hc m) by done; done).
  change (kind_is _ _) with true. change (jget _ "members") with (Some (JArr (JStr <$> l))). unfold read_list. rewrite read_names. csimpl.
  by rewrite sadd_all.
Qed.

Lemma restore_other w w' : kind_name w' <> kind_name w -> restore w' (serialize w) = Some w'.
Proof. destruct w, w'; intros Hk; try done; cbn [restore]; try (unfold restoreCounts); reflexivity. Qed.

Definition revivable (known : jstr -> bool) (w : Wrapper) : Prop := match w with Inventory p _ => known p = true | _ => True end.

Lemma revive_serialize known w : revivable known w -> exists w0, reviveWrapper known (serialize w) = Some w0 /\ same_make w0 w.
Proof.
  destruct w as [m|[] m|p m|n l]; intros Hr; try (eexists; split; [reflexivity|done]).
  exists (new_inventory p). split; [|done]. change (reviveWrapper known _) with (if known p then Some (new_inventory p) else None). by rewrite Hr.
Qed.

(** What a field that receives a wrapper may hold: one of the same make, or no wrapper and
    the players it takes to rebuild it. *)
Definition receives (known : jstr -> bool) (w : Wrapper) (held : option field_value) : Prop :=
  match held with Some (Holds h) => same_make (wrapper h) w | _ => revivable known w end.

(** ** Ranking *)

Lemma insert_after_perm {A} (f : A -> A -> bool) x l : insert_after f x l ≡ₚ x :: l.
Proof. induction l as [|y l IH]; [done|]. cbn. destruct (f x y); [|done]. rewrite IH. apply Permutation_swap. Qed.

Lemma toSorted_perm {A} (f : A -> A -> bool) l : toSorted f l ≡ₚ l.
Proof. induction l as [|x l IH]; [done|]. cbn. by rewrite insert_after_perm, IH. Qed.

(** Sorting by an integer key [g]: larger keys later, equal ones in the order they had. *)
Section Keyed.
Context {A : Type} (f : A -> A -> bool) (g : A -> Z) (P : A -> Prop).
Hypothesis Hf : forall x y, P x -> P y -> f x y = (g y <? g x).

Lemma insert_after_keyed x l : P x -> Forall P l -> StronglySorted (fun x y => g x <= g y) l ->
  StronglySorted (fun x y => g x <= g y) (insert_after f x l)
  /\ forall k, filter (fun x => g x = k) (insert_after f x l) = filter (fun x => g x = k) (x :: l).
Proof using Hf.
  intros Hx. induction l as [|y l IH]; intros Hl Hs; [by repeat constructor|]. apply Forall_cons in Hl as [Hy Hl]. apply StronglySorted_inv in Hs as [Hs Hle].
  cbn [insert_after]. rewrite Hf by done. destruct (g y <? g x) eqn:E; bool_facts.
  - destruct (IH Hl Hs) as [H1 H2]. split.
    + constructor; [done|]. rewrite insert_after_perm. constructor; [lia|done].
    + intros k. rewrite !filter_cons, H2, filter_cons. destruct (decide (g y = k)), (decide (g x = k)); try done. lia.
  - split; [|done]. constructor; [by constructor|]. constructor; [done|]. eapply Forall_impl; [done|]. simpl. lia.
Qed.

Lemma toSorted_keyed l : Forall P l ->
  StronglySorted (fun x y => g x <= g y) (toSorted f l) /\ forall k, filter (fun x => g x = k) (toSorted f l) = filter (fun x => g x = k) l.
Proof using Hf.
  induction l as [|x l IH]; intros Hl; [by split; [constructor|]|]. apply Forall_cons in Hl as [Hx Hl]. destruct (IH Hl) as [H1 H2].
  cbn. destruct (insert_after_keyed x (toSorted f l) Hx) as [J1 J2]; [by rewrite toSorted_perm|done|]. split; [done|].
  intros k. rewrite J2, !filter_cons, H2. done.
Qed.
End Keyed.

Lemma findIndex_spec {A} (f : A -> bool) l : forall i,
  match findIndex f l i with
  | r => (r = -1 /\ Forall (fun x => f x = false) l) \/ exists n x, r = i + Z.of_nat n /\ l !! n = Some x /\ f x = true /\ Forall (fun y => f y = false) (take n l)
  end.
Proof.
  induction l as [|x l IH]; intros i; cbn; [by left|]. destruct (f x) eqn:E.
  - right. exists 0%nat, x. split_and!; [lia|done|done|constructor].
  - destruct (IH (i + 1)) as [[-> H]|(n & y & -> & H1 & H2 & H3)]; [left; by split; [|constructor]|].
    right. exists (S n), y. split_and!; [lia|done|done|by constructor].
Qed.

(** A score: any double but NaN. *)
Definition a_score (e : jstr * num) : Prop := is_double e.2 /\ is_nan e.2 = false.

(** Larger is later. *)
Definition rank_key (o : Order) (e : jstr * num) : Z := match o with high => - worth e.2 | low => worth e.2 end.

Lemma after_key o x y : a_score x -> a_score y -> after o x y = (rank_key o y <? rank_key o x).
Proof.
  intros [Hx Nx] [Hy Ny]. unfold after, rank_key. destruct o; rewrite fsub_sign by done; rewrite flt_worth by done; [|done].
  apply eq_true_iff_eq. rewrite !Z.ltb_lt. lia.
Qed.

(** [x] is a better score than [y]. *)
Definition beats (o : Order) (x y : num) : bool := match o with high => flt y x | low => flt x y end.

Lemma beats_key o p q x y : a_score (p, x) -> a_score (q, y) -> beats o x y = (rank_key o (p, x) <? rank_key o (q, y)).
Proof.
  intros [Hx Nx] [Hy Ny]. unfold beats, rank_key. cbn [snd] in *. destruct o; rewrite flt_worth by done; [|done].
  apply eq_true_iff_eq. rewrite !Z.ltb_lt. lia.
Qed.

(** [x] is the best of the scores of [p], the first of those equal to it. *)
Definition best_of (o : Order) (p : jstr) (subs : list (jstr * num)) (x : num) : Prop :=
  exists earlier later, subs = earlier ++ (p, x) :: later
    /\ Forall (fun e => e.1 = p -> beats o x e.2 = true) earlier /\ Forall (fun e => e.1 = p -> beats o e.2 x = false) later.

Definition submissions (subs : list (jstr * num)) : list wrapper_op := (fun e => Submit e.2 (Some e.1)) <$> subs.

Record board_inv (o : Order) (subs : list (jstr * num)) (b : Bound) (m : jsmap jstr num) : Prop := {
  bi_wrapper : wrapper b = Leaderboard o m;
  bi_bound : is_Some (record b);
  bi_keys : mkeys m = foldl sadd [] subs.*1;
  bi_best p : match mget m p with Some x => best_of o p subs x | None => p ∉ subs.*1 end;
}.

Lemma best_kept o p subs x e : best_of o p subs x -> (e.1 = p -> beats o e.2 x = false) -> best_of o p (subs ++ [e]) x.
Proof.
  intros (l & k & -> & H1 & H2) He. exists l, (k ++ [e]). split; [by rewrite <- app_assoc|]. split; [done|].
  apply Forall_app. split; [done|]. by constructor.
Qed.

Lemma best_taken o subs x e : Forall a_score subs -> a_score e -> best_of o e.1 subs x -> beats o e.2 x = true -> best_of o e.1 (subs ++ [e]) e.2.
Proof.
  intros Hs He (l & k & -> & H1 & H2) Hb. exists (l ++ (e.1, x) :: k), []. destruct e as [p y]. cbn [fst snd] in *.
  split; [done|]. split; [|constructor]. apply Forall_app in Hs as [Hl [Hx Hk]%Forall_cons].
  rewrite (beats_key o p p) in Hb by done. rewrite Forall_forall in *.
  intros [q z] Hin Hq. cbn [fst snd] in *. subst q. apply elem_of_app in Hin as [Hin|[[= ->]|Hin]%elem_of_cons].
  - specialize (H1 _ Hin eq_refl). cbn in H1. specialize (Hl _ Hin). rewrite (beats_key o p p) in * by done. bool_facts. lia.
  - by rewrite (beats_key o p p).
  - specialize (H2 _ Hin eq_refl). cbn in H2. specialize (Hk _ Hin). rewrite (beats_key o p p) in * by done. bool_facts. lia.
Qed.

Lemma board_step o subs b m e acting : board_inv o subs b m -> Forall a_score subs -> a_score e ->
  exists m', board_inv o (subs ++ [e]) (wrapper_step acting b (Submit e.2 (Some e.1))) m'.
Proof.
  intros [Hw [r Hr] Hk Hb] Hs He. unfold wrapper_step, wrapper_do. rewrite Hw, Hr.
  assert (Hkeys : foldl sadd [] (subs ++ [e]).*1 = sadd (mkeys m) e.1) by (rewrite fmap_app, foldl_app, Hk; done).
  assert (Hother : forall p, e.1 <> p -> match mget m p with Some x => best_of o p (subs ++ [e]) x | None => p ∉ (subs ++ [e]).*1 end).
  { intros p Hp. specialize (Hb p). destruct (mget m p); [by apply best_kept|]. rewrite fmap_app. set_solver. }
  assert (Htake : best_of o e.1 (subs ++ [e]) e.2 -> exists m', board_inv o (subs ++ [e]) (match mutate (Leaderboard o (mset m e.1 e.2)) b with Ok b' => b' | Throw _ => b end) m').
  { intros Ht. unfold mutate. rewrite Hr. eexists. split; cbn; [done|by eexists|by rewrite mkeys_mset_sadd, Hkeys|].
    intros p. destruct (decide (e.1 = p)) as [<-|Hne]; [by rewrite mget_mset_eq|]. rewrite mget_mset_ne by done. by apply Hother. }
  pose proof (Hb e.1) as Hbe. destruct (mget m e.1) as [x|] eqn:Ex; cbn [better].
  - change (match o with high => flt x e.2 | low => flt e.2 x end) with (beats o e.2 x).
    destruct (beats o e.2 x) eqn:Eb; [by apply Htake, best_taken with x|].
    assert (Hin : e.1 ∈ mkeys m) by (apply mget_is_Some; by eexists).
    exists m. split; [done|by eexists|by rewrite Hkeys, sadd_in|]. intros p. destruct (decide (e.1 = p)) as [<-|Hne]; [|by apply Hother].
    rewrite Ex. by apply best_kept.
  - apply Htake. exists subs, []. destruct e as [q y]. split_and!; [done| |constructor]. apply Forall_forall. intros [q' z] Hin Hq. exfalso.
    apply Hbe. apply list_elem_of_fmap. exists (q', z). cbn in *. by subst.
Qed.

Lemma board_run o r acting subs : Forall a_score subs ->
  exists m, board_inv o subs (wrapper_run acting (MkBound (new_leaderboard (Some o)) (Some r) []) (submissions subs)) m.
Proof.
  induction subs as [|e subs IH] using rev_ind; intros Hs.
  - exists []. split; [done|by eexists|done|]. intros p. apply not_elem_of_nil.
  - apply Forall_app in Hs as [Hs He]. apply Forall_cons in He as [He _]. destruct (IH Hs) as [m Hm].
    unfold submissions, wrapper_run in *. rewrite fmap_app, foldl_app. by apply board_step with (m := m).
Qed.

(** A score a board holds was submitted. *)
Lemma board_scores o subs b m : board_inv o subs b m -> NoDup (mkeys m) -> Forall a_score subs -> Forall a_score m.
Proof.
  intros [_ _ _ Hb] Hn Hs. apply Forall_forall. intros [p x] Hin. apply (mget_NoDup _ _ _ Hn) in Hin. specialize (Hb p). rewrite Hin in Hb.
  destruct Hb as (l & k & -> & _). by apply Forall_app in Hs as [_ [? _]%Forall_cons].
Qed.

(** Better ones first, in the order of the numbers. *)
Definition no_better (o : Order) (x y : jstr * num) : Prop := match o with high => fle y.2 x.2 | low => fle x.2 y.2 end = true.

Lemma ranked_no_better o l : Forall a_score l -> StronglySorted (fun x y => rank_key o x <= rank_key o y) l -> StronglySorted (no_better o) l.
Proof.
  intros Hl Hs. induction Hs as [|x l Hs IH Hx]; constructor; apply Forall_cons in Hl as [[Dx Nx] Hl]; [by apply IH|].
  rewrite Forall_forall in *. intros y Hy. specialize (Hx y Hy). destruct (Hl y Hy) as [Dy Ny]. unfold no_better, rank_key in *.
  destruct o; apply flt_false_le; try done; rewrite flt_worth by done; apply Z.ltb_ge; lia.
Qed.

(** A player whose entry is NaN keeps it: no score is greater, nor less. *)
Lemma nan_score_sticks o acting subs p : forall b m, wrapper b = Leaderboard o m -> mget m p = Some NaN ->
  exists m', wrapper (wrapper_run acting b (submissions subs)) = Leaderboard o m' /\ mget m' p = Some NaN.
Proof.
  induction subs as [|[q x] subs IH]; intros b m Hw Hm; [by exists m|].
  cbn [submissions fmap list_fmap wrapper_run foldl]. assert (Hstep : exists m1, wrapper (wrapper_step acting b (Submit x (Some q))) = Leaderboard o m1 /\ mget m1 p = Some NaN).
  { unfold wrapper_step, wrapper_do. rewrite Hw. destruct (record b) as [r|] eqn:Hr; [|by exists m]. destruct (better o (mget m q) x) eqn:Eb; [|by exists m].
    unfold mutate. rewrite Hr. cbn [wrapper]. exists (mset m q x). split; [done|]. destruct (decide (q = p)) as [->|Hne]; [|by rewrite mget_mset_ne].
    rewrite Hm in Eb. exfalso. by destruct o, x as [| | |[]]. }
  destruct Hstep as (m1 & H1 & H2). exact (IH _ _ H1 H2).
Qed.

Lemma nodup_sadds (l : list jstr) acc : NoDup acc -> NoDup (foldl sadd acc l).
Proof. revert acc. induction l as [|x l IH]; intros acc Ha; [done|]. by apply IH, NoDup_sadd. Qed.

(** ** Properties *)

(** C15. A wrapper crosses the wire and persistence whole. Whatever calls made it, the form
    it serializes to, landed on a field that holds a wrapper of the same make, or none where
    its players are known, leaves a wrapper in exactly the same state; landed on a wrapper
    of another kind it changes nothing. *)
Theorem wrapper_crosses_the_wire (known : jstr -> bool) (acting : option jstr) (b : Bound) (ops : list wrapper_op)
    (r : jstr * jstr) (held : option field_value) :
  no_repeat (wrapper b) ->
  let w := wrapper (wrapper_run acting b ops) in
  (receives known w held -> exists h, restoreHostField known r held (serialize w) = Some (Holds h) /\ wrapper h = w)
  /\ (forall h, held = Some (Holds h) -> kind_name (wrapper h) <> kind_name w ->
        exists h', restoreHostField known r held (serialize w) = Some (Holds h') /\ wrapper h' = wrapper h).
Proof.
  intros Hb w. assert (Hn : no_repeat w) by by apply wrapper_run_ok. split.
  - intros Hr. assert (Hrev : revivable known w -> forall v, v = None \/ (exists j, v = Some (Raw j)) ->
      exists h, restoreHostField known r v (serialize w) = Some (Holds h) /\ wrapper h = w).
    { intros Hk v Hv. destruct (revive_serialize known w Hk) as (w0 & H1 & H2).
      assert (E : restoreHostField known r v (serialize w) = (fun w => Holds (MkBound w (Some r) [])) <$> restore w0 (serialize w)).
      { destruct Hv as [->|[j ->]]; unfold restoreHostField; by rewrite H1. }
      rewrite E, restore_serialize by done. by eexists. }
    destruct held as [[j|h]|]; [apply Hrev; [done|by right; eexists]| |apply Hrev; [done|by left]].
    unfold restoreHostField. cbn in Hr. rewrite restore_serialize by done. by eexists.
  - intros h -> Hk. unfold restoreHostField. rewrite restore_other by done. by eexists.
Qed.

(** C28. A leaderboard keeps each player's best and ranks by it. After any submissions of
    scores that are numbers, whole or not, infinite ones too, but not NaN: a player's entry
    is the best of theirs, for the order the board has, the first of equal ones; ranking
    the board permutes its entries, better ones first and equal ones in the order their
    players first submitted; and [rankOf] is a player's place in it from 1, or 0 for one who
    never submitted. *)
Theorem leaderboard_ranks_best (o : Order) (r : jstr * jstr) (acting : option jstr) (subs : list (jstr * num)) :
  Forall (fun e => is_double e.2 /\ is_nan e.2 = false) subs ->
  exists m, wrapper (wrapper_run acting (MkBound (new_leaderboard (Some o)) (Some r) []) (submissions subs)) = Leaderboard o m
  /\ (forall p, match mget m p with Some x => best_of o p subs x | None => p ∉ subs.*1 end)
  /\ ranked o m ≡ₚ m
  /\ StronglySorted (no_better o) (ranked o m)
  /\ (forall k, filter (fun e => worth e.2 = k) (ranked o m) = filter (fun e => worth e.2 = k) m)
  /\ mkeys m = foldl sadd [] subs.*1
  /\ (forall p n, rankOf o m p = Z.of_nat n + 1 <-> (fst <$> ranked o m) !! n = Some p)
  /\ (forall p, rankOf o m p = 0 <-> p ∉ subs.*1).
Proof.
  intros Hs. destruct (board_run o r acting subs Hs) as [m Hbi]. exists m. destruct (Hbi) as [Hw _ Hk Hb].
  assert (Hn : NoDup (mkeys m)) by (rewrite Hk; apply nodup_sadds; constructor).
  pose proof (board_scores o subs _ m Hbi Hn Hs) as Hsc.
  destruct (toSorted_keyed (after o) (rank_key o) a_score (after_key o) m Hsc) as [H1 H2].
  pose proof (toSorted_perm (after o) m) as Hp.
  assert (Hnr : NoDup (fst <$> ranked o m)) by (unfold ranked; by rewrite Hp).
  assert (Hall : forall p, p ∈ fst <$> ranked o m <-> p ∈ subs.*1).
  { intros p. unfold ranked. rewrite Hp. change (fst <$> m) with (mkeys m). rewrite Hk.
    assert (Hg : forall l acc, p ∈ foldl sadd acc l <-> p ∈ acc \/ p ∈ l).
    { induction l as [|x l IH]; intros acc; cbn; [set_solver|]. rewrite IH, elem_of_sadd. set_solver. }
    rewrite Hg. set_solver. }
  split_and!; try done.
  - apply ranked_no_better; [|done]. unfold ranked. by rewrite Hp.
  - intros k. destruct o; [specialize (H2 (- k))|exact (H2 k)]. etrans; [|etrans; [exact H2|]]; apply list_filter_iff; intros e; cbn [rank_key]; lia.
  - intros p n. unfold rankOf. destruct (findIndex_spec (fun e => bool_decide (e.1 = p)) (ranked o m) 0) as [[-> Hf]|(k & e & -> & He & Hep & _)].
    + split; [cbn; lia|]. intros Hl. exfalso. apply list_lookup_fmap_Some in Hl as (e & -> & He). apply list_elem_of_lookup_2 in He.
      apply (proj1 (Forall_forall _ _) Hf) in He. by rewrite bool_decide_true in He.
    + bool_facts. assert (Hlk : (fst <$> ranked o m) !! k = Some p) by (rewrite list_lookup_fmap, He; cbn; by f_equal).
      destruct (0 + Z.of_nat k <? 0) eqn:E; bool_facts; [lia|]. split; [intros ?; by replace n with k by lia|].
      intros Hl. rewrite (NoDup_lookup _ _ _ _ Hnr Hlk Hl). lia.
  - intros p. unfold rankOf. rewrite <- Hall. destruct (findIndex_spec (fun e => bool_decide (e.1 = p)) (ranked o m) 0) as [[-> Hf]|(k & e & -> & He & Hep & _)].
    + split; [|done]. intros _ (e & -> & He)%list_elem_of_fmap. apply (proj1 (Forall_forall _ _) Hf) in He. by rewrite bool_decide_true in He.
    + bool_facts. destruct (0 + Z.of_nat k <? 0) eqn:E; bool_facts; [lia|]. split; [lia|]. intros Hno. exfalso. apply Hno.
      apply list_elem_of_lookup. exists k. rewrite list_lookup_fmap, He. cbn. by f_equal.
Qed.

(** ** Countdowns fire once *)

Definition touches (i : nat) (o : countdown_op) : bool :=
  match o with CdMake _ _ => false | CdStart j | CdPause j | CdReset j _ => (j =? i)%nat end.

(** A countdown of [n] ticks, [k] of them run. *)
Record counting (i : nat) (rate : num) (n k : Z) (fires : nat) (s : Countdowns) : Prop := {
  ct_state : cds s !! i = Some (MkCountdown (of_Z (Z.max 0 (n - k))) (k <? n) (n <=? k) rate);
  ct_enrolled : i ∈ enrolled s <-> k < n;
  ct_nodup : NoDup (enrolled s);
  ct_zeros : length (filter (fun j => j = i) (zeros s)) = (fires + if (n <=? k)%Z then 1 else 0)%nat;
}.

Section CountdownRun.
Context (onZero : nat -> list countdown_op) (disabled : nat -> bool).
Context (i : nat) (rate : num) (n : Z) (fires : nat).
Hypothesis Hquiet : forall j, forallb (fun o => negb (touches i o)) (onZero j) = true.
Hypothesis Hn : 1 <= n < 2 ^ 53.

Lemma counting_op k s o : touches i o = false -> counting i rate n k fires s -> counting i rate n k fires (countdown_do s o).
Proof using.
  clear Hquiet. intros Ht [H1 H2 H3 H4]. destruct o; cbn [touches] in Ht; try apply Nat.eqb_neq in Ht; split; cbn; try done.
  - by apply lookup_app_l_Some.
  - by rewrite list_lookup_alter_ne by congruence.
  - rewrite elem_of_sadd. rewrite <- H2. split; [intros [->|]; [lia|done]|by right].
  - by apply NoDup_sadd.
  - by rewrite list_lookup_alter_ne by congruence.
  - rewrite elem_of_sdel. rewrite <- H2. split; [by intros []|]. intros ?. split; [done|lia].
  - by apply NoDup_sdel.
  - by rewrite list_lookup_alter_ne by congruence.
Qed.

Lemma counting_ops k os : forall s, forallb (fun o => negb (touches i o)) os = true -> counting i rate n k fires s -> counting i rate n k fires (foldl countdown_do s os).
Proof using.
  induction os as [|o os IH]; intros s Ho Hs; [done|]. cbn in Ho. apply andb_true_iff in Ho as [Ho1 Ho2]. apply IH; [done|].
  apply counting_op; [by apply negb_true_iff in Ho1|done].
Qed.

(** Another countdown's advance. *)
Lemma counting_other k s j : j <> i -> counting i rate n k fires s -> counting i rate n k fires (countdown_advance onZero s j).
Proof using Hquiet.
  intros Hj Hs. unfold countdown_advance. destruct (cds s !! j) as [c|]; [|done]. destruct (_ || _); [done|]. cbv zeta.
  destruct Hs as [H1 H2 H3 H4]. destruct (_ && _).
  - apply counting_ops; [apply Hquiet|]. split; cbn.
    + by rewrite list_lookup_insert_ne.
    + rewrite elem_of_sdel, <- H2. split; [by intros []|]. intros ?. split; [done|congruence].
    + by apply NoDup_sdel.
    + rewrite filter_app, length_app, H4, filter_cons_False by done. cbn. lia.
  - split; cbn; try done. by rewrite list_lookup_insert_ne.
Qed.

(** Its own. *)
Lemma counting_own k s : 0 <= k < n -> counting i rate n k fires s -> counting i rate n (k + 1) fires (countdown_advance onZero s i).
Proof using Hquiet Hn.
  intros Hk [H1 H2 H3 H4]. unfold countdown_advance. rewrite H1. cbn [cd_running remainingTicks cd_fired cd_simRate].
  rewrite Z.max_r by lia. change f0 with (of_Z 0). rewrite !fle_int by (unfold exact_int; lia).
  rewrite fsub_int by (unfold exact_int; lia). rewrite fle_int by (unfold exact_int; lia).
  destruct (k <? n) eqn:E1; bool_facts; [|lia]. destruct (n <=? k) eqn:E2; bool_facts; [lia|]. destruct (n - k <=? 0) eqn:E3; bool_facts; [lia|].
  cbn [negb orb andb]. rewrite andb_true_r. pose proof (lookup_lt_Some _ _ _ H1) as Hlen.
  destruct (n - k - 1 <=? 0) eqn:E4; bool_facts.
  - apply counting_ops; [apply Hquiet|]. assert (n = k + 1) by lia. subst n. split; cbn.
    + rewrite list_lookup_insert_eq by done. do 2 f_equal; [f_equal; lia|symmetry; apply Z.ltb_ge; lia|symmetry; apply Z.leb_le; lia].
    + rewrite elem_of_sdel. split; [by intros []|lia].
    + by apply NoDup_sdel.
    + rewrite filter_app, length_app, H4, filter_cons_True by done. rewrite Z.leb_refl. cbn. lia.
  - split; cbn; try done.
    + rewrite list_lookup_insert_eq by done. do 2 f_equal; [f_equal; lia|symmetry; apply Z.ltb_lt; lia|symmetry; apply Z.leb_gt; lia].
    + rewrite H2. lia.
    + rewrite H4. destruct (n <=? k + 1) eqn:E5; bool_facts; [lia|done].
Qed.

Hypothesis Hen : disabled i = false.

Lemma counting_fold k ids : forall s, 0 <= k -> NoDup ids -> counting i rate n k fires s ->
  counting i rate n (if bool_decide (i ∈ ids) then Z.max k (Z.min n (k + 1)) else k) fires (foldl (fun s j => if disabled j then s else countdown_advance onZero s j) s ids).
Proof using Hquiet Hn Hen.
  revert k. induction ids as [|j ids IH]; intros k s Hk Hnd Hs; [done|]. apply NoDup_cons in Hnd as [Hj Hnd]. cbn [foldl].
  destruct (decide (j = i)) as [->|Hne].
  - rewrite Hen, bool_decide_true by left. destruct (Z.ltb_spec k n).
    + specialize (IH (k + 1) _ ltac:(lia) Hnd (counting_own k s ltac:(lia) Hs)). rewrite bool_decide_false in IH by done.
      by replace (Z.max k (Z.min n (k + 1))) with (k + 1) by lia.
    + assert (E : countdown_advance onZero s i = s).
      { unfold countdown_advance. rewrite (ct_state _ _ _ _ _ _ Hs). cbn [cd_running]. by destruct (k <? n) eqn:E1; bool_facts; [lia|]. }
      rewrite E. specialize (IH k s Hk Hnd Hs). rewrite bool_decide_false in IH by done. by replace (Z.max k (Z.min n (k + 1))) with k by lia.
  - assert (Hs' : counting i rate n k fires (if disabled j then s else countdown_advance onZero s j)) by (destruct (disabled j); [done|by apply counting_other]).
    specialize (IH k _ Hk Hnd Hs'). by rewrite (bool_decide_ext (i ∈ j :: ids) (i ∈ ids)) by (rewrite elem_of_cons; naive_solver).
Qed.

Lemma counting_pass k s (replay : bool) : 0 <= k -> counting i rate n k fires s ->
  counting i rate n (if replay then k else if k <? n then k + 1 else k) fires (countdowns_pass onZero disabled replay s).
Proof using Hquiet Hn Hen.
  intros Hk Hs. unfold countdowns_pass. destruct replay; [done|]. pose proof (counting_fold k (enrolled s) s Hk (ct_nodup _ _ _ _ _ _ Hs) Hs) as H.
  destruct (k <? n) eqn:E; bool_facts.
  - rewrite bool_decide_true in H by by apply Hs. by replace (Z.max k (Z.min n (k + 1))) with (k + 1) in H by lia.
  - rewrite bool_decide_false in H; [done|]. rewrite (ct_enrolled _ _ _ _ _ _ Hs). lia.
Qed.
End CountdownRun.

(** C29. A countdown fires once, on its tick. One of [n] ticks that runs, is enrolled and is
    left alone by creator code: after any passes, of which [k] are not replays, it has
    [n - k] ticks left or none, and from the [n]th on it has called its [onZero] exactly
    once, has stopped and is no longer walked, whatever the other countdowns do. *)
Theorem countdown_fires_once (onZero : nat -> list countdown_op) (disabled : nat -> bool) (s : Countdowns) (i : nat) (n : Z) (rate : num)
    (replays : list bool) :
  (forall j, forallb (fun o => negb (touches i o)) (onZero j) = true) -> disabled i = false -> 1 <= n < 2 ^ 53 ->
  NoDup (enrolled s) -> i ∈ enrolled s -> cds s !! i = Some (MkCountdown (of_Z n) true false rate) ->
  let s' := foldl (fun s r => countdowns_pass onZero disabled r s) s replays in
  let k := Z.of_nat (length (filter (fun r => r = false) replays)) in
  cds s' !! i = Some (MkCountdown (of_Z (Z.max 0 (n - k))) (k <? n) (n <=? k) rate)
  /\ (i ∈ enrolled s' <-> k < n)
  /\ length (filter (fun j => j = i) (zeros s')) = (length (filter (fun j => j = i) (zeros s)) + if (n <=? k)%Z then 1 else 0)%nat.
Proof.
  intros Hq Hd Hn Hnd Hi Hc. cbv zeta. set (fires := length (filter (fun j => j = i) (zeros s))).
  assert (H0 : counting i rate n 0 fires s).
  { split; [by rewrite Z.max_r, Z.sub_0_r, (proj2 (Z.ltb_lt 0 n)), (proj2 (Z.leb_gt n 0)) by lia|split; [lia|done]|done|].
    rewrite (proj2 (Z.leb_gt n 0)) by lia. unfold fires. lia. }
  assert (Hrun : exists k, 0 <= k /\ Z.min n k = Z.min n (Z.of_nat (length (filter (fun r => r = false) replays)))
    /\ counting i rate n k fires (foldl (fun s r => countdowns_pass onZero disabled r s) s replays)).
  { induction replays as [|r rs IH] using rev_ind; [by exists 0|]. destruct IH as (k & Hk & Hmin & Hct). rewrite foldl_app, filter_app, length_app. cbn [foldl].
    pose proof (counting_pass onZero disabled i rate n fires Hq Hn Hd k _ r Hk Hct) as Hp. eexists. split; [|split; [|exact Hp]].
    - destruct r; [done|]. destruct (k <? n); lia.
    - destruct r; [rewrite filter_cons_False by done|rewrite filter_cons_True by done]; cbn [length filter list_filter]; [rewrite Nat.add_0_r; done|].
      destruct (k <? n) eqn:E; bool_facts; simpl length; lia. }
  destruct Hrun as (k & Hk & Hmin & [H1 H2 _ H4]). set (k' := Z.of_nat _) in *.
  assert (E : (k <? n) = (k' <? n) /\ (n <=? k) = (n <=? k') /\ Z.max 0 (n - k) = Z.max 0 (n - k')).
  { split_and!; [apply eq_true_iff_eq; rewrite !Z.ltb_lt; lia|apply eq_true_iff_eq; rewrite !Z.leb_le; lia|lia]. }
  destruct E as (E1 & E2 & E3). rewrite E1, E2, E3 in *. split_and!; [done|rewrite H2; lia|done].
Qed.

(** ** Run *)

(** A board where low is better, played by two, lands on a field holding nothing. *)
Lemma wrapper_crosses_the_wire_witness :
  let played := [Submit (of_Z 30) (Some (js "ann")); Submit (of_Z 20) (Some (js "bo")); Submit (of_Z 25) (Some (js "ann"))] in
  let b := MkBound (new_leaderboard (Some low)) (Some (js "game", js "times")) [] in
  (exists h, restoreHostField (fun _ => true) (js "game", js "times") None (serialize (wrapper (wrapper_run None b played))) = Some (Holds h)
    /\ wrapper h = wrapper (wrapper_run None b played))
  /\ (exists h', restoreHostField (fun _ => true) (js "game", js "times") (Some (Holds (unbound new_scoreboard)))
        (serialize (wrapper (wrapper_run None b played))) = Some (Holds h') /\ wrapper h' = new_scoreboard).
Proof.
  split.
  - exact (proj1 (wrapper_crosses_the_wire (fun _ => true) None (MkBound (new_leaderboard (Some low)) (Some (js "game", js "times")) [])
      [Submit (of_Z 30) (Some (js "ann")); Submit (of_Z 20) (Some (js "bo")); Submit (of_Z 25) (Some (js "ann"))] (js "game", js "times") None (NoDup_nil_2)) I).
  - exact (proj2 (wrapper_crosses_the_wire (fun _ => true) None (MkBound (new_leaderboard (Some low)) (Some (js "game", js "times")) [])
      [Submit (of_Z 30) (Some (js "ann")); Submit (of_Z 20) (Some (js "bo")); Submit (of_Z 25) (Some (js "ann"))] (js "game", js "times")
      (Some (Holds (unbound new_scoreboard))) (NoDup_nil_2)) (unbound new_scoreboard) eq_refl ltac:(vm_compute; discriminate)).
Defined.

(** Halves and a tie among them. *)
Lemma leaderboard_ranks_best_witness :
  let subs := [(js "ann", of_Z 3); (js "bo", fdiv (of_Z 9) (of_Z 2)); (js "ann", of_Z 4); (js "cy", fdiv (of_Z 9) (of_Z 2))] in
  exists m, wrapper (wrapper_run None (MkBound (new_leaderboard (Some high)) (Some (js "game", js "best")) []) (submissions subs)) = Leaderboard high m
  /\ rankOf high m (js "cy") = 2.
Proof.
  intros subs. destruct (leaderboard_ranks_best high (js "game", js "best") None subs ltac:(repeat constructor)) as (m & Hm & _).
  exists m. split; [exact Hm|].
  assert (Hc : wrapper (wrapper_run None (MkBound (new_leaderboard (Some high)) (Some (js "game", js "best")) []) (submissions subs))
    = Leaderboard high [(js "ann", of_Z 4); (js "bo", fdiv (of_Z 9) (of_Z 2)); (js "cy", fdiv (of_Z 9) (of_Z 2))]) by (vm_compute; reflexivity).
  rewrite Hc in Hm. injection Hm as <-. vm_compute. reflexivity.
Defined.

(** Two countdowns, the first starting the second; a replayed tick in between. *)
Lemma countdown_fires_once_witness :
  let s := foldl countdown_do (MkCountdowns [] [] []) [CdMake (of_Z 1) (of_Z 2); CdMake (of_Z 2) (of_Z 2); CdStart 0; CdStart 1] in
  let s' := foldl (fun s r => countdowns_pass (fun _ => [CdMake (of_Z 1) (of_Z 2)]) (fun _ => false) r s) s [false; true; false; false] in
  cds s' !! 0%nat = Some (MkCountdown (of_Z 0) false true (of_Z 2))
  /\ (0%nat ∈ enrolled s' <-> 3 < 2) /\ length (filter (fun j => j = 0%nat) (zeros s')) = 1%nat.
Proof.
  exact (countdown_fires_once (fun _ => [CdMake (of_Z 1) (of_Z 2)]) (fun _ => false)
    (foldl countdown_do (MkCountdowns [] [] []) [CdMake (of_Z 1) (of_Z 2); CdMake (of_Z 2) (of_Z 2); CdStart 0; CdStart 1]) 0 2 (of_Z 2) [false; true; false; false]
    (fun _ => eq_refl) eq_refl ltac:(lia) ltac:(vm_compute; repeat constructor; set_solver) ltac:(vm_compute; by left) ltac:(vm_compute; reflexivity)).
Defined.

(** A countdown of no seconds is at zero when it starts. It never calls its [onZero] and
    is walked for the rest of the session. *)
Lemma countdown_of_zero_is_stuck (onZero : nat -> list countdown_op) (disabled : nat -> bool) (passes : list bool) :
  let s := foldl countdown_do (MkCountdowns [] [] []) [CdMake f0 (of_Z 60); CdStart 0] in
  let s' := foldl (fun s r => countdowns_pass onZero disabled r s) s passes in
  zeros s' = [] /\ enrolled s' = [0%nat] /\ cd_running <$> cds s' !! 0%nat = Some true.
Proof.
  cbv zeta. set (s := foldl countdown_do _ _).
  assert (E : forall r, countdowns_pass onZero disabled r s = s).
  { intros []; [done|]. unfold countdowns_pass. change (enrolled s) with [0%nat]. cbn [foldl]. destruct (disabled 0%nat); [done|].
    unfold countdown_advance. change (cds s !! 0%nat) with (Some (MkCountdown (ticks_of f0 (of_Z 60)) true false (of_Z 60))).
    assert (Ht : fle (ticks_of f0 (of_Z 60)) f0 = true) by (vm_compute; reflexivity). cbn [cd_running remainingTicks]. by rewrite Ht. }
  assert (Hs : foldl (fun s r => countdowns_pass onZero disabled r s) s passes = s) by (induction passes as [|r rs IH]; [done|]; cbn [foldl]; by rewrite E).
  rewrite Hs. done.
Qed.
