(* ===== verification/Loop.v ===== *)
(** * The loop ([packages/core/src/loop/loop.ts, store-registry.ts],
    the stores of [packages/core/src/runtime/runtime.ts, prng-store.ts])

    One tick runs the passes in a fixed order, around the timers, the tweens and the
    destroy drain. A snapshot holds one buffer per registered store; restoring it applies
    them in the order they were captured, and drops invocations begun later. *)

From Stdlib Require Import DecimalString.
From S2P Require Import Prelude JsMap JsNum Json Handle SlotTable TagIndex TransformStore EntityTable Random.
From S2P Require Import Channels ScopeTree Timers Tweens Hosts Breaker World Spatial.

Local Open Scope Z_scope.

(** ** Stores *)

Inductive ScopeMode := filtered | whole | derived.

(** A store reads and writes its part of the world [W] through its own object. *)
Record SnapshotStore (W : Type) := MkStore {
  storeName : jstr;
  scopeMode : ScopeMode;
  Buffer : Type;
  createBuffer : W -> Buffer;
  capture : W -> Buffer -> option (list Z) -> Buffer;
  apply : W -> Buffer -> W;
}.
Arguments MkStore {W}.
Arguments storeName {W}.
Arguments scopeMode {W}.
Arguments Buffer {W}.
Arguments createBuffer {W}.
Arguments capture {W}.
Arguments apply {W}.

Section Registry.
Context {W : Type}.

Record StoreRegistry := MkStores { stores : list (SnapshotStore W); names : jsset jstr }.

Definition no_stores : StoreRegistry := MkStores [] [].

Definition already_registered (name : jstr) : jstr := js "store " ++ [34] ++ name ++ [34] ++ js " is already registered".

Definition register (r : StoreRegistry) (s : SnapshotStore W) : outcome jstr StoreRegistry :=
  if shas (names r) (storeName s) then Throw (already_registered (storeName s))
  else Ok (MkStores (stores r ++ [s]) (sadd (names r) (storeName s))).

Definition CapturedEntry : Type := { s : SnapshotStore W & Buffer s }.

Record Snapshot := MkSnapshot { snap_tick : Z; snap_scope : option (list Z); snap_entries : list CapturedEntry }.

Definition snapshot (r : StoreRegistry) (w : W) (tick : Z) (scope : option (list Z)) : Snapshot :=
  MkSnapshot tick scope ((fun s => existT s (capture s w (createBuffer s w) scope)) <$> stores r).

Definition restore (w : W) (snap : Snapshot) : W := foldl (fun w (e : CapturedEntry) => apply (projT1 e) w (projT2 e)) w (snap_entries snap).
End Registry.
Arguments StoreRegistry : clear implicits.
Arguments Snapshot : clear implicits.

(** ** The runtime's stores *)

(** The simulated world: the runtime of [World] with the random stream, the breaker's
    counts, the lag ring and the tick; [wired] is what [loadGame] builds beside it, the
    players, the scripts' own fields and the rest no store holds. *)
Record Sim (X : Type) := MkSim {
  world : Runtime; prng : SeededRandom; breaker : BreakerCounters; lagRing : LagRing; tick : Z; isServer : bool; wired : X
}.
Arguments MkSim {X}.
Arguments world {X}.
Arguments prng {X}.
Arguments breaker {X}.
Arguments lagRing {X}.
Arguments tick {X}.
Arguments isServer {X}.
Arguments wired {X}.

Section Simulated.
Context {X : Type}.
Abbreviation Sim := (Sim X).

Definition with_world (s : Sim) (rt : Runtime) : Sim := MkSim rt (prng s) (breaker s) (lagRing s) (tick s) (isServer s) (wired s).
Definition with_tick (s : Sim) (t : Z) : Sim := MkSim (world s) (prng s) (breaker s) (lagRing s) t (isServer s) (wired s).
Definition with_wired (s : Sim) (x : X) : Sim := MkSim (world s) (prng s) (breaker s) (lagRing s) (tick s) (isServer s) x.

(** Decimal digits read back: what [Number] gives for the digits of a safe integer. *)
Fixpoint unjs (s : jstr) : option string :=
  match s with
  | [] => Some EmptyString
  | u :: s => if (0 <=? u) && (u <? 256) then String (Ascii.ascii_of_N (Z.to_N u)) <$> unjs s else None
  end.

Definition entityIdOfKey (key : jstr) : option EntityId :=
  if negb (startsWith key ENTITY_KEY_PREFIX) then None
  else
    match unjs (drop (length ENTITY_KEY_PREFIX) key) ≫= NilZero.int_of_string with
    | Some d => let id := Z.of_int d in if isSafeInteger id then Some id else None
    | None => None
    end.

(** The slot of the entity a scope is hosted on, or -1. *)
Definition entityForScope (rt : Runtime) (scope : ScopeId) : Z :=
  match keyForScope (hosts rt) scope ≫= entityIdOfKey with Some id => entityIndex id | None => -1 end.

Definition entities_store : SnapshotStore Sim :=
  MkStore (js "entities") whole EntityTableBuffer (fun _ => EntityTable.capture new_entities)
    (fun s _ _ => EntityTable.capture (entities (world s)))
    (fun s b => with_world s (set_entities (world s) (EntityTable.apply (entities (world s)) b) (pendingDestroy (world s)))).

Definition transforms_store : SnapshotStore Sim :=
  MkStore (js "transforms") filtered TransformBuffer (fun s => TransformStore.createBuffer (transforms (world s)))
    (fun s b sc => TransformStore.capture (transforms (world s)) b sc)
    (fun s b => with_world s (set_transforms (world s) (TransformStore.apply (transforms (world s)) b))).

Definition tags_store : SnapshotStore Sim :=
  MkStore (js "tags") filtered TagBuffer (fun _ => TagIndex.createBuffer)
    (fun s _ sc => TagIndex.capture (tags (world s)) sc)
    (fun s b => with_world s (set_tags (world s) (TagIndex.apply (tags (world s)) b))).

Definition prng_store : SnapshotStore Sim :=
  MkStore (js "prng") whole (Z * Z * Z * Z)%type (fun _ => (0, 0, 0, 0))
    (fun s _ _ => Random.capture (prng s))
    (fun s b => MkSim (world s) (Random.restore b) (breaker s) (lagRing s) (tick s) (isServer s) (wired s)).

Definition breaker_store : SnapshotStore Sim :=
  MkStore (js "breaker") whole BreakerBuffer (fun _ => Breaker.createBuffer)
    (fun s _ _ => Breaker.capture (breaker s))
    (fun s b => MkSim (world s) (prng s) (Breaker.apply b) (lagRing s) (tick s) (isServer s) (wired s)).

Definition timers_store : SnapshotStore Sim :=
  MkStore (js "timers") filtered TimerBuffer (fun _ => Timers.MkBuffer [] 1 None)
    (fun s _ sc => Timers.capture (entityForScope (world s)) entityIndex (timers (world s)) sc)
    (fun s b => with_world s (set_clocks (world s) (tweens (world s)) (Timers.apply_ (timers (world s)) b))).

(** The constructor: the stores in the order they are registered. *)
Definition runtime_registry : outcome jstr (StoreRegistry Sim) :=
  r ← register no_stores entities_store;
  r ← register r transforms_store;
  r ← register r tags_store;
  r ← register r prng_store;
  r ← register r breaker_store;
  register r timers_store.

Definition registry : StoreRegistry Sim :=
  MkStores [entities_store; transforms_store; tags_store; prng_store; breaker_store; timers_store]
    [js "entities"; js "transforms"; js "tags"; js "prng"; js "breaker"; js "timers"].

Lemma runtime_registry_ok : runtime_registry = Ok registry.
Proof. reflexivity. Qed.

Definition loop_snapshot (s : Sim) (scope : option (list Z)) : Snapshot Sim := snapshot registry s (tick s) scope.

Definition loop_restore (s : Sim) (snap : Snapshot Sim) : Sim :=
  let s := restore s snap in
  let s := with_tick s (snap_tick snap) in
  with_world s (set_hosts (world s) (hosts (world s)) (sweepAfterTick (scopes (world s)) (snap_tick snap))).

(** ** One tick *)

(** The passes an endpoint installs, each over the world; [dispatch] says whether the tick
    is a replay. *)
Record TickPasses := MkPasses {
  p_starts : bool -> Sim -> Sim;
  p_input : bool -> Sim -> Sim;
  p_movement : num -> option (list EntityId) -> Sim -> Sim;
  p_contacts : bool -> Sim -> Sim;
  p_regions : bool -> Sim -> Sim;
  p_countdowns : bool -> Sim -> Sim;
  p_update : bool -> num -> option (list EntityId) -> Sim -> Sim;
}.

Section Tick.
(** A timer's callback and an entity's [@onEnd] are creator code: the calls they make. *)
Context (run_timer : Runtime -> TimerHeap -> option GuardOwner -> Z -> nat -> list (Timers.timer_call (F := nat)) * Runtime).
Context (dispatchEnd : Runtime -> EntityId -> list (option GuardOwner * entity_op)).
Context (passes : TickPasses).

Definition advance_timers (rt : Runtime) : Runtime :=
  let '(_, h, rt') := Timers.advance run_timer rt (timers rt) in set_clocks rt' (tweens rt') h.

(** A tween on an entity writes the entity's property and calls nothing. *)
Definition write_tween (rt : Runtime) (_ : TweenEngine) (_ : option GuardOwner) (id : EntityId) (prop : jstr) (v : num) :
    list (Tweens.tween_call (T := EntityId)) * Runtime := ([], tweenSet rt id prop v).

Definition advance_tweens (rt : Runtime) : Runtime :=
  let '(_, e, rt') := Tweens.advance entityKey write_tween rt (tweens rt) in set_clocks rt' e (timers rt').

Definition dt_of (s : Sim) : num := fdiv f1 (Timers.simRate (timers (world s))).

Definition step (t : Z) (replay : bool) (scope : option (list EntityId)) (s : Sim) : Sim :=
  let s := with_tick s t in
  let dt := dt_of s in
  let s := p_starts passes replay s in
  let s := p_input passes replay s in
  let s := p_movement passes dt scope s in
  let s := p_contacts passes replay s in
  let s := p_regions passes replay s in
  let s := with_world s (advance_timers (world s)) in
  let s := with_world s (advance_tweens (world s)) in
  let s := p_countdowns passes replay s in
  let s := p_update passes replay dt scope s in
  let s := with_world s (drainDestroyed dispatchEnd (world s)) in
  if isServer s then MkSim (world s) (prng s) (breaker s) (Spatial.capture (lagRing s) (world s) t) (tick s) (isServer s) (wired s) else s.
End Tick.

(** ** What a restore brings back *)

(** What the stores need of themselves. *)
Record sim_ok (s : Sim) : Prop := {
  so_store : TransformStore.wf (transforms (world s));
  so_tags : NoDup (mkeys (byTag (tags (world s)))) /\ NoDup (mkeys (byEntity (tags (world s))));
  so_timers : Timers.wf (timers (world s));
  so_breaker : NoDup (mkeys (breaker s));
}.

(** Restoring is each store's own restore, nothing else being touched but the scopes. *)
Lemma loop_restore_fields s s' sc :
  let r := loop_restore s' (loop_snapshot s sc) in
  let rt := world s in
  let rt' := world s' in
  entities (world r) = EntityTable.apply (entities rt') (EntityTable.capture (entities rt))
  /\ transforms (world r) = TransformStore.apply (transforms rt') (TransformStore.capture (transforms rt) (TransformStore.createBuffer (transforms rt)) sc)
  /\ tags (world r) = TagIndex.apply (tags rt') (TagIndex.capture (tags rt) sc)
  /\ timers (world r) = Timers.apply_ (timers rt') (Timers.capture (entityForScope rt) entityIndex (timers rt) sc)
  /\ prng r = prng s /\ breaker r = Breaker.apply (Breaker.capture (breaker s)) /\ tick r = tick s
  /\ tweens (world r) = tweens rt' /\ wired r = wired s' /\ scopes (world r) = sweepAfterTick (scopes rt') (tick s) /\ channels (world r) = channels rt'.
Proof. split_and!; try reflexivity. simpl. by destruct (prng s). Qed.

Lemma createBuffer_wf t : TransformStore.wf t -> buffer_wf (TransformStore.createBuffer t).
Proof. intros H. eexists. apply fresh_lanes_aligned. Qed.

Lemma breaker_restore c : NoDup (mkeys c) -> Breaker.apply (Breaker.capture c) = c.
Proof. intros H. unfold Breaker.apply, Breaker.capture. by rewrite (foldl_mset_app c []). Qed.

End Simulated.
Arguments TickPasses : clear implicits.

(** ** Reachable worlds are well formed *)

Definition tags_ok (t : TagIndex) : Prop := multi_wf (byTag t) /\ multi_wf (byEntity t).

Lemma tags_ok_removeAll t id : tags_ok t -> tags_ok (removeAll t id).
Proof.
  intros [Ht He]. unfold removeAll. destruct (mget (byEntity t) (entityIndex id)) as [names|]; [|done].
  split; [|by apply multi_wf_mdel]. simpl. revert Ht. generalize (byTag t) as m.
  induction names as [|n names IH]; intros m Hm; [done|]. by apply IH, multi_wf_del.
Qed.

Lemma tags_startTween rt id prop v seconds curve owner : tags (startTween rt id prop v seconds curve owner).1 = tags rt.
Proof. unfold startTween, hostScope. destruct (ensure _ _ _) as [[e h] s]. by destruct (start _ _ _ _ _ _ _ _ _ _) as [[? ?] ?]. Qed.

Lemma tags_glideTo rt id x y seconds curve owner : tags (glideTo rt id x y seconds curve owner) = tags rt.
Proof.
  unfold glideTo. pose proof (tags_startTween rt id (js "x") x seconds curve owner) as H. destruct (startTween rt id (js "x") _ _ _ _) as [rt1 []]; simpl in *;
    [done|]. by rewrite tags_startTween.
Qed.

Lemma tags_ok_op owner rt o : tags_ok (tags rt) -> tags_ok (tags (do_op owner rt o)).
Proof.
  intros Ht. destruct o; simpl; try done.
  - unfold spawn. destruct (_ <=? _); [done|]. destruct (create _ _ _) as [[id t]|]; [|done]. unfold facade. by destruct (mget _ _).
  - unfold facade. by destruct (mget _ _).
  - unfold attachTo. by destruct (EntityTable.attachTo _ _ _) as [t []].
  - unfold detach. by destruct (unlink _ _) as [t []].
  - unfold destroy. by destruct (EntityTable.destroy _ _).
  - destruct Ht. by split; apply multi_wf_add.
  - destruct Ht. by split; apply multi_wf_del.
  - unfold moveToward. by destruct (flt _ _).
  - by rewrite tags_glideTo.
  - unfold glideBy. by rewrite tags_glideTo.
  - unfold fadeTo. by rewrite tags_startTween.
  - unfold growTo. by rewrite tags_startTween.
  - unfold spin. by rewrite tags_startTween.
  - unfold spinTo. by rewrite tags_startTween.
  - unfold think, hostScope. destruct (ensure _ _ _) as [[e h] s]. cbn. by destruct (Timers.sleep _ _ _) as [[? ?]|].
Qed.

Section Reached.
Context (ends : Runtime -> EntityId -> list (option GuardOwner * entity_op)).

Lemma tags_ok_drain rt : tags_ok (tags rt) -> tags_ok (tags (drainDestroyed ends rt)).
Proof.
  intros Ht. unfold drainDestroyed. destruct (pendingDestroy rt) as [|d doomed]; [done|].
  assert (Hend : forall l rt, tags_ok (tags rt) -> tags_ok (tags (foldl (on_end ends) rt l))).
  { induction l as [|id l IH]; intros rt0 H0; [done|]. apply IH. unfold on_end. generalize (ends rt0 id) as cs.
    intros cs. revert rt0 H0. induction cs as [|c cs IHc]; intros rt0 H0; [done|]. by apply IHc, tags_ok_op. }
  assert (Htear : forall l rt, tags_ok (tags rt) -> tags_ok (tags (foldl teardown rt l))).
  { induction l as [|id l IH]; intros rt0 H0; [done|]. apply IH. unfold teardown. cbv zeta.
    destruct (scopeForEntity _ _ =? NO_SCOPE); cbn; destruct (Hosts.remove _ _ _) as [h s]; by apply tags_ok_removeAll. }
  by apply Htear, Hend.
Qed.

Lemma tags_ok_run ops : tags_ok (tags (foldl (run_step ends) ([], new_runtime) ops).2).
Proof.
  assert (Hg : forall s, tags_ok (tags s.2) -> tags_ok (tags (foldl (run_step ends) s ops).2)).
  { induction ops as [|o ops IH]; intros s Hs; [done|]. apply IH. destruct o; cbn; try done; [by apply tags_ok_op|by apply tags_ok_drain]. }
  apply Hg. by split; (split; [constructor|]).
Qed.
End Reached.

(** A world that histories reach, with counts of its own. *)
Lemma reached_sim_ok {X} rt g c ring t srv (x : X) : reached rt -> NoDup (mkeys c) -> sim_ok (MkSim rt g c ring t srv x).
Proof.
  intros Hr Hc. pose proof (reached_ok rt Hr) as Hok. destruct Hr as (ends & ops & ->). pose proof (tags_ok_run ends ops) as [[Ht _] [He _]].
  split; simpl; [apply Hok|by split|apply Hok|done].
Qed.


(** Two tables but for the name their errors print. *)
Definition same_table (t t' : EntityTable) : Prop :=
  records t = records t' /\ generations t = generations t' /\ freeList t = freeList t' /\ live t = live t'.

Lemma table_restore t t' : same_table (EntityTable.apply t' (EntityTable.capture t)) t.
Proof.
  assert (Hc : forall r, cloneRecord r = r) by (by intros []).
  pose proof (apply_capture_same t cloneRecord Hc) as H. unfold same_table, EntityTable.apply, EntityTable.capture. cbn [buf].
  destruct t; injection H as H1. by split_and!.
Qed.

(** What comes back whatever state the world rewound is in. *)
Lemma restored_world {X} (s s' : Sim X) (sc : option (list Z)) :
  NoDup (mkeys (breaker s)) ->
  let r := loop_restore s' (loop_snapshot s sc) in
  same_table (entities (world r)) (entities (world s)) /\ prng r = prng s /\ breaker r = breaker s /\ tick r = tick s
  /\ wired r = wired s' /\ hosts (world r) = hosts (world s').
Proof.
  intros Hs r. destruct (loop_restore_fields s s' sc) as (He & _ & _ & _ & Hp & Hb & Hk & _ & Hx & _).
  fold r in He, Hp, Hb, Hk, Hx. split_and!; try done; [rewrite He; apply table_restore|by rewrite Hb, breaker_restore].
Qed.

(** The transforms, where both stores are well formed. *)
Lemma restored_transforms {X} (s s' : Sim X) (sc : option (list Z)) :
  TransformStore.wf (transforms (world s)) -> TransformStore.wf (transforms (world s')) ->
  (forall ids, sc = Some ids -> Forall (fun id => 0 <= entityIndex id) ids) ->
  let r := loop_restore s' (loop_snapshot s sc) in
  forall i, at_ (lanes (transforms (world r))) i = if decide (covered (transforms (world s)) sc i) then at_ (lanes (transforms (world s))) i
                                                   else at_ (lanes (transforms (world s'))) i.
Proof.
  intros Hs Hs' Hsc r i. destruct (loop_restore_fields s s' sc) as (_ & Ht & _). fold r in Ht. rewrite Ht.
  by apply (TransformStore.apply_spec (transforms (world s')) (transforms (world s)) (TransformStore.createBuffer (transforms (world s))) sc Hs' Hs (createBuffer_wf _ Hs)).
Qed.

(** The tags of a scope, where each index is one relation between ids and names. *)
Definition tags_back (t t' r : TagIndex) (ids : list Z) : Prop :=
  forall p p', represents t p -> represents t' p' -> scope_ok p ids ->
  forall id tag, has r id tag = true <-> ((id, tag) ∈ p /\ id ∈ ids) \/ ((id, tag) ∈ p' /\ (entityIndex id ∉ entityIndex <$> ids)).

Lemma tags_restored t t' ids : tags_back t t' (TagIndex.apply t' (TagIndex.capture t (Some ids))) ids.
Proof.
  intros p p' Hr Hr' Hok id tag. rewrite (rep_mem _ _ _ _ (rep_restore t p t' p' ids Hr Hr' Hok)), elem_of_app, (elem_of_captured p ids _ Hok).
  unfold outside. rewrite list_elem_of_filter. simpl. tauto.
Qed.

(** The timers: which there are, their timing, what they call, and the next id. [mine]
    says which hosts' timers the snapshot covers. *)
Definition timers_back (h now h' : TimerHeap) (whole : bool) (mine : ScopeId -> bool) : Prop :=
  (forall id, id ∈ Timers.timers h' <->
     (id ∈ Timers.timers h /\ mine (Timers.hostScopeId (timer h id)) = true)
     \/ (id ∈ Timers.timers now /\ mine (Timers.hostScopeId (timer now id)) = false))
  /\ (forall id, id ∈ Timers.timers h -> mine (Timers.hostScopeId (timer h id)) = true ->
       let live := if shas (Timers.timers now) id then timer now id else Timers.no_timer in
       Timers.meta (timer h' id) = Timers.meta (timer h id) /\ Timers.fn (timer h' id) = Timers.fn live
       /\ Timers.resolve (timer h' id) = Timers.resolve live /\ Timers.t_owner (timer h' id) = Timers.t_owner live)
  /\ (forall id, ~ (id ∈ Timers.timers h /\ mine (Timers.hostScopeId (timer h id)) = true) -> timer h' id = timer now id)
  /\ Timers.next_id h' = if whole then Timers.next_id h else Z.max (Timers.next_id now) (Timers.next_id h).

Lemma timers_restored owner index (h now : TimerHeap) sc : Timers.wf h -> Timers.wf now ->
  let from := Timers.capture owner index h sc in
  timers_back h now (Timers.apply_ now from) (bool_decide (sc = None)) (Timers.in_scopes (Timers.scopes from)).
Proof.
  intros Hh Hn from. destruct (timer_apply_spec owner index h now sc Hh Hn) as (H1 & H2 & H3 & H4). split; [exact H1|].
  split; [|split; [exact H3|etransitivity; [exact H4|by destruct sc]]].
  intros id Hid Hm live. split; [by apply H2|]. by apply (timer_apply_live owner index h now sc id Hh).
Qed.

(** The invocations a sweep leaves. *)
Lemma swept t k : ScopeTree.wf t ->
  forall i, (i ∈ invocations (sweepAfterTick t k) <-> i ∈ invocations t /\ startTick (ScopeTree.scope t i) <= k)
    /\ (k < startTick (ScopeTree.scope t i) -> dead (ScopeTree.scope (sweepAfterTick t k) i) = true).
Proof.
  intros Hwf. destruct (ScopeTree.sweep_spec t k Hwf) as [Hw Ha]. apply (f_equal sp_live) in Ha. cbn [sp_live ScopeTree.abs spec_step] in Ha.
  assert (Hi : forall i, i ∈ invocations (sweepAfterTick t k) <-> i ∈ invocations t /\ startTick (ScopeTree.scope t i) <= k).
  { intros i. apply (f_equal (fun l => i ∈ l.*1)) in Ha. rewrite <- list_fmap_compose in Ha. cbn in Ha. rewrite list_fmap_id in Ha. rewrite Ha.
    rewrite list_elem_of_fmap. split.
    - intros ([j v] & -> & [Hv (j' & [= -> ->] & Hj)%list_elem_of_fmap]%list_elem_of_filter). by split.
    - intros [Hin Hs]. exists (i, ScopeTree.scope t i). split; [done|]. apply list_elem_of_filter. split; [done|]. apply list_elem_of_fmap. by exists i. }
  intros i. split; [apply Hi|]. intros Hk. apply (ScopeTree.wf_done _ Hw). rewrite Hi. lia.
Qed.

(** ** Properties *)

(** C6. A rewind brings back the world its snapshot was taken of, whatever ran since: the
    entity table, the random stream, the breaker's counts and the tick exactly; the
    transform of every slot covered, the others left; all the tags, or of a scoped
    snapshot those of its entities, the others' left, where no stale handle was tagged;
    exactly the timers of the hosts covered, each with its kind, host, time left and
    interval and with the callback of the timer now under its id (none once that has
    fired), those of other hosts left, and the next id; and of the invocations exactly
    those begun by that tick, the later ones being dead. A snapshot that is not scoped
    covers every host; a scoped one those hosts of its entities that owned a timer then.
    What [loadGame] wired beside the stores, the scripts' own fields included, is left as
    it was found. *)
Theorem rewind_restores_world {X : Type} (s s' : Sim X) (sc : option (list Z)) :
  sim_ok s -> sim_ok s' -> ScopeTree.wf (scopes (world s')) -> (forall ids, sc = Some ids -> Forall (fun id => 0 <= entityIndex id) ids) ->
  let r := loop_restore s' (loop_snapshot s sc) in
  let rt := world s in
  let rt' := world s' in
  same_table (entities (world r)) (entities rt) /\ prng r = prng s /\ breaker r = breaker s /\ tick r = tick s
  /\ wired r = wired s'
  /\ (forall i, at_ (lanes (transforms (world r))) i = if decide (covered (transforms rt) sc i) then at_ (lanes (transforms rt)) i
                                                        else at_ (lanes (transforms rt')) i)
  /\ match sc with None => tags (world r) = tags rt | Some ids => tags_back (tags rt) (tags rt') (tags (world r)) ids end
  /\ timers_back (timers rt) (timers rt') (timers (world r)) (bool_decide (sc = None))
       (fun host => match sc with
                    | None => true
                    | Some ids => shas (scopes_of (entityForScope rt) entityIndex (timers rt) ids) host
                    end)
  /\ (forall i, (i ∈ invocations (scopes (world r)) <-> i ∈ invocations (scopes rt') /\ startTick (ScopeTree.scope (scopes rt') i) <= tick s)
        /\ (tick s < startTick (ScopeTree.scope (scopes rt') i) -> dead (ScopeTree.scope (scopes (world r)) i) = true)).
Proof.
  intros Hs Hs' Hw Hsc r rt rt'. destruct (loop_restore_fields s s' sc) as (_ & _ & Hg & Hm & _ & _ & _ & _ & _ & Hsw & _).
  destruct (restored_world s s' sc (so_breaker _ Hs)) as (H1 & H2 & H3 & H4 & H5 & _). fold r rt rt' in Hg, Hm, Hsw.
  split_and!; try done.
  - apply (restored_transforms s s' sc (so_store _ Hs) (so_store _ Hs') Hsc).
  - rewrite Hg. destruct sc as [ids|]; [apply tags_restored|]. apply whole_restore_keys; apply Hs.
  - rewrite Hm. pose proof (timers_restored (entityForScope rt) entityIndex (timers rt) (timers rt') sc (so_timers _ Hs) (so_timers _ Hs')) as Ht.
    by destruct sc.
  - rewrite Hsw. by apply swept.
Qed.

(** ** One entity, rewound *)

Definition walker : EntityId := packHandle 0 1.

(** A world of one entity at 0, after more calls on it. *)
Definition sample_world (ops : list entity_op) : Runtime :=
  (foldl (run_step (fun _ _ => [])) ([], new_runtime) (WCall None <$> (ESpawn [] f0 f0 [] :: ops))).2.

Definition sample_sim (ops : list entity_op) : Sim unit := MkSim (sample_world ops) (Random.MkRandom 1 2 3 4) [] (new_ring 60) 7 false tt.

Lemma rewind_restores_world_witness :
  let s := sample_sim [ETag walker (js "hero")] in
  let s' := sample_sim [ETag walker (js "imp"); ESetPosition walker (of_Z 5) f0; EDestroy walker] in
  let r := loop_restore s' (loop_snapshot s None) in
  same_table (entities (world r)) (entities (world s)) /\ tags (world r) = tags (world s).
Proof.
  cbv zeta. destruct (rewind_restores_world (sample_sim [ETag walker (js "hero")])
    (sample_sim [ETag walker (js "imp"); ESetPosition walker (of_Z 5) f0; EDestroy walker]) None) as (He & _ & _ & _ & _ & _ & Ht & _).
  - apply reached_sim_ok; [by eexists _, _|constructor].
  - apply reached_sim_ok; [by eexists _, _|constructor].
  - change (scopes (world (sample_sim _))) with new_tree. apply ScopeTree.tree_wf_new.
  - done.
  - split; [exact He|by apply Ht].
Defined.

Definition no_passes {X : Type} : TickPasses X :=
  MkPasses (fun _ s => s) (fun _ s => s) (fun _ _ s => s) (fun _ s => s) (fun _ s => s) (fun _ s => s) (fun _ _ _ s => s).

Definition plain_step (t : Z) (replay : bool) : Sim unit -> Sim unit :=
  step (fun rt _ _ _ _ => ([], rt)) (fun _ _ => []) no_passes t replay None.

(** A rewind does not bring tweens back. An entity glides to 10 over the next tick;
    rewound to before that tick and replayed, it stays at 0, the glide having ended with
    the tick that was taken back. *)
Theorem rewound_glide_is_lost :
  let s := sample_sim [EGlideTo walker (of_Z 10) f0 (fdiv f1 (of_Z 60)) linear] in
  let once := plain_step 8 false s in
  let again := plain_step 8 true (loop_restore once (loop_snapshot s None)) in
  posX (transforms (world once)) walker = of_Z 10 /\ posX (transforms (world again)) walker = f0.
Proof. vm_compute. by split. Qed.
