(* ===== verification/Prediction.v ===== *)
(** * Client prediction ([packages/client/src/prediction.ts])

    The client simulates its own entities ahead of the authority. When authoritative
    state arrives it takes prediction back to the baseline it captured, lets the state
    land there, captures again and re-runs every tick up to its own on the frames it still
    holds. What it needs of the mirrored world is an interface, [PredictedWorld]; the
    loop's own stores discharge it in [Predicting]. *)

From S2P Require Import Prelude JsMap JsNum Json ActionStates Channels Hosts.

Local Open Scope Z_scope.

(** The ring's capacity is the replay's bound. *)
Definition MAX_REPLAY_TICKS : Z := Z.of_nat RING_TICKS.
Definition CORRECTION_SNAP_DISTANCE_SQUARED : num := of_Z (64 * 64).

Abbreviation vec := (num * num * num)%type.

(** ** What prediction calls *)

(** The mirrored world [W], with [B] what a capture holds and [V] a state value. *)
Class PredictedWorld (W B V : Type) := {
  depictedTick : W -> Z;
  liveIds : W -> list EntityId;
  ownerOf : W -> EntityId -> option jstr;
  isAlive : W -> EntityId -> bool;
  positionOf : W -> EntityId -> vec;
  setPosition : W -> EntityId -> vec -> W;
  isAvatarOf : W -> EntityId -> jstr -> bool;
  setAvatar : W -> jstr -> option EntityId -> W;
  captureStores : W -> list EntityId -> B;
  restoreStores : W -> Z -> list EntityId -> B -> W;
  hostValues : W -> jstr -> option (jsmap jstr V);
  setHostValues : W -> jstr -> jsmap jstr V -> W;
  stepWorld : Z -> bool -> list EntityId -> (Z -> option InputFrame) -> W -> ActionStates -> W * ActionStates;
  discardMarks : W -> W;
}.

(** The display's easing of one entity towards its simulated pose. *)
Class RenderBridge (R : Type) := {
  correctionOf : R -> EntityId -> vec;
  clearCorrection : R -> EntityId -> R;
  correct : R -> EntityId -> vec -> R;
}.

Section Prediction.
Context {W B V R : Type} `{PredictedWorld W B V} `{RenderBridge R}.

Record PredictionCounters := MkCounters { steppedTicks : Z; resimulations : Z; cappedReplays : Z; snappedCorrections : Z }.

(** The [@serverState] half of the baseline: one buffer per captured host. *)
Record StateBaseline := MkBaseline { buffers : jsmap jstr (jsmap jstr V); captured : list jstr }.

Record Prediction := MkPrediction {
  playerId : jstr;
  entries : option B; (** the capture's buffers, once minted *)
  baselineTick : Z;
  state : StateBaseline;
  scope : jsset EntityId;
  actions : ActionStates;
  highestSimulated : Z;
  predictedTick : Z;
  poses : jsmap EntityId vec;
  held_frames : list InputFrame;
  counters : PredictionCounters;
}.

Definition new_prediction (player : jstr) : Prediction :=
  MkPrediction player None (-1) (MkBaseline [] []) [] createActionStates (-1) (-1) [] [] (MkCounters 0 0 0 0).

(** ** The state baseline *)

Definition capture_host (w : W) (acc : StateBaseline) (key : jstr) : StateBaseline :=
  match hostValues w key with
  | None => acc
  | Some values => MkBaseline (mset (buffers acc) key values) (captured acc ++ [key])
  end.

(** The buffers are pruned to the hosts of this capture. *)
Definition capture_state (b : StateBaseline) (w : W) (keys : list jstr) : StateBaseline :=
  let b := foldl (capture_host w) (MkBaseline (buffers b) []) keys in
  MkBaseline (filter (fun e => e.1 ∈ captured b) (buffers b)) (captured b).

Definition restore_host (b : StateBaseline) (w : W) (key : jstr) : W :=
  match mget (buffers b) key, hostValues w key with
  | Some buffer, Some _ => setHostValues w key buffer
  | _, _ => w
  end.

Definition restore_state (b : StateBaseline) (w : W) : W := foldl (restore_host b) w (captured b).

(** ** Scope, seed and frames *)

Definition find_avatar (w : W) (player : jstr) (ids : list EntityId) : option EntityId := find (fun id => isAvatarOf w id player) ids.

Definition refreshScope (p : Prediction) (w : W) : jsset EntityId * W :=
  let owned := filter (fun id => ownerOf w id = Some (playerId p)) (liveIds w) in
  (foldl sadd [] owned, setAvatar w (playerId p) (find_avatar w (playerId p) owned)).

Definition stateHosts (p : Prediction) (sc : jsset EntityId) : list jstr :=
  GAME_KEY :: playerKey (playerId p) :: (entityKey <$> sc).

(** The frames up to the depicted tick, each after its tick boundary; the loop breaks at
    the first past it. *)
Fixpoint seed_frames (depicted : Z) (fs : list InputFrame) (a : ActionStates) : ActionStates :=
  match fs with
  | [] => a
  | f :: fs => if depicted <? tick f then a else seed_frames depicted fs (applyEdges (advanceTick a) (ActionStates.actions f))
  end.

Definition seedActions (ring : InputRing) (depicted : Z) : ActionStates :=
  seed_frames depicted (frames ring) (assertHeld (heldAtHorizon ring) createActionStates).

(** The frames stamped with a tick, merged in send order. *)
Definition frameFor (fs : list InputFrame) (t : Z) : option InputFrame :=
  match filter (fun f => tick f = t) fs with
  | [] => None
  | [f] => Some f
  | f :: _ as matches => Some (MkFrame (seq f) (tick f) (matches ≫= ActionStates.actions))
  end.

(** ** Corrections *)

Definition vadd (a b : vec) : vec := (fadd a.1.1 b.1.1, fadd a.1.2 b.1.2, fadd a.2 b.2).
Definition vsub (a b : vec) : vec := (fsub a.1.1 b.1.1, fsub a.1.2 b.1.2, fsub a.2 b.2).

Definition recordPoses (p : Prediction) (w : W) (r : R) : jsmap EntityId vec :=
  foldl (fun m id => if isAlive w id then mset m id (vadd (positionOf w id) (correctionOf r id)) else m) (poses p) (scope p).

Definition measure_one (w : W) (acc : R * PredictionCounters) (e : EntityId * vec) : R * PredictionCounters :=
  let '(id, pose) := e in
  if negb (isAlive w id) then acc
  else
    let d := vsub pose (positionOf w id) in
    let distance := fadd (fadd (fmul d.1.1 d.1.1) (fmul d.1.2 d.1.2)) (fmul d.2 d.2) in
    if feq distance f0 then acc
    else if flt CORRECTION_SNAP_DISTANCE_SQUARED distance then
      (clearCorrection acc.1 id,
       MkCounters (steppedTicks acc.2) (resimulations acc.2) (cappedReplays acc.2) (snappedCorrections acc.2 + 1))
    else (correct acc.1 id d, acc.2).

Definition remarkDirty (sc : jsset EntityId) (w : W) : W :=
  foldl (fun w id => if isAlive w id then setPosition w id (positionOf w id) else w) w sc.

(** ** The two operations *)

Definition set_poses (p : Prediction) (m : jsmap EntityId vec) (predicted : Z) : Prediction :=
  MkPrediction (playerId p) (entries p) (baselineTick p) (state p) (scope p) (actions p) (highestSimulated p) predicted m
    (held_frames p) (counters p).

Definition rewind (p : Prediction) (w : W) (r : R) : Prediction * W :=
  let p := set_poses p [] (predictedTick p) in
  match entries p with
  | Some b =>
      if (predictedTick p <? 0) || (baselineTick p <? 0) then (p, w)
      else
        let p := set_poses p (recordPoses p w r) (predictedTick p) in
        let w := restoreStores w (baselineTick p) (scope p) b in
        let w := restore_state (state p) w in
        let w := remarkDirty (scope p) w in
        (set_poses p (poses p) (-1), w)
  | None => (p, w)
  end.

(** [#refreshScope], [#capture], [#seedActions], and the tick prediction starts from. *)
Definition rebase (p : Prediction) (w : W) (ring : InputRing) : Prediction * W :=
  let '(sc, w) := refreshScope p w in
  let c := counters p in
  (MkPrediction (playerId p) (Some (captureStores w sc)) (depictedTick w) (capture_state (state p) w (stateHosts p sc)) sc
     (seedActions ring (depictedTick w)) (highestSimulated p) (depictedTick w) (poses p) (frames ring)
     (MkCounters (steppedTicks c) (resimulations c + 1) (cappedReplays c) (snappedCorrections c)), w).

Definition step (acc : Prediction * W) (t : Z) : Prediction * W :=
  let '(p, w) := acc in
  let replay := t <=? highestSimulated p in
  let '(w, a) := stepWorld t replay (scope p) (frameFor (held_frames p)) w (actions p) in
  let c := counters p in
  (MkPrediction (playerId p) (entries p) (baselineTick p) (state p) (scope p) a (Z.max (highestSimulated p) t) (predictedTick p)
     (poses p) (held_frames p) (MkCounters (steppedTicks c + 1) (resimulations c) (cappedReplays c) (snappedCorrections c)), w).

(** The ticks of one advance: from the one after the predicted, or the last
    [MAX_REPLAY_TICKS] where there are more. *)
Definition span (predicted localTick : Z) : list Z :=
  let from := predicted + 1 in
  let from := if MAX_REPLAY_TICKS <=? localTick - from then localTick - MAX_REPLAY_TICKS + 1 else from in
  seqZ from (localTick - from + 1).

Definition capped (predicted localTick : Z) : bool := MAX_REPLAY_TICKS <=? localTick - (predicted + 1).

Definition advance (p : Prediction) (w : W) (r : R) (ring : InputRing) (localTick : Z) (resimulate : bool) : Prediction * W * R :=
  let '(p, w) := if resimulate then rebase p w ring else (p, w) in
  if predictedTick p <? 0 then (p, w, r)
  else
    let c := counters p in
    let p := MkPrediction (playerId p) (entries p) (baselineTick p) (state p) (scope p) (actions p) (highestSimulated p)
               (predictedTick p) (poses p) (frames ring)
               (MkCounters (steppedTicks c) (resimulations c)
                  (if capped (predictedTick p) localTick then cappedReplays c + 1 else cappedReplays c) (snappedCorrections c)) in
    let '(p, w) := foldl step (p, w) (span (predictedTick p) localTick) in
    let predicted := Z.max (predictedTick p) localTick in
    let '(r, c) := if resimulate then foldl (measure_one w) (r, counters p) (poses p) else (r, counters p) in
    (MkPrediction (playerId p) (entries p) (baselineTick p) (state p) (scope p) (actions p) (highestSimulated p) predicted
       (if resimulate then [] else poses p) (held_frames p) c, discardMarks w, r).
End Prediction.

(** ** The ticks stepped, in order *)

Section Log.
Context {W B V R : Type} `{PredictedWorld W B V} `{RenderBridge R}.

(** Any world, with every tick stepped on it and whether it was a replay. *)
Definition Logged : Type := (W * list (Z * bool))%type.

Definition on_world (f : W -> W) (w : Logged) : Logged := (f w.1, w.2).

#[export] Instance logged_world : PredictedWorld Logged B V := {
  depictedTick w := depictedTick w.1;
  liveIds w := liveIds w.1;
  ownerOf w := ownerOf w.1;
  isAlive w := isAlive w.1;
  positionOf w := positionOf w.1;
  setPosition w id v := on_world (fun w => setPosition w id v) w;
  isAvatarOf w := isAvatarOf w.1;
  setAvatar w pl a := on_world (fun w => setAvatar w pl a) w;
  captureStores w := captureStores w.1;
  restoreStores w t ids b := on_world (fun w => restoreStores w t ids b) w;
  hostValues w := hostValues w.1;
  setHostValues w k v := on_world (fun w => setHostValues w k v) w;
  stepWorld t replay sc fr w a := let '(w1, a1) := stepWorld t replay sc fr w.1 a in ((w1, w.2 ++ [(t, replay)]), a1);
  discardMarks := on_world discardMarks;
}.

(** What a session does to prediction: rewinds, advances, and what the mirror applies. *)
Inductive session_op := SRewind | SAdvance (ring : InputRing) (localTick : Z) (resimulate : bool) | SApply (f : W -> W).

Abbreviation session := (Prediction (B := B) (V := V) * Logged * R)%type.

Definition session_step (s : session) (o : session_op) : session :=
  let '(p, w, r) := s in
  match o with
  | SRewind => (rewind p w r, r)
  | SAdvance ring localTick resim => advance p w r ring localTick resim
  | SApply f => (p, on_world f w, r)
  end.

Definition session_run (player : jstr) (w : W) (r : R) (ops : list session_op) : session :=
  foldl session_step (new_prediction player, (w, []), r) ops.

(** The ticks stepped for the first time. *)
Definition firsts (l : list (Z * bool)) : list Z := fst <$> filter (fun e => e.2 = false) l.

Definition log_of (s : session) : list (Z * bool) := s.1.2.2.
Definition pred_of (s : session) : Prediction (B := B) (V := V) := s.1.1.

Record log_inv (h : Z) (l : list (Z * bool)) : Prop := {
  li_sorted : StronglySorted Z.lt (firsts l);
  li_high : -1 <= h /\ (0 <= h -> h ∈ firsts l) /\ Forall (fun t => t <= h) (firsts l);
  li_replays : forall pre t post, l = pre ++ (t, true) :: post -> exists t', t' ∈ firsts pre /\ t <= t';
}.

Lemma firsts_app l l' : firsts (l ++ l') = firsts l ++ firsts l'.
Proof. unfold firsts. by rewrite filter_app, fmap_app. Qed.

Lemma log_inv_nil : log_inv (-1) [].
Proof. split; [constructor|split_and!; [done|lia|constructor]|by intros []]. Qed.

Lemma log_inv_snoc h l t : log_inv h l -> 0 <= t -> log_inv (Z.max h t) (l ++ [(t, t <=? h)]).
Proof.
  intros [Hs (H1 & Hin & Hle) Hr] Ht. pose proof (firsts_app l [(t, t <=? h)]) as Hf.
  assert (Hlast : firsts [(t, t <=? h)] = if t <=? h then [] else [t]) by (unfold firsts; by destruct (t <=? h)).
  rewrite Hlast in Hf. split.
  - rewrite Hf. destruct (t <=? h) eqn:E; bool_facts; [by rewrite app_nil_r|].
    apply StronglySorted_app. split_and!; [|done|by repeat constructor]. intros x y Hx ->%list_elem_of_singleton.
    apply (proj1 (Forall_forall _ _) Hle) in Hx. lia.
  - rewrite Hf. destruct (t <=? h) eqn:E; bool_facts.
    + rewrite app_nil_r, Z.max_l by lia. done.
    + rewrite Z.max_r by lia. split_and!; [lia|intros _; set_solver|]. apply Forall_app. split; [eapply Forall_impl; [done|]; simpl; lia|].
      by repeat constructor.
  - intros pre t' post Heq. destruct post as [|x post] using rev_ind.
    + apply app_inj_tail in Heq as [<- [= <- E]]. bool_facts. exists h. split; [apply Hin; lia|lia].
    + clear IHpost. rewrite app_comm_cons, app_assoc in Heq. apply app_inj_tail in Heq as [-> _]. by apply (Hr pre t' post).
Qed.

Lemma span_spec predicted localTick :
  0 <= predicted ->
  Forall (fun t => 0 <= t) (span predicted localTick)
  /\ (length (span predicted localTick) <= RING_TICKS)%nat
  /\ span predicted localTick `suffix_of` seqZ (predicted + 1) (localTick - predicted).
Proof.
  intros Hp. unfold span. set (from := if (_ <=? _) then _ else predicted + 1).
  assert (Hfrom : predicted + 1 <= from /\ localTick - from + 1 <= MAX_REPLAY_TICKS).
  { unfold from. destruct (MAX_REPLAY_TICKS <=? localTick - (predicted + 1)) eqn:E; bool_facts; unfold MAX_REPLAY_TICKS, RING_TICKS in *; lia. }
  split_and!.
  - apply Forall_forall. intros t [Ht _]%elem_of_seqZ. lia.
  - rewrite length_seqZ. unfold MAX_REPLAY_TICKS in *. lia.
  - destruct (decide (from <= localTick)) as [Hlt|Hlt]; [|rewrite seqZ_nil by lia; apply suffix_nil].
    exists (seqZ (predicted + 1) (from - (predicted + 1))).
    replace (localTick - predicted) with (from - (predicted + 1) + (localTick - from + 1)) by lia.
    rewrite seqZ_app by lia. do 2 f_equal; lia.
Qed.

(** Stepping a span logs it, each tick marked by what was stepped before. *)
Lemma steps_log ts : forall (p : Prediction (B := B) (V := V)) (w : Logged),
  Forall (fun t => 0 <= t) ts -> log_inv (highestSimulated p) w.2 ->
  let pw := foldl step (p, w) ts in
  log_inv (highestSimulated pw.1) pw.2.2 /\ (exists l, pw.2.2 = w.2 ++ l /\ l.*1 = ts) /\ predictedTick pw.1 = predictedTick p.
Proof.
  induction ts as [|t ts IH]; intros p w Hts Hi; cbv zeta; [by split_and!; [..|exists []; rewrite app_nil_r|]|].
  apply Forall_cons in Hts as [Ht Hts]. cbn [foldl]. unfold step at 2 4 6. cbn.
  destruct (stepWorld _ _ _ _ w.1 _) as [w1 a1]. pose proof (log_inv_snoc _ _ t Hi Ht) as Hi'.
  match goal with |- context [foldl step (?p1, ?w1) ts] => destruct (IH p1 w1 Hts Hi') as (H1 & (l & Hl & Hts') & Hp) end.
  split_and!; [done| |done]. exists ((t, t <=? highestSimulated p) :: l). split; [rewrite Hl; simpl; by rewrite <- app_assoc|].
  by rewrite <- Hts'.
Qed.

Lemma foldl_log {A} (f : Logged -> A -> Logged) l : (forall w x, (f w x).2 = w.2) -> forall w, (foldl f w l).2 = w.2.
Proof. intros Hf. induction l as [|x l IH]; intros w; [done|]. simpl. by rewrite IH, Hf. Qed.

Lemma rewind_log (p : Prediction (B := B) (V := V)) (w : Logged) (r : R) :
  (rewind p w r).2.2 = w.2 /\ highestSimulated (rewind p w r).1 = highestSimulated p.
Proof.
  unfold rewind. simpl. destruct (entries p) as [b|]; [|done]. destruct (_ || _); [done|]. simpl. split; [|done].
  unfold remarkDirty, restore_state. rewrite foldl_log by (intros w0 x; by destruct (isAlive w0 x)).
  rewrite foldl_log; [done|]. intros w0 x. unfold restore_host. destruct (mget _ x), (hostValues w0 x); done.
Qed.

Lemma session_step_log (s : session) (o : session_op) :
  log_inv (highestSimulated (pred_of s)) (log_of s) ->
  let s' := session_step s o in
  log_inv (highestSimulated (pred_of s')) (log_of s')
  /\ exists l, log_of s' = log_of s ++ l /\ (length l <= RING_TICKS)%nat
        /\ match o with SAdvance _ L _ => exists p, l.*1 `suffix_of` seqZ (p + 1) (L - p) | _ => l = [] end.
Proof.
  destruct s as [[p w] r], o as [|ring L resim|f]; unfold log_of, pred_of; cbn [session_step fst snd]; intros Hi.
  - destruct (rewind_log p w r) as [-> ->]. split; [done|]. exists []. rewrite app_nil_r. split_and!; [done|simpl; lia|done].
  - unfold advance. set (pw := if resim then rebase p w ring else (p, w)).
    assert (Hpw : highestSimulated pw.1 = highestSimulated p /\ pw.2.2 = w.2).
    { unfold pw. destruct resim; [|done]. unfold rebase. by destruct (refreshScope p w) as [sc w0] eqn:E; injection E as _ <-. }
    destruct pw as [p0 w0]. cbn [fst snd] in Hpw. destruct Hpw as [Hh Hw].
    destruct (predictedTick p0 <? 0) eqn:E; bool_facts.
    { cbn [fst snd]. rewrite Hh, Hw. split; [done|]. exists []. rewrite app_nil_r. split_and!; [done|simpl; lia|].
      exists L. apply suffix_nil. }
    cbv zeta. destruct (span_spec (predictedTick p0) L E) as (Hpos & Hlen & Hsuf).
    match goal with |- context [foldl step (?p1, w0) ?ts] => pose proof (steps_log ts p1 w0 Hpos) as Hst; destruct (foldl step (p1, w0) ts) as [p2 w2] end.
    cbn [fst snd highestSimulated predictedTick] in *. rewrite Hh, Hw in Hst.
    destruct (Hst Hi) as (Hi2 & (l & Hl & Hts) & _).
    destruct (if resim then _ else _) as [r2 c2]. cbn [fst snd highestSimulated discardMarks logged_world on_world].
    split; [done|]. exists l. split; [done|]. rewrite <- Hts, length_fmap in Hlen. split; [done|].
    exists (predictedTick p0). by rewrite Hts.
  - split; [done|]. exists []. rewrite app_nil_r. split_and!; [done|simpl; lia|done].
Qed.

Lemma session_log player w r ops :
  let s := session_run player w r ops in log_inv (highestSimulated (pred_of s)) (log_of s).
Proof.
  unfold session_run. induction ops as [|o ops IH] using rev_ind; [apply log_inv_nil|].
  rewrite foldl_app. by apply session_step_log.
Qed.

(** ** Properties *)

(** C9. Over any session of rewinds, advances and authoritative writes, on any world: the
    ticks stepped as new strictly increase, so a tick's one-shot effects run once; a tick
    stepped as a replay comes after a new tick at or past it; and one advance steps at most
    48 ticks, consecutive and ending at the local tick, none from before the tick it
    predicts from. *)
Theorem tick_effects_run_once (player : jstr) (w : W) (r : R) (ops : list session_op) (o : session_op) :
  let s := session_run player w r ops in
  StronglySorted Z.lt (firsts (log_of s))
  /\ (forall pre t post, log_of s = pre ++ (t, true) :: post -> exists t', t' ∈ firsts pre /\ t <= t')
  /\ exists l, log_of (session_step s o) = log_of s ++ l /\ (length l <= 48)%nat
        /\ match o with SAdvance _ localTick _ => exists p, l.*1 `suffix_of` seqZ (p + 1) (localTick - p) | _ => l = [] end.
Proof.
  intros s. pose proof (session_log player w r ops) as Hi. fold s in Hi.
  split; [apply Hi|]. split; [apply Hi|]. by apply session_step_log.
Qed.
End Log.
