(* ===== verification/Predicting.v ===== *)
(** * The predicted world ([packages/client/src/passes.ts], and what
    [packages/client/src/prediction.ts] calls of the mirror's runtime)

    The client's tick passes, built over the ones [loadGame] made, and the runtime, loop and
    stores of [Loop] as the world [Prediction] runs on: its interface, discharged. *)

From stdpp Require Import functions.
From S2P Require Import Prelude JsMap JsNum Json Handle SlotTable TagIndex TransformStore EntityTable Random.
From S2P Require Import ActionStates Channels ScopeTree Timers Tweens Hosts Breaker World Wrappers Loop Prediction.

Local Open Scope Z_scope.

(** What is wired beside the stores: the fold and the frames prediction lends its passes,
    the local player with its avatar, the host records, and the rest [Y]. *)
Record Wired (V Y : Type) := MkWired {
  acts : ActionStates;
  frameFor_ : Z -> option InputFrame;
  localId : jstr;
  joined : bool; (** the roster carries the local player *)
  avatar : option EntityId;
  avatarTemplate : jstr;
  recordsOf : RecordRef -> jsmap jstr V;
  own : Y;
}.
Arguments MkWired {V Y}.
Arguments acts {V Y}.
Arguments frameFor_ {V Y}.
Arguments localId {V Y}.
Arguments joined {V Y}.
Arguments avatar {V Y}.
Arguments avatarTemplate {V Y}.
Arguments recordsOf {V Y}.
Arguments own {V Y}.

Section Passes.
Context {V Y : Type}.
Abbreviation S := (Sim (Wired V Y)).

Definition with_acts (a : ActionStates) (w : Wired V Y) : Wired V Y :=
  MkWired a (frameFor_ w) (localId w) (joined w) (avatar w) (avatarTemplate w) (recordsOf w) (own w).
Definition with_lent (a : ActionStates) (fr : Z -> option InputFrame) (w : Wired V Y) : Wired V Y :=
  MkWired a fr (localId w) (joined w) (avatar w) (avatarTemplate w) (recordsOf w) (own w).
Definition with_avatar (a : option EntityId) (w : Wired V Y) : Wired V Y :=
  MkWired (acts w) (frameFor_ w) (localId w) (joined w) a (avatarTemplate w) (recordsOf w) (own w).
Definition with_records (r : RecordRef -> jsmap jstr V) (w : Wired V Y) : Wired V Y :=
  MkWired (acts w) (frameFor_ w) (localId w) (joined w) (avatar w) (avatarTemplate w) r (own w).

(** The dispatcher's half of an input edge and of an update, and the movement pass
    ([ActionStates], [Dispatcher], [Movement]). *)
Context (dispatchInput : bool -> S -> jstr -> list jstr -> jstr -> EventPhase -> option num -> S).
Context (fillIntent : S -> jstr -> num -> num -> S).
Context (stepMovements : num -> option (list EntityId) -> S -> S).
Context (dispatchUpdate : bool -> num -> jstr -> S -> S).

Definition inputHostKeys (s : S) (player : jstr) : list jstr :=
  match avatar (wired s) with Some id => [playerKey player; entityKey id] | None => [playerKey player] end.

Definition runInputPass (replay : bool) (s : S) : S :=
  if negb (joined (wired s)) then s
  else
    let player := localId (wired s) in
    let a := advanceTick (acts (wired s)) in
    let '(s, a) :=
      match frameFor_ (wired s) (Loop.tick s) with
      | None => (s, a)
      | Some f =>
          let '(s, a, _) := foldInputEdges inputHostKeys (dispatchInput replay) (fun c _ => (true, c)) s player a tt (ActionStates.actions f) in (s, a)
      end in
    let s := synthesizeHolds inputHostKeys (dispatchInput replay) fillIntent s player a in
    with_wired s (with_acts a (wired s)).

(** The context's scope, for a tick given none, is prediction's own. *)
Definition runUpdatePass (own_scope : list EntityId) (replay : bool) (dt : num) (scope : option (list EntityId)) (s : S) : S :=
  let s := foldl (fun s id => dispatchUpdate replay dt (entityKey id) s) s (nullish scope own_scope) in
  if joined (wired s) then dispatchUpdate replay dt (playerKey (localId (wired s))) s else s.

Definition clientPasses (base : TickPasses (Wired V Y)) (own_scope : list EntityId) : TickPasses (Wired V Y) :=
  MkPasses (p_starts base) runInputPass stepMovements (fun _ s => s) (fun _ s => s) (p_countdowns base) (runUpdatePass own_scope).

(** ** The runtime as the world prediction runs on *)

Context (base : TickPasses (Wired V Y)).
Context (run_timer : Runtime -> TimerHeap -> option ScopeTree.GuardOwner -> Z -> nat -> list (Timers.timer_call (F := nat)) * Runtime).
Context (dispatchEnd : Runtime -> EntityId -> list (option ScopeTree.GuardOwner * entity_op)).

(** The runtime with the tick the mirror last depicted. *)
Record PWorld := MkPWorld { sim : S; depicted : Z }.

Definition with_sim (w : PWorld) (s : S) : PWorld := MkPWorld s (depicted w).

Definition pw_position (s : S) (id : EntityId) : vec :=
  (posX (transforms (world s)) id, posY (transforms (world s)) id, posZ (transforms (world s)) id).

Definition pw_setPosition (s : S) (id : EntityId) (v : vec) : S :=
  Loop.with_world s (set_transforms (world s) (TransformStore.setPosition (transforms (world s)) id v.1.1 v.1.2 v.2)).

Definition pw_isAvatarOf (s : S) (id : EntityId) (player : jstr) : bool :=
  match EntityTable.record (entities (world s)) id with
  | Some r => bool_decide (ownerId r = player) && bool_decide (template r = avatarTemplate (wired s))
  | None => false
  end.

(** [hosts.get(key)?.record.values]. *)
Definition pw_values (s : S) (k : jstr) : option (jsmap jstr V) :=
  (fun e => recordsOf (wired s) (Hosts.record e)) <$> Hosts.get (hosts (world s)) k.

Definition pw_setValues (s : S) (k : jstr) (m : jsmap jstr V) : S :=
  match Hosts.get (hosts (world s)) k with
  | Some e => with_wired s (with_records (<[Hosts.record e := m]> (recordsOf (wired s))) (wired s))
  | None => s
  end.

Definition pw_step (t : Z) (replay : bool) (sc : list EntityId) (fr : Z -> option InputFrame) (s : S) (a : ActionStates) : S * ActionStates :=
  let s := with_wired s (with_lent a fr (wired s)) in
  let s := Loop.step run_timer dispatchEnd (clientPasses base sc) t replay (Some sc) s in
  (s, acts (wired s)).

#[export] Instance runtime_world : PredictedWorld PWorld (list (CapturedEntry (W := S))) V := {
  depictedTick := depicted;
  liveIds w := EntityTable.liveIds (entities (world (sim w)));
  ownerOf w id := ownerId <$> EntityTable.record (entities (world (sim w))) id;
  isAlive w := EntityTable.isAlive (entities (world (sim w)));
  positionOf w := pw_position (sim w);
  Prediction.setPosition w id v := with_sim w (pw_setPosition (sim w) id v);
  isAvatarOf w := pw_isAvatarOf (sim w);
  setAvatar w player a :=
    if bool_decide (player = localId (wired (sim w))) && joined (wired (sim w)) then with_sim w (with_wired (sim w) (with_avatar a (wired (sim w)))) else w;
  captureStores w ids := snap_entries (loop_snapshot (sim w) (Some ids));
  restoreStores w t ids b := with_sim w (loop_restore (sim w) (MkSnapshot t (Some ids) b));
  hostValues w := pw_values (sim w);
  setHostValues w k m := with_sim w (pw_setValues (sim w) k m);
  stepWorld t replay sc fr w a := let '(s, a) := pw_step t replay sc fr (sim w) a in (with_sim w s, a);
  Prediction.discardMarks w := with_sim w (Loop.with_world (sim w) (set_channels (world (sim w)) (Channels.clear (World.channels (world (sim w))))));
}.

(** ** What is captured comes back *)

Context {R : Type} `{RenderBridge R}.
Abbreviation P := (Prediction (B := list (CapturedEntry (W := S))) (V := V)).

(** What a rewind reads of prediction. *)
Definition baseline_of (p : P) := (entries p, baselineTick p, state p, scope p).

Lemma steps_baseline ts : forall (p : P) (w : PWorld),
  let pw := foldl Prediction.step (p, w) ts in baseline_of pw.1 = baseline_of p /\ predictedTick pw.1 = predictedTick p /\ depicted pw.2 = depicted w.
Proof.
  induction ts as [|t ts IH]; intros p w; [done|]. cbn [foldl]. unfold Prediction.step at 2 4 6. cbn [stepWorld runtime_world].
  destruct (pw_step t _ _ _ _ _) as [s a]. match goal with |- context [foldl _ (?p1, ?w1) ts] => destruct (IH p1 w1) as (H1 & H2 & H3) end. done.
Qed.

Lemma advance_baseline (p : P) w (r : R) ring L : 0 <= predictedTick p ->
  let s := advance p w r ring L false in baseline_of s.1.1 = baseline_of p /\ 0 <= predictedTick s.1.1.
Proof.
  intros Hp. unfold advance. destruct (predictedTick p <? 0) eqn:E; bool_facts; [lia|]. cbv zeta.
  match goal with |- context [foldl Prediction.step (?p1, w) ?ts] => destruct (steps_baseline ts p1 w) as (H1 & H2 & _); destruct (foldl Prediction.step (p1, w) ts) as [p2 w2] end.
  cbn [fst snd] in *. split; [exact H1|]. cbn. rewrite H2. cbn. lia.
Qed.

(** Advances between two authoritative writes. *)
Definition advances (more : list (InputRing * Z)) (s : P * PWorld * R) : P * PWorld * R :=
  foldl (fun s x => advance s.1.1 s.1.2 s.2 x.1 x.2 false) s more.

Lemma advances_baseline more : forall s, 0 <= predictedTick s.1.1 ->
  baseline_of (advances more s).1.1 = baseline_of s.1.1 /\ 0 <= predictedTick (advances more s).1.1.
Proof.
  induction more as [|x more IH]; intros s Hs; [done|]. cbn [advances foldl].
  destruct (advance_baseline s.1.1 s.1.2 s.2 x.1 x.2 Hs) as [H1 H2]. destruct (IH _ H2) as [J1 J2]. split; [|done]. unfold advances in *. by rewrite J1.
Qed.

(** The stores are read of the world, where making an avatar known changes nothing. *)
Lemma rebase_baseline (p : P) w ring :
  let sc := (refreshScope p w).1 in
  let pw := rebase p w ring in
  world (sim pw.2) = world (sim w) /\ recordsOf (wired (sim pw.2)) = recordsOf (wired (sim w)) /\ depicted pw.2 = depicted w
  /\ baseline_of pw.1 = (Some (snap_entries (loop_snapshot (sim pw.2) (Some sc))), depicted w, capture_state (state p) pw.2 (stateHosts p sc), sc)
  /\ Loop.tick (sim pw.2) = Loop.tick (sim w) /\ prng (sim pw.2) = prng (sim w) /\ Loop.breaker (sim pw.2) = Loop.breaker (sim w).
Proof.
  cbv zeta. unfold rebase. destruct (refreshScope p w) as [sc w'] eqn:E. cbn [fst snd].
  assert (Hw : world (sim w') = world (sim w) /\ recordsOf (wired (sim w')) = recordsOf (wired (sim w)) /\ depicted w' = depicted w
    /\ Loop.tick (sim w') = Loop.tick (sim w) /\ prng (sim w') = prng (sim w) /\ Loop.breaker (sim w') = Loop.breaker (sim w)).
  { unfold refreshScope in E. injection E as _ <-. cbn. by destruct (_ && _). }
  destruct Hw as (H1 & H2 & H3 & H4 & H5 & H6). cbn. unfold baseline_of. cbn. by rewrite H3.
Qed.

Lemma scope_live (p : P) w id : id ∈ (refreshScope p w).1 -> id ∈ EntityTable.liveIds (entities (world (sim w))).
Proof.
  unfold refreshScope. cbn. assert (Hg : forall l acc, id ∈ foldl sadd acc l -> id ∈ acc \/ id ∈ l).
  { induction l as [|x l IH]; intros acc Hl; [by left|]. apply IH in Hl as [Hl|Hl]; [|by right; right]. apply elem_of_sadd in Hl as [->|]; [right; left|by left]. }
  intros Hin. apply Hg in Hin as [Hin|Hin]; [by apply not_elem_of_nil in Hin|]. by apply list_elem_of_filter in Hin as [_ ?].
Qed.

(** Marking the scope dirty again writes every position where it is. *)
Lemma same_position t id j : at_ (lanes (TransformStore.setPosition t id (posX t id) (posY t id) (posZ t id))) j = at_ (lanes t) j.
Proof.
  assert (Hset : forall (l : list num) i d, nullish (arr_get (arr_set l i (nullish (arr_get l i) d)) j) d = nullish (arr_get l j) d).
  { intros l i d. destruct (decide (i = j)) as [->|Hne]; [|by rewrite arr_get_set_ne]. destruct (arr_get l j) as [x|] eqn:E.
    - rewrite arr_get_set_eq; [done|]. by apply arr_get_lt in E.
    - unfold arr_set, arr_get in *. destruct (0 <=? j); [|done]. rewrite list_insert_ge; [by rewrite E|]. by apply lookup_ge_None_1. }
  unfold at_, TransformStore.setPosition, posX, posY, posZ. cbn. by rewrite !Hset.
Qed.

(** What marking leaves: everything but the dirty set. *)
Record remarked (s s' : S) : Prop := {
  rm_table : entities (world s') = entities (world s); rm_tick : Loop.tick s' = Loop.tick s; rm_prng : prng s' = prng s;
  rm_breaker : Loop.breaker s' = Loop.breaker s; rm_hosts : hosts (world s') = hosts (world s); rm_wired : wired s' = wired s;
  rm_at j : at_ (lanes (transforms (world s'))) j = at_ (lanes (transforms (world s))) j;
}.

Lemma remark_ok sc : forall w : PWorld, remarked (sim w) (sim (remarkDirty sc w)).
Proof.
  unfold remarkDirty. induction sc as [|id sc IH]; intros w; [by split|]. cbn [foldl].
  assert (H1 : remarked (sim w) (sim (if isAlive w id then Prediction.setPosition w id (positionOf w id) else w))).
  { destruct (isAlive w id); [|by split]. split; try done. intros j. apply same_position. }
  destruct (IH (if isAlive w id then Prediction.setPosition w id (positionOf w id) else w)) as [J1 J2 J3 J4 J5 J6 J7], H1 as [K1 K2 K3 K4 K5 K6 K7].
  split; [congruence..|]. intros j. by rewrite J7, K7.
Qed.

(** ** Host values *)

Lemma capture_state_spec (b : StateBaseline (V := V)) (w : PWorld) keys k :
  k ∈ captured (capture_state b w keys) -> k ∈ keys /\ mget (buffers (capture_state b w keys)) k = pw_values (sim w) k /\ pw_values (sim w) k <> None.
Proof.
  unfold capture_state. set (c := foldl _ _ keys).
  assert (Hc : forall k, k ∈ captured c -> k ∈ keys /\ mget (buffers c) k = pw_values (sim w) k /\ pw_values (sim w) k <> None).
  { unfold c. assert (Hg : forall l acc, (forall k, k ∈ captured acc -> k ∈ keys /\ mget (buffers acc) k = pw_values (sim w) k /\ pw_values (sim w) k <> None) ->
      (forall k, k ∈ l -> k ∈ keys) ->
      forall k, k ∈ captured (foldl (capture_host w) acc l) -> k ∈ keys /\ mget (buffers (foldl (capture_host w) acc l)) k = pw_values (sim w) k /\ pw_values (sim w) k <> None).
    { induction l as [|x l IH]; intros acc Ha Hl; [done|]. cbn [foldl]. apply IH; [|intros y Hy; apply Hl; by right]. unfold capture_host. cbn [hostValues runtime_world].
      destruct (pw_values (sim w) x) as [v|] eqn:Ev; [|done]. cbn. intros y [Hy|Hy%list_elem_of_singleton]%elem_of_app.
      - destruct (decide (x = y)) as [->|Hne]; [rewrite mget_mset_eq; split; [apply Hl; left|by rewrite Ev]|]. rewrite mget_mset_ne by done. by apply Ha.
      - subst y. rewrite mget_mset_eq. split; [apply Hl; left|by rewrite Ev]. }
    apply Hg; [intros k0 Hk; by apply not_elem_of_nil in Hk|done]. }
  cbn. intros Hk. specialize (Hc k Hk) as (H1 & H2 & H3). split; [done|]. split; [|done]. rewrite <- H2. clear H2.
  induction (buffers c) as [|[x v] m IH]; [done|]. rewrite filter_cons. cbn [fst]. destruct (decide _) as [Hx|Hx]; csimpl; [by rewrite IH|].
  destruct (decide (x = k)) as [->|]; [done|exact IH].
Qed.

Lemma capture_state_all (b : StateBaseline (V := V)) (w : PWorld) keys k :
  k ∈ keys -> pw_values (sim w) k <> None -> k ∈ captured (capture_state b w keys).
Proof.
  intros Hk Hv. unfold capture_state. cbn. generalize (MkBaseline (buffers b) ([] : list jstr)) as acc.
  assert (Hkeep : forall l acc, k ∈ captured acc -> k ∈ captured (foldl (capture_host w) acc l)).
  { induction l as [|x l IH]; intros acc Ha; [done|]. apply IH. unfold capture_host. destruct (hostValues w x); [|done]. cbn. apply elem_of_app. by left. }
  revert Hk. induction keys as [|x l IH]; intros Hk acc; [by apply not_elem_of_nil in Hk|]. cbn [foldl].
  apply elem_of_cons in Hk as [<-|Hk]; [|by apply IH]. apply Hkeep. unfold capture_host. cbn [hostValues runtime_world].
  destruct (pw_values (sim w) k); [|done]. cbn. apply elem_of_app. right. by left.
Qed.

(** Two hosts never share a record. *)
Definition records_apart (h : HostTable) : Prop :=
  forall k k' e e', Hosts.get h k = Some e -> Hosts.get h k' = Some e' -> Hosts.record e = Hosts.record e' -> k = k'.

(** Restoring writes records and nothing else of the world. *)
Record same_world (w w' : PWorld) : Prop := {
  sw_world : world (sim w') = world (sim w); sw_tick : Loop.tick (sim w') = Loop.tick (sim w);
  sw_prng : prng (sim w') = prng (sim w); sw_breaker : Loop.breaker (sim w') = Loop.breaker (sim w);
}.

Lemma restore_host_world b w k : same_world w (restore_host b w k).
Proof.
  unfold restore_host. destruct (mget (buffers b) k), (hostValues w k); try by split. cbn. unfold pw_setValues.
  by destruct (Hosts.get _ k).
Qed.

Lemma restore_state_world b w : same_world w (restore_state b w).
Proof.
  unfold restore_state. generalize (captured b) as l. intros l. revert w. induction l as [|k l IH]; intros w; [by split|]. cbn [foldl].
  destruct (IH (restore_host b w k)) as [H1 H2 H3 H4], (restore_host_world b w k) as [J1 J2 J3 J4]. split; congruence.
Qed.

(** One host's values, where no two hosts share a record: those kept, if any were and the
    host is still there. *)
Lemma restore_host_values (b : StateBaseline (V := V)) (w : PWorld) x k : records_apart (hosts (world (sim w))) ->
  pw_values (sim (restore_host b w x)) k =
    if decide (k = x) then match mget (buffers b) k, pw_values (sim w) k with Some m, Some _ => Some m | _, v => v end else pw_values (sim w) k.
Proof.
  intros Ha. unfold restore_host. cbn [hostValues runtime_world].
  destruct (decide (k = x)) as [->|Hne].
  - destruct (mget (buffers b) x) as [m|]; [|done]. destruct (pw_values (sim w) x) as [v|] eqn:Ev; [|done].
    cbn. unfold pw_values, pw_setValues in *. destruct (Hosts.get (hosts (world (sim w))) x) as [e|] eqn:Ee; [|done]. cbn. rewrite Ee. cbn. by rewrite fn_lookup_insert.
  - destruct (mget (buffers b) x) as [m|]; [|done]. destruct (pw_values (sim w) x) as [v|] eqn:Ev; [|done].
    cbn. unfold pw_values, pw_setValues in *. destruct (Hosts.get (hosts (world (sim w))) x) as [e|] eqn:Ee; [|done]. cbn.
    destruct (Hosts.get (hosts (world (sim w))) k) as [e'|] eqn:Ek; [|done]. cbn. rewrite fn_lookup_insert_ne; [done|].
    intros Heq. apply Hne. symmetry. by apply (Ha _ _ _ _ Ee Ek).
Qed.

Lemma restore_state_spec (b : StateBaseline (V := V)) (w : PWorld) : records_apart (hosts (world (sim w))) ->
  forall k, pw_values (sim (restore_state b w)) k =
    if decide (k ∈ captured b) then match mget (buffers b) k, pw_values (sim w) k with Some m, Some _ => Some m | _, v => v end
    else pw_values (sim w) k.
Proof.
  intros Ha k. unfold restore_state. revert w Ha. induction (captured b) as [|x l IH]; intros w Ha; [by rewrite decide_False by apply not_elem_of_nil|].
  cbn [foldl]. destruct (restore_host_world b w x) as [H1 _ _ _]. rewrite IH by (by rewrite H1). rewrite restore_host_values by done.
  destruct (decide (k = x)) as [->|Hne].
  - rewrite (decide_True (P := x ∈ x :: l)) by left. destruct (mget (buffers b) x), (pw_values (sim w) x); by case_decide.
  - destruct (decide (k ∈ l)) as [Hk|Hk]; [rewrite decide_True; [done|by right]|rewrite decide_False; [done|]]. rewrite elem_of_cons. tauto.
Qed.

Lemma advance_rebases (p : P) w (r : R) ring L : 0 <= depicted w ->
  let s := advance p w r ring L true in
  baseline_of s.1.1 = baseline_of (rebase p w ring).1 /\ 0 <= predictedTick s.1.1.
Proof.
  intros Hd. unfold advance.
  assert (Hp : predictedTick (rebase p w ring).1 = depicted w).
  { destruct (rebase_baseline p w ring) as (_ & _ & <- & _). unfold rebase. by destruct (refreshScope p w). }
  destruct (rebase p w ring) as [p1 w1]. cbn [fst] in *. destruct (predictedTick p1 <? 0) eqn:E; bool_facts; [lia|]. cbv zeta.
  match goal with |- context [foldl Prediction.step (?p2, w1) ?ts] => destruct (steps_baseline ts p2 w1) as (H1 & H2 & _); destruct (foldl Prediction.step (p2, w1) ts) as [p3 w3] end.
  cbn [fst snd] in *. destruct (foldl (measure_one w3) _ _) as [r' c]. cbn. split; [exact H1|]. rewrite H2. cbn. lia.
Qed.

(** Restoring what was captured of the world, at the tick the mirror depicted. *)
Lemma restore_at (w1 w2 : S) (t : Z) sc :
  loop_restore w2 (MkSnapshot t (Some sc) (snap_entries (loop_snapshot w1 (Some sc)))) = loop_restore w2 (loop_snapshot (with_tick w1 t) (Some sc)).
Proof. done. Qed.

(** C3. What a client predicts never stays under what the authority writes. Whatever
    happened since an advance that took the baseline, a rewind gives back, for
    authoritative state to land on: the tick the mirror depicted, the entity table, the
    random stream and the breaker's counts exactly as the baseline had them; the transform
    of every slot of an entity the client owned, the others left where they are, the
    transform store being well formed by then; and, no two hosts sharing a record by then,
    the fields of every host the ticks may write that had a record at the baseline and has
    one now, exactly, every other host's fields left. A field is the reference it holds:
    what a wrapper under it holds is not taken back. Nothing counts as predicted any more. *)
Theorem rewind_lands_on_baseline (p : P) (w : PWorld) (r : R) (ring : InputRing) (L : Z) (more : list (InputRing * Z)) :
  sim_ok (sim w) -> Forall (fun id => 0 <= entityIndex id) (EntityTable.liveIds (entities (world (sim w)))) -> 0 <= depicted w ->
  let s := advances more (advance p w r ring L true) in
  let now := sim s.1.2 in
  let sc := (refreshScope p w).1 in
  let back := rewind s.1.1 s.1.2 s.2 in
  let rt := sim back.2 in
  predictedTick back.1 = -1 /\ Loop.tick rt = depicted w
  /\ same_table (entities (world rt)) (entities (world (sim w))) /\ prng rt = prng (sim w) /\ Loop.breaker rt = Loop.breaker (sim w)
  /\ (TransformStore.wf (transforms (world now)) ->
      forall i, at_ (lanes (transforms (world rt))) i = if decide (covered (transforms (world (sim w))) (Some sc) i)
                then at_ (lanes (transforms (world (sim w)))) i else at_ (lanes (transforms (world now))) i)
  /\ (records_apart (hosts (world now)) ->
      forall k, pw_values rt k = if decide (k ∈ stateHosts p sc) then match pw_values (sim w) k, pw_values now k with Some m, Some _ => Some m | _, v => v end
                else pw_values now k).
Proof.
  intros Hok Hlive Hd s now sc back rt.
  destruct (advance_rebases p w r ring L Hd) as [B1 B2]. destruct (advances_baseline more _ B2) as [B3 B4]. fold s in B3, B4.
  destruct (rebase_baseline p w ring) as (R1 & R2 & R3 & R4 & R5 & R6 & R7). rewrite B1, R4 in B3. fold sc in B3.
  destruct (rebase p w ring) as [p1 w1]. cbn [fst snd] in *. unfold baseline_of in B3. injection B3 as E1 E2 E3 E4.
  assert (Hsc : forall ids, Some sc = Some ids -> Forall (fun id => 0 <= entityIndex id) ids).
  { intros ids [= <-]. apply Forall_forall. intros id Hid. apply (proj1 (Forall_forall _ _) Hlive). by apply (scope_live p w). }
  set (b := with_tick (sim w1) (depicted w)). set (r0 := loop_restore now (loop_snapshot b (Some sc))).
  destruct (restored_world b now (Some sc)) as (J1 & J2 & J3 & J4 & J5 & J6); [cbn; rewrite R7; apply Hok|]. fold r0 in J1, J2, J3, J4, J5, J6.
  set (w3 := with_sim s.1.2 r0).
  assert (Eback : back = (set_poses (set_poses (set_poses s.1.1 [] (predictedTick s.1.1)) (recordPoses (set_poses s.1.1 [] (predictedTick s.1.1)) s.1.2 s.2) (predictedTick s.1.1))
      (recordPoses (set_poses s.1.1 [] (predictedTick s.1.1)) s.1.2 s.2) (-1), remarkDirty sc (restore_state (state s.1.1) w3))).
  { unfold back, rewind. cbn [entries set_poses predictedTick baselineTick state scope]. rewrite E1, E2, E4.
    destruct (predictedTick s.1.1 <? 0) eqn:Ep; bool_facts; [lia|]. destruct (depicted w <? 0) eqn:Ed; bool_facts; [lia|]. done. }
  destruct (restore_state_world (state s.1.1) w3) as [K1 K2 K3 K4].
  destruct (remark_ok sc (restore_state (state s.1.1) w3)) as [M1 M2 M3 M4 M5 M6 M7].
  assert (Ert : rt = sim (remarkDirty sc (restore_state (state s.1.1) w3))) by (unfold rt; by rewrite Eback). rewrite Ert.
  split_and!.
  - by rewrite Eback.
  - by rewrite M2, K2.
  - rewrite M1, K1. unfold w3. cbn [sim with_sim]. by rewrite <- R1.
  - rewrite M3, K3. unfold w3. cbn [sim with_sim]. by rewrite J2.
  - rewrite M4, K4. unfold w3. cbn [sim with_sim]. by rewrite J3.
  - intros Hnow i. rewrite M7, K1, <- R1. refine (restored_transforms b now (Some sc) _ Hnow Hsc i). cbn. rewrite R1. apply Hok.
  - intros Hapart k. unfold pw_values at 1. rewrite M5, M6. fold (pw_values (sim (restore_state (state s.1.1) w3)) k).
    assert (Hv : forall k, pw_values (sim w1) k = pw_values (sim w) k) by (intros k'; unfold pw_values; by rewrite R1, R2).
    assert (H3 : pw_values (sim w3) k = pw_values now k) by (unfold w3, pw_values; cbn [sim with_sim]; by rewrite J5, J6).
    rewrite restore_state_spec by (unfold w3; cbn [sim with_sim]; by rewrite J6). rewrite H3, E3.
    case_decide as Hc.
    + apply capture_state_spec in Hc as (Hk & -> & Hn). rewrite decide_True by done. by rewrite Hv.
    + case_decide as Hk; [|done]. destruct (pw_values (sim w) k) eqn:Ev; [|by destruct (pw_values now k)].
      exfalso. apply Hc, capture_state_all; [done|by rewrite Hv, Ev].
Qed.
End Passes.

(** ** A session of one avatar *)

(** A display that eases nothing. *)
#[export] Instance no_display : RenderBridge unit := { correctionOf _ _ := (f0, f0, f0); clearCorrection r _ := r; correct r _ _ := r }.

(** Each tick moves the entities in scope by one, and puts a coin in the inventory the local
    player's record refers to. *)
Abbreviation Coins := (Wired nat (nat -> Bound)).

Definition push_right (_ : num) (scope : option (list EntityId)) (s : Sim Coins) : Sim Coins :=
  foldl (fun s id => pw_setPosition s id (fadd (posX (transforms (world s)) id) f1, f0, f0)) s (nullish scope []).

Definition add_coin (_ : bool) (_ : num) (k : jstr) (s : Sim Coins) : Sim Coins :=
  match pw_values s k ≫= fun m => mget m (js "bag") with
  | None => s
  | Some ref =>
      let b := wrapper_step None (own (wired s) ref) (ItemAdd (js "coin") f1) in
      with_wired s (MkWired (acts (wired s)) (frameFor_ (wired s)) (localId (wired s)) (joined (wired s)) (avatar (wired s)) (avatarTemplate (wired s))
                      (recordsOf (wired s)) (<[ref := b]> (own (wired s))))
  end.

Definition bag : Bound := MkBound (new_inventory (js "ann")) (Some (playerKey (js "ann"), js "bag")) [].

Definition coin_world : PWorld :=
  let rt := (foldl (run_step (fun _ _ => [])) ([], new_runtime) [WCall None (ESpawn (js "player") f0 f0 (js "ann"))]).2 in
  let '(e, h, t) := Hosts.ensure (hosts rt) (scopes rt) (playerKey (js "ann")) in
  MkPWorld (MkSim (set_hosts rt h t) (Random.MkRandom 1 2 3 4) [] (Spatial.new_ring 60) 0 false
    (MkWired createActionStates (fun _ => None) (js "ann") true None (js "player") (<[Hosts.record e := [(js "bag", 0%nat)]]> (fun _ : nat => [])) (fun _ : nat => bag))) 0.

Definition no_dispatch (_ : bool) (s : Sim Coins) (_ : jstr) (_ : list jstr) (_ : jstr) (_ : EventPhase) (_ : option num) : Sim Coins := s.
Definition no_intent (s : Sim Coins) (_ : jstr) (_ _ : num) : Sim Coins := s.
Definition idle_timer (rt : Runtime) (_ : TimerHeap) (_ : option GuardOwner) (_ : Z) (_ : nat) : list (Timers.timer_call (F := nat)) * Runtime := ([], rt).
Definition no_ends (_ : Runtime) (_ : EntityId) : list (option GuardOwner * entity_op) := [].

#[local] Abbreviation coin_session := (runtime_world no_dispatch no_intent push_right add_coin no_passes idle_timer no_ends).
#[local] Abbreviation coin_entries := (list (CapturedEntry (W := Sim Coins))).

Definition coins (w : PWorld (V := nat) (Y := nat -> Bound)) : num := of_ (wrapper (own (wired (sim w)) 0%nat)) (js "coin").

#[local] Abbreviation coin_run L := (@advance PWorld coin_entries nat unit coin_session no_display (new_prediction (js "ann")) coin_world tt new_ring L true).

#[local] Abbreviation coin_later := (advances no_dispatch no_intent push_right add_coin no_passes idle_timer no_ends [(new_ring, 5)] (coin_run 3)).
#[local] Abbreviation coin_rewind s := (@rewind PWorld coin_entries nat unit coin_session no_display s.1.1 s.1.2 s.2).

Lemma coin_sim_ok (w : PWorld (V := nat) (Y := nat -> Bound)) :
  TransformStore.wf (transforms (world (sim w))) -> Timers.timers (timers (world (sim w))) = [] -> byTag (tags (world (sim w))) = [] ->
  byEntity (tags (world (sim w))) = [] -> Loop.breaker (sim w) = [] -> sim_ok (sim w).
Proof.
  intros H1 H2 H3 H4 H5. split; [done|rewrite H3, H4; split; constructor| |rewrite H5; constructor].
  split; rewrite H2; [constructor|]. intros id Hid. by apply not_elem_of_nil in Hid.
Qed.

Lemma rewind_lands_on_baseline_witness :
  let back := coin_rewind coin_later in
  posX (transforms (world (sim coin_later.1.2))) Loop.walker = of_Z 5
  /\ predictedTick back.1 = -1 /\ Loop.tick (sim back.2) = 0
  /\ at_ (lanes (transforms (world (sim back.2)))) 0 = at_ (lanes (transforms (world (sim coin_world)))) 0.
Proof.
  assert (Hx : posX (transforms (world (sim coin_later.1.2))) Loop.walker = of_Z 5) by (vm_compute; reflexivity).
  assert (H1 : sim_ok (sim coin_world)).
  { apply coin_sim_ok; [|vm_compute; reflexivity..]. exists 64%nat. split; [split; vm_compute; reflexivity|split; vm_compute; discriminate]. }
  assert (H2 : Forall (fun id => 0 <= entityIndex id) (EntityTable.liveIds (entities (world (sim coin_world))))).
  { assert (E : EntityTable.liveIds (entities (world (sim coin_world))) = [Loop.walker]) by (vm_compute; reflexivity). rewrite E.
    constructor; [vm_compute; discriminate|constructor]. }
  assert (H3 : TransformStore.wf (transforms (world (sim coin_later.1.2)))).
  { exists 64%nat. split; [split; vm_compute; reflexivity|split; vm_compute; discriminate]. }
  destruct (rewind_lands_on_baseline no_dispatch no_intent push_right add_coin no_passes idle_timer no_ends (new_prediction (js "ann")) coin_world tt new_ring 3 [(new_ring, 5)] H1 H2 ltac:(vm_compute; discriminate))
    as (J1 & J2 & _ & _ & _ & J6 & _).
  split; [exact Hx|]. split; [exact J1|]. split; [exact J2|]. specialize (J6 H3 0). rewrite decide_True in J6; [exact J6|].
  split; [split; vm_compute; [discriminate|reflexivity]|]. vm_compute. by left.
Defined.

(** The record is taken back to the inventory it referred to, and the inventory, changed in
    place by the ticks taken back, is not: run again, the same tick adds its coin again. *)
Lemma predicted_wrapper_is_not_taken_back :
  let once := coin_run 1 in
  let back := coin_rewind once in
  let again := @advance PWorld coin_entries nat unit coin_session no_display back.1 back.2 tt new_ring 1 true in
  pw_values (sim back.2) (playerKey (js "ann")) = pw_values (sim coin_world) (playerKey (js "ann"))
  /\ coins once.1.2 = of_Z 1 /\ coins again.1.2 = of_Z 2
  /\ posX (transforms (world (sim again.1.2))) Loop.walker = posX (transforms (world (sim once.1.2))) Loop.walker.
Proof. vm_compute. by split_and!. Qed.
