(* ===== verification/Session.v ===== *)
(** * A client session's state and clock
    ([packages/client/src/lifecycle.ts, clock.ts, constants.ts],
    [packages/math/src/scalar.ts])

    The lifecycle is one state, the first reason it failed for, and the listeners told of
    every move. The clock turns display frames into tick indices and steers how far they
    lead the server's. *)

From S2P Require Import Prelude JsMap JsNum JsInt JsRound Json.

Local Open Scope Z_scope.

(** ** Scalars *)

Definition clamp (value min max : num) : num :=
  let lo := if fle min max then min else max in
  let hi := if fle min max then max else min in
  if flt value lo then lo else if flt hi value then hi else value.

Definition approach (current target maxDelta : num) : num :=
  if flt current target then fmin (fadd current maxDelta) target
  else if flt target current then fmax (fsub current maxDelta) target
  else target.

(** ** Lifecycle *)

Inductive FailureReason :=
  | rejected (reason : jstr) (serverProtocolVersion : num)
  | undecodable
  | internal (message : jstr)
  | peer (message : jstr)
  | bundle (message : jstr).

Inductive SessionState := connecting | loading | live | stalled | resyncing | disconnected | failed.

#[export] Instance session_state_eq_dec : EqDecision SessionState.
Proof. solve_decision. Defined.

Definition acceptsInput (s : SessionState) : bool := bool_decide (s = live).
Definition isTerminal (s : SessionState) : bool := bool_decide (s = failed) || bool_decide (s = disconnected).

(** A listener is an object. Two records of what happened ride along: [moved], each move with
    the listeners subscribed when it was made, and [told], each call of a listener, with the
    move it was told of and the state it was handed. *)
Record Lifecycle := MkLifecycle {
  state : SessionState;
  failure : option FailureReason;
  listeners : jsset nat;
  moved : list (SessionState * list nat);
  told : list (nat * nat * SessionState);
}.

Definition new_lifecycle : Lifecycle := MkLifecycle connecting None [] [] [].
Definition moves (l : Lifecycle) : nat := length (moved l).

Definition lc_accepts (l : Lifecycle) : bool := acceptsInput (state l).

Inductive lifecycle_op := To (s : SessionState) | FailWith (r : FailureReason) | OnChange (listener : nat) | Unsubscribe (listener : nat).

(** What a listener does when called: the lifecycle operations it makes, what it reads
    deciding the rest, and whether it throws. *)
Inductive reaction := Returns | Throws | Then (o : lifecycle_op) (k : reaction) | Reads (k : SessionState -> reaction).

(** What a listener's calls do, [op] being one operation. *)
Fixpoint perform (op : lifecycle_op -> Lifecycle -> Lifecycle) (r : reaction) (l : Lifecycle) : Lifecycle :=
  match r with
  | Returns | Throws => l
  | Then o k => perform op k (op o l)
  | Reads k => perform op (k (state l)) l
  end.

Definition call_listener (call : nat -> Lifecycle -> Lifecycle) (n : nat) (s : SessionState) (l : Lifecycle) (x : nat) : Lifecycle :=
  call x (MkLifecycle (state l) (failure l) (listeners l) (moved l) (told l ++ [(n, x, s)])).

(** [#move]: the listeners are those subscribed when the state moved. *)
Definition move (call : SessionState -> nat -> Lifecycle -> Lifecycle) (s : SessionState) (l : Lifecycle) : Lifecycle :=
  if decide (state l = s) then l
  else
    foldl (call_listener (call s) (moves l) s) (MkLifecycle s (failure l) (listeners l) (moved l ++ [(s, listeners l)]) (told l)) (listeners l).

Definition lc_body (call : SessionState -> nat -> Lifecycle -> Lifecycle) (o : lifecycle_op) (l : Lifecycle) : Lifecycle :=
  match o with
  | To s => if isTerminal (state l) then l else move call s l
  | FailWith r => move call failed (MkLifecycle (state l) (Some (nullish (failure l) r)) (listeners l) (moved l) (told l))
  | OnChange x => MkLifecycle (state l) (failure l) (sadd (listeners l) x) (moved l) (told l)
  | Unsubscribe x => MkLifecycle (state l) (failure l) (sdel (listeners l) x) (moved l) (told l)
  end.

Section Lifecycle.
Context (react : nat -> SessionState -> reaction).

(** One operation with [depth] calls of the engine's stack left. A listener called with none
    left throws its [RangeError], which the [try] around it swallows like any throw. *)
Fixpoint lc_op (depth : nat) (o : lifecycle_op) (l : Lifecycle) : Lifecycle :=
  lc_body (fun s x => match depth with O => fun l => l | S d => perform (lc_op d) (react x s) end) o l.

Definition to (depth : nat) (s : SessionState) : Lifecycle -> Lifecycle := lc_op depth (To s).
Definition fail_with (depth : nat) (r : FailureReason) : Lifecycle -> Lifecycle := lc_op depth (FailWith r).
End Lifecycle.

(** ** What every operation keeps *)

(** [failed] is never left, [disconnected] only for it, and the first reason stands. *)
Record lc_ends (l l' : Lifecycle) : Prop := {
  le_failed : state l = failed -> state l' = failed;
  le_closed : state l = disconnected -> isTerminal (state l') = true;
  le_reason : forall r, failure l = Some r -> failure l' = Some r;
  le_known : (failure l = None \/ state l = failed) -> failure l' = None \/ state l' = failed;
}.

(** The calls made for move [n]. *)
Definition calls_in (n : nat) (t : list (nat * nat * SessionState)) : list (nat * SessionState) :=
  (fun e => (e.1.2, e.2)) <$> filter (fun e => e.1.1 = n) t.

(** The state is the last one moved to. *)
Definition shown (l : Lifecycle) : Prop := state l = match last (moved l) with Some m => m.1 | None => connecting end.

(** Past records stand; the moves made since, nested ones included, have been told, each to
    the listeners it found, and nothing else was. *)
Record lc_tells (l l' : Lifecycle) : Prop := {
  lt_moved : exists newm, moved l' = moved l ++ newm;
  lt_told : exists new, told l' = told l ++ new /\ Forall (fun e => moves l <= e.1.1 < moves l')%nat new
    /\ forall n s ls, (moves l <= n)%nat -> moved l' !! n = Some (s, ls) -> calls_in n new = (fun x => (x, s)) <$> ls;
  lt_shown : shown l -> shown l';
}.

Lemma lc_ends_refl l : lc_ends l l.
Proof. split; [done|by intros ->|done|done]. Qed.

Lemma lc_ends_trans l1 l2 l3 : lc_ends l1 l2 -> lc_ends l2 l3 -> lc_ends l1 l3.
Proof.
  intros [H1 H2 H3 H4] [J1 J2 J3 J4]. split; [auto| |auto|auto].
  intros H. specialize (H2 H). unfold isTerminal in H2. apply orb_true_iff in H2 as [E|E]; apply bool_decide_eq_true in E; [|by apply J2].
  unfold isTerminal. by rewrite (J1 E).
Qed.

Lemma calls_app n a b : calls_in n (a ++ b) = calls_in n a ++ calls_in n b.
Proof. unfold calls_in. by rewrite filter_app, fmap_app. Qed.

Lemma calls_outside n t : Forall (fun e => e.1.1 <> n) t -> calls_in n t = [].
Proof. intros H. unfold calls_in. rewrite filter_false; [done|]. intros e He. by apply (proj1 (Forall_forall _ _) H). Qed.

(** Nothing moved, told or shown differently. *)
Lemma lc_tells_same l l' : moved l' = moved l -> told l' = told l -> state l' = state l -> lc_tells l l'.
Proof.
  intros Hm Ht Hs. split; [exists []; by rewrite app_nil_r| |unfold shown; by rewrite Hm, Hs].
  exists []. rewrite app_nil_r. split_and!; [done|constructor|]. intros n s ls Hn Hl. unfold moves in Hn. rewrite Hm in Hl. apply lookup_lt_Some in Hl. lia.
Qed.

Lemma lc_tells_trans l1 l2 l3 : lc_tells l1 l2 -> lc_tells l2 l3 -> lc_tells l1 l3.
Proof.
  intros [(m1 & M1) (n1 & E1 & F1 & C1) S1] [(m2 & M2) (n2 & E2 & F2 & C2) S2].
  assert (H12 : (moves l1 <= moves l2)%nat) by (unfold moves; rewrite M1, length_app; lia).
  assert (H23 : (moves l2 <= moves l3)%nat) by (unfold moves; rewrite M2, length_app; lia).
  split; [exists (m1 ++ m2); by rewrite M2, M1, app_assoc| |auto]. exists (n1 ++ n2). rewrite E2, E1, app_assoc. split; [done|]. split.
  - apply Forall_app. split; (eapply Forall_impl; [done|]); simpl; lia.
  - intros n s ls Hn Hl. rewrite calls_app. destruct (Nat.lt_ge_cases n (moves l2)) as [Hlt|Hge].
    + rewrite (calls_outside n n2), app_nil_r; [|eapply Forall_impl; [done|]; simpl; lia]. apply C1; [done|]. rewrite M2 in Hl. by rewrite lookup_app_l in Hl.
    + rewrite (calls_outside n n1); [|eapply Forall_impl; [done|]; simpl; lia]. by apply C2.
Qed.

Definition lc_step (l l' : Lifecycle) : Prop := lc_ends l l' /\ lc_tells l l'.

Lemma lc_step_refl l : lc_step l l.
Proof. split; [apply lc_ends_refl|by apply lc_tells_same]. Qed.

Lemma lc_step_trans l1 l2 l3 : lc_step l1 l2 -> lc_step l2 l3 -> lc_step l1 l3.
Proof. intros [H1 H2] [J1 J2]. split; [by eapply lc_ends_trans|by eapply lc_tells_trans]. Qed.

(** In the middle of telling a move made from [l0]: [said] of its listeners have been. *)
Record telling (l0 : Lifecycle) (s : SessionState) (ls said : list nat) (l : Lifecycle) : Prop := {
  tg_ends : lc_ends l0 l;
  tg_moved : exists newm, moved l = moved l0 ++ (s, ls) :: newm;
  tg_told : exists new, told l = told l0 ++ new /\ Forall (fun e => moves l0 <= e.1.1 < moves l)%nat new
    /\ calls_in (moves l0) new = (fun x => (x, s)) <$> said
    /\ forall n s' ls', (moves l0 < n)%nat -> moved l !! n = Some (s', ls') -> calls_in n new = (fun x => (x, s')) <$> ls';
  tg_shown : shown l;
}.

Lemma telling_next (f : nat -> Lifecycle -> Lifecycle) l0 s ls said x l :
  (forall x l, lc_step l (f x l)) -> telling l0 s ls said l -> telling l0 s ls (said ++ [x]) (call_listener f (moves l0) s l x).
Proof.
  intros Hf [H1 (m1 & M1) (n1 & E1 & F1 & C1 & D1) S1]. unfold call_listener. set (l1 := MkLifecycle _ _ _ _ _).
  destruct (Hf x l1) as [He [(m2 & M2) (n2 & E2 & F2 & C2) S2]]. assert (Hm1 : moved l1 = moved l) by done.
  assert (Hlt : (moves l0 < moves l)%nat) by (unfold moves; rewrite M1, length_app; simpl; lia).
  assert (Hle : (moves l <= moves (f x l1))%nat) by (unfold moves; rewrite M2, Hm1, length_app; lia).
  split.
  - eapply lc_ends_trans; [exact H1|]. destruct He. by split.
  - exists (m1 ++ m2). by rewrite M2, Hm1, M1, <- app_assoc.
  - exists (n1 ++ [(moves l0, x, s)] ++ n2). split_and!.
    + rewrite E2. unfold l1. cbn [told]. by rewrite E1, <- !app_assoc.
    + apply Forall_app. split; [eapply Forall_impl; [done|]; simpl; lia|]. apply Forall_app. split; [repeat constructor; simpl; lia|].
      eapply Forall_impl; [exact F2|]. unfold moves in *. rewrite Hm1. simpl. lia.
    + rewrite !calls_app, C1, fmap_app. f_equal. rewrite (calls_outside _ n2); [|eapply Forall_impl; [exact F2|]; unfold moves in *; rewrite Hm1; simpl; lia].
      unfold calls_in. by rewrite filter_cons_True, filter_nil by done.
    + intros n s' ls' Hn Hl. rewrite !calls_app. rewrite (calls_outside n [(moves l0, x, s)]) by (repeat constructor; simpl; lia). rewrite app_nil_l.
      destruct (Nat.lt_ge_cases n (moves l)) as [Hln|Hge].
      * rewrite (calls_outside n n2), app_nil_r; [|eapply Forall_impl; [exact F2|]; unfold moves in *; rewrite Hm1; simpl; lia].
        apply D1; [done|]. rewrite M2, Hm1 in Hl. by rewrite lookup_app_l in Hl.
      * rewrite (calls_outside n n1); [|eapply Forall_impl; [exact F1|]; simpl; lia]. by apply C2.
  - by apply S2.
Qed.

Lemma telling_all (f : nat -> Lifecycle -> Lifecycle) l0 s ls : (forall x l, lc_step l (f x l)) ->
  forall xs said l, telling l0 s ls said l -> telling l0 s ls (said ++ xs) (foldl (call_listener f (moves l0) s) l xs).
Proof.
  intros Hf xs. induction xs as [|x xs IH]; intros said l Hl; [by rewrite app_nil_r|]. cbn [foldl].
  rewrite cons_middle, app_assoc. by apply IH, telling_next.
Qed.

Lemma perform_step (op : lifecycle_op -> Lifecycle -> Lifecycle) r : (forall o l, lc_step l (op o l)) -> forall l, lc_step l (perform op r l).
Proof.
  intros Hop. induction r as [| |o k IH|k IH]; intros l; simpl; [apply lc_step_refl|apply lc_step_refl| |apply IH].
  by eapply lc_step_trans; [apply Hop|apply IH].
Qed.

(** Moving to [s] from a state that may move there. *)
Lemma move_step call s l r :
  (forall s x l, lc_step l (call s x l)) -> state l <> s -> (isTerminal (state l) = false \/ s = failed) ->
  (r = failure l \/ (s = failed /\ failure l = None)) ->
  let l' := move call s (MkLifecycle (state l) r (listeners l) (moved l) (told l)) in
  lc_step l l' /\ moved l' !! moves l = Some (s, listeners l).
Proof.
  intros Hc Hs Ht Hr. cbv zeta. unfold move. cbn [state]. rewrite decide_False by done. cbn [failure listeners moved told].
  set (l1 := MkLifecycle s r (listeners l) _ (told l)).
  assert (H0 : telling l s (listeners l) [] l1).
  { split.
    - split; cbn [state failure l1].
      + intros E. destruct Ht as [Ht| ->]; [|done]. by rewrite E in Ht.
      + intros E. destruct Ht as [Ht| ->]; [|done]. by rewrite E in Ht.
      + intros x Hx. destruct Hr as [-> |[_ Hr]]; [done|congruence].
      + intros [Hn|E]; [destruct Hr as [-> |[-> _]]; [by left|by right]|]. destruct Ht as [Ht| ->]; [by rewrite E in Ht|by right].
    - by exists [].
    - exists []. rewrite app_nil_r. split_and!; [done|constructor|done|]. intros n s' ls' Hn Hl. apply lookup_lt_Some in Hl. unfold l1, moves in *. cbn in Hl.
      rewrite length_app in Hl. simpl in Hl. lia.
    - unfold shown, l1. cbn. by rewrite last_snoc. }
  pose proof (telling_all (call s) l s (listeners l) (Hc s) (listeners l) [] l1 H0) as [H1 (m & M) (new & E & F & C & D) S]. rewrite app_nil_l in C.
  change (foldl (call_listener (call s) (moves l) s) l1 (listeners l)) with
    (foldl (call_listener (call s) (moves (MkLifecycle (state l) r (listeners l) (moved l) (told l))) s) l1 (listeners l)) in *.
  set (l' := foldl _ l1 (listeners l)) in *.
  assert (Hat : moved l' !! moves l = Some (s, listeners l)) by (rewrite M; unfold moves; by rewrite lookup_app_r, Nat.sub_diag by lia).
  split; [|done]. split; [done|]. split; [by eexists| |done]. exists new. split_and!; [done|done|].
  intros n s' ls' Hn Hl. destruct (decide (n = moves l)) as [->|Hne]; [|apply D; [lia|done]]. rewrite Hat in Hl. by injection Hl as <- <-.
Qed.

Lemma lc_body_step call o l : (forall s x l, lc_step l (call s x l)) -> lc_step l (lc_body call o l).
Proof.
  intros Hc. destruct o as [s|r|x|x]; simpl.
  - destruct (isTerminal (state l)) eqn:E; [apply lc_step_refl|]. destruct (decide (state l = s)) as [Heq|Hne].
    + unfold move. rewrite decide_True by done. apply lc_step_refl.
    + destruct l as [st f ls m t]. eapply (move_step call s (MkLifecycle st f ls m t) f); auto.
  - destruct (decide (state l = failed)) as [Heq|Hne].
    + unfold move. rewrite decide_True by done. split; [|by apply lc_tells_same].
      split; cbn; [done|by rewrite Heq|by intros x ->|by right].
    + destruct (failure l) as [r0|] eqn:Ef; [|].
      * destruct l as [st f ls m t]. cbn in Ef. subst f. eapply (move_step call failed (MkLifecycle st (Some r0) ls m t) (Some r0)); auto.
      * eapply (move_step call failed l (Some r)); auto.
  - split; [by split; [|intros ->| |]|]. by apply lc_tells_same.
  - split; [by split; [|intros ->| |]|]. by apply lc_tells_same.
Qed.

Lemma lc_op_step react depth o l : lc_step l (lc_op react depth o l).
Proof.
  revert o l. induction depth as [|d IH]; intros o l; simpl; apply lc_body_step; intros s x l0; [apply lc_step_refl|].
  by apply perform_step.
Qed.

(** What an operation calls each listener with. *)
Definition calling (react : nat -> SessionState -> reaction) (depth : nat) (s : SessionState) (x : nat) : Lifecycle -> Lifecycle :=
  match depth with O => fun l => l | S d => perform (lc_op react d) (react x s) end.

Lemma calling_step react depth s x l : lc_step l (calling react depth s x l).
Proof. destruct depth; [apply lc_step_refl|]. apply perform_step, lc_op_step. Qed.

Lemma lc_op_body react depth o l : lc_op react depth o l = lc_body (calling react depth) o l.
Proof. by destruct depth. Qed.

(** Failing a session that has not failed leaves it failed, for the reason it first had. *)
Lemma fail_with_ends react depth r l : state l <> failed ->
  state (fail_with react depth r l) = failed /\ failure (fail_with react depth r l) = Some (nullish (failure l) r).
Proof.
  intros Hs. unfold fail_with.
  assert (Hgen : forall call : SessionState -> nat -> Lifecycle -> Lifecycle, (forall s x l, lc_step l (call s x l)) ->
    state (lc_body call (FailWith r) l) = failed /\ failure (lc_body call (FailWith r) l) = Some (nullish (failure l) r)).
  { intros call Hc. unfold lc_body, move. cbn [state]. rewrite decide_False by done. cbn [failure listeners moves told].
    set (l0 := MkLifecycle failed _ _ _ _). generalize (moves (MkLifecycle (state l) (Some (nullish (failure l) r)) (listeners l) (moved l) (told l))) as k. intros k.
    assert (Hl : forall xs l1, lc_ends l0 l1 -> lc_ends l0 (foldl (call_listener (call failed) k failed) l1 xs)).
    { intros xs. induction xs as [|x xs IH]; intros l1 H1; [done|]. cbn [foldl]. apply IH. eapply lc_ends_trans; [|apply Hc]. by destruct H1. }
    destruct (Hl (listeners l) l0 (lc_ends_refl l0)) as [E1 _ E2 _]. split; [by apply E1|by apply E2]. }
  destruct depth as [|d]; cbn [lc_op]; apply Hgen; intros s x l0; [apply lc_step_refl|]. apply perform_step, lc_op_step.
Qed.

Definition lc_run (react : nat -> SessionState -> reaction) (depth : nat) (l : Lifecycle) (ops : list lifecycle_op) : Lifecycle :=
  foldl (fun l o => lc_op react depth o l) l ops.

Lemma lc_run_step react depth ops : forall l, lc_step l (lc_run react depth l ops).
Proof. induction ops as [|o ops IH]; intros l; [apply lc_step_refl|]. eapply lc_step_trans; [apply lc_op_step|apply IH]. Qed.

(** C13. A session's end is final, whatever its listeners do when told, moving the state or
    subscribing included: after any history [failed] is never left, [disconnected] is left
    for [failed] alone, the first reason given is the one kept, and a session with a reason
    has failed. Every move is told: the state is the last one moved to, and every move made,
    by a caller or by a listener in the middle of another, to end the session or not, has
    been told exactly once to each listener subscribed when it was made, in the order they
    subscribed, one that throws or moves the state again costing the others nothing; nothing
    else is told. [to] moves unless the session has ended or is there, [fail] unless it has
    failed. *)
Theorem session_end_is_final (react : nat -> SessionState -> reaction) (depth : nat) (ops more : list lifecycle_op) :
  let l := lc_run react depth new_lifecycle ops in
  let l' := lc_run react depth l more in
  (state l = failed -> state l' = failed)
  /\ (state l = disconnected -> state l' = disconnected \/ state l' = failed)
  /\ (forall r, failure l = Some r -> failure l' = Some r)
  /\ (failure l' <> None -> state l' = failed)
  /\ state l = match last (moved l) with Some m => m.1 | None => connecting end
  /\ (forall n s ls, moved l !! n = Some (s, ls) -> calls_in n (told l) = (fun x => (x, s)) <$> ls)
  /\ Forall (fun e => e.1.1 < moves l)%nat (told l)
  /\ (forall s, state l <> s -> isTerminal (state l) = false -> moved (to react depth s l) !! moves l = Some (s, listeners l))
  /\ (forall r, state l <> failed -> moved (fail_with react depth r l) !! moves l = Some (failed, listeners l)).
Proof.
  cbv zeta. destruct (lc_run_step react depth more (lc_run react depth new_lifecycle ops)) as [Hm _]. pose proof Hm as [H1 H2 H3 _].
  destruct (lc_run_step react depth ops new_lifecycle) as [H0 [_ (new & Hn & Hf & Hc) Hsh]].
  set (l := lc_run react depth new_lifecycle ops) in *. split_and!.
  - done.
  - intros E. specialize (H2 E). unfold isTerminal in H2. apply orb_true_iff in H2 as [E'|E']; apply bool_decide_eq_true in E'; auto.
  - done.
  - intros Hne. destruct (le_known _ _ (lc_ends_trans _ _ _ H0 Hm) (or_introl eq_refl)); done.
  - by apply Hsh.
  - intros n s ls Hl. rewrite Hn. apply Hc; [simpl; unfold moves; simpl; lia|done].
  - rewrite Hn. simpl. eapply Forall_impl; [exact Hf|]. simpl. lia.
  - intros s Hs Ht. unfold to. rewrite lc_op_body. cbn [lc_body]. rewrite Ht.
    destruct (move_step (calling react depth) s l (failure l) (calling_step react depth) Hs) as [_ Hmv]; [by left|by left|]. by destruct l.
  - intros r Hs. unfold fail_with. rewrite lc_op_body. cbn [lc_body].
    destruct (move_step (calling react depth) failed l (Some (nullish (failure l) r)) (calling_step react depth) Hs) as [_ Hmv];
      [by right|destruct (failure l); [by left|by right]|done].
Qed.

(** One listener tries to revive a session that has closed; another throws. *)
Definition sample_reaction (x : nat) (s : SessionState) : reaction :=
  if decide (x = 1%nat) then Then (To live) (Then (OnChange 3) Returns) else Throws.

Definition closing_ops : list lifecycle_op :=
  [OnChange 1; OnChange 2; To live; To disconnected; To live; FailWith undecodable].

Lemma session_end_is_final_witness :
  let l := lc_run sample_reaction 8 new_lifecycle closing_ops in
  let l' := lc_run sample_reaction 8 l [FailWith (peer [])] in
  state l = failed /\ failure l = Some undecodable /\ failure l' = Some undecodable /\ state l' = failed.
Proof.
  cbv zeta. destruct (session_end_is_final sample_reaction 8 closing_ops [FailWith (peer [])]) as (Hs & _ & Hr & _).
  assert (Hc : failure (lc_run sample_reaction 8 new_lifecycle closing_ops) = Some undecodable) by (vm_compute; reflexivity).
  assert (Hd : state (lc_run sample_reaction 8 new_lifecycle closing_ops) = failed) by (vm_compute; reflexivity).
  exact (conj Hd (conj Hc (conj (Hr _ Hc) (Hs Hd)))).
Defined.

(** ** The clock *)

Definition HEADROOM_TARGET : num := of_Z 2.
Definition LEAD_MIN_TICKS : num := of_Z 1.
Definition LEAD_MAX_SECONDS : num := fdiv (of_Z 250) (of_Z 1000).
Definition MAX_FRAME_DT : num := dec 1 (-1).
Definition GAIN : num := dec 25 (-2).
Definition NUDGE_MAX : num := dec 2 (-2).

Record HeadroomSample := MkSample { headroom : num; leadAtSendTicks : num }.

Record ClientClock := MkClock {
  simRate : num;
  localTick : num;
  accumulator : num;
  lastNow : option num;
  targetLeadSeconds : num;
  currentLeadSeconds : num;
  epoch : Z;
}.

Definition clampLead (seconds rate : num) : num :=
  let min := fdiv LEAD_MIN_TICKS rate in
  if isFinite seconds then clamp seconds min LEAD_MAX_SECONDS else min.

Definition new_clock (rate snapshotTick rttSeconds : num) : ClientClock :=
  let seed := clampLead rttSeconds rate in
  MkClock rate (fadd snapshotTick (fceil (fmul seed rate))) f0 None seed seed 0.

Definition currentLeadTicks (c : ClientClock) : num := fmul (currentLeadSeconds c) (simRate c).
Definition leadError (c : ClientClock) : num := fsub (targetLeadSeconds c) (currentLeadSeconds c).

Definition bumpEpoch (c : ClientClock) : ClientClock :=
  MkClock (simRate c) (localTick c) (accumulator c) (lastNow c) (targetLeadSeconds c) (currentLeadSeconds c) (epoch c + 1).

Definition nudgeScale (c : ClientClock) : num :=
  let halfTick := fdiv (dec 5 (-1)) (simRate c) in
  let error := leadError c in
  if fle (fabs error) halfTick then of_Z 1
  else if flt f0 error then fsub (of_Z 1) NUDGE_MAX else fadd (of_Z 1) NUDGE_MAX.

(** The [while]: what [fuel] iterations leave, the ticks stamped, and whether it has exited. *)
Fixpoint advance_loop (fuel : nat) (nominal step : num) (c : ClientClock) : list num * ClientClock * bool :=
  if fle step (accumulator c) then
    match fuel with
    | O => ([], c, false)
    | S fuel =>
        let c := MkClock (simRate c) (fadd (localTick c) (of_Z 1)) (fsub (accumulator c) step) (lastNow c) (targetLeadSeconds c)
                   (fadd (currentLeadSeconds c) (fsub nominal step)) (epoch c) in
        let '(out, c', exited) := advance_loop fuel nominal step c in
        (localTick c :: out, c', exited)
    end
  else ([], c, true).

(** The accumulator as the loop finds it. *)
Definition take_time (now : num) (c : ClientClock) : ClientClock :=
  let raw := match lastNow c with None => f0 | Some last => fsub now last end in
  let dt := clamp raw f0 MAX_FRAME_DT in
  MkClock (simRate c) (localTick c) (fadd (accumulator c) dt) (Some now) (targetLeadSeconds c) (currentLeadSeconds c) (epoch c).

Definition clock_advance (fuel : nat) (now : num) (c : ClientClock) : list num * ClientClock * bool :=
  if isFinite now then
    let c := take_time now c in
    let nominal := fdiv (of_Z 1) (simRate c) in
    advance_loop fuel nominal (fmul nominal (nudgeScale c)) c
  else ([], c, true).

Definition sample (s : HeadroomSample) (c : ClientClock) : ClientClock :=
  let targetLeadTicks := fmul (targetLeadSeconds c) (simRate c) in
  let undelivered := fsub targetLeadTicks (leadAtSendTicks s) in
  let effectiveHeadroom := fadd (headroom s) undelivered in
  let error := fsub HEADROOM_TARGET effectiveHeadroom in
  MkClock (simRate c) (localTick c) (accumulator c) (lastNow c)
    (clampLead (fadd (targetLeadSeconds c) (fdiv (fmul GAIN error) (simRate c))) (simRate c)) (currentLeadSeconds c) (epoch c).

Definition isBehind (depictedTick : num) (c : ClientClock) : bool := flt (localTick c) depictedTick.

(** ** Clock histories *)

Inductive clock_op := CAdvance (fuel : nat) (now : num) | CSample (s : HeadroomSample) | CBump.

Definition clock_step (acc : list num * ClientClock) (o : clock_op) : list num * ClientClock :=
  match o with
  | CAdvance fuel now => let '(out, c, _) := clock_advance fuel now acc.2 in (acc.1 ++ out, c)
  | CSample s => (acc.1, sample s acc.2)
  | CBump => (acc.1, bumpEpoch acc.2)
  end.

Definition clock_run (c : ClientClock) (ops : list clock_op) : list num * ClientClock := foldl clock_step ([], c) ops.

Lemma advance_loop_keeps fuel nominal step : forall c,
  let '(_, c', _) := advance_loop fuel nominal step c in
  simRate c' = simRate c /\ targetLeadSeconds c' = targetLeadSeconds c /\ epoch c' = epoch c /\ lastNow c' = lastNow c.
Proof.
  induction fuel as [|fuel IH]; intros c; cbn [advance_loop]; destruct (fle step (accumulator c)); try done.
  match goal with |- context [advance_loop fuel nominal step ?c1] => specialize (IH c1); destruct (advance_loop fuel nominal step c1) as [[out c'] b] end.
  cbn in *. done.
Qed.

Lemma advance_loop_ticks fuel nominal step : forall c t,
  localTick c = of_Z t -> 0 <= t ->
  let '(out, c', _) := advance_loop fuel nominal step c in
  t + Z.of_nat (length out) < 2 ^ 53 ->
  out = of_Z <$> seqZ (t + 1) (Z.of_nat (length out)) /\ localTick c' = of_Z (t + Z.of_nat (length out)).
Proof.
  induction fuel as [|fuel IH]; intros c t Hc Ht; cbn [advance_loop]; destruct (fle step (accumulator c)); try (intros _; simpl; rewrite Z.add_0_r; done).
  match goal with |- context [advance_loop fuel nominal step ?c1] => specialize (IH c1 (t + 1)); destruct (advance_loop fuel nominal step c1) as [[out c'] b] end.
  cbn [length localTick fst snd] in *. intros Hlen.
  assert (H1 : fadd (localTick c) (of_Z 1) = of_Z (t + 1)) by (rewrite Hc; apply fadd_int; unfold exact_int; lia).
  destruct (IH H1) as [Ho Hl]; [lia|lia|]. rewrite Hl, H1. split; [|f_equal; lia].
  rewrite seqZ_cons by lia. csimpl. f_equal. rewrite Ho at 1. do 2 f_equal; lia.
Qed.

(** C26. Whatever the display's times, frame rate and headroom samples, and however many
    iterations each frame's loop is given, the ticks a clock stamps are consecutive from the
    one after its seed: every index once, in order, as far as doubles count exactly. *)
Theorem ticks_stamped_once (c : ClientClock) (t : Z) (ops : list clock_op) :
  localTick c = of_Z t -> 0 <= t ->
  let '(out, c') := clock_run c ops in
  t + Z.of_nat (length out) < 2 ^ 53 ->
  out = of_Z <$> seqZ (t + 1) (Z.of_nat (length out)) /\ localTick c' = of_Z (t + Z.of_nat (length out)).
Proof.
  intros Hc Ht. unfold clock_run. induction ops as [|o ops IH] using rev_ind; [simpl; intros _; by rewrite Z.add_0_r|].
  rewrite foldl_app. cbn [foldl]. destruct (foldl clock_step ([], c) ops) as [out0 c0]. destruct o as [fuel now|s|]; cbn [clock_step fst snd];
    [|exact IH|exact IH].
  unfold clock_advance. destruct (isFinite now); [|by rewrite app_nil_r].
  pose proof (advance_loop_ticks fuel (fdiv (of_Z 1) (simRate (take_time now c0)))
    (fmul (fdiv (of_Z 1) (simRate (take_time now c0))) (nudgeScale (take_time now c0))) (take_time now c0) (t + Z.of_nat (length out0))) as Hl.
  cbv zeta. destruct (advance_loop _ _ _ _) as [[out1 c1] b]. rewrite length_app, Nat2Z.inj_add. intros Hlen.
  destruct IH as [Ho Hc0]; [lia|]. destruct Hl as [Ho1 Hc1]; [done|lia|lia|].
  split; [|rewrite Hc1; f_equal; lia]. rewrite seqZ_app, fmap_app by lia. f_equal; [exact Ho|]. rewrite Ho1 at 1. do 2 f_equal; lia.
Qed.

(** Three frames of a 60 Hz session, a display time of NaN among them. *)
Definition sample_frames : list clock_op :=
  [CAdvance 10 f0; CAdvance 10 NaN; CSample (MkSample (of_Z 5) (of_Z 2)); CAdvance 10 (dec 52 (-3))].

Lemma ticks_stamped_once_witness :
  let '(out, c') := clock_run (new_clock (of_Z 60) (of_Z 100) (dec 3 (-2))) sample_frames in
  length out = 3%nat /\ out = of_Z <$> seqZ 103 3 /\ localTick c' = of_Z 105.
Proof.
  assert (Hl : localTick (new_clock (of_Z 60) (of_Z 100) (dec 3 (-2))) = of_Z 102) by (vm_compute; reflexivity).
  assert (Ho : length (clock_run (new_clock (of_Z 60) (of_Z 100) (dec 3 (-2))) sample_frames).1 = 3%nat) by (vm_compute; reflexivity).
  pose proof (ticks_stamped_once (new_clock (of_Z 60) (of_Z 100) (dec 3 (-2))) 102 sample_frames Hl ltac:(lia)) as H.
  revert Ho H. generalize (clock_run (new_clock (of_Z 60) (of_Z 100) (dec 3 (-2))) sample_frames). intros [out c'] Ho H.
  cbn [fst] in Ho. rewrite Ho in H. destruct (H ltac:(lia)) as [H1 H2]. exact (conj Ho (conj H1 H2)).
Defined.

(** ** The lead *)

Definition between (lo hi x : num) : Prop := fle lo x = true /\ fle x hi = true.

Lemma clamp_between v lo hi :
  is_nan v = false -> is_nan lo = false -> is_nan hi = false -> between (fmin lo hi) (fmax lo hi) (clamp v lo hi).
Proof.
  intros Hv Hl Hh. destruct (fmin_cases lo hi Hl Hh) as (_ & H1 & H2), (fmax_cases lo hi Hl Hh) as (_ & H3 & H4).
  unfold clamp, between. destruct (fle lo hi) eqn:E.
  - destruct (flt v lo) eqn:E1; [done|]. destruct (flt hi v) eqn:E2; [done|]. split.
    + eapply fle_trans; [exact H1|]. by apply flt_false_le.
    + eapply fle_trans; [|exact H4]. by apply flt_false_le.
  - destruct (flt v hi) eqn:E1; [done|]. destruct (flt lo v) eqn:E2; [done|]. split.
    + eapply fle_trans; [exact H2|]. by apply flt_false_le.
    + eapply fle_trans; [|exact H3]. by apply flt_false_le.
Qed.

(** The legal lead at a rate: one tick and a quarter of a second, whichever is the less first. *)
Definition lead_floor (rate : num) : num := fmin (fdiv LEAD_MIN_TICKS rate) LEAD_MAX_SECONDS.
Definition lead_ceiling (rate : num) : num := fmax (fdiv LEAD_MIN_TICKS rate) LEAD_MAX_SECONDS.

Lemma clampLead_between s rate : is_nan (fdiv LEAD_MIN_TICKS rate) = false -> between (lead_floor rate) (lead_ceiling rate) (clampLead s rate).
Proof.
  intros Hn. unfold clampLead. destruct (isFinite s) eqn:E.
  - apply clamp_between; [by destruct s|done|by vm_compute].
  - destruct (fmin_cases (fdiv LEAD_MIN_TICKS rate) LEAD_MAX_SECONDS Hn) as (_ & H1 & _); [by vm_compute|].
    destruct (fmax_cases (fdiv LEAD_MIN_TICKS rate) LEAD_MAX_SECONDS Hn) as (_ & H3 & _); [by vm_compute|done].
Qed.

(** The lead a clock aims for never leaves the legal range, whatever round trip seeded
    it and whatever headroom a server reports: after any history it lies between one tick
    and a quarter of a second, and the rate is the one it was made with. *)
Theorem lead_stays_legal (rate snapshotTick rtt : num) (ops : list clock_op) :
  is_nan (fdiv LEAD_MIN_TICKS rate) = false ->
  let c := (clock_run (new_clock rate snapshotTick rtt) ops).2 in
  simRate c = rate /\ between (lead_floor rate) (lead_ceiling rate) (targetLeadSeconds c).
Proof.
  intros Hn. cbv zeta. unfold clock_run. induction ops as [|o ops IH] using rev_ind; [split; [done|by apply clampLead_between]|].
  rewrite foldl_app. cbn [foldl]. destruct (foldl clock_step _ ops) as [out0 c0]. destruct IH as [Hr Hb]. cbn [snd] in *.
  destruct o as [fuel now|s|]; cbn [clock_step fst snd]; [| |done].
  - unfold clock_advance. destruct (isFinite now); [|done]. cbv zeta.
    match goal with |- context [advance_loop fuel ?n ?st ?c] => pose proof (advance_loop_keeps fuel n st c) as H; destruct (advance_loop fuel n st c) as [[out1 c1] b] end.
    cbn [snd simRate targetLeadSeconds] in *. destruct H as (H1 & H2 & _). cbn in H1, H2. by rewrite H1, H2.
  - unfold sample. cbn [simRate targetLeadSeconds]. split; [done|]. rewrite Hr. by apply clampLead_between.
Qed.

Lemma lead_stays_legal_witness :
  let c := (clock_run (new_clock (of_Z 60) f0 NaN) [CSample (MkSample (of_Z (-1000)) f0)]).2 in
  between (lead_floor (of_Z 60)) (lead_ceiling (of_Z 60)) (targetLeadSeconds c).
Proof. apply (lead_stays_legal (of_Z 60) f0 NaN [CSample (MkSample (of_Z (-1000)) f0)]). vm_compute. reflexivity. Defined.

(** ** A frame returns *)

(** A tick duration between [2^-51] seconds and one, at each nudge. *)
Definition step_ok (step : num) : bool :=
  valid_binary fprec femax step && fle (S754_finite false (2 ^ 52) (-103)) step && fle step (of_Z 1).

Definition rate_ok (rate : num) : bool :=
  let nominal := fdiv (of_Z 1) rate in
  forallb (fun k => step_ok (fmul nominal k)) [of_Z 1; fsub (of_Z 1) NUDGE_MAX; fadd (of_Z 1) NUDGE_MAX].

Lemma step_ok_units step : step_ok step = true -> nonneg_ok step /\ 2 ^ 1023 <= units step <= 2 ^ 1074.
Proof.
  unfold step_ok. intros [[Hd Hl]%andb_prop Hu]%andb_prop.
  assert (Hok : nonneg_ok step).
  { destruct step as [|[]| |[] m e]; try done. by apply double_canon. }
  split; [done|]. apply fle_units in Hl; [|by apply (double_canon (2 ^ 52) (-103))|done].
  apply fle_units in Hu; [|done|by apply (double_canon (2 ^ 52) (-52))].
  split; [exact Hl|exact Hu].
Qed.

Lemma fsub_double x y :
  is_double x -> is_double y -> isFinite x = true -> isFinite y = true ->
  exists r, (fsub x y = r \/ fsub x y = fneg r) /\ (r = S754_infinity false \/ nonneg_ok r).
Proof.
  assert (Hd : forall s m e, is_double (S754_finite s m e) -> canon_pos m e) by (intros [] m e; exact (double_canon m e)).
  intros Hx Hy Hfx Hfy. destruct x as [sx| | |sx mx ex], y as [sy| | |sy my ey]; try done.
  - exists f0. split; [|by right]. by destruct sx, sy; simpl; auto.
  - apply Hd in Hy. exists (S754_finite false my ey). split; [|by right]. by destruct sx, sy; simpl; auto.
  - apply Hd in Hx. exists (S754_finite false mx ex). split; [|by right]. by destruct sx, sy; simpl; auto.
  - apply Hd in Hx as (_ & Hx & _), Hy as (_ & Hy & _). unfold fsub, SFsub.
    set (ez := Z.min ex ey). set (z := _ - _).
    destruct (Z.le_gt_cases 0 z) as [Hz|Hz].
    + exists (binary_normalize fprec femax z ez false). split; [by left|]. apply normalize_spec; lia.
    + exists (binary_normalize fprec femax (- z) ez false). split; [right|apply normalize_spec; lia].
      destruct z as [|p|p]; [lia|lia|]. simpl. unfold binary_round. destruct (shl_align _ _ _) as [mz e2]. unfold binary_round_aux.
      destruct (shr_fexp _ _ _ _ _) as [r1 e3]. destruct (shr_fexp _ _ _ _ _) as [r2 e4]. destruct (shr_m r2); [done| |done]. by destruct (_ <=? _).
Qed.

(** The time a frame adds. *)
Lemma frame_dt_units raw r :
  (raw = r \/ raw = fneg r) -> (r = S754_infinity false \/ nonneg_ok r) ->
  nonneg_ok (clamp raw f0 MAX_FRAME_DT) /\ units (clamp raw f0 MAX_FRAME_DT) <= 2 ^ 1074.
Proof.
  intros Hr Hok. unfold clamp. rewrite (eq_refl : fle f0 MAX_FRAME_DT = true).
  assert (Hmax : nonneg_ok MAX_FRAME_DT /\ units MAX_FRAME_DT <= 2 ^ 1074).
  { assert (Hs : step_ok MAX_FRAME_DT = true) by (vm_compute; reflexivity). apply step_ok_units in Hs as [? ?]. split; [done|lia]. }
  destruct (flt raw f0) eqn:E1; [by split; [|vm_compute]|]. destruct (flt MAX_FRAME_DT raw) eqn:E2; [done|].
  assert (Hraw : nonneg_ok raw).
  { destruct Hr as [-> | ->], Hok as [-> |Hok]; try done. destruct r as [| | |[] m e]; done. }
  split; [done|]. etrans; [|apply Hmax]. apply fle_units; [done|apply Hmax|]. apply flt_false_le; [by vm_compute|by destruct raw|done].
Qed.

(** The loop takes a step off the accumulator until less than a step is left. *)
Lemma loop_returns nominal step c :
  step_ok step = true -> nonneg_ok (accumulator c) -> units (accumulator c) <= 2 ^ 1075 ->
  exists n, forall fuel, (n <= fuel)%nat ->
    let '(_, c', exited) := advance_loop fuel nominal step c in
    exited = true /\ nonneg_ok (accumulator c') /\ units (accumulator c') <= 2 ^ 1074.
Proof.
  intros [Hs Hsu]%step_ok_units. remember (Z.to_nat (units (accumulator c))) as k eqn:Hk. revert c Hk.
  induction (lt_wf k) as [k _ IH]. intros c -> Hok Hu. destruct (fle step (accumulator c)) eqn:E.
  - apply fle_units in E; [|done|done].
    destruct (fsub_falls (accumulator c) step 1075) as [Hok' Hlt]; [done|done|done|done|lia|simpl; lia|].
    set (c1 := MkClock (simRate c) (fadd (localTick c) (of_Z 1)) (fsub (accumulator c) step) (lastNow c) (targetLeadSeconds c)
                 (fadd (currentLeadSeconds c) (fsub nominal step)) (epoch c)).
    pose proof (units_nonneg _ Hok') as H0.
    destruct (IH (Z.to_nat (units (accumulator c1)))) with (c := c1) as [n Hn]; [cbn [accumulator c1]; lia|done|exact Hok'|cbn [accumulator c1]; lia|].
    exists (S n). intros [|fuel] Hf; [lia|]. cbn [advance_loop]. apply (fle_units step (accumulator c)) in E; [|done|done]. rewrite E. fold c1.
    specialize (Hn fuel ltac:(lia)). by destruct (advance_loop fuel nominal step c1) as [[out c'] b].
  - exists 0%nat. intros fuel _. destruct fuel; cbn [advance_loop]; rewrite E; split_and!; try done.
    all: destruct (Z.le_gt_cases (units step) (units (accumulator c))) as [Hle|Hgt]; [|lia].
    all: apply (fle_units step (accumulator c) Hs Hok) in Hle; congruence.
Qed.

(** The clocks a session's completed frames, samples and stalls reach. *)
Inductive clock_reached (rate : num) : ClientClock -> Prop :=
  | cr_new snapshotTick rtt : clock_reached rate (new_clock rate snapshotTick rtt)
  | cr_advance fuel now c c' out : clock_reached rate c -> is_double now -> clock_advance fuel now c = (out, c', true) -> clock_reached rate c'
  | cr_sample s c : clock_reached rate c -> clock_reached rate (sample s c)
  | cr_bump c : clock_reached rate c -> clock_reached rate (bumpEpoch c).

Record clock_ok (rate : num) (c : ClientClock) : Prop := {
  ck_rate : simRate c = rate;
  ck_last : forall t, lastNow c = Some t -> is_double t /\ isFinite t = true;
  ck_acc : nonneg_ok (accumulator c) /\ units (accumulator c) <= 2 ^ 1074;
}.

Lemma nudged_step rate c : rate_ok rate = true -> simRate c = rate -> step_ok (fmul (fdiv (of_Z 1) (simRate c)) (nudgeScale c)) = true.
Proof.
  unfold rate_ok. cbn [forallb]. intros [H1 [H2 [H3 _]%andb_prop]%andb_prop]%andb_prop ->. unfold nudgeScale.
  destruct (fle _ _); [done|]. by destruct (flt _ _). 
Qed.

Lemma take_time_ok rate c now :
  clock_ok rate c -> is_double now -> isFinite now = true ->
  nonneg_ok (accumulator (take_time now c)) /\ units (accumulator (take_time now c)) <= 2 ^ 1075.
Proof.
  intros [Hr Hl [Ha Hu]] Hd Hf. unfold take_time. cbn [accumulator].
  set (raw := match lastNow c with None => f0 | Some last => fsub now last end).
  assert (Hraw : exists r, (raw = r \/ raw = fneg r) /\ (r = S754_infinity false \/ nonneg_ok r)).
  { unfold raw. destruct (lastNow c) as [last|] eqn:El; [|exists f0; split; [by left|by right]].
    destruct (Hl last eq_refl). by apply fsub_double. }
  destruct Hraw as (r & H1 & H2). destruct (frame_dt_units raw r H1 H2) as [Hok Hu2].
  apply (fadd_bound (accumulator c) (clamp raw f0 MAX_FRAME_DT) 1 1); [done|done|lia|lia|].
  change (2 ^ (1 + 1074)) with (2 * 2 ^ 1074). lia.
Qed.

(** One frame, given enough iterations, exits and leaves less than a step's time. *)
Lemma frame_returns rate c now :
  rate_ok rate = true -> clock_ok rate c -> is_double now ->
  exists n, forall fuel, (n <= fuel)%nat -> let '(_, c', exited) := clock_advance fuel now c in exited = true /\ clock_ok rate c'.
Proof.
  intros Hrate Hc Hd. unfold clock_advance. destruct (isFinite now) eqn:Hf; [|by exists 0%nat].
  destruct (take_time_ok rate c now Hc Hd Hf) as [Ha Hu]. cbv zeta.
  destruct (loop_returns (fdiv (of_Z 1) (simRate (take_time now c))) (fmul (fdiv (of_Z 1) (simRate (take_time now c))) (nudgeScale (take_time now c)))
    (take_time now c)) as [n Hn]; [by apply (nudged_step rate); [|apply Hc]|done|done|].
  exists n. intros fuel Hfuel. specialize (Hn fuel Hfuel).
  match type of Hn with context [advance_loop fuel ?nm ?st ?c1] => pose proof (advance_loop_keeps fuel nm st c1) as Hk; destruct (advance_loop fuel nm st c1) as [[out c'] b] end.
  destruct Hn as (-> & Hok' & Hu'), Hk as (H1 & _ & _ & H2). split; [done|]. destruct Hc as [Hr Hl _]. split; [by rewrite H1| |done].
  intros t. rewrite H2. cbn. by intros [= <-].
Qed.

(** Two runs of one loop that both exit agree. *)
Lemma loop_exits_once nominal step : forall f1 f2 c o1 c1 o2 c2,
  advance_loop f1 nominal step c = (o1, c1, true) -> advance_loop f2 nominal step c = (o2, c2, true) -> c1 = c2.
Proof.
  induction f1 as [|f1 IH]; intros f2 c o1 c1 o2 c2 H1 H2; destruct f2; cbn [advance_loop] in *; destruct (fle step (accumulator c)); try congruence.
  match type of H1 with context [advance_loop f1 nominal step ?c0] => destruct (advance_loop f1 nominal step c0) as [[a b] e] eqn:E1 end.
  match type of H2 with context [advance_loop f2 nominal step ?c0] => destruct (advance_loop f2 nominal step c0) as [[a' b'] e'] eqn:E2 end.
  injection H1 as _ <- ->. injection H2 as _ <- ->. by apply (IH _ _ _ _ _ _ E1 E2).
Qed.

Lemma clock_reached_ok rate c : rate_ok rate = true -> clock_reached rate c -> clock_ok rate c.
Proof.
  intros Hrate. induction 1 as [t rtt|fuel now c c' out _ Hc Hnow Hadv|s c _ [Hr Hl Ha]|c _ [Hr Hl Ha]]; [by split| |by split|by split].
  destruct (frame_returns rate c now Hrate Hc Hnow) as [n Hn]. specialize (Hn n (le_n n)). unfold clock_advance in *.
  destruct (isFinite now) eqn:Hf; [|by injection Hadv as _ <-]. cbv zeta in *.
  destruct (advance_loop n _ _ _) as [[out1 c1] b] eqn:E. destruct Hn as [-> Hok]. by rewrite (loop_exits_once _ _ _ _ _ _ _ _ _ Hadv E).
Qed.

(** C24. Every display frame returns. At a rate whose tick lasts between [2^-51] seconds and
    one, nudged either way, from any clock that completed frames, samples and stalls reach
    and at any display time, the loop that turns the frame's time into ticks exits. *)
Theorem clock_frame_returns (rate : num) (c : ClientClock) (now : num) :
  rate_ok rate = true -> clock_reached rate c -> is_double now ->
  exists n, forall fuel, (n <= fuel)%nat -> (clock_advance fuel now c).2 = true.
Proof.
  intros Hrate Hc Hd. destruct (frame_returns rate c now Hrate (clock_reached_ok rate c Hrate Hc) Hd) as [n Hn].
  exists n. intros fuel Hf. specialize (Hn fuel Hf). destruct (clock_advance fuel now c) as [[out c'] b]. by destruct Hn.
Qed.

Lemma clock_frame_returns_witness :
  rate_ok (of_Z 60) = true /\ rate_ok (of_Z 20) = true
  /\ exists n, forall fuel, (n <= fuel)%nat -> (clock_advance fuel (dec 5 (-2)) (new_clock (of_Z 60) f0 f0)).2 = true.
Proof.
  split; [by vm_compute|]. split; [by vm_compute|].
  exact (clock_frame_returns (of_Z 60) (new_clock (of_Z 60) f0 f0) (dec 5 (-2)) eq_refl (cr_new _ f0 f0) eq_refl).
Defined.
