(* ===== verification/Movement.v ===== *)
(** * Movement ([packages/core/src/runtime/movement.ts, movement-pass.ts, physics.ts, seams.ts],
    [stepMovements] of [packages/core/src/input-fold.ts])

    A player's movement turns the intent the input pass filled in into velocity and moves
    its avatar's transform by it, inside the dispatcher's guard. Both endpoints run the
    pass, the client over the entities it predicts, tick after tick again after a rewind.

    The classes are the two the engine ships. A creator's subclass overrides their hooks
    with code of its own, which may do anything a script may: the guard that runs it is
    the one of [Dispatcher], and nothing here is said of what such code does. *)

From stdpp Require Import functions.
From S2P Require Import Prelude JsMap JsNum JsInt Json Handle SlotTable TagIndex TransformStore EntityTable.
From S2P Require Import ScopeTree Metadata Hosts Breaker Dispatcher Session.

Local Open Scope Z_scope.

(** ** Vectors and the physics sink *)

Record Vec3 := MkVec { vx : num; vy : num; vz : num }.
Definition vec0 : Vec3 := MkVec f0 f0 f0.
Definition vec3LengthSq (v : Vec3) : num := fadd (fadd (fmul (vx v) (vx v)) (fmul (vy v) (vy v))) (fmul (vz v) (vz v)).
Definition vec3Length (v : Vec3) : num := fsqrt (vec3LengthSq v).

Record Blocked := MkBlocked { up : bool; down : bool; left_ : bool; right_ : bool; forward : bool; back : bool }.
Definition noBlocked : Blocked := MkBlocked false false false false false false.

(** [NullPhysicsSink.move]. *)
Definition null_move (t : SimTransformStore) (id : EntityId) (dt : num) (v : Vec3) : SimTransformStore * Blocked :=
  (setPosition t id (fadd (posX t id) (fmul (vx v) dt)) (fadd (posY t id) (fmul (vy v) dt)) (fadd (posZ t id) (fmul (vz v) dt)), noBlocked).

(** ** A body *)

Record Body := MkBody { velocity : Vec3; intent : Vec3; force : Vec3; blocked : Blocked; enabled : bool; maxSpeed : num }.
Definition new_body : Body := MkBody vec0 vec0 vec0 noBlocked true (of_Z 600).

Definition setVelocity (b : Body) (x y z : num) : Body := MkBody (MkVec x y z) (intent b) (force b) (blocked b) (enabled b) (maxSpeed b).
Definition setIntent (b : Body) (x y z : num) : Body := MkBody (velocity b) (MkVec x y z) (force b) (blocked b) (enabled b) (maxSpeed b).
Definition set_force (b : Body) (f : Vec3) : Body := MkBody (velocity b) (intent b) f (blocked b) (enabled b) (maxSpeed b).
Definition set_blocked (b : Body) (k : Blocked) : Body := MkBody (velocity b) (intent b) (force b) k (enabled b) (maxSpeed b).
Definition fillIntent (b : Body) (x y z : num) : Body := setIntent b x y z.
Definition impulse (b : Body) (x y z : num) : Body :=
  setVelocity b (fadd (vx (velocity b)) x) (fadd (vy (velocity b)) y) (fadd (vz (velocity b)) z).
Definition addForce (b : Body) (x y z : num) : Body :=
  set_force b (MkVec (fadd (vx (force b)) x) (fadd (vy (force b)) y) (fadd (vz (force b)) z)).
Definition stop (b : Body) : Body := setIntent (setVelocity b f0 f0 f0) f0 f0 f0.
Definition speed (b : Body) : num := vec3Length (velocity b).

(** The hooks of [BaseMovement] a subclass may keep. *)
Definition base_readIntent (b : Body) : Vec3 := if enabled b then intent b else vec0.

Definition base_applyForces (dt : num) (b : Body) : Body :=
  let v := velocity b in
  let f := force b in
  set_force (setVelocity b (fadd (vx v) (fmul (vx f) dt)) (fadd (vy v) (fmul (vy f) dt)) (fadd (vz v) (fmul (vz f) dt))) vec0.

Definition base_clampSpeed (b : Body) : Body :=
  let s := speed b in
  if flt (maxSpeed b) s && flt f0 s then
    let k := fdiv (maxSpeed b) s in
    setVelocity b (fmul (vx (velocity b)) k) (fmul (vy (velocity b)) k) (fmul (vz (velocity b)) k)
  else b.

(** ** Classes *)

(** The two classes the engine ships. *)
Inductive Shipped :=
  | TopDownMovement (walkSpeed : num)
  | PlatformerMovement (walkSpeed gravity jumpStrength acceleration friction : num).

Definition topDown : Shipped := TopDownMovement (of_Z 300).
Definition platformer : Shipped := PlatformerMovement (of_Z 260) (of_Z 1400) (of_Z 520) (of_Z 2600) (of_Z 3000).

Definition grounded (b : Body) : bool := down (blocked b).

Definition shipped_accelerate (i : Vec3) (dt : num) (b : Body) (k : Shipped) : Body :=
  match k with
  | TopDownMovement ws => setVelocity b (fmul (vx i) ws) (fmul (vy i) ws) f0
  | PlatformerMovement ws _ _ acceleration friction =>
      let target := fmul (vx i) ws in
      let rate := if negb (feq (vx i) f0) then acceleration else friction in
      setVelocity b (approach (vx (velocity b)) target (fmul rate dt)) (vy (velocity b)) f0
  end.

Definition shipped_applyForces (dt : num) (b : Body) (k : Shipped) : Body :=
  base_applyForces dt
    (match k with
     | PlatformerMovement _ gravity _ _ _ => if negb (grounded b) then addForce b f0 (fneg gravity) f0 else b
     | TopDownMovement _ => b
     end).

(** [PlatformerMovement.jump], its [@onEvent('jump')]. *)
Definition jump (b : Body) (k : Shipped) : Body :=
  match k with
  | PlatformerMovement _ _ jumpStrength _ _ => if grounded b then setVelocity b (vx (velocity b)) jumpStrength f0 else b
  | TopDownMovement _ => b
  end.

(** ** The pass *)

(** A player's movement instance: the host it was attached to, who its throws are charged
    to, its body and its fields. *)
Record Mover := MkMover { mv_host : EntityId; mv_owner : option GuardOwner; mv_body : Body; mv_fields : Shipped }.

Record PlayerSlot := MkPlayer { pl_id : jstr; movement : option Mover }.

Record Field := MkField { store : SimTransformStore; table : EntityTable; players : list PlayerSlot }.

Definition set_store (w : Field) (t : SimTransformStore) : Field := MkField t (table w) (players w).
Definition set_players (w : Field) (l : list PlayerSlot) : Field := MkField (store w) (table w) l.

(** The stages of [tick] before the move: none of the shipped ones throws. *)
Definition stages (dt : num) (b : Body) (k : Shipped) : Body :=
  base_clampSpeed (shipped_applyForces dt (shipped_accelerate (base_readIntent b) dt b k) k).

Definition movement_tick (dt : num) (m : Mover) (t : SimTransformStore) : Mover * SimTransformStore :=
  let b := stages dt (mv_body m) (mv_fields m) in
  let '(t, blk) := null_move t (mv_host m) dt (velocity b) in
  (MkMover (mv_host m) (mv_owner m) (set_blocked b blk) (mv_fields m), t).

(** The [n]th player's movement ticked. *)
Definition tick_nth (dt : num) (n : nat) (m : Mover) (w : Field) : Field :=
  let '(m, t) := movement_tick dt m (store w) in
  MkField t (table w) (alter (fun p => MkPlayer (pl_id p) (Some m)) n (players w)).

Section Guarded.
Context (script : nat -> ScriptInstance) (code : ScriptInstance -> jstr -> DispatchCtx -> creator Field).
Context (engineStack : option jstr) (fuel : nat).
(** [rt.tick]. *)
Context (now : Z).

Definition tick_site (host : EntityId) : GuardSite := MkSite (js "tick") (entityKey host) now (js "@movement").

(** What the guard runs. *)
Definition tick_code (dt : num) (n : nat) (m : Mover) : creator Field :=
  Act (tick_nth dt n m) (Return Value).

Definition tickMovement (dt : num) (n : nat) (m : Mover) (s : Engine Field) : Engine Field :=
  (guard script code engineStack fuel (mv_owner m) (tick_site (mv_host m)) (tick_code dt n m) s).2.

Definition step_player (dt : num) (scope : option (list EntityId)) (s : Engine Field) (n : nat) : Engine Field :=
  match players (world s) !! n ≫= movement with
  | None => s
  | Some m =>
      if negb (EntityTable.isAlive (table (world s)) (mv_host m)) then s
      else if match scope with Some ids => negb (bool_decide (mv_host m ∈ ids)) | None => false end then s
      else tickMovement dt n m s
  end.

Definition stepMovements (dt : num) (scope : option (list EntityId)) (s : Engine Field) : Engine Field :=
  foldl (step_player dt scope) s (seq 0 (length (players (world s)))).

(** The input pass fills each player's intent in. *)
Definition fill (axes : jstr -> num * num) (w : Field) : Field :=
  set_players w ((fun p => MkPlayer (pl_id p)
    ((fun m => MkMover (mv_host m) (mv_owner m) (fillIntent (mv_body m) (axes (pl_id p)).1 (axes (pl_id p)).2 f0) (mv_fields m)) <$> movement p)) <$> players w).
End Guarded.

(** The half of the ticks movement needs: each its number and the axes of each player. *)
Definition walk (script : nat -> ScriptInstance) (code : ScriptInstance -> jstr -> DispatchCtx -> creator Field) (engineStack : option jstr)
    (fuel : nat) (dt : num) (scope : option (list EntityId)) (s : Engine Field) (ticks : list (Z * (jstr -> num * num))) : Engine Field :=
  foldl (fun s t => stepMovements script code engineStack fuel t.1 dt scope (with_world s (fill t.2 (world s)))) s ticks.

(** ** What the guard leaves of one tick *)

Section Guard.
Context (script : nat -> ScriptInstance) (code : ScriptInstance -> jstr -> DispatchCtx -> creator Field).
Context (engineStack : option jstr) (fuel : nat) (now : Z).

Definition charge (o : option GuardOwner) (b : BreakerCounters) : BreakerCounters :=
  match o with Some o => (Breaker.recordThrow b (ow_id o) (js "tick")).2 | None => b end.

Definition refused (o : option GuardOwner) (b : BreakerCounters) : bool :=
  match o with Some o => BREAKER_THRESHOLD <=? Breaker.count b (ow_id o) (js "tick") | None => false end.

(** The breaker after the guarded tick: refused, overrun, or run through. *)
Definition breaker_after (o : option GuardOwner) (clock : num) (b : BreakerCounters) : BreakerCounters :=
  if refused o b then b
  else if fle (fsub clock clock) (of_Z MAX_HANDLER_MS) then match o with Some o => recordSuccess b (ow_id o) (js "tick") | None => b end
  else charge o b.

Lemma recordThrow_breaker {W} (o : option GuardOwner) site err (s : Engine W) : site_method site = js "tick" ->
  breaker (Dispatcher.recordThrow o site err s) = charge o (breaker s) /\ world (Dispatcher.recordThrow o site err s) = world s
  /\ clock (Dispatcher.recordThrow o site err s) = clock s.
Proof.
  intros Hm. destruct (recordThrow_spec o site err s) as [[Hw _ _ _ _ _ Hc _ _ _ _ _] _]. split_and!; [|done|done].
  unfold Dispatcher.recordThrow. destruct (note_throw_frame s (match o with Some o => className o | None => js "(engine)" end) site err) as [_ Hb].
  destruct o as [o|]; [|done]. cbn [charge]. rewrite Hb, Hm. destruct (Breaker.recordThrow _ _ _) as [n b]. destruct (n =? _); [|done].
  by rewrite (proj2 (reportTrip_frame _ _)).
Qed.

Lemma tickMovement_spec dt n m (s : Engine Field) :
  let s' := tickMovement script code engineStack fuel now dt n m s in
  world s' = (if refused (mv_owner m) (breaker s) then world s else tick_nth dt n m (world s)) /\ clock s' = clock s
  /\ breaker s' = breaker_after (mv_owner m) (clock s) (breaker s).
Proof.
  cbv zeta. unfold tickMovement, guard, guard_with, breaker_after, refused. cbn [site_method tick_site].
  destruct (match mv_owner m with Some _ => _ | None => false end); [done|].
  set (sb := match mv_owner m with None => (None, s) | Some o => _ end).
  assert (Hsb : world sb.2 = world s /\ clock sb.2 = clock s /\ breaker sb.2 = breaker s).
  { unfold sb. destruct (mv_owner m) as [o|]; [|done]. unfold begin. by destruct (createInvocation _ _ _ _ _). }
  destruct sb as [scope s1]. cbn [snd] in Hsb. destruct Hsb as (Hw & Hc & Hb).
  unfold tick_code. cbn [exec world setCurrentInvocation]. rewrite Hw. set (w' := tick_nth dt n m (world s)).
  set (s2 := with_world (setCurrentInvocation s1 scope) w').
  set (s3 := match scope with Some id => complete id _ | None => _ end).
  assert (H3 : world s3 = w' /\ clock s3 = clock s /\ breaker s3 = breaker s) by (unfold s3; by destruct scope).
  destruct H3 as (H31 & H32 & H33). unfold chargeOverrun. rewrite H32. cbn [clock setCurrentInvocation]. rewrite Hc.
  destruct (fle _ _).
  - destruct (mv_owner m); cbn; rewrite ?H31, ?H32, ?H33; done.
  - match goal with |- context [Dispatcher.recordThrow ?o ?st ?e s3] => destruct (recordThrow_breaker o st e s3 eq_refl) as (E1 & E2 & E3) end.
    cbn [snd]. rewrite E1, E2, E3. by rewrite H31, H32, H33.
Qed.
End Guard.

(** ** Who a pass may move *)

Section Frame.

(** The host of a movement, if the pass ticks it: alive and inside the scope. *)
Definition ticked (scope : option (list EntityId)) (t : EntityTable) (id : EntityId) : bool :=
  EntityTable.isAlive t id && match scope with Some ids => bool_decide (id ∈ ids) | None => true end.

Definition hosts_of (w : Field) : list (jstr * option EntityId) := (fun p => (pl_id p, mv_host <$> movement p)) <$> players w.

(** [w'] is [w] but for the slots of the entities ticked and the movements. *)
Record stayed (scope : option (list EntityId)) (w w' : Field) : Prop := {
  sy_table : table w' = table w;
  sy_hosts : hosts_of w' = hosts_of w;
  sy_count : TransformStore.count (store w') = TransformStore.count (store w);
  sy_at : forall j, (forall id, (Some id) ∈ (hosts_of w).*2 -> ticked scope (table w) id = true -> entityIndex id <> j) ->
    at_ (lanes (store w')) j = at_ (lanes (store w)) j;
}.

Lemma stayed_refl scope w : stayed scope w w.
Proof. by split. Qed.

Lemma stayed_trans scope w1 w2 w3 : stayed scope w1 w2 -> stayed scope w2 w3 -> stayed scope w1 w3.
Proof.
  intros [H1 H2 H3 H4] [J1 J2 J3 J4]. split; [congruence..|].
  intros j Hj. rewrite J4, H4; [done|done|]. by rewrite H1, H2.
Qed.

Lemma set_position_at t id x y z j : entityIndex id <> j -> at_ (lanes (setPosition t id x y z)) j = at_ (lanes t) j.
Proof. intros Hj. unfold at_, setPosition. cbn. by rewrite !arr_get_set_ne. Qed.

Lemma tick_nth_stayed scope dt n m (w : Field) :
  players w !! n ≫= movement = Some m -> ticked scope (table w) (mv_host m) = true -> stayed scope w (tick_nth dt n m w).
Proof.
  intros Hm Ht. destruct (players w !! n) as [p|] eqn:Hp; [|done]. cbn in Hm.
  assert (Hpl : hosts_of w !! n = Some (pl_id p, Some (mv_host m))).
  { unfold hosts_of. rewrite list_lookup_fmap, Hp. cbn. by rewrite Hm. }
  split; [done| |done|].
  - apply list_eq. intros i. unfold hosts_of. cbn. rewrite !list_lookup_fmap. destruct (decide (i = n)) as [->|Hi].
    + rewrite list_lookup_alter, Hp, decide_True by done. csimpl. by rewrite Hm.
    + by rewrite list_lookup_alter, decide_False by congruence.
  - intros j Hj. cbn. apply set_position_at, Hj; [|done]. apply list_elem_of_fmap. exists (pl_id p, Some (mv_host m)). split; [done|]. by eapply list_elem_of_lookup_2.
Qed.

Context (script : nat -> ScriptInstance) (code : ScriptInstance -> jstr -> DispatchCtx -> creator Field).
Context (engineStack : option jstr) (fuel : nat) (now : Z).

Lemma step_player_stayed dt scope (s : Engine Field) n :
  stayed scope (world s) (world (step_player script code engineStack fuel now dt scope s n)).
Proof.
  unfold step_player. destruct (players (world s) !! n ≫= movement) as [m|] eqn:Hm; [|apply stayed_refl].
  destruct (EntityTable.isAlive _ _) eqn:Ha; cbn [negb]; [|apply stayed_refl].
  destruct (match scope with Some ids => _ | None => false end) eqn:Hs; [apply stayed_refl|].
  destruct (tickMovement_spec script code engineStack fuel now dt n m s) as (Hw & _). rewrite Hw. case_match; [apply stayed_refl|].
  apply tick_nth_stayed; [done|]. unfold ticked. rewrite Ha. destruct scope; [|done]. by apply negb_false_iff in Hs.
Qed.

Lemma steps_stayed dt scope ns : forall s : Engine Field,
  stayed scope (world s) (world (foldl (step_player script code engineStack fuel now dt scope) s ns)).
Proof.
  induction ns as [|n ns IH]; intros s; [apply stayed_refl|]. cbn [foldl]. eapply stayed_trans; [apply step_player_stayed|apply IH].
Qed.
End Frame.

(** ** What a pass does *)










Section Exact.
Context (script : nat -> ScriptInstance) (code : ScriptInstance -> jstr -> DispatchCtx -> creator Field).
Context (engineStack : option jstr) (fuel : nat) (now : Z) (dt : num) (scope : option (list EntityId)).

Abbreviation step := (step_player script code engineStack fuel now dt scope).


End Exact.


#[local] Arguments setPosition : simpl never.
#[local] Arguments posX : simpl never.
#[local] Arguments posY : simpl never.
#[local] Arguments posZ : simpl never.

Lemma set_position_spec t id x y z : TransformStore.wf t -> 0 < id -> entityIndex id < TransformStore.count t ->
  TransformStore.wf (setPosition t id x y z) /\ forall j, at_ (lanes (setPosition t id x y z)) j
    = if entityIndex id =? j then let a := at_ (lanes t) j in MkTransform x y z (t_rot a) (t_scale a) (t_opacity a) (t_layer a) else at_ (lanes t) j.
Proof.
  intros Hw Hid Hi. pose (sp := TransformStore.MkSpec (at_ (lanes t)) (TransformStore.count t) (dirty t)).
  destruct (TransformStore.run_op_implements t sp (OPosition id x y z)) as [H1 H2 _ _]; [by split|by split|]. split; [exact H1|].
  intros j. cbn in H2. rewrite H2. destruct (entityIndex id =? j) eqn:E; bool_facts; [subst; by rewrite fn_lookup_insert|by rewrite fn_lookup_insert_ne].
Qed.







(** ** Properties *)


(** ** Walking again after a rewind *)

(** Two bodies that differ in what a walker's tick does not read. *)
Definition walkers (b1 b2 : Body) : Prop :=
  force b1 = vec0 /\ force b2 = vec0 /\ enabled b1 = enabled b2 /\ maxSpeed b1 = maxSpeed b2.

Record alike_mover (P : Body -> Body -> Prop) (m1 m2 : Mover) : Prop := {
  am_host : mv_host m1 = mv_host m2; am_owner : mv_owner m1 = mv_owner m2; am_fields : mv_fields m1 = mv_fields m2;
  am_walks : exists ws, mv_fields m1 = TopDownMovement ws; am_body : P (mv_body m1) (mv_body m2);
}.

Definition alike_player (P : Body -> Body -> Prop) (p q : PlayerSlot) : Prop :=
  pl_id p = pl_id q /\ option_Forall2 (alike_mover P) (movement p) (movement q).

(** Each avatar holds a slot. *)
Definition slotted (w : Field) : Prop := forall id, Some id ∈ (hosts_of w).*2 -> 0 < id /\ entityIndex id < TransformStore.count (store w).

Record alike (P : Body -> Body -> Prop) (s1 s2 : Engine Field) : Prop := {
  al_at : forall j, at_ (lanes (store (world s1))) j = at_ (lanes (store (world s2))) j;
  al_wf : TransformStore.wf (store (world s1)) /\ TransformStore.wf (store (world s2));
  al_count : TransformStore.count (store (world s1)) = TransformStore.count (store (world s2));
  al_table : table (world s1) = table (world s2);
  al_players : Forall2 (alike_player P) (players (world s1)) (players (world s2));
  al_slots : slotted (world s1);
  al_breaker : breaker s1 = breaker s2;
  al_clock : clock s1 = clock s2;
}.

Definition with_intent (b1 b2 : Body) : Prop := walkers b1 b2 /\ intent b1 = intent b2.

Lemma walk_stages dt ws b1 b2 : with_intent b1 b2 ->
  let r1 := stages dt b1 (TopDownMovement ws) in
  let r2 := stages dt b2 (TopDownMovement ws) in
  velocity r1 = velocity r2 /\ with_intent r1 r2 /\ walkers b1 r1.
Proof.
  destruct b1 as [v1 i1 g1 k1 e1 m1], b2 as [v2 i2 g2 k2 e2 m2]. unfold with_intent, walkers. cbn. intros [(-> & -> & -> & ->) ->].
  unfold stages, base_clampSpeed, base_readIntent. cbn. destruct (flt _ _ && _); cbn; by split_and!.
Qed.

Lemma hosts_alike P w1 w2 : Forall2 (alike_player P) (players w1) (players w2) -> hosts_of w1 = hosts_of w2.
Proof.
  unfold hosts_of. induction 1 as [|p q l k [H1 H2] _ IH]; [done|]. cbn. rewrite IH, H1. f_equal. f_equal.
  destruct H2 as [m1 m2 []|]; cbn; [by f_equal|done].
Qed.

Lemma alike_lookup P w1 w2 n : Forall2 (alike_player P) (players w1) (players w2) ->
  option_Forall2 (alike_mover P) (players w1 !! n ≫= movement) (players w2 !! n ≫= movement).
Proof.
  intros Hp.
  destruct (players w1 !! n) as [p|] eqn:E1.
  - destruct (Forall2_lookup_l _ _ _ _ _ Hp E1) as (q & E2 & [_ Hm]). by rewrite E2.
  - destruct (players w2 !! n) as [q|] eqn:E2; [|constructor]. destruct (Forall2_lookup_r _ _ _ _ _ Hp E2) as (p & E3 & _). congruence.
Qed.

(** One walker ticked in both. *)
Lemma tick_nth_alike dt n m1 m2 (s1 s2 : Engine Field) :
  alike with_intent s1 s2 -> players (world s1) !! n ≫= movement = Some m1 -> players (world s2) !! n ≫= movement = Some m2 ->
  let r1 := tick_nth dt n m1 (world s1) in
  let r2 := tick_nth dt n m2 (world s2) in
  forall s1' s2', world s1' = r1 -> world s2' = r2 -> breaker s1' = breaker s2' -> clock s1' = clock s2' -> alike with_intent s1' s2'.
Proof.
  intros [Hat [Hw1 Hw2] Hc Ht Hp Hs Hb Hk] E1 E2. cbv zeta.
  pose proof (alike_lookup _ _ _ n Hp) as Hm. rewrite E1, E2 in Hm. inversion Hm as [? ? [Hh Ho Hf (ws & Hws) Hbd]|]; subst.
  assert (Hin : Some (mv_host m1) ∈ (hosts_of (world s1)).*2).
  { destruct (players (world s1) !! n) as [p|] eqn:Ep; [|done]. cbn in E1. apply list_elem_of_fmap. exists (pl_id p, Some (mv_host m1)).
    split; [done|]. apply list_elem_of_lookup. exists n. unfold hosts_of. rewrite list_lookup_fmap, Ep. cbn. by rewrite E1. }
  pose proof (Hs _ Hin) as [Hid Hix]. unfold tick_nth, movement_tick.
  pose proof (walk_stages dt ws _ _ Hbd) as Hst. rewrite <- Hf, Hws.
  set (b1 := stages dt (mv_body m1) _) in *. set (b2 := stages dt (mv_body m2) _) in *.
  destruct Hst as (Hv & Hwi & _). cbn [null_move fst snd]. intros s1' s2' W1 W2 Hb' Hk'.
  pose proof (set_position_spec (store (world s1)) (mv_host m1)) as P1. pose proof (set_position_spec (store (world s2)) (mv_host m2)) as P2.
  rewrite <- Hh in *. split; rewrite ?W1, ?W2; cbn; try done.
  - intros j. rewrite <- Hv.
    assert (Hpos : forall t id, posX t id = t_x (at_ (lanes t) (entityIndex id)) /\ posY t id = t_y (at_ (lanes t) (entityIndex id)) /\ posZ t id = t_z (at_ (lanes t) (entityIndex id)))
      by done.
    destruct (Hpos (store (world s1)) (mv_host m1)) as (-> & -> & ->). destruct (Hpos (store (world s2)) (mv_host m1)) as (-> & -> & ->).
    rewrite (proj2 (P1 _ _ _ Hw1 Hid Hix)), (proj2 (P2 _ _ _ Hw2 Hid ltac:(by rewrite <- Hc))), !Hat. done.
  - split; [by apply P1|by apply P2; rewrite <- ?Hc].
  - apply Forall2_alter; [done|]. intros p q Ep Eq [Hpq _]. split; [done|]. cbn. constructor. split; cbn; try done; by exists ws.
  - intros id Hid'. unfold slotted in Hs. apply Hs. revert Hid'. unfold hosts_of. cbn. rewrite !list_elem_of_fmap.
    intros ((i, h) & -> & Hi). exists (i, h). split; [done|]. rewrite list_elem_of_fmap in *. destruct Hi as (q & [= -> ->] & Hq).
    apply list_elem_of_lookup in Hq as [x Hx]. destruct (decide (x = n)) as [->|Hne].
    + rewrite list_lookup_alter, decide_True in Hx by done. destruct (players (world s1) !! n) as [p|] eqn:Ep; [|done]. cbn in E1. injection Hx as <-.
      exists p. cbn. rewrite E1. split; [done|by eapply list_elem_of_lookup_2].
    + rewrite list_lookup_alter, decide_False in Hx by congruence. exists q. split; [done|by eapply list_elem_of_lookup_2].
Qed.

Section Walk.
Context (script : nat -> ScriptInstance) (code : ScriptInstance -> jstr -> DispatchCtx -> creator Field).
Context (engineStack : option jstr) (fuel : nat) (dt : num) (scope : option (list EntityId)).

Lemma step_player_alike now s1 s2 n : alike with_intent s1 s2 ->
  alike with_intent (step_player script code engineStack fuel now dt scope s1 n) (step_player script code engineStack fuel now dt scope s2 n).
Proof using.
  intros Ha. pose proof (alike_lookup _ _ _ n (al_players _ _ _ Ha)) as Hm. unfold step_player.
  destruct (players (world s1) !! n ≫= movement) as [m1|] eqn:E1; inversion Hm as [? m2 Hmm Q1 Q2|]; subst; [|done].
  rewrite <- (am_host _ _ _ Hmm), <- (al_table _ _ _ Ha). destruct (negb (EntityTable.isAlive _ _)); [done|]. destruct (match scope with Some _ => _ | None => _ end); [done|].
  pose proof (tick_nth_alike dt n m1 m2 s1 s2 Ha E1 (eq_sym Q2)) as Hal. cbv zeta in Hal.
  destruct (tickMovement_spec script code engineStack fuel now dt n m1 s1) as (W1 & C1 & B1).
  destruct (tickMovement_spec script code engineStack fuel now dt n m2 s2) as (W2 & C2 & B2).
  rewrite <- (am_owner _ _ _ Hmm), <- (al_breaker _ _ _ Ha), <- ?(al_clock _ _ _ Ha) in *.
  destruct (refused (mv_owner m1) (breaker s1)).
  - destruct Ha. split; rewrite ?W1, ?W2, ?C1, ?C2, ?B1, ?B2; done.
  - apply Hal; congruence.
Qed.

Lemma steps_alike now ns : forall s1 s2, alike with_intent s1 s2 ->
  alike with_intent (foldl (step_player script code engineStack fuel now dt scope) s1 ns) (foldl (step_player script code engineStack fuel now dt scope) s2 ns).
Proof using. induction ns as [|n ns IH]; intros s1 s2 Ha; [done|]. by apply IH, step_player_alike. Qed.

Lemma fill_hosts axes (w : Field) : hosts_of (fill axes w) = hosts_of w.
Proof. unfold hosts_of, fill. cbn. rewrite <- list_fmap_compose. apply list_fmap_ext. intros _ [i [m|]] _; done. Qed.

Lemma fill_alike axes s1 s2 : alike walkers s1 s2 ->
  alike with_intent (with_world s1 (fill axes (world s1))) (with_world s2 (fill axes (world s2))).
Proof using.
  intros [H1 H2 H3 H4 H5 H6 H7 H8]. split; cbn; try done.
  - apply Forall2_fmap. eapply Forall2_impl; [exact H5|]. intros p q [Hid Hm]. split; [done|]. cbn.
    destruct Hm as [m1 m2 [J1 J2 J3 J4 J5]|]; constructor. split; cbn; try done. split; [done|]. cbn. by rewrite Hid.
  - intros id. change (hosts_of _) with (hosts_of (fill axes (world s1))). rewrite fill_hosts. apply H6.
Qed.

Lemma walk_alike ticks : forall s1 s2, alike walkers s1 s2 ->
  alike walkers (walk script code engineStack fuel dt scope s1 ticks) (walk script code engineStack fuel dt scope s2 ticks).
Proof using.
  induction ticks as [|[t axes] ticks IH]; intros s1 s2 Ha; [done|]. apply IH. cbn [fst snd]. unfold stepMovements.
  pose proof (fill_alike axes _ _ Ha) as Hf. cbn [world with_world fill set_players players].
  rewrite !length_fmap, (Forall2_length _ _ _ (al_players _ _ _ Ha)).
  destruct (steps_alike t (seq 0 (length (players (world s2)))) _ _ Hf) as [H1 H2 H3 H4 H5 H6 H7 H8]. split; try done.
  eapply Forall2_impl; [exact H5|]. intros p q [Hid Hm]. split; [done|]. destruct Hm as [m1 m2 [J1 J2 J3 J4 [J5 _]]|]; constructor. by split.
Qed.

(** One run: it leaves walkers walkers, and the clock. *)
Lemma step_player_keeps now P0 s n : Forall2 (alike_player walkers) P0 (players (world s)) ->
  let s' := step_player script code engineStack fuel now dt scope s n in
  Forall2 (alike_player walkers) P0 (players (world s')) /\ clock s' = clock s.
Proof using.
  intros Hp. cbv zeta. unfold step_player. destruct (players (world s) !! n ≫= movement) as [m|] eqn:E; [|done].
  destruct (negb _); [done|]. destruct (match scope with Some _ => _ | None => _ end); [done|].
  destruct (tickMovement_spec script code engineStack fuel now dt n m s) as (W & C & _). rewrite W. split; [|done].
  destruct (refused _ _); [done|]. destruct (players (world s) !! n) as [q|] eqn:Eq; [|done]. cbn in E.
  destruct (Forall2_lookup_r _ _ _ _ _ Hp Eq) as (p & Ep & [Hid Hm]). rewrite E in Hm. inversion Hm as [m0 ? [J1 J2 J3 (ws & J4) J5] Q1|]; subst.
  unfold tick_nth, movement_tick. rewrite <- J3, J4.
  assert (Hw : with_intent (mv_body m) (mv_body m)) by (destruct J5 as (_ & ? & _); by split).
  pose proof (walk_stages dt ws _ _ Hw) as Hst. cbv zeta in Hst.
  destruct Hst as (_ & _ & Hwk). cbn [null_move fst players]. apply Forall2_lookup. intros i.
  rewrite list_lookup_alter. destruct (decide (n = i)) as [<-|Hne].
  - rewrite Ep, Eq. cbn. constructor. split; [done|]. cbn. rewrite <- Q1. constructor. split; cbn; try done; [by exists ws|].
    destruct J5 as (F1 & _ & F3 & F4), Hwk as (_ & G2 & G3 & G4). split_and!; cbn; congruence.
  - by apply Forall2_lookup.
Qed.

Lemma walk_keeps ticks : forall P0 s, Forall2 (alike_player walkers) P0 (players (world s)) ->
  let s' := walk script code engineStack fuel dt scope s ticks in
  Forall2 (alike_player walkers) P0 (players (world s')) /\ clock s' = clock s.
Proof using.
  induction ticks as [|[t axes] ticks IH]; intros P0 s Hp; [done|]. cbn [walk foldl fst snd].
  set (s1 := with_world s (fill axes (world s))).
  assert (Hs1 : Forall2 (alike_player walkers) P0 (players (world s1))).
  { cbn. apply Forall2_fmap_r. eapply Forall2_impl; [exact Hp|]. intros p q [Hid Hm]. split; [done|]. cbn.
    destruct Hm as [m1 m2 [J1 J2 J3 J4 J5]|]; constructor. by split. }
  assert (Hst : forall ns s2, Forall2 (alike_player walkers) P0 (players (world s2)) ->
    let s3 := foldl (step_player script code engineStack fuel t dt scope) s2 ns in
    Forall2 (alike_player walkers) P0 (players (world s3)) /\ clock s3 = clock s2).
  { intros ns. induction ns as [|n ns IHn]; intros s2 H2; [done|]. cbn [foldl]. destruct (step_player_keeps t P0 s2 n H2) as [H3 H4].
    destruct (IHn _ H3) as [H5 H6]. split; [done|]. by rewrite H6. }
  destruct (Hst (seq 0 (length (players (world s1)))) s1 Hs1) as [H3 H4]. destruct (IH P0 _ H3) as [H5 H6]. split; [exact H5|]. etransitivity; [exact H6|exact H4].
Qed.

Lemma walk_stands ticks : forall s,
  let w := world s in
  let w' := world (walk script code engineStack fuel dt scope s ticks) in
  table w' = table w /\ hosts_of w' = hosts_of w /\ TransformStore.count (store w') = TransformStore.count (store w)
  /\ forall j, (forall id, Some id ∈ (hosts_of w).*2 -> ticked scope (table w) id = true -> entityIndex id <> j) ->
       at_ (lanes (store w')) j = at_ (lanes (store w)) j.
Proof using.
  induction ticks as [|[t axes] ticks IH]; intros s; [done|]. cbv zeta. cbn [walk foldl fst snd].
  set (s1 := with_world s (fill axes (world s))).
  destruct (steps_stayed script code engineStack fuel t dt scope (seq 0 (length (players (world s1)))) s1) as [H1 H2 H3 H4].
  change (hosts_of (world s1)) with (hosts_of (fill axes (world s))) in H2, H4. rewrite fill_hosts in H2, H4.
  change (foldl _ s1 _) with (stepMovements script code engineStack fuel t dt scope s1) in *.
  destruct (IH (stepMovements script code engineStack fuel t dt scope s1)) as (J1 & J2 & J3 & J4). cbv zeta in *.
  fold (walk script code engineStack fuel dt scope (stepMovements script code engineStack fuel t dt scope s1) ticks).
  rewrite H1, H2 in *. split_and!; [by rewrite J1|by rewrite J2|by rewrite J3, H3|]. intros j Hj. rewrite J4 by done. by rewrite H4.
Qed.
End Walk.

(** A rewind of the transforms and the breaker, as the snapshot's stores give them back:
    what the movement instances hold is no store's. *)
Definition rewound (scope : option (list EntityId)) (s0 s1 : Engine Field) : Engine Field :=
  with_breaker (with_world s1 (set_store (world s1)
    (TransformStore.apply (store (world s1)) (TransformStore.capture (store (world s0)) (TransformStore.createBuffer (store (world s0))) scope))))
    (breaker s0).

(** Avatars with slots and no force owed, moved by [TopDownMovement]. *)
Record walking (s : Engine Field) : Prop := {
  wk_wf : TransformStore.wf (store (world s));
  wk_slots : slotted (world s);
  wk_top : Forall (fun p => forall m, movement p = Some m -> (exists ws, mv_fields m = TopDownMovement ws) /\ force (mv_body m) = vec0) (players (world s));
}.

Lemma walking_alike s : walking s -> Forall2 (alike_player walkers) (players (world s)) (players (world s)).
Proof.
  intros [_ _ Ht]. apply Forall_Forall2_diag. eapply Forall_impl; [exact Ht|]. intros p Hp. split; [done|]. destruct (movement p) as [m|] eqn:E; constructor.
  destruct (Hp m E) as [Hw Hf]. by split.
Qed.

Section Rewound.
Context (script : nat -> ScriptInstance) (code : ScriptInstance -> jstr -> DispatchCtx -> creator Field).
Context (engineStack : option jstr) (fuel : nat) (dt : num) (scope : option (list EntityId)).

Lemma rewound_alike s ticks : walking s -> (forall ids, scope = Some ids -> Forall (fun id => 0 <= entityIndex id) ids) ->
  TransformStore.wf (store (world (walk script code engineStack fuel dt scope s ticks))) ->
  alike walkers (rewound scope s (walk script code engineStack fuel dt scope s ticks)) s.
Proof using.
  intros Hw Hids Hwf. set (s1 := walk script code engineStack fuel dt scope s ticks) in *.
  destruct (walk_stands script code engineStack fuel dt scope ticks s) as (H1 & H2 & H3 & H4). fold s1 in H1, H2, H3, H4.
  destruct (walk_keeps script code engineStack fuel dt scope ticks _ s (walking_alike s Hw)) as [Hk Hc]. fold s1 in Hk, Hc.
  assert (Hb : buffer_wf (TransformStore.createBuffer (store (world s)))) by (eexists; apply fresh_lanes_aligned).
  destruct (TransformStore.apply_spec (store (world s1)) (store (world s)) _ scope Hwf (wk_wf _ Hw) Hb Hids) as (A1 & A2 & _ & A4).
  split; cbn; try done.
  - intros j. rewrite A4. destruct (decide _) as [Hd|Hd]; [done|]. apply H4. intros id Hid Ht <-. apply Hd.
    destruct (wk_slots _ Hw id Hid) as [Hp Hi]. split; [split; [by apply TransformStore.entityIndex_nonneg|done]|].
    apply andb_true_iff in Ht as [_ Ht]. destruct scope as [ids|]; [|done]. bool_facts. by apply list_elem_of_fmap_2.
  - split; [done|apply Hw].
  - rewrite A2, H3. lia.
  - clear -Hk. induction Hk as [|p q l k [Hi Hm] _ IH]; constructor; [|done]. split; [done|].
    destruct Hm as [m1 m2 [J1 J2 J3 (ws & J4) (J5 & J6 & J7 & J8)]|]; constructor. split; try done. exists ws; congruence.
  - intros id Hid. change (hosts_of _) with (hosts_of (world s1)) in Hid. rewrite H2 in Hid. destruct (wk_slots _ Hw id Hid) as [Hp Hi].
    cbn. rewrite A2. lia.
Qed.
End Rewound.

(** C11. Walking again after a rewind is walking once. For avatars moved by
    [TopDownMovement]: whatever ticks were mispredicted, taking the transforms back and
    running the right ticks leaves every transform where running them at once leaves it,
    although the movement instances keep the velocity of the ticks taken back. *)
Theorem walk_replays_exactly (script : nat -> ScriptInstance) (code : ScriptInstance -> jstr -> DispatchCtx -> creator Field)
    (engineStack : option jstr) (fuel : nat) (dt : num) (scope : option (list EntityId)) (s : Engine Field)
    (wrong ticks : list (Z * (jstr -> num * num))) :
  walking s -> (forall ids, scope = Some ids -> Forall (fun id => 0 <= entityIndex id) ids) ->
  let again := walk script code engineStack fuel dt scope (rewound scope s (walk script code engineStack fuel dt scope s wrong)) ticks in
  let once := walk script code engineStack fuel dt scope s ticks in
  breaker again = breaker once /\ forall j, at_ (lanes (store (world again))) j = at_ (lanes (store (world once))) j.
Proof.
  intros Hw Hids. assert (Hself : alike walkers s s) by (split; try done; [by split; apply Hw|by apply walking_alike|apply Hw]).
  pose proof (walk_alike script code engineStack fuel dt scope wrong s s Hself) as Hwf.
  pose proof (rewound_alike script code engineStack fuel dt scope s wrong Hw Hids (proj1 (al_wf _ _ _ Hwf))) as Ha.
  destruct (walk_alike script code engineStack fuel dt scope ticks _ s Ha) as [H1 _ _ _ _ _ H2 _]. by split.
Qed.

(** ** One player, rewound *)

Definition runner : EntityId := packHandle 0 1.

Definition sample_field (k : Shipped) : Field :=
  MkField (setPosition (TransformStore.initSlot TransformStore.new_store runner) runner f0 f0 f0)
    (match EntityTable.create new_entities (js "player") (js "ann") with Ok (_, t) => t | Throw _ => new_entities end)
    [MkPlayer (js "ann") (Some (MkMover runner (Some (MkOwner 1 (js "Run") 0)) new_body k))].

Definition sample_engine (k : Shipped) : Engine Field :=
  MkEngine (sample_field k) new_tree no_counts 0 [] [] None [] None None f0 [] 0 (fun _ => []) false.

Definition nobody : nat -> ScriptInstance := fun _ => MkInstance 0 0 (MkClass [] LSynced None) [] LSynced [] 0 None.
Definition no_code : ScriptInstance -> jstr -> DispatchCtx -> creator Field := fun _ _ _ => Return Value.

(** Two ticks to the right, one to the left. *)
Definition right_twice : list (Z * (jstr -> num * num)) := [(1, fun _ => (of_Z 1, f0)); (2, fun _ => (of_Z 1, f0))].
Definition left_once : list (Z * (jstr -> num * num)) := [(1, fun _ => (of_Z (-1), f0))].

Definition sample_walk (s : Engine Field) (ticks : list (Z * (jstr -> num * num))) : Engine Field :=
  walk nobody no_code None 10 (fdiv f1 (of_Z 60)) (Some [runner]) s ticks.

Lemma walk_replays_exactly_witness :
  let s := sample_engine topDown in
  posX (store (world (sample_walk s right_twice))) runner = of_Z 10
  /\ (breaker (sample_walk (rewound (Some [runner]) s (sample_walk s left_once)) right_twice) = breaker (sample_walk s right_twice)
      /\ forall j, at_ (lanes (store (world (sample_walk (rewound (Some [runner]) s (sample_walk s left_once)) right_twice)))) j
                   = at_ (lanes (store (world (sample_walk s right_twice)))) j).
Proof.
  assert (Hx : posX (store (world (sample_walk (sample_engine topDown) right_twice))) runner = of_Z 10) by (vm_compute; reflexivity).
  assert (Hw : walking (sample_engine topDown)).
  { split.
    - exists 64%nat. split; [|vm_compute; split; discriminate]. split; vm_compute; reflexivity.
    - intros id Hid. apply list_elem_of_singleton in Hid. injection Hid as ->. split; vm_compute; reflexivity.
    - constructor; [|constructor]. intros m [= <-]. split; [by eexists|done]. }
  exact (conj Hx (walk_replays_exactly nobody no_code None 10 (fdiv f1 (of_Z 60)) (Some [runner]) (sample_engine topDown) left_once right_twice Hw
    ltac:(intros ids [= <-]; repeat constructor; discriminate))).
Defined.


(** A platformer rewound keeps the fall and the run of the ticks taken back: replaying the
    very tick it had played leaves it elsewhere. *)
Lemma platformer_replay_drifts :
  let s := sample_engine platformer in
  let once := sample_walk s left_once in
  let again := sample_walk (rewound (Some [runner]) s once) left_once in
  posX (store (world again)) runner <> posX (store (world once)) runner
  /\ posY (store (world again)) runner <> posY (store (world once)) runner.
Proof. split; vm_compute; discriminate. Qed.
