(* ===== verification/Bindings.v ===== *)
(** * Device events to action edges
    ([packages/client/src/bindings.ts, input.ts], the quantum of [constants.ts])

    A table of bindings turns raw device events into press and release edges and axis
    samples. It holds which codes are down and the last value sent of each axis. *)

From S2P Require Import Prelude JsMap JsNum Json ActionStates Hosts.

Local Open Scope Z_scope.

Definition AXIS_QUANTUM : num := fdiv (of_Z 1) (of_Z 64).

Inductive RawInputEvent :=
  | Key (code : jstr) (is_down : bool)
  | Pointer (button : Z) (is_down : bool) (screenX screenY : num)
  | PointerMove (screenX screenY : num)
  | AxisMoved (code : jstr) (amount : num)
  | FocusLost.

Inductive Binding :=
  | ButtonOf (code act : jstr)
  | AxisOf (code act : jstr) (polarity : option num)
  | CursorX (act : jstr)
  | CursorY (act : jstr).

Record ViewportExtent := MkViewport { width : num; height : num }.

Record BindingTable := MkTable { bindings : list Binding; lastSent : jsmap jstr num; down : jsset jstr }.

Definition new_table (bs : list Binding) : BindingTable := MkTable bs [] [].

Definition heldCodes (t : BindingTable) : list jstr := down t.

(** An edge list under construction, with the table. *)
Abbreviation resolving := (BindingTable * list InputEdge)%type.

(** [#axis]. *)
Definition axis_edge (act : jstr) (v quantum : num) (s : resolving) : resolving :=
  let '(t, out) := s in
  let last := mget (lastSent t) act in
  let neutral := feq v f0 in
  let close := match last with Some l => flt (fabs (fsub v l)) quantum | None => false end in
  if negb neutral && close then s
  else if neutral && match last with None => true | Some l => feq l f0 end then s
  else (MkTable (bindings t) (mset (lastSent t) act v) (down t), out ++ [MkEdge act hold (Some v)]).

Definition polarity_of (p : option num) : num := nullish p (of_Z 1).

Definition button_binding (code : jstr) (is_down : bool) (s : resolving) (b : Binding) : resolving :=
  match b with
  | ButtonOf c act =>
      if decide (c = code) then (s.1, s.2 ++ [MkEdge act (if is_down then press else release) None]) else s
  | AxisOf c act p =>
      if decide (c = code) then axis_edge act (if is_down then polarity_of p else f0) AXIS_QUANTUM s else s
  | _ => s
  end.

(** [#button]: a repeat of what is already so is not an edge. *)
Definition button (code : jstr) (is_down : bool) (s : resolving) : resolving :=
  let '(t, out) := s in
  if Bool.eqb (shas (down t) code) is_down then s
  else
    let t := MkTable (bindings t) (lastSent t) (if is_down then sadd (down t) code else sdel (down t) code) in
    foldl (button_binding code is_down) (t, out) (bindings t).

Definition cursor_binding (x y : num) (v : ViewportExtent) (s : resolving) (b : Binding) : resolving :=
  match b with
  | CursorX act => axis_edge act x (fmul AXIS_QUANTUM (fabs (width v))) s
  | CursorY act => axis_edge act y (fmul AXIS_QUANTUM (fabs (height v))) s
  | _ => s
  end.

Definition cursor (x y : num) (v : ViewportExtent) (s : resolving) : resolving := foldl (cursor_binding x y v) s (bindings s.1).

Definition axis_binding (code : jstr) (v : num) (s : resolving) (b : Binding) : resolving :=
  match b with
  | AxisOf c act p => if decide (c = code) then axis_edge act (fmul v (polarity_of p)) AXIS_QUANTUM s else s
  | _ => s
  end.

Definition resolve (e : RawInputEvent) (v : ViewportExtent) (t : BindingTable) : resolving :=
  match e with
  | Key code d => button code d (t, [])
  | Pointer n d x y => cursor x y v (button (js "mouse:" ++ num_str n) d (t, []))
  | PointerMove x y => cursor x y v (t, [])
  | AxisMoved code x => foldl (axis_binding code x) (t, []) (bindings t)
  | FocusLost => foldl (fun s code => button code false s) (t, []) (heldCodes t)
  end.

Definition forgetSentValues (t : BindingTable) : BindingTable := MkTable (bindings t) [] (down t).

(** ** What a device's events come to *)

(** A sequence of events, their edges folded as the wire folds them. *)
Definition device_step (s : BindingTable * ActionStates) (e : RawInputEvent * ViewportExtent) : BindingTable * ActionStates :=
  let '(t, edges) := resolve e.1 e.2 s.1 in (t, applyEdges s.2 edges).

Definition device_run (bs : list Binding) (es : list (RawInputEvent * ViewportExtent)) : BindingTable * ActionStates :=
  foldl device_step (new_table bs, createActionStates) es.

(** An edge that presses or releases [a]. *)
Definition moves_button (a : jstr) (e : InputEdge) : Prop := action e = a /\ on e <> hold.

#[export] Instance moves_button_dec a e : Decision (moves_button a e).
Proof. unfold moves_button. apply _. Defined.

(** One code and no other is bound to an action as a button, once. *)
Definition sole_button (bs : list Binding) (code act : jstr) : Prop :=
  ButtonOf code act ∈ bs /\ forall c, ButtonOf c act ∈ bs -> c = code.

Lemma held_skip s e a : ~ moves_button a e -> (a ∈ held (applyEdge s e) <-> a ∈ held s).
Proof.
  intros Hm. rewrite applyEdge_held. destruct (on e) eqn:E; [| |done].
  - split; [|by right]. intros [-> |]; [|done]. destruct Hm. unfold moves_button. by rewrite E.
  - split; [by intros []|]. intros Ha. split; [done|]. intros ->. destruct Hm. unfold moves_button. by rewrite E.
Qed.

(** Edges that all move a button one way leave it there; with none, it stays. *)
Lemma held_fold a ph l : forall s,
  Forall (fun e => moves_button a e -> on e = ph) l -> ph <> hold ->
  (a ∈ held (applyEdges s l) <-> (Exists (moves_button a) l /\ ph = press) \/ (~ Exists (moves_button a) l /\ a ∈ held s)).
Proof.
  induction l as [|e l IH]; intros s Hl Hph; [rewrite Exists_nil; simpl; tauto|].
  apply Forall_cons in Hl as [He Hl]. cbn [applyEdges foldl]. fold (applyEdges (applyEdge s e) l). rewrite IH, Exists_cons by done.
  assert (Hd : moves_button a e \/ ~ moves_button a e).
  { unfold moves_button. destruct (decide (action e = a)), (on e); naive_solver. }
  destruct Hd as [Hm|Hm]; [|rewrite (held_skip s e a Hm); tauto].
  assert (Hx : a ∈ held (applyEdge s e) <-> ph = press).
  { rewrite applyEdge_held, (He Hm). destruct Hm as [<- _], ph; [|..|done]; naive_solver. }
  rewrite Hx. destruct (decide (Exists (moves_button a) l)); tauto.
Qed.

Lemma axis_edge_shape act v q s :
  exists extra, (axis_edge act v q s).2 = s.2 ++ extra /\ Forall (fun e => on e = hold) extra
    /\ bindings (axis_edge act v q s).1 = bindings s.1 /\ down (axis_edge act v q s).1 = down s.1.
Proof.
  destruct s as [t out]. unfold axis_edge. destruct (_ && _); [|destruct (_ && _)].
  1, 2: exists []; by rewrite app_nil_r.
  exists [MkEdge act hold (Some v)]. split_and!; try done. by repeat constructor.
Qed.

Section Sole.
Context (bs : list Binding) (code act : jstr) (Hsole : sole_button bs code act) (A : ActionStates).

(** The code is down exactly when the edges so far leave its action held. *)
Definition agrees (s : resolving) : Prop := bindings s.1 = bs /\ (code ∈ down s.1 <-> act ∈ held (applyEdges A s.2)).

Lemma agrees_axis a v q s : agrees s -> agrees (axis_edge a v q s).
Proof.
  intros [Hb Hd]. destruct (axis_edge_shape a v q s) as (extra & Ho & Hx & Hb' & Hd'). split; [by rewrite Hb'|].
  rewrite Hd', Hd, Ho. unfold applyEdges. rewrite foldl_app. fold (applyEdges A s.2).
  clear Ho. revert Hx. generalize (applyEdges A s.2) as S. induction extra as [|e extra IH]; intros S Hx; [done|]. apply Forall_cons in Hx as [He Hx].
  simpl. rewrite <- (IH (applyEdge S e) Hx). rewrite held_skip; [done|]. intros [_ Hh]. by rewrite He in Hh.
Qed.

Lemma agrees_fold (f : resolving -> Binding -> resolving) l : (forall s b, agrees s -> agrees (f s b)) -> forall s, agrees s -> agrees (foldl f s l).
Proof. intros Hf. induction l as [|b l IH]; intros s Hs; [done|]. by apply IH, Hf. Qed.

(** The edges one code's bindings add. *)
Lemma button_edges c d l s :
  exists extra, (foldl (button_binding c d) s l).2 = s.2 ++ extra
    /\ bindings (foldl (button_binding c d) s l).1 = bindings s.1 /\ down (foldl (button_binding c d) s l).1 = down s.1
    /\ Forall (fun e => moves_button act e -> on e = (if d then press else release) /\ ButtonOf c act ∈ l) extra
    /\ (ButtonOf c act ∈ l -> Exists (moves_button act) extra).
Proof.
  clear Hsole. revert s. induction l as [|b l IH]; intros s.
  { exists []. rewrite app_nil_r. split_and!; [done|done|done|constructor|]. intros Hx. by apply not_elem_of_nil in Hx. }
  cbn [foldl]. destruct (IH (button_binding c d s b)) as (extra & Ho & Hb & Hd & Hf & He).
  assert (Hone : exists one, (button_binding c d s b).2 = s.2 ++ one
    /\ bindings (button_binding c d s b).1 = bindings s.1 /\ down (button_binding c d s b).1 = down s.1
    /\ Forall (fun e => moves_button act e -> on e = (if d then press else release) /\ b = ButtonOf c act) one
    /\ (b = ButtonOf c act -> Exists (moves_button act) one)).
  { unfold button_binding. destruct b as [c' a'|c' a' p|a'|a']; [| |exists []; rewrite app_nil_r; by split_and!; [..|constructor|]|exists []; rewrite app_nil_r; by split_and!; [..|constructor|]].
    - destruct (decide (c' = c)) as [-> |Hc]; [|exists []; rewrite app_nil_r; split_and!; [done|done|done|constructor|by intros [= ->]]].
      exists [MkEdge a' (if d then press else release) None]. split_and!; try done.
      + apply Forall_singleton. intros [Ha _]. simpl in Ha. by subst.
      + intros [= ->]. constructor. split; [done|]. by destruct d.
    - destruct (decide (c' = c)) as [-> |Hc]; [|exists []; rewrite app_nil_r; by split_and!; [..|constructor|]].
      destruct (axis_edge_shape a' (if d then polarity_of p else f0) AXIS_QUANTUM s) as (one & H1 & H2 & H3 & H4).
      exists one. split_and!; try done. eapply Forall_impl; [exact H2|]. intros e Hh [_ Hn]. by rewrite Hh in Hn. }
  destruct Hone as (one & Ho1 & Hb1 & Hd1 & Hf1 & He1). exists (one ++ extra). rewrite Ho, Ho1, <- app_assoc, Hb, Hb1, Hd, Hd1.
  split_and!; try done.
  - apply Forall_app. split; (eapply Forall_impl; [done|]); intros e H Hm; destruct (H Hm) as [? Hin]; (split; [done|]); [subst b|]; set_solver.
  - rewrite elem_of_cons, Exists_app. intros [<- |Hin]; [left; by apply He1|right; by apply He].
Qed.

Lemma agrees_button c d s : agrees s -> agrees (button c d s).
Proof using Hsole.
  intros [Hb Hd]. destruct s as [t out]. unfold button. destruct (Bool.eqb _ _) eqn:E; [done|]. cbn [fst snd] in *.
  set (t1 := MkTable (bindings t) (lastSent t) (if d then sadd (down t) c else sdel (down t) c)).
  change (agrees (foldl (button_binding c d) (t1, out) (bindings t))).
  destruct (button_edges c d (bindings t) (t1, out)) as (extra & Ho & Hb' & Hd' & Hf & He).
  unfold agrees. rewrite Hb', Hd', Ho. split; [done|]. cbn [fst snd]. unfold applyEdges. rewrite foldl_app. fold (applyEdges A out) (applyEdges (applyEdges A out) extra).
  rewrite (held_fold act (if d then press else release)); [|eapply Forall_impl; [exact Hf|]; intros e H Hm; by destruct (H Hm)|by destruct d].
  destruct Hsole as [Hin Hone]. rewrite <- Hb in Hin, Hone. destruct (decide (c = code)) as [-> |Hne].
  - specialize (He Hin). unfold t1. cbn [down]. destruct d; [rewrite elem_of_sadd|rewrite elem_of_sdel]; tauto || naive_solver.
  - assert (Hno : ~ Exists (moves_button act) extra).
    { intros Hx. apply Exists_exists in Hx as (e & Hei & Hm). pose proof (proj1 (Forall_forall _ _) Hf e Hei Hm) as [_ Hl]. by apply Hone in Hl. }
    unfold t1. cbn [down]. rewrite <- Hd. destruct d; [rewrite elem_of_sadd|rewrite elem_of_sdel]; naive_solver.
Qed.

Lemma agrees_resolve e v t : bindings t = bs -> (code ∈ down t <-> act ∈ held A) -> agrees (resolve e v t).
Proof using Hsole.
  intros Hb Hd. assert (H0 : agrees (t, [])) by done.
  assert (Hcur : forall x y s, agrees s -> agrees (cursor x y v s)).
  { intros x y s Hs. apply agrees_fold; [|done]. intros s0 b Hs0. destruct b; simpl; try done; by apply agrees_axis. }
  destruct e as [c d|n d x y|x y|c x|]; cbn [resolve].
  - by apply agrees_button.
  - by apply Hcur, agrees_button.
  - by apply Hcur.
  - apply agrees_fold; [|done]. intros s0 b Hs0. destruct b; simpl; try done. case_decide; [by apply agrees_axis|done].
  - generalize (heldCodes t) as l. intros l. revert H0. generalize (t, [] : list InputEdge) as s. induction l as [|c l IH]; intros s Hs; [done|]. by apply IH, agrees_button.
Qed.
End Sole.

Lemma foldl_sdel_all (l : jsset jstr) : foldl sdel l l = [].
Proof.
  assert (H : forall (k m : jsset jstr) (x : jstr), x ∈ foldl sdel m k -> x ∈ m /\ (x ∉ k)).
  { induction k as [|y k IH]; intros m x Hx; [split; [done|apply not_elem_of_nil]|]. apply IH in Hx as [Hx Hn].
    rewrite elem_of_sdel in Hx. set_solver. }
  destruct (foldl sdel l l) as [|x r] eqn:E; [done|]. destruct (H l l x); [rewrite E; left|done].
Qed.

(** Released codes: after focus is lost none is down. *)
Lemma focus_down l s : (foldl (fun s c => button c false s) s l).1.(down) = foldl sdel (down s.1) l.
Proof.
  revert s. induction l as [|c l IH]; intros [t out]; [done|]. cbn [foldl]. rewrite IH. f_equal. unfold button.
  destruct (Bool.eqb _ _) eqn:E.
  - apply Bool.eqb_prop in E. symmetry. unfold shas in E. apply bool_decide_eq_false in E. cbn. by apply sdel_not_in.
  - destruct (button_edges [] c false (bindings t) (MkTable (bindings t) (lastSent t) (sdel (down t) c), out)) as (x & _ & _ & Hd & _).
    exact Hd.
Qed.

(** C32. What the wire is told is what the device does. An action bound as a button to one
    code is held, folding the edges of any events there were, exactly while that code is
    down; and losing focus leaves no code down and no such action held. *)
Theorem device_and_edges_agree (bs : list Binding) (code act : jstr) (es : list (RawInputEvent * ViewportExtent)) :
  sole_button bs code act ->
  let '(t, a) := device_run bs es in
  (code ∈ down t <-> act ∈ held a)
  /\ forall v, let '(t', a') := device_step (t, a) (FocusLost, v) in down t' = [] /\ (act ∉ held a').
Proof.
  intros Hsole. unfold device_run.
  assert (Hrun : bindings (foldl device_step (new_table bs, createActionStates) es).1 = bs
    /\ (code ∈ down (foldl device_step (new_table bs, createActionStates) es).1 <-> act ∈ held (foldl device_step (new_table bs, createActionStates) es).2)).
  { induction es as [|[e v] es [Hb Hd]] using rev_ind; [split; [done|]; split; intros Hx; by apply not_elem_of_nil in Hx|].
    rewrite foldl_app. cbn [foldl]. destruct (foldl device_step _ es) as [t a]. unfold device_step. cbn [fst snd] in *.
    pose proof (agrees_resolve bs code act Hsole a e v t Hb Hd) as [H1 H2]. by destruct (resolve e v t) as [t' edges]. }
  destruct (foldl device_step _ es) as [t a]. cbn [fst snd] in *. destruct Hrun as [Hb Hd]. split; [done|]. intros v.
  unfold device_step. cbn [fst snd]. pose proof (agrees_resolve bs code act Hsole a FocusLost v t Hb Hd) as [H1 H2].
  assert (Hdown : down (resolve FocusLost v t).1 = []) by (cbn [resolve]; rewrite focus_down; unfold heldCodes; simpl; apply foldl_sdel_all).
  destruct (resolve FocusLost v t) as [t' edges]. cbn [fst snd] in *. split; [done|]. rewrite <- H2, Hdown. apply not_elem_of_nil.
Qed.

(** One key, one stick; the key goes down, repeats, comes up. *)
Definition jump_table : list Binding := [ButtonOf (js "Space") (js "jump"); AxisOf (js "stick") (js "moveX") None].

Definition sample_view : ViewportExtent := MkViewport (of_Z 800) (of_Z 600).

Lemma device_and_edges_agree_witness :
  let '(t, a) := device_run jump_table [(Key (js "Space") true, sample_view); (Key (js "Space") true, sample_view); (AxisMoved (js "stick") (of_Z 1), sample_view)] in
  down t = [js "Space"] /\ (js "Space" ∈ down t <-> js "jump" ∈ held a).
Proof.
  assert (Hs : sole_button jump_table (js "Space") (js "jump")).
  { split; [left|]. intros c Hc. unfold jump_table in Hc. apply elem_of_cons in Hc as [[= ->]|Hc]; [done|].
    apply elem_of_cons in Hc as [?|Hc]; [done|]. by apply not_elem_of_nil in Hc. }
  pose proof (device_and_edges_agree jump_table (js "Space") (js "jump")
    [(Key (js "Space") true, sample_view); (Key (js "Space") true, sample_view); (AxisMoved (js "stick") (of_Z 1), sample_view)] Hs) as H.
  assert (Hd : (device_run jump_table [(Key (js "Space") true, sample_view); (Key (js "Space") true, sample_view); (AxisMoved (js "stick") (of_Z 1), sample_view)]).1.(down) = [js "Space"])
    by (vm_compute; reflexivity).
  revert Hd H. generalize (device_run jump_table [(Key (js "Space") true, sample_view); (Key (js "Space") true, sample_view); (AxisMoved (js "stick") (of_Z 1), sample_view)]).
  intros [t a] Hd [H _]. exact (conj Hd H).
Defined.
