(* ===== verification/Mirror.v ===== *)
(** * The client's replica ([packages/client/src/mirror.ts], [index-map.ts])

    A [Mirror] is a second [Runtime] that follows the server's envelopes. Each runtime
    mints handles from its own table, so [MirrorIndex] pairs a server id with the local
    one. A state envelope applies its structural ops in order, drains what they
    destroyed, writes the state fields and then releases the transform envelope held for
    its tick. [World] gives the runtime and the operations the mirror calls on it. *)

From S2P Require Import Prelude JsMap JsNum Json Handle SlotTable TagIndex Admission Replicate Snapshot TransformStore EntityTable.
From S2P Require Import Channels ScopeTree Timers Tweens Hosts World.

Local Open Scope Z_scope.

Definition MAX_WIRE_ITEMS : Z := 65536.
Definition MAX_ENTITY_SCRIPTS : Z := 64.

(** ** The index *)

Record MirrorIndex := MkIndex { toLocal : jsmap NetId EntityId; toNet : jsmap EntityId NetId }.

Definition new_index : MirrorIndex := MkIndex [] [].

(** [set]. *)
Definition index_set (ix : MirrorIndex) (netId : NetId) (local : EntityId) : MirrorIndex :=
  let back := match mget (toLocal ix) netId with Some previous => mdel (toNet ix) previous | None => toNet ix end in
  MkIndex (mset (toLocal ix) netId local) (mset back local netId).

Definition local_ (ix : MirrorIndex) (netId : NetId) : option EntityId := mget (toLocal ix) netId.
Definition net (ix : MirrorIndex) (local : EntityId) : option NetId := mget (toNet ix) local.
Definition index_has (ix : MirrorIndex) (netId : NetId) : bool := mhas (toLocal ix) netId.

(** [delete]. *)
Definition index_delete (ix : MirrorIndex) (netId : NetId) : MirrorIndex :=
  match mget (toLocal ix) netId with
  | None => ix
  | Some local => MkIndex (mdel (toLocal ix) netId) (mdel (toNet ix) local)
  end.

Definition index_size (ix : MirrorIndex) : nat := length (toLocal ix).
Definition index_entries (ix : MirrorIndex) : list (NetId * EntityId) := toLocal ix.

(** ** Data *)

Record MirrorReparent := MkReparent { r_local : EntityId; r_parent : option EntityId }.

(** A joined player is named by its id. *)
Record MirrorDelta := MkDelta {
  added : list EntityId;
  removed : list EntityId;
  reparented : list MirrorReparent;
  joined : list jstr;
  left_ : list jstr;
}.

Definition emptyDelta : MirrorDelta := MkDelta [] [] [] [] [].

Inductive counter :=
  | unknownNetId | outOfOrderParent | droppedAttach | supersededTransforms | invalidNetId | oversizedList | reservedField.

#[export] Instance counter_eq_dec : EqDecision counter.
Proof. solve_decision. Defined.

Abbreviation MirrorCounters := (counter -> Z).

Inductive ScriptLocation := at_server | at_client | at_synced.

Record TransformEnvelope := MkTransforms { te_tick : Z; te_transform : list (NetId * WireTransform) }.

(** The engine object a script names a host by; a facade is its object. *)
Inductive HostObject := GameObject | PlayerObject (id : jstr) | EntityObject (facade : nat).

#[export] Instance HostObject_eq_dec : EqDecision HostObject.
Proof. solve_decision. Defined.

(** What a record's field holds: a wire value, or a wrapper that keeps its own state. *)
Inductive held_value (Wrapper : Type) := Plain (j : json) | Wrapped (w : Wrapper).
Arguments Plain {Wrapper}.
Arguments Wrapped {Wrapper}.

(** What escapes [applyState]; the session fails on it. *)
Inductive mirror_error := SpawnFailed (e : spawn_error) | AttachCycle | ScriptFailed.

Section mirror.
Context {Klass Wrapper : Type}.
(** The evaluated bundle ([ScriptIndex]), if there is one. *)
Context (scripts : option ((jstr -> option ScriptLocation) * (jstr -> option Klass))).
(** [Wiring.attachToEntity]: runs the script class's constructor, which may throw. *)
Context (attachToEntity : Runtime -> EntityId -> Klass -> option json -> option Runtime).
(** [reviveWrapper] and a wrapper's [restore]. *)
Context (reviveWrapper : json -> option Wrapper) (wrapper_restore : Wrapper -> json -> Wrapper).
(** [field in host], for a name the mirror did not put there. *)
Context (answers : Runtime -> HostObject -> jstr -> bool).
(** The [@onEnd] handlers of the client's scripts. *)
Context (dispatchEnd : Runtime -> EntityId -> list (option GuardOwner * entity_op)).

Record Mirror := MkMirror {
  rt : Runtime;
  rt_tick : Z;
  index : MirrorIndex;
  depictedTick : Z;
  heldTransforms : option TransformEnvelope;
  stateAppliedTick : Z;
  pendingUnmap : list NetId;
  counters : MirrorCounters;
  players : jsmap jstr Player; (** [playerManager]: its map and its order are one *)
  nextIndex : Z;
  values : RecordRef -> jsmap jstr (held_value Wrapper);
  replicated : jsset (HostObject * jstr);
}.

Definition new_mirror : Mirror :=
  MkMirror new_runtime 0 new_index 0 None (-1) [] (fun _ => 0) [] 0 (fun _ => []) [].

Definition with_rt (m : Mirror) (r : Runtime) : Mirror :=
  MkMirror r (rt_tick m) (index m) (depictedTick m) (heldTransforms m) (stateAppliedTick m) (pendingUnmap m) (counters m)
    (players m) (nextIndex m) (values m) (replicated m).
Definition with_index (m : Mirror) (ix : MirrorIndex) (pend : list NetId) : Mirror :=
  MkMirror (rt m) (rt_tick m) ix (depictedTick m) (heldTransforms m) (stateAppliedTick m) pend (counters m)
    (players m) (nextIndex m) (values m) (replicated m).
Definition with_ticks (m : Mirror) (now depicted : Z) (held : option TransformEnvelope) (applied : Z) : Mirror :=
  MkMirror (rt m) now (index m) depicted held applied (pendingUnmap m) (counters m)
    (players m) (nextIndex m) (values m) (replicated m).
Definition with_players (m : Mirror) (ps : jsmap jstr Player) (next : Z) : Mirror :=
  MkMirror (rt m) (rt_tick m) (index m) (depictedTick m) (heldTransforms m) (stateAppliedTick m) (pendingUnmap m) (counters m)
    ps next (values m) (replicated m).
Definition with_values (m : Mirror) (v : RecordRef -> jsmap jstr (held_value Wrapper)) (rep : jsset (HostObject * jstr)) : Mirror :=
  MkMirror (rt m) (rt_tick m) (index m) (depictedTick m) (heldTransforms m) (stateAppliedTick m) (pendingUnmap m) (counters m)
    (players m) (nextIndex m) v rep.
Definition bump (m : Mirror) (k : counter) : Mirror :=
  MkMirror (rt m) (rt_tick m) (index m) (depictedTick m) (heldTransforms m) (stateAppliedTick m) (pendingUnmap m)
    (<[k := counters m k + 1]> (counters m)) (players m) (nextIndex m) (values m) (replicated m).

(** The local id, or a counted miss. *)
Definition resolve (m : Mirror) (netId : NetId) : option EntityId * Mirror :=
  match local_ (index m) netId with
  | Some local => (Some local, m)
  | None => (None, bump m unknownNetId)
  end.

Definition templateOf (m : Mirror) (local : EntityId) : jstr :=
  match EntityTable.record (World.entities (rt m)) local with Some r => EntityTable.template r | None => [] end.

(** ** Transforms *)

Definition writeTransform (m : Mirror) (id : EntityId) (t : WireTransform) : Mirror :=
  let s := World.transforms (rt m) in
  let s := setPosition s id (Replicate.posX t) (Replicate.posY t) (Replicate.posZ t) in
  let s := setRotation s id (Replicate.rot t) in
  let s := setScale s id (Replicate.scale t) in
  let s := setOpacity s id (Replicate.opacity t) in
  let s := setLayer s id (Replicate.layer t) in
  with_rt m (set_transforms (rt m) s).

Definition write_one (m : Mirror) (d : NetId * WireTransform) : Mirror :=
  match resolve m d.1 with
  | (Some local, m) => writeTransform m local d.2
  | (None, m) => m
  end.

Definition writeTransforms (m : Mirror) (e : TransformEnvelope) : Mirror := foldl write_one m (te_transform e).

Definition applyTransforms (m : Mirror) (e : TransformEnvelope) : Mirror :=
  if stateAppliedTick m <? te_tick e then
    let m := match heldTransforms m with Some _ => bump m supersededTransforms | None => m end in
    with_ticks m (rt_tick m) (depictedTick m) (Some e) (stateAppliedTick m)
  else writeTransforms m e.

Definition releaseHeldTransforms (m : Mirror) (tick : Z) : Mirror :=
  match heldTransforms m with
  | None => m
  | Some held =>
      if tick <? te_tick held then m
      else writeTransforms (with_ticks m (rt_tick m) (depictedTick m) None (stateAppliedTick m)) held
  end.

Definition discardMarks (m : Mirror) : Mirror :=
  with_rt m (set_channels (rt m) (Channels.clear (World.channels (rt m)))).

(** ** Structural ops *)

(** [#attach]. *)
Definition attach_script (m : Mirror) (local : EntityId) (a : ScriptAttachment) : outcome mirror_error Mirror :=
  match scripts with
  | None => Ok (bump m droppedAttach)
  | Some (locationOf, resolve_class) =>
      match locationOf (script a) with
      | Some at_server => Ok m
      | _ =>
          match resolve_class (script a) with
          | None => Ok (bump m droppedAttach)
          | Some klass =>
              match attachToEntity (rt m) local klass (props a) with
              | Some r => Ok (with_rt m r)
              | None => Throw ScriptFailed
              end
          end
      end
  end.

Fixpoint attach_all (m : Mirror) (local : EntityId) (l : list ScriptAttachment) : outcome mirror_error Mirror :=
  match l with
  | [] => Ok m
  | a :: l => match attach_script m local a with Ok m => attach_all m local l | Throw e => Throw e end
  end.

(** [facade(local).attachTo(facade(parent))], which throws on a cycle. *)
Definition attach_local (m : Mirror) (local parent : EntityId) : outcome mirror_error Mirror :=
  let r := (World.facade (rt m) parent).2 in
  match (EntityTable.attachTo (World.entities r) local parent).2 with
  | Refused => Throw AttachCycle
  | _ => Ok (with_rt m (World.attachTo r local parent))
  end.

Definition spawn_parent (m : Mirror) (local : EntityId) (parent : option NetId) : outcome mirror_error Mirror :=
  match parent with
  | None => Ok m
  | Some p =>
      match resolve m p with
      | (None, m) => Ok (bump m outOfOrderParent)
      | (Some parent, m) => attach_local m local parent
      end
  end.

Definition isSafeNet (netId : NetId) : bool := isSafeInteger netId && (0 <=? netId).

(** [#spawn]. *)
Definition spawn_snapshot (m : Mirror) (s : EntitySnapshot) (delta : MirrorDelta) : outcome mirror_error (Mirror * MirrorDelta) :=
  if negb (isSafeNet (netId s)) then Ok (bump m invalidNetId, delta)
  else
    let t := Replicate.transform s in
    match World.spawn (rt m) (es_template s) (Replicate.posX t) (Replicate.posY t) (nullish (es_owner s) []) with
    | Throw e => Throw (SpawnFailed e)
    | Ok (local, r) =>
        let m := with_index (with_rt m r) (index_set (index m) (netId s) local) (pendingUnmap m) in
        match spawn_parent m local (es_parent s) with
        | Throw e => Throw e
        | Ok m =>
            let m := if MAX_WIRE_ITEMS <? arr_len (Replicate.tags s) then bump m oversizedList
                     else with_rt m (foldl (fun r name => World.tag r local name) (rt m) (Replicate.tags s)) in
            let attachments := nullish (overrides s) [] in
            match (if MAX_ENTITY_SCRIPTS <? arr_len attachments then Ok (bump m oversizedList)
                   else attach_all m local attachments) with
            | Throw e => Throw e
            | Ok m =>
                Ok (writeTransform m local t,
                    MkDelta (added delta ++ [local]) (removed delta) (reparented delta) (joined delta) (left_ delta))
            end
        end
    end.

(** [#destroy]. *)
Definition destroy_net (m : Mirror) (netId : NetId) (delta : MirrorDelta) : Mirror * MirrorDelta :=
  match resolve m netId with
  | (None, m) => (m, delta)
  | (Some local, m) =>
      (with_index (with_rt m (World.destroy (rt m) local)) (index m) (pendingUnmap m ++ [netId]),
       MkDelta (added delta) (removed delta ++ [local]) (reparented delta) (joined delta) (left_ delta))
  end.

Definition reparented_to (delta : MirrorDelta) (local : EntityId) (parent : option EntityId) : MirrorDelta :=
  MkDelta (added delta) (removed delta) (reparented delta ++ [MkReparent local parent]) (joined delta) (left_ delta).

Definition reparent_net (m : Mirror) (netId : NetId) (to : option NetId) (delta : MirrorDelta)
    : outcome mirror_error (Mirror * MirrorDelta) :=
  match resolve m netId with
  | (None, m) => Ok (m, delta)
  | (Some local, m) =>
      let m := with_rt m (World.facade (rt m) local).2 in
      match to with
      | None => Ok (with_rt m (World.detach (rt m) local), reparented_to delta local None)
      | Some to =>
          match resolve m to with
          | (None, m) => Ok (m, delta)
          | (Some parent, m) =>
              match attach_local m local parent with
              | Ok m => Ok (m, reparented_to delta local (Some parent))
              | Throw e => Throw e
              end
          end
      end
  end.

Definition tag_net (m : Mirror) (netId : NetId) (name : jstr) (on : bool) : Mirror :=
  match resolve m netId with
  | (None, m) => m
  | (Some local, m) =>
      let r := (World.facade (rt m) local).2 in
      with_rt m (if on then World.tag r local name else World.untag r local name)
  end.

Definition attach_net (m : Mirror) (netId : NetId) (a : ScriptAttachment) : outcome mirror_error Mirror :=
  match resolve m netId with
  | (None, m) => Ok m
  | (Some local, m) => attach_script m local a
  end.

Definition ensure_host (m : Mirror) (key : jstr) : HostEntry * Mirror :=
  let '(entry, h, s) := Hosts.ensure (World.hosts (rt m)) (World.scopes (rt m)) key in (entry, with_rt m (set_hosts (rt m) h s)).

(** [#joinPlayer], with [PlayerManager.adopt]. *)
Definition joinPlayer (m : Mirror) (p : Player) : Mirror :=
  match mget (players m) (p_id p) with
  | Some existing => with_players m (mset (players m) (p_id p) (MkPlayer (p_id existing) (p_index existing) (p_name p))) (nextIndex m)
  | None =>
      let m := with_players m (mset (players m) (p_id p) p) (Z.max (nextIndex m) (p_index p + 1)) in
      (ensure_host (ensure_host m (Hosts.playerKey (p_id p))).2 (Hosts.playerKey (p_id p))).2
  end.

Definition remove_host (r : Runtime) (key : jstr) : Runtime :=
  let '(h, s) := Hosts.remove (World.hosts r) (World.scopes r) key in set_hosts r h s.

(** [PlayerManager.remove]. *)
Definition remove_player (m : Mirror) (id : jstr) : Mirror :=
  match mget (players m) id with
  | None => m
  | Some _ =>
      let m := with_players m (mdel (players m) id) (nextIndex m) in
      let r := rt m in
      let r := set_instances r (removeHost (World.instances r) (Hosts.playerKey id)).2 in
      let r := remove_host r (Hosts.playerKey id) in
      let r := set_instances r (removeHost (World.instances r) (Hosts.cameraKey id)).2 in
      with_rt m (remove_host r (Hosts.cameraKey id))
  end.

Definition leavePlayer (m : Mirror) (id : jstr) (delta : MirrorDelta) : Mirror * MirrorDelta :=
  match mget (players m) id with
  | None => (bump m unknownNetId, delta)
  | Some _ =>
      let m := remove_player m id in
      (with_rt m (remove_host (rt m) (Hosts.playerKey id)),
       MkDelta (added delta) (removed delta) (reparented delta) (joined delta) (left_ delta ++ [id]))
  end.

(** [enter-interest] and [leave-interest] take the arms of [spawn] and [destroy]. *)
Definition applySingle (s : Mirror * MirrorDelta) (op : WireSingle) : outcome mirror_error (Mirror * MirrorDelta) :=
  let '(m, delta) := s in
  match op with
  | WSpawn snap => spawn_snapshot m snap delta
  | WDestroy id => Ok (destroy_net m id delta)
  | WReparent id to => reparent_net m id to delta
  | WTag id name on => Ok (tag_net m id name on, delta)
  | WAttach id a => match attach_net m id a with Ok m => Ok (m, delta) | Throw e => Throw e end
  | WPlayerJoin p =>
      Ok (joinPlayer m p, MkDelta (added delta) (removed delta) (reparented delta) (joined delta ++ [p_id p]) (left_ delta))
  | WPlayerLeave id => Ok (leavePlayer m id delta)
  end.

Fixpoint applySingles (s : Mirror * MirrorDelta) (ops : list WireSingle) : outcome mirror_error (Mirror * MirrorDelta) :=
  match ops with
  | [] => Ok s
  | op :: ops => match applySingle s op with Ok s => applySingles s ops | Throw e => Throw e end
  end.

Definition applyStructural (s : Mirror * MirrorDelta) (op : WireOp) : outcome mirror_error (Mirror * MirrorDelta) :=
  match op with
  | WGroup ops => if MAX_WIRE_ITEMS <? arr_len ops then Ok (bump s.1 oversizedList, s.2) else applySingles s ops
  | WSingle op => applySingle s op
  end.

Fixpoint applyJournal (s : Mirror * MirrorDelta) (ops : list WireOp) : outcome mirror_error (Mirror * MirrorDelta) :=
  match ops with
  | [] => Ok s
  | op :: ops => match applyStructural s op with Ok s => applyJournal s ops | Throw e => Throw e end
  end.

(** ** State fields *)

Definition hostKey (m : Mirror) (h : StateHostAddr) : option jstr * Mirror :=
  match h with
  | HGame => (Some Hosts.GAME_KEY, m)
  | HPlayer id => (Some (Hosts.playerKey id), m)
  | HEntity netId => match resolve m netId with (Some local, m) => (Some (Hosts.entityKey local), m) | (None, m) => (None, m) end
  end.

Definition facadeFor (m : Mirror) (h : StateHostAddr) : option HostObject * Mirror :=
  match h with
  | HGame => (Some GameObject, m)
  | HPlayer id => ((fun p => PlayerObject (p_id p)) <$> mget (players m) id, m)
  | HEntity netId =>
      match local_ (index m) netId with
      | None => (None, m)
      | Some local => let '(f, r) := World.facade (rt m) local in (Some (EntityObject f), with_rt m r)
      end
  end.

(** [restoreHostField]. *)
Definition restoreHostField (m : Mirror) (r : RecordRef) (field : jstr) (value : json) : Mirror :=
  let new :=
    match mget (values m r) field with
    | Some (Wrapped w) => Wrapped (wrapper_restore w value)
    | _ => match reviveWrapper value with Some w => Wrapped (wrapper_restore w value) | None => Plain value end
    end in
  with_values m (<[r := mset (values m r) field new]> (values m)) (replicated m).

(** [hoistReplicated]: whether the field reads through the host. *)
Definition hoistReplicated (m : Mirror) (host : HostObject) (field : jstr) : bool * Mirror :=
  if shas (replicated m) (host, field) then (true, m)
  else if answers (rt m) host field then (false, m)
  else (true, with_values m (values m) (sadd (replicated m) (host, field))).

Definition apply_field (r : RecordRef) (host : option HostObject) (m : Mirror) (f : jstr * json) : Mirror :=
  let m := restoreHostField m r f.1 f.2 in
  match host with
  | None => m
  | Some h => match hoistReplicated m h f.1 with (true, m) => m | (false, m) => bump m reservedField end
  end.

Definition applyStateField (m : Mirror) (d : StateDiff) : Mirror :=
  match hostKey m (host d) with
  | (None, m) => m
  | (Some key, m) =>
      let '(entry, m) := ensure_host m key in
      let '(h, m) := facadeFor m (host d) in
      foldl (apply_field (Hosts.record entry) h) m (fields d)
  end.

(** ** Envelopes *)

Definition unmap (m : Mirror) : Mirror := with_index m (foldl index_delete (index m) (pendingUnmap m)) [].

Definition drain_mirror (m : Mirror) : Mirror := with_rt m (drainDestroyed dispatchEnd (rt m)).

Definition applyState (m : Mirror) (e : StateEnvelope) : outcome mirror_error (Mirror * MirrorDelta) :=
  let m := with_ticks m (se_tick e) (se_tick e) (heldTransforms m) (stateAppliedTick m) in
  match applyJournal (m, emptyDelta) (se_structural e) with
  | Throw err => Throw err
  | Ok (m, delta) =>
      let m := unmap (drain_mirror m) in
      let m := foldl applyStateField m (se_state e) in
      let m := with_ticks m (rt_tick m) (depictedTick m) (heldTransforms m) (se_tick e) in
      Ok (releaseHeldTransforms (discardMarks m) (se_tick e), delta)
  end.

Definition applySnapshot (m : Mirror) (s : WorldSnapshot) : outcome mirror_error (Mirror * MirrorDelta) :=
  applyState m
    (MkState (ws_tick s) (MkAck 0 None)
       (((fun p => WSingle (WPlayerJoin p)) <$> ws_players s) ++ ((fun e => WSingle (WSpawn e)) <$> Snapshot.entities s))
       (ws_state s)).

Definition destroy_local (s : Mirror * MirrorDelta) (local : EntityId) : Mirror * MirrorDelta :=
  let '(m, delta) := s in
  if EntityTable.isAlive (World.entities (rt m)) local then
    (with_rt m (World.destroy (rt m) local),
     MkDelta (added delta) (removed delta ++ [local]) (reparented delta) (joined delta) (left_ delta))
  else s.

Definition reset (m : Mirror) : Mirror * MirrorDelta :=
  let '(m, delta) := foldl destroy_local (m, emptyDelta) (mvals (toLocal (index m))) in
  let m := drain_mirror (with_index m new_index (pendingUnmap m)) in
  let ids := p_id <$> mvals (players m) in
  let m := foldl remove_player m ids in
  (discardMarks (with_ticks m 0 0 None (-1)),
   MkDelta (added delta) (removed delta) (reparented delta) (joined delta) (left_ delta ++ ids)).
End mirror.
