(* ===== verification/Replica.v ===== *)
(** * What the mirror makes of a journal

    Applied to any journal that is [lawful] (a spawn is new, a move names entities that
    are there and makes no cycle), however it is cut into envelopes, the mirror holds an
    image of the hierarchy the journal describes. The invariant is [follows]: it speaks
    of the journal replayed so far, and allows for a subtree whose root's destroy has
    arrived and whose own destroys have not. *)

From S2P Require Import Prelude JsMap JsNum Json Handle SlotTable TagIndex Admission Replicate Snapshot TransformStore EntityTable.
From S2P Require Import Channels ScopeTree Timers Tweens Hosts World Mirror.

Local Open Scope Z_scope.

(** ** A table seen as links and live flags *)

Definition seen_as (r : EntityTable.EntityRecord) : EntityId * bool := (EntityTable.parent r, EntityTable.alive r).

Definition view (t : EntityTable) : gmap EntityId (EntityId * bool) := seen_as <$> SlotTable.abs t.

Lemma view_modify t id f g :
  SlotTable.wf t -> (forall r, seen_as (f r) = g (seen_as r)) -> view (modify t id f) = alter g id (view t).
Proof.
  intros Hw Hf. unfold view. rewrite abs_modify by apply Hw. apply map_eq. intros x. rewrite lookup_fmap.
  destruct (decide (x = id)) as [->|Hne].
  - rewrite !lookup_alter_eq, lookup_fmap. destruct (SlotTable.abs t !! id); [|done]. simpl. by rewrite Hf.
  - by rewrite !lookup_alter_ne, lookup_fmap by done.
Qed.

Lemma view_modify_same t id f :
  SlotTable.wf t -> (forall r, seen_as (f r) = seen_as r) -> view (modify t id f) = view t.
Proof. intros Hw Hf. rewrite (view_modify t id f (fun v => v)) by done. apply alter_id. by intros. Qed.

Definition set_to (to : EntityId) (v : EntityId * bool) : EntityId * bool := (to, v.2).

Lemma view_unlink t id : SlotTable.wf t -> SlotTable.wf (unlink t id).1 /\ view (unlink t id).1 = alter (set_to NONE) id (view t).
Proof.
  intros Hw. unfold unlink. rewrite record_abs by apply Hw.
  assert (Hsame : (forall r, SlotTable.abs t !! id = Some r -> EntityTable.parent r = NONE) -> view t = alter (set_to NONE) id (view t)).
  { intros Hp. symmetry. apply alter_id. intros v Hv. unfold view in Hv. rewrite lookup_fmap in Hv.
    apply fmap_Some in Hv as (r & Hr & ->). unfold set_to, seen_as. by rewrite (Hp r Hr). }
  destruct (SlotTable.abs t !! id) as [r|] eqn:Hr; [|split; [done|by apply Hsame]].
  destruct (EntityTable.parent r =? NONE) eqn:Ep; bool_facts; [split; [done|]; apply Hsame; by intros ? [= <-]|].
  simpl. split; [by apply wf_modify, wf_modify|].
  rewrite (view_modify _ _ _ (set_to NONE)), view_modify_same by (done || by apply wf_modify). done.
Qed.

Lemma view_attach t id to :
  SlotTable.wf t -> (EntityTable.attachTo t id to).2 = Attached ->
  view (EntityTable.attachTo t id to).1 = alter (set_to to) id (view t).
Proof.
  intros Hw. unfold EntityTable.attachTo. destruct (EntityTable.record t id); [|done]. destruct (EntityTable.record t to); [|done].
  destruct (negb _); [done|]. destruct (ancestor_meets _ _ _ _); [done|]. destruct (view_unlink t id Hw) as [Hw1 Hv1].
  destruct (unlink t id) as [t1 b]. simpl in *. intros _.
  rewrite view_modify_same by (done || by apply wf_modify). rewrite (view_modify _ _ _ (set_to to)), Hv1 by done.
  apply map_eq. intros x. destruct (decide (x = id)) as [->|Hne].
  - rewrite !lookup_alter_eq. by destruct (view t !! id).
  - by rewrite !lookup_alter_ne by done.
Qed.

(** [attachTo] links whenever both are there, the parent lives and is not below. *)
Lemma attach_links t q id to l r rto :
  forest (t, q) -> SlotTable.abs t !! id = Some r -> SlotTable.abs t !! to = Some rto -> EntityTable.alive rto = true ->
  rooted (SlotTable.abs t) to l -> id ∉ l -> (EntityTable.attachTo t id to).2 = Attached.
Proof.
  intros [Hw Hok _] Hr Hto Ha Hl Hni. simpl in *. unfold EntityTable.attachTo.
  rewrite !record_abs, Hr, Hto, Ha by apply Hw. cbn [negb].
  assert (Hid0 : id <> NONE) by (intros E; pose proof (tk_null _ _ Hok); congruence).
  pose proof (ancestor_meets_spec (walk_fuel t) t to l id (wf_core t Hw) (tk_null _ _ Hok) Hl) as Hmeet.
  pose proof (rooted_length _ _ _ (tk_null _ _ Hok) Hl). pose proof (walk_fuel_enough t Hw).
  specialize (Hmeet ltac:(lia) Hid0). destruct (ancestor_meets _ t to id); [by destruct Hni; apply Hmeet|].
  by destruct (unlink t id).
Qed.

Lemma view_lookup t x p a :
  view t !! x = Some (p, a) <-> exists r, SlotTable.abs t !! x = Some r /\ EntityTable.parent r = p /\ EntityTable.alive r = a.
Proof.
  unfold view. rewrite lookup_fmap, fmap_Some. unfold seen_as. split.
  - intros (r & Hr & [= -> ->]). by exists r.
  - intros (r & Hr & <- & <-). by exists r.
Qed.

Lemma view_Some t x : is_Some (view t !! x) <-> is_Some (SlotTable.abs t !! x).
Proof. unfold view. by rewrite lookup_fmap, fmap_is_Some. Qed.

Lemma below_ancestor m d id x :
  tree_ok m d -> rtc (child_of m) id x -> forall l, is_Some (m !! x) -> rooted m x l -> id ∈ l.
Proof.
  intros Hok. revert x. apply (rtc_ind_r (fun x => forall l, is_Some (m !! x) -> rooted m x l -> id ∈ l)).
  - intros l Hx Hl. apply rooted_inv in Hl as [[-> ->]|(r & l' & -> & _)]; [|by left].
    destruct Hx as [? Hx]. by rewrite (tk_null _ _ Hok) in Hx.
  - intros y z _ Hyz IH l Hz Hl. apply rooted_inv in Hl as [[-> ->]|(r & l' & -> & Hr & Hl')].
    + destruct Hz as [? Hz]. by rewrite (tk_null _ _ Hok) in Hz.
    + destruct (tk_down _ _ Hok y z Hyz) as (rz & Hrz & Hp). rewrite Hr in Hrz. injection Hrz as <-. rewrite Hp in Hl'.
      right. apply IH; [|done]. destruct Hyz as (ry & Hry & _). by exists ry.
Qed.

(** A destroy keeps every link, and every flag outside the target's subtree. *)
Lemma view_destroy t q id x l v :
  forest (t, q) -> rooted (SlotTable.abs t) x l -> id ∉ l ->
  view t !! x = Some v -> view (EntityTable.destroy (t, q) id).1 !! x = Some v.
Proof.
  intros [Hw Hok Hcl] Hl Hni Hx. simpl in *. destruct (tree_destroy t q id Hw Hok Hcl) as (_ & _ & _ & d & Hc & Hd).
  assert (Hs : is_Some (SlotTable.abs t !! x)) by (apply view_Some; by exists v).
  unfold view in *. rewrite lookup_fmap in *. rewrite (cs_map _ _ _ _ _ Hc), decide_False; [done|].
  intros [_ Hb]%Hd. apply Hni. by apply (below_ancestor (SlotTable.abs t) q id x).
Qed.

(** Nothing appears, and nothing dead revives. *)
Lemma view_destroy_inv t q id x p a :
  SlotTable.wf t -> view (EntityTable.destroy (t, q) id).1 !! x = Some (p, a) ->
  exists a', view t !! x = Some (p, a') /\ (a = true -> a' = true).
Proof.
  intros Hw Hx. destruct (destroy_fuel t q id Hw) as (_ & d & Hc & _). unfold view in *. rewrite lookup_fmap in *.
  rewrite (cs_map _ _ _ _ _ Hc) in Hx. destruct (decide (x ∈ d)).
  - destruct (SlotTable.abs t !! x) as [r|]; [|done]. simpl in *. injection Hx as <- <-. exists (EntityTable.alive r). by split.
  - exists a. by split.
Qed.

Lemma destroyed_dead t q id : SlotTable.wf t -> forall p, view (EntityTable.destroy (t, q) id).1 !! id <> Some (p, true).
Proof.
  intros Hw p Hv. destruct (destroy_fuel t q id Hw) as (_ & d & _ & Hdead & _).
  apply view_lookup in Hv as (r & Hr & _ & Ha). apply Hdead. by exists r.
Qed.

(** The drain removes what is dead and keeps the rest. *)
Lemma view_drain t q x :
  forest (t, q) ->
  view (foldl drain_one t q) !! x = match view t !! x with Some (p, true) => Some (p, true) | _ => None end.
Proof.
  intros Hf. destruct (forest_drain t q []) as [_ Hp]; [by rewrite app_nil_r|apply Hf|]. destruct Hf as [Hw Hok Hcl]. simpl in *.
  unfold view. rewrite !lookup_fmap, (Hp x). destruct (decide (x ∈ q)) as [Hx|Hx].
  - apply (tk_dead _ _ Hok) in Hx as (r & -> & Ha). simpl. unfold seen_as. by rewrite Ha.
  - destruct (SlotTable.abs t !! x) as [r|] eqn:Hr; [|done]. simpl. unfold seen_as, set_children. simpl.
    destruct (EntityTable.alive r) eqn:Ha; [done|]. destruct Hx. apply (tk_dead _ _ Hok). by exists r.
Qed.

(** ** Handles are spent once, and slots are added one at a time *)

Lemma slots_modify (t : EntityTable) id f : SlotTable.slotCount (modify t id f) = SlotTable.slotCount t.
Proof. destruct (modify_frame t id f) as (_ & _ & _ & Hl). unfold SlotTable.slotCount, arr_len. by rewrite Hl. Qed.

Lemma spent_modify (t : EntityTable) id f h : spent t h -> spent (modify t id f) h.
Proof.
  intros (i & g & -> & Hi & Hg & Hlt & Hc). exists i, g. rewrite slots_modify, generationAt_modify, recordAt_modify_is_Some. done.
Qed.

(** What the replica relies on: no handle is forgotten, no slot or record is added. *)
Record grows (t t' : EntityTable) : Prop := {
  gr_slots : SlotTable.slotCount t' = SlotTable.slotCount t;
  gr_spent h : spent t h -> spent t' h;
  gr_live : SlotTable.liveCount t' <= SlotTable.liveCount t;
}.

Lemma grows_refl t : grows t t.
Proof. by split. Qed.

Lemma grows_trans t1 t2 t3 : grows t1 t2 -> grows t2 t3 -> grows t1 t3.
Proof. intros [S1 H1 L1] [S2 H2 L2]. split; [congruence|auto|lia]. Qed.

Lemma grows_modify t id f : grows t (modify t id f).
Proof.
  split; [apply slots_modify|apply spent_modify|]. destruct (modify_frame t id f) as (_ & _ & Hl & _). unfold SlotTable.liveCount. lia.
Qed.

Lemma grows_unlink t id : grows t (unlink t id).1.
Proof.
  unfold unlink. destruct (EntityTable.record t id); [|apply grows_refl]. destruct (_ =? _); [apply grows_refl|].
  eapply grows_trans; apply grows_modify.
Qed.

Lemma grows_attach t id to : grows t (EntityTable.attachTo t id to).1.
Proof.
  unfold EntityTable.attachTo. destruct (EntityTable.record t id); [|apply grows_refl]. destruct (EntityTable.record t to); [|apply grows_refl].
  destruct (negb _); [apply grows_refl|]. destruct (ancestor_meets _ _ _ _); [apply grows_refl|].
  pose proof (grows_unlink t id). destruct (unlink t id) as [t1 b]. simpl in *.
  eapply grows_trans; [done|]. eapply grows_trans; apply grows_modify.
Qed.

Lemma grows_destroy n : forall s id, grows s.1 (destroy_in n s id).1.
Proof.
  induction n as [|n IH]; intros s id; [apply grows_refl|]. cbn [destroy_in]. destruct (EntityTable.record s.1 id) as [r|]; [|apply grows_refl].
  destruct (negb _); [apply grows_refl|].
  assert (Hg : forall cs s', grows s.1 s'.1 -> grows s.1 (foldl (destroy_in n) s' cs).1).
  { induction cs as [|c cs IHc]; intros s' Hs'; [done|]. apply IHc. by eapply grows_trans; [|apply IH]. }
  apply Hg. apply grows_modify.
Qed.

Lemma grows_drain_one t id : SlotTable.wf t -> grows t (drain_one t id).
Proof.
  intros Hw. unfold drain_one. eapply grows_trans with (leave_parent t id).
  - unfold leave_parent. destruct (EntityTable.record t id); [|apply grows_refl]. destruct (_ =? _); [apply grows_refl|].
    destruct (EntityTable.record t _); [|apply grows_refl]. apply grows_modify.
  - unfold EntityTable.release, SlotTable.release. pose proof (wf_core _ (leave_parent_wf t id Hw)) as Hc.
    destruct (releaseAt_slots (leave_parent t id) (SlotTable.indexOf (leave_parent t id) id) Hc) as [Hle Hs]. split.
    + unfold releaseAt. destruct (recordAt _ _); [|done]. unfold recycle, drop_record, push_free, SlotTable.slotCount.
      case_bool; simpl; by rewrite ?arr_len_set.
    + intros h. by apply spent_emptied.
    + unfold releaseAt. destruct (recordAt _ _); [|done]. unfold recycle, drop_record, push_free, SlotTable.liveCount.
      case_bool; simpl; lia.
Qed.

Lemma grows_drain l : forall t, SlotTable.wf t -> grows t (foldl drain_one t l).
Proof.
  induction l as [|id l IH]; intros t Hw; [apply grows_refl|]. cbn [foldl].
  eapply grows_trans; [by apply grows_drain_one|]. apply IH. by apply drain_one_wf.
Qed.

Lemma create_slots (t : EntityTable) r id t' :
  SlotTable.create t r = Ok (id, t') ->
  SlotTable.slotCount t' <= SlotTable.slotCount t + 1 /\ SlotTable.liveCount t' = SlotTable.liveCount t + 1.
Proof.
  unfold SlotTable.create. destruct (arr_pop (freeList t)) as [[i rest]|].
  - intros [= _ <-]. unfold SlotTable.slotCount. simpl. rewrite arr_len_set. split; [lia|done].
  - cbv zeta. case_bool; [done|]. intros [= _ <-]. unfold SlotTable.slotCount. simpl. rewrite arr_len_snoc. split; [lia|done].
Qed.

(** ** A journal as links *)

Abbreviation links := (gmap NetId NetId).

Definition net_or_none (p : option NetId) : NetId := nullish p NONE.

Definition relink (m : links) (op : WireSingle) : links :=
  match op with
  | WSpawn s => <[netId s := net_or_none (es_parent s)]> m
  | WDestroy id => delete id m
  | WReparent id to => alter (fun _ => net_or_none to) id m
  | _ => m
  end.

(** The ids on the way from an id up to a root. *)
Inductive chain (m : links) : NetId -> list NetId -> Prop :=
  | chain_root : chain m NONE []
  | chain_step id p l : m !! id = Some p -> chain m p l -> chain m id (id :: l).

Definition anchored (m : links) (id : NetId) : Prop := exists l, chain m id l.

(** [seen] are the ids ever spawned. *)
Definition lawful_op (seen : gset NetId) (m : links) (op : WireSingle) : Prop :=
  match op with
  | WSpawn s =>
      isSafeNet (netId s) = true /\ netId s <> NONE /\ (netId s ∉ seen)
      /\ match es_parent s with None => True | Some p => p <> NONE /\ anchored m p end
  | WDestroy id => is_Some (m !! id)
  | WReparent id None => is_Some (m !! id) /\ anchored m id
  | WReparent id (Some to) => is_Some (m !! id) /\ anchored m id /\ to <> NONE /\ exists l, chain m to l /\ (id ∉ l)
  | _ => True
  end.

Definition see (seen : gset NetId) (op : WireSingle) : gset NetId :=
  match op with WSpawn s => {[netId s]} ∪ seen | _ => seen end.

Fixpoint lawful (seen : gset NetId) (m : links) (ops : list WireSingle) : Prop :=
  match ops with
  | [] => True
  | op :: ops => lawful_op seen m op /\ lawful (see seen op) (relink m op) ops
  end.

Lemma lawful_app seen m ops ops' :
  lawful seen m (ops ++ ops') <-> lawful seen m ops /\ lawful (foldl see seen ops) (foldl relink m ops) ops'.
Proof. revert seen m. induction ops as [|op ops IH]; intros seen m; simpl; [tauto|]. rewrite IH. tauto. Qed.

Lemma chain_inv m id l : chain m id l -> (id = NONE /\ l = []) \/ exists p l', l = id :: l' /\ m !! id = Some p /\ chain m p l'.
Proof. intros []; [by left|right]. eauto. Qed.

Lemma anchored_dom m id : anchored m id -> id <> NONE -> is_Some (m !! id).
Proof. intros [l Hl] Hne. apply chain_inv in Hl as [[? _]|(p & l' & _ & Hp & _)]; [done|by exists p]. Qed.

Lemma anchored_up m id p : m !! id = Some p -> anchored m id -> id <> NONE -> anchored m p.
Proof. intros Hp [l Hl] Hne. apply chain_inv in Hl as [[? _]|(p' & l' & _ & Hp' & Hl)]; [done|]. exists l'. congruence. Qed.

(** A chain of [m'] is one of [m] if its links are. *)
Lemma chain_sub m m' id l :
  chain m' id l -> (forall x p, x ∈ l -> m' !! x = Some p -> m !! x = Some p) -> chain m id l.
Proof.
  induction 1 as [|id p l Hp Hl IH]; intros Hsub; [constructor|]. apply (chain_step m id p); [apply Hsub; [by left|done]|].
  apply IH. intros x q Hx. apply Hsub. by right.
Qed.

Lemma chain_dom m id l : chain m id l -> forall x, x ∈ l -> is_Some (m !! x).
Proof.
  induction 1 as [|id p l Hp Hl IH]; intros x Hx; [by apply not_elem_of_nil in Hx|].
  apply elem_of_cons in Hx as [->|Hx]; [by exists p|auto].
Qed.

(** Moving an anchored id anchors nothing new. *)
Lemma anchored_alter m id to x : anchored m id -> anchored (alter (fun _ => to) id m) x -> anchored m x.
Proof.
  intros Hid [l Hl]. induction Hl as [|x p l Hp Hl IH]; [exists []; constructor|].
  destruct (decide (x = id)) as [->|Hne]; [done|]. rewrite lookup_alter_ne in Hp by done.
  destruct IH as [l' Hl']. exists (x :: l'). by apply (chain_step m x p).
Qed.

(** ** The mirror follows the links *)

(** The part of a mirror the hierarchy is in: the table, its queue, the index and the
    ids to unmap. *)
Abbreviation Core := (EntityTable * list EntityId * MirrorIndex * list NetId)%type.

Definition image (ix : MirrorIndex) (p : NetId) (p' : EntityId) : Prop :=
  (p = NONE /\ p' = NONE) \/ (p <> NONE /\ mget (toLocal ix) p = Some p').

Record follows (m : links) (seen : gset NetId) (c : Core) : Prop := {
  fw_forest : forest (c.1.1.1, c.1.1.2);
  fw_pair id l : mget (toLocal c.1.2) id = Some l <-> mget (toNet c.1.2) l = Some id;
  fw_spent id l : mget (toLocal c.1.2) id = Some l -> spent c.1.1.1 l;
  fw_known id l : mget (toLocal c.1.2) id = Some l -> id ∈ seen;
  fw_seen id p : m !! id = Some p -> id ∈ seen /\ (p = NONE \/ p ∈ seen);
  fw_null : NONE ∉ seen;
  fw_dom id : is_Some (m !! id) -> is_Some (mget (toLocal c.1.2) id);
  fw_only id : is_Some (mget (toLocal c.1.2) id) -> is_Some (m !! id) \/ id ∈ c.2;
  fw_gone id : id ∈ c.2 -> id ∈ seen /\ m !! id = None /\ forall l p, mget (toLocal c.1.2) id = Some l -> view c.1.1.1 !! l <> Some (p, true);
  fw_live id p l : m !! id = Some p -> anchored m id -> mget (toLocal c.1.2) id = Some l ->
    exists p', view c.1.1.1 !! l = Some (p', true) /\ image c.1.2 p p';
  fw_cover l v : view c.1.1.1 !! l = Some v -> exists id, mget (toLocal c.1.2) id = Some l;
}.

Section follows.
Context (m : links) (seen : gset NetId) (t : EntityTable) (q : list EntityId) (ix : MirrorIndex) (u : list NetId).
Context (F : follows m seen (t, q, ix, u)).

Lemma index_inj x y l : mget (toLocal ix) x = Some l -> mget (toLocal ix) y = Some l -> x = y.
Proof using F. intros Hx Hy. apply (fw_pair _ _ _ F) in Hx, Hy. simpl in *. congruence. Qed.

(** The ancestors of an anchored id are the images of its chain. *)
Lemma chain_image id l L :
  chain m id L -> id <> NONE -> mget (toLocal ix) id = Some l ->
  exists L', rooted (SlotTable.abs t) l L' /\ forall y, y ∈ L' -> exists x, x ∈ L /\ mget (toLocal ix) x = Some y.
Proof using F.
  intros Hc. revert l. induction Hc as [|id p L Hp Hc IH]; intros l Hne Hl; [done|].
  destruct (fw_live _ _ _ F id p l Hp) as (p' & Hv & Hi); [exists (id :: L); by apply (chain_step m id p)|done|]. simpl in *.
  apply view_lookup in Hv as (r & Hr & Hpr & _).
  destruct Hi as [[-> ->]|[Hpne Hp']].
  - apply chain_inv in Hc as [[_ ->]|(? & ? & _ & Hn & _)]; [|by apply (fw_seen _ _ _ F) in Hn as [? _]; destruct (fw_null _ _ _ F)].
    exists [l]. split; [apply (rooted_step _ l r); [done|rewrite Hpr; constructor]|].
    intros y ->%list_elem_of_singleton. exists id. split; [by left|done].
  - destruct (IH p' Hpne Hp') as (L' & HL' & Him). exists (l :: L'). split; [apply (rooted_step _ l r); [done|by rewrite Hpr]|].
    intros y [->|Hy]%elem_of_cons; [exists id; split; [by left|done]|].
    destruct (Him y Hy) as (x & Hx & Hxy). exists x. split; [by right|done].
Qed.
End follows.

Lemma index_set_lookup ix id l x :
  mget (toLocal (index_set ix id l)) x = if decide (id = x) then Some l else mget (toLocal ix) x.
Proof. unfold index_set. simpl. apply mget_mset. Qed.

Lemma image_mono ix ix' p p' :
  (p <> NONE -> mget (toLocal ix) p = Some p' -> mget (toLocal ix') p = Some p') -> image ix p p' -> image ix' p p'.
Proof. intros H [?|[Hne Hp]]; [by left|right; auto]. Qed.

(** A new entity under a new id. *)
Lemma follows_spawn m seen t q ix u id tmpl owner l t' :
  follows m seen (t, q, ix, u) -> id <> NONE -> id ∉ seen -> EntityTable.create t tmpl owner = Ok (l, t') ->
  follows (<[id := NONE]> m) ({[id]} ∪ seen) (t', q, index_set ix id l, u).
Proof.
  intros F Hne Hnew Hc. pose proof F as [F1 F2 F3 F4 F5 F6 F7 F8 F9 F10 F11]. simpl in *.
  pose proof (forest_spawn (t, q) tmpl owner l t' F1 Hc) as Hf. unfold EntityTable.create in Hc.
  destruct (abs_create _ _ _ _ (fo_wf _ F1) Hc) as [Hnone Habs].
  destruct (create_spent _ _ _ _ (fo_wf _ F1) Hc) as (Hns & Hs & Hmono).
  assert (Hview : forall x, view t' !! x = if decide (x = l) then Some (NONE, true) else view t !! x).
  { intros x. unfold view. rewrite Habs, !lookup_fmap. destruct (decide (x = l)) as [->|]; [by rewrite lookup_insert_eq|by rewrite lookup_insert_ne]. }
  assert (Hidn : mget (toLocal ix) id = None) by (destruct (mget (toLocal ix) id) eqn:E; [by apply F4 in E|done]).
  assert (Hln : mget (toNet ix) l = None).
  { destruct (mget (toNet ix) l) as [y|] eqn:E; [|done]. apply F2, F3 in E. done. }
  assert (Hm : m !! id = None) by (destruct (m !! id) eqn:E; [by apply F5 in E as [? _]|done]).
  assert (Hpar : forall x p, m !! x = Some p -> p <> id).
  { intros x p Hx ->. by destruct (proj2 (F5 x id Hx)). }
  assert (Hanch : forall x, x <> id -> anchored (<[id := NONE]> m) x -> anchored m x).
  { intros x Hx [L HL]. exists L. revert Hx. induction HL as [|x p L Hp HL IH]; intros Hx; [constructor|].
    rewrite lookup_insert_ne in Hp by done. apply (chain_step m x p); [done|]. apply IH. by apply (Hpar x). }
  split; cbn [fst snd].
  - done.
  - intros x lx. rewrite index_set_lookup. unfold index_set. simpl. rewrite Hidn, mget_mset.
    destruct (decide (id = x)) as [<-|Hx], (decide (l = lx)) as [<-|Hlx]; try (split; congruence).
    + split; [congruence|]. intros E. apply F2 in E. congruence.
    + split; [|congruence]. intros E. apply F3 in E. done.
    + apply F2.
  - intros x lx. rewrite index_set_lookup. destruct (decide _); [by intros [= <-]|]. intros Hx. by apply Hmono, (F3 x).
  - intros x lx. rewrite index_set_lookup. destruct (decide (id = x)) as [<-|]; [set_solver|]. intros Hx. apply F4 in Hx. set_solver.
  - intros x p [[<- <-]|[Hx Hp]]%lookup_insert_Some; [set_solver|]. apply F5 in Hp as [? [->|?]]; set_solver.
  - set_solver.
  - intros x. rewrite index_set_lookup. destruct (decide (id = x)) as [<-|]; [by eexists|]. rewrite lookup_insert_ne by done. apply F7.
  - intros x. rewrite index_set_lookup. destruct (decide (id = x)) as [<-|]; [intros _; left; rewrite lookup_insert_eq; by eexists|].
    rewrite lookup_insert_ne by done. apply F8.
  - intros x Hx. destruct (F9 x Hx) as (Hxs & Hxm & Hxl). assert (Hxid : x <> id) by (by intros ->).
    split; [set_solver|]. split; [by rewrite lookup_insert_ne|]. intros lx p. rewrite index_set_lookup, decide_False by done.
    intros Hlx. rewrite Hview, decide_False; [by apply Hxl|]. intros ->. apply F3 in Hlx. done.
  - intros x p lx [[<- <-]|[Hx Hp]]%lookup_insert_Some Ha; rewrite index_set_lookup.
    + rewrite decide_True by done. intros [= <-]. exists NONE. rewrite Hview, decide_True by done. split; [done|by left].
    + rewrite decide_False by done. intros Hlx. destruct (F10 x p lx Hp (Hanch x (not_eq_sym Hx) Ha) Hlx) as (p' & Hv & Hi).
      exists p'. rewrite Hview, decide_False; [|intros ->; by apply F3 in Hlx]. split; [done|].
      apply (image_mono ix); [|done]. intros _ Hpp. rewrite index_set_lookup, decide_False; [done|]. intros ->. congruence.
  - intros lx v. rewrite Hview. destruct (decide (lx = l)) as [->|Hne'].
    + intros _. exists id. by rewrite index_set_lookup, decide_True.
    + intros Hv. destruct (F11 lx v Hv) as [x Hx]. exists x. rewrite index_set_lookup, decide_False; [done|]. intros ->. congruence.
Qed.

(** An anchored entity moves below another, or to the root. *)
Lemma follows_relink m seen t q ix u id l to to' t' :
  follows m seen (t, q, ix, u) -> forest (t', q) -> grows t t' ->
  view t' = alter (set_to to') l (view t) -> anchored m id -> is_Some (m !! id) -> mget (toLocal ix) id = Some l ->
  image ix to to' -> follows (alter (fun _ => to) id m) seen (t', q, ix, u).
Proof.
  intros F Hf Hg Hv Ha Hid Hl Hi. pose proof F as [F1 F2 F3 F4 F5 F6 F7 F8 F9 F10 F11]. simpl in *.
  assert (Hto : to = NONE \/ to ∈ seen).
  { destruct Hi as [[? _]|[_ Hi]]; [by left|right]. by apply F4 in Hi. }
  assert (His : forall x, is_Some (alter (fun _ => to) id m !! x) <-> is_Some (m !! x)).
  { intros x. destruct (decide (x = id)) as [->|]; [|by rewrite lookup_alter_ne]. rewrite lookup_alter_eq. apply fmap_is_Some. }
  assert (Hflag : forall lx p, view t' !! lx = Some (p, true) -> exists p', view t !! lx = Some (p', true)).
  { intros lx p. rewrite Hv. destruct (decide (lx = l)) as [->|]; [|rewrite lookup_alter_ne by done; by exists p].
    rewrite lookup_alter_eq. intros ([p' a] & Hp' & Hset)%fmap_Some. unfold set_to in Hset. injection Hset as _ <-. by exists p'. }
  split; cbn [fst snd]; try done.
  - intros x lx Hx. by apply (gr_spent _ _ Hg), (F3 x).
  - intros x p Hp. destruct (decide (x = id)) as [->|]; [|rewrite lookup_alter_ne in Hp by done; by apply F5].
    rewrite lookup_alter_eq in Hp. apply fmap_Some in Hp as (p0 & Hp0 & ->). split; [by apply (F5 id p0)|done].
  - intros x. rewrite His. apply F7.
  - intros x. rewrite His. apply F8.
  - intros x Hx. destruct (F9 x Hx) as (Hs & Hn & Hd). split; [done|]. split; [by apply eq_None_not_Some; rewrite His, Hn; intros []|].
    intros lx p Hlx Hvx. destruct (Hflag _ _ Hvx) as [p' Hp']. by apply (Hd lx p').
  - intros x p lx Hp Hax Hlx. apply (anchored_alter m id to) in Hax; [|done]. rewrite Hv. destruct (decide (x = id)) as [->|Hne].
    + rewrite lookup_alter_eq in Hp. apply fmap_Some in Hp as (p0 & Hp0 & ->).
      destruct (F10 id p0 lx Hp0 Ha Hlx) as (p' & Hvx & _). exists to'. split; [|done].
      replace l with lx by congruence. rewrite lookup_alter_eq, Hvx. done.
    + rewrite lookup_alter_ne in Hp by done. destruct (F10 x p lx Hp Hax Hlx) as (p' & Hvx & Hix). exists p'. split; [|done].
      rewrite lookup_alter_ne; [done|]. intros Heq. apply Hne. apply (index_inj m seen t q ix u F x id lx); congruence.
  - intros lx v. rewrite Hv. intros Hvx. destruct (decide (lx = l)) as [->|]; [by exists id|].
    rewrite lookup_alter_ne in Hvx by done. by apply (F11 lx v).
Qed.

(** A destroy, with the cascade it starts. *)
Lemma follows_destroy m seen t q ix u id l :
  follows m seen (t, q, ix, u) -> is_Some (m !! id) -> mget (toLocal ix) id = Some l ->
  follows (delete id m) seen (EntityTable.destroy (t, q) l, ix, u ++ [id]).
Proof.
  intros F Hid Hl. pose proof F as [F1 F2 F3 F4 F5 F6 F7 F8 F9 F10 F11]. simpl in *.
  pose proof (forest_destroy (t, q) l F1) as Hf.
  assert (Hg : grows t (EntityTable.destroy (t, q) l).1) by apply (grows_destroy (walk_fuel t) (t, q) l). pose proof (fo_wf _ F1) as Hw. simpl in Hw.
  assert (Hinv : forall x p a, view (EntityTable.destroy (t, q) l).1 !! x = Some (p, a) -> exists a', view t !! x = Some (p, a') /\ (a = true -> a' = true))
    by (intros; by eapply view_destroy_inv).
  pose proof (destroyed_dead t q l Hw) as Hdead. pose proof (fun x L v => view_destroy t q l x L v F1) as Hkeep.
  destruct (EntityTable.destroy (t, q) l) as [t' q']. simpl in *. split; cbn [fst snd]; try done.
  - intros x lx Hx. by apply (gr_spent _ _ Hg), (F3 x).
  - intros x p [Hx Hp]%lookup_delete_Some. by apply F5.
  - intros x [p [Hx Hp]%lookup_delete_Some]. apply F7. by exists p.
  - intros x Hx. destruct (decide (x = id)) as [->|Hne]; [right; apply elem_of_app; right; left|].
    rewrite lookup_delete_ne by done. destruct (F8 x Hx); [by left|right; apply elem_of_app; by left].
  - intros x [Hx| ->%list_elem_of_singleton]%elem_of_app.
    + destruct (F9 x Hx) as (Hs & Hn & Hd). split; [done|]. split; [by apply lookup_delete_None; right|].
      intros lx p Hlx Hvx. destruct (Hinv _ _ _ Hvx) as (a' & Hva & Ha'). rewrite (Ha' eq_refl) in Hva. by apply (Hd lx p).
    + destruct Hid as [p0 Hp0]. split; [by apply (F5 id p0)|]. split; [apply lookup_delete_eq|].
      intros lx p Hlx. replace lx with l by congruence. apply Hdead.
  - intros x p lx [Hx Hp]%lookup_delete_Some [L HL] Hlx.
    assert (Hni : id ∉ L).
    { intros Hin. destruct (chain_dom _ _ _ HL id Hin) as [? Hd]. by rewrite lookup_delete_eq in Hd. }
    apply (chain_sub m) in HL; [|by intros y py _ [_ Hpy]%lookup_delete_Some].
    destruct (F10 x p lx Hp) as (p' & Hv & Hi); [by exists L|done|]. exists p'. split; [|done].
    assert (Hxn : x <> NONE) by (intros ->; apply F6; by apply (F5 NONE p)).
    destruct (chain_image m seen t q ix u F x lx L HL Hxn Hlx) as (L' & HL' & Him).
    apply (Hkeep lx L'); [done| |done]. intros Hin. destruct (Him l Hin) as (y & Hy & Hyl).
    apply Hni. by rewrite <- (index_inj m seen t q ix u F y id l).
  - intros lx [p a] Hv. destruct (Hinv _ _ _ Hv) as (a' & Hva & _). by apply (F11 lx (p, a')).
Qed.

(** *** The end of an envelope *)

Lemma index_delete_lookup ix x y :
  (forall id l, mget (toLocal ix) id = Some l <-> mget (toNet ix) l = Some id) ->
  mget (toLocal (index_delete ix x)) y = (if decide (x = y) then None else mget (toLocal ix) y)
  /\ (forall id l, mget (toLocal (index_delete ix x)) id = Some l <-> mget (toNet (index_delete ix x)) l = Some id).
Proof.
  intros Hp. unfold index_delete. destruct (mget (toLocal ix) x) as [lx|] eqn:E; simpl.
  - rewrite mget_mdel. split; [done|]. intros id l. rewrite !mget_mdel.
    destruct (decide (x = id)) as [<-|Hx], (decide (lx = l)) as [<-|Hl]; try (split; congruence).
    + split; [done|]. intros El. apply Hp in El. congruence.
    + split; [|done]. intros El. apply Hp in El, E. congruence.
    + apply Hp.
  - split; [|done]. destruct (decide (x = y)) as [<-|]; [done|done].
Qed.

Lemma unmap_lookup u : forall ix,
  (forall id l, mget (toLocal ix) id = Some l <-> mget (toNet ix) l = Some id) ->
  (forall y, mget (toLocal (foldl index_delete ix u)) y = if decide (y ∈ u) then None else mget (toLocal ix) y)
  /\ (forall id l, mget (toLocal (foldl index_delete ix u)) id = Some l <-> mget (toNet (foldl index_delete ix u)) l = Some id).
Proof.
  induction u as [|x u IH]; intros ix Hp; cbn [foldl].
  - split; [|done]. intros y. by rewrite decide_False by apply not_elem_of_nil.
  - destruct (index_delete_lookup ix x x Hp) as [_ Hp']. destruct (IH _ Hp') as [H1 H2]. split; [|done].
    intros y. rewrite H1. destruct (index_delete_lookup ix x y Hp) as [-> _].
    destruct (decide (x = y)) as [->|Hne].
    + rewrite (decide_True (P := y ∈ y :: u)) by left. by destruct (decide _).
    + destruct (decide (y ∈ u)); [by rewrite decide_True by by right|]. rewrite decide_False; [done|]. by intros [?|?]%elem_of_cons.
Qed.

Lemma follows_drain m seen t q ix u :
  follows m seen (t, q, ix, u) -> follows m seen (foldl drain_one t q, [], foldl index_delete ix u, []).
Proof.
  intros F. pose proof F as [F1 F2 F3 F4 F5 F6 F7 F8 F9 F10 F11]. simpl in *.
  destruct (unmap_lookup u ix F2) as [Hix Hpair].
  assert (Hkeep : forall x, is_Some (m !! x) -> mget (toLocal (foldl index_delete ix u)) x = mget (toLocal ix) x).
  { intros x [p Hp]. rewrite Hix, decide_False; [done|]. intros Hx. destruct (F9 x Hx) as (_ & Hn & _). congruence. }
  destruct (forest_drain t q []) as [Hf _]; [by rewrite app_nil_r|apply (fo_closed _ F1)|].
  split; cbn [fst snd]; try done.
  - intros x lx. rewrite Hix. destruct (decide _); [done|]. intros Hx.
    apply (gr_spent _ _ (grows_drain q t (fo_wf _ F1))). by apply (F3 x).
  - intros x lx. rewrite Hix. destruct (decide _); [done|]. apply F4.
  - intros x Hx. rewrite Hkeep by done. by apply F7.
  - intros x. rewrite Hix. destruct (decide (x ∈ u)); [by intros []|]. intros Hx. left. by destruct (F8 x Hx).
  - intros x Hx. by apply not_elem_of_nil in Hx.
  - intros x p lx Hp Ha. rewrite Hkeep by (by exists p). intros Hlx. destruct (F10 x p lx Hp Ha Hlx) as (p' & Hv & Hi).
    exists p'. rewrite view_drain, Hv by done. split; [done|]. apply (image_mono ix); [|done]. intros Hpn Hpp.
    rewrite Hkeep; [done|]. apply (anchored_dom m p); [|done]. apply (anchored_up m x); [done..|]. intros ->. apply F6. by apply (F5 NONE p).
  - intros lx v. rewrite view_drain by done. destruct (view t !! lx) as [[p []]|] eqn:Hv; [|done|done]. intros _.
    destruct (F11 lx _ Hv) as [x Hx]. exists x. rewrite Hix, decide_False; [done|]. intros Hu.
    destruct (F9 x Hu) as (_ & _ & Hd). by apply (Hd lx p).
Qed.

(** *** One op *)

Lemma attach_follows m seen t q ix u id l to lto L :
  follows m seen (t, q, ix, u) -> anchored m id -> is_Some (m !! id) -> mget (toLocal ix) id = Some l ->
  to <> NONE -> chain m to L -> id ∉ L -> mget (toLocal ix) to = Some lto ->
  (EntityTable.attachTo t l lto).2 = Attached
  /\ follows (alter (fun _ => to) id m) seen ((EntityTable.attachTo t l lto).1, q, ix, u).
Proof.
  intros F Ha Hid Hl Hto HL Hni Hlto. pose proof (fw_forest _ _ _ F) as Hf. simpl in Hf.
  assert (Hrec : forall x lx, anchored m x -> is_Some (m !! x) -> mget (toLocal ix) x = Some lx ->
    exists r, SlotTable.abs t !! lx = Some r /\ EntityTable.alive r = true).
  { intros x lx Hax [p Hp] Hlx. destruct (fw_live _ _ _ F x p lx Hp Hax Hlx) as (p' & Hv & _).
    apply view_lookup in Hv as (r & Hr & _ & Halive). by exists r. }
  destruct (Hrec id l Ha Hid Hl) as (r & Hr & _).
  destruct (Hrec to lto) as (rto & Hrto & Hal); [by exists L|by apply anchored_dom; [exists L|]|done|].
  destruct (chain_image m seen t q ix u F to lto L HL Hto Hlto) as (L' & HL' & Him).
  assert (Hatt : (EntityTable.attachTo t l lto).2 = Attached).
  { apply (attach_links t q l lto L' r rto); [done..|]. intros Hin. destruct (Him l Hin) as (x & Hx & Hxl).
    apply Hni. by rewrite <- (index_inj m seen t q ix u F x id l). }
  split; [done|]. apply (follows_relink m seen t q ix u id l to lto); try done.
  - apply (forest_attach (t, q) l lto Hf).
  - apply grows_attach.
  - by apply view_attach; [apply (fo_wf _ Hf)|].
  - right. by split.
Qed.

Lemma detach_follows m seen t q ix u id l :
  follows m seen (t, q, ix, u) -> anchored m id -> is_Some (m !! id) -> mget (toLocal ix) id = Some l ->
  follows (alter (fun _ => NONE) id m) seen ((unlink t l).1, q, ix, u).
Proof.
  intros F Ha Hid Hl. pose proof (fw_forest _ _ _ F) as Hf. simpl in Hf.
  apply (follows_relink m seen t q ix u id l NONE NONE); try done.
  - apply (forest_unlink (t, q) l Hf).
  - apply grows_unlink.
  - apply view_unlink, (fo_wf _ Hf).
  - by left.
Qed.

Definition spawns_one (op : WireSingle) : Z := match op with WSpawn _ => 1 | _ => 0 end.

(** Room for [n] more entities, with [spare] slots left behind them. *)
Definition room (spare : Z) (t : EntityTable) (n : Z) : Prop :=
  SlotTable.liveCount t + n <= World.MAX_ENTITIES /\ SlotTable.slotCount t + n + spare <= INDEX_RANGE /\ 0 <= spare.

Lemma room_grows spare t t' n : grows t t' -> room spare t n -> room spare t' n.
Proof. intros [S _ L] (R1 & R2 & R3). split; [|split]; lia. Qed.

Definition spawns (ops : list WireSingle) : Z := foldr (fun op n => spawns_one op + n) 0 ops.

Lemma spawns_nonneg ops : 0 <= spawns ops.
Proof. induction ops as [|[] ops IH]; simpl in *; lia. Qed.

Lemma spawns_app ops ops' : spawns (ops ++ ops') = spawns ops + spawns ops'.
Proof. induction ops as [|op ops IH]; simpl; [done|]. rewrite IH. lia. Qed.

Definition wire_singles (op : WireOp) : list WireSingle := match op with WSingle op => [op] | WGroup ops => ops end.
Definition wire_flat (ops : list WireOp) : list WireSingle := ops ≫= wire_singles.

(** A group the mirror does not refuse for its length. *)
Definition short (op : WireOp) : Prop := match op with WGroup ops => arr_len ops <= MAX_WIRE_ITEMS | _ => True end.

#[export] Instance short_dec op : Decision (short op).
Proof. destruct op; simpl; apply _. Defined.

(** A call that changes neither the table nor the destroy queue. *)
Definition quiet (o : entity_op) : bool :=
  match o with ESpawn _ _ _ _ | EAttach _ _ | EDetach _ | EDestroy _ => false | _ => true end.

Definition same_table (r r' : Runtime) : Prop :=
  World.entities r' = World.entities r /\ World.pendingDestroy r' = World.pendingDestroy r.

Lemma same_table_hostScope r id : same_table r (hostScope r id).2.
Proof. unfold hostScope. by destruct (ensure _ _ _) as [[? ?] ?]. Qed.

Lemma same_table_tween r id prop to s curve owner : same_table r (startTween r id prop to s curve owner).1.
Proof.
  unfold startTween. pose proof (same_table_hostScope r id) as H. destruct (hostScope r id) as [sc r1].
  by destruct (Tweens.start _ _ _ _ _ _ _ _ _ _) as [[? ?] ?].
Qed.

Lemma same_table_glide r id x y s curve owner : same_table r (glideTo r id x y s curve owner).
Proof.
  unfold glideTo. pose proof (same_table_tween r id (js "x") x s curve owner) as H.
  destruct (startTween r id (js "x") x s curve owner) as [r1 []]; [done|]. destruct H as [He Hq].
  destruct (same_table_tween r1 id (js "y") y s curve owner) as [He' Hq']. simpl in *. split; congruence.
Qed.

Lemma quiet_op r owner o : quiet o = true -> same_table r (do_op owner r o).
Proof.
  destruct o; simpl; try done; intros _; unfold glideBy, fadeTo, growTo, spin, spinTo; auto using same_table_tween, same_table_glide.
  - unfold World.facade. by destruct (mget _ _).
  - unfold moveToward. by destruct (flt _ _).
  - unfold think. pose proof (same_table_hostScope r id) as H. destruct (hostScope r id) as [sc r1]. by destruct (sleep _ _ _) as [[? ?]|].
Qed.

(** A drain whose handlers leave the hierarchy alone. *)
Lemma quiet_drain (dispatchEnd : Runtime -> EntityId -> list (option GuardOwner * entity_op)) r :
  (forall r id c, c ∈ dispatchEnd r id -> quiet c.2 = true) ->
  World.entities (drainDestroyed dispatchEnd r) = foldl drain_one (World.entities r) (World.pendingDestroy r)
  /\ World.pendingDestroy (drainDestroyed dispatchEnd r) = [].
Proof.
  intros Hq. unfold drainDestroyed. destruct (World.pendingDestroy r) as [|id l] eqn:E; [by rewrite E|].
  assert (Hends : forall ids r0, same_table r0 (foldl (on_end dispatchEnd) r0 ids)).
  { induction ids as [|i ids IH]; intros r0; [done|]. cbn [foldl].
    assert (H1 : same_table r0 (on_end dispatchEnd r0 i)).
    { unfold on_end. pose proof (Hq r0 i) as Hc. clear IH. revert Hc. generalize (dispatchEnd r0 i). intros cs Hcs.
      assert (Hg : forall r1, (forall c, c ∈ cs -> quiet c.2 = true) -> same_table r1 (foldl (fun rt c => do_op c.1 rt c.2) r1 cs)).
      { clear Hcs. induction cs as [|c cs IHc]; intros r1 Hc; [done|]. cbn [foldl].
        destruct (quiet_op r1 c.1 c.2) as [H1 H2]; [apply Hc; left|].
        destruct (IHc (do_op c.1 r1 c.2)) as [H3 H4]; [intros; apply Hc; by right|]. split; congruence. }
      by apply Hg. }
    destruct H1 as [H1 H2], (IH (on_end dispatchEnd r0 i)) as [H3 H4]. split; congruence. }
  destruct (Hends (id :: l) (set_entities r (World.entities r) [])) as [He Hp].
  rewrite teardowns_entities, He. split; [done|].
  assert (Ht : forall ids r0, World.pendingDestroy (foldl teardown r0 ids) = World.pendingDestroy r0).
  { induction ids as [|i ids IH]; intros r0; [done|]. cbn [foldl]. rewrite IH. by destruct (teardown_parts r0 i) as (_ & -> & _). }
  by rewrite Ht.
Qed.

Section mirror_follows.
Context {Klass Wrapper : Type} (spare : Z).
Context (scripts : option ((jstr -> option ScriptLocation) * (jstr -> option Klass))).
Context (attachToEntity : Runtime -> EntityId -> Klass -> option json -> option Runtime).

(** A script's constructor returns, and does not touch the hierarchy. *)
Definition attach_is_quiet : Prop :=
  forall r id klass props, exists r', attachToEntity r id klass props = Some r'
    /\ World.entities r' = World.entities r /\ World.pendingDestroy r' = World.pendingDestroy r.

Context (Hquiet : attach_is_quiet).

Definition core (X : Mirror (Wrapper := Wrapper)) : Core :=
  (World.entities (rt X), World.pendingDestroy (rt X), index X, pendingUnmap X).

Lemma core_resolve (X : Mirror (Wrapper := Wrapper)) id :
  (resolve X id).1 = mget (toLocal (index X)) id /\ core (resolve X id).2 = core X.
Proof. unfold resolve, local_. by destruct (mget _ _). Qed.

Lemma facade_core (r : Runtime) id :
  World.entities (World.facade r id).2 = World.entities r /\ World.pendingDestroy (World.facade r id).2 = World.pendingDestroy r.
Proof. unfold World.facade. by destruct (mget _ _). Qed.

Lemma core_facade (X : Mirror (Wrapper := Wrapper)) id : core (with_rt X (World.facade (rt X) id).2) = core X.
Proof. unfold core. simpl. by destruct (facade_core (rt X) id) as [-> ->]. Qed.

Lemma core_tags names : forall (X : Mirror (Wrapper := Wrapper)) l,
  core (with_rt X (foldl (fun r name => World.tag r l name) (rt X) names)) = core X.
Proof.
  intros X l. unfold core. simpl. assert (H : forall r, World.entities (foldl (fun r name => World.tag r l name) r names) = World.entities r
    /\ World.pendingDestroy (foldl (fun r name => World.tag r l name) r names) = World.pendingDestroy r).
  { induction names as [|n names IH]; intros r; [done|]. cbn [foldl]. by destruct (IH (World.tag r l n)) as [-> ->]. }
  by destruct (H (rt X)) as [-> ->].
Qed.

Lemma core_attach_script (X : Mirror (Wrapper := Wrapper)) l a : exists X', attach_script scripts attachToEntity X l a = Ok X' /\ core X' = core X.
Proof using Hquiet.
  unfold attach_script. destruct scripts as [[loc cls]|]; [|by eexists].
  destruct (loc (script a)) as [[]|]; try by eexists.
  all: destruct (cls (script a)) as [k|]; [|by eexists].
  all: destruct (Hquiet (rt X) l k (props a)) as (r' & -> & He & Hq); eexists; (split; [done|]); unfold core; simpl; by rewrite He, Hq.
Qed.

Lemma core_attach_all l atts : forall (X : Mirror (Wrapper := Wrapper)), exists X', attach_all scripts attachToEntity X l atts = Ok X' /\ core X' = core X.
Proof using Hquiet.
  induction atts as [|a atts IH]; intros X; [by eexists|]. simpl. destruct (core_attach_script X l a) as (X1 & -> & H1).
  destruct (IH X1) as (X2 & -> & H2). exists X2. split; [done|congruence].
Qed.

(** [attach_local] where the table links. *)
Lemma core_attach_local (X : Mirror (Wrapper := Wrapper)) l p :
  (EntityTable.attachTo (World.entities (rt X)) l p).2 = Attached ->
  exists X', attach_local X l p = Ok X'
    /\ core X' = ((EntityTable.attachTo (World.entities (rt X)) l p).1, World.pendingDestroy (rt X), index X, pendingUnmap X).
Proof.
  intros H. unfold attach_local, World.attachTo. destruct (facade_core (rt X) p) as [He Hq].
  set (r := (World.facade (rt X) p).2) in *. rewrite He. destruct (EntityTable.attachTo _ l p) as [t []]; try done.
  eexists. split; [done|]. unfold core. simpl. by rewrite Hq.
Qed.

Lemma unlink_false t id : (unlink t id).2 = false -> (unlink t id).1 = t.
Proof. unfold unlink. destruct (EntityTable.record t id); [|done]. by destruct (_ =? _). Qed.

Lemma core_detach (X : Mirror (Wrapper := Wrapper)) l :
  core (with_rt X (World.detach (rt X) l)) = ((unlink (World.entities (rt X)) l).1, World.pendingDestroy (rt X), index X, pendingUnmap X).
Proof.
  unfold core, World.detach. pose proof (unlink_false (World.entities (rt X)) l). destruct (unlink _ l) as [t []]; simpl in *; [done|].
  by rewrite H.
Qed.

Lemma core_ensure (X : Mirror (Wrapper := Wrapper)) key : core (ensure_host X key).2 = core X.
Proof. unfold ensure_host. by destruct (ensure _ _ _) as [[? ?] ?]. Qed.

Lemma core_remove_host (r : Runtime) key :
  World.entities (remove_host r key) = World.entities r /\ World.pendingDestroy (remove_host r key) = World.pendingDestroy r.
Proof. unfold remove_host. by destruct (Hosts.remove _ _ _). Qed.

Lemma core_remove_player (X : Mirror (Wrapper := Wrapper)) id : core (remove_player X id) = core X.
Proof.
  unfold remove_player. destruct (mget _ _); [|done]. unfold core. simpl.
  repeat match goal with |- context [remove_host ?r ?k] => destruct (core_remove_host r k) as [-> ->]; simpl end. done.
Qed.

Lemma core_join (X : Mirror (Wrapper := Wrapper)) p : core (joinPlayer X p) = core X.
Proof. unfold joinPlayer. destruct (mget _ _); [done|]. by rewrite !core_ensure. Qed.

Lemma spawn_core (X : Mirror (Wrapper := Wrapper)) tmpl x y own n :
  SlotTable.wf (World.entities (rt X)) -> room spare (World.entities (rt X)) n -> 1 <= n ->
  exists l r, World.spawn (rt X) tmpl x y own = Ok (l, r)
    /\ EntityTable.create (World.entities (rt X)) tmpl own = Ok (l, World.entities r)
    /\ World.pendingDestroy r = World.pendingDestroy (rt X) /\ room spare (World.entities r) (n - 1).
Proof.
  intros Hw (R1 & R2 & R3) Hn. unfold World.spawn, EntityTable.liveCount. rewrite (proj2 (Z.leb_gt _ _)) by lia.
  destruct (EntityTable.create (World.entities (rt X)) tmpl own) as [[l t]|e] eqn:E.
  - eexists l, _. split; [done|]. destruct (facade_core (mark (set_transforms (set_entities (rt X) t (World.pendingDestroy (rt X)))
      (setPosition (initSlot (World.transforms (set_entities (rt X) t (World.pendingDestroy (rt X)))) l) l x y f0)) (Spawn l tmpl)) l) as [He Hq].
    split; [by rewrite He|]. split; [by rewrite Hq|]. rewrite He. simpl. unfold EntityTable.create in E. destruct (create_slots _ _ _ _ E). split; [|split]; lia.
  - unfold EntityTable.create in E. apply (create_throws _ _ _ Hw) in E as (_ & _ & E). lia.
Qed.

Lemma spawn_parent_follows m seen (X : Mirror (Wrapper := Wrapper)) id l p n :
  follows (<[id := NONE]> m) seen (core X) -> mget (toLocal (index X)) id = Some l -> m !! id = None -> id <> NONE -> id ∈ seen ->
  (forall x px, m !! x = Some px -> px <> id) ->
  match p with None => True | Some p => p <> NONE /\ anchored m p end -> room spare (World.entities (rt X)) n ->
  exists X', spawn_parent X l p = Ok X' /\ follows (<[id := net_or_none p]> m) seen (core X') /\ room spare (World.entities (rt X')) n.
Proof.
  intros F Hl Hm Hne Hs Hnew Hp Hr. destruct p as [p|]; [|by exists X].
  destruct Hp as [Hpn [L HL]]. assert (HLid : id ∉ L).
  { intros Hin. destruct (chain_dom _ _ _ HL id Hin) as [? E]. congruence. }
  assert (HL' : chain (<[id := NONE]> m) p L).
  { apply (chain_sub _ m); [done|]. intros x px Hx Hpx. rewrite lookup_insert_ne; [done|]. congruence. }
  assert (Hpd : is_Some (<[id := NONE]> m !! p)) by (by apply anchored_dom; [exists L|]).
  destruct (fw_dom _ _ _ F p Hpd) as [lp Hlp]. simpl in Hlp.
  assert (Hid : is_Some (<[id := NONE]> m !! id)) by (rewrite lookup_insert_eq; by eexists).
  assert (Ha : anchored (<[id := NONE]> m) id).
  { exists [id]. apply (chain_step _ id NONE); [apply lookup_insert_eq|constructor]. }
  destruct (attach_follows _ _ _ _ _ _ id l p lp L F Ha Hid Hl Hpn HL' HLid Hlp) as [Hatt F'].
  unfold spawn_parent. destruct (core_resolve X p) as [R1 R2]. destruct (resolve X p) as [o X1]. simpl in R1, R2. subst o. rewrite Hlp.
  assert (HeX : World.entities (rt X1) = World.entities (rt X)) by (unfold core in R2; congruence).
  destruct (core_attach_local X1 l lp) as (X2 & E2 & C2); [by rewrite HeX|]. exists X2. split; [done|].
  assert (C2' : core X2 = ((EntityTable.attachTo (World.entities (rt X)) l lp).1, World.pendingDestroy (rt X), index X, pendingUnmap X)).
  { rewrite C2. unfold core in R2. injection R2 as R2a R2b R2c R2d. by rewrite R2a, R2b, R2c, R2d. }
  rewrite C2'. split.
  - replace (<[id := net_or_none (Some p)]> m) with (alter (fun _ => p) id (<[id := NONE]> m)); [done|].
    apply map_eq. intros x. destruct (decide (x = id)) as [->|Hx]; [by rewrite lookup_alter_eq, !lookup_insert_eq|].
    by rewrite lookup_alter_ne, !lookup_insert_ne by done.
  - replace (World.entities (rt X2)) with (EntityTable.attachTo (World.entities (rt X)) l lp).1 by (unfold core in C2'; congruence).
    by apply (room_grows spare (World.entities (rt X))); [apply grows_attach|].
Qed.

Lemma spawn_follows m seen (X : Mirror (Wrapper := Wrapper)) delta s n :
  follows m seen (core X) -> lawful_op seen m (WSpawn s) -> room spare (World.entities (rt X)) n -> 1 <= n ->
  exists X' delta', spawn_snapshot scripts attachToEntity X s delta = Ok (X', delta')
    /\ follows (<[netId s := net_or_none (es_parent s)]> m) ({[netId s]} ∪ seen) (core X')
    /\ room spare (World.entities (rt X')) (n - 1).
Proof using Hquiet.
  intros F (Hsafe & Hne & Hnew & Hp) Hr Hn. unfold spawn_snapshot. rewrite Hsafe. cbn [negb].
  pose proof (fo_wf _ (fw_forest _ _ _ F)) as Hw. simpl in Hw.
  destruct (spawn_core X (es_template s) (Replicate.posX (Replicate.transform s)) (Replicate.posY (Replicate.transform s))
    (nullish (es_owner s) []) n Hw Hr Hn) as (l & r & -> & Hc & Hq & Hr').
  set (X1 := with_index (with_rt X r) (index_set (index X) (netId s) l) (pendingUnmap X)).
  pose proof (follows_spawn _ _ _ _ _ _ (netId s) _ _ l _ F Hne Hnew Hc) as F1.
  assert (C1 : core X1 = (World.entities r, World.pendingDestroy (rt X), index_set (index X) (netId s) l, pendingUnmap X)).
  { unfold core, X1. simpl. by rewrite Hq. }
  destruct (spawn_parent_follows m ({[netId s]} ∪ seen) X1 (netId s) l (es_parent s) (n - 1)) as (X2 & -> & F2 & Hr2); try done.
  - by rewrite C1.
  - unfold X1. simpl. by rewrite mget_mset_eq.
  - destruct (m !! netId s) eqn:E; [|done]. by destruct (fw_seen _ _ _ F (netId s) _ E).
  - set_solver.
  - intros x px Hx ->. by destruct (fw_seen _ _ _ F x (netId s) Hx) as [_ [?|?]].
  - cbv zeta. set (X3 := if MAX_WIRE_ITEMS <? arr_len (Replicate.tags s) then _ else _).
    assert (C3 : core X3 = core X2) by (unfold X3; destruct (_ <? _); [done|apply core_tags]).
    destruct (core_attach_all l (nullish (overrides s) []) X3) as (X4 & E4 & C4).
    assert (H4 : exists X4, (if MAX_ENTITY_SCRIPTS <? arr_len (nullish (overrides s) []) then Ok (Mirror.bump X3 oversizedList)
      else attach_all scripts attachToEntity X3 l (nullish (overrides s) [])) = Ok X4 /\ core X4 = core X2).
    { destruct (MAX_ENTITY_SCRIPTS <? _).
      - exists (Mirror.bump X3 oversizedList). split; [reflexivity|]. rewrite <- C3. reflexivity.
      - exists X4. by rewrite E4, C4. }
    destruct H4 as (X5 & -> & C5). eexists _, _. split; [done|].
    assert (C6 : core (writeTransform X5 l (Replicate.transform s)) = core X2) by (rewrite <- C5; done).
    rewrite C6. split; [done|]. replace (World.entities (rt (writeTransform X5 l (Replicate.transform s)))) with (World.entities (rt X2)); [done|].
    unfold core in C6. congruence.
Qed.

Lemma destroy_follows m seen (X : Mirror (Wrapper := Wrapper)) delta id n :
  follows m seen (core X) -> is_Some (m !! id) -> room spare (World.entities (rt X)) n ->
  let X' := (destroy_net X id delta).1 in follows (delete id m) seen (core X') /\ room spare (World.entities (rt X')) n.
Proof.
  intros F Hid Hr. destruct (fw_dom _ _ _ F id Hid) as [l Hl]. simpl in Hl. unfold destroy_net, resolve, local_. rewrite Hl. simpl.
  pose proof (follows_destroy _ _ _ _ _ _ id l F Hid Hl) as F'.
  assert (Hg : grows (World.entities (rt X)) (EntityTable.destroy (World.entities (rt X), World.pendingDestroy (rt X)) l).1)
    by apply (grows_destroy _ (World.entities (rt X), World.pendingDestroy (rt X))).
  unfold World.destroy. unfold core. simpl. destruct (EntityTable.destroy _ l) as [t' q']. simpl in *.
  split; [done|]. by apply (room_grows spare (World.entities (rt X))).
Qed.

Lemma reparent_follows m seen (X : Mirror (Wrapper := Wrapper)) delta id to n :
  follows m seen (core X) -> lawful_op seen m (WReparent id to) -> room spare (World.entities (rt X)) n ->
  exists X' delta', reparent_net X id to delta = Ok (X', delta')
    /\ follows (alter (fun _ => net_or_none to) id m) seen (core X') /\ room spare (World.entities (rt X')) n.
Proof.
  intros F Hlaw Hr. assert (Hid : is_Some (m !! id) /\ anchored m id) by (destruct to; simpl in Hlaw; tauto). destruct Hid as [Hid Ha].
  destruct (fw_dom _ _ _ F id Hid) as [l Hl]. simpl in Hl. unfold reparent_net, resolve at 1, local_. rewrite Hl.
  set (X1 := with_rt X _). pose proof (core_facade X l : core X1 = core X) as C1.
  assert (E1 : World.entities (rt X1) = World.entities (rt X)) by (unfold core in C1; congruence). clearbody X1.
  destruct to as [to|].
  - destruct Hlaw as (_ & _ & Hto & L & HL & Hni).
    destruct (fw_dom _ _ _ F to) as [lto Hlto]; [by apply anchored_dom; [exists L|]|]. simpl in Hlto.
    destruct (attach_follows _ _ _ _ _ _ id l to lto L F Ha Hid Hl Hto HL Hni Hlto) as [Hatt F'].
    destruct (core_resolve X1 to) as [R1 R2]. destruct (resolve X1 to) as [o X2]. simpl in R1, R2. subst o.
    replace (mget (toLocal (index X1)) to) with (Some lto) by (unfold core in C1; congruence).
    assert (C12 : core X2 = core X) by congruence. assert (E2 : World.entities (rt X2) = World.entities (rt X)) by (unfold core in C12; congruence).
    destruct (core_attach_local X2 l lto) as (X3 & -> & C3); [by rewrite E2|]. eexists _, _. split; [done|].
    assert (C3' : core X3 = ((EntityTable.attachTo (World.entities (rt X)) l lto).1, World.pendingDestroy (rt X), index X, pendingUnmap X)).
    { rewrite C3. unfold core in C12. injection C12 as -> -> -> ->. done. }
    rewrite C3'. split; [done|]. replace (World.entities (rt X3)) with (EntityTable.attachTo (World.entities (rt X)) l lto).1
      by (unfold core in C3'; congruence). by apply (room_grows spare (World.entities (rt X))); [apply grows_attach|].
  - eexists _, _. split; [done|]. pose proof (detach_follows _ _ _ _ _ _ id l F Ha Hid Hl) as F'.
    assert (C2 : core (with_rt X1 (World.detach (rt X1) l)) = ((unlink (World.entities (rt X)) l).1, World.pendingDestroy (rt X), index X, pendingUnmap X)).
    { rewrite core_detach. unfold core in C1. injection C1 as -> -> -> ->. done. }
    rewrite C2. split; [done|]. replace (World.entities (rt (with_rt X1 (World.detach (rt X1) l)))) with (unlink (World.entities (rt X)) l).1
      by (unfold core in C2; congruence). by apply (room_grows spare (World.entities (rt X))); [apply grows_unlink|].
Qed.

Lemma entities_of (X X' : Mirror (Wrapper := Wrapper)) : core X' = core X -> World.entities (rt X') = World.entities (rt X).
Proof. unfold core. congruence. Qed.

Lemma core_tag_net (X : Mirror (Wrapper := Wrapper)) id name on : core (tag_net X id name on) = core X.
Proof.
  unfold tag_net. destruct (core_resolve X id) as [_ C]. destruct (resolve X id) as [[l|] X1]; simpl in C; [|done].
  rewrite <- C. unfold core. simpl. destruct (facade_core (rt X1) l) as [He Hq]. destruct on; simpl; by rewrite He, Hq.
Qed.

Lemma core_attach_net (X : Mirror (Wrapper := Wrapper)) id a : exists X', attach_net scripts attachToEntity X id a = Ok X' /\ core X' = core X.
Proof using Hquiet.
  unfold attach_net. destruct (core_resolve X id) as [_ C]. destruct (resolve X id) as [[l|] X1]; simpl in C; [|by exists X1].
  destruct (core_attach_script X1 l a) as (X2 & -> & C2). exists X2. split; [done|congruence].
Qed.

Lemma core_leave (X : Mirror (Wrapper := Wrapper)) id delta : core (leavePlayer X id delta).1 = core X.
Proof.
  unfold leavePlayer. destruct (mget (players X) id); [|done]. simpl. rewrite <- (core_remove_player X id). unfold core. simpl.
  by destruct (core_remove_host (rt (remove_player X id)) (Hosts.playerKey id)) as [-> ->].
Qed.

Lemma single_follows m seen (X : Mirror (Wrapper := Wrapper)) delta op n :
  follows m seen (core X) -> lawful_op seen m op -> room spare (World.entities (rt X)) n -> spawns_one op <= n ->
  exists X' delta', applySingle scripts attachToEntity (X, delta) op = Ok (X', delta')
    /\ follows (relink m op) (see seen op) (core X') /\ room spare (World.entities (rt X')) (n - spawns_one op).
Proof using Hquiet.
  intros F Hl Hr Hn. assert (Hsame : forall X' : Mirror (Wrapper := Wrapper), core X' = core X ->
    follows m seen (core X') /\ room spare (World.entities (rt X')) (n - 0)).
  { intros X' C. rewrite C, (entities_of X X' C), Z.sub_0_r. done. }
  destruct op as [s|id|id to|id name on|id a|p|id]; simpl in *.
  - by apply spawn_follows.
  - destruct (destroy_follows m seen X delta id n F Hl Hr) as [F' Hr']. destruct (destroy_net X id delta) as [X' d'].
    eexists _, _. rewrite Z.sub_0_r. done.
  - rewrite Z.sub_0_r. by apply (reparent_follows m seen X delta id to n).
  - eexists _, _. split; [done|]. apply Hsame, core_tag_net.
  - destruct (core_attach_net X id a) as (X' & -> & C). eexists _, _. split; [done|]. by apply Hsame.
  - eexists _, _. split; [done|]. apply Hsame, core_join.
  - pose proof (core_leave X id delta) as C. destruct (leavePlayer X id delta) as [X' d']. eexists _, _. split; [done|]. by apply Hsame.
Qed.

Lemma singles_follow ops : forall m seen (X : Mirror (Wrapper := Wrapper)) delta n,
  follows m seen (core X) -> lawful seen m ops -> room spare (World.entities (rt X)) n -> spawns ops <= n ->
  exists X' delta', applySingles scripts attachToEntity (X, delta) ops = Ok (X', delta')
    /\ follows (foldl relink m ops) (foldl see seen ops) (core X') /\ room spare (World.entities (rt X')) (n - spawns ops).
Proof using Hquiet.
  induction ops as [|op ops IH]; intros m seen X delta n F Hl Hr Hn.
  { exists X, delta. simpl. by rewrite Z.sub_0_r. }
  destruct Hl as [Ho Hl]. pose proof (spawns_nonneg ops). cbn [spawns foldr] in Hn. fold (spawns ops) in Hn.
  destruct (single_follows m seen X delta op n F Ho Hr) as (X1 & d1 & E1 & F1 & R1); [lia|].
  destruct (IH _ _ X1 d1 _ F1 Hl R1) as (X2 & d2 & E2 & F2 & R2); [lia|].
  exists X2, d2. cbn [applySingles]. rewrite E1. split; [done|]. split; [done|].
  cbn [spawns foldr]. fold (spawns ops). by replace (n - (spawns_one op + spawns ops)) with (n - spawns_one op - spawns ops) by lia.
Qed.

Lemma journal_follows ops : forall m seen (X : Mirror (Wrapper := Wrapper)) delta n,
  follows m seen (core X) -> lawful seen m (wire_flat ops) -> Forall short ops ->
  room spare (World.entities (rt X)) n -> spawns (wire_flat ops) <= n ->
  exists X' delta', applyJournal scripts attachToEntity (X, delta) ops = Ok (X', delta')
    /\ follows (foldl relink m (wire_flat ops)) (foldl see seen (wire_flat ops)) (core X')
    /\ room spare (World.entities (rt X')) (n - spawns (wire_flat ops)).
Proof using Hquiet.
  induction ops as [|op ops IH]; intros m seen X delta n F Hl Hs Hr Hn.
  { exists X, delta. simpl. by rewrite Z.sub_0_r. }
  apply Forall_cons in Hs as [Hop Hs]. unfold wire_flat in *. cbn [mbind list_bind] in *. rewrite spawns_app in Hn.
  apply lawful_app in Hl as [Hl1 Hl2]. pose proof (spawns_nonneg (ops ≫= wire_singles)). pose proof (spawns_nonneg (wire_singles op)).
  assert (H1 : exists X1 d1, applyStructural scripts attachToEntity (X, delta) op = Ok (X1, d1)
    /\ follows (foldl relink m (wire_singles op)) (foldl see seen (wire_singles op)) (core X1)
    /\ room spare (World.entities (rt X1)) (n - spawns (wire_singles op))).
  { destruct op as [op|l]; simpl in Hop.
    - destruct (single_follows m seen X delta op n F) as (X1 & d1 & E1 & F1 & R1); [by apply Hl1|done|simpl in *; lia|].
      exists X1, d1. cbn [spawns foldr wire_singles]. by rewrite Z.add_0_r.
    - cbn [applyStructural]. rewrite (proj2 (Z.ltb_ge _ _)) by lia. apply singles_follow; [done..|]. simpl in *. lia. }
  destruct H1 as (X1 & d1 & E1 & F1 & R1). destruct (IH _ _ X1 d1 _ F1 Hl2 Hs R1) as (X2 & d2 & E2 & F2 & R2); [lia|].
  exists X2, d2. cbn [applyJournal]. rewrite E1, !foldl_app, spawns_app. split; [done|]. split; [done|].
  replace (n - _) with (n - spawns (wire_singles op) - spawns (ops ≫= wire_singles)) by lia. done.
Qed.

(** *** Envelopes *)

Context (reviveWrapper : json -> option Wrapper) (wrapper_restore : Wrapper -> json -> Wrapper).
Context (answers : Runtime -> HostObject -> jstr -> bool).
Context (dispatchEnd : Runtime -> EntityId -> list (option GuardOwner * entity_op)).

Definition ends_are_quiet : Prop := forall r id c, c ∈ dispatchEnd r id -> quiet c.2 = true.

Context (Hends : ends_are_quiet).

(** What arrives: the reliable envelope, or the droppable one. *)
Inductive arrival := AState (e : StateEnvelope) | ATransforms (e : TransformEnvelope).

Fixpoint receive (X : Mirror (Wrapper := Wrapper)) (l : list arrival) : outcome mirror_error (Mirror (Wrapper := Wrapper)) :=
  match l with
  | [] => Ok X
  | ATransforms e :: l => receive (applyTransforms X e) l
  | AState e :: l =>
      match applyState scripts attachToEntity reviveWrapper wrapper_restore answers dispatchEnd X e with
      | Ok (X, _) => receive X l
      | Throw err => Throw err
      end
  end.

(** The structural ops of what arrives, in order. *)
Definition ops_of (a : arrival) : list WireOp := match a with AState e => se_structural e | ATransforms _ => [] end.

Lemma core_write_one (X : Mirror (Wrapper := Wrapper)) d : core (write_one X d) = core X.
Proof.
  unfold write_one. destruct (core_resolve X d.1) as [_ C]. destruct (resolve X d.1) as [[l|] X1]; simpl in C; [|done].
  by rewrite <- C.
Qed.

Lemma core_writes (X : Mirror (Wrapper := Wrapper)) e : core (writeTransforms X e) = core X.
Proof.
  unfold writeTransforms. generalize (te_transform e). intros l. revert X.
  induction l as [|d l IH]; intros X; [done|]. cbn [foldl]. by rewrite IH, core_write_one.
Qed.

Lemma core_applyTransforms (X : Mirror (Wrapper := Wrapper)) e : core (applyTransforms X e) = core X.
Proof. unfold applyTransforms. destruct (_ <? _); [by destruct (heldTransforms X)|apply core_writes]. Qed.

Lemma core_release (X : Mirror (Wrapper := Wrapper)) tick : core (releaseHeldTransforms X tick) = core X.
Proof. unfold releaseHeldTransforms. destruct (heldTransforms X) as [h|]; [|done]. destruct (_ <? _); [done|]. by rewrite core_writes. Qed.

Lemma core_fields r h l : forall (X : Mirror (Wrapper := Wrapper)),
  core (foldl (apply_field reviveWrapper wrapper_restore answers r h) X l) = core X.
Proof.
  induction l as [|f l IH]; intros X; [done|]. cbn [foldl]. rewrite IH. unfold apply_field. destruct h as [h|]; [|done].
  unfold hoistReplicated. destruct (shas _ _); [done|]. by destruct (answers _ _ _).
Qed.

Lemma core_applyStateField (X : Mirror (Wrapper := Wrapper)) d :
  core (applyStateField reviveWrapper wrapper_restore answers X d) = core X.
Proof.
  unfold applyStateField. assert (H1 : core (hostKey X (host d)).2 = core X).
  { unfold hostKey. destruct (host d) as [|?|id]; [done..|]. destruct (core_resolve X id) as [_ C]. by destruct (resolve X id) as [[l|] X1]. }
  destruct (hostKey X (host d)) as [[key|] X1]; simpl in H1; [|done]. pose proof (core_ensure X1 key) as H2.
  destruct (ensure_host X1 key) as [entry X2]. simpl in H2. assert (H3 : core (facadeFor X2 (host d)).2 = core X2).
  { unfold facadeFor. destruct (host d) as [|?|id]; [done..|]. destruct (local_ _ _) as [l|]; [|done].
    pose proof (core_facade X2 l) as C. by destruct (World.facade (rt X2) l). }
  destruct (facadeFor X2 (host d)) as [h X3]. simpl in H3. rewrite core_fields. congruence.
Qed.

Lemma core_state l : forall (X : Mirror (Wrapper := Wrapper)),
  core (foldl (applyStateField reviveWrapper wrapper_restore answers) X l) = core X.
Proof. induction l as [|d l IH]; intros X; [done|]. cbn [foldl]. by rewrite IH, core_applyStateField. Qed.

(** Nothing is left queued between envelopes. *)
Definition settled (c : Core) : Prop := c.1.1.2 = [] /\ c.2 = [].

Lemma live_bound m seen t ix : follows m seen (t, [], ix, []) -> SlotTable.liveCount t <= Z.of_nat (size m).
Proof.
  intros F. pose proof (fo_wf _ (fw_forest _ _ _ F)) as Hw. simpl in Hw. rewrite <- (size_abs t (wf_core t Hw)). apply inj_le.
  set (f := fun l => nullish (mget (toNet ix) l) NONE).
  assert (Hf : forall l, l ∈ elements (dom (SlotTable.abs t)) -> exists id, mget (toLocal ix) id = Some l /\ f l = id /\ is_Some (m !! id)).
  { intros l Hl. apply elem_of_elements, elem_of_dom, view_Some in Hl as [v Hv]. destruct (fw_cover _ _ _ F l v Hv) as [id Hid].
    simpl in Hid. exists id. split; [done|]. split; [unfold f; apply (fw_pair _ _ _ F) in Hid; simpl in Hid; by rewrite Hid|].
    destruct (fw_only _ _ _ F id) as [H|H]; [by exists l|done|by apply not_elem_of_nil in H]. }
  assert (Hnd : NoDup (f <$> elements (dom (SlotTable.abs t)))).
  { apply NoDup_fmap_2_strong; [|apply NoDup_elements]. intros x y Hx Hy Hxy.
    destruct (Hf x Hx) as (ix' & Hix & Hfx & _), (Hf y Hy) as (iy & Hiy & Hfy & _). congruence. }
  assert (Hsub : (f <$> elements (dom (SlotTable.abs t))) ⊆ elements (dom m)).
  { intros id Hid. apply list_elem_of_fmap in Hid as (l & -> & Hl). destruct (Hf l Hl) as (id & _ & -> & Hm).
    by apply elem_of_elements, elem_of_dom. }
  pose proof (submseteq_length _ _ (NoDup_submseteq _ _ Hnd (fun x => Hsub x))) as Hlen.
  rewrite length_fmap in Hlen. rewrite <- !size_dom. exact Hlen.
Qed.

Lemma applyState_follows m seen (X : Mirror (Wrapper := Wrapper)) e :
  let n := spawns (wire_flat (se_structural e)) in
  follows m seen (core X) -> settled (core X) -> lawful seen m (wire_flat (se_structural e)) -> Forall short (se_structural e) ->
  Z.of_nat (size m) + n <= World.MAX_ENTITIES ->
  SlotTable.slotCount (World.entities (rt X)) + n + spare <= INDEX_RANGE -> 0 <= spare ->
  exists X' delta, applyState scripts attachToEntity reviveWrapper wrapper_restore answers dispatchEnd X e = Ok (X', delta)
    /\ follows (foldl relink m (wire_flat (se_structural e))) (foldl see seen (wire_flat (se_structural e))) (core X')
    /\ settled (core X') /\ SlotTable.slotCount (World.entities (rt X')) + spare <= INDEX_RANGE.
Proof using Hquiet Hends.
  intros n F [Hq Hu] Hl Hs Hlive Hslots Hsp. simpl in Hq, Hu. unfold applyState. cbv zeta. set (X0 := with_ticks X _ _ _ _).
  assert (F0 : follows m seen (core X0)) by done.
  assert (R0 : room spare (World.entities (rt X0)) n).
  { pose proof F as Fb. unfold core in Fb. rewrite Hq, Hu in Fb. apply live_bound in Fb. split; [|split]; simpl; lia. }
  destruct (journal_follows (se_structural e) m seen X0 emptyDelta n F0 Hl Hs R0) as (X1 & d1 & -> & F1 & R1); [done|].
  eexists _, _. split; [done|]. set (X2 := foldl (applyStateField reviveWrapper wrapper_restore answers) _ _). set (X3 := releaseHeldTransforms _ _).
  destruct (quiet_drain dispatchEnd (rt X1) Hends) as [He Hpd].
  assert (C2 : core X2 = (foldl drain_one (World.entities (rt X1)) (World.pendingDestroy (rt X1)), [], foldl index_delete (index X1) (pendingUnmap X1), [])).
  { unfold X2. rewrite core_state. unfold core. simpl. by rewrite He, Hpd. }
  assert (C3 : core X3 = core X2) by (unfold X3; by rewrite core_release). rewrite C3, C2.
  split; [by apply follows_drain|]. split; [done|]. rewrite (entities_of X2 X3 C3).
  replace (World.entities (rt X2)) with (foldl drain_one (World.entities (rt X1)) (World.pendingDestroy (rt X1))) by (unfold core in C2; congruence).
  rewrite (gr_slots _ _ (grows_drain _ _ (fo_wf _ (fw_forest _ _ _ F1)))). destruct R1 as (_ & R1 & _). simpl in R1. fold n in R1. simpl. lia.
Qed.
End mirror_follows.

(** ** The client, from its first envelope *)

(** Every envelope fits: what is there and what it spawns stay within the cap. *)
Fixpoint roomy (m : links) (l : list (list WireOp)) : Prop :=
  match l with
  | [] => True
  | ops :: l => Z.of_nat (size m) + spawns (wire_flat ops) <= World.MAX_ENTITIES /\ roomy (foldl relink m (wire_flat ops)) l
  end.

Lemma wire_flat_app a b : wire_flat (a ++ b) = wire_flat a ++ wire_flat b.
Proof. apply bind_app. Qed.

(** The mirror holds an image of [m]: a pairing of its entities with the ids of [m] that
    carries every parent link over, and nothing else. *)
Record mirrors {Wrapper} (m : links) (X : Mirror (Wrapper := Wrapper)) : Prop := {
  mi_entity id p : m !! id = Some p -> exists l r,
    local_ (index X) id = Some l /\ net (index X) l = Some id
    /\ EntityTable.record (World.entities (rt X)) l = Some r /\ EntityTable.alive r = true /\ image (index X) p (EntityTable.parent r);
  mi_only l r : EntityTable.record (World.entities (rt X)) l = Some r -> exists id, net (index X) l = Some id /\ is_Some (m !! id);
  mi_index id l : local_ (index X) id = Some l -> is_Some (m !! id);
}.

Section client.
Context {Klass Wrapper : Type}.
Context (scripts : option ((jstr -> option ScriptLocation) * (jstr -> option Klass))).
Context (attachToEntity : Runtime -> EntityId -> Klass -> option json -> option Runtime).
Context (reviveWrapper : json -> option Wrapper) (wrapper_restore : Wrapper -> json -> Wrapper).
Context (answers : Runtime -> HostObject -> jstr -> bool).
Context (dispatchEnd : Runtime -> EntityId -> list (option GuardOwner * entity_op)).
Context (Hquiet : attach_is_quiet attachToEntity) (Hends : ends_are_quiet dispatchEnd).

Abbreviation receive := (receive scripts attachToEntity reviveWrapper wrapper_restore answers dispatchEnd).

Lemma receive_follows l : forall m seen (X : Mirror (Wrapper := Wrapper)),
  let ops := l ≫= ops_of in
  follows m seen (core X) -> settled (core X) -> lawful seen m (wire_flat ops) -> Forall short ops -> roomy m (ops_of <$> l) ->
  SlotTable.slotCount (World.entities (rt X)) + spawns (wire_flat ops) <= INDEX_RANGE ->
  exists X', receive X l = Ok X' /\ follows (foldl relink m (wire_flat ops)) (foldl see seen (wire_flat ops)) (core X') /\ settled (core X').
Proof using Hquiet Hends.
  induction l as [|a l IH]; intros m seen X ops F Hset Hl Hs Hr Hn; [by exists X|]. unfold ops in *. cbn [mbind list_bind] in *.
  rewrite wire_flat_app in *. rewrite spawns_app in Hn. rewrite !foldl_app. apply lawful_app in Hl as [Hl1 Hl2]. apply Forall_app in Hs as [Hs1 Hs2].
  cbn [fmap list_fmap roomy] in Hr. destruct Hr as [Hr1 Hr2]. pose proof (spawns_nonneg (wire_flat (l ≫= ops_of))).
  destruct a as [e|e]; cbn [Replica.receive ops_of] in *.
  - destruct (applyState_follows (spawns (wire_flat (l ≫= ops_of))) scripts attachToEntity Hquiet reviveWrapper wrapper_restore answers
      dispatchEnd Hends m seen X e F Hset Hl1 Hs1 Hr1) as (X1 & d & -> & F1 & Hset1 & Hn1); [lia|lia|].
    by apply IH.
  - pose proof (core_applyTransforms X e) as C. simpl in *. apply IH; rewrite ?C; try done.
    by rewrite (entities_of X (applyTransforms X e) C).
Qed.

Lemma follows_mirrors m seen (X : Mirror (Wrapper := Wrapper)) :
  follows m seen (core X) -> settled (core X) -> (forall id, is_Some (m !! id) -> anchored m id) -> mirrors m X.
Proof.
  intros F [Hq Hu] Ha. simpl in Hq, Hu. pose proof (fo_wf _ (fw_forest _ _ _ F)) as Hw. simpl in Hw.
  assert (Honly : forall id l, mget (toLocal (index X)) id = Some l -> is_Some (m !! id)).
  { intros id l Hl. destruct (fw_only _ _ _ F id) as [H|H]; [by exists l|done|]. simpl in H. rewrite Hu in H. by apply not_elem_of_nil in H. }
  split.
  - intros id p Hp. destruct (fw_dom _ _ _ F id) as [l Hl]; [by exists p|]. simpl in Hl.
    destruct (fw_live _ _ _ F id p l Hp) as (p' & Hv & Hi); [apply Ha; by exists p|done|].
    apply view_lookup in Hv as (r & Hr & Hpr & Hal). simpl in Hr. exists l, r. split; [done|]. split; [by apply (fw_pair _ _ _ F) in Hl|].
    split; [by rewrite record_abs by apply Hw|]. split; [done|]. by rewrite Hpr.
  - intros l r Hr. rewrite record_abs in Hr by apply Hw. destruct (fw_cover _ _ _ F l (seen_as r)) as [id Hid].
    { unfold view. simpl. by rewrite lookup_fmap, Hr. }
    simpl in Hid. exists id. split; [by apply (fw_pair _ _ _ F) in Hid|by apply (Honly id l)].
  - intros id l Hl. by apply (Honly id l).
Qed.

Lemma follows_new : follows ∅ ∅ (core (new_mirror (Wrapper := Wrapper))).
Proof.
  split; cbn [core fst snd new_mirror rt new_runtime World.entities World.pendingDestroy index pendingUnmap]; try done.
  all: try apply forest_new.
  all: try (intros id [? H]; done).
  all: try (intros id H; by apply not_elem_of_nil in H).
Qed.
End client.
