(* ===== verification/Convergence.v ===== *)
(** * The replica converges to the world

    The server's runtime behind the sim's drain ([packages/sim/src/replicate.ts]) and the
    client's mirror in front of it. What [World] journals, converted by [Replicate] at
    each send, is a lawful journal, unless an entity is moved under one that is spawned
    and released between two sends; so the mirror ends up with the world's hierarchy, and
    in that one case it may not. *)

From S2P Require Import Prelude JsMap JsNum Json Handle SlotTable TagIndex Admission Replicate Snapshot TransformStore EntityTable.
From S2P Require Import Channels ScopeTree Timers Tweens Hosts World Mirror Replica.

Local Open Scope Z_scope.

(** ** The runtime as the world the sim reads *)

Section server.
(** The roster, the bundle's class ids, a record's host and fields as the sim reads them. *)
Context (roster_of : Runtime -> list Player) (scriptIdOf : jstr -> option jstr).
Context (hostIdOf : RecordRef -> jstr) (keysOf : Runtime -> RecordRef -> list jstr).
Context (fieldOf : Runtime -> RecordRef -> jstr -> (nat -> sobj) * sval).

#[export] Instance runtime_world : Replicate.World Runtime := {
  record rt id :=
    (fun r => Replicate.MkEntity (EntityTable.template r) (EntityTable.parent r) (EntityTable.ownerId r))
      <$> EntityTable.record (World.entities rt) id;
  liveIds rt := EntityTable.liveIds (World.entities rt);
  idAt rt := EntityTable.idAt (World.entities rt);
  tagsOf rt := TagIndex.tagsOf (World.tags rt);
  cells rt id :=
    let t := World.transforms rt in
    Replicate.MkTransform (posX t id) (posY t id) (posZ t id) (rotation t id) (scale t id) (opacity t id) (of_Z (layer t id));
  scriptsOn rt id := (fun i => (scriptIdOf (inst_class i), inst_props i)) <$> forHost (World.instances rt) (Hosts.entityKey id);
  players := roster_of;
  hostRecord rt key := Hosts.record <$> Hosts.get (World.hosts rt) key;
  recordKeys := keysOf;
  hostField := fieldOf;
  gameKey := Hosts.GAME_KEY;
  playerKey := Hosts.playerKey;
  entityKey := Hosts.entityKey;
  drainStructural rt := let '(l, c) := Channels.drainStructural (World.channels rt) in (l, set_channels rt c);
  consumeDirty rt := let '(l, t) := TransformStore.consumeDirty (World.transforms rt) in (l, set_transforms rt t);
  drainState rt :=
    let '(l, c) := Channels.drainState (World.channels rt) in
    ((fun m => MkMark m.1 (hostIdOf m.1) m.2) <$> l, set_channels rt c);
}.

(** What happens on the server: calls, the tick's destroy drain, group boundaries, and a
    send of at most [budget] ops with this roster change. *)
Inductive server_step :=
  | SCall (owner : option GuardOwner) (o : entity_op)
  | SDrain
  | SBeginGroup
  | SEndGroup
  | SSend (tick : Z) (roster : RosterOps) (budget : Z).

(** The runtime, the ops held over, and the structural part of every send. *)
Record Server := MkServer { sv_rt : Runtime; sv_spill : list WireOp; sv_sent : list (list WireOp) }.

Definition new_server : Server := MkServer new_runtime [] [].

Context (dispatchEnd : Runtime -> EntityId -> list (option GuardOwner * entity_op)).

Definition server_run (s : Server) (o : server_step) : Server :=
  match o with
  | SCall owner o => MkServer (do_op owner (sv_rt s) o) (sv_spill s) (sv_sent s)
  | SDrain => MkServer (drainDestroyed dispatchEnd (sv_rt s)) (sv_spill s) (sv_sent s)
  | SBeginGroup => MkServer (set_channels (sv_rt s) (beginGroup (World.channels (sv_rt s)))) (sv_spill s) (sv_sent s)
  | SEndGroup => MkServer (set_channels (sv_rt s) (endGroup (World.channels (sv_rt s)))) (sv_spill s) (sv_sent s)
  | SSend tick roster budget =>
      let '(set, spill, rt) := drainOnce (sv_rt s) tick roster (sv_spill s) budget in
      MkServer rt spill (sv_sent s ++ [Replicate.structural set])
  end.

(** No entity is moved under one that this send elides, and no group is open. *)
Definition clean_send (rt : Runtime) : Prop :=
  group (World.channels rt) = None
  /\ let journal := Channels.structural (World.channels rt) in
     forall id to, Reparent id to ∈ flatten journal -> to ∈ ephemeralIds rt journal -> id ∈ ephemeralIds rt journal.

Fixpoint clean_run (s : Server) (l : list server_step) : Prop :=
  match l with
  | [] => True
  | o :: l => match o with SSend _ _ _ => clean_send (sv_rt s) | _ => True end /\ clean_run (server_run s o) l
  end.

(** ** What the runtime journals is lawful *)

(** An op as it goes on the wire, the snapshot of a spawn left blank. *)
Definition as_wire (op : SingleOp) : WireSingle :=
  match op with
  | Spawn id tmpl => WSpawn (MkSnapshot id tmpl None None [] zero_cells None)
  | Destroy id => WDestroy id
  | Reparent id to => WReparent id (if to =? NONE then None else Some to)
  | Tag id name on => WTag id name on
  | Attach id a => WAttach id a
  end.

Lemma relink_as_wire m op : relink m (as_wire op) = replay_op m op.
Proof.
  destruct op as [id tmpl|id|id to|id name on|id a]; try done. unfold relink, as_wire, replay_op.
  destruct (to =? NONE) eqn:E; bool_facts; [by subst|done].
Qed.

Lemma relinks_as_wire l : forall m, foldl relink m (as_wire <$> l) = foldl replay_op m l.
Proof. induction l as [|op l IH]; intros m; [done|]. cbn [fmap list_fmap foldl]. by rewrite relink_as_wire, IH. Qed.

Lemma rooted_chain t x l : rooted (SlotTable.abs t) x l -> chain (parents t) x l.
Proof.
  induction 1 as [|x r l Hr Hl IH]; [constructor|]. apply (chain_step _ x (EntityTable.parent r)); [|done].
  unfold parents. by rewrite lookup_fmap, Hr.
Qed.

Lemma parents_Some t x : is_Some (parents t !! x) <-> is_Some (SlotTable.abs t !! x).
Proof. unfold parents. by rewrite lookup_fmap, fmap_is_Some. Qed.

(** Everything journaled so far, the drained part first. *)
Definition told (past : list SingleOp) (rt : Runtime) : list WireSingle := as_wire <$> (past ++ waiting (World.channels rt)).

Record honest (past : list SingleOp) (rt : Runtime) : Prop := {
  hn_tracks : tracks past rt;
  hn_lawful : lawful ∅ ∅ (told past rt);
  hn_spent id : id ∈ foldl see ∅ (told past rt) -> spent (World.entities rt) id;
}.

Lemma told_replay past rt : tracks past rt -> foldl relink ∅ (told past rt) = parents (World.entities rt).
Proof. intros Ht. unfold told. by rewrite relinks_as_wire, (tr_replay _ _ Ht). Qed.

(** One more op, after the table changed without forgetting a handle. *)
Lemma honest_marked past rt rt' op :
  honest past rt -> tracks past rt' -> World.channels rt' = markStructural (World.channels rt) op ->
  lawful_op (foldl see ∅ (told past rt)) (parents (World.entities rt)) (as_wire op) ->
  (forall h, spent (World.entities rt) h -> spent (World.entities rt') h) ->
  (forall id tmpl, op = Spawn id tmpl -> spent (World.entities rt') id) ->
  honest past rt'.
Proof.
  intros [Ht Hl Hs] Ht' Hc Hop Hsp Hnew.
  assert (E : told past rt' = told past rt ++ [as_wire op]).
  { unfold told. by rewrite Hc, waiting_mark, app_assoc, fmap_app. }
  split; [done|rewrite E|rewrite E].
  - apply lawful_app. split; [done|]. split; [|done]. by rewrite told_replay.
  - intros id. rewrite foldl_app. simpl. intros Hid.
    assert (Hcase : id ∈ foldl see ∅ (told past rt) \/ exists tmpl, op = Spawn id tmpl).
    { destruct op as [i tm|i|i to|i nm on|i a]; simpl in Hid; [|by left..].
      apply elem_of_union in Hid as [Hid|Hid]; [|by left]. apply elem_of_singleton in Hid. subst. right. by eexists. }
    destruct Hcase as [H|[tm H]]; [by apply Hsp, Hs|by apply (Hnew id tm)].
Qed.

Lemma honest_mark past rt rt' op :
  honest past rt -> tracks past (mark rt' op) -> World.channels rt' = World.channels rt ->
  lawful_op (foldl see ∅ (told past rt)) (parents (World.entities rt)) (as_wire op) ->
  (forall h, spent (World.entities rt) h -> spent (World.entities rt') h) ->
  (forall id tmpl, op = Spawn id tmpl -> spent (World.entities rt') id) ->
  honest past (mark rt' op).
Proof.
  intros Hh Ht' Hc Hop Hsp Hnew. apply (honest_marked past rt (mark rt' op) op); try done. unfold mark. simpl. by rewrite Hc.
Qed.

(** A change that journals nothing. *)
Lemma honest_same past rt rt' :
  honest past rt -> tracks past rt' -> World.channels rt' = World.channels rt ->
  (forall h, spent (World.entities rt) h -> spent (World.entities rt') h) -> honest past rt'.
Proof.
  intros [Ht Hl Hs] Ht' Hc Hsp. assert (E : told past rt' = told past rt) by (unfold told; by rewrite Hc).
  split; [done|by rewrite E|]. intros id. rewrite E. auto.
Qed.

Lemma attach_inv t q id to :
  forest (t, q) -> (EntityTable.attachTo t id to).2 = Attached ->
  is_Some (SlotTable.abs t !! id) /\ is_Some (SlotTable.abs t !! to) /\ exists l, rooted (SlotTable.abs t) to l /\ (id ∉ l).
Proof.
  intros [Hw Hok _]. simpl in *. unfold EntityTable.attachTo. rewrite !record_abs by apply Hw.
  destruct (SlotTable.abs t !! id) as [r|] eqn:Hr; [|done]. destruct (SlotTable.abs t !! to) as [rto|] eqn:Hto; [|done].
  destruct (negb _); [done|]. destruct (tk_rooted _ _ Hok to) as [l Hl]; [by exists rto|].
  assert (Hid0 : id <> NONE) by (intros E; pose proof (tk_null _ _ Hok); congruence).
  pose proof (ancestor_meets_spec (walk_fuel t) t to l id (wf_core t Hw) (tk_null _ _ Hok) Hl) as Hmeet.
  pose proof (rooted_length _ _ _ (tk_null _ _ Hok) Hl). pose proof (walk_fuel_enough t Hw).
  specialize (Hmeet ltac:(lia) Hid0). destruct (ancestor_meets _ t to id); [done|]. intros _.
  split; [by exists r|]. split; [by exists rto|]. exists l. split; [done|]. intros Hin. by apply Hmeet in Hin.
Qed.

Lemma anchored_live d rt id : rt_ok d rt -> is_Some (SlotTable.abs (World.entities rt) !! id) -> anchored (parents (World.entities rt)) id.
Proof.
  intros Hok Hid. destruct (tk_rooted _ _ (fo_tree _ (ro_forest _ _ Hok)) id Hid) as [l Hl]. exists l. by apply rooted_chain.
Qed.

Lemma not_null d rt id : rt_ok d rt -> is_Some (SlotTable.abs (World.entities rt) !! id) -> id <> NONE.
Proof. intros Hok [r Hr] ->. pose proof (tk_null _ _ (fo_tree _ (ro_forest _ _ Hok))) as Hn. simpl in Hn. congruence. Qed.

Lemma honest_attach past d rt id to : honest past rt -> rt_ok d rt -> honest past (World.attachTo rt id to).
Proof.
  intros Hh Hok. pose proof (tracks_op past rt None (EAttach id to) (hn_tracks _ _ Hh)) as Ht. simpl in Ht. revert Ht. unfold World.attachTo.
  pose proof (grows_attach (World.entities rt) id to) as Hg. pose proof (attach_inv _ _ id to (ro_forest _ _ Hok)) as Hinv.
  destruct (EntityTable.attachTo (World.entities rt) id to) as [t []]; try done. intros Ht. simpl in Hg, Hinv.
  destruct (Hinv eq_refl) as (Hid & Hto & l & Hl & Hni).
  apply (honest_mark past rt); [done..| |apply Hg|done]. unfold as_wire.
  rewrite (proj2 (Z.eqb_neq _ _)) by by apply (not_null d rt).
  split; [by apply parents_Some|]. split; [by apply (anchored_live d rt)|]. split; [by apply (not_null d rt)|].
  exists l. split; [by apply rooted_chain|done].
Qed.

Lemma honest_detach past d rt id : honest past rt -> rt_ok d rt -> honest past (World.detach rt id).
Proof.
  intros Hh Hok. pose proof (tracks_op past rt None (EDetach id) (hn_tracks _ _ Hh)) as Ht. simpl in Ht. revert Ht. unfold World.detach.
  pose proof (grows_unlink (World.entities rt) id) as Hg.
  assert (Hinv : (unlink (World.entities rt) id).2 = true -> is_Some (SlotTable.abs (World.entities rt) !! id)).
  { unfold unlink. rewrite record_abs by apply (ro_forest _ _ Hok). by destruct (SlotTable.abs (World.entities rt) !! id). }
  destruct (unlink (World.entities rt) id) as [t []]; [|done]. intros Ht. simpl in Hg, Hinv.
  apply (honest_mark past rt); [done..| |apply Hg|done].
  split; [by apply parents_Some, Hinv|]. by apply (anchored_live d rt), Hinv.
Qed.

Lemma honest_destroy past rt id : honest past rt -> honest past (World.destroy rt id).
Proof.
  intros Hh. pose proof (tracks_op past rt None (EDestroy id) (hn_tracks _ _ Hh)) as Ht. simpl in Ht.
  apply (honest_same past rt); [done|done| |].
  - unfold World.destroy. by destruct (EntityTable.destroy _ _).
  - unfold World.destroy. pose proof (grows_destroy (walk_fuel (World.entities rt)) (World.entities rt, World.pendingDestroy rt) id) as Hg.
    change (destroy_in _ _ id) with (EntityTable.destroy (World.entities rt, World.pendingDestroy rt) id) in Hg.
    destruct (EntityTable.destroy _ _). apply Hg.
Qed.

Lemma honest_spawn past rt tmpl x y own : honest past rt ->
  honest past (match World.spawn rt tmpl x y own with Ok (_, rt') => rt' | Throw _ => rt end).
Proof.
  intros Hh. pose proof (tracks_op past rt None (ESpawn tmpl x y own) (hn_tracks _ _ Hh)) as Ht. simpl in Ht. revert Ht.
  unfold World.spawn. destruct (MAX_ENTITIES <=? _); [done|]. destruct (EntityTable.create _ _ _) as [[id t]|] eqn:E; [|done].
  unfold EntityTable.create in E. pose proof (tr_wf _ _ (hn_tracks _ _ Hh)) as Hw.
  destruct (create_spent _ _ _ _ Hw E) as (Hns & Hs & Hmono). destruct (abs_create _ _ _ _ Hw E) as [_ Habs].
  pose proof (create_wf _ _ _ _ Hw E) as Hw'. set (rt1 := set_transforms _ _). intros Ht.
  assert (Hfac : forall r, tracks past (World.facade r id).2 -> tracks past r).
  { intros r [H1 H2 H3]. unfold World.facade in *. destruct (mget (facades r) id); by split. }
  assert (Hhm : honest past (mark rt1 (Spawn id tmpl))).
  { apply (honest_mark past rt); [done|by apply Hfac|done| |done|by intros ? ? [= <- _]].
    assert (Hid : is_Some (SlotTable.abs t !! id)) by (rewrite Habs, lookup_insert_eq; by eexists).
    destruct Hid as [r Hr]. pose proof (wf_core _ Hw') as Hc. rewrite abs_lookup in Hr by done.
    apply (record_spec t id r Hc) in Hr as (i & Hi & Hid). destruct (live_slot_valid t i r Hc Hi) as [Hv Hg].
    pose proof (packHandle_bounds i _ Hv Hg) as Hb. rewrite <- Hid in Hb.
    split; [|split; [|split; [|done]]]; simpl.
    - unfold isSafeNet, isSafeInteger. rewrite !andb_true_iff, !Z.leb_le. lia.
    - unfold NONE. lia.
    - intros Hin. by apply Hns, (hn_spent _ _ Hh). }
  eapply (honest_same past _ _ Hhm); [done|..].
  - unfold World.facade. by destruct (mget _ _).
  - unfold World.facade. by destruct (mget _ _).
Qed.

(** The rest change neither the table nor the journal, or only mark a tag. *)
Definition calm (r r' : Runtime) : Prop := World.entities r' = World.entities r /\ World.channels r' = World.channels r.

Lemma calm_hostScope r id : calm r (hostScope r id).2.
Proof. unfold hostScope. by destruct (ensure _ _ _) as [[? ?] ?]. Qed.

Lemma calm_tween r id prop to s curve owner : calm r (startTween r id prop to s curve owner).1.
Proof.
  unfold startTween. pose proof (calm_hostScope r id) as H. destruct (hostScope r id) as [sc r1].
  by destruct (Tweens.start _ _ _ _ _ _ _ _ _ _) as [[? ?] ?].
Qed.

Lemma calm_glide r id x y s curve owner : calm r (glideTo r id x y s curve owner).
Proof.
  unfold glideTo. pose proof (calm_tween r id (js "x") x s curve owner) as H.
  destruct (startTween r id (js "x") x s curve owner) as [r1 []]; [done|]. destruct H as [He Hq].
  destruct (calm_tween r1 id (js "y") y s curve owner) as [He' Hq']. simpl in *. split; congruence.
Qed.

Lemma honest_calm past rt rt' : honest past rt -> calm rt rt' -> honest past rt'.
Proof.
  intros Hh [He Hc]. destruct (hn_tracks _ _ Hh) as [Hw Hch Hr]. apply (honest_same past rt); [done| |done|by rewrite He].
  split; [by rewrite He|by rewrite Hc|by rewrite He, Hc].
Qed.

Lemma honest_op past d rt owner o : honest past rt -> rt_ok d rt -> honest past (do_op owner rt o).
Proof.
  intros Hh Hok. pose proof (tracks_op past rt owner o (hn_tracks _ _ Hh)) as Ht.
  destruct o; simpl in *; unfold glideBy, fadeTo, growTo, spin, spinTo; try (apply (honest_calm past rt); [done|]; first [by split | apply calm_tween | apply calm_glide]).
  - by apply honest_spawn.
  - apply (honest_calm past rt); [done|]. unfold World.facade. by destruct (mget _ _).
  - by apply (honest_attach past d).
  - by apply (honest_detach past d).
  - by apply honest_destroy.
  - by apply (honest_mark past rt).
  - by apply (honest_mark past rt).
  - apply (honest_calm past rt); [done|]. unfold moveToward. by destruct (flt _ _).
  - apply (honest_calm past rt); [done|]. unfold think. pose proof (calm_hostScope rt id) as H. destruct (hostScope rt id) as [sc r1].
    by destruct (sleep _ _ _) as [[? ?]|].
Qed.

Lemma honest_teardown past rt id :
  honest past rt -> is_Some (SlotTable.abs (World.entities rt) !! id) -> honest past (teardown rt id).
Proof.
  intros Hh Hid. pose proof (tracks_teardown past rt id (hn_tracks _ _ Hh)) as Ht.
  destruct (teardown_parts rt id) as (He & _ & _ & _ & _ & _ & _ & Hc & _).
  apply (honest_marked past rt _ (Destroy id)); [done..| | |done].
  - by apply parents_Some.
  - rewrite He. apply (gr_spent _ _ (grows_drain_one _ id (tr_wf _ _ (hn_tracks _ _ Hh)))).
Qed.

Lemma honest_teardowns past l : forall rt,
  honest past rt -> NoDup l -> (forall x, x ∈ l -> is_Some (SlotTable.abs (World.entities rt) !! x)) -> honest past (foldl teardown rt l).
Proof.
  induction l as [|id l IH]; intros rt Hh Hn Hex; [done|]. apply NoDup_cons in Hn as [Hni Hn]. cbn [foldl].
  apply IH; [by apply honest_teardown; [|apply Hex; left]|done|].
  intros x Hx. destruct (teardown_parts rt id) as (-> & _). apply abs_drain_one; [apply (tr_wf _ _ (hn_tracks _ _ Hh))|].
  split; [by intros ->|]. apply Hex. by right.
Qed.

Lemma honest_ends past d l : forall rt, honest past rt -> rt_ok d rt -> honest past (foldl (on_end dispatchEnd) rt l).
Proof.
  induction l as [|id l IH]; intros rt Hh Hok; [done|]. cbn [foldl].
  assert (H1 : honest past (on_end dispatchEnd rt id) /\ rt_ok d (on_end dispatchEnd rt id)); [|destruct H1; by apply IH].
  unfold on_end. generalize (dispatchEnd rt id). intros cs. revert rt Hh Hok. induction cs as [|c cs IHc]; intros rt Hh Hok; [done|].
  apply IHc; [by apply (honest_op past d)|by apply rt_ok_op].
Qed.

Lemma honest_drain past rt : honest past rt -> rt_ok [] rt -> honest past (drainDestroyed dispatchEnd rt).
Proof.
  intros Hh Hok. destruct (drained_spec dispatchEnd rt Hok) as [Hend ->].
  set (ended := foldl (on_end dispatchEnd) _ _) in *.
  assert (Hhe : honest past ended).
  { apply (honest_ends past (World.pendingDestroy rt)); [|by apply rt_ok_taken].
    apply (honest_calm past rt); [done|by split]. }
  apply honest_teardowns; [done|by apply (rt_ok_doomed (World.pendingDestroy rt) ended NONE)|].
  intros x Hx. by apply (rt_ok_doomed (World.pendingDestroy rt) ended x).
Qed.

(** ** What a send converts is lawful *)

Definition conv1 (rt : Runtime) (eph : jsset EntityId) (op : SingleOp) : option WireSingle :=
  match toWireSingle rt op eph with Wire a => Some a | _ => None end.

Lemma convert_all_omap rt eph ops :
  (forall op, op ∈ ops -> toWireSingle rt op eph <> Unconvertible) ->
  convert_all rt ops eph = Some (omap (conv1 rt eph) ops).
Proof.
  induction ops as [|op ops IH]; intros Hc; [done|]. cbn [convert_all omap list_omap]. rewrite IH by (intros o Ho; apply Hc; by right).
  assert (E1 : conv1 rt eph op = match toWireSingle rt op eph with Wire a => Some a | _ => None end) by done. rewrite E1.
  pose proof (Hc op ltac:(left)) as Hop. by destruct (toWireSingle rt op eph).
Qed.

Lemma flat_convert rt eph journal :
  (forall op, op ∈ flatten journal -> toWireSingle rt op eph <> Unconvertible) ->
  wire_flat (omap (fun op => match toWireStructural rt op eph with Wire a => Some a | _ => None end) journal)
  = omap (conv1 rt eph) (flatten journal).
Proof.
  induction journal as [|o journal IH]; intros Hc; [done|]. unfold flatten in *. cbn [mbind list_bind] in *. rewrite omap_app.
  cbn [omap list_omap]. rewrite toWireStructural_members.
  assert (Hs : singles o = Channels.members o) by by destruct o. rewrite Hs.
  rewrite (convert_all_omap rt eph (Channels.members o)) by (intros op Hop; apply Hc, elem_of_app; by left).
  rewrite <- IH by (intros op Hop; apply Hc, elem_of_app; by right).
  destruct (omap (conv1 rt eph) (Channels.members o)) as [|a [|b l]]; done.
Qed.

Lemma elem_of_gone (rt : Runtime) ops : forall gone id,
  id ∈ foldl (mark_gone rt) gone ops <-> id ∈ gone \/ (exists tmpl, Spawn id tmpl ∈ ops) /\ EntityTable.record (World.entities rt) id = None.
Proof.
  induction ops as [|op ops IH]; intros gone id; cbn [foldl].
  - split; [by left|]. intros [?|[[? H] _]]; [done|]. by apply not_elem_of_nil in H.
  - rewrite IH. assert (H1 : id ∈ mark_gone rt gone op <-> id ∈ gone \/ (exists tmpl, op = Spawn id tmpl) /\ EntityTable.record (World.entities rt) id = None).
    { destruct op as [i tm|i|i to|i nm on|i a]; cbn [mark_gone]; [|split; [by left|by intros [?|[[? ?] _]]]..].
      cbn [Replicate.record runtime_world]. destruct (EntityTable.record (World.entities rt) i) as [r|] eqn:E; simpl.
      - split; [by left|]. intros [?|[[tm' Heq] Hn]]; [done|]. injection Heq as -> _. congruence.
      - rewrite elem_of_sadd. split; [intros [->|?]; [right; split; [by eexists|done]|by left]|].
        intros [?|[[tm' Heq] _]]; [by right|]. injection Heq as -> _. by left. }
    rewrite H1. setoid_rewrite elem_of_cons. split.
    + intros [[?|[[tm ?] ?]]|[[tm ?] ?]]; [by left|right; split; [exists tm; by left|done]|right; split; [exists tm; by right|done]].
    + intros [?|[[tm [?|?]] ?]]; [by left; left|left; right; split; [by exists tm|done]|right; split; [by exists tm|done]].
Qed.

Lemma elem_of_ephemeral (rt : Runtime) journal id :
  id ∈ ephemeralIds rt journal <-> (exists tmpl, Spawn id tmpl ∈ flatten journal) /\ EntityTable.record (World.entities rt) id = None.
Proof.
  unfold ephemeralIds. assert (Hg : forall gone, id ∈ foldl (fun gone op => foldl (mark_gone rt) gone (singles op)) gone journal
    <-> id ∈ gone \/ (exists tmpl, Spawn id tmpl ∈ flatten journal) /\ EntityTable.record (World.entities rt) id = None).
  { induction journal as [|o journal IH]; intros gone; cbn [foldl].
    - split; [by left|]. intros [?|[[? H] _]]; [done|]. by apply not_elem_of_nil in H.
    - rewrite IH, elem_of_gone. assert (Hs : singles o = Channels.members o) by by destruct o. rewrite Hs.
      unfold flatten. cbn [mbind list_bind]. setoid_rewrite elem_of_app. split.
      + intros [[?|[[tm ?] ?]]|[[tm ?] ?]]; [by left|right; split; [exists tm; by left|done]|right; split; [exists tm; by right|done]].
      + intros [?|[[tm [?|?]] ?]]; [by left; left|left; right; split; [by exists tm|done]|right; split; [by exists tm|done]]. }
  rewrite Hg. split; [|by right]. intros [H|H]; [by apply not_elem_of_nil in H|done].
Qed.

(** The journal replayed without the ids a send elides. *)
Record elides (eph : jsset EntityId) (m w : links) : Prop := {
  el_keep id : id ∉ eph -> w !! id = m !! id;
  el_gone id : id ∈ eph -> w !! id = None;
  el_up id p : id ∉ eph -> m !! id = Some p -> p ∉ eph;
}.

Lemma elides_chain eph m w id l : elides eph m w -> id ∉ eph -> chain m id l -> chain w id l.
Proof.
  intros He Hid Hl. induction Hl as [|id p l Hp Hl IH]; [constructor|].
  apply (chain_step w id p); [by rewrite (el_keep _ _ _ He)|]. apply IH. by apply (el_up _ _ _ He id).
Qed.

Lemma elides_anchored eph m w id : elides eph m w -> id ∉ eph -> anchored m id -> anchored w id.
Proof. intros He Hid [l Hl]. exists l. by apply (elides_chain eph m). Qed.

(** The wire op of a kept one. *)
Lemma conv1_kept (rt : Runtime) eph op :
  op_id op ∉ eph -> toWireSingle rt op eph <> Unconvertible ->
  match op with
  | Spawn id _ => exists s, conv1 rt eph op = Some (WSpawn s) /\ netId s = id /\ es_parent s = None
  | Tag _ _ _ => conv1 rt eph op = None \/ conv1 rt eph op = Some (as_wire op)
  | _ => conv1 rt eph op = Some (as_wire op)
  end.
Proof.
  intros Hid Hc. unfold conv1, toWireSingle in *. rewrite (proj2 (shas_false _ _) Hid) in *.
  destruct op as [id tm|id|id to|id nm on|id a]; try done.
  - unfold readEntitySnapshot in *. cbn [andb] in *. destruct (Replicate.record rt id); [|done]. simpl. by eexists.
  - destruct (startsWith nm SAY_PREFIX); [by left|by right].
Qed.

Lemma conv1_elided (rt : Runtime) eph op : op_id op ∈ eph -> conv1 rt eph op = None.
Proof. intros Hid. unfold conv1, toWireSingle. by rewrite (proj2 (shas_spec _ _) Hid). Qed.

(** One journaled op: what goes on the wire for it keeps the two replays together. *)
Lemma conv1_lawful (rt : Runtime) eph op m w seen seenW :
  NONE ∉ eph -> elides eph m w -> lawful_op seen m (as_wire op) -> seenW ⊆ seen ->
  toWireSingle rt op eph <> Unconvertible ->
  (forall id to, op = Reparent id to -> to ∈ eph -> id ∈ eph) ->
  let out := match conv1 rt eph op with Some a => [a] | None => [] end in
  lawful seenW w out /\ elides eph (replay_op m op) (foldl relink w out) /\ foldl see seenW out ⊆ see seen (as_wire op).
Proof.
  clear dispatchEnd. intros Hn0 He Hl Hsub Hc Hclean out. destruct (decide (op_id op ∈ eph)) as [Hin|Hin].
  - unfold out. rewrite conv1_elided by done. cbn [lawful foldl].
    split; [done|]. split; [|destruct op; simpl; set_solver].
    assert (Hne : forall id, id ∉ eph -> id <> op_id op) by congruence.
    split; [|apply He|].
    + intros id Hid. rewrite (el_keep _ _ _ He) by done. specialize (Hne id Hid).
      destruct op as [i tm|i|i to|i nm on|i a]; simpl in *; rewrite ?lookup_insert_ne, ?lookup_delete_ne, ?lookup_alter_ne by congruence; done.
    + intros id p Hid Hp. apply (el_up _ _ _ He id); [done|]. specialize (Hne id Hid).
      destruct op as [i tm|i|i to|i nm on|i a]; simpl in *; rewrite ?lookup_insert_ne, ?lookup_delete_ne, ?lookup_alter_ne in Hp by congruence; done.
  - pose proof (conv1_kept rt eph op Hin Hc) as Hk. unfold out.
    destruct op as [i tm|i|i to|i nm on|i a]; simpl in Hin.
    + destruct Hk as (s & -> & Hs & Hp). cbn [lawful foldl lawful_op relink see] in *. rewrite Hs, Hp in *.
      destruct Hl as (L1 & L2 & L3 & _). split; [split; [|done]; split; [done|]; split; [done|]; split; [set_solver|done]|].
      split; [|simpl; set_solver]. unfold net_or_none. simpl. split.
      * intros id Hid. destruct (decide (id = i)) as [->|]; [by rewrite !lookup_insert_eq|].
        rewrite !lookup_insert_ne by congruence. by apply (el_keep _ _ _ He).
      * intros id Hid. rewrite lookup_insert_ne by congruence. by apply (el_gone _ _ _ He).
      * intros id p Hid [[<- <-]|[_ Hpp]]%lookup_insert_Some; [done|]. by apply (el_up _ _ _ He id).
    + rewrite Hk. cbn [lawful foldl as_wire relink see lawful_op replay_op] in *. rewrite (el_keep _ _ _ He) by done.
      split; [done|]. split; [|done]. split.
      * intros id Hid. destruct (decide (id = i)) as [->|]; [by rewrite !lookup_delete_eq|].
        rewrite !lookup_delete_ne by congruence. by apply (el_keep _ _ _ He).
      * intros id Hid. rewrite lookup_delete_ne by congruence. by apply (el_gone _ _ _ He).
      * intros id p Hid [_ Hpp]%lookup_delete_Some. by apply (el_up _ _ _ He id).
    + rewrite Hk. assert (Hto : to ∉ eph) by (intros Hto; by apply Hin, (Hclean i to)).
      assert (Hlw : lawful_op seenW w (as_wire (Reparent i to))).
      { unfold as_wire in *. destruct (to =? NONE); simpl in *; rewrite (el_keep _ _ _ He) by done.
        - destruct Hl as [L1 L2]. split; [done|]. by apply (elides_anchored eph m).
        - destruct Hl as (L1 & L2 & L3 & l & L4 & L5). split; [done|]. split; [by apply (elides_anchored eph m)|]. split; [done|].
          exists l. split; [by apply (elides_chain eph m)|done]. }
      cbn [lawful foldl see]. split; [done|]. rewrite relink_as_wire. split; [|unfold as_wire; by destruct (to =? NONE)].
      cbn [replay_op]. split.
      * intros id Hid. destruct (decide (id = i)) as [->|]; [by rewrite !lookup_alter_eq, (el_keep _ _ _ He)|].
        rewrite !lookup_alter_ne by congruence. by apply (el_keep _ _ _ He).
      * intros id Hid. rewrite lookup_alter_ne by congruence. by apply (el_gone _ _ _ He).
      * intros id p Hid. destruct (decide (id = i)) as [->|].
        -- rewrite lookup_alter_eq. by intros (p0 & _ & ->)%fmap_Some.
        -- rewrite lookup_alter_ne by congruence. by apply (el_up _ _ _ He).
    + destruct Hk as [-> | ->]; by split.
    + rewrite Hk. by split.
Qed.

Lemma convert_lawful (rt : Runtime) eph ops : forall m w seen seenW,
  NONE ∉ eph -> elides eph m w -> lawful seen m (as_wire <$> ops) -> seenW ⊆ seen ->
  (forall op, op ∈ ops -> toWireSingle rt op eph <> Unconvertible) ->
  (forall id to, Reparent id to ∈ ops -> to ∈ eph -> id ∈ eph) ->
  let out := omap (conv1 rt eph) ops in
  lawful seenW w out /\ elides eph (foldl replay_op m ops) (foldl relink w out) /\ foldl see seenW out ⊆ foldl see seen (as_wire <$> ops).
Proof.
  induction ops as [|op ops IH]; intros m w seen seenW Hn0 He Hl Hsub Hc Hclean out; [done|].
  destruct Hl as [Hl1 Hl2]. rewrite relink_as_wire in Hl2.
  destruct (conv1_lawful rt eph op m w seen seenW Hn0 He Hl1 Hsub) as (A1 & A2 & A3).
  { apply Hc. left. }
  { intros id to ->. apply Hclean. left. }
  set (hd := match conv1 rt eph op with Some a => [a] | None => [] end) in *.
  assert (Eout : out = hd ++ omap (conv1 rt eph) ops) by (unfold out, hd; csimpl; by destruct (conv1 rt eph op)).
  destruct (IH (replay_op m op) (foldl relink w hd) (see seen (as_wire op)) (foldl see seenW hd) Hn0 A2 Hl2 A3) as (B1 & B2 & B3).
  { intros o Ho. apply Hc. by right. }
  { intros id to Ho. apply Hclean. by right. }
  rewrite Eout, !foldl_app. split; [by apply lawful_app|]. by split.
Qed.

Lemma see_mono ops : forall seen, seen ⊆ foldl see seen ops.
Proof.
  induction ops as [|op ops IH]; intros seen; [done|]. cbn [foldl]. etrans; [|apply IH]. destruct op; simpl; [apply union_subseteq_r|done..].
Qed.

Lemma lawful_dom ops : forall seen m,
  lawful seen m ops -> (forall id p, m !! id = Some p -> id ∈ seen /\ (p = NONE \/ p ∈ seen)) ->
  forall id p, foldl relink m ops !! id = Some p -> id ∈ foldl see seen ops /\ (p = NONE \/ p ∈ foldl see seen ops).
Proof.
  induction ops as [|op ops IH]; intros seen m Hl Hm; [done|]. destruct Hl as [Ho Hl]. cbn [foldl]. apply IH; [done|].
  assert (Hin : forall p, p <> NONE -> anchored m p -> p ∈ seen).
  { intros p Hp Ha. destruct (anchored_dom m p Ha Hp) as [q Hq]. by destruct (Hm p q Hq). }
  destruct op as [s|i|i to|i nm on|i a|pl|i]; cbn [relink see lawful_op] in *; try done.
  - intros id p [[<- <-]|[_ Hp]]%lookup_insert_Some.
    + split; [apply elem_of_union_l; by apply elem_of_singleton|]. destruct (es_parent s) as [q|]; [|by left].
      destruct Ho as (_ & _ & _ & Hq & Ha). right. apply elem_of_union_r. by apply Hin.
    + destruct (Hm id p Hp) as [? [?|?]]; (split; [by apply elem_of_union_r|]); [by left|right; by apply elem_of_union_r].
  - intros id p [_ Hp]%lookup_delete_Some. by apply Hm.
  - intros id p. destruct (decide (id = i)) as [->|]; [|rewrite lookup_alter_ne by done; apply Hm].
    rewrite lookup_alter_eq. intros (p0 & Hp0 & ->)%fmap_Some. destruct (Hm i p0 Hp0) as [Hi _]. split; [done|].
    destruct to as [to|]; [|by left]. destruct Ho as (_ & _ & Hto & l & Hl' & _). right. apply Hin; [done|by exists l].
Qed.

Lemma lawful_spawn ops : forall seen m s, lawful seen m ops -> WSpawn s ∈ ops -> netId s <> NONE /\ (netId s ∉ seen).
Proof.
  induction ops as [|op ops IH]; intros seen m s Hl Hin; [by apply not_elem_of_nil in Hin|]. destruct Hl as [Ho Hl].
  apply elem_of_cons in Hin as [<-|Hin]; [by destruct Ho as (_ & ? & ? & _)|].
  destruct (IH _ _ s Hl Hin) as [H1 H2]. split; [done|]. intros Hs. apply H2. destruct op; simpl; try done. by apply elem_of_union_r.
Qed.

(** The runtime a send leaves. *)
Lemma drainOnce_rt (rt : Runtime) tick roster spill budget :
  let rt' := (drainOnce rt tick roster spill budget).2 in
  World.entities rt' = World.entities rt /\ World.pendingDestroy rt' = World.pendingDestroy rt /\ World.timers rt' = World.timers rt
  /\ World.tweens rt' = World.tweens rt
  /\ World.channels rt' = MkChannels [] [] 0 (group (World.channels rt)) (groupDepth (World.channels rt))
  /\ lanes (World.transforms rt') = lanes (World.transforms rt) /\ count (World.transforms rt') = count (World.transforms rt).
Proof.
  unfold drainOnce. cbn [Replicate.drainStructural runtime_world Channels.drainStructural]. cbv zeta.
  match goal with |- context [order_ops ?a ?b ?c ?d] => destruct (order_ops a b c d) as [ordered dropped] end.
  destruct (cut_ops ordered budget) as [now held].
  cbn [Replicate.consumeDirty Replicate.drainState runtime_world TransformStore.consumeDirty Channels.drainState]. done.
Qed.

Lemma flat_singles {A} (f : A -> WireSingle) l : wire_flat ((fun x => WSingle (f x)) <$> l) = f <$> l.
Proof. induction l as [|x l IH]; [done|]. unfold wire_flat in *. csimpl. by rewrite IH. Qed.

(** Roster ops change no link. *)
Lemma neutral ops : forall seen m,
  Forall (fun op => match op with WPlayerJoin _ | WPlayerLeave _ => True | _ => False end) ops ->
  lawful seen m ops /\ foldl relink m ops = m /\ foldl see seen ops = seen.
Proof.
  induction ops as [|op ops IH]; intros seen m Hn; [done|]. apply Forall_cons in Hn as [Ho Hn].
  destruct (IH seen m Hn) as (H1 & H2 & H3). destruct op; try done.
Qed.

Lemma new_ops_flat (rt : Runtime) roster journal :
  (forall op, op ∈ flatten journal -> toWireSingle rt op (ephemeralIds rt journal) <> Unconvertible) ->
  wire_flat (new_ops rt roster journal)
  = (WPlayerJoin <$> joins roster) ++ omap (conv1 rt (ephemeralIds rt journal)) (flatten journal) ++ (WPlayerLeave <$> leaves roster).
Proof.
  intros Hc. unfold new_ops, order_ops.
  pose proof (convert_fold rt (ephemeralIds rt journal) ([] ++ ((fun p => WSingle (WPlayerJoin p)) <$> joins roster)) 0 journal) as H.
  destruct (foldl _ _ journal) as [ordered dropped]. simpl in H. subst ordered. simpl.
  rewrite !wire_flat_app, flat_convert, !flat_singles by done. by rewrite <- app_assoc.
Qed.

Lemma convertible (rt : Runtime) journal op :
  op ∈ flatten journal -> toWireSingle rt op (ephemeralIds rt journal) <> Unconvertible.
Proof.
  intros Hop. unfold toWireSingle. destruct (shas _ _) eqn:E; [done|]. apply shas_false in E.
  destruct op as [id tm|id|id to|id nm on|id a]; try done; [|by destruct (startsWith _ _)].
  destruct (readEntitySnapshot rt id false) as [s|] eqn:Es; [done|]. exfalso. apply E. apply elem_of_ephemeral. split; [by exists tm|].
  unfold readEntitySnapshot in Es. cbn [Replicate.record runtime_world] in Es. simpl. by destruct (EntityTable.record (World.entities rt) id).
Qed.

Record server_ok (past : list SingleOp) (s : Server) : Prop := {
  so_honest : honest past (sv_rt s);
  so_ok : rt_ok [] (sv_rt s);
  so_lawful : lawful ∅ ∅ (wire_flat (concat (sv_sent s) ++ sv_spill s));
  so_replay : foldl relink ∅ (wire_flat (concat (sv_sent s) ++ sv_spill s)) = foldl replay_op ∅ past;
  so_seen : foldl see ∅ (wire_flat (concat (sv_sent s) ++ sv_spill s)) ⊆ foldl see ∅ (as_wire <$> past);
}.

Lemma rt_ok_send rt rt' :
  rt_ok [] rt -> World.entities rt' = World.entities rt -> World.pendingDestroy rt' = World.pendingDestroy rt ->
  World.timers rt' = World.timers rt -> World.tweens rt' = World.tweens rt ->
  lanes (World.transforms rt') = lanes (World.transforms rt) -> count (World.transforms rt') = count (World.transforms rt) -> rt_ok [] rt'.
Proof.
  intros [Hf Hc Hs Hl Ht He] Ee Eq Et Ew El Ec. split; rewrite ?Ee, ?Eq, ?Et, ?Ew, ?Ec; try done.
  destruct Hs as (n & Hn & Hb). exists n. by rewrite El, Ec.
Qed.

Lemma honest_send past rt rt' :
  honest past rt -> group (World.channels rt) = None -> World.entities rt' = World.entities rt ->
  World.channels rt' = MkChannels [] [] 0 (group (World.channels rt)) (groupDepth (World.channels rt)) ->
  honest (past ++ flatten (Channels.structural (World.channels rt))) rt'.
Proof.
  intros [[Hw Hc Hr] Hl Hs] Hg He Hch.
  assert (Hwait : waiting (World.channels rt) = flatten (Channels.structural (World.channels rt))) by (unfold waiting; rewrite Hg; apply app_nil_r).
  assert (Hwait' : waiting (World.channels rt') = []) by (unfold waiting; by rewrite Hch, Hg).
  assert (E : told (past ++ flatten (Channels.structural (World.channels rt))) rt' = told past rt)
    by (unfold told; by rewrite Hwait', app_nil_r, Hwait).
  split; [|by rewrite E|by rewrite E, He]. split.
  - by rewrite He.
  - rewrite Hch. destruct Hc. split; simpl; try done; constructor.
  - by rewrite Hwait', app_nil_r, <- Hwait, He.
Qed.

(** Converting reads no channel. *)
Lemma new_ops_channels (rt : Runtime) c roster journal : new_ops (set_channels rt c) roster journal = new_ops rt roster journal.
Proof.
  assert (Hs : forall op eph, toWireStructural (set_channels rt c) op eph = toWireStructural rt op eph).
  { intros [op|ops] eph; [reflexivity|]. unfold toWireStructural. rewrite !group_ops_eq.
    assert (Hc : convert_all (set_channels rt c) ops eph = convert_all rt ops eph); [|by rewrite Hc].
    induction ops as [|op ops IH]; [done|]. cbn [convert_all]. by rewrite IH. }
  assert (H1 : forall eph acc op, convert_one (set_channels rt c) eph acc op = convert_one rt eph acc op)
    by (intros; unfold convert_one; by rewrite Hs).
  unfold new_ops, order_ops. change (ephemeralIds (set_channels rt c) journal) with (ephemeralIds rt journal).
  generalize (ephemeralIds rt journal), ([] ++ ((fun p => WSingle (WPlayerJoin p)) <$> joins roster), 0). intros eph acc.
  assert (H2 : foldl (convert_one (set_channels rt c) eph) acc journal = foldl (convert_one rt eph) acc journal); [|by rewrite H2].
  revert acc. induction journal as [|op journal IH]; intros acc; [done|]. cbn [foldl]. by rewrite H1, IH.
Qed.

Lemma server_send past s tick roster budget :
  server_ok past s -> clean_send (sv_rt s) -> exists past', server_ok past' (server_run s (SSend tick roster budget)).
Proof.
  intros [Hh Hok Hl Hr Hs] [Hg Hclean]. set (rt := sv_rt s) in *. set (journal := Channels.structural (World.channels rt)) in *.
  exists (past ++ flatten journal). cbn [server_run]. fold rt.
  pose proof (drainOnce_rt rt tick roster (sv_spill s) budget) as Hrt. pose proof (drainOnce_stream rt tick roster (sv_spill s) budget) as Hst.
  destruct (drainOnce rt tick roster (sv_spill s) budget) as [[set held] rt']. cbn [snd] in Hrt.
  destruct Hrt as (E1 & E2 & E3 & E4 & E5 & E6 & E7). destruct Hst as [Hst _].
  change (Replicate.drainStructural rt).1 with journal in Hst.
  cbn [Replicate.drainStructural runtime_world Channels.drainStructural snd] in Hst. rewrite new_ops_channels in Hst.
  set (eph := ephemeralIds rt journal) in *. set (m := foldl replay_op ∅ past) in *.
  assert (Hlaw : lawful (foldl see ∅ (as_wire <$> past)) m (as_wire <$> flatten journal)).
  { pose proof (hn_lawful _ _ Hh) as H. unfold told, waiting in H. rewrite Hg in H. simpl in H. rewrite app_nil_r, fmap_app in H.
    apply lawful_app in H as [_ H]. by rewrite relinks_as_wire in H. }
  assert (Heph : forall id, id ∈ eph -> id <> NONE /\ (id ∉ foldl see ∅ (as_wire <$> past))).
  { intros id [[tm Hin] _]%elem_of_ephemeral.
    destruct (lawful_spawn _ _ _ (MkSnapshot id tm None None [] zero_cells None) Hlaw) as [H1 H2]; [|done].
    apply list_elem_of_fmap. by exists (Spawn id tm). }
  assert (Hdom : forall id p, m !! id = Some p -> id ∈ foldl see ∅ (as_wire <$> past) /\ (p = NONE \/ p ∈ foldl see ∅ (as_wire <$> past))).
  { unfold m. rewrite <- relinks_as_wire. apply lawful_dom; [|done].
    pose proof (hn_lawful _ _ Hh) as H. unfold told in H. rewrite fmap_app in H. by apply lawful_app in H as [H _]. }
  assert (Hn0 : NONE ∉ eph) by (intros H; by apply Heph in H as [? _]).
  assert (He0 : elides eph m m).
  { split; [done| |].
    - intros id Hid. destruct (m !! id) as [p|] eqn:E; [|done]. apply Hdom in E as [E _]. by apply Heph in Hid as [_ ?].
    - intros id p _ Hp Hpe. apply Heph in Hpe as [Hp1 Hp2]. by destruct (Hdom id p Hp) as [_ [?|?]]. }
  destruct (convert_lawful rt eph (flatten journal) m m _ _ Hn0 He0 Hlaw Hs) as (C1 & C2 & C3).
  { intros op. apply convertible. }
  { exact Hclean. }
  assert (Hend : foldl replay_op m (flatten journal) = foldl relink m (omap (conv1 rt eph) (flatten journal))).
  { apply map_eq. intros id. destruct (decide (id ∈ eph)) as [Hin|Hin]; [|by rewrite (el_keep _ _ _ C2)].
    rewrite (el_gone _ _ _ C2) by done. apply elem_of_ephemeral in Hin as [_ Hnone].
    pose proof (tr_replay _ _ (hn_tracks _ _ Hh)) as H. unfold waiting in H. rewrite Hg in H. simpl in H. rewrite app_nil_r, foldl_app in H.
    fold journal m in H. rewrite H. apply eq_None_not_Some. rewrite parents_Some, <- record_abs by apply (tr_wf _ _ (hn_tracks _ _ Hh)).
    by rewrite Hnone; intros []. }
  assert (Hall : concat (sv_sent s ++ [Replicate.structural set]) ++ held = (concat (sv_sent s) ++ sv_spill s) ++ new_ops rt roster journal).
  { rewrite concat_app. simpl. by rewrite app_nil_r, <- !app_assoc, Hst. }
  assert (Hj : Forall (fun op => match op with WPlayerJoin _ | WPlayerLeave _ => True | _ => False end) (WPlayerJoin <$> joins roster)).
  { apply Forall_fmap, Forall_true. by intros. }
  assert (Hlv : Forall (fun op => match op with WPlayerJoin _ | WPlayerLeave _ => True | _ => False end) (WPlayerLeave <$> leaves roster)).
  { apply Forall_fmap, Forall_true. by intros. }
  split; cbn [sv_rt sv_sent sv_spill].
  - by apply honest_send.
  - by apply (rt_ok_send rt).
  - rewrite Hall, wire_flat_app, new_ops_flat by apply convertible. fold eph. apply lawful_app. split; [done|]. rewrite Hr. fold m.
    destruct (neutral (WPlayerJoin <$> joins roster) (foldl see ∅ (wire_flat (concat (sv_sent s) ++ sv_spill s))) m Hj) as (N1 & N2 & N3).
    apply lawful_app. split; [done|]. rewrite N2, N3. apply lawful_app. split; [done|]. by apply neutral.
  - rewrite Hall, wire_flat_app, new_ops_flat by apply convertible. fold eph. rewrite !foldl_app, Hr. fold m.
    destruct (neutral (WPlayerJoin <$> joins roster) ∅ m Hj) as (_ & -> & _). rewrite <- Hend.
    by destruct (neutral (WPlayerLeave <$> leaves roster) ∅ (foldl replay_op m (flatten journal)) Hlv) as (_ & -> & _).
  - rewrite Hall, wire_flat_app, new_ops_flat by apply convertible. fold eph. rewrite fmap_app, !foldl_app.
    destruct (neutral (WPlayerJoin <$> joins roster) (foldl see ∅ (wire_flat (concat (sv_sent s) ++ sv_spill s))) m Hj) as (_ & _ & ->).
    destruct (neutral (WPlayerLeave <$> leaves roster) (foldl see (foldl see ∅ (wire_flat (concat (sv_sent s) ++ sv_spill s)))
      (omap (conv1 rt eph) (flatten journal))) m Hlv) as (_ & _ & ->). exact C3.
Qed.

Lemma server_step_ok past s o :
  server_ok past s -> match o with SSend _ _ _ => clean_send (sv_rt s) | _ => True end -> exists past', server_ok past' (server_run s o).
Proof.
  intros Hs Hclean. pose proof Hs as [Hh Hok Hl Hr Hse]. destruct o as [owner o| | | |tick roster budget]; [..|by apply (server_send past)]; exists past.
  - split; cbn [server_run sv_rt sv_sent sv_spill]; [by apply (honest_op past [])|by apply rt_ok_op|done..].
  - split; cbn [server_run sv_rt sv_sent sv_spill]; [by apply honest_drain|by apply rt_ok_drain|done..].
  - assert (Hw : waiting (beginGroup (World.channels (sv_rt s))) = waiting (World.channels (sv_rt s))) by apply waiting_begin, Hh.
    split; cbn [server_run sv_rt sv_sent sv_spill]; try done.
    + destruct Hh as [[Hw1 Hw2 Hw3] Hh2 Hh3]. split; [split|..]; unfold told; simpl; rewrite ?Hw; try done.
      by apply (run_op_wf (MkRun (World.channels (sv_rt s)) [] []) CBegin).
    + destruct Hok. by split.
  - assert (Hw : waiting (endGroup (World.channels (sv_rt s))) = waiting (World.channels (sv_rt s))) by apply waiting_end, Hh.
    split; cbn [server_run sv_rt sv_sent sv_spill]; try done.
    + destruct Hh as [[Hw1 Hw2 Hw3] Hh2 Hh3]. split; [split|..]; unfold told; simpl; rewrite ?Hw; try done.
      by apply (run_op_wf (MkRun (World.channels (sv_rt s)) [] []) CEnd).
    + destruct Hok. by split.
Qed.

Lemma server_steps_ok l : forall past s, server_ok past s -> clean_run s l -> exists past', server_ok past' (foldl server_run s l).
Proof.
  induction l as [|o l IH]; intros past s Hs Hc; [by exists past|]. destruct Hc as [Ho Hc].
  destruct (server_step_ok past s o Hs Ho) as [past1 H1]. cbn [foldl]. by apply (IH past1).
Qed.

Lemma server_ok_new : server_ok [] new_server.
Proof using dispatchEnd.
  assert (Ht : tracks [] new_runtime) by apply (tracks_run dispatchEnd []).
  split; cbn [new_server sv_rt sv_sent sv_spill]; try done. apply rt_ok_new.
Qed.
End server.

(** A server and a client with nothing of their own attached. *)
Definition plain_server : Runtime -> EntityId -> list (option GuardOwner * entity_op) := fun _ _ => [].

Abbreviation plain_run := (server_run (fun _ => []) (fun _ => None) (fun _ => []) (fun _ _ => []) (fun _ _ _ => (fun _ => SOther, SNull)) plain_server).

Abbreviation plain_receive := (receive (Klass := unit) (Wrapper := unit) None (fun r _ _ _ => Some r) (fun _ => None) (fun w _ => w)
  (fun _ _ _ => false) plain_server new_mirror).

Definition as_arrivals (sent : list (list WireOp)) : list arrival := (fun ops => AState (MkState 0 (MkAck 0 None) ops [])) <$> sent.

(** ** Properties *)

(** C8. The replica converges. Let the server run any history of script calls, destroy
    drains, template groups and sends, each send cutting the journal at any budget, in
    which no send elides an entity another was moved under. Let a client receive the
    structural ops in the order they were sent, however divided into envelopes and
    whatever state fields, roster changes and transform envelopes come with them. Once
    all have been received and nothing waits, the client has applied every one without
    an error, and its index pairs its entities with the server's, one to one, each with
    the parent that pairs with the server's parent; it holds no other entity and maps no
    other id. This is under bounds the client does depend on: its scripts construct and
    leave the hierarchy alone, attaching and in [@onEnd]; a group is within its list cap;
    what it holds and an envelope's spawns are within the entity cap together, past which
    it throws, what the envelope destroys being drained only after its spawns; and the
    whole history spawns no more than a table has slots, 2^24. *)
Theorem mirror_follows_world {Klass Wrapper}
  (roster_of : Runtime -> list Player) (scriptIdOf : jstr -> option jstr)
  (hostIdOf : RecordRef -> jstr) (keysOf : Runtime -> RecordRef -> list jstr)
  (fieldOf : Runtime -> RecordRef -> jstr -> (nat -> sobj) * sval)
  (serverEnd : Runtime -> EntityId -> list (option GuardOwner * entity_op))
  (scripts : option ((jstr -> option ScriptLocation) * (jstr -> option Klass)))
  (attachToEntity : Runtime -> EntityId -> Klass -> option json -> option Runtime)
  (reviveWrapper : json -> option Wrapper) (wrapper_restore : Wrapper -> json -> Wrapper)
  (answers : Runtime -> HostObject -> jstr -> bool)
  (clientEnd : Runtime -> EntityId -> list (option GuardOwner * entity_op))
  (steps : list server_step) (arrivals : list arrival) :
  let s := foldl (server_run roster_of scriptIdOf hostIdOf keysOf fieldOf serverEnd) new_server steps in
  clean_run roster_of scriptIdOf hostIdOf keysOf fieldOf serverEnd new_server steps ->
  sv_spill s = [] -> waiting (World.channels (sv_rt s)) = [] ->
  arrivals ≫= ops_of = concat (sv_sent s) ->
  attach_is_quiet attachToEntity -> ends_are_quiet clientEnd ->
  Forall short (concat (sv_sent s)) -> roomy ∅ (ops_of <$> arrivals) -> spawns (wire_flat (concat (sv_sent s))) <= INDEX_RANGE ->
  exists X, receive scripts attachToEntity reviveWrapper wrapper_restore answers clientEnd new_mirror arrivals = Ok X
    /\ mirrors (parent <$> SlotTable.abs (World.entities (sv_rt s))) X.
Proof.
  intros s Hc Hspill Hwait Harr Hq He Hshort Hroom Hn.
  destruct (server_steps_ok _ _ _ _ _ serverEnd steps [] new_server (server_ok_new serverEnd) Hc) as [past [Hh Hok Hl Hr Hs]].
  fold s in Hh, Hok, Hl, Hr, Hs. rewrite Hspill, app_nil_r in *.
  assert (Hp : foldl relink ∅ (wire_flat (concat (sv_sent s))) = parents (World.entities (sv_rt s))).
  { rewrite Hr, <- (tr_replay _ _ (hn_tracks _ _ Hh)), Hwait. by rewrite app_nil_r. }
  destruct (receive_follows scripts attachToEntity reviveWrapper wrapper_restore answers clientEnd Hq He arrivals ∅ ∅ new_mirror)
    as (X & HX & HF & HS); rewrite ?Harr; try done; [apply follows_new|].
  exists X. split; [done|]. rewrite Harr in HF.
  change (parent <$> SlotTable.abs (World.entities (sv_rt s))) with (parents (World.entities (sv_rt s))). rewrite Hp in HF.
  apply (follows_mirrors _ _ X HF HS). intros id Hid. apply parents_Some in Hid. by apply (anchored_live [] (sv_rt s)).
Qed.

(** Two sends, the second cut to one op at a time: a parent and child spawned, then the
    child moved to the root, the parent destroyed and a third entity put under the
    child. The client ends with two of the three. *)
Lemma mirror_follows_world_witness :
  let a := packHandle 0 1 in let b := packHandle 1 1 in let c := packHandle 2 1 in
  let none := MkRoster [] [] in
  let steps := [SCall None (ESpawn [] f0 f0 []); SCall None (ESpawn [] f0 f0 []); SCall None (EAttach b a); SSend 1 none 2048;
    SCall None (EDetach b); SCall None (EDestroy a); SCall None (ESpawn [] f0 f0 []); SCall None (EAttach c b); SDrain;
    SSend 2 none 1; SSend 3 none 1; SSend 4 none 1; SSend 5 none 1] in
  let s := foldl plain_run new_server steps in
  exists X, plain_receive (as_arrivals (sv_sent s)) = Ok X /\ mirrors (parent <$> SlotTable.abs (World.entities (sv_rt s))) X
    /\ parent <$> SlotTable.abs (World.entities (sv_rt s)) = {[ b := NONE; c := b ]}.
Proof.
  intros a b c none steps s.
  destruct (mirror_follows_world (Klass := unit) (Wrapper := unit) (fun _ => []) (fun _ => None) (fun _ => []) (fun _ _ => [])
    (fun _ _ _ => (fun _ => SOther, SNull)) plain_server None (fun r _ _ _ => Some r) (fun _ => None) (fun w _ => w)
    (fun _ _ _ => false) plain_server steps (as_arrivals (sv_sent s))) as (X & HX & HM).
  - vm_compute. repeat split; intros id to H1 H2; exfalso; by apply not_elem_of_nil in H2.
  - vm_compute. reflexivity.
  - vm_compute. reflexivity.
  - vm_compute. reflexivity.
  - intros r id k p. by exists r.
  - intros r id e H. by apply not_elem_of_nil in H.
  - apply (bool_decide_unpack _). vm_compute. exact I.
  - vm_compute. repeat split; discriminate.
  - vm_compute. discriminate.
  - exists X. split; [exact HX|]. split; [exact HM|]. apply (bool_decide_unpack _). vm_compute. exact I.
Defined.

(** The case set aside above is real: the replica can lose an entity that lives.
    An entity [c] under [q] is moved under a new [p], and [q] is destroyed; in the next
    tick [c] moves on to [r] and [p] is destroyed, all before the next send. The send
    elides [p], whose spawn and destroy it both holds; the move under [p] reaches the
    client naming an id it never heard of and is dropped, so [q]'s destroy takes [c]
    with it. The server has [c] alive under [r]; the client has an index entry for it
    and no entity. *)
Theorem elided_parent_loses_child :
  let q := packHandle 0 1 in let c := packHandle 1 1 in let r := packHandle 2 1 in let p := packHandle 3 1 in
  let none := MkRoster [] [] in
  let steps := [SCall None (ESpawn [] f0 f0 []); SCall None (ESpawn [] f0 f0 []); SCall None (ESpawn [] f0 f0 []);
    SCall None (EAttach c q); SSend 1 none 2048;
    SCall None (ESpawn [] f0 f0 []); SCall None (EAttach c p); SCall None (EDestroy q); SDrain;
    SCall None (EAttach c r); SCall None (EDestroy p); SDrain; SSend 3 none 2048] in
  let s := foldl plain_run new_server steps in
  EntityTable.isAlive (World.entities (sv_rt s)) c = true
  /\ parent <$> SlotTable.abs (World.entities (sv_rt s)) = {[ r := NONE; c := r ]}
  /\ sv_spill s = [] /\ waiting (World.channels (sv_rt s)) = []
  /\ exists X local, plain_receive (as_arrivals (sv_sent s)) = Ok X
       /\ local_ (index X) c = Some local /\ EntityTable.exists_ (World.entities (rt X)) local = false
       /\ counters X unknownNetId = 1.
Proof.
  intros q c r p none steps s. split; [vm_compute; reflexivity|]. split; [apply (bool_decide_unpack _); vm_compute; exact I|].
  split; [vm_compute; reflexivity|]. split; [vm_compute; reflexivity|].
  destruct (plain_receive (as_arrivals (sv_sent s))) as [X|e] eqn:E; [|exfalso; revert E; vm_compute; discriminate].
  exists X. assert (HX : Ok X = plain_receive (as_arrivals (sv_sent s))) by done. clear E.
  vm_compute in HX. injection HX as ->. eexists. repeat split; vm_compute; reflexivity.
Qed.
