(* ===== verification/Handshake.v ===== *)
(** * The client's side of a join ([packages/client/src/handshake.ts])

    Narrowing of the server's envelopes, the check that a Welcome is usable, and the
    snapshot chunks a client holds until the Welcome that closes the set names how many
    there were. A message is the tree the codec decoded. *)

From S2P Require Import Prelude JsMap JsNum JsInt Json Channels Codec Envelope Replicate Snapshot.

Local Open Scope Z_scope.

Definition MAX_WIRE_ITEMS : nat := Z.to_nat 65536.
Definition MAX_SNAPSHOT_CHUNKS : nat := 256.
Definition MAX_SNAPSHOT_BYTES : Z := 16 * 1024 * 1024.

(** ** What a client sends first *)

Record ClientProject := MkClientProject {
  cp_projectId : jstr; cp_projectHash : jstr; cp_bundleHash : jstr;
}.

Definition unidentifiedProject : ClientProject := MkClientProject [] [] [].

Definition joinRequest (name : jstr) (clientSentMs : num) (project : ClientProject) : json :=
  JObj [(js "kind", JStr (js "join-request")); (js "protocolVersion", JNum (of_Z PROTOCOL_VERSION));
        (js "name", JStr name); (js "clientSentMs", JNum clientSentMs);
        (js "projectId", JStr (cp_projectId project)); (js "projectHash", JStr (cp_projectHash project));
        (js "bundleHash", JStr (cp_bundleHash project))].

Definition timeSync (clientSentMs : num) : json :=
  JObj [(js "kind", JStr (js "time-sync")); (js "clientSentMs", JNum clientSentMs)].

Definition rttSeconds (clientNowMs clientSentMs : num) : num :=
  let rtt := fdiv (fsub clientNowMs clientSentMs) (of_Z 1000) in
  if isFinite rtt && flt f0 rtt then rtt else f0.

(** ** Narrowing *)

Definition isBoundedArray (o : option json) : bool :=
  match o with Some (JArr l) => bool_decide (length l <= MAX_WIRE_ITEMS)%nat | _ => false end.

Definition isWireBounds (o : option json) : bool :=
  match o with
  | Some b =>
    is_container b && is_finite (jget b "left") && is_finite (jget b "right")
    && is_finite (jget b "top") && is_finite (jget b "bottom")
  | None => false
  end.

Inductive server_kind :=
  | KWelcome | KChunk | KReject | KState | KTransform | KManifest | KTimeSyncReply | KRateChange.

Definition positive_finite (o : option json) : bool :=
  match o with Some (JNum x) => isFinite x && flt f0 x | _ => false end.

(** Two bounded arrays inside an object. *)
Definition isVisuals (o : option json) : bool :=
  match o with
  | Some v => is_container v && isBoundedArray (jget v "assets") && isBoundedArray (jget v "templates")
  | None => false
  end.

Definition asServerEnvelope (m : json) : option server_kind :=
  if negb (is_container m) then None
  else
    let k := jget m "kind" in
    let accept (b : bool) (r : server_kind) := if b then Some r else None in
    if eq_str k "welcome" then Some KWelcome
    else if eq_str k "snapshot-chunk" then
      accept (is_finite (jget m "index") && isBoundedArray (jget m "entities") && isBoundedArray (jget m "state")) KChunk
    else if eq_str k "reject" then accept (is_finite (jget m "serverProtocolVersion")) KReject
    else if eq_str k "state" then
      accept (is_finite (jget m "tick") && is_finite (jget m "ackSeq") && isBoundedArray (jget m "structural")
              && isBoundedArray (jget m "state")
              && match jget m "earliestHeadroom" with None => true | o => is_finite o end) KState
    else if eq_str k "transform" then
      accept (is_finite (jget m "tick") && isBoundedArray (jget m "transform")) KTransform
    else if eq_str k "manifest" then accept (isVisuals (jget m "visuals")) KManifest
    else if eq_str k "time-sync-reply" then accept (is_finite (jget m "clientSentMs")) KTimeSyncReply
    else if eq_str k "rate-change" then accept (positive_finite (jget m "simRate")) KRateChange
    else None.

Definition isChunkCount (o : option json) : bool :=
  match o with
  | None => true
  | _ =>
    match safe_integer o with
    | Some z => (0 <=? z) && (z <=? Z.of_nat MAX_SNAPSHOT_CHUNKS)
    | None => false
    end
  end.

Definition is_str (o : option json) : bool := match o with Some (JStr _) => true | _ => false end.

Definition isUsableWelcome (welcome : json) : bool :=
  if negb (is_container welcome) then false
  else
    match jget welcome "snapshot" with
    | Some s =>
      if negb (is_container s) then false
      else
        is_str (jget welcome "projectId") && is_str (jget welcome "projectHash")
        && is_str (jget welcome "bundleHash") && is_str (jget welcome "bundleUrl")
        && positive_finite (jget welcome "simRate") && positive_finite (jget welcome "sendRate")
        && is_str (jget welcome "yourPlayerId") && isWireBounds (jget welcome "bounds")
        && isBoundedArray (jget welcome "regions")
        && forallb (fun r => is_str (jget r "name") && isWireBounds (jget r "bounds")) (elements (jget welcome "regions"))
        && isVisuals (jget welcome "visuals")
        && is_finite (jget s "tick") && isBoundedArray (jget s "entities")
        && isBoundedArray (jget s "players") && isBoundedArray (jget s "state")
        && isChunkCount (jget welcome "snapshotChunks")
    | None => false
    end.

(** ** Snapshot chunks *)

Section chunks.
Context `{T : JsonText}.

Record SnapshotChunks := MkChunks { held : list json; bytes : Z; c_dropped : Z }.
Definition no_chunks : SnapshotChunks := MkChunks [] 0 0.

Definition chunk_bytes (chunk : json) : Z := frame_length (FText (stringify chunk)).

Definition offer (s : SnapshotChunks) (chunk : json) (answered : bool) : SnapshotChunks :=
  if answered || bool_decide (MAX_SNAPSHOT_CHUNKS <= length (held s))%nat
  then MkChunks (held s) (bytes s) (c_dropped s + 1)
  else
    let b := chunk_bytes chunk in
    if MAX_SNAPSHOT_BYTES <? bytes s + b then MkChunks (held s) (bytes s) (c_dropped s + 1)
    else MkChunks (held s ++ [chunk]) (bytes s + b) (c_dropped s).

Definition clear (s : SnapshotChunks) : SnapshotChunks := MkChunks [] 0 (c_dropped s).

Definition chunk_index (c : json) : num := as_num (jget c "index").

(** [held.sort((a, b) => a.index - b.index)], a stable sort. *)
Fixpoint insert_chunk (c : json) (l : list json) : list json :=
  match l with
  | [] => [c]
  | x :: l' => if flt f0 (fsub (chunk_index c) (chunk_index x)) then x :: insert_chunk c l' else c :: x :: l'
  end.
Definition sort_chunks (l : list json) : list json := foldr insert_chunk [] l.

(** Whether [held.some((chunk, at) => chunk.index !== at)] is false, counting from [at]. *)
Fixpoint no_gap (at_ : Z) (l : list json) : bool :=
  match l with
  | [] => true
  | c :: l' => feq (chunk_index c) (of_Z at_) && no_gap (at_ + 1) l'
  end.

Inductive TypeError := not_iterable.

(** Spreading a value into an array: arrays and strings iterate, nothing else here does. *)
Definition spread (o : option json) : outcome TypeError (list json) :=
  match o with
  | Some (JArr l) => Ok l
  | Some (JStr s) => Ok (JStr <$> codePoints s)
  | _ => Throw not_iterable
  end.

(** Assigning a field of an object. *)
Definition jset (j : json) (k : string) (v : json) : json :=
  match j with JObj f => JObj (mset f (js k) v) | _ => j end.

Definition flat_field (l : list json) (k : string) : list json := concat ((fun c => elements (jget c k)) <$> l).

(** [welcome.snapshotChunks ?? 0], when it is a number. *)
Definition expected_count (o : option json) : option num :=
  match o with None | Some JNull => Some f0 | Some (JNum x) => Some x | _ => None end.

(** Mutates the Welcome's snapshot; the state is the same whatever comes out. *)
Definition foldInto (s : SnapshotChunks) (welcome : json) : SnapshotChunks * outcome TypeError (bool * json) :=
  let len := of_Z (Z.of_nat (length (held s))) in
  let equal := match expected_count (jget welcome "snapshotChunks") with
               | Some x => feq len x
               | None => false
               end in
  if negb equal then (s, Ok (false, welcome))
  else
    let taken := held s in
    let s := MkChunks [] 0 (c_dropped s) in
    match taken with
    | [] => (s, Ok (true, welcome))
    | _ =>
      let sorted := sort_chunks taken in
      if negb (no_gap 0 sorted) then (s, Ok (false, welcome))
      else
        (s, match jget welcome "snapshot" with
            | Some snapshot =>
              e ← spread (jget snapshot "entities");
              let snapshot := jset snapshot "entities" (JArr (flat_field sorted "entities" ++ e)) in
              st ← spread (jget snapshot "state");
              let snapshot := jset snapshot "state" (JArr (flat_field sorted "state" ++ st)) in
              Ok (true, jset welcome "snapshot" snapshot)
            | None => Throw not_iterable
            end)
    end.
End chunks.

(** ** The server's chunks on the wire *)

Section wire.
Context (entity_json : EntitySnapshot -> json) (state_json : StateDiff -> json).

Definition wire_chunk (c : SnapshotChunk) : json :=
  JObj [(js "kind", JStr (js "snapshot-chunk")); (js "index", JNum (of_Z (Z.of_nat (ck_index c))));
        (js "entities", JArr (entity_json <$> ck_entities c)); (js "state", JArr (state_json <$> ck_state c))].
End wire.

(** ** Sorting by index *)

(** Chunks whose index is a converted integer. *)
Definition indexed (c : json) (i : Z) : Prop := chunk_index c = of_Z i /\ exact_int i.
Definition index_of (c : json) : Z := default 0 (to_Z (chunk_index c)).

Lemma indexed_index_of c i : indexed c i -> index_of c = i.
Proof. intros [Hc Hi]. unfold index_of. by rewrite Hc, to_Z_of_Z. Qed.

Lemma sub_positive a b :
  exact_int a -> exact_int b -> exact_int (a - b) -> flt f0 (fsub (of_Z a) (of_Z b)) = (b <? a).
Proof.
  intros Ha Hb Hab. rewrite fsub_int by done. change f0 with (of_Z 0).
  rewrite flt_int by (unfold exact_int in *; lia). destruct (Z.ltb_spec b a); [apply Z.ltb_lt|apply Z.ltb_ge]; lia.
Qed.

Lemma insert_chunk_perm c l : insert_chunk c l ≡ₚ c :: l.
Proof.
  induction l as [|x l IH]; simpl; [done|]. destruct (flt _ _); [|done].
  rewrite IH. apply Permutation_swap.
Qed.

Lemma sort_chunks_perm l : sort_chunks l ≡ₚ l.
Proof. induction l as [|c l IH]; simpl; [done|]. by rewrite insert_chunk_perm, IH. Qed.

(** Small indices, as a bounded list of chunks has. *)
Definition small (c : json) : Prop := exists i, indexed c i /\ 0 <= i <= 1000.

Lemma small_compare c x :
  small c -> small x -> flt f0 (fsub (chunk_index c) (chunk_index x)) = (index_of x <? index_of c).
Proof.
  intros (i & Hi & Hic) (j & Hj & Hjc). rewrite (indexed_index_of _ _ Hi), (indexed_index_of _ _ Hj).
  destruct Hi as [-> ?], Hj as [-> ?]. apply sub_positive; [done..|unfold exact_int; lia].
Qed.

Lemma insert_chunk_sorted c l :
  small c -> Forall small l -> StronglySorted Z.le (index_of <$> l) ->
  StronglySorted Z.le (index_of <$> insert_chunk c l).
Proof.
  intros Hc. induction l as [|x l IH]; intros Hl Hs; [by repeat constructor|].
  apply Forall_cons in Hl as [Hx Hl]. simpl. rewrite small_compare by done. csimpl in Hs.
  apply StronglySorted_inv in Hs as [Hs Hall].
  destruct (Z.ltb_spec (index_of x) (index_of c)) as [Hlt|Hge]; csimpl.
  - constructor; [by apply IH|]. rewrite insert_chunk_perm. csimpl. constructor; [lia|done].
  - constructor; [by constructor|]. constructor; [lia|]. eapply Forall_impl; [exact Hall|]. simpl. lia.
Qed.

Lemma sort_chunks_small l : Forall small l -> Forall small (sort_chunks l).
Proof. intros Hl. by rewrite sort_chunks_perm. Qed.

Lemma sort_chunks_sorted l : Forall small l -> StronglySorted Z.le (index_of <$> sort_chunks l).
Proof.
  induction l as [|c l IH]; intros Hl; simpl; [constructor|]. apply Forall_cons in Hl as [Hc Hl].
  apply insert_chunk_sorted; [done|by apply sort_chunks_small|auto].
Qed.

(** A list numbered from zero is what any arrival order of it sorts to. *)
Definition numbered (l : list json) : Prop := forall n c, l !! n = Some c -> indexed c (Z.of_nat n).

Lemma numbered_small l : numbered l -> (length l <= 1000)%nat -> Forall small l.
Proof.
  intros Hn Hl. apply Forall_lookup. intros n c Hc. exists (Z.of_nat n). split; [by apply Hn|].
  apply lookup_lt_Some in Hc. lia.
Qed.

Lemma sorted_eq (l k : list Z) : StronglySorted Z.le l -> StronglySorted Z.le k -> l ≡ₚ k -> l = k.
Proof. intros Hl Hk Hp. by apply (StronglySorted_unique Z.le). Qed.

Lemma numbered_indices l : numbered l -> index_of <$> l = Z.of_nat <$> seq 0 (length l).
Proof.
  intros Hn. apply list_eq. intros n. rewrite !list_lookup_fmap.
  destruct (l !! n) as [c|] eqn:E; simpl.
  - pose proof (lookup_lt_Some _ _ _ E) as Hlt. rewrite lookup_seq_lt by done. simpl. f_equal.
    by apply indexed_index_of, Hn.
  - apply lookup_ge_None in E. by rewrite lookup_seq_ge.
Qed.

Lemma seq_sorted n m : StronglySorted Z.le (Z.of_nat <$> seq n m).
Proof.
  revert n. induction m as [|m IH]; intros n; csimpl; [constructor|]. constructor; [apply IH|].
  apply Forall_fmap, Forall_forall. intros x Hx. apply elem_of_seq in Hx. simpl. lia.
Qed.

Lemma sort_numbered l arrivals :
  numbered l -> (length l <= 1000)%nat -> arrivals ≡ₚ l -> sort_chunks arrivals = l.
Proof.
  intros Hn Hlen Hp. assert (Hsm : Forall small arrivals) by (rewrite Hp; by apply numbered_small).
  assert (Hidx : index_of <$> sort_chunks arrivals = index_of <$> l).
  { apply sorted_eq; [by apply sort_chunks_sorted| |by rewrite sort_chunks_perm, Hp].
    rewrite numbered_indices by done. apply seq_sorted. }
  assert (Hmem : forall c, c ∈ sort_chunks arrivals -> l !! Z.to_nat (index_of c) = Some c).
  { intros c Hc. rewrite sort_chunks_perm, Hp in Hc. apply list_elem_of_lookup in Hc as [n Hc].
    rewrite (indexed_index_of c (Z.of_nat n)) by (by apply Hn). by rewrite Nat2Z.id. }
  apply list_eq. intros n. destruct (sort_chunks arrivals !! n) as [c|] eqn:E.
  - pose proof (Hmem c (list_elem_of_lookup_2 _ _ _ E)) as Hc.
    assert (Hi : (index_of <$> sort_chunks arrivals) !! n = Some (index_of c)) by (by rewrite list_lookup_fmap, E).
    rewrite Hidx, numbered_indices, list_lookup_fmap in Hi by done.
    destruct (seq 0 (length l) !! n) as [k|] eqn:Ek; [|done]. apply lookup_seq in Ek as [Hk _]. simpl in Hi.
    injection Hi as Hi. rewrite <- Hi, Hk, Nat2Z.id in Hc. simpl in Hc. by rewrite Hc.
  - symmetry. apply lookup_ge_None. apply lookup_ge_None in E.
    by rewrite sort_chunks_perm, Hp in E.
Qed.

Lemma no_gap_numbered l k :
  (forall n c, l !! n = Some c -> indexed c (Z.of_nat (k + n))) -> no_gap (Z.of_nat k) l = true.
Proof.
  revert k. induction l as [|c l IH]; intros k Hn; simpl; [done|].
  destruct (Hn 0%nat c eq_refl) as [Hc He]. rewrite Nat.add_0_r in Hc, He. rewrite Hc, feq_int by done.
  rewrite Z.eqb_refl. simpl. replace (Z.of_nat k + 1) with (Z.of_nat (S k)) by lia. apply IH.
  intros n c' Hc'. replace (S k + n)%nat with (k + S n)%nat by lia. by apply Hn.
Qed.

Lemma no_gap_lookup l k :
  no_gap k l = true -> forall n c, l !! n = Some c -> feq (chunk_index c) (of_Z (k + Z.of_nat n)) = true.
Proof.
  revert k. induction l as [|x l IH]; intros k Hg n c Hc; [done|]. simpl in Hg. apply andb_prop in Hg as [Hx Hg].
  destruct n as [|n]; [injection Hc as <-; by rewrite Z.add_0_r|]. simpl in Hc.
  replace (k + Z.of_nat (S n)) with (k + 1 + Z.of_nat n) by lia. by apply IH.
Qed.

(** ** Buffering *)

Section buffering.
Context `{T : JsonText}.

Definition total_bytes (l : list json) : Z := foldr (fun c n => chunk_bytes c + n) 0 l.

Lemma chunk_bytes_nonneg c : 0 <= chunk_bytes c.
Proof. unfold chunk_bytes, frame_length. pose proof (utf8ByteLength_bounds (stringify c)). lia. Qed.

Lemma total_bytes_app a b : total_bytes (a ++ b) = total_bytes a + total_bytes b.
Proof. induction a as [|c a IH]; simpl; [done|]. rewrite IH. lia. Qed.

Lemma total_bytes_nonneg l : 0 <= total_bytes l.
Proof. induction l as [|c l IH]; simpl; [done|]. pose proof (chunk_bytes_nonneg c). lia. Qed.

Lemma total_bytes_perm a b : a ≡ₚ b -> total_bytes a = total_bytes b.
Proof. induction 1; simpl; lia. Qed.

(** What the buffer never exceeds. *)
Definition held_ok (s : SnapshotChunks) : Prop :=
  (length (held s) <= MAX_SNAPSHOT_CHUNKS)%nat /\ bytes s = total_bytes (held s) /\ bytes s <= MAX_SNAPSHOT_BYTES.

Lemma held_ok_offer s c a : held_ok s -> held_ok (offer s c a).
Proof.
  intros (H1 & H2 & H3). unfold offer. destruct a; [done|]. simpl.
  case_bool_decide as Hl; [done|]. destruct (Z.ltb_spec MAX_SNAPSHOT_BYTES (bytes s + chunk_bytes c)); [done|].
  split; simpl; [rewrite length_app; simpl; lia|]. rewrite total_bytes_app. simpl. lia.
Qed.

Lemma offer_all l s :
  (length (held s) + length l <= MAX_SNAPSHOT_CHUNKS)%nat -> bytes s + total_bytes l <= MAX_SNAPSHOT_BYTES ->
  foldl (fun s c => offer s c false) s l = MkChunks (held s ++ l) (bytes s + total_bytes l) (c_dropped s).
Proof.
  revert s. induction l as [|c l IH]; intros s Hl Hb; simpl.
  - destruct s. simpl. by rewrite app_nil_r, Z.add_0_r.
  - simpl in Hl, Hb. pose proof (total_bytes_nonneg l).
    assert (Ho : offer s c false = MkChunks (held s ++ [c]) (bytes s + chunk_bytes c) (c_dropped s)).
    { unfold offer. simpl. rewrite bool_decide_false by lia.
      by rewrite (proj2 (Z.ltb_ge _ _)) by lia. }
    rewrite Ho, IH; simpl; [|rewrite length_app; simpl; lia|lia].
    by rewrite <- app_assoc, Z.add_assoc.
Qed.

Inductive chunk_op := BOffer (c : json) (answered : bool) | BClear | BFold (welcome : json).

Definition chunk_step (s : SnapshotChunks) (o : chunk_op) : SnapshotChunks :=
  match o with
  | BOffer c a => offer s c a
  | BClear => clear s
  | BFold w => (foldInto s w).1
  end.

Lemma fold_state s w : (foldInto s w).1 = s \/ (foldInto s w).1 = clear s.
Proof.
  unfold foldInto, clear. destruct (negb _); [by left|]. right. destruct (held s); [done|]. by destruct (negb _).
Qed.

Lemma held_ok_step s o : held_ok s -> held_ok (chunk_step s o).
Proof.
  intros Hs. assert (Hc : held_ok (clear s)) by (split; simpl; [lia|]; unfold MAX_SNAPSHOT_BYTES; lia).
  destruct o as [c a| |w]; simpl; [by apply held_ok_offer|done|].
  by destruct (fold_state s w) as [->| ->].
Qed.

Lemma held_ok_run ops s : held_ok s -> held_ok (foldl chunk_step s ops).
Proof. revert s. induction ops as [|o ops IH]; intros s Hs; simpl; [done|]. by apply IH, held_ok_step. Qed.

(** ** Reassembly *)

Lemma foldInto_numbered s l fields snap e st n :
  held s ≡ₚ l -> numbered l -> (length l <= MAX_SNAPSHOT_CHUNKS)%nat -> l <> [] ->
  mget fields (js "snapshotChunks") = Some (JNum (of_Z n)) -> n = Z.of_nat (length l) ->
  mget fields (js "snapshot") = Some (JObj snap) ->
  mget snap (js "entities") = Some (JArr e) -> mget snap (js "state") = Some (JArr st) ->
  foldInto s (JObj fields)
  = (MkChunks [] 0 (c_dropped s),
     Ok (true, JObj (mset fields (js "snapshot")
       (JObj (mset (mset snap (js "entities") (JArr (flat_field l "entities" ++ e)))
          (js "state") (JArr (flat_field l "state" ++ st))))))).
Proof.
  intros Hp Hnum Hlen Hne Hcount -> Hsnap He Hst.
  assert (Hl : length (held s) = length l) by (by rewrite Hp).
  unfold foldInto. cbn [jget]. rewrite Hcount, Hl.
  cbn [expected_count]. rewrite feq_int by (unfold exact_int, MAX_SNAPSHOT_CHUNKS in *; lia). rewrite Z.eqb_refl. cbn [negb].
  destruct (held s) as [|c0 rest] eqn:Eh; [by destruct l|].
  rewrite (sort_numbered l) by (done || unfold MAX_SNAPSHOT_CHUNKS in *; lia).
  assert (Hg : no_gap 0 l = true) by (apply (no_gap_numbered l 0); intros k c Hc; by apply Hnum).
  rewrite Hg. cbn [negb].
  rewrite Hsnap. cbn [jget]. rewrite He. cbn [spread].
  unfold mbind, outcome_bind. cbn [jset]. cbn [jget]. rewrite mget_mset_ne by done. rewrite Hst. cbn [spread].
  done.
Qed.
End buffering.

(** ** Properties *)

Lemma wire_numbered ej sj chunks :
  ck_index <$> chunks = seq 0 (length chunks) -> numbered (wire_chunk ej sj <$> chunks) \/ (1000 < length chunks)%nat.
Proof.
  intros Hi. destruct (le_lt_dec (length chunks) 1000) as [Hle|]; [left|by right]. intros n c Hc.
  rewrite list_lookup_fmap in Hc. destruct (chunks !! n) as [ck|] eqn:E; [|done]. injection Hc as <-.
  assert (Hn : (ck_index <$> chunks) !! n = Some (ck_index ck)) by (by rewrite list_lookup_fmap, E).
  pose proof (lookup_lt_Some _ _ _ E) as Hlt. rewrite Hi, lookup_seq_lt in Hn by done. injection Hn as Hn. simpl in Hn.
  split; [by rewrite Hn|]. unfold exact_int. lia.
Qed.

Lemma flat_wire ej sj chunks :
  flat_field (wire_chunk ej sj <$> chunks) "entities" = ej <$> concat (ck_entities <$> chunks)
  /\ flat_field (wire_chunk ej sj <$> chunks) "state" = sj <$> concat (ck_state <$> chunks).
Proof.
  unfold flat_field. split; induction chunks as [|c l IH]; csimpl; try done; by rewrite fmap_app, <- IH.
Qed.

Lemma wire_chunk_narrows ej sj c :
  (length (ck_entities c) <= MAX_WIRE_ITEMS)%nat -> (length (ck_state c) <= MAX_WIRE_ITEMS)%nat ->
  (ck_index c <= 1000)%nat -> asServerEnvelope (wire_chunk ej sj c) = Some KChunk.
Proof.
  intros He Hs Hi. unfold asServerEnvelope, wire_chunk.
  match goal with |- context [JObj ?f] => set (fields := f) end.
  assert (Hf : jget (JObj fields) "kind" = Some (JStr (js "snapshot-chunk"))
    /\ jget (JObj fields) "index" = Some (JNum (of_Z (Z.of_nat (ck_index c))))
    /\ jget (JObj fields) "entities" = Some (JArr (ej <$> ck_entities c))
    /\ jget (JObj fields) "state" = Some (JArr (sj <$> ck_state c))) by done.
  destruct Hf as (-> & -> & -> & ->). cbn [is_container negb].
  change (eq_str (Some (JStr (js "snapshot-chunk"))) "welcome") with false.
  change (eq_str (Some (JStr (js "snapshot-chunk"))) "snapshot-chunk") with true. cbv iota zeta.
  unfold is_finite, isBoundedArray. rewrite isFinite_int by (unfold exact_int; lia).
  rewrite !length_fmap, !bool_decide_true by done. done.
Qed.

(** C36. A chunked snapshot survives the wire. The chunks the authority splits a world
    into, received in whatever order, are each accepted, and the Welcome that names
    their count is given back a snapshot whose entities and state are exactly those of
    the world that a frame can carry, in the authority's own order, parents still
    before children; the buffer is left empty. The client's caps are the only
    condition: 256 chunks, 16 MiB of them, 65536 items in each. *)
Theorem chunked_snapshot_reassembles {Frame Outgoing Message Err} `{C : Codec Frame Outgoing Message Err}
    `{T : JsonText} (em : EntitySnapshot -> Outgoing) (sm : StateDiff -> Outgoing)
    (ej : EntitySnapshot -> json) (sj : StateDiff -> json) (s : WorldSnapshot) (budget : Z)
    (arrivals : list json) (fields snap : jsmap jstr json) :
  let '(head, chunks, _) := splitSnapshot em sm s budget in
  arrivals ≡ₚ wire_chunk ej sj <$> chunks ->
  chunks <> [] -> (length chunks <= MAX_SNAPSHOT_CHUNKS)%nat ->
  total_bytes (wire_chunk ej sj <$> chunks) <= MAX_SNAPSHOT_BYTES ->
  Forall (fun c => length (ck_entities c) <= MAX_WIRE_ITEMS /\ length (ck_state c) <= MAX_WIRE_ITEMS)%nat chunks ->
  mget fields (js "snapshotChunks") = Some (JNum (of_Z (Z.of_nat (length chunks)))) ->
  mget fields (js "snapshot") = Some (JObj snap) ->
  mget snap (js "entities") = Some (JArr (ej <$> entities head)) ->
  mget snap (js "state") = Some (JArr (sj <$> ws_state head)) ->
  Forall (fun c => asServerEnvelope c = Some KChunk) arrivals
  /\ exists snap',
    foldInto (foldl (fun b c => offer b c false) no_chunks arrivals) (JObj fields)
      = (no_chunks, Ok (true, JObj (mset fields (js "snapshot") (JObj snap'))))
    /\ mget snap' (js "entities") = Some (JArr (ej <$> filter (fun x => fits em budget x = true) (entities s)))
    /\ mget snap' (js "state") = Some (JArr (sj <$> filter (fun x => fits sm budget x = true) (ws_state s))).
Proof.
  pose proof (split_spec em sm s budget) as Hsplit.
  destruct (splitSnapshot em sm s budget) as [[head chunks] lost].
  destruct Hsplit as (He & Hs & _ & _ & Hi & _ & ->).
  intros Hp Hne Hlen Hbytes Hitems Hcount Hsnap Hen Hst.
  assert (Hl : length arrivals = length chunks) by (by rewrite Hp, length_fmap).
  split.
  { rewrite Hp. apply Forall_fmap, Forall_forall. intros c Hc. rewrite Forall_forall in Hitems.
    destruct (Hitems c Hc). apply wire_chunk_narrows; [done|done|].
    assert (Hin : ck_index c ∈ ck_index <$> chunks) by (apply list_elem_of_fmap; eauto).
    rewrite Hi in Hin. apply elem_of_seq in Hin. unfold MAX_SNAPSHOT_CHUNKS in Hlen. lia. }
  destruct (flat_wire ej sj chunks) as [Hfe Hfs].
  assert (Hnum : numbered (wire_chunk ej sj <$> chunks)).
  { destruct (wire_numbered ej sj chunks Hi); [done|]. unfold MAX_SNAPSHOT_CHUNKS in Hlen. lia. }
  rewrite offer_all by (simpl; rewrite ?Hl, ?(total_bytes_perm _ _ Hp); simpl; lia).
  eexists. split.
  - rewrite (foldInto_numbered _ (wire_chunk ej sj <$> chunks) fields snap _ _ (Z.of_nat (length chunks)))
      by (simpl; rewrite ?length_fmap; first [done|by destruct chunks]).
    reflexivity.
  - rewrite mget_mset_ne, !mget_mset_eq by done. rewrite Hfe, Hfs, He, Hs. simpl. by rewrite !app_nil_r.
Qed.

#[local] Instance fixed_codec : Codec unit unit unit unit := {|
  encode _ := Ok tt; decode _ := Ok tt; byteLength _ := 8;
|}.

Definition plain_entity (id : Z) : EntitySnapshot :=
  MkSnapshot id (js "box") None None [] zero_cells None.

Definition two_boxes : WorldSnapshot := MkWorld 5 [plain_entity 1; plain_entity 2] [] [].
Definition id_json (e : EntitySnapshot) : json := JNum (of_Z (netId e)).
Definition no_json (d : StateDiff) : json := JNull.

(** Two entities in two chunks that arrive in the opposite order. *)
Definition two_chunks : list SnapshotChunk :=
  (splitSnapshot (fun _ : EntitySnapshot => tt) (fun _ : StateDiff => tt) two_boxes 10).1.2.

Definition box_welcome : jsmap jstr json :=
  [(js "snapshotChunks", JNum (of_Z 2));
   (js "snapshot", JObj [(js "entities", JArr []); (js "state", JArr [])])].

Lemma chunked_snapshot_reassembles_witness :
  exists snap',
    foldInto (foldl (fun b c => offer (T := prefixText) b c false) no_chunks
        (reverse (wire_chunk id_json no_json <$> two_chunks))) (JObj box_welcome)
      = (no_chunks, Ok (true, JObj (mset box_welcome (js "snapshot") (JObj snap'))))
    /\ mget snap' (js "entities") = Some (JArr [JNum (of_Z 1); JNum (of_Z 2)]).
Proof.
  destruct (chunked_snapshot_reassembles (T := prefixText) (fun _ : EntitySnapshot => tt) (fun _ : StateDiff => tt)
    id_json no_json two_boxes 10 (reverse (wire_chunk id_json no_json <$> two_chunks)) box_welcome
    [(js "entities", JArr []); (js "state", JArr [])]) as (_ & snap' & Hf & He & _).
  - apply reverse_Permutation.
  - discriminate.
  - apply (bool_decide_unpack _). vm_compute. exact I.
  - apply (bool_decide_unpack _). vm_compute. exact I.
  - assert (H1 : Forall (fun c => length (ck_entities c) <= 1 /\ length (ck_state c) <= 1)%nat two_chunks)
      by (apply (bool_decide_unpack _); vm_compute; exact I).
    eapply Forall_impl; [exact H1|]. unfold MAX_WIRE_ITEMS. intros c [? ?]. split; lia.
  - reflexivity.
  - reflexivity.
  - reflexivity.
  - reflexivity.
  - exists snap'. split; [exact Hf|]. etransitivity; [exact He|]. vm_compute. reflexivity.
Defined.

(** A Welcome never opens on half a world. When folding reports success, either no
    chunk was held and the Welcome named none, or the chunks held are exactly those
    indexed 0, 1, 2, ... up to the number the Welcome named, each once, and the
    snapshot's arrays are theirs in index order ahead of its own. *)
Theorem fold_only_complete_sets (s s' : SnapshotChunks) (welcome welcome' : json)
    (Hfold : foldInto s welcome = (s', Ok (true, welcome'))) :
  held s' = []
  /\ ((held s = [] /\ welcome' = welcome)
      \/ exists sorted e st snap,
           sorted ≡ₚ held s
           /\ (forall n c, sorted !! n = Some c -> feq (chunk_index c) (of_Z (Z.of_nat n)) = true)
           /\ (exists x, expected_count (jget welcome "snapshotChunks") = Some x
                 /\ feq (of_Z (Z.of_nat (length sorted))) x = true)
           /\ jget welcome "snapshot" = Some snap
           /\ spread (jget snap "entities") = Ok e
           /\ welcome' = jset welcome "snapshot"
                (jset (jset snap "entities" (JArr (flat_field sorted "entities" ++ e))) "state"
                   (JArr (flat_field sorted "state" ++ st)))).
Proof.
  unfold foldInto in Hfold.
  destruct (expected_count (jget welcome "snapshotChunks")) as [x|] eqn:Ex; [|done].
  destruct (negb (feq (of_Z (Z.of_nat (length (held s)))) x)) eqn:Eq; [done|]. apply negb_false_iff in Eq.
  destruct (held s) as [|c0 rest] eqn:Eh.
  { injection Hfold as <- <-. split; [done|]. by left. }
  destruct (negb (no_gap 0 (sort_chunks (c0 :: rest)))) eqn:Eg; [done|]. apply negb_false_iff in Eg.
  destruct (jget welcome "snapshot") as [snap|] eqn:Es; [|done].
  destruct (spread (jget snap "entities")) as [e|] eqn:Ee; [|done]. cbn [mbind outcome_bind] in Hfold.
  destruct (spread _) as [st|] eqn:Est in Hfold; [|done]. injection Hfold as <- <-.
  split; [done|]. right. exists (sort_chunks (c0 :: rest)), e, st, snap.
  split; [apply sort_chunks_perm|]. split; [intros n c Hc; apply (no_gap_lookup _ 0 Eg n c Hc)|].
  split; [|done]. exists x. split; [done|]. by rewrite (Permutation_length (sort_chunks_perm _)).
Qed.

Definition box_buffer : SnapshotChunks :=
  MkChunks (reverse (wire_chunk id_json no_json <$> two_chunks)) 0 0.

Lemma fold_only_complete_sets_witness :
  exists w', foldInto box_buffer (JObj box_welcome) = (no_chunks, Ok (true, w')) /\ held no_chunks = [].
Proof.
  eexists. split; [vm_compute; reflexivity|].
  apply (fold_only_complete_sets box_buffer no_chunks (JObj box_welcome) _ ltac:(vm_compute; reflexivity)).
Defined.

(** A peer cannot make a client hold more than its caps. Over any sequence of
    chunks, resyncs and Welcomes, at most 256 chunks are held, their encoded size is
    tracked exactly, and it stays within 16 MiB. *)
Theorem held_chunks_bounded `{T : JsonText} (ops : list chunk_op) :
  let s := foldl chunk_step no_chunks ops in
  (length (held s) <= MAX_SNAPSHOT_CHUNKS)%nat /\ bytes s = total_bytes (held s) /\ bytes s <= MAX_SNAPSHOT_BYTES.
Proof.
  apply held_ok_run. split; [simpl; lia|]. by split.
Qed.
