(* ===== verification/Client.v ===== *)
(** * The game client ([packages/client/src/client.ts])

    One session from its join to its end: what arrives is drained once a frame and
    dispatched, time becomes ticks, edges become frames stamped with them, and four
    deadlines and a liveness check decide when it fails, stalls or joins again. The world
    behind a Welcome, mirror, display bridge and prediction together, is an interface. *)

From S2P Require Import Prelude JsMap JsNum JsInt Json ActionStates Channels Codec Envelope Hosts Replicate Handshake Session Bindings.

Local Open Scope Z_scope.

Definition SYNC_INTERVAL_SECONDS : num := of_Z 2.
Definition STALL_SECONDS : num := of_Z 1.
Definition ACK_STALL_TICKS : num := of_Z 60.
Definition BUNDLE_DEADLINE_SECONDS : num := of_Z 30.
Definition JOIN_DEADLINE_SECONDS : num := of_Z 10.
Definition DEFAULT_VIEWPORT : ViewportExtent := MkViewport (of_Z 800) (of_Z 600).

(** What a client sends. *)
Inductive Uplink :=
  | UpJoin (sentMs : num) (bundleHash : jstr)
  | UpInput (f : InputFrame)
  | UpInteractions (f : InteractionFrame)
  | UpRequests (f : RequestFrame)
  | UpSync (sentMs : num).

(** A [TransportError]: whether its code is [encode-rejected], and its message. *)
Record TransportError := MkTransportError { encode_rejected : bool; te_message : jstr }.

(** The mirrored world with its bridge and, when the client predicts, its prediction. A
    call that throws gives its message beside what it had done. *)
Class ClientWorld (M : Type) := {
  w_open : json -> outcome jstr M; (** mirror and bridge built for a Welcome, art started *)
  w_snapshot : M -> json -> M * option jstr;
  w_state : M -> json -> M * option jstr;
  w_transforms : M -> json -> M * option jstr;
  w_manifest : M -> json -> M;
  w_depicted : M -> num;
  w_rewind : M -> M;
  w_predict : M -> InputRing -> num -> bool -> M;
  w_display : M -> num -> M;
  w_net : M -> EntityId -> option NetId;
}.

Section Client.
Context `{T : JsonText} {M : Type} `{ClientWorld M}.
(** The lifecycle's listeners, the engine's stack and the loop's fuel ([Session]). *)
Context (react : nat -> SessionState -> reaction) (depth fuel : nat).
(** The transport's codec: the error a send throws, if it throws. *)
Context (refuses : Uplink -> option TransportError).
(** The options a client is made with: whether it predicts, its project's bundle, whether
    it has a source of bundles. *)
Context (predict : bool) (projectBundle : jstr) (hasSource : bool).

Record Link := MkLink {
  lc : Lifecycle;
  inbox : list (server_kind * json);
  chunks : SnapshotChunks;
  attached : bool; (** the transport's and the device's handlers are registered *)
  looping : bool; (** the frame source runs *)
  closed : bool; (** [transport.close] was called *)
  sent : list Uplink;
  torn : bool;
  bundleHash : jstr;
  fetching : option json; (** the Welcome a bundle fetch was started for *)
  loadingSince : option num;
}.

Record Controls := MkControls {
  table : BindingTable;
  ring : InputRing;
  acts : ActionStates;
  next_seq : Z;
  pending : list InputEdge;
  owed : list Interaction;
  asked : list GameRequest;
  rejoined : bool;
}.

Record Times := MkTimes {
  rtt : num;
  joinSentMs : num;
  lastSyncSentMs : option num;
  now : num;
  joinSentAt : option num;
  lastFrameAt : option num;
  lastEnvelopeAt : option num;
  lastSyncAt : num;
  ackSeqStillAt : num;
}.

Record Opened := MkOpened {
  world : option M;
  clock : option ClientClock;
  welcome : option json;
  resimulate : bool;
  ackSeq : num;
}.

Record Client := MkClient { link : Link; ctl : Controls; times : Times; opened : Opened }.

Definition set_lc (v : Lifecycle) (c : Client) : Client :=
  MkClient (MkLink v (inbox (link c)) (chunks (link c)) (attached (link c)) (looping (link c)) (closed (link c)) (sent (link c)) (torn (link c)) (bundleHash (link c)) (fetching (link c)) (loadingSince (link c))) (ctl c) (times c) (opened c).
Definition set_inbox (v : list (server_kind * json)) (c : Client) : Client :=
  MkClient (MkLink (lc (link c)) v (chunks (link c)) (attached (link c)) (looping (link c)) (closed (link c)) (sent (link c)) (torn (link c)) (bundleHash (link c)) (fetching (link c)) (loadingSince (link c))) (ctl c) (times c) (opened c).
Definition set_chunks (v : SnapshotChunks) (c : Client) : Client :=
  MkClient (MkLink (lc (link c)) (inbox (link c)) v (attached (link c)) (looping (link c)) (closed (link c)) (sent (link c)) (torn (link c)) (bundleHash (link c)) (fetching (link c)) (loadingSince (link c))) (ctl c) (times c) (opened c).
Definition set_attached (v : bool) (c : Client) : Client :=
  MkClient (MkLink (lc (link c)) (inbox (link c)) (chunks (link c)) v (looping (link c)) (closed (link c)) (sent (link c)) (torn (link c)) (bundleHash (link c)) (fetching (link c)) (loadingSince (link c))) (ctl c) (times c) (opened c).
Definition set_looping (v : bool) (c : Client) : Client :=
  MkClient (MkLink (lc (link c)) (inbox (link c)) (chunks (link c)) (attached (link c)) v (closed (link c)) (sent (link c)) (torn (link c)) (bundleHash (link c)) (fetching (link c)) (loadingSince (link c))) (ctl c) (times c) (opened c).
Definition set_closed (v : bool) (c : Client) : Client :=
  MkClient (MkLink (lc (link c)) (inbox (link c)) (chunks (link c)) (attached (link c)) (looping (link c)) v (sent (link c)) (torn (link c)) (bundleHash (link c)) (fetching (link c)) (loadingSince (link c))) (ctl c) (times c) (opened c).
Definition set_sent (v : list Uplink) (c : Client) : Client :=
  MkClient (MkLink (lc (link c)) (inbox (link c)) (chunks (link c)) (attached (link c)) (looping (link c)) (closed (link c)) v (torn (link c)) (bundleHash (link c)) (fetching (link c)) (loadingSince (link c))) (ctl c) (times c) (opened c).
Definition set_torn (v : bool) (c : Client) : Client :=
  MkClient (MkLink (lc (link c)) (inbox (link c)) (chunks (link c)) (attached (link c)) (looping (link c)) (closed (link c)) (sent (link c)) v (bundleHash (link c)) (fetching (link c)) (loadingSince (link c))) (ctl c) (times c) (opened c).
Definition set_bundleHash (v : jstr) (c : Client) : Client :=
  MkClient (MkLink (lc (link c)) (inbox (link c)) (chunks (link c)) (attached (link c)) (looping (link c)) (closed (link c)) (sent (link c)) (torn (link c)) v (fetching (link c)) (loadingSince (link c))) (ctl c) (times c) (opened c).
Definition set_fetching (v : option json) (c : Client) : Client :=
  MkClient (MkLink (lc (link c)) (inbox (link c)) (chunks (link c)) (attached (link c)) (looping (link c)) (closed (link c)) (sent (link c)) (torn (link c)) (bundleHash (link c)) v (loadingSince (link c))) (ctl c) (times c) (opened c).
Definition set_loadingSince (v : option num) (c : Client) : Client :=
  MkClient (MkLink (lc (link c)) (inbox (link c)) (chunks (link c)) (attached (link c)) (looping (link c)) (closed (link c)) (sent (link c)) (torn (link c)) (bundleHash (link c)) (fetching (link c)) v) (ctl c) (times c) (opened c).
Definition set_table (v : BindingTable) (c : Client) : Client :=
  MkClient (link c) (MkControls v (ring (ctl c)) (acts (ctl c)) (next_seq (ctl c)) (pending (ctl c)) (owed (ctl c)) (asked (ctl c)) (rejoined (ctl c))) (times c) (opened c).
Definition set_ring (v : InputRing) (c : Client) : Client :=
  MkClient (link c) (MkControls (table (ctl c)) v (acts (ctl c)) (next_seq (ctl c)) (pending (ctl c)) (owed (ctl c)) (asked (ctl c)) (rejoined (ctl c))) (times c) (opened c).
Definition set_acts (v : ActionStates) (c : Client) : Client :=
  MkClient (link c) (MkControls (table (ctl c)) (ring (ctl c)) v (next_seq (ctl c)) (pending (ctl c)) (owed (ctl c)) (asked (ctl c)) (rejoined (ctl c))) (times c) (opened c).
Definition set_next_seq (v : Z) (c : Client) : Client :=
  MkClient (link c) (MkControls (table (ctl c)) (ring (ctl c)) (acts (ctl c)) v (pending (ctl c)) (owed (ctl c)) (asked (ctl c)) (rejoined (ctl c))) (times c) (opened c).
Definition set_pending (v : list InputEdge) (c : Client) : Client :=
  MkClient (link c) (MkControls (table (ctl c)) (ring (ctl c)) (acts (ctl c)) (next_seq (ctl c)) v (owed (ctl c)) (asked (ctl c)) (rejoined (ctl c))) (times c) (opened c).
Definition set_owed (v : list Interaction) (c : Client) : Client :=
  MkClient (link c) (MkControls (table (ctl c)) (ring (ctl c)) (acts (ctl c)) (next_seq (ctl c)) (pending (ctl c)) v (asked (ctl c)) (rejoined (ctl c))) (times c) (opened c).
Definition set_asked (v : list GameRequest) (c : Client) : Client :=
  MkClient (link c) (MkControls (table (ctl c)) (ring (ctl c)) (acts (ctl c)) (next_seq (ctl c)) (pending (ctl c)) (owed (ctl c)) v (rejoined (ctl c))) (times c) (opened c).
Definition set_rejoined (v : bool) (c : Client) : Client :=
  MkClient (link c) (MkControls (table (ctl c)) (ring (ctl c)) (acts (ctl c)) (next_seq (ctl c)) (pending (ctl c)) (owed (ctl c)) (asked (ctl c)) v) (times c) (opened c).
Definition set_rtt (v : num) (c : Client) : Client :=
  MkClient (link c) (ctl c) (MkTimes v (joinSentMs (times c)) (lastSyncSentMs (times c)) (now (times c)) (joinSentAt (times c)) (lastFrameAt (times c)) (lastEnvelopeAt (times c)) (lastSyncAt (times c)) (ackSeqStillAt (times c))) (opened c).
Definition set_joinSentMs (v : num) (c : Client) : Client :=
  MkClient (link c) (ctl c) (MkTimes (rtt (times c)) v (lastSyncSentMs (times c)) (now (times c)) (joinSentAt (times c)) (lastFrameAt (times c)) (lastEnvelopeAt (times c)) (lastSyncAt (times c)) (ackSeqStillAt (times c))) (opened c).
Definition set_lastSyncSentMs (v : option num) (c : Client) : Client :=
  MkClient (link c) (ctl c) (MkTimes (rtt (times c)) (joinSentMs (times c)) v (now (times c)) (joinSentAt (times c)) (lastFrameAt (times c)) (lastEnvelopeAt (times c)) (lastSyncAt (times c)) (ackSeqStillAt (times c))) (opened c).
Definition set_now (v : num) (c : Client) : Client :=
  MkClient (link c) (ctl c) (MkTimes (rtt (times c)) (joinSentMs (times c)) (lastSyncSentMs (times c)) v (joinSentAt (times c)) (lastFrameAt (times c)) (lastEnvelopeAt (times c)) (lastSyncAt (times c)) (ackSeqStillAt (times c))) (opened c).
Definition set_joinSentAt (v : option num) (c : Client) : Client :=
  MkClient (link c) (ctl c) (MkTimes (rtt (times c)) (joinSentMs (times c)) (lastSyncSentMs (times c)) (now (times c)) v (lastFrameAt (times c)) (lastEnvelopeAt (times c)) (lastSyncAt (times c)) (ackSeqStillAt (times c))) (opened c).
Definition set_lastFrameAt (v : option num) (c : Client) : Client :=
  MkClient (link c) (ctl c) (MkTimes (rtt (times c)) (joinSentMs (times c)) (lastSyncSentMs (times c)) (now (times c)) (joinSentAt (times c)) v (lastEnvelopeAt (times c)) (lastSyncAt (times c)) (ackSeqStillAt (times c))) (opened c).
Definition set_lastEnvelopeAt (v : option num) (c : Client) : Client :=
  MkClient (link c) (ctl c) (MkTimes (rtt (times c)) (joinSentMs (times c)) (lastSyncSentMs (times c)) (now (times c)) (joinSentAt (times c)) (lastFrameAt (times c)) v (lastSyncAt (times c)) (ackSeqStillAt (times c))) (opened c).
Definition set_lastSyncAt (v : num) (c : Client) : Client :=
  MkClient (link c) (ctl c) (MkTimes (rtt (times c)) (joinSentMs (times c)) (lastSyncSentMs (times c)) (now (times c)) (joinSentAt (times c)) (lastFrameAt (times c)) (lastEnvelopeAt (times c)) v (ackSeqStillAt (times c))) (opened c).
Definition set_ackSeqStillAt (v : num) (c : Client) : Client :=
  MkClient (link c) (ctl c) (MkTimes (rtt (times c)) (joinSentMs (times c)) (lastSyncSentMs (times c)) (now (times c)) (joinSentAt (times c)) (lastFrameAt (times c)) (lastEnvelopeAt (times c)) (lastSyncAt (times c)) v) (opened c).
Definition set_world (v : option M) (c : Client) : Client :=
  MkClient (link c) (ctl c) (times c) (MkOpened v (clock (opened c)) (welcome (opened c)) (resimulate (opened c)) (ackSeq (opened c))).
Definition set_clock (v : option ClientClock) (c : Client) : Client :=
  MkClient (link c) (ctl c) (times c) (MkOpened (world (opened c)) v (welcome (opened c)) (resimulate (opened c)) (ackSeq (opened c))).
Definition set_welcome (v : option json) (c : Client) : Client :=
  MkClient (link c) (ctl c) (times c) (MkOpened (world (opened c)) (clock (opened c)) v (resimulate (opened c)) (ackSeq (opened c))).
Definition set_resimulate (v : bool) (c : Client) : Client :=
  MkClient (link c) (ctl c) (times c) (MkOpened (world (opened c)) (clock (opened c)) (welcome (opened c)) v (ackSeq (opened c))).
Definition set_ackSeq (v : num) (c : Client) : Client :=
  MkClient (link c) (ctl c) (times c) (MkOpened (world (opened c)) (clock (opened c)) (welcome (opened c)) (resimulate (opened c)) v).

(** ** The end of a session *)

Definition session_state (c : Client) : SessionState := state (lc (link c)).
Definition accepts (c : Client) : bool := lc_accepts (lc (link c)).

Definition move_to (s : SessionState) (c : Client) : Client := set_lc (to react depth s (lc (link c))) c.

Definition shutdown (c : Client) : Client := set_closed true (set_attached false (set_inbox [] (set_looping false c))).

Definition fail (r : FailureReason) (c : Client) : Client := shutdown (set_lc (fail_with react depth r (lc (link c))) c).
Definition failPeer (message : jstr) : Client -> Client := fail (peer message).

(** [#guard(() => send(transport, u))]. A closed transport drops what it is sent. *)
Definition uplink (u : Uplink) (c : Client) : Client :=
  match refuses u with
  | Some e => fail (if encode_rejected e then internal (te_message e) else peer (te_message e)) c
  | None => if closed (link c) then c else set_sent (sent (link c) ++ [u]) c
  end.

(** ** Joining *)

Definition sendJoin (nowMs : num) (c : Client) : Client :=
  let c := set_joinSentAt None (set_joinSentMs nowMs c) in uplink (UpJoin nowMs (bundleHash (link c))) c.

Definition start (nowMs : num) (c : Client) : Client := set_looping true (sendJoin nowMs (set_attached true c)).

(** ** Input *)

(** Ticks count in integers; a server's snapshot tick is one. *)
Definition tick_of (x : num) : Z := default 0 (to_Z x).

Definition phase_name (p : EventPhase) : jstr :=
  match p with press => js "press" | release => js "release" | hold => js "hold" end.

Definition edge_key (e : InputEdge) : jstr := action e ++ [32] ++ phase_name (on e).

(** One entry per action and phase: the last edge's value in the first one's place. *)
Definition coalesce (es : list InputEdge) : list InputEdge := mvals (foldl (fun m e => mset m (edge_key e) e) [] es).

Definition flushInput (t : option num) (exempt : bool) (c : Client) : Client :=
  match clock (opened c) with
  | None => c
  | Some k =>
      if negb exempt && negb (accepts c) then set_pending [] c
      else
        match t with
        | None => c
        | Some t =>
            let c := set_acts (advanceTick (acts (ctl c))) c in
            match pending (ctl c) with
            | [] => c
            | es =>
                let c := set_pending [] (set_acts (applyEdges (acts (ctl c)) es) c) in
                let f := MkFrame (next_seq (ctl c)) (tick_of t) (coalesce es) in
                let c := set_ring (push (ring (ctl c)) f (currentLeadTicks k) (epoch k)) (set_next_seq (next_seq (ctl c) + 1) c) in
                uplink (UpInput f) c
            end
        end
  end.

Definition flushInteractions (c : Client) : Client :=
  match clock (opened c), owed (ctl c) with
  | None, _ | _, [] => c
  | Some k, l =>
      let c := set_owed [] c in
      if accepts c then uplink (UpInteractions (MkInteractions (tick_of (localTick k)) l)) c else c
  end.

Definition flushRequests (c : Client) : Client :=
  match clock (opened c), asked (ctl c) with
  | None, _ | _, [] => c
  | Some k, l =>
      if accepts c then
        uplink (UpRequests (MkRequests (tick_of (localTick k)) (take MAX_REQUESTS_PER_FRAME l))) (set_asked (drop MAX_REQUESTS_PER_FRAME l) c)
      else set_asked [] c
  end.

(** [#onRaw]. *)
Definition onRaw (e : RawInputEvent) (v : ViewportExtent) (c : Client) : Client :=
  let '(t, edges) := resolve e v (table (ctl c)) in
  let c := set_table t c in
  match edges with
  | [] => c
  | _ =>
      match e with
      | FocusLost => flushInput (localTick <$> clock (opened c)) true (set_pending (pending (ctl c) ++ edges) c)
      | _ => if accepts c then set_pending (pending (ctl c) ++ edges) c else c
      end
  end.

Definition resumeInput (c : Client) : Client :=
  let c := set_table (forgetSentValues (table (ctl c))) c in
  let samples := (fun p => MkEdge p.1 hold (Some p.2)) <$> axisValues (acts (ctl c)) in
  let c := set_pending (pending (ctl c) ++ samples) c in
  if rejoined (ctl c) then
    let presses := (fun a => MkEdge a press None) <$> heldActions (acts (ctl c)) in
    set_pending (pending (ctl c) ++ presses) (set_rejoined false c)
  else c.

(** [pressWidget] and [pointer], the wire's half; [#queueRequest]. *)
Definition pressWidget (widget : jstr) (screen : option jstr) (c : Client) : Client :=
  if accepts c then set_owed (owed (ctl c) ++ [IPress widget screen]) c else c.

Definition pointer (kind : PointerKind) (local : EntityId) (c : Client) : Client :=
  if accepts c then
    match world (opened c) ≫= fun m => w_net m local with
    | Some n => set_owed (owed (ctl c) ++ [IPointer kind n]) c
    | None => c
    end
  else c.

Definition queueRequest (r : GameRequest) (c : Client) : Client :=
  if accepts c then set_asked (asked (ctl c) ++ [r]) c else c.

(** ** Opening a session *)

(** What threw, beside what had been done. *)
Abbreviation thrown_client := (Client * option jstr)%type.

Definition openSession (w : json) (c : Client) : thrown_client :=
  let c := set_welcome (Some w) c in
  match w_open w with
  | Throw e => (c, Some e)
  | Ok m =>
      let snapshotTick := match jget w "snapshot" with Some s => as_num (jget s "tick") | None => NaN end in
      let c := set_clock (Some (new_clock (as_num (jget w "simRate")) snapshotTick (rtt (times c)))) (set_world (Some m) c) in
      let '(m, err) := w_snapshot m w in
      let c := set_world (Some m) c in
      match err with
      | Some e => (c, Some e)
      | None =>
          let c := if predict then set_resimulate true c else c in
          let c := set_ackSeqStillAt (now (times c)) (set_lastSyncAt (now (times c)) c) in
          (resumeInput (move_to live c), None)
      end
  end.

Definition chunks_short : jstr := js "the snapshot chunks did not add up to the set the Welcome named".
Definition no_source : jstr := js "the server sent game code this client has no way to load".

Definition onWelcome (nowMs : num) (w : json) (c : Client) : thrown_client :=
  match welcome (opened c), loadingSince (link c) with
  | Some _, _ | _, Some _ => (c, None)
  | None, None =>
      let '(ch, folded) := foldInto (chunks (link c)) w in
      let c := set_chunks ch c in
      match folded with
      | Throw _ => (c, Some (js "not iterable"))
      | Ok (false, _) => (failPeer chunks_short c, None)
      | Ok (true, w) =>
          if negb (isUsableWelcome w) then (fail undecodable c, None)
          else
            let c := set_rtt (rttSeconds nowMs (joinSentMs (times c))) c in
            let url := as_str (jget w "bundleUrl") in
            let hash := as_str (jget w "bundleHash") in
            if bool_decide (url = []) || bool_decide (hash = bundleHash (link c)) then openSession w c
            else if hasSource then
              (set_fetching (Some w) (move_to loading (set_loadingSince (Some (now (times c))) c)), None)
            else (fail (bundle no_source) c, None)
      end
  end.

Definition stillLoading (c : Client) : bool :=
  negb (torn (link c)) && bool_decide (loadingSince (link c) <> None) && bool_decide (session_state c = loading).

(** The fetch of a bundle settling: its error's message, or nothing. *)
Definition loaded (res : option jstr) (c : Client) : Client :=
  match fetching (link c) with
  | None => c
  | Some w =>
      let c := set_fetching None c in
      if negb (stillLoading c) then c
      else
        match res with
        | Some message => fail (bundle message) (set_loadingSince None c)
        | None =>
            let c := set_loadingSince None (set_bundleHash (as_str (jget w "bundleHash")) c) in
            match openSession w c with (c, Some e) => failPeer e c | (c, None) => c end
        end
  end.

(** ** What arrives *)

(** [rejectMessage]; a finite number prints as JSON prints it. *)
Definition rejectMessage (r : json) : jstr :=
  let reason := jget r "reason" in
  if eq_str reason "version" then
    js "This game needs an update: the server speaks protocol " ++ stringify (JNum (as_num (jget r "serverProtocolVersion")))
    ++ js ", this client speaks " ++ num_str PROTOCOL_VERSION ++ js "."
  else if eq_str reason "full" then js "This game is full."
  else if eq_str reason "identity" then js "This game has been updated: reload the page to get the current version."
  else js "The server refused the connection.".

Definition onReject (r : json) (c : Client) : Client :=
  fail (rejected (rejectMessage r) (as_num (jget r "serverProtocolVersion"))) c.

(** The ack: the ring is pruned, the lead steered off the earliest frame it resolved. *)
Definition onAck (k : ClientClock) (m : json) (c : Client) : Client :=
  let ackOf := as_num (jget m "ackSeq") in
  if flt (ackSeq (opened c)) ackOf then
    let c := set_ackSeqStillAt (now (times c)) (set_ackSeq ackOf c) in
    let '(r, earliest) := ack (ring (ctl c)) (default 0 (floorZ ackOf)) in
    let c := set_ring r c in
    match earliest, jget m "earliestHeadroom" with
    | Some e, Some (JNum headroom) =>
        if ActionStates.epoch e =? epoch k then set_clock (Some (sample (MkSample headroom (ActionStates.leadAtSendTicks e)) k)) c else c
    | _, _ => c
    end
  else c.

Definition onState (m : json) (c : Client) : thrown_client :=
  match world (opened c), clock (opened c) with
  | Some w, Some k =>
      let '(w, err) := w_state w m in
      let c := set_world (Some w) c in
      match err with Some e => (c, Some e) | None => (onAck k m c, None) end
  | _, _ => (c, None)
  end.

Definition onTimeSyncReply (nowMs : num) (m : json) (c : Client) : Client :=
  match lastSyncSentMs (times c) with
  | Some sentMs =>
      if feq (as_num (jget m "clientSentMs")) sentMs then set_rtt (rttSeconds nowMs sentMs) (set_lastSyncSentMs None c) else c
  | None => c
  end.

(** What a resync drops of the session it leaves. *)
Definition forgetSession (c : Client) : Client :=
  let at_ := now (times c) in
  MkClient
    (set_loadingSince None (set_chunks (clear (chunks (link c))) c)).(link)
    (set_rejoined true (set_asked [] (set_owed [] (set_pending [] c)))).(ctl)
    (set_lastSyncSentMs None (set_lastEnvelopeAt (Some at_) (set_ackSeqStillAt at_ c))).(times)
    (MkOpened None None None false (of_Z (-1))).

Definition resetRing (c : Client) : Client := set_ring (reset (ring (ctl c)) (Some (acts (ctl c)))) c.

(** [#resync]: the world is dropped and the join sent again. *)
Definition resync (nowMs : num) (c : Client) : Client := sendJoin nowMs (forgetSession (resetRing (move_to resyncing c))).

Definition onRateChange (nowMs : num) (c : Client) : Client :=
  match welcome (opened c) with Some _ => resync nowMs c | None => c end.

Definition dispatch (nowMs : num) (e : server_kind * json) (c : Client) : thrown_client :=
  let '(kind, m) := e in
  match kind with
  | KWelcome => onWelcome nowMs m c
  | KChunk => (set_chunks (offer (chunks (link c)) m (bool_decide (welcome (opened c) <> None))) c, None)
  | KReject => (onReject m c, None)
  | KState => onState m c
  | KTransform =>
      match world (opened c) with
      | Some w => let '(w, err) := w_transforms w m in (set_world (Some w) c, err)
      | None => (c, None)
      end
  | KManifest => (match world (opened c) with Some w => set_world (Some (w_manifest w m)) c | None => c end, None)
  | KTimeSyncReply => (onTimeSyncReply nowMs m c, None)
  | KRateChange => (onRateChange nowMs c, None)
  end.

Definition isAuthoritative (e : server_kind * json) : bool := match e.1 with KState | KTransform => true | _ => false end.

(** The batch, until the session fails or a Welcome opens a fetch, what is left then going
    back to the front. *)
Fixpoint drain_batch (nowMs : num) (batch : list (server_kind * json)) (c : Client) : Client :=
  match batch with
  | [] => c
  | e :: rest =>
      if bool_decide (session_state c = failed) then c
      else
        match dispatch nowMs e c with
        | (c, Some message) => failPeer message c
        | (c, None) =>
            if bool_decide (loadingSince (link c) <> None) then set_inbox (rest ++ inbox (link c)) c
            else drain_batch nowMs rest c
        end
  end.

Definition drainInbox (nowMs : num) (c : Client) : Client :=
  if bool_decide (loadingSince (link c) <> None) then c
  else
    match inbox (link c) with
    | [] => c
    | batch =>
        let c := set_lastEnvelopeAt (Some (now (times c))) (set_inbox [] c) in
        let c :=
          match world (opened c) with
          | Some w => if predict && existsb isAuthoritative batch then set_resimulate true (set_world (Some (w_rewind w)) c) else c
          | None => c
          end in
        drain_batch nowMs batch c
    end.

Definition receive (e : server_kind * json) (c : Client) : Client :=
  if isTerminal (session_state c) then c else set_inbox (inbox (link c) ++ [e]) c.

(** [transport.onClose]: a refusal that rode in ahead of the close is the reason. *)
Definition onClose (c : Client) : Client :=
  match find (fun e => match e.1 with KReject => true | _ => false end) (inbox (link c)) with
  | Some (_, m) => onReject m c
  | None => set_looping false (set_loadingSince None (move_to disconnected c))
  end.

(** ** One frame *)

Definition predict_frame (c : Client) : Client :=
  let again := resimulate (opened c) in
  let c := set_resimulate false c in
  match world (opened c), clock (opened c) with
  | Some w, Some k =>
      if predict && bool_decide (session_state c = live) then set_world (Some (w_predict w (ring (ctl c)) (localTick k) again)) c else c
  | _, _ => c
  end.

Definition elapsed (c : Client) (since limit : num) : bool := fle limit (fsub (now (times c)) since).

Definition no_answer : jstr := js "the server did not answer the join within " ++ num_str 10 ++ js " seconds".
Definition no_bundle : jstr := js "the game code did not arrive within " ++ num_str 30 ++ js " seconds".

Definition checkJoinDeadline (c : Client) : Client :=
  if bool_decide (session_state c = connecting) || bool_decide (session_state c = resyncing) then
    match joinSentAt (times c) with
    | None => set_joinSentAt (Some (now (times c))) c
    | Some since => if flt (fsub (now (times c)) since) JOIN_DEADLINE_SECONDS then c else fail (peer no_answer) c
    end
  else c.

Definition checkBundleDeadline (c : Client) : Client :=
  match loadingSince (link c) with
  | None => c
  | Some since => if flt (fsub (now (times c)) since) BUNDLE_DEADLINE_SECONDS then c else fail (bundle no_bundle) (set_loadingSince None c)
  end.

Definition checkNotBehind (nowMs : num) (c : Client) : Client :=
  match clock (opened c), world (opened c) with
  | Some k, Some w =>
      if (bool_decide (session_state c = live) || bool_decide (session_state c = stalled)) && isBehind (w_depicted w) k then resync nowMs c else c
  | _, _ => c
  end.

Definition stall (c : Client) : Client :=
  if bool_decide (session_state c = stalled) then c
  else
    let c := move_to stalled c in
    match clock (opened c) with Some k => set_clock (Some (bumpEpoch k)) c | None => c end.

Definition checkLiveness (c : Client) : Client :=
  match clock (opened c) with
  | None => c
  | Some k =>
      let was := session_state c in
      if bool_decide (was = live) || bool_decide (was = stalled) then
        let drought := match lastEnvelopeAt (times c) with Some since => elapsed c since STALL_SECONDS | None => false end in
        let ackFrozen := bool_decide (0 < length (ActionStates.entries (ring (ctl c))))%nat
                         && elapsed c (ackSeqStillAt (times c)) (fdiv ACK_STALL_TICKS (simRate k)) in
        if drought || ackFrozen then stall c
        else if bool_decide (was = stalled) then resumeInput (move_to live c)
        else c
      else c
  end.

Definition maybeSync (nowMs : num) (c : Client) : Client :=
  if bool_decide (session_state c = live) && negb (flt (fsub (now (times c)) (lastSyncAt (times c))) SYNC_INTERVAL_SECONDS) then
    uplink (UpSync nowMs) (set_lastSyncSentMs (Some nowMs) (set_lastSyncAt (now (times c)) c))
  else c.

(** Ticks, and what is flushed on the newest of them. *)
Definition advance_clock (c : Client) : Client :=
  match clock (opened c) with
  | Some k =>
      if bool_decide (session_state c = failed) then c
      else
        let '(ticks, k, _) := clock_advance fuel (now (times c)) k in
        flushRequests (flushInteractions (flushInput (last ticks) false (set_clock (Some k) c)))
  | None => c
  end.

Definition displayUpdate (c : Client) : Client :=
  let previous := lastFrameAt (times c) in
  let c := set_lastFrameAt (Some (now (times c))) c in
  match world (opened c) with
  | Some w =>
      if bool_decide (session_state c = failed) then c
      else
        let dt := match previous with None => f0 | Some p => clamp (fsub (now (times c)) p) f0 MAX_FRAME_DT end in
        set_world (Some (w_display w dt)) c
  | None => c
  end.

Definition frame (nowSeconds nowMs : num) (c : Client) : Client :=
  if torn (link c) then c
  else
    let c := set_now nowSeconds c in
    let c := drainInbox nowMs c in
    let c := advance_clock c in
    let c := predict_frame c in
    let c := checkJoinDeadline c in
    let c := checkBundleDeadline c in
    let c := checkNotBehind nowMs c in
    let c := checkLiveness c in
    let c := maybeSync nowMs c in
    displayUpdate c.

Definition destroy (c : Client) : Client :=
  if torn (link c) then c else set_world None (shutdown (set_torn true c)).

(** ** A session's history *)

(** What happens to a client. The frame source, the transport and the device call it only
    while they are attached to it. *)
Inductive client_event :=
  | EvFrame (nowSeconds nowMs : num)
  | EvMessage (kind : server_kind) (m : json)
  | EvClose
  | EvRaw (e : RawInputEvent) (v : ViewportExtent)
  | EvLoaded (res : option jstr)
  | EvPress (widget : jstr) (screen : option jstr)
  | EvPointer (kind : PointerKind) (local : EntityId)
  | EvRequest (r : GameRequest)
  | EvListen (x : nat) (** [lifecycle.onChange] *)
  | EvDestroy.

Definition happen (c : Client) (e : client_event) : Client :=
  match e with
  | EvFrame s ms => if looping (link c) then frame s ms c else c
  | EvMessage k m => if attached (link c) then receive (k, m) c else c
  | EvClose => if attached (link c) then onClose c else c
  | EvRaw e v => if attached (link c) then onRaw e v c else c
  | EvLoaded res => loaded res c
  | EvPress w s => pressWidget w s c
  | EvPointer k l => pointer k l c
  | EvRequest r => queueRequest r c
  | EvListen x => set_lc (lc_op react depth (OnChange x) (lc (link c))) c
  | EvDestroy => destroy c
  end.

Definition new_client (bs : list Binding) : Client :=
  MkClient (MkLink new_lifecycle [] no_chunks false false false [] false projectBundle None None)
    (MkControls (new_table bs) new_ring createActionStates 0 [] [] [] false)
    (MkTimes f0 f0 None f0 None None None f0 f0)
    (MkOpened None None None false (of_Z (-1))).

Definition client_run (bs : list Binding) (nowMs : num) (es : list client_event) : Client :=
  foldl happen (start nowMs (new_client bs)) es.

(** ** What every step keeps of what was sent *)

Definition inputs (c : Client) : list InputFrame :=
  sent (link c) ≫= fun u => match u with UpInput f => [f] | _ => [] end.

(** A batch the server accepts: not empty, one entry per action and phase. *)
Definition frame_ok (f : InputFrame) : Prop := actions f <> [] /\ NoDup (edge_key <$> actions f).

Record up_inv (c : Client) : Prop := {
  ui_seqs : seq <$> inputs c = seqZ 0 (Z.of_nat (length (inputs c)));
  ui_next : closed (link c) = false -> next_seq (ctl c) = Z.of_nat (length (inputs c));
  ui_ok : Forall frame_ok (inputs c);
  ui_ring : closed (link c) = false -> frames (ring (ctl c)) `suffix_of` inputs c;
}.

(** What the invariant reads. *)
Definition tracked (c : Client) := (closed (link c), sent (link c), next_seq (ctl c), ring (ctl c), torn (link c)).

(** Listeners that leave the lifecycle alone. *)
Definition quiet : Prop := forall x s, react x s = Returns \/ react x s = Throws.

(** A session that failed or was destroyed has closed its transport. *)
Definition end_closed (c : Client) : Prop := session_state c = failed \/ torn (link c) = true -> closed (link c) = true.

Record kept (c c' : Client) : Prop := {
  kp_closed : closed (link c) = true -> closed (link c') = true /\ sent (link c') = sent (link c);
  kp_inv : up_inv c -> up_inv c';
  kp_end : quiet -> end_closed c -> end_closed c';
}.

Lemma kept_refl c : kept c c.
Proof. by split. Qed.

Lemma kept_trans c1 c2 c3 : kept c1 c2 -> kept c2 c3 -> kept c1 c3.
Proof. intros [H1 H2 H3] [J1 J2 J3]. split; [|auto|auto]. intros Hc. destruct (H1 Hc) as [H4 H5], (J1 H4) as [H6 H7]. split; congruence. Qed.

Lemma kept_tracked c c' : tracked c' = tracked c -> (quiet -> session_state c' = failed -> session_state c = failed) -> kept c c'.
Proof.
  unfold tracked. intros [= H1 H2 H3 H4 H5] Hs. split; [by rewrite H1, H2| |].
  - intros [J1 J2 J3 J4]. unfold inputs in *. split; unfold inputs; rewrite ?H1, ?H2, ?H3, ?H4; done.
  - unfold end_closed. intros Hq He. rewrite H1, H5. intros [Hf|Ht]; apply He; [left; by apply Hs|by right].
Qed.

Lemma quiet_perform op x s l : quiet -> perform op (react x s) l = l.
Proof. intros Hq. by destruct (Hq x s) as [-> | ->]. Qed.

Lemma quiet_to s l : s <> failed -> quiet -> state (to react depth s l) = failed -> state l = failed.
Proof.
  intros Hs Hq. unfold to.
  assert (Hf : forall call xs l0 n, (forall x l, call x l = l) -> state (foldl (call_listener call n s) l0 xs) = state l0).
  { intros call xs. induction xs as [|x xs IH]; intros l0 n Hc; [done|]. cbn [foldl]. rewrite IH by done. unfold call_listener. by rewrite Hc. }
  destruct depth as [|d]; cbn [lc_op]; unfold lc_body; destruct (isTerminal (state l)) eqn:E; try done; unfold move; case_decide; try done;
    rewrite Hf; try done. intros x l0. by apply quiet_perform.
Qed.

Ltac same :=
  apply kept_tracked; [done|intros ?Hq; first [done | apply quiet_to; [done|done]]].

(** A ring that lost frames from the front, or was emptied. *)
Lemma kept_ring c r : frames r `suffix_of` frames (ring (ctl c)) -> kept c (set_ring r c).
Proof.
  intros Hr. split; [done| |done]. intros [J1 J2 J3 J4]. split; unfold inputs in *; cbn in *; try done. intros Hc. etrans; [exact Hr|by apply J4].
Qed.

Lemma kept_shutdown c : kept c (shutdown c).
Proof. split; [done| |done]. intros [J1 J2 J3 J4]. split; unfold inputs in *; cbn in *; done. Qed.

Lemma kept_fail r c : kept c (fail r c).
Proof. destruct (kept_shutdown c) as [H1 H2 _]. split; [exact H1| |done]. intros Hc. destruct (H2 Hc) as [J1 J2 J3 J4]. by split. Qed.

Lemma inputs_snoc c u : inputs (set_sent (sent (link c) ++ [u]) c) = inputs c ++ match u with UpInput f => [f] | _ => [] end.
Proof. unfold inputs. cbn. rewrite bind_app. f_equal. destruct u; simpl; by rewrite ?app_nil_r. Qed.

(** Any send but an input frame's. *)
Lemma kept_uplink u c : (forall f, u <> UpInput f) -> kept c (uplink u c).
Proof.
  intros Hu. unfold uplink. destruct (refuses u); [apply kept_fail|]. destruct (closed (link c)) eqn:Hc; [apply kept_refl|].
  pose proof (inputs_snoc c u) as Hi. split; [congruence| |done]. destruct u; try by exfalso; eapply Hu.
  all: rewrite app_nil_r in Hi; intros [J1 J2 J3 J4]; split; rewrite ?Hi; done.
Qed.

(** ** Input frames *)

Lemma mset_edges (m : jsmap jstr InputEdge) e :
  edge_key <$> mvals m = mkeys m -> edge_key <$> mvals (mset m (edge_key e) e) = mkeys (mset m (edge_key e) e).
Proof.
  unfold mvals, mkeys. induction m as [|[k f] m IH]; [done|]. csimpl. intros [= H1 H2].
  destruct (decide (k = edge_key e)) as [->|Hk]; csimpl; [by rewrite H2|]. rewrite H1. f_equal. by apply IH.
Qed.

Lemma coalesce_ok es : es <> [] -> coalesce es <> [] /\ NoDup (edge_key <$> coalesce es).
Proof.
  intros Hes. unfold coalesce.
  assert (Hm : let m := foldl (fun m e => mset m (edge_key e) e) ([] : jsmap jstr InputEdge) es in
    edge_key <$> mvals m = mkeys m /\ NoDup (mkeys m) /\ (es <> [] -> m <> [])).
  { clear Hes. induction es as [|e es (H1 & H2 & _)] using rev_ind; [split_and!; [done|constructor|done]|]. cbv zeta. rewrite foldl_app. cbn [foldl].
    split_and!; [by apply mset_edges|by apply NoDup_mset|]. intros _. destruct (foldl _ _ es) as [|[k f] m]; simpl; [done|]. by case_decide. }
  destruct Hm as (H1 & H2 & H3). split; [|by rewrite H1]. specialize (H3 Hes). destruct (foldl _ _ es); [done|]. by intros [=].
Qed.

Lemma frames_push r f lead ep L : frames r `suffix_of` L -> frames (push r f lead ep) `suffix_of` L ++ [f].
Proof.
  intros [k Hk]. unfold push, frames in *. destruct (decide _) as [Hd|Hd].
  - destruct (ActionStates.entries r) as [|e es] eqn:E; [simpl in Hd; unfold RING_TICKS in Hd; lia|]. cbn. rewrite fmap_app.
    exists (k ++ [ActionStates.frame e]). rewrite Hk. csimpl. by rewrite <- !app_assoc.
  - cbn. rewrite fmap_app. exists k. by rewrite Hk, <- app_assoc.
Qed.

Lemma frames_ack r s : frames (ack r s).1 `suffix_of` frames r.
Proof.
  unfold ack. assert (Hk : forall todo earliest r, ActionStates.entries r = todo -> frames (ack_loop r todo s earliest).1 `suffix_of` frames r).
  { induction todo as [|e todo IH]; intros earliest r0 Hr; [done|]. cbn [ack_loop]. destruct (s <? _); [done|].
    etrans; [by apply IH|]. unfold frames, fold_entry, set_entries. cbn. rewrite Hr. by exists [ActionStates.frame e]. }
  by apply Hk.
Qed.

Lemma kept_input t exempt c : kept c (flushInput t exempt c).
Proof.
  unfold flushInput. destruct (clock (opened c)) as [k|]; [|apply kept_refl]. destruct (_ && _); [same|].
  destruct t as [t|]; [|apply kept_refl]. cbv zeta. cbn [pending acts ctl set_acts]. destruct (pending (ctl c)) as [|e es] eqn:Ep; [same|].
  set (f := MkFrame _ _ _). set (c1 := set_ring _ _).
  assert (Hin : inputs c1 = inputs c) by done.
  assert (Hf : frame_ok f) by (apply coalesce_ok; done).
  unfold uplink. destruct (refuses (UpInput f)) as [e0|].
  { split; [done| |done]. intros [J1 J2 J3 J4]. split; unfold inputs in *; cbn in *; done. }
  change (closed (link c1)) with (closed (link c)). destruct (closed (link c)) eqn:Hc.
  { split; [done| |done]. intros [J1 J2 J3 J4]. split; unfold inputs in *; cbn in *; congruence. }
  pose proof (inputs_snoc c1 (UpInput f)) as Hs. rewrite Hin in Hs. split; [congruence| |done]. intros [J1 J2 J3 J4].
  specialize (J2 Hc). specialize (J4 Hc).
  split; rewrite ?Hs, ?length_app, ?fmap_app; cbn [length].
  - rewrite J1, Nat2Z.inj_add, seqZ_app by lia. f_equal. cbn. rewrite seqZ_cons, seqZ_nil by lia. f_equal. by rewrite J2.
  - intros _. cbn. rewrite J2. lia.
  - apply Forall_app. split; [done|]. by apply Forall_singleton.
  - intros _. cbn. by apply frames_push.
Qed.

(** ** Every operation *)

Lemma kept_after f c c' : (forall c, kept c (f c)) -> kept c c' -> kept c (f c').
Proof. intros Hf Hc. by eapply kept_trans; [|apply Hf]. Qed.


Lemma kept_join ms c : kept c (sendJoin ms c).
Proof. unfold sendJoin. apply kept_after; [intros ?; by apply kept_uplink|same]. Qed.

Lemma kept_interactions c : kept c (flushInteractions c).
Proof.
  unfold flushInteractions. destruct (clock (opened c)); [|apply kept_refl]. destruct (owed (ctl c)); [apply kept_refl|]. cbv zeta.
  destruct (accepts _); [apply (kept_after (uplink _)); [intros ?; by apply kept_uplink|same]|same].
Qed.

Lemma kept_requests c : kept c (flushRequests c).
Proof.
  unfold flushRequests. destruct (clock (opened c)); [|apply kept_refl]. destruct (asked (ctl c)); [apply kept_refl|].
  destruct (accepts c); [apply (kept_after (uplink _)); [intros ?; by apply kept_uplink|same]|same].
Qed.

Lemma kept_raw e v c : kept c (onRaw e v c).
Proof.
  unfold onRaw. destruct (resolve _ _ _) as [t edges]. cbv zeta. destruct edges as [|e0 edges]; [same|].
  destruct e; try (destruct (accepts _); same). apply (kept_after (flushInput _ _)); [intros ?; apply kept_input|same].
Qed.

Lemma kept_resume c : kept c (resumeInput c).
Proof. unfold resumeInput. cbv zeta. case_match; same. Qed.

Lemma kept_open w c : kept c (openSession w c).1.
Proof.
  unfold openSession. cbv zeta. destruct (w_open w) as [m|e]; [|same]. destruct (w_snapshot m w) as [m' [e|]]; [same|].
  cbn [fst]. apply (kept_after resumeInput); [apply kept_resume|]. destruct predict; same.
Qed.

Lemma kept_welcome ms w c : kept c (onWelcome ms w c).1.
Proof.
  unfold onWelcome. destruct (welcome (opened c)), (loadingSince (link c)); try apply kept_refl.
  destruct (foldInto _ _) as [ch [[[] w']|e]]; [|apply (kept_after (failPeer _)); [intros ?; apply kept_fail|same]|same].
  cbv zeta. destruct (negb _); [apply (kept_after (fail _)); [intros ?; apply kept_fail|same]|]. destruct (_ || _).
  - apply (kept_after (fun c => (openSession w' c).1)); [intros ?; apply kept_open|same].
  - destruct hasSource; [same|]. apply (kept_after (fail _)); [intros ?; apply kept_fail|same].
Qed.

Lemma kept_loaded res c : kept c (loaded res c).
Proof.
  unfold loaded. destruct (fetching (link c)) as [w|]; [|apply kept_refl]. cbv zeta. destruct (negb _); [same|].
  destruct res as [m|]; [apply (kept_after (fail _)); [intros ?; apply kept_fail|same]|].
  set (c1 := set_loadingSince None _). pose proof (kept_open w c1) as Ho. assert (kept c c1) by same.
  destruct (openSession w c1) as [c2 [e|]]; cbn [fst] in Ho; [|by eapply kept_trans].
  apply (kept_after (failPeer _)); [intros ?; apply kept_fail|by eapply kept_trans].
Qed.

Lemma kept_ack k m c : kept c (onAck k m c).
Proof.
  unfold onAck. cbv zeta. destruct (flt _ _); [|apply kept_refl].
  set (c1 := set_ackSeqStillAt _ _). pose proof (frames_ack (ring (ctl c1)) (default 0 (floorZ (as_num (jget m "ackSeq"))))) as Hr.
  destruct (ack (ring (ctl c1)) _) as [r earliest]. assert (Hk : kept c (set_ring r c1)).
  { eapply kept_trans; [|by apply kept_ring]. same. }
  destruct earliest; [|done]. destruct (jget m "earliestHeadroom") as [[]|]; try done. destruct (_ =? _); [|done].
  eapply kept_trans; [exact Hk|same].
Qed.

Lemma kept_state m c : kept c (onState m c).1.
Proof.
  unfold onState. destruct (world (opened c)) as [w|]; [|apply kept_refl]. destruct (clock (opened c)) as [k|]; [|apply kept_refl].
  destruct (w_state w m) as [w' [e|]]; cbv zeta; [same|]. apply (kept_after (onAck k m)); [intros ?; apply kept_ack|same].
Qed.

Lemma kept_sync_reply ms m c : kept c (onTimeSyncReply ms m c).
Proof. unfold onTimeSyncReply. destruct (lastSyncSentMs _); [|apply kept_refl]. destruct (feq _ _); [same|apply kept_refl]. Qed.

Lemma kept_resync ms c : kept c (resync ms c).
Proof.
  unfold resync. apply (kept_after (sendJoin ms)); [apply kept_join|]. apply (kept_after forgetSession); [intros ?; same|].
  apply (kept_after resetRing); [intros ?; apply kept_ring, suffix_nil|same].
Qed.

Lemma kept_dispatch ms e c : kept c (dispatch ms e c).1.
Proof.
  unfold dispatch. destruct e as [[] m]; cbn [fst].
  - apply kept_welcome.
  - same.
  - apply kept_fail.
  - apply kept_state.
  - destruct (world (opened c)) as [w|]; [|apply kept_refl]. destruct (w_transforms w m). same.
  - destruct (world (opened c)); [same|apply kept_refl].
  - apply kept_sync_reply.
  - unfold onRateChange. destruct (welcome _); [apply kept_resync|apply kept_refl].
Qed.

Lemma kept_batch ms batch : forall c, kept c (drain_batch ms batch c).
Proof.
  induction batch as [|e rest IH]; intros c; [apply kept_refl|]. cbn [drain_batch]. destruct (bool_decide _); [apply kept_refl|].
  pose proof (kept_dispatch ms e c) as Hd. destruct (dispatch ms e c) as [c1 [message|]]; cbn [fst] in Hd.
  - eapply kept_trans; [exact Hd|apply kept_fail].
  - eapply kept_trans; [exact Hd|]. destruct (bool_decide _); [same|apply IH].
Qed.

Lemma kept_drain ms c : kept c (drainInbox ms c).
Proof.
  unfold drainInbox. destruct (bool_decide _); [apply kept_refl|]. destruct (inbox (link c)) as [|e l]; [apply kept_refl|]. cbv zeta.
  apply (kept_after (drain_batch ms _)); [intros ?; apply kept_batch|]. destruct (world _); [destruct (_ && _); same|same].
Qed.

Lemma kept_advance c : kept c (advance_clock c).
Proof.
  unfold advance_clock. destruct (clock (opened c)) as [k|]; [|apply kept_refl]. destruct (bool_decide _); [apply kept_refl|].
  destruct (clock_advance _ _ _) as [[ticks k'] b]. apply (kept_after flushRequests); [apply kept_requests|].
  apply (kept_after flushInteractions); [apply kept_interactions|]. apply (kept_after (flushInput _ _)); [intros ?; apply kept_input|same].
Qed.

Lemma kept_deadlines c : kept c (checkBundleDeadline (checkJoinDeadline c)).
Proof.
  apply (kept_after checkBundleDeadline).
  - intros c0. unfold checkBundleDeadline. destruct (loadingSince _); [|apply kept_refl]. destruct (flt _ _); [apply kept_refl|].
    apply (kept_after (fail _)); [intros c1; apply kept_fail|same].
  - unfold checkJoinDeadline. destruct (_ || _); [|apply kept_refl]. destruct (joinSentAt _); [|same]. destruct (flt _ _); [apply kept_refl|apply kept_fail].
Qed.

Lemma kept_liveness c : kept c (checkLiveness c).
Proof.
  assert (Hst : forall c, kept c (stall c)).
  { intros c0. unfold stall. destruct (bool_decide _); [apply kept_refl|]. cbv zeta. destruct (clock _); same. }
  unfold checkLiveness. destruct (clock (opened c)); [|apply kept_refl]. cbv zeta. destruct (_ || _); [|apply kept_refl].
  destruct (_ || _); [apply Hst|]. destruct (bool_decide _); [|apply kept_refl]. apply (kept_after resumeInput); [apply kept_resume|same].
Qed.

Lemma kept_frame s ms c : kept c (frame s ms c).
Proof.
  unfold frame. destruct (torn (link c)); [apply kept_refl|]. cbv zeta.
  apply (kept_after displayUpdate).
  { intros c0. unfold displayUpdate. cbv zeta. destruct (world _); [destruct (bool_decide _); same|same]. }
  apply (kept_after (maybeSync ms)).
  { intros c0. unfold maybeSync. destruct (_ && _); [|apply kept_refl]. apply (kept_after (uplink _)); [intros c1; by apply kept_uplink|same]. }
  apply (kept_after checkLiveness); [apply kept_liveness|].
  apply (kept_after (checkNotBehind ms)).
  { intros c0. unfold checkNotBehind. destruct (clock _); [|apply kept_refl]. destruct (world _); [|apply kept_refl].
    destruct (_ && _); [apply kept_resync|apply kept_refl]. }
  match goal with |- kept c (checkBundleDeadline (checkJoinDeadline ?c0)) => apply (kept_trans _ c0); [|apply kept_deadlines] end.
  apply (kept_after predict_frame).
  { intros c0. unfold predict_frame. cbv zeta. destruct (world _); [|same]. destruct (clock _); [|same]. destruct (_ && _); same. }
  apply (kept_after advance_clock); [apply kept_advance|]. apply (kept_after (drainInbox ms)); [intros ?; apply kept_drain|same].
Qed.

Lemma kept_happen e c : kept c (happen c e).
Proof.
  destruct e; unfold happen.
  - destruct (looping _); [apply kept_frame|apply kept_refl].
  - destruct (attached _); [|apply kept_refl]. unfold receive. destruct (isTerminal _); [apply kept_refl|same].
  - destruct (attached _); [|apply kept_refl]. unfold onClose. destruct (find _ _) as [[k m]|]; [apply kept_fail|same].
  - destruct (attached _); [apply kept_raw|apply kept_refl].
  - apply kept_loaded.
  - unfold pressWidget. destruct (accepts c); [same|apply kept_refl].
  - unfold pointer. destruct (accepts c); [|apply kept_refl]. destruct (_ ≫= _); [same|apply kept_refl].
  - unfold queueRequest. destruct (accepts c); [same|apply kept_refl].
  - apply kept_tracked; [done|]. intros _ Hs. unfold session_state in *. cbn in Hs. by destruct depth.
  - unfold destroy. destruct (torn _); [apply kept_refl|]. destruct (kept_shutdown c) as [H1 H2 _]. split; [exact H1| |done]. intros Hc. destruct (H2 Hc) as [J1 J2 J3 J4]. by split.
Qed.

Lemma kept_events es : forall c, kept c (foldl happen c es).
Proof. induction es as [|e es IH]; intros c; [apply kept_refl|]. eapply kept_trans; [apply kept_happen|apply IH]. Qed.

Lemma kept_start bs ms : kept (new_client bs) (start ms (new_client bs)).
Proof. unfold start. apply (kept_trans _ (sendJoin ms (set_attached true (new_client bs)))); [|same]. apply kept_after; [apply kept_join|same]. Qed.

Lemma run_up_inv bs ms es : up_inv (client_run bs ms es).
Proof.
  unfold client_run. apply (kp_inv _ _ (kept_events es (start ms (new_client bs)))), (kp_inv _ _ (kept_start bs ms)). by split.
Qed.

(** ** A join nobody answers *)

(** Joining, with nothing heard and the deadline counted from [since]. *)
Record waiting (since : num) (c : Client) : Prop := {
  wt_state : session_state c = connecting; wt_reason : failure (lc (link c)) = None;
  wt_inbox : inbox (link c) = []; wt_loading : loadingSince (link c) = None; wt_looping : looping (link c) = true;
  wt_torn : torn (link c) = false; wt_world : world (opened c) = None; wt_clock : clock (opened c) = None;
  wt_since : joinSentAt (times c) = Some since;
}.

(** Failed for that. *)
Record unanswered (c : Client) : Prop := {
  ua_state : session_state c = failed; ua_reason : failure (lc (link c)) = Some (peer no_answer); ua_looping : looping (link c) = false;
  ua_clock : clock (opened c) = None;
}.

(** What happens without the server or the host's teardown. *)
Definition unheard (e : client_event) : bool :=
  match e with EvMessage _ _ | EvClose | EvLoaded _ | EvDestroy => false | _ => true end.

Lemma raw_unheard e v c : clock (opened c) = None ->
  link (onRaw e v c) = link c /\ times (onRaw e v c) = times c /\ opened (onRaw e v c) = opened c.
Proof using.
  intros Hk. unfold onRaw. destruct (resolve _ _ _) as [t edges]. cbv zeta. destruct edges as [|e0 edges]; [done|].
  destruct e; try by destruct (accepts _). unfold flushInput. cbn. by rewrite Hk.
Qed.

Lemma unanswered_happen c e : unheard e = true -> unanswered c -> unanswered (happen c e).
Proof using.
  intros He [H1 H2 H3 H4]. assert (Ha : accepts c = false) by (unfold accepts, lc_accepts; unfold session_state in H1; by rewrite H1).
  destruct e; try done; cbn [happen].
  - by rewrite H3.
  - destruct (attached _); [|done]. destruct (raw_unheard e v c H4) as (E1 & E2 & E3). split; unfold session_state in *; congruence.
  - unfold pressWidget. by rewrite Ha.
  - unfold pointer. by rewrite Ha.
  - unfold queueRequest. by rewrite Ha.
  - split; [unfold session_state in *; cbn; by destruct depth|cbn; by destruct depth|done|done].
Qed.

(** A frame while waiting: the deadline alone. *)
Lemma waiting_frame since c s ms : waiting since c ->
  if flt (fsub s since) JOIN_DEADLINE_SECONDS then waiting since (frame s ms c) else unanswered (frame s ms c).
Proof using.
  intros [H1 H2 H3 H4 H5 H6 H7 H8 H9]. unfold frame. rewrite H6. cbv zeta.
  set (c1 := set_now s c). assert (E : drainInbox ms c1 = c1) by (unfold drainInbox; cbn; by rewrite H4, H3). rewrite E.
  assert (E2 : advance_clock c1 = c1) by (unfold advance_clock; cbn; by rewrite H8). rewrite E2.
  assert (E3 : predict_frame c1 = set_resimulate false c1) by (unfold predict_frame; cbn; by rewrite H7). rewrite E3.
  set (c2 := set_resimulate false c1). assert (E4 : checkJoinDeadline c2 = if flt (fsub s since) JOIN_DEADLINE_SECONDS then c2 else fail (peer no_answer) c2).
  { unfold checkJoinDeadline. change (session_state c2) with (session_state c). rewrite H1. cbn. by rewrite H9. }
  rewrite E4. destruct (flt _ _).
  - assert (E5 : checkBundleDeadline c2 = c2) by (unfold checkBundleDeadline; cbn; by rewrite H4). rewrite E5.
    assert (E6 : checkNotBehind ms c2 = c2) by (unfold checkNotBehind; cbn; by rewrite H8). rewrite E6.
    assert (E7 : checkLiveness c2 = c2) by (unfold checkLiveness; cbn; by rewrite H8). rewrite E7.
    assert (E8 : maybeSync ms c2 = c2) by (unfold maybeSync; change (session_state c2) with (session_state c); by rewrite H1). rewrite E8.
    assert (E9 : displayUpdate c2 = set_lastFrameAt (Some (now (times c2))) c2) by (unfold displayUpdate; cbn; by rewrite H7). rewrite E9.
    by split.
  - destruct (fail_with_ends react depth (peer no_answer) (lc (link c2))) as [F1 F2].
    { change (lc (link c2)) with (lc (link c)). unfold session_state in H1. by rewrite H1. }
    change (failure (lc (link c2))) with (failure (lc (link c))) in F2. rewrite H2 in F2.
    set (c3 := fail (peer no_answer) c2). assert (Hs : session_state c3 = failed) by exact F1.
    assert (E5 : checkBundleDeadline c3 = c3) by (unfold checkBundleDeadline; cbn; by rewrite H4). rewrite E5.
    assert (E6 : checkNotBehind ms c3 = c3) by (unfold checkNotBehind; cbn; by rewrite H8). rewrite E6.
    assert (E7 : checkLiveness c3 = c3) by (unfold checkLiveness; cbn; by rewrite H8). rewrite E7.
    assert (E8 : maybeSync ms c3 = c3) by (unfold maybeSync; by rewrite Hs). rewrite E8.
    assert (E9 : displayUpdate c3 = set_lastFrameAt (Some (now (times c3))) c3) by (unfold displayUpdate; cbn; by rewrite H7). rewrite E9.
    by split.
Qed.

Lemma waiting_happen since c e : unheard e = true -> waiting since c -> waiting since (happen c e) \/ unanswered (happen c e).
Proof using.
  intros He Hw. pose proof Hw as [H1 H2 H3 H4 H5 H6 H7 H8 H9].
  assert (Ha : accepts c = false) by (unfold accepts, lc_accepts; unfold session_state in H1; by rewrite H1).
  destruct e; try done; cbn [happen].
  - rewrite H5. pose proof (waiting_frame since c nowSeconds nowMs Hw) as Hf. destruct (flt _ _); auto.
  - left. destruct (attached _); [|done]. destruct (raw_unheard e v c H8) as (E1 & E2 & E3). split; unfold session_state in *; congruence.
  - left. unfold pressWidget. by rewrite Ha.
  - left. unfold pointer. by rewrite Ha.
  - left. unfold queueRequest. by rewrite Ha.
  - left. split; try done; [unfold session_state in *; cbn|cbn]; by destruct depth.
Qed.

Lemma waiting_run since es : forall c, forallb unheard es = true -> waiting since c \/ unanswered c ->
  waiting since (foldl happen c es) \/ unanswered (foldl happen c es).
Proof using.
  induction es as [|e es IH]; intros c He Hc; [done|]. cbn [forallb] in He. apply andb_true_iff in He as [He Hes]. cbn [foldl].
  apply IH; [done|]. destruct Hc as [Hc|Hc]; [by apply waiting_happen|]. right. by apply unanswered_happen.
Qed.

(** ** Properties *)

(** C10. The input a client sends is a numbered history. Over any session, joins, stalls,
    resyncs and a destroyed client included: the frames sent are numbered 0, 1, 2 and so on
    without a gap; each carries at least one edge and one entry per action and phase; and
    while the transport is open the ring retains exactly the newest of them. *)
Theorem sent_input_is_numbered (bs : list Binding) (ms : num) (es : list client_event) :
  let c := client_run bs ms es in
  seq <$> inputs c = seqZ 0 (Z.of_nat (length (inputs c)))
  /\ Forall (fun f => actions f <> [] /\ NoDup (edge_key <$> actions f)) (inputs c)
  /\ (closed (link c) = false -> frames (ring (ctl c)) `suffix_of` inputs c).
Proof. intros c. destruct (run_up_inv bs ms es) as [H1 _ H3 H4]. by split_and!. Qed.

(** C16. A session that is over says nothing more. With listeners that leave the lifecycle
    alone: once a client has failed or been destroyed its transport is closed and nothing
    that happens to it after, a bundle arriving late, a frame, a key, a press, sends
    anything. *)
Theorem over_is_silent (bs : list Binding) (ms : num) (es more : list client_event) :
  quiet ->
  let c := client_run bs ms es in
  session_state c = failed \/ torn (link c) = true ->
  closed (link c) = true /\ sent (link (foldl happen c more)) = sent (link c).
Proof.
  intros Hq c Hend.
  assert (Hc : closed (link c) = true).
  { apply (kp_end _ _ (kept_events es (start ms (new_client bs)))); [done| |exact Hend]. apply (kp_end _ _ (kept_start bs ms)); [done|]. by intros []. }
  split; [exact Hc|]. by destruct (kp_closed _ _ (kept_events more c) Hc).
Qed.
(** C18. A join nobody answers ends. On a transport that carries the join: once two frames
    ten seconds apart have run with nothing from the server, whatever keys, presses and
    requests came between, the session has failed, for that reason, and its transport is
    closed. *)
Theorem unanswered_join_fails (bs : list Binding) (ms s1 m1 s2 m2 : num) (between : list client_event) :
  refuses (UpJoin ms projectBundle) = None ->
  forallb unheard between = true ->
  flt (fsub s2 s1) JOIN_DEADLINE_SECONDS = false ->
  let c := client_run bs ms (EvFrame s1 m1 :: between ++ [EvFrame s2 m2]) in
  session_state c = failed /\ failure (lc (link c)) = Some (peer no_answer).
Proof using.
  intros Hj Hb Ht. unfold client_run. cbn [foldl]. rewrite foldl_app.
  assert (Hw : waiting s1 (happen (start ms (new_client bs)) (EvFrame s1 m1))).
  { unfold start, sendJoin, uplink. cbn [bundleHash link set_joinSentAt set_joinSentMs set_attached new_client]. rewrite Hj. by split. }
  destruct (waiting_run s1 between _ Hb (or_introl Hw)) as [H1|H1]; revert H1; generalize (foldl happen (happen (start ms (new_client bs)) (EvFrame s1 m1)) between); intros c1 H1.
  - cbn [foldl happen]. rewrite (wt_looping _ _ H1). pose proof (waiting_frame s1 c1 s2 m2 H1) as H2. rewrite Ht in H2. by destruct H2.
  - cbn [foldl happen]. rewrite (ua_looping _ H1). by destruct H1.
Qed.
End Client.

(** ** Sessions run *)

(** A world that accepts whatever it is sent. *)
#[export] Instance still_world : ClientWorld unit := {
  w_open _ := Ok tt; w_snapshot _ _ := (tt, None); w_state _ _ := (tt, None); w_transforms _ _ := (tt, None);
  w_manifest _ _ := tt; w_depicted _ := f0; w_rewind _ := tt; w_predict _ _ _ _ := tt; w_display _ _ := tt;
  w_net _ _ := None;
}.

Definition jobj (l : list (string * json)) : json := JObj ((fun p => (js p.1, p.2)) <$> l).
Definition jstring (s : string) : json := JStr (js s).
Definition jz (z : Z) : json := JNum (of_Z z).
Definition no_bounds : json :=
  jobj [("left", jz 0); ("right", jz 0); ("top", jz 0); ("bottom", jz 0)]%string.

(** A Welcome at 60 ticks a second, from tick 10, with the code the client already runs. *)
Definition sample_welcome : json :=
  jobj [("kind", jstring "welcome"); ("projectId", jstring "p"); ("projectHash", jstring "h"); ("bundleHash", jstring ""); ("bundleUrl", jstring "");
        ("simRate", jz 60); ("sendRate", jz 20); ("yourPlayerId", jstring "player"); ("bounds", no_bounds); ("regions", JArr []); ("visuals", jobj [("assets", JArr []); ("templates", JArr [])]);
        ("snapshot", jobj [("tick", jz 10); ("entities", JArr []); ("players", JArr []); ("state", JArr [])])]%string.

Definition sample_state (acked : Z) : json :=
  jobj [("kind", jstring "state"); ("tick", jz 12); ("ackSeq", jz acked); ("structural", JArr []); ("state", JArr [])]%string.

Definition sample_session (bs : list Binding) (es : list client_event) : Client (M := unit) :=
  client_run (T := prefixText) (fun _ _ => Returns) 3 100 (fun _ => None) true (js "h") true bs f0 es.

Definition space (is_down : bool) : client_event := EvRaw (Key (js "Space") is_down) DEFAULT_VIEWPORT.

(** A frame at so many sixtieths of a second. *)
Definition at_tick (n : Z) : client_event := EvFrame (fdiv (of_Z n) (of_Z 60)) (of_Z n).

Definition opening : list client_event := [EvMessage KWelcome sample_welcome; at_tick 1; at_tick 3].

(** A destroyed client is fed a key, a frame and a request. *)
Definition destroyed_events : list client_event := opening ++ [space true; at_tick 6; EvDestroy].
Definition events_after : list client_event := [space true; at_tick 9; EvFrame (of_Z 90) f0; EvRequest (MkRequest (js "buy") None)].

Lemma over_is_silent_witness :
  let c := client_run (T := prefixText) (M := unit) (fun _ _ => Returns) 3 100 (fun _ => None) true (js "h") true jump_table f0 destroyed_events in
  length (sent (link c)) = 2%nat
  /\ (closed (link c) = true
      /\ sent (link (foldl (happen (T := prefixText) (fun _ _ => Returns) 3 100 (fun _ => None) true true) c events_after)) = sent (link c)).
Proof.
  assert (Hn : length (sent (link (client_run (T := prefixText) (M := unit) (fun _ _ => Returns) 3 100 (fun _ => None) true (js "h") true jump_table f0 destroyed_events))) = 2%nat)
    by (vm_compute; reflexivity).
  assert (Ht : torn (link (client_run (T := prefixText) (M := unit) (fun _ _ => Returns) 3 100 (fun _ => None) true (js "h") true jump_table f0 destroyed_events)) = true)
    by (vm_compute; reflexivity).
  exact (conj Hn (over_is_silent (T := prefixText) (M := unit) (fun _ _ => Returns) 3 100 (fun _ => None) true (js "h") true jump_table f0
    destroyed_events events_after (fun _ _ => or_introl eq_refl) (or_intror Ht))).
Defined.

Lemma unanswered_join_fails_witness :
  let c := client_run (T := prefixText) (M := unit) (fun _ _ => Returns) 3 100 (fun _ => None) true (js "h") true jump_table f0
    (EvFrame f0 f0 :: [space true; EvFrame (of_Z 4) f0] ++ [EvFrame (of_Z 10) f0]) in
  session_state c = failed /\ failure (lc (link c)) = Some (peer no_answer).
Proof.
  assert (Ht : flt (fsub (of_Z 10) f0) JOIN_DEADLINE_SECONDS = false) by (vm_compute; reflexivity).
  exact (unanswered_join_fails (T := prefixText) (M := unit) (fun _ _ => Returns) 3 100 (fun _ => None) true (js "h") true jump_table f0 f0 f0 (of_Z 10) f0
    [space true; EvFrame (of_Z 4) f0] eq_refl eq_refl Ht).
Defined.

(** ** Edges that go missing *)

(** What the authority holds, folding the frames a client sent. *)
Definition authority_holds (c : Client (M := unit)) : list jstr :=
  ActionStates.held (foldl (fun a f => applyEdges (advanceTick a) (actions f)) createActionStates (inputs c)).

(** A key comes up during a stall. The session is live again, no key is down, and authority
    and client both hold the action: the edge was dropped, and no later one releases it. *)
Lemma release_in_stall_is_lost :
  let c := sample_session jump_table
    (opening ++ [space true; at_tick 6; at_tick 70; space false; EvMessage KState (sample_state 0); at_tick 71; at_tick 73]) in
  session_state c = live /\ down (table (ctl c)) = [] /\ authority_holds c = [js "jump"] /\ ActionStates.held (acts (ctl c)) = [js "jump"].
Proof. vm_compute. by split_and!. Qed.

(** A key goes down, up and down again within one frame. It is down, and the client holds
    its action; the frame sent says press, then release. *)
Lemma coalescing_loses_repress :
  let c := sample_session jump_table (opening ++ [space true; space false; space true; at_tick 6]) in
  down (table (ctl c)) = [js "Space"] /\ ActionStates.held (acts (ctl c)) = [js "jump"] /\ authority_holds c = [].
Proof. vm_compute. by split_and!. Qed.
