(* ===== verification/Scene.v ===== *)
(** * The renderer's transform graph ([packages/renderer/src/transform-store.ts])

    A forest of nodes with local transforms. Position and visibility are inherited, and are
    recomposed only under nodes marked dirty. The store's typed arrays all have one length
    and one slot index, so a slot is a record and the arrays a list of slots; a tree link is
    an index, or [NO_SLOT]. Sibling lists are intrusive, and the roots are an array with
    tombstones. *)

From S2P Require Import Prelude JsMap JsNum Handle TransformStore.

Local Open Scope Z_scope.

Definition NO_SLOT : Z := -1.
Definition WHITE : num := of_Z 16777215.
Definition half : num := fdiv f1 (of_Z 2).

Record Slot := MkSlot {
  s_pos : num * num * num;
  s_rot : num;
  s_scale : num * num * num;
  s_alpha : num;
  s_anchor : num * num;
  s_tint : num;
  s_visible : bool;
  s_neverCull : bool;
  s_culled : bool;
  s_resolved : num * num * num;
  s_resolvedVisible : bool;
  s_parent : Z;
  s_firstChild : Z;
  s_lastChild : Z;
  s_prev : Z;
  s_next : Z;
}.

(** What a typed array holds before anything is written, and what [#reset] writes. *)
Definition raw_slot : Slot :=
  MkSlot (f0, f0, f0) f0 (f0, f0, f0) f0 (f0, f0) f0 false false false (f0, f0, f0) false NO_SLOT NO_SLOT NO_SLOT NO_SLOT NO_SLOT.
Definition default_slot : Slot :=
  MkSlot (f0, f0, f0) f0 (f1, f1, f1) f1 (half, half) WHITE true false false (f0, f0, f0) true NO_SLOT NO_SLOT NO_SLOT NO_SLOT NO_SLOT.

(** Writes to one group of lanes. *)
Definition set_pos v s := MkSlot v (s_rot s) (s_scale s) (s_alpha s) (s_anchor s) (s_tint s) (s_visible s) (s_neverCull s) (s_culled s) (s_resolved s) (s_resolvedVisible s) (s_parent s) (s_firstChild s) (s_lastChild s) (s_prev s) (s_next s).
Definition set_rot v s := MkSlot (s_pos s) v (s_scale s) (s_alpha s) (s_anchor s) (s_tint s) (s_visible s) (s_neverCull s) (s_culled s) (s_resolved s) (s_resolvedVisible s) (s_parent s) (s_firstChild s) (s_lastChild s) (s_prev s) (s_next s).
Definition set_scale v s := MkSlot (s_pos s) (s_rot s) v (s_alpha s) (s_anchor s) (s_tint s) (s_visible s) (s_neverCull s) (s_culled s) (s_resolved s) (s_resolvedVisible s) (s_parent s) (s_firstChild s) (s_lastChild s) (s_prev s) (s_next s).
Definition set_alpha v s := MkSlot (s_pos s) (s_rot s) (s_scale s) v (s_anchor s) (s_tint s) (s_visible s) (s_neverCull s) (s_culled s) (s_resolved s) (s_resolvedVisible s) (s_parent s) (s_firstChild s) (s_lastChild s) (s_prev s) (s_next s).
Definition set_anchor v s := MkSlot (s_pos s) (s_rot s) (s_scale s) (s_alpha s) v (s_tint s) (s_visible s) (s_neverCull s) (s_culled s) (s_resolved s) (s_resolvedVisible s) (s_parent s) (s_firstChild s) (s_lastChild s) (s_prev s) (s_next s).
Definition set_tint v s := MkSlot (s_pos s) (s_rot s) (s_scale s) (s_alpha s) (s_anchor s) v (s_visible s) (s_neverCull s) (s_culled s) (s_resolved s) (s_resolvedVisible s) (s_parent s) (s_firstChild s) (s_lastChild s) (s_prev s) (s_next s).
Definition set_visible v s := MkSlot (s_pos s) (s_rot s) (s_scale s) (s_alpha s) (s_anchor s) (s_tint s) v (s_neverCull s) (s_culled s) (s_resolved s) (s_resolvedVisible s) (s_parent s) (s_firstChild s) (s_lastChild s) (s_prev s) (s_next s).
Definition set_neverCull v s := MkSlot (s_pos s) (s_rot s) (s_scale s) (s_alpha s) (s_anchor s) (s_tint s) (s_visible s) v (s_culled s) (s_resolved s) (s_resolvedVisible s) (s_parent s) (s_firstChild s) (s_lastChild s) (s_prev s) (s_next s).
Definition set_culled v s := MkSlot (s_pos s) (s_rot s) (s_scale s) (s_alpha s) (s_anchor s) (s_tint s) (s_visible s) (s_neverCull s) v (s_resolved s) (s_resolvedVisible s) (s_parent s) (s_firstChild s) (s_lastChild s) (s_prev s) (s_next s).
Definition set_resolved v b s := MkSlot (s_pos s) (s_rot s) (s_scale s) (s_alpha s) (s_anchor s) (s_tint s) (s_visible s) (s_neverCull s) (s_culled s) v b (s_parent s) (s_firstChild s) (s_lastChild s) (s_prev s) (s_next s).
Definition set_parent v s := MkSlot (s_pos s) (s_rot s) (s_scale s) (s_alpha s) (s_anchor s) (s_tint s) (s_visible s) (s_neverCull s) (s_culled s) (s_resolved s) (s_resolvedVisible s) v (s_firstChild s) (s_lastChild s) (s_prev s) (s_next s).
Definition set_firstChild v s := MkSlot (s_pos s) (s_rot s) (s_scale s) (s_alpha s) (s_anchor s) (s_tint s) (s_visible s) (s_neverCull s) (s_culled s) (s_resolved s) (s_resolvedVisible s) (s_parent s) v (s_lastChild s) (s_prev s) (s_next s).
Definition set_lastChild v s := MkSlot (s_pos s) (s_rot s) (s_scale s) (s_alpha s) (s_anchor s) (s_tint s) (s_visible s) (s_neverCull s) (s_culled s) (s_resolved s) (s_resolvedVisible s) (s_parent s) (s_firstChild s) v (s_prev s) (s_next s).
Definition set_prev v s := MkSlot (s_pos s) (s_rot s) (s_scale s) (s_alpha s) (s_anchor s) (s_tint s) (s_visible s) (s_neverCull s) (s_culled s) (s_resolved s) (s_resolvedVisible s) (s_parent s) (s_firstChild s) (s_lastChild s) v (s_next s).
Definition set_next v s := MkSlot (s_pos s) (s_rot s) (s_scale s) (s_alpha s) (s_anchor s) (s_tint s) (s_visible s) (s_neverCull s) (s_culled s) (s_resolved s) (s_resolvedVisible s) (s_parent s) (s_firstChild s) (s_lastChild s) (s_prev s) v.

Record Graph := MkGraph {
  slots : list Slot;
  rootOrder : list Z;
  rootAt : jsmap Z Z;
  rootHoles : Z;
  resolveDirty : jsset Z;
  flushDirty : jsset Z;
  resolvedChanged : jsset Z;
  count : Z;
  visits : Z;
}.

Definition new_graph : Graph := MkGraph (replicate 64 raw_slot) [] [] 0 [] [] [] 0 0.

Definition with_slots l t := MkGraph l (rootOrder t) (rootAt t) (rootHoles t) (resolveDirty t) (flushDirty t) (resolvedChanged t) (count t) (visits t).
Definition with_roots o m h t := MkGraph (slots t) o m h (resolveDirty t) (flushDirty t) (resolvedChanged t) (count t) (visits t).
Definition with_resolveDirty d t := MkGraph (slots t) (rootOrder t) (rootAt t) (rootHoles t) d (flushDirty t) (resolvedChanged t) (count t) (visits t).
Definition with_flushDirty d t := MkGraph (slots t) (rootOrder t) (rootAt t) (rootHoles t) (resolveDirty t) d (resolvedChanged t) (count t) (visits t).
Definition with_resolvedChanged d t := MkGraph (slots t) (rootOrder t) (rootAt t) (rootHoles t) (resolveDirty t) (flushDirty t) d (count t) (visits t).
Definition with_count n t := MkGraph (slots t) (rootOrder t) (rootAt t) (rootHoles t) (resolveDirty t) (flushDirty t) (resolvedChanged t) n (visits t).
Definition with_visits n t := MkGraph (slots t) (rootOrder t) (rootAt t) (rootHoles t) (resolveDirty t) (flushDirty t) (resolvedChanged t) (count t) n.

(** A slot as the arrays read, absent values read as the fallbacks of the code that
    follows links. *)
Definition at_ (t : Graph) (i : Z) : Slot := nullish (arr_get (slots t) i) raw_slot.
(** A write a typed array drops out of its range. *)
Definition upd (i : Z) (f : Slot -> Slot) (t : Graph) : Graph := with_slots (arr_set (slots t) i (f (at_ t i))) t.

Definition has (t : Graph) (i : Z) : bool := (0 <=? i) && (i <? count t).

Definition dirty_flush (i : Z) (t : Graph) : Graph := with_flushDirty (sadd (flushDirty t) i) t.
Definition dirty_resolve (i : Z) (t : Graph) : Graph := with_resolveDirty (sadd (resolveDirty t) i) t.

(** ** Growth *)

Definition ensure (needed : Z) (t : Graph) : Graph :=
  if needed <=? arr_len (slots t) then t
  else
    let capacity := grownCapacity (arr_len (slots t)) needed in
    with_slots (slots t ++ replicate (Z.to_nat (capacity - arr_len (slots t))) raw_slot) t.

Definition reset (i : Z) (t : Graph) : Graph := upd i (fun _ => default_slot) t.

(** ** The root order *)

Definition addRoot (i : Z) (t : Graph) : Graph :=
  if mhas (rootAt t) i then t
  else with_roots (rootOrder t ++ [i]) (mset (rootAt t) i (arr_len (rootOrder t))) (rootHoles t) t.

Definition compact_one (s : jsmap Z Z * list Z) (i : Z) : jsmap Z Z * list Z :=
  if i =? NO_SLOT then s else (mset s.1 i (arr_len s.2), s.2 ++ [i]).

Definition compactRoots (t : Graph) : Graph :=
  let '(m, live) := foldl compact_one (rootAt t, []) (rootOrder t) in with_roots live m 0 t.

Definition removeRoot (i : Z) (t : Graph) : Graph :=
  match mget (rootAt t) i with
  | None => t
  | Some at_ =>
      let t := with_roots (arr_set (rootOrder t) at_ NO_SLOT) (mdel (rootAt t) i) (rootHoles t + 1) t in
      if Z.of_nat (msize (rootAt t)) <? rootHoles t then compactRoots t else t
  end.

(** ** The tree *)

Definition parent (t : Graph) (i : Z) : Z := if has t i then s_parent (at_ t i) else NO_SLOT.

Definition detach (child : Z) (t : Graph) : Graph :=
  let p := s_parent (at_ t child) in
  let prev := s_prev (at_ t child) in
  let next := s_next (at_ t child) in
  let t := if prev =? NO_SLOT then t else upd prev (set_next next) t in
  let t := if next =? NO_SLOT then t else upd next (set_prev prev) t in
  let t := if p =? NO_SLOT then removeRoot child t
           else
             let t := if s_firstChild (at_ t p) =? child then upd p (set_firstChild next) t else t in
             if s_lastChild (at_ t p) =? child then upd p (set_lastChild prev) t else t in
  upd child (fun s => set_parent NO_SLOT (set_next NO_SLOT (set_prev NO_SLOT s))) t.

(** The countdown is the source's own. *)
Fixpoint ancestor_walk (guard : nat) (t : Graph) (ancestor walk : Z) : bool :=
  match guard with
  | O => false
  | S guard => if walk =? NO_SLOT then false else if walk =? ancestor then true else ancestor_walk guard t ancestor (s_parent (at_ t walk))
  end.

Definition isAncestorOf (t : Graph) (ancestor node : Z) : bool :=
  has t ancestor && has t node && ancestor_walk (S (Z.to_nat (count t))) t ancestor node.

Definition link (child p : Z) (t : Graph) : Graph :=
  if negb (has t child) then t
  else if negb (p =? NO_SLOT) && negb (has t p) then t
  else if child =? p then t
  else if negb (p =? NO_SLOT) && isAncestorOf t child p then t
  else
    let t := detach child t in
    let t :=
      if p =? NO_SLOT then addRoot child (upd child (set_parent NO_SLOT) t)
      else
        let t := upd child (set_parent p) t in
        let last := s_lastChild (at_ t p) in
        let t := if last =? NO_SLOT then upd p (set_firstChild child) t
                 else upd child (set_prev last) (upd last (set_next child) t) in
        upd p (set_lastChild child) t in
    dirty_resolve child (dirty_flush child t).

Definition unlink (child : Z) (t : Graph) : Graph :=
  if negb (has t child) then t else if s_parent (at_ t child) =? NO_SLOT then t else link child NO_SLOT t.

(** The walk along a sibling list; a list has no more nodes than the store has slots. *)
Fixpoint siblings (fuel : nat) (t : Graph) (c : Z) : list Z :=
  match fuel with
  | O => []
  | S fuel => if c =? NO_SLOT then [] else c :: siblings fuel t (s_next (at_ t c))
  end.

Definition kids_of (t : Graph) (i : Z) : list Z := siblings (Z.to_nat (count t)) t (s_firstChild (at_ t i)).

Definition children (t : Graph) (i : Z) : list Z := if has t i then kids_of t i else [].

(** The breadth-first walk, [head] the node whose children it appends. *)
Fixpoint subtree_from (fuel : nat) (t : Graph) (head : nat) (out : list Z) : list Z :=
  match fuel with
  | O => out
  | S fuel =>
      match out !! head with
      | None => out
      | Some node => subtree_from fuel t (S head) (out ++ kids_of t node)
      end
  end.

Definition subtree (t : Graph) (i : Z) (includeRoot : bool) : list Z :=
  if negb (has t i) then []
  else subtree_from (S (Z.to_nat (count t))) t 0 (if includeRoot then [i] else kids_of t i).

Definition roots (t : Graph) : list Z :=
  filter (fun i => (i <> NO_SLOT /\ has t i = true) /\ s_parent (at_ t i) = NO_SLOT) (rootOrder t).

Fixpoint after_walk (fuel : nat) (t : Graph) (s b : Z) : bool :=
  match fuel with
  | O => false
  | S fuel => if s =? NO_SLOT then false else if s =? b then true else after_walk fuel t (s_prev (at_ t s)) b
  end.

Definition insertedAfter (t : Graph) (a b : Z) : bool :=
  if s_parent (at_ t a) =? NO_SLOT
  then nullish (mget (rootAt t) b) (-1) <? nullish (mget (rootAt t) a) (-1)
  else after_walk (Z.to_nat (count t)) t (s_prev (at_ t a)) b.

(** ** Slots *)

Definition initSlot (i : Z) (t : Graph) : Graph :=
  if i <? 0 then t
  else
    let t := ensure (i + 1) t in
    let t := if count t <=? i then with_count (i + 1) t else t in
    addRoot i (dirty_resolve i (dirty_flush i (reset i t))).

Definition releaseSlot (i : Z) (t : Graph) : Graph :=
  if negb (has t i) then t
  else
    let t := reset i (detach i t) in
    let t := with_flushDirty (sdel (flushDirty t) i) t in
    let t := with_resolveDirty (sdel (resolveDirty t) i) t in
    let t := with_resolvedChanged (sdel (resolvedChanged t) i) t in
    removeRoot i t.

Definition clear (t : Graph) : Graph :=
  let t := foldl (fun t i => reset i t) t (seqZ 0 (count t)) in
  MkGraph (slots t) [] [] 0 [] [] [] 0 (visits t).

(** [destroyNode] of the renderer: the subtree, deepest first. *)
Definition destroySubtree (i : Z) (t : Graph) : Graph := foldr releaseSlot t (subtree t i true).

(** ** Local values *)

Definition set_local (resolves flushes : bool) (f : Slot -> Slot) (i : Z) (t : Graph) : Graph :=
  if negb (has t i) then t
  else
    let t := upd i f t in
    let t := if flushes then dirty_flush i t else t in
    if resolves then dirty_resolve i t else t.

Definition setPosition i x y z := set_local true true (set_pos (x, y, z)) i.
Definition setVisible i b := set_local true true (set_visible b) i.
Definition setRotation i d := set_local false true (set_rot d) i.
Definition setScale i x y z := set_local false true (set_scale (x, y, z)) i.
Definition setAlpha i a := set_local false true (set_alpha a) i.
Definition setAnchor i x y := set_local false true (set_anchor (x, y)) i.
Definition setTint i c := set_local false true (set_tint c) i.
Definition setNeverCull i b := set_local false true (set_neverCull b) i.
Definition setCulled i b := set_local false false (set_culled b) i.
Definition markFlushDirty i := set_local false true (fun s => s) i.

Definition read_slot (t : Graph) (i : Z) : Slot := if has t i then at_ t i else default_slot.
Definition position t i := s_pos (read_slot t i).
Definition rotation t i := s_rot (read_slot t i).
Definition scale t i := s_scale (read_slot t i).
Definition alpha t i := s_alpha (read_slot t i).
Definition anchor t i := s_anchor (read_slot t i).
Definition tint t i := s_tint (read_slot t i).
Definition visible t i := has t i && s_visible (at_ t i).
Definition neverCull t i := has t i && s_neverCull (at_ t i).
Definition culled t i := has t i && s_culled (at_ t i).
Definition resolved t i := s_resolved (read_slot t i).
Definition resolvedVisible t i := has t i && s_resolvedVisible (at_ t i).
Definition firstChild t i := s_firstChild (read_slot t i).
Definition lastChild t i := s_lastChild (read_slot t i).
Definition prevSibling t i := s_prev (read_slot t i).
Definition nextSibling t i := s_next (read_slot t i).
Definition slotCount (t : Graph) : Z := count t.
Definition lastResolveVisits (t : Graph) : Z := visits t.

(** ** Resolving *)

(** What a node's resolved values are, from its parent's. *)
Definition base_of (t : Graph) (p : Z) : num * num * num * bool :=
  if p =? NO_SLOT then (f0, f0, f0, true) else (s_resolved (at_ t p), s_resolvedVisible (at_ t p)).

Definition compose (base : num * num * num * bool) (s : Slot) : num * num * num * bool :=
  let '(bx, by_, bz, bv) := base in
  let '(x, y, z) := s_pos s in
  (fadd bx x, fadd by_ y, fadd bz z, bv && s_visible s).

Definition same_resolved (a b : num * num * num * bool) : bool :=
  let '(x, y, z, v) := a in let '(x', y', z', v') := b in feq x x' && feq y y' && feq z z' && Bool.eqb v v'.

Definition visit (node : Z) (t : Graph) : Graph :=
  let t := with_visits (visits t + 1) (with_resolveDirty (sdel (resolveDirty t) node) t) in
  let v := compose (base_of t (s_parent (at_ t node))) (at_ t node) in
  let changed := negb (same_resolved v (s_resolved (at_ t node), s_resolvedVisible (at_ t node))) in
  let t := upd node (set_resolved v.1 v.2) t in
  if changed then with_resolvedChanged (sadd (resolvedChanged t) node) t else t.

(** The walk under one node, its stack's top first. *)
Fixpoint resolve_stack (fuel : nat) (stack : list Z) (t : Graph) : Graph :=
  match fuel with
  | O => t
  | S fuel =>
      match stack with
      | [] => t
      | node :: stack => let t := visit node t in resolve_stack fuel (rev (kids_of t node) ++ stack) t
      end
  end.

Definition resolveFrom (i : Z) (t : Graph) : Graph := resolve_stack (S (Z.to_nat (count t))) [i] t.

Fixpoint dirty_above (fuel : nat) (t : Graph) (walk : Z) : bool :=
  match fuel with
  | O => false
  | S fuel => if walk =? NO_SLOT then false else if shas (resolveDirty t) walk then true else dirty_above fuel t (s_parent (at_ t walk))
  end.

Definition hasDirtyAncestor (t : Graph) (i : Z) : bool := dirty_above (Z.to_nat (count t)) t (s_parent (at_ t i)).

Definition resolve_pending (t : Graph) (i : Z) : Graph :=
  if negb (shas (resolveDirty t) i) then t else if hasDirtyAncestor t i then t else resolveFrom i t.

Definition resolve (t : Graph) : Graph :=
  let t := with_visits 0 t in
  match resolveDirty t with
  | [] => t
  | pending => with_resolveDirty [] (foldl resolve_pending t pending)
  end.

Definition consumeFlushDirty (t : Graph) : list Z * Graph := (flushDirty t, with_flushDirty [] t).
Definition consumeResolvedDirty (t : Graph) : list Z * Graph := (resolvedChanged t, with_resolvedChanged [] t).
Definition pendingResolveRoots (t : Graph) : list Z := resolveDirty t.

Definition mark_one (t : Graph) (i : Z) : Graph :=
  let t := dirty_flush i t in if s_parent (at_ t i) =? NO_SLOT then dirty_resolve i t else t.

Definition markAllDirty (t : Graph) : Graph := foldl mark_one t (seqZ 0 (count t)).

(** ** Reading after writing *)

Definition inside (t : Graph) (i : Z) : Prop := 0 <= i < count t.

Lemma has_inside t i : has t i = true <-> inside t i.
Proof. unfold has, inside. rewrite andb_true_iff, Z.leb_le, Z.ltb_lt. tauto. Qed.

Lemma at_upd t i f j : 0 <= i < arr_len (slots t) -> at_ (upd i f t) j = if i =? j then f (at_ t i) else at_ t j.
Proof.
  intros Hi. unfold at_ at 1, upd. cbn [slots with_slots]. destruct (i =? j) eqn:E; bool_facts.
  - subst j. by rewrite arr_get_set_eq.
  - by rewrite arr_get_set_ne.
Qed.

Lemma len_upd t i f : arr_len (slots (upd i f t)) = arr_len (slots t).
Proof. unfold upd. cbn. apply arr_len_set. Qed.

(** A write the code makes behind a test. *)
Lemma at_guarded t q f y : (q <> NO_SLOT -> 0 <= q < arr_len (slots t)) ->
  at_ (if q =? NO_SLOT then t else upd q f t) y = if (y =? q) && negb (y =? NO_SLOT) then f (at_ t y) else at_ t y.
Proof.
  intros Hq. destruct (q =? NO_SLOT) eqn:E; bool_facts.
  - subst q. destruct (y =? NO_SLOT); done.
  - rewrite at_upd by auto. rewrite (Z.eqb_sym q y). destruct (y =? q) eqn:E'; [|done]. bool_facts. subst y. by rewrite (proj2 (Z.eqb_neq _ _) E).
Qed.

Lemma at_when t (b : bool) q f y : 0 <= q < arr_len (slots t) ->
  at_ (if b then upd q f t else t) y = if (y =? q) && b then f (at_ t y) else at_ t y.
Proof.
  intros Hq. destruct b; [|by rewrite andb_false_r]. rewrite at_upd by done. rewrite (Z.eqb_sym q y), andb_true_r.
  destruct (y =? q) eqn:E; [|done]. by bool_facts; subst y.
Qed.

Lemma at_write t q f y : 0 <= q < arr_len (slots t) -> at_ (upd q f t) y = if y =? q then f (at_ t y) else at_ t y.
Proof. intros Hq. pose proof (at_when t true q f y Hq) as H. by rewrite andb_true_r in H. Qed.

Lemma len_when t (b : bool) q f : arr_len (slots (if b then upd q f t else t)) = arr_len (slots t) /\ arr_len (slots (if b then t else upd q f t)) = arr_len (slots t).
Proof. destruct b; by rewrite ?len_upd. Qed.

(** A node's links, and the rest of it. *)
Definition local_of (s : Slot) :=
  (s_pos s, s_rot s, s_scale s, s_alpha s, s_anchor s, s_tint s, (s_visible s, s_neverCull s, s_culled s), (s_resolved s, s_resolvedVisible s)).

(** What an edit of the tree leaves alone. *)
Record relinked (t t' : Graph) : Prop := {
  rl_count : count t' = count t;
  rl_len : arr_len (slots t') = arr_len (slots t);
  rl_local x : local_of (at_ t' x) = local_of (at_ t x);
  rl_dirty : resolveDirty t' = resolveDirty t /\ flushDirty t' = flushDirty t /\ resolvedChanged t' = resolvedChanged t;
}.

Lemma relinked_refl t : relinked t t.
Proof. by split. Qed.

Lemma relinked_trans t1 t2 t3 : relinked t1 t2 -> relinked t2 t3 -> relinked t1 t3.
Proof. intros [A1 A2 A3 (A4 & A5 & A6)] [B1 B2 B3 (B4 & B5 & B6)]. split; [congruence..|intros x; by rewrite B3|split_and!; congruence]. Qed.

Lemma relinked_upd t i f : 0 <= i < arr_len (slots t) -> (forall s, local_of (f s) = local_of s) -> relinked t (upd i f t).
Proof.
  intros Hi Hf. split; [done|apply len_upd| |done]. intros x. rewrite at_upd by done. destruct (i =? x) eqn:E; bool_facts; [by subst|done].
Qed.

(** ** Sibling lists *)

Definition hd_or (d : Z) (l : list Z) : Z := nullish (head l) d.
Definition lst_or (d : Z) (l : list Z) : Z := nullish (last l) d.

(** The nodes of [l] are linked in order, between [prev] and [next]. *)
Fixpoint seg (t : Graph) (prev : Z) (l : list Z) (next : Z) : Prop :=
  match l with
  | [] => True
  | c :: l => s_prev (at_ t c) = prev /\ s_next (at_ t c) = hd_or next l /\ seg t c l next
  end.

Lemma lst_or_cons d c l : lst_or d (c :: l) = lst_or c l.
Proof. revert c. induction l as [|x l IH]; intros c; [done|]. unfold lst_or in *. rewrite !last_cons. destruct (last l); done. Qed.

Lemma lst_or_snoc d l c : lst_or d (l ++ [c]) = c.
Proof. unfold lst_or. by rewrite last_snoc. Qed.

Lemma hd_or_app d l l' : hd_or d (l ++ l') = hd_or (hd_or d l') l.
Proof. by destruct l. Qed.

Lemma seg_app t prev l l' next : seg t prev (l ++ l') next <-> seg t prev l (hd_or next l') /\ seg t (lst_or prev l) l' next.
Proof.
  revert prev. induction l as [|c l IH]; intros prev; [unfold lst_or; simpl; tauto|].
  cbn [seg app]. rewrite IH, hd_or_app, lst_or_cons. tauto.
Qed.

Lemma seg_ext t t' prev l next :
  (forall x, x ∈ l -> s_prev (at_ t' x) = s_prev (at_ t x) /\ s_next (at_ t' x) = s_next (at_ t x)) -> seg t prev l next -> seg t' prev l next.
Proof.
  revert prev. induction l as [|c l IH]; intros prev Hx; [done|]. cbn [seg]. intros (H1 & H2 & H3).
  destruct (Hx c) as [-> ->]; [left|]. split_and!; [done|done|]. apply IH; [|done]. intros x Hin. apply Hx. by right.
Qed.

Lemma seg_close t t' prev l n n' :
  NoDup l ->
  (forall x, x ∈ l -> s_prev (at_ t' x) = s_prev (at_ t x) /\ s_next (at_ t' x) = if bool_decide (last l = Some x) then n' else s_next (at_ t x)) ->
  seg t prev l n -> seg t' prev l n'.
Proof.
  revert prev. induction l as [|c l IH]; intros prev Hnd Hx; [done|]. cbn [seg]. intros (H1 & H2 & H3). apply NoDup_cons in Hnd as [Hc Hnd].
  destruct (Hx c) as [-> Hn]; [left|]. split; [done|]. rewrite Hn. destruct l as [|d l].
  - by rewrite bool_decide_true.
  - rewrite bool_decide_false by (rewrite last_cons_cons; intros Hl; apply last_Some_elem_of in Hl; done). split; [done|]. apply IH; [done| |done].
    intros x Hin. specialize (Hx x ltac:(by right)). by rewrite last_cons_cons in Hx.
Qed.

Lemma seg_open t t' p p' l n :
  NoDup l ->
  (forall x, x ∈ l -> s_next (at_ t' x) = s_next (at_ t x) /\ s_prev (at_ t' x) = if bool_decide (head l = Some x) then p' else s_prev (at_ t x)) ->
  seg t p l n -> seg t' p' l n.
Proof.
  destruct l as [|c l]; [done|]. intros [Hc Hnd]%NoDup_cons Hx. cbn [seg]. intros (H1 & H2 & H3).
  destruct (Hx c) as [-> Hp]; [left|]. rewrite Hp, bool_decide_true by done. split_and!; [done|done|]. apply (seg_ext t); [|done].
  intros x Hin. destruct (Hx x ltac:(by right)) as [-> ->]. rewrite bool_decide_false; [done|]. simpl. congruence.
Qed.

Lemma siblings_seg t prev l fuel : (forall x, x ∈ l -> x <> NO_SLOT) -> seg t prev l NO_SLOT -> (length l <= fuel)%nat -> siblings fuel t (hd_or NO_SLOT l) = l.
Proof.
  revert prev fuel. induction l as [|c l IH]; intros prev fuel Hne Hs Hf; [by destruct fuel|]. destruct fuel as [|fuel]; [simpl in Hf; lia|].
  change (hd_or NO_SLOT (c :: l)) with c. cbn [siblings]. assert (Hc : c <> NO_SLOT) by (apply Hne; left).
  rewrite (proj2 (Z.eqb_neq _ _) Hc). destruct Hs as (_ & -> & Hs). f_equal.
  apply (IH c); [|done|simpl in Hf; lia]. intros x Hx. apply Hne. by right.
Qed.

(** ** The forest the links stand for *)

(** Each node's children in order, and the roots in order. *)
Record Forest := MkForest { fo_kids : Z -> list Z; fo_roots : list Z }.

Definition new_forest : Forest := MkForest (fun _ => []) [].
Definition without (c : Z) (s : Forest) : Forest := MkForest (fun p => filter (fun x => x <> c) (fo_kids s p)) (filter (fun x => x <> c) (fo_roots s)).
Definition as_root (c : Z) (s : Forest) : Forest := MkForest (fo_kids s) (fo_roots s ++ [c]).
Definition as_child (c p : Z) (s : Forest) : Forest := MkForest (fun q => if q =? p then fo_kids s q ++ [c] else fo_kids s q) (fo_roots s).

(** The node's line of ancestors ends at a root. *)
Inductive anchored (t : Graph) : Z -> Prop :=
  | anchored_top i : s_parent (at_ t i) = NO_SLOT -> anchored t i
  | anchored_under i : anchored t (s_parent (at_ t i)) -> anchored t i.

Record linked (t : Graph) (s : Forest) : Prop := {
  lk_count : 0 <= count t <= arr_len (slots t);
  lk_seg p : seg t NO_SLOT (fo_kids s p) NO_SLOT;
  lk_kids p c : c ∈ fo_kids s p <-> inside t c /\ s_parent (at_ t c) = p /\ p <> NO_SLOT;
  lk_ends p : inside t p -> s_firstChild (at_ t p) = hd_or NO_SLOT (fo_kids s p) /\ s_lastChild (at_ t p) = lst_or NO_SLOT (fo_kids s p);
  lk_nodup p : NoDup (fo_kids s p);
  lk_up c : inside t c -> s_parent (at_ t c) <> NO_SLOT -> inside t (s_parent (at_ t c));
  lk_top c : inside t c -> s_parent (at_ t c) = NO_SLOT -> s_prev (at_ t c) = NO_SLOT /\ s_next (at_ t c) = NO_SLOT;
  lk_tree c : inside t c -> anchored t c;
  lk_unused i : ~ inside t i -> at_ t i = raw_slot \/ at_ t i = default_slot;
}.

(** The node's position among its parent's children. *)
Lemma among_siblings t s c : linked t s -> inside t c -> s_parent (at_ t c) <> NO_SLOT ->
  exists l l', fo_kids s (s_parent (at_ t c)) = l ++ c :: l' /\ (c ∉ l) /\ (c ∉ l')
    /\ s_prev (at_ t c) = lst_or NO_SLOT l /\ s_next (at_ t c) = hd_or NO_SLOT l'.
Proof.
  intros Hl Hc Hp. assert (Hin : c ∈ fo_kids s (s_parent (at_ t c))) by (by apply (lk_kids _ _ Hl)).
  apply list_elem_of_split in Hin as (l & l' & Heq). exists l, l'. pose proof (lk_nodup _ _ Hl (s_parent (at_ t c))) as Hnd.
  pose proof (lk_seg _ _ Hl (s_parent (at_ t c))) as Hs. rewrite Heq in Hnd, Hs. apply NoDup_app in Hnd as (_ & Hd & [Hn _]%NoDup_cons).
  apply seg_app in Hs as [_ (H1 & H2 & _)]. split_and!; try done. intros Hin. by apply (Hd c Hin); left.
Qed.

Lemma lst_or_elem d l : lst_or d l <> d -> lst_or d l ∈ l.
Proof. unfold lst_or. destruct (last l) as [x|] eqn:E; [|done]. intros _. by apply last_Some_elem_of in E. Qed.

Lemma hd_or_elem d l : hd_or d l <> d -> hd_or d l ∈ l.
Proof. destruct l; [done|]. intros _. left. Qed.

Lemma inside_range t i : 0 <= count t <= arr_len (slots t) -> inside t i -> 0 <= i < arr_len (slots t).
Proof. unfold inside. lia. Qed.

(** [removeRoot] is about the root order alone. *)
Lemma removeRoot_slots i t : let t' := removeRoot i t in
  slots t' = slots t /\ count t' = count t /\ resolveDirty t' = resolveDirty t /\ flushDirty t' = flushDirty t /\ resolvedChanged t' = resolvedChanged t.
Proof.
  unfold removeRoot. destruct (mget (rootAt t) i); [|done]. cbv zeta. destruct (_ <? _); [|done]. unfold compactRoots. by destruct (foldl _ _ _).
Qed.

Lemma addRoot_slots i t : let t' := addRoot i t in
  slots t' = slots t /\ count t' = count t /\ resolveDirty t' = resolveDirty t /\ flushDirty t' = flushDirty t /\ resolvedChanged t' = resolvedChanged t.
Proof. unfold addRoot. by destruct (mhas _ _). Qed.

Lemma at_same t t' i : slots t' = slots t -> at_ t' i = at_ t i.
Proof. unfold at_. by intros ->. Qed.

Lemma relinked_slots t t' : slots t' = slots t -> count t' = count t ->
  resolveDirty t' = resolveDirty t /\ flushDirty t' = flushDirty t /\ resolvedChanged t' = resolvedChanged t -> relinked t t'.
Proof. intros Hs Hc Hd. split; [done|by rewrite Hs| |done]. intros x. by rewrite (at_same _ _ x Hs). Qed.

Section Detach.
Context (t : Graph) (s : Forest) (c : Z) (Hl : linked t s) (Hc : inside t c).
Let p := s_parent (at_ t c).
Let prev := s_prev (at_ t c).
Let next := s_next (at_ t c).

Lemma sibling_inside x : x = prev \/ x = next -> x <> NO_SLOT -> inside t x /\ s_parent (at_ t x) = p /\ p <> NO_SLOT /\ x <> c.
Proof using Hl Hc.
  intros Hx Hne. unfold prev, next in Hx. destruct (decide (p = NO_SLOT)) as [Hp|Hp].
  { destruct (lk_top _ _ Hl c Hc Hp) as [H1 H2]. rewrite H1, H2 in Hx. by destruct Hx. }
  destruct (among_siblings t s c Hl Hc Hp) as (l & l' & Heq & Hn1 & Hn2 & H1 & H2). rewrite H1, H2 in Hx.
  assert (Hin : x ∈ l \/ x ∈ l').
  { destruct Hx as [->| ->]; [left; by apply lst_or_elem|right; by apply hd_or_elem]. }
  assert (Hk : x ∈ fo_kids s p) by (unfold p; rewrite Heq; rewrite elem_of_app, elem_of_cons; tauto).
  apply (lk_kids _ _ Hl) in Hk as (K1 & K2 & K3). split_and!; try done. intros ->. tauto.
Qed.

Lemma detach_links x :
  let s0 := at_ t x in let s' := at_ (detach c t) x in
  s_parent s' = (if x =? c then NO_SLOT else s_parent s0)
  /\ s_next s' = (if x =? c then NO_SLOT else if (x =? prev) && negb (x =? NO_SLOT) then next else s_next s0)
  /\ s_prev s' = (if x =? c then NO_SLOT else if (x =? next) && negb (x =? NO_SLOT) then prev else s_prev s0)
  /\ s_firstChild s' = (if (x =? p) && negb (x =? NO_SLOT) && (s_firstChild s0 =? c) then next else s_firstChild s0)
  /\ s_lastChild s' = (if (x =? p) && negb (x =? NO_SLOT) && (s_lastChild s0 =? c) then prev else s_lastChild s0).
Proof using Hl Hc.
  pose proof (lk_count _ _ Hl) as Hn. assert (Hrange : forall y, inside t y -> 0 <= y < arr_len (slots t)) by (intros; by apply inside_range).
  assert (Hprev : prev <> NO_SLOT -> 0 <= prev < arr_len (slots t)) by (intros; apply Hrange, sibling_inside; auto).
  assert (Hnext : next <> NO_SLOT -> 0 <= next < arr_len (slots t)) by (intros; apply Hrange, sibling_inside; auto).
  assert (Hpar : p <> NO_SLOT -> 0 <= p < arr_len (slots t)) by (intros; by apply Hrange, (lk_up _ _ Hl)).
  unfold detach. fold p prev next.
  set (t1 := if prev =? NO_SLOT then t else upd prev (set_next next) t).
  set (t2 := if next =? NO_SLOT then t1 else upd next (set_prev prev) t1).
  set (t3 := if p =? NO_SLOT then removeRoot c t2 else _).
  assert (L1 : arr_len (slots t1) = arr_len (slots t)) by apply len_when.
  assert (A1 : forall y, at_ t1 y = if (y =? prev) && negb (y =? NO_SLOT) then set_next next (at_ t y) else at_ t y) by (intros; by apply at_guarded).
  assert (L2 : arr_len (slots t2) = arr_len (slots t)) by (rewrite <- L1; apply len_when).
  assert (A2 : forall y, at_ t2 y = if (y =? next) && negb (y =? NO_SLOT) then set_prev prev (at_ t1 y) else at_ t1 y) by (intros; apply at_guarded; by rewrite L1).
  assert (L3 : arr_len (slots t3) = arr_len (slots t)).
  { unfold t3. destruct (p =? NO_SLOT); [by rewrite (proj1 (removeRoot_slots c t2))|]. cbv zeta. by rewrite !(proj1 (len_when _ _ _ _)). }
  assert (A3 : forall y, at_ t3 y = if (y =? p) && negb (y =? NO_SLOT)
     then (let z := if s_firstChild (at_ t2 y) =? c then set_firstChild next (at_ t2 y) else at_ t2 y in if s_lastChild z =? c then set_lastChild prev z else z) else at_ t2 y).
  { intros y. unfold t3. destruct (p =? NO_SLOT) eqn:E; bool_facts.
    - rewrite (at_same _ _ y (proj1 (removeRoot_slots c t2))), E. by destruct (y =? NO_SLOT).
    - cbv zeta. rewrite at_when by (rewrite (proj1 (len_when _ _ _ _)), L2; auto). rewrite !at_when by (rewrite L2; auto).
      rewrite Z.eqb_refl. destruct (y =? p) eqn:E'; [|done]. bool_facts. subst y. rewrite (proj2 (Z.eqb_neq _ _) E). cbn [andb negb].
      by destruct (s_firstChild (at_ t2 p) =? c). }
  cbv zeta. rewrite at_upd by (rewrite L3; by apply Hrange). rewrite (Z.eqb_sym c x).
  assert (Hne : c <> prev /\ c <> next).
  { destruct Hc. split; intros Heq; [destruct (sibling_inside prev)|destruct (sibling_inside next)]; unfold NO_SLOT; auto; try lia; intuition congruence. }
  destruct Hne as [Hne1 Hne2]. destruct (x =? c) eqn:Exc; bool_facts.
  - subst x. rewrite A3, A2, A1. rewrite (proj2 (Z.eqb_neq c prev) Hne1), (proj2 (Z.eqb_neq c next) Hne2). cbn [andb].
    destruct ((c =? p) && negb (c =? NO_SLOT)); cbn [andb]; [|done]. cbv zeta. destruct (s_firstChild (at_ t c) =? c); cbn; by destruct (s_lastChild (at_ t c) =? c).
  - rewrite A3, A2, A1. destruct (x =? prev), (x =? next), (x =? p), (x =? NO_SLOT); cbn [andb negb]; cbv zeta; try done; cbn;
      destruct (s_firstChild (at_ t x) =? c); cbn; destruct (s_lastChild (at_ t x) =? c); done.
Qed.
End Detach.

Lemma slot_ext a b : local_of a = local_of b -> s_parent a = s_parent b -> s_next a = s_next b -> s_prev a = s_prev b ->
  s_firstChild a = s_firstChild b -> s_lastChild a = s_lastChild b -> a = b.
Proof. destruct a, b. unfold local_of. cbn. intros H -> -> -> -> ->. by simplify_eq. Qed.

Lemma relinked_guarded t q f : (q <> NO_SLOT -> 0 <= q < arr_len (slots t)) -> (forall s, local_of (f s) = local_of s) ->
  relinked t (if q =? NO_SLOT then t else upd q f t).
Proof. intros Hq Hf. destruct (q =? NO_SLOT) eqn:E; bool_facts; [apply relinked_refl|apply relinked_upd; auto]. Qed.

Lemma relinked_when t (b : bool) q f : 0 <= q < arr_len (slots t) -> (forall s, local_of (f s) = local_of s) -> relinked t (if b then upd q f t else t).
Proof. intros Hq Hf. destruct b; [by apply relinked_upd|apply relinked_refl]. Qed.

Lemma detach_relinked t s c : linked t s -> inside t c -> relinked t (detach c t).
Proof.
  intros Hl Hc. pose proof (lk_count _ _ Hl) as Hn.
  assert (Hs : forall x, x = s_prev (at_ t c) \/ x = s_next (at_ t c) -> x <> NO_SLOT -> 0 <= x < arr_len (slots t)).
  { intros x Hx Hne. apply inside_range; [done|]. by destruct (sibling_inside t s c Hl Hc x Hx Hne). }
  unfold detach. set (t1 := if s_prev (at_ t c) =? NO_SLOT then t else _).
  assert (R1 : relinked t t1) by (apply relinked_guarded; [apply Hs; by left|done]).
  set (t2 := if s_next (at_ t c) =? NO_SLOT then t1 else _).
  assert (R2 : relinked t t2) by (apply (relinked_trans _ t1); [done|]; apply relinked_guarded; [rewrite (rl_len _ _ R1); apply Hs; by right|done]).
  set (t3 := if s_parent (at_ t c) =? NO_SLOT then removeRoot c t2 else _).
  assert (R3 : relinked t t3).
  { apply (relinked_trans _ t2); [done|]. unfold t3. destruct (s_parent (at_ t c) =? NO_SLOT) eqn:E; bool_facts.
    - by apply relinked_slots; apply removeRoot_slots.
    - assert (Hp : 0 <= s_parent (at_ t c) < arr_len (slots t2)) by (rewrite (rl_len _ _ R2); by apply inside_range, (lk_up _ _ Hl)).
      cbv zeta. pose proof (relinked_when t2 (s_firstChild (at_ t2 (s_parent (at_ t c))) =? c) (s_parent (at_ t c)) (set_firstChild (s_next (at_ t c))) Hp (fun _ => eq_refl)) as R.
      apply (relinked_trans _ _ _ R). apply relinked_when; [by rewrite (rl_len _ _ R)|done]. }
  apply (relinked_trans _ t3); [done|]. apply relinked_upd; [|done]. rewrite (rl_len _ _ R3). by apply inside_range.
Qed.

Lemma filter_out (c : Z) (l : list Z) : c ∉ l -> filter (fun x => x <> c) l = l.
Proof.
  induction l as [|x l IH]; intros Hc; [done|]. apply not_elem_of_cons in Hc as [Hx Hc]. rewrite filter_cons, decide_True by congruence. by rewrite IH.
Qed.

Lemma filter_mid (c : Z) (l l' : list Z) : (c ∉ l) -> (c ∉ l') -> filter (fun x => x <> c) (l ++ c :: l') = l ++ l'.
Proof. intros H1 H2. rewrite filter_app, filter_cons, decide_False by tauto. by rewrite !filter_out. Qed.

Lemma seg_removed t t' c l l' next : NoDup (l ++ c :: l') -> seg t NO_SLOT (l ++ c :: l') NO_SLOT -> next = hd_or NO_SLOT l' ->
  (forall x, x ∈ l ++ l' -> s_next (at_ t' x) = (if (x =? lst_or NO_SLOT l) && negb (x =? NO_SLOT) then next else s_next (at_ t x))
                     /\ s_prev (at_ t' x) = (if (x =? next) && negb (x =? NO_SLOT) then lst_or NO_SLOT l else s_prev (at_ t x))
                     /\ x <> NO_SLOT) ->
  seg t' NO_SLOT (l ++ l') NO_SLOT.
Proof.
  intros Hnd Hs -> Hx. apply NoDup_app in Hnd as (N1 & Nd & [_ N2]%NoDup_cons). apply seg_app in Hs as [H1 (_ & _ & H2)].
  change (hd_or NO_SLOT (c :: l')) with c in H1. apply seg_app. split.
  - apply (seg_close t t' NO_SLOT l c); [done| |done]. intros x Hin. destruct (Hx x ltac:(apply elem_of_app; by left)) as (Hn & Hp & Hne).
    rewrite Hp, Hn. split.
    + destruct (x =? hd_or NO_SLOT l') eqn:E; [|done]. bool_facts. rewrite (proj2 (Z.eqb_neq _ _) Hne). cbn. exfalso.
      apply (Nd x Hin). right. rewrite E. apply hd_or_elem. congruence.
    + rewrite (proj2 (Z.eqb_neq _ _) Hne), andb_true_r. unfold lst_or. destruct (last l) as [y|] eqn:El; cbn.
      * destruct (x =? y) eqn:E; bool_facts; [by rewrite bool_decide_true by congruence|by rewrite bool_decide_false by congruence].
      * apply last_None in El as ->. by apply not_elem_of_nil in Hin.
  - apply (seg_open t t' c (lst_or NO_SLOT l) l'); [done| |done]. intros x Hin. destruct (Hx x ltac:(apply elem_of_app; by right)) as (Hn & Hp & Hne).
    rewrite Hp, Hn. split.
    + destruct (x =? lst_or NO_SLOT l) eqn:E; [|done]. bool_facts. rewrite (proj2 (Z.eqb_neq _ _) Hne). cbn. exfalso.
      apply (Nd x); [rewrite E; apply lst_or_elem; congruence|by right].
    + rewrite (proj2 (Z.eqb_neq _ _) Hne), andb_true_r. destruct l' as [|y l']; [by apply not_elem_of_nil in Hin|]. cbn.
      change (hd_or NO_SLOT (y :: l')) with y. destruct (x =? y) eqn:E; bool_facts; [by rewrite bool_decide_true by congruence|by rewrite bool_decide_false by congruence].
Qed.

Lemma anchored_detach t s c x : linked t s -> inside t c -> anchored t x -> anchored (detach c t) x.
Proof.
  intros Hl Hc. induction 1 as [x Hp|x Hp IH]; destruct (detach_links t s c Hl Hc x) as (H1 & _); destruct (x =? c) eqn:E; bool_facts.
  - by apply anchored_top.
  - apply anchored_top. by rewrite H1.
  - by apply anchored_top.
  - apply anchored_under. by rewrite H1.
Qed.

Lemma detach_linked t s c : linked t s -> inside t c -> linked (detach c t) (without c s) /\ s_parent (at_ (detach c t) c) = NO_SLOT.
Proof.
  intros Hl Hc. pose proof (detach_links t s c Hl Hc) as Hx. pose proof (detach_relinked t s c Hl Hc) as [R1 R2 R3 R4].
  pose proof (sibling_inside t s c Hl Hc) as Hsib. cbv zeta in Hx. set (t' := detach c t) in *. set (p := s_parent (at_ t c)) in *.
  assert (Hin : forall i, inside t' i <-> inside t i) by (intros; unfold inside; by rewrite R1).
  assert (Hno : forall i, inside t i -> i <> NO_SLOT) by (unfold inside, NO_SLOT; lia).
  assert (Hother : forall q, q <> p \/ p = NO_SLOT -> c ∉ fo_kids s q).
  { intros q Hq (K1 & K2 & K3)%(lk_kids _ _ Hl). fold p in K2. destruct Hq; congruence. }
  split; [split|].
  - rewrite R1, R2. apply Hl.
  - intros q. cbn. destruct (decide (q = p /\ p <> NO_SLOT)) as [[-> Hp]|Hq].
    + destruct (among_siblings t s c Hl Hc Hp) as (l & l' & Heq & N1 & N2 & P1 & P2). fold p in Heq. rewrite Heq, filter_mid by done.
      apply (seg_removed t t' c l l' (s_next (at_ t c))); [rewrite <- Heq; apply Hl|rewrite <- Heq; apply Hl|done|].
      intros x Hxin. destruct (Hx x) as (_ & X2 & X3 & _). assert (x <> c) by (intros ->; apply elem_of_app in Hxin; tauto).
      rewrite X2, X3, <- P1, (proj2 (Z.eqb_neq x c)) by done. split_and!; try done. apply Hno.
      apply (lk_kids _ _ Hl p x). rewrite Heq. apply elem_of_app in Hxin. rewrite elem_of_app, elem_of_cons. tauto.
    + assert (Hq' : q <> p \/ p = NO_SLOT) by (destruct (decide (q = p)), (decide (p = NO_SLOT)); tauto).
      rewrite filter_out by auto. apply (seg_ext t); [|apply Hl]. intros x Hxin. destruct (Hx x) as (_ & X2 & X3 & _).
      assert (Hxc : x <> c) by (intros ->; by apply (Hother q)). apply (lk_kids _ _ Hl) in Hxin as (K1 & K2 & K3).
      rewrite X2, X3, (proj2 (Z.eqb_neq _ _) Hxc).
      assert (Hns : forall y, y = s_prev (at_ t c) \/ y = s_next (at_ t c) -> (x =? y) && negb (x =? NO_SLOT) = false).
      { intros y Hy. destruct (x =? y) eqn:E; [|done]. bool_facts. subst y. destruct (Hsib x Hy (Hno x K1)) as (_ & Hpx & Hpn & _).
        fold p in Hpx, Hpn. destruct Hq'; congruence. }
      rewrite !Hns by auto. done.
  - intros q x. cbn. rewrite list_elem_of_filter, (lk_kids _ _ Hl). destruct (Hx x) as (X1 & _). rewrite Hin, X1.
    destruct (x =? c) eqn:E; bool_facts; [subst; split; [tauto|]; intros (_ & <- & Hq); by exfalso|tauto].
  - intros q Hq. apply Hin in Hq. destruct (Hx q) as (_ & _ & _ & X4 & X5). destruct (lk_ends _ _ Hl q Hq) as [E1 E2]. rewrite X4, X5, E1, E2. cbn.
    rewrite (proj2 (Z.eqb_neq _ _) (Hno q Hq)). rewrite andb_true_r. destruct (q =? p) eqn:E; bool_facts; [|by rewrite filter_out by auto].
    subst q. destruct (among_siblings t s c Hl Hc (Hno p Hq)) as (l & l' & Heq & N1 & N2 & P1 & P2). fold p in Heq. rewrite Heq, filter_mid, P1, P2 by done. cbn [andb].
    split.
    + destruct l as [|y l]; [change (hd_or NO_SLOT ([] ++ c :: l')) with c; by rewrite Z.eqb_refl|]. change (hd_or NO_SLOT ((y :: l) ++ c :: l')) with y.
      apply not_elem_of_cons in N1 as [N1 _]. by rewrite (proj2 (Z.eqb_neq y c)) by congruence.
    + unfold lst_or. rewrite !last_app. rewrite last_cons. destruct (last l') as [y|] eqn:El; cbn.
      * apply last_Some_elem_of in El. rewrite (proj2 (Z.eqb_neq y c)) by (intros ->; done). done.
      * by rewrite Z.eqb_refl.
  - intros q. apply NoDup_filter, Hl.
  - intros x Hxi. apply Hin in Hxi. destruct (Hx x) as (X1 & _). rewrite Hin, X1. destruct (x =? c); [done|]. by apply (lk_up _ _ Hl).
  - intros x Hxi. apply Hin in Hxi. destruct (Hx x) as (X1 & X2 & X3 & _). rewrite X1, X2, X3. destruct (x =? c) eqn:E; [done|]. intros Hp. bool_facts.
    assert (Hns : forall y, y = s_prev (at_ t c) \/ y = s_next (at_ t c) -> (x =? y) && negb (x =? NO_SLOT) = false).
    { intros y Hy. destruct (x =? y) eqn:E'; [|done]. bool_facts. subst y. destruct (Hsib x Hy (Hno x Hxi)) as (_ & Hpx & Hpn & _). fold p in Hpx, Hpn. congruence. }
    rewrite !Hns by auto. by apply (lk_top _ _ Hl).
  - intros x Hxi. apply Hin in Hxi. apply (anchored_detach t s); [done|done|by apply (lk_tree _ _ Hl)].
  - intros i Hi. rewrite Hin in Hi. assert (Heq : at_ t' i = at_ t i); [|rewrite Heq; by apply (lk_unused _ _ Hl)].
    destruct (Hx i) as (X1 & X2 & X3 & X4 & X5). rewrite (proj2 (Z.eqb_neq i c)) in * by (intros ->; done).
    assert (Hns : forall y, (y <> NO_SLOT -> inside t y) -> (i =? y) && negb (i =? NO_SLOT) = false).
    { intros y Hy. destruct (i =? y) eqn:E; [|done]. bool_facts. subst y. destruct (i =? NO_SLOT) eqn:E'; [done|]. bool_facts. by exfalso; apply Hi, Hy. }
    rewrite Hns in X2 by (intros; apply Hsib; auto). rewrite Hns in X3 by (intros; apply Hsib; auto).
    rewrite Hns in X4, X5 by (by apply (lk_up _ _ Hl)). by apply slot_ext.
  - destruct (Hx c) as (-> & _). by rewrite Z.eqb_refl.
Qed.

(** ** Lines of ancestors *)

Inductive line (t : Graph) : Z -> list Z -> Prop :=
  | line_top i : s_parent (at_ t i) = NO_SLOT -> line t i [i]
  | line_up i l : s_parent (at_ t i) <> NO_SLOT -> line t (s_parent (at_ t i)) l -> line t i (i :: l).

Lemma line_det t i l l' : line t i l -> line t i l' -> l = l'.
Proof.
  intros H. revert l'. induction H as [i Hi|i l Hi H IH]; intros l' H'; inversion H'; subst; try done. f_equal. by apply IH.
Qed.

Lemma line_suffix t i l x : line t i l -> x ∈ l -> exists l1 l2, l = l1 ++ l2 /\ line t x l2.
Proof.
  induction 1 as [i Hi|i l Hi H IH]; intros Hx.
  - apply list_elem_of_singleton in Hx as ->. exists [], [i]. split; [done|by apply line_top].
  - apply elem_of_cons in Hx as [->|Hx]; [exists [], (i :: l); split; [done|by apply line_up]|].
    destruct (IH Hx) as (l1 & l2 & -> & Hl). by exists (i :: l1), l2.
Qed.

Lemma line_nodup t i l : line t i l -> NoDup l.
Proof.
  induction 1 as [i Hi|i l Hi H IH]; [apply NoDup_singleton|]. apply NoDup_cons. split; [|done]. intros Hin.
  destruct (line_suffix t _ l i H Hin) as (l1 & l2 & -> & Hl). pose proof (line_det t i _ _ Hl (line_up t i _ Hi H)) as Heq.
  apply (f_equal length) in Heq. simpl in Heq. rewrite length_app in Heq. lia.
Qed.

Lemma line_head t i l : line t i l -> i ∈ l.
Proof. inversion 1; left. Qed.

Lemma anchored_line t i : anchored t i -> exists l, line t i l.
Proof.
  induction 1 as [i Hi|i H [l IH]]; [exists [i]; by apply line_top|]. destruct (decide (s_parent (at_ t i) = NO_SLOT)) as [Hp|Hp].
  - exists [i]. by apply line_top.
  - exists (i :: l). by apply line_up.
Qed.

Lemma line_inside t s i l : linked t s -> inside t i -> line t i l -> forall x, x ∈ l -> inside t x.
Proof.
  intros Hl Hi H. induction H as [i Hp|i l Hp H IH]; intros x Hx.
  - by apply list_elem_of_singleton in Hx as ->.
  - apply elem_of_cons in Hx as [->|Hx]; [done|]. apply IH; [|done]. by apply (lk_up _ _ Hl).
Qed.

Lemma bounded_length n (l : list Z) : NoDup l -> (forall x, x ∈ l -> 0 <= x < n) -> (length l <= Z.to_nat n)%nat.
Proof.
  intros Hnd Hx. assert (Hs : l ⊆+ seqZ 0 n) by (apply NoDup_submseteq; [done|]; intros x Hin; apply elem_of_seqZ; specialize (Hx x Hin); lia).
  apply submseteq_length in Hs. by rewrite length_seqZ in Hs.
Qed.

Lemma has_line t s i : linked t s -> inside t i -> exists l, line t i l /\ (length l <= Z.to_nat (count t))%nat.
Proof.
  intros Hl Hi. destruct (anchored_line t i (lk_tree _ _ Hl i Hi)) as [l H]. exists l. split; [done|].
  apply bounded_length; [by apply (line_nodup t i)|]. by apply (line_inside t s i).
Qed.

Lemma ancestor_walk_line t a fuel i l : (forall x, x ∈ l -> x <> NO_SLOT) -> line t i l -> (length l <= fuel)%nat -> ancestor_walk fuel t a i = bool_decide (a ∈ l).
Proof.
  intros Hne H. revert fuel. induction H as [i Hi|i l Hi H IH]; intros fuel Hf; (destruct fuel as [|fuel]; [simpl in Hf; lia|]); cbn [ancestor_walk].
  all: rewrite (proj2 (Z.eqb_neq i NO_SLOT)) by (apply Hne; left).
  all: destruct (i =? a) eqn:E; bool_facts; [subst; by rewrite bool_decide_true by left|].
  - rewrite bool_decide_false by (intros Ha; apply list_elem_of_singleton in Ha; congruence). rewrite Hi. by destruct fuel.
  - rewrite IH; [|intros x Hx; apply Hne; by right|simpl in Hf; lia]. apply bool_decide_ext. rewrite elem_of_cons. intuition congruence.
Qed.

Lemma inside_some t i : inside t i -> i <> NO_SLOT.
Proof. unfold inside, NO_SLOT. lia. Qed.

Lemma isAncestorOf_line t s a i l : linked t s -> inside t a -> inside t i -> line t i l -> isAncestorOf t a i = bool_decide (a ∈ l).
Proof.
  intros Hl Ha Hi H. unfold isAncestorOf. rewrite (proj2 (has_inside t a) Ha), (proj2 (has_inside t i) Hi). cbn [andb].
  destruct (has_line t s i Hl Hi) as (l' & H' & Hlen). rewrite (line_det t i l l' H H'). apply ancestor_walk_line; [|done|lia].
  intros x Hx. apply (inside_some t). by apply (line_inside t s i l').
Qed.

Lemma not_own_parent t s p x : linked t s -> inside t x -> s_parent (at_ t x) = p -> p <> NO_SLOT -> p <> x.
Proof.
  intros Hl Hx Hp Hn ->. destruct (anchored_line t x (lk_tree _ _ Hl x Hx)) as [l H]. inversion H; subst; [congruence|].
  rewrite Hp in *. match goal with H1 : line t x ?l1 |- _ => match type of H with line t x (x :: l1) => pose proof (line_det _ _ _ _ H H1) as Heq end end.
  apply (f_equal length) in Heq. simpl in Heq. lia.
Qed.

(** Where only [c]'s parent changed. *)
Lemma anchored_clear t t' c i l : (forall x, x <> c -> s_parent (at_ t' x) = s_parent (at_ t x)) -> line t i l -> c ∉ l -> anchored t' i.
Proof.
  intros Hx. induction 1 as [i Hi|i l Hi H IH]; intros Hc; apply not_elem_of_cons in Hc as [Hne Hc].
  - apply anchored_top. rewrite Hx; congruence.
  - apply anchored_under. rewrite Hx by congruence. by apply IH.
Qed.

Lemma anchored_moved t t' c x : (forall x, x <> c -> s_parent (at_ t' x) = s_parent (at_ t x)) -> anchored t' (s_parent (at_ t' c)) -> anchored t x -> anchored t' x.
Proof.
  intros Hx Hc. induction 1 as [x Hp|x Hp IH]; (destruct (decide (x = c)) as [->|Hne]; [by apply anchored_under|]).
  - apply anchored_top. by rewrite Hx.
  - apply anchored_under. by rewrite Hx.
Qed.

(** ** Adopting a child *)

(** The second half of [link], on a node without a parent. *)
Definition adopt (child p : Z) (t : Graph) : Graph :=
  let t := upd child (set_parent p) t in
  let last := s_lastChild (at_ t p) in
  let t := if last =? NO_SLOT then upd p (set_firstChild child) t
           else upd child (set_prev last) (upd last (set_next child) t) in
  upd p (set_lastChild child) t.

Section Adopt.
Context (t : Graph) (s : Forest) (c p : Z) (Hl : linked t s) (Hc : inside t c) (Hp : inside t p) (Hcp : c <> p) (Htop : s_parent (at_ t c) = NO_SLOT).
Let last := s_lastChild (at_ t p).

Lemma last_inside : last <> NO_SLOT -> inside t last /\ last <> c /\ s_parent (at_ t last) = p.
Proof using Hl Hc Hp Hcp Htop.
  intros Hne. unfold last in *. destruct (lk_ends _ _ Hl p Hp) as [_ E]. rewrite E in *. apply lst_or_elem in Hne.
  apply (lk_kids _ _ Hl) in Hne as (K1 & K2 & K3). split_and!; try done. intros Heq. rewrite Heq in K2. congruence.
Qed.

Lemma adopt_links x :
  let s0 := at_ t x in let s' := at_ (adopt c p t) x in
  s_parent s' = (if x =? c then p else s_parent s0)
  /\ s_next s' = (if (x =? last) && negb (x =? NO_SLOT) then c else s_next s0)
  /\ s_prev s' = (if x =? c then last else s_prev s0)
  /\ s_firstChild s' = (if (x =? p) && (last =? NO_SLOT) then c else s_firstChild s0)
  /\ s_lastChild s' = (if x =? p then c else s_lastChild s0)
  /\ local_of s' = local_of s0.
Proof using Hl Hc Hp Hcp Htop.
  pose proof (lk_count _ _ Hl) as Hn. assert (Hrange : forall y, inside t y -> 0 <= y < arr_len (slots t)) by (intros; by apply inside_range).
  pose proof last_inside as Hlast. cbv zeta. unfold adopt. set (t1 := upd c (set_parent p) t).
  assert (A1 : forall y, at_ t1 y = if y =? c then set_parent p (at_ t y) else at_ t y) by (intros; by apply at_write, Hrange).
  assert (Hl1 : s_lastChild (at_ t1 p) = last) by (rewrite A1; by destruct (p =? c)). rewrite Hl1.
  assert (L1 : arr_len (slots t1) = arr_len (slots t)) by apply len_upd.
  assert (Hprev : last = NO_SLOT -> s_prev (at_ t c) = NO_SLOT) by (intros; by apply (lk_top _ _ Hl)).
  pose proof (inside_some t c Hc) as Hcs. pose proof (inside_some t p Hp) as Hps.
  destruct (last =? NO_SLOT) eqn:E; bool_facts.
  - specialize (Hprev E). rewrite at_write by (rewrite len_upd, L1; auto). rewrite !at_write by (rewrite L1; auto). rewrite !A1.
    destruct (x =? c) eqn:Exc, (x =? p) eqn:Exp, (x =? last) eqn:Exl; bool_facts; try congruence; cbn [andb negb]; cbn; try (subst x); split_and!; try done; try congruence.
    all: try (destruct (c =? NO_SLOT)); try (rewrite E); by cbn.
  - destruct (Hlast E) as (Hli & Hlc & Hlp). assert (Hpl : p <> last) by (by apply (not_own_parent t s)).
    rewrite at_write by (rewrite !len_upd, L1; auto). rewrite (at_write _ c) by (rewrite ?len_upd, L1; auto). rewrite !(at_write _ last) by (rewrite L1; auto). rewrite !A1.
    destruct (x =? c) eqn:Exc, (x =? p) eqn:Exp, (x =? last) eqn:Exl; bool_facts; try congruence; cbn [andb negb]; cbn; try (subst x); split_and!; try done; try congruence.
    all: try (rewrite (proj2 (Z.eqb_neq last NO_SLOT)) by done; done).
Qed.
End Adopt.

Lemma adopt_frame t s c p : linked t s -> inside t c -> inside t p -> c <> p -> s_parent (at_ t c) = NO_SLOT ->
  count (adopt c p t) = count t /\ arr_len (slots (adopt c p t)) = arr_len (slots t) /\ rootOrder (adopt c p t) = rootOrder t
  /\ rootAt (adopt c p t) = rootAt t /\ rootHoles (adopt c p t) = rootHoles t
  /\ resolveDirty (adopt c p t) = resolveDirty t /\ flushDirty (adopt c p t) = flushDirty t /\ resolvedChanged (adopt c p t) = resolvedChanged t.
Proof. intros. unfold adopt. cbv zeta. destruct (_ =? NO_SLOT); cbn; rewrite ?arr_len_set; by split_and!. Qed.

Lemma adopt_linked t s c p l : linked t s -> inside t c -> inside t p -> s_parent (at_ t c) = NO_SLOT -> line t p l -> c ∉ l ->
  linked (adopt c p t) (as_child c p s).
Proof.
  intros Hl Hc Hp Htop Hline Hclear. assert (Hcp : c <> p) by (intros ->; by apply Hclear, (line_head t)).
  pose proof (adopt_links t s c p Hl Hc Hp Hcp Htop) as Hx. destruct (adopt_frame t s c p Hl Hc Hp Hcp Htop) as (R1 & R2 & _). cbv zeta in Hx.
  pose proof (last_inside t s c p Hl Hc Hp Hcp Htop) as Hlast. set (t' := adopt c p t) in *.
  assert (Hin : forall i, inside t' i <-> inside t i) by (intros; unfold inside; by rewrite R1).
  destruct (lk_ends _ _ Hl p Hp) as [E1 E2]. pose proof (inside_some t p Hp) as Hps. pose proof (inside_some t c Hc) as Hcs.
  assert (Hck : forall q, c ∉ fo_kids s q) by (intros q (_ & K2 & K3)%(lk_kids _ _ Hl); congruence).
  split.
  - rewrite R1, R2. apply Hl.
  - intros q. cbn. destruct (q =? p) eqn:E; bool_facts.
    + subst q. apply seg_app. split.
      * apply (seg_close t t' NO_SLOT _ NO_SLOT); [apply Hl| |apply Hl]. intros x Hxk. destruct (Hx x) as (_ & X2 & X3 & _). rewrite X2, X3, E2.
        rewrite (proj2 (Z.eqb_neq x c)) by (intros ->; by apply (Hck p)). split; [done|]. apply (lk_kids _ _ Hl) in Hxk as (K1 & _ & _).
        rewrite (proj2 (Z.eqb_neq x NO_SLOT)) by (by apply (inside_some t)). rewrite andb_true_r. change (hd_or NO_SLOT [c]) with c. unfold lst_or.
        destruct (last (fo_kids s p)) as [y|]; cbn.
        -- destruct (x =? y) eqn:Exy; bool_facts; [by rewrite bool_decide_true by congruence|by rewrite bool_decide_false by congruence].
        -- rewrite bool_decide_false by done. by rewrite (proj2 (Z.eqb_neq x NO_SLOT)) by (by apply (inside_some t)).
      * cbn. destruct (Hx c) as (_ & X2 & X3 & _). rewrite X2, X3, Z.eqb_refl, E2. split_and!; try done.
        rewrite <- E2. destruct (c =? s_lastChild (at_ t p)) eqn:Ec; bool_facts.
        -- destruct Hlast as (_ & Hne & _); [congruence|congruence].
        -- cbn. by apply (lk_top _ _ Hl).
    + apply (seg_ext t); [|apply Hl]. intros x Hxk. destruct (Hx x) as (_ & X2 & X3 & _). rewrite X2, X3.
      rewrite (proj2 (Z.eqb_neq x c)) by (intros ->; by apply (Hck q)). apply (lk_kids _ _ Hl) in Hxk as (K1 & K2 & K3). split; [done|].
      destruct (x =? s_lastChild (at_ t p)) eqn:Exl; [|done]. bool_facts. subst x. rewrite (proj2 (Z.eqb_neq _ NO_SLOT)) by (by apply (inside_some t)). cbn.
      destruct Hlast as (_ & _ & Hlp); [by apply (inside_some t)|]. congruence.
  - intros q x. destruct (Hx x) as (X1 & _). rewrite Hin, X1. cbn. assert (Hk := lk_kids _ _ Hl q x). destruct (q =? p) eqn:E; bool_facts.
    + subst q. rewrite elem_of_app, list_elem_of_singleton, Hk. destruct (x =? c) eqn:Exc; bool_facts; [subst x; tauto|intuition congruence].
    + rewrite Hk. destruct (x =? c) eqn:Exc; bool_facts; [subst x; intuition congruence|done].
  - intros q Hq. apply Hin in Hq. destruct (Hx q) as (_ & _ & _ & X4 & X5 & _). destruct (lk_ends _ _ Hl q Hq) as [F1 F2]. rewrite X4, X5, F1, F2. cbn.
    destruct (q =? p) eqn:E; bool_facts; [|done]. subst q. rewrite lst_or_snoc, hd_or_app. split; [|done]. change (hd_or NO_SLOT [c]) with c. cbn [andb].
    rewrite E2. destruct (fo_kids s p) as [|y k] eqn:Ek; [done|]. change (hd_or NO_SLOT (y :: k)) with y. change (hd_or c (y :: k)) with y.
    destruct (lst_or NO_SLOT (y :: k) =? NO_SLOT) eqn:El; [|done]. bool_facts. exfalso. rewrite lst_or_cons in El.
    assert (Hin' : lst_or y k ∈ y :: k) by (destruct (decide (lst_or y k = y)) as [->|Hne]; [left|right; by apply lst_or_elem]).
    rewrite El, <- Ek in Hin'. apply (lk_kids _ _ Hl) in Hin' as (K & _). by apply (inside_some t) in K.
  - intros q. cbn. destruct (q =? p); [|apply Hl]. apply NoDup_snoc; split; [apply Hl|apply Hck].
  - intros x Hxi. apply Hin in Hxi. destruct (Hx x) as (X1 & _). rewrite Hin, X1. destruct (x =? c); [done|]. by apply (lk_up _ _ Hl).
  - intros x Hxi. apply Hin in Hxi. destruct (Hx x) as (X1 & X2 & X3 & _). rewrite X1, X2, X3. destruct (x =? c) eqn:Exc; [done|]. intros Hxp.
    destruct (x =? s_lastChild (at_ t p)) eqn:Exl; cbn; [|by apply (lk_top _ _ Hl)]. bool_facts. subst x.
    destruct Hlast as (_ & _ & Hlp); [by apply (inside_some t)|]. congruence.
  - intros x Hxi. apply Hin in Hxi. apply (anchored_moved t t' c).
    + intros y Hy. destruct (Hx y) as (-> & _). by rewrite (proj2 (Z.eqb_neq y c)).
    + destruct (Hx c) as (-> & _). rewrite Z.eqb_refl. apply (anchored_clear t t' c _ l); [|done|done].
      intros y Hy. destruct (Hx y) as (-> & _). by rewrite (proj2 (Z.eqb_neq y c)).
    + by apply (lk_tree _ _ Hl).
  - intros i Hi. rewrite Hin in Hi. assert (Heq : at_ t' i = at_ t i); [|rewrite Heq; by apply (lk_unused _ _ Hl)].
    destruct (Hx i) as (X1 & X2 & X3 & X4 & X5 & X6). rewrite (proj2 (Z.eqb_neq i c)) in * by congruence. rewrite (proj2 (Z.eqb_neq i p)) in * by congruence.
    assert (Hns : (i =? s_lastChild (at_ t p)) && negb (i =? NO_SLOT) = false).
    { destruct (i =? s_lastChild (at_ t p)) eqn:E; [|done]. bool_facts. destruct (i =? NO_SLOT) eqn:E'; [done|]. bool_facts. subst i. by destruct Hlast. }
    rewrite Hns in X2. by apply slot_ext.
Qed.

(** ** The root order *)

Record rooted (t : Graph) (rs : list Z) : Prop := {
  rt_list : filter (fun i => i <> NO_SLOT) (rootOrder t) = rs;
  rt_at i k : mget (rootAt t) i = Some k <-> i <> NO_SLOT /\ 0 <= k /\ rootOrder t !! Z.to_nat k = Some i;
  rt_keys : NoDup (mkeys (rootAt t));
  rt_holes : rootHoles t = arr_len (rootOrder t) - Z.of_nat (length rs) /\ rootHoles t <= Z.of_nat (length rs);
}.

Lemma elem_of_rooted t rs i : rooted t rs -> i ∈ rs <-> is_Some (mget (rootAt t) i).
Proof.
  intros [H1 H2 _ _]. rewrite <- H1, list_elem_of_filter. split.
  - intros [Hi (n & Hn)%list_elem_of_lookup]. exists (Z.of_nat n). apply H2. split_and!; [done|lia|by rewrite Nat2Z.id].
  - intros [k (Hi & _ & Hk)%H2]. split; [done|]. by eapply list_elem_of_lookup_2.
Qed.

Lemma rooted_nodup t rs : rooted t rs -> NoDup rs.
Proof.
  intros [H1 H2 _ _]. rewrite <- H1. assert (Hi : forall i j x, rootOrder t !! i = Some x -> rootOrder t !! j = Some x -> x <> NO_SLOT -> i = j).
  { intros i j x Hi Hj Hx. assert (K1 : mget (rootAt t) x = Some (Z.of_nat i)) by (apply H2; rewrite Nat2Z.id; split_and!; [done|lia|done]).
    assert (K2 : mget (rootAt t) x = Some (Z.of_nat j)) by (apply H2; rewrite Nat2Z.id; split_and!; [done|lia|done]). rewrite K1 in K2. injection K2. lia. }
  clear - Hi. induction (rootOrder t) as [|x l IH]; [constructor|]. rewrite filter_cons. specialize (IH (fun i j y Hy Hz Hn => Nat.succ_inj _ _ (Hi (S i) (S j) y Hy Hz Hn))).
  destruct (decide (x <> NO_SLOT)) as [Hx|Hx]; [|done]. apply NoDup_cons. split; [|done]. intros [_ (n & Hn)%list_elem_of_lookup]%list_elem_of_filter.
  by specialize (Hi 0%nat (S n) x eq_refl Hn Hx).
Qed.

Lemma rooted_same t t' rs : rootOrder t' = rootOrder t -> rootAt t' = rootAt t -> rootHoles t' = rootHoles t -> rooted t rs -> rooted t' rs.
Proof. intros H1 H2 H3 [A B C D]. split; by rewrite ?H1, ?H2, ?H3. Qed.

Lemma size_keys t rs : rooted t rs -> msize (rootAt t) = length rs.
Proof.
  intros Hr. assert (Hp : Permutation (mkeys (rootAt t)) rs).
  { apply NoDup_Permutation; [apply Hr|by apply (rooted_nodup t)|]. intros x. rewrite (elem_of_rooted t rs x Hr). symmetry. apply mget_is_Some. }
  apply Permutation_length in Hp. unfold mkeys in Hp. by rewrite length_fmap in Hp.
Qed.

Lemma addRoot_rooted t rs i : rooted t rs -> i <> NO_SLOT -> rooted (addRoot i t) (if decide (i ∈ rs) then rs else rs ++ [i]).
Proof.
  intros Hr Hi. unfold addRoot. destruct (mhas (rootAt t) i) eqn:E.
  - apply mhas_spec, mget_is_Some in E. rewrite decide_True by (by apply (elem_of_rooted t)). done.
  - assert (Hn : i ∉ rs). { intros Hin. apply (elem_of_rooted t rs i Hr), mget_is_Some, mhas_spec in Hin. congruence. }
    rewrite decide_False by done. pose proof Hr as [H1 H2 H3 [H4 H5]]. split; cbn [rootOrder rootAt rootHoles with_roots].
    + rewrite filter_app, H1. by rewrite filter_cons, decide_True by done.
    + intros j k. rewrite mget_mset. destruct (decide (i = j)) as [<-|Hne].
      * split; [intros [= <-]; split_and!; [done|unfold arr_len; lia|]; unfold arr_len; rewrite Nat2Z.id; by apply list_lookup_middle|].
        intros (_ & Hk & Hl). f_equal. destruct (decide (Z.to_nat k < length (rootOrder t))%nat) as [Hlt|Hge].
        -- rewrite lookup_app_l in Hl by done. exfalso. apply Hn. rewrite <- H1. apply list_elem_of_filter. split; [done|]. by eapply list_elem_of_lookup_2.
        -- apply lookup_lt_Some in Hl. rewrite length_app in Hl. simpl in Hl. unfold arr_len. lia.
      * rewrite H2. split; intros (A & B & C); split_and!; try done; [by apply lookup_app_l_Some|].
        destruct (decide (Z.to_nat k < length (rootOrder t))%nat) as [Hlt|Hge]; [by rewrite lookup_app_l in C by done|].
        rewrite lookup_app_r in C by lia. destruct (Z.to_nat k - length (rootOrder t))%nat; [simpl in C; congruence|done].
    + by apply NoDup_mset.
    + rewrite arr_len_snoc, length_app. simpl. lia.
Qed.

Lemma filter_filter_same (P : Z -> Prop) `{forall x, Decision (P x)} (l : list Z) : filter P (filter P l) = filter P l.
Proof. induction l as [|x l IH]; [done|]. rewrite !filter_cons. destruct (decide (P x)) eqn:E; [|done]. rewrite filter_cons, E. by f_equal. Qed.

Lemma compact_spec l : forall m acc,
  NoDup (acc ++ filter (fun i => i <> NO_SLOT) l) -> NoDup (mkeys m) ->
  (forall k j, acc !! k = Some j -> mget m j = Some (Z.of_nat k)) ->
  let '(m', live) := foldl compact_one (m, acc) l in
  live = acc ++ filter (fun i => i <> NO_SLOT) l /\ NoDup (mkeys m')
  /\ (forall k j, live !! k = Some j -> mget m' j = Some (Z.of_nat k)) /\ (forall j, j ∉ live -> mget m' j = mget m j).
Proof.
  induction l as [|i l IH]; intros m acc Hnd Hk Hm; cbn [foldl]; [by rewrite app_nil_r|]. rewrite filter_cons in *. unfold compact_one at 2. cbn [fst snd].
  destruct (i =? NO_SLOT) eqn:E; bool_facts; [rewrite decide_False in * by tauto; by apply IH|]. rewrite decide_True in * by done.
  specialize (IH (mset m i (arr_len acc)) (acc ++ [i])). rewrite <- app_assoc in IH. cbn [app] in IH.
  assert (Hi : i ∉ acc) by (apply NoDup_app in Hnd as (_ & Hd & _); intros Hin; apply (Hd i Hin); left).
  specialize (IH Hnd (NoDup_mset _ _ _ Hk)). destruct (foldl compact_one _ l) as [m' live]. destruct IH as (H1 & H2 & H3 & H4).
  - intros k j Hj. rewrite mget_mset. destruct (decide (i = j)) as [<-|Hne].
    + f_equal. unfold arr_len. f_equal. apply lookup_app_Some in Hj as [Hj|[Hge Hj]]; [by apply list_elem_of_lookup_2 in Hj|].
      destruct (k - length acc)%nat eqn:Ek; [lia|done].
    + apply Hm. apply lookup_app_Some in Hj as [Hj|[Hge Hj]]; [done|]. destruct (k - length acc)%nat; [simpl in Hj; congruence|done].
  - split_and!; try done. intros j Hj. rewrite H4 by done. rewrite mget_mset_ne; [done|]. intros ->. apply Hj. rewrite H1. apply elem_of_app. right. left.
Qed.

Lemma tombstone_ok t rs i k : rooted t rs -> mget (rootAt t) i = Some k ->
  let t1 := with_roots (arr_set (rootOrder t) k NO_SLOT) (mdel (rootAt t) i) (rootHoles t + 1) t in
  filter (fun i => i <> NO_SLOT) (rootOrder t1) = filter (fun x => x <> i) rs
  /\ (forall j n, mget (rootAt t1) j = Some n <-> j <> NO_SLOT /\ 0 <= n /\ rootOrder t1 !! Z.to_nat n = Some j)
  /\ NoDup (mkeys (rootAt t1)) /\ rootHoles t1 = arr_len (rootOrder t1) - Z.of_nat (length (filter (fun x => x <> i) rs))
  /\ msize (rootAt t1) = length (filter (fun x => x <> i) rs).
Proof.
  intros Hr E t1.
  pose proof Hr as [H1 H2 H3 [H4 H5]]. pose proof (rooted_nodup t rs Hr) as Hnd. pose proof (proj1 (H2 i k) E) as (Hi & Hk & Hl).
  pose proof (size_keys t rs Hr) as Hsz. assert (Hirs : i ∈ rs) by (apply (elem_of_rooted t rs i Hr); by exists k).
  apply list_elem_of_split_length in Hl as (l1 & l2 & Hl & Hlen).
  assert (Hset : arr_set (rootOrder t) k NO_SLOT = l1 ++ NO_SLOT :: l2).
  { unfold arr_set. rewrite (proj2 (Z.leb_le 0 k)) by lia. rewrite Hl, Hlen. rewrite insert_app_r_alt by lia. by rewrite Nat.sub_diag. }
  assert (Hrs : filter (fun x => x <> i) rs = filter (fun x => x <> NO_SLOT) l1 ++ filter (fun x => x <> NO_SLOT) l2).
  { rewrite <- H1, Hl, filter_app, filter_cons, decide_True by done. rewrite <- H1, Hl, filter_app, filter_cons, decide_True in Hnd by done.
    apply NoDup_app in Hnd as (N1 & N2 & [N3 N4]%NoDup_cons). apply filter_mid; [intros Hin; apply (N2 i Hin); left|done]. }
  assert (Hlen' : length rs = S (length (filter (fun x => x <> i) rs))).
  { rewrite Hrs, <- H1, Hl, filter_app, filter_cons, decide_True by done. rewrite !length_app. simpl. lia. }
  unfold t1. cbn [rootOrder rootAt rootHoles with_roots]. split_and!.
  - rewrite Hset, Hrs, filter_app, filter_cons, decide_False by tauto. done.
  - intros j n. rewrite mget_mdel. destruct (decide (i = j)) as [<-|Hne].
    + split; [done|]. intros (_ & Hn & Hx). exfalso. assert (K : is_Some (mget (rootAt t) i)) by by eexists.
      unfold arr_set in Hx. rewrite (proj2 (Z.leb_le 0 k)) in Hx by lia. destruct (decide (Z.to_nat k = Z.to_nat n)) as [Heq|Hd].
      * rewrite <- Heq, list_lookup_insert_eq in Hx by (rewrite Hl, length_app; simpl; lia). congruence.
      * rewrite list_lookup_insert_ne in Hx by done. assert (K2 : mget (rootAt t) i = Some n) by (by apply H2). rewrite E in K2. congruence.
    + rewrite H2. unfold arr_set. rewrite (proj2 (Z.leb_le 0 k)) by lia. split; intros (A & B & C); split_and!; try done.
      * rewrite list_lookup_insert_ne; [done|]. intros Heq. rewrite <- Heq, Hl, Hlen in C. rewrite list_lookup_middle in C by done. congruence.
      * destruct (decide (Z.to_nat k = Z.to_nat n)) as [Heq|Hd]; [|by rewrite list_lookup_insert_ne in C].
        rewrite <- Heq, list_lookup_insert_eq in C by (rewrite Hl, length_app; simpl; lia). congruence.
  - by apply NoDup_mdel.
  - rewrite arr_len_set. lia.
  - pose proof (mkeys_mdel (rootAt t) i) as Hmk. assert (Hp : Permutation (mkeys (mdel (rootAt t) i)) (filter (fun x => x <> i) rs)).
    { apply NoDup_Permutation; [by apply NoDup_mdel|by apply NoDup_filter|]. intros x. rewrite Hmk, elem_of_sdel, list_elem_of_filter.
      rewrite (elem_of_rooted t rs x Hr), <- mget_is_Some. tauto. }
    apply Permutation_length in Hp. unfold mkeys in Hp. by rewrite length_fmap in Hp.
Qed.

Lemma removeRoot_rooted t rs i : rooted t rs -> rooted (removeRoot i t) (filter (fun x => x <> i) rs).
Proof.
  intros Hr. unfold removeRoot. destruct (mget (rootAt t) i) as [k|] eqn:E.
  2: { rewrite filter_out; [done|]. intros Hin. apply (elem_of_rooted t rs i Hr) in Hin. rewrite E in Hin. by destruct Hin. }
  destruct (tombstone_ok t rs i k Hr E) as (A1 & A2 & A3 & A4 & A5). set (t1 := with_roots _ _ _ t) in *. clearbody t1.
  rewrite A5. destruct (_ <? rootHoles t1) eqn:Eh; bool_facts; [|by split].
  unfold compactRoots. assert (Hnd1 : NoDup ([] ++ filter (fun i => i <> NO_SLOT) (rootOrder t1))) by (rewrite A1; by apply NoDup_filter, (rooted_nodup t)).
  pose proof (compact_spec (rootOrder t1) (rootAt t1) [] Hnd1 A3 ltac:(done)) as Hc. destruct (foldl compact_one _ _) as [m live]. destruct Hc as (C1 & C2 & C3 & C4).
  cbn [app] in C1. assert (Hno : forall j, j ∈ live -> j <> NO_SLOT) by (intros j; rewrite C1, list_elem_of_filter; tauto).
  split; cbn [rootOrder rootAt rootHoles with_roots].
  - rewrite C1, filter_filter_same. exact A1.
  - intros j n. split.
    + intros Hj. destruct (decide (j ∈ live)) as [Hin|Hout].
      * apply list_elem_of_lookup in Hin as [q Hq]. pose proof (C3 q j Hq) as Hjq. rewrite Hjq in Hj. injection Hj as <-. rewrite Nat2Z.id.
        split_and!; [|lia|done]. apply Hno. by eapply list_elem_of_lookup_2.
      * exfalso. rewrite C4 in Hj by done. apply A2 in Hj as (J1 & J2 & J3). apply Hout. rewrite C1. apply list_elem_of_filter. split; [done|]. by eapply list_elem_of_lookup_2.
    + intros (J1 & J2 & J3). rewrite (C3 _ _ J3). f_equal. lia.
  - done.
  - rewrite C1, A1. unfold arr_len. lia.
Qed.

(** ** The graph and the forest it stands for *)

Record scene (t : Graph) (s : Forest) : Prop := {
  sc_linked : linked t s;
  sc_rooted : rooted t (fo_roots s);
  sc_roots i : i ∈ fo_roots s -> inside t i /\ s_parent (at_ t i) = NO_SLOT;
  sc_free i : inside t i -> s_parent (at_ t i) = NO_SLOT -> i ∉ fo_roots s -> fo_kids s i = [];
}.

Definition child_in (s : Forest) (p c : Z) : Prop := c ∈ fo_kids s p.
Definition under (s : Forest) (a x : Z) : Prop := rtc (child_in s) a x.
#[export] Instance under_preorder s : PreOrder (under s) := rtc_po.

(** A slot that holds a node. *)
Definition live (t : Graph) (i : Z) : bool := has t i && (negb (s_parent (at_ t i) =? NO_SLOT) || mhas (rootAt t) i).

Lemma kids_spec t s p : linked t s -> inside t p -> kids_of t p = fo_kids s p.
Proof.
  intros Hl Hp. unfold kids_of. destruct (lk_ends _ _ Hl p Hp) as [-> _].
  assert (Hk : forall x, x ∈ fo_kids s p -> inside t x) by (intros x Hx; by apply (lk_kids _ _ Hl) in Hx as (? & _)).
  apply (siblings_seg t NO_SLOT); [intros x Hx; by apply (inside_some t), Hk|apply Hl|]. apply bounded_length; [apply Hl|exact Hk].
Qed.

Lemma children_spec t s p : linked t s -> children t p = fo_kids s p.
Proof.
  intros Hl. unfold children. destruct (has t p) eqn:E; [by apply kids_spec, has_inside|].
  destruct (fo_kids s p) as [|c k] eqn:Ek; [done|]. assert (Hc : c ∈ fo_kids s p) by (rewrite Ek; left).
  apply (lk_kids _ _ Hl) in Hc as (K1 & K2 & K3). pose proof (lk_up _ _ Hl c K1) as Hu. rewrite K2 in Hu. apply has_inside in Hu; [congruence|done].
Qed.

Lemma roots_spec t s : scene t s -> roots t = fo_roots s.
Proof.
  intros [Hl Hr Hs _]. unfold roots. rewrite <- (rt_list _ _ Hr). apply filter_ext_in. intros i Hi. split; [tauto|]. intros Hne.
  assert (Hin : i ∈ fo_roots s) by (rewrite <- (rt_list _ _ Hr); by apply list_elem_of_filter). destruct (Hs i Hin) as [H1 H2]. by rewrite (proj2 (has_inside t i) H1).
Qed.

Lemma live_spec t s i : scene t s -> live t i = true <-> i ∈ fo_roots s \/ exists p, i ∈ fo_kids s p.
Proof.
  intros [Hl Hr Hs _]. unfold live. rewrite andb_true_iff, has_inside, orb_true_iff, negb_true_iff, Z.eqb_neq, mhas_spec, <- mget_is_Some, <- (elem_of_rooted t _ i Hr). split.
  - intros [Hi [Hp|Hin]]; [right; exists (s_parent (at_ t i)); by apply (lk_kids _ _ Hl)|by left].
  - intros [Hin|[p Hin]]; [split; [by apply Hs|by right]|]. apply (lk_kids _ _ Hl) in Hin as (K1 & K2 & K3). split; [done|]. left. congruence.
Qed.

Lemma line_under t s a i l : linked t s -> inside t i -> line t i l -> a ∈ l <-> under s a i.
Proof.
  intros Hl Hi H. split.
  - induction H as [i Hp|i l Hp H IH]; intros Ha; [apply list_elem_of_singleton in Ha as ->; apply rtc_refl|].
    apply elem_of_cons in Ha as [->|Ha]; [apply rtc_refl|]. eapply rtc_r; [apply IH; [by apply (lk_up _ _ Hl)|done]|]. by apply (lk_kids _ _ Hl).
  - intros Hu. revert l Hi H. refine (rtc_ind_r (fun x => forall l, inside t x -> line t x l -> a ∈ l) a _ _ i Hu).
    + intros l _ H. by apply (line_head t).
    + intros y z _ Hyz IH l Hz H. apply (lk_kids _ _ Hl) in Hyz as (K1 & K2 & K3). inversion H; subst; [congruence|]. right.
      apply IH; [|done]. apply (lk_up _ _ Hl); [done|congruence].
Qed.

(** ** Each edit, as the forest sees it *)

Lemma detach_roots t c : rootOrder (detach c t) = rootOrder (if s_parent (at_ t c) =? NO_SLOT then removeRoot c t else t)
  /\ rootAt (detach c t) = rootAt (if s_parent (at_ t c) =? NO_SLOT then removeRoot c t else t)
  /\ rootHoles (detach c t) = rootHoles (if s_parent (at_ t c) =? NO_SLOT then removeRoot c t else t).
Proof.
  unfold detach. set (t1 := if s_prev (at_ t c) =? NO_SLOT then t else _). set (t2 := if s_next (at_ t c) =? NO_SLOT then t1 else _).
  assert (H1 : rootOrder t2 = rootOrder t /\ rootAt t2 = rootAt t /\ rootHoles t2 = rootHoles t).
  { unfold t2, t1. destruct (s_next (at_ t c) =? NO_SLOT), (s_prev (at_ t c) =? NO_SLOT); done. }
  destruct H1 as (R1 & R2 & R3). destruct (s_parent (at_ t c) =? NO_SLOT).
  - cbn. unfold removeRoot. rewrite R2. destruct (mget (rootAt t) c); [|done]. cbn. rewrite R1, R3. destruct (_ <? _); [|done].
    unfold compactRoots. cbn. by destruct (foldl _ _ _).
  - cbv zeta. cbn. destruct (s_firstChild (at_ t2 (s_parent (at_ t c))) =? c), (s_lastChild _ =? c); cbn; by rewrite R1, R2, R3.
Qed.

Lemma detach_scene t s c : scene t s -> inside t c ->
  linked (detach c t) (without c s) /\ rooted (detach c t) (fo_roots (without c s)) /\ s_parent (at_ (detach c t) c) = NO_SLOT
  /\ (forall i, i ∈ fo_roots (without c s) -> inside (detach c t) i /\ s_parent (at_ (detach c t) i) = NO_SLOT)
  /\ (forall i, i <> c -> inside t i -> s_parent (at_ (detach c t) i) = s_parent (at_ t i)).
Proof.
  intros [Hl Hr Hs Hf] Hc. destruct (detach_linked t s c Hl Hc) as [Hl' Htop]. pose proof (detach_relinked t s c Hl Hc) as [R1 R2 R3 R4].
  assert (Hpar : forall i, i <> c -> s_parent (at_ (detach c t) i) = s_parent (at_ t i)).
  { intros i Hi. destruct (detach_links t s c Hl Hc i) as (X1 & _). by rewrite X1, (proj2 (Z.eqb_neq i c)). }
  split; [done|]. split; [|split; [done|split; [|auto]]].
  - destruct (detach_roots t c) as (D1 & D2 & D3). destruct (s_parent (at_ t c) =? NO_SLOT) eqn:E; bool_facts.
    + apply (rooted_same (removeRoot c t)); [done..|]. by apply removeRoot_rooted.
    + apply (rooted_same t); [done..|]. cbn. rewrite filter_out; [done|]. intros Hin. by destruct (Hs c Hin).
  - intros i Hi. cbn in Hi. apply list_elem_of_filter in Hi as [Hne Hi]. destruct (Hs i Hi) as [H1 H2]. unfold inside. rewrite R1, Hpar by done. done.
Qed.

(** Nothing but the arrays and the root order matters. *)
Lemma seg_at t t' l : (forall x, at_ t' x = at_ t x) -> forall prev next, seg t prev l next -> seg t' prev l next.
Proof. intros Ha prev next. apply seg_ext. intros x _. by rewrite Ha. Qed.

Lemma linked_at t t' s : (forall x, at_ t' x = at_ t x) -> count t' = count t -> arr_len (slots t') = arr_len (slots t) -> linked t s -> linked t' s.
Proof.
  intros Ha Hc Hn [L1 L2 L3 L4 L5 L6 L7 L8 L9]. assert (Hin : forall x, inside t' x <-> inside t x) by (intros; unfold inside; by rewrite Hc).
  split; try (intros; rewrite ?Ha, ?Hin in *; eauto; fail).
  - by rewrite Hc, Hn.
  - intros p. by apply (seg_at t).
  - intros c Hi. apply Hin in Hi. specialize (L8 c Hi). clear Hi. induction L8 as [i Hp|i Hp IH]; [apply anchored_top|apply anchored_under]; by rewrite Ha.
Qed.

Lemma scene_at t t' s : (forall x, at_ t' x = at_ t x) -> count t' = count t -> arr_len (slots t') = arr_len (slots t) ->
  rootOrder t' = rootOrder t -> rootAt t' = rootAt t -> rootHoles t' = rootHoles t -> scene t s -> scene t' s.
Proof.
  intros Ha Hc Hn H1 H2 H3 [Hl Hr Hs Hf]. assert (Hin : forall x, inside t' x <-> inside t x) by (intros; unfold inside; by rewrite Hc).
  split; [by apply (linked_at t)|by apply (rooted_same t)| |]; intros i; rewrite Hin, Ha; auto.
Qed.

Lemma scene_same t t' s : slots t' = slots t -> count t' = count t -> rootOrder t' = rootOrder t -> rootAt t' = rootAt t -> rootHoles t' = rootHoles t ->
  scene t s -> scene t' s.
Proof. intros H1 H2 H3 H4 H5. apply scene_at; try done; [intros x; by apply at_same|by rewrite H1]. Qed.

Lemma scene_dirty t s c : scene t s -> scene (dirty_resolve c (dirty_flush c t)) s.
Proof. by apply scene_same. Qed.

(** What [link] does to a forest. *)
Inductive linked_as (s : Forest) (c p : Z) : Forest -> Prop :=
  | linked_root : p = NO_SLOT -> linked_as s c p (as_root c (without c s))
  | linked_under : p <> NO_SLOT -> ~ under s c p -> linked_as s c p (as_child c p (without c s))
  | linked_cycle : p <> NO_SLOT -> under s c p -> linked_as s c p s.

Lemma live_inside t i : live t i = true -> inside t i.
Proof. unfold live. rewrite andb_true_iff, has_inside. tauto. Qed.

Lemma not_below_itself t s c p : linked t s -> inside t p -> c <> p -> s_parent (at_ t c) = p -> p <> NO_SLOT -> inside t c -> ~ under s c p.
Proof.
  intros Hl Hp Hne Hcp Hn Hc Hu. destruct (has_line t s p Hl Hp) as (l & H & _). apply (line_under t s c p l Hl Hp H) in Hu.
  assert (H' : line t c (c :: l)) by (apply line_up; [congruence|by rewrite Hcp]). apply line_nodup, NoDup_cons in H' as [? _]. done.
Qed.

Lemma root_scene t s c : scene t s -> inside t c -> scene (addRoot c (upd c (set_parent NO_SLOT) (detach c t))) (as_root c (without c s)).
Proof.
  intros Hsc Hc. pose proof Hsc as [Hl _ _ Hf]. pose proof (inside_some t c Hc) as Hcs. destruct (detach_scene t s c Hsc Hc) as (D1 & D2 & D3 & D4 & D5).
  pose proof (detach_relinked t s c Hl Hc) as [R1 R2 _ _]. set (t1 := detach c t) in *. clearbody t1.
  assert (Hin : forall i, inside t1 i <-> inside t i) by (intros; unfold inside; by rewrite R1). assert (Hc1 : inside t1 c) by by apply Hin.
  set (t2 := upd c (set_parent NO_SLOT) t1). assert (Ha : forall x, at_ t2 x = at_ t1 x).
  { intros x. unfold t2. rewrite at_write by (apply inside_range; [apply D1|done]). destruct (x =? c) eqn:E; [|done]. bool_facts. subst x. destruct (at_ t1 c) eqn:Ea; cbn in *. by subst. }
  assert (L2 : linked t2 (without c s)) by (apply (linked_at t1); [done|done|apply len_upd|done]).
  assert (Rr : rooted t2 (fo_roots (without c s))) by by apply (rooted_same t1).
  destruct (addRoot_slots c t2) as (A1 & A2 & _). pose proof (addRoot_rooted t2 _ c Rr Hcs) as Hrr. rewrite decide_False in Hrr by (cbn; rewrite list_elem_of_filter; tauto). split.
  - assert (Hx : linked (addRoot c t2) (without c s)) by (apply (linked_at t2); [intros x; by apply at_same|done|by rewrite A1|done]). destruct Hx. by split.
  - exact Hrr.
  - intros i Hi. cbn in Hi. unfold inside. rewrite (at_same t2 (addRoot c t2) i A1), A2, Ha. change (count t2) with (count t1).
    apply elem_of_app in Hi as [Hi|Hi%list_elem_of_singleton]; [by apply D4|by subst].
  - intros i Hi Htop Hn. cbn in *. unfold inside in Hi. rewrite A2 in Hi. change (count t2) with (count t1) in Hi. rewrite (at_same t2 (addRoot c t2) i A1), Ha in Htop.
    destruct (decide (i = c)) as [->|Hne]; [exfalso; apply Hn, elem_of_app; right; left|].
    rewrite Hf; [done|by apply Hin|by rewrite <- D5 by (by apply Hin || done)|]. intros Hi'. apply Hn, elem_of_app. left. by apply list_elem_of_filter.
Qed.

Lemma child_scene t s c p l : scene t s -> inside t c -> live t p = true -> c <> p -> p <> NO_SLOT -> line t p l -> c ∉ l ->
  scene (adopt c p (detach c t)) (as_child c p (without c s)).
Proof.
  intros Hsc Hc Hpl Ecp Ep Hline Eu. pose proof Hsc as [Hl Hr _ Hf]. pose proof (live_inside t p Hpl) as Hp. destruct (detach_scene t s c Hsc Hc) as (D1 & D2 & D3 & D4 & D5).
  pose proof (detach_relinked t s c Hl Hc) as [R1 R2 _ _]. set (t1 := detach c t) in *. clearbody t1.
  assert (Hin : forall i, inside t1 i <-> inside t i) by (intros; unfold inside; by rewrite R1). assert (Hc1 : inside t1 c) by by apply Hin. assert (Hp1 : inside t1 p) by by apply Hin.
  assert (Hline1 : line t1 p l).
  { clear - Hline Eu D5 Hl Hp. induction Hline as [i Hi|i l Hi H IH]; apply not_elem_of_cons in Eu as [E1 E2].
    - apply line_top. rewrite D5 by (done || congruence). done.
    - apply line_up; rewrite D5 by (done || congruence); [done|]. apply IH; [done|by apply (lk_up _ _ Hl)]. }
  destruct (adopt_frame t1 _ c p D1 Hc1 Hp1 Ecp D3) as (F1 & F2 & F3 & F4 & F5 & _).
  assert (Hpar : forall i, s_parent (at_ (adopt c p t1) i) = if i =? c then p else s_parent (at_ t1 i)) by (intros i; by destruct (adopt_links t1 _ c p D1 Hc1 Hp1 Ecp D3 i)).
  split; [by apply (adopt_linked t1 _ c p l)|by apply (rooted_same t1)| |].
  - intros i Hi. cbn in Hi. unfold inside. rewrite F1, Hpar. assert (Hic : i <> c) by (apply list_elem_of_filter in Hi; tauto).
    rewrite (proj2 (Z.eqb_neq i c) Hic). by apply D4.
  - intros i Hi Htop Hn. unfold inside in Hi. rewrite F1 in Hi. rewrite Hpar in Htop. destruct (i =? c) eqn:E; bool_facts; [done|]. cbn in *.
    destruct (i =? p) eqn:Eip; bool_facts.
    + subst i. exfalso. unfold live in Hpl. rewrite (proj2 (has_inside t p) Hp), D5 in * by done. rewrite Htop, Z.eqb_refl in Hpl. cbn in Hpl.
      apply mhas_spec, mget_is_Some, (elem_of_rooted t _ p Hr) in Hpl. apply Hn, list_elem_of_filter. split; [congruence|done].
    + rewrite Hf; [done|by apply Hin|by rewrite <- D5 by (by apply Hin || done)|]. intros Hi'. apply Hn. by apply list_elem_of_filter.
Qed.

Lemma link_scene t s c p : scene t s -> live t c = true -> p = NO_SLOT \/ live t p = true ->
  exists s', scene (link c p t) s' /\ linked_as s c p s'.
Proof.
  intros Hsc Hcl Hpl. pose proof (sc_linked _ _ Hsc) as Hl. pose proof (live_inside t c Hcl) as Hc.
  unfold link. rewrite (proj2 (has_inside t c) Hc). cbn [negb]. destruct (p =? NO_SLOT) eqn:Ep; bool_facts; cbn [negb andb].
  - subst p. rewrite (proj2 (Z.eqb_neq c NO_SLOT)) by (by apply (inside_some t)). exists (as_root c (without c s)). split; [by apply scene_dirty, root_scene|by apply linked_root].
  - destruct Hpl as [?|Hpl]; [done|]. pose proof (live_inside t p Hpl) as Hp. rewrite (proj2 (has_inside t p) Hp). cbn [negb].
    destruct (c =? p) eqn:Ecp; bool_facts; [subst p; exists s; split; [done|apply linked_cycle; [done|apply rtc_refl]]|].
    destruct (has_line t s p Hl Hp) as (l & Hline & _). rewrite (isAncestorOf_line t s c p l Hl Hc Hp Hline).
    pose proof (line_under t s c p l Hl Hp Hline) as Hu. destruct (bool_decide (c ∈ l)) eqn:Eu; bool_facts; [exists s; split; [done|by apply linked_cycle, Hu]|].
    exists (as_child c p (without c s)). split; [by apply scene_dirty, (child_scene t s c p l)|]. apply linked_under; [done|by rewrite <- Hu].
Qed.

(** ** Taking a slot *)

Lemma ensure_slots n t : let t' := ensure n t in
  (forall x, at_ t' x = at_ t x) /\ n <= arr_len (slots t') /\ arr_len (slots t) <= arr_len (slots t') /\ count t' = count t
  /\ rootOrder t' = rootOrder t /\ rootAt t' = rootAt t /\ rootHoles t' = rootHoles t /\ resolveDirty t' = resolveDirty t.
Proof.
  cbv zeta. unfold ensure. destruct (n <=? arr_len (slots t)) eqn:E; bool_facts; [by split_and!|]. cbn.
  destruct (grownCapacity_ge (arr_len (slots t)) n) as [Hge _]; [unfold arr_len; lia|]. split_and!; try done.
  - intros x. unfold at_. cbn. unfold arr_get. destruct (0 <=? x) eqn:Ex; [|done]. bool_facts.
    destruct (decide (Z.to_nat x < length (slots t))%nat) as [Hlt|Hge'].
    + by rewrite lookup_app_l.
    + rewrite lookup_app_r by lia. rewrite (lookup_ge_None_2 (slots t)) by lia. by destruct (replicate _ _ !! _) eqn:El; [apply lookup_replicate in El as [-> _]|].
  - unfold arr_len in *. rewrite length_app, length_replicate. lia.
  - unfold arr_len. rewrite length_app. lia.
Qed.

Lemma unused_links t s i : linked t s -> ~ inside t i -> s_parent (at_ t i) = NO_SLOT /\ s_firstChild (at_ t i) = NO_SLOT
  /\ s_lastChild (at_ t i) = NO_SLOT /\ s_prev (at_ t i) = NO_SLOT /\ s_next (at_ t i) = NO_SLOT.
Proof. intros Hl Hi. destruct (lk_unused _ _ Hl i Hi) as [-> | ->]; by split_and!. Qed.

Lemma no_kids_outside t s p : linked t s -> ~ inside t p -> fo_kids s p = [].
Proof.
  intros Hl Hp. destruct (fo_kids s p) as [|c k] eqn:E; [done|]. exfalso. assert (Hc : c ∈ fo_kids s p) by (rewrite E; left).
  apply (lk_kids _ _ Hl) in Hc as (K1 & K2 & K3). apply Hp. rewrite <- K2. apply (lk_up _ _ Hl); [done|congruence].
Qed.

Lemma not_live t s i : scene t s -> live t i = false -> (i ∉ fo_roots s) /\ (forall p, i ∉ fo_kids s p) /\ s_parent (at_ t i) = NO_SLOT /\ fo_kids s i = [].
Proof.
  intros Hsc Hn. pose proof Hsc as [Hl Hr Hs Hf].
  assert (H1 : i ∉ fo_roots s) by (intros Hin; assert (live t i = true) by (apply (live_spec t s); auto); congruence).
  assert (H2 : forall p, i ∉ fo_kids s p) by (intros p Hin; assert (live t i = true) by (apply (live_spec t s); eauto); congruence).
  split; [done|]. split; [done|]. destruct (has t i) eqn:E.
  - apply has_inside in E. assert (Hp : s_parent (at_ t i) = NO_SLOT).
    { destruct (decide (s_parent (at_ t i) = NO_SLOT)) as [|Hp]; [done|]. exfalso. apply (H2 (s_parent (at_ t i))). by apply (lk_kids _ _ Hl). }
    split; [done|]. by apply Hf.
  - assert (Hi : ~ inside t i) by (rewrite <- has_inside, E; done). split; [by apply (unused_links t s)|by apply (no_kids_outside t s)].
Qed.

(** A slot that holds nothing, put back to its defaults within a larger count. *)
Lemma fresh_linked t t' s i : linked t s -> s_parent (at_ t i) = NO_SLOT -> (forall p, i ∉ fo_kids s p) -> fo_kids s i = [] ->
  (forall x, at_ t' x = if x =? i then default_slot else at_ t x) -> count t <= count t' <= arr_len (slots t') -> 0 <= count t -> linked t' s.
Proof.
  intros Hl Hp Hk Hkk Ha Hc Hc0. pose proof (lk_count _ _ Hl) as Hn. assert (Hin : forall x, inside t x -> inside t' x) by (unfold inside; lia).
  assert (Hpar : forall x, s_parent (at_ t' x) = s_parent (at_ t x)) by (intros x; rewrite Ha; destruct (x =? i) eqn:E; [bool_facts; by subst|done]).
  assert (Hout : forall x, ~ inside t x -> s_parent (at_ t x) = NO_SLOT) by (intros; by apply (unused_links t s)).
  split.
  - lia.
  - intros p. apply (seg_ext t); [|apply Hl]. intros x Hx. rewrite Ha. destruct (x =? i) eqn:E; [|done]. bool_facts. subst. by destruct (Hk p).
  - intros p c. rewrite (lk_kids _ _ Hl), Hpar. split; [intros (A & B & C); auto|]. intros (A & B & C). split_and!; try done.
    destruct (has t c) eqn:E; [by apply has_inside|]. exfalso. apply C. rewrite <- B. apply Hout. by rewrite <- has_inside, E.
  - intros p _. rewrite Ha. destruct (p =? i) eqn:E; bool_facts; [subst; by rewrite Hkk|]. destruct (has t p) eqn:E'.
    + apply has_inside in E'. by apply (lk_ends _ _ Hl).
    + assert (Hip : ~ inside t p) by (by rewrite <- has_inside, E'). rewrite (no_kids_outside t s p Hl Hip). destruct (unused_links t s p Hl Hip) as (_ & -> & -> & _). done.
  - apply Hl.
  - intros c _. rewrite Hpar. intros Hne. destruct (has t c) eqn:E; [apply has_inside in E; by apply Hin, (lk_up _ _ Hl)|]. destruct Hne. apply Hout. by rewrite <- has_inside, E.
  - intros c _. rewrite Hpar, Ha. destruct (c =? i) eqn:E; [done|]. bool_facts. intros Hcp. destruct (has t c) eqn:E'; [apply has_inside in E'; by apply (lk_top _ _ Hl)|].
    assert (Hic : ~ inside t c) by (by rewrite <- has_inside, E'). by destruct (unused_links t s c Hl Hic) as (_ & _ & _ & -> & ->).
  - intros c _. destruct (has t c) eqn:E; [|apply anchored_top; rewrite Hpar; apply Hout; by rewrite <- has_inside, E].
    apply has_inside in E. pose proof (lk_tree _ _ Hl c E) as Hanc. clear E. induction Hanc as [x Hx|x Hx IH]; [apply anchored_top|apply anchored_under]; by rewrite Hpar.
  - intros x Hx. rewrite Ha. destruct (x =? i); [by right|]. apply (lk_unused _ _ Hl). auto.
Qed.

Lemma initSlot_at i t : 0 <= i ->
  let t' := initSlot i t in (forall x, at_ t' x = if x =? i then default_slot else at_ t x) /\ count t' = Z.max (count t) (i + 1)
  /\ (count t <= arr_len (slots t) -> count t' <= arr_len (slots t')) /\ resolveDirty t' = sadd (resolveDirty t) i.
Proof.
  intros Hi. cbv zeta. unfold initSlot. rewrite (proj2 (Z.ltb_ge i 0)) by lia. destruct (ensure_slots (i + 1) t) as (E1 & E2 & E3 & E4 & _ & _ & _ & E5).
  set (t1 := ensure (i + 1) t) in *. clearbody t1. set (t2 := if count t1 <=? i then _ else t1).
  assert (H2 : slots t2 = slots t1 /\ count t2 = Z.max (count t) (i + 1) /\ resolveDirty t2 = resolveDirty t).
  { unfold t2. destruct (count t1 <=? i) eqn:E; bool_facts; cbn; rewrite <- ?E4; split_and!; try done; lia. }
  destruct H2 as (S2 & C2 & D2). set (t3 := dirty_resolve i (dirty_flush i (reset i t2))). destruct (addRoot_slots i t3) as (A1 & A2 & A3 & _).
  rewrite A2, A3. assert (Hlen : arr_len (slots t2) = arr_len (slots t1)) by by rewrite S2.
  assert (H3 : forall x, at_ t3 x = if x =? i then default_slot else at_ t x).
  { intros x. change (at_ t3 x) with (at_ (upd i (fun _ => default_slot) t2) x). rewrite at_write by lia. rewrite (at_same t1 t2 x S2), E1. done. }
  split; [intros x; by rewrite (at_same t3 (addRoot i t3) x A1)|]. split; [exact C2|]. split; [|cbn; by rewrite D2].
  rewrite A1. intros Hc. change (count t3) with (count t2). change (slots t3) with (slots (upd i (fun _ => default_slot) t2)). rewrite len_upd. lia.
Qed.

Lemma initSlot_roots i t : 0 <= i -> initSlot i t = addRoot i (dirty_resolve i (dirty_flush i (reset i (let t := ensure (i + 1) t in if count t <=? i then with_count (i + 1) t else t)))).
Proof. intros Hi. unfold initSlot. by rewrite (proj2 (Z.ltb_ge i 0)) by lia. Qed.

Lemma init_scene t s i : scene t s -> 0 <= i -> live t i = false -> scene (initSlot i t) (as_root i s).
Proof.
  intros Hsc Hi Hn. pose proof Hsc as [Hl Hr Hs Hf]. destruct (not_live t s i Hsc Hn) as (N1 & N2 & N3 & N4).
  destruct (initSlot_at i t Hi) as (I1 & I2 & I3 & _). pose proof (lk_count _ _ Hl) as Hc.
  assert (Hl' : linked (initSlot i t) s) by (apply (fresh_linked t _ s i); try done; [specialize (I3 ltac:(lia)); lia|lia]).
  assert (Hpar : forall x, s_parent (at_ (initSlot i t) x) = s_parent (at_ t x)) by (intros x; rewrite I1; destruct (x =? i) eqn:E; [bool_facts; by subst|done]).
  assert (Hin : forall x, inside t x -> inside (initSlot i t) x) by (unfold inside; lia). split.
  - destruct Hl'. by split.
  - rewrite initSlot_roots by done. destruct (ensure_slots (i + 1) t) as (_ & _ & _ & _ & E5 & E6 & E7 & _). cbv zeta. set (t1 := ensure (i + 1) t) in *. clearbody t1.
    match goal with |- rooted (addRoot i ?t2) _ => assert (Hr2 : rooted t2 (fo_roots s)) end.
    { apply (rooted_same t); [..|exact Hr]; cbn; by destruct (count t1 <=? i). }
    assert (His : i <> NO_SLOT) by (unfold NO_SLOT; lia). pose proof (addRoot_rooted _ _ i Hr2 His) as H. by rewrite decide_False in H.
  - intros x [Hx|Hx%list_elem_of_singleton]%elem_of_app; [destruct (Hs x Hx); rewrite Hpar; auto|]. subst x. rewrite Hpar. split; [unfold inside; lia|done].
  - intros x Hx Hp Hr'. cbn in *. rewrite Hpar in Hp. destruct (has t x) eqn:E; [apply has_inside in E; apply Hf; [done|done|]|].
    + intros Hin'. apply Hr', elem_of_app. by left.
    + apply (no_kids_outside t s); [done|]. by rewrite <- has_inside, E.
Qed.

(** ** Giving a slot back *)

Lemma release_scene t s i : scene t s -> inside t i -> fo_kids s i = [] -> scene (releaseSlot i t) (without i s).
Proof.
  intros Hsc Hi Hk. pose proof Hsc as [Hl Hr Hs Hf]. unfold releaseSlot. rewrite (proj2 (has_inside t i) Hi). cbn [negb].
  destruct (detach_scene t s i Hsc Hi) as (D1 & D2 & D3 & D4 & D5). pose proof (detach_relinked t s i Hl Hi) as [R1 R2 _ _].
  set (t1 := detach i t) in *. clearbody t1. pose proof (lk_count _ _ D1) as Hc. assert (Hir : 0 <= i < arr_len (slots t1)) by (unfold inside in Hi; lia).
  set (t2 := with_resolvedChanged _ (with_resolveDirty _ (with_flushDirty _ (reset i t1)))).
  assert (Ha : forall x, at_ t2 x = if x =? i then default_slot else at_ t1 x) by (intros x; change (at_ t2 x) with (at_ (upd i (fun _ => default_slot) t1) x); by apply at_write).
  assert (Hlen : arr_len (slots t2) = arr_len (slots t1)) by (change (slots t2) with (slots (upd i (fun _ => default_slot) t1)); apply len_upd).
  destruct (removeRoot_slots i t2) as (S1 & S2 & _).
  assert (Hat : forall x, at_ (removeRoot i t2) x = if x =? i then default_slot else at_ t1 x) by (intros x; by rewrite (at_same t2 _ x S1)).
  assert (Hpar : forall x, s_parent (at_ (removeRoot i t2) x) = s_parent (at_ t1 x)) by (intros x; rewrite Hat; destruct (x =? i) eqn:E; [bool_facts; by subst|done]).
  assert (Hcnt : count (removeRoot i t2) = count t) by (rewrite S2; exact R1). split.
  - apply (fresh_linked t1 _ _ i); [done|done| | |done| |lia].
    + intros p Hp. cbn in Hp. apply list_elem_of_filter in Hp. tauto.
    + cbn. by rewrite Hk.
    + rewrite Hcnt, S1, Hlen. lia.
  - assert (Hr2 : rooted t2 (fo_roots (without i s))) by by apply (rooted_same t1). pose proof (removeRoot_rooted t2 _ i Hr2) as H. cbn in *. by rewrite filter_filter_same in H.
  - intros x Hx. unfold inside. rewrite Hcnt, Hpar. destruct (D4 x Hx) as [H1 H2]. unfold inside in H1. rewrite R1 in H1. done.
  - intros x Hx Hp Hr'. unfold inside in Hx. rewrite Hcnt in Hx. rewrite Hpar in Hp. cbn in *. destruct (decide (x = i)) as [->|Hne]; [by rewrite Hk|].
    rewrite Hf; [done|done|by rewrite <- D5|]. intros Hin. apply Hr'. by apply list_elem_of_filter.
Qed.

(** ** Exploring below a node *)

(** [done_] has been expanded from [root], [todo] is what that reached and is not. *)
Record explored (t : Graph) (s : Forest) (root : Z) (done_ todo : list Z) : Prop := {
  ex_nodup : NoDup (done_ ++ todo);
  ex_root : root ∈ done_ ++ todo;
  ex_from x : x ∈ done_ ++ todo -> x = root \/ (s_parent (at_ t x) ∈ done_ /\ s_parent (at_ t x) <> NO_SLOT);
  ex_in x : x ∈ done_ ++ todo -> inside t x /\ under s root x;
  ex_kids x c : x ∈ done_ -> c ∈ fo_kids s x -> c ∈ done_ ++ todo;
}.

Lemma explored_start t s root : linked t s -> inside t root -> explored t s root [] [root].
Proof.
  intros Hl Hr. split; cbn.
  - apply NoDup_singleton.
  - left.
  - intros x ->%list_elem_of_singleton. by left.
  - intros x ->%list_elem_of_singleton. split; [done|apply rtc_refl].
  - intros x c Hx. by apply not_elem_of_nil in Hx.
Qed.

Lemma no_loop t s root n : linked t s -> inside t n -> under s root n -> s_parent (at_ t root) <> NO_SLOT -> inside t root -> s_parent (at_ t root) <> n.
Proof.
  intros Hl Hn Hu Hp Hr Heq. destruct (has_line t s n Hl Hn) as (l & H & _). apply (line_under t s root n l Hl Hn H) in Hu.
  assert (H' : line t root (root :: l)) by (apply line_up; [done|by rewrite Heq]). apply line_nodup, NoDup_cons in H' as [? _]. done.
Qed.

Lemma explored_step t s root done_ n todo todo' : linked t s -> explored t s root done_ (n :: todo) -> Permutation todo' (fo_kids s n ++ todo) ->
  explored t s root (done_ ++ [n]) todo'.
Proof.
  intros Hl [H1 H2 H3 H4 H5] Hp.
  assert (Hmem : forall x, x ∈ (done_ ++ [n]) ++ todo' <-> x ∈ done_ ++ n :: todo \/ x ∈ fo_kids s n).
  { intros x. rewrite Hp, !elem_of_app, !elem_of_cons, elem_of_nil. tauto. }
  assert (Hn : n ∈ done_ ++ n :: todo) by (apply elem_of_app; right; left). destruct (H4 n Hn) as [Hni Hnu].
  assert (Hnd : n ∉ done_) by (apply NoDup_app in H1 as (_ & Hd & _); intros Hin; apply (Hd n Hin); left).
  assert (Hfresh : forall c, c ∈ fo_kids s n -> c ∉ done_ ++ n :: todo).
  { intros c (K1 & K2 & K3)%(lk_kids _ _ Hl) Hin. destruct (H3 c Hin) as [->|[Hpd _]]; [|by rewrite K2 in Hpd].
    apply (no_loop t s root n); [done|done|done|congruence|done|done]. }
  split.
  - rewrite Hp, (Permutation_app_comm (fo_kids s n)), app_assoc. apply NoDup_app. split_and!; [by rewrite <- app_assoc|intros x Hx Hk; apply (Hfresh x Hk); by rewrite <- app_assoc in Hx|apply Hl].
  - apply Hmem. by left.
  - intros x [Hx|Hx]%Hmem.
    + destruct (H3 x Hx) as [|[? ?]]; [by left|right; split; [apply elem_of_app; by left|done]].
    + right. apply (lk_kids _ _ Hl) in Hx as (K1 & K2 & K3). rewrite K2. split; [apply elem_of_app; right; left|done].
  - intros x [Hx|Hx]%Hmem; [by apply H4|]. split; [by apply (lk_kids _ _ Hl) in Hx as (? & _)|]. eapply rtc_r; [exact Hnu|exact Hx].
  - intros x c [Hx|Hx%list_elem_of_singleton]%elem_of_app Hc; apply Hmem; [left; by apply (H5 x)|right; by subst].
Qed.

Lemma explored_length t s root done_ todo : linked t s -> explored t s root done_ todo -> (length (done_ ++ todo) <= Z.to_nat (count t))%nat.
Proof. intros Hl He. apply bounded_length; [apply He|]. intros x Hx. by apply (ex_in _ _ _ _ _ He). Qed.

(** Nothing left to expand: what was reached is what is below. *)
Lemma explored_all t s root done_ : linked t s -> explored t s root done_ [] -> forall x, x ∈ done_ <-> under s root x.
Proof.
  intros Hl He x. pose proof (ex_root _ _ _ _ _ He) as Hr. pose proof (ex_in _ _ _ _ _ He x) as Hi. rewrite app_nil_r in Hr, Hi. split; [tauto|].
  intros Hu. refine (rtc_ind_r (fun x => x ∈ done_) root Hr _ x Hu). intros y z _ Hyz Hy.
  pose proof (ex_kids _ _ _ _ _ He y z Hy Hyz) as H. by rewrite app_nil_r in H.
Qed.

(** Every node of the list has its children later in it. *)
Fixpoint parents_first (s : Forest) (l rest : list Z) : Prop :=
  match l with [] => True | x :: l => (forall c, c ∈ fo_kids s x -> c ∈ l ++ rest) /\ parents_first s l rest end.

Lemma parents_first_mono s l rest rest' : (forall x, x ∈ rest -> x ∈ rest') -> parents_first s l rest -> parents_first s l rest'.
Proof.
  intros Hr. induction l as [|x l IH]; [done|]. cbn. intros [H1 H2]. split; [|by apply IH]. intros c Hc. apply H1 in Hc.
  apply elem_of_app in Hc. apply elem_of_app. destruct Hc; auto.
Qed.

Lemma parents_first_snoc s l x rest : parents_first s l (x :: rest) -> (forall c, c ∈ fo_kids s x -> c ∈ rest) -> parents_first s (l ++ [x]) rest.
Proof.
  intros H Hx. induction l as [|y l IH]; cbn in *; [by split|]. destruct H as [H1 H2]. split; [|by apply IH]. intros c Hc. apply H1 in Hc.
  rewrite <- app_assoc. exact Hc.
Qed.

Lemma subtree_walk t s root : linked t s -> forall fuel head done_ todo,
  explored t s root done_ todo -> parents_first s done_ todo -> head = length done_ -> (Z.to_nat (count t) < length done_ + fuel)%nat ->
  let out := subtree_from fuel t head (done_ ++ todo) in explored t s root out [] /\ parents_first s out [].
Proof.
  intros Hl. induction fuel as [|fuel IH]; intros head done_ todo He Hp -> Hf.
  - pose proof (explored_length t s root done_ todo Hl He) as Hlen. rewrite length_app in Hlen. lia.
  - cbn [subtree_from]. destruct todo as [|n todo]; [rewrite app_nil_r, (lookup_ge_None_2 done_) by lia; done|].
    rewrite list_lookup_middle by done. assert (Hn : inside t n) by (apply (ex_in _ _ _ _ _ He), elem_of_app; right; left).
    rewrite (kids_spec t s n Hl Hn). rewrite <- app_assoc. cbn [app]. replace (done_ ++ n :: todo ++ fo_kids s n) with ((done_ ++ [n]) ++ todo ++ fo_kids s n) by by rewrite <- app_assoc.
    apply IH.
    + apply (explored_step t s root done_ n todo); [done|done|apply Permutation_app_comm].
    + apply parents_first_snoc; [|intros c Hc; apply elem_of_app; by right]. revert Hp. apply parents_first_mono. intros x. rewrite !elem_of_cons, elem_of_app. tauto.
    + rewrite length_app. simpl. lia.
    + rewrite length_app. simpl. lia.
Qed.

Lemma subtree_spec t s i : linked t s -> inside t i -> let l := subtree t i true in
  NoDup l /\ (forall x, x ∈ l <-> under s i x) /\ parents_first s l [] /\ forall x, x ∈ l -> inside t x.
Proof.
  intros Hl Hi l. unfold l, subtree. rewrite (proj2 (has_inside t i) Hi). cbn [negb].
  destruct (subtree_walk t s i Hl (S (Z.to_nat (count t))) 0 [] [i] (explored_start t s i Hl Hi) I eq_refl ltac:(simpl; lia)) as [He Hp].
  cbn [app] in *. split_and!; [|by apply (explored_all t)|done|].
  - pose proof (ex_nodup _ _ _ _ _ He) as H. by rewrite app_nil_r in H.
  - intros x Hx. apply (ex_in _ _ _ _ _ He). by rewrite app_nil_r.
Qed.

Definition forget_all (l : list Z) (s : Forest) : Forest := foldr without s l.

Lemma forget_all_kids l s p : fo_kids (forget_all l s) p = filter (fun x => x ∉ l) (fo_kids s p).
Proof.
  induction l as [|y l IH]; cbn.
  - symmetry. apply filter_true. intros x _. apply not_elem_of_nil.
  - unfold forget_all in IH. rewrite IH, list_filter_filter. apply list_filter_iff. intros x. rewrite not_elem_of_cons. tauto.
Qed.

(** ** Resolving below a node *)

Definition links_of (s : Slot) := (s_parent s, s_firstChild s, s_lastChild s, s_prev s, s_next s).
Definition own_of (s : Slot) :=
  (s_pos s, s_rot s, s_scale s, s_alpha s, s_anchor s, s_tint s, (s_visible s, s_neverCull s, s_culled s)).
Definition res (t : Graph) (i : Z) := (s_resolved (at_ t i), s_resolvedVisible (at_ t i)).

(** A node's resolved values are what its parent's make of its own. *)
Definition composed_here (t : Graph) (i : Z) : Prop := res t i = compose (base_of t (s_parent (at_ t i))) (at_ t i).

(** What resolving leaves alone. *)
Record reresolved (t t' : Graph) : Prop := {
  rr_count : count t' = count t;
  rr_len : arr_len (slots t') = arr_len (slots t);
  rr_links x : links_of (at_ t' x) = links_of (at_ t x);
  rr_own x : own_of (at_ t' x) = own_of (at_ t x);
  rr_roots : rootOrder t' = rootOrder t /\ rootAt t' = rootAt t /\ rootHoles t' = rootHoles t /\ flushDirty t' = flushDirty t;
  rr_out x : ~ inside t x -> at_ t' x = at_ t x;
}.

Lemma reresolved_refl t : reresolved t t.
Proof. by split. Qed.

Lemma reresolved_trans t1 t2 t3 : reresolved t1 t2 -> reresolved t2 t3 -> reresolved t1 t3.
Proof.
  intros [A1 A2 A3 A4 (A5 & A6 & A7 & A8) A9] [B1 B2 B3 B4 (B5 & B6 & B7 & B8) B9]. split; [congruence..|by split_and!; congruence|].
  intros x Hx. rewrite B9; [by apply A9|]. unfold inside in *. by rewrite A1.
Qed.

Lemma links_parent t t' x : links_of (at_ t' x) = links_of (at_ t x) -> s_parent (at_ t' x) = s_parent (at_ t x) /\ s_firstChild (at_ t' x) = s_firstChild (at_ t x)
  /\ s_lastChild (at_ t' x) = s_lastChild (at_ t x) /\ s_prev (at_ t' x) = s_prev (at_ t x) /\ s_next (at_ t' x) = s_next (at_ t x).
Proof. unfold links_of. intros [=]. by split_and!. Qed.

(** What an edit of the values keeps. *)
Record same_tree (t t' : Graph) : Prop := {
  st_count : count t' = count t;
  st_len : arr_len (slots t') = arr_len (slots t);
  st_links x : links_of (at_ t' x) = links_of (at_ t x);
  st_roots : rootOrder t' = rootOrder t /\ rootAt t' = rootAt t /\ rootHoles t' = rootHoles t;
  st_out x : ~ inside t x -> at_ t' x = at_ t x;
}.

Lemma same_tree_linked t t' s : same_tree t t' -> linked t s -> linked t' s.
Proof.
  intros [R1 R2 R3 _ R6] [L1 L2 L3 L4 L5 L6 L7 L8 L9]. assert (Hin : forall x, inside t' x <-> inside t x) by (intros; unfold inside; by rewrite R1).
  assert (Hl : forall x, s_parent (at_ t' x) = s_parent (at_ t x) /\ s_firstChild (at_ t' x) = s_firstChild (at_ t x)
    /\ s_lastChild (at_ t' x) = s_lastChild (at_ t x) /\ s_prev (at_ t' x) = s_prev (at_ t x) /\ s_next (at_ t' x) = s_next (at_ t x)) by (intros x; by apply links_parent).
  assert (Hp : forall x, s_parent (at_ t' x) = s_parent (at_ t x)) by (intros; apply Hl).
  split; try done.
  - by rewrite R1, R2.
  - intros p. apply (seg_ext t); [|apply L2]. intros x _. split; apply Hl.
  - intros p c. by rewrite Hin, Hp.
  - intros p Hi. apply Hin in Hi. destruct (Hl p) as (_ & -> & -> & _). by apply L4.
  - intros c. rewrite !Hin, Hp. apply L6.
  - intros c. rewrite Hin, Hp. destruct (Hl c) as (_ & _ & _ & -> & ->). apply L7.
  - intros c Hi. apply Hin in Hi. specialize (L8 c Hi). clear Hi. induction L8 as [i Hi|i Hi IH]; [apply anchored_top|apply anchored_under]; by rewrite Hp.
  - intros i Hi. rewrite Hin in Hi. rewrite R6 by done. by apply L9.
Qed.

Lemma same_tree_scene t t' s : same_tree t t' -> scene t s -> scene t' s.
Proof.
  intros Hr [Hl Hro Hs Hf]. pose proof Hr as [R1 _ R3 (R4 & R5 & R6) _]. split; [by apply (same_tree_linked t)|by apply (rooted_same t)| |].
  - intros i Hi. destruct (links_parent t t' i (R3 i)) as (-> & _). unfold inside. rewrite R1. by apply Hs.
  - intros i. destruct (links_parent t t' i (R3 i)) as (-> & _). unfold inside. rewrite R1. apply Hf.
Qed.

Lemma reresolved_tree t t' : reresolved t t' -> same_tree t t'.
Proof. intros [R1 R2 R3 _ (R4 & R5 & R6 & _) R7]. by split. Qed.

Lemma reresolved_linked t t' s : reresolved t t' -> linked t s -> linked t' s.
Proof. intros Hr. by apply same_tree_linked, reresolved_tree. Qed.

Lemma compose_own base a b : own_of a = own_of b -> compose base a = compose base b.
Proof. unfold own_of, compose. intros H. assert (s_pos a = s_pos b) as -> by congruence. by assert (s_visible a = s_visible b) as -> by congruence. Qed.

Lemma at_visit t n x : 0 <= n < arr_len (slots t) ->
  at_ (visit n t) x = if x =? n then set_resolved (compose (base_of t (s_parent (at_ t n))) (at_ t n)).1 (compose (base_of t (s_parent (at_ t n))) (at_ t n)).2 (at_ t x) else at_ t x.
Proof.
  intros Hn. unfold visit. cbv zeta. set (t1 := with_visits _ _). change (base_of t1) with (base_of t). change (at_ t1 n) with (at_ t n).
  set (v := compose _ _). match goal with |- at_ (if ?b then with_resolvedChanged ?d ?u else ?u) x = _ => assert (H : at_ (if b then with_resolvedChanged d u else u) x = at_ u x) by (by destruct b) end.
  rewrite H. rewrite at_write by done. done.
Qed.

Lemma visit_frame t n : inside t n -> 0 <= count t <= arr_len (slots t) ->
  reresolved t (visit n t) /\ resolveDirty (visit n t) = sdel (resolveDirty t) n /\ visits (visit n t) = visits t + 1
  /\ (forall x, x ∈ resolvedChanged t -> x ∈ resolvedChanged (visit n t))
  /\ (same_resolved (res (visit n t) n) (res t n) = true \/ n ∈ resolvedChanged (visit n t)).
Proof.
  intros Hn Hc. assert (Hr : 0 <= n < arr_len (slots t)) by (unfold inside in Hn; lia). pose proof (fun x => at_visit t n x Hr) as Ha.
  assert (Hres : res (visit n t) n = compose (base_of t (s_parent (at_ t n))) (at_ t n)) by (unfold res; rewrite Ha, Z.eqb_refl; cbn; by destruct (compose _ _)).
  split; [|split; [|split; [|split]]].
  - split.
    + unfold visit. cbv zeta. by destruct (negb _).
    + unfold visit. cbv zeta. destruct (negb _); cbn [slots with_resolvedChanged]; by rewrite len_upd.
    + intros x. rewrite Ha. destruct (x =? n) eqn:E; [|done]. bool_facts. by subst.
    + intros x. rewrite Ha. destruct (x =? n) eqn:E; [|done]. bool_facts. by subst.
    + unfold visit. cbv zeta. by destruct (negb _).
    + intros x Hx. rewrite Ha. rewrite (proj2 (Z.eqb_neq x n)); [done|]. by intros ->.
  - unfold visit. cbv zeta. by destruct (negb _).
  - unfold visit. cbv zeta. by destruct (negb _).
  - intros x Hx. unfold visit. cbv zeta. destruct (negb _); cbn; [|done]. apply elem_of_sadd. by right.
  - rewrite Hres. unfold visit. cbv zeta. change (at_ (with_visits _ _) n) with (at_ t n). change (base_of (with_visits _ _)) with (base_of t).
    unfold res. destruct (same_resolved _ _) eqn:E; [by left|]. right. cbn. apply elem_of_sadd. by left.
Qed.

(** The walk under [root], [V] its nodes so far, from [t] to [t']. *)
Record walking (t : Graph) (V : list Z) (t' : Graph) : Prop := {
  wk_frame : reresolved t t';
  wk_out x : x ∉ V -> at_ t' x = at_ t x;
  wk_ok x : x ∈ V -> composed_here t' x;
  wk_dirty x : x ∈ resolveDirty t' <-> x ∈ resolveDirty t /\ x ∉ V;
  wk_changed x : x ∈ resolvedChanged t -> x ∈ resolvedChanged t';
  wk_reported x : x ∈ V -> same_resolved (res t' x) (res t x) = true \/ x ∈ resolvedChanged t';
  wk_visits : visits t' = visits t + Z.of_nat (length V);
}.

Lemma walking_step t s root V n todo t' : linked t s -> explored t s root V (n :: todo) -> walking t V t' -> walking t (V ++ [n]) (visit n t').
Proof.
  intros Hl He [W1 W2 W3 W4 W5 W6 W7]. pose proof W1 as [R1 R2 R3 R4 _ _].
  assert (Hn : n ∈ V ++ n :: todo) by (apply elem_of_app; right; left). destruct (ex_in _ _ _ _ _ He n Hn) as [Hni Hnu].
  assert (HnV : n ∉ V) by (intros Hin; apply (proj1 (NoDup_app _ _) (ex_nodup _ _ _ _ _ He)) in Hin; apply Hin; left).
  assert (Hni' : inside t' n) by (unfold inside; by rewrite R1). assert (Hc' : 0 <= count t' <= arr_len (slots t')) by (rewrite R1, R2; apply Hl).
  destruct (visit_frame t' n Hni' Hc') as (F1 & F2 & F3 & F4 & F5).
  assert (Ha := fun x => at_visit t' n x ltac:(unfold inside in Hni'; lia)).
  assert (Hpar : forall x, s_parent (at_ t' x) = s_parent (at_ t x)) by (intros x; by apply links_parent).
  assert (Hres : forall x, x <> n -> res (visit n t') x = res t' x) by (intros x Hx; unfold res; rewrite Ha; by rewrite (proj2 (Z.eqb_neq x n))).
  assert (Hbase : forall x, x ∈ V \/ x = n -> base_of (visit n t') (s_parent (at_ t x)) = base_of t' (s_parent (at_ t x))).
  { intros x Hx. unfold base_of. destruct (s_parent (at_ t x) =? NO_SLOT) eqn:E; [done|]. bool_facts. apply Hres.
    assert (Hxi : x ∈ V ++ n :: todo) by (destruct Hx as [Hx| ->]; [apply elem_of_app; by left|done]).
    destruct (ex_from _ _ _ _ _ He x Hxi) as [->|[Hp _]]; [|intros Heq; by rewrite Heq in Hp]. destruct (ex_in _ _ _ _ _ He root Hxi) as [Hri _]. by apply (no_loop t s root n). }
  split.
  - by apply (reresolved_trans _ t').
  - intros x Hx. rewrite elem_of_app, list_elem_of_singleton in Hx. rewrite Ha. rewrite (proj2 (Z.eqb_neq x n)) by tauto. apply W2. tauto.
  - intros x Hx. assert (Hx' : x ∈ V \/ x = n) by (by rewrite elem_of_app, list_elem_of_singleton in Hx). unfold composed_here.
    rewrite Ha. destruct (x =? n) eqn:E; bool_facts.
    + subst x. cbn. rewrite (compose_own _ _ (at_ t' n)) by done. rewrite Hpar, Hbase by auto. unfold res. rewrite Ha, Z.eqb_refl, Hpar. cbn. symmetry. apply surjective_pairing.
    + destruct Hx' as [Hx'|]; [|done]. rewrite Hpar, Hbase, Hres by auto. rewrite <- Hpar. by apply W3.
  - intros x. rewrite F2, elem_of_sdel, W4, elem_of_app, list_elem_of_singleton. tauto.
  - auto.
  - intros x [Hx|Hx%list_elem_of_singleton]%elem_of_app.
    + rewrite Hres by (intros ->; done). destruct (W6 x Hx); auto.
    + subst x. destruct F5 as [F5|F5]; [|by right]. left. assert (H : res t' n = res t n) by (unfold res; by rewrite (W2 n HnV)). by rewrite <- H.
  - rewrite F3, W7, length_app. simpl. lia.
Qed.

Lemma resolve_stack_walk t s root : linked t s -> forall fuel V todo t',
  explored t s root V todo -> walking t V t' -> (Z.to_nat (count t) < length V + fuel)%nat ->
  exists V', explored t s root V' [] /\ walking t V' (resolve_stack fuel todo t').
Proof.
  intros Hl. induction fuel as [|fuel IH]; intros V todo t' He Hw Hf.
  - pose proof (explored_length t s root V todo Hl He) as Hlen. rewrite length_app in Hlen. lia.
  - cbn [resolve_stack]. destruct todo as [|n todo]; [by exists V|].
    pose proof (walking_step t s root V n todo t' Hl He Hw) as Hw'. assert (Hn : inside t n) by (apply (ex_in _ _ _ _ _ He), elem_of_app; right; left).
    assert (Hk : kids_of (visit n t') n = fo_kids s n).
    { apply kids_spec; [by apply (reresolved_linked t), Hl; apply Hw'|]. unfold inside. by rewrite (rr_count _ _ (wk_frame _ _ _ Hw')). }
    rewrite Hk. apply (IH (V ++ [n])); [|done|rewrite length_app; simpl; lia].
    apply (explored_step t s root V n todo); [done|done|]. by rewrite <- (Permutation_rev (fo_kids s n)).
Qed.

Lemma walking_none t : walking t [] t.
Proof.
  split; try done.
  - intros x Hx. by apply not_elem_of_nil in Hx.
  - intros x. split; [|tauto]. intros Hx. split; [done|apply not_elem_of_nil].
  - intros x Hx. by apply not_elem_of_nil in Hx.
  - simpl. lia.
Qed.

Lemma resolveFrom_walk t s i : linked t s -> inside t i -> exists V,
  NoDup V /\ (forall x, x ∈ V <-> under s i x) /\ (forall x, x ∈ V -> inside t x) /\ walking t V (resolveFrom i t).
Proof.
  intros Hl Hi. pose proof (walking_none t) as Hw.
  destruct (resolve_stack_walk t s i Hl (S (Z.to_nat (count t))) [] [i] t (explored_start t s i Hl Hi) Hw ltac:(simpl; lia)) as (V & He & HV).
  exists V. pose proof (ex_nodup _ _ _ _ _ He) as Hnd. rewrite app_nil_r in Hnd. split_and!; [done|by apply (explored_all t)| |done].
  intros x Hx. apply (ex_in _ _ _ _ _ He). by rewrite app_nil_r.
Qed.

(** ** The pending nodes *)

Lemma dirty_above_line t fuel i l : (forall x, x ∈ l -> x <> NO_SLOT) -> line t i l -> (length l <= fuel)%nat ->
  dirty_above fuel t i = true <-> exists a, a ∈ l /\ a ∈ resolveDirty t.
Proof.
  intros Hne H. revert fuel. induction H as [i Hi|i l Hi H IH]; intros fuel Hf; (destruct fuel as [|fuel]; [simpl in Hf; lia|]); cbn [dirty_above].
  all: rewrite (proj2 (Z.eqb_neq i NO_SLOT)) by (apply Hne; left).
  all: destruct (shas (resolveDirty t) i) eqn:E.
  1,3: apply shas_spec in E; split; [intros _; exists i; split; [left|done]|done].
  all: assert (Hn : i ∉ resolveDirty t) by (intros Hin%shas_spec; congruence).
  - rewrite Hi. split; [by destruct fuel|]. by intros (a & ->%list_elem_of_singleton & Ha).
  - rewrite IH; [|intros x Hx; apply Hne; by right|simpl in Hf; lia]. split; intros (a & H1 & H2); exists a; (split; [|done]); [by right|].
    by apply elem_of_cons in H1 as [->|].
Qed.

Lemma hasDirtyAncestor_spec t s i : linked t s -> inside t i ->
  hasDirtyAncestor t i = true <-> exists a, a <> i /\ under s a i /\ a ∈ resolveDirty t.
Proof.
  intros Hl Hi. destruct (has_line t s i Hl Hi) as (l & H & Hlen). pose proof (line_nodup t i l H) as Hnd.
  assert (Hu : forall a, under s a i <-> a ∈ l) by (intros a; symmetry; by apply (line_under t s)).
  assert (Hne : forall x, x ∈ l -> x <> NO_SLOT) by (intros x Hx; apply (inside_some t); by apply (line_inside t s i l)).
  unfold hasDirtyAncestor. inversion H as [j Hp|j l' Hp H']; subst.
  - rewrite Hp. split; [by destruct (Z.to_nat (count t))|]. intros (a & Ha & ->%Hu%list_elem_of_singleton & _). done.
  - apply NoDup_cons in Hnd as [Hn _]. rewrite (dirty_above_line t _ _ l'); [|intros x Hx; apply Hne; by right|done|simpl in Hlen; lia]. split.
    + intros (a & H1 & H2). exists a. split_and!; [by intros ->|apply Hu; by right|done].
    + intros (a & H1 & [->|H2]%Hu%elem_of_cons & H3); [done|by exists a].
Qed.

Lemma line_split_comparable t i l a b : line t i l -> a ∈ l -> b ∈ l -> (exists la, line t a la /\ b ∈ la) \/ (exists lb, line t b lb /\ a ∈ lb).
Proof.
  intros H Ha Hb. destruct (line_suffix t i l a H Ha) as (l1 & la & -> & Hla). destruct (decide (b ∈ la)) as [Hin|Hout]; [left; by exists la|].
  right. apply elem_of_app in Hb as [Hb|]; [|done]. clear Ha Hout. revert i H. induction l1 as [|x l1 IH]; intros i H; [by apply not_elem_of_nil in Hb|].
  cbn [app] in H. assert (Hi : x = i) by (by inversion H). subst i. apply elem_of_cons in Hb as [->|Hb].
  - exists (x :: l1 ++ la). split; [done|]. right. apply elem_of_app. right. by apply (line_head t).
  - inversion H as [j Hp Hj Heq|j l' Hp H' Hj Heq]; [|by apply (IH Hb (s_parent (at_ t x)))].
    symmetry in Heq. apply app_nil in Heq as [-> _]. by apply not_elem_of_nil in Hb.
Qed.

Lemma comparable t s a b i : linked t s -> inside t i -> under s a i -> under s b i -> under s b a \/ under s a b.
Proof.
  intros Hl Hi Ha Hb. destruct (has_line t s i Hl Hi) as (l & H & _). apply (line_under t s a i l Hl Hi H) in Ha. apply (line_under t s b i l Hl Hi H) in Hb.
  pose proof (line_inside t s i l Hl Hi H) as Hin. destruct (line_split_comparable t i l a b H Ha Hb) as [(la & Hla & Hx)|(lb & Hlb & Hx)].
  - left. apply (line_under t s b a la Hl); auto.
  - right. apply (line_under t s a b lb Hl); auto.
Qed.

Lemma under_antisym t s a b : linked t s -> inside t a -> inside t b -> under s a b -> under s b a -> a = b.
Proof.
  intros Hl Ha Hb Hab Hba. destruct (has_line t s a Hl Ha) as (la & Hla & _). destruct (has_line t s b Hl Hb) as (lb & Hlb & _).
  apply (line_under t s a b lb Hl Hb Hlb) in Hab. apply (line_under t s b a la Hl Ha Hla) in Hba.
  destruct (line_suffix t b lb a Hlb Hab) as (l1 & l2 & -> & H2). rewrite (line_det t a l2 la H2 Hla) in *.
  destruct (line_suffix t a la b Hla Hba) as (l3 & l4 & Heq & H4). rewrite (line_det t b l4 _ H4 Hlb) in Heq.
  apply (f_equal length) in Heq as Hlen. rewrite !length_app in Hlen. assert (l1 = []) as -> by (apply nil_length_inv; lia).
  cbn in Hlb. by inversion Hla; inversion Hlb; congruence.
Qed.

Lemma under_inside t s a i : linked t s -> inside t i -> under s a i -> inside t a.
Proof.
  intros Hl Hi Hu. destruct (has_line t s i Hl Hi) as (l & H & _). apply (line_inside t s i l Hl Hi H). by apply (line_under t s a i l Hl Hi H).
Qed.

Lemma under_inside_down t s a i : linked t s -> inside t a -> under s a i -> inside t i.
Proof.
  intros Hl Ha Hu. refine (rtc_ind_r (fun x => inside t x) a Ha _ i Hu). intros y z _ Hyz _. by apply (lk_kids _ _ Hl) in Hyz as (? & _).
Qed.

(** A set of nodes with all that is below them. *)
Definition closed (s : Forest) (V : list Z) : Prop := forall x y, x ∈ V -> under s x y -> y ∈ V.

Lemma outside_closed t s V x : linked t s -> inside t x -> closed s V -> x ∉ V -> s_parent (at_ t x) <> NO_SLOT -> s_parent (at_ t x) ∉ V.
Proof. intros Hl Hx Hc Hn Hp Hin. apply Hn, (Hc _ x Hin), rtc_once. by apply (lk_kids _ _ Hl). Qed.

Lemma base_outside t t' (V : list Z) x : (forall y, y ∉ V -> at_ t' y = at_ t y) -> (s_parent (at_ t x) <> NO_SLOT -> s_parent (at_ t x) ∉ V) ->
  base_of t' (s_parent (at_ t x)) = base_of t (s_parent (at_ t x)).
Proof. intros Ho Hp. unfold base_of. destruct (s_parent (at_ t x) =? NO_SLOT) eqn:E; [done|]. bool_facts. by rewrite Ho by auto. Qed.

Lemma composed_outside t s t' V x : linked t s -> inside t x -> closed s V -> (forall y, y ∉ V -> at_ t' y = at_ t y) -> x ∉ V ->
  composed_here t x -> composed_here t' x.
Proof.
  intros Hl Hx Hc Ho Hn H. unfold composed_here, res. rewrite !(Ho x Hn). rewrite (base_outside t t' V x Ho); [exact H|]. intros Hp. by apply (outside_closed t s V x).
Qed.

Lemma walking_join t s W t1 V t2 : linked t s -> (forall x, x ∈ W -> inside t x) -> (forall x, x ∈ V -> x ∉ W) -> closed s V ->
  walking t W t1 -> walking t1 V t2 -> walking t (W ++ V) t2.
Proof.
  intros Hl Hin Hd Hc [A1 A2 A3 A4 A5 A6 A7] [B1 B2 B3 B4 B5 B6 B7]. pose proof (reresolved_linked t t1 s A1 Hl) as Hl1. split.
  - by apply (reresolved_trans _ t1).
  - intros x Hx. rewrite elem_of_app in Hx. rewrite B2, A2 by tauto. done.
  - intros x [Hx|Hx]%elem_of_app; [|by apply B3]. apply (composed_outside t1 s t2 V); [done| |done|done|intros Hv; by apply (Hd x)|by apply A3].
    unfold inside. rewrite (rr_count _ _ A1). by apply Hin.
  - intros x. rewrite B4, A4, elem_of_app. tauto.
  - auto.
  - intros x [Hx|Hx]%elem_of_app.
    + unfold res. rewrite B2 by (intros Hv; by apply (Hd x)). destruct (A6 x Hx) as [?|?]; [by left|right; auto].
    + assert (Hr : res t1 x = res t x) by (unfold res; by rewrite A2 by auto). rewrite <- Hr. by apply B6.
  - rewrite B7, A7, length_app. lia.
Qed.

(** ** The pass over the pending nodes *)

(** A pending node with none above it. *)
Definition topmost (s : Forest) (D : list Z) (a : Z) : Prop := a ∈ D /\ forall b, b ∈ D -> under s b a -> b = a.

Lemma line_topmost t s D i l : linked t s -> inside t i -> line t i l -> (exists a, a ∈ l /\ a ∈ D) -> exists a, topmost s D a /\ under s a i.
Proof.
  intros Hl Hi H. induction H as [i Hp|i l Hp H IH]; intros (a & Ha & HD).
  - apply list_elem_of_singleton in Ha as ->. exists i. split; [split; [done|]|apply rtc_refl]. intros b _ Hb.
    apply (line_under t s b i [i] Hl Hi (line_top t i Hp)) in Hb. by apply list_elem_of_singleton in Hb.
  - pose proof (lk_up _ _ Hl i Hi Hp) as Hpi. destruct (decide (Exists (fun b => b ∈ D) l)) as [Hex|Hno].
    + apply Exists_exists in Hex. destruct (IH Hpi Hex) as (b & Hb & Hu). exists b. split; [done|]. eapply rtc_r; [exact Hu|]. by apply (lk_kids _ _ Hl).
    + assert (Hn : forall b, b ∈ l -> b ∉ D) by (intros b Hb HbD; apply Hno, Exists_exists; by exists b).
      apply elem_of_cons in Ha as [->|Ha]; [|by destruct (Hn a)]. exists i. split; [split; [done|]|apply rtc_refl]. intros b HbD Hb.
      apply (line_under t s b i (i :: l) Hl Hi (line_up t i l Hp H)) in Hb. apply elem_of_cons in Hb as [->|Hb]; [done|]. by destruct (Hn b).
Qed.

Lemma has_topmost t s D i : linked t s -> inside t i -> i ∈ D -> exists a, topmost s D a /\ under s a i.
Proof. intros Hl Hi HD. destruct (has_line t s i Hl Hi) as (l & H & _). apply (line_topmost t s D i l Hl Hi H). exists i. split; [by apply (line_head t)|done]. Qed.

(** [done_] has been passed, and [W] was visited on the way. *)
Record resolving (s : Forest) (t0 : Graph) (done_ W : list Z) (t : Graph) : Prop := {
  rv_walk : walking t0 W t;
  rv_nodup : NoDup W;
  rv_in x : x ∈ W -> inside t0 x;
  rv_set x : x ∈ W <-> exists a, a ∈ done_ /\ topmost s (resolveDirty t0) a /\ under s a x;
}.

Lemma resolving_closed s t0 done_ W t : resolving s t0 done_ W t -> closed s W.
Proof. intros [_ _ _ H] x y (a & H1 & H2 & H3)%H Hxy. apply H. exists a. split_and!; try done. by transitivity x. Qed.

Section ResolveStep.
Context (s : Forest) (t0 : Graph) (done_ W : list Z) (t : Graph) (i : Z).
Context (Hl : linked t0 s) (Hr : resolving s t0 done_ W t) (HD : i ∈ resolveDirty t0) (Hi : inside t0 i) (HDin : forall d, d ∈ resolveDirty t0 -> inside t0 d).

Lemma now_linked : linked t s /\ forall x, inside t x <-> inside t0 x.
Proof using Hl Hr.
  split; [apply (reresolved_linked t0), Hl; apply Hr|]. intros x. unfold inside. by rewrite (rr_count _ _ (wk_frame _ _ _ (rv_walk _ _ _ _ _ Hr))).
Qed.

Lemma keep_resolving : (topmost s (resolveDirty t0) i -> i ∈ W) -> resolving s t0 (done_ ++ [i]) W t.
Proof using Hr.
  intros Ht. pose proof (resolving_closed _ _ _ _ _ Hr) as Hc. destruct Hr as [R1 R2 R3 R4]. split; try done. intros x. rewrite R4. split.
  - intros (a & Ha & H). exists a. split; [apply elem_of_app; by left|done].
  - intros (a & [Ha|Ha%list_elem_of_singleton]%elem_of_app & H1 & H2); [by exists a|]. subst a. apply R4, (Hc i); auto.
Qed.

Lemma resolve_skips : i ∉ W -> hasDirtyAncestor t i = true -> ~ topmost s (resolveDirty t0) i.
Proof using Hl Hr Hi.
  intros HW Hd [_ Ht]. destruct now_linked as [Hlt Hin]. apply (hasDirtyAncestor_spec t s i Hlt) in Hd as (a & Hne & Hu & Ha); [|by apply Hin].
  apply (wk_dirty _ _ _ (rv_walk _ _ _ _ _ Hr)) in Ha as [Ha _]. by apply Hne, Ht.
Qed.

Lemma resolve_takes : i ∉ W -> hasDirtyAncestor t i = false -> topmost s (resolveDirty t0) i.
Proof using Hl Hr HD Hi.
  intros HW Hd. split; [done|]. intros b Hb Hu. destruct (decide (b = i)) as [|Hne]; [done|]. exfalso. destruct now_linked as [Hlt Hin].
  assert (Ht : hasDirtyAncestor t i = true); [|congruence]. apply (hasDirtyAncestor_spec t s i Hlt); [by apply Hin|]. exists b. split_and!; [done..|].
  apply (wk_dirty _ _ _ (rv_walk _ _ _ _ _ Hr)). split; [done|]. intros HbW. by apply HW, (resolving_closed _ _ _ _ _ Hr b).
Qed.

Lemma resolve_one : exists W', resolving s t0 (done_ ++ [i]) W' (resolve_pending t i).
Proof using Hl Hr HD Hi HDin.
  destruct now_linked as [Hlt Hin]. pose proof (rv_walk _ _ _ _ _ Hr) as Hw. pose proof (wk_dirty _ _ _ Hw i) as Hdi. unfold resolve_pending.
  destruct (shas (resolveDirty t) i) eqn:E; cbn [negb].
  2: { exists W. apply keep_resolving. intros _. destruct (decide (i ∈ W)) as [|Hn]; [done|]. assert (Hs : shas (resolveDirty t) i = true) by (apply shas_spec, Hdi; done). congruence. }
  apply shas_spec, Hdi in E as [_ HiW]. destruct (hasDirtyAncestor t i) eqn:Ea; [exists W; apply keep_resolving; intros H; by destruct (resolve_skips HiW Ea)|].
  pose proof (resolve_takes HiW Ea) as Ht. destruct (resolveFrom_walk t s i Hlt (proj2 (Hin i) Hi)) as (V & Vn & Vs & Vi & Vw). exists (W ++ V).
  assert (Hdis : forall x, x ∈ V -> x ∉ W).
  { intros x Hv Hxw. apply (rv_set _ _ _ _ _ Hr) in Hxw as (a & H1 & H2 & H3). pose proof (proj1 (Vs x) Hv) as Hu. assert (Hx : inside t0 x) by by apply Hin, Vi.
    assert (Ha : a = i); [|subst a; apply HiW, (rv_set _ _ _ _ _ Hr); exists i; split_and!; [done|done|apply rtc_refl]].
    destruct (comparable t0 s a i x Hl Hx H3 Hu) as [Hia|Hai]; [symmetry; by apply H2|]. apply Ht; [apply H2|done]. }
  assert (Hcl : closed s V) by (intros x y Hx Hxy; apply Vs; transitivity x; [by apply Vs|done]). split.
  - apply (walking_join t0 s W t V); [done|apply Hr|done|done|done|done].
  - apply NoDup_app. split_and!; [apply Hr| |done]. intros x Hxw Hxv. by apply (Hdis x).
  - intros x [Hx|Hx]%elem_of_app; [by apply (rv_in _ _ _ _ _ Hr)|by apply Hin, Vi].
  - intros x. rewrite elem_of_app, (rv_set _ _ _ _ _ Hr), Vs. split.
    + intros [(a & H1 & H2)|Hx]; [exists a; split; [apply elem_of_app; by left|done]|]. exists i. split; [apply elem_of_app; right; left|done].
    + intros (a & [Ha|Ha%list_elem_of_singleton]%elem_of_app & H1 & H2); [left; by exists a|right; by subst].
Qed.
End ResolveStep.

Lemma resolve_all s t0 : linked t0 s -> (forall d, d ∈ resolveDirty t0 -> inside t0 d) -> forall rest done_ W t,
  resolveDirty t0 = done_ ++ rest -> resolving s t0 done_ W t -> exists W', resolving s t0 (resolveDirty t0) W' (foldl resolve_pending t rest).
Proof.
  intros Hl HD. induction rest as [|i rest IH]; intros done_ W t Heq Hr; [exists W; rewrite app_nil_r in Heq; by rewrite Heq|].
  assert (Hi : i ∈ resolveDirty t0) by (rewrite Heq; apply elem_of_app; right; left).
  destruct (resolve_one s t0 done_ W t i Hl Hr Hi (HD i Hi) HD) as [W' Hr']. apply (IH (done_ ++ [i]) W'); [by rewrite <- app_assoc|done].
Qed.

(** What is not composed from its parent is pending. *)
Record settled (t : Graph) : Prop := {
  se_dirty d : d ∈ resolveDirty t -> inside t d;
  se_here i : inside t i -> i ∈ resolveDirty t \/ composed_here t i;
}.

Lemma composed_as t t' x : res t' x = res t x -> base_of t' (s_parent (at_ t' x)) = base_of t (s_parent (at_ t x)) -> own_of (at_ t' x) = own_of (at_ t x) ->
  composed_here t x -> composed_here t' x.
Proof. intros Hr Hb Ho H. unfold composed_here. rewrite Hr, Hb, (compose_own _ _ _ Ho). exact H. Qed.

Lemma base_as t t' p : (forall x, res t' x = res t x) -> base_of t' p = base_of t p.
Proof. intros H. unfold base_of. destruct (p =? NO_SLOT); [done|]. apply H. Qed.

(** What a call of [resolve] leaves. *)
Record resolved_graph (t t' : Graph) : Prop := {
  rg_frame : reresolved t t';
  rg_here i : inside t i -> composed_here t' i;
  rg_dirty : resolveDirty t' = [];
  rg_visits : 0 <= visits t' <= count t;
  rg_reported i : inside t i -> same_resolved (res t' i) (res t i) = true \/ res t' i = res t i \/ i ∈ resolvedChanged t';
}.

Lemma resolve_result t s : linked t s -> settled t -> resolved_graph t (resolve t).
Proof.
  intros Hl [HD Hh]. set (t0 := with_visits 0 t). assert (Hl0 : linked t0 s) by (by apply (linked_at t)).
  unfold resolve. fold t0. destruct (resolveDirty t0) as [|d pending] eqn:E.
  - pose proof (lk_count _ _ Hl) as Hc. split; [split; try done; by split_and!| |done|cbn; lia|right; by left]. intros i Hi.
    apply (composed_as t); try done. destruct (Hh i Hi) as [Hd|]; [|done]. change (resolveDirty t) with (resolveDirty t0) in Hd. rewrite E in Hd. by apply not_elem_of_nil in Hd.
  - assert (Hstart : resolving s t0 [] [] t0).
    { split; [apply walking_none|constructor|intros x Hx; by apply not_elem_of_nil in Hx|]. intros x. split; [intros Hx; by apply not_elem_of_nil in Hx|].
      intros (a & Ha & _). by apply not_elem_of_nil in Ha. }
    destruct (resolve_all s t0 Hl0 HD (resolveDirty t0) [] [] t0 eq_refl Hstart) as [W Hr]. rewrite E in Hr.
    set (t1 := foldl resolve_pending t0 (d :: pending)) in *. pose proof (resolving_closed _ _ _ _ _ Hr) as Hcl. destruct Hr as [Hw Hnd Hin Hset].
    assert (Hall : forall x, x ∈ resolveDirty t -> x ∈ W).
    { intros x Hx. destruct (has_topmost t0 s (resolveDirty t0) x Hl0 (HD x Hx) Hx) as (a & Ha & Hu). apply Hset. exists a. split_and!; [|done|done]. rewrite <- E. apply Ha. }
    pose proof Hw as [W1 W2 W3 W4 W5 W6 W7]. assert (Hlen := bounded_length (count t) W Hnd Hin). pose proof (lk_count _ _ Hl) as Hc. split.
    + destruct W1 as [A1 A2 A3 A4 A5 A6]. by split.
    + intros i Hi. change (composed_here t1 i). destruct (decide (i ∈ W)) as [HW|HW]; [by apply W3|].
      apply (composed_outside t0 s t1 W); [done..|]. destruct (Hh i Hi) as [Hd|]; [by destruct (HW (Hall i Hd))|done].
    + done.
    + change (visits (with_resolveDirty [] t1)) with (visits t1). rewrite W7. change (visits t0) with 0. lia.
    + intros i Hi. destruct (decide (i ∈ W)) as [HW|HW]; [destruct (W6 i HW); auto|]. right. left. unfold res. change (at_ (with_resolveDirty [] t1) i) with (at_ t1 i). by rewrite (W2 i HW).
Qed.

Lemma resolved_settled t t' : resolved_graph t t' -> settled t'.
Proof.
  intros [R1 R2 R3 _ _]. split; [rewrite R3; intros d Hd; by apply not_elem_of_nil in Hd|]. intros i Hi. right. apply R2. unfold inside in *. by rewrite <- (rr_count _ _ R1).
Qed.

(** ** Recomposing along the ancestors *)

(** A node's resolved values from the local values of its line of ancestors alone. *)
Fixpoint recompose (fuel : nat) (t : Graph) (i : Z) : num * num * num * bool :=
  match fuel with
  | O => (f0, f0, f0, true)
  | S fuel => compose (if s_parent (at_ t i) =? NO_SLOT then (f0, f0, f0, true) else recompose fuel t (s_parent (at_ t i))) (at_ t i)
  end.

Lemma recompose_line t i l : line t i l -> (forall x, x ∈ l -> composed_here t x) -> forall fuel, (length l <= fuel)%nat -> res t i = recompose fuel t i.
Proof.
  induction 1 as [i Hi|i l Hi H IH]; intros Hc fuel Hf; (destruct fuel as [|fuel]; [simpl in Hf; lia|]); cbn [recompose]; rewrite (Hc i) by left; unfold base_of.
  - by rewrite Hi.
  - rewrite (proj2 (Z.eqb_neq _ _) Hi). f_equal. apply IH; [|simpl in Hf; lia]. intros x Hx. apply Hc. by right.
Qed.

Lemma recompose_ext t t' : (forall x, s_parent (at_ t' x) = s_parent (at_ t x) /\ own_of (at_ t' x) = own_of (at_ t x)) -> forall fuel i, recompose fuel t' i = recompose fuel t i.
Proof.
  intros H. induction fuel as [|fuel IH]; intros i; [done|]. cbn [recompose]. destruct (H i) as [-> Ho]. rewrite (compose_own _ _ _ Ho). by rewrite IH.
Qed.

Lemma resolved_recomposes t t' s : linked t s -> resolved_graph t t' -> forall i, inside t i -> res t' i = recompose (Z.to_nat (count t)) t i.
Proof.
  intros Hl Hr i Hi. pose proof (rg_frame _ _ Hr) as Hf. rewrite <- (recompose_ext t t').
  2: { intros x. split; [|apply (rr_own _ _ Hf)]. by apply links_parent, (rr_links _ _ Hf). }
  pose proof (reresolved_linked t t' s Hf Hl) as Hl'. assert (Hin : forall x, inside t' x <-> inside t x) by (intros x; unfold inside; by rewrite (rr_count _ _ Hf)).
  destruct (has_line t' s i Hl' (proj2 (Hin i) Hi)) as (l & H & Hlen). rewrite (rr_count _ _ Hf) in Hlen. apply (recompose_line t' i l H); [|done].
  intros x Hx. apply (rg_here _ _ Hr), Hin. by apply (line_inside t' s i l Hl' (proj2 (Hin i) Hi) H).
Qed.

(** ** What each operation leaves pending *)

(** An edit about [c] alone. *)
Lemma settled_but t t' c : settled t -> (forall x, inside t' x -> x = c \/ inside t x \/ composed_here t' x) ->
  (forall d, d ∈ resolveDirty t' -> inside t' d) -> (forall d, d <> c -> d ∈ resolveDirty t -> d ∈ resolveDirty t') ->
  (forall x, x <> c -> s_parent (at_ t' x) = s_parent (at_ t x) /\ own_of (at_ t' x) = own_of (at_ t x) /\ res t' x = res t x) ->
  (res t' c = res t c \/ forall x, inside t x -> s_parent (at_ t x) <> c) ->
  (inside t' c -> c ∈ resolveDirty t' \/ composed_here t' c) -> settled t'.
Proof.
  intros [HD Hh] Hin HD' Hkeep Hx Hc Hcc. split; [done|]. intros x Hxi. destruct (decide (x = c)) as [->|Hne]; [by apply Hcc|].
  destruct (Hin x Hxi) as [?|[Ht|?]]; [done| |by right]. destruct (Hh x Ht) as [?|H]; [left; by apply Hkeep|]. right.
  destruct (Hx x Hne) as (H1 & H2 & H3). apply (composed_as t); [done| |done|done]. rewrite H1. unfold base_of.
  destruct (s_parent (at_ t x) =? NO_SLOT); [done|]. destruct (decide (s_parent (at_ t x) = c)) as [Hp|Hp]; [|by apply Hx].
  destruct Hc as [Hc|Hc]; [by rewrite Hp|by destruct (Hc x Ht)].
Qed.

Lemma default_composed t x : at_ t x = raw_slot \/ at_ t x = default_slot -> composed_here t x.
Proof. unfold composed_here, res. intros [-> | ->]; vm_compute; reflexivity. Qed.

Lemma childless t s c x : linked t s -> fo_kids s c = [] -> c <> NO_SLOT -> inside t x -> s_parent (at_ t x) <> c.
Proof. intros Hl Hk Hc Hx Hp. assert (H : x ∈ fo_kids s c) by (apply (lk_kids _ _ Hl); split_and!; congruence). rewrite Hk in H. by apply not_elem_of_nil in H. Qed.

Lemma local_parts a b : local_of a = local_of b -> own_of a = own_of b /\ (s_resolved a, s_resolvedVisible a) = (s_resolved b, s_resolvedVisible b).
Proof. unfold local_of, own_of. intros [=]. split; congruence. Qed.

Lemma init_settled t s i : scene t s -> settled t -> 0 <= i -> live t i = false -> settled (initSlot i t).
Proof.
  intros Hsc Hst Hi Hn. pose proof (sc_linked _ _ Hsc) as Hl. destruct (not_live t s i Hsc Hn) as (_ & _ & Np & Nk). destruct (initSlot_at i t Hi) as (I1 & I2 & _ & I4).
  assert (His : i <> NO_SLOT) by (unfold NO_SLOT; lia). apply (settled_but t _ i Hst).
  - intros x Hx. destruct (decide (x = i)) as [|Hne]; [by left|]. right. destruct (has t x) eqn:E; [left; by apply has_inside|]. right. apply default_composed.
    rewrite I1, (proj2 (Z.eqb_neq x i)) by done. apply (lk_unused _ _ Hl). by rewrite <- has_inside, E.
  - intros d. rewrite I4, elem_of_sadd. unfold inside. rewrite I2. intros [->|Hd]; [lia|]. apply (se_dirty _ Hst) in Hd. unfold inside in Hd. lia.
  - intros d _ Hd. rewrite I4. apply elem_of_sadd. by right.
  - intros x Hx. unfold res. by rewrite I1, (proj2 (Z.eqb_neq x i)).
  - right. intros x Hx. by apply (childless t s).
  - intros _. left. rewrite I4. apply elem_of_sadd. by left.
Qed.

Lemma release_at t s i : linked t s -> inside t i -> let t' := releaseSlot i t in
  (forall x, at_ t' x = if x =? i then default_slot else at_ (detach i t) x) /\ count t' = count t /\ resolveDirty t' = sdel (resolveDirty t) i.
Proof.
  intros Hl Hi t'. subst t'. unfold releaseSlot. rewrite (proj2 (has_inside t i) Hi). cbn [negb]. pose proof (detach_relinked t s i Hl Hi) as [R1 R2 _ (R4 & _)].
  set (t1 := detach i t) in *. clearbody t1. pose proof (lk_count _ _ Hl) as Hc.
  set (t2 := with_resolvedChanged _ (with_resolveDirty _ (with_flushDirty _ (reset i t1)))). destruct (removeRoot_slots i t2) as (S1 & S2 & S3 & _). split_and!.
  - intros x. rewrite (at_same t2 _ x S1). change (at_ t2 x) with (at_ (upd i (fun _ => default_slot) t1) x). apply at_write. unfold inside in Hi. lia.
  - by rewrite S2, <- R1.
  - rewrite S3, <- R4. done.
Qed.

Lemma release_settled t s i : scene t s -> settled t -> inside t i -> fo_kids s i = [] -> settled (releaseSlot i t).
Proof.
  intros Hsc Hst Hi Hk. pose proof (sc_linked _ _ Hsc) as Hl. destruct (release_at t s i Hl Hi) as (A & C & D). pose proof (detach_relinked t s i Hl Hi) as R.
  apply (settled_but t _ i Hst).
  - intros x Hx. right. left. unfold inside in *. by rewrite <- C.
  - intros d. rewrite D, elem_of_sdel. intros [Hd _]. apply (se_dirty _ Hst) in Hd. unfold inside in *. by rewrite C.
  - intros d Hne Hd. rewrite D. by apply elem_of_sdel.
  - intros x Hx. unfold res. rewrite A, (proj2 (Z.eqb_neq x i)) by done. destruct (detach_links t s i Hl Hi x) as (-> & _). rewrite (proj2 (Z.eqb_neq x i)) by done.
    split; [done|]. apply local_parts, (rl_local _ _ R).
  - right. intros x Hx. apply (childless t s); [done|done|by apply (inside_some t)|done].
  - intros _. right. apply default_composed. right. by rewrite A, Z.eqb_refl.
Qed.

(** What linking leaves of the rest of the graph. *)
Lemma link_frame t s c p : scene t s -> live t c = true -> p = NO_SLOT \/ live t p = true -> link c p t = t \/ let t' := link c p t in
  (forall x, local_of (at_ t' x) = local_of (at_ t x) /\ (x <> c -> s_parent (at_ t' x) = s_parent (at_ t x)))
  /\ count t' = count t /\ resolveDirty t' = sadd (resolveDirty t) c.
Proof.
  intros Hsc Hcl Hpl. pose proof (sc_linked _ _ Hsc) as Hl. pose proof (live_inside t c Hcl) as Hc. unfold link. rewrite (proj2 (has_inside t c) Hc). cbn [negb].
  destruct (detach_scene t s c Hsc Hc) as (D1 & _ & D3 & _). pose proof (detach_relinked t s c Hl Hc) as [R1 R2 R3 (R4 & _)].
  assert (D5 : forall x, x <> c -> s_parent (at_ (detach c t) x) = s_parent (at_ t x)).
  { intros x Hx. destruct (detach_links t s c Hl Hc x) as (-> & _). by rewrite (proj2 (Z.eqb_neq x c)). }
  set (t1 := detach c t) in *. clearbody t1. pose proof (lk_count _ _ D1) as Hn. assert (Hc1 : 0 <= c < arr_len (slots t1)) by (unfold inside in Hc; lia).
  destruct (p =? NO_SLOT) eqn:Ep; bool_facts; cbn [negb andb].
  - rewrite Ep, (proj2 (Z.eqb_neq c NO_SLOT)) by (by apply (inside_some t)). right. set (t2 := upd c (set_parent NO_SLOT) t1).
    destruct (addRoot_slots c t2) as (A1 & A2 & A3 & _). cbn. rewrite A2, A3, <- R1, <- R4. split; [|done]. intros x.
    change (at_ (dirty_resolve _ _) x) with (at_ (addRoot c t2) x). rewrite (at_same t2 _ x A1). unfold t2. rewrite at_write by done. destruct (x =? c) eqn:E; bool_facts.
    + split; [|done]. rewrite <- R3. by subst x.
    + split; [apply R3|by apply D5].
  - destruct Hpl as [|Hpl]; [done|]. pose proof (live_inside t p Hpl) as Hp. rewrite (proj2 (has_inside t p) Hp). cbn [negb].
    destruct (c =? p) eqn:Ecp; [by left|]. bool_facts. destruct (isAncestorOf t c p); [by left|]. right.
    assert (Hc1' : inside t1 c /\ inside t1 p) by (unfold inside; by rewrite R1). destruct Hc1' as [Hci Hpi].
    change (dirty_resolve c (dirty_flush c _)) with (dirty_resolve c (dirty_flush c (adopt c p t1))).
    destruct (adopt_frame t1 _ c p D1 Hci Hpi Ecp D3) as (F1 & _ & _ & _ & _ & F6 & _). pose proof (adopt_links t1 _ c p D1 Hci Hpi Ecp D3) as HL. cbv zeta in HL.
    set (u := adopt c p t1) in *. clearbody u. cbn. rewrite F1, F6, <- R1, <- R4. split; [|done].
    intros x. change (at_ (dirty_resolve _ _) x) with (at_ u x). destruct (HL x) as (L1 & _ & _ & _ & _ & L6).
    rewrite L6, L1. split; [apply R3|]. intros Hx. rewrite (proj2 (Z.eqb_neq x c)) by done. by apply D5.
Qed.

Lemma link_settled t s c p : scene t s -> settled t -> live t c = true -> p = NO_SLOT \/ live t p = true -> settled (link c p t).
Proof.
  intros Hsc Hst Hc Hp. destruct (link_frame t s c p Hsc Hc Hp) as [->|(A & C & D)]; [done|]. assert (Hin : forall x, inside (link c p t) x <-> inside t x) by (intros x; unfold inside; by rewrite C).
  apply (settled_but t _ c Hst).
  - intros x Hx. right. left. by apply Hin.
  - intros d. rewrite D, elem_of_sadd, Hin. intros [->|Hd]; [by apply live_inside|by apply (se_dirty _ Hst)].
  - intros d _ Hd. rewrite D. apply elem_of_sadd. by right.
  - intros x Hx. destruct (A x) as [H1 H2]. split; [by apply H2|]. by apply local_parts.
  - left. destruct (A c) as [H1 _]. by apply local_parts.
  - intros _. left. rewrite D. apply elem_of_sadd. by left.
Qed.

(** ** Edits of a node's values *)

Definition flags_of (s : Slot) := (links_of s, s_resolved s, s_resolvedVisible s).

Lemma set_local_tree r fl f i t s : scene t s -> (forall x, flags_of (f x) = flags_of x) -> same_tree t (set_local r fl f i t).
Proof.
  intros Hsc Hf. pose proof (lk_count _ _ (sc_linked _ _ Hsc)) as Hn. unfold set_local. destruct (has t i) eqn:E; cbn [negb]; [|by split]. apply has_inside in E.
  assert (Ha : forall x, at_ (upd i f t) x = if x =? i then f (at_ t x) else at_ t x) by (intros x; apply at_write; unfold inside in E; lia).
  set (t' := if r then _ else _). assert (H : slots t' = slots (upd i f t) /\ count t' = count t /\ (rootOrder t' = rootOrder t /\ rootAt t' = rootAt t /\ rootHoles t' = rootHoles t)).
  { unfold t'. by destruct r, fl. }
  destruct H as (H1 & H2 & H3). split; [done|rewrite H1; apply len_upd| |done|].
  - intros x. rewrite (at_same _ t' x H1), Ha. destruct (x =? i); [|done]. pose proof (Hf (at_ t x)) as Hx. unfold flags_of in Hx. congruence.
  - intros x Hx. rewrite (at_same _ t' x H1), Ha. destruct (x =? i) eqn:Ei; [|done]. bool_facts. by subst.
Qed.

Lemma set_local_settled r fl f i t s : scene t s -> settled t -> (forall x, flags_of (f x) = flags_of x) ->
  (r = true \/ forall b x, compose b (f x) = compose b x) -> settled (set_local r fl f i t).
Proof.
  intros Hsc Hst Hf Hr. pose proof (lk_count _ _ (sc_linked _ _ Hsc)) as Hn. pose proof (set_local_tree r fl f i t s Hsc Hf) as Htree. pose proof (st_count _ _ Htree) as HC.
  unfold set_local in *. destruct (has t i) eqn:E; cbn [negb] in *; [|done]. apply has_inside in E.
  assert (Ha : forall x, at_ (upd i f t) x = if x =? i then f (at_ t x) else at_ t x) by (intros x; apply at_write; unfold inside in E; lia).
  set (t' := if r then _ else _) in *. assert (H : slots t' = slots (upd i f t) /\ resolveDirty t' = if r then sadd (resolveDirty t) i else resolveDirty t) by (unfold t'; by destruct r, fl).
  destruct H as [H1 H2]. clearbody t'. assert (Hat : forall x, at_ t' x = if x =? i then f (at_ t x) else at_ t x) by (intros x; by rewrite (at_same _ t' x H1)).
  assert (Hin : forall x, inside t' x <-> inside t x) by (intros x; unfold inside; by rewrite HC).
  assert (Hdirty : forall d, d ∈ resolveDirty t' <-> d ∈ resolveDirty t \/ (r = true /\ d = i)).
  { intros d. rewrite H2. destruct r; [rewrite elem_of_sadd; tauto|intuition congruence]. }
  apply (settled_but t _ i Hst).
  - intros x Hx. right. left. by apply Hin.
  - intros d [Hd|[_ ->]]%Hdirty; apply Hin; [by apply (se_dirty _ Hst)|done].
  - intros d _ Hd. apply Hdirty. by left.
  - intros x Hx. unfold res. by rewrite Hat, (proj2 (Z.eqb_neq x i)).
  - left. unfold res. rewrite Hat, Z.eqb_refl. pose proof (Hf (at_ t i)) as Hx. unfold flags_of in Hx. congruence.
  - intros _. destruct Hr as [->|Hr]; [left; apply Hdirty; by right|]. destruct (se_here _ Hst i E) as [Hd|H]; [left; apply Hdirty; by left|]. right.
    pose proof (Hf (at_ t i)) as Hx. unfold flags_of in Hx. unfold composed_here. rewrite (base_as t t').
    + unfold res. rewrite Hat, Z.eqb_refl, Hr. destruct (links_parent t t' i (st_links _ _ Htree i)) as (Hp & _). rewrite Hat, Z.eqb_refl in Hp. rewrite Hp.
      unfold composed_here, res in H. rewrite <- H. congruence.
    + intros x. unfold res. rewrite Hat. destruct (x =? i) eqn:Ex; [|done]. bool_facts. subst x. congruence.
Qed.

(** ** Histories *)

Inductive Edit :=
  | Position (x y z : num) | Visible (b : bool) | Rotation (d : num) | Scale (x y z : num) | Alpha (a : num) | Anchor (x y : num) | Tint (c : num)
  | NeverCull (b : bool) | Culled (b : bool) | Repaint.

Definition run_edit (i : Z) (e : Edit) : Graph -> Graph :=
  match e with
  | Position x y z => setPosition i x y z
  | Visible b => setVisible i b
  | Rotation d => setRotation i d
  | Scale x y z => setScale i x y z
  | Alpha a => setAlpha i a
  | Anchor x y => setAnchor i x y
  | Tint c => setTint i c
  | NeverCull b => setNeverCull i b
  | Culled b => setCulled i b
  | Repaint => markFlushDirty i
  end.

Inductive SceneOp :=
  | New (i : Z) | Link (c p : Z) | Unlink (c : Z) | Destroy (i : Z) | EditNode (i : Z) (e : Edit)
  | Resolve | MarkAll | DrainFlush | DrainResolved | Clear.

Definition run_op (o : SceneOp) (t : Graph) : Graph :=
  match o with
  | New i => initSlot i t
  | Link c p => link c p t
  | Unlink c => unlink c t
  | Destroy i => destroySubtree i t
  | EditNode i e => run_edit i e t
  | Resolve => resolve t
  | MarkAll => markAllDirty t
  | DrainFlush => (consumeFlushDirty t).2
  | DrainResolved => (consumeResolvedDirty t).2
  | Clear => clear t
  end.

(** What the handle table and the renderer's checks leave of the calls: a slot is taken
    when it is free, and only nodes are linked. *)
Definition allowed (t : Graph) (o : SceneOp) : bool :=
  match o with
  | New i => (0 <=? i) && negb (live t i)
  | Link c p => live t c && ((p =? NO_SLOT) || live t p)
  | _ => true
  end.

Fixpoint run_scene (ops : list SceneOp) (t : Graph) : option Graph :=
  match ops with
  | [] => Some t
  | o :: ops => if allowed t o then run_scene ops (run_op o t) else None
  end.

(** The same operations on lists of children. *)
Inductive grows : SceneOp -> Forest -> Forest -> Prop :=
  | grows_new i s : grows (New i) s (as_root i s)
  | grows_link c p s s' : linked_as s c p s' -> grows (Link c p) s s'
  | grows_unlink c p s : c ∈ fo_kids s p -> grows (Unlink c) s (as_root c (without c s))
  | grows_unlink_top c s : (forall p, c ∉ fo_kids s p) -> grows (Unlink c) s s
  | grows_destroy i s l : (forall x, x ∈ l <-> under s i x) -> grows (Destroy i) s (forget_all l s)
  | grows_destroy_none i s : (i ∉ fo_roots s) -> (forall p, i ∉ fo_kids s p) -> grows (Destroy i) s s
  | grows_edit i e s : grows (EditNode i e) s s
  | grows_resolve s : grows Resolve s s
  | grows_mark s : grows MarkAll s s
  | grows_flush s : grows DrainFlush s s
  | grows_drain s : grows DrainResolved s s
  | grows_clear s : grows Clear s new_forest.

Inductive grown : list SceneOp -> Forest -> Forest -> Prop :=
  | grown_none s : grown [] s s
  | grown_step o ops s s' s'' : grows o s s' -> grown ops s' s'' -> grown (o :: ops) s s''.

Record good (t : Graph) (s : Forest) : Prop := { gd_scene : scene t s; gd_settled : settled t }.

Lemma destroy_good t s i : good t s -> inside t i -> exists l, (forall x, x ∈ l <-> under s i x) /\ good (destroySubtree i t) (forget_all l s).
Proof.
  intros Hg Hi. destruct (subtree_spec t s i (sc_linked _ _ (gd_scene _ _ Hg)) Hi) as (Hnd & Hu & Hp & Hin). unfold destroySubtree. set (l := subtree t i true) in *.
  exists l. split; [done|]. clearbody l. clear Hu Hi.
  assert (H : good (foldr releaseSlot t l) (forget_all l s) /\ count (foldr releaseSlot t l) = count t); [|by destruct H].
  induction l as [|x l IH]; [done|]. cbn [foldr forget_all]. destruct Hp as [Hk Hp]. apply NoDup_cons in Hnd as [Hx Hnd].
  destruct IH as [IH IHc]; [done|done|intros y Hy; apply Hin; by right|].
  assert (Hix : inside (foldr releaseSlot t l) x) by (unfold inside; rewrite IHc; apply Hin; left).
  change (foldr without s l) with (forget_all l s). assert (Hleaf : fo_kids (forget_all l s) x = []).
  { rewrite forget_all_kids. apply filter_false. intros c Hc. specialize (Hk c Hc). rewrite app_nil_r in Hk. tauto. }
  destruct IH as [IHs IHt]. split.
  - split; [by apply release_scene|by apply (release_settled _ (forget_all l s))].
  - by destruct (release_at _ _ x (sc_linked _ _ IHs) Hix) as (_ & -> & _).
Qed.

Lemma edit_good t s i e : good t s -> good (run_edit i e t) s.
Proof.
  intros [Hsc Hst]. assert (H : forall r fl f, (forall x, flags_of (f x) = flags_of x) -> (r = true \/ forall b x, compose b (f x) = compose b x) -> good (set_local r fl f i t) s).
  { intros r fl f Hf Hr. split; [apply (same_tree_scene t); [by apply (set_local_tree _ _ _ _ _ s)|done]|by apply (set_local_settled _ _ _ _ _ s)]. }
  destruct e; apply H; auto.
Qed.

Lemma mark_one_frame t i : let t' := mark_one t i in slots t' = slots t /\ count t' = count t /\ rootOrder t' = rootOrder t /\ rootAt t' = rootAt t /\ rootHoles t' = rootHoles t
  /\ (forall d, d ∈ resolveDirty t -> d ∈ resolveDirty t') /\ (forall d, d ∈ resolveDirty t' -> d = i \/ d ∈ resolveDirty t).
Proof.
  cbv zeta. unfold mark_one. destruct (_ =? NO_SLOT); cbn; split_and!; try done; try (intros d; rewrite elem_of_sadd; tauto). intros d. tauto.
Qed.

Lemma settled_more t t' : settled t -> slots t' = slots t -> count t' = count t -> (forall d, d ∈ resolveDirty t -> d ∈ resolveDirty t') ->
  (forall d, d ∈ resolveDirty t' -> inside t d) -> settled t'.
Proof.
  intros Hst Hs Hc Hk HD. assert (Ha : forall x, at_ t' x = at_ t x) by (intros x; by apply at_same). split.
  - intros d Hd. unfold inside. rewrite Hc. by apply HD.
  - intros i Hi. unfold inside in Hi. rewrite Hc in Hi. destruct (se_here _ Hst i Hi) as [H|H]; [left; auto|]. right.
    apply (composed_as t); [unfold res; by rewrite Ha|rewrite Ha; apply base_as; intros x; unfold res; by rewrite Ha|by rewrite Ha|done].
Qed.

Lemma mark_good t s l : good t s -> (forall x, x ∈ l -> inside t x) -> good (foldl mark_one t l) s.
Proof.
  revert t. induction l as [|x l IH]; intros t [Hsc Hst] Hin; [done|]. cbn [foldl]. destruct (mark_one_frame t x) as (M1 & M2 & M3 & M4 & M5 & M6 & M7). apply IH.
  - split; [by apply (scene_same t)|]. apply (settled_more t); try done. intros d [->|Hd]%M7; [apply Hin; left|by apply (se_dirty _ Hst)].
  - intros y Hy. unfold inside. rewrite M2. apply Hin. by right.
Qed.

Lemma empty_good t : count t = 0 -> rootOrder t = [] -> rootAt t = [] -> rootHoles t = 0 -> resolveDirty t = [] -> (forall i, at_ t i = raw_slot \/ at_ t i = default_slot) ->
  good t new_forest.
Proof.
  intros Hc H1 H2 H3 H4 Ha. assert (Hno : forall i, ~ inside t i) by (unfold inside; lia). split; [split; [split| | |]|].
  all: try (intros i Hi; by destruct (Hno i)).
  - rewrite Hc. unfold arr_len. lia.
  - done.
  - intros p c. cbn. split; [by intros Hx%not_elem_of_nil|]. intros (Hx & _). by destruct (Hno c).
  - intros p. constructor.
  - intros i _. apply Ha.
  - split; rewrite ?H1, ?H2, ?H3; try done; [|constructor]. intros i k. split; [done|]. by intros (_ & _ & Hk).
  - intros i Hi. by apply not_elem_of_nil in Hi.
  - split; [rewrite H4; intros d Hd; by apply not_elem_of_nil in Hd|]. intros i Hi. by destruct (Hno i).
Qed.

Lemma start_good : good new_graph new_forest.
Proof.
  apply empty_good; try done. intros i. left. unfold at_, arr_get. destruct (0 <=? i); [|done]. cbn [slots new_graph].
  destruct (replicate 64 raw_slot !! Z.to_nat i) eqn:E; [by apply lookup_replicate in E as [-> _]|done].
Qed.

Lemma at_resets l t x : (forall i, i ∈ l -> 0 <= i < arr_len (slots t)) -> let t' := foldl (fun t i => reset i t) t l in
  at_ t' x = if bool_decide (x ∈ l) then default_slot else at_ t x.
Proof.
  revert t. induction l as [|i l IH]; intros t Hl; [done|]. cbn [foldl].
  assert (Hi : 0 <= i < arr_len (slots t)) by (apply Hl; left). cbv zeta in IH. rewrite IH by (intros j Hj; unfold reset; rewrite len_upd; apply Hl; by right).
  unfold reset. rewrite at_write by done. destruct (bool_decide (x ∈ l)) eqn:E; bool_facts; [by rewrite bool_decide_true by (by right)|].
  destruct (x =? i) eqn:Ei; bool_facts; [by rewrite bool_decide_true by (subst; left)|]. rewrite bool_decide_false; [done|]. by rewrite elem_of_cons; intros [?|?].
Qed.

Lemma clear_good t s : good t s -> good (clear t) new_forest.
Proof.
  intros [[Hl _ _ _] _]. pose proof (lk_count _ _ Hl) as Hc. apply empty_good; try done. intros i.
  change (at_ (clear t) i) with (at_ (foldl (fun t i => reset i t) t (seqZ 0 (count t))) i). rewrite at_resets by (intros j Hj%elem_of_seqZ; lia).
  destruct (bool_decide (i ∈ seqZ 0 (count t))) eqn:E; bool_facts; [by right|]. apply (lk_unused _ _ Hl). intros Hi. apply E, elem_of_seqZ. unfold inside in Hi. lia.
Qed.

Lemma link_good t s c p : good t s -> live t c = true -> p = NO_SLOT \/ live t p = true -> exists s', good (link c p t) s' /\ linked_as s c p s'.
Proof.
  intros [Hsc Hst] Hc Hp. destruct (link_scene t s c p Hsc Hc Hp) as (s' & H1 & H2). exists s'. split; [|done]. split; [done|by apply (link_settled t s)].
Qed.

Lemma unlink_good t s c : good t s -> exists s', good (unlink c t) s' /\ grows (Unlink c) s s'.
Proof.
  intros Hg. pose proof (sc_linked _ _ (gd_scene _ _ Hg)) as Hl. unfold unlink.
  assert (Hno : ~ inside t c \/ s_parent (at_ t c) = NO_SLOT -> grows (Unlink c) s s).
  { intros H. apply grows_unlink_top. intros p (K1 & K2 & K3)%(lk_kids _ _ Hl). destruct H; [done|congruence]. }
  destruct (has t c) eqn:E; cbn [negb]; [|exists s; split; [done|apply Hno; left; by rewrite <- has_inside, E]].
  destruct (s_parent (at_ t c) =? NO_SLOT) eqn:Ep; bool_facts; [exists s; split; [done|by apply Hno; right]|].
  assert (Hin : c ∈ fo_kids s (s_parent (at_ t c))) by (apply (lk_kids _ _ Hl); split_and!; [by apply has_inside|done|done]).
  assert (Hlive : live t c = true) by (apply (live_spec t s); [apply Hg|right; by eexists]).
  destruct (link_good t s c NO_SLOT Hg Hlive ltac:(by left)) as (s' & H1 & H2). exists s'. split; [done|]. inversion H2; [|done|done].
  by apply (grows_unlink c (s_parent (at_ t c))).
Qed.

Lemma step_good t s o : good t s -> allowed t o = true -> exists s', good (run_op o t) s' /\ grows o s s'.
Proof.
  intros Hg Ha. pose proof Hg as [Hsc Hst]. destruct o as [i|c p|c|i|i e| | | | |]; cbn [allowed run_op] in *.
  - apply andb_true_iff in Ha as [Hi%Z.leb_le Hn%negb_true_iff]. exists (as_root i s). split; [|constructor].
    split; [by apply init_scene|by apply (init_settled t s)].
  - apply andb_true_iff in Ha as [Hc Hp]. apply orb_true_iff in Hp. destruct (link_good t s c p Hg Hc) as (s' & H1 & H2); [destruct Hp; [left; by bool_facts|by right]|].
    exists s'. split; [done|by apply grows_link].
  - by apply unlink_good.
  - destruct (has t i) eqn:E.
    + destruct (destroy_good t s i Hg (proj1 (has_inside t i) E)) as (l & H1 & H2). exists (forget_all l s). split; [done|by apply grows_destroy].
    + exists s. unfold destroySubtree, subtree. rewrite E. split; [done|]. assert (Hn : live t i = false) by (unfold live; by rewrite E).
      destruct (not_live t s i Hsc Hn) as (N1 & N2 & _). by apply grows_destroy_none.
  - exists s. split; [by apply edit_good|constructor].
  - exists s. pose proof (resolve_result t s (sc_linked _ _ Hsc) Hst) as Hr. split; [|constructor].
    split; [apply (same_tree_scene t); [apply reresolved_tree, Hr|done]|by apply (resolved_settled t)].
  - exists s. split; [|constructor]. apply mark_good; [done|]. intros x Hx%elem_of_seqZ. unfold inside. lia.
  - exists s. split; [|constructor]. split; [by apply (scene_same t)|]. apply (settled_more t); try done. apply Hst.
  - exists s. split; [|constructor]. split; [by apply (scene_same t)|]. apply (settled_more t); try done. apply Hst.
  - exists new_forest. split; [by apply (clear_good t s)|constructor].
Qed.

Lemma run_good ops t s t' : good t s -> run_scene ops t = Some t' -> exists s', good t' s' /\ grown ops s s'.
Proof.
  revert t s. induction ops as [|o ops IH]; intros t s Hg H; cbn [run_scene] in H; [simplify_eq; exists s; split; [done|constructor]|].
  destruct (allowed t o) eqn:E; [|done]. destruct (step_good t s o Hg E) as (s1 & G1 & H1). destruct (IH _ s1 G1 H) as (s2 & G2 & H2).
  exists s2. split; [done|by apply (grown_step o ops s s1)].
Qed.

(** C39. The renderer's transform graph keeps its tree in five intrusive link arrays and its
    roots in an array with tombstones. Whatever history of node creation, linking,
    unlinking, destruction, edits and passes has run, they stand for the forest of child
    lists that the same operations make on lists: [children] and [roots] read those lists
    in order, a link that would make a node its own ancestor changes nothing, a destroyed
    subtree is gone whole, and the root order never holds more tombstones than roots. *)
Theorem scene_tree_refines_lists ops t : run_scene ops new_graph = Some t ->
  exists s, grown ops new_forest s /\ (forall p, children t p = fo_kids s p) /\ roots t = fo_roots s
    /\ (forall i, inside t i -> NoDup (subtree t i true) /\ forall x, x ∈ subtree t i true <-> under s i x)
    /\ arr_len (rootOrder t) <= 2 * arr_len (roots t).
Proof.
  intros H. destruct (run_good ops new_graph new_forest t start_good H) as (s & [Hsc _] & Hg). pose proof (sc_linked _ _ Hsc) as Hl. exists s. split; [done|].
  split; [intros p; by apply children_spec|]. split; [by apply roots_spec|]. split.
  - intros i Hi. by destruct (subtree_spec t s i Hl Hi) as (? & ? & _).
  - rewrite (roots_spec t s Hsc). destruct (rt_holes _ _ (sc_rooted _ _ Hsc)). unfold arr_len in *. lia.
Qed.

(** C21. Resolving visits only what lies under a pending node, and each node once; yet after
    any history a [resolve] leaves every node's resolved position and visibility what a
    recomposition along its whole line of ancestors gives, with the local values and the
    links as they were, nothing pending, no more visits than slots, and every node whose
    resolved values changed in the set the renderer drains. *)
Theorem resolve_recomposes ops t : run_scene ops new_graph = Some t -> let t' := resolve t in
  (forall i, inside t i -> res t' i = recompose (Z.to_nat (count t)) t i)
  /\ resolveDirty t' = [] /\ 0 <= visits t' <= count t
  /\ (forall i, own_of (at_ t' i) = own_of (at_ t i) /\ links_of (at_ t' i) = links_of (at_ t i))
  /\ forall i, inside t i -> res t' i <> res t i -> same_resolved (res t' i) (res t i) = true \/ i ∈ resolvedChanged t'.
Proof.
  intros H t'. destruct (run_good ops new_graph new_forest t start_good H) as (s & [Hsc Hst] & _). pose proof (sc_linked _ _ Hsc) as Hl.
  pose proof (resolve_result t s Hl Hst) as Hr. split; [by apply (resolved_recomposes t t' s)|]. destruct Hr as [R1 _ R3 R4 R5]. split; [done|]. split; [done|]. split.
  - intros i. split; [apply R1|apply R1].
  - intros i Hi Hne. destruct (R5 i Hi) as [?|[?|?]]; [by left|done|by right].
Qed.

(** A parent, two children and a grandchild; the parent moves, and the grandchild is
    moved to the root. *)
Abbreviation scene_run := [New 0; New 1; New 2; New 3; Link 1 0; Link 2 0; Link 3 1; Resolve; DrainResolved;
  EditNode 0 (Position f1 f1 f0); EditNode 3 (Position f1 f0 f0); Link 0 3; EditNode 2 (Visible false)].

Lemma scene_tree_refines_lists_witness : exists t, run_scene scene_run new_graph = Some t /\ children t 0 = [1; 2] /\ roots t = [0] /\ subtree t 0 true = [0; 1; 2; 3]
  /\ exists s, grown scene_run new_forest s /\ fo_kids s 0 = [1; 2].
Proof.
  destruct (run_scene scene_run new_graph) as [t|] eqn:E; [|vm_compute in E; discriminate E]. exists t. pose proof (scene_tree_refines_lists scene_run t E) as (s & Hg & Hk & _).
  assert (H : (fun u => (children u 0, roots u, subtree u 0 true)) <$> run_scene scene_run new_graph = Some ([1; 2], [0], [0; 1; 2; 3])) by (vm_compute; reflexivity).
  rewrite E in H. injection H as H1 H2 H3. split; [done|]. split; [done|]. split; [done|]. split; [done|]. exists s. split; [done|]. by rewrite <- Hk.
Defined.

Lemma resolve_recomposes_witness : exists t, run_scene scene_run new_graph = Some t /\ visits (resolve t) = 4 /\ resolved (resolve t) 3 = (of_Z 2, f1, f0)
  /\ resolvedVisible (resolve t) 2 = false /\ res (resolve t) 3 = recompose (Z.to_nat (count t)) t 3.
Proof.
  destruct (run_scene scene_run new_graph) as [t|] eqn:E; [|vm_compute in E; discriminate E]. exists t. pose proof (resolve_recomposes scene_run t E) as (Hr & _).
  assert (H : (fun u => (visits (resolve u), resolved (resolve u) 3, resolvedVisible (resolve u) 2, has u 3)) <$> run_scene scene_run new_graph
    = Some (4, (of_Z 2, f1, f0), false, true)) by (vm_compute; reflexivity).
  rewrite E in H. injection H as H1 H2 H3 H4. apply has_inside in H4. exact (conj eq_refl (conj H1 (conj H2 (conj H3 (Hr 3 H4))))).
Defined.
