(* ===== verification/Stage.v ===== *)
(** * The renderer's scene ([packages/renderer/src/core/renderer-core.ts], with
    [node-store.ts], [surfaces.ts] and [scene-sink.ts])

    [RendererCore] keeps a handle table of nodes beside the transform graph of [Scene], one
    slot for both, and tells a backend what to do through a sink. The backend is a library:
    what it is told is kept as the list of calls. A method that may throw gives the error
    with the stage as the throw leaves it. *)

From S2P Require Import Prelude JsMap JsNum Json Handle TransformStore SlotTable Scene.

Local Open Scope Z_scope.

(** ** Surfaces *)

Inductive Surface := editorSpace | world | ui | editorOverlay | editorUi.
#[export] Instance Surface_eq_dec : EqDecision Surface.
Proof. solve_decision. Defined.

Definition SURFACE_ORDER : list Surface := [editorSpace; world; ui; editorOverlay; editorUi].
Definition DEFAULT_SURFACES : list Surface := [world; ui].
Definition CAMERA_TRANSFORMED : list Surface := [editorSpace; world; editorOverlay].
Definition CLIPPED_WHEN_LETTERBOXED : list Surface := [editorSpace; world; ui].

Fixpoint position_in (x : Surface) (l : list Surface) (i : Z) : Z :=
  match l with [] => -1 | y :: l => if decide (x = y) then i else position_in x l (i + 1) end.

Definition surfaceOrder (s : Surface) : Z := position_in s SURFACE_ORDER 0.
Definition isCameraTransformed (s : Surface) : bool := bool_decide (s ∈ CAMERA_TRANSFORMED).
Definition isScreenSpace (s : Surface) : bool := negb (isCameraTransformed s).
Definition isClippedWhenLetterboxed (s : Surface) : bool := bool_decide (s ∈ CLIPPED_WHEN_LETTERBOXED).

(** ** Nodes *)

Inductive NodeKind := sprite | group | text.
#[export] Instance NodeKind_eq_dec : EqDecision NodeKind.
Proof. solve_decision. Defined.

(** A style and an anchor are passed through. *)
Record NodeRecord := MkNode {
  n_kind : NodeKind;
  n_surface : Surface;
  n_texture : jstr;
  n_text : jstr;
  n_style : option json;
  n_uiAnchor : option jstr;
  n_layer : num;
}.

Definition NO_NODE : Z := 0.

(** What a create and a patch both carry. *)
Record Fields := MkFields {
  f_position : option (num * num * option num);
  f_rotation : option num;
  f_scale : option (num * num * option num);
  f_anchor : option (num * num);
  f_alpha : option num;
  f_visible : option bool;
  f_tint : option num;
}.
Definition no_fields : Fields := MkFields None None None None None None None.

Inductive DescKind := ASprite (texture : jstr) | AGroup | AText (text : jstr) (style : option json).

Record NodeDesc := MkDesc {
  d_kind : DescKind;
  d_surface : option Surface;
  d_parent : option Z;
  d_fields : Fields;
  d_neverCull : option bool;
  d_layer : option num;
  d_uiAnchor : option jstr;
}.

Record SubtreeNodeDesc := MkSub { parentInBatch : option Z; desc : NodeDesc }.

Record NodePatch := MkPatch {
  p_id : Z;
  p_parent : option Z;
  p_fields : Fields;
  p_layer : option num;
  p_texture : option jstr;
  p_text : option jstr;
}.

Inductive renderer_error := SurfaceDisabled | CrossSurfaceParent | Cycle | TextOnWorldSurface | InvalidNodeDesc | NoSlots (e : table_error).

(** ** The stage *)

Inductive SinkCall :=
  | SCreate (index : Z) (record : NodeRecord) (parent : Z)
  | SReparent (index : Z) (record : NodeRecord) (parent : Z)
  | SDestroySubtree (subtree : list Z)
  | SWrite (index : Z) (record : NodeRecord)
  | SSetTexture (index : Z) (record : NodeRecord)
  | SSetText (index : Z) (text : jstr)
  | SSetLayer (index : Z) (layer : num)
  | SClearAll.

Record Stage := MkStage {
  nodes : SlotTable NodeRecord;
  xf : Graph;
  enabledSurfaces : list Surface;
  sunk : list SinkCall;
}.

Definition new_stage (enabled : list Surface) : Stage := MkStage (new_table "NodeStore") new_graph enabled [].

Definition with_nodes n st := MkStage n (xf st) (enabledSurfaces st) (sunk st).
Definition with_xf t st := MkStage (nodes st) t (enabledSurfaces st) (sunk st).
Definition on_xf (f : Graph -> Graph) st := with_xf (f (xf st)) st.
Definition sink c st := MkStage (nodes st) (xf st) (enabledSurfaces st) (sunk st ++ [c]).

(** What a method leaves: its result or what it throws, and the stage. *)
Definition act (A : Type) : Type := outcome renderer_error A * Stage.

Definition isSurfaceEnabled (st : Stage) (s : Surface) : bool := bool_decide (s ∈ enabledSurfaces st).

(** ** Transform fields *)

Definition writePosition i (v : num * num * option num) : Graph -> Graph :=
  let '(x, y, z) := v in setPosition i (finiteOr x f0) (finiteOr y f0) (finiteOr (nullish z f0) f0).
Definition writeScale i (v : num * num * option num) : Graph -> Graph :=
  let '(x, y, z) := v in setScale i (finiteOr x f1) (finiteOr y f1) (finiteOr (nullish z f1) f1).
Definition writeAnchor i (v : num * num) : Graph -> Graph := setAnchor i (finiteOr v.1 half) (finiteOr v.2 half).

Definition when_some {A B} (o : option A) (f : A -> B -> B) (b : B) : B := match o with Some a => f a b | None => b end.

Definition writeTransformFields (i : Z) (fields : Fields) (t : Graph) : Graph :=
  let t := when_some (f_position fields) (writePosition i) t in
  let t := when_some (f_rotation fields) (fun d => setRotation i (finiteOr d f0)) t in
  let t := when_some (f_scale fields) (writeScale i) t in
  let t := when_some (f_anchor fields) (writeAnchor i) t in
  let t := when_some (f_alpha fields) (fun a => setAlpha i (finiteOr a f1)) t in
  let t := when_some (f_visible fields) (setVisible i) t in
  when_some (f_tint fields) (fun c => setTint i (finiteOr c WHITE)) t.

(** ** Creating *)

Definition resolveParent (st : Stage) (parent : option Z) (surface : Surface) : outcome renderer_error Z :=
  match parent with
  | None => Ok NO_SLOT
  | Some p =>
      if p =? NO_NODE then Ok NO_SLOT
      else
        let i := indexOf (nodes st) p in
        if i <? 0 then Ok NO_SLOT
        else match recordAt (nodes st) i with
             | None => Ok NO_SLOT
             | Some r => if decide (n_surface r = surface) then Ok i else Throw CrossSurfaceParent
             end
  end.

Definition record_of (d : NodeDesc) (surface : Surface) : NodeRecord :=
  MkNode (match d_kind d with ASprite _ => sprite | AGroup => group | AText _ _ => text end) surface
    (match d_kind d with ASprite t => t | _ => [] end)
    (match d_kind d with AText t _ => t | _ => [] end)
    (match d_kind d with AText _ s => s | _ => None end)
    (d_uiAnchor d) (nullish (d_layer d) f0).

Definition createNode (d : NodeDesc) (st : Stage) : act Z :=
  let surface := nullish (d_surface d) world in
  if negb (isSurfaceEnabled st surface) then (Throw SurfaceDisabled, st)
  else if match d_kind d with AText _ _ => isCameraTransformed surface | _ => false end then (Throw TextOnWorldSurface, st)
  else if match d_kind d with ASprite [] => true | _ => false end then (Throw InvalidNodeDesc, st)
  else match resolveParent st (d_parent d) surface with
       | Throw e => (Throw e, st)
       | Ok p =>
           let r := record_of d surface in
           match create (nodes st) r with
           | Throw e => (Throw (NoSlots e), st)
           | Ok (id, n) =>
               let i := indexOf n id in
               let t := writeTransformFields i (d_fields d) (Scene.initSlot i (xf st)) in
               let t := when_some (d_neverCull d) (setNeverCull i) t in
               let t := if 0 <=? p then link i p t else t in
               (Ok id, sink (SCreate i r p) (with_xf t (with_nodes n st)))
           end
       end.

(** ** Destroying *)

Definition release_slot (i : Z) (st : Stage) : Stage := with_nodes (releaseAt (nodes st) i) (on_xf (Scene.releaseSlot i) st).

Definition destroyNode (id : Z) (st : Stage) : Stage :=
  let i := indexOf (nodes st) id in
  if i <? 0 then st
  else
    let l := subtree (xf st) i true in
    foldr release_slot (sink (SDestroySubtree l) st) l.

(** ** The tree *)

(** Relinks under [p]; asked to keep the resolved position, rewrites the local one. *)
Definition relinkAt (i p : Z) (keep : bool) (t : Graph) : Graph :=
  if negb keep then if p =? NO_SLOT then unlink i t else link i p t
  else
    let t := resolve t in
    let '(wx, wy, wz) := resolved t i in
    if p =? NO_SLOT then setPosition i wx wy wz (unlink i t)
    else
      let t := resolve (link i p t) in
      let '(bx, by_, bz) := resolved t p in
      setPosition i (fsub wx bx) (fsub wy by_) (fsub wz bz) t.

Definition attachAt (i : Z) (parent : Z) (keep : bool) (st : Stage) : act unit :=
  let p := indexOf (nodes st) parent in
  if p <? 0 then (Ok tt, st)
  else match recordAt (nodes st) i, recordAt (nodes st) p with
       | Some c, Some r =>
           if decide (n_surface c <> n_surface r) then (Throw CrossSurfaceParent, st)
           else if isAncestorOf (xf st) i p then (Throw Cycle, st)
           else (Ok tt, sink (SReparent i c p) (on_xf (relinkAt i p keep) st))
       | _, _ => (Ok tt, st)
       end.

Definition detachAt (i : Z) (keep : bool) (st : Stage) : Stage :=
  if parent (xf st) i =? NO_SLOT then st
  else
    let st := on_xf (relinkAt i NO_SLOT keep) st in
    match recordAt (nodes st) i with
    | Some r => sink (SReparent i r NO_SLOT) st
    | None => st
    end.

Definition attachNode (child parent : Z) (keep : option bool) (st : Stage) : act unit :=
  let i := indexOf (nodes st) child in
  if i <? 0 then (Ok tt, st) else attachAt i parent (nullish keep false) st.

Definition detachNode (child : Z) (keep : option bool) (st : Stage) : Stage :=
  let i := indexOf (nodes st) child in
  if i <? 0 then st else detachAt i (nullish keep true) st.

(** ** Batches *)

Definition surfaceOf (st : Stage) (id : Z) : option Surface :=
  let i := indexOf (nodes st) id in
  if i <? 0 then None else n_surface <$> recordAt (nodes st) i.

(** [createNodes]: no throw is undone. *)
Fixpoint createNodes (descs : list NodeDesc) (out : list Z) (st : Stage) : act (list Z) :=
  match descs with
  | [] => (Ok out, st)
  | d :: descs =>
      match createNode d st with
      | (Ok id, st) => createNodes descs (out ++ [id]) st
      | (Throw e, st) => (Throw e, st)
      end
  end.

Definition createInBatch (d : SubtreeNodeDesc) (at_ : Z) (created : list Z) (st : Stage) : act Z :=
  match parentInBatch d with
  | None => createNode (desc d) st
  | Some p =>
      if (p <? 0) || (at_ <=? p) then (Throw InvalidNodeDesc, st)
      else
        let parent := nullish (arr_get created p) NO_NODE in
        let surface := nullish (match d_surface (desc d) with Some s => Some s | None => surfaceOf st parent end) world in
        let d := desc d in
        createNode (MkDesc (d_kind d) (Some surface) (Some parent) (d_fields d) (d_neverCull d) (d_layer d) (d_uiAnchor d)) st
  end.

(** The loop, [out] the nodes made so far; on a throw they are destroyed, the last first. *)
Fixpoint createAll (descs : list SubtreeNodeDesc) (out : list Z) (st : Stage) : act (list Z) :=
  match descs with
  | [] => (Ok out, st)
  | d :: descs =>
      match createInBatch d (arr_len out) out st with
      | (Ok id, st) => createAll descs (out ++ [id]) st
      | (Throw e, st) => (Throw e, foldr destroyNode st out)
      end
  end.

Definition createSubtree (descs : list SubtreeNodeDesc) (st : Stage) : act (list Z) := createAll descs [] st.

(** ** Patches *)

Definition set_layer l r := MkNode (n_kind r) (n_surface r) (n_texture r) (n_text r) (n_style r) (n_uiAnchor r) l.
Definition set_texture t r := MkNode (n_kind r) (n_surface r) t (n_text r) (n_style r) (n_uiAnchor r) (n_layer r).
Definition set_text t r := MkNode (n_kind r) (n_surface r) (n_texture r) t (n_style r) (n_uiAnchor r) (n_layer r).

(** A write to the record a slot holds, which the table stores by reference. *)
Definition put_record (i : Z) (r : NodeRecord) (st : Stage) : Stage :=
  let n := nodes st in with_nodes (MkTable (arr_set (records n) i (Some r)) (generations n) (freeList n) (SlotTable.live n) (label n)) st.

Definition record_at (i : Z) (r : NodeRecord) (st : Stage) : NodeRecord := nullish (recordAt (nodes st) i) r.

Definition applyPatchAt (i : Z) (r : NodeRecord) (p : NodePatch) (st : Stage) : Stage :=
  let st := on_xf (writeTransformFields i (p_fields p)) st in
  let st := when_some (p_layer p) (fun l st => let l := finiteOr l f0 in sink (SSetLayer i l) (put_record i (set_layer l r) st)) st in
  let r := record_at i r st in
  let st :=
    match p_texture p with
    | Some t => if decide (n_kind r = sprite) then on_xf (markFlushDirty i) (sink (SSetTexture i (set_texture t r)) (put_record i (set_texture t r) st)) else st
    | None => st
    end in
  let r := record_at i r st in
  match p_text p with
  | Some t => if decide (n_kind r = text) then on_xf (markFlushDirty i) (sink (SSetText i t) (put_record i (set_text t r) st)) else st
  | None => st
  end.

Definition reparent_patch (i : Z) (p : NodePatch) (st : Stage) : act unit :=
  match p_parent p with
  | None => (Ok tt, st)
  | Some q => if q =? NO_NODE then (Ok tt, detachAt i true st) else attachAt i q false st
  end.

Definition updateNode (p : NodePatch) (st : Stage) : act unit :=
  let i := indexOf (nodes st) (p_id p) in
  if i <? 0 then (Ok tt, st)
  else match recordAt (nodes st) i with
       | None => (Ok tt, st)
       | Some r =>
           match reparent_patch i p st with
           | (Ok _, st) => (Ok tt, applyPatchAt i r p st)
           | (Throw e, st) => (Throw e, st)
           end
       end.

Fixpoint updateNodes (patches : list NodePatch) (st : Stage) : act unit :=
  match patches with
  | [] => (Ok tt, st)
  | p :: patches =>
      match updateNode p st with
      | (Ok _, st) => updateNodes patches st
      | (Throw e, st) => (Throw e, st)
      end
  end.

Definition patch_slot (p : NodePatch) (st : Stage) (i : Z) : Stage :=
  match recordAt (nodes st) i with Some r => applyPatchAt i r p st | None => st end.

Definition updateSubtree (root : Z) (p : NodePatch) (includeRoot : option bool) (st : Stage) : Stage :=
  let i := indexOf (nodes st) root in
  if i <? 0 then st else foldl (patch_slot p) st (subtree (xf st) i (nullish includeRoot true)).

Definition setNodeText (id : Z) (t : jstr) (st : Stage) : Stage :=
  let i := indexOf (nodes st) id in
  if i <? 0 then st
  else match recordAt (nodes st) i with
       | None => st
       | Some r => if decide (n_kind r = text) then on_xf (markFlushDirty i) (sink (SSetText i t) (put_record i (set_text t r) st)) else st
       end.

(** ** Clearing *)

Definition clear_root (surface : Surface) (st : Stage) (slot : Z) : Stage :=
  match recordAt (nodes st) slot with
  | Some r => if decide (n_surface r = surface) then if parent (xf st) slot =? NO_SLOT then destroyNode (idAt (nodes st) slot) st else st else st
  | None => st
  end.

Definition clear (surface : option Surface) (st : Stage) : Stage :=
  match surface with
  | None => let st := sink SClearAll st in with_xf (Scene.clear (xf st)) (with_nodes (SlotTable.clear (nodes st)) st)
  | Some s => foldl (clear_root s) st (liveIndices (nodes st))
  end.

(** ** Reading *)

Definition parentOf (st : Stage) (id : Z) : Z :=
  let i := indexOf (nodes st) id in
  if i <? 0 then NO_NODE
  else let p := parent (xf st) i in if p =? NO_SLOT then NO_NODE else idAt (nodes st) p.

Definition childrenOf (st : Stage) (id : Z) : list Z :=
  let i := indexOf (nodes st) id in
  if i <? 0 then [] else filter (fun c => c <> NO_NODE) (idAt (nodes st) <$> children (xf st) i).

(** ** Rebuilding, after the backend lost its context *)

Definition recreate_one (st : Stage) (slot : Z) : Stage :=
  match recordAt (nodes st) slot with
  | None => st
  | Some r => sink (SCreate slot r (parent (xf st) slot)) st
  end.

(** Up to the flush, which draws the scene again. *)
Definition recreate (st : Stage) : Stage :=
  on_xf markAllDirty (foldl (fun st root => foldl recreate_one st (subtree (xf st) root true)) (sink SClearAll st) (roots (xf st))).

(** ** What the backend is showing *)

(** Each node the backend was told of, with the node it hangs under. A call about a node it
    does not show, or under one, has no rule. *)
Inductive shows : SinkCall -> gmap Z Z -> gmap Z Z -> Prop :=
  | shows_create i r p m : m !! i = None -> p = NO_SLOT \/ is_Some (m !! p) -> shows (SCreate i r p) m (<[i := p]> m)
  | shows_reparent i r p m : is_Some (m !! i) -> p = NO_SLOT \/ is_Some (m !! p) -> shows (SReparent i r p) m (<[i := p]> m)
  | shows_destroy l m : (forall x, x ∈ l -> is_Some (m !! x)) -> (forall x p, m !! x = Some p -> p ∈ l -> x ∈ l) ->
      shows (SDestroySubtree l) m (filter (fun '(x, _) => x ∉ l) m)
  | shows_write i r m : is_Some (m !! i) -> shows (SWrite i r) m m
  | shows_texture i r m : is_Some (m !! i) -> shows (SSetTexture i r) m m
  | shows_text i t m : is_Some (m !! i) -> shows (SSetText i t) m m
  | shows_layer i l m : is_Some (m !! i) -> shows (SSetLayer i l) m m
  | shows_clear m : shows SClearAll m ∅.

Inductive plays : list SinkCall -> gmap Z Z -> gmap Z Z -> Prop :=
  | plays_none m : plays [] m m
  | plays_call c cs m m' m'' : shows c m m' -> plays cs m' m'' -> plays (c :: cs) m m''.

Lemma plays_snoc cs c m m' m'' : plays cs m m' -> shows c m' m'' -> plays (cs ++ [c]) m m''.
Proof. induction 1 as [m|c0 cs m m1 m2 H1 H2 IH]; intros Hc; cbn; [by eapply plays_call; [|apply plays_none]|]. eapply plays_call; [done|by apply IH]. Qed.

(** Where a forest has a node. *)
Definition hangs (s : Forest) (i p : Z) : Prop := (p = NO_SLOT /\ i ∈ fo_roots s) \/ (p <> NO_SLOT /\ i ∈ fo_kids s p).

Definition surface_at (st : Stage) (i : Z) : option Surface := n_surface <$> recordAt (nodes st) i.

(** One slot, one node: the handle table, the graph, the forest it stands for and what the
    backend shows agree, and a tree is on one surface. *)
Record staged (st : Stage) (s : Forest) (m : gmap Z Z) : Prop := {
  sg_good : good (xf st) s;
  sg_wf : wf (nodes st);
  sg_map i p : m !! i = Some p <-> hangs s i p;
  sg_live i : is_Some (recordAt (nodes st) i) <-> is_Some (m !! i);
  sg_surface c p : m !! c = Some p -> p <> NO_SLOT -> surface_at st c = surface_at st p;
  sg_plays : plays (sunk st) ∅ m;
}.

Section Reading.
Context (st : Stage) (s : Forest) (m : gmap Z Z) (Hs : staged st s m).

Lemma hangs_parent i p : m !! i = Some p -> inside (xf st) i /\ s_parent (at_ (xf st) i) = p.
Proof using Hs.
  destruct (sg_good _ _ _ Hs) as [[Hl _ Hr _] _]. rewrite (sg_map _ _ _ Hs). intros [[-> Hi]|[Hp Hi]]; [by apply Hr|].
  apply (lk_kids _ _ Hl) in Hi as (? & ? & _). done.
Qed.

Lemma live_shown i : live (xf st) i = true <-> is_Some (m !! i).
Proof using Hs.
  destruct (sg_good _ _ _ Hs) as [Hsc _]. rewrite (live_spec _ _ _ Hsc). split.
  - intros [Hi|[p Hi]]; [exists NO_SLOT; apply (sg_map _ _ _ Hs); by left|]. exists p. apply (sg_map _ _ _ Hs). right. split; [|done].
    apply (lk_kids _ _ (sc_linked _ _ Hsc)) in Hi as (_ & _ & ?). done.
  - intros [p Hp]. apply (sg_map _ _ _ Hs) in Hp as [[_ Hi]|[_ Hi]]; [by left|right; by exists p].
Qed.

Lemma live_recorded i : live (xf st) i = true <-> is_Some (recordAt (nodes st) i).
Proof using Hs. by rewrite live_shown, (sg_live _ _ _ Hs). Qed.

Lemma parent_shown i p : m !! i = Some p -> p <> NO_SLOT -> is_Some (m !! p).
Proof using Hs.
  intros Hi Hp. destruct (hangs_parent i p Hi) as [H1 H2]. pose proof (sc_linked _ _ (gd_scene _ _ (sg_good _ _ _ Hs))) as Hl.
  apply (sg_map _ _ _ Hs) in Hi as [[? _]|[_ Hi]]; [done|]. apply live_shown, (live_spec _ s); [apply (sg_good _ _ _ Hs)|].
  destruct (decide (p ∈ fo_roots s)) as [|Hn]; [by left|]. destruct (decide (s_parent (at_ (xf st) p) = NO_SLOT)) as [Htop|Hup].
  - pose proof (sc_free _ _ (gd_scene _ _ (sg_good _ _ _ Hs)) p) as Hf. rewrite Hf in Hi; [by apply not_elem_of_nil in Hi| |done|done].
    rewrite <- H2. apply (lk_up _ _ Hl); [done|congruence].
  - right. exists (s_parent (at_ (xf st) p)). apply (lk_kids _ _ Hl). split_and!; [|done|done]. rewrite <- H2. apply (lk_up _ _ Hl); [done|congruence].
Qed.

Lemma indexed id i : indexOf (nodes st) id = i -> 0 <= i -> is_Some (m !! i).
Proof using Hs.
  intros Hi H0. apply (sg_live _ _ _ Hs). apply (indexOf_spec (nodes st) id i (wf_core _ (sg_wf _ _ _ Hs)) H0) in Hi as (r & Hr & _). by exists r.
Qed.

Lemma shown_range i : is_Some (m !! i) -> 0 <= i /\ inside (xf st) i /\ has (xf st) i = true.
Proof using Hs. intros [p Hp]. destruct (hangs_parent i p Hp) as [H _]. split; [apply H|]. split; [done|by apply has_inside]. Qed.

Lemma under_shown a x : under s a x -> a <> x -> exists p, m !! x = Some p /\ under s a p /\ p <> NO_SLOT.
Proof using Hs.
  intros Hu Hne. apply rtc_inv_r in Hu as [->|(p & Hu & Hp)]; [done|]. exists p. split_and!; [|done|].
  - apply (sg_map _ _ _ Hs). right. split; [|done]. apply (lk_kids _ _ (sc_linked _ _ (gd_scene _ _ (sg_good _ _ _ Hs)))) in Hp as (_ & _ & ?). done.
  - apply (lk_kids _ _ (sc_linked _ _ (gd_scene _ _ (sg_good _ _ _ Hs)))) in Hp as (_ & _ & ?). done.
Qed.
End Reading.

(** Equal where it counts. *)
Lemma staged_view st st' s m : staged st s m -> good (xf st') s -> wf (nodes st') -> (forall i, surface_at st' i = surface_at st i) ->
  (sunk st' = sunk st \/ exists c, sunk st' = sunk st ++ [c] /\ shows c m m) -> staged st' s m.
Proof.
  intros [H1 H2 H3 H4 H5 H6] Hg Hw Ha Hk.
  assert (Hr : forall i, is_Some (recordAt (nodes st') i) <-> is_Some (recordAt (nodes st) i)) by (intros i; pose proof (Ha i) as E; unfold surface_at in E; rewrite <- !(fmap_is_Some n_surface), E; done).
  split; try done.
  - intros i. by rewrite Hr.
  - intros c p Hc Hp. rewrite !Ha. by apply H5.
  - destruct Hk as [->|(c & -> & Hc)]; [done|by apply (plays_snoc _ c ∅ m)].
Qed.

(** ** Edits of a node's values *)

Lemma staged_xf st s m f : staged st s m -> (forall t, good t s -> good (f t) s) -> staged (on_xf f st) s m.
Proof. intros H Hf. apply (staged_view st); [done|apply Hf, H|apply H|done|by left]. Qed.

Lemma when_good {A} (o : option A) f s : (forall a t, good t s -> good (f a t) s) -> forall t, good t s -> good (when_some o f t) s.
Proof. intros Hf t Ht. destruct o; [by apply Hf|done]. Qed.

Lemma edit_position i v t s : good t s -> good (writePosition i v t) s.
Proof. intros H. destruct v as [[x y] z]. by apply (edit_good t s i (Position _ _ _)). Qed.

Lemma write_good i fields t s : good t s -> good (writeTransformFields i fields t) s.
Proof.
  intros H. unfold writeTransformFields. repeat apply when_good; try done; clear t H; intros a t H.
  - by apply (edit_good t s i (Tint _)).
  - by apply (edit_good t s i (Visible a)).
  - by apply (edit_good t s i (Alpha _)).
  - by apply (edit_good t s i (Anchor _ _)).
  - destruct a as [[x y] z]. by apply (edit_good t s i (Scale _ _ _)).
  - by apply (edit_good t s i (Rotation _)).
  - by apply edit_position.
Qed.

Lemma resolve_good t s : good t s -> good (resolve t) s.
Proof. intros H. destruct (step_good t s Resolve H eq_refl) as (s' & Hg & Hs). by inversion Hs; subst. Qed.

Lemma mark_all_good t s : good t s -> good (markAllDirty t) s.
Proof. intros H. destruct (step_good t s MarkAll H eq_refl) as (s' & Hg & Hs). by inversion Hs; subst. Qed.

(** ** Moving *)

(** What relinking does to a forest, by where its nodes hang. *)
Lemma hangs_moved s c p s' : linked_as s c p s' -> ~ (p <> NO_SLOT /\ under s c p) -> forall x q, hangs s' x q <-> (x = c /\ q = p) \/ (x <> c /\ hangs s x q).
Proof.
  intros [->|Hp Hn|Hp Hu] Hno x q; [| |by destruct Hno]; unfold hangs; cbn.
  - rewrite elem_of_app, list_elem_of_singleton, !list_elem_of_filter. destruct (decide (x = c)) as [->|Hx]; tauto.
  - rewrite !list_elem_of_filter. destruct (q =? p) eqn:E; bool_facts; [subst q; rewrite elem_of_app, list_elem_of_singleton|]; rewrite list_elem_of_filter;
      destruct (decide (x = c)) as [->|Hx]; intuition congruence.
Qed.

Lemma hangs_new s i x q : hangs (as_root i s) x q <-> (x = i /\ q = NO_SLOT) \/ hangs s x q.
Proof. unfold hangs. cbn. rewrite elem_of_app, list_elem_of_singleton. tauto. Qed.

Lemma hangs_forget l s x q : hangs (forget_all l s) x q <-> (x ∉ l) /\ hangs s x q.
Proof.
  assert (Hr : fo_roots (forget_all l s) = filter (fun y => y ∉ l) (fo_roots s)).
  { induction l as [|y l IH]; cbn.
    - symmetry. apply filter_true. intros z _. apply not_elem_of_nil.
    - unfold forget_all in IH. rewrite IH, list_filter_filter. apply list_filter_iff. intros z. rewrite not_elem_of_cons. tauto. }
  unfold hangs. rewrite Hr, forget_all_kids, !list_elem_of_filter. tauto.
Qed.

(** A graph that relinked [c] under [p], the sink told. *)
Lemma staged_moved st s m t c p r : staged st s m -> is_Some (m !! c) -> p = NO_SLOT \/ is_Some (m !! p) ->
  (p <> NO_SLOT -> surface_at st c = surface_at st p) -> ~ (p <> NO_SLOT /\ under s c p) ->
  (exists s', good t s' /\ linked_as s c p s') -> exists s', staged (sink (SReparent c r p) (with_xf t st)) s' (<[c := p]> m).
Proof.
  intros [H1 H2 H3 H4 H5 H6] Hc Hp Hsf Hno (s' & Hg & Hl). exists s'. split; try done.
  - intros i q. rewrite lookup_insert_Some, (hangs_moved s c p s' Hl Hno), H3. naive_solver.
  - intros i. rewrite lookup_insert_is_Some'. cbn. rewrite H4. destruct Hc as [? Hc]. split; [by right|]. intros [<-|?]; [by rewrite Hc|done].
  - intros x q Hx Hq. apply lookup_insert_Some in Hx as [[<- <-]|[_ Hx]]; [by apply Hsf|by apply H5].
  - cbn. apply (plays_snoc _ _ ∅ m); [done|by apply shows_reparent].
Qed.

Lemma relink_good st s m i p keep : staged st s m -> is_Some (m !! i) -> p = NO_SLOT \/ is_Some (m !! p) -> (p = NO_SLOT -> s_parent (at_ (xf st) i) <> NO_SLOT) ->
  exists s', good (relinkAt i p keep (xf st)) s' /\ linked_as s i p s'.
Proof.
  intros Hs Hi Hp Hup. pose proof (sg_good _ _ _ Hs) as Hg.
  assert (Hlink : forall t, good t s -> live t i = true -> (p = NO_SLOT -> s_parent (at_ t i) <> NO_SLOT) -> (p <> NO_SLOT -> live t p = true) ->
    exists s', good (if p =? NO_SLOT then unlink i t else link i p t) s' /\ linked_as s i p s').
  { intros t Ht Hit Hupt Hpt. assert (H := link_good t s i p Ht Hit). destruct (p =? NO_SLOT) eqn:E; bool_facts.
    - unfold unlink. rewrite (proj2 (has_inside t i)) by (by apply live_inside). cbn [negb]. rewrite (proj2 (Z.eqb_neq _ _)) by auto. subst p. apply H. by left.
    - apply H. right. by apply Hpt. }
  assert (Hpl : p <> NO_SLOT -> live (xf st) p = true) by (intros Hne; apply (live_shown st s m Hs); by destruct Hp).
  assert (Hil : live (xf st) i = true) by by apply (live_shown st s m Hs). unfold relinkAt. destruct keep; cbn [negb]; [|by apply Hlink].
  pose proof (resolve_good _ s Hg) as Hgr. assert (Hsame : forall x, live (resolve (xf st)) x = live (xf st) x /\ s_parent (at_ (resolve (xf st)) x) = s_parent (at_ (xf st) x)).
  { intros x. pose proof (rg_frame _ _ (resolve_result _ s (sc_linked _ _ (gd_scene _ _ Hg)) (gd_settled _ _ Hg))) as R. destruct (links_parent _ _ x (rr_links _ _ R x)) as (E & _).
    split; [|done]. unfold live, has. rewrite E, (rr_count _ _ R). by destruct (rr_roots _ _ R) as (_ & -> & _). }
  destruct (resolved _ _) as [[wx wy] wz].
  destruct (Hlink (resolve (xf st)) Hgr) as (s' & Hs' & Hl); [by rewrite (proj1 (Hsame i))|intros Hpn; rewrite (proj2 (Hsame i)); by apply Hup|intros; rewrite (proj1 (Hsame p)); by apply Hpl|].
  exists s'. split; [|done]. destruct (p =? NO_SLOT); [by apply (edit_good _ s' i (Position _ _ _))|]. pose proof (resolve_good _ s' Hs') as Hg'.
  destruct (resolved _ _) as [[bx by_] bz]. by apply (edit_good _ s' i (Position _ _ _)).
Qed.

Definition keeps_stage (f : Stage -> Stage) : Prop := forall st s m, staged st s m -> exists s' m', staged (f st) s' m'.

(** Only the tree changes, by one link. *)
Definition relinked (st st' : Stage) (m m' : gmap Z Z) : Prop :=
  nodes st' = nodes st /\ enabledSurfaces st' = enabledSurfaces st /\ exists s', staged st' s' m'.

Lemma attachAt_spec i q keep st s m : staged st s m -> is_Some (m !! i) -> let p := indexOf (nodes st) q in
  match attachAt i q keep st with
  | (Ok _, st') => (p < 0 /\ st' = st) \/ (0 <= p /\ surface_at st i = surface_at st p /\ ~ under s i p /\ relinked st st' m (<[i := p]> m))
  | (Throw e, st') => st' = st /\ 0 <= p /\ ((e = CrossSurfaceParent /\ surface_at st i <> surface_at st p) \/ (e = Cycle /\ surface_at st i = surface_at st p /\ under s i p))
  end.
Proof.
  intros Hs Hi p0. unfold attachAt. fold p0. destruct (p0 <? 0) eqn:E; bool_facts; [by left|].
  assert (Hp : is_Some (m !! p0)) by (by apply (indexed st s m Hs q)). clearbody p0. rename p0 into p. destruct (proj2 (sg_live _ _ _ Hs i) Hi) as [c Ec]. destruct (proj2 (sg_live _ _ _ Hs p) Hp) as [r Er]. rewrite Ec, Er.
  assert (Hsi : surface_at st i = Some (n_surface c) /\ surface_at st p = Some (n_surface r)) by (unfold surface_at; by rewrite Ec, Er). destruct Hsi as [-> ->].
  destruct (decide _) as [Hsf|Hsf]; [split_and!; [done|done|left; split; [done|congruence]]|]. apply dec_stable in Hsf.
  destruct (shown_range st s m Hs i Hi) as (_ & Hii & _). destruct (shown_range st s m Hs p Hp) as (Hp0 & Hpi & _).
  pose proof (sc_linked _ _ (gd_scene _ _ (sg_good _ _ _ Hs))) as Hl. destruct (has_line _ s p Hl Hpi) as (l & Hline & _).
  pose proof (line_under _ s i p l Hl Hpi Hline) as Hlu. pose proof (isAncestorOf_line _ s i p l Hl Hii Hpi Hline) as Ha. destruct (isAncestorOf (xf st) i p).
  - split_and!; [done|done|right]. split_and!; [done|congruence|]. symmetry in Ha. apply bool_decide_eq_true in Ha. by apply Hlu.
  - right. symmetry in Ha. apply bool_decide_eq_false in Ha. assert (Hno : ~ under s i p) by (by rewrite <- Hlu). split_and!; [done|congruence|done|]. split_and!; [done|done|].
    assert (Hne : p <> NO_SLOT) by (unfold NO_SLOT; lia). apply (staged_moved st s m); [done|done|by right| |intros [_ Hu]; by apply Hno|].
    + intros _. unfold surface_at. rewrite Ec, Er. cbn. by rewrite Hsf.
    + apply (relink_good st s m); [done|done|by right|done].
Qed.

Lemma attach_staged i q keep st s m : staged st s m -> is_Some (m !! i) -> exists s' m', staged (attachAt i q keep st).2 s' m'.
Proof.
  intros Hs Hi. pose proof (attachAt_spec i q keep st s m Hs Hi) as H. cbv zeta in H. destruct (attachAt i q keep st) as [[u|e] st']; cbn [snd].
  - destruct H as [[_ ->]|(_ & _ & _ & _ & _ & s' & H)]; [by exists s, m|by eexists s', _].
  - destruct H as [-> _]. by exists s, m.
Qed.

Lemma detachAt_spec i keep st s m : staged st s m -> is_Some (m !! i) -> relinked st (detachAt i keep st) m (<[i := NO_SLOT]> m).
Proof.
  intros Hs Hi. destruct (shown_range st s m Hs i Hi) as (_ & Hii & Hh). unfold detachAt. destruct (parent (xf st) i =? NO_SLOT) eqn:E; bool_facts; unfold parent in E; rewrite Hh in E.
  - split_and!; [done|done|]. exists s. rewrite insert_id; [done|]. destruct Hi as [q Hq]. destruct (hangs_parent st s m Hs i q Hq) as [_ H]. by rewrite Hq, <- H, E.
  - pose proof (proj2 (sg_live _ _ _ Hs i) Hi) as [r Hr]. cbn [nodes on_xf with_xf]. rewrite Hr. split_and!; [done|done|].
    apply (staged_moved st s m); [done|done|by left|done|by intros [? _]|]. apply (relink_good st s m); [done|done|by left|done].
Qed.

Lemma detach_staged i keep st s m : staged st s m -> is_Some (m !! i) -> exists s' m', staged (detachAt i keep st) s' m'.
Proof. intros Hs Hi. destruct (detachAt_spec i keep st s m Hs Hi) as (_ & _ & s' & H). by eexists s', _. Qed.

(** ** Creating *)

Lemma new_node_staged st s m r id n : staged st s m -> create (nodes st) r = Ok (id, n) -> let i := indexOf n id in
  wf n /\ 0 <= i /\ m !! i = None /\ (forall j, recordAt n j = if decide (j = i) then Some r else recordAt (nodes st) j)
  /\ good (Scene.initSlot i (xf st)) (as_root i s) /\ live (Scene.initSlot i (xf st)) i = true /\ (forall j, is_Some (m !! j) -> idAt n j = idAt (nodes st) j).
Proof.
  intros Hs Hc. destruct (create_filled _ _ _ _ (sg_wf _ _ _ Hs) Hc) as (i & (F1 & F2 & F3 & [F4 F4g] & F5 & F6) & Hid & Hi).
  assert (Hrec : recordAt n i = Some r) by (by rewrite F4, decide_True).
  assert (Hix : indexOf n id = i). { apply (indexOf_spec n id i F6); [lia|]. exists r. rewrite F4g, decide_True by done. done. }
  rewrite Hix. cbv zeta. assert (Hn : m !! i = None). { apply eq_None_not_Some. rewrite <- (sg_live _ _ _ Hs), F1. by intros [? ?]. }
  assert (Hdead : live (xf st) i = false). { destruct (live (xf st) i) eqn:E; [|done]. apply (live_shown st s m Hs) in E. rewrite Hn in E. by destruct E. }
  pose proof (step_good (xf st) s (New i) (sg_good _ _ _ Hs)) as Hg. cbn [allowed run_op] in Hg. rewrite Hdead, (proj2 (Z.leb_le 0 i)) in Hg by lia.
  destruct (Hg eq_refl) as (s' & Hg' & Hgr). inversion Hgr; subst. split_and!; try done; [lia| |].
  - apply (live_spec _ _ _ (gd_scene _ _ Hg')). left. cbn. apply elem_of_app. right. left.
  - intros j Hj. unfold idAt. rewrite F4, F4g. destruct (decide (j = i)) as [->|]; [|done]. rewrite Hn in Hj. by destruct Hj.
Qed.

(** A fresh node under [p], the sink told. *)
Lemma staged_created st s m r n t i p s' : staged st s m -> wf n -> m !! i = None -> (forall j, recordAt n j = if decide (j = i) then Some r else recordAt (nodes st) j) ->
  p = NO_SLOT \/ (is_Some (m !! p) /\ surface_at st p = Some (n_surface r)) -> good t s' -> (forall x q, hangs s' x q <-> (x = i /\ q = p) \/ (x <> i /\ hangs s x q)) ->
  staged (sink (SCreate i r p) (with_xf t (with_nodes n st))) s' (<[i := p]> m).
Proof.
  intros [H1 H2 H3 H4 H5 H6] Hw Hi Hn Hp Hg Hh.
  assert (Hsf : forall x, surface_at (sink (SCreate i r p) (with_xf t (with_nodes n st))) x = if decide (x = i) then Some (n_surface r) else surface_at st x).
  { intros x. unfold surface_at. cbn. rewrite Hn. by destruct (decide (x = i)). }
  split; try done.
  - intros x q. rewrite lookup_insert_Some, Hh, H3. naive_solver.
  - intros x. cbn. rewrite Hn. destruct (decide (x = i)) as [->|Hx]; [by rewrite lookup_insert_eq|by rewrite lookup_insert_ne].
  - intros x q Hx Hq. rewrite !Hsf. apply lookup_insert_Some in Hx as [[<- <-]|[Hx Hxq]].
    + destruct Hp as [?|[[? Hp] Hps]]; [done|]. rewrite decide_True by done. rewrite decide_False by congruence. done.
    + rewrite decide_False by done. rewrite (H5 x q Hxq Hq). destruct (decide (q = i)) as [->|]; [|done].
      exfalso. assert (Hst : staged st s m) by done. destruct (parent_shown st s m Hst x i Hxq Hq) as [? Hqi]. congruence.
  - cbn. apply (plays_snoc _ _ ∅ m); [done|]. apply shows_create; [done|]. destruct Hp as [|[? _]]; auto.
Qed.

Lemma resolveParent_spec st s m p surface q : staged st s m -> resolveParent st p surface = Ok q ->
  q = NO_SLOT \/ (0 <= q /\ is_Some (m !! q) /\ surface_at st q = Some surface).
Proof.
  intros Hs. unfold resolveParent. destruct p as [p|]; [|intros [= <-]; by left]. destruct (p =? NO_NODE); [intros [= <-]; by left|].
  destruct (indexOf (nodes st) p <? 0) eqn:E; [intros [= <-]; by left|]. bool_facts. destruct (recordAt (nodes st) (indexOf (nodes st) p)) as [r|] eqn:Er; [|intros [= <-]; by left].
  destruct (decide (n_surface r = surface)) as [Hsf|]; [|done]. intros [= <-]. right. split_and!; [done|by apply (indexed st s m Hs p)|].
  unfold surface_at. rewrite Er. cbn. by rewrite Hsf.
Qed.

(** What is refused before a handle is taken, in the order the code asks. *)
Definition create_check (d : NodeDesc) (st : Stage) : outcome renderer_error Z :=
  let surface := nullish (d_surface d) world in
  if negb (isSurfaceEnabled st surface) then Throw SurfaceDisabled
  else if match d_kind d with AText _ _ => isCameraTransformed surface | _ => false end then Throw TextOnWorldSurface
  else if match d_kind d with ASprite [] => true | _ => false end then Throw InvalidNodeDesc
  else resolveParent st (d_parent d) surface.

Lemma createNode_spec d st s m : staged st s m -> let surface := nullish (d_surface d) world in
  match createNode d st with
  | (Throw e, st') => st' = st /\ (create_check d st = Throw e \/ exists p t, create_check d st = Ok p /\ e = NoSlots t)
  | (Ok id, st') => exists p s', let i := indexOf (nodes st') id in
      staged st' s' (<[i := p]> m) /\ enabledSurfaces st' = enabledSurfaces st /\ create_check d st = Ok p /\ 0 <= i /\ m !! i = None
      /\ surface_at st' i = Some surface /\ forall j, is_Some (m !! j) -> idAt (nodes st') j = idAt (nodes st) j /\ surface_at st' j = surface_at st j
  end.
Proof.
  intros Hs. unfold createNode, create_check. set (surface := nullish (d_surface d) world). cbv zeta. destruct (negb _); [by auto|].
  destruct (match d_kind d with AText _ _ => _ | _ => false end); [by auto|]. destruct (match d_kind d with ASprite [] => true | _ => false end); [by auto|].
  destruct (resolveParent st (d_parent d) surface) as [p|e] eqn:Ep; [|by auto]. apply (resolveParent_spec st s m) in Ep; [|done].
  destruct (create (nodes st) (record_of d surface)) as [[id n]|e] eqn:Ec; [|split; [done|]; right; by eexists _, _].
  destruct (new_node_staged st s m _ id n Hs Ec) as (Hw & Hi0 & Hi & Hn & Hg & Hlive & Hids). cbn [nodes sink with_xf with_nodes]. set (i := indexOf n id) in *.
  assert (Hat : forall t c, let st' := sink c (with_xf t (with_nodes n st)) in surface_at st' i = Some surface
    /\ forall j, is_Some (m !! j) -> idAt (nodes st') j = idAt (nodes st) j /\ surface_at st' j = surface_at st j).
  { intros t c st'. unfold surface_at, st'. cbn. setoid_rewrite Hn. rewrite decide_True by done. split; [done|]. intros j Hj. split; [by apply Hids|].
    rewrite decide_False; [done|]. intros ->. rewrite Hi in Hj. by destruct Hj. }
  set (t1 := when_some (d_neverCull d) (setNeverCull i) _). assert (Hg1 : good t1 (as_root i s)).
  { apply when_good; [intros b t Ht; by apply (edit_good t _ i (NeverCull b))|by apply write_good]. }
  assert (Hsf : n_surface (record_of d surface) = surface) by done.
  assert (Hroot : forall x q, hangs (as_root i s) x q <-> (x = i /\ q = NO_SLOT) \/ (x <> i /\ hangs s x q)).
  { intros x q. rewrite hangs_new. destruct (decide (x = i)) as [->|]; [|tauto]. rewrite <- (sg_map _ _ _ Hs), Hi. naive_solver. }
  destruct Ep as [->|(Hp0 & Hp & Hps)].
  - exists NO_SLOT, (as_root i s). cbn [Z.leb]. split_and!; [by apply (staged_created st s m); [..|left| |]|done|done|done|done|apply Hat|apply Hat].
  - rewrite (proj2 (Z.leb_le 0 p) Hp0). assert (Hip : i <> p) by (intros ->; rewrite Hi in Hp; by destruct Hp). assert (Hpn : p <> NO_SLOT) by (unfold NO_SLOT; lia).
    assert (Hl1 : forall x, live t1 x = true <-> exists q, hangs (as_root i s) x q).
    { intros x. rewrite (live_spec _ _ _ (gd_scene _ _ Hg1)). unfold hangs. split; [|intros (q & [[-> H]|[_ H]]); [by left|right; by exists q]].
      intros [H|[q H]]; [exists NO_SLOT; by left|exists q; right; split; [|done]]. by apply (lk_kids _ _ (sc_linked _ _ (gd_scene _ _ Hg1))) in H as (_ & _ & ?). }
    destruct (link_good t1 (as_root i s) i p Hg1) as (s' & Hg' & Hl').
    { apply Hl1. exists NO_SLOT. apply Hroot. by left. }
    { right. apply Hl1. destruct Hp as [q Hq]. exists q. apply Hroot. right. split; [congruence|]. by apply (sg_map _ _ _ Hs). }
    assert (Hno : ~ (p <> NO_SLOT /\ under (as_root i s) i p)).
    { intros [_ Hu]. apply rtc_inv in Hu as [->|(y & Hy & _)]; [done|]. change (y ∈ fo_kids s i) in Hy.
      assert (Hyi : m !! y = Some i) by (apply (sg_map _ _ _ Hs); right; split; [unfold NO_SLOT; lia|done]).
      destruct (parent_shown st s m Hs y i Hyi) as [? Hsi]; [unfold NO_SLOT; lia|congruence]. }
    exists p, s'. split_and!; [|done|done|done|done|apply Hat|apply Hat]. apply (staged_created st s m); try done; [right; by rewrite Hsf|].
    intros x q. rewrite (hangs_moved _ i p s' Hl' Hno), Hroot. naive_solver.
Qed.

Lemma createNode_staged d st s m : staged st s m -> exists s' m', staged (createNode d st).2 s' m'.
Proof.
  intros Hs. pose proof (createNode_spec d st s m Hs) as H. cbv zeta in H. destruct (createNode d st) as [[id|e] st']; cbn [snd].
  - destruct H as (p & s' & H & _). by eexists s', _.
  - destruct H as [-> _]. by exists s, m.
Qed.

(** ** Destroying *)

Lemma release_slots l st : let st' := foldr release_slot st l in
  nodes st' = foldr (fun i n => releaseAt n i) (nodes st) l /\ xf st' = foldr Scene.releaseSlot (xf st) l /\ sunk st' = sunk st /\ enabledSurfaces st' = enabledSurfaces st.
Proof. cbv zeta. induction l as [|i l (H1 & H2 & H3 & H4)]; [done|]. cbn. by rewrite H1, H2, H3, H4. Qed.

Lemma releases_spec l (n : SlotTable NodeRecord) : wf n -> let n' := foldr (fun i n => releaseAt n i) n l in
  wf n' /\ (forall j, recordAt n' j = if decide (j ∈ l) then None else recordAt n j) /\ forall j, j ∉ l -> idAt n' j = idAt n j.
Proof.
  intros Hw. cbv zeta. assert (H : let n' := foldr (fun i n => releaseAt n i) n l in wf n' /\ (forall j, recordAt n' j = if decide (j ∈ l) then None else recordAt n j) /\ forall j, j ∉ l -> generationAt n' j = generationAt n j).
  2:{ destruct H as (H1 & H2 & H3). split_and!; [done|done|]. intros j Hj. unfold idAt. by rewrite H2, decide_False, H3. }
  induction l as [|i l (IHw & IH & IHg)]; cbn [foldr]; [split_and!; [done| |done]; intros j; by rewrite decide_False by apply not_elem_of_nil|].
  cbv zeta. split_and!; [by apply releaseAt_wf| |].
  2:{ intros j [Hji Hjl]%not_elem_of_cons. rewrite <- IHg by done. set (n1 := foldr _ n l) in *. destruct (recordAt n1 i) as [r|] eqn:E; [|unfold releaseAt; by rewrite E].
      destruct (releaseAt_update n1 i r (wf_core _ IHw) E) as [_ ->]. by rewrite decide_False. }
  intros j. set (n1 := foldr _ n l) in *. destruct (recordAt n1 i) as [r|] eqn:E.
  - destruct (releaseAt_update n1 i r (wf_core _ IHw) E) as [-> _]. rewrite IH. destruct (decide (j = i)) as [->|Hne]; [by rewrite decide_True by left|].
    apply decide_ext. rewrite elem_of_cons. tauto.
  - unfold releaseAt. rewrite E, IH. destruct (decide (j ∈ l)) as [Hin|Hn]; [by rewrite decide_True by (by right)|].
    destruct (decide (j ∈ i :: l)) as [Hin|]; [|done]. apply elem_of_cons in Hin as [->|]; [|done]. by rewrite <- E, IH, decide_False.
Qed.

Lemma destroyNode_spec id st s m : staged st s m -> let i := indexOf (nodes st) id in let st' := destroyNode id st in
  (i < 0 /\ st' = st) \/ (0 <= i /\ is_Some (m !! i) /\ exists (l : list Z) s', (forall x, x ∈ l <-> under s i x) /\ staged st' s' (filter (fun '(x, _) => x ∉ l) m) /\ enabledSurfaces st' = enabledSurfaces st
    /\ forall j, j ∉ l -> idAt (nodes st') j = idAt (nodes st) j /\ surface_at st' j = surface_at st j).
Proof.
  intros Hs. cbv zeta. unfold destroyNode. destruct (indexOf (nodes st) id <? 0) eqn:E; bool_facts; [by left|]. right. split; [done|]. assert (Hi : is_Some (m !! indexOf (nodes st) id)) by (by apply (indexed st s m Hs id)).
  split; [done|]. set (i := indexOf (nodes st) id) in *.
  destruct (shown_range st s m Hs i Hi) as (_ & Hii & _). pose proof (sg_good _ _ _ Hs) as Hg.
  destruct (subtree_spec (xf st) s i (sc_linked _ _ (gd_scene _ _ Hg)) Hii) as (_ & Hu & _ & _). destruct (destroy_good (xf st) s i Hg Hii) as (l' & Hl' & Hg').
  unfold destroySubtree in Hg'. set (l := subtree (xf st) i true) in *. destruct (release_slots l (sink (SDestroySubtree l) st)) as (R1 & R2 & R3 & R4). cbv zeta in R1, R2, R3, R4. cbn [nodes xf sunk enabledSurfaces sink] in R1, R2, R3, R4.
  set (st' := foldr release_slot _ l) in *. destruct (releases_spec l (nodes st) (sg_wf _ _ _ Hs)) as (Hw & Hr & Hids). rewrite <- R1 in Hw, Hr, Hids. rewrite <- R2 in Hg'.
  assert (Hmem : forall x, x ∈ l <-> x ∈ l') by (intros x; by rewrite Hu, Hl'). assert (Hlive : forall x, x ∈ l -> is_Some (m !! x)).
  { intros x Hx%Hu. destruct (decide (i = x)) as [<-|Hne]; [done|]. destruct (under_shown st s m Hs i x Hx Hne) as (p & Hp & _). by exists p. }
  assert (Hcl : forall x p, m !! x = Some p -> p ∈ l -> x ∈ l).
  { intros x p Hx Hp. apply Hu. apply Hu in Hp as Hup. eapply rtc_r; [exact Hup|]. apply (sg_map _ _ _ Hs) in Hx as [[-> _]|[_ Hx]]; [|done].
    destruct (shown_range st s m Hs NO_SLOT (Hlive _ Hp)) as [H0 _]. unfold NO_SLOT in H0. lia. }
  exists l, (forget_all l' s).
  assert (Hsf : forall x, x ∉ l -> surface_at st' x = surface_at st x) by (intros x Hx; unfold surface_at; by rewrite Hr, decide_False).
  split_and!; [done| |by rewrite R4|by intros j Hj; split; [apply Hids|apply Hsf]]. split; try done.
  - intros x p. rewrite map_lookup_filter_Some, hangs_forget, (sg_map _ _ _ Hs), Hmem. tauto.
  - intros x. rewrite Hr. destruct (decide (x ∈ l)) as [Hx|Hx].
    + rewrite map_lookup_filter_None_2 by (right; intros p _ Hp; by apply Hp). done.
    + rewrite (sg_live _ _ _ Hs). split; intros [p Hp]; exists p; [by apply map_lookup_filter_Some|by apply map_lookup_filter_Some in Hp as [? _]].
  - intros c p [Hc Hcl']%map_lookup_filter_Some Hp. rewrite !Hsf; [by apply (sg_surface _ _ _ Hs)| |done]. intros Hpl. by apply Hcl', (Hcl c p).
  - rewrite R3. apply (plays_snoc _ _ ∅ m); [apply Hs|by apply shows_destroy].
Qed.

Lemma destroyNode_staged id st s m : staged st s m -> exists s' m', staged (destroyNode id st) s' m'.
Proof. intros Hs. destruct (destroyNode_spec id st s m Hs) as [[_ ->]|(_ & _ & l & s' & _ & H & _)]; [by exists s, m|by eexists s', _]. Qed.

(** ** Records and patches *)

Lemma put_record_spec st i r r0 : wf (nodes st) -> recordAt (nodes st) i = Some r0 -> let st' := put_record i r st in
  wf (nodes st') /\ forall j, recordAt (nodes st') j = if decide (j = i) then Some r else recordAt (nodes st) j.
Proof.
  intros [[C1 C2 C3 C4 C5] W2 W3] Hi. cbv zeta. pose proof (recordAt_range _ _ _ Hi) as Hr. unfold SlotTable.slotCount in Hr. set (n := nodes st) in *. set (n' := nodes (put_record i r st)).
  assert (Hrec : forall j, recordAt n' j = if decide (j = i) then Some r else recordAt n j).
  { intros j. unfold recordAt. cbn. destruct (decide (j = i)) as [->|Hne]; [by rewrite arr_get_set_eq|by rewrite arr_get_set_ne]. }
  assert (Hlive : forall j, is_Some (recordAt n' j) <-> is_Some (recordAt n j)) by (intros j; rewrite Hrec; destruct (decide (j = i)) as [->|]; [rewrite Hi; split; by eexists|done]).
  assert (Hsc : SlotTable.slotCount n' = SlotTable.slotCount n) by (unfold SlotTable.slotCount; cbn; apply arr_len_set). split; [|done]. split; [split| |done].
  - cbn. pose proof (arr_len_set (records n) i (Some r)) as E. unfold arr_len in E. fold n. lia.
  - by rewrite Hsc.
  - done.
  - intros j Hj%Hlive. change (generationAt n' j) with (generationAt n j). by apply C4.
  - change (SlotTable.live n') with (SlotTable.live n). rewrite C5. do 2 f_equal. unfold liveIndices.
    assert (Hdom : indices (records n') = indices (records n)) by (unfold indices; do 2 f_equal; pose proof (arr_len_set (records n) i (Some r)) as E; unfold arr_len in E; change (records n') with (arr_set (records n) i (Some r)); lia).
    rewrite Hdom. apply list_filter_iff. intros j. by rewrite Hlive.
  - intros j. change (generationAt n' j) with (generationAt n j). change (freeList n') with (freeList n). rewrite Hsc, Hrec, W2. destruct (decide (j = i)) as [->|]; [rewrite Hi; naive_solver|done].
Qed.

Lemma put_staged st s m i r r0 c : staged st s m -> recordAt (nodes st) i = Some r0 -> n_surface r = n_surface r0 -> shows c m m ->
  staged (sink c (put_record i r st)) s m.
Proof.
  intros Hs Hi Hr Hc. destruct (put_record_spec st i r r0 (sg_wf _ _ _ Hs) Hi) as [Hw Hrec]. cbv zeta in Hw, Hrec. apply (staged_view st); [done|apply Hs|done| |right; by exists c].
  intros j. unfold surface_at. change (nodes (sink c (put_record i r st))) with (nodes (put_record i r st)). rewrite Hrec. destruct (decide (j = i)) as [->|]; [|done]. rewrite Hi. cbn. by rewrite Hr.
Qed.

Lemma applyPatchAt_staged i r p st s m : staged st s m -> recordAt (nodes st) i = Some r -> staged (applyPatchAt i r p st) s m.
Proof.
  intros Hs Hi. unfold applyPatchAt. set (st1 := on_xf _ st). assert (H1 : staged st1 s m) by (apply staged_xf; [done|intros t; by apply write_good]).
  assert (Hi1 : recordAt (nodes st1) i = Some r) by done. clearbody st1. assert (Hm : is_Some (m !! i)) by (apply (sg_live _ _ _ H1); by exists r).
  set (st2 := when_some (p_layer p) _ st1). assert (H2 : staged st2 s m /\ is_Some (recordAt (nodes st2) i)).
  { unfold st2. destruct (p_layer p) as [l|]; cbn [when_some]; [|split; [done|by exists r]]. split; [by apply (put_staged st1 s m i _ r); [| |done|apply shows_layer]|].
    destruct (put_record_spec st1 i (set_layer (finiteOr l f0) r) r (sg_wf _ _ _ H1) Hi1) as [_ ->]. rewrite decide_True by done. by eexists. }
  destruct H2 as [H2 [r2 Hr2]]. clearbody st2. assert (E2 : record_at i r st2 = r2) by (unfold record_at; by rewrite Hr2). rewrite !E2.
  assert (Hput : forall st c r' r0, staged st s m -> recordAt (nodes st) i = Some r0 -> n_surface r' = n_surface r0 -> shows c m m -> staged (on_xf (markFlushDirty i) (sink c (put_record i r' st))) s m
    /\ recordAt (nodes (on_xf (markFlushDirty i) (sink c (put_record i r' st)))) i = Some r').
  { intros st0 c r' r0 A1 A2 A3 A4. split; [apply staged_xf; [by apply (put_staged st0 s m i r' r0)|]; intros t Ht; by apply (edit_good t s i Repaint)|].
    destruct (put_record_spec st0 i r' r0 (sg_wf _ _ _ A1) A2) as [_ E]. cbv zeta in E. change (recordAt (nodes (put_record i r' st0)) i = Some r'). by rewrite E, decide_True. }
  set (st3 := match p_texture p with Some _ => _ | None => st2 end). assert (H3 : staged st3 s m /\ is_Some (recordAt (nodes st3) i)).
  { unfold st3. destruct (p_texture p) as [t|]; [|split; [done|by exists r2]]. destruct (decide _); [|split; [done|by exists r2]].
    destruct (Hput st2 (SSetTexture i (set_texture t r2)) (set_texture t r2) r2 H2 Hr2 eq_refl (shows_texture _ _ _ Hm)) as [A ->]. split; [done|by eexists]. }
  destruct H3 as [H3 [r3 Hr3]]. clearbody st3. assert (E3 : record_at i r2 st3 = r3) by (unfold record_at; by rewrite Hr3). rewrite !E3. destruct (p_text p) as [t|]; [|done]. destruct (decide _); [|done].
  by destruct (Hput st3 (SSetText i t) (set_text t r3) r3 H3 Hr3 eq_refl (shows_text _ _ _ Hm)).
Qed.

Lemma updateNode_staged p st s m : staged st s m -> exists s' m', staged (updateNode p st).2 s' m'.
Proof.
  intros Hs. unfold updateNode. destruct (indexOf (nodes st) (p_id p) <? 0) eqn:E; [by exists s, m|]. bool_facts. set (i := indexOf (nodes st) (p_id p)) in *.
  destruct (recordAt (nodes st) i) as [r|] eqn:Er; [|by exists s, m]. assert (Hi : is_Some (m !! i)) by (apply (sg_live _ _ _ Hs); by exists r).
  assert (Hkeep : recordAt (nodes (reparent_patch i p st).2) i = Some r).
  { unfold reparent_patch, attachAt, detachAt. destruct (p_parent p) as [q|]; [|done]. destruct (q =? NO_NODE).
    - destruct (parent (xf st) i =? NO_SLOT); [done|]. cbn [nodes on_xf with_xf]. by rewrite Er.
    - destruct (indexOf (nodes st) q <? 0); [done|]. rewrite Er. destruct (recordAt (nodes st) (indexOf (nodes st) q)); [|done]. destruct (decide _); [done|]. by destruct (isAncestorOf _ _ _). }
  assert (Hre : exists s' m', staged (reparent_patch i p st).2 s' m').
  { unfold reparent_patch. destruct (p_parent p) as [q|]; [|by exists s, m]. destruct (q =? NO_NODE); [by apply (detach_staged i true st s m)|by apply (attach_staged i q false st s m)]. }
  destruct Hre as (s' & m' & Hs'). destruct (reparent_patch i p st) as [[u|e] st']; cbn [snd] in *; exists s', m'; [|done]. by apply applyPatchAt_staged.
Qed.

Lemma updateNodes_staged ps st s m : staged st s m -> exists s' m', staged (updateNodes ps st).2 s' m'.
Proof.
  revert st s m. induction ps as [|p ps IH]; intros st s m Hs; [by exists s, m|]. cbn [updateNodes]. destruct (updateNode_staged p st s m Hs) as (s' & m' & Hs').
  destruct (updateNode p st) as [[u|e] st']; cbn [snd] in *; [by apply (IH _ s' m')|by exists s', m'].
Qed.

Lemma patch_slots_staged p l st s m : staged st s m -> staged (foldl (patch_slot p) st l) s m.
Proof.
  revert st. induction l as [|i l IH]; intros st Hs; [done|]. cbn [foldl]. apply IH. unfold patch_slot. destruct (recordAt (nodes st) i) as [r|] eqn:E; [|done]. by apply applyPatchAt_staged.
Qed.

Lemma setNodeText_staged id t st s m : staged st s m -> staged (setNodeText id t st) s m.
Proof.
  intros Hs. unfold setNodeText. destruct (_ <? 0); [done|]. destruct (recordAt _ _) as [r|] eqn:E; [|done]. destruct (decide _); [|done].
  apply staged_xf; [|intros u Hu; by apply (edit_good u s _ Repaint)]. apply (put_staged st s m _ _ r); [done|done|done|]. apply shows_text. apply (sg_live _ _ _ Hs). by exists r.
Qed.

Lemma createNodes_staged ds out st s m : staged st s m -> exists s' m', staged (createNodes ds out st).2 s' m'.
Proof.
  revert out st s m. induction ds as [|d ds IH]; intros out st s m Hs; [by exists s, m|]. cbn [createNodes]. destruct (createNode_staged d st s m Hs) as (s' & m' & H).
  destruct (createNode d st) as [[id|e] st']; cbn [snd] in *; [by apply (IH _ _ s' m')|by exists s', m'].
Qed.

Lemma destroys_staged out st s m : staged st s m -> exists s' m', staged (foldr destroyNode st out) s' m'.
Proof. intros Hs. induction out as [|id out (s' & m' & IH)]; [by exists s, m|]. by apply (destroyNode_staged id _ s' m'). Qed.

Lemma createAll_staged ds out st s m : staged st s m -> exists s' m', staged (createAll ds out st).2 s' m'.
Proof.
  revert out st s m. induction ds as [|d ds IH]; intros out st s m Hs; [by exists s, m|]. cbn [createAll].
  assert (H : exists s' m', staged (createInBatch d (arr_len out) out st).2 s' m').
  { unfold createInBatch. destruct (parentInBatch d) as [p|]; [|by apply (createNode_staged _ st s m)]. destruct (_ || _); [by exists s, m|]. by apply (createNode_staged _ st s m). }
  destruct H as (s' & m' & H). destruct (createInBatch d (arr_len out) out st) as [[id|e] st']; cbn [snd] in *; [by apply (IH _ _ s' m')|by apply (destroys_staged _ _ s' m')].
Qed.

Lemma clear_staged o st s m : staged st s m -> exists s' m', staged (clear o st) s' m'.
Proof.
  intros Hs. destruct o as [sf|]; cbn [clear].
  - generalize (liveIndices (nodes st)). intros l. revert st s m Hs. induction l as [|i l IH]; intros st s m Hs; [by exists s, m|]. cbn [foldl].
    assert (H : exists s' m', staged (clear_root sf st i) s' m').
    { unfold clear_root. destruct (recordAt _ _); [|by exists s, m]. destruct (decide _); [|by exists s, m]. destruct (_ =? _); [|by exists s, m]. by apply (destroyNode_staged _ st s m). }
    destruct H as (s' & m' & H). by apply (IH _ s' m').
  - exists new_forest, ∅. destruct (clear_spec (nodes st) (sg_wf _ _ _ Hs)) as (Hw & Hn & _). pose proof (clear_good _ _ (sg_good _ _ _ Hs)) as Hg. split; try done.
    + intros i p. rewrite lookup_empty. split; [done|]. intros [[_ H]|[_ H]]; by apply not_elem_of_nil in H.
    + intros i. cbn. rewrite Hn, lookup_empty. done.
    + cbn. apply (plays_snoc _ _ ∅ m); [apply Hs|apply shows_clear].
Qed.

(** ** Rebuilding *)

Lemma parents_first_after s l p c : parents_first s l [] -> p ∈ l -> c ∈ fo_kids s p -> c ∈ tail l.
Proof.
  induction l as [|y l IH]; intros Hp Hin Hc; [by apply not_elem_of_nil in Hin|]. destruct Hp as [H1 H2]. cbn [tail]. apply elem_of_cons in Hin as [->|Hin].
  - specialize (H1 c Hc). by rewrite app_nil_r in H1.
  - specialize (IH H2 Hin Hc). destruct l; [done|]. by right.
Qed.

Lemma parents_first_drop s l1 l2 rest : parents_first s (l1 ++ l2) rest -> parents_first s l2 rest.
Proof. induction l1 as [|y l1 IH]; [done|]. intros [_ H]. by apply IH. Qed.

(** [D] has been created again. *)
Record rebuilt (st : Stage) (m : gmap Z Z) (D : list Z) (st' : Stage) : Prop := {
  rb_same : nodes st' = nodes st /\ xf st' = xf st /\ enabledSurfaces st' = enabledSurfaces st;
  rb_plays : plays (sunk st') ∅ (filter (fun '(x, _) => x ∈ D) m);
}.

Section Recreate.
Context (st : Stage) (s : Forest) (m : gmap Z Z) (Hs : staged st s m).

Lemma recreate_step D st' x p : rebuilt st m D st' -> x ∉ D -> m !! x = Some p -> p = NO_SLOT \/ p ∈ D -> rebuilt st m (D ++ [x]) (recreate_one st' x).
Proof using Hs.
  intros [(R1 & R2 & R3) Hp] Hx Hm Hpar. unfold recreate_one. rewrite R1, R2. pose proof (proj2 (sg_live _ _ _ Hs x) ltac:(by exists p)) as [r Hr]. rewrite Hr.
  destruct (hangs_parent st s m Hs x p Hm) as [Hxi Hxp]. assert (Hpx : parent (xf st) x = p) by (unfold parent; by rewrite (proj2 (has_inside _ _) Hxi)). rewrite Hpx.
  split; [done|]. cbn. apply (plays_snoc _ _ ∅ _ _ Hp). replace (filter (fun '(y, _) => y ∈ D ++ [x]) m) with (<[x := p]> (filter (fun '(y, _) => y ∈ D) m)).
  - apply shows_create; [apply map_lookup_filter_None_2; right; by intros ? _|]. destruct Hpar as [?|Hpd]; [by left|]. destruct (decide (p = NO_SLOT)) as [?|Hne]; [by left|]. right.
    destruct (parent_shown st s m Hs x p Hm Hne) as [q Hq]. exists q. by apply map_lookup_filter_Some.
  - apply map_eq. intros y. apply option_eq. intros q. rewrite lookup_insert_Some, !map_lookup_filter_Some, elem_of_app, list_elem_of_singleton. naive_solver.
Qed.

Lemma recreate_subtree D st' root : rebuilt st m D st' -> root ∈ fo_roots s -> (forall x, under s root x -> x ∉ D) ->
  rebuilt st m (D ++ subtree (xf st) root true) (foldl recreate_one st' (subtree (xf st) root true)).
Proof using Hs.
  intros HR Hroot Hout. pose proof (gd_scene _ _ (sg_good _ _ _ Hs)) as Hsc. destruct (sc_roots _ _ Hsc root Hroot) as [Hri Hrp].
  destruct (subtree_spec (xf st) s root (sc_linked _ _ Hsc) Hri) as (Hnd & Hu & Hpf & _). set (l := subtree (xf st) root true) in *. clearbody l.
  assert (H : forall l2 l1 st1, l = l1 ++ l2 -> rebuilt st m (D ++ l1) st1 -> rebuilt st m (D ++ l) (foldl recreate_one st1 l2)).
  { induction l2 as [|x l2 IH]; intros l1 st1 Heq H1; [rewrite app_nil_r in Heq; by subst l1|]. cbn [foldl]. apply (IH (l1 ++ [x])); [by rewrite <- app_assoc|]. rewrite app_assoc.
    assert (Hxl : x ∈ l) by (rewrite Heq; apply elem_of_app; right; left). rewrite Heq in Hnd. apply NoDup_app in Hnd as (_ & Hd & Hnd2). assert (Hx1 : x ∉ l1) by (intros Hin; apply (Hd x Hin); left).
    assert (HxD : x ∉ D ++ l1) by (rewrite elem_of_app; intros [Hin|Hin]; [by apply (Hout x); [apply Hu|]|done]).
    destruct (decide (root = x)) as [<-|Hne].
    - apply (recreate_step _ _ root NO_SLOT H1 HxD); [apply (sg_map _ _ _ Hs); by left|by left].
    - destruct (under_shown st s m Hs root x (proj1 (Hu x) Hxl) Hne) as (p & Hp & Hup & Hpn). apply (recreate_step _ _ x p H1 HxD Hp). right. apply elem_of_app. right.
      assert (Hpl : p ∈ l1 ++ x :: l2) by (rewrite <- Heq; by apply Hu). apply elem_of_app in Hpl as [|Hpl]; [done|]. exfalso. rewrite Heq in Hpf. apply parents_first_drop in Hpf.
      apply NoDup_cons in Hnd2 as [Hx2 _]. apply Hx2. change l2 with (tail (x :: l2)). apply (parents_first_after s _ p); [done|done|]. apply (sg_map _ _ _ Hs) in Hp as [[? _]|[_ ?]]; done. }
  apply (H l []); [done|]. by rewrite app_nil_r.
Qed.

Lemma root_above x : is_Some (m !! x) -> exists r, r ∈ fo_roots s /\ under s r x.
Proof using Hs.
  intros [p Hp]. destruct (hangs_parent st s m Hs x p Hp) as [Hxi _]. pose proof (lk_tree _ _ (sc_linked _ _ (gd_scene _ _ (sg_good _ _ _ Hs))) x Hxi) as Ha. revert p Hp. clear Hxi.
  assert (Htop : forall y, m !! y = Some NO_SLOT -> exists r, r ∈ fo_roots s /\ under s r y) by (intros y [[_ Hy]|[? _]]%(sg_map _ _ _ Hs); [exists y; split; [done|apply rtc_refl]|done]).
  induction Ha as [i Hi|i Hi IH]; intros p Hp; destruct (hangs_parent st s m Hs i p Hp) as [_ Hip].
  - rewrite Hi in Hip. subst p. by apply Htop.
  - destruct (decide (p = NO_SLOT)) as [->|Hne]; [by apply Htop|]. destruct (parent_shown st s m Hs i p Hp Hne) as [q Hq]. rewrite Hip in IH. destruct (IH q Hq) as (r & Hr & Hu).
    exists r. split; [done|]. eapply rtc_r; [exact Hu|]. by apply (sg_map _ _ _ Hs) in Hp as [[? _]|[_ ?]].
Qed.

Lemma recreate_staged : staged (recreate st) s m.
Proof using Hs.
  pose proof (gd_scene _ _ (sg_good _ _ _ Hs)) as Hsc. unfold recreate. apply staged_xf; [|intros t; apply mark_all_good]. rewrite (roots_spec _ _ Hsc). set (st0 := sink SClearAll st).
  assert (H0 : rebuilt st m [] st0). { split; [done|]. cbn. apply (plays_snoc _ _ ∅ m); [apply Hs|]. replace (filter _ m) with (∅ : gmap Z Z); [apply shows_clear|].
    symmetry. apply map_empty. intros x. apply map_lookup_filter_None_2. right. intros q _. apply not_elem_of_nil. }
  assert (H : forall rs2 rs1 D st1, fo_roots s = rs1 ++ rs2 -> rebuilt st m D st1 -> (forall x, x ∈ D <-> exists r, r ∈ rs1 /\ under s r x) ->
    exists D', (forall x, x ∈ D' <-> exists r, r ∈ fo_roots s /\ under s r x) /\ rebuilt st m D' (foldl (fun st root => foldl recreate_one st (subtree (xf st) root true)) st1 rs2)).
  { induction rs2 as [|r rs2 IH]; intros rs1 D st1 Heq HR HD; [exists D; rewrite app_nil_r in Heq; by subst rs1|]. cbn [foldl]. destruct (rb_same _ _ _ _ HR) as (_ & Hxf & _). rewrite Hxf.
    assert (Hr : r ∈ fo_roots s) by (rewrite Heq; apply elem_of_app; right; left). pose proof (sc_linked _ _ Hsc) as Hl. destruct (sc_roots _ _ Hsc r Hr) as [Hri Hrp].
    assert (Hout : forall x, under s r x -> x ∉ D).
    { intros x Hx (r1 & Hr1 & Hx1)%HD. assert (Hr1' : r1 ∈ fo_roots s) by (rewrite Heq; apply elem_of_app; by left). destruct (sc_roots _ _ Hsc r1 Hr1') as [Hr1i Hr1p].
      assert (Heqr : r1 = r). { destruct (comparable (xf st) s r1 r x Hl (under_inside_down _ _ _ _ Hl Hri Hx) Hx1 Hx) as [Hu|Hu]; apply rtc_inv_r in Hu as [->|(y & _ & Hy)]; try done;
        apply (lk_kids _ _ Hl) in Hy as (_ & ? & ?); congruence. }
      subst r1. pose proof (rooted_nodup _ _ (sc_rooted _ _ Hsc)) as Hnd. rewrite Heq in Hnd. apply NoDup_app in Hnd as (_ & Hd & _). apply (Hd r Hr1). left. }
    apply (IH (rs1 ++ [r]) (D ++ subtree (xf st) r true)); [by rewrite <- app_assoc|by apply recreate_subtree|]. intros x. rewrite elem_of_app, HD.
    destruct (subtree_spec (xf st) s r Hl Hri) as (_ & Hu & _ & _). rewrite Hu. split.
    - intros [(r1 & H1 & H2)|Hx]; [exists r1; split; [apply elem_of_app; by left|done]|exists r; split; [apply elem_of_app; right; left|done]].
    - intros (r1 & [H1|H1%list_elem_of_singleton]%elem_of_app & H2); [left; by exists r1|right; by subst]. }
  destruct (H (fo_roots s) [] [] st0 eq_refl H0) as (D & HD & [(R1 & R2 & R3) Hp]).
  { intros x. split; [intros Hx; by apply not_elem_of_nil in Hx|]. intros (r & Hr & _). by apply not_elem_of_nil in Hr. }
  set (st' := foldl _ st0 (fo_roots s)) in *. replace (filter _ m) with m in Hp.
  - destruct Hs as [A1 A2 A3 A4 A5 A6]. split; rewrite ?R1, ?R2; try done. intros c p. unfold surface_at. rewrite R1. apply A5.
  - symmetry. apply map_filter_id. intros x p Hx. apply HD, root_above. by exists p.
Qed.
End Recreate.

(** ** Histories *)

Inductive StageOp :=
  | CreateNode (d : NodeDesc) | CreateNodes (ds : list NodeDesc) | CreateSubtree (ds : list SubtreeNodeDesc) | DestroyNode (id : Z)
  | AttachNode (child parent : Z) (keep : option bool) | DetachNode (child : Z) (keep : option bool)
  | UpdateNodes (ps : list NodePatch) | UpdateSubtree (root : Z) (p : NodePatch) (includeRoot : option bool) | SetNodeText (id : Z) (t : jstr)
  | ClearStage (surface : option Surface) | Recreate | ResolveStage.

(** The stage a call leaves, thrown or not. *)
Definition run_stage (st : Stage) (o : StageOp) : Stage :=
  match o with
  | CreateNode d => (createNode d st).2
  | CreateNodes ds => (createNodes ds [] st).2
  | CreateSubtree ds => (createSubtree ds st).2
  | DestroyNode id => destroyNode id st
  | AttachNode c p keep => (attachNode c p keep st).2
  | DetachNode c keep => detachNode c keep st
  | UpdateNodes ps => (updateNodes ps st).2
  | UpdateSubtree root p inc => updateSubtree root p inc st
  | SetNodeText id t => setNodeText id t st
  | ClearStage s => clear s st
  | Recreate => recreate st
  | ResolveStage => on_xf resolve st
  end.

Lemma new_staged enabled : staged (new_stage enabled) new_forest ∅.
Proof.
  split; cbn.
  - apply start_good.
  - apply new_table_wf.
  - intros i p. rewrite lookup_empty. split; [done|]. intros [[_ H]|[_ H]]; by apply not_elem_of_nil in H.
  - intros i. rewrite lookup_empty. split; intros [? H]; [|done]. unfold recordAt, arr_get in H. cbn in H. by destruct (0 <=? i).
  - intros c p Hc. by rewrite lookup_empty in Hc.
  - apply plays_none.
Qed.

Lemma run_staged o st s m : staged st s m -> exists s' m', staged (run_stage st o) s' m'.
Proof.
  intros Hs. destruct o; cbn [run_stage].
  - by apply (createNode_staged d st s m).
  - by apply (createNodes_staged ds [] st s m).
  - by apply (createAll_staged ds [] st s m).
  - by apply (destroyNode_staged id st s m).
  - unfold attachNode. destruct (indexOf (nodes st) child <? 0) eqn:E; [by exists s, m|]. bool_facts. apply (attach_staged _ _ _ st s m Hs). by apply (indexed st s m Hs child).
  - unfold detachNode. destruct (indexOf (nodes st) child <? 0) eqn:E; [by exists s, m|]. bool_facts. apply (detach_staged _ _ st s m Hs). by apply (indexed st s m Hs child).
  - by apply (updateNodes_staged ps st s m).
  - unfold updateSubtree. destruct (_ <? 0); [by exists s, m|]. exists s, m. by apply patch_slots_staged.
  - exists s, m. by apply setNodeText_staged.
  - by apply (clear_staged surface st s m).
  - exists s, m. by apply recreate_staged.
  - exists s, m. apply staged_xf; [done|]. intros t. apply resolve_good.
Qed.

Lemma history_staged ops st s m : staged st s m -> exists s' m', staged (foldl run_stage st ops) s' m'.
Proof.
  revert st s m. induction ops as [|o ops IH]; intros st s m Hs; [by exists s, m|]. destruct (run_staged o st s m Hs) as (s' & m' & Hs'). by apply (IH _ s' m').
Qed.

(** C40. Whatever sequence of calls a renderer's client makes, with stale handles, refused
    parents and throws among them, the handle table, the transform graph and the backend
    agree: a slot holds a record exactly when it holds a node of the graph, the calls the
    sink was given build, node by node and never naming one the backend does not have, the
    tree the graph holds, and every tree is on one surface. In particular a slot is only
    taken when it is free, which is what the graph asks of its callers. *)
Theorem backend_shows_the_graph enabled ops : let st := foldl run_stage (new_stage enabled) ops in
  (forall i, is_Some (recordAt (nodes st) i) <-> live (xf st) i = true)
  /\ exists m, plays (sunk st) ∅ m
    /\ (forall i p, m !! i = Some p <-> live (xf st) i = true /\ parent (xf st) i = p)
    /\ forall c p, m !! c = Some p -> p <> NO_SLOT -> is_Some (m !! p) /\ surface_at st c = surface_at st p.
Proof.
  intros st. destruct (history_staged ops _ _ _ (new_staged enabled)) as (s & m & Hs). fold st in Hs. clearbody st.
  split; [intros i; symmetry; by apply (live_recorded st s m)|]. exists m. split; [apply Hs|]. split.
  - intros i p. rewrite (live_shown st s m Hs). assert (Hp : forall q, m !! i = Some q -> parent (xf st) i = q).
    { intros q Hq. destruct (hangs_parent st s m Hs i q Hq) as [H1 H2]. unfold parent. by rewrite (proj2 (has_inside _ _) H1). }
    split; [intros Hi; split; [by exists p|by apply Hp]|]. intros [[q Hq] <-]. by rewrite (Hp q Hq).
  - intros c p Hc Hp. split; [by apply (parent_shown st s m Hs c)|by apply (sg_surface _ _ _ Hs)].
Qed.

(** A subtree batch, a late child, a handle used after its node died, a cycle refused. *)
Abbreviation stage_run := [CreateSubtree [MkSub None (MkDesc AGroup None None no_fields None None None); MkSub (Some 0) (MkDesc (ASprite (js "hull")) None None no_fields None None None)];
  CreateNode (MkDesc AGroup None None no_fields None None None); AttachNode (packHandle 0 1) (packHandle 2 1) None; AttachNode (packHandle 2 1) (packHandle 1 1) None;
  DestroyNode (packHandle 1 1); UpdateNodes [MkPatch (packHandle 1 1) None no_fields None None None]; CreateNode (MkDesc AGroup None (Some (packHandle 0 1)) no_fields None None None)].

Lemma backend_shows_the_graph_witness : let st := foldl run_stage (new_stage DEFAULT_SURFACES) stage_run in
  exists m, plays (sunk st) ∅ m /\ m !! 0 = Some 2 /\ m !! 1 = Some 0 /\ m !! 2 = Some NO_SLOT /\ childrenOf st (packHandle 0 1) = [packHandle 1 2].
Proof.
  intros st. destruct (backend_shows_the_graph DEFAULT_SURFACES stage_run) as (_ & m & Hp & Hm & _). fold st in Hp, Hm. exists m.
  assert (H0 : live (xf st) 0 = true /\ parent (xf st) 0 = 2) by (vm_compute; split; reflexivity).
  assert (H1 : live (xf st) 1 = true /\ parent (xf st) 1 = 0) by (vm_compute; split; reflexivity).
  assert (H2 : live (xf st) 2 = true /\ parent (xf st) 2 = NO_SLOT) by (vm_compute; split; reflexivity).
  assert (H5 : childrenOf st (packHandle 0 1) = [packHandle 1 2]) by (vm_compute; reflexivity).
  exact (conj Hp (conj (proj2 (Hm 0 2) H0) (conj (proj2 (Hm 1 0) H1) (conj (proj2 (Hm 2 NO_SLOT) H2) H5)))).
Defined.
