(* ===== verification/NodeTree.v ===== *)
(** * What a renderer's client relies on: a tree of handles

    The calls of [Stage] read as operations on one finite map, from each live handle to its
    surface and its parent: a create hangs a new handle, a destroy cuts everything below
    one, a batch lands whole or leaves nothing, a refused call changes nothing. *)

From S2P Require Import Prelude JsMap JsNum Json Handle TransformStore SlotTable Scene Stage.

Local Open Scope Z_scope.

Abbreviation Tree := (gmap Z (Surface * Z)).

Definition tree_of (st : Stage) : Tree := map_imap (fun n r => Some (n_surface r, parentOf st n)) (SlotTable.abs (nodes st)).

(** [x]'s parent is [p]; [x] is [a] or below it. *)
Definition up (t : Tree) (x p : Z) : Prop := exists s, t !! x = Some (s, p).
Definition below (t : Tree) (a x : Z) : Prop := rtc (up t) x a.

(** A slot's handle, or none. *)
Definition id_of (st : Stage) (q : Z) : Z := if q =? NO_SLOT then NO_NODE else idAt (nodes st) q.

(** ** Slots and handles *)

Section Reading.
Context (st : Stage) (s : Forest) (m : gmap Z Z) (Hs : staged st s m).

Lemma core_of : core (nodes st).
Proof using Hs. apply wf_core, Hs. Qed.

Lemma live_slot i : is_Some (m !! i) -> 0 <= i /\ indexOf (nodes st) (idAt (nodes st) i) = i /\ idAt (nodes st) i <> NO_NODE /\ is_Some (surface_at st i).
Proof using Hs.
  intros Hi. destruct (proj2 (sg_live _ _ _ Hs i) Hi) as [r Hr]. pose proof (recordAt_range _ _ _ Hr). unfold surface_at, idAt. rewrite Hr. split_and!; [lia| | |by eexists].
  - apply (indexOf_spec _ _ _ core_of); [lia|]. by exists r.
  - destruct (live_slot_valid _ _ _ core_of Hr) as [Hv Hg]. unfold mint, NO_NODE. pose proof (packHandle_bounds i _ Hv Hg). lia.
Qed.

Lemma handle_slot n i : indexOf (nodes st) n = i -> 0 <= i -> is_Some (m !! i) /\ idAt (nodes st) i = n.
Proof using Hs.
  intros Hi H0. split; [by apply (indexed st s m Hs n)|]. apply (indexOf_spec _ _ _ core_of H0) in Hi as (r & Hr & ->). unfold idAt. by rewrite Hr.
Qed.

Lemma parent_of_slot i q : m !! i = Some q -> parentOf st (idAt (nodes st) i) = id_of st q.
Proof using Hs.
  intros Hi. destruct (live_slot i) as (H0 & Hx & _ & _); [by exists q|]. unfold parentOf. rewrite Hx, (proj2 (Z.ltb_ge _ _)) by done.
  destruct (hangs_parent st s m Hs i q Hi) as [Hin Hp]. unfold parent. by rewrite (proj2 (has_inside _ _) Hin), Hp.
Qed.

Lemma tree_lookup n sf p : tree_of st !! n = Some (sf, p) <-> exists i q, m !! i = Some q /\ n = idAt (nodes st) i /\ surface_at st i = Some sf /\ p = id_of st q.
Proof using Hs.
  unfold tree_of. rewrite map_lookup_imap. split.
  - intros H. destruct (SlotTable.abs (nodes st) !! n) as [r|] eqn:E; [|done]. cbn in H. injection H as <- <-. apply abs_Some in E as (i & Hr & Hn); [|apply core_of].
    destruct (proj1 (sg_live _ _ _ Hs i)) as [q Hq]; [by exists r|]. assert (Hid : n = idAt (nodes st) i) by (unfold idAt; by rewrite Hr).
    exists i, q. split_and!; [done|done|unfold surface_at; by rewrite Hr|]. rewrite Hid. by apply parent_of_slot.
  - intros (i & q & Hi & -> & Hsf & ->). unfold surface_at in Hsf. destruct (recordAt (nodes st) i) as [r|] eqn:Hr; [|done]. cbn in Hsf. injection Hsf as <-.
    assert (E : SlotTable.abs (nodes st) !! idAt (nodes st) i = Some r) by (apply abs_Some; [apply core_of|]; exists i; unfold idAt; by rewrite Hr).
    rewrite E. cbn. by rewrite (parent_of_slot i q Hi).
Qed.

Lemma in_tree n : is_Some (tree_of st !! n) <-> 0 <= indexOf (nodes st) n.
Proof using Hs.
  split.
  - intros [[sf p] (i & q & Hi & -> & _)%tree_lookup]. destruct (live_slot i) as (H0 & -> & _); [by exists q|done].
  - intros H. destruct (handle_slot n _ eq_refl H) as [[q Hq] Hn]. destruct (live_slot _ (ex_intro _ q Hq)) as (_ & _ & _ & [sf Hsf]).
    exists (sf, id_of st q). apply tree_lookup. exists (indexOf (nodes st) n), q. by rewrite Hn.
Qed.

Lemma tree_at n : 0 <= indexOf (nodes st) n -> exists q sf, m !! indexOf (nodes st) n = Some q /\ surface_at st (indexOf (nodes st) n) = Some sf /\ idAt (nodes st) (indexOf (nodes st) n) = n
  /\ tree_of st !! n = Some (sf, id_of st q).
Proof using Hs.
  intros H. destruct (handle_slot n _ eq_refl H) as [[q Hq] Hn]. destruct (live_slot _ (ex_intro _ q Hq)) as (_ & _ & _ & [sf Hsf]). exists q, sf. split_and!; try done.
  apply tree_lookup. exists (indexOf (nodes st) n), q. by rewrite Hn.
Qed.

Lemma not_a_node : tree_of st !! NO_NODE = None.
Proof using Hs. apply eq_None_not_Some. by intros H%in_tree. Qed.

Lemma id_inj i j : is_Some (m !! i) -> idAt (nodes st) i = idAt (nodes st) j -> is_Some (m !! j) -> i = j.
Proof using Hs. intros Hi He Hj. destruct (live_slot i Hi) as (_ & <- & _). destruct (live_slot j Hj) as (_ & <- & _). by rewrite He. Qed.

Lemma id_of_slot q : is_Some (m !! q) -> id_of st q = idAt (nodes st) q.
Proof using Hs. intros Hq. destruct (live_slot q Hq) as [H0 _]. unfold id_of. rewrite (proj2 (Z.eqb_neq _ _)); [done|unfold NO_SLOT; lia]. Qed.

Lemma child_up i k : child_in s i k -> is_Some (m !! k) /\ is_Some (m !! i) /\ up (tree_of st) (idAt (nodes st) k) (idAt (nodes st) i).
Proof using Hs.
  intros Hk. assert (Hm : m !! k = Some i).
  { apply (sg_map _ _ _ Hs). right. split; [|done]. by apply (lk_kids _ _ (sc_linked _ _ (gd_scene _ _ (sg_good _ _ _ Hs)))) in Hk as (_ & _ & ?). }
  assert (Hn : i <> NO_SLOT) by by apply (lk_kids _ _ (sc_linked _ _ (gd_scene _ _ (sg_good _ _ _ Hs)))) in Hk as (_ & _ & ?).
  pose proof (parent_shown st s m Hs k i Hm Hn) as Hi. assert (Hks : is_Some (m !! k)) by by exists i. split_and!; [done|done|].
  destruct (live_slot k Hks) as (_ & _ & _ & [sf Hsf]). exists sf. apply tree_lookup. exists k, i. by rewrite id_of_slot.
Qed.

Lemma up_child x z j : up (tree_of st) x z -> is_Some (m !! j) -> x = idAt (nodes st) j -> z = NO_NODE \/ exists q, z = idAt (nodes st) q /\ is_Some (m !! q) /\ child_in s q j.
Proof using Hs.
  intros [sf (j' & q & Hj' & Hx & _ & ->)%tree_lookup] Hj ->. apply (id_inj j j' Hj) in Hx; [|by exists q]. subst j'. unfold id_of. destruct (q =? NO_SLOT) eqn:E; bool_facts; [by left|]. right.
  exists q. split_and!; [done|by apply (parent_shown st s m Hs j)|]. apply (sg_map _ _ _ Hs) in Hj' as [[? _]|[_ ?]]; done.
Qed.

(** The graph's paths are the tree's. *)
Lemma under_below i j : is_Some (m !! i) -> is_Some (m !! j) -> under s i j <-> below (tree_of st) (idAt (nodes st) i) (idAt (nodes st) j).
Proof using Hs.
  intros Hi Hj. split.
  - intros Hu. clear Hi Hj. induction Hu as [i|i k j Hk Hu IH]; [apply rtc_refl|]. destruct (child_up i k Hk) as (_ & _ & Hup). by eapply rtc_r.
  - intros Hb. unfold below in Hb. remember (idAt (nodes st) j) as x eqn:Hx. remember (idAt (nodes st) i) as y eqn:Hy. revert j Hj Hx. induction Hb as [x|x z y Hup Hb IH]; intros j Hj Hx.
    + rewrite Hx in Hy. rewrite (id_inj j i Hj Hy Hi). apply rtc_refl.
    + destruct (up_child x z j Hup Hj Hx) as [->|(q & -> & Hq & Hc)].
      * exfalso. apply rtc_inv in Hb as [Hb|(w & [sf Hw] & _)]; [|by rewrite not_a_node in Hw]. destruct (live_slot i Hi) as (_ & _ & Hn & _). congruence.
      * eapply rtc_r; [exact (IH Hy q Hq eq_refl)|done].
Qed.
End Reading.

(** ** What a call does to the tree *)

(** A node hung at [p], new or old. *)
Lemma tree_insert st s m st' s' i p sf : staged st s m -> staged st' s' (<[i := p]> m) -> surface_at st' i = Some sf ->
  (forall j, is_Some (m !! j) -> idAt (nodes st') j = idAt (nodes st) j /\ surface_at st' j = surface_at st j) ->
  p = NO_SLOT \/ is_Some (m !! p) -> tree_of st' = <[idAt (nodes st') i := (sf, id_of st p)]> (tree_of st).
Proof.
  intros Hs Hs' Hsf Hk Hp. assert (Hid : forall q, q = NO_SLOT \/ is_Some (m !! q) -> id_of st' q = id_of st q).
  { intros q [->|Hq]; [done|]. rewrite (id_of_slot st s m Hs q Hq), (id_of_slot st' s' _ Hs' q); [by apply Hk|]. rewrite lookup_insert_is_Some'. by right. }
  assert (Hpar : forall j q, m !! j = Some q -> q = NO_SLOT \/ is_Some (m !! q)).
  { intros j q Hj. destruct (decide (q = NO_SLOT)) as [->|Hne]; [by left|right]. by apply (parent_shown st s m Hs j). }
  apply map_eq. intros n. apply option_eq. intros [sg q]. rewrite (tree_lookup st' s' _ Hs'), lookup_insert_Some, (tree_lookup st s m Hs). split.
  - intros (j & r & Hj & -> & Hsg & ->). apply lookup_insert_Some in Hj as [[-> ->]|[Hne Hj]].
    + left. split; [done|]. rewrite Hid by done. congruence.
    + right. destruct (Hk j) as [Hi Hj']; [by exists r|]. split.
      * intros He. apply Hne. apply (id_inj st' s' _ Hs'); [by rewrite lookup_insert_eq|done|]. rewrite lookup_insert_ne by done. by exists r.
      * exists j, r. rewrite <- Hi, <- Hj'. split_and!; try done. apply Hid. by apply (Hpar j).
  - intros [[<- [= <- <-]]|(Hne & j & r & Hj & -> & Hsg & ->)].
    + exists i, p. rewrite lookup_insert_eq. split_and!; try done. symmetry. by apply Hid.
    + destruct (Hk j) as [Hi Hj']; [by exists r|]. exists j, r. rewrite lookup_insert_ne by (intros ->; by rewrite Hi in Hne). rewrite Hi, Hj'. split_and!; try done. symmetry. apply Hid. by apply (Hpar j).
Qed.

(** Everything below a live [n] cut off. *)
Definition cut (t : Tree) (n : Z) (t' : Tree) : Prop := forall x e, t' !! x = Some e <-> t !! x = Some e /\ ~ (is_Some (t !! n) /\ below t n x).

Lemma tree_cut st s m st' s' i (l : list Z) : staged st s m -> is_Some (m !! i) -> (forall x, x ∈ l <-> under s i x) -> staged st' s' (filter (fun '(x, _) => x ∉ l) m) ->
  (forall j, j ∉ l -> idAt (nodes st') j = idAt (nodes st) j /\ surface_at st' j = surface_at st j) -> cut (tree_of st) (idAt (nodes st) i) (tree_of st').
Proof.
  intros Hs Hi Hl Hs' Hk x [sg p]. assert (Hlive : is_Some (tree_of st !! idAt (nodes st) i)) by (apply (in_tree st s m Hs); destruct (live_slot st s m Hs i Hi) as (? & -> & _); done).
  transitivity (tree_of st !! x = Some (sg, p) /\ ~ below (tree_of st) (idAt (nodes st) i) x); [|tauto]. clear Hlive. rewrite (tree_lookup st' s' _ Hs'), (tree_lookup st s m Hs).
  assert (Hid : forall j q, m !! j = Some q -> j ∉ l -> id_of st' q = id_of st q).
  { intros j q Hj Hjl. unfold id_of. destruct (q =? NO_SLOT) eqn:E; [done|]. bool_facts. apply Hk. rewrite Hl. intros Hu. apply Hjl, Hl. eapply rtc_r; [exact Hu|].
    apply (sg_map _ _ _ Hs) in Hj as [[? _]|[_ ?]]; done. }
  split.
  - intros (j & q & [Hj Hjl]%map_lookup_filter_Some & -> & Hsg & ->). destruct (Hk j Hjl) as [Hi' Hj']. split; [exists j, q; rewrite <- Hi', <- Hj'; split_and!; try done; by apply (Hid j)|].
    rewrite Hi', <- (under_below st s m Hs i j Hi) by by exists q. by rewrite <- Hl.
  - intros [(j & q & Hj & -> & Hsg & ->) Hb]. rewrite <- (under_below st s m Hs i j Hi), <- Hl in Hb by by exists q. destruct (Hk j Hb) as [Hi' Hj'].
    exists j, q. rewrite Hi', Hj'. split_and!; try done; [by apply map_lookup_filter_Some|]. symmetry. by apply (Hid j).
Qed.

(** ** What holds of the tree *)

Inductive grounded (t : Tree) (x : Z) : Prop :=
  | ground_root : up t x NO_NODE -> grounded t x
  | ground_under p : up t x p -> grounded t p -> grounded t x.

(** Parents are nodes of the same surface, and every line of parents ends. *)
Record tree_ok (t : Tree) : Prop := {
  tk_none : t !! NO_NODE = None;
  tk_up x sf p : t !! x = Some (sf, p) -> p <> NO_NODE -> exists q, t !! p = Some (sf, q);
  tk_ground x : is_Some (t !! x) -> grounded t x;
}.

Definition ready (st : Stage) : Prop := exists s m, staged st s m.

Lemma ready_tree st : ready st -> tree_ok (tree_of st).
Proof.
  intros (s & m & Hs). split.
  - by apply (not_a_node st s m).
  - intros x sf p (i & q & Hi & -> & Hsf & ->)%(tree_lookup st s m Hs) Hp. unfold id_of in Hp. destruct (q =? NO_SLOT) eqn:E; bool_facts; [done|].
    pose proof (parent_shown st s m Hs i q Hi E) as [r Hr]. rewrite (id_of_slot st s m Hs q) by by exists r. exists (id_of st r). apply (tree_lookup st s m Hs). exists q, r. split_and!; try done.
    by rewrite <- (sg_surface _ _ _ Hs i q Hi E).
  - intros x [[sf p] (i & q & Hi & -> & Hsf & ->)%(tree_lookup st s m Hs)]. destruct (hangs_parent st s m Hs i q Hi) as [Hin _].
    pose proof (lk_tree _ _ (sc_linked _ _ (gd_scene _ _ (sg_good _ _ _ Hs))) i Hin) as Ha. clear Hin. revert sf q Hi Hsf. assert (Hroot : forall i sf, m !! i = Some NO_SLOT -> surface_at st i = Some sf -> grounded (tree_of st) (idAt (nodes st) i)).
    { intros i0 sf0 Hi0 Hsf0. apply ground_root. exists sf0. apply (tree_lookup st s m Hs). by exists i0, NO_SLOT. }
    induction Ha as [i Htop|i _ IH]; intros sf q Hi Hsf; destruct (hangs_parent st s m Hs i q Hi) as [_ Hq].
    + apply (Hroot i sf); [|done]. congruence.
    + destruct (decide (q = NO_SLOT)) as [->|Hne]; [by apply (Hroot i sf)|]. rewrite Hq in IH. pose proof (parent_shown st s m Hs i q Hi Hne) as [r Hr]. rewrite (sg_surface _ _ _ Hs i q Hi Hne) in Hsf.
      apply (ground_under _ _ (idAt (nodes st) q)); [|exact (IH sf r Hr Hsf)]. exists sf. apply (tree_lookup st s m Hs). exists i, q. rewrite (id_of_slot st s m Hs q) by by exists r.
      split_and!; try done. by rewrite (sg_surface _ _ _ Hs i q Hi Hne).
Qed.

Lemma up_unique t x p q : up t x p -> up t x q -> p = q.
Proof. intros [? H1] [? H2]. congruence. Qed.

Lemma grounded_acyclic t x y : t !! NO_NODE = None -> grounded t x -> up t x y -> ~ below t x y.
Proof.
  intros Hn Hg. revert y. unfold below. induction Hg as [x Hx|x p Hx _ IH]; intros y Hy Hc; rewrite <- (up_unique _ _ _ _ Hx Hy) in Hc; apply rtc_inv in Hc as Hc'.
  - destruct Hc' as [<-|(z & [? Hz] & _)]; [destruct Hx as [? Hx]|]; congruence.
  - destruct Hc' as [->|(z & Hz & Hc')]; [by apply (IH x Hx)|]. apply (IH z Hz). by eapply rtc_r.
Qed.

(** Nothing has the parent [x]: cutting it takes it alone. *)
Lemma below_leaf t x y : tree_ok t -> (forall z p, up t z p -> p <> x) -> below t x y -> y = x.
Proof. intros Ht Hl Hb. apply rtc_inv_r in Hb as [->|(z & _ & Hz)]; [done|]. by apply Hl in Hz. Qed.

(** ** Each call *)

(** The parent a create finds, a dead one being none. *)
Definition parent_in (t : Tree) (o : option Z) : Z := match o with Some p => if decide (is_Some (t !! p)) then p else NO_NODE | None => NO_NODE end.

Definition refusal (enabled : list Surface) (t : Tree) (d : NodeDesc) : option renderer_error :=
  let surface := nullish (d_surface d) world in
  if negb (bool_decide (surface ∈ enabled)) then Some SurfaceDisabled
  else if match d_kind d with AText _ _ => isCameraTransformed surface | _ => false end then Some TextOnWorldSurface
  else if match d_kind d with ASprite [] => true | _ => false end then Some InvalidNodeDesc
  else match t !! parent_in t (d_parent d) with
       | Some (sf, _) => if decide (sf = surface) then None else Some CrossSurfaceParent
       | None => None
       end.

Lemma create_check_tree st s m d : staged st s m ->
  match create_check d st with
  | Throw e => refusal (enabledSurfaces st) (tree_of st) d = Some e
  | Ok p => refusal (enabledSurfaces st) (tree_of st) d = None /\ id_of st p = parent_in (tree_of st) (d_parent d) /\ (p = NO_SLOT \/ is_Some (m !! p))
  end.
Proof.
  intros Hs. unfold create_check, refusal, isSurfaceEnabled. set (surface := nullish (d_surface d) world). cbv zeta. destruct (negb _); [done|].
  destruct (match d_kind d with AText _ _ => _ | _ => false end); [done|]. destruct (match d_kind d with ASprite [] => true | _ => false end); [done|].
  unfold resolveParent, parent_in. pose proof (not_a_node st s m Hs) as Hn. destruct (d_parent d) as [p|]; [|rewrite Hn; split_and!; [done..|by left]].
  destruct (p =? NO_NODE) eqn:E0; bool_facts; [subst p; rewrite decide_False, Hn by (rewrite Hn; by intros [? ?]); split_and!; [done..|by left]|].
  destruct (indexOf (nodes st) p <? 0) eqn:E; bool_facts.
  - rewrite decide_False, Hn by (rewrite (in_tree st s m Hs); lia). split_and!; [done..|by left].
  - rewrite decide_True by (rewrite (in_tree st s m Hs); lia). destruct (tree_at st s m Hs p E) as (q & sf & Hq & Hsf & Hid & ->). unfold surface_at in Hsf.
    destruct (recordAt (nodes st) _) as [r|]; [|done]. cbn in Hsf. injection Hsf as <-. destruct (decide _); [|done]. split_and!; [done| |right; by exists q].
    rewrite (id_of_slot st s m Hs); [done|by exists q].
Qed.

(** A handle not yet in the tree, hung. *)
Definition hung (enabled : list Surface) (d : NodeDesc) (t : Tree) (id : Z) (t' : Tree) : Prop :=
  refusal enabled t d = None /\ id <> NO_NODE /\ t !! id = None /\ t' = <[id := (nullish (d_surface d) world, parent_in t (d_parent d))]> t.

(** A create that is refused, or finds the table full. *)
Definition cannot_hang (enabled : list Surface) (d : NodeDesc) (t : Tree) (e : renderer_error) : Prop :=
  refusal enabled t d = Some e \/ refusal enabled t d = None /\ exists x, e = NoSlots x.

Lemma createNode_tree d st : ready st -> let t := tree_of st in
  match createNode d st with
  | (Ok id, st') => ready st' /\ enabledSurfaces st' = enabledSurfaces st /\ hung (enabledSurfaces st) d t id (tree_of st')
  | (Throw e, st') => st' = st /\ cannot_hang (enabledSurfaces st) d t e
  end.
Proof.
  intros (s & m & Hs). cbv zeta. pose proof (createNode_spec d st s m Hs) as H. pose proof (create_check_tree st s m d Hs) as Hc. cbv zeta in H. destruct (createNode d st) as [[id|e] st'].
  - destruct H as (p & s' & Hs' & He & Hck & H0 & Hi & Hsf & Hk). rewrite Hck in Hc. destruct Hc as (Hr & Hp & Hpm). set (i := indexOf (nodes st') id) in *.
    destruct (handle_slot st' s' _ Hs' id i eq_refl H0) as [Him Hid]. split; [by exists s', (<[i := p]> m)|]. split; [done|]. split; [done|]. split; [|split].
    + destruct (live_slot st' s' _ Hs' i Him) as (_ & _ & Hn & _). by rewrite Hid in Hn.
    + apply eq_None_not_Some. intros [[sf q] (j & r & Hj & Hjd & _)%(tree_lookup st s m Hs)]. assert (Hjs : is_Some (m !! j)) by by exists r. destruct (Hk j Hjs) as [Hij _].
      assert (i = j) by (apply (id_inj st' s' _ Hs'); [done|congruence|]; rewrite lookup_insert_is_Some'; by right). subst j. rewrite Hi in Hjs. by destruct Hjs.
    + rewrite <- Hid at 1. rewrite <- Hp. by apply (tree_insert st s m st' s').
  - destruct H as [-> [H|(p & x & H & ->)]]; rewrite H in Hc; (split; [done|]); unfold cannot_hang; [by left|]. destruct Hc as (-> & _). right. split; [done|by exists x].
Qed.

Lemma destroyNode_tree n st : ready st -> let t' := tree_of (destroyNode n st) in
  ready (destroyNode n st) /\ enabledSurfaces (destroyNode n st) = enabledSurfaces st /\ cut (tree_of st) n t'.
Proof.
  intros (s & m & Hs). cbv zeta. destruct (destroyNode_spec n st s m Hs) as [[H ->]|(H0 & Hi & l & s' & Hl & Hs' & He & Hk)].
  - split; [by exists s, m|]. split; [done|]. intros x e. rewrite (in_tree st s m Hs). split; [|tauto]. intros Hx. split; [done|lia].
  - split; [by eexists s', _|]. split; [done|]. destruct (handle_slot st s m Hs n _ eq_refl H0) as [_ Hid]. rewrite <- Hid at 1. by apply (tree_cut st s m _ s' _ l).
Qed.

(** Nothing about the tree is touched. *)
Definition same_tree (st st' : Stage) : Prop := ready st' /\ enabledSurfaces st' = enabledSurfaces st /\ tree_of st' = tree_of st.

Inductive attaches (t : Tree) (c p : Z) : option renderer_error -> Tree -> Prop :=
  | attach_dead : t !! c = None \/ t !! p = None -> attaches t c p None t
  | attach_crossing sf sg q r : t !! c = Some (sf, q) -> t !! p = Some (sg, r) -> sf <> sg -> attaches t c p (Some CrossSurfaceParent) t
  | attach_cycle sf q r : t !! c = Some (sf, q) -> t !! p = Some (sf, r) -> below t c p -> attaches t c p (Some Cycle) t
  | attach_under sf q r : t !! c = Some (sf, q) -> t !! p = Some (sf, r) -> ~ below t c p -> attaches t c p None (<[c := (sf, p)]> t).

Definition thrown {A} (r : outcome renderer_error A) : option renderer_error := match r with Ok _ => None | Throw e => Some e end.

Lemma relinked_tree st s m st' i p : staged st s m -> relinked st st' m (<[i := p]> m) -> is_Some (m !! i) -> p = NO_SLOT \/ is_Some (m !! p) ->
  ready st' /\ exists sf, surface_at st i = Some sf /\ tree_of st' = <[idAt (nodes st) i := (sf, id_of st p)]> (tree_of st).
Proof.
  intros Hs (Hn & _ & s' & Hs') Hi Hp. split; [by exists s', (<[i := p]> m)|]. destruct (live_slot st s m Hs i Hi) as (_ & _ & _ & [sf Hsf]). exists sf. split; [done|].
  rewrite <- Hn at 1. apply (tree_insert st s m st' s'); try done; [|intros j _]; unfold surface_at in *; by rewrite Hn.
Qed.

Lemma attachAt_tree c q keep st : ready st -> 0 <= indexOf (nodes st) c -> let a := attachAt (indexOf (nodes st) c) q keep st in
  ready a.2 /\ enabledSurfaces a.2 = enabledSurfaces st /\ attaches (tree_of st) c q (thrown a.1) (tree_of a.2).
Proof.
  intros (s & m & Hs) H0. cbv zeta. destruct (tree_at st s m Hs c H0) as (pc & sf & Hc & Hsf & Hid & Ht). assert (Hi : is_Some (m !! indexOf (nodes st) c)) by by exists pc.
  pose proof (attachAt_spec _ q keep st s m Hs Hi) as H. cbv zeta in H. set (i := indexOf (nodes st) c) in *. destruct (attachAt i q keep st) as [[[]|e] st']; cbn [fst snd thrown].
  - destruct H as [[Hd ->]|(Hq & Hsq & Hno & Hr)].
    + split; [by exists s, m|]. split; [done|]. apply attach_dead. right. apply eq_None_not_Some. rewrite (in_tree st s m Hs). lia.
    + destruct (tree_at st s m Hs q Hq) as (pq & sg & Hq' & Hsg & Hidq & Htq). assert (Hqs : is_Some (m !! indexOf (nodes st) q)) by by exists pq.
      destruct (relinked_tree st s m st' i _ Hs Hr Hi (or_intror Hqs)) as (Hrd & sf' & Hsf' & Htree). split; [done|]. split; [apply Hr|]. rewrite Hid, (id_of_slot st s m Hs _ Hqs), Hidq in Htree. rewrite Htree.
      assert (sf' = sf) as -> by congruence. assert (sg = sf) as -> by congruence. apply (attach_under _ _ _ sf (id_of st pc) (id_of st pq)); [done|done|].
      rewrite <- Hid, <- Hidq, <- (under_below st s m Hs); done.
  - destruct H as (-> & Hq & H). destruct (tree_at st s m Hs q Hq) as (pq & sg & Hq' & Hsg & Hidq & Htq). split; [by exists s, m|]. split; [done|]. destruct H as [[-> Hne]|(-> & Hsq & Hu)].
    + apply (attach_crossing _ _ _ sf sg (id_of st pc) (id_of st pq)); [done|done|congruence].
    + assert (sg = sf) as -> by congruence. apply (attach_cycle _ _ _ sf (id_of st pc) (id_of st pq)); [done|done|]. rewrite <- Hid, <- Hidq, <- (under_below st s m Hs); [done|done|by exists pq].
Qed.

Lemma attachNode_tree c q keep st : ready st -> let a := attachNode c q keep st in
  ready a.2 /\ enabledSurfaces a.2 = enabledSurfaces st /\ attaches (tree_of st) c q (thrown a.1) (tree_of a.2).
Proof.
  intros Hr. unfold attachNode. destruct (indexOf (nodes st) c <? 0) eqn:E; bool_facts; [|by apply attachAt_tree].
  split; [done|]. split; [done|]. apply attach_dead. left. destruct Hr as (s & m & Hs). apply eq_None_not_Some. rewrite (in_tree st s m Hs). lia.
Qed.

Definition freed (t : Tree) (c : Z) : Tree := match t !! c with Some (sf, _) => <[c := (sf, NO_NODE)]> t | None => t end.

Lemma detachAt_tree c keep st : ready st -> 0 <= indexOf (nodes st) c -> let st' := detachAt (indexOf (nodes st) c) keep st in
  ready st' /\ enabledSurfaces st' = enabledSurfaces st /\ tree_of st' = freed (tree_of st) c.
Proof.
  intros (s & m & Hs) H0. cbv zeta. destruct (tree_at st s m Hs c H0) as (pc & sf & Hc & Hsf & Hid & Ht). assert (Hi : is_Some (m !! indexOf (nodes st) c)) by by exists pc.
  pose proof (detachAt_spec _ keep st s m Hs Hi) as Hr. destruct (relinked_tree st s m _ _ _ Hs Hr Hi (or_introl eq_refl)) as (Hrd & sf' & Hsf' & ->). split; [done|]. split; [apply Hr|].
  unfold freed. rewrite Ht, Hid. assert (sf' = sf) as -> by congruence. done.
Qed.

Lemma detachNode_tree c keep st : ready st -> let st' := detachNode c keep st in
  ready st' /\ enabledSurfaces st' = enabledSurfaces st /\ tree_of st' = freed (tree_of st) c.
Proof.
  intros Hr. unfold detachNode. destruct (indexOf (nodes st) c <? 0) eqn:E; bool_facts; [|by apply detachAt_tree].
  split; [done|]. split; [done|]. unfold freed. destruct Hr as (s & m & Hs). replace (tree_of st !! c) with (@None (Surface * Z)); [done|]. symmetry. apply eq_None_not_Some. rewrite (in_tree st s m Hs). lia.
Qed.

(** ** Batches *)

(** The node a batch entry asks for, its parent among those made. *)
Definition in_batch (t : Tree) (d : SubtreeNodeDesc) (made : list Z) : option NodeDesc :=
  match parentInBatch d with
  | None => Some (desc d)
  | Some p =>
      if (p <? 0) || (arr_len made <=? p) then None
      else
        let parent := nullish (arr_get made p) NO_NODE in
        let surface := match d_surface (desc d) with Some s => s | None => match t !! parent with Some (s, _) => s | None => world end end in
        let d := desc d in
        Some (MkDesc (d_kind d) (Some surface) (Some parent) (d_fields d) (d_neverCull d) (d_layer d) (d_uiAnchor d))
  end.

Lemma surfaceOf_tree st n : ready st -> surfaceOf st n = fst <$> tree_of st !! n.
Proof.
  intros (s & m & Hs). unfold surfaceOf. destruct (indexOf (nodes st) n <? 0) eqn:E; bool_facts.
  - replace (tree_of st !! n) with (@None (Surface * Z)); [done|]. symmetry. apply eq_None_not_Some. rewrite (in_tree st s m Hs). lia.
  - destruct (tree_at st s m Hs n E) as (q & sf & _ & Hsf & _ & ->). done.
Qed.

Lemma createInBatch_tree d made st : ready st ->
  createInBatch d (arr_len made) made st = match in_batch (tree_of st) d made with Some d => createNode d st | None => (Throw InvalidNodeDesc, st) end.
Proof.
  intros Hr. unfold createInBatch, in_batch. destruct (parentInBatch d) as [p|]; [|done]. destruct (_ || _); [done|]. cbv zeta. rewrite (surfaceOf_tree st _ Hr).
  destruct (d_surface (desc d)); [done|]. by destruct (tree_of st !! _) as [[sf q]|].
Qed.

Inductive grows_batch (enabled : list Surface) : list SubtreeNodeDesc -> list Z -> Tree -> list Z -> Tree -> Prop :=
  | batch_done made t : grows_batch enabled [] made t made t
  | batch_next d ds made t nd id t1 made' t' : in_batch t d made = Some nd -> hung enabled nd t id t1 -> grows_batch enabled ds (made ++ [id]) t1 made' t' ->
      grows_batch enabled (d :: ds) made t made' t'.

Inductive batch_fails (enabled : list Surface) : list SubtreeNodeDesc -> list Z -> Tree -> renderer_error -> Prop :=
  | fails_entry d ds made t : in_batch t d made = None -> batch_fails enabled (d :: ds) made t InvalidNodeDesc
  | fails_hang d ds made t nd e : in_batch t d made = Some nd -> cannot_hang enabled nd t e -> batch_fails enabled (d :: ds) made t e
  | fails_later d ds made t nd id t1 e : in_batch t d made = Some nd -> hung enabled nd t id t1 -> batch_fails enabled ds (made ++ [id]) t1 e ->
      batch_fails enabled (d :: ds) made t e.

(** What was made can be taken down, the last first, to what was there. *)
Inductive stacked (t0 : Tree) : list Z -> Tree -> Prop :=
  | stacked_none : stacked t0 [] t0
  | stacked_one made t id e : stacked t0 made t -> tree_ok t -> t !! id = None -> id <> NO_NODE -> stacked t0 (made ++ [id]) (<[id := e]> t).

Lemma cut_newest t id e t' : tree_ok t -> t !! id = None -> id <> NO_NODE -> e.2 <> id -> cut (<[id := e]> t) id t' -> t' = t.
Proof.
  intros Ht Hid Hn He Hc. assert (Hleaf : forall z p, up (<[id := e]> t) z p -> p <> id).
  { intros z p [sf Hz]. apply lookup_insert_Some in Hz as [[_ ->]|[_ Hz]]; [done|]. intros ->. destruct (tk_up _ Ht z sf id Hz Hn) as [q Hq]. congruence. }
  assert (Hb : forall x, below (<[id := e]> t) id x -> x = id) by (intros x Hb; apply rtc_inv_r in Hb as [->|(z & _ & Hz)]; [done|by apply Hleaf in Hz]).
  apply map_eq. intros x. apply option_eq. intros f. rewrite (Hc x f), lookup_insert_Some. split.
  - intros [[[-> ->]|[_ Hx]] Hno]; [|done]. exfalso. apply Hno. split; [by rewrite lookup_insert_eq|apply rtc_refl].
  - intros Hx. assert (x <> id) by congruence. split; [right; done|]. intros [_ Hbx]. by apply Hb in Hbx.
Qed.

Lemma unwind t0 made st : ready st -> stacked t0 made (tree_of st) -> ready (foldr destroyNode st made) /\ enabledSurfaces (foldr destroyNode st made) = enabledSurfaces st /\ tree_of (foldr destroyNode st made) = t0.
Proof.
  remember (tree_of st) as t eqn:Ht. intros Hr Hst. revert st Hr Ht. induction Hst as [|made t id e Hst IH Hok Hid Hn]; intros st Hr Ht; [done|]. rewrite foldr_app. cbn [foldr].
  destruct (destroyNode_tree id st Hr) as (Hr' & He & Hc). rewrite <- He. apply IH; [done|]. rewrite <- Ht in Hc. symmetry. apply (cut_newest t id e); try done.
  pose proof (ready_tree st Hr) as Hok'. rewrite <- Ht in Hok'. intros Hep. destruct e as [sf p]. cbn in Hep. subst p. assert (Hup : up (<[id := (sf, id)]> t) id id) by (exists sf; by rewrite lookup_insert_eq).
  apply (grounded_acyclic _ id id (tk_none _ Hok')) in Hup; [apply Hup, rtc_refl|]. apply (tk_ground _ Hok'). by rewrite lookup_insert_eq.
Qed.

Lemma createAll_tree ds t0 made st : ready st -> stacked t0 made (tree_of st) -> let a := createAll ds made st in
  ready a.2 /\ enabledSurfaces a.2 = enabledSurfaces st /\
  match a.1 with Ok made' => grows_batch (enabledSurfaces st) ds made (tree_of st) made' (tree_of a.2) | Throw e => tree_of a.2 = t0 /\ batch_fails (enabledSurfaces st) ds made (tree_of st) e end.
Proof.
  revert made st. induction ds as [|d ds IH]; intros made st Hr Hst; cbv zeta; cbn [createAll]; [split_and!; try done; apply batch_done|]. rewrite (createInBatch_tree d made st Hr).
  destruct (in_batch (tree_of st) d made) as [nd|] eqn:Eb; [|destruct (unwind t0 made st Hr Hst) as (? & ? & ?); cbn [fst snd]; split_and!; try done; by apply fails_entry].
  pose proof (createNode_tree nd st Hr) as H. cbv zeta in H. destruct (createNode nd st) as [[id|e] st1].
  - destruct H as (Hr1 & He1 & Hh). assert (Hst1 : stacked t0 (made ++ [id]) (tree_of st1)) by (destruct Hh as (_ & Hn & Hid & ->); apply stacked_one; [done|by apply ready_tree|done|done]).
    destruct (IH (made ++ [id]) st1 Hr1 Hst1) as (Hr2 & He2 & H2). rewrite He1 in He2, H2. split; [done|]. split; [done|]. destruct (createAll ds (made ++ [id]) st1) as [[made'|e] st2]; cbn [fst snd] in *.
    + by apply (batch_next _ _ _ _ _ nd id (tree_of st1)).
    + destruct H2 as [? ?]. split; [done|]. by apply (fails_later _ _ _ _ _ nd id (tree_of st1)).
  - destruct H as [-> H]. destruct (unwind t0 made st Hr Hst) as (? & ? & ?). cbn [fst snd]. split_and!; try done. by apply (fails_hang _ _ _ _ _ nd).
Qed.

Lemma createSubtree_tree ds st : ready st -> let a := createSubtree ds st in
  ready a.2 /\ enabledSurfaces a.2 = enabledSurfaces st /\
  match a.1 with Ok made => grows_batch (enabledSurfaces st) ds [] (tree_of st) made (tree_of a.2) | Throw e => tree_of a.2 = tree_of st /\ batch_fails (enabledSurfaces st) ds [] (tree_of st) e end.
Proof. intros Hr. apply createAll_tree; [done|apply stacked_none]. Qed.

(** ** Patches *)

Definition same_view (st st' : Stage) : Prop :=
  enabledSurfaces st' = enabledSurfaces st /\ forall j, idAt (nodes st') j = idAt (nodes st) j /\ surface_at st' j = surface_at st j.
#[export] Instance same_view_preorder : PreOrder same_view.
Proof. split; [done|]. intros x y z [E1 H1] [E2 H2]. split; [congruence|]. intros j. destruct (H1 j), (H2 j). split; congruence. Qed.

Lemma view_tree st s m st' : staged st s m -> staged st' s m -> same_view st st' -> same_tree st st'.
Proof.
  intros Hs Hs' [He Hv]. split; [by exists s, m|]. split; [done|]. assert (Hid : forall q, id_of st' q = id_of st q) by (intros q; unfold id_of; destruct (q =? NO_SLOT); [done|by apply Hv]).
  apply map_eq. intros n. apply option_eq. intros [sf p]. rewrite (tree_lookup st' s m Hs'), (tree_lookup st s m Hs). setoid_rewrite Hid.
  split; intros (i & q & H1 & H2 & H3 & H4); exists i, q; destruct (Hv i); split_and!; try done; congruence.
Qed.

Lemma put_view i r r0 st c : recordAt (nodes st) i = Some r0 -> n_surface r = n_surface r0 -> same_view st (on_xf (markFlushDirty i) (sink c (put_record i r st))) /\ same_view st (sink c (put_record i r st)).
Proof.
  intros Hi Hr. assert (H : same_view st (put_record i r st)); [|by split].
  split; [done|]. intros j. assert (Hrec : recordAt (nodes (put_record i r st)) j = if decide (j = i) then Some r else recordAt (nodes st) j).
  { pose proof (recordAt_range _ _ _ Hi) as Hrg. unfold SlotTable.slotCount in Hrg. unfold recordAt. cbn. destruct (decide (j = i)) as [->|Hne]; [by rewrite arr_get_set_eq|by rewrite arr_get_set_ne]. }
  unfold idAt, surface_at. rewrite Hrec. destruct (decide (j = i)) as [->|]; [|done]. rewrite Hi. cbn. by rewrite Hr.
Qed.

Lemma patch_view i r p st : recordAt (nodes st) i = Some r -> same_view st (applyPatchAt i r p st) /\ is_Some (recordAt (nodes (applyPatchAt i r p st)) i).
Proof.
  intros Hi. unfold applyPatchAt. set (st1 := on_xf _ st). assert (H1 : same_view st st1) by done. assert (Hi1 : recordAt (nodes st1) i = Some r) by done. clearbody st1.
  assert (Hsome : forall x y, same_view x y -> is_Some (recordAt (nodes x) i) -> is_Some (recordAt (nodes y) i)).
  { intros x y [_ Hv] [z Hz]. destruct (Hv i) as [_ Hsf]. unfold surface_at in Hsf. rewrite Hz in Hsf. by destruct (recordAt (nodes y) i). }
  set (st2 := when_some (p_layer p) _ st1). assert (H2 : same_view st1 st2) by (unfold st2; destruct (p_layer p) as [l|]; cbn [when_some]; [by apply (put_view i _ r)|done]).
  clearbody st2. destruct (Hsome _ _ H2 (ex_intro _ r Hi1)) as [r2 Hr2]. assert (E2 : record_at i r st2 = r2) by (unfold record_at; by rewrite Hr2). rewrite !E2.
  set (st3 := match p_texture p with Some _ => _ | None => st2 end). assert (H3 : same_view st2 st3) by (unfold st3; destruct (p_texture p) as [t|]; [|done]; destruct (decide _); [by apply (put_view i _ r2)|done]).
  clearbody st3. destruct (Hsome _ _ H3 (ex_intro _ r2 Hr2)) as [r3 Hr3]. assert (E3 : record_at i r2 st3 = r3) by (unfold record_at; by rewrite Hr3). rewrite !E3.
  set (st4 := match p_text p with Some _ => _ | None => st3 end). assert (H4 : same_view st3 st4) by (unfold st4; destruct (p_text p) as [t|]; [|done]; destruct (decide _); [by apply (put_view i _ r3)|done]).
  clearbody st4. split; [by transitivity st1; [|transitivity st2; [|transitivity st3]]|]. apply (Hsome st3); [done|by exists r3].
Qed.

Lemma patch_tree i r p st : ready st -> recordAt (nodes st) i = Some r -> same_tree st (applyPatchAt i r p st).
Proof. intros (s & m & Hs) Hi. apply (view_tree st s m); [done|by apply applyPatchAt_staged|by apply patch_view]. Qed.

#[export] Instance same_tree_trans : Transitive same_tree.
Proof. intros x y z (_ & E1 & T1) (R2 & E2 & T2). split; [done|]. split; congruence. Qed.

Lemma same_tree_refl st : ready st -> same_tree st st.
Proof. done. Qed.

Lemma patch_slots_tree p l st : ready st -> same_tree st (foldl (patch_slot p) st l).
Proof.
  revert st. induction l as [|i l IH]; intros st Hr; [by apply same_tree_refl|]. cbn [foldl]. assert (H : same_tree st (patch_slot p st i)).
  { unfold patch_slot. destruct (recordAt (nodes st) i) as [r|] eqn:E; [by apply patch_tree|by apply same_tree_refl]. }
  transitivity (patch_slot p st i); [done|]. apply IH, H.
Qed.

Lemma updateSubtree_tree root p inc st : ready st -> same_tree st (updateSubtree root p inc st).
Proof. intros Hr. unfold updateSubtree. destruct (_ <? 0); [by apply same_tree_refl|by apply patch_slots_tree]. Qed.

Lemma setNodeText_tree id t st : ready st -> same_tree st (setNodeText id t st).
Proof.
  intros (s & m & Hs). assert (Hr : ready st) by by exists s, m. unfold setNodeText. destruct (_ <? 0) eqn:E; [by apply same_tree_refl|]. destruct (recordAt _ _) as [r|] eqn:Er; [|by apply same_tree_refl].
  destruct (decide _) as [Hk|]; [|by apply same_tree_refl]. apply (view_tree st s m); [done| |by apply (put_view _ _ r)].
  pose proof (setNodeText_staged id t st s m Hs) as H. unfold setNodeText in H. by rewrite E, Er, decide_True in H.
Qed.

Lemma edit_tree f st : ready st -> (forall t s, good t s -> good (f t) s) -> same_tree st (on_xf f st).
Proof. intros (s & m & Hs) Hf. apply (view_tree st s m); [done|by apply staged_xf; [|intros t; apply Hf]|done]. Qed.

Inductive reparents (t : Tree) : NodePatch -> option renderer_error -> Tree -> Prop :=
  | reparent_not p : p_parent p = None \/ t !! p_id p = None -> reparents t p None t
  | reparent_off p : p_parent p = Some NO_NODE -> reparents t p None (freed t (p_id p))
  | reparent_on p q e t' : p_parent p = Some q -> q <> NO_NODE -> attaches t (p_id p) q e t' -> reparents t p e t'.

(** Patch by patch, up to the one that throws. *)
Inductive repatches : Tree -> list NodePatch -> option renderer_error -> Tree -> Prop :=
  | patched t : repatches t [] None t
  | patch_throws t p ps e t' : reparents t p (Some e) t' -> repatches t (p :: ps) (Some e) t'
  | patch_next t p ps t1 e t' : reparents t p None t1 -> repatches t1 ps e t' -> repatches t (p :: ps) e t'.

Lemma updateNode_tree p st : ready st -> let a := updateNode p st in
  ready a.2 /\ enabledSurfaces a.2 = enabledSurfaces st /\ reparents (tree_of st) p (thrown a.1) (tree_of a.2).
Proof.
  intros Hr. cbv zeta. unfold updateNode. destruct Hr as (s & m & Hs). assert (Hr : ready st) by by exists s, m. destruct (indexOf (nodes st) (p_id p) <? 0) eqn:E; bool_facts.
  { split; [done|]. split; [done|]. apply reparent_not. right. apply eq_None_not_Some. rewrite (in_tree st s m Hs). lia. }
  destruct (tree_at st s m Hs _ E) as (q & sf & _ & Hsf & _ & _). unfold surface_at in Hsf. destruct (recordAt (nodes st) (indexOf (nodes st) (p_id p))) as [r|] eqn:Er; [|done]. clear Hsf.
  assert (H : ready (reparent_patch (indexOf (nodes st) (p_id p)) p st).2 /\ enabledSurfaces (reparent_patch (indexOf (nodes st) (p_id p)) p st).2 = enabledSurfaces st
    /\ reparents (tree_of st) p (thrown (reparent_patch (indexOf (nodes st) (p_id p)) p st).1) (tree_of (reparent_patch (indexOf (nodes st) (p_id p)) p st).2)
    /\ nodes (reparent_patch (indexOf (nodes st) (p_id p)) p st).2 = nodes st).
  { unfold reparent_patch. destruct (p_parent p) as [q0|] eqn:Ep; [|split_and!; try done; apply reparent_not; by left]. destruct (q0 =? NO_NODE) eqn:E0; bool_facts.
    - subst q0. destruct (detachAt_tree (p_id p) true st Hr E) as (R1 & R2 & R3). cbn [fst snd thrown]. rewrite R3. split_and!; try done; [by apply reparent_off|].
      apply (detachAt_spec _ true st s m Hs). by apply (indexed st s m Hs (p_id p)).
    - destruct (attachAt_tree (p_id p) q0 false st Hr E) as (R1 & R2 & R3). split_and!; try done; [by apply (reparent_on _ _ q0)|].
      unfold attachAt. destruct (_ <? 0); [done|]. destruct (recordAt _ _); [|done]. destruct (recordAt _ _); [|done]. destruct (decide _); [done|]. by destruct (isAncestorOf _ _ _). }
  destruct H as (H1 & H2 & H3 & H4). destruct (reparent_patch _ p st) as [[u|e] st1]; cbn [fst snd thrown] in *; [|done].
  assert (Er1 : recordAt (nodes st1) (indexOf (nodes st) (p_id p)) = Some r) by (by rewrite H4). destruct (patch_tree _ r p st1 H1 Er1) as (P1 & P2 & P3). split; [done|]. split; [congruence|]. by rewrite P3.
Qed.

Lemma updateNodes_tree ps st : ready st -> let a := updateNodes ps st in
  ready a.2 /\ enabledSurfaces a.2 = enabledSurfaces st /\ repatches (tree_of st) ps (thrown a.1) (tree_of a.2).
Proof.
  revert st. induction ps as [|p ps IH]; intros st Hr; cbv zeta; cbn [updateNodes]; [split_and!; try done; apply patched|].
  destruct (updateNode_tree p st Hr) as (R1 & R2 & R3). destruct (updateNode p st) as [[u|e] st1]; cbn [fst snd thrown] in *; [|split_and!; try done; by apply patch_throws].
  destruct (IH st1 R1) as (Q1 & Q2 & Q3). split; [done|]. split; [congruence|]. by apply (patch_next _ _ _ (tree_of st1)).
Qed.

(** ** Clearing and rebuilding *)

Lemma handle_index (n : SlotTable NodeRecord) id : 0 <= indexOf n id -> indexOf n id = handleIndex id.
Proof. unfold indexOf. destruct (_ || _); [lia|]. destruct (recordAt _ _); [|lia]. destruct (arr_get _ _); [|lia]. destruct (_ =? _); lia. Qed.

(** The slots seen hold no root of the surface. *)
Record clearing (t0 : Tree) (sf : Surface) (seen : list Z) (t : Tree) : Prop := {
  cl_sub x e : t !! x = Some e -> t0 !! x = Some e;
  cl_kept x sg p : t0 !! x = Some (sg, p) -> sg <> sf -> t !! x = Some (sg, p);
  cl_seen x : t !! x = Some (sf, NO_NODE) -> handleIndex x ∉ seen;
}.

Lemma below_surface t n x sf p : tree_ok t -> t !! n = Some (sf, p) -> below t n x -> exists q, t !! x = Some (sf, q).
Proof.
  intros Ht Hn Hb. unfold below in Hb. induction Hb as [x|x y n [sg Hx] Hb IH]; [by exists p|]. destruct (IH Hn) as [q Hy]. destruct (decide (y = NO_NODE)) as [->|Hne]; [by rewrite (tk_none _ Ht) in Hy|].
  destruct (tk_up _ Ht x sg y Hx Hne) as [q' Hq]. exists y. rewrite Hx. congruence.
Qed.

Lemma clear_root_tree sf st i : ready st -> let st' := clear_root sf st i in ready st' /\ enabledSurfaces st' = enabledSurfaces st /\
  (tree_of st' = tree_of st \/ exists n, tree_of st !! n = Some (sf, NO_NODE) /\ cut (tree_of st) n (tree_of st')) /\ forall x, tree_of st' !! x = Some (sf, NO_NODE) -> tree_of st !! x = Some (sf, NO_NODE) -> handleIndex x <> i.
Proof.
  intros Hr. cbv zeta. destruct Hr as (s & m & Hs). assert (Hr : ready st) by by exists s, m.
  assert (Hat : forall x, tree_of st !! x = Some (sf, NO_NODE) -> handleIndex x = i -> idAt (nodes st) i = x /\ surface_at st i = Some sf /\ parent (xf st) i = NO_SLOT).
  { intros x Hx <-. assert (H0 : 0 <= indexOf (nodes st) x) by (apply (in_tree st s m Hs); by eexists). rewrite <- (handle_index _ _ H0). destruct (tree_at st s m Hs x H0) as (q & sg & Hq & Hsg & Hid & Hx').
    rewrite Hx in Hx'. injection Hx' as <- Hq0. split_and!; [done|done|]. destruct (hangs_parent st s m Hs _ q Hq) as [Hin Hp]. unfold parent. rewrite (proj2 (has_inside _ _) Hin), Hp.
    unfold id_of in Hq0. destruct (q =? NO_SLOT) eqn:E; bool_facts; [done|]. pose proof (parent_shown st s m Hs _ q Hq E) as Hqs. destruct (live_slot st s m Hs q Hqs) as (_ & _ & Hn & _). congruence. }
  unfold clear_root. destruct (recordAt (nodes st) i) as [r|] eqn:Er.
  2:{ split_and!; [done|done|by left|]. intros x _ Hx Hi. destruct (Hat x Hx Hi) as (_ & Hsf & _). unfold surface_at in Hsf. by rewrite Er in Hsf. }
  destruct (decide (n_surface r = sf)) as [Hsf|Hsf].
  2:{ split_and!; [done|done|by left|]. intros x _ Hx Hi. destruct (Hat x Hx Hi) as (_ & H & _). unfold surface_at in H. rewrite Er in H. cbn in H. congruence. }
  destruct (parent (xf st) i =? NO_SLOT) eqn:Ep; bool_facts.
  2:{ split_and!; [done|done|by left|]. intros x _ Hx Hi. by destruct (Hat x Hx Hi) as (_ & _ & H). }
  destruct (proj1 (sg_live _ _ _ Hs i)) as [q Hq]; [by exists r|]. destruct (hangs_parent st s m Hs i q Hq) as [Hin Hp]. unfold parent in Ep. rewrite (proj2 (has_inside _ _) Hin), Hp in Ep. subst q.
  destruct (destroyNode_tree (idAt (nodes st) i) st Hr) as (R1 & R2 & R3). split_and!; [done|done| |].
  - right. exists (idAt (nodes st) i). split; [|done]. apply (tree_lookup st s m Hs). exists i, NO_SLOT. split_and!; try done. unfold surface_at. rewrite Er. cbn. by rewrite Hsf.
  - intros x Hx Hx0 Hi. destruct (Hat x Hx0 Hi) as (Hid & _). apply R3 in Hx as [_ Hno]. apply Hno. rewrite Hid. split; [by exists (sf, NO_NODE)|apply rtc_refl].
Qed.

Lemma clear_surface_tree sf st : ready st -> let st' := clear (Some sf) st in
  ready st' /\ enabledSurfaces st' = enabledSurfaces st /\ tree_of st' = filter (fun '(_, (sg, _)) => sg <> sf) (tree_of st).
Proof.
  intros Hr. cbv zeta. cbn [clear]. set (t0 := tree_of st).
  assert (H : forall l seen st1, ready st1 -> clearing t0 sf seen (tree_of st1) -> let st2 := foldl (clear_root sf) st1 l in
    ready st2 /\ enabledSurfaces st2 = enabledSurfaces st1 /\ clearing t0 sf (seen ++ l) (tree_of st2)).
  { induction l as [|i l IH]; intros seen st1 Hr1 Hc1; cbn [foldl]; [by rewrite app_nil_r|]. destruct (clear_root_tree sf st1 i Hr1) as (R1 & R2 & R3 & R4). rewrite cons_middle, app_assoc, <- R2.
    apply IH; [done|]. destruct Hc1 as [C1 C2 C3]. assert (Hsub : forall x e, tree_of (clear_root sf st1 i) !! x = Some e -> tree_of st1 !! x = Some e).
    { intros x e Hx. destruct R3 as [Heq|(n & _ & Hcut)]; [by rewrite <- Heq|by apply Hcut in Hx as [? _]]. }
    split.
    - intros x e Hx. by apply C1, Hsub.
    - intros x sg p Hx Hne. specialize (C2 x sg p Hx Hne). destruct R3 as [->|(n & Hn & Hcut)]; [done|]. apply Hcut. split; [done|]. intros [_ Hb].
      destruct (below_surface _ n x sf NO_NODE (ready_tree _ Hr1) Hn Hb) as [q Hq]. congruence.
    - intros x Hx. rewrite elem_of_app, list_elem_of_singleton. intros [Hin|Heq]; [by apply (C3 x (Hsub _ _ Hx))|]. by apply (R4 x Hx (Hsub _ _ Hx)). }
  destruct (H (liveIndices (nodes st)) [] st Hr) as (R1 & R2 & [C1 C2 C3]); [split; try done; intros x _; apply not_elem_of_nil|]. cbv zeta in *. set (st' := foldl _ st _) in *. split; [done|]. split; [done|].
  destruct Hr as (s & m & Hs). pose proof (ready_tree st' R1) as Hok. assert (Hnone : forall x p, tree_of st' !! x <> Some (sf, p)).
  { intros x p Hx. assert (Hg : grounded (tree_of st') x) by (apply (tk_ground _ Hok); by eexists). revert p Hx. induction Hg as [x [sg Hx0]|x p [sg Hx0] Hg IH]; intros q Hx; rewrite Hx0 in Hx; injection Hx as -> <-.
    - apply (C3 x Hx0). cbn [app]. assert (H0 : 0 <= indexOf (nodes st) x) by (apply (in_tree st s m Hs); exists (sf, NO_NODE); by apply C1). rewrite <- (handle_index _ _ H0).
      apply elem_of_liveIndices. apply (sg_live _ _ _ Hs). by apply (indexed st s m Hs x).
    - destruct (decide (p = NO_NODE)) as [->|Hne]; [inversion Hg as [[? Hn]|? [? Hn]]; by rewrite (tk_none _ Hok) in Hn|]. destruct (tk_up _ Hok x sf p Hx0 Hne) as [q Hq]. by apply (IH q). }
  apply map_eq. intros x. apply option_eq. intros [sg p]. rewrite map_lookup_filter_Some. split.
  - intros Hx. split; [by apply C1|]. intros ->. by apply (Hnone x p).
  - intros [Hx Hne]. by apply C2.
Qed.

Lemma clear_all_tree st : ready st -> let st' := clear None st in ready st' /\ enabledSurfaces st' = enabledSurfaces st /\ tree_of st' = ∅.
Proof.
  intros (s & m & Hs). cbv zeta. split; [exact (clear_staged None st s m Hs)|]. split; [done|]. unfold tree_of. cbn [nodes clear sink with_nodes with_xf]. rewrite abs_clear by apply Hs. apply map_imap_empty.
Qed.

Lemma recreate_tree st : ready st -> same_tree st (recreate st).
Proof.
  intros (s & m & Hs). apply (view_tree st s m); [done|by apply recreate_staged|]. unfold recreate. assert (H1 : forall l st1, same_view st1 (foldl recreate_one st1 l)).
  { induction l as [|i l IH]; intros st1; [done|]. cbn [foldl]. transitivity (recreate_one st1 i); [|apply IH]. unfold recreate_one. by destruct (recordAt _ _). }
  assert (H2 : forall rs st1, same_view st1 (foldl (fun st root => foldl recreate_one st (subtree (xf st) root true)) st1 rs)).
  { induction rs as [|r rs IH]; intros st1; [done|]. cbn [foldl]. transitivity (foldl recreate_one st1 (subtree (xf st1) r true)); [apply H1|apply IH]. }
  exact (H2 _ (sink SClearAll st)).
Qed.

(** ** The stage refines the tree *)

(** What a call gives back: the handles it made, or what it throws. *)
Definition answer (st : Stage) (o : StageOp) : outcome renderer_error (list Z) :=
  let ok {A} (r : outcome renderer_error A) := match r with Ok _ => Ok [] | Throw e => Throw e end in
  match o with
  | CreateNode d => match (createNode d st).1 with Ok id => Ok [id] | Throw e => Throw e end
  | CreateNodes ds => (createNodes ds [] st).1
  | CreateSubtree ds => (createSubtree ds st).1
  | AttachNode c p keep => ok (attachNode c p keep st).1
  | UpdateNodes ps => ok (updateNodes ps st).1
  | _ => Ok []
  end.

Definition nothing (e : option renderer_error) : outcome renderer_error (list Z) := match e with Some e => Throw e | None => Ok [] end.

Inductive grows_nodes (enabled : list Surface) : list NodeDesc -> list Z -> Tree -> outcome renderer_error (list Z) -> Tree -> Prop :=
  | nodes_done made t : grows_nodes enabled [] made t (Ok made) t
  | nodes_throw d ds made t e : cannot_hang enabled d t e -> grows_nodes enabled (d :: ds) made t (Throw e) t
  | nodes_next d ds made t id t1 r t' : hung enabled d t id t1 -> grows_nodes enabled ds (made ++ [id]) t1 r t' -> grows_nodes enabled (d :: ds) made t r t'.

(** What each call means. *)
Inductive means (enabled : list Surface) (t : Tree) : StageOp -> outcome renderer_error (list Z) -> Tree -> Prop :=
  | means_create d id t' : hung enabled d t id t' -> means enabled t (CreateNode d) (Ok [id]) t'
  | means_refused d e : cannot_hang enabled d t e -> means enabled t (CreateNode d) (Throw e) t
  | means_creates ds r t' : grows_nodes enabled ds [] t r t' -> means enabled t (CreateNodes ds) r t'
  | means_batch ds made t' : grows_batch enabled ds [] t made t' -> means enabled t (CreateSubtree ds) (Ok made) t'
  | means_no_batch ds e : batch_fails enabled ds [] t e -> means enabled t (CreateSubtree ds) (Throw e) t
  | means_destroy n t' : cut t n t' -> means enabled t (DestroyNode n) (Ok []) t'
  | means_attach c p keep e t' : attaches t c p e t' -> means enabled t (AttachNode c p keep) (nothing e) t'
  | means_detach c keep : means enabled t (DetachNode c keep) (Ok []) (freed t c)
  | means_update ps e t' : repatches t ps e t' -> means enabled t (UpdateNodes ps) (nothing e) t'
  | means_subtree root p inc : means enabled t (UpdateSubtree root p inc) (Ok []) t
  | means_text id s : means enabled t (SetNodeText id s) (Ok []) t
  | means_clear : means enabled t (ClearStage None) (Ok []) ∅
  | means_clear_surface sf : means enabled t (ClearStage (Some sf)) (Ok []) (filter (fun '(_, (sg, _)) => sg <> sf) t)
  | means_recreate : means enabled t Recreate (Ok []) t
  | means_resolve : means enabled t ResolveStage (Ok []) t.

Lemma createNodes_tree ds made st : ready st -> let a := createNodes ds made st in
  ready a.2 /\ enabledSurfaces a.2 = enabledSurfaces st /\ grows_nodes (enabledSurfaces st) ds made (tree_of st) a.1 (tree_of a.2).
Proof.
  revert made st. induction ds as [|d ds IH]; intros made st Hr; cbv zeta; cbn [createNodes]; [split_and!; try done; apply nodes_done|].
  pose proof (createNode_tree d st Hr) as H. cbv zeta in H. destruct (createNode d st) as [[id|e] st1].
  - destruct H as (R1 & R2 & Hh). destruct (IH (made ++ [id]) st1 R1) as (Q1 & Q2 & Q3). rewrite R2 in Q2, Q3. split_and!; [done|done|]. by apply (nodes_next _ _ _ _ _ id (tree_of st1)).
  - destruct H as [-> H]. split_and!; try done. by apply nodes_throw.
Qed.

Lemma run_means st o : ready st -> ready (run_stage st o) /\ enabledSurfaces (run_stage st o) = enabledSurfaces st
  /\ means (enabledSurfaces st) (tree_of st) o (answer st o) (tree_of (run_stage st o)).
Proof.
  assert (Hsame : forall st' o', ready st -> same_tree st st' -> means (enabledSurfaces st) (tree_of st) o' (Ok []) (tree_of st) ->
    ready st' /\ enabledSurfaces st' = enabledSurfaces st /\ means (enabledSurfaces st) (tree_of st) o' (Ok []) (tree_of st')) by (intros st' o' _ (? & ? & ->); done).
  intros Hr. destruct o; cbn [run_stage answer].
  - pose proof (createNode_tree d st Hr) as H. cbv zeta in H. destruct (createNode d st) as [[id|e] st']; cbn [fst snd].
    + destruct H as (? & ? & ?). split_and!; [done|done|by apply means_create].
    + destruct H as [-> H]. split_and!; [done|done|by apply means_refused].
  - destruct (createNodes_tree ds [] st Hr) as (? & ? & ?). split_and!; [done|done|by apply means_creates].
  - destruct (createSubtree_tree ds st Hr) as (H1 & H2 & H3). split; [done|]. split; [done|]. destruct (createSubtree ds st) as [[made|e] st']; cbn [fst snd] in *; [by apply means_batch|]. destruct H3 as [-> ?]. by apply means_no_batch.
  - destruct (destroyNode_tree id st Hr) as (? & ? & ?). split_and!; [done|done|by apply means_destroy].
  - destruct (attachNode_tree child parent keep st Hr) as (H1 & H2 & H3). split; [done|]. split; [done|]. apply (means_attach (enabledSurfaces st) _ _ _ keep) in H3. by destruct (attachNode child parent keep st) as [[u|e] st'].
  - destruct (detachNode_tree child keep st Hr) as (? & ? & ->). split_and!; [done|done|apply means_detach].
  - destruct (updateNodes_tree ps st Hr) as (H1 & H2 & H3). split; [done|]. split; [done|]. apply (means_update (enabledSurfaces st)) in H3. by destruct (updateNodes ps st) as [[u|e] st'].
  - apply Hsame; [done|by apply updateSubtree_tree|apply means_subtree].
  - apply Hsame; [done|by apply setNodeText_tree|apply means_text].
  - destruct surface as [sf|]; [destruct (clear_surface_tree sf st Hr) as (? & ? & ->)|destruct (clear_all_tree st Hr) as (? & ? & ->)]; split_and!; try done; [apply means_clear_surface|apply means_clear].
  - apply Hsame; [done|by apply recreate_tree|apply means_recreate].
  - apply Hsame; [done| |apply means_resolve]. apply edit_tree; [done|]. intros t s. apply resolve_good.
Qed.

Lemma ready_run enabled ops : ready (foldl run_stage (new_stage enabled) ops) /\ enabledSurfaces (foldl run_stage (new_stage enabled) ops) = enabled.
Proof.
  assert (H : forall st, ready st /\ enabledSurfaces st = enabled -> ready (foldl run_stage st ops) /\ enabledSurfaces (foldl run_stage st ops) = enabled).
  { induction ops as [|o ops IH]; intros st [Hr He]; [done|]. cbn [foldl]. apply IH. destruct (run_means st o Hr) as (? & ? & _). split; [done|congruence]. }
  apply H. split; [|done]. exists new_forest, ∅. apply new_staged.
Qed.

(** C17. At any point of any history, each of the renderer's calls does to the tree of live
    handles exactly what it is meant to, throws included: a create hangs one new handle
    under a live parent of its surface or is refused for the first reason in the order of
    the code, a batch lands whole or not at all, an attach that would make a cycle or cross
    surfaces is refused and changes nothing, a destroy cuts off what is below one handle and
    nothing else, a clear takes one surface, and a stale handle never throws. *)
Theorem stage_refines_tree enabled ops o : let st := foldl run_stage (new_stage enabled) ops in
  tree_ok (tree_of st) /\ means enabled (tree_of st) o (answer st o) (tree_of (run_stage st o)).
Proof.
  intros st. destruct (ready_run enabled ops) as [Hr He]. fold st in Hr, He. split; [by apply ready_tree|]. rewrite <- He at 1. by apply run_means.
Qed.
