(* ===== verification/Display.v ===== *)
(** * The display bridge ([packages/client/src/bridge.ts])

    [RenderBridge] keeps a renderer's nodes in step with the mirrored world: it creates,
    reparents and destroys from the mirror's ordered deltas, draws what prediction does not
    own between two wire poses, and eases corrections. The renderer is the [Stage] (one that
    has been initialised), the world the mirror's [Runtime].

    A group template's children are whatever JSON the server sent, and are narrowed here; a
    number field of theirs that is not a number is [NaN], since the renderer reads both as
    the field's fallback. *)

From S2P Require Import Prelude JsMap JsNum Json Handle TransformStore SlotTable EntityTable Tweens World ProjectFormat Session Mirror Scene Stage NodeTree.

Local Open Scope Z_scope.

Definition PLACEHOLDER_TEXTURE : jstr := js "__missing__".
Definition CORRECTION_SMOOTH_SECONDS : num := dec 1 (-1).
Definition MAX_INTERPOLATION_DELAY_SECONDS : num := dec 1 (-1).
Definition MAX_FRAME_DT : num := dec 1 (-1).
Definition MAX_TEMPLATE_DEPTH : Z := Z.of_nat ProjectFormat.MAX_TEMPLATE_DEPTH.
Definition MAX_VISUAL_NODES : Z := 64.

(** ** Group templates, flattened *)

Definition num_of (j : json) : num := match j with JNum x => x | _ => NaN end.

(** A JSON value in a condition. *)
Definition truthy (j : json) : bool :=
  match j with
  | JNull => false
  | JBool b => b
  | JNum x => negb (is_nan x || feq x f0)
  | JStr s => negb (bool_decide (s = []))
  | JArr _ | JObj _ => true
  end.

(** [o ?? d] of a number field, which [null] falls through. *)
Definition or_num (o : option json) (d : num) : num := match o with None | Some JNull => d | Some j => num_of j end.

Definition is_str (o : option json) (s : jstr) : bool := match o with Some (JStr t) => bool_decide (t = s) | _ => false end.

Definition layer_of (child : json) : option num := match jget child "layer" with Some (JNum x) => if isFinite x then Some x else None | _ => None end.

Definition anchor_of (child : json) : option (num * num) :=
  match jget child "anchorX", jget child "anchorY" with
  | None, None => None
  | ax, ay => Some (or_num ax half, or_num ay half)
  end.

Definition childDesc (child : json) (parentIn : Z) : option SubtreeNodeDesc :=
  if negb (is_container child) then None
  else
    let position := (or_num (jget child "offsetX") f0, or_num (jget child "offsetY") f0, Some (or_num (jget child "offsetZ") f0)) in
    if is_str (jget child "kind") (js "group")
    then Some (MkSub (Some parentIn) (MkDesc AGroup None None (MkFields (Some position) None None None None None None) None (layer_of child) None))
    else if negb (is_str (jget child "kind") (js "sprite")) then None
    else match jget child "texture" with
         | Some (JStr (c :: texture)) =>
             let scale := match jget child "scale" with Some s => Some (num_of s, num_of s, Some f1) | None => None end in
             Some (MkSub (Some parentIn)
               (MkDesc (ASprite (c :: texture)) None None
                  (MkFields (Some position) (num_of <$> jget child "rotation") scale (anchor_of child) (num_of <$> jget child "alpha") None (num_of <$> jget child "tint"))
                  (truthy <$> jget child "neverCull") (layer_of child) None))
         | _ => None
         end.

(** One level of [children] under [parentIn], then what is below; [None] is a refusal. *)
Fixpoint pushChildren (fuel : nat) (children : option json) (parentIn : Z) (depth : Z) (batch : list SubtreeNodeDesc) : option (list SubtreeNodeDesc) :=
  match fuel with
  | O => None
  | S fuel =>
      match children with
      | None => Some batch
      | Some children =>
          if MAX_TEMPLATE_DEPTH <? depth then None
          else match children with
               | JArr l =>
                   if MAX_WIRE_ITEMS <? arr_len l then None
                   else if MAX_VISUAL_NODES <? arr_len batch + arr_len l then None
                   else
                     (fix each l batch :=
                        match l with
                        | [] => Some batch
                        | child :: l =>
                            if MAX_VISUAL_NODES <=? arr_len batch then None
                            else match childDesc child parentIn with
                                 | None => None
                                 | Some d =>
                                     let at_ := arr_len batch in
                                     if negb (is_str (jget child "kind") (js "group")) then each l (batch ++ [d])
                                     else match pushChildren fuel (jget child "children") at_ (depth + 1) (batch ++ [d]) with
                                          | None => None
                                          | Some batch => each l batch
                                          end
                                 end
                        end) l batch
               | _ => None
               end
      end
  end.

Definition group_root : SubtreeNodeDesc := MkSub None (MkDesc AGroup None None no_fields None None None).

(** A call for each level, and one that refuses. *)
Definition flattenGroup (children : option json) : option (list SubtreeNodeDesc) := pushChildren (ProjectFormat.MAX_TEMPLATE_DEPTH + 2) children 0 1 [group_root].

(** ** Manifests *)

Inductive TemplateVisual :=
  | SpriteVisual (texture : jstr) (anchorX anchorY tint : option num) (neverCull : option bool)
  | GroupVisual (children : option json).

Inductive WireAssetKind := ATexture | AAtlas | AAudio | AFont | AClip | AEffect.
Record WireAssetRef := MkAsset { a_key : jstr; a_kind : WireAssetKind; a_url : json; a_width : option num; a_height : option num }.
Record RenderManifest := MkManifest { m_assets : list WireAssetRef; m_templates : list (jstr * TemplateVisual) }.

Inductive EntryKind := KImage | KAtlas | KFont.
Record AssetManifestEntry := MkAssetEntry { e_name : jstr; e_kind : EntryKind; e_url : jstr; e_size : option (num * num) }.

Definition REMOTE_ASSET_SCHEMES : list jstr := [js "http:"; js "https:"].

(** ** State *)

Record Sample := MkSample { time : num; sm_x : num; sm_y : num; sm_z : num; sm_rotation : num; sm_scale : num; sm_alpha : num; sm_layer : Z }.
Record Track := MkTrack { from_ : Sample; to_ : Sample; settled_ : bool }.
Record Correction := MkCorrection { co_x : num; co_y : num; co_z : num; remaining : num }.
Definition NO_CORRECTION : Correction := MkCorrection f0 f0 f0 f0.

Record Bridge := MkBridge {
  renderer : Stage;
  nodeFor : jsmap EntityId Z;
  entityFor : jsmap Z EntityId;
  templates : jsmap jstr TemplateVisual;
  declared : jsset jstr;
  subtreeFor : jsmap jstr (list SubtreeNodeDesc);
  parentOf_ : jsmap EntityId EntityId;
  childrenOf_ : jsmap EntityId (jsset EntityId);
  corrections : jsmap EntityId Correction;
  tracks : jsmap EntityId Track;
  predicted : jsset EntityId;
  delay : num;
  renderTime : num;
  lastNow : option num;
}.

Definition with_renderer r b := MkBridge r (nodeFor b) (entityFor b) (templates b) (declared b) (subtreeFor b) (parentOf_ b) (childrenOf_ b) (corrections b) (tracks b) (predicted b) (delay b) (renderTime b) (lastNow b).
Definition with_maps n e b := MkBridge (renderer b) n e (templates b) (declared b) (subtreeFor b) (parentOf_ b) (childrenOf_ b) (corrections b) (tracks b) (predicted b) (delay b) (renderTime b) (lastNow b).
Definition with_tree p c b := MkBridge (renderer b) (nodeFor b) (entityFor b) (templates b) (declared b) (subtreeFor b) p c (corrections b) (tracks b) (predicted b) (delay b) (renderTime b) (lastNow b).
Definition with_corrections c b := MkBridge (renderer b) (nodeFor b) (entityFor b) (templates b) (declared b) (subtreeFor b) (parentOf_ b) (childrenOf_ b) c (tracks b) (predicted b) (delay b) (renderTime b) (lastNow b).
Definition with_tracks t b := MkBridge (renderer b) (nodeFor b) (entityFor b) (templates b) (declared b) (subtreeFor b) (parentOf_ b) (childrenOf_ b) (corrections b) t (predicted b) (delay b) (renderTime b) (lastNow b).
Definition with_times r l b := MkBridge (renderer b) (nodeFor b) (entityFor b) (templates b) (declared b) (subtreeFor b) (parentOf_ b) (childrenOf_ b) (corrections b) (tracks b) (predicted b) (delay b) r l.
Definition with_visuals t s d b := MkBridge (renderer b) (nodeFor b) (entityFor b) t d s (parentOf_ b) (childrenOf_ b) (corrections b) (tracks b) (predicted b) (delay b) (renderTime b) (lastNow b).
Definition setPredicted (scope : jsset EntityId) b := MkBridge (renderer b) (nodeFor b) (entityFor b) (templates b) (declared b) (subtreeFor b) (parentOf_ b) (childrenOf_ b) (corrections b) (tracks b) scope (delay b) (renderTime b) (lastNow b).

Definition new_bridge (st : Stage) (sendRate : num) : Bridge :=
  MkBridge st [] [] [] [] [] [] [] [] [] []
    (if flt f0 sendRate then fmin (fdiv f1 sendRate) MAX_INTERPOLATION_DELAY_SECONDS else MAX_INTERPOLATION_DELAY_SECONDS) f0 None.

(** What a method leaves, thrown or not. *)
Definition bact (A : Type) : Type := outcome renderer_error A * Bridge.

Fixpoint each {A} (f : A -> Bridge -> bact unit) (l : list A) (b : Bridge) : bact unit :=
  match l with
  | [] => (Ok tt, b)
  | x :: l => match f x b with (Ok _, b) => each f l b | (Throw e, b) => (Throw e, b) end
  end.

(** ** Loading *)

Section Loading.
(** The protocol of a URL resolved against the page, when it parses. *)
Context (protocol : jstr -> option jstr).

Definition isAllowedAssetUrl (url : jstr) (allowed : list jstr) : bool := match protocol url with Some p => bool_decide (p ∈ allowed) | None => false end.

Definition toManifestEntry (ref : WireAssetRef) : list AssetManifestEntry :=
  match a_url ref with
  | JStr (c :: u) =>
      let url := c :: u in
      if negb (isAllowedAssetUrl url REMOTE_ASSET_SCHEMES) then []
      else match a_kind ref with
           | ATexture => [MkAssetEntry (a_key ref) KImage url (match a_width ref, a_height ref with Some w, Some h => Some (w, h) | _, _ => None end)]
           | AAtlas => [MkAssetEntry (a_key ref) KAtlas url None]
           | AFont => [MkAssetEntry (a_key ref) KFont url None]
           | _ => []
           end
  | _ => []
  end.

Definition load_template (b : Bridge) (t : jstr * TemplateVisual) : Bridge :=
  match t.2 with
  | GroupVisual (Some children) =>
      match flattenGroup (Some children) with
      | None => b
      | Some batch => with_visuals (mset (templates b) t.1 t.2) (mset (subtreeFor b) t.1 batch) (declared b) b
      end
  | _ => with_visuals (mset (templates b) t.1 t.2) (subtreeFor b) (declared b) b
  end.

Definition declare_one (s : Bridge * list AssetManifestEntry) (e : AssetManifestEntry) : Bridge * list AssetManifestEntry :=
  if shas (declared s.1) (e_name e) then s
  else (with_visuals (templates s.1) (subtreeFor s.1) (sadd (declared s.1) (e_name e)) s.1, s.2 ++ [e]).

(** Up to the first [await]: what is asked of the renderer's loader. *)
Definition loadManifest (m : RenderManifest) (b : Bridge) : Bridge * list AssetManifestEntry :=
  foldl declare_one (foldl load_template b (m_templates m), []) (m_assets m ≫= toManifestEntry).
End Loading.

(** Past it: the names the loader failed. *)
Definition manifestLoaded (failed : list jstr) (b : Bridge) : Bridge := with_visuals (templates b) (subtreeFor b) (foldl sdel (declared b) failed) b.

(** ** Poses *)

Definition progress (from to at_ : num) : num :=
  let span := fsub to from in
  if negb (flt f0 span) then f1 else Session.clamp (fdiv (fsub at_ from) span) f0 f1.

Definition lerpDegrees (from to alpha : num) : num :=
  let delta := fsub (frem (fadd (frem (fsub to from) (of_Z 360)) (of_Z 540)) (of_Z 360)) (of_Z 180) in
  fadd from (fmul delta alpha).

Definition trackPosition (from to : Sample) (alpha : num) : num * num * num :=
  (lerp (sm_x from) (sm_x to) alpha, lerp (sm_y from) (sm_y to) alpha, lerp (sm_z from) (sm_z to) alpha).

Definition sampleOf (rt : Runtime) (local : EntityId) (t : num) : Sample :=
  let s := World.transforms rt in
  MkSample t (TransformStore.posX s local) (TransformStore.posY s local) (TransformStore.posZ s local) (TransformStore.rotation s local)
    (TransformStore.scale s local) (TransformStore.opacity s local) (TransformStore.layer s local).

Definition at_time t s := MkSample t (sm_x s) (sm_y s) (sm_z s) (sm_rotation s) (sm_scale s) (sm_alpha s) (sm_layer s).

Definition correctionOf (b : Bridge) (local : EntityId) : Correction := nullish (mget (corrections b) local) NO_CORRECTION.

Definition simulatedPosition (rt : Runtime) (b : Bridge) (local : EntityId) : num * num * num :=
  let s := World.transforms rt in let o := correctionOf b local in
  (fadd (TransformStore.posX s local) (co_x o), fadd (TransformStore.posY s local) (co_y o), fadd (TransformStore.posZ s local) (co_z o)).

Definition trackFor (b : Bridge) (local : EntityId) : option Track := if shas (predicted b) local then None else mget (tracks b) local.

Definition drawnPosition (rt : Runtime) (b : Bridge) (local : EntityId) : num * num * num :=
  match trackFor b local with
  | None => simulatedPosition rt b local
  | Some t => trackPosition (from_ t) (to_ t) (progress (time (from_ t)) (time (to_ t)) (renderTime b))
  end.

Definition fields_of (pos : num * num * num) (rotation scale alpha : num) : Fields :=
  let '(x, y, z) := pos in MkFields (Some (x, y, Some z)) (Some rotation) (Some (scale, scale, Some f1)) None (Some alpha) None None.

(** The transform as the renderer's fields, and the layer. *)
Definition fillTransform (rt : Runtime) (b : Bridge) (local : EntityId) : Fields * num :=
  match trackFor b local with
  | Some t =>
      let alpha := progress (time (from_ t)) (time (to_ t)) (renderTime b) in
      (fields_of (trackPosition (from_ t) (to_ t) alpha) (lerpDegrees (sm_rotation (from_ t)) (sm_rotation (to_ t)) alpha)
         (lerp (sm_scale (from_ t)) (sm_scale (to_ t)) alpha) (lerp (sm_alpha (from_ t)) (sm_alpha (to_ t)) alpha),
       of_Z (sm_layer (to_ t)))
  | None =>
      let s := World.transforms rt in
      (fields_of (simulatedPosition rt b local) (TransformStore.rotation s local) (TransformStore.scale s local) (TransformStore.opacity s local),
       of_Z (TransformStore.layer s local))
  end.

(** ** Nodes *)

Definition descFor (b : Bridge) (template : jstr) : NodeDesc :=
  let blank k := MkDesc k None None no_fields None None None in
  match mget (templates b) template with
  | None => blank (ASprite (match template with [] => PLACEHOLDER_TEXTURE | _ => template end))
  | Some (GroupVisual _) => blank AGroup
  | Some (SpriteVisual texture ax ay tint neverCull) =>
      let anchor := match ax, ay with None, None => None | _, _ => Some (nullish ax half, nullish ay half) end in
      MkDesc (ASprite texture) None None (MkFields None None None anchor None None tint) neverCull None None
  end.

(** [{...desc, ...transform}]. *)
Definition placed (d : NodeDesc) (t : Fields * num) : NodeDesc :=
  let f := d_fields d in let u := t.1 in
  MkDesc (d_kind d) (d_surface d) (d_parent d) (MkFields (f_position u) (f_rotation u) (f_scale u) (f_anchor f) (f_alpha u) (f_visible f) (f_tint f)) (d_neverCull d) (Some t.2) (d_uiAnchor d).

(** The node an entity maps to, and the renderer. *)
Definition rootNode (b : Bridge) (template : jstr) (t : Fields * num) : act Z :=
  match mget (subtreeFor b) template with
  | None => createNode (placed (descFor b template) t) (renderer b)
  | Some batch =>
      let batch := match batch with [] => [] | r :: rest => MkSub (parentInBatch r) (placed (desc r) t) :: rest end in
      match createSubtree batch (renderer b) with
      | (Ok ids, st) => (Ok (nullish (head ids) NO_NODE), st)
      | (Throw e, st) => (Throw e, st)
      end
  end.

(** A call of the renderer that may throw. *)
Definition render (f : Stage -> act unit) (b : Bridge) : bact unit :=
  let '(r, st) := f (renderer b) in (r, with_renderer st b).

Definition attach (local parent : EntityId) (b : Bridge) : bact unit :=
  match mget (nodeFor b) local, mget (nodeFor b) parent with
  | Some node, Some parentNode =>
      match render (attachNode node parentNode None) b with
      | (Throw e, b) => (Throw e, b)
      | (Ok _, b) =>
          let c := nullish (mget (childrenOf_ b) parent) [] in
          (Ok tt, with_tree (mset (parentOf_ b) local parent) (mset (childrenOf_ b) parent (sadd c local)) b)
      end
  | _, _ => (Ok tt, b)
  end.

Definition create_ (rt : Runtime) (local : EntityId) (b : Bridge) : bact unit :=
  if mhas (nodeFor b) local then (Ok tt, b)
  else
    let template := match EntityTable.record (entities rt) local with Some r => EntityTable.template r | None => [] end in
    match rootNode b template (fillTransform rt b local) with
    | (Throw e, st) => (Throw e, with_renderer st b)
    | (Ok node, st) =>
        let b := with_maps (mset (nodeFor b) local node) (mset (entityFor b) node local) (with_renderer st b) in
        match EntityTable.record (entities rt) local with
        | Some r => if EntityTable.parent r =? NONE then (Ok tt, b) else attach local (EntityTable.parent r) b
        | None => (Ok tt, b)
        end
    end.

Definition unlink_ (local : EntityId) (b : Bridge) : Bridge :=
  match mget (parentOf_ b) local with
  | None => b
  | Some parent =>
      let p := mdel (parentOf_ b) local in
      match mget (childrenOf_ b) parent with
      | None => with_tree p (childrenOf_ b) b
      | Some siblings =>
          let siblings := sdel siblings local in
          with_tree p (match siblings with [] => mdel (childrenOf_ b) parent | _ => mset (childrenOf_ b) parent siblings end) b
      end
  end.

Definition reparent (r : MirrorReparent) (b : Bridge) : bact unit :=
  let local := r_local r in
  match mget (nodeFor b) local with
  | None => (Ok tt, b)
  | Some node =>
      let b := unlink_ local b in
      match r_parent r with
      | None => (Ok tt, with_renderer (detachNode node None (renderer b)) b)
      | Some parent => attach local parent b
      end
  end.

(** The loop that fills [#doomed]. *)
Fixpoint doom (fuel : nat) (b : Bridge) (i : nat) (out : list EntityId) : list EntityId :=
  match fuel with
  | O => out
  | S fuel =>
      match out !! i with
      | None => out
      | Some e => doom fuel b (S i) (out ++ nullish (mget (childrenOf_ b) e) [])
      end
  end.

Definition forget_one (b : Bridge) (id : EntityId) : Bridge :=
  let e := match mget (nodeFor b) id with Some n => mdel (entityFor b) n | None => entityFor b end in
  with_tracks (mdel (tracks b) id) (with_corrections (mdel (corrections b) id)
    (with_tree (mdel (parentOf_ b) id) (mdel (childrenOf_ b) id) (with_maps (mdel (nodeFor b) id) e b))).

Definition destroy_ (local : EntityId) (b : Bridge) : bact unit :=
  match mget (nodeFor b) local with
  | None => (Ok tt, b)
  | Some node =>
      let doomed := doom (S (msize (nodeFor b))) b 0 [local] in
      let b := foldl forget_one (unlink_ local b) doomed in
      (Ok tt, with_renderer (destroyNode node (renderer b)) b)
  end.

Definition reconcile (rt : Runtime) (delta : MirrorDelta) (b : Bridge) : bact unit :=
  match each (create_ rt) (added delta) b with
  | (Throw e, b) => (Throw e, b)
  | (Ok _, b) =>
      match each reparent (reparented delta) b with
      | (Throw e, b) => (Throw e, b)
      | (Ok _, b) => each destroy_ (removed delta) b
      end
  end.

(** ** Frames *)

Definition correct (local : EntityId) (x y z : num) (b : Bridge) : Bridge :=
  with_corrections (mset (corrections b) local (MkCorrection x y z CORRECTION_SMOOTH_SECONDS)) b.
Definition clearCorrection (local : EntityId) (b : Bridge) : Bridge := with_corrections (mdel (corrections b) local) b.

Definition decay_one (dt : num) (e : EntityId * Correction) : option (EntityId * Correction) :=
  let c := e.2 in
  let next := fsub (remaining c) dt in
  if fle next f0 then None
  else
    let scale := fdiv next (remaining c) in
    Some (e.1, MkCorrection (fmul (co_x c) scale) (fmul (co_y c) scale) (fmul (co_z c) scale) next).

Definition decay (now : num) (b : Bridge) : Bridge :=
  if negb (isFinite now) then b
  else
    let b' := with_times (renderTime b) (Some now) b in
    match lastNow b, corrections b with
    | None, _ | _, [] => b'
    | Some last, cs =>
        let dt := Session.clamp (fsub now last) f0 MAX_FRAME_DT in
        if feq dt f0 then b' else with_corrections (omap (decay_one dt) cs) b'
    end.

Definition sample (rt : Runtime) (now : num) (local : EntityId) (b : Bridge) : Bridge :=
  let here := sampleOf rt local now in
  match mget (tracks b) local with
  | None => with_tracks (mset (tracks b) local (MkTrack here here true)) b
  | Some t =>
      let from := at_time (fmax (time (to_ t)) (renderTime b)) (to_ t) in
      with_tracks (mset (tracks b) local (MkTrack from here false)) b
  end.

Definition take_dirty (rt : Runtime) (now : num) (s : jsset EntityId * Bridge) (i : Z) : jsset EntityId * Bridge :=
  let local := EntityTable.idAt (entities rt) i in
  if local =? NONE then s
  else (sadd s.1 local, if shas (predicted s.2) local then s.2 else sample rt now local s.2).

(** A track whose far end is reached settles, and is drawn once more. *)
Definition settle_one (now : num) (e : EntityId * Track) : EntityId * Track :=
  let t := e.2 in if settled_ t then e else (e.1, MkTrack (from_ t) (to_ t) (fle (time (to_ t)) now)).

Definition patch_of (rt : Runtime) (b : Bridge) (local : EntityId) : option NodePatch :=
  match mget (nodeFor b) local with
  | None => None
  | Some node => let t := fillTransform rt b local in Some (MkPatch node None t.1 (Some t.2) None None)
  end.

Definition pushTransforms (nowSeconds : num) (rt : Runtime) (b : Bridge) : bact unit * Runtime :=
  let b := decay nowSeconds b in
  let now := nullish (lastNow b) f0 in
  let b := with_times (fsub now (delay b)) (lastNow b) b in
  let '(dirty, s) := TransformStore.consumeDirty (World.transforms rt) in
  let rt := set_transforms rt s in
  let '(moved, b) := foldl (take_dirty rt now) ([], b) dirty in
  let moved := foldl sadd moved (mkeys (corrections b)) in
  let unsettled := filter (fun e => settled_ e.2 = false) (tracks b) in
  let moved := foldl sadd moved (mkeys unsettled) in
  let b := with_tracks (settle_one (renderTime b) <$> tracks b) b in
  let patches := omap (patch_of rt b) moved in
  match patches with
  | [] => ((Ok tt, b), rt)
  | _ => (render (updateNodes patches) b, rt)
  end.

(** ** Teardown *)

Definition clear_ (b : Bridge) : Bridge :=
  let st := foldl (fun st node => destroyNode node st) (renderer b) (mvals (nodeFor b)) in
  with_tracks [] (with_corrections [] (with_tree [] [] (with_maps [] [] (with_renderer st b)))).

(** ** The bridge's tree is the renderer's *)

Definition kids (b : Bridge) (p : EntityId) : list EntityId := nullish (mget (childrenOf_ b) p) [].

(** The node an entity should hang under. *)
Definition under_node (b : Bridge) (e : EntityId) : Z :=
  match mget (parentOf_ b) e with Some p => nullish (mget (nodeFor b) p) NO_NODE | None => NO_NODE end.

(** A flattened group: its root, then nodes under earlier ones. *)
Definition group_batch (batch : list SubtreeNodeDesc) : Prop := exists rest, batch = group_root :: rest /\ forall d, d ∈ rest -> is_Some (parentInBatch d).

(** Every entity has one node, where the bridge thinks it is, and no other tree is left in
    the renderer. [loose] names an entity whose link is being changed. *)
Record drawn (loose : option EntityId) (b : Bridge) : Prop := {
  dr_ready : ready (renderer b);
  dr_maps e n : mget (nodeFor b) e = Some n <-> mget (entityFor b) n = Some e;
  dr_node e n : mget (nodeFor b) e = Some n -> exists sf p, tree_of (renderer b) !! n = Some (sf, p) /\ (loose <> Some e -> p = under_node b e);
  dr_loose e : loose = Some e -> mget (parentOf_ b) e = None;
  dr_parent e p : mget (parentOf_ b) e = Some p -> is_Some (mget (nodeFor b) e) /\ is_Some (mget (nodeFor b) p);
  dr_kids e p : mget (parentOf_ b) e = Some p <-> e ∈ kids b p;
  dr_nodup p : NoDup (kids b p);
  dr_roots n sf : tree_of (renderer b) !! n = Some (sf, NO_NODE) -> is_Some (mget (entityFor b) n);
  dr_groups t batch : mget (subtreeFor b) t = Some batch -> group_batch batch;
}.

Lemma drawn_same l b b' : drawn l b -> renderer b' = renderer b -> nodeFor b' = nodeFor b -> entityFor b' = entityFor b -> parentOf_ b' = parentOf_ b ->
  childrenOf_ b' = childrenOf_ b -> subtreeFor b' = subtreeFor b -> drawn l b'.
Proof.
  intros [H1 H2 H3 H4 H5 H6 H7 H8 H9] E1 E2 E3 E4 E5 E6. unfold kids, under_node in *. split; unfold kids, under_node; rewrite ?E1, ?E2, ?E3, ?E4, ?E5, ?E6; done.
Qed.

Lemma drawn_render l b st : drawn l b -> ready st -> tree_of st = tree_of (renderer b) -> drawn l (with_renderer st b).
Proof. intros [H1 H2 H3 H4 H5 H6 H7 H8 H9] Hr Ht. split; unfold kids, under_node in *; cbn; rewrite ?Ht; done. Qed.

Lemma drawn_loosen b e : drawn None b -> mget (parentOf_ b) e = None -> drawn (Some e) b.
Proof.
  intros [H1 H2 H3 H4 H5 H6 H7 H8 H9] Hp. split; try done.
  - intros x n Hx. destruct (H3 x n Hx) as (sf & p & Ht & Hu). exists sf, p. split; [done|]. intros _. by apply Hu.
  - by intros x [= <-].
Qed.

Lemma node_inj l b e f n : drawn l b -> mget (nodeFor b) e = Some n -> mget (nodeFor b) f = Some n -> e = f.
Proof. intros Hd He Hf. apply (dr_maps _ _ Hd) in He, Hf. congruence. Qed.

Lemma node_not_none l b e n : drawn l b -> mget (nodeFor b) e = Some n -> n <> NO_NODE.
Proof.
  intros Hd He ->. destruct (dr_node _ _ Hd e _ He) as (sf & p & Ht & _). by rewrite (tk_none _ (ready_tree _ (dr_ready _ _ Hd))) in Ht.
Qed.

(** *** Links *)

Lemma unlink_maps e b : nodeFor (unlink_ e b) = nodeFor b /\ entityFor (unlink_ e b) = entityFor b /\ renderer (unlink_ e b) = renderer b /\ subtreeFor (unlink_ e b) = subtreeFor b
  /\ (forall x, mget (parentOf_ (unlink_ e b)) x = if decide (x = e) then None else mget (parentOf_ b) x).
Proof.
  unfold unlink_. destruct (mget (parentOf_ b) e) as [p|] eqn:E.
  - split_and!; try (by destruct (mget (childrenOf_ b) p)). intros x. assert (H : mget (mdel (parentOf_ b) e) x = if decide (x = e) then None else mget (parentOf_ b) x).
    { rewrite mget_mdel. by destruct (decide (e = x)), (decide (x = e)); subst. } by destruct (mget (childrenOf_ b) p).
  - split_and!; try done. intros x. by destruct (decide (x = e)) as [->|].
Qed.

Lemma unlink_kids l e b p : drawn l b -> kids (unlink_ e b) p = sdel (kids b p) e.
Proof.
  intros Hd. unfold unlink_. destruct (mget (parentOf_ b) e) as [q|] eqn:E.
  2:{ symmetry. apply sdel_not_in. rewrite <- (dr_kids _ _ Hd), E. done. }
  destruct (mget (childrenOf_ b) q) as [c|] eqn:Ec; unfold kids; cbn.
  - destruct (decide (q = p)) as [->|Hne].
    + rewrite Ec. change (nullish (Some c) []) with c. destruct (sdel c e) as [|x r]; [by rewrite mget_mdel_eq|by rewrite mget_mset_eq].
    + assert (H : sdel (nullish (mget (childrenOf_ b) p) []) e = nullish (mget (childrenOf_ b) p) []).
      { apply sdel_not_in. change (e ∉ kids b p). rewrite <- (dr_kids _ _ Hd), E. congruence. }
      rewrite H. destruct (sdel c e) as [|x r]; [by rewrite mget_mdel_ne|by rewrite mget_mset_ne].
  - symmetry. apply sdel_not_in. change (e ∉ kids b p). rewrite <- (dr_kids _ _ Hd), E. intros [= <-]. apply (dr_kids _ _ Hd) in E. unfold kids in E. rewrite Ec in E. by apply not_elem_of_nil in E.
Qed.

Lemma unlink_drawn e b : drawn None b -> drawn (Some e) (unlink_ e b).
Proof.
  intros Hd. destruct (unlink_maps e b) as (M1 & M2 & M3 & M4 & M5). pose proof Hd as [H1 H2 H3 H4 H5 H6 H7 H8 H9]. split; rewrite ?M1, ?M2, ?M3, ?M4; try done.
  - intros x n Hx. destruct (H3 x n Hx) as (sf & p & Ht & Hu). exists sf, p. split; [done|]. intros Hne. rewrite Hu by done. unfold under_node. rewrite M5, M1, decide_False by congruence. done.
  - intros x [= <-]. by rewrite M5, decide_True.
  - intros x p. rewrite M5. destruct (decide (x = e)); [done|]. apply H5.
  - intros x p. rewrite M5, (unlink_kids None e b p Hd), elem_of_sdel, <- H6. destruct (decide (x = e)); naive_solver.
  - intros p. rewrite (unlink_kids None e b p Hd). by apply NoDup_sdel.
Qed.

Lemma under_node_ext b b' e : mget (parentOf_ b') e = mget (parentOf_ b) e -> (forall p, mget (parentOf_ b) e = Some p -> mget (nodeFor b') p = mget (nodeFor b) p) -> under_node b' e = under_node b e.
Proof. intros H1 H2. unfold under_node. rewrite H1. destruct (mget (parentOf_ b) e) as [p|]; [|done]. by rewrite H2. Qed.

Lemma detach_drawn e n keep b : drawn (Some e) b -> mget (nodeFor b) e = Some n -> drawn None (with_renderer (detachNode n keep (renderer b)) b).
Proof.
  intros Hd He. pose proof Hd as [H1 H2 H3 H4 H5 H6 H7 H8 H9]. destruct (detachNode_tree n keep _ H1) as (R1 & _ & R3). destruct (H3 e n He) as (sf & p & Ht & _). unfold freed in R3. rewrite Ht in R3.
  split; cbn; try done.
  - intros x nx Hx. rewrite R3. destruct (decide (x = e)) as [->|Hne].
    + assert (nx = n) as -> by congruence. exists sf, NO_NODE. rewrite lookup_insert_eq. split; [done|]. intros _. unfold under_node. cbn. by rewrite (H4 e eq_refl).
    + rewrite lookup_insert_ne by (intros ->; apply Hne; by apply (node_inj _ b x e nx Hd)). destruct (H3 x nx Hx) as (sx & px & Hxt & Hu). exists sx, px. split; [done|]. intros _. apply Hu. congruence.
  - intros m sm. rewrite R3. intros Hm. apply lookup_insert_Some in Hm as [[<- _]|[_ Hm]]; [|by apply (H8 m sm)]. exists e. by apply H2.
Qed.

(** A drawn entity, under no parent of the bridge's, attached. *)
Lemma attach_drawn e q b : drawn (Some e) b -> is_Some (mget (nodeFor b) e) -> is_Some (mget (nodeFor b) q) ->
  match attach e q b with (Ok _, b') => drawn None b' | (Throw _, b') => forall l, drawn l b -> drawn l b' end.
Proof.
  intros Hd [n He] [nq Hq]. pose proof Hd as [H1 H2 H3 H4 H5 H6 H7 H8 H9]. unfold attach. rewrite He, Hq. unfold render.
  destruct (attachNode_tree n nq None _ H1) as (R1 & _ & R3). destruct (attachNode n nq None (renderer b)) as [[u|err] st']; cbn [fst snd thrown] in *.
  2:{ intros l Hl. apply drawn_render; [done|done|]. by inversion R3. }
  destruct (H3 e n He) as (sf & p & Ht & _). destruct (H3 q nq Hq) as (sq & pq & Htq & _). inversion R3 as [[Hx|Hx]| | |sf' p' q' Hn Hnq Hno]; [congruence|congruence|]. subst.
  assert (sf' = sf) as -> by congruence. assert (Hqn : nq <> NO_NODE) by by apply (node_not_none _ b q nq Hd). assert (Hnn : n <> nq) by (intros ->; apply Hno, rtc_refl). assert (Heq : e <> q) by congruence.
  set (b' := with_tree _ _ _). assert (Hpar : forall x, mget (parentOf_ b') x = if decide (x = e) then Some q else mget (parentOf_ b) x).
  { intros x. cbn. rewrite mget_mset. by destruct (decide (e = x)), (decide (x = e)); subst. }
  assert (Hkids : forall x, kids b' x = if decide (x = q) then sadd (kids b q) e else kids b x).
  { intros x. unfold kids. cbn. rewrite mget_mset. by destruct (decide (q = x)), (decide (x = q)); subst. }
  assert (Hfresh : e ∉ kids b q) by (rewrite <- H6, (H4 e eq_refl); done). split; cbn; try done.
  - intros x nx Hx. rewrite <- H. destruct (decide (x = e)) as [->|Hne].
    + assert (nx = n) as -> by congruence. exists sf, nq. rewrite lookup_insert_eq. split; [done|]. intros _. unfold under_node. rewrite Hpar, decide_True by done. cbn. by rewrite Hq.
    + rewrite lookup_insert_ne by (intros ->; apply Hne; by apply (node_inj _ b x e nx Hd)). destruct (H3 x nx Hx) as (sx & px & Hxt & Hu). exists sx, px. split; [done|]. intros _. rewrite Hu by congruence.
      symmetry. apply under_node_ext; [by rewrite Hpar, decide_False|done].
  - intros x y Hxy. change (mget (parentOf_ b') x = Some y) in Hxy. rewrite Hpar in Hxy. destruct (decide (x = e)) as [->|]; [injection Hxy as <-; eauto|by apply H5].
  - intros x y. change (mget (parentOf_ b') x = Some y <-> x ∈ kids b' y). rewrite Hpar, Hkids. destruct (decide (x = e)) as [->|Hne], (decide (y = q)) as [->|Hyq]; rewrite ?elem_of_sadd, <- ?H6, ?(H4 e eq_refl); naive_solver.
  - intros y. change (NoDup (kids b' y)). rewrite Hkids. destruct (decide (y = q)); [by apply NoDup_sadd|done].
  - intros m sm. rewrite <- H. intros Hm. apply lookup_insert_Some in Hm as [[<- Hm]|[_ Hm]]; [congruence|by apply (H8 m sm)].
Qed.

(** A reparent onto a drawn entity, or onto none, that the renderer takes. *)
Definition reparent_lands (r : MirrorReparent) (b : Bridge) : bool :=
  match mget (nodeFor b) (r_local r), r_parent r with
  | Some _, Some p => mhas (nodeFor b) p && match (reparent r b).1 with Ok _ => true | Throw _ => false end
  | _, _ => true
  end.

Lemma reparent_drawn r b : drawn None b -> reparent_lands r b = true -> exists b', reparent r b = (Ok tt, b') /\ drawn None b'.
Proof.
  intros Hd. unfold reparent_lands, reparent. destruct (mget (nodeFor b) (r_local r)) as [n|] eqn:E; [|by exists b]. pose proof (unlink_drawn (r_local r) b Hd) as Hu.
  destruct (unlink_maps (r_local r) b) as (M1 & _). destruct (r_parent r) as [p|].
  - intros [Hp Hok]%andb_true_iff. apply mhas_spec, mget_is_Some in Hp. pose proof (attach_drawn (r_local r) p _ Hu) as Ha. rewrite M1 in Ha. specialize (Ha (ex_intro _ n E) Hp).
    destruct (attach (r_local r) p (unlink_ (r_local r) b)) as [[[]|e] b']; [by exists b'|done].
  - intros _. eexists. split; [done|]. apply (detach_drawn (r_local r)); [done|]. by rewrite M1.
Qed.

(** *** Creating *)

(** One new tree, at [n]. *)
Record sprouted (t : Tree) (n : Z) (t' : Tree) : Prop := {
  sp_new : t !! n = None;
  sp_some : n <> NO_NODE;
  sp_root : exists sf, t' !! n = Some (sf, NO_NODE);
  sp_kept x e : t !! x = Some e -> t' !! x = Some e;
  sp_roots x sf : t' !! x = Some (sf, NO_NODE) -> x = n \/ t !! x = Some (sf, NO_NODE);
}.

Lemma hung_sprouted enabled d t n t' : d_parent d = None -> hung enabled d t n t' -> sprouted t n t'.
Proof.
  intros Hp (_ & Hn & Hnew & ->). unfold parent_in. rewrite Hp. split; try done.
  - exists (nullish (d_surface d) world). by rewrite lookup_insert_eq.
  - intros x e Hx. rewrite lookup_insert_ne by congruence. done.
  - intros x sf Hx. apply lookup_insert_Some in Hx as [[<- _]|[_ ?]]; [by left|by right].
Qed.

Lemma in_batch_parent t d made nd : (forall x, x ∈ made -> is_Some (t !! x)) -> is_Some (parentInBatch d) -> in_batch t d made = Some nd -> exists q, d_parent nd = Some q /\ is_Some (t !! q).
Proof.
  intros Hm [p Hp]. unfold in_batch. rewrite Hp. destruct (_ || _) eqn:E; [done|]. bool_facts. intros [= <-]. cbn. destruct (arr_get_is_Some made p) as [q Hq]; [unfold arr_len in *; lia|]. rewrite Hq. exists q. split; [done|].
  apply Hm. apply arr_get_lookup in Hq as [_ Hq]. by apply list_elem_of_lookup_2 in Hq.
Qed.

(** The rest of a batch adds nothing at the top. *)
Lemma batch_below enabled ds made t made' t' n t0 : grows_batch enabled ds made t made' t' -> (forall d, d ∈ ds -> is_Some (parentInBatch d)) -> (forall x, x ∈ made -> is_Some (t !! x)) ->
  t !! NO_NODE = None -> sprouted t0 n t -> sprouted t0 n t' /\ exists rest, made' = made ++ rest.
Proof.
  intros Hb. induction Hb as [made t|d ds made t nd id t1 made' t' Hin (Hr & Hn & Hnew & ->) Hb IH]; intros Hds Hm Hnone Hs; [split; [done|]; exists []; by rewrite app_nil_r|].
  destruct (in_batch_parent t d made nd Hm) as (q & Hq & Hqt); [apply Hds; left|done|]. unfold parent_in in *. rewrite Hq in *. rewrite decide_True in * by done.
  destruct IH as [IH [rest Hrest]].
  - intros d' Hd'. apply Hds. by right.
  - intros x [Hx|Hx%list_elem_of_singleton]%elem_of_app; rewrite lookup_insert_is_Some'; [right; by apply Hm|by left].
  - rewrite lookup_insert_ne by done. done.
  - destruct Hs as [S1 S2 [sf S3] S4 S5]. split; try done.
    + exists sf. rewrite lookup_insert_ne by congruence. done.
    + intros x e Hx. apply S4 in Hx. rewrite lookup_insert_ne by congruence. done.
    + intros x sx Hx. apply lookup_insert_Some in Hx as [[_ [= _ ->]]|[_ Hx]]; [rewrite Hnone in Hqt; by destruct Hqt|by apply (S5 x sx)].
  - split; [done|]. exists (id :: rest). rewrite Hrest, <- app_assoc. done.
Qed.

Lemma rootNode_tree l b template tr : drawn l b ->
  match rootNode b template tr with
  | (Ok n, st') => ready st' /\ sprouted (tree_of (renderer b)) n (tree_of st')
  | (Throw _, st') => ready st' /\ tree_of st' = tree_of (renderer b)
  end.
Proof.
  intros Hd. pose proof (dr_ready _ _ Hd) as Hr. unfold rootNode. destruct (mget (subtreeFor b) template) as [batch|] eqn:E.
  - destruct (dr_groups _ _ Hd _ _ E) as (rest & -> & Hrest). set (r := MkSub _ _). destruct (createSubtree_tree (r :: rest) _ Hr) as (R1 & _ & R3).
    destruct (createSubtree (r :: rest) (renderer b)) as [[made|e] st']; cbn [fst snd] in *; [|split; [done|apply R3]]. split; [done|].
    inversion R3 as [|d ds made0 t nd id t1 made' t' Hin Hh Hb]; subst. cbn in Hin. injection Hin as <-. pose proof (hung_sprouted _ _ _ _ _ (eq_refl : d_parent (desc r) = None) Hh) as Hs.
    destruct Hh as (Hh1 & Hh2 & Hh3 & Ht1). pose proof (tk_none _ (ready_tree _ Hr)) as Hnone.
    destruct (batch_below _ _ _ _ _ _ id (tree_of (renderer b)) Hb Hrest) as [H [more ->]]; [|rewrite Ht1; by rewrite lookup_insert_ne|done|done].
    intros x Hx. cbn in Hx. apply list_elem_of_singleton in Hx as ->. rewrite Ht1, lookup_insert_eq. done.
  - pose proof (createNode_tree (placed (descFor b template) tr) _ Hr) as H. cbv zeta in H. destruct (createNode _ _) as [[n|e] st'].
    + destruct H as (R1 & _ & Hh). split; [done|]. apply (hung_sprouted _ _ _ _ _) in Hh; [done|]. cbn. unfold descFor. destruct (mget (templates b) template) as [[]|]; done.
    + by destruct H as [-> _].
Qed.

Lemma create_drawn rt e b : drawn None b -> drawn None (create_ rt e b).2.
Proof.
  intros Hd. unfold create_. destruct (mhas (nodeFor b) e) eqn:Eh; [done|]. set (tr := fillTransform rt b e). set (tp := match EntityTable.record (entities rt) e with Some _ => _ | None => _ end).
  pose proof (rootNode_tree None b tp tr Hd) as H. destruct (rootNode b tp tr) as [[n|err] st']; [|destruct H; by apply drawn_render].
  destruct H as [Hr [S1 S2 [sf S3] S4 S5]]. set (b1 := with_maps _ _ _). pose proof Hd as [H1 H2 H3 H4 H5 H6 H7 H8 H9].
  assert (Hnone : mget (nodeFor b) e = None) by (apply eq_None_not_Some; rewrite mget_is_Some, <- mhas_spec, Eh; done).
  assert (Hpar : mget (parentOf_ b) e = None) by (apply eq_None_not_Some; intros [p Hp]; apply H5 in Hp as [[? Hp] _]; congruence).
  assert (Hfree : mget (entityFor b) n = None). { apply eq_None_not_Some. intros [x Hx]. apply H2 in Hx. destruct (H3 x n Hx) as (sx & px & Hxt & _). congruence. }
  assert (Hd1 : drawn None b1).
  { split; cbn; try done.
    - intros x m. rewrite !mget_mset. destruct (decide (e = x)) as [<-|Hx], (decide (n = m)) as [<-|Hm]; [done| | |by apply H2].
      + split; [congruence|]. rewrite <- H2, Hnone. done.
      + split; [rewrite H2, Hfree; done|congruence].
    - intros x m. rewrite mget_mset. destruct (decide (e = x)) as [<-|Hx].
      + intros [= <-]. exists sf, NO_NODE. split; [done|]. intros _. unfold under_node. cbn. by rewrite Hpar.
      + intros Hxm. destruct (H3 x m Hxm) as (sx & px & Hxt & Hu). exists sx, px. split; [by apply S4|]. intros _. rewrite Hu by done. symmetry. apply under_node_ext; [done|].
        intros p Hp. cbn. rewrite mget_mset. destruct (decide (e = p)) as [<-|]; [|done]. apply H5 in Hp as [_ [? Hp]]. congruence.
    - intros x p Hp. apply H5 in Hp as [[nx Hx] [np Hp]]. rewrite !mget_mset. destruct (decide (e = x)), (decide (e = p)); eauto.
    - intros m sm Hm. rewrite mget_mset. destruct (decide (n = m)) as [<-|]; [by eexists|]. apply S5 in Hm as [->|Hm]; [done|]. by apply (H8 m sm). }
  destruct (EntityTable.record (entities rt) e) as [r|]; [|done]. destruct (EntityTable.parent r =? NONE); [done|].
  assert (He : is_Some (mget (nodeFor b1) e)) by (cbn; rewrite mget_mset_eq; by eexists). assert (Hloose : drawn (Some e) b1) by (by apply drawn_loosen).
  destruct (mget (nodeFor b1) (EntityTable.parent r)) as [q|] eqn:Eq.
  - pose proof (attach_drawn e (EntityTable.parent r) b1 Hloose He (ex_intro _ q Eq)) as Ha. destruct (attach e (EntityTable.parent r) b1) as [[u|err] b2]; [done|by apply Ha].
  - unfold attach. rewrite Eq. by destruct (mget (nodeFor b1) e).
Qed.

(** *** Destroying *)

(** [x] is [a], or below it, in the bridge's own tree. *)
Definition bridge_under (b : Bridge) (a x : EntityId) : Prop := rtc (fun y p => mget (parentOf_ b) y = Some p) x a.

Lemma bridge_under_node b a x na nx : drawn None b -> mget (nodeFor b) a = Some na -> mget (nodeFor b) x = Some nx -> bridge_under b a x <-> below (tree_of (renderer b)) na nx.
Proof.
  intros Hd Ha Hx. split.
  - intros Hu. revert nx Hx. unfold bridge_under in Hu. induction Hu as [x|x y a Hxy Hu IH]; intros nx Hx; [assert (nx = na) as -> by congruence; apply rtc_refl|].
    destruct (dr_parent _ _ Hd x y Hxy) as [_ [ny Hy]]. destruct (dr_node _ _ Hd x nx Hx) as (sf & p & Ht & Hp). apply (rtc_l _ _ ny); [|by apply IH].
    exists sf. rewrite Ht, (Hp ltac:(done)). unfold under_node. rewrite Hxy. cbn. by rewrite Hy.
  - intros Hb. unfold below in Hb. revert x Hx. induction Hb as [z|nx w na [sf Hzw] Hb IH]; intros x Hx; [rewrite (node_inj None b x a z Hd Hx Ha); apply rtc_refl|].
    destruct (dr_node _ _ Hd x nx Hx) as (sf' & p & Ht & Hp). rewrite Hzw in Ht. injection Ht as <- ->. specialize (Hp ltac:(done)). unfold under_node in Hp. destruct (mget (parentOf_ b) x) as [y|] eqn:E.
    + destruct (dr_parent _ _ Hd x y E) as [_ [ny Hy]]. rewrite Hy in Hp. cbn in Hp. subst p. eapply rtc_l; [exact E|]. by apply (IH Ha y).
    + subst p. pose proof (tk_none _ (ready_tree _ (dr_ready _ _ Hd))) as Hn. apply rtc_inv in Hb as [<-|(? & [? Hc] & _)]; [|congruence]. by destruct (node_not_none None b a NO_NODE Hd Ha).
Qed.

Lemma bridge_acyclic b a x : drawn None b -> mget (parentOf_ b) a = Some x -> ~ bridge_under b a x.
Proof.
  intros Hd Hax. destruct (dr_parent _ _ Hd a x Hax) as [[na Ha] [nx Hx]]. rewrite (bridge_under_node b a x na nx Hd Ha Hx). pose proof (ready_tree _ (dr_ready _ _ Hd)) as Hok.
  destruct (dr_node _ _ Hd a na Ha) as (sf & p & Ht & Hp). apply (grounded_acyclic _ na nx (tk_none _ Hok)).
  - apply (tk_ground _ Hok). by eexists.
  - exists sf. rewrite Ht, (Hp ltac:(done)). unfold under_node. rewrite Hax. cbn. by rewrite Hx.
Qed.

(** What the loop has found before its index [i]. *)
Record dooming (b : Bridge) (a : EntityId) (i : nat) (out : list EntityId) : Prop := {
  dm_nodup : NoDup out;
  dm_start : a ∈ out;
  dm_under x : x ∈ out -> bridge_under b a x;
  dm_why x : x ∈ out -> x = a \/ exists j p, (j < i)%nat /\ out !! j = Some p /\ mget (parentOf_ b) x = Some p;
  dm_done j p x : (j < i)%nat -> out !! j = Some p -> x ∈ kids b p -> x ∈ out;
}.

Lemma dooming_step b a i out e : drawn None b -> dooming b a i out -> out !! i = Some e -> dooming b a (S i) (out ++ kids b e).
Proof.
  intros Hd [D1 D2 D3 D4 D5] Hi. pose proof (dr_kids _ _ Hd) as Hk. split.
  - apply NoDup_app. split; [done|]. split; [|apply (dr_nodup _ _ Hd)]. intros x Hx Hxe. apply Hk in Hxe. destruct (D4 x Hx) as [->|(j & p & Hj & Hp & Hpx)].
    + apply (bridge_acyclic b a e Hd Hxe). apply D3. by apply list_elem_of_lookup_2 in Hi.
    + assert (p = e) as -> by congruence. pose proof (NoDup_lookup _ _ _ _ D1 Hp Hi). lia.
  - apply elem_of_app. by left.
  - intros x [Hx|Hx]%elem_of_app; [by apply D3|]. eapply rtc_l; [by apply Hk|]. apply D3. by apply list_elem_of_lookup_2 in Hi.
  - intros x [Hx|Hx]%elem_of_app.
    + destruct (D4 x Hx) as [->|(j & p & Hj & Hp & Hpx)]; [by left|right]. exists j, p. split_and!; [lia|by apply lookup_app_l_Some|done].
    + right. exists i, e. split_and!; [lia|by apply lookup_app_l_Some|by apply Hk].
  - intros j p x Hj Hp Hx. apply elem_of_app. assert (Hjl : (j < length out)%nat) by (apply lookup_lt_Some in Hi; lia). rewrite lookup_app_l in Hp by done.
    destruct (decide (j = i)) as [->|]; [right; congruence|left]. apply (D5 j p x); [lia|done|done].
Qed.

Lemma doom_from b a fuel i out M : drawn None b -> dooming b a i out -> (forall x, bridge_under b a x -> x ∈ M) -> (i <= length out)%nat -> (length M < i + fuel)%nat ->
  NoDup (doom fuel b i out) /\ forall x, x ∈ doom fuel b i out <-> bridge_under b a x.
Proof.
  intros Hd HD HM. revert i out HD. induction fuel as [|fuel IH]; intros i out HD Hi Hf; cbn [doom].
  - exfalso. assert (length out <= length M)%nat by (apply submseteq_length, NoDup_submseteq; [apply HD|]; intros x Hx; by apply HM, HD). lia.
  - destruct (out !! i) as [e|] eqn:E.
    + pose proof (dooming_step b a i out e Hd HD E) as H. apply IH; [done| |lia]. rewrite length_app. apply lookup_lt_Some in E. lia.
    + apply lookup_ge_None in E. split; [apply HD|]. intros x. split; [apply HD|]. intros Hu. unfold bridge_under in Hu. revert HD E. clear IH Hi Hf. intros HD E.
      assert (Hgo : forall y z, rtc (fun y p => mget (parentOf_ b) y = Some p) y z -> z ∈ out -> y ∈ out).
      { intros y z Hr. induction Hr as [y|y p z Hyp Hr IHr]; intros Hz; [done|]. apply IHr in Hz. apply list_elem_of_lookup in Hz as [j Hj]. apply (dm_done _ _ _ _ HD j p); [|done|by apply (dr_kids _ _ Hd)].
        apply lookup_lt_Some in Hj. lia. }
      apply (Hgo x a Hu). apply HD.
Qed.

Lemma doom_spec b a : drawn None b -> is_Some (mget (nodeFor b) a) -> let l := doom (S (msize (nodeFor b))) b 0 [a] in NoDup l /\ forall x, x ∈ l <-> bridge_under b a x.
Proof.
  intros Hd Ha. apply (doom_from b a _ 0 [a] (mkeys (nodeFor b)) Hd).
  - split.
    + apply NoDup_singleton.
    + left.
    + intros x Hx%list_elem_of_singleton. subst x. apply rtc_refl.
    + intros x Hx%list_elem_of_singleton. by left.
    + intros j p x Hj. lia.
  - intros x Hu. apply mget_is_Some. apply rtc_inv in Hu as [->|(y & Hy & _)]; [done|]. by apply (dr_parent _ _ Hd) in Hy as [? _].
  - cbn. lia.
  - unfold mkeys, msize. rewrite length_fmap. lia.
Qed.

(** The maps after the doomed are forgotten. *)
Lemma forget_maps l loose b : drawn loose b -> let b' := foldl forget_one b l in
  renderer b' = renderer b /\ subtreeFor b' = subtreeFor b
  /\ (forall e, mget (nodeFor b') e = if decide (e ∈ l) then None else mget (nodeFor b) e)
  /\ (forall e, mget (parentOf_ b') e = if decide (e ∈ l) then None else mget (parentOf_ b) e)
  /\ (forall p, kids b' p = if decide (p ∈ l) then [] else kids b p)
  /\ (forall n e, mget (entityFor b') n = Some e <-> mget (entityFor b) n = Some e /\ e ∉ l).
Proof.
  intros Hd. cbv zeta. assert (H : forall done b1, (forall e n, mget (nodeFor b1) e = Some n <-> mget (nodeFor b) e = Some n /\ e ∉ done) -> (forall n e, mget (entityFor b1) n = Some e <-> mget (entityFor b) n = Some e /\ e ∉ done) ->
    let b' := foldl forget_one b1 l in renderer b' = renderer b1 /\ subtreeFor b' = subtreeFor b1
    /\ (forall e n, mget (nodeFor b') e = Some n <-> mget (nodeFor b) e = Some n /\ e ∉ done ++ l)
    /\ (forall e, mget (parentOf_ b') e = if decide (e ∈ l) then None else mget (parentOf_ b1) e)
    /\ (forall p, kids b' p = if decide (p ∈ l) then [] else kids b1 p)
    /\ (forall n e, mget (entityFor b') n = Some e <-> mget (entityFor b) n = Some e /\ e ∉ done ++ l)).
  { induction l as [|a l IH]; intros don b1 Hn He; cbn [foldl]; [rewrite app_nil_r; split_and!; try done; intros; by rewrite decide_False by apply not_elem_of_nil|].
    assert (Hn1 : forall e n, mget (nodeFor (forget_one b1 a)) e = Some n <-> mget (nodeFor b) e = Some n /\ e ∉ don ++ [a]).
    { intros e n. cbn. rewrite mget_mdel, not_elem_of_app, list_elem_of_singleton. destruct (decide (a = e)) as [<-|Hne]; [clear; intuition congruence|]. rewrite Hn. clear - Hne. intuition congruence. }
    assert (He1 : forall n e, mget (entityFor (forget_one b1 a)) n = Some e <-> mget (entityFor b) n = Some e /\ e ∉ don ++ [a]).
    { intros n e. rewrite not_elem_of_app, list_elem_of_singleton. unfold forget_one. cbn. destruct (mget (nodeFor b1) a) as [na|] eqn:Ea.
      - apply Hn in Ea as [Ea Had]. rewrite mget_mdel. destruct (decide (na = n)) as [<-|Hne].
        + apply (dr_maps _ _ Hd) in Ea. rewrite Ea. clear. intuition congruence.
        + rewrite He. split; [|tauto]. intros [Hx Hxd]. split_and!; [done|done|]. intros ->. apply (dr_maps _ _ Hd) in Hx. congruence.
      - rewrite He. split; [|tauto]. intros [Hx Hxd]. split_and!; [done|done|]. intros ->. apply (dr_maps _ _ Hd) in Hx. assert (mget (nodeFor b1) a = Some n) by (by apply Hn). congruence. }
    destruct (IH (don ++ [a]) (forget_one b1 a) Hn1 He1) as (I1 & I2 & I3 & I4 & I5 & I6). assert (Happ : (don ++ [a]) ++ l = don ++ a :: l) by (by rewrite <- app_assoc). rewrite Happ in I3, I6. split_and!; [exact I1|exact I2|exact I3| | |exact I6].
    - intros e. rewrite I4. cbn. rewrite mget_mdel. destruct (decide (e ∈ l)) as [Hl|Hl], (decide (a = e)) as [Ha|Ha], (decide (e ∈ a :: l)) as [Hin|Hin]; rewrite elem_of_cons in Hin; try done; exfalso; clear - Hl Ha Hin; intuition congruence.
    - intros p. rewrite I5. unfold kids. cbn. rewrite mget_mdel. destruct (decide (p ∈ l)) as [Hl|Hl], (decide (a = p)) as [Ha|Ha], (decide (p ∈ a :: l)) as [Hin|Hin]; rewrite elem_of_cons in Hin; try done; exfalso; clear - Hl Ha Hin; intuition congruence. }
  pose proof (fun x : EntityId => not_elem_of_nil x) as Hnil. destruct (H [] b) as (I1 & I2 & I3 & I4 & I5 & I6); [intros e n; specialize (Hnil e); tauto|intros n e; specialize (Hnil e); tauto|]. cbn [app] in *. split_and!; try done.
  intros e. apply option_eq. intros n. rewrite I3. destruct (decide (e ∈ l)); intuition congruence.
Qed.

Lemma destroy_drawn e b : drawn None b -> exists b', destroy_ e b = (Ok tt, b') /\ drawn None b' /\ mget (nodeFor b') e = None.
Proof.
  intros Hd. unfold destroy_. destruct (mget (nodeFor b) e) as [node|] eqn:E; [|by exists b]. eexists. split; [done|].
  destruct (doom_spec b e Hd (ex_intro _ node E)) as [_ Hl]. cbv zeta in Hl. set (l := doom _ b 0 [e]) in *. clearbody l.
  pose proof (unlink_drawn e b Hd) as Hu. destruct (unlink_maps e b) as (M1 & M2 & M3 & M4 & M5). destruct (forget_maps l _ _ Hu) as (F1 & F2 & F3 & F4 & F5 & F6). cbv zeta in *.
  set (b2 := foldl forget_one (unlink_ e b) l) in *. clearbody b2. rewrite M1 in F3. rewrite M3 in F1. rewrite M4 in F2. setoid_rewrite M2 in F6. rewrite F1.
  destruct (destroyNode_tree node _ (dr_ready _ _ Hd)) as (R1 & _ & R3). set (st' := destroyNode node (renderer b)) in *. clearbody st'.
  assert (Hel : e ∈ l) by (apply Hl, rtc_refl). assert (Hin : is_Some (tree_of (renderer b) !! node)) by (destruct (dr_node _ _ Hd e node E) as (sf & p & Ht & _); by exists (sf, p)).
  assert (Hcl : forall x p, mget (parentOf_ b) x = Some p -> p ∈ l -> x ∈ l) by (intros x p Hxp Hp; apply Hl; eapply rtc_l; [exact Hxp|by apply Hl]).
  assert (Hup : forall x p, mget (parentOf_ b) x = Some p -> x ∈ l -> x <> e -> p ∈ l).
  { intros x p Hxp Hx Hne. apply Hl. apply Hl in Hx. apply rtc_inv in Hx as [?|(y & Hy & Hx)]; [done|]. assert (y = p) as -> by congruence. done. }
  assert (Hpar : forall x, mget (parentOf_ b2) x = if decide (x ∈ l) then None else mget (parentOf_ b) x).
  { intros x. rewrite F4, M5. destruct (decide (x ∈ l)); [done|]. rewrite decide_False; [done|]. by intros ->. }
  assert (Hkids : forall p, kids b2 p = if decide (p ∈ l) then [] else sdel (kids b p) e) by (intros p; rewrite F5; by rewrite (unlink_kids None e b p Hd)).
  assert (Hnode : forall x n, mget (nodeFor b2) x = Some n <-> mget (nodeFor b) x = Some n /\ x ∉ l) by (intros x n; rewrite F3; destruct (decide (x ∈ l)); naive_solver).
  split; [|cbn; apply eq_None_not_Some; intros [n Hn]; by apply Hnode in Hn as [_ Hn]].
  split; cbn; try done.
  - intros x n. rewrite Hnode, F6, (dr_maps _ _ Hd). done.
  - intros x n [Hx Hxl]%Hnode. destruct (dr_node _ _ Hd x n Hx) as (sf & p & Ht & Hp). exists sf, p. split.
    + apply R3. split; [done|]. intros [_ Hb]. apply Hxl, Hl. by apply (bridge_under_node b e x node n Hd E Hx).
    + intros _. rewrite (Hp ltac:(done)). symmetry. apply under_node_ext; cbn; [by rewrite Hpar, decide_False|]. intros q Hq. rewrite F3, decide_False; [done|]. intros Hql. by apply Hxl, (Hcl x q).
  - intros x p. rewrite Hpar. destruct (decide (x ∈ l)) as [|Hxl]; [done|]. intros Hxp. assert (Hpl : p ∉ l) by (intros Hpl; by apply Hxl, (Hcl x p)). rewrite !F3, !decide_False by done. by apply (dr_parent _ _ Hd).
  - intros x p. change (mget (parentOf_ b2) x = Some p <-> x ∈ kids b2 p). rewrite Hpar, Hkids. destruct (decide (x ∈ l)) as [Hx|Hx], (decide (p ∈ l)) as [Hp|Hp].
    + split; [done|]. intros H. by apply not_elem_of_nil in H.
    + split; [done|]. rewrite elem_of_sdel, <- (dr_kids _ _ Hd). intros [Hxp Hne]. by destruct (Hp (Hup x p Hxp Hx Hne)).
    + split; [|intros H; by apply not_elem_of_nil in H]. intros Hxp. by destruct (Hx (Hcl x p Hxp Hp)).
    + rewrite elem_of_sdel, <- (dr_kids _ _ Hd). split; [|tauto]. intros Hxp. split; [done|]. by intros ->.
  - intros p. change (NoDup (kids b2 p)). rewrite Hkids. destruct (decide (p ∈ l)); [apply NoDup_nil_2|]. apply NoDup_sdel, (dr_nodup _ _ Hd).
  - intros n sf [Hn Hno]%R3. destruct (dr_roots _ _ Hd n sf Hn) as [x Hx]. exists x. apply F6. split; [done|]. intros Hxl. apply (dr_maps _ _ Hd) in Hx. apply Hno. split; [done|].
    apply (bridge_under_node b e x node n Hd E Hx). by apply Hl.
  - intros t batch. rewrite F2. apply (dr_groups _ _ Hd).
Qed.

(** *** Histories *)

Fixpoint reparents_land (rs : list MirrorReparent) (b : Bridge) : bool :=
  match rs with [] => true | r :: rs => reparent_lands r b && reparents_land rs (reparent r b).2 end.

(** Every reparent of the delta lands, when the additions are in. *)
Definition reconcile_lands (rt : Runtime) (delta : MirrorDelta) (b : Bridge) : bool :=
  match each (create_ rt) (added delta) b with (Ok _, b) => reparents_land (reparented delta) b | (Throw _, _) => true end.

Lemma each_drawn {A} (f : A -> Bridge -> bact unit) l b : (forall x b, drawn None b -> drawn None (f x b).2) -> drawn None b -> drawn None (each f l b).2.
Proof.
  intros Hf. revert b. induction l as [|x l IH]; intros b Hd; [done|]. cbn [each]. pose proof (Hf x b Hd) as H. destruct (f x b) as [[u|e] b1]; cbn [snd] in *; [by apply IH|done].
Qed.

Lemma reparents_drawn rs b : drawn None b -> reparents_land rs b = true -> exists b', each reparent rs b = (Ok tt, b') /\ drawn None b'.
Proof.
  revert b. induction rs as [|r rs IH]; intros b Hd Hl; [by exists b|]. cbn [each reparents_land] in *. apply andb_true_iff in Hl as [H1 H2]. destruct (reparent_drawn r b Hd H1) as (b1 & E & Hd1). rewrite E in *. by apply IH.
Qed.

Lemma reconcile_drawn rt delta b : drawn None b -> reconcile_lands rt delta b = true -> drawn None (reconcile rt delta b).2.
Proof.
  intros Hd Hl. unfold reconcile, reconcile_lands in *. pose proof (each_drawn (create_ rt) (added delta) b (fun e b => create_drawn rt e b) Hd) as H1.
  destruct (each (create_ rt) (added delta) b) as [[u|e] b1]; cbn [snd] in *; [|done]. destruct (reparents_drawn _ b1 H1 Hl) as (b2 & -> & H2). apply each_drawn; [|done].
  intros x b3 H3. by destruct (destroy_drawn x b3 H3) as (b4 & -> & H4 & _).
Qed.

Lemma repatches_same t ps e t' : repatches t ps e t' -> (forall p, p ∈ ps -> p_parent p = None) -> t' = t.
Proof.
  induction 1 as [t|t p ps e t' Hp|t p ps t1 e t' Hp _ IH]; intros Hps; [done| |].
  - assert (Hn : p_parent p = None) by (apply Hps; left). inversion Hp; congruence.
  - assert (Hn : p_parent p = None) by (apply Hps; left). rewrite IH by (intros q Hq; apply Hps; by right). inversion Hp; congruence.
Qed.

Lemma push_same now rt b : let b' := (pushTransforms now rt b).1.2 in
  (exists ps, (forall p, p ∈ ps -> p_parent p = None) /\ renderer b' = (updateNodes ps (renderer b)).2) /\ nodeFor b' = nodeFor b /\ entityFor b' = entityFor b /\ parentOf_ b' = parentOf_ b /\ childrenOf_ b' = childrenOf_ b /\ subtreeFor b' = subtreeFor b.
Proof.
  unfold pushTransforms. assert (Hdecay : exists c, exists n, decay now b = with_corrections c (with_times (renderTime b) n b)).
  { unfold decay. destruct (isFinite now); cbn [negb]; [|exists (corrections b), (lastNow b); by destruct b]. destruct (lastNow b); [|exists (corrections b), (Some now); by destruct b].
    destruct (corrections b) eqn:Ec; [exists (corrections b), (Some now); by destruct b|]. destruct (feq _ _); [exists (corrections b), (Some now); by destruct b|]. by eexists _, _. }
  destruct Hdecay as (c & n & ->). destruct (TransformStore.consumeDirty (World.transforms rt)) as [dirty s]. set (rt' := set_transforms rt s). cbv zeta.
  set (now' := nullish _ f0). set (b1 := with_times _ _ _). assert (Ht : forall l s0, exists t, (foldl (take_dirty rt' now') s0 l).2 = with_tracks t s0.2).
  { induction l as [|i l IH]; intros [sv b0]; [exists (tracks b0); by destruct b0|]. cbn [foldl]. destruct (IH (take_dirty rt' now' (sv, b0) i)) as [t ->]. unfold take_dirty. destruct (_ =? NONE); [by exists t|]. cbn [snd].
    destruct (shas _ _); [by exists t|]. unfold sample. destruct (mget _ _); by exists t. }
  destruct (Ht dirty ([], b1)) as [t Hb2]. destruct (foldl _ ([], b1) dirty) as [moved b2]. cbn [snd] in Hb2. rewrite Hb2. clear Hb2 b2 Ht.
  set (b2 := with_tracks _ (with_tracks t b1)). set (ps := omap (patch_of rt' b2) _).
  assert (Hps : forall p, p ∈ ps -> p_parent p = None).
  { intros p Hp. apply list_elem_of_omap in Hp as (e & _ & He). unfold patch_of in He. destruct (mget _ _); [|done]. by injection He as <-. }
  clearbody ps. destruct ps as [|p ps]; cbn [fst snd].
  - split; [|done]. by exists [].
  - unfold render. cbn [renderer b2 with_tracks b1 with_times with_corrections]. destruct (updateNodes (p :: ps) (renderer b)) as [r st] eqn:E. cbn [fst snd]. split; [|done]. exists (p :: ps). by rewrite E.
Qed.

Lemma push_drawn now rt b : drawn None b -> drawn None (pushTransforms now rt b).1.2.
Proof.
  intros Hd. destruct (push_same now rt b) as ((ps & Hps & Hr) & H1 & H2 & H3 & H4 & H5). cbv zeta in *. destruct (updateNodes_tree ps _ (dr_ready _ _ Hd)) as (R1 & _ & R3). apply repatches_same in R3; [|done].
  apply (drawn_same None (with_renderer (updateNodes ps (renderer b)).2 b)); [by apply drawn_render|done..].
Qed.

(** ** Flattened groups *)

(** What an accepted child asks for. *)
Definition art_entry (d : NodeDesc) : Prop :=
  d_surface d = None /\ d_parent d = None /\ match d_kind d with ASprite t => t <> [] | AGroup => True | AText _ _ => False end.

(** The root first, every other entry under an earlier one. *)
Definition batch_ok (batch : list SubtreeNodeDesc) : Prop :=
  forall k d, batch !! k = Some d -> (k = 0%nat /\ d = group_root) \/ (0 < k)%nat /\ (exists p, parentInBatch d = Some p /\ 0 <= p < Z.of_nat k) /\ art_entry (desc d).

(** How many nodes a list of children is. *)
Fixpoint art_size (fuel : nat) (children : option json) : Z :=
  match fuel, children with
  | S fuel, Some (JArr l) => foldr (fun child n => 1 + (if is_str (jget child "kind") (js "group") then art_size fuel (jget child "children") else 0) + n) 0 l
  | _, _ => 0
  end.

Lemma childDesc_spec child p d : childDesc child p = Some d -> parentInBatch d = Some p /\ art_entry (desc d).
Proof.
  unfold childDesc. destruct (negb _); [done|]. cbv zeta. destruct (is_str (jget child "kind") (js "group")); [intros [= <-]; split; [done|]; by split_and!|].
  destruct (negb _); [done|]. destruct (jget child "texture") as [[| | |[|c t]| |]|]; try done. intros [= <-]. split; [done|]. by split_and!.
Qed.

Lemma batch_ok_snoc batch d p : batch_ok batch -> batch <> [] -> parentInBatch d = Some p -> 0 <= p < arr_len batch -> art_entry (desc d) -> batch_ok (batch ++ [d]).
Proof.
  intros Hb Hne Hp Hr Ha k e He. apply lookup_snoc_Some in He as [[_ He]|[-> <-]]; [by apply Hb|]. right. split; [destruct batch; [done|cbn; lia]|]. split; [exists p; unfold arr_len in Hr; split; [done|lia]|done].
Qed.

(** What [pushChildren] leaves of an acceptable batch. *)
Definition extended (batch batch' : list SubtreeNodeDesc) (n : Z) : Prop :=
  batch_ok batch' /\ arr_len batch <= arr_len batch' <= Z.max (arr_len batch) MAX_VISUAL_NODES /\ arr_len batch' = arr_len batch + n.

Lemma push_extends fuel children p depth batch batch' : pushChildren fuel children p depth batch = Some batch' -> batch_ok batch -> 0 <= p < arr_len batch ->
  extended batch batch' (art_size fuel children).
Proof.
  revert children p depth batch batch'. induction fuel as [|fuel IH]; intros children p depth batch batch' H Hb Hp; [done|]. cbn [pushChildren art_size] in *.
  destruct children as [children|]; [|injection H as <-; unfold extended; split_and!; [done|lia|lia|lia]]. destruct (_ <? depth); [done|]. destruct children as [| | | |l|]; try done.
  destruct (MAX_WIRE_ITEMS <? arr_len l); [done|]. destruct (MAX_VISUAL_NODES <? _); [done|].
  revert batch batch' H Hb Hp. induction l as [|child l IHl]; intros batch batch' H Hb Hp; [injection H as <-; unfold extended; cbn [foldr]; split_and!; [done|lia|lia|lia]|].
  destruct (MAX_VISUAL_NODES <=? arr_len batch) eqn:El; [done|]. bool_facts. destruct (childDesc child p) as [d|] eqn:Ed; [|done]. apply childDesc_spec in Ed as [Hpd Had].
  assert (Hb1 : batch_ok (batch ++ [d])) by (apply (batch_ok_snoc batch d p); try done; intros ->; unfold arr_len in Hp; cbn in Hp; lia).
  assert (Hlen : arr_len (batch ++ [d]) = arr_len batch + 1) by (unfold arr_len; rewrite length_app; cbn; lia). cbn [foldr].
  assert (Hgo : forall b1 n, extended (batch ++ [d]) b1 n -> extended b1 batch' (foldr (fun child n => 1 + (if is_str (jget child "kind") (js "group") then art_size fuel (jget child "children") else 0) + n) 0 l) ->
    extended batch batch' (1 + n + foldr (fun child n => 1 + (if is_str (jget child "kind") (js "group") then art_size fuel (jget child "children") else 0) + n) 0 l)).
  { intros b1 n (E1 & E2 & E3) (X1 & X2 & X3). unfold extended. split_and!; [done|lia| |lia]. lia. }
  assert (Hself : extended (batch ++ [d]) (batch ++ [d]) 0) by (unfold extended; split_and!; [done|lia|lia|lia]).
  destruct (is_str (jget child "kind") (js "group")); cbn [negb] in H.
  - destruct (pushChildren fuel _ (arr_len batch) (depth + 1) (batch ++ [d])) as [b1|] eqn:E1; [|done]. apply IH in E1 as He1; [|done|lia]. apply (Hgo b1); [done|]. apply IHl; [done|apply He1|]. destruct He1 as (_ & ? & _). lia.
  - apply (Hgo (batch ++ [d])); [done|]. apply IHl; [done|done|lia].
Qed.

Lemma batch_ok_root : batch_ok [group_root].
Proof. intros [|k] d; cbn; [intros [= <-]; by left|done]. Qed.

Lemma flatten_spec children batch : flattenGroup children = Some batch -> extended [group_root] batch (art_size (ProjectFormat.MAX_TEMPLATE_DEPTH + 2) children).
Proof. intros H. apply push_extends in H; [done|apply batch_ok_root|unfold arr_len; cbn; lia]. Qed.

Lemma flatten_group children batch : flattenGroup children = Some batch -> group_batch batch.
Proof.
  intros (Hb & Hl & _)%flatten_spec. destruct batch as [|r rest]; [unfold arr_len in Hl; cbn in Hl; lia|]. destruct (Hb 0%nat r eq_refl) as [[_ ->]|[? _]]; [|lia]. exists rest. split; [done|].
  intros d Hd. apply list_elem_of_lookup in Hd as [k Hk]. destruct (Hb (S k) d Hk) as [[? _]|(_ & (p & -> & _) & _)]; [done|by exists p].
Qed.

Lemma load_template_drawn t b : drawn None b -> drawn None (load_template b t).
Proof.
  intros Hd. unfold load_template. assert (Hplain : forall v s, drawn None (with_visuals (mset (templates b) v s) (subtreeFor b) (declared b) b)) by (intros v s; by apply (drawn_same None b)).
  destruct t as [name [tx ax ay tint nc|[children|]]]; cbn [fst snd]; try apply Hplain. destruct (flattenGroup (Some children)) as [batch|] eqn:E; [|done]. apply flatten_group in E.
  destruct Hd as [D1 D2 D3 D4 D5 D6 D7 D8 D9]. split; try done. cbn. intros x bt. rewrite mget_mset. destruct (decide (name = x)); [by intros [= <-]|apply D9].
Qed.

Lemma declare_drawn es s : drawn None s.1 -> drawn None (foldl declare_one s es).1.
Proof.
  revert s. induction es as [|e es IH]; intros s Hd; [done|]. cbn [foldl]. apply IH. unfold declare_one. destruct (shas _ _); [done|]. by apply (drawn_same None s.1).
Qed.

Lemma load_drawn protocol m b : drawn None b -> drawn None (loadManifest protocol m b).1.
Proof.
  intros Hd. apply declare_drawn. cbn [fst]. revert b Hd. induction (m_templates m) as [|t ts IH]; intros b Hd; [done|]. cbn [foldl]. by apply IH, load_template_drawn.
Qed.

(** The batch a spawn sends: the entity's own transform on the root. *)
Definition placed_batch (batch : list SubtreeNodeDesc) (tr : Fields * num) : list SubtreeNodeDesc :=
  match batch with [] => [] | r :: rest => MkSub (parentInBatch r) (placed (desc r) tr) :: rest end.

Lemma batch_grew enabled ds made t made' t' : grows_batch enabled ds made t made' t' -> length made' = (length made + length ds)%nat.
Proof. induction 1 as [|d ds made t nd id t1 made' t' _ _ _ IH]; [cbn; lia|]. rewrite IH, length_app. cbn. lia. Qed.

(** Under a world node, an accepted child is only ever refused a slot. *)
Lemma child_fits enabled ds made t e : batch_fails enabled ds made t e -> world ∈ enabled -> (forall x, x ∈ made -> exists p, t !! x = Some (world, p)) ->
  (forall k d, ds !! k = Some d -> (exists p, parentInBatch d = Some p /\ 0 <= p < Z.of_nat (length made + k)) /\ art_entry (desc d)) -> exists x, e = NoSlots x.
Proof.
  intros Hf Hw. induction Hf as [d ds made t Hin|d ds made t nd e Hin Hc|d ds made t nd id t1 e Hin Hh Hf IH]; intros Hm Hds; destruct (Hds 0%nat d eq_refl) as [(p & Hp & Hr) (Hs & Hpar & Hk)].
  - exfalso. unfold in_batch in Hin. rewrite Hp in Hin. destruct (_ || _) eqn:E; [|done]. unfold arr_len in E. bool_facts. lia.
  - unfold in_batch in Hin. rewrite Hp in Hin. destruct (_ || _) eqn:E; [done|]. bool_facts. destruct (arr_get_is_Some made p) as [q Hq]; [lia|]. rewrite Hq, Hs in Hin. cbn in Hin.
    destruct (Hm q) as [up Hup]; [apply arr_get_lookup in Hq as [_ Hq]; by apply list_elem_of_lookup_2 in Hq|]. rewrite Hup in Hin. injection Hin as <-.
    destruct Hc as [Hc|[_ Hx]]; [|done]. exfalso. unfold refusal in Hc. cbn in Hc. rewrite bool_decide_true in Hc by done. cbn in Hc. unfold parent_in in Hc. rewrite decide_True, Hup, decide_True in Hc by (rewrite ?Hup; done).
    by destruct (d_kind (desc d)) as [[|c0 l0]| |].
  - unfold in_batch in Hin. rewrite Hp in Hin. destruct (_ || _) eqn:E; [done|]. bool_facts. destruct (arr_get_is_Some made p) as [q Hq]; [lia|]. rewrite Hq, Hs in Hin. cbn in Hin.
    destruct (Hm q) as [up Hup]; [apply arr_get_lookup in Hq as [_ Hq]; by apply list_elem_of_lookup_2 in Hq|]. rewrite Hup in Hin. injection Hin as <-. destruct Hh as (_ & _ & Hnew & ->). cbn in *. apply IH.
    + intros x [Hx|Hx%list_elem_of_singleton]%elem_of_app.
      * destruct (Hm x Hx) as [px Hpx]. exists px. rewrite lookup_insert_ne by congruence. done.
      * subst x. rewrite lookup_insert_eq. by eexists.
    + intros k d' Hk'. rewrite length_app. cbn. replace (length made + 1 + k)%nat with (length made + S k)%nat by lia. by apply (Hds (S k)).
Qed.

(** ** What a teardown leaves *)

Lemma grounded_root t x : tree_ok t -> grounded t x -> exists r sf, t !! r = Some (sf, NO_NODE).
Proof. intros Ht Hg. induction Hg as [x [sf Hx]|x p _ _ IH]; [by exists x, sf|done]. Qed.

Lemma destroys_tree l st : ready st -> let st' := foldl (fun st node => destroyNode node st) st l in
  ready st' /\ (forall x e, tree_of st' !! x = Some e -> tree_of st !! x = Some e) /\ forall n, n ∈ l -> tree_of st' !! n = None.
Proof.
  revert st. induction l as [|n l IH]; intros st Hr; cbv zeta; cbn [foldl]; [split_and!; try done; intros n Hn; by apply not_elem_of_nil in Hn|].
  destruct (destroyNode_tree n st Hr) as (R1 & _ & R3). destruct (IH _ R1) as (I1 & I2 & I3). split_and!; [done| |].
  - intros x e Hx. by apply I2, R3 in Hx as [? _].
  - intros m [->|Hm]%elem_of_cons; [|by apply I3]. apply eq_None_not_Some. intros [e He]. apply I2, R3 in He as [He Hno]. apply Hno. split; [by exists e|apply rtc_refl].
Qed.

Lemma clear_drawn b : drawn None b -> drawn None (clear_ b) /\ tree_of (renderer (clear_ b)) = ∅.
Proof.
  intros Hd. unfold clear_. destruct (destroys_tree (mvals (nodeFor b)) _ (dr_ready _ _ Hd)) as (R1 & R2 & R3). set (st' := foldl _ _ _) in *. clearbody st'.
  assert (Hroots : forall n sf, tree_of st' !! n <> Some (sf, NO_NODE)).
  { intros n sf Hn. pose proof (R2 _ _ Hn) as Hn0. destruct (dr_roots _ _ Hd n sf Hn0) as [e He]. apply (dr_maps _ _ Hd), mget_elem in He. rewrite R3 in Hn; [done|]. apply list_elem_of_fmap. by exists (e, n). }
  assert (Hempty : tree_of st' = ∅).
  { apply map_empty. intros n. apply eq_None_not_Some. intros Hn. pose proof (ready_tree _ R1) as Hok. destruct (grounded_root _ n Hok (tk_ground _ Hok n Hn)) as (r & sf & Hrt). by apply (Hroots r sf). }
  split; [|done]. split; cbn; try done; try (intros; by split; intros H; [|apply not_elem_of_nil in H]).
  - intros p. apply NoDup_nil_2.
  - intros n sf Hn. by apply Hroots in Hn.
  - apply (dr_groups _ _ Hd).
Qed.

(** ** The bridge in use *)

Section Use.
Context (protocol : jstr -> option jstr).

Inductive BridgeOp :=
  | TakeManifest (m : RenderManifest) | AssetsLoaded (gone : list jstr) | Reconcile (rt : Runtime) (delta : MirrorDelta) | Push (now : num) (rt : Runtime)
  | Correct (e : EntityId) (x y z : num) | ClearCorrection (e : EntityId) | SetPredicted (scope : jsset EntityId) | Clear.

(** The bridge a call leaves, thrown or not. *)
Definition run_bridge (b : Bridge) (o : BridgeOp) : Bridge :=
  match o with
  | TakeManifest m => (loadManifest protocol m b).1
  | AssetsLoaded gone => manifestLoaded gone b
  | Reconcile rt delta => (reconcile rt delta b).2
  | Push now rt => (pushTransforms now rt b).1.2
  | Correct e x y z => correct e x y z b
  | ClearCorrection e => clearCorrection e b
  | SetPredicted scope => setPredicted scope b
  | Clear => clear_ b
  end.

(** Each reparent of the history is onto an entity drawn by then, and the renderer takes it. *)
Fixpoint lands (ops : list BridgeOp) (b : Bridge) : bool :=
  match ops with
  | [] => true
  | o :: ops => match o with Reconcile rt delta => reconcile_lands rt delta b | _ => true end && lands ops (run_bridge b o)
  end.

Lemma run_drawn o b : drawn None b -> match o with Reconcile rt delta => reconcile_lands rt delta b | _ => true end = true -> drawn None (run_bridge b o).
Proof.
  intros Hd Hl. destruct o; cbn [run_bridge]; try (by apply (drawn_same None b)).
  - by apply load_drawn.
  - by apply reconcile_drawn.
  - by apply push_drawn.
  - by apply clear_drawn.
Qed.

Lemma new_drawn enabled rate : drawn None (new_bridge (new_stage enabled) rate).
Proof.
  pose proof (ready_run enabled []) as [Hr _]. split; cbn; try done; try (intros; by split; intros H; [|apply not_elem_of_nil in H]); try (intros; by exfalso). intros p. apply NoDup_nil_2.
Qed.

Lemma lands_drawn ops b : drawn None b -> lands ops b = true -> drawn None (foldl run_bridge b ops).
Proof.
  revert b. induction ops as [|o ops IH]; intros b Hd Hl; [done|]. cbn [lands foldl] in *. apply andb_true_iff in Hl as [H1 H2]. apply IH; [by apply run_drawn|done].
Qed.
End Use.

(** C5. However a bridge is used, as long as each reparent it is given is onto an entity it
    draws and is one the renderer takes: an entity has one node and a node one entity; that
    node is alive, and hangs under the node of the entity's parent exactly when the bridge
    has the two linked, and at the top otherwise; every tree of the renderer is an entity's,
    so no node is ever left behind; and a teardown leaves the renderer empty. This holds
    after additions that threw, and after removals, whose cascade in the renderer is the
    set of entities the bridge forgets. *)
Theorem bridge_tree_is_the_renderers protocol enabled rate ops : let b0 := new_bridge (new_stage enabled) rate in lands protocol ops b0 = true ->
  let b := foldl (run_bridge protocol) b0 ops in let st := renderer b in
  (forall e n, mget (nodeFor b) e = Some n <-> mget (entityFor b) n = Some e)
  /\ (forall e n, mget (nodeFor b) e = Some n -> SlotTable.exists_ (nodes st) n = true /\ Stage.parentOf st n = under_node b e)
  /\ (forall e p, mget (parentOf_ b) e = Some p -> is_Some (mget (nodeFor b) e) /\ is_Some (mget (nodeFor b) p))
  /\ (forall e p, mget (parentOf_ b) e = Some p <-> e ∈ kids b p)
  /\ (forall n, SlotTable.exists_ (nodes st) n = true -> Stage.parentOf st n = NO_NODE -> is_Some (mget (entityFor b) n))
  /\ SlotTable.liveCount (nodes (renderer (clear_ b))) = 0.
Proof.
  intros b0 Hl b st. pose proof (lands_drawn protocol ops b0 (new_drawn enabled rate) Hl) as Hd. fold b in Hd. clearbody b. clear Hl b0.
  destruct (dr_ready _ _ Hd) as (s & m & Hs). fold st in Hs.
  assert (Hat : forall n, SlotTable.exists_ (nodes st) n = true -> exists sf, tree_of st !! n = Some (sf, Stage.parentOf st n)).
  { intros n Hn. unfold SlotTable.exists_ in Hn. apply Z.leb_le in Hn. destruct (tree_at st s m Hs n Hn) as (q & sf & Hq & _ & Hid & Ht). exists sf. rewrite Ht, <- Hid, (parent_of_slot st s m Hs _ q Hq). done. }
  split_and!.
  - apply (dr_maps _ _ Hd).
  - intros e n He. destruct (dr_node _ _ Hd e n He) as (sf & p & Ht & Hp). assert (Hn : SlotTable.exists_ (nodes st) n = true) by (unfold SlotTable.exists_; apply Z.leb_le, (in_tree st s m Hs); by eexists). split; [done|].
    destruct (Hat n Hn) as [sf' Ht']. rewrite <- (Hp ltac:(done)). fold st in Ht. congruence.
  - apply (dr_parent _ _ Hd).
  - apply (dr_kids _ _ Hd).
  - intros n Hn Hp. destruct (Hat n Hn) as [sf Ht]. rewrite Hp in Ht. by apply (dr_roots _ _ Hd n sf).
  - destruct (clear_drawn b Hd) as [Hd' He]. destruct (dr_ready _ _ Hd') as (s' & m' & Hs'). rewrite <- (size_abs _ (core_of _ s' m' Hs')). unfold tree_of in He.
    assert (Hab : SlotTable.abs (nodes (renderer (clear_ b))) = ∅); [|by rewrite Hab, map_size_empty].
    apply map_empty. intros n. pose proof (f_equal (lookup n) He) as Hn. rewrite map_lookup_imap, lookup_empty in Hn. by destruct (SlotTable.abs _ !! n).
Qed.

(** C37. A group template's art is drawn whole or not at all. When a child list is accepted,
    the batch it is flattened to is the root and one node for each child at any depth, at
    most [MAX_VISUAL_NODES], each under an earlier one; and creating it, wherever the
    entity is, gives as many nodes or throws only for want of a handle or of the world
    surface, never for what the server sent. *)
Theorem group_draws_whole children batch tr enabled ops : flattenGroup (Some children) = Some batch -> let st := foldl run_stage (new_stage enabled) ops in
  1 <= arr_len batch <= MAX_VISUAL_NODES /\ arr_len batch = 1 + art_size (ProjectFormat.MAX_TEMPLATE_DEPTH + 2) (Some children) /\ batch_ok batch
  /\ match (createSubtree (placed_batch batch tr) st).1 with
     | Ok ids => length ids = length batch
     | Throw e => (world ∉ enabled) /\ e = SurfaceDisabled \/ exists x, e = NoSlots x
     end.
Proof.
  intros H st. pose proof (flatten_group _ _ H) as (rest & -> & _). apply flatten_spec in H as (Hb & Hl & Hn). split; [|split; [done|split; [done|]]].
  { assert (E : arr_len [group_root] = 1) by done. rewrite E in Hl. assert (E2 : MAX_VISUAL_NODES = 64) by done. lia. }
  destruct (ready_run enabled ops) as [Hr He]. fold st in Hr, He. cbn [placed_batch]. set (r := MkSub _ _). destruct (createSubtree_tree (r :: rest) st Hr) as (_ & _ & Ht).
  destruct (createSubtree (r :: rest) st) as [[ids|e] st']; cbn [fst snd] in *; [apply batch_grew in Ht; cbn in Ht; by rewrite Ht|]. destruct Ht as [_ Hf]. rewrite He in Hf.
  assert (Hroot : forall x, refusal enabled (tree_of st) (desc r) = Some x -> (world ∉ enabled) /\ x = SurfaceDisabled).
  { intros x. unfold refusal, r. cbn. rewrite (tk_none _ (ready_tree st Hr)). destruct (bool_decide (world ∈ enabled)) eqn:E; [done|]. apply bool_decide_eq_false in E. by intros [= <-]. }
  clearbody st. clear He. inversion Hf as [? ? ? ? Hin|? ? ? ? nd ? Hin Hc|? ? ? ? nd id t1 ? Hin Hh Hlater]; subst; cbn in Hin; [done| |]; injection Hin as <-.
  - destruct Hc as [Hc|[_ Hx]]; [left; by apply Hroot|by right].
  - right. destruct Hh as (Hh & _ & _ & ->). apply (child_fits _ _ _ _ _ Hlater).
    + unfold refusal in Hh. cbn in Hh. destruct (bool_decide (world ∈ enabled)) eqn:E; [by apply bool_decide_eq_true in E|done].
    + intros x Hx. cbn in Hx. apply list_elem_of_singleton in Hx as ->. rewrite lookup_insert_eq. by eexists.
    + intros k d Hk. destruct (Hb (S k) d Hk) as [[? _]|(_ & (p & Hp & Hpr) & Ha)]; [done|]. split; [|done]. exists p. split; [done|]. cbn. lia.
Qed.

(** A mirror with no scripts, and what it receives. *)
Abbreviation received m ops := (match Mirror.applyState (Klass := unit) (Wrapper := unit) None (fun r _ _ _ => Some r) (fun _ => None) (fun w _ => w) (fun _ _ _ => false) (fun _ _ => []) m
  (Replicate.MkState 1 (Admission.MkAck 0 None) ops []) with Ok x => x | Throw _ => (m, emptyDelta) end).
Abbreviation spawns n template x parent := (Replicate.WSingle (Replicate.WSpawn (Replicate.MkSnapshot n (js template) parent None [] (Replicate.MkTransform (of_Z x) f0 f0 f0 f1 f1 f0) None))).
Abbreviation reparents_to n parent := (Replicate.WSingle (Replicate.WReparent n parent)).
Abbreviation reconciles d := (Reconcile (Mirror.rt d.1) d.2).
Abbreviation cart := [JObj [(js "kind", JStr (js "group")); (js "children", JArr [JObj [(js "kind", JStr (js "sprite")); (js "texture", JStr (js "wheel"))]])];
  JObj [(js "kind", JStr (js "sprite")); (js "texture", JStr (js "hull"))]].

(** A cart of four nodes, a rider on it; the rider steps off and the cart goes. *)
Abbreviation cart_and_rider := (received new_mirror [spawns 5 "cart" 5 None; spawns 6 "rider" 1 (Some 5)]).
Abbreviation rider_off := (received cart_and_rider.1 [reparents_to 6 None]).
Abbreviation cart_gone := (received rider_off.1 [Replicate.WSingle (Replicate.WDestroy 5)]).
Abbreviation ride := [TakeManifest (MkManifest [] [(js "cart", GroupVisual (Some (JArr cart)))]); reconciles cart_and_rider; Push f1 (Mirror.rt cart_and_rider.1); reconciles rider_off; reconciles cart_gone].

Lemma bridge_tree_is_the_renderers_witness : let b := foldl (run_bridge (fun _ => None)) (new_bridge (new_stage DEFAULT_SURFACES) (of_Z 20)) ride in
  lands (fun _ => None) ride (new_bridge (new_stage DEFAULT_SURFACES) (of_Z 20)) = true
  /\ (exists e n, nodeFor b = [(e, n)] /\ Stage.parentOf (renderer b) n = under_node b e) /\ SlotTable.liveCount (nodes (renderer b)) = 1 /\ SlotTable.liveCount (nodes (renderer (clear_ b))) = 0.
Proof.
  intros b. assert (Hl : lands (fun _ => None) ride (new_bridge (new_stage DEFAULT_SURFACES) (of_Z 20)) = true) by (vm_compute; reflexivity).
  destruct (bridge_tree_is_the_renderers (fun _ => None) DEFAULT_SURFACES (of_Z 20) ride Hl) as (_ & H2 & _ & _ & _ & H6). fold b in H2, H6.
  assert (Hn : exists e n, nodeFor b = [(e, n)] /\ mget (nodeFor b) e = Some n) by (vm_compute; eexists _, _; split; reflexivity). destruct Hn as (e & n & Hn1 & Hn2).
  assert (H1 : SlotTable.liveCount (nodes (renderer b)) = 1) by (vm_compute; reflexivity).
  exact (conj Hl (conj (ex_intro _ e (ex_intro _ n (conj Hn1 (proj2 (H2 e n Hn2))))) (conj H1 H6))).
Defined.

Lemma group_draws_whole_witness : let st := foldl run_stage (new_stage DEFAULT_SURFACES) [] in
  exists batch, flattenGroup (Some (JArr cart)) = Some batch /\ arr_len batch = 4 /\ art_size (ProjectFormat.MAX_TEMPLATE_DEPTH + 2) (Some (JArr cart)) = 3 /\ batch_ok batch
  /\ (createSubtree (placed_batch batch (no_fields, f0)) st).1 = Ok ((fun i => packHandle i 1) <$> [0; 1; 2; 3]).
Proof.
  intros st. assert (Hb : exists batch, flattenGroup (Some (JArr cart)) = Some batch /\ arr_len batch = 4) by (vm_compute; eexists; split; reflexivity). destruct Hb as (batch & Hb & H4).
  destruct (group_draws_whole (JArr cart) batch (no_fields, f0) DEFAULT_SURFACES [] Hb) as (_ & Hn & Hok & _). exists batch.
  assert (H3 : art_size (ProjectFormat.MAX_TEMPLATE_DEPTH + 2) (Some (JArr cart)) = 3) by (vm_compute; reflexivity).
  assert (Hids : match flattenGroup (Some (JArr cart)) with Some batch => (createSubtree (placed_batch batch (no_fields, f0)) (foldl run_stage (new_stage DEFAULT_SURFACES) [])).1 = Ok ((fun i => packHandle i 1) <$> [0; 1; 2; 3]) | None => False end)
    by (vm_compute; reflexivity).
  rewrite Hb in Hids.
  exact (conj Hb (conj H4 (conj H3 (conj Hok Hids)))).
Defined.

(** ** Where the bridge and the mirror part *)

Abbreviation fresh_bridge := (new_bridge (new_stage DEFAULT_SURFACES) (of_Z 20)).
Abbreviation twist := (received new_mirror [spawns 5 "rock" 0 None; spawns 6 "rock" 0 None; reparents_to 5 (Some 6); reparents_to 5 None; reparents_to 6 (Some 5)]).

(** A journal the mirror applies whole makes [reconcile] throw: what is added is attached to
    its last parent before the moves that led there are replayed, and an early one of them
    closes a cycle with a late one. Nothing after it is replayed, nothing is removed, and the
    bridge has the parting on one side only. *)
Lemma replayed_reparents_cycle : let r := reconcile (Mirror.rt twist.1) twist.2 fresh_bridge in
  length (reparented twist.2) = 3%nat /\ r.1 = Throw Cycle.
Proof. vm_compute. split; reflexivity. Qed.

Abbreviation moored := (received new_mirror [spawns 5 "pier" 5 None; spawns 6 "boat" 1 (Some 5)]).
Abbreviation adrift := (received moored.1 [reparents_to 6 None]).
Abbreviation afloat := (let b := (reconcile (Mirror.rt moored.1) moored.2 fresh_bridge).2 in
  let '(r, rt) := pushTransforms f1 (Mirror.rt moored.1) b in (pushTransforms (of_Z 2) rt (reconcile rt adrift.2 r.2).2).1.2).

(** After a detach, which leaves the simulation's coordinates as they were, the node is kept
    where it was seen: six away, and the simulation has the entity at one. *)
Lemma detached_is_drawn_elsewhere :
  Scene.position (xf (renderer afloat)) 1 = (of_Z 6, f0, f0) /\ TransformStore.posX (World.transforms (Mirror.rt adrift.1)) (packHandle 1 1) = f1.
Proof. vm_compute. split; reflexivity. Qed.

(** The last patch of a settled track is not the pose it settled on. *)
Lemma settled_misses_the_pose : let to := MkSample f1 (dec 29 (-2)) f0 f0 f0 f1 f1 0 in let from := MkSample f0 (dec 3 (-2)) f0 f0 f0 f1 f1 0 in
  progress (time from) (time to) (of_Z 2) = f1 /\ trackPosition from to f1 <> (sm_x to, sm_y to, sm_z to).
Proof. vm_compute. split; [reflexivity|discriminate]. Qed.

(** A template the manifest declares with no texture throws out of [reconcile]. *)
Lemma declared_blank_throws : let b := (loadManifest (fun _ => None) (MkManifest [] [(js "ghost", SpriteVisual [] None None None None)]) fresh_bridge).1 in
  let m := received new_mirror [spawns 5 "ghost" 0 None] in (reconcile (Mirror.rt m.1) m.2 b).1 = Throw InvalidNodeDesc.
Proof. vm_compute. reflexivity. Qed.
